(* ===== verification/_CoqProject ===== *)
-Q . S2P
Prelude.v
Objects.v
GoStrings.v
GoUnicode.v
ThreadSafeStore.v
Store.v
DeltaFIFO.v
Controller.v
ProcessorListener.v
SharedInformer.v
WorkQueue.v
GoHeap.v
DelayingQueue.v
CacheHeap.v
FIFO.v
DerivedStores.v
Float64.v
RateLimiters.v
Backoff.v
Parallelizer.v
LeaderElection.v
LeaderSafety.v
Pager.v
LoopMonad.v
Reflector.v
ReflectorTracks.v
ReflectorInformer.v
RetryWatcher.v
EventCorrelator.v
ObjectTracker.v
Synctrack.v
Listers.v
MutationCache.v
RestRequest.v
RestResult.v
RestRetry.v
RestAttempts.v
WatchHelpers.v
TransportHeaders.v
Transport.v
ExecAuth.v
TransportTLS.v
Discovery.v
DiscoveryClient.v
MemCache.v
RestMapper.v
Kubeconfig.v
KubeconfigModify.v
EventsV1.v
JSONPathParser.v
JSONPath.v
