(* ===== verification/Prelude.v ===== *)
(** * A verification library for client-go

    client-go is the Go client of the Kubernetes API.  Most of its repository is
    generated (typed clients, listers, informers, apply configurations).  Its own logic
    is the machinery controllers are built from: reflectors, caches and queues, which
    keep a local copy of the server's objects and tell handlers about changes; work
    queues with their rate limiters; leader election; the recording of events; the REST
    client under all of it with the transport under that; discovery, which finds out what
    a server has; and JSONPath templates.  This library models that machinery and proves
    it correct.

    ** How the parts interact

    A request of the REST client ([RestRequest]) is built by a chain of calls, sent with
    retries ([RestRetry]) and answered with a [Result] ([RestResult]).  It passes the round
    trippers of the client's configuration ([Transport]), which write the headers of
    [TransportHeaders] and ask token sources and credential plugins ([ExecAuth]) for
    what they need, over a connection whose TLS options come from [TransportTLS], where
    configurations with the same options share a transport.  A plugin that gets a new
    certificate has the tracked connections closed.  The configuration of a client is
    read from files that are merged by precedence ([Kubeconfig]), and what a command or a
    plugin changes of it is written to the files it came from ([KubeconfigModify]).  A discovery client ([Discovery],
    [DiscoveryClient]) asks for groups and resources, a cache ([MemCache]) is such a
    client over another one, and a mapper ([RestMapper]) is made of what it says.
    Lists are read in pages ([Pager]).  A reflector ([Reflector]) lists and watches the server through such
    calls and writes into a store or into the delta queue of an informer ([DeltaFIFO]):
    [Add], [Update], [Delete], [Replace], [Resync].  The controller's process loop pops
    the deltas of one key at a time; [processDeltas] writes them into an indexed store
    and notifies a handler.  The store is also the queue's "known objects", so what the
    loop writes decides what [Replace] and [Delete] enqueue.  A shared informer's handler
    is a processor that distributes each notification to listeners, each with two
    goroutines and a buffer, added and removed while all this runs.  Listers and the
    mutation cache read the store.  The handlers of controllers add keys to a work queue,
    directly, after a delay, or after the delay a rate limiter asks for.  Controllers run
    under leader election, report what they do through the event correlator or the event
    series of events.k8s.io, wait for conditions of a watch, and are tested against the
    object tracker, a fake server.

    ** Files

    Shared:
    - [Prelude]: Go values, errors, the state-and-error monad, int64 and times, map
      iteration, tactics and shared lemmas.
    - [GoStrings]: the parts of Go's strings, path, path/filepath, strconv and net/textproto
      the code uses, with the lemmas on clean and joined paths.
    - [GoUnicode]: runes and their UTF-8, and the class of the character tables.
    - [Float64]: the part of float64 the delays go through.
    - [LoopMonad]: a monad for code that runs until it is stopped, with its logic.

    Caches and informers (tools/cache):
    - [Objects]: the dynamic values of the caches, object names and key functions
      (store.go, object-names.go, index.go, part of controller.go).
    - [ThreadSafeStore]: the indexed map (thread_safe_store.go).
    - [Store]: the interfaces [Store] and [ThreadSafeStore] as classes of operations
      with classes of laws, and [cache], which implements the one over the other
      (store.go).  Clients are proved against the laws.
    - [DeltaFIFO]: the delta queue (delta_fifo.go).
    - [Controller]: [processDeltas], [newInformer], the process loop and the handler
      adapters (controller.go).
    - [ProcessorListener]: one listener of a shared informer and the tracker of its
      handle (shared_informer.go, synctrack/synctrack.go).
    - [SharedInformer]: the processor, the shared informer, and the whole as a
      concurrent system (shared_informer.go).
    - [Reflector], [ReflectorTracks], [ReflectorInformer]: the reflector
      (reflector.go, retry_with_deadline.go), what it keeps true of its store, and a
      reflector that feeds an informer.
    - [FIFO], [DerivedStores]: the plain keyed queue (fifo.go), UndeltaStore and
      ExpirationCache (undelta_store.go, expiration_cache.go).
    - [Listers], [MutationCache]: listers.go, mutation_cache.go.
    - [Synctrack]: AsyncTracker and Lazy (synctrack/synctrack.go, lazy.go).

    Queues (util/workqueue, util/flowcontrol):
    - [WorkQueue]: the queue, its condition variable and its metrics (queue.go,
      metrics.go).
    - [GoHeap]: the algorithms of container/heap over the interface they use, with
      laws; [DelayingQueue] (delaying_queue.go) and [CacheHeap] (tools/cache/heap.go)
      are two implementations of that interface and clients of those algorithms.
    - [RateLimiters]: the limiters and the rate limiting queue
      (default_rate_limiters.go, rate_limiting_queue.go).
    - [Backoff]: flowcontrol/backoff.go.  [Parallelizer]: parallelizer.go.

    Leader election (tools/leaderelection):
    - [LeaderElection]: one elector (leaderelection.go, resourcelock).
      [LeaderSafety]: the electors and the server as a system in time.

    Talking to the server:
    - [RestRequest]: requests and their URLs (rest/request.go, client.go).
    - [RestResult]: responses, results and warnings (request.go, warnings.go).
    - [RestRetry], [RestAttempts]: retries and backoff managers (with_retry.go,
      urlbackoff.go, request.go), and the theorems about the attempts they make.
    - [Pager]: tools/pager.  [RetryWatcher]: tools/watch/retrywatcher.go.
    - [WatchHelpers]: the event processor of informerwatcher.go and the waiting of until.go
      (tools/watch).
    - [EventCorrelator]: tools/record.  [EventsV1]: tools/events (the series, the recorder,
      field selectors) and tools/reference.
    - [ObjectTracker]: the fake server of testing/fixture.go, with actions.go and fake.go.
    - [TransportHeaders]: what is written into headers and what is logged of them
      (transport/round_trippers.go).  [Transport]: the round trippers as a chain over a
      store of requests, and token sources (round_trippers.go, token_source.go,
      transport.go, config.go).
    - [TransportTLS]: TLS options, the cache of transports, the rotation of certificates
      and the tracker of connections (transport/transport.go, cache.go, cert_rotation.go,
      util/connrotation).
    - [ExecAuth]: credential plugins (plugin/pkg/client/auth/exec/exec.go).
    - [Discovery]: the data, the aggregated format, and the functions over any discovery
      client (discovery_client.go, aggregated_discovery.go, helper.go of discovery).
      [DiscoveryClient]: the client of a server.  [MemCache]: the cache
      (discovery/cached/memory).  [RestMapper]: restmapper/discovery.go and shortcut.go.

    Configuration files (tools/clientcmd):
    - [Kubeconfig]: the data (api/types.go), its lists of named stanzas (api/v1/conversion.go),
      relative paths, files, migration, and loading by precedence (loader.go).
    - [KubeconfigModify]: the interface [ConfigAccess] with its two implementations and their
      defaults, and [ModifyConfig] under its locks (config.go).

    Templates (util/jsonpath):
    - [JSONPathParser]: the scanner and the parser (parser.go, node.go).  [JSONPath]: the
      evaluator over reflected values (jsonpath.go, with the comparisons of
      third_party/forked/golang/template).

    ** Conventions

    Definitions have the names of the code; a method [T.m] is [m], or [T_m] where two
    types of a file share it.  A method that changes its receiver and may fail is a
    [stateM]: the state comes back with the error, as the code's does.  A panic is [None]
    of an [option], or [Panics] in [LoopMonad].  A call that waits on a condition variable
    ([Pop], [Get]) is a function of the state in which it holds the lock, with an
    outcome for having to wait.  Time is an argument.  The order in which Go ranges
    over a map is the class [MapRange]: every theorem holds for every order.

    Code outside the repository is a parameter with what its documentation promises as
    laws, and concrete instances in the witnesses: object metadata ([MetaAccessor],
    [WatchObjects], [ListObject]), API errors ([APIErrors]), string sets ([SetsString],
    [PopAny]), ring buffers ([RingGrowing]), caches ([LRU], [LRUExpireCache]), selectors
    ([LabelSelectors]), token buckets ([TokenBucket], [Limiter]), JSON ([RecordJSON]), the
    API of leases ([LeasesAPI]), codecs and media types ([Outside], [Codec]), the network
    ([Network]), group versions as strings ([Schema]), character tables ([Unicode]), and
    what Go leaves to the implementation ([FloatConv]), and the merging of structs
    ([Mergo]).  What [ModifyConfig] needs of the access it is given is the class
    [Lawful], which [PathOptions] are proved to have, and loading rules whose precedence is in
    the order of its names.  The moments at which a reflector is looked at are the class
    [Moments]: between the turns of its loops, and in the gap between a write to its store and
    the version it sets afterwards.  Empty and nil slices of a
    configuration are one value.  Credential plugins, crypto/tls,
    files, and the mappers of k8s.io/apimachinery are variables of the sections that use
    them.  The order in which goroutines that only collect answers come is the class
    [Schedule].

    Concurrency is modelled where it is the point.  An informer is a sequence of
    events, each atomic under the queue's lock.  A shared informer is a step relation
    over the state of all its goroutines: the holder of [blockDeltas] works off its
    sends one by one while listeners, timers and clients move; who may move when is
    decided by the locks the code takes.  The work queue's waiters are counted, with
    [Signal] waking any one of them.  The parallelizer and [Lazy] are step relations over
    the places of their goroutines; so are the event processor, the event broadcaster
    and the tracker of connections; leader election is a timed system of candidates with
    their own clocks, requests that travel, and a server.

    Code that runs until it is stopped (the reflector, the retry watcher, the attempts of
    a request) is written in [LoopMonad]: what the outside answers may depend on all
    that happened before.

    ** What the theorems show

    - Informers: whatever the interleaving, an informer drains to exactly the map of
      what was reported; its handler's notifications replay to the store's contents;
      every handler of a shared informer, whenever added and with syncs kept from it,
      is led to the store's keys and versions; a handle reports synced exactly when
      the initial list has been delivered; a filtering handler passes on an exact
      stream for the objects that pass.
    - Reflectors: at every moment the store holds exactly the objects the server had at
      one version, which between the turns of the loops is the reflector's, and is never
      older than that; the reflector's version never goes back; together with the queue and the
      informer they mirror the server; a reflector ends only when it is stopped.
    - The delta queue: its invariant, order and no loss of deltas, [HasSynced], what
      [Replace] reconciles.
    - Listeners: first in first out, nothing lost, and everything delivered under
      every schedule; resync periods.
    - Stores: the indices are exactly the inverse image of the items on every
      reachable store, stores behave as maps, a lister lists what a search would, and
      reads through the mutation cache see the caller's own writes.
    - Work queues: the life of an item, mutual exclusion, no lost add (an item that was
      added is handed out in the end), order, no lost wake-up; the delaying queue adds exactly what is due, in the order of time,
      and keeps the earlier of two times; rate limiters ask for the delays they
      document, in floating point as it is.
    - Heaps: the algorithms of container/heap keep their order, and [Pop] returns a
      least object; object names and keys determine each other.
    - Parallel work is done exactly once per piece, and ends.
    - Leader election: at most one leader in prompt runs, under bounded clock rates and the
      whole-second leases there are; what an accepted configuration guarantees.  Promptness, of
      the candidates and of the answers that make them leaders, is an assumption: the
      package does not enforce it, and examples show two leaders without it.
    - Requests: the path of a request is its prefix and what it was asked for, whatever
      the arguments hold; every retry was allowed by the answer before it and waited as
      long as it was asked to; requests end, and call back once with the response they
      settle for, also where net/http gives it together with an error; no response body is
      lost but one; a failed response is never an object.
    - Pages make one snapshot; a restarted watch is one stream; similar events are
      aggregated and written at most once; the tracker is the map it stands for,
      tells its watches exactly what changes, and panics when a channel is full; [Lazy] never returns a stale value.
    - The series of an event carries the count of its run, and a finished one goes away
      only when the server has it or never will; what is pushed to the event processor
      comes out in order; waiting for conditions is one pass over the events.
    - Transports: a request is sent once with exactly the headers its configuration
      stands for, credentials, agent and user of the caller coming first, and the caller's
      request stays as it was; a server reads from the
      headers of a proxy the user that was given; logs do not depend on credentials;
      credentials that were refused are rotated once; the cache of transports gives
      what would be made anew, but for empty files and protocols with commas.
    - Discovery: an aggregated document is split without loss, down to each resource; the preferred resources
      are those of the version chosen for each; the downloads are merged as documented;
      retries; after [Invalidate] a cache says nothing older; a mapper ranks core v1 and
      the preferred versions first, and its questions come back in two passes, from a mapper of what
      the cache lists if a new one is made; a name
      is expanded only to a resource that has it for a short name.
    - Configuration files: of what is keyed by a name, the first document that has the name
      wins, and of the rest the first that says anything, with its paths made absolute; lists
      of named stanzas and relative paths lead back to what they were made of; what is loaded
      after [ModifyConfig] is the configuration it was given, for the edits it can write.
    - Templates: parsing ends, without a panic; evaluating a template whose ranges and
      ends match is evaluating a structure of blocks; an index is the element at its
      place, or an error.

    Some theorems and examples record where the code and its comments part, or where the
    code does not do what it means to: they are the findings of the manifest, among them
    two leaders with whole-second leases, a rate limiter that overflows to no delay, a
    mutation cache whose additions can be read once, a leaked connection, a mapper
    that calls itself without end over a server without groups, a precedence of
    configuration files that is sorted while it is in use, and a plugin's command that is lost
    when its path is made relative.

    ** Fuel and bounds

    Recursion is structural except in [GoHeap], [DelayingQueue], [Pager], [ObjectTracker],
    [JSONPathParser], [JSONPath], [RestMapper] and the loops of [LoopMonad].  [up] halves its index and [down] doubles it, so the
    length of the heap is enough fuel; the loop of [waitingLoop_top] pops one entry a
    turn, so the number of entries is; [Pager.List] needs one turn more than the longest
    list has pages; [Add] of the tracker descends into an object, so its size
    is; the parser consumes a character of its text or a comma of it a turn, so its length
    and commas are, and [descend] of the evaluator goes down a value, so its height is; a
    question to the deferred mapper needs two passes.  The theorems about them say so or have no hypothesis on fuel.  A loop of
    [LoopMonad] takes one turn from a budget: for endless loops the budgets 0, 1, 2, ...
    show every moment of one run, and for requests a theorem says which budget they end
    within.  Integers that can overflow wrap at 64 bits ([wrap64]); [Time.Sub] saturates.
    Bounds that are assumed are hypotheses: a listener has fewer than 2^63 notifications
    in flight, a request fewer than 2^63 - 1 retries.  The step of a parallel worker that looks
    whether the context is done and the call after it are one step.

    ** What is not modelled

    Of the modelled files: setters before an informer's start, polling helpers, log
    messages, traces (of the client, and of [DebugDetailedTiming]), [CancelRequest] of the
    round trippers, metrics, the mutation detector (a debugging aid), the broadcaster
    under the event recorder and its adapter, logging watchers, the work queue that
    triggers the rotation of certificates, the dump that makes the key of the cache of
    plugins, and the OpenAPI documents and constructors of discovery.  [ToLower] of a
    resource is modelled on ASCII.  Of JSONPath values, complex numbers and non-empty
    interfaces.  Of tools/clientcmd: warnings,
    overrides, client configurations and validation.  Not modelled: the cache of discovery on disk,
    certificate managers and keys, port forwarding and remote commands, untyped clients;
    generated code; test doubles other than the tracker. *)

From stdpp Require Export base gmap strings list sorting relations fin_maps fin_sets.
From Stdlib Require Export ZArith Lia.

(** ** Scopes and options *)

Declare Scope go_scope.
Delimit Scope go_scope with go.
#[global] Open Scope Z_scope.
#[global] Open Scope go_scope.

(** ** Go interface values

    A Go [interface{}] is either [nil] or holds a dynamic value.  [iface V] is
    that type for a universe [V] of dynamic values: [None] is [nil]. *)

Abbreviation iface V := (option V).

(** ** Errors and results

    The errors the modelled code returns.  [Errorf] is [fmt.Errorf] or
    [errors.New] with its format and its string arguments, [Wrapf] a format
    applied to an inner error, [KeyError] the struct of tools/cache/store.go,
    [ErrRequeue] the struct of tools/cache/fifo.go (its [Err] field may be nil)
    and [ErrFIFOClosed], [ErrZeroLengthDeltasObject] the package variables. *)

Inductive error (V : Type) : Type :=
| Errorf (format : string) (args : list string)
| Wrapf (format : string) (inner : error V)
| KeyError (Obj : iface V) (Err : error V)
| ErrRequeue (Err : option (error V))
| ErrFIFOClosed
| ErrZeroLengthDeltasObject.
Arguments Errorf {V} format args.
Arguments Wrapf {V} format inner.
Arguments KeyError {V} Obj Err.
Arguments ErrRequeue {V} Err.
Arguments ErrFIFOClosed {V}.
Arguments ErrZeroLengthDeltasObject {V}.

Inductive result (V A : Type) : Type :=
| Ok (a : A)
| Err (e : error V).
Arguments Ok {V A} a.
Arguments Err {V A} e.

Definition result_bind {V A B} (r : result V A) (f : A -> result V B) : result V B :=
  match r with
  | Ok a => f a
  | Err e => Err e
  end.

Definition is_ok {V A} (r : result V A) : bool :=
  match r with Ok _ => true | Err _ => false end.

Notation "'let?' x ':=' r 'in' k" := (result_bind r (fun x => k))
  (at level 200, x pattern, right associativity) : go_scope.

(** ** State with errors

    A Go method that mutates its receiver and returns an error keeps the
    mutations it made before the error: the state comes back on both paths. *)

Definition stateM (S V A : Type) : Type := S -> S * result V A.

Definition sret {S V A} (a : A) : stateM S V A := fun s => (s, Ok a).
Definition sthrow {S V A} (e : error V) : stateM S V A := fun s => (s, Err e).
Definition sbind {S V A B} (m : stateM S V A) (f : A -> stateM S V B) : stateM S V B :=
  fun s => match m s with
           | (s', Ok a) => f a s'
           | (s', Err e) => (s', Err e)
           end.

(** A [for _, x := range xs] loop whose body may return an error. *)
Fixpoint sfor {S V A} (xs : list A) (body : A -> stateM S V unit) : stateM S V unit :=
  match xs with
  | [] => sret tt
  | x :: xs' => sbind (body x) (fun _ => sfor xs' body)
  end.

(** ** Machine integers, durations and times

    [time.Duration] is an int64 count of nanoseconds; its arithmetic wraps.
    [time.Time] is a point on the nanosecond axis; [Time.Sub] saturates at the
    ends of the Duration range, as the standard library documents. *)

Definition MaxInt64 : Z := 9223372036854775807.
Definition MinInt64 : Z := -9223372036854775808.

Definition wrap64 (z : Z) : Z := (z + 2 ^ 63) mod 2 ^ 64 - 2 ^ 63.

(** int32 *)
Definition wrap32 (z : Z) : Z := (z + 2 ^ 31) mod 2 ^ 32 - 2 ^ 31.

Definition in_int64 (z : Z) : Prop := MinInt64 <= z <= MaxInt64.

Definition time_sub (t u : Z) : Z := Z.max MinInt64 (Z.min MaxInt64 (t - u)).

Definition Nanosecond : Z := 1.
Definition Microsecond : Z := 1000 * Nanosecond.
Definition Millisecond : Z := 1000 * Microsecond.
Definition Second : Z := 1000 * Millisecond.

(** ** Iteration over a Go map

    The order in which [for k, v := range m] visits a map is unspecified.  An
    operation that depends on it takes the order as an instance of this class,
    so its theorems hold for every order. *)

Class MapRange : Type := {
  range : forall {K : Type} `{Countable K} {A : Type}, gmap K A -> list (K * A);
  range_perm : forall {K : Type} `{Countable K} {A : Type} (m : gmap K A), range m ≡ₚ map_to_list m
}.

Definition range_in_key_order : MapRange :=
  {|
  range := fun K _ _ A m => map_to_list m;
  range_perm := fun K _ _ A m => reflexivity _
|}.

(** ** Tactics *)

(** Splits every [match] of the goal whose scrutinee is not a variable bound
    under a binder, keeping the equations. *)
Ltac split_match :=
  match goal with
  | |- context [match ?x with _ => _ end] => destruct x eqn:?
  end.

Ltac split_match_in H :=
  match type of H with
  | context [match ?x with _ => _ end] => destruct x eqn:?
  end.

(** Turns boolean comparisons of the context into propositions. *)
Ltac bool_to_prop :=
  repeat match goal with
  | H : (_ && _)%bool = true |- _ => apply andb_prop in H; destruct H
  | H : (_ && _)%bool = false |- _ => apply andb_false_iff in H
  | H : (_ || _)%bool = true |- _ => apply orb_prop in H
  | H : (_ || _)%bool = false |- _ => apply orb_false_iff in H; destruct H
  | H : negb _ = true |- _ => apply negb_true_iff in H
  | H : negb _ = false |- _ => apply negb_false_iff in H
  | H : bool_decide _ = true |- _ => apply bool_decide_eq_true_1 in H
  | H : bool_decide _ = false |- _ => apply bool_decide_eq_false_1 in H
  | H : (_ <? _)%Z = true |- _ => apply Z.ltb_lt in H
  | H : (_ <? _)%Z = false |- _ => apply Z.ltb_ge in H
  | H : (_ <=? _)%Z = true |- _ => apply Z.leb_le in H
  | H : (_ <=? _)%Z = false |- _ => apply Z.leb_gt in H
  | H : (_ =? _)%Z = true |- _ => apply Z.eqb_eq in H
  | H : (_ =? _)%Z = false |- _ => apply Z.eqb_neq in H
  end.

(** ** Lemmas on results and the state monad *)

Section monad_lemmas.
Context {S V : Type}.

Lemma sbind_ok {A B} (m : stateM S V A) (f : A -> stateM S V B) s s' a :
  m s = (s', Ok a) -> sbind m f s = f a s'.
Proof. unfold sbind. intros ->. done. Qed.

Lemma sbind_err {A B} (m : stateM S V A) (f : A -> stateM S V B) s s' e :
  m s = (s', Err e) -> sbind m f s = (s', Err e).
Proof. unfold sbind. intros ->. done. Qed.

(** A property of the state that every iteration preserves holds after the
    loop, error or not. *)
Lemma sfor_invariant {A} (P : S -> Prop) (xs : list A) (body : A -> stateM S V unit) s :
  (forall x s, x ∈ xs -> P s -> P (body x s).1) ->
  P s -> P (sfor xs body s).1.
Proof.
  revert s. induction xs as [|x xs IH]; intros s Hbody HP; simpl; [done|].
  unfold sbind. pose proof (Hbody x s ltac:(left) HP) as Hx.
  destruct (body x s) as [s1 [[]|e]]; simpl in *; [|done].
  apply IH; [|done]. intros y s' Hy. apply Hbody. by right.
Qed.

End monad_lemmas.

(** ** Lemmas on lists *)

Section list_lemmas.
Context {A : Type}.

Lemma list_filter_all (P : A -> Prop) `{!forall x, Decision (P x)} (l : list A) :
  Forall P l -> filter P l = l.
Proof.
  induction 1 as [|x l Hx _ IH]; [done|]. by rewrite filter_cons_True, IH.
Qed.

Lemma list_filter_none (P : A -> Prop) `{!forall x, Decision (P x)} (l : list A) :
  Forall (fun x => ~ P x) l -> filter P l = [].
Proof.
  induction 1 as [|x l Hx _ IH]; [done|]. by rewrite filter_cons_False, IH.
Qed.

Lemma last_snoc_inv (l : list A) x : last l = Some x -> exists l', l = l' ++ [x].
Proof. apply last_Some. Qed.

Lemma prefix_drop (l k : list A) n : l `prefix_of` k -> drop n l `prefix_of` drop n k.
Proof. intros [j ->]. rewrite drop_app. by eexists. Qed.

Lemma tail_drop_1 (l : list A) : drop 1 l = tail l.
Proof. by destruct l. Qed.

Lemma NoDup_snoc (l : list A) x : NoDup l -> x ∉ l -> NoDup (l ++ [x]).
Proof.
  intros Hl Hx. apply NoDup_app. split; [done|]. split.
  - intros y Hy ->%list_elem_of_singleton. done.
  - apply NoDup_singleton.
Qed.

End list_lemmas.

Section range_lemmas.
Context `{MapRange} {K : Type} `{Countable K} {A : Type}.

Lemma elem_of_range (m : gmap K A) k v : (k, v) ∈ range m <-> m !! k = Some v.
Proof. rewrite (range_perm m). apply elem_of_map_to_list. Qed.

Lemma NoDup_fst_range (m : gmap K A) : NoDup (range m).*1.
Proof. rewrite (range_perm m). apply NoDup_fst_map_to_list. Qed.

Lemma length_range (m : gmap K A) : length (range m) = size m.
Proof. rewrite (range_perm m). apply length_map_to_list. Qed.

Lemma elem_of_range_keys (m : gmap K A) k : k ∈ (range m).*1 <-> is_Some (m !! k).
Proof.
  rewrite list_elem_of_fmap. split.
  - intros ((k' & v) & -> & Hv%elem_of_range). by eexists.
  - intros (v & Hv%elem_of_range). by exists (k, v).
Qed.

Lemma list_to_set_range (m : gmap K A) : list_to_set (range m).*1 = dom m.
Proof. apply set_eq. intros k. by rewrite elem_of_list_to_set, elem_of_range_keys, elem_of_dom. Qed.

End range_lemmas.

(** ** Lemmas on machine integers *)

Lemma wrap32_id z : - 2 ^ 31 <= z < 2 ^ 31 -> wrap32 z = z.
Proof. unfold wrap32. intros. rewrite Z.mod_small; lia. Qed.

Lemma wrap64_id z : in_int64 z -> wrap64 z = z.
Proof. unfold in_int64, wrap64, MinInt64, MaxInt64. intros. rewrite Z.mod_small; lia. Qed.

Lemma wrap64_range z : in_int64 (wrap64 z).
Proof.
  unfold in_int64, wrap64, MinInt64, MaxInt64.
  pose proof (Z.mod_pos_bound (z + 2 ^ 63) (2 ^ 64)). lia.
Qed.

Lemma time_sub_exact t u : in_int64 (t - u) -> time_sub t u = t - u.
Proof. unfold time_sub, in_int64. lia. Qed.

(** Saturation does not show in a comparison with a proper duration. *)
Lemma ltb_time_sub d t u : MinInt64 <= d < MaxInt64 -> (d <? time_sub t u) = (d <? t - u).
Proof. intros Hd. unfold time_sub. apply eq_iff_eq_true. rewrite !Z.ltb_lt. lia. Qed.

Lemma time_sub_ltb d t u : MinInt64 < d <= MaxInt64 -> (time_sub t u <? d) = (t - u <? d).
Proof. intros Hd. unfold time_sub. apply eq_iff_eq_true. rewrite !Z.ltb_lt. lia. Qed.

Create HintDb go discriminated.
#[export] Hint Resolve wrap64_range elem_of_range NoDup_fst_range : go.
