(* ===== verification/Objects.v ===== *)
(** * Objects, keys and object names.

    The dynamic values the caches of tools/cache hold, and the functions of
    tools/cache/store.go, object-names.go and index.go that compute keys and
    index values from them.  [meta.Accessor] (k8s.io/apimachinery) is the
    parameter [Accessor]. *)

From S2P Require Import Prelude.
From Stdlib Require Import Ascii.
From stdpp Require Import pretty.

(** ** Dynamic values *)

(** [DeltaType] and its constants (tools/cache/delta_fifo.go). *)
Inductive DeltaType : Type := Added | Updated | Deleted | Replaced | Sync.

#[global] Instance DeltaType_eq_dec : EqDecision DeltaType.
Proof. solve_decision. Defined.

(** What an [interface{}] of tools/cache may hold: an API object, an
    [ExplicitKey], a [DeletedFinalStateUnknown] tombstone or a [Deltas]. *)
Inductive value (O : Type) : Type :=
| VObject (o : O)
| VExplicitKey (key : string)
| VTombstone (Key : string) (Obj : iface (value O))
| VDeltas (ds : list (Delta O))
with Delta (O : Type) : Type :=
| mkDelta (Type_ : DeltaType) (Object : iface (value O)).
Arguments VObject {O} o.
Arguments VExplicitKey {O} key.
Arguments VTombstone {O} Key Obj.
Arguments VDeltas {O} ds.
Arguments mkDelta {O} Type_ Object.

Definition dType {O} (d : Delta O) : DeltaType := let 'mkDelta t _ := d in t.
Definition dObject {O} (d : Delta O) : iface (value O) := let 'mkDelta _ o := d in o.

(** [KeyFunc] and [IndexFunc]. *)
Abbreviation KeyFunc V := (iface V -> result V string).
Abbreviation IndexFunc V := (iface V -> result V (list string)).

(** The part of [metav1.Object] the code reads. *)
Record ObjectMeta : Type := {
  GetNamespace : string;
  GetName : string;
  GetResourceVersion : string
}.

Class MetaAccessor (O : Type) : Type :=
  Accessor : iface (value O) -> result (value O) ObjectMeta.

(** ** Object names *)

Record ObjectName : Type := mkObjectName { Namespace : string; Name : string }.

#[global] Instance ObjectName_eq_dec : EqDecision ObjectName.
Proof. solve_decision. Defined.

Definition NewObjectName (namespace name : string) : ObjectName :=
  {| Namespace := namespace; Name := name |}.

Definition Parts (objName : ObjectName) : string * string :=
  (Namespace objName, Name objName).

(** [ObjectName.String]. *)
Definition ObjectName_String (objName : ObjectName) : string :=
  if (0 <? String.length (Namespace objName))%nat
  then (Namespace objName +:+ "/" +:+ Name objName)%string
  else Name objName.

(** [strings.Split] for a one-character separator. *)
Fixpoint strings_Split (s : string) (sep : ascii) : list string :=
  match s with
  | EmptyString => [EmptyString]
  | String c s' =>
      if Ascii.eqb c sep then EmptyString :: strings_Split s' sep
      else match strings_Split s' sep with
           | [] => [String c EmptyString]
           | p :: ps => String c p :: ps
           end
  end.

Definition slash : ascii := "/"%char.

(** [SplitMetaNamespaceKey]; on an error the code also returns two empty
    strings. *)
Definition SplitMetaNamespaceKey {V} (key : string) : result V (string * string) :=
  match strings_Split key slash with
  | [name] => Ok (EmptyString, name)
  | [namespace; name] => Ok (namespace, name)
  | _ => Err (Errorf "unexpected key format: %q" [key])
  end.

Definition ParseObjectName {V} (str : string) : result V ObjectName :=
  result_bind (SplitMetaNamespaceKey str)
    (fun p => Ok {| Namespace := p.1; Name := p.2 |}).

(** ** Key functions *)

Section keys.
Context {O : Type} `{MetaAccessor O}.

Definition MetaObjectToName (obj : ObjectMeta) : ObjectName :=
  if (0 <? String.length (GetNamespace obj))%nat
  then {| Namespace := GetNamespace obj; Name := GetName obj |}
  else {| Namespace := EmptyString; Name := GetName obj |}.

Definition ObjectToName (obj : iface (value O)) : result (value O) ObjectName :=
  match Accessor obj with
  | Err e => Err (Wrapf "object has no meta: %v" e)
  | Ok m => Ok (MetaObjectToName m)
  end.

Definition MetaNamespaceKeyFunc : KeyFunc (value O) := fun obj =>
  match obj with
  | Some (VExplicitKey key) => Ok key
  | _ => result_bind (ObjectToName obj) (fun n => Ok (ObjectName_String n))
  end.

(** tools/cache/controller.go. *)
Definition DeletionHandlingMetaNamespaceKeyFunc : KeyFunc (value O) := fun obj =>
  match obj with
  | Some (VTombstone key _) => Ok key
  | _ => MetaNamespaceKeyFunc obj
  end.

(** [MetaNamespaceIndexFunc]; the code returns [[]string{""}] next to its error,
    which every caller ignores. *)
Definition MetaNamespaceIndexFunc : IndexFunc (value O) := fun obj =>
  match Accessor obj with
  | Err e => Err (Wrapf "object has no meta: %v" e)
  | Ok m => Ok [GetNamespace m]
  end.

End keys.

(** [IndexFuncToKeyFuncAdapter] (tools/cache/index.go). *)
Definition IndexFuncToKeyFuncAdapter {V} (indexFunc : IndexFunc V) : KeyFunc V := fun obj =>
  let? indexKeys := indexFunc obj in
  match indexKeys with
  | _ :: _ :: _ => Err (Errorf "too many keys: %v" indexKeys)
  | [] => Err (Errorf "unexpected empty indexKeys" [])
  | [k] => Ok k
  end.

(** ** Specification vocabulary *)

(** No character of [s] is a slash: what the API server enforces on names and
    namespaces. *)
Fixpoint no_slash (s : string) : bool :=
  match s with
  | EmptyString => true
  | String c s' => negb (Ascii.eqb c slash) && no_slash s'
  end.

(** Joining the pieces with the separator gives the string back, and no piece
    holds the separator. *)
Fixpoint join_slash (ps : list string) : string :=
  match ps with
  | [] => EmptyString
  | [p] => p
  | p :: ps' => p +:+ String slash (join_slash ps')
  end.

(** ** A concrete kind of object

    The objects the witnesses of the library evaluate the code on. *)

Record pod : Type := mkPod { pod_namespace : string; pod_name : string; pod_version : Z }.

Definition pod_accessor : MetaAccessor pod := fun obj =>
  match obj with
  | Some (VObject p) => Ok {| GetNamespace := pod_namespace p; GetName := pod_name p;
         GetResourceVersion := pretty (pod_version p) |}
  | _ => Err (Errorf "object does not implement the Object interfaces" [])
  end.

Definition pod_obj (name : string) (version : Z) : iface (value pod) :=
  Some (VObject (mkPod "default" name version)).

(** ** Lemmas *)

Lemma strings_Split_not_nil s sep : strings_Split s sep <> [].
Proof. destruct s as [|c s]; simpl; [done|]. by repeat split_match. Qed.

Lemma strings_Split_no_slash s : no_slash s = true -> strings_Split s slash = [s].
Proof.
  induction s as [|c s IH]; simpl; [done|]. intros H. bool_to_prop.
  by rewrite H, IH.
Qed.

Lemma strings_Split_app s t :
  no_slash s = true ->
  strings_Split (s +:+ String slash t) slash = s :: strings_Split t slash.
Proof.
  induction s as [|c s IH]; intros H; [done|].
  cbn [no_slash] in H. bool_to_prop.
  change (String c s +:+ String slash t) with (String c (s +:+ String slash t)).
  cbn [strings_Split]. by rewrite H, IH.
Qed.

Lemma join_slash_cons p q ps :
  join_slash (p :: q :: ps) = p +:+ String slash (join_slash (q :: ps)).
Proof. done. Qed.

Lemma strings_Split_join s : join_slash (strings_Split s slash) = s.
Proof.
  induction s as [|c s IH]; [done|]. cbn [strings_Split].
  pose proof (strings_Split_not_nil s slash) as Hne.
  destruct (strings_Split s slash) as [|p ps] eqn:E; [done|].
  destruct (Ascii.eqb c slash) eqn:Ec.
  - apply Ascii.eqb_eq in Ec as ->. rewrite join_slash_cons, IH. done.
  - destruct ps as [|q ps].
    + simpl in *. by rewrite IH.
    + rewrite join_slash_cons in *. rewrite <- IH. done.
Qed.

Lemma strings_Split_pieces s : Forall (fun p => no_slash p = true) (strings_Split s slash).
Proof.
  induction s as [|c s IH]; cbn [strings_Split]; [by repeat constructor|].
  destruct (Ascii.eqb c slash) eqn:Ec; [by constructor|].
  destruct (strings_Split s slash) as [|p ps]; inversion_clear IH; repeat constructor;
    cbn [no_slash]; rewrite ?Ec; auto.
Qed.

Lemma ParseObjectName_String_ok {V} (n : ObjectName) :
  no_slash (Namespace n) = true -> no_slash (Name n) = true ->
  ParseObjectName (V:=V) (ObjectName_String n) = Ok n.
Proof.
  destruct n as [ns name]; simpl. intros Hns Hname.
  unfold ParseObjectName, SplitMetaNamespaceKey, ObjectName_String. cbn [Namespace Name].
  destruct ns as [|c ns].
  - simpl. by rewrite strings_Split_no_slash.
  - change (0 <? String.length (String c ns))%nat with true. cbv iota.
    change ("/" +:+ name) with (String slash name).
    by rewrite strings_Split_app, strings_Split_no_slash.
Qed.

Lemma ParseObjectName_inv {V} s n :
  ParseObjectName (V:=V) s = Ok n ->
  (strings_Split s slash = [Name n] /\ Namespace n = EmptyString) \/
  strings_Split s slash = [Namespace n; Name n].
Proof.
  unfold ParseObjectName, SplitMetaNamespaceKey.
  destruct (strings_Split s slash) as [|a [|b [|c ps]]]; simpl; intros; simplify_eq/=; auto.
Qed.

(** ** Properties *)

(** The string key of an object name determines it.  For names without a
    slash, [ParseObjectName] inverts [ObjectName.String], and two different
    names never share a key. *)
Theorem ObjectName_key_roundtrip {V} (n m : ObjectName) :
  no_slash (Namespace n) = true -> no_slash (Name n) = true ->
  no_slash (Namespace m) = true -> no_slash (Name m) = true ->
  ParseObjectName (V:=V) (ObjectName_String n) = Ok n /\
  (ObjectName_String m = ObjectName_String n -> m = n).
Proof.
  intros Hn1 Hn2 Hm1 Hm2. split; [by apply ParseObjectName_String_ok|].
  intros E. pose proof (ParseObjectName_String_ok (V:=V) n Hn1 Hn2) as Pn.
  rewrite <- E, ParseObjectName_String_ok in Pn by done. congruence.
Qed.

Lemma ObjectName_key_roundtrip_witness :
  ParseObjectName (V:=unit) (ObjectName_String (mkObjectName "kube-system" "dns"))
    = Ok (mkObjectName "kube-system" "dns") /\
  (ObjectName_String (mkObjectName "" "dns") =
   ObjectName_String (mkObjectName "kube-system" "dns") ->
   mkObjectName "" "dns" = mkObjectName "kube-system" "dns").
Proof. apply (ObjectName_key_roundtrip (V:=unit)); reflexivity. Defined.

(** [ParseObjectName] on an arbitrary string.  It succeeds exactly on the
    strings with at most one slash; the parts it returns hold no slash; printing
    them gives the string back, except that a leading slash with nothing before
    it is dropped. *)
Theorem ParseObjectName_total {V} (s : string) :
  match ParseObjectName (V:=V) s with
  | Ok n =>
      (length (strings_Split s slash) <= 2)%nat /\
      no_slash (Namespace n) = true /\ no_slash (Name n) = true /\
      (ObjectName_String n = s \/
       (Namespace n = EmptyString /\ s = String slash (Name n)))
  | Err e =>
      (2 < length (strings_Split s slash))%nat /\
      e = Errorf "unexpected key format: %q" [s]
  end.
Proof.
  pose proof (strings_Split_join s) as Hj. pose proof (strings_Split_pieces s) as Hp.
  pose proof (strings_Split_not_nil s slash) as Hne.
  unfold ParseObjectName, SplitMetaNamespaceKey.
  destruct (strings_Split s slash) as [|a [|b [|c ps]]]; simpl in *; [done|..].
  - inversion_clear Hp. repeat split; auto with lia.
  - inversion_clear Hp as [|? ? Ha Hp']. inversion_clear Hp' as [|? ? Hb _].
    repeat split; [lia|done..|].
    destruct a as [|x a]; [right|left]; auto.
  - split; [lia|done].
Qed.
