(* ===== verification/GoStrings.v ===== *)
(** * Strings, paths, numbers and headers of Go's standard library

    [strings.Contains], [strings.ToLower], [path.Clean], [path.Join], the integers of
    strconv and the canonical header keys of net/textproto, as the code uses them.  A path is read as a list
    of components: [Clean] keeps the components and [Join] concatenates them.
    [ToLower] is the ASCII part of the function. *)

From S2P Require Import Prelude Objects.
From Stdlib Require Import Ascii.

(** ** Strings *)

Fixpoint strings_Contains (s sub : string) : bool :=
  String.prefix sub s ||
  match s with
  | EmptyString => false
  | String _ s => strings_Contains s sub
  end.

Definition char_in (lo hi c : ascii) : bool :=
  (N_of_ascii lo <=? N_of_ascii c)%N && (N_of_ascii c <=? N_of_ascii hi)%N.

Definition lower_char (c : ascii) : ascii :=
  if char_in "A" "Z" c then ascii_of_N (N_of_ascii c + 32) else c.

Definition upper_char (c : ascii) : ascii :=
  if char_in "a" "z" c then ascii_of_N (N_of_ascii c - 32) else c.

Fixpoint strings_ToLower (s : string) : string :=
  match s with
  | EmptyString => EmptyString
  | String c s => String (lower_char c) (strings_ToLower s)
  end.

Definition strings_HasPrefix (s p : string) : bool := String.prefix p s.

(** [strings.HasSuffix] for a one-character suffix. *)
Fixpoint ends_with (s : string) (c : ascii) : bool :=
  match s with
  | EmptyString => false
  | String d EmptyString => Ascii.eqb c d
  | String _ s => ends_with s c
  end.

Definition strings_TrimPrefix (s p : string) : string :=
  if String.prefix p s then String.substring (String.length p) (String.length s - String.length p) s else s.

(** ** Paths *)

Definition rooted (p : string) : bool :=
  match p with
  | String c _ => Ascii.eqb c slash
  | EmptyString => false
  end.

(** One element of a path, on the stack of the elements kept so far. *)
Definition path_step (r : bool) (stack : list string) (seg : string) : list string :=
  if decide (seg = "") then stack
  else if decide (seg = ".") then stack
  else if decide (seg = "..") then
    match stack with
    | [] => if r then [] else [".."]
    | top :: rest => if decide (top = "..") then ".." :: stack else rest
    end
  else seg :: stack.

Definition components (p : string) : list string :=
  rev (fold_left (path_step (rooted p)) (strings_Split p slash) []).

Definition render (r : bool) (parts : list string) : string :=
  if r then String slash (join_slash parts)
  else match parts with [] => "." | _ => join_slash parts end.

Definition path_Clean (p : string) : string :=
  if decide (p = "") then "." else render (rooted p) (components p).

Fixpoint drop_empty (l : list string) : list string :=
  match l with
  | EmptyString :: l => drop_empty l
  | _ => l
  end.

Definition path_Join (elem : list string) : string :=
  match drop_empty elem with
  | [] => ""
  | l => path_Clean (join_slash l)
  end.

Definition filepath_Dir (p : string) : string := path_Clean (join_slash (removelast (strings_Split p slash) ++ [""])).
Definition filepath_Abs (wd p : string) : string := if rooted p then path_Clean p else path_Join [wd; p].

(** ** Numbers *)

Definition digit (c : ascii) : option Z :=
  let n := Z.of_nat (nat_of_ascii c) in if (48 <=? n) && (n <=? 57) then Some (n - 48) else None.

(** Digits only; none of the prefixes reaches the bound. *)
Fixpoint digits (bound : Z) (s : string) (acc : Z) : option Z :=
  match s with
  | EmptyString => Some acc
  | String c s => d ← digit c; if acc * 10 + d <? bound then digits bound s (acc * 10 + d) else None
  end.

(** [strconv.ParseUint(s, 10, 64)]: at least one digit, below 2^64. *)
Definition ParseUint (s : string) : option Z :=
  match s with EmptyString => None | _ => digits (2 ^ 64) s 0 end.

(** [strconv.ParseInt(s, 10, 64)] and [strconv.Atoi]: a sign is allowed. *)
Definition ParseInt (s : string) : option Z :=
  match s with
  | EmptyString => None
  | String "-" EmptyString => None
  | String "-" s => n ← digits (2 ^ 63 + 1) s 0; Some (- n)
  | String "+" EmptyString => None
  | String "+" s => digits (2 ^ 63) s 0
  | s => digits (2 ^ 63) s 0
  end.

Definition Atoi (s : string) : option Z := ParseInt s.

(** ** Headers *)

(** The bytes of a token. *)
Definition token_char (c : ascii) : bool :=
  char_in "a" "z" c || char_in "A" "Z" c || char_in "0" "9" c ||
  existsb (Ascii.eqb c) ["!"; "#"; "$"; "%"; "&"; "'"; "*"; "+"; "-"; "."; "^"; "_"; "`"; "|"; "~"]%char.

Fixpoint all_chars (f : ascii -> bool) (s : string) : bool :=
  match s with
  | EmptyString => true
  | String c s => f c && all_chars f s
  end.

Fixpoint canonical_chars (upper : bool) (s : string) : string :=
  match s with
  | EmptyString => EmptyString
  | String c s =>
      let c := if upper then upper_char c else lower_char c in
      String c (canonical_chars (Ascii.eqb c "-") s)
  end.

Definition CanonicalMIMEHeaderKey (s : string) : string :=
  if all_chars token_char s then canonical_chars true s else s.

Abbreviation Values := (gmap string (list string)).

(** [Add] of url.Values, and of http.Header with a canonical key. *)
Definition Values_Add (key value : string) (v : Values) : Values :=
  <[key := default [] (v !! key) ++ [value]]> v.

Definition Header_Del (key : string) (h : Values) : Values := delete (CanonicalMIMEHeaderKey key) h.
Definition Header_Add (key value : string) (h : Values) : Values := Values_Add (CanonicalMIMEHeaderKey key) value h.
Definition Header_Get (key : string) (h : Values) : string :=
  match h !! CanonicalMIMEHeaderKey key with
  | Some (v :: _) => v
  | _ => ""
  end.

(** ** Lemmas on characters *)

(** A fact of every character, by looking at the 256 of them. *)
Definition all_ascii (f : ascii -> bool) : bool :=
  forallb (fun n => f (ascii_of_nat n)) (seq 0 256).

Lemma all_ascii_spec f : all_ascii f = true -> forall c, f c = true.
Proof.
  unfold all_ascii. rewrite forallb_forall. intros H c.
  rewrite <- (ascii_nat_embedding c). apply H, in_seq. pose proof (nat_ascii_bounded c). lia.
Qed.

Lemma lower_char_eqb d c : char_in "A" "Z" d = false -> char_in "a" "z" d = false ->
  Ascii.eqb (lower_char c) d = Ascii.eqb c d.
Proof.
  intros Hd Hd'. apply Bool.eqb_true_iff.
  pose (f := fun d => char_in "A" "Z" d || char_in "a" "z" d ||
    all_ascii (fun c => Bool.eqb (Ascii.eqb (lower_char c) d) (Ascii.eqb c d))).
  assert (H : all_ascii f = true) by (vm_compute; done).
  pose proof (all_ascii_spec f H d) as Hf. unfold f in Hf. rewrite Hd, Hd', !orb_false_l in Hf.
  exact (all_ascii_spec (fun c => Bool.eqb (Ascii.eqb (lower_char c) d) (Ascii.eqb c d)) Hf c).
Qed.

(** ** Lemmas on strings *)

Lemma contains_slash s : strings_Contains s "/" = negb (no_slash s).
Proof.
  induction s as [|c s IH]; [done|]. cbn [strings_Contains no_slash].
  rewrite negb_andb, negb_involutive, IH. f_equal. cbn [String.prefix].
  change (Ascii.eqb c slash) with (Ascii.eqb c "/").
  destruct (ascii_dec "/" c) as [<-|Hc]; [by destruct s|].
  symmetry. apply Ascii.eqb_neq. congruence.
Qed.

Lemma no_slash_lower s : no_slash (strings_ToLower s) = no_slash s.
Proof.
  induction s as [|c s IH]; [done|]. cbn. rewrite IH. do 2 f_equal. by apply lower_char_eqb.
Qed.

Lemma lower_dots s : strings_ToLower s = "" \/ strings_ToLower s = "." \/ strings_ToLower s = ".." ->
  strings_ToLower s = s.
Proof.
  assert (Hc : forall c, lower_char c = "."%char -> c = "."%char).
  { intros c Hc. apply Ascii.eqb_eq. rewrite <- (lower_char_eqb "." c) by done. by apply Ascii.eqb_eq. }
  destruct s as [|c [|d s]]; [done|..]; cbn; intros [H|[H|H]]; simplify_eq; try done.
  - by rewrite H, (Hc c).
  - destruct s; [|done]. cbn in *. by rewrite (Hc c), (Hc d).
Qed.

(** ** Lemmas on paths *)

Lemma split_app_slash s t :
  strings_Split (s +:+ String slash t) slash = strings_Split s slash ++ strings_Split t slash.
Proof.
  induction s as [|c s IH]; [done|].
  change (String c s +:+ String slash t) with (String c (s +:+ String slash t)). cbn [strings_Split].
  destruct (Ascii.eqb c slash); [by rewrite IH|]. rewrite IH.
  destruct (strings_Split s slash) as [|p ps] eqn:Hs; [|done]. by destruct (strings_Split_not_nil s slash).
Qed.

Lemma split_join (l : list string) : l <> [] ->
  strings_Split (join_slash l) slash = concat (map (fun s => strings_Split s slash) l).
Proof.
  induction l as [|s [|t l] IH]; intros Hl; [done|cbn; by rewrite app_nil_r|].
  change (join_slash (s :: t :: l)) with (s +:+ String slash (join_slash (t :: l))).
  rewrite split_app_slash, IH by done. done.
Qed.

Lemma split_no_slash s : Forall (fun p => no_slash p = true) (strings_Split s slash).
Proof.
  induction s as [|c s IH]; [by repeat constructor|]. cbn [strings_Split].
  destruct (Ascii.eqb c slash) eqn:Hc; [by constructor|].
  destruct (strings_Split s slash) as [|p ps]; [by repeat constructor; cbn; rewrite Hc|].
  inversion IH; subst. constructor; [|done]. cbn. by rewrite Hc.
Qed.

(** A proper element of a path. *)
Definition name (s : string) : Prop := s <> "" /\ s <> "." /\ s <> ".." /\ no_slash s = true.

#[global] Instance name_dec s : Decision (name s).
Proof. unfold name. apply _. Defined.

(** What the stack of [Clean] looks like: names, and below them the [..] that lead out
    of a path without root. *)
Inductive stack_ok (r : bool) : list string -> Prop :=
| stack_nil : stack_ok r []
| stack_name s st : name s -> stack_ok r st -> stack_ok r (s :: st)
| stack_dots st : r = false -> hd ".." st = ".." -> stack_ok r st -> stack_ok r (".." :: st).

Lemma path_step_name r st s : name s -> path_step r st s = s :: st.
Proof. intros (? & ? & ? & ?). unfold path_step. by rewrite !decide_False. Qed.

Lemma path_step_ok r st s : stack_ok r st -> no_slash s = true -> stack_ok r (path_step r st s).
Proof.
  intros Hst Hs. unfold path_step. repeat case_decide; try done; [|by constructor].
  destruct Hst as [|top st Htop Hst|st Hr Hst].
  - destruct r; by repeat constructor.
  - case_decide as Ht; [|done]. by destruct Htop as (_ & _ & ? & _).
  - rewrite decide_True by done. by repeat constructor.
Qed.

Lemma path_steps_ok r segs : forall st, stack_ok r st -> Forall (fun p => no_slash p = true) segs ->
  stack_ok r (fold_left (path_step r) segs st).
Proof.
  induction segs as [|s segs IH]; intros st Hst Hs; [done|]. inversion Hs; subst.
  apply IH; [|done]. by apply path_step_ok.
Qed.

Lemma path_steps_rebuild r st : stack_ok r st -> fold_left (path_step r) (rev st) [] = st.
Proof.
  induction 1 as [|s st Hs _ IH|st -> Hd _ IH]; [done|..]; cbn [rev]; rewrite fold_left_app, IH; cbn.
  - by apply path_step_name.
  - destruct st as [|top st]; [done|]. cbn in Hd. subst. done.
Qed.

Lemma components_stack p : stack_ok (rooted p) (rev (components p)).
Proof. unfold components. rewrite rev_involutive. apply path_steps_ok; [constructor|apply split_no_slash]. Qed.

Lemma stack_no_slash r st : stack_ok r st -> Forall (fun p => no_slash p = true /\ p <> "") st.
Proof. induction 1 as [|s st (? & ? & ? & ?)|]; repeat constructor; auto. Qed.

Lemma split_components l : Forall (fun p => no_slash p = true /\ p <> "") l ->
  concat (map (fun s => strings_Split s slash) l) = l.
Proof. induction 1 as [|s l [Hs _] _ IH]; [done|]. cbn. by rewrite strings_Split_no_slash, IH. Qed.

(** A clean path has the components it was rendered from. *)
Lemma components_render r st : stack_ok r (rev st) ->
  components (render r st) = st /\ rooted (render r st) = r.
Proof.
  intros Hst. pose proof (stack_no_slash _ _ Hst) as Hn. apply Forall_rev in Hn. rewrite rev_involutive in Hn.
  pose proof (path_steps_rebuild r (rev st) Hst) as Hb. rewrite rev_involutive in Hb.
  destruct r; cbn [render].
  - split; [|done]. unfold components. cbn [rooted]. rewrite Ascii.eqb_refl.
    cbn [strings_Split]. rewrite Ascii.eqb_refl. cbn [fold_left]. change (path_step true [] "") with (@nil string).
    destruct st as [|s st]; [done|]. rewrite split_join, split_components, Hb by done. apply rev_involutive.
  - destruct st as [|s st]; [done|]. assert (Hr : rooted (join_slash (s :: st)) = false).
    { inversion Hn as [|? ? [Hs Hs0] ?]; subst. destruct s as [|c s]; [done|]. cbn in Hs.
      apply andb_prop in Hs as [Hs _]. apply negb_true_iff in Hs. by destruct st. }
    split; [|done]. unfold components. rewrite Hr, split_join, split_components, Hb by done. apply rev_involutive.
Qed.

Lemma components_Clean p : components (path_Clean p) = components p /\ rooted (path_Clean p) = rooted p.
Proof.
  unfold path_Clean. case_decide as Hp; [by subst|]. apply components_render, components_stack.
Qed.

Lemma drop_empty_steps r l st :
  fold_left (path_step r) (concat (map (fun s => strings_Split s slash) (drop_empty l))) st =
  fold_left (path_step r) (concat (map (fun s => strings_Split s slash) l)) st.
Proof. induction l as [|[|c s] l IH]; [done| |done]. cbn [drop_empty]. by rewrite IH. Qed.

(** [Join] puts the components of its arguments together. *)
Lemma components_Join l :
  components (path_Join l) =
    rev (fold_left (path_step (rooted (path_Join l))) (concat (map (fun s => strings_Split s slash) l)) []) /\
  rooted (path_Join l) = rooted (hd "" (drop_empty l)).
Proof.
  rewrite <- drop_empty_steps. unfold path_Join.
  assert (Hd : hd "" (drop_empty l) <> "" \/ drop_empty l = []) by (induction l as [|[|c s] l IH]; auto).
  destruct (drop_empty l) as [|s l'] eqn:Hl; [done|].
  destruct Hd as [Hd|]; [|done]. cbn [hd] in *. destruct (components_Clean (join_slash (s :: l'))) as [-> ->].
  split; [unfold components; by rewrite split_join|]. destruct s as [|c s]; [done|]. by destruct l'.
Qed.

(** Names are added at the end of a path. *)
Lemma names_steps r l st : Forall (fun s => s = "" \/ name s) l ->
  fold_left (path_step r) l st = rev (filter (fun s => s <> "") l) ++ st.
Proof.
  revert st. induction l as [|s l IH]; intros st Hl; [done|]. inversion Hl as [|? ? [->|Hs] Hl']; subst.
  - cbn [fold_left]. rewrite IH by done. by rewrite filter_cons_False by (intros Hs; by apply Hs).
  - cbn [fold_left]. rewrite path_step_name, IH by done.
    rewrite filter_cons_True by (by destruct Hs). cbn [rev]. by rewrite <- app_assoc.
Qed.

Lemma join_names p l : Forall (fun s => s = "" \/ Forall (fun q => q = "" \/ name q) (strings_Split s slash)) l ->
  Forall (fun s => rooted s = false) l ->
  components (path_Join (p :: l)) =
    components p ++ filter (fun s => s <> "") (concat (map (fun s => strings_Split s slash) l)) /\
  rooted (path_Join (p :: l)) = rooted p.
Proof.
  intros Hl Hr. destruct (components_Join (p :: l)) as [Hc Hr'].
  assert (E : rooted (path_Join (p :: l)) = rooted p).
  { rewrite Hr'. destruct p as [|c p]; [|done]. cbn [drop_empty]. clear Hl Hc Hr'.
    induction Hr as [|s l Hs _ IH]; [done|]. by destruct s. }
  split; [|done]. rewrite Hc, E. cbn [map concat]. rewrite fold_left_app, names_steps.
  - rewrite rev_app_distr, rev_involutive. done.
  - clear Hc Hr' E. induction Hl as [|s l Hs _ IH]; [done|]. cbn. inversion Hr; subst. apply Forall_app. split; [|auto].
    destruct Hs as [->|Hs]; [|done]. repeat constructor.
Qed.

(** A path that [Join] made is a rendering of its components. *)
Lemma Join_render l : path_Join l <> "" -> path_Join l = render (rooted (path_Join l)) (components (path_Join l)).
Proof.
  unfold path_Join. destruct (drop_empty l) as [|s l']; [done|]. intros _.
  destruct (components_Clean (join_slash (s :: l'))) as [-> ->]. unfold path_Clean.
  case_decide as Hs; [|done]. by rewrite Hs.
Qed.

Lemma filter_names l : Forall (fun s => s = "" \/ name s) l -> Forall name (filter (fun s => s <> "") l).
Proof. rewrite !Forall_forall. intros Hl s [Hne Hs]%list_elem_of_filter. by destruct (Hl s Hs). Qed.

Lemma names_no_slash l : Forall name l -> Forall (fun s => no_slash s = true /\ s <> "") l.
Proof. intros Hl. eapply Forall_impl; [exact Hl|]. by intros s (? & ? & ? & ?). Qed.

Lemma split_render l : Forall name l -> l <> [] -> strings_Split (render false l) slash = l.
Proof.
  intros Hl Hne. destruct l as [|s l]; [done|]. cbn [render].
  by rewrite split_join, split_components by auto using names_no_slash.
Qed.

Lemma Join_empty l : filter (fun s => s <> "") l = [] -> path_Join l = "".
Proof.
  intros Hl. unfold path_Join. enough (drop_empty l = []) as -> by done.
  induction l as [|[|c s] l IH]; [done| |].
  - apply IH. by rewrite filter_cons_False in Hl by (intros Hs; by apply Hs).
  - by rewrite filter_cons_True in Hl.
Qed.

(** *** Absolute paths *)

Lemma rooted_names p : rooted p = true -> Forall name (components p).
Proof.
  intros Hr. pose proof (components_stack p) as Hs. rewrite Hr in Hs.
  rewrite <- (rev_involutive (components p)). apply Forall_rev.
  remember true as r eqn:Er. induction Hs as [|s st Hn _ IH|st Hf _ _ _]; [constructor|constructor; auto|congruence].
Qed.

Lemma Clean_rooted p : rooted p = true -> path_Clean p = render true (components p).
Proof. intros Hr. unfold path_Clean. rewrite Hr. by destruct p. Qed.

Lemma rooted_Abs wd p : rooted wd = true -> rooted (filepath_Abs wd p) = true.
Proof.
  intros Hw. unfold filepath_Abs. destruct (rooted p) eqn:Hp; [by rewrite (proj2 (components_Clean p))|].
  rewrite (proj2 (components_Join _)). by destruct wd.
Qed.

Lemma Clean_Clean p : rooted p = true -> path_Clean (path_Clean p) = path_Clean p.
Proof.
  intros Hp. destruct (components_Clean p) as [Hc Hr]. rewrite Hp in Hr.
  by rewrite (Clean_rooted (path_Clean p)), Hc, <- Clean_rooted.
Qed.

Lemma Abs_Abs wd wd' p : rooted wd = true -> filepath_Abs wd' (filepath_Abs wd p) = filepath_Abs wd p.
Proof.
  intros Hw. pose proof (rooted_Abs wd p Hw) as Hr. unfold filepath_Abs at 1. rewrite Hr.
  unfold filepath_Abs in *. destruct (rooted p) eqn:Hp; [by apply Clean_Clean|].
  rewrite Clean_rooted by done. symmetry. rewrite <- Hr at 1. apply Join_render. intros Hj. by rewrite Hj in Hr.
Qed.

(** The last component of a path to a name is the name. *)
Lemma last_component wd p s : rooted wd = true -> name s -> last (components (filepath_Abs wd (path_Join [p; s]))) = Some s.
Proof.
  intros Hw Hs. destruct (join_names p [s]) as [Hc Hr].
  - apply Forall_singleton. right. destruct Hs as (? & ? & ? & Hn). rewrite strings_Split_no_slash by done. apply Forall_singleton. by right.
  - apply Forall_singleton. destruct s as [|c s]; [by destruct Hs|]. destruct Hs as (_ & _ & _ & Hn). cbn in Hn |- *.
    apply andb_prop in Hn as [Hn _]. by apply negb_true_iff in Hn.
  - pose proof (Join_render [p; s]) as Hjr. generalize dependent (path_Join [p; s]). intros j Hc Hr Hjr. cbn [map concat] in Hc. destruct Hs as (Hs0 & Hs1 & Hs2 & Hn).
    rewrite strings_Split_no_slash in Hc by done. cbn [app] in Hc. rewrite filter_cons_True in Hc by done. cbn in Hc.
    unfold filepath_Abs. destruct (rooted j) eqn:Hj.
    + rewrite (proj1 (components_Clean j)), Hc. apply last_snoc.
    + destruct (components_Join [wd; j]) as [-> _]. assert (Hne : j <> "") by (intros He; rewrite He in Hc; by destruct (components p)).
      assert (Hsplit : strings_Split j slash = components p ++ [s]).
      { rewrite (Hjr Hne) at 1. rewrite Hc. rewrite ?Hj. pose proof (components_stack j) as Hst. rewrite Hc in Hst.
        apply stack_no_slash, Forall_rev in Hst. rewrite rev_involutive in Hst. unfold render.
        destruct (components p ++ [s]) as [|x l] eqn:El; [by destruct (components p)|]. rewrite split_join by done. by apply split_components. }
      cbn [map concat]. rewrite Hsplit, app_nil_r, !fold_left_app. cbn [fold_left]. rewrite path_step_name by done.
      cbn [rev]. apply last_snoc.
Qed.

(** ** Adding names to a path

    [extends p0 t p]: [p] is [p0] with the names [t] after it. *)

Definition extends (p0 : string) (t : list string) (p : string) : Prop :=
  components p = components p0 ++ t /\ rooted p = rooted p0 /\
  (t = [] -> p = p0) /\ (t <> [] -> p = render (rooted p0) (components p0 ++ t)).

Lemma extends_refl p : extends p [] p.
Proof. unfold extends. by rewrite app_nil_r. Qed.

Lemma extends_join p0 t p l :
  extends p0 t p ->
  Forall (fun s => s = "" \/ Forall (fun q => q = "" \/ name q) (strings_Split s slash)) l ->
  Forall (fun s => rooted s = false) l ->
  filter (fun s => s <> "") (concat (map (fun s => strings_Split s slash) l)) <> [] ->
  extends p0 (t ++ filter (fun s => s <> "") (concat (map (fun s => strings_Split s slash) l))) (path_Join (p :: l)).
Proof.
  intros (Hc & Hr & _ & _) Hl Hf Hne. destruct (join_names p l Hl Hf) as [Hc' Hr'].
  rewrite Hc, <- app_assoc in Hc'. rewrite Hr in Hr'. split_and!; [done..| |].
  - intros [_ ?]%app_eq_nil. done.
  - intros _. rewrite <- Hc', <- Hr'. apply Join_render. intros Hj. rewrite Hj in Hc'. cbn in Hc'.
    symmetry in Hc'. apply app_eq_nil in Hc' as [_ [_ ?]%app_eq_nil]. done.
Qed.

(** ** Prefixes of strings *)

Lemma append_inj_r (s t u : string) : s +:+ u = t +:+ u -> s = t.
Proof.
  assert (Hlen : forall s u, String.length (s +:+ u) = (String.length s + String.length u)%nat).
  { intros s0 u0. induction s0 as [|c s0 IH]; [done|]. cbn. by rewrite <- IH. }
  revert t. induction s as [|c s IH]; intros [|c' t] He; [done| | |].
  - apply (f_equal String.length) in He. rewrite !Hlen in He. cbn in He. lia.
  - apply (f_equal String.length) in He. rewrite !Hlen in He. cbn in He. lia.
  - injection He as -> He. f_equal. by apply IH.
Qed.

Lemma length_append s t : String.length (s +:+ t) = (String.length s + String.length t)%nat.
Proof. induction s as [|c s IH]; [done|]. change (S (String.length (s +:+ t)) = S (String.length s) + String.length t)%nat. by rewrite IH. Qed.

Lemma no_slash_append s t : no_slash (s +:+ t) = no_slash s && no_slash t.
Proof.
  induction s as [|c s IH]; [done|]. change (negb (Ascii.eqb c slash) && no_slash (s +:+ t) = no_slash (String c s) && no_slash t).
  rewrite IH. apply andb_assoc.
Qed.

Lemma prefix_app s t : String.prefix s (s +:+ t) = true.
Proof.
  induction s as [|c s IH]; [by destruct t|].
  change (String c s +:+ t) with (String c (s +:+ t)). cbn [String.prefix]. by destruct (ascii_dec c c).
Qed.

Lemma contains_app s t : strings_Contains (s +:+ t) s = true.
Proof. pose proof (prefix_app s t) as Hp. destruct (s +:+ t); cbn [strings_Contains]; by rewrite Hp. Qed.

Lemma substring_all s : String.substring 0 (String.length s) s = s.
Proof. induction s as [|c s IH]; [done|]. cbn. by rewrite IH. Qed.

Lemma trim_app s t : strings_TrimPrefix (s +:+ t) s = t.
Proof.
  unfold strings_TrimPrefix. rewrite prefix_app.
  enough (Hs : forall n, String.substring (String.length s) n (s +:+ t) = String.substring 0 n t).
  { rewrite Hs. replace (String.length (s +:+ t) - String.length s)%nat with (String.length t); [apply substring_all|].
    clear Hs. induction s as [|c s IH]; [symmetry; apply Nat.sub_0_r|exact IH]. }
  induction s as [|c s IH]; [done|]. exact IH.
Qed.

(** A path that ends in a slash, with more elements after it. *)
Lemma join_slash_after bs l : l <> [] -> join_slash (bs ++ l) = join_slash (bs ++ [""]) +:+ join_slash l.
Proof.
  intros Hl. induction bs as [|b bs IH]; [done|]. cbn [app].
  assert (Hc : forall k, k <> [] -> join_slash (b :: bs ++ k) = b +:+ String slash (join_slash (bs ++ k))).
  { intros k Hk. destruct (bs ++ k) as [|x xs] eqn:Hx; [by apply app_eq_nil in Hx as [_ ?]|]. apply join_slash_cons. }
  rewrite (Hc l) by done. rewrite (Hc [""]) by done. rewrite IH.
  clear. induction b as [|ch b IHb]; [done|].
  change (String ch (b +:+ String slash (join_slash (bs ++ [""]) +:+ join_slash l)) =
          String ch ((b +:+ String slash (join_slash (bs ++ [""]))) +:+ join_slash l)).
  by rewrite IHb.
Qed.

Lemma names_stack r l : Forall name l -> stack_ok r l.
Proof. induction 1; by constructor. Qed.

Lemma rooted_join l : Forall name l -> rooted (join_slash l) = false.
Proof.
  intros Hl. destruct l as [|s l]; [done|].
  by destruct (components_render false (s :: l) (names_stack false _ (Forall_rev Hl))) as [_ Hr].
Qed.

Lemma split_rooted_join l : Forall name l -> l <> [] -> strings_Split ("/" +:+ join_slash l) slash = "" :: l.
Proof.
  intros Hl Hne. destruct l as [|s l]; [done|].
  change (strings_Split ("" +:+ String slash (render false (s :: l))) slash = "" :: s :: l).
  by rewrite split_app_slash, split_render.
Qed.
