(* ===== verification/GoUnicode.v ===== *)
(** * Text of Go: runes, quoting

    unicode/utf8, the classes of characters of unicode, and strconv.UnquoteChar, on
    texts as lists of bytes. *)

From Stdlib Require Import Ascii.
From S2P Require Import Prelude.
From stdpp Require Import strings.
#[local] Open Scope Z_scope.

Abbreviation text := (list ascii).

Definition byte_of (c : ascii) : Z := Z.of_N (N_of_ascii c).
Definition of_byte (z : Z) : ascii := ascii_of_N (Z.to_N (z mod 256)).

Definition str (t : text) : string := String.string_of_list_ascii t.
Definition chars (s : string) : text := String.list_ascii_of_string s.

(** ** unicode/utf8 *)

Definition RuneError : Z := 65533.
Definition RuneSelf : Z := 128.

(** A continuation byte. *)
Definition cont (lo hi z : Z) : bool := (lo <=? z) && (z <=? hi).

Definition low6 (z : Z) : Z := Z.land z 63.

(** [utf8.DecodeRuneInString]: the rune and its width. *)
Definition DecodeRune (t : text) : Z * nat :=
  match byte_of <$> t with
  | [] => (RuneError, 0%nat)
  | b0 :: rest =>
      if b0 <? 128 then (b0, 1%nat)
      else if (194 <=? b0) && (b0 <=? 223) then
        match rest with
        | b1 :: _ =>
            if cont 128 191 b1 then (Z.lor (Z.shiftl (Z.land b0 31) 6) (low6 b1), 2%nat) else (RuneError, 1%nat)
        | [] => (RuneError, 1%nat)
        end
      else if (224 <=? b0) && (b0 <=? 239) then
        match rest with
        | b1 :: b2 :: _ =>
            if cont (if b0 =? 224 then 160 else 128) (if b0 =? 237 then 159 else 191) b1 && cont 128 191 b2 then
              (Z.lor (Z.shiftl (Z.land b0 15) 12) (Z.lor (Z.shiftl (low6 b1) 6) (low6 b2)), 3%nat)
            else (RuneError, 1%nat)
        | _ => (RuneError, 1%nat)
        end
      else if (240 <=? b0) && (b0 <=? 244) then
        match rest with
        | b1 :: b2 :: b3 :: _ =>
            if cont (if b0 =? 240 then 144 else 128) (if b0 =? 244 then 143 else 191) b1 && cont 128 191 b2
               && cont 128 191 b3 then
              (Z.lor (Z.shiftl (Z.land b0 7) 18)
                 (Z.lor (Z.shiftl (low6 b1) 12) (Z.lor (Z.shiftl (low6 b2) 6) (low6 b3))), 4%nat)
            else (RuneError, 1%nat)
        | _ => (RuneError, 1%nat)
        end
      else (RuneError, 1%nat)
  end.

Definition ValidRune (r : Z) : bool := ((0 <=? r) && (r <? 55296)) || ((57343 <? r) && (r <=? 1114111)).

(** [utf8.EncodeRune] *)
Definition EncodeRune (r : Z) : text :=
  let r := if ValidRune r then r else RuneError in
  of_byte <$>
    if r <? 128 then [r]
    else if r <? 2048 then [Z.lor 192 (Z.shiftr r 6); Z.lor 128 (low6 r)]
    else if r <? 65536 then [Z.lor 224 (Z.shiftr r 12); Z.lor 128 (low6 (Z.shiftr r 6)); Z.lor 128 (low6 r)]
    else [Z.lor 240 (Z.shiftr r 18); Z.lor 128 (low6 (Z.shiftr r 12)); Z.lor 128 (low6 (Z.shiftr r 6));
          Z.lor 128 (low6 r)].

(** The rune of an ASCII character. *)
Definition rune (c : ascii) : Z := byte_of c.

(** ** unicode

    The tables of [unicode.IsLetter] and [unicode.IsDigit]; on ASCII they are what they
    are expected to be. *)

Definition ascii_digit (r : Z) : bool := (rune "0" <=? r) && (r <=? rune "9").
Definition ascii_letter (r : Z) : bool :=
  ((rune "A" <=? r) && (r <=? rune "Z")) || ((rune "a" <=? r) && (r <=? rune "z")).

Class Unicode : Type := {
  IsLetter : Z -> bool;
  IsDigit : Z -> bool;
  IsLetter_ascii r : r < 128 -> IsLetter r = ascii_letter r;
  IsDigit_ascii r : r < 128 -> IsDigit r = ascii_digit r
}.

Definition only_ascii : Unicode.
Proof. by refine {| IsLetter := ascii_letter; IsDigit := ascii_digit |}. Defined.

(** ** strconv.UnquoteChar *)

Definition unhex (c : ascii) : option Z :=
  let b := byte_of c in
  if (rune "0" <=? b) && (b <=? rune "9") then Some (b - rune "0")
  else if (rune "a" <=? b) && (b <=? rune "f") then Some (b - rune "a" + 10)
  else if (rune "A" <=? b) && (b <=? rune "F") then Some (b - rune "A" + 10)
  else None.

Definition octal (c : ascii) : option Z :=
  let x := byte_of c - rune "0" in if (0 <=? x) && (x <=? 7) then Some x else None.

(** [n] digits of a base given by its number of bits, and the rest. *)
Fixpoint fixed_digits (digit : ascii -> option Z) (bits : Z) (n : nat) (t : text) (v : Z) : option (Z * text) :=
  match n with
  | 0%nat => Some (v, t)
  | S n =>
      match t with
      | [] => None
      | c :: t => x ← digit c; fixed_digits digit bits n t (Z.lor (Z.shiftl v bits) x)
      end
  end.

Definition backslash : ascii := ascii_of_nat 92.
Definition single_quote : ascii := ascii_of_nat 39.
Definition double_quote : ascii := ascii_of_nat 34.

(** What follows a backslash and one character: the value, whether it is multibyte, and
    the tail. *)
Definition escaped_char (c : ascii) (s : text) (quote : ascii) : option (Z * bool * text) :=
  let one v := Some (v, false, s) in
  if decide (c = "a"%char) then one 7
  else if decide (c = "b"%char) then one 8
  else if decide (c = "f"%char) then one 12
  else if decide (c = "n"%char) then one 10
  else if decide (c = "r"%char) then one 13
  else if decide (c = "t"%char) then one 9
  else if decide (c = "v"%char) then one 11
  else if decide (c = "x"%char) then '(v, s) ← fixed_digits unhex 4 2 s 0; Some (v, false, s)
  else if decide (c = "u"%char \/ c = "U"%char) then
    '(v, s) ← fixed_digits unhex 4 (if decide (c = "u"%char) then 4 else 8) s 0;
    if ValidRune v then Some (v, true, s) else None
  else
    match octal c with
    | Some v => '(v, s) ← fixed_digits octal 3 2 s v; if 255 <? v then None else Some (v, false, s)
    | None =>
        if decide (c = backslash) then one (rune backslash)
        else if decide (c = single_quote \/ c = double_quote) then (if decide (c = quote) then one (rune c) else None)
        else None
    end.

Definition UnquoteChar (s : text) (quote : ascii) : option (Z * bool * text) :=
  match s with
  | [] => None
  | c :: rest =>
      if decide (c = quote /\ (quote = single_quote \/ quote = double_quote)) then None
      else if RuneSelf <=? byte_of c then
        let '(r, size) := DecodeRune s in Some (r, true, drop size s)
      else if decide (c <> backslash) then Some (byte_of c, false, rest)
      else match rest with [] => None | c :: s => escaped_char c s quote end
  end.

(** ** Lemmas *)

Lemma byte_of_range c : 0 <= byte_of c < 256.
Proof. unfold byte_of. pose proof (N_ascii_bounded c). lia. Qed.

Lemma of_byte_of c : of_byte (byte_of c) = c.
Proof. unfold of_byte. rewrite Z.mod_small by apply byte_of_range. unfold byte_of. by rewrite N2Z.id, ascii_N_embedding. Qed.

Lemma byte_of_inj c d : byte_of c = byte_of d -> c = d.
Proof. intros Heq. by rewrite <- (of_byte_of c), Heq, of_byte_of. Qed.

Lemma str_chars s : str (chars s) = s.
Proof. apply String.string_of_list_ascii_of_string. Qed.

Lemma chars_str t : chars (str t) = t.
Proof. apply String.list_ascii_of_string_of_list_ascii. Qed.

Lemma DecodeRune_ascii c t : byte_of c < 128 -> DecodeRune (c :: t) = (byte_of c, 1%nat).
Proof. intros Hc. unfold DecodeRune. cbn. by destruct (Z.ltb_spec (byte_of c) 128); [|lia]. Qed.

(** A rune is at least one byte wide and within the text. *)
Lemma DecodeRune_width c t :
  (1 <= (DecodeRune (c :: t)).2 <= length (c :: t))%nat /\ 0 <= (DecodeRune (c :: t)).1.
Proof.
  pose proof (byte_of_range c) as Hc.
  assert (H63 : forall z, 0 <= low6 z) by (intros z; apply Z.land_nonneg; lia).
  assert (Hsh : forall z n, 0 <= z -> 0 <= Z.shiftl z n) by (intros; by apply Z.shiftl_nonneg).
  unfold DecodeRune. destruct t as [|c1 [|c2 [|c3 t]]]; cbn [fmap list_fmap length];
    repeat match goal with
      | |- context [if ?b then _ else _] => destruct b
      end; cbn [fst snd]; (split; [lia|]); unfold RuneError; try lia;
    repeat (apply Z.lor_nonneg; split); try apply Hsh; try apply H63; apply Z.land_nonneg; lia.
Qed.

Lemma fixed_digits_length digit bits n : forall t v v' t',
  fixed_digits digit bits n t v = Some (v', t') -> (length t' <= length t)%nat.
Proof.
  induction n as [|n IH]; intros t v v' t' Heq; cbn in Heq; [by injection Heq as _ <-|].
  destruct t as [|c t]; [done|]. destruct (digit c); [|done]. apply IH in Heq. cbn. lia.
Qed.

Lemma escaped_char_length c s quote r m t : escaped_char c s quote = Some (r, m, t) -> (length t <= length s)%nat.
Proof.
  unfold escaped_char. intros Heq.
  repeat case_decide;
    repeat match goal with
      | H : Some _ = Some _ |- _ => injection H as <- <- <-; done
      | H : None = Some _ |- _ => done
      | H : (fixed_digits ?d ?b ?n ?t ?v ≫= _) = Some _ |- _ =>
          let E := fresh "E" in destruct (fixed_digits d b n t v) as [[? ?]|] eqn:E;
          [apply fixed_digits_length in E; cbn in H|done]
      | H : (if ?b then _ else _) = Some _ |- _ => destruct b
      | H : match ?o with Some _ => _ | None => _ end = Some _ |- _ => destruct o
      end; by injection Heq as <- <- <-.
Qed.

(** A character is taken at each call. *)
Lemma UnquoteChar_length s quote r m t : UnquoteChar s quote = Some (r, m, t) -> (length t < length s)%nat.
Proof.
  unfold UnquoteChar. destruct s as [|c s]; [done|]. case_decide; [done|].
  destruct (RuneSelf <=? byte_of c).
  - pose proof (DecodeRune_width c s) as [Hw _]. destruct (DecodeRune (c :: s)) as [x w]. cbn [snd] in Hw.
    intros Heq. injection Heq as _ _ <-. rewrite length_drop. cbn [length] in *. lia.
  - case_decide; [intros Heq; injection Heq as _ _ <-; cbn; lia|].
    destruct s as [|d s]; [done|]. intros Heq. apply escaped_char_length in Heq. cbn. lia.
Qed.
