(* ===== verification/ThreadSafeStore.v ===== *)
(** * The indexed store: tools/cache/thread_safe_store.go.

    [storeIndex] keeps, for every named index function, the map from an indexed
    value to the set of store keys; [threadSafeMap] is the store itself.  Every
    method runs under the store's lock, so each is one atomic step of the state.
    A method that calls [panic] (an index function failed on an object) has the
    outcome [None]. *)

From S2P Require Import Prelude Objects.

(** [Index], [Indices], [Indexers] of tools/cache/index.go. *)
Abbreviation Index := (gmap string (gset string)).
Abbreviation Indices := (gmap string Index).
Abbreviation Indexers V := (gmap string (IndexFunc V)).

(** A [sets.String] of k8s.io/apimachinery is a [gset string]; [sets_List] lists
    its members, in the order of [sets.String.List] or of a [range] over it. *)
Class SetsString : Type := {
  sets_List : gset string -> list string;
  sets_List_perm : forall s, sets_List s ≡ₚ elements s
}.

Definition sets_in_key_order : SetsString :=
  {| sets_List := elements; sets_List_perm := fun s => reflexivity _ |}.

Section store.
Context {V : Type}.

Record storeIndex : Type := mkStoreIndex {
  indexers : Indexers V;
  indices : Indices
}.

Definition storeIndex_reset (i : storeIndex) : storeIndex :=
  mkStoreIndex (indexers i) ∅.

(** [index[indexedValue]] on a possibly missing entry reads the empty set. *)
Definition keys_at (index : Index) (indexedValue : string) : gset string :=
  default ∅ (index !! indexedValue).

Definition index_at (ixs : Indices) (indexName : string) : Index :=
  default ∅ (ixs !! indexName).

Definition getKeysFromIndex (i : storeIndex) (indexName : string) (obj : iface V)
  : result V (gset string) :=
  match indexers i !! indexName with
  | None => Err (Errorf "Index with name %s does not exist" [indexName])
  | Some indexFunc =>
      let? indexedValues := indexFunc obj in
      let index := index_at (indices i) indexName in
      match indexedValues with
      | [v] => Ok (keys_at index v)
      | _ => Ok (fold_left (fun storeKeySet v => storeKeySet ∪ keys_at index v) indexedValues ∅)
      end
  end.

Definition getKeysByIndex (i : storeIndex) (indexName indexedValue : string)
  : result V (gset string) :=
  match indexers i !! indexName with
  | None => Err (Errorf "Index with name %s does not exist" [indexName])
  | Some _ => Ok (keys_at (index_at (indices i) indexName) indexedValue)
  end.

Definition getIndexValues `{MapRange} (i : storeIndex) (indexName : string) : list string :=
  (range (index_at (indices i) indexName)).*1.

Definition addIndexers `{SetsString} (i : storeIndex) (newIndexers : Indexers V)
  : storeIndex * result V unit :=
  let conflict := dom (indexers i) ∩ dom newIndexers in
  if decide (conflict = ∅)
  then (mkStoreIndex (newIndexers ∪ indexers i) (indices i), Ok tt)
  else (i, Err (Errorf "indexer conflict: %v" (sets_List conflict))).

Definition addKeyToIndex (key indexValue : string) (index : Index) : Index :=
  <[indexValue := keys_at index indexValue ∪ {[key]}]> index.

Definition deleteKeyFromIndex (key indexValue : string) (index : Index) : Index :=
  match index !! indexValue with
  | None => index
  | Some set =>
      let set' := set ∖ {[key]} in
      if decide (set' = ∅) then delete indexValue index else <[indexValue := set']> index
  end.

(** The values an index function gives an object that may be nil; [None] is the
    panic on an error of the index function. *)
Definition indexValuesOf (indexFunc : IndexFunc V) (obj : iface V) : option (list string) :=
  match obj with
  | None => Some []
  | Some _ => match indexFunc obj with Ok vs => Some vs | Err _ => None end
  end.

(** The body of the loop of [updateIndices] for one index. *)
Definition updateIndex (key : string) (oldIndexValues indexValues : list string)
    (index : Index) : Index :=
  let unchanged :=
    match indexValues, oldIndexValues with
    | [v], [v'] => String.eqb v v'
    | _, _ => false
    end in
  if unchanged then index
  else
    fold_left (fun ix v => addKeyToIndex key v ix) indexValues
      (fold_left (fun ix v => deleteKeyFromIndex key v ix) oldIndexValues index).

Fixpoint updateIndices_loop (fs : list (string * IndexFunc V)) (oldObj newObj : iface V)
    (key : string) (ixs : Indices) : option Indices :=
  match fs with
  | [] => Some ixs
  | (name, indexFunc) :: fs' =>
      match indexValuesOf indexFunc oldObj, indexValuesOf indexFunc newObj with
      | Some oldIndexValues, Some indexValues =>
          updateIndices_loop fs' oldObj newObj key
            (<[name := updateIndex key oldIndexValues indexValues (index_at ixs name)]> ixs)
      | _, _ => None
      end
  end.

Definition updateIndices `{MapRange} (i : storeIndex) (oldObj newObj : iface V) (key : string)
  : option storeIndex :=
  mkStoreIndex (indexers i) <$>
    updateIndices_loop (range (indexers i)) oldObj newObj key (indices i).

(** ** threadSafeMap *)

Record threadSafeMap : Type := mkThreadSafeMap {
  items : gmap string (iface V);
  index : storeIndex
}.

(** [c.items[key]]: a missing key reads as nil. *)
Definition item_at (m : gmap string (iface V)) (key : string) : iface V :=
  default None (m !! key).

Definition threadSafeMap_Update `{MapRange} (key : string) (obj : iface V) (c : threadSafeMap)
  : option threadSafeMap :=
  let oldObject := item_at (items c) key in
  mkThreadSafeMap (<[key := obj]> (items c)) <$> updateIndices (index c) oldObject obj key.

Definition threadSafeMap_Add `{MapRange} (key : string) (obj : iface V) (c : threadSafeMap)
  : option threadSafeMap :=
  threadSafeMap_Update key obj c.

Definition threadSafeMap_Delete `{MapRange} (key : string) (c : threadSafeMap)
  : option threadSafeMap :=
  match items c !! key with
  | Some obj => mkThreadSafeMap (delete key (items c)) <$> updateIndices (index c) obj None key
  | None => Some c
  end.

Definition threadSafeMap_Get (key : string) (c : threadSafeMap) : iface V * bool :=
  match items c !! key with
  | Some item => (item, true)
  | None => (None, false)
  end.

Definition threadSafeMap_List `{MapRange} (c : threadSafeMap) : list (iface V) :=
  (range (items c)).*2.

Definition threadSafeMap_ListKeys `{MapRange} (c : threadSafeMap) : list string :=
  (range (items c)).*1.

Definition threadSafeMap_Replace `{MapRange} (newItems : gmap string (iface V))
    (resourceVersion : string) (c : threadSafeMap) : option threadSafeMap :=
  mkThreadSafeMap newItems <$>
    fold_left (fun oi kv => i ← oi; updateIndices i None kv.2 kv.1)
      (range newItems) (Some (storeIndex_reset (index c))).

Definition threadSafeMap_Index `{SetsString} (indexName : string) (obj : iface V)
    (c : threadSafeMap) : result V (list (iface V)) :=
  let? storeKeySet := getKeysFromIndex (index c) indexName obj in
  Ok (item_at (items c) <$> sets_List storeKeySet).

Definition threadSafeMap_ByIndex `{SetsString} (indexName indexedValue : string)
    (c : threadSafeMap) : result V (list (iface V)) :=
  let? set := getKeysByIndex (index c) indexName indexedValue in
  Ok (item_at (items c) <$> sets_List set).

Definition threadSafeMap_IndexKeys `{SetsString} (indexName indexedValue : string)
    (c : threadSafeMap) : result V (list string) :=
  let? set := getKeysByIndex (index c) indexName indexedValue in
  Ok (sets_List set).

Definition threadSafeMap_ListIndexFuncValues `{MapRange} (indexName : string)
    (c : threadSafeMap) : list string :=
  getIndexValues (index c) indexName.

Definition threadSafeMap_GetIndexers (c : threadSafeMap) : Indexers V := indexers (index c).

Definition threadSafeMap_AddIndexers `{SetsString} (newIndexers : Indexers V)
    (c : threadSafeMap) : threadSafeMap * result V unit :=
  if decide (0 < size (items c))%nat
  then (c, Err (Errorf "cannot add indexers to running index" []))
  else let '(i, r) := addIndexers (index c) newIndexers in
       (mkThreadSafeMap (items c) i, r).

Definition threadSafeMap_Resync (c : threadSafeMap) : result V unit := Ok tt.

Definition NewThreadSafeStore (ixers : Indexers V) (ixs : Indices) : threadSafeMap :=
  mkThreadSafeMap ∅ (mkStoreIndex ixers ixs).

(** ** Specification *)

(** What an index has to hold for the items [m]: under each value exactly the
    keys of the non-nil items to which the index function gives that value, and
    no empty set. *)
Definition obj_values (indexFunc : IndexFunc V) (obj : iface V) : list string :=
  default [] (indexValuesOf indexFunc obj).

Definition no_empty_set (ix : Index) : Prop := forall v, ix !! v <> Some ∅.

Definition index_matches (f : IndexFunc V) (m : gmap string (iface V)) (ix : Index) : Prop :=
  (forall v k, k ∈ keys_at ix v <-> v ∈ obj_values f (item_at m k)) /\
  no_empty_set ix.

Definition indices_match (fs : Indexers V) (m : gmap string (iface V)) (ixs : Indices) : Prop :=
  (forall name f, fs !! name = Some f -> index_matches f m (index_at ixs name)) /\
  dom ixs ⊆ dom fs.

(** The invariant of the store. *)
Definition store_ok (c : threadSafeMap) : Prop :=
  indices_match (indexers (index c)) (items c) (indices (index c)).

(** No index function of the store panics on [obj]. *)
Definition indexable (fs : Indexers V) (obj : iface V) : Prop :=
  forall name f, fs !! name = Some f -> is_Some (indexValuesOf f obj).

(** The invariant, and every stored object is one the index functions accept. *)
Definition store_wf (c : threadSafeMap) : Prop :=
  store_ok c /\
  forall k obj, items c !! k = Some obj -> indexable (indexers (index c)) obj.

(** The stores a program can build: [NewThreadSafeStore] followed by any sequence
    of mutations whose objects the index functions accept, each with its own map
    iteration order.  The second index is the plain map the store stands for. *)
Inductive store_reach : threadSafeMap -> gmap string (iface V) -> Prop :=
| reach_New fs : store_reach (NewThreadSafeStore fs ∅) ∅
| reach_Add (R : MapRange) key obj c m c' :
    store_reach c m -> indexable (indexers (index c)) obj ->
    threadSafeMap_Add key obj c = Some c' -> store_reach c' (<[key := obj]> m)
| reach_Update (R : MapRange) key obj c m c' :
    store_reach c m -> indexable (indexers (index c)) obj ->
    threadSafeMap_Update key obj c = Some c' -> store_reach c' (<[key := obj]> m)
| reach_Delete (R : MapRange) key c m c' :
    store_reach c m -> threadSafeMap_Delete key c = Some c' ->
    store_reach c' (delete key m)
| reach_Replace (R : MapRange) newItems rv c m c' :
    store_reach c m ->
    (forall k obj, newItems !! k = Some obj -> indexable (indexers (index c)) obj) ->
    threadSafeMap_Replace newItems rv c = Some c' -> store_reach c' newItems
| reach_AddIndexers (L : SetsString) fs c m c' r :
    store_reach c m -> threadSafeMap_AddIndexers fs c = (c', r) -> store_reach c' m.

(** ** Lemmas on one index *)

Lemma keys_at_insert ix v s v' :
  keys_at (<[v := s]> ix) v' = if decide (v = v') then s else keys_at ix v'.
Proof. unfold keys_at. rewrite lookup_insert. by case_decide. Qed.

Lemma keys_at_add key v ix v' k :
  k ∈ keys_at (addKeyToIndex key v ix) v' <->
  k ∈ keys_at ix v' \/ (k = key /\ v' = v).
Proof.
  unfold addKeyToIndex. rewrite keys_at_insert. case_decide; subst; set_solver.
Qed.

Lemma keys_at_delete key v ix v' k :
  k ∈ keys_at (deleteKeyFromIndex key v ix) v' <->
  k ∈ keys_at ix v' /\ ~ (k = key /\ v' = v).
Proof.
  unfold deleteKeyFromIndex. destruct (ix !! v) as [s|] eqn:E.
  - case_decide as Hs.
    + unfold keys_at. rewrite lookup_delete. case_decide; subst; simpl.
      * rewrite E. simpl. set_solver.
      * set_solver.
    + rewrite keys_at_insert. case_decide; subst; [|set_solver].
      unfold keys_at. rewrite E. simpl. set_solver.
  - split; [|tauto]. intros Hk. split; [done|]. intros [-> ->].
    unfold keys_at in Hk. rewrite E in Hk. set_solver.
Qed.

Lemma keys_at_add_all key vs ix v' k :
  k ∈ keys_at (fold_left (fun ix v => addKeyToIndex key v ix) vs ix) v' <->
  k ∈ keys_at ix v' \/ (k = key /\ v' ∈ vs).
Proof.
  revert ix. induction vs as [|v vs IH]; intros ix; simpl; [set_solver|].
  rewrite IH, keys_at_add. set_solver.
Qed.

Lemma keys_at_delete_all key vs ix v' k :
  k ∈ keys_at (fold_left (fun ix v => deleteKeyFromIndex key v ix) vs ix) v' <->
  k ∈ keys_at ix v' /\ ~ (k = key /\ v' ∈ vs).
Proof.
  revert ix. induction vs as [|v vs IH]; intros ix; simpl; [set_solver|].
  rewrite IH, keys_at_delete. set_solver.
Qed.

Lemma no_empty_add key v ix : no_empty_set ix -> no_empty_set (addKeyToIndex key v ix).
Proof.
  intros H v'. unfold addKeyToIndex. rewrite lookup_insert. case_decide; [|apply H].
  intros [= E]. set_solver.
Qed.

Lemma no_empty_delete key v ix : no_empty_set ix -> no_empty_set (deleteKeyFromIndex key v ix).
Proof.
  intros H v'. unfold deleteKeyFromIndex. destruct (ix !! v); [|apply H].
  case_decide; [rewrite lookup_delete|rewrite lookup_insert]; case_decide; auto; congruence.
Qed.

Lemma no_empty_fold (g : string -> Index -> Index) vs ix :
  (forall v ix, no_empty_set ix -> no_empty_set (g v ix)) ->
  no_empty_set ix -> no_empty_set (fold_left (fun ix v => g v ix) vs ix).
Proof. intros Hg. revert ix. induction vs; simpl; auto. Qed.

Lemma item_at_insert (m : gmap string (iface V)) k o k' :
  item_at (<[k := o]> m) k' = if decide (k = k') then o else item_at m k'.
Proof. unfold item_at. rewrite lookup_insert. by case_decide. Qed.

Lemma item_at_delete (m : gmap string (iface V)) k k' :
  item_at (delete k m) k' = if decide (k = k') then None else item_at m k'.
Proof. unfold item_at. rewrite lookup_delete. by case_decide. Qed.

Lemma elem_of_obj_values f (m : gmap string (iface V)) k v :
  v ∈ obj_values f (item_at m k) <->
  exists o vs, m !! k = Some (Some o) /\ f (Some o) = Ok vs /\ v ∈ vs.
Proof.
  unfold obj_values, item_at. destruct (m !! k) as [[o|]|]; simpl.
  - destruct (f (Some o)) as [vs|e] eqn:E; simpl; split.
    + eauto.
    + intros (o' & vs' & Ho & Hvs & Hv). assert (vs' = vs) as -> by congruence. done.
    + by intros ?%not_elem_of_nil.
    + intros (? & ? & ? & ? & ?). congruence.
  - split; [by intros ?%not_elem_of_nil|]. intros (? & ? & ? & _). congruence.
  - split; [by intros ?%not_elem_of_nil|]. intros (? & ? & ? & _). congruence.
Qed.

(** One index stays in step with the items when the object under [key] changes. *)
Lemma updateIndex_matches f m m' key old new ix ovs nvs :
  index_matches f m ix ->
  item_at m key = old -> item_at m' key = new ->
  (forall k, k <> key -> item_at m' k = item_at m k) ->
  indexValuesOf f old = Some ovs -> indexValuesOf f new = Some nvs ->
  index_matches f m' (updateIndex key ovs nvs ix).
Proof.
  intros [Hix Hne] Hold Hnew Hoth Hovs Hnvs.
  assert (Hv : obj_values f (item_at m key) = ovs) by (unfold obj_values; by rewrite Hold, Hovs).
  assert (Hv' : obj_values f (item_at m' key) = nvs) by (unfold obj_values; by rewrite Hnew, Hnvs).
  assert (Hgen : index_matches f m'
    (fold_left (fun ix v => addKeyToIndex key v ix) nvs
      (fold_left (fun ix v => deleteKeyFromIndex key v ix) ovs ix))).
  { split.
    - intros v k. rewrite keys_at_add_all, keys_at_delete_all, Hix.
      destruct (decide (k = key)) as [->|Hk]; [rewrite Hv, Hv'|rewrite Hoth by done]; tauto.
    - apply (no_empty_fold (addKeyToIndex key)); [apply no_empty_add|].
      apply (no_empty_fold (deleteKeyFromIndex key)); [apply no_empty_delete|done]. }
  unfold updateIndex. destruct nvs as [|v [|??]], ovs as [|v' [|??]]; try done.
  destruct (String.eqb_spec v v') as [->|]; [|done].
  split; [|done]. intros w k. rewrite Hix.
  destruct (decide (k = key)) as [->|Hk]; [by rewrite Hv, Hv'|by rewrite Hoth].
Qed.

(** ** Lemmas on all the indices *)

Lemma index_at_insert ixs name ix name' :
  index_at (<[name := ix]> ixs) name' = if decide (name = name') then ix else index_at ixs name'.
Proof. unfold index_at. rewrite lookup_insert. by case_decide. Qed.

Lemma updateIndices_loop_spec fs old new key ixs :
  NoDup fs.*1 ->
  (forall name f, (name, f) ∈ fs ->
     is_Some (indexValuesOf f old) /\ is_Some (indexValuesOf f new)) ->
  exists ixs',
    updateIndices_loop fs old new key ixs = Some ixs' /\
    dom ixs' = dom ixs ∪ list_to_set fs.*1 /\
    (forall name, name ∉ fs.*1 -> index_at ixs' name = index_at ixs name) /\
    (forall name f, (name, f) ∈ fs ->
       exists ovs nvs, indexValuesOf f old = Some ovs /\ indexValuesOf f new = Some nvs /\
         index_at ixs' name = updateIndex key ovs nvs (index_at ixs name)).
Proof.
  revert ixs. induction fs as [|[name f] fs IH]; intros ixs Hnd Hok.
  { exists ixs. split_and!; [done|set_solver|done|]. intros ?? []%not_elem_of_nil. }
  cbn in Hnd. apply NoDup_cons in Hnd as [Hnin Hnd].
  destruct (Hok name f ltac:(left)) as [[ovs Ho] [nvs Hn]].
  cbn [updateIndices_loop]. rewrite Ho, Hn.
  destruct (IH (<[name := updateIndex key ovs nvs (index_at ixs name)]> ixs) Hnd)
    as (ixs' & -> & Hdom & Hout & Hin).
  { intros name' f' Hf'. apply (Hok name'). by right. }
  exists ixs'. split_and!; [done| | |].
  - rewrite Hdom, dom_insert_L. cbn. set_solver.
  - intros name' Hn'. cbn in Hn'. rewrite Hout by set_solver.
    rewrite index_at_insert. case_decide; [set_solver|done].
  - intros name' f' [E|Hf']%elem_of_cons.
    + simplify_eq. exists ovs, nvs. split_and!; [done..|].
      rewrite Hout by done. rewrite index_at_insert. by case_decide.
    + destruct (Hin name' f' Hf') as (ovs' & nvs' & ? & ? & ->).
      exists ovs', nvs'. split_and!; [done..|]. rewrite index_at_insert.
      case_decide; [|done]. subst. destruct Hnin. apply list_elem_of_fmap. by exists (name', f').
Qed.

Section ranged.
Context `{MapRange}.

Lemma updateIndices_ok i m m' key old new :
  indices_match (indexers i) m (indices i) ->
  item_at m key = old -> item_at m' key = new ->
  (forall k, k <> key -> item_at m' k = item_at m k) ->
  indexable (indexers i) old -> indexable (indexers i) new ->
  exists i', updateIndices i old new key = Some i' /\ indexers i' = indexers i /\
    indices_match (indexers i) m' (indices i').
Proof.
  intros [Hix Hdom] Hold Hnew Hoth Hio Hin. unfold updateIndices.
  destruct (updateIndices_loop_spec (range (indexers i)) old new key (indices i))
    as (ixs' & -> & Hdom' & _ & Hat).
  { apply NoDup_fst_range. }
  { intros name f Hf%elem_of_range. split; [by eapply Hio|by eapply Hin]. }
  eexists. split_and!; [done|done|]. split; cbn [indices].
  - intros name f Hf.
    destruct (Hat name f) as (ovs & nvs & Ho & Hn & ->); [by apply elem_of_range|].
    eapply updateIndex_matches; eauto.
  - rewrite Hdom'. intros name [?|Hn%elem_of_list_to_set]%elem_of_union; [set_solver|].
    apply elem_of_range_keys in Hn. by apply elem_of_dom.
Qed.

Lemma indexable_nil fs : indexable fs (None : iface V).
Proof. intros name f _. by eexists. Qed.

Lemma threadSafeMap_Update_ok key obj c :
  store_ok c -> indexable (indexers (index c)) (item_at (items c) key) ->
  indexable (indexers (index c)) obj ->
  exists c', threadSafeMap_Update key obj c = Some c' /\
    items c' = <[key := obj]> (items c) /\ indexers (index c') = indexers (index c) /\
    store_ok c'.
Proof.
  intros Hok Ho Hn. unfold threadSafeMap_Update.
  destruct (updateIndices_ok (index c) (items c) (<[key := obj]> (items c)) key
              (item_at (items c) key) obj) as (i' & -> & Hixers & Hm); try done.
  - by rewrite item_at_insert, decide_True.
  - intros k Hk. by rewrite item_at_insert, decide_False.
  - eexists. split_and!; [done..|]. unfold store_ok. cbn. by rewrite Hixers.
Qed.

Lemma threadSafeMap_Delete_ok key c :
  store_ok c -> indexable (indexers (index c)) (item_at (items c) key) ->
  exists c', threadSafeMap_Delete key c = Some c' /\
    items c' = delete key (items c) /\ indexers (index c') = indexers (index c) /\
    store_ok c'.
Proof.
  intros Hok Ho. unfold threadSafeMap_Delete.
  destruct (items c !! key) as [obj|] eqn:E.
  - assert (Hat : item_at (items c) key = obj) by (unfold item_at; by rewrite E).
    destruct (updateIndices_ok (index c) (items c) (delete key (items c)) key obj None)
      as (i' & -> & Hixers & Hm); try done.
    + by rewrite item_at_delete, decide_True.
    + intros k Hk. by rewrite item_at_delete, decide_False.
    + by rewrite <- Hat.
    + apply indexable_nil.
    + eexists. split_and!; [done..|]. unfold store_ok. cbn. by rewrite Hixers.
  - exists c. rewrite delete_id by done. done.
Qed.

Lemma updateIndices_fold l i (m0 : gmap string (iface V)) :
  NoDup l.*1 ->
  (forall k, k ∈ l.*1 -> m0 !! k = None) ->
  (forall k o, (k, o) ∈ l -> indexable (indexers i) o) ->
  indices_match (indexers i) m0 (indices i) ->
  exists i',
    fold_left (fun oi kv => i ← oi; updateIndices i None kv.2 kv.1) l (Some i) = Some i' /\
    indexers i' = indexers i /\
    indices_match (indexers i) (list_to_map l ∪ m0) (indices i').
Proof.
  revert i m0. induction l as [|[k o] l IH]; intros i m0 Hnd Hfresh Hidx Hm.
  { exists i. split_and!; [done|done|]. simpl. by rewrite (left_id_L ∅ (∪)). }
  cbn in Hnd. apply NoDup_cons in Hnd as [Hk Hnd]. cbn [fold_left fst snd].
  destruct (updateIndices_ok i m0 (<[k := o]> m0) k None o) as (i1 & Hi1 & Hixers & Hm1).
  - done.
  - unfold item_at. rewrite Hfresh; [done|]. cbn. left.
  - by rewrite item_at_insert, decide_True.
  - intros k' ?. by rewrite item_at_insert, decide_False.
  - apply indexable_nil.
  - apply (Hidx k). left.
  - cbn [mbind option_bind]. rewrite Hi1.
    destruct (IH i1 (<[k := o]> m0)) as (i' & Hi' & Hixers' & Hm').
    + done.
    + intros k' Hk'. rewrite lookup_insert_ne by (intros ->; done).
      apply Hfresh. cbn. by right.
    + intros k' o' Ho'. rewrite Hixers. apply (Hidx k'). by right.
    + by rewrite Hixers.
    + exists i'. split_and!; [done|congruence|].
      rewrite Hixers in Hm'. rewrite list_to_map_cons.
      rewrite <- insert_union_l, insert_union_r; [done|].
      apply not_elem_of_list_to_map. done.
Qed.

Lemma indices_match_empty (fs : Indexers V) : indices_match fs (∅ : gmap string (iface V)) ∅.
Proof.
  split; [|set_solver]. intros name f _. unfold index_at. rewrite lookup_empty. split.
  - intros v k. unfold keys_at, item_at. rewrite !lookup_empty. simpl. set_solver.
  - intros v E. simpl in E. by rewrite lookup_empty in E.
Qed.

Lemma threadSafeMap_Replace_ok m rv c :
  (forall k o, m !! k = Some o -> indexable (indexers (index c)) o) ->
  exists c', threadSafeMap_Replace m rv c = Some c' /\
    items c' = m /\ indexers (index c') = indexers (index c) /\ store_ok c'.
Proof.
  intros Hidx. unfold threadSafeMap_Replace.
  destruct (updateIndices_fold (range m) (storeIndex_reset (index c)) ∅)
    as (i' & Hi' & Hixers & Hm).
  - apply NoDup_fst_range.
  - intros; apply lookup_empty.
  - intros k o Ho%elem_of_range. cbn. eauto.
  - cbn. apply indices_match_empty.
  - rewrite Hi'. eexists. split_and!; [done|done|done|].
    unfold store_ok. cbn in *. rewrite Hixers.
    rewrite (right_id_L ∅ (∪)) in Hm.
    rewrite (list_to_map_proper (range m) (map_to_list m)), list_to_map_to_list in Hm;
      [done|apply NoDup_fst_range|apply range_perm].
Qed.

Lemma NewThreadSafeStore_wf fs : store_wf (NewThreadSafeStore fs ∅).
Proof.
  split; [apply indices_match_empty|]. intros k o E. cbn [NewThreadSafeStore items] in E. by rewrite lookup_empty in E.
Qed.

Lemma index_at_outside fs m ixs name :
  indices_match fs m ixs -> fs !! name = None -> index_at ixs name = ∅.
Proof.
  intros [_ Hdom] Hn. unfold index_at.
  destruct (ixs !! name) eqn:E; [|done].
  apply elem_of_dom_2 in E. apply Hdom, elem_of_dom in E. rewrite Hn in E. by destruct E.
Qed.

End ranged.

Section queries.
Context `{SetsString}.

Lemma elem_of_sets_List s k : k ∈ sets_List s <-> k ∈ s.
Proof. rewrite (sets_List_perm s). apply elem_of_elements. Qed.

Lemma NoDup_sets_List s : NoDup (sets_List s).
Proof. rewrite (sets_List_perm s). apply NoDup_elements. Qed.

Lemma elem_of_getKeysFromIndex i name f obj vs s :
  indexers i !! name = Some f -> f obj = Ok vs -> getKeysFromIndex i name obj = Ok s ->
  forall k, k ∈ s <-> exists v, v ∈ vs /\ k ∈ keys_at (index_at (indices i) name) v.
Proof.
  unfold getKeysFromIndex. intros -> Hvs. simpl. rewrite Hvs. simpl.
  assert (Hfold : forall ws acc k,
    k ∈ fold_left (fun a v => a ∪ keys_at (index_at (indices i) name) v) ws acc <->
    k ∈ acc \/ exists v, v ∈ ws /\ k ∈ keys_at (index_at (indices i) name) v).
  { induction ws as [|w ws IH]; intros acc k; simpl; [set_solver|]. rewrite IH. set_solver. }
  destruct vs as [|v [|w vs]]; intros; simplify_eq; rewrite ?Hfold; set_solver.
Qed.

Lemma threadSafeMap_AddIndexers_ok fs c c' r :
  store_ok c -> threadSafeMap_AddIndexers fs c = (c', r) ->
  store_ok c' /\ items c' = items c /\
  match r with
  | Ok _ => items c = ∅ /\ dom (indexers (index c)) ∩ dom fs = ∅ /\
            indexers (index c') = fs ∪ indexers (index c)
  | Err _ => c' = c /\ (items c <> ∅ \/ dom (indexers (index c)) ∩ dom fs <> ∅)
  end.
Proof.
  intros Hok. unfold threadSafeMap_AddIndexers, addIndexers.
  case_decide as Hs; [|case_decide as Hd]; intros; simplify_eq/=.
  - split_and!; [done|done|done|left]. intros E. rewrite E, map_size_empty in Hs. lia.
  - assert (He : items c = ∅) by (apply map_size_empty_inv; lia).
    split_and!; [|done..]. split; cbn [index items indexers indices].
    + intros name f Hf. destruct (decide (is_Some (indexers (index c) !! name))) as [[g Hg]|Hn].
      * apply lookup_union_Some_raw in Hf as [Hf|[_ Hf]].
        { apply elem_of_dom_2 in Hf, Hg. set_solver. }
        by apply Hok.
      * apply eq_None_not_Some in Hn. rewrite (index_at_outside _ _ _ _ Hok Hn), He.
        destruct (indices_match_empty (<[name := f]> ∅)) as [Hm _].
        apply (Hm name f), lookup_insert_eq.
    + destruct Hok as [_ Hd']. rewrite dom_union_L. set_solver.
  - destruct c as [m i]. split_and!; [done|done|done|by right].
Qed.

End queries.

Lemma store_reach_wf c m : store_reach c m -> store_wf c /\ items c = m.
Proof.
  assert (Hupd : forall (R : MapRange) key obj c m c',
    store_wf c /\ items c = m -> indexable (indexers (index c)) obj ->
    threadSafeMap_Update key obj c = Some c' -> store_wf c' /\ items c' = <[key := obj]> m).
  { intros R key obj c0 m0 c' [[Hok Hidx] Hm] Ho E.
    destruct (threadSafeMap_Update_ok key obj c0) as (c1 & E' & Hi & Hix & Hok');
      [done|unfold item_at; destruct (items c0 !! key) eqn:Ek; simpl; eauto using indexable_nil
      |done|].
    rewrite E in E'. simplify_eq. split; [split; [done|]|congruence].
    rewrite Hi, Hix. intros k o [[-> ->]|[_ Hk]]%lookup_insert_Some; eauto. }
  induction 1 as [fs|R key obj c m c' _ IH Ho E|R key obj c m c' _ IH Ho E|R key c m c' _ IH E
    |R m' rv c m c' _ IH Ho E|L fs c m c' r _ IH E].
  - split; [apply NewThreadSafeStore_wf|done].
  - by eapply Hupd.
  - by eapply Hupd.
  - destruct IH as [[Hok Hidx] Hm].
    destruct (threadSafeMap_Delete_ok key c) as (c1 & E' & Hi & Hix & Hok');
      [done|unfold item_at; destruct (items c !! key) eqn:Ek; simpl; eauto using indexable_nil|].
    rewrite E in E'. simplify_eq. split; [split; [done|]|congruence].
    rewrite Hi, Hix. intros k o [_ Hk]%lookup_delete_Some; eauto.
  - destruct IH as [_ Hm].
    destruct (threadSafeMap_Replace_ok m' rv c Ho) as (c1 & E' & Hi & Hix & Hok').
    rewrite E in E'. simplify_eq. split; [split; [done|]|done]. by rewrite Hix.
  - destruct IH as [[Hok Hidx] Hm].
    destruct (threadSafeMap_AddIndexers_ok _ _ _ _ Hok E) as (Hok' & Hi & Hr).
    split; [split; [done|]|congruence]. rewrite Hi. intros k o Hk.
    destruct r as [u|e]; [destruct Hr as [He _]|destruct Hr as [-> _]; eauto].
    rewrite He in Hk. by apply lookup_empty_Some in Hk.
Qed.

(** ** Properties *)

(** C18: index consistency.  In every reachable store, whatever sequence of
    mutations and map iteration orders built it, the keys an index returns for a
    value are exactly, and without repetition, the keys of the stored objects to
    which the index function gives that value, and [ByIndex] returns the objects
    under those keys. *)
Theorem reachable_index_exact `{SetsString} c m name f v :
  store_reach c m -> indexers (index c) !! name = Some f ->
  exists ks,
    threadSafeMap_IndexKeys name v c = Ok ks /\ NoDup ks /\
    (forall k, k ∈ ks <->
       exists obj vs, m !! k = Some (Some obj) /\ f (Some obj) = Ok vs /\ v ∈ vs) /\
    threadSafeMap_ByIndex name v c = Ok (item_at m <$> ks).
Proof.
  intros Hr Hf. destruct (store_reach_wf _ _ Hr) as [[Hok _] <-].
  unfold threadSafeMap_IndexKeys, threadSafeMap_ByIndex, getKeysByIndex. rewrite Hf. simpl.
  eexists. split_and!; [done|apply NoDup_sets_List| |done].
  destruct (proj1 Hok name f Hf) as [Hix _].
  intros k. rewrite elem_of_sets_List, Hix. apply elem_of_obj_values.
Qed.

(** The mutations are total and have the effect of a plain map.  On a
    reachable store, adding or updating an object the index functions accept,
    deleting any key and replacing the contents never panic, and the items are
    afterwards the updated map; a lookup reads that map. *)
Theorem reachable_mutations_total `{MapRange} c m key obj newItems rv :
  store_reach c m -> indexable (indexers (index c)) obj ->
  (forall k o, newItems !! k = Some o -> indexable (indexers (index c)) o) ->
  (exists c', threadSafeMap_Update key obj c = Some c' /\ store_reach c' (<[key := obj]> m) /\
     threadSafeMap_Get key c' = (obj, true)) /\
  (exists c', threadSafeMap_Delete key c = Some c' /\ store_reach c' (delete key m) /\
     threadSafeMap_Get key c' = (None, false)) /\
  (exists c', threadSafeMap_Replace newItems rv c = Some c' /\ store_reach c' newItems /\
     forall k, threadSafeMap_Get k c' =
       match newItems !! k with Some o => (o, true) | None => (None, false) end).
Proof.
  intros Hr Ho Hn. destruct (store_reach_wf _ _ Hr) as [[Hok Hidx] Hm].
  assert (Hold : indexable (indexers (index c)) (item_at (items c) key)).
  { unfold item_at. destruct (items c !! key) eqn:E; simpl; eauto using indexable_nil. }
  unfold threadSafeMap_Get. split_and!.
  - destruct (threadSafeMap_Update_ok key obj c Hok Hold Ho) as (c' & E & Hi & _).
    exists c'. split_and!; [done|by eapply reach_Update|]. by rewrite Hi, lookup_insert_eq.
  - destruct (threadSafeMap_Delete_ok key c Hok Hold) as (c' & E & Hi & _).
    exists c'. split_and!; [done|by eapply reach_Delete|]. by rewrite Hi, lookup_delete_eq.
  - destruct (threadSafeMap_Replace_ok newItems rv c Hn) as (c' & E & Hi & _).
    exists c'. split_and!; [done|by eapply reach_Replace|]. by rewrite Hi.
Qed.

(** [Index] returns the stored objects that share a value with the given
    object, each once, whether or not the single-value fast path is taken; an
    unknown index and an error of the index function are reported. *)
Theorem reachable_Index_query `{SetsString} c m name obj :
  store_reach c m ->
  match indexers (index c) !! name with
  | None => threadSafeMap_Index name obj c = Err (Errorf "Index with name %s does not exist" [name])
  | Some f =>
      match f obj with
      | Err e => threadSafeMap_Index name obj c = Err e
      | Ok vs =>
          exists ks, threadSafeMap_Index name obj c = Ok (item_at m <$> ks) /\ NoDup ks /\
            forall k, k ∈ ks <->
              exists v o ws, v ∈ vs /\ m !! k = Some (Some o) /\ f (Some o) = Ok ws /\ v ∈ ws
      end
  end.
Proof.
  intros Hr. destruct (store_reach_wf _ _ Hr) as [[Hok _] <-].
  unfold threadSafeMap_Index.
  destruct (indexers (index c) !! name) as [f|] eqn:Hf; [|by unfold getKeysFromIndex; rewrite Hf].
  destruct (f obj) as [vs|e] eqn:Hvs; [|by unfold getKeysFromIndex; rewrite Hf; simpl; rewrite Hvs].
  assert (exists s, getKeysFromIndex (index c) name obj = Ok s) as [s Hs].
  { unfold getKeysFromIndex. rewrite Hf. simpl. rewrite Hvs. simpl. repeat split_match; eauto. }
  exists (sets_List s). rewrite Hs. split_and!; [done|apply NoDup_sets_List|].
  intros k. rewrite elem_of_sets_List, (elem_of_getKeysFromIndex _ _ _ _ _ _ Hf Hvs Hs).
  destruct (proj1 Hok name f Hf) as [Hix _]. setoid_rewrite Hix.
  setoid_rewrite elem_of_obj_values. naive_solver.
Qed.

End store.
Arguments storeIndex V : clear implicits.
Arguments threadSafeMap V : clear implicits.

(** ** Witnesses *)

Section witness.
#[local] Existing Instance range_in_key_order.
#[local] Existing Instance sets_in_key_order.

(** Objects are lists of labels, indexed by label; an empty list is an error. *)
Definition wit_by_label : IndexFunc (list string) := fun o =>
  match o with
  | Some (l :: ls) => Ok (l :: ls)
  | _ => Err (Errorf "no labels" [])
  end.

Definition wit_c0 : threadSafeMap (list string) := NewThreadSafeStore {["label" := wit_by_label]} ∅.
Definition wit_c1 := default wit_c0 (threadSafeMap_Add "pod-a" (Some ["red"; "blue"]) wit_c0).
Definition wit_c2 := default wit_c0 (threadSafeMap_Add "pod-b" (Some ["red"]) wit_c1).
Definition wit_c3 := default wit_c0 (threadSafeMap_Update "pod-a" (Some ["blue"; "green"]) wit_c2).
Definition wit_m3 : gmap string (iface (list string)) :=
  <["pod-a" := Some ["blue"; "green"]]> (<["pod-b" := Some ["red"]]>
    (<["pod-a" := Some ["red"; "blue"]]> ∅)).

Lemma by_label_indexable l ls (c : threadSafeMap (list string)) :
  indexers (index c) = {["label" := wit_by_label]} ->
  indexable (indexers (index c)) (Some (l :: ls)).
Proof. intros -> name f [<- <-]%lookup_singleton_Some. by eexists. Qed.

Lemma witness_store_reach : store_reach wit_c3 wit_m3.
Proof.
  eapply (reach_Update range_in_key_order "pod-a" _ wit_c2); [|by apply by_label_indexable|by vm_compute].
  eapply (reach_Add range_in_key_order "pod-b" _ wit_c1); [|by apply by_label_indexable|by vm_compute].
  eapply (reach_Add range_in_key_order "pod-a" _ wit_c0); [|by apply by_label_indexable|by vm_compute].
  apply reach_New.
Qed.

Lemma reachable_index_exact_witness :
  threadSafeMap_IndexKeys "label" "red" wit_c3 = Ok ["pod-b"] /\
  exists ks,
    threadSafeMap_IndexKeys "label" "blue" wit_c3 = Ok ks /\ NoDup ks /\
    (forall k, k ∈ ks <->
       exists obj vs, wit_m3 !! k = Some (Some obj) /\ wit_by_label (Some obj) = Ok vs /\ "blue" ∈ vs) /\
    threadSafeMap_ByIndex "label" "blue" wit_c3 = Ok (item_at wit_m3 <$> ks).
Proof.
  split; [vm_compute; reflexivity|].
  apply (reachable_index_exact wit_c3 wit_m3 "label" wit_by_label "blue" witness_store_reach).
  reflexivity.
Defined.

Lemma reachable_mutations_total_witness :
  (exists c', threadSafeMap_Update "pod-c" (Some ["red"]) wit_c3 = Some c' /\
     store_reach c' (<["pod-c" := Some ["red"]]> wit_m3) /\
     threadSafeMap_Get "pod-c" c' = (Some ["red"], true)) /\
  (exists c', threadSafeMap_Delete "pod-c" wit_c3 = Some c' /\ store_reach c' (delete "pod-c" wit_m3) /\
     threadSafeMap_Get "pod-c" c' = (None, false)) /\
  (exists c', threadSafeMap_Replace {["pod-d" := Some ["red"]]} "7" wit_c3 = Some c' /\
     store_reach c' {["pod-d" := Some ["red"]]} /\
     forall k, threadSafeMap_Get k c' =
       match ({["pod-d" := Some ["red"]]} : gmap string (iface (list string))) !! k with
       | Some o => (o, true) | None => (None, false) end).
Proof.
  apply (reachable_mutations_total wit_c3 wit_m3 "pod-c" (Some ["red"]) {["pod-d" := Some ["red"]]} "7").
  - apply witness_store_reach.
  - by apply by_label_indexable.
  - intros k o [<- <-]%lookup_singleton_Some. by apply by_label_indexable.
Defined.

Lemma reachable_Index_query_witness :
  exists ks, threadSafeMap_Index "label" (Some ["green"; "red"]) wit_c3 = Ok (item_at wit_m3 <$> ks) /\
    NoDup ks /\
    forall k, k ∈ ks <->
      exists v o ws, v ∈ ["green"; "red"] /\ wit_m3 !! k = Some (Some o) /\
        wit_by_label (Some o) = Ok ws /\ v ∈ ws.
Proof.
  apply (reachable_Index_query wit_c3 wit_m3 "label" (Some ["green"; "red"]) witness_store_reach).
Defined.

End witness.
