(* ===== verification/Store.v ===== *)
(** * Stores: the interfaces of tools/cache/thread_safe_store.go and store.go,
    and [*cache], which implements [Store]/[Indexer] over a [ThreadSafeStore].

    [ThreadSafeStoreI] and [StoreI] are the Go interfaces; the two [Laws] classes
    state what an implementation promises.  [cache] is proved against
    [ThreadSafeStoreLaws], which [threadSafeMap] discharges, and discharges
    [StoreLaws] itself. *)

From S2P Require Import Prelude Objects ThreadSafeStore.

(** An operation of a store on its state: [None] is a panic. *)
Abbreviation store_op V S A := (S -> option (S * result V A)).

(** ** The interfaces *)

Class ThreadSafeStoreI (V S : Type) : Type := {
  ts_Add : string -> iface V -> S -> option S;
  ts_Update : string -> iface V -> S -> option S;
  ts_Delete : string -> S -> option S;
  ts_Get : string -> S -> iface V * bool;
  ts_List : S -> list (iface V);
  ts_ListKeys : S -> list string;
  ts_Replace : gmap string (iface V) -> string -> S -> option S;
  ts_Index : string -> iface V -> S -> result V (list (iface V));
  ts_IndexKeys : string -> string -> S -> result V (list string);
  ts_ListIndexFuncValues : string -> S -> list string;
  ts_ByIndex : string -> string -> S -> result V (list (iface V));
  ts_GetIndexers : S -> Indexers V;
  ts_AddIndexers : Indexers V -> S -> S * result V unit
}.

(** What a [ThreadSafeStore] promises: it behaves as the map [ts_items]. *)
Class ThreadSafeStoreLaws (V S : Type) `{ThreadSafeStoreI V S} : Type := {
  ts_items : S -> gmap string (iface V);
  ts_inv : S -> Prop;
  ts_accepts : S -> iface V -> Prop;
  ts_ext (s s' : S) : Prop :=
    ts_inv s' /\ forall obj, ts_accepts s obj -> ts_accepts s' obj;
  ts_Update_law key obj s : ts_inv s -> ts_accepts s obj ->
    exists s', ts_Update key obj s = Some s' /\ ts_items s' = <[key := obj]> (ts_items s) /\ ts_ext s s';
  ts_Add_law key obj s : ts_Add key obj s = ts_Update key obj s;
  ts_Delete_law key s : ts_inv s ->
    exists s', ts_Delete key s = Some s' /\ ts_items s' = delete key (ts_items s) /\ ts_ext s s';
  ts_Replace_law m rv s : ts_inv s -> (forall k obj, m !! k = Some obj -> ts_accepts s obj) ->
    exists s', ts_Replace m rv s = Some s' /\ ts_items s' = m /\ ts_ext s s';
  ts_Get_law key s :
    ts_Get key s = match ts_items s !! key with Some o => (o, true) | None => (None, false) end;
  ts_List_law s : ts_List s ≡ₚ (map_to_list (ts_items s)).*2;
  ts_ListKeys_law s : ts_ListKeys s ≡ₚ (map_to_list (ts_items s)).*1
}.

(** The [Store] interface; [Get] and [GetByKey] return item, exists, err. *)
Class StoreI (V S : Type) : Type := {
  st_Add : iface V -> store_op V S unit;
  st_Update : iface V -> store_op V S unit;
  st_Delete : iface V -> store_op V S unit;
  st_List : S -> list (iface V);
  st_ListKeys : S -> list string;
  st_Get : iface V -> S -> iface V * bool * option (error V);
  st_GetByKey : string -> S -> iface V * bool * option (error V);
  st_Replace : list (iface V) -> string -> store_op V S unit;
  st_Resync : store_op V S unit
}.

(** The map a list of objects makes under a key function, later ones winning; the
    loop stops at the first object without a key. *)
Fixpoint items_of_list {V} (keyFunc : KeyFunc V) (l : list (iface V))
    (m : gmap string (iface V)) : result V (gmap string (iface V)) :=
  match l with
  | [] => Ok m
  | item :: l' =>
      match keyFunc item with
      | Err e => Err (KeyError item e)
      | Ok key => items_of_list keyFunc l' (<[key := item]> m)
      end
  end.

(** What a simple [Store] promises: it is the map from keys to the last object
    given, and an object without a key is refused with the state unchanged. *)
Class StoreLaws (V S : Type) `{StoreI V S} : Type := {
  st_items : S -> gmap string (iface V);
  st_inv : S -> Prop;
  st_accepts : S -> iface V -> Prop;
  st_key : S -> KeyFunc V;
  st_ext (s s' : S) : Prop :=
    st_inv s' /\ st_key s' = st_key s /\ forall obj, st_accepts s obj -> st_accepts s' obj;
  st_Update_law obj s : st_inv s -> st_accepts s obj ->
    match st_key s obj with
    | Err e => st_Update obj s = Some (s, Err (KeyError obj e))
    | Ok k => exists s', st_Update obj s = Some (s', Ok tt) /\
                st_items s' = <[k := obj]> (st_items s) /\ st_ext s s'
    end;
  st_Add_law obj s : st_inv s -> st_accepts s obj ->
    match st_key s obj with
    | Err e => st_Add obj s = Some (s, Err (KeyError obj e))
    | Ok k => exists s', st_Add obj s = Some (s', Ok tt) /\
                st_items s' = <[k := obj]> (st_items s) /\ st_ext s s'
    end;
  st_Delete_law obj s : st_inv s ->
    match st_key s obj with
    | Err e => st_Delete obj s = Some (s, Err (KeyError obj e))
    | Ok k => exists s', st_Delete obj s = Some (s', Ok tt) /\
                st_items s' = delete k (st_items s) /\ st_ext s s'
    end;
  st_Replace_law l rv s : st_inv s -> Forall (st_accepts s) l ->
    match items_of_list (st_key s) l ∅ with
    | Err e => st_Replace l rv s = Some (s, Err e)
    | Ok m => exists s', st_Replace l rv s = Some (s', Ok tt) /\ st_items s' = m /\ st_ext s s'
    end;
  st_GetByKey_law key s :
    st_GetByKey key s =
      match st_items s !! key with Some o => (o, true, None) | None => (None, false, None) end;
  st_Get_law obj s :
    st_Get obj s =
      match st_key s obj with
      | Err e => (None, false, Some (KeyError obj e))
      | Ok k => match st_items s !! k with Some o => (o, true, None) | None => (None, false, None) end
      end;
  st_ListKeys_law s : st_ListKeys s ≡ₚ (map_to_list (st_items s)).*1;
  st_List_law s : st_List s ≡ₚ (map_to_list (st_items s)).*2
}.

(** ** threadSafeMap implements ThreadSafeStore *)

#[export] Instance threadSafeMap_ThreadSafeStore {V} `{MapRange, SetsString}
    : ThreadSafeStoreI V (threadSafeMap V) := {|
  ts_Add := threadSafeMap_Add;
  ts_Update := threadSafeMap_Update;
  ts_Delete := threadSafeMap_Delete;
  ts_Get := threadSafeMap_Get;
  ts_List := threadSafeMap_List;
  ts_ListKeys := threadSafeMap_ListKeys;
  ts_Replace := threadSafeMap_Replace;
  ts_Index := threadSafeMap_Index;
  ts_IndexKeys := threadSafeMap_IndexKeys;
  ts_ListIndexFuncValues := threadSafeMap_ListIndexFuncValues;
  ts_ByIndex := threadSafeMap_ByIndex;
  ts_GetIndexers := threadSafeMap_GetIndexers;
  ts_AddIndexers := threadSafeMap_AddIndexers
|}.

(** ** cache *)

Section cache.
Context {V S : Type} `{ThreadSafeStoreI V S}.

Record cache : Type := mkCache {
  cacheStorage : S;
  keyFunc : KeyFunc V
}.

Definition with_storage (c : cache) (s : S) : cache := mkCache s (keyFunc c).

Definition cache_Add (obj : iface V) : store_op V cache unit := fun c =>
  match keyFunc c obj with
  | Err err => Some (c, Err (KeyError obj err))
  | Ok key => s ← ts_Add key obj (cacheStorage c); Some (with_storage c s, Ok tt)
  end.

Definition cache_Update (obj : iface V) : store_op V cache unit := fun c =>
  match keyFunc c obj with
  | Err err => Some (c, Err (KeyError obj err))
  | Ok key => s ← ts_Update key obj (cacheStorage c); Some (with_storage c s, Ok tt)
  end.

Definition cache_Delete (obj : iface V) : store_op V cache unit := fun c =>
  match keyFunc c obj with
  | Err err => Some (c, Err (KeyError obj err))
  | Ok key => s ← ts_Delete key (cacheStorage c); Some (with_storage c s, Ok tt)
  end.

Definition cache_List (c : cache) : list (iface V) := ts_List (cacheStorage c).
Definition cache_ListKeys (c : cache) : list string := ts_ListKeys (cacheStorage c).
Definition cache_GetIndexers (c : cache) : Indexers V := ts_GetIndexers (cacheStorage c).
Definition cache_Index (indexName : string) (obj : iface V) (c : cache) :=
  ts_Index indexName obj (cacheStorage c).
Definition cache_IndexKeys (indexName indexedValue : string) (c : cache) :=
  ts_IndexKeys indexName indexedValue (cacheStorage c).
Definition cache_ListIndexFuncValues (indexName : string) (c : cache) :=
  ts_ListIndexFuncValues indexName (cacheStorage c).
Definition cache_ByIndex (indexName indexedValue : string) (c : cache) :=
  ts_ByIndex indexName indexedValue (cacheStorage c).
Definition cache_AddIndexers (newIndexers : Indexers V) (c : cache) : cache * result V unit :=
  let '(s, r) := ts_AddIndexers newIndexers (cacheStorage c) in (with_storage c s, r).

Definition cache_GetByKey (key : string) (c : cache) : iface V * bool * option (error V) :=
  let '(item, exists_) := ts_Get key (cacheStorage c) in (item, exists_, None).

Definition cache_Get (obj : iface V) (c : cache) : iface V * bool * option (error V) :=
  match keyFunc c obj with
  | Err err => (None, false, Some (KeyError obj err))
  | Ok key => cache_GetByKey key c
  end.

Definition cache_Replace (l : list (iface V)) (resourceVersion : string)
    : store_op V cache unit := fun c =>
  match items_of_list (keyFunc c) l ∅ with
  | Err e => Some (c, Err e)
  | Ok items => s ← ts_Replace items resourceVersion (cacheStorage c); Some (with_storage c s, Ok tt)
  end.

Definition cache_Resync : store_op V cache unit := fun c => Some (c, Ok tt).

#[global] Instance cache_Store : StoreI V cache := {|
  st_Add := cache_Add;
  st_Update := cache_Update;
  st_Delete := cache_Delete;
  st_List := cache_List;
  st_ListKeys := cache_ListKeys;
  st_Get := cache_Get;
  st_GetByKey := cache_GetByKey;
  st_Replace := cache_Replace;
  st_Resync := cache_Resync
|}.

End cache.
Arguments cache V S : clear implicits.

(** [NewStore] and [NewIndexer]. *)
Definition NewIndexer {V} (keyFunc : KeyFunc V) (ixers : Indexers V)
    : cache V (threadSafeMap V) :=
  mkCache (NewThreadSafeStore ixers ∅) keyFunc.

Definition NewStore {V} (keyFunc : KeyFunc V) : cache V (threadSafeMap V) :=
  mkCache (NewThreadSafeStore ∅ ∅) keyFunc.

(** ** The laws hold *)

Section threadSafeMap_laws.
Context {V : Type} `{MapRange, SetsString}.

#[global] Program Instance threadSafeMap_laws : ThreadSafeStoreLaws V (threadSafeMap V) := {|
  ts_items := items;
  ts_inv := store_wf;
  ts_accepts c obj := indexable (indexers (index c)) obj
|}.
Next Obligation.
  intros key obj s [Hok Hidx] Ho. cbn in *.
  destruct (threadSafeMap_Update_ok key obj s) as (s' & E & Hi & Hix & Hok'); [done| |done|].
  { unfold item_at. destruct (items s !! key) eqn:Ek; simpl; eauto using indexable_nil. }
  exists s'. split; [done|split; [done|split; [split; [done|]|by rewrite Hix]]].
  rewrite Hi, Hix. intros k o [[-> ->]|[_ Hk]]%lookup_insert_Some; eauto.
Qed.
Next Obligation. done. Qed.
Next Obligation.
  intros key s [Hok Hidx]. cbn in *.
  destruct (threadSafeMap_Delete_ok key s) as (s' & E & Hi & Hix & Hok'); [done| |].
  { unfold item_at. destruct (items s !! key) eqn:Ek; simpl; eauto using indexable_nil. }
  exists s'. split; [done|split; [done|split; [split; [done|]|by rewrite Hix]]].
  rewrite Hi, Hix. intros k o [_ Hk]%lookup_delete_Some; eauto.
Qed.
Next Obligation.
  intros m rv s _ Hm. cbn in *.
  destruct (threadSafeMap_Replace_ok m rv s Hm) as (s' & E & Hi & Hix & Hok').
  exists s'. split; [done|split; [done|split; [split; [done|]|by rewrite Hix]]].
  by rewrite Hi, Hix.
Qed.
Next Obligation. intros key s. done. Qed.
Next Obligation. intros s. cbn. unfold threadSafeMap_List. by rewrite (range_perm (items s)). Qed.
Next Obligation. intros s. cbn. unfold threadSafeMap_ListKeys. by rewrite (range_perm (items s)). Qed.

End threadSafeMap_laws.

Section cache_laws.
Context {V S : Type} `{ThreadSafeStoreLaws V S}.

Lemma items_of_list_values (kf : KeyFunc V) l m m' k o :
  items_of_list kf l m = Ok m' -> m' !! k = Some o -> m !! k = Some o \/ o ∈ l.
Proof.
  revert m. induction l as [|x l IH]; intros m; simpl; [by intros [= ->]; left|].
  destruct (kf x) as [key|e]; [|done]. intros E Hk.
  destruct (IH _ E Hk) as [[[-> ->]|[_ ?]]%lookup_insert_Some|?]; set_solver.
Qed.

Lemma cache_put_law obj (c : cache V S) :
  ts_inv (cacheStorage c) -> ts_accepts (cacheStorage c) obj ->
  match keyFunc c obj with
  | Err e => cache_Update obj c = Some (c, Err (KeyError obj e))
  | Ok k => exists s', cache_Update obj c = Some (with_storage c s', Ok tt) /\
              ts_items s' = <[k := obj]> (ts_items (cacheStorage c)) /\
              ts_ext (cacheStorage c) s'
  end.
Proof.
  intros Hinv Hacc. unfold cache_Update. destruct (keyFunc c obj) as [k|e]; [|done].
  destruct (ts_Update_law k obj _ Hinv Hacc) as (s' & -> & ?). by exists s'.
Qed.

Lemma cache_Add_Update obj (c : cache V S) : cache_Add obj c = cache_Update obj c.
Proof. unfold cache_Add, cache_Update. split_match; [|done]. by rewrite ts_Add_law. Qed.

#[global] Program Instance cache_laws : StoreLaws V (cache V S) := {|
  st_items c := ts_items (cacheStorage c);
  st_inv c := ts_inv (cacheStorage c);
  st_accepts c := ts_accepts (cacheStorage c);
  st_key := keyFunc
|}.
Next Obligation.
  intros obj c Hinv Hacc. cbn in *. pose proof (cache_put_law obj c Hinv Hacc) as Hl.
  destruct (keyFunc c obj); [|done]. destruct Hl as (s' & -> & ? & ? & ?).
  eexists. split; [done|split; [done|by split_and?]].
Qed.
Next Obligation.
  intros obj c Hinv Hacc. cbn in *. rewrite cache_Add_Update.
  pose proof (cache_put_law obj c Hinv Hacc) as Hl.
  destruct (keyFunc c obj); [|done]. destruct Hl as (s' & -> & ? & ? & ?).
  eexists. split; [done|split; [done|by split_and?]].
Qed.
Next Obligation.
  intros obj c Hinv. cbn in *. unfold cache_Delete.
  destruct (keyFunc c obj) as [k|e]; [|done].
  destruct (ts_Delete_law k _ Hinv) as (s' & -> & ? & ? & ?).
  eexists. split; [done|split; [done|by split_and?]].
Qed.
Next Obligation.
  intros l rv c Hinv Hacc. cbn in *. unfold cache_Replace.
  destruct (items_of_list (keyFunc c) l ∅) as [m|e] eqn:E; [|done].
  destruct (ts_Replace_law m rv _ Hinv) as (s' & -> & ? & ? & ?).
  { intros k o Hk. destruct (items_of_list_values _ _ _ _ _ _ E Hk) as [Hk'|Hin].
    - by apply lookup_empty_Some in Hk'.
    - by eapply Forall_forall in Hacc. }
  eexists. split; [done|split; [done|by split_and?]].
Qed.
Next Obligation. intros key c. cbn. unfold cache_GetByKey. rewrite ts_Get_law. by destruct (_ !! key). Qed.
Next Obligation.
  intros obj c. cbn. unfold cache_Get, cache_GetByKey. destruct (keyFunc c obj) as [k|]; [|done].
  rewrite ts_Get_law. by destruct (_ !! k).
Qed.
Next Obligation. intros c. apply ts_ListKeys_law. Qed.
Next Obligation. intros c. apply ts_List_law. Qed.

End cache_laws.

Lemma NewIndexer_inv {V} `{MapRange, SetsString} (kf : KeyFunc V) (fs : Indexers V) :
  st_inv (NewIndexer kf fs) /\ st_items (NewIndexer kf fs) = ∅.
Proof. split; [cbn; apply NewThreadSafeStore_wf|done]. Qed.

Lemma NewStore_inv {V} `{MapRange, SetsString} (kf : KeyFunc V) :
  st_inv (NewStore kf) /\ st_items (NewStore kf) = ∅ /\ forall o, st_accepts (NewStore kf) o.
Proof.
  split; [cbn; apply NewThreadSafeStore_wf|split; [done|]].
  intros o name f Hf. cbn in Hf. by rewrite lookup_empty in Hf.
Qed.
