(* ===== verification/DeltaFIFO.v ===== *)
(** * The delta queue: tools/cache/delta_fifo.go.

    Every method holds the queue's lock from its first access of the state to its
    return, so each is one atomic step.  The immutable fields of the Go struct
    ([keyFunc], [emitDeltaTypeReplaced], [transformer]) are the record
    [DeltaFIFOConfig].  [knownObjects] is another component's state that changes
    between calls, so an operation that reads it takes its current contents as an
    argument, [None] for a nil [knownObjects].  [cond.Broadcast] has no effect on
    the state; a [Pop] that has to wait returns [Blocked] and is run again. *)

From S2P Require Import Prelude Objects.

(** [KeyListerGetter]. *)
Class KeyListerGetter (V K : Type) : Type := {
  klg_ListKeys : K -> list string;
  klg_GetByKey : string -> K -> iface V * bool * option (error V)
}.

Section delta_fifo.
Context {O : Type}.

Abbreviation Deltas := (list (Delta O)).

Record DeltaFIFOConfig : Type := mkDeltaFIFOConfig {
  keyFunc : KeyFunc (value O);
  emitDeltaTypeReplaced : bool;
  transformer : option (iface (value O) -> result (value O) (iface (value O)))
}.

Record DeltaFIFO : Type := mkDeltaFIFO {
  items : gmap string Deltas;
  queue : list string;
  populated : bool;
  initialPopulationCount : Z;
  closed : bool
}.

(** Field updates. *)
Definition set_items (m : gmap string Deltas) (f : DeltaFIFO) : DeltaFIFO :=
  mkDeltaFIFO m (queue f) (populated f) (initialPopulationCount f) (closed f).
Definition set_queue (q : list string) (f : DeltaFIFO) : DeltaFIFO :=
  mkDeltaFIFO (items f) q (populated f) (initialPopulationCount f) (closed f).
Definition set_populated (f : DeltaFIFO) : DeltaFIFO :=
  mkDeltaFIFO (items f) (queue f) true (initialPopulationCount f) (closed f).
Definition set_initialPopulationCount (n : Z) (f : DeltaFIFO) : DeltaFIFO :=
  mkDeltaFIFO (items f) (queue f) (populated f) n (closed f).
Definition set_closed (f : DeltaFIFO) : DeltaFIFO :=
  mkDeltaFIFO (items f) (queue f) (populated f) (initialPopulationCount f) true.

Definition NewDeltaFIFO : DeltaFIFO := mkDeltaFIFO ∅ [] false 0 false.

(** [NewDeltaFIFOWithOptions]: a nil [KeyFunction] is [MetaNamespaceKeyFunc]. *)
Definition NewDeltaFIFOWithOptions `{MetaAccessor O} (KeyFunction : option (KeyFunc (value O)))
    (EmitDeltaTypeReplaced : bool)
    (Transformer : option (iface (value O) -> result (value O) (iface (value O))))
    : DeltaFIFOConfig * DeltaFIFO :=
  (mkDeltaFIFOConfig (default MetaNamespaceKeyFunc KeyFunction) EmitDeltaTypeReplaced Transformer,
   NewDeltaFIFO).

Definition Oldest (d : Deltas) : option (Delta O) := head d.
Definition Newest (d : Deltas) : option (Delta O) := last d.
Definition copyDeltas (d : Deltas) : Deltas := d.

Definition is_tombstone (obj : iface (value O)) : bool :=
  match obj with Some (VTombstone _ _) => true | _ => false end.

Definition isDeletionDup (a b : Delta O) : option (Delta O) :=
  if negb (bool_decide (dType b = Deleted)) || negb (bool_decide (dType a = Deleted)) then None
  else if is_tombstone (dObject b) then Some a else Some b.

Definition isDup (a b : Delta O) : option (Delta O) :=
  match isDeletionDup a b with
  | Some out => Some out
  | None => None
  end.

Definition dedupDeltas (deltas : Deltas) : Deltas :=
  let n := length deltas in
  if (n <? 2)%nat then deltas
  else
    match deltas !! (n - 1)%nat, deltas !! (n - 2)%nat with
    | Some a, Some b =>
        match isDup a b with
        | Some out => take (n - 1) (<[(n - 2)%nat := out]> deltas)
        | None => deltas
        end
    | _, _ => deltas
    end.

(** ** Specification *)

(** What enqueuing the delta [d] under [id] does to the state: the effect of every
    [queueActionLocked] that does not fail (lemma [queueActionLocked_put]). *)
Definition put (id : string) (d : Delta O) (f : DeltaFIFO) : DeltaFIFO :=
  set_items (<[id := dedupDeltas (default [] (items f !! id) ++ [d])]> (items f))
    (set_queue (match items f !! id with None => queue f ++ [id] | Some _ => queue f end) f).

(** The invariant the comments on the struct's fields state. *)
Record fifo_ok (f : DeltaFIFO) : Prop := {
  ok_nodup : NoDup (queue f);
  ok_mem : forall k, k ∈ queue f <-> is_Some (items f !! k);
  ok_nonempty : forall k, items f !! k <> Some [];
  ok_count : 0 <= initialPopulationCount f <= Z.of_nat (length (queue f));
  ok_unpopulated : populated f = false -> initialPopulationCount f = 0
}.

(** Every delta stored under a key satisfies [P]. *)
Definition deltas_sat (P : string -> Delta O -> Prop) (f : DeltaFIFO) : Prop :=
  forall k ds, items f !! k = Some ds -> Forall (P k) ds.

(** [f'] is [f] after enqueuing deltas that satisfy [P] in the state they are
    enqueued in. *)
Definition puts (P : DeltaFIFO -> string -> Delta O -> Prop) : DeltaFIFO -> DeltaFIFO -> Prop :=
  rtc (fun f f' => exists id d, P f id d /\ f' = put id d f).

(** How a key's pending deltas may grow while they wait: new ones are appended,
    and a final [Deleted] may be exchanged for another [Deleted]. *)
Inductive grows : Deltas -> Deltas -> Prop :=
| grows_refl ds : grows ds ds
| grows_snoc ds ds' d : grows ds ds' -> grows ds (ds' ++ [d])
| grows_dedup ds ds' d d' :
    grows ds (ds' ++ [d]) -> dType d = Deleted -> dType d' = Deleted -> grows ds (ds' ++ [d']).

(** The newest delta pending for a key. *)
Definition newest_at (f : DeltaFIFO) (k : string) : option (Delta O) :=
  items f !! k ≫= Newest.

Section operations.
Context (cfg : DeltaFIFOConfig).

Definition Close (f : DeltaFIFO) : DeltaFIFO := set_closed f.

Definition KeyOf (obj : iface (value O)) : result (value O) string :=
  let unwrapped :=
    match obj with
    | Some (VDeltas d) =>
        match Newest d with
        | None => Err (KeyError obj ErrZeroLengthDeltasObject)
        | Some n => Ok (dObject n)
        end
    | _ => Ok obj
    end in
  let? obj' := unwrapped in
  match obj' with
  | Some (VTombstone key _) => Ok key
  | _ => keyFunc cfg obj'
  end.

Definition hasSynced_locked (f : DeltaFIFO) : bool :=
  populated f && (initialPopulationCount f =? 0).

Definition HasSynced (f : DeltaFIFO) : bool := hasSynced_locked f.

Definition transform (obj : iface (value O)) : result (value O) (iface (value O)) :=
  match transformer cfg with
  | Some t => t obj
  | None => Ok obj
  end.

Definition queueActionLocked (actionType : DeltaType) (obj : iface (value O))
    : stateM DeltaFIFO (value O) unit := fun f =>
  match KeyOf obj with
  | Err err => (f, Err (KeyError obj err))
  | Ok id =>
      match transform obj with
      | Err err => (f, Err err)
      | Ok obj =>
          let oldDeltas := items f !! id in
          let newDeltas := dedupDeltas (default [] oldDeltas ++ [mkDelta actionType obj]) in
          if (0 <? length newDeltas)%nat then
            let q := match items f !! id with
                     | None => queue f ++ [id]
                     | Some _ => queue f
                     end in
            (set_items (<[id := newDeltas]> (items f)) (set_queue q f), Ok tt)
          else
            match oldDeltas with
            | None => (f, Ok tt)
            | Some _ =>
                (set_items (<[id := newDeltas]> (items f)) f,
                 Err (Errorf "Impossible dedupDeltas for id=%q: oldDeltas=%#+v, obj=%#+v; broke DeltaFIFO invariant by storing empty Deltas" [id]))
            end
      end
  end.

Definition Add (obj : iface (value O)) : stateM DeltaFIFO (value O) unit := fun f =>
  queueActionLocked Added obj (set_populated f).

Definition Update (obj : iface (value O)) : stateM DeltaFIFO (value O) unit := fun f =>
  queueActionLocked Updated obj (set_populated f).

Definition addIfNotPresent (id : string) (deltas : Deltas) (f : DeltaFIFO) : DeltaFIFO :=
  let f := set_populated f in
  match items f !! id with
  | Some _ => f
  | None => set_items (<[id := deltas]> (items f)) (set_queue (queue f ++ [id]) f)
  end.

Definition AddIfNotPresent (obj : iface (value O)) : stateM DeltaFIFO (value O) unit := fun f =>
  match obj with
  | Some (VDeltas deltas) =>
      match KeyOf (Some (VDeltas deltas)) with
      | Err err => (f, Err (KeyError obj err))
      | Ok id => (addIfNotPresent id deltas f, Ok tt)
      end
  | _ => (f, Err (Errorf "object must be of type deltas, but got: %#v" []))
  end.

Definition listLocked `{MapRange} (f : DeltaFIFO) : list (iface (value O)) :=
  (fun kv => match Newest kv.2 with Some d => dObject d | None => None end) <$> range (items f).

Definition List `{MapRange} (f : DeltaFIFO) : list (iface (value O)) := listLocked f.

Definition ListKeys (f : DeltaFIFO) : list string := queue f.

Definition GetByKey (key : string) (f : DeltaFIFO) : Deltas * bool :=
  match items f !! key with
  | Some d => (copyDeltas d, true)
  | None => ([], false)
  end.

Definition Get (obj : iface (value O)) (f : DeltaFIFO) : result (value O) (Deltas * bool) :=
  match KeyOf obj with
  | Err err => Err (KeyError obj err)
  | Ok key => Ok (GetByKey key f)
  end.

Definition IsClosed (f : DeltaFIFO) : bool := closed f.

(** [Pop].  The process function runs under the lock on the state [X] of its
    closure.  The recursion is on the queue, which every iteration shortens. *)
Inductive PopOutcome : Type :=
| Blocked
| PopClosed
| Popped (item : Deltas) (err : option (error (value O))).

Definition requeue_error (err : option (error (value O)))
    : option (option (error (value O))) :=
  match err with
  | Some (ErrRequeue e) => Some e
  | _ => None
  end.

Fixpoint Pop_loop {X} (process : Deltas -> bool -> X -> X * option (error (value O)))
    (q : list string) (f : DeltaFIFO) (x : X) : DeltaFIFO * X * PopOutcome :=
  match q with
  | [] => (f, x, if closed f then PopClosed else Blocked)
  | id :: q' =>
      let isInInitialList := negb (hasSynced_locked f) in
      let f := set_queue q' f in
      let f := if (0 <? initialPopulationCount f)
               then set_initialPopulationCount (initialPopulationCount f - 1) f else f in
      match items f !! id with
      | None => Pop_loop process q' f x
      | Some item =>
          let f := set_items (delete id (items f)) f in
          let '(x, err) := process item isInInitialList x in
          match requeue_error err with
          | Some e => (addIfNotPresent id item f, x, Popped item e)
          | None => (f, x, Popped item err)
          end
      end
  end.

Definition Pop {X} (process : Deltas -> bool -> X -> X * option (error (value O)))
    (f : DeltaFIFO) (x : X) : DeltaFIFO * X * PopOutcome :=
  Pop_loop process (queue f) f x.

Section known_objects.
Context {K : Type} `{KeyListerGetter (value O) K}.

Definition Delete (known : option K) (obj : iface (value O))
    : stateM DeltaFIFO (value O) unit := fun f =>
  match KeyOf obj with
  | Err err => (f, Err (KeyError obj err))
  | Ok id =>
      let f := set_populated f in
      let skip :=
        match known with
        | None => negb (bool_decide (is_Some (items f !! id)))
        | Some kn =>
            let '(_, exists_, err) := klg_GetByKey id kn in
            let itemsExist := bool_decide (is_Some (items f !! id)) in
            match err with
            | None => negb exists_ && negb itemsExist
            | Some _ => false
            end
        end in
      if skip then (f, Ok tt) else queueActionLocked Deleted obj f
  end.

(** The three loops of [Replace]. *)
Fixpoint Replace_enqueue (action : DeltaType) (l : list (iface (value O))) (keys : gset string)
    : stateM DeltaFIFO (value O) (gset string) := fun f =>
  match l with
  | [] => (f, Ok keys)
  | item :: l' =>
      match KeyOf item with
      | Err err => (f, Err (KeyError item err))
      | Ok key =>
          match queueActionLocked action item f with
          | (f, Err err) => (f, Err (Wrapf "couldn't enqueue object: %v" err))
          | (f, Ok _) => Replace_enqueue action l' (keys ∪ {[key]}) f
          end
      end
  end.

(** The last known object of a queued key: the object of its newest delta, or the
    one inside it when that is a tombstone. *)
Definition deletedObjOf (oldItem : Deltas) : iface (value O) :=
  match Newest oldItem with
  | Some n =>
      match dObject n with
      | Some (VTombstone _ obj) => obj
      | o => o
      end
  | None => None
  end.

Fixpoint Replace_queued_deletions (l : list (string * Deltas)) (keys : gset string)
    (queuedDeletions : Z) : stateM DeltaFIFO (value O) Z := fun f =>
  match l with
  | [] => (f, Ok queuedDeletions)
  | (k, oldItem) :: l' =>
      if decide (k ∈ keys) then Replace_queued_deletions l' keys queuedDeletions f
      else
        match queueActionLocked Deleted (Some (VTombstone k (deletedObjOf oldItem))) f with
        | (f, Err err) => (f, Err err)
        | (f, Ok _) => Replace_queued_deletions l' keys (queuedDeletions + 1) f
        end
  end.

Definition known_obj (kn : K) (k : string) : iface (value O) :=
  match klg_GetByKey k kn with
  | (_, _, Some _) => None
  | (_, false, None) => None
  | (obj, true, None) => obj
  end.

Fixpoint Replace_known_deletions (kn : K) (ks : list string) (keys : gset string)
    (queuedDeletions : Z) : stateM DeltaFIFO (value O) Z := fun f =>
  match ks with
  | [] => (f, Ok queuedDeletions)
  | k :: ks' =>
      if decide (k ∈ keys) then Replace_known_deletions kn ks' keys queuedDeletions f
      else if (0 <? length (default [] (items f !! k)))%nat
      then Replace_known_deletions kn ks' keys queuedDeletions f
      else
        match queueActionLocked Deleted (Some (VTombstone k (known_obj kn k))) f with
        | (f, Err err) => (f, Err err)
        | (f, Ok _) => Replace_known_deletions kn ks' keys (queuedDeletions + 1) f
        end
  end.

Definition replace_action : DeltaType :=
  if emitDeltaTypeReplaced cfg then Replaced else Sync.

(** [Replace] up to its last statement: what it enqueues, and how many keys that
    is. *)
Definition Replace_queue `{MapRange} (known : option K) (l : list (iface (value O)))
    : stateM DeltaFIFO (value O) Z :=
  sbind (Replace_enqueue replace_action l ∅) (fun keys =>
  sbind (fun f => Replace_queued_deletions (range (items f)) keys 0 f) (fun queuedDeletions =>
  sbind (match known with
         | Some kn => Replace_known_deletions kn (klg_ListKeys kn) keys queuedDeletions
         | None => sret queuedDeletions
         end) (fun queuedDeletions => sret (Z.of_nat (size keys) + queuedDeletions)))).

Definition Replace `{MapRange} (known : option K) (l : list (iface (value O)))
    : stateM DeltaFIFO (value O) unit :=
  sbind (Replace_queue known l) (fun count f =>
  if populated f then (f, Ok tt)
  else (set_initialPopulationCount count (set_populated f), Ok tt)).

Definition syncKeyLocked (kn : K) (key : string) : stateM DeltaFIFO (value O) unit := fun f =>
  match klg_GetByKey key kn with
  | (_, _, Some _) => (f, Ok tt)
  | (_, false, None) => (f, Ok tt)
  | (obj, true, None) =>
      match KeyOf obj with
      | Err err => (f, Err (KeyError obj err))
      | Ok id =>
          if (0 <? length (default [] (items f !! id)))%nat then (f, Ok tt)
          else
            match queueActionLocked Sync obj f with
            | (f, Err err) => (f, Err (Wrapf "couldn't queue object: %v" err))
            | (f, Ok _) => (f, Ok tt)
            end
      end
  end.

Definition Resync (known : option K) : stateM DeltaFIFO (value O) unit :=
  match known with
  | None => sret tt
  | Some kn => sfor (klg_ListKeys kn) (syncKeyLocked kn)
  end.

End known_objects.
End operations.

(** ** Executions *)

(** One operation of the queue; the number counts the items a [Pop] hands out.
    The contents of the known-objects store, the process function with its
    state, and the map iteration order are arbitrary at every step. *)
Inductive fifo_step (cfg : DeltaFIFOConfig) : DeltaFIFO -> nat -> DeltaFIFO -> Prop :=
| step_Add obj f : fifo_step cfg f 0 (Add cfg obj f).1
| step_Update obj f : fifo_step cfg f 0 (Update cfg obj f).1
| step_Delete (K : Type) (k : KeyListerGetter (value O) K) (known : option K) obj f :
    fifo_step cfg f 0 (Delete cfg known obj f).1
| step_Replace (K : Type) (k : KeyListerGetter (value O) K) (R : MapRange) (known : option K) l f :
    fifo_step cfg f 0 (Replace cfg known l f).1
| step_Resync (K : Type) (k : KeyListerGetter (value O) K) (known : option K) f :
    fifo_step cfg f 0 (Resync cfg known f).1
| step_AddIfNotPresent obj f : fifo_step cfg f 0 (AddIfNotPresent cfg obj f).1
| step_Close f : fifo_step cfg f 0 (Close f)
| step_Pop (X : Type) (process : Deltas -> bool -> X -> X * option (error (value O))) f x f' x' out :
    Pop process f x = (f', x', out) ->
    fifo_step cfg f (match out with Popped _ _ => 1 | _ => 0 end) f'.

Inductive fifo_steps (cfg : DeltaFIFOConfig) : DeltaFIFO -> nat -> DeltaFIFO -> Prop :=
| steps_refl f : fifo_steps cfg f 0 f
| steps_step f n g m h : fifo_step cfg f n g -> fifo_steps cfg g m h -> fifo_steps cfg f (n + m) h.

(** The objects a successful [Replace] enqueues, by key: the last of the list for
    each key, as transformed.  [None] when an object has no key or the
    transformer fails. *)
Fixpoint replaced_objects (cfg : DeltaFIFOConfig) (l : list (iface (value O)))
    (m : gmap string (iface (value O))) : option (gmap string (iface (value O))) :=
  match l with
  | [] => Some m
  | item :: l' =>
      match KeyOf cfg item, transform cfg item with
      | Ok k, Ok o => replaced_objects cfg l' (<[k := o]> m)
      | _, _ => None
      end
  end.

(** The keys of the known objects. *)
Definition known_keys {K} `{KeyListerGetter (value O) K} (known : option K) : gset string :=
  match known with Some kn => list_to_set (klg_ListKeys kn) | None => ∅ end.

(** No condition on the objects and the deltas. *)
Definition anything (f : DeltaFIFO) (t : DeltaType) (obj : iface (value O)) : Prop := True.
Definition any_delta (f : DeltaFIFO) (k : string) (d : Delta O) : Prop := True.

(** [d] reports the deletion of [k] with last known object [obj]: it is the
    (transformed) tombstone, or the [Deleted] delta that was already queued. *)
Definition deletion_of (cfg : DeltaFIFOConfig) (k : string) (obj : iface (value O))
    (queued : option (Delta O)) (d : Delta O) : Prop :=
  dType d = Deleted /\
  (transform cfg (Some (VTombstone k obj)) = Ok (dObject d) \/ queued = Some d).

(** ** Lemmas *)

Lemma dedupDeltas_singleton (d : Delta O) : dedupDeltas [d] = [d].
Proof. done. Qed.

Lemma dedupDeltas_snoc2 (l : Deltas) b a :
  dedupDeltas (l ++ [b; a]) =
  match isDup a b with Some out => l ++ [out] | None => l ++ [b; a] end.
Proof.
  unfold dedupDeltas. rewrite length_app. cbn [length].
  replace (length l + 2 <? 2)%nat with false by (symmetry; apply Nat.ltb_ge; lia).
  replace (length l + 2 - 1)%nat with (length l + 1)%nat by lia.
  replace (length l + 2 - 2)%nat with (length l + 0)%nat by lia.
  rewrite !lookup_app_r by lia. replace (length l + 1 - length l)%nat with 1%nat by lia.
  replace (length l + 0 - length l)%nat with 0%nat by lia. cbn.
  destruct (isDup a b); [|done].
  rewrite insert_app_r, take_app_add. done.
Qed.

(** The outcomes of appending a delta. *)
Lemma dedupDeltas_cases (old : Deltas) (d : Delta O) :
  (dedupDeltas (old ++ [d]) = old ++ [d] /\
   (dType d = Deleted -> forall b, last old = Some b -> dType b <> Deleted)) \/
  exists l b, old = l ++ [b] /\ dType b = Deleted /\ dType d = Deleted /\
    dedupDeltas (old ++ [d]) = l ++ [if is_tombstone (dObject b) then d else b].
Proof.
  destruct old as [|b l _] using rev_ind; [by left; split|].
  rewrite <- (assoc_L (++)). cbn [app]. rewrite dedupDeltas_snoc2.
  unfold isDup, isDeletionDup.
  destruct (decide (dType b = Deleted)) as [Hb|Hb];
    [rewrite (bool_decide_true _ Hb)|rewrite (bool_decide_false _ Hb); left; split; [done|]].
  2:{ intros _ b'. rewrite last_snoc. by intros [= <-]. }
  destruct (decide (dType d = Deleted)) as [Hd|Hd];
    [rewrite (bool_decide_true _ Hd)|rewrite (bool_decide_false _ Hd); by left; split].
  right. exists l, b. cbn. by destruct (is_tombstone (dObject b)).
Qed.

Lemma dedupDeltas_last (old : Deltas) (d : Delta O) :
  exists l d', dedupDeltas (old ++ [d]) = l ++ [d'] /\ dType d' = dType d /\
    (d' = d \/ (dType d = Deleted /\ last old = Some d')).
Proof.
  destruct (dedupDeltas_cases old d) as [[-> _]|(l & b & -> & Hb & Hd & ->)].
  - exists old, d. auto.
  - exists l. eexists. split; [done|]. destruct (is_tombstone (dObject b)); [auto|].
    split; [congruence|]. right. by rewrite last_snoc.
Qed.

Lemma dedupDeltas_nonempty (old : Deltas) (d : Delta O) : dedupDeltas (old ++ [d]) <> [].
Proof.
  destruct (dedupDeltas_last old d) as (l & d' & -> & _). by destruct l.
Qed.

Lemma dedupDeltas_grows (ds old : Deltas) (d : Delta O) :
  grows ds old -> grows ds (dedupDeltas (old ++ [d])).
Proof.
  intros Hg. destruct (dedupDeltas_cases old d) as [[-> _]|(l & b & -> & Hb & Hd & ->)].
  - by constructor.
  - destruct (is_tombstone _); [|done]. by eapply grows_dedup.
Qed.

Lemma dedupDeltas_Forall (P : Delta O -> Prop) (old : Deltas) (d : Delta O) :
  Forall P old -> P d -> Forall P (dedupDeltas (old ++ [d])).
Proof.
  intros Ho Hd. destruct (dedupDeltas_cases old d) as [[-> _]|(l & b & -> & _ & _ & ->)].
  - apply Forall_app. auto.
  - apply Forall_app in Ho as [Hl Hb]. rewrite Forall_singleton in Hb. apply Forall_app. split; [done|].
    apply Forall_singleton. by destruct (is_tombstone (dObject b)).
Qed.

Section put.

Lemma queueActionLocked_put cfg t obj f :
  queueActionLocked cfg t obj f =
  match KeyOf cfg obj with
  | Err e => (f, Err (KeyError obj e))
  | Ok id =>
      match transform cfg obj with
      | Err e => (f, Err e)
      | Ok o => (put id (mkDelta t o) f, Ok tt)
      end
  end.
Proof.
  unfold queueActionLocked. destruct (KeyOf cfg obj) as [id|e]; [|done].
  destruct (transform cfg obj) as [o|e]; [|done].
  assert (0 <? length (dedupDeltas (default [] (items f !! id) ++ [mkDelta t o])) = true)%nat as ->.
  { pose proof (dedupDeltas_nonempty (default [] (items f !! id)) (mkDelta t o)) as Hne.
    destruct (dedupDeltas _); [congruence|done]. }
  done.
Qed.

Lemma put_ok id d f : fifo_ok f -> fifo_ok (put id d f).
Proof.
  intros [Hnd Hmem Hne Hc Hu]. unfold put.
  assert (Hlen : (length (queue f) <=
    length (match items f !! id with None => queue f ++ [id] | Some _ => queue f end))%nat).
  { destruct (items f !! id); [done|]. rewrite length_app. lia. }
  constructor; cbn; [| | |lia|done].
  - destruct (items f !! id) eqn:E; [done|]. apply NoDup_snoc; [done|].
    rewrite Hmem, E. by intros [? ?].
  - intros k. rewrite lookup_insert. destruct (decide (id = k)) as [->|Hk].
    + split; [by eexists|]. intros _. destruct (items f !! k) eqn:E; [by apply Hmem; eexists|].
      apply elem_of_app. right. by apply list_elem_of_singleton.
    + rewrite <- Hmem. destruct (items f !! id); [done|].
      rewrite elem_of_app, list_elem_of_singleton. naive_solver.
  - intros k. rewrite lookup_insert. case_decide; [|apply Hne].
    intros [= E]. by apply dedupDeltas_nonempty in E.
Qed.

Lemma put_sat P id d f : deltas_sat P f -> P id d -> deltas_sat P (put id d f).
Proof.
  intros Hs Hd k ds. cbn. intros [[<- <-]|[_ Hk]]%lookup_insert_Some; [|by eapply Hs].
  apply dedupDeltas_Forall; [|done]. destruct (items f !! id) eqn:E; [by eapply Hs|constructor].
Qed.

Lemma put_prefix id d f : queue f `prefix_of` queue (put id d f).
Proof. cbn. destruct (items f !! id); [done|]. by eexists. Qed.

Lemma put_grows id d f k ds :
  items f !! k = Some ds -> exists ds', items (put id d f) !! k = Some ds' /\ grows ds ds'.
Proof.
  intros Hk. cbn. rewrite lookup_insert. case_decide; [|eauto using grows_refl].
  subst. rewrite Hk. eexists. split; [done|]. apply dedupDeltas_grows, grows_refl.
Qed.

Lemma newest_at_put id d f k :
  exists d', dType d' = dType d /\
    (d' = d \/ (dType d = Deleted /\ newest_at f id = Some d')) /\
    newest_at (put id d f) k = if decide (id = k) then Some d' else newest_at f k.
Proof.
  destruct (dedupDeltas_last (default [] (items f !! id)) d) as (l & d' & E & Ht & Hd).
  exists d'. split; [done|]. split.
  - destruct Hd as [->|[? Hl]]; [by left|right]. split; [done|].
    unfold newest_at, Newest. by destruct (items f !! id).
  - unfold newest_at, Newest. cbn. rewrite lookup_insert. case_decide; [|done].
    cbn. by rewrite E, last_snoc.
Qed.

End put.

(** *** Sequences of enqueuings *)

Section puts.
Context (P : DeltaFIFO -> string -> Delta O -> Prop).

Lemma puts_refl f : puts P f f.
Proof. apply rtc_refl. Qed.

Lemma puts_once id d f : P f id d -> puts P f (put id d f).
Proof. intros Hd. apply rtc_once. eauto. Qed.

Lemma puts_trans f1 f2 f3 : puts P f1 f2 -> puts P f2 f3 -> puts P f1 f3.
Proof. apply rtc_trans. Qed.

Lemma puts_ok f f' : puts P f f' -> fifo_ok f -> fifo_ok f'.
Proof. induction 1 as [|f g h (id & d & _ & ->) _ IH]; auto using put_ok. Qed.

(** An invariant of [put] is an invariant of [puts]. *)
Lemma puts_invariant (I : DeltaFIFO -> Prop) f f' :
  (forall g id d, I g -> P g id d -> I (put id d g)) -> puts P f f' -> I f -> I f'.
Proof. intros HI. induction 1 as [|f g h (id & d & ? & ->) _ IH]; auto. Qed.

Lemma puts_fields f f' :
  puts P f f' -> populated f' = populated f /\ closed f' = closed f /\
    initialPopulationCount f' = initialPopulationCount f.
Proof. induction 1 as [|f g h (id & d & ? & ->) _ IH]; [done|]. by destruct IH as (-> & -> & ->). Qed.

Lemma puts_prefix f f' : puts P f f' -> queue f `prefix_of` queue f'.
Proof.
  induction 1 as [|f g h (id & d & ? & ->) _ IH]; [done|].
  etrans; [apply (put_prefix id d)|exact IH].
Qed.

Lemma grows_trans ds1 ds2 ds3 : grows ds1 ds2 -> grows ds2 ds3 -> grows ds1 ds3.
Proof.
  intros H12. induction 1; [done|apply grows_snoc; auto|eapply grows_dedup; eauto].
Qed.

Lemma puts_grows f f' k ds :
  puts P f f' -> items f !! k = Some ds ->
  exists ds', items f' !! k = Some ds' /\ grows ds ds'.
Proof.
  intros Hp. revert ds. induction Hp as [|f g h (id & d & ? & ->) _ IH]; intros ds Hk.
  - eauto using grows_refl.
  - destruct (put_grows id d _ _ _ Hk) as (ds1 & Hk1 & Hg1).
    destruct (IH _ Hk1) as (ds2 & ? & ?). eauto using grows_trans.
Qed.

End puts.

(** *** The operations as sequences of enqueuings *)

Section op_lemmas.
Context (cfg : DeltaFIFOConfig).
Context (A : DeltaFIFO -> DeltaType -> iface (value O) -> Prop).
Context (P : DeltaFIFO -> string -> Delta O -> Prop).
(** [A f t obj] says that the caller may enqueue [obj] as a [t] in the state [f];
    it holds of the tombstones of queued keys.  [P] is a property of the deltas
    made from them. *)
Context (A_queued : forall f k obj,
  k ∈ dom (items f) -> A f Deleted (Some (VTombstone k obj))).
Context (AP : forall f t obj id o,
  A f t obj -> KeyOf cfg obj = Ok id -> transform cfg obj = Ok o -> P f id (mkDelta t o)).

Lemma queueActionLocked_puts t obj f :
  A f t obj -> puts P f (queueActionLocked cfg t obj f).1.
Proof.
  intros HA. rewrite queueActionLocked_put.
  destruct (KeyOf cfg obj) eqn:Ek; [|apply puts_refl].
  destruct (transform cfg obj) eqn:Et; [|apply puts_refl]. apply puts_once. eauto.
Qed.

Lemma queueActionLocked_Ok t obj f f' :
  queueActionLocked cfg t obj f = (f', Ok tt) ->
  exists id o, KeyOf cfg obj = Ok id /\ transform cfg obj = Ok o /\ f' = put id (mkDelta t o) f.
Proof.
  rewrite queueActionLocked_put. destruct (KeyOf cfg obj) eqn:Ek; [|done].
  destruct (transform cfg obj) eqn:Et; [|done]. intros [= <-]. eauto.
Qed.

Lemma KeyOf_tombstone k obj : KeyOf cfg (Some (VTombstone k obj)) = Ok k.
Proof. done. Qed.

Lemma sfor_puts {B} (xs : list B) (body : B -> stateM DeltaFIFO (value O) unit) f :
  (forall x f, x ∈ xs -> puts P f (body x f).1) -> puts P f (sfor xs body f).1.
Proof.
  intros Hb. apply (sfor_invariant (puts P f)); [|apply puts_refl].
  intros x g Hx Hg. eapply puts_trans; eauto.
Qed.

Lemma Replace_enqueue_puts action l keys f :
  (forall g item, item ∈ l -> A g action item) ->
  puts P f (Replace_enqueue cfg action l keys f).1.
Proof.
  revert keys f. induction l as [|item l IH]; intros keys f HA; simpl; [apply puts_refl|].
  destruct (KeyOf cfg item); [|apply puts_refl].
  pose proof (queueActionLocked_puts action item f (HA f item ltac:(left))) as Hq.
  destruct (queueActionLocked cfg action item f) as [g [[]|e]]; simpl in *; [|done].
  eapply puts_trans; [exact Hq|]. apply IH. intros. apply HA. by right.
Qed.

Lemma dom_items_queueActionLocked t obj f :
  dom (items f) ⊆ dom (items (queueActionLocked cfg t obj f).1).
Proof.
  rewrite queueActionLocked_put. repeat split_match; cbn; try done. set_solver.
Qed.

Lemma Replace_queued_deletions_puts l keys n f :
  list_to_set l.*1 ⊆ dom (items f) -> puts P f (Replace_queued_deletions cfg l keys n f).1.
Proof.
  revert n f. induction l as [|[k old] l IH]; intros n f Hl; simpl; [apply puts_refl|].
  cbn in Hl. destruct (decide (k ∈ keys)); [apply IH; set_solver|].
  assert (Hk : k ∈ dom (items f)) by set_solver.
  pose proof (queueActionLocked_puts Deleted (Some (VTombstone k (deletedObjOf old))) f
    (A_queued _ _ _ Hk)) as Hq.
  pose proof (dom_items_queueActionLocked Deleted (Some (VTombstone k (deletedObjOf old))) f) as Hd.
  destruct (queueActionLocked cfg _ _ f) as [g [[]|e]]; simpl in *; [|done].
  eapply puts_trans; [exact Hq|]. apply IH. set_solver.
Qed.

Section with_known.
Context {K : Type} `{KeyListerGetter (value O) K}.

Lemma Replace_known_deletions_puts kn ks keys n f :
  (forall g k obj, k ∈ ks -> A g Deleted (Some (VTombstone k obj))) ->
  puts P f (Replace_known_deletions cfg kn ks keys n f).1.
Proof.
  revert n f. induction ks as [|k ks IH]; intros n f HA; simpl; [apply puts_refl|].
  assert (HA' : forall g k obj, k ∈ ks -> A g Deleted (Some (VTombstone k obj)))
    by (intros; apply HA; by right).
  destruct (decide (k ∈ keys)); [auto|]. split_match; [auto|].
  pose proof (queueActionLocked_puts Deleted (Some (VTombstone k (known_obj kn k))) f
    (HA _ _ _ ltac:(left))) as Hq.
  destruct (queueActionLocked cfg _ _ f) as [g [[]|e]]; simpl in *; [|done].
  eapply puts_trans; eauto.
Qed.

Lemma Delete_puts (known : option K) obj f :
  A (set_populated f) Deleted obj ->
  (Delete cfg known obj f).1 = f \/ puts P (set_populated f) (Delete cfg known obj f).1.
Proof.
  intros HA. unfold Delete. destruct (KeyOf cfg obj) as [id|]; [right|by left].
  split_match; [apply puts_refl|]. by apply queueActionLocked_puts.
Qed.

Lemma Replace_queue_puts `{MapRange} (known : option K) l f :
  (forall g item, item ∈ l -> A g (replace_action cfg) item) ->
  (forall g k obj, k ∈ known_keys known -> A g Deleted (Some (VTombstone k obj))) ->
  puts P f (Replace_queue cfg known l f).1.
Proof.
  intros HA HAk. unfold Replace_queue, sbind.
  pose proof (Replace_enqueue_puts (replace_action cfg) l ∅ f HA) as H1.
  destruct (Replace_enqueue cfg (replace_action cfg) l ∅ f) as [g [keys|e]]; [|done].
  pose proof (Replace_queued_deletions_puts (range (items g)) keys 0 g) as H2.
  rewrite list_to_set_range in H2. specialize (H2 ltac:(done)).
  destruct (Replace_queued_deletions cfg (range (items g)) keys 0 g) as [h [n|e]];
    simpl in *; [|by eapply puts_trans].
  pose proof (puts_trans _ _ _ _ H1 H2) as H12.
  destruct known as [kn|]; [|done].
  pose proof (Replace_known_deletions_puts kn (klg_ListKeys kn) keys n h) as H3.
  destruct (Replace_known_deletions cfg kn (klg_ListKeys kn) keys n h) as [i [n'|e]];
    simpl in *; (eapply puts_trans; [done|apply H3]);
    intros; apply HAk; by apply elem_of_list_to_set.
Qed.

Lemma syncKeyLocked_puts kn key f :
  (forall g o, klg_GetByKey key kn = (o, true, None) -> A g Sync o) ->
  puts P f (syncKeyLocked cfg kn key f).1.
Proof.
  intros HA. unfold syncKeyLocked.
  destruct (klg_GetByKey key kn) as [[o [|]] [e|]]; try apply puts_refl.
  destruct (KeyOf cfg o); [|apply puts_refl]. split_match; [apply puts_refl|].
  pose proof (queueActionLocked_puts Sync o f (HA f o eq_refl)) as Hq.
  by destruct (queueActionLocked cfg Sync o f) as [g [[]|e]].
Qed.

Lemma Resync_puts (known : option K) f :
  (forall g kn key o, known = Some kn -> klg_GetByKey key kn = (o, true, None) -> A g Sync o) ->
  puts P f (Resync cfg known f).1.
Proof.
  intros HA. destruct known as [kn|]; [|apply puts_refl]. unfold Resync.
  apply sfor_puts. intros key g _. apply syncKeyLocked_puts. eauto.
Qed.

End with_known.
End op_lemmas.

(** *** The invariant is preserved *)

Lemma fifo_ok_set_populated f : fifo_ok f -> fifo_ok (set_populated f).
Proof. intros []. by constructor. Qed.

Lemma fifo_ok_NewDeltaFIFO : fifo_ok NewDeltaFIFO.
Proof.
  constructor; cbn; [constructor| | |lia|done].
  - intros k. rewrite lookup_empty. split; [by intros ?%not_elem_of_nil|by intros []].
  - intros k. by rewrite lookup_empty.
Qed.

Lemma queue_length_dom f : fifo_ok f -> length (queue f) = size (dom (items f)).
Proof.
  intros [Hnd Hmem _ _ _]. rewrite <- (size_list_to_set (C:=gset string)) by done.
  f_equal. apply set_eq. intros k. rewrite elem_of_list_to_set, Hmem, elem_of_dom. done.
Qed.

Lemma addIfNotPresent_ok id ds f : fifo_ok f -> ds <> [] -> fifo_ok (addIfNotPresent id ds f).
Proof.
  intros [Hnd Hmem Hne Hc Hu] Hds. unfold addIfNotPresent. cbn.
  destruct (items f !! id) as [ds'|] eqn:E; [by constructor|].
  constructor; cbn; [| | |rewrite length_app; cbn; lia|done].
  - apply NoDup_snoc; [done|]. rewrite Hmem, E. by intros [].
  - intros k. rewrite elem_of_app, list_elem_of_singleton, Hmem, lookup_insert.
    case_decide; [subst; split; [by eexists|by right]|]. naive_solver.
  - intros k. rewrite lookup_insert. case_decide; [congruence|apply Hne].
Qed.

(** A [Pop] on a well-formed queue never skips a key: it hands the head's deltas
    to the process function. *)
Lemma Pop_head {X} (process : Deltas -> bool -> X -> X * option (error (value O))) f x id q :
  fifo_ok f -> queue f = id :: q ->
  exists item, items f !! id = Some item /\ item <> [] /\
    let g := mkDeltaFIFO (delete id (items f)) q (populated f)
               (if 0 <? initialPopulationCount f then initialPopulationCount f - 1
                else initialPopulationCount f) (closed f) in
    fifo_ok g /\
    Pop process f x =
      let '(x', err) := process item (negb (HasSynced f)) x in
      match requeue_error err with
      | Some e => (addIfNotPresent id item g, x', Popped item e)
      | None => (g, x', Popped item err)
      end.
Proof.
  intros [Hnd Hmem Hne Hc Hu] Hq. unfold Pop. rewrite Hq in *. cbn [Pop_loop].
  destruct (proj1 (Hmem id) ltac:(left)) as [item Hitem].
  exists item. split; [done|]. split; [by intros ->; destruct (Hne id)|]. cbn zeta.
  apply NoDup_cons in Hnd as [Hid Hnd]. cbn [length] in Hc. split.
  - constructor; cbn.
    + done.
    + intros k. rewrite lookup_delete. case_decide as Hk.
      * subst. split; [done|by intros []].
      * rewrite <- Hmem, elem_of_cons. naive_solver.
    + intros k. rewrite lookup_delete. by case_decide.
    + split_match; bool_to_prop; lia.
    + intros Hp. rewrite (Hu Hp). done.
  - unfold HasSynced, hasSynced_locked.
    change (initialPopulationCount (set_queue q f)) with (initialPopulationCount f).
    destruct (0 <? initialPopulationCount f); cbn; rewrite Hitem; by destruct (process item _ x).
Qed.

Lemma Pop_empty {X} (process : Deltas -> bool -> X -> X * option (error (value O))) f x :
  queue f = [] -> Pop process f x = (f, x, if closed f then PopClosed else Blocked).
Proof. unfold Pop. by intros ->. Qed.

Lemma Pop_ok {X} (process : Deltas -> bool -> X -> X * option (error (value O))) f x f' x' out :
  fifo_ok f -> Pop process f x = (f', x', out) -> fifo_ok f'.
Proof.
  intros Hok. destruct (queue f) as [|id q] eqn:Hq.
  - rewrite Pop_empty by done. by intros [= <- _ _].
  - destruct (Pop_head process f x id q Hok Hq) as (item & Hi & Hne & Hg & ->).
    destruct (process item _ x) as [x1 err].
    destruct (requeue_error err); intros [= <- _ _]; [by apply addIfNotPresent_ok|done].
Qed.

Lemma AddIfNotPresent_ok cfg obj f : fifo_ok f -> fifo_ok (AddIfNotPresent cfg obj f).1.
Proof.
  intros Hok. unfold AddIfNotPresent. destruct obj as [[| | |ds]|]; try done.
  destruct (KeyOf cfg (Some (VDeltas ds))) eqn:E; [|done].
  apply addIfNotPresent_ok; [done|]. by intros ->.
Qed.

Lemma Replace_ok `{MapRange} {K} `{KeyListerGetter (value O) K} cfg (known : option K) l f :
  fifo_ok f ->
  (forall n g, Replace_queue cfg known l f = (g, Ok n) -> populated f = false ->
     n = Z.of_nat (length (queue g))) ->
  fifo_ok (Replace cfg known l f).1.
Proof.
  intros Hok Hn. unfold Replace, sbind.
  pose proof (Replace_queue_puts cfg anything any_delta ltac:(done) ltac:(done) known l f
    ltac:(done) ltac:(done)) as Hp.
  destruct (Replace_queue cfg known l f) as [g [n|e]]; simpl in *;
    [|by eapply puts_ok].
  destruct (populated g) eqn:Ep; [by eapply puts_ok|].
  pose proof (puts_fields _ _ _ Hp) as (Ef & _ & _).
  rewrite (Hn n g eq_refl) by congruence.
  destruct (puts_ok _ _ _ Hp Hok). constructor; cbn; auto; try done. lia.
Qed.

(** *** What a successful Replace does *)

Lemma dom_items_put id d f : dom (items (put id d f)) = {[id]} ∪ dom (items f).
Proof. cbn. apply dom_insert_L. Qed.

Lemma items_put_ne id d f k : id <> k -> items (put id d f) !! k = items f !! k.
Proof. intros. cbn. by apply lookup_insert_ne. Qed.

Lemma newest_at_items f g k : items g !! k = items f !! k -> newest_at g k = newest_at f k.
Proof. unfold newest_at. by intros ->. Qed.

Lemma newest_at_put_live id d f k :
  dType d <> Deleted ->
  newest_at (put id d f) k = if decide (id = k) then Some d else newest_at f k.
Proof.
  intros Hd. destruct (newest_at_put id d f k) as (d' & _ & [->|[? _]] & E); done.
Qed.

Lemma newest_at_put_deleted id o f :
  exists d, newest_at (put id (mkDelta Deleted o) f) id = Some d /\ dType d = Deleted /\
    (d = mkDelta Deleted o \/ newest_at f id = Some d).
Proof.
  destruct (newest_at_put id (mkDelta Deleted o) f id) as (d & Ht & Hd & E).
  rewrite decide_True in E by done. exists d. naive_solver.
Qed.

Lemma Replace_enqueue_Ok cfg action l keys f f' keys' m0 :
  action <> Deleted -> dom m0 = keys -> keys ⊆ dom (items f) ->
  (forall k o, m0 !! k = Some o -> newest_at f k = Some (mkDelta action o)) ->
  Replace_enqueue cfg action l keys f = (f', Ok keys') ->
  exists m, replaced_objects cfg l m0 = Some m /\ dom m = keys' /\
    dom (items f') = dom (items f) ∪ keys' /\
    (forall k o, m !! k = Some o -> newest_at f' k = Some (mkDelta action o)) /\
    (forall k, k ∉ keys' -> items f' !! k = items f !! k) /\ keys ⊆ keys'.
Proof.
  intros Hact. revert keys f m0. induction l as [|item l IH]; intros keys f m0 Hdom Hsub Hm0 E;
    cbn [Replace_enqueue replaced_objects] in *.
  { simplify_eq. exists m0. split_and!; [done|done|set_solver|done|done|done]. }
  destruct (KeyOf cfg item) as [key|] eqn:Ek; [|done].
  destruct (queueActionLocked cfg action item f) as [g [[]|e]] eqn:Eq; [|done].
  apply queueActionLocked_Ok in Eq as (id & o & Ek' & Et & ->).
  rewrite Ek in Ek'. simplify_eq. rewrite Et.
  destruct (IH (dom m0 ∪ {[id]}) (put id (mkDelta action o) f) (<[id := o]> m0))
    as (m & Hm & Hdm & Hdi & Hnew & Hold & Hk).
  - rewrite dom_insert_L. set_solver.
  - rewrite dom_items_put. set_solver.
  - intros k o' [[-> ->]|[Hne Hk]]%lookup_insert_Some; rewrite newest_at_put_live by done.
    + by rewrite decide_True.
    + rewrite decide_False by done. eauto.
  - done.
  - exists m. split_and!; [done|done| |done| |set_solver].
    + rewrite Hdi, dom_items_put. set_solver.
    + intros k Hk'. rewrite Hold by done. apply items_put_ne. set_solver.
Qed.

Lemma Replace_queued_deletions_Ok cfg l keys n f f' n' :
  NoDup l.*1 -> (forall k, k ∈ l.*1 -> k ∈ dom (items f)) ->
  Replace_queued_deletions cfg l keys n f = (f', Ok n') ->
  n' = n + Z.of_nat (size (list_to_set l.*1 ∖ keys)) /\
  dom (items f') = dom (items f) /\
  (forall k, k ∉ l.*1 \/ k ∈ keys -> items f' !! k = items f !! k) /\
  (forall k old, (k, old) ∈ l -> k ∉ keys ->
     exists d, newest_at f' k = Some d /\ deletion_of cfg k (deletedObjOf old) (newest_at f k) d).
Proof.
  revert n f. induction l as [|[k old] l IH]; intros n f Hnd Hin E;
    cbn [Replace_queued_deletions] in E; rewrite ?fmap_cons in *; cbn [fst] in *.
  { simplify_eq. split_and!; [|done|done|by intros ?? ?%not_elem_of_nil].
    replace (size _) with 0%nat; [lia|]. symmetry. apply size_empty_iff. set_solver. }
  apply NoDup_cons in Hnd as [Hk Hnd]. destruct (decide (k ∈ keys)) as [Hkk|Hkk].
  - destruct (IH n f Hnd ltac:(set_solver) E) as (-> & Hd & Hsame & Hdel).
    split_and!; [|done| |].
    + do 2 f_equal. f_equal. set_solver.
    + intros k' Hk'. apply Hsame. set_solver.
    + intros k' old' [?|Hin']%elem_of_cons Hk'; [by simplify_eq|by apply Hdel].
  - destruct (queueActionLocked cfg Deleted _ f) as [g [[]|e]] eqn:Eq; [|done].
    apply queueActionLocked_Ok in Eq as (id & o & Ek' & Et & ->).
    cbn in Ek'. simplify_eq. rename id into k.
    destruct (IH (n + 1) (put k (mkDelta Deleted o) f) Hnd) as (-> & Hd & Hsame & Hdel).
    { intros k' Hk'. rewrite dom_items_put. set_solver. }
    { done. }
    split_and!.
    + replace (list_to_set (k :: l.*1) ∖ keys)
        with ({[k]} ∪ (list_to_set l.*1 ∖ keys) : gset string) by set_solver.
      rewrite (size_union {[k]}), size_singleton by set_solver. lia.
    + rewrite Hd, dom_items_put. specialize (Hin k ltac:(set_solver)). set_solver.
    + intros k' Hk'. rewrite Hsame by set_solver. apply items_put_ne. set_solver.
    + intros k' old' [E'|Hin']%elem_of_cons Hk'.
      * simplify_eq. destruct (newest_at_put_deleted k o f) as (d & Hn & Ht & Hdd).
        exists d. split.
        { rewrite <- Hn. apply newest_at_items, Hsame. by left. }
        split; [done|]. destruct Hdd as [->|?]; [by left|by right].
      * destruct (Hdel k' old' Hin' Hk') as (d & Hn & Hdd). exists d. split; [done|].
        rewrite (newest_at_items f) in Hdd; [done|]. apply items_put_ne.
        intros ->. apply Hk, list_elem_of_fmap. by exists (k', old').
Qed.

Lemma queued_iff f k :
  fifo_ok f -> (0 <? length (default [] (items f !! k)))%nat = bool_decide (k ∈ dom (items f)).
Proof.
  intros [_ _ Hne _ _]. destruct (items f !! k) as [[|d ds]|] eqn:E; cbn.
  - by destruct (Hne k).
  - symmetry. apply bool_decide_eq_true. by eapply elem_of_dom_2.
  - symmetry. apply bool_decide_eq_false. by apply not_elem_of_dom.
Qed.

Section replace.
Context {K : Type} `{KeyListerGetter (value O) K}.

Lemma Replace_known_deletions_Ok cfg kn ks keys n f f' n' :
  fifo_ok f -> Replace_known_deletions cfg kn ks keys n f = (f', Ok n') ->
  n' - n = Z.of_nat (size (dom (items f'))) - Z.of_nat (size (dom (items f))) /\
  dom (items f') = dom (items f) ∪ (list_to_set ks ∖ keys) /\
  (forall k, k ∈ dom (items f) \/ k ∉ ks \/ k ∈ keys -> items f' !! k = items f !! k) /\
  (forall k, k ∈ ks -> k ∉ keys -> k ∉ dom (items f) ->
     exists d, newest_at f' k = Some d /\ deletion_of cfg k (known_obj kn k) None d).
Proof.
  revert n f. induction ks as [|k ks IH]; intros n f Hok E; cbn [Replace_known_deletions] in E.
  { simplify_eq. split_and!; [lia|set_solver|done|by intros ? ?%not_elem_of_nil]. }
  destruct (decide (k ∈ keys)) as [Hkk|Hkk].
  { destruct (IH n f Hok E) as (Hn & Hd & Hsame & Hdel). split_and!; [done|set_solver| |].
    - intros k' Hk'. apply Hsame. set_solver.
    - intros k' [->|?]%elem_of_cons ??; [done|by apply Hdel]. }
  rewrite queued_iff in E by done. case_bool_decide as Hq.
  { destruct (IH n f Hok E) as (Hn & Hd & Hsame & Hdel). split_and!; [done|set_solver| |].
    - intros k' Hk'. apply Hsame. set_solver.
    - intros k' [->|?]%elem_of_cons ??; [done|by apply Hdel]. }
  destruct (queueActionLocked cfg Deleted _ f) as [g [[]|e]] eqn:Eq; [|done].
  apply queueActionLocked_Ok in Eq as (id & o & Ek' & Et & ->).
  cbn in Ek'. simplify_eq. rename id into k.
  destruct (IH (n + 1) (put k (mkDelta Deleted o) f) (put_ok _ _ _ Hok) E)
    as (Hn & Hd & Hsame & Hdel).
  rewrite dom_items_put in *. rewrite size_union, size_singleton in Hn by set_solver.
  split_and!; [lia|set_solver| |].
  - intros k' Hk'. rewrite Hsame by set_solver. apply items_put_ne. set_solver.
  - intros k' Hin Hk' Hq'. destruct (decide (k' = k)) as [->|Hne].
    + destruct (newest_at_put_deleted k o f) as (d & Hnew & Ht & Hdd).
      exists d. split; [rewrite <- Hnew; apply newest_at_items, Hsame; set_solver|].
      split; [done|left]. destruct Hdd as [->|Hdd]; [done|].
      unfold newest_at in Hdd. apply not_elem_of_dom in Hq'. by rewrite Hq' in Hdd.
    + apply Hdel; set_solver.
Qed.

(** The last loop of [Replace], which is only run with known objects. *)
Lemma Replace_known_stage_Ok cfg (known : option K) keys n f f' n' :
  fifo_ok f ->
  match known with
  | Some kn => Replace_known_deletions cfg kn (klg_ListKeys kn) keys n
  | None => sret n
  end f = (f', Ok n') ->
  n' - n = Z.of_nat (size (dom (items f'))) - Z.of_nat (size (dom (items f))) /\
  dom (items f') = dom (items f) ∪ (known_keys known ∖ keys) /\
  (forall k, k ∈ dom (items f) \/ k ∉ known_keys known \/ k ∈ keys -> items f' !! k = items f !! k) /\
  (forall k kn, known = Some kn -> k ∈ klg_ListKeys kn -> k ∉ keys -> k ∉ dom (items f) ->
     exists d, newest_at f' k = Some d /\ deletion_of cfg k (known_obj kn k) None d).
Proof.
  intros Hok E. destruct known as [kn|].
  - apply Replace_known_deletions_Ok in E as (? & ? & Hs & Hd); [|done].
    split_and!; [done|done| |by intros k kn' [= <-]; apply Hd].
    intros k Hk. apply Hs. cbn in Hk. by rewrite elem_of_list_to_set in Hk.
  - unfold sret in E. simplify_eq. split_and!; [lia|set_solver|done|done].
Qed.

(** The three loops of a successful [Replace]. *)
Lemma Replace_queue_stages `{MapRange} cfg (known : option K) l f f' n :
  fifo_ok f -> Replace_queue cfg known l f = (f', Ok n) ->
  exists g keys h n1 n2,
    Replace_enqueue cfg (replace_action cfg) l ∅ f = (g, Ok keys) /\
    Replace_queued_deletions cfg (range (items g)) keys 0 g = (h, Ok n1) /\
    match known with
    | Some kn => Replace_known_deletions cfg kn (klg_ListKeys kn) keys n1
    | None => sret n1
    end h = (f', Ok n2) /\
    n = Z.of_nat (size keys) + n2 /\ fifo_ok h.
Proof.
  intros Hok E. unfold Replace_queue, sbind in E.
  destruct (Replace_enqueue cfg (replace_action cfg) l ∅ f) as [g [keys|]] eqn:E1; [|done].
  pose proof (Replace_enqueue_puts cfg anything any_delta ltac:(done) (replace_action cfg) l ∅ f
    ltac:(done)) as Hp1. rewrite E1 in Hp1. cbn in Hp1.
  destruct (Replace_queued_deletions cfg (range (items g)) keys 0 g) as [h [n1|]] eqn:E2; [|done].
  pose proof (Replace_queued_deletions_puts cfg anything any_delta ltac:(done) ltac:(done)
    (range (items g)) keys 0 g ltac:(by rewrite list_to_set_range)) as Hp2.
  rewrite E2 in Hp2. cbn in Hp2.
  assert (Hokh : fifo_ok h) by (eapply puts_ok; [done|]; by eapply puts_ok).
  exists g, keys, h, n1. destruct known as [kn|]; unfold sret in *.
  - destruct (Replace_known_deletions cfg kn (klg_ListKeys kn) keys n1 h) as [i [n2|]] eqn:E3; [|done].
    simplify_eq. by exists n2.
  - simplify_eq. by exists n1.
Qed.

Lemma Replace_queue_Ok `{MapRange} cfg (known : option K) l f f' n :
  fifo_ok f -> Replace_queue cfg known l f = (f', Ok n) ->
  exists m, replaced_objects cfg l ∅ = Some m /\
    dom (items f') = dom (items f) ∪ dom m ∪ known_keys known /\
    n = Z.of_nat (size (dom (items f'))) /\
    (forall k o, m !! k = Some o -> newest_at f' k = Some (mkDelta (replace_action cfg) o)) /\
    (forall k old, m !! k = None -> items f !! k = Some old ->
       exists d, newest_at f' k = Some d /\ deletion_of cfg k (deletedObjOf old) (newest_at f k) d) /\
    (forall k kn, m !! k = None -> items f !! k = None -> known = Some kn -> k ∈ klg_ListKeys kn ->
       exists d, newest_at f' k = Some d /\ deletion_of cfg k (known_obj kn k) None d).
Proof.
  intros Hok E.
  destruct (Replace_queue_stages cfg known l f f' n Hok E)
    as (g & keys & h & n1 & n2 & E1 & E2 & E3 & -> & Hokh).
  apply (Replace_enqueue_Ok _ _ _ _ _ _ _ ∅) in E1 as (m & Hm & Hdm & Hdg & Hnew & Hsame & _);
    [|by unfold replace_action; destruct (emitDeltaTypeReplaced cfg)
     |apply dom_empty_L|set_solver|by intros ?? ?%lookup_empty_Some].
  apply Replace_queued_deletions_Ok in E2 as (Hn1 & Hdh & Hsame2 & Hdel2);
    [|apply NoDup_fst_range|intros k ?%elem_of_range_keys; by apply elem_of_dom].
  rewrite list_to_set_range in Hn1.
  apply Replace_known_stage_Ok in E3 as (Hn3 & Hdf & Hsame3 & Hdel3); [|done].
  assert (Hsz : (size keys + size (dom (items g) ∖ keys) = size (dom (items h)))%nat).
  { rewrite Hdh, size_difference by set_solver.
    pose proof (subseteq_size keys (dom (items g)) ltac:(set_solver)). lia. }
  assert (Hkk : forall k, m !! k = None -> k ∉ keys) by (intros k Hk; rewrite <- Hdm; by apply not_elem_of_dom).
  exists m. split_and!.
  - done.
  - rewrite Hdf, Hdh, Hdg, Hdm. apply set_eq. intros k. destruct (decide (k ∈ keys)); set_solver.
  - lia.
  - intros k o Hk. rewrite <- (Hnew k o Hk).
    assert (k ∈ keys) by (rewrite <- Hdm; by eapply elem_of_dom_2).
    apply newest_at_items. rewrite Hsame3 by auto. apply Hsame2. auto.
  - intros k old Hk Hold. assert (Hg : items g !! k = Some old) by (by rewrite Hsame by auto).
    destruct (Hdel2 k old) as (d & Hd & Hdd); [by apply elem_of_range|by apply Hkk|].
    exists d. split.
    + rewrite <- Hd. apply newest_at_items, Hsame3. left. rewrite Hdh. by eapply elem_of_dom_2.
    + rewrite <- (newest_at_items f g); [done|by apply Hsame, Hkk].
  - intros k kn Hk Hold Hkn Hin. apply (Hdel3 k kn); [done|done|by apply Hkk|].
    rewrite Hdh. apply not_elem_of_dom. by rewrite Hsame by (by apply Hkk).
Qed.

End replace.

(** *** One step, and sequences of steps *)

Section steps.
Context (cfg : DeltaFIFOConfig).

(** What every step guarantees: the invariant; the keys not popped keep their
    place and their pending deltas only grow; the initial population counts down
    with the pops. *)
Record step_facts (f : DeltaFIFO) (n : nat) (f' : DeltaFIFO) : Prop := {
  sf_ok : fifo_ok f';
  sf_prefix : drop n (queue f) `prefix_of` queue f';
  sf_grows : forall k ds, k ∈ drop n (queue f) -> items f !! k = Some ds ->
    exists ds', items f' !! k = Some ds' /\ grows ds ds';
  sf_count : populated f = true ->
    populated f' = true /\
    initialPopulationCount f' = Z.max 0 (initialPopulationCount f - Z.of_nat n);
  sf_bound : (n <= length (queue f))%nat
}.

Lemma step_facts_refl f : fifo_ok f -> step_facts f 0 f.
Proof.
  intros Hok. constructor; [done|done|eauto using grows_refl| |lia].
  destruct Hok. split; [done|lia].
Qed.

Lemma step_facts_puts f g f' :
  fifo_ok f -> (g = f \/ g = set_populated f) -> puts any_delta g f' -> step_facts f 0 f'.
Proof.
  intros Hok Hg Hp.
  assert (fifo_ok g) by (destruct Hg as [->| ->]; auto using fifo_ok_set_populated).
  assert (Hq : queue g = queue f /\ items g = items f /\
    initialPopulationCount g = initialPopulationCount f /\
    (populated f = true -> populated g = true)) by (destruct Hg as [->| ->]; done).
  destruct Hq as (Hq & Hi & Hc & Hpop).
  destruct (puts_fields _ _ _ Hp) as (Epop & _ & Ec).
  constructor.
  - by eapply puts_ok.
  - cbn. rewrite <- Hq. by eapply puts_prefix.
  - intros k ds _ Hk. rewrite <- Hi in Hk. by eapply puts_grows.
  - intros Hp'. rewrite Epop, Ec, Hc. split; [auto|]. destruct Hok. lia.
  - lia.
Qed.

Lemma step_facts_Replace `{MapRange} {K} `{KeyListerGetter (value O) K} (known : option K) l f :
  fifo_ok f -> step_facts f 0 (Replace cfg known l f).1.
Proof.
  intros Hok.
  pose proof (Replace_ok cfg known l f Hok) as Hok'.
  pose proof (Replace_queue_puts cfg anything any_delta ltac:(done) ltac:(done) known l f
    ltac:(done) ltac:(done)) as Hp.
  pose proof (step_facts_puts f f _ Hok ltac:(by left) Hp) as Hsf.
  unfold Replace, sbind in *.
  destruct (Replace_queue cfg known l f) as [g [n|e]] eqn:E; [|done]. cbn in *.
  destruct (populated g) eqn:Ep; [done|]. cbn in *.
  destruct Hsf as [Hokg Hpre Hgr Hcnt Hb]. constructor; cbn; [|done|done| |done].
  - apply Hok'. intros n' g' [= <- <-] _.
    destruct (Replace_queue_Ok cfg known l f g n Hok E) as (_ & _ & _ & -> & _).
    by rewrite queue_length_dom.
  - intros Hpf. destruct (Hcnt Hpf). congruence.
Qed.

Lemma step_facts_Pop {X} (process : Deltas -> bool -> X -> X * option (error (value O))) f x f' x' out :
  fifo_ok f -> Pop process f x = (f', x', out) ->
  step_facts f (match out with Popped _ _ => 1 | _ => 0 end) f'.
Proof.
  intros Hok E. destruct (queue f) as [|id q] eqn:Hq.
  - rewrite Pop_empty in E by done. simplify_eq.
    destruct (closed f'); by apply step_facts_refl.
  - pose proof (Pop_ok _ _ _ _ _ _ Hok E) as Hok'.
    destruct (Pop_head process f x id q Hok Hq) as (item & Hi & Hne & Hg & Epop).
    rewrite E in Epop. destruct (process item _ x) as [x1 err].
    pose proof Hok as [Hnd Hmem _ Hc Hu]. rewrite Hq in Hnd. apply NoDup_cons in Hnd as [Hid _].
    assert (Hcnt : (if 0 <? initialPopulationCount f then initialPopulationCount f - 1
       else initialPopulationCount f) = Z.max 0 (initialPopulationCount f - 1)).
    { split_match; bool_to_prop; lia. }
    destruct (requeue_error err) as [e|]; simplify_eq; constructor; try done; rewrite ?Hq; cbn.
    + unfold addIfNotPresent. cbn. rewrite lookup_delete_eq, drop_0. by eexists.
    + intros k ds Hk Hds. assert (k <> id) by (rewrite drop_0 in Hk; set_solver). exists ds.
      split; [|constructor]. unfold addIfNotPresent. cbn. rewrite lookup_delete_eq. cbn.
      by rewrite lookup_insert_ne, lookup_delete_ne.
    + intros _. unfold addIfNotPresent. cbn. rewrite lookup_delete_eq. done.
    + lia.
    + by rewrite drop_0.
    + intros k ds Hk Hds. exists ds. split; [|constructor].
      rewrite lookup_delete_ne; [done|]. rewrite drop_0 in Hk. set_solver.
    + lia.
Qed.

Lemma fifo_step_facts f n f' : fifo_ok f -> fifo_step cfg f n f' -> step_facts f n f'.
Proof.
  intros Hok Hs. inversion Hs; subst; clear Hs.
  - eapply step_facts_puts; [done|by right|]. by apply queueActionLocked_puts with (A:=anything).
  - eapply step_facts_puts; [done|by right|]. by apply queueActionLocked_puts with (A:=anything).
  - destruct (Delete_puts cfg anything any_delta ltac:(done) known obj f) as [->|Hp]; [done| |].
    + by apply step_facts_refl.
    + eapply step_facts_puts; [done|by right|done].
  - by apply step_facts_Replace.
  - eapply step_facts_puts; [done|by left|]. by apply Resync_puts with (A:=anything).
  - pose proof (AddIfNotPresent_ok cfg obj f Hok) as Hok'.
    unfold AddIfNotPresent in *. destruct obj as [[| | |ds]|]; try by apply step_facts_refl.
    destruct (KeyOf cfg (Some (VDeltas ds))) as [id|] eqn:E; [|by apply step_facts_refl].
    cbn in *. unfold addIfNotPresent in *. cbn in *.
    destruct (items f !! id) as [ds'|] eqn:Ei;
      [by eapply (step_facts_puts f (set_populated f)); [done|by right|apply puts_refl]|].
    constructor; cbn; [done|by eexists| |intros _; split; [done|]|lia].
    + intros k ds0 _ Hk. exists ds0. split; [|constructor].
      rewrite lookup_insert_ne; [done|congruence].
    + destruct Hok. lia.
  - destruct Hok. constructor; [by constructor|done|eauto using grows_refl| |lia].
    cbn. split; [done|lia].
  - by eapply step_facts_Pop.
Qed.

Lemma fifo_steps_facts f n f' : fifo_ok f -> fifo_steps cfg f n f' -> step_facts f n f' \/
  ((length (queue f) < n)%nat /\ fifo_ok f' /\
   (populated f = true -> populated f' = true /\
    initialPopulationCount f' = Z.max 0 (initialPopulationCount f - Z.of_nat n))).
Proof.
  intros Hok Hs. induction Hs as [f|f n g m h Hs _ IH].
  - left. by apply step_facts_refl.
  - pose proof (fifo_step_facts _ _ _ Hok Hs) as [Hokg Hpre Hgr Hcnt Hb].
    assert (Hcnt' : forall i, (populated g = true -> populated h = true /\ i =
      Z.max 0 (initialPopulationCount g - Z.of_nat m)) ->
      populated f = true -> populated h = true /\
      i = Z.max 0 (initialPopulationCount f - Z.of_nat (n + m))).
    { intros i Hi Hp. destruct (Hcnt Hp) as [Hpg Hcg]. destruct (Hi Hpg) as [Hph ->].
      split; [done|]. lia. }
    destruct (decide (n + m <= length (queue f))%nat) as [Hle|Hgt].
    + left. destruct (IH Hokg) as [[Hokh Hpre' Hgr' Hcnt2 Hb']|(Hlt & Hokh & Hcnt2)].
      * constructor; [done| | |by apply Hcnt'|done].
        { rewrite <- drop_drop. etrans; [by apply prefix_drop|done]. }
        { intros k ds Hk Hds. rewrite <- drop_drop in Hk.
          destruct (Hgr k ds) as (ds1 & Hds1 & Hg1); [|done|].
          { eapply elem_of_submseteq; [exact Hk|]. apply sublist_submseteq, sublist_drop. }
          destruct (Hgr' k ds1) as (ds2 & Hds2 & Hg2); [|done|eauto using grows_trans].
          eapply elem_of_prefix; [exact Hk|]. by apply prefix_drop. }
      * apply prefix_length in Hpre. rewrite length_drop in Hpre. lia.
    + right. destruct (IH Hokg) as [[Hokh _ _ Hcnt2 _]|(_ & Hokh & Hcnt2)];
        (split_and!; [lia|done|by apply Hcnt']).
Qed.

Lemma fifo_steps_ok n f : fifo_steps cfg NewDeltaFIFO n f -> fifo_ok f.
Proof.
  intros Hs. by destruct (fifo_steps_facts _ _ _ fifo_ok_NewDeltaFIFO Hs) as [[]|(_ & ? & _)].
Qed.

Lemma known_deletions_of_synced `{MapRange} {K} `{KeyListerGetter (value O) K}
    (known : option K) l f f' :
  fifo_ok f -> populated f = false -> Replace cfg known l f = (f', Ok tt) ->
  populated f' = true /\ initialPopulationCount f' = Z.of_nat (length (queue f')).
Proof.
  intros Hok Hp E.
  pose proof (Replace_queue_puts cfg anything any_delta ltac:(done) ltac:(done) known l f
    ltac:(done) ltac:(done)) as Hputs.
  unfold Replace, sbind in E.
  destruct (Replace_queue cfg known l f) as [g [n|e]] eqn:Eq; [|done]. cbn in Hputs.
  destruct (puts_fields _ _ _ Hputs) as (Epg & _ & _). rewrite Epg, Hp in E. simplify_eq. cbn.
  split; [done|].
  destruct (Replace_queue_Ok cfg known l f g n Hok Eq) as (_ & _ & _ & -> & _).
  rewrite queue_length_dom; [done|by eapply puts_ok].
Qed.

Lemma Replace_newest_at `{MapRange} {K} `{KeyListerGetter (value O) K} (known : option K) l f f' :
  Replace cfg known l f = (f', Ok tt) ->
  exists g n, Replace_queue cfg known l f = (g, Ok n) /\ items f' = items g /\ queue f' = queue g.
Proof.
  unfold Replace, sbind. destruct (Replace_queue cfg known l f) as [g [n|e]]; [|done].
  intros E. exists g, n. split; [done|]. by destruct (populated g); simplify_eq.
Qed.

End steps.

(** ** Properties *)

(** C11: the queue's invariant.  Whatever operations have run, in whatever order
    and with whatever process functions, the queue lists every key with pending
    deltas exactly once, no key has an empty list of deltas, and the initial
    population count never exceeds the queue.  So [Pop] never takes the branch the
    code calls inconceivable: on a non-empty queue it hands the head's deltas to
    the process function, removes that key (or puts the same deltas back at the
    tail when the function asks to requeue), and on an empty queue it waits, or
    reports the closing. *)
Theorem reachable_delta_fifo_ok (cfg : DeltaFIFOConfig) n f
    {X} (process : Deltas -> bool -> X -> X * option (error (value O))) (x : X) :
  fifo_steps cfg NewDeltaFIFO n f ->
  fifo_ok f /\
  match queue f with
  | [] => Pop process f x = (f, x, if closed f then PopClosed else Blocked)
  | id :: q =>
      exists item, items f !! id = Some item /\ item <> [] /\
        let '(x', err) := process item (negb (HasSynced f)) x in
        match requeue_error err with
        | None => exists f', Pop process f x = (f', x', Popped item err) /\
            queue f' = q /\ items f' = delete id (items f)
        | Some e => exists f', Pop process f x = (f', x', Popped item e) /\
            queue f' = q ++ [id] /\ items f' = items f
        end
  end.
Proof.
  intros Hs. pose proof (fifo_steps_ok _ _ _ Hs) as Hok. split; [done|].
  destruct (queue f) as [|id q] eqn:Hq; [by apply Pop_empty|].
  destruct (Pop_head process f x id q Hok Hq) as (item & Hi & Hne & _ & E).
  exists item. split; [done|split; [done|]]. destruct (process item _ x) as [x' err].
  destruct (requeue_error err) as [e|]; [|eauto].
  eexists. split; [exact E|]. unfold addIfNotPresent. cbn. rewrite lookup_delete_eq. cbn.
  split; [done|]. by rewrite insert_delete_eq, insert_id.
Qed.

(** First in, first out, and nothing is lost.  After [n] items have been
    popped from a reachable queue, by any sequence of operations, the keys that
    were queued are still at the front of the queue in their old order, less the
    first [n]; and the deltas that were pending for each of them are still there,
    extended at the end only (a trailing [Deleted] may have been merged with a
    second [Deleted]). *)
Theorem delta_fifo_order_no_loss (cfg : DeltaFIFOConfig) n0 f n f' :
  fifo_steps cfg NewDeltaFIFO n0 f -> fifo_steps cfg f n f' ->
  drop n (queue f) `prefix_of` queue f' /\
  (forall k ds, k ∈ drop n (queue f) -> items f !! k = Some ds ->
     exists ds', items f' !! k = Some ds' /\ grows ds ds').
Proof.
  intros Hs Hs'. pose proof (fifo_steps_ok _ _ _ Hs) as Hok.
  destruct (fifo_steps_facts _ _ _ _ Hok Hs') as [[]|(Hlt & _)]; [done|].
  rewrite drop_ge by lia. split; [apply prefix_nil|]. by intros ?? ?%not_elem_of_nil.
Qed.

(** When [HasSynced] turns true.  After the first population of a queue by a
    successful [Replace], [HasSynced] answers true exactly when as many items have
    been popped as that [Replace] left queued, whatever is added, updated, deleted,
    replaced or resynced in between. *)
Theorem HasSynced_after_initial_pops `{MapRange} {K} `{KeyListerGetter (value O) K}
    (cfg : DeltaFIFOConfig) n0 f (known : option K) l f1 n f2 :
  fifo_steps cfg NewDeltaFIFO n0 f -> populated f = false ->
  Replace cfg known l f = (f1, Ok tt) -> fifo_steps cfg f1 n f2 ->
  HasSynced f2 = (length (queue f1) <=? n)%nat.
Proof.
  intros Hs Hp E Hs2. pose proof (fifo_steps_ok _ _ _ Hs) as Hok.
  destruct (known_deletions_of_synced cfg known l f f1 Hok Hp E) as [Hp1 Hc1].
  pose proof (sf_ok _ _ _ (step_facts_Replace cfg known l f Hok)) as Hok1. rewrite E in Hok1.
  assert (Hc : populated f2 = true /\
    initialPopulationCount f2 = Z.max 0 (initialPopulationCount f1 - Z.of_nat n)).
  { destruct (fifo_steps_facts _ _ _ _ Hok1 Hs2) as [[]|(_ & _ & Hc)]; auto. }
  destruct Hc as [Hp2 Hc]. unfold HasSynced, hasSynced_locked. rewrite Hp2, Hc, Hc1. cbn.
  apply eq_true_iff_eq. rewrite Z.eqb_eq, Nat.leb_le. lia.
Qed.

(** What [Replace] enqueues.  After a successful [Replace] of a reachable
    queue: every listed key's newest delta is the replacement (or sync) of the
    last object listed for it, as transformed; every other key that was queued,
    or known to the store, has a deletion as its newest delta, with the last
    known object; and the queued keys are just those and the ones queued
    before. *)
Theorem Replace_reconciles `{MapRange} {K} `{KeyListerGetter (value O) K}
    (cfg : DeltaFIFOConfig) n0 f (known : option K) l f' :
  fifo_steps cfg NewDeltaFIFO n0 f -> Replace cfg known l f = (f', Ok tt) ->
  exists m, replaced_objects cfg l ∅ = Some m /\
    (forall k, k ∈ queue f' <-> k ∈ queue f \/ k ∈ dom m \/ k ∈ known_keys known) /\
    (forall k o, m !! k = Some o -> newest_at f' k = Some (mkDelta (replace_action cfg) o)) /\
    (forall k old, m !! k = None -> items f !! k = Some old ->
       exists d, newest_at f' k = Some d /\ deletion_of cfg k (deletedObjOf old) (newest_at f k) d) /\
    (forall k kn, m !! k = None -> k ∉ queue f -> known = Some kn -> k ∈ klg_ListKeys kn ->
       exists d, newest_at f' k = Some d /\ deletion_of cfg k (known_obj kn k) None d).
Proof.
  intros Hs E. pose proof (fifo_steps_ok _ _ _ Hs) as Hok.
  pose proof (sf_ok _ _ _ (step_facts_Replace cfg known l f Hok)) as Hok'.
  rewrite E in Hok'. cbn in Hok'.
  destruct (Replace_newest_at cfg known l f f' E) as (g & n & Eg & Hi & Hq).
  destruct (Replace_queue_Ok cfg known l f g n Hok Eg) as (m & Hm & Hd & _ & Hnew & Hdel & Hkn).
  assert (Hng : forall k, newest_at f' k = newest_at g k) by (intros; unfold newest_at; by rewrite Hi).
  exists m. split_and!; [done| | | |]; try setoid_rewrite Hng; [|done|done|].
  - intros k. rewrite (ok_mem _ Hok'), Hi, <- elem_of_dom, Hd, (ok_mem _ Hok), <- elem_of_dom.
    set_solver.
  - intros k kn Hk Hnq. apply Hkn; [done|]. rewrite (ok_mem _ Hok) in Hnq.
    by apply eq_None_not_Some.
Qed.

End delta_fifo.
Arguments DeltaFIFO O : clear implicits.
Arguments DeltaFIFOConfig O : clear implicits.
Arguments PopOutcome O : clear implicits.

(** ** Witnesses *)

Definition wit_cfg : DeltaFIFOConfig pod :=
  mkDeltaFIFOConfig (@MetaNamespaceKeyFunc pod pod_accessor) true None.

(** A known-objects store that is a plain map. *)
Definition wit_known : KeyListerGetter (value pod) (gmap string (iface (value pod))) := {|
  klg_ListKeys m := (map_to_list m).*1;
  klg_GetByKey k m := match m !! k with
                      | Some o => (o, true, None)
                      | None => (None, false, None)
                      end
|}.

(** A queue that never was populated, and one with two adds of one pod. *)
Definition wit_q0 : DeltaFIFO pod := NewDeltaFIFO.
Definition wit_q1 : DeltaFIFO pod := (Add wit_cfg (pod_obj "a" 1) wit_q0).1.
Definition wit_q2 : DeltaFIFO pod := (Update wit_cfg (pod_obj "b" 2) wit_q1).1.

Definition wit_process (item : list (Delta pod)) (_ : bool) (n : nat)
    : nat * option (error (value pod)) := (S n, None).

Lemma wit_q2_steps : fifo_steps wit_cfg NewDeltaFIFO 0 wit_q2.
Proof.
  apply (steps_step wit_cfg _ 0 wit_q1 0); [apply step_Add|].
  apply (steps_step wit_cfg _ 0 wit_q2 0); [apply step_Update|constructor].
Qed.

Lemma wit_q2_pop :
  fifo_steps wit_cfg wit_q2 1 (Pop wit_process wit_q2 0%nat).1.1.
Proof.
  apply (steps_step wit_cfg _ 1 (Pop wit_process wit_q2 0%nat).1.1 0); [|constructor].
  apply (step_Pop wit_cfg nat wit_process wit_q2 0%nat _ 1%nat
    (Popped [mkDelta Added (pod_obj "a" 1)] None)). vm_compute. reflexivity.
Qed.

Lemma reachable_delta_fifo_ok_witness :
  fifo_ok wit_q2 /\ queue wit_q2 = ["default/a"; "default/b"].
Proof.
  split; [exact (proj1 (reachable_delta_fifo_ok wit_cfg 0 wit_q2 wit_process 0%nat wit_q2_steps))|].
  vm_compute. reflexivity.
Defined.

Lemma delta_fifo_order_no_loss_witness :
  ["default/b"] `prefix_of` queue (Pop wit_process wit_q2 0%nat).1.1.
Proof.
  exact (proj1 (delta_fifo_order_no_loss wit_cfg 0 wit_q2 1 _ wit_q2_steps wit_q2_pop)).
Defined.

(** The list of a first [Replace], and the queue it leaves. *)
Definition wit_list : list (iface (value pod)) := [pod_obj "a" 1; pod_obj "b" 2; pod_obj "a" 3].
Definition wit_store : gmap string (iface (value pod)) := {["default/c" := pod_obj "c" 7]}.
Definition wit_r1 : DeltaFIFO pod :=
  (@Replace pod wit_cfg _ wit_known range_in_key_order (Some wit_store) wit_list wit_q0).1.

Lemma HasSynced_after_initial_pops_witness :
  HasSynced (Pop wit_process wit_r1 0%nat).1.1 = false.
Proof.
  refine (@HasSynced_after_initial_pops pod range_in_key_order _ wit_known wit_cfg 0 wit_q0
    (Some wit_store) wit_list wit_r1 1 _ _ _ _ _).
  - constructor.
  - reflexivity.
  - vm_compute. reflexivity.
  - apply (steps_step wit_cfg _ 1 (Pop wit_process wit_r1 0%nat).1.1 0); [|constructor].
    eapply (step_Pop wit_cfg nat wit_process wit_r1 0%nat _ 1%nat (Popped _ None)).
    vm_compute. reflexivity.
Defined.

Lemma Replace_reconciles_witness :
  exists m, replaced_objects wit_cfg wit_list ∅ = Some m /\
    m !! "default/a" = Some (pod_obj "a" 3) /\
    exists d, newest_at wit_r1 "default/c" = Some d /\
      deletion_of wit_cfg "default/c" (pod_obj "c" 7) None d.
Proof.
  destruct (@Replace_reconciles pod range_in_key_order _ wit_known wit_cfg 0 wit_q0
    (Some wit_store) wit_list wit_r1 (steps_refl _ _) ltac:(vm_compute; reflexivity))
    as (m & Hm & _ & _ & _ & Hkn).
  exists m. split; [done|]. assert (E : replaced_objects wit_cfg wit_list ∅ =
    Some {["default/a" := pod_obj "a" 3; "default/b" := pod_obj "b" 2]})
    by (vm_compute; reflexivity).
  rewrite Hm in E. injection E as ->. split; [vm_compute; reflexivity|].
  apply (Hkn "default/c" wit_store); [vm_compute; reflexivity|vm_compute; set_solver|done|].
  vm_compute. set_solver.
Defined.
