(* ===== verification/Controller.v ===== *)
(** * Informers: tools/cache/controller.go.

    [processDeltas] multiplexes the deltas of one key into a store and notifies a
    handler; [newInformer] makes it the process function of a [DeltaFIFO] whose
    known objects are that same store.  The queue, the store and the handler's own
    state are one state here: the store [Pop] updates is the store [Replace],
    [Delete] and [Resync] read.

    The specification at the end of the definitions is a single map: what the
    reflector has reported.  [informer_step] is the informer as the code composes
    it, [ideal] the map, and the theorems relate the two. *)

From S2P Require Import Prelude Objects ThreadSafeStore Store DeltaFIFO.

(** ** Handlers *)

(** [ResourceEventHandler]: the methods act on the handler's own state [X]. *)
Record ResourceEventHandler (V X : Type) : Type := {
  OnAdd : iface V -> bool -> X -> X;
  OnUpdate : iface V -> iface V -> X -> X;
  OnDelete : iface V -> X -> X
}.
Arguments OnAdd {V X} _ _ _ _.
Arguments OnUpdate {V X} _ _ _ _.
Arguments OnDelete {V X} _ _ _.

Section handlers.
Context {V X : Type}.

(** A function field that may be nil, called if it is not. *)
Definition if_not_nil {A : Type} (g : option (A -> X -> X)) (a : A) (x : X) : X :=
  match g with Some g => g a x | None => x end.

Definition ResourceEventHandlerFuncs (AddFunc : option (iface V -> X -> X))
    (UpdateFunc : option (iface V * iface V -> X -> X))
    (DeleteFunc : option (iface V -> X -> X)) : ResourceEventHandler V X := {|
  OnAdd obj _ := if_not_nil AddFunc obj;
  OnUpdate oldObj newObj := if_not_nil UpdateFunc (oldObj, newObj);
  OnDelete obj := if_not_nil DeleteFunc obj
|}.

Definition ResourceEventHandlerDetailedFuncs (AddFunc : option (iface V * bool -> X -> X))
    (UpdateFunc : option (iface V * iface V -> X -> X))
    (DeleteFunc : option (iface V -> X -> X)) : ResourceEventHandler V X := {|
  OnAdd obj isInInitialList := if_not_nil AddFunc (obj, isInInitialList);
  OnUpdate oldObj newObj := if_not_nil UpdateFunc (oldObj, newObj);
  OnDelete obj := if_not_nil DeleteFunc obj
|}.

Definition FilteringResourceEventHandler (FilterFunc : iface V -> bool)
    (Handler : ResourceEventHandler V X) : ResourceEventHandler V X := {|
  OnAdd obj isInInitialList x :=
    if negb (FilterFunc obj) then x else OnAdd Handler obj isInInitialList x;
  OnUpdate oldObj newObj x :=
    let newer := FilterFunc newObj in
    let older := FilterFunc oldObj in
    if newer && older then OnUpdate Handler oldObj newObj x
    else if newer && negb older then OnAdd Handler newObj false x
    else if negb newer && older then OnDelete Handler oldObj x
    else x;
  OnDelete obj x := if negb (FilterFunc obj) then x else OnDelete Handler obj x
|}.

End handlers.

(** ** processDeltas and the informer's loop *)

(** The store is the [KnownObjects] of the queue. *)
#[export] Instance Store_KeyListerGetter {V S} `{StoreI V S} : KeyListerGetter V S := {|
  klg_ListKeys := st_ListKeys;
  klg_GetByKey := st_GetByKey
|}.

Section informer.
Context {O S X : Type} `{StoreI (value O) S}.

(** The store, the handler's state and the error returned; [None] when the store
    panics. *)
Fixpoint processDeltas (handler : ResourceEventHandler (value O) X) (clientState : S)
    (deltas : list (Delta O)) (isInInitialList : bool) (x : X)
    : option (S * X * option (error (value O))) :=
  match deltas with
  | [] => Some (clientState, x, None)
  | d :: deltas' =>
      let obj := dObject d in
      match dType d with
      | Sync | Replaced | Added | Updated =>
          match st_Get obj clientState with
          | (old, true, None) =>
              match st_Update obj clientState with
              | None => None
              | Some (clientState, Err err) => Some (clientState, x, Some err)
              | Some (clientState, Ok _) =>
                  processDeltas handler clientState deltas' isInInitialList
                    (OnUpdate handler old obj x)
              end
          | _ =>
              match st_Add obj clientState with
              | None => None
              | Some (clientState, Err err) => Some (clientState, x, Some err)
              | Some (clientState, Ok _) =>
                  processDeltas handler clientState deltas' isInInitialList
                    (OnAdd handler obj isInInitialList x)
              end
          end
      | Deleted =>
          match st_Delete obj clientState with
          | None => None
          | Some (clientState, Err err) => Some (clientState, x, Some err)
          | Some (clientState, Ok _) =>
              processDeltas handler clientState deltas' isInInitialList (OnDelete handler obj x)
          end
      end
  end.

(** The [Process] of [newInformer]: it works on the store and the handler the
    informer owns.  [None] is a process that has panicked. *)
Definition newInformer_Process (h : ResourceEventHandler (value O) X)
    (deltas : list (Delta O)) (isInInitialList : bool) (w : option (S * X))
    : option (S * X) * option (error (value O)) :=
  match w with
  | None => (None, None)
  | Some (clientState, x) =>
      match processDeltas h clientState deltas isInInitialList x with
      | None => (None, None)
      | Some (clientState, x, err) => (Some (clientState, x), err)
      end
  end.

Inductive loop_outcome : Type := LoopBlocked | LoopReturns | LoopContinues.

(** One iteration of [processLoop]. *)
Definition processLoop_iteration {W} (cfg : DeltaFIFOConfig O) (RetryOnError : bool)
    (Process : list (Delta O) -> bool -> W -> W * option (error (value O)))
    (f : DeltaFIFO O) (w : W) : DeltaFIFO O * W * loop_outcome :=
  match Pop Process f w with
  | (f, w, Blocked) => (f, w, LoopBlocked)
  | (f, w, PopClosed) => (f, w, LoopReturns)
  | (f, w, Popped _ (Some ErrFIFOClosed)) => (f, w, LoopReturns)
  | (f, w, Popped obj (Some _)) =>
      if RetryOnError
      then ((AddIfNotPresent cfg (Some (VDeltas obj)) f).1, w, LoopContinues)
      else (f, w, LoopContinues)
  | (f, w, Popped _ None) => (f, w, LoopContinues)
  end.

(** The state of an informer made by [newInformer]. *)
Record informer : Type := mkInformer {
  fifo : DeltaFIFO O;
  world : option (S * X)
}.

(** The options [newInformer] gives the queue: no [KeyFunction], so
    [MetaNamespaceKeyFunc]; [EmitDeltaTypeReplaced]; the transformer. *)
Definition newInformer_fifo `{MetaAccessor O}
    (transformer : option (iface (value O) -> result (value O) (iface (value O))))
    : DeltaFIFOConfig O * DeltaFIFO O :=
  NewDeltaFIFOWithOptions None true transformer.

Definition newInformer (clientState : S) (x : X) : informer :=
  mkInformer NewDeltaFIFO (Some (clientState, x)).

(** One iteration of the informer's process loop, and [n] of them. *)
Definition processLoop_turn (cfg : DeltaFIFOConfig O) (h : ResourceEventHandler (value O) X)
    (s : informer) : informer :=
  let '(f', w', _) := processLoop_iteration cfg false (newInformer_Process h) (fifo s) (world s) in
  mkInformer f' w'.

Fixpoint drain (cfg : DeltaFIFOConfig O) (h : ResourceEventHandler (value O) X)
    (n : nat) (s : informer) : informer :=
  match n with
  | 0%nat => s
  | Datatypes.S n' => processLoop_turn cfg h (drain cfg h n' s)
  end.

(** What happens to an informer: the reflector's calls of the queue's methods, and
    an iteration of the process loop. *)
Inductive event : Type :=
| EvAdd (obj : iface (value O))
| EvUpdate (obj : iface (value O))
| EvDelete (obj : iface (value O))
| EvReplace (l : list (iface (value O)))
| EvResync
| EvPop.

(** One event.  A failing [Replace] is not a step of this relation: the reflector
    drops the watch and lists again. *)
Inductive informer_step (cfg : DeltaFIFOConfig O) (h : ResourceEventHandler (value O) X)
    : event -> informer -> informer -> Prop :=
| inf_Add obj f w : informer_step cfg h (EvAdd obj) (mkInformer f w) (mkInformer (Add cfg obj f).1 w)
| inf_Update obj f w :
    informer_step cfg h (EvUpdate obj) (mkInformer f w) (mkInformer (Update cfg obj f).1 w)
| inf_Delete obj f st x :
    informer_step cfg h (EvDelete obj) (mkInformer f (Some (st, x)))
      (mkInformer (Delete cfg (Some st) obj f).1 (Some (st, x)))
| inf_Replace (R : MapRange) l f st x f' :
    Replace cfg (Some st) l f = (f', Ok tt) ->
    informer_step cfg h (EvReplace l) (mkInformer f (Some (st, x))) (mkInformer f' (Some (st, x)))
| inf_Resync f st x :
    informer_step cfg h EvResync (mkInformer f (Some (st, x)))
      (mkInformer (Resync cfg (Some st) f).1 (Some (st, x)))
| inf_Pop s : informer_step cfg h EvPop s (processLoop_turn cfg h s).

Inductive informer_steps (cfg : DeltaFIFOConfig O) (h : ResourceEventHandler (value O) X)
    : list event -> informer -> informer -> Prop :=
| inf_nil s : informer_steps cfg h [] s s
| inf_snoc es e s1 s2 s3 :
    informer_steps cfg h es s1 s2 -> informer_step cfg h e s2 s3 ->
    informer_steps cfg h (es ++ [e]) s1 s3.

(** ** Specification *)

(** The map of what the reflector has reported. *)
Definition ideal (cfg : DeltaFIFOConfig O) (M : gmap string (iface (value O))) (e : event)
    : gmap string (iface (value O)) :=
  match e with
  | EvAdd obj | EvUpdate obj =>
      match KeyOf cfg obj, transform cfg obj with
      | Ok k, Ok o => <[k := o]> M
      | _, _ => M
      end
  | EvDelete obj =>
      match KeyOf cfg obj, transform cfg obj with
      | Ok k, Ok _ => delete k M
      | _, _ => M
      end
  | EvReplace l => default M (replaced_objects cfg l ∅)
  | EvResync | EvPop => M
  end.

(** A notification a handler gets, and its delivery. *)
Inductive notification : Type :=
| NAdd (obj : iface (value O)) (isInInitialList : bool)
| NUpdate (oldObj newObj : iface (value O))
| NDelete (oldObj : iface (value O)).

Definition deliver {Y} (h : ResourceEventHandler (value O) Y) (x : Y) (n : notification) : Y :=
  match n with
  | NAdd obj i => OnAdd h obj i x
  | NUpdate old new => OnUpdate h old new x
  | NDelete old => OnDelete h old x
  end.

(** The notification is exact for a client that has seen the objects [M]: an add
    is of an object it does not have, an update carries the very object it was
    told before, a delete is of an object it has. *)
Inductive notifies (key : KeyFunc (value O))
    : gmap string (iface (value O)) -> notification -> gmap string (iface (value O)) -> Prop :=
| notifies_add M k obj i :
    key obj = Ok k -> M !! k = None -> notifies key M (NAdd obj i) (<[k := obj]> M)
| notifies_update M k old new :
    key new = Ok k -> M !! k = Some old -> notifies key M (NUpdate old new) (<[k := new]> M)
| notifies_delete M k old :
    key old = Ok k -> is_Some (M !! k) -> notifies key M (NDelete old) (delete k M).

Inductive replays (key : KeyFunc (value O))
    : gmap string (iface (value O)) -> list notification -> gmap string (iface (value O)) -> Prop :=
| replays_nil M : replays key M [] M
| replays_cons M1 M2 M3 n log :
    notifies key M1 n M2 -> replays key M2 log M3 -> replays key M1 (n :: log) M3.

(** A key's pending deltas make sense for a store that has ([b]) or does not have
    the key: a deletion is of a key that is there. *)
Fixpoint alternates (b : bool) (ds : list (Delta O)) : bool :=
  match ds with
  | [] => true
  | d :: ds' =>
      if decide (dType d = Deleted) then b && alternates false ds' else alternates true ds'
  end.

(** Is the key there after the deltas? *)
Definition alive (b : bool) (ds : list (Delta O)) : bool :=
  match last ds with
  | None => b
  | Some d => negb (bool_decide (dType d = Deleted))
  end.

(** What a key maps to once its pending deltas [ds] are processed. *)
Definition settle (old : option (iface (value O))) (ds : list (Delta O))
    : option (iface (value O)) :=
  match last ds with
  | None => old
  | Some d => if decide (dType d = Deleted) then None else Some (dObject d)
  end.

(** The reflector adds and updates API objects; what it deletes may be a tombstone;
    it never passes a [Deltas]. *)
Definition no_deltas (obj : iface (value O)) : Prop := forall ds, obj <> Some (VDeltas ds).

Definition api_object (obj : iface (value O)) : Prop := exists o, obj = Some (VObject o).

(** What a transformer must do for the informer to work: keep an object's key,
    leave an API object the store's index functions accept, and be idempotent, because [Resync] transforms the
    objects of the store again. *)
Definition transformer_ok (cfg : DeltaFIFOConfig O) (key : KeyFunc (value O))
    (accepts : iface (value O) -> Prop) : Prop :=
  forall obj k o,
    no_deltas obj -> KeyOf cfg obj = Ok k -> transform cfg obj = Ok o ->
    key o = Ok k /\ transform cfg o = Ok o /\ (api_object obj -> accepts o).

Definition event_ok (e : event) : Prop :=
  match e with
  | EvAdd obj | EvUpdate obj => api_object obj
  | EvDelete obj => no_deltas obj
  | EvReplace l => Forall api_object l
  | EvResync | EvPop => True
  end.

(** The objects of [M] that pass a filter. *)
Definition filter_by (p : iface (value O) -> bool) (M : gmap string (iface (value O)))
    : gmap string (iface (value O)) :=
  filter (fun kv => p kv.2 = true) M.

(** Whenever [log], replayed from [M], reports a deletion, the object reported
    passes the filter just when the object known for its key did. *)
Fixpoint deletes_agree (key : KeyFunc (value O)) (p : iface (value O) -> bool)
    (M : gmap string (iface (value O))) (log : list notification) : Prop :=
  match log with
  | [] => True
  | n :: log' =>
      match n with
      | NDelete obj => forall k old, key obj = Ok k -> M !! k = Some old -> p obj = p old
      | _ => True
      end /\
      forall M', notifies key M n M' -> deletes_agree key p M' log'
  end.

End informer.

(** ** Lemmas *)

Lemma api_object_no_deltas {O} (obj : iface (value O)) : api_object obj -> no_deltas obj.
Proof. by intros [o ->]. Qed.

Section alternation.
Context {O : Type}.
Implicit Types (ds : list (Delta O)) (d : Delta O).

Lemma alternates_snoc b ds d :
  alternates b (ds ++ [d]) = true <->
  alternates b ds = true /\ (dType d = Deleted -> alive b ds = true).
Proof.
  revert b. induction ds as [|d0 ds IH]; intros b; cbn [app alternates].
  - unfold alive. cbn. case_decide; [|naive_solver]. rewrite andb_true_r. naive_solver.
  - assert (Hal : forall b', alive b' (d0 :: ds) =
      alive (negb (bool_decide (dType d0 = Deleted))) ds).
    { intros b'. unfold alive. rewrite last_cons. by destruct (last ds). }
    rewrite Hal. destruct (decide (dType d0 = Deleted)) as [Hd|Hd].
    + rewrite bool_decide_true by done. cbn [negb]. rewrite !andb_true_iff, IH. naive_solver.
    + rewrite bool_decide_false by done. apply IH.
Qed.

(** Merging keeps the alternation, because it never leaves two deletions next to
    each other. *)
Lemma alternates_dedup b (old : list (Delta O)) d :
  alternates b old = true -> (dType d = Deleted -> b = true \/ old <> []) ->
  alternates b (dedupDeltas (old ++ [d])) = true.
Proof.
  intros Ho Hd. destruct (dedupDeltas_cases old d) as [[-> Hl]|(l & e & -> & He & Hdd & ->)].
  - apply alternates_snoc. split; [done|]. intros Hdd. specialize (Hl Hdd). unfold alive.
    destruct (last old) as [e|] eqn:El; [by rewrite bool_decide_false by auto|].
    apply last_None in El. naive_solver.
  - apply alternates_snoc in Ho as [Hl Ha]. apply alternates_snoc. auto.
Qed.

Lemma settle_newest (f : DeltaFIFO O) k old :
  settle old (default [] (DeltaFIFO.items f !! k)) =
  match newest_at f k with
  | Some d => if decide (dType d = Deleted) then None else Some (dObject d)
  | None => old
  end.
Proof. unfold newest_at, Newest. by destruct (DeltaFIFO.items f !! k) as [ds|]. Qed.

Lemma settle_cons old d ds :
  settle old (d :: ds) = settle (if decide (dType d = Deleted) then None else Some (dObject d)) ds.
Proof. unfold settle. rewrite last_cons. by destruct (last ds). Qed.

Lemma settle_put (f : DeltaFIFO O) id d k old :
  settle old (default [] (DeltaFIFO.items (put id d f) !! k)) =
  if decide (id = k) then (if decide (dType d = Deleted) then None else Some (dObject d))
  else settle old (default [] (DeltaFIFO.items f !! k)).
Proof.
  rewrite !settle_newest. destruct (newest_at_put id d f k) as (d' & Ht & Hd & ->).
  case_decide; [|done]. rewrite Ht. case_decide; [done|]. destruct Hd as [->|[? _]]; done.
Qed.

Lemma replays_trans key (M1 M2 M3 : gmap string (iface (value O))) l1 l2 :
  replays key M1 l1 M2 -> replays key M2 l2 M3 -> replays key M1 (l1 ++ l2) M3.
Proof. induction 1; [done|]. intros. cbn. econstructor; eauto. Qed.

End alternation.

(** *** processDeltas on one key's deltas *)

Section process.
Context {O S : Type} `{StoreLaws (value O) S}.

Lemma st_ext_trans (s1 s2 s3 : S) : st_ext s1 s2 -> st_ext s2 s3 -> st_ext s1 s3.
Proof. intros (? & E & ?) (? & E' & ?). split; [done|]. rewrite E'. auto. Qed.

(** Processing the deltas of [k] from [st] goes well: no error and no panic, the key
    is settled, the others are left alone, and the notifications are exact. *)
Definition processes_well (st0 st : S) (k : string) (ds : list (Delta O)) (i : bool) : Prop :=
  exists st' log,
    (forall X (h : ResourceEventHandler (value O) X) x,
       processDeltas h st ds i x = Some (st', fold_left (deliver h) log x, None)) /\
    st_ext st0 st' /\
    st_items st' !! k = settle (st_items st !! k) ds /\
    (forall k', k' <> k -> st_items st' !! k' = st_items st !! k') /\
    replays (st_key st0) (st_items st) log (st_items st').

(** One delta processed, then the rest. *)
Lemma processes_well_cons (st0 st st1 : S) k d ds i n :
  processes_well st0 st1 k ds i ->
  st_items st1 = (if decide (dType d = Deleted) then delete k (st_items st)
                  else <[k := dObject d]> (st_items st)) ->
  notifies (st_key st0) (st_items st) n (st_items st1) ->
  (forall X (h : ResourceEventHandler (value O) X) x,
     processDeltas h st (d :: ds) i x = processDeltas h st1 ds i (deliver h x n)) ->
  processes_well st0 st k (d :: ds) i.
Proof.
  intros (st' & log & Hrun & He & Hs & Ho & Hr) Hi Hn Hp.
  exists st', (n :: log). split_and!; [|done| | |by econstructor].
  - intros X h x. by rewrite Hp, Hrun.
  - rewrite Hs, settle_cons, Hi. case_decide; by rewrite ?lookup_delete_eq, ?lookup_insert_eq.
  - intros k' Hk'. rewrite Ho, Hi by done.
    case_decide; by rewrite ?lookup_delete_ne, ?lookup_insert_ne.
Qed.

(** It does when the deltas are all of the key [k], the store accepts them, and
    they alternate properly. *)
Lemma processDeltas_ok (st0 st : S) k ds i :
  st_ext st0 st ->
  Forall (fun d => st_key st0 (dObject d) = Ok k /\
    (dType d <> Deleted -> st_accepts st0 (dObject d))) ds ->
  alternates (bool_decide (is_Some (st_items st !! k))) ds = true ->
  processes_well st0 st k ds i.
Proof.
  revert st. induction ds as [|d ds IH]; intros st Hext HF Halt.
  { exists st, []. split_and!; try done. constructor. }
  apply Forall_cons in HF as [[Hk Hacc] HF]. pose proof Hext as (Hinv & Hkey & Hmono).
  cbn [alternates] in Halt.
  assert (Hk' : st_key st (dObject d) = Ok k) by (by rewrite Hkey).
  assert (IH' : forall st1, st_ext st st1 ->
    alternates (bool_decide (is_Some (st_items st1 !! k))) ds = true ->
    processes_well st0 st1 k ds i) by (intros; apply IH; eauto using st_ext_trans).
  destruct (decide (dType d = Deleted)) as [Hd|Hd].
  - apply andb_prop in Halt as [Hin Halt]. apply bool_decide_eq_true in Hin.
    pose proof (st_Delete_law (dObject d) st Hinv) as Hl. rewrite Hk' in Hl.
    destruct Hl as (st1 & Hop & Hit & He).
    apply (processes_well_cons st0 st st1 k d ds i (NDelete (dObject d))).
    + apply IH'; [done|]. by rewrite Hit, lookup_delete_eq.
    + by rewrite decide_True.
    + rewrite Hit. by constructor.
    + intros X h x. cbn [processDeltas]. by rewrite Hd, Hop.
  - pose proof (st_Get_law (dObject d) st) as Hg. rewrite Hk' in Hg.
    destruct (st_items st !! k) as [old|] eqn:Eold;
      [pose proof (st_Update_law (dObject d) st Hinv (Hmono _ (Hacc Hd))) as Hl
      |pose proof (st_Add_law (dObject d) st Hinv (Hmono _ (Hacc Hd))) as Hl];
      rewrite Hk' in Hl; destruct Hl as (st1 & Hop & Hit & He).
    1: apply (processes_well_cons st0 st st1 k d ds i (NUpdate old (dObject d))).
    5: apply (processes_well_cons st0 st st1 k d ds i (NAdd (dObject d) i)).
    1,5: apply IH'; [done|]; by rewrite Hit, lookup_insert_eq.
    1,4: by rewrite decide_False.
    1,3: rewrite Hit; by constructor.
    all: intros X h x; cbn [processDeltas]; rewrite Hg, Hop; by destruct (dType d).
Qed.

End process.

(** *** The informer's invariant *)

Section refinement.
Context {O S X : Type} `{StoreLaws (value O) S}.
Context (cfg : DeltaFIFOConfig O) (h : ResourceEventHandler (value O) X) (st0 : S).
Local Abbreviation key := (st_key st0).
Context (Htr : transformer_ok cfg key (st_accepts st0)).
Context (Hkey : forall o k, key o = Ok k -> KeyOf cfg o = Ok k).

(** What the informer keeps true of the object of every delta, and of every stored
    object. *)
Definition good (t : DeltaType) (k : string) (o : iface (value O)) : Prop :=
  key o = Ok k /\ transform cfg o = Ok o /\ (t <> Deleted -> st_accepts st0 o).

Record informer_inv (f : DeltaFIFO O) (st : S) : Prop := {
  inv_fifo : fifo_ok f;
  inv_ext : st_ext st0 st;
  inv_deltas : deltas_sat (fun k d => good (dType d) k (dObject d)) f;
  inv_store : forall k o, st_items st !! k = Some o -> good Sync k o;
  inv_alt : forall k ds, DeltaFIFO.items f !! k = Some ds ->
    alternates (bool_decide (is_Some (st_items st !! k))) ds = true
}.

(** The map the informer is on its way to: each key settled. *)
Definition view (f : DeltaFIFO O) (st : S) (k : string) : option (iface (value O)) :=
  settle (st_items st !! k) (default [] (DeltaFIFO.items f !! k)).

(** The deltas the informer enqueues in the state [f]. *)
Definition informer_delta (st : S) (f : DeltaFIFO O) (k : string) (d : Delta O) : Prop :=
  good (dType d) k (dObject d) /\
  (dType d = Deleted -> is_Some (st_items st !! k) \/ k ∈ dom (DeltaFIFO.items f)).

Definition informer_obj (st : S) (f : DeltaFIFO O) (t : DeltaType) (obj : iface (value O)) : Prop :=
  (no_deltas obj /\ (t <> Deleted -> api_object obj) \/ exists k, good t k obj) /\
  (t = Deleted -> forall k, KeyOf cfg obj = Ok k ->
     is_Some (st_items st !! k) \/ k ∈ dom (DeltaFIFO.items f)).

Lemma good_transform t obj k o :
  (no_deltas obj /\ (t <> Deleted -> api_object obj)) \/ (exists k, good t k obj) ->
  KeyOf cfg obj = Ok k -> transform cfg obj = Ok o -> good t k o.
Proof.
  intros [[Hn Ht]|(k' & Hk' & Ht & Ha)] Ek Et.
  - destruct (Htr obj k o) as (? & ? & ?); [done|done|done|]. split_and!; auto.
  - rewrite (Hkey _ _ Hk') in Ek. rewrite Et in Ht. simplify_eq. by split_and!.
Qed.

Lemma informer_obj_delta st f t obj k o :
  informer_obj st f t obj -> KeyOf cfg obj = Ok k -> transform cfg obj = Ok o ->
  informer_delta st f k (mkDelta t o).
Proof. intros [Ho Hd] Ek Et. split; [by eapply good_transform|]. cbn. eauto. Qed.

Lemma informer_inv_put st f k d :
  informer_inv f st -> informer_delta st f k d -> informer_inv (put k d f) st.
Proof.
  intros [Hf He Hds Hs Ha] [Hg Hd].
  constructor; [by apply put_ok|done|by apply put_sat|done|]. intros k' ds. cbn.
  intros [[<- <-]|[_ Hk]]%lookup_insert_Some; [|eauto]. apply alternates_dedup.
  - destruct (DeltaFIFO.items f !! k) eqn:E; [by apply Ha|done].
  - intros Hdel. destruct (Hd Hdel) as [?|[ds Hds']%elem_of_dom]; [left; by apply bool_decide_true|].
    right. rewrite Hds'. cbn. intros ->. by apply (ok_nonempty _ Hf k).
Qed.

Lemma informer_inv_puts st f f' :
  puts (informer_delta st) f f' -> informer_inv f st -> informer_inv f' st.
Proof. apply (puts_invariant _ (fun g => informer_inv g st)). auto using informer_inv_put. Qed.

Lemma informer_inv_set_populated st f : informer_inv f st -> informer_inv (set_populated f) st.
Proof. intros []. constructor; auto using fifo_ok_set_populated. Qed.

Lemma informer_inv_set_count st f n :
  informer_inv f st -> fifo_ok (set_initialPopulationCount n (set_populated f)) ->
  informer_inv (set_initialPopulationCount n (set_populated f)) st.
Proof. by intros [] ?. Qed.

Lemma inv_get st k :
  forall o, st_GetByKey k st = (o, true, None) -> st_items st !! k = Some o.
Proof. intros o. rewrite st_GetByKey_law. destruct (st_items st !! k); [by intros [= ->]|done]. Qed.

Lemma known_keys_dom (st : S) : known_keys (Some st) = dom (st_items st).
Proof.
  apply set_eq. intros k. cbn. rewrite elem_of_list_to_set, st_ListKeys_law, elem_of_dom.
  rewrite list_elem_of_fmap. split.
  - intros ((k' & v) & -> & Hv%elem_of_map_to_list). by eexists.
  - intros (v & Hv%elem_of_map_to_list). by exists (k, v).
Qed.

(** *** One event *)

Lemma view_put f st k d k' :
  view (put k d f) st k' =
  if decide (k = k') then (if decide (dType d = Deleted) then None else Some (dObject d))
  else view f st k'.
Proof. apply settle_put. Qed.

Lemma enqueue_view st f t obj (M : gmap string (iface (value O))) :
  informer_inv f st -> informer_obj st f t obj -> (forall k, view f st k = M !! k) ->
  let f' := (queueActionLocked cfg t obj f).1 in
  informer_inv f' st /\
  forall k, view f' st k =
    match KeyOf cfg obj, transform cfg obj with
    | Ok k, Ok o => if decide (t = Deleted) then delete k M else <[k := o]> M
    | _, _ => M
    end !! k.
Proof.
  intros Hinv Ho HM. cbn zeta. rewrite queueActionLocked_put.
  destruct (KeyOf cfg obj) as [k|e] eqn:Ek; [|done].
  destruct (transform cfg obj) as [o|e] eqn:Et; [|done]. cbn [fst]. split.
  - apply informer_inv_put; [done|]. by eapply informer_obj_delta.
  - intros k'. rewrite view_put. cbn [dType dObject].
    destruct (decide (k = k')) as [->|Hne].
    + case_decide; [by rewrite lookup_delete_eq|by rewrite lookup_insert_eq].
    + case_decide; [by rewrite lookup_delete_ne|by rewrite lookup_insert_ne].
Qed.

Lemma Delete_view st f obj (M : gmap string (iface (value O))) :
  informer_inv f st -> no_deltas obj -> (forall k, view f st k = M !! k) ->
  let f' := (Delete cfg (Some st) obj f).1 in
  informer_inv f' st /\
  forall k, view f' st k = ideal cfg M (EvDelete obj) !! k.
Proof.
  intros Hinv Hn HM. cbn zeta. unfold Delete. cbn [ideal].
  destruct (KeyOf cfg obj) as [id|] eqn:Ek; [|done]. cbn [klg_GetByKey Store_KeyListerGetter].
  rewrite st_GetByKey_law. pose proof (informer_inv_set_populated _ _ Hinv) as Hinv'.
  change (DeltaFIFO.items (set_populated f)) with (DeltaFIFO.items f).
  destruct (bool_decide (is_Some (DeltaFIFO.items f !! id))) eqn:Eq;
    destruct (st_items st !! id) as [old|] eqn:Est; cbn [negb andb];
    try (apply bool_decide_eq_true in Eq);
    [..|split; [done|]; intros k;
       apply bool_decide_eq_false in Eq; apply eq_None_not_Some in Eq;
       specialize (HM id) as Hid; unfold view in Hid; rewrite Eq, Est in Hid; cbn in Hid;
       destruct (transform cfg obj); rewrite ?delete_id by done; apply HM].
  all: pose proof (enqueue_view st (set_populated f) Deleted obj M Hinv') as Hq; cbn zeta in Hq;
    rewrite Ek in Hq; destruct Hq as [Hi Hv]; [|done|split; [done|exact Hv]].
  all: split; [by left; split|]; intros _ k; rewrite Ek; intros [= <-].
  all: rewrite ?Est; cbn; rewrite ?elem_of_dom; eauto.
Qed.

Lemma Replace_view `{MapRange} st f l f' (M : gmap string (iface (value O))) :
  informer_inv f st -> Forall api_object l -> Replace cfg (Some st) l f = (f', Ok tt) ->
  informer_inv f' st /\
  forall k, view f' st k = ideal cfg M (EvReplace l) !! k.
Proof.
  intros Hinv Hl E. pose proof (inv_fifo _ _ Hinv) as Hok.
  pose proof (sf_ok _ _ _ (step_facts_Replace cfg (Some st) l f Hok)) as Hok'.
  destruct (Replace_newest_at cfg (Some st) l f f' E) as (g & n & Eg & Hi & Hq).
  assert (Hp : puts (informer_delta st) f g).
  { pose proof (Replace_queue_puts cfg (informer_obj st) (informer_delta st)) as Hp.
    specialize (Hp ltac:(intros ???; split; [by left; split|intros _ ? [= <-]; by right])).
    specialize (Hp ltac:(intros; by eapply informer_obj_delta) S _ _ (Some st) l f).
    rewrite Eg in Hp. apply Hp.
    - intros g' item Hin. split.
      { left. eapply Forall_forall in Hl; [|done]. split; [by apply api_object_no_deltas|done]. }
      unfold replace_action. by destruct (emitDeltaTypeReplaced cfg).
    - intros g' k obj Hk. split; [by left; split|]. intros _ ? [= <-]. left.
      rewrite known_keys_dom in Hk. by apply elem_of_dom. }
  pose proof (informer_inv_puts _ _ _ Hp Hinv) as Hg.
  rewrite E in Hok'. cbn in Hok'. split.
  { destruct Hg as [_ He Hds Hs Ha]. unfold deltas_sat in Hds. rewrite <- Hi in Hds, Ha. done. }
  destruct (Replace_queue_Ok cfg (Some st) l f g n Hok Eg) as (m & Hm & Hd & _ & Hnew & Hdel & Hkn).
  intros k. cbn [ideal]. rewrite Hm. cbn [default]. unfold view. rewrite Hi, settle_newest.
  destruct (m !! k) as [o|] eqn:Emk.
  { rewrite (Hnew k o Emk). cbn. unfold replace_action. by destruct (emitDeltaTypeReplaced cfg). }
  destruct (DeltaFIFO.items f !! k) as [old|] eqn:Ef.
  { destruct (Hdel k old Emk Ef) as (d & -> & Ht & _). by rewrite decide_True. }
  destruct (st_items st !! k) as [o|] eqn:Est.
  - destruct (Hkn k st Emk Ef eq_refl) as (d & -> & Ht & _); [|by rewrite decide_True].
    assert (Hin : k ∈ known_keys (Some st)) by (rewrite known_keys_dom; by eapply elem_of_dom_2).
    by apply elem_of_list_to_set in Hin.
  - destruct (newest_at g k) as [d|] eqn:En; [|done]. exfalso.
    assert (Hin : k ∈ dom (DeltaFIFO.items g)).
    { unfold newest_at in En. destruct (DeltaFIFO.items g !! k) eqn:?; [by eapply elem_of_dom_2|done]. }
    rewrite Hd, !elem_of_union, known_keys_dom, !elem_of_dom, Ef, Emk, Est in Hin.
    by destruct Hin as [[[]|[]]|[]].
Qed.

Lemma Resync_view st f :
  informer_inv f st ->
  let f' := (Resync cfg (Some st) f).1 in
  informer_inv f' st /\ forall k, view f' st k = view f st k.
Proof.
  intros Hinv. cbn zeta. unfold Resync.
  apply (sfor_invariant (fun g => informer_inv g st /\ forall k, view g st k = view f st k));
    [|done].
  intros k g _ [Hg Hv]. unfold syncKeyLocked. cbn [klg_GetByKey Store_KeyListerGetter].
  rewrite st_GetByKey_law. destruct (st_items st !! k) as [o|] eqn:Est; [|done].
  pose proof (inv_store _ _ Hg k o Est) as Hgood. pose proof Hgood as (Hk & Ht & _).
  rewrite (Hkey o k Hk). rewrite queued_iff by apply (inv_fifo _ _ Hg).
  case_bool_decide as Hq; [done|].
  pose proof (queueActionLocked_put cfg Sync o g) as E. rewrite (Hkey o k Hk), Ht in E.
  rewrite E. cbn [fst]. split.
  - apply informer_inv_put; [done|]. by split.
  - intros k'. rewrite view_put. case_decide; [|done]. subst k'. cbn [dType dObject].
    rewrite <- Hv. unfold view. apply not_elem_of_dom in Hq. by rewrite Hq, Est.
Qed.

Definition world_is (w : option (S * X)) (st : S) (x : X) : Prop := w = Some (st, x).

(** An iteration of the process loop on a non-empty queue processes the head's
    deltas and continues. *)
Lemma Pop_view st f x id q :
  informer_inv f st -> DeltaFIFO.queue f = id :: q ->
  exists f' st' log,
    (forall b, processLoop_iteration cfg b (newInformer_Process h) f (Some (st, x)) =
       (f', Some (st', fold_left (deliver h) log x), LoopContinues)) /\
    DeltaFIFO.queue f' = q /\ informer_inv f' st' /\
    (forall k, view f' st' k = view f st k) /\
    replays key (st_items st) log (st_items st').
Proof.
  intros Hinv Hq. pose proof Hinv as [Hok He Hds Hs Ha].
  destruct (Pop_head (newInformer_Process h) f (Some (st, x)) id q Hok Hq)
    as (item & Hi & Hne & Hok' & E).
  destruct (processDeltas_ok st0 st id item (negb (HasSynced f)) He) as
    (st' & log & Hrun & He' & Hset & Hoth & Hrep); [|by apply Ha|].
  { eapply Forall_impl; [by apply (Hds id)|]. by intros d (? & _ & ?). }
  unfold newInformer_Process in E at 2. rewrite Hrun in E. cbn in E.
  eexists _, st', log. split; [intros b; unfold processLoop_iteration; rewrite E; done|].
  split; [done|]. cbn [DeltaFIFO.items]. split; [|split; [|done]].
  - constructor; [done|done| | |].
    + intros k ds. cbn. intros [_ Hk]%lookup_delete_Some. by apply (Hds k).
    + intros k o Hk. destruct (decide (k = id)) as [->|Hk'];
        [|rewrite Hoth in Hk by done; by apply Hs].
      rewrite Hset in Hk. unfold settle in Hk. destruct (last item) as [d|] eqn:El; [|by apply Hs].
      case_decide; simplify_eq. apply last_Some in El as [l ->].
      specialize (Hds id _ Hi). apply Forall_app in Hds as [_ Hd].
      rewrite Forall_singleton in Hd. destruct Hd as (? & ? & ?). split_and!; auto.
    + intros k ds. cbn. intros [Hk' Hk]%lookup_delete_Some. rewrite Hoth by done. by apply Ha.
  - intros k. unfold view. cbn. destruct (decide (k = id)) as [->|Hk'].
    + by rewrite lookup_delete_eq, Hi, Hset.
    + by rewrite lookup_delete_ne, Hoth.
Qed.

(** *** Any sequence of events *)

(** A state of the informer: the store and the handler behind the log of what the
    handler was told. *)
Record informer_at (x0 : X) (M : gmap string (iface (value O))) (s : informer) (st : S)
    (log : list notification) : Prop := {
  at_world : world s = Some (st, fold_left (deliver h) log x0);
  at_inv : informer_inv (fifo s) st;
  at_view : forall k, view (fifo s) st k = M !! k;
  at_replay : replays key (st_items st0) log (st_items st)
}.

Lemma informer_at_pop x0 M s st log :
  informer_at x0 M s st log ->
  exists s' st' log',
    processLoop_turn cfg h s = s' /\
    informer_at x0 M s' st' log' /\
    DeltaFIFO.queue (fifo s') = tail (DeltaFIFO.queue (fifo s)).
Proof.
  intros [Hw Hinv Hv Hr]. destruct s as [f w]. unfold processLoop_turn. cbn in *. subst w.
  destruct (DeltaFIFO.queue f) as [|id q] eqn:Hq.
  - unfold processLoop_iteration. rewrite Pop_empty by done.
    exists (mkInformer f (Some (st, fold_left (deliver h) log x0))), st, log.
    destruct (closed f); done.
  - destruct (Pop_view st f (fold_left (deliver h) log x0) id q Hinv Hq)
      as (f' & st' & log' & -> & Hq' & Hinv' & Hv' & Hr').
    eexists _, st', (log ++ log'). split; [done|]. split; [|done].
    constructor; cbn; [by rewrite fold_left_app|done| |by eapply replays_trans].
    intros k. by rewrite Hv'.
Qed.

Lemma informer_at_step x0 M s st log e s' :
  informer_at x0 M s st log -> event_ok e -> informer_step cfg h e s s' ->
  exists st' log', informer_at x0 (ideal cfg M e) s' st' log'.
Proof.
  intros Hat He Hs. inversion Hs; subst; clear Hs.
  6:{ destruct (informer_at_pop x0 M _ st log Hat) as (s' & st' & log' & <- & Hat' & _). eauto. }
  all: destruct Hat as [Hw Hinv Hv Hr]; cbn in *; exists st, log; simplify_eq.
  - destruct (enqueue_view st (set_populated f) Added obj M) as [Hi Hv'];
      [by apply informer_inv_set_populated|by split; [left; split; [apply api_object_no_deltas|]|]|exact Hv|by constructor].
  - destruct (enqueue_view st (set_populated f) Updated obj M) as [Hi Hv'];
      [by apply informer_inv_set_populated|by split; [left; split; [apply api_object_no_deltas|]|]|exact Hv|by constructor].
  - destruct (Delete_view st f obj M Hinv He Hv) as [Hi Hv']. by constructor.
  - edestruct (Replace_view st f l f' M Hinv He) as [Hi Hv']; [done|]. by constructor.
  - destruct (Resync_view st f Hinv) as [Hi Hv']. constructor; [done|done| |done].
    intros k. cbn. by rewrite Hv'.
Qed.

Lemma informer_at_steps x0 M s st log es s' :
  informer_at x0 M s st log -> Forall event_ok es -> informer_steps cfg h es s s' ->
  exists st' log', informer_at x0 (fold_left (ideal cfg) es M) s' st' log'.
Proof.
  intros Hat Hes Hs. induction Hs as [s|es e s1 s2 s3 _ IH Hstep]; [eauto|].
  apply Forall_app in Hes as [Hes He]. rewrite Forall_singleton in He.
  destruct (IH Hat Hes) as (st1 & log1 & Hat1). rewrite fold_left_app.
  by eapply informer_at_step.
Qed.

Lemma informer_at_drain x0 M n s st log :
  informer_at x0 M s st log ->
  exists st' log', informer_at x0 M (drain cfg h n s) st' log' /\
    DeltaFIFO.queue (fifo (drain cfg h n s)) = drop n (DeltaFIFO.queue (fifo s)).
Proof.
  intros Hat. induction n as [|n IH]; [by exists st, log|].
  destruct IH as (st1 & log1 & Hat1 & Hq1). cbn [drain].
  destruct (informer_at_pop _ _ _ _ _ Hat1) as (s' & st' & log' & -> & Hat' & Hq').
  exists st', log'. split; [done|]. rewrite Hq', Hq1.
  by rewrite <- Nat.add_1_r, <- drop_drop, tail_drop_1.
Qed.

End refinement.

(** *** The key functions of an informer agree *)

Section keys.
Context {O S : Type} `{MetaAccessor O}.
Implicit Types (o : iface (value O)).

Lemma KeyOf_newInformer transformer o k :
  (forall ds, exists e, Accessor (Some (VDeltas ds)) = Err e) ->
  DeletionHandlingMetaNamespaceKeyFunc o = Ok k ->
  KeyOf (newInformer_fifo transformer).1 o = Ok k.
Proof.
  intros Hacc. destruct o as [[o|key|key o|ds]|]; cbn; try done.
  unfold MetaNamespaceKeyFunc, ObjectToName. by destruct (Hacc ds) as [e ->].
Qed.

End keys.

(** *** Filtering *)

Section filtering.
Context {O : Type} (key : KeyFunc (value O)) (p : iface (value O) -> bool).

(** What [FilteringResourceEventHandler] passes on of one notification. *)
Definition filtered (n : notification (O:=O)) : list (notification (O:=O)) :=
  match n with
  | NAdd obj i => if p obj then [NAdd obj i] else []
  | NUpdate old new =>
      if p new then (if p old then [NUpdate old new] else [NAdd new false])
      else (if p old then [NDelete old] else [])
  | NDelete old => if p old then [NDelete old] else []
  end.

Lemma filtered_deliver {X} (h : ResourceEventHandler (value O) X) x n :
  deliver (FilteringResourceEventHandler p h) x n = fold_left (deliver h) (filtered n) x.
Proof.
  destruct n as [obj i|old new|old]; cbn.
  - by destruct (p obj).
  - by destruct (p new), (p old).
  - by destruct (p old).
Qed.

Lemma filtered_deliver_log {X} (h : ResourceEventHandler (value O) X) x log :
  fold_left (deliver (FilteringResourceEventHandler p h)) log x =
  fold_left (deliver h) (log ≫= filtered) x.
Proof.
  revert x. induction log as [|n log IH]; intros x; [done|].
  cbn. rewrite IH, filtered_deliver. symmetry. apply fold_left_app.
Qed.

Lemma filtered_notifies M1 n M2 :
  (forall k o, M1 !! k = Some o -> key o = Ok k) ->
  (forall obj k old, n = NDelete obj -> key obj = Ok k -> M1 !! k = Some old -> p obj = p old) ->
  notifies key M1 n M2 -> replays key (filter_by p M1) (filtered n) (filter_by p M2).
Proof.
  intros HM Hdel Hn. assert (one : forall M1 n M2 log, notifies key M1 n M2 -> log = [n] ->
    replays key M1 log M2) by (intros; subst; econstructor; [done|constructor]).
  destruct Hn as [M k obj i Hk Hnone|M k old new Hk Hold|M k old Hk [old' Hold]]; cbn.
  - pose proof (map_lookup_filter_None_2 (fun kv => p kv.2 = true) M k (or_introl Hnone)) as Hf.
    unfold filter_by. destruct (p obj) eqn:Ep.
    + rewrite map_filter_insert_True by done. eapply one; [by constructor|done].
    + rewrite map_filter_insert_not' by (cbn; rewrite ?Ep; naive_solver). constructor.
  - unfold filter_by. destruct (p new) eqn:En; [rewrite map_filter_insert_True by done|
      rewrite map_filter_insert_False by (cbn; by rewrite En)]; destruct (p old) eqn:Eo.
    + eapply one; [|done]. constructor; [done|]. by apply map_lookup_filter_Some.
    + eapply one; [|done]. constructor; [done|]. apply map_lookup_filter_None. right.
      intros o Ho. cbn. by simplify_eq; rewrite Eo.
    + rewrite map_filter_delete. eapply one; [|done]. constructor; [by apply HM|].
      exists old. by apply map_lookup_filter_Some.
    + rewrite map_filter_delete_not; [constructor|]. intros o Ho. cbn. by simplify_eq; rewrite Eo.
  - specialize (Hdel old k old' eq_refl Hk Hold). unfold filter_by. rewrite map_filter_delete.
    rewrite Hdel. destruct (p old') eqn:Ep.
    + eapply one; [|done]. constructor; [done|]. exists old'. by apply map_lookup_filter_Some.
    + rewrite delete_id; [constructor|]. apply map_lookup_filter_None. right.
      intros o Ho. cbn. by simplify_eq; rewrite Ep.
Qed.

Lemma notifies_keyed M1 n M2 :
  notifies key M1 n M2 -> (forall k o, M1 !! k = Some o -> key o = Ok k) ->
  forall k o, M2 !! k = Some o -> key o = Ok k.
Proof.
  intros [] HM k' o'; [intros [[<- <-]|[_ ?]]%lookup_insert_Some; auto
    |intros [[<- <-]|[_ ?]]%lookup_insert_Some; auto|intros [_ ?]%lookup_delete_Some; auto].
Qed.

Lemma filtered_replays M1 log M2 :
  replays key M1 log M2 -> (forall k o, M1 !! k = Some o -> key o = Ok k) ->
  deletes_agree key p M1 log ->
  replays key (filter_by p M1) (log ≫= filtered) (filter_by p M2).
Proof.
  induction 1 as [M|M1 M2 M3 n log Hn Hr IH]; intros HM Hd; [constructor|]. cbn.
  destruct Hd as [Hd1 Hd2]. apply replays_trans with (filter_by p M2).
  - apply filtered_notifies; [done| |done]. intros obj k old ->. apply Hd1.
  - apply IH; [by eapply notifies_keyed|by apply Hd2].
Qed.

End filtering.

(** ** Properties *)

Section properties.
Context {O S X : Type} `{MetaAccessor O} `{StoreLaws (value O) S}.
Context (transformer : option (iface (value O) -> result (value O) (iface (value O)))).
Context (h : ResourceEventHandler (value O) X).
Local Abbreviation cfg := (newInformer_fifo transformer).1.

(** An informer just made: an empty store keyed by
    [DeletionHandlingMetaNamespaceKeyFunc], as every [New*Informer] makes it. *)
Definition informer_made (st0 : S) : Prop :=
  st_inv st0 /\ st_items st0 = ∅ /\ st_key st0 = DeletionHandlingMetaNamespaceKeyFunc.

(** [meta.Accessor] fails on a [Deltas], which is no API object. *)
Definition Accessor_refuses_deltas : Prop :=
  forall ds, exists e, Accessor (Some (VDeltas ds)) = Err e.

Lemma informer_at_reached st0 x0 es s :
  informer_made st0 -> Accessor_refuses_deltas ->
  transformer_ok cfg (st_key st0) (st_accepts st0) ->
  Forall event_ok es -> informer_steps cfg h es (newInformer st0 x0) s ->
  exists st log, informer_at cfg h st0 x0 (fold_left (ideal cfg) es ∅) s st log.
Proof.
  intros (Hinv & Hempty & Hkey) Hacc Htr Hes Hs.
  assert (Hk : forall o k, st_key st0 o = Ok k -> KeyOf cfg o = Ok k).
  { intros o k E. apply (KeyOf_newInformer transformer); [done|]. by rewrite <- Hkey. }
  apply (informer_at_steps cfg h st0 Htr Hk x0 ∅ (newInformer st0 x0) st0 []); [|done|done].
  constructor; cbn; [done| | |].
  - constructor; cbn; [apply fifo_ok_NewDeltaFIFO|by split|..].
    + intros k ds. cbn. by rewrite lookup_empty.
    + intros k o. by rewrite Hempty, lookup_empty.
    + intros k ds. by rewrite lookup_empty.
  - intros k. unfold view. cbn. by rewrite lookup_empty, Hempty, !lookup_empty.
  - rewrite Hempty. constructor.
Qed.

(** C1: an informer converges to what the reflector reported.  After any
    interleaving of the reflector's adds, updates, deletes, replacements and
    resyncs with the informer's processing, the store already holds the reported
    object under every key with nothing pending; and as many turns of the process
    loop as there are keys queued empty the queue and leave the store equal to the
    map of what was reported, with no panic and no error. *)
Theorem informer_converges (st0 : S) (x0 : X) es s :
  informer_made st0 -> Accessor_refuses_deltas ->
  transformer_ok cfg (st_key st0) (st_accepts st0) ->
  Forall event_ok es -> informer_steps cfg h es (newInformer st0 x0) s ->
  let reported := fold_left (ideal cfg) es ∅ in
  (exists st x, world s = Some (st, x) /\
     forall k, k ∉ DeltaFIFO.queue (fifo s) -> st_items st !! k = reported !! k) /\
  let s' := drain cfg h (length (DeltaFIFO.queue (fifo s))) s in
  DeltaFIFO.queue (fifo s') = [] /\
  exists st x, world s' = Some (st, x) /\ st_items st = reported.
Proof.
  intros Hmade Hacc Htr Hes Hs. cbn zeta.
  assert (Hkey : forall o k, st_key st0 o = Ok k -> KeyOf cfg o = Ok k).
  { intros o k E. destruct Hmade as (_ & _ & Hk). apply (KeyOf_newInformer transformer); [done|].
    by rewrite <- Hk. }
  assert (Hdone : forall M s st log, informer_at cfg h st0 x0 M s st log ->
    forall k, k ∉ DeltaFIFO.queue (fifo s) -> st_items st !! k = M !! k).
  { intros M s1 st log [_ Hi Hv _] k Hk. rewrite <- Hv. unfold view.
    rewrite (ok_mem _ (inv_fifo _ _ _ _ Hi)) in Hk. apply eq_None_not_Some in Hk. by rewrite Hk. }
  destruct (informer_at_reached st0 x0 es s Hmade Hacc Htr Hes Hs) as (st & log & Hat).
  split; [exists st, (fold_left (deliver h) log x0); split; [apply Hat|by eapply Hdone]|].
  destruct (informer_at_drain cfg h st0 x0 _ (length (DeltaFIFO.queue (fifo s))) s st log Hat)
    as (st' & log' & Hat' & Hq).
  rewrite drop_all in Hq. split; [done|].
  exists st', (fold_left (deliver h) log' x0). split; [apply Hat'|].
  apply map_eq. intros k. eapply Hdone; [exact Hat'|]. rewrite Hq. apply not_elem_of_nil.
Qed.

(** C6: a handler is told exactly what happened to the store.  Whatever the
    events, the handler's state is the result of a list of notifications that
    replays to the store's contents from nothing: each [OnAdd] is of a key not
    there, each [OnUpdate] carries as its old object the very object the handler
    was last given for that key, each [OnDelete] is of a key that is there. *)
Theorem informer_notifications_exact (st0 : S) (x0 : X) es s :
  informer_made st0 -> Accessor_refuses_deltas ->
  transformer_ok cfg (st_key st0) (st_accepts st0) ->
  Forall event_ok es -> informer_steps cfg h es (newInformer st0 x0) s ->
  exists st log, world s = Some (st, fold_left (deliver h) log x0) /\
    replays DeletionHandlingMetaNamespaceKeyFunc ∅ log (st_items st).
Proof.
  intros Hmade Hacc Htr Hes Hs.
  destruct (informer_at_reached st0 x0 es s Hmade Hacc Htr Hes Hs) as (st & log & [Hw _ _ Hr]).
  destruct Hmade as (_ & Hempty & Hkey). rewrite Hempty, Hkey in Hr. eauto.
Qed.

End properties.

(** [FilteringResourceEventHandler].  Given a stream of exact notifications,
    the nested handler again gets a stream of exact notifications, and it replays
    to the objects that pass the filter: an object that starts to pass is an add,
    one that stops is a delete, and nothing else reaches the handler.  The one
    condition is on deletions: the final object reported must pass the filter just
    when the last known object did, because [OnDelete] asks the filter about the
    former. *)
Theorem FilteringResourceEventHandler_exact {O X : Type} (key : KeyFunc (value O))
    (FilterFunc : iface (value O) -> bool) (Handler : ResourceEventHandler (value O) X) x log M :
  replays key ∅ log M -> deletes_agree key FilterFunc ∅ log ->
  exists log',
    fold_left (deliver (FilteringResourceEventHandler FilterFunc Handler)) log x =
      fold_left (deliver Handler) log' x /\
    replays key ∅ log' (filter_by FilterFunc M).
Proof.
  intros Hr Hd. exists (log ≫= filtered FilterFunc). split; [apply filtered_deliver_log|].
  replace (∅ : gmap string (iface (value O))) with (filter_by FilterFunc ∅)
    by apply map_filter_empty.
  apply filtered_replays; [done| |done]. intros k o. by rewrite lookup_empty.
Qed.

(** ** Witnesses *)

(** A transformer that keeps the low byte of a pod's version. *)
Definition wit_strip (obj : iface (value pod)) : result (value pod) (iface (value pod)) :=
  match obj with
  | Some (VObject p) =>
      Ok (Some (VObject (mkPod (pod_namespace p) (pod_name p) (Z.land (pod_version p) 255))))
  | _ => Ok obj
  end.

Definition wit_key : KeyFunc (value pod) := @DeletionHandlingMetaNamespaceKeyFunc pod pod_accessor.

(** A store indexed by namespace. *)
Definition wit_indexer : cache (value pod) (threadSafeMap (value pod)) :=
  NewIndexer wit_key {["namespace" := @MetaNamespaceIndexFunc pod pod_accessor]}.

Definition wit_store_impl :=
  @cache_Store (value pod) (threadSafeMap (value pod))
    (@threadSafeMap_ThreadSafeStore (value pod) range_in_key_order sets_in_key_order).
Definition wit_store_laws :=
  @cache_laws (value pod) (threadSafeMap (value pod)) _
    (@threadSafeMap_laws (value pod) range_in_key_order sets_in_key_order).

(** A handler that keeps the names of what it was told, newest first. *)
Definition wit_handler : ResourceEventHandler (value pod) (list string) := {|
  OnAdd obj _ x := "add" :: x;
  OnUpdate _ _ x := "update" :: x;
  OnDelete _ x := "delete" :: x
|}.

Definition wit_inf : DeltaFIFOConfig pod := (@newInformer_fifo pod pod_accessor (Some wit_strip)).1.
Definition wit_events : list (event (O:=pod)) :=
  [EvAdd (pod_obj "a" 1); EvReplace [pod_obj "a" 257; pod_obj "b" 2]; EvDelete (pod_obj "b" 3)].

Definition wit_s0 := newInformer (O:=pod) wit_indexer (@nil string).
Definition wit_s1 := mkInformer (Add wit_inf (pod_obj "a" 1) (fifo wit_s0)).1 (world wit_s0).
Definition wit_s2 :=
  mkInformer (@Replace pod wit_inf _ (@Store_KeyListerGetter _ _ wit_store_impl) range_in_key_order
    (Some wit_indexer) [pod_obj "a" 257; pod_obj "b" 2] (fifo wit_s1)).1 (world wit_s1).
Definition wit_s3 :=
  mkInformer (@Delete pod wit_inf _ (@Store_KeyListerGetter _ _ wit_store_impl)
    (Some wit_indexer) (pod_obj "b" 3) (fifo wit_s2)).1 (world wit_s2).

Lemma wit_events_steps :
  @informer_steps pod _ (list string) wit_store_impl wit_inf wit_handler wit_events wit_s0 wit_s3.
Proof.
  change wit_events with ((([] ++ [EvAdd (pod_obj "a" 1)]) ++
    [EvReplace [pod_obj "a" 257; pod_obj "b" 2]]) ++ [EvDelete (pod_obj "b" 3)]).
  eapply inf_snoc; [eapply inf_snoc; [eapply inf_snoc; [constructor|]|]|].
  - apply (inf_Add _ _ _ (fifo wit_s0)).
  - apply (inf_Replace _ _ range_in_key_order). vm_compute. reflexivity.
  - apply (inf_Delete _ _ _ (fifo wit_s2)).
Qed.

Lemma wit_indexer_made :
  @informer_made pod _ pod_accessor wit_store_impl wit_store_laws wit_indexer.
Proof.
  destruct (@NewIndexer_inv (value pod) range_in_key_order sets_in_key_order wit_key
    {["namespace" := @MetaNamespaceIndexFunc pod pod_accessor]}) as [Hi He].
  split; [exact Hi|split; [exact He|reflexivity]].
Qed.

Lemma wit_accessor_deltas : @Accessor_refuses_deltas pod pod_accessor.
Proof. intros ds. eexists. reflexivity. Qed.

Lemma wit_strip_ok :
  transformer_ok wit_inf (@st_key _ _ _ wit_store_laws wit_indexer)
    (@st_accepts _ _ _ wit_store_laws wit_indexer).
Proof.
  intros obj k o Hn Hk Ht. destruct obj as [[p|key|key obj|ds]|]; cbn in Ht; simplify_eq;
    cbn in Hk; try done; split_and!; try done; try (by intros [? ?]).
  - cbn. by rewrite <- Z.land_assoc.
  - intros _ name f Hf. cbn in Hf. apply lookup_singleton_Some in Hf as [<- <-]. by eexists.
  - by destruct (Hn ds).
Qed.

Lemma wit_events_ok : Forall event_ok wit_events.
Proof.
  repeat constructor; try (by eexists). intros ds. done.
Qed.

Lemma informer_converges_witness :
  exists st x,
    world (@drain pod _ _ wit_store_impl wit_inf wit_handler
      (length (DeltaFIFO.queue (fifo wit_s3))) wit_s3) = Some (st, x) /\
    @st_items _ _ _ wit_store_laws st = fold_left (ideal wit_inf) wit_events ∅.
Proof.
  exact (proj2 (proj2 (@informer_converges pod _ (list string) pod_accessor wit_store_impl
    wit_store_laws (Some wit_strip) wit_handler wit_indexer [] wit_events wit_s3
    wit_indexer_made wit_accessor_deltas wit_strip_ok wit_events_ok wit_events_steps))).
Defined.

Lemma informer_notifications_exact_witness :
  exists st log, world wit_s3 = Some (st, fold_left (deliver wit_handler) log []) /\
    replays wit_key ∅ log (@st_items _ _ _ wit_store_laws st).
Proof.
  exact (@informer_notifications_exact pod _ (list string) pod_accessor wit_store_impl
    wit_store_laws (Some wit_strip) wit_handler wit_indexer [] wit_events wit_s3
    wit_indexer_made wit_accessor_deltas wit_strip_ok wit_events_ok wit_events_steps).
Defined.

(** Only the pods of a version above 5 pass. *)
Definition wit_filter (obj : iface (value pod)) : bool :=
  match obj with Some (VObject p) => 5 <? pod_version p | _ => false end.

Definition wit_log : list (notification (O:=pod)) :=
  [NAdd (pod_obj "a" 3) true; NUpdate (pod_obj "a" 3) (pod_obj "a" 7); NDelete (pod_obj "a" 9)].

Lemma FilteringResourceEventHandler_exact_witness :
  exists log',
    ["delete"; "add"] = fold_left (deliver wit_handler) log' [] /\
    replays wit_key ∅ log' (filter_by wit_filter ∅).
Proof.
  apply (FilteringResourceEventHandler_exact wit_key wit_filter wit_handler [] wit_log ∅).
  - econstructor; [by apply (notifies_add wit_key ∅ "default/a")|].
    econstructor; [by apply (notifies_update wit_key _ "default/a")|].
    econstructor; [apply (notifies_delete wit_key _ "default/a"); [done|by eexists]|].
    replace (delete _ _) with (∅ : gmap string (iface (value pod)))
      by (vm_compute; reflexivity). constructor.
  - split; [done|]. intros M1 H1. inversion H1; subst. split; [done|].
    intros M2 H2. inversion H2; subst. split; [|by intros].
    intros k' old Hk'. vm_compute in Hk'.
    match goal with H : wit_key (pod_obj "a" 7) = Ok _ |- _ => vm_compute in H end.
    simplify_eq. rewrite lookup_insert_eq. by intros [= <-].
Defined.
