(* ===== verification/ProcessorListener.v ===== *)
(** * Listeners of a shared informer: processorListener of
    tools/cache/shared_informer.go and tools/cache/synctrack/synctrack.go.

    A listener relays notifications to one handler through two goroutines, two
    unbuffered channels and a ring buffer ([buffer.RingGrowing] of k8s.io/utils, a
    parameter).  Its goroutines are the steps of [listener_step]; the theorems say
    that the relay is a queue: nothing is lost, duplicated or reordered, everything
    is delivered, and the tracker counts what is not delivered yet. *)

From S2P Require Import Prelude Objects Store DeltaFIFO Controller.

(** ** The ring buffer *)

Class RingGrowing (N R : Type) : Type := {
  NewRingGrowing : Z -> R;
  WriteOne : N -> R -> R;
  ReadOne : R -> R * option N
}.

(** It is an unbounded queue. *)
Class RingGrowingLaws (N R : Type) `{RingGrowing N R} : Type := {
  ring_contents : R -> list N;
  NewRingGrowing_law size : ring_contents (NewRingGrowing size) = [];
  WriteOne_law n r : ring_contents (WriteOne n r) = ring_contents r ++ [n];
  ReadOne_law r :
    (ReadOne r).2 = head (ring_contents r) /\
    ring_contents (ReadOne r).1 = tail (ring_contents r)
}.

(** ** SingleFileTracker *)

(** The tracker is its counter, an int64 changed atomically. *)
Definition Start (count : Z) : Z := wrap64 (count + 1).

(** The new counter, and whether [Finished] panics. *)
Definition Finished (count : Z) : Z * bool :=
  let result := wrap64 (count - 1) in (result, result <? 0).

Definition SingleFileTracker_HasSynced (UpstreamHasSynced : bool) (count : Z) : bool :=
  if negb UpstreamHasSynced then false else count <=? 0.

(** ** processorListener *)

Section listener.
Context {O Y R : Type} `{RingGrowing (notification (O:=O)) R}.
Local Abbreviation note := (notification (O:=O)).

(** [addCh] and [nextCh] are unbuffered: [addCh] is the notification [add] is
    blocked on sending, and a send on [nextCh] is a step of both its ends.  [pop]
    has the local variables [notification] and [nextCh], the latter not nil exactly
    when the former is not; [handling] is the notification [run] is working on.
    The handler's own state is part of the record. *)
Record processorListener : Type := mkListener {
  handler : ResourceEventHandler (value O) Y;
  handler_state : Y;
  syncTracker : Z;
  addCh : option note;
  addCh_closed : bool;
  popping : bool;
  pop_notification : option note;
  pendingNotifications : R;
  nextCh_closed : bool;
  running : bool;
  handling : option note;
  requestedResyncPeriod : Z;
  resyncPeriod : Z;
  nextResync : Z
}.

Definition initialBufferSize : Z := 1024.

Definition with_resync (period next : Z) (p : processorListener) : processorListener :=
  mkListener (handler p) (handler_state p) (syncTracker p) (addCh p) (addCh_closed p) (popping p)
    (pop_notification p) (pendingNotifications p) (nextCh_closed p) (running p) (handling p)
    (requestedResyncPeriod p) period next.

Definition determineNextResync (now : Z) (p : processorListener) : processorListener :=
  with_resync (resyncPeriod p) (now + resyncPeriod p) p.

Definition setResyncPeriod (period : Z) (p : processorListener) : processorListener :=
  with_resync period (nextResync p) p.

Definition shouldResync (now : Z) (p : processorListener) : bool :=
  if resyncPeriod p =? 0 then false else (nextResync p <? now) || (now =? nextResync p).

Definition newProcessListener (h : ResourceEventHandler (value O) Y) (y : Y)
    (requested period now bufferSize : Z) : processorListener :=
  determineNextResync now
    (mkListener h y 0 None false false None (NewRingGrowing bufferSize) false false None
       requested period 0).

Definition listener_HasSynced (UpstreamHasSynced : bool) (p : processorListener) : bool :=
  SingleFileTracker_HasSynced UpstreamHasSynced (syncTracker p).

(** [wg.Start(listener.run)] and [wg.Start(listener.pop)]. *)
Definition start_goroutines (p : processorListener) : processorListener :=
  mkListener (handler p) (handler_state p) (syncTracker p) (addCh p) (addCh_closed p) true
    (pop_notification p) (pendingNotifications p) (nextCh_closed p) true (handling p)
    (requestedResyncPeriod p) (resyncPeriod p) (nextResync p).

Definition close_addCh (p : processorListener) : processorListener :=
  mkListener (handler p) (handler_state p) (syncTracker p) (addCh p) true (popping p)
    (pop_notification p) (pendingNotifications p) (nextCh_closed p) (running p) (handling p)
    (requestedResyncPeriod p) (resyncPeriod p) (nextResync p).

(** Is the notification an add of the initial list? *)
Definition is_initial (n : note) : bool :=
  match n with NAdd _ isInInitialList => isInInitialList | _ => false end.

(** [add] up to where it blocks on [addCh]. *)
Definition add_begin (n : note) (p : processorListener) : processorListener :=
  mkListener (handler p) (handler_state p)
    (if is_initial n then Start (syncTracker p) else syncTracker p)
    (Some n) (addCh_closed p) (popping p) (pop_notification p) (pendingNotifications p)
    (nextCh_closed p) (running p) (handling p)
    (requestedResyncPeriod p) (resyncPeriod p) (nextResync p).

Definition with_pop (ch nx : option note) (r : R) (p : processorListener) : processorListener :=
  mkListener (handler p) (handler_state p) (syncTracker p) ch (addCh_closed p) (popping p)
    nx r (nextCh_closed p) (running p) (handling p)
    (requestedResyncPeriod p) (resyncPeriod p) (nextResync p).

(** The case [notificationToAdd, ok := <-p.addCh] of [pop]'s select, on a send. *)
Definition pop_receive (p : processorListener) : option processorListener :=
  match popping p, addCh p with
  | true, Some notificationToAdd =>
      Some match pop_notification p with
           | None => with_pop None (Some notificationToAdd) (pendingNotifications p) p
           | Some n =>
               with_pop None (Some n) (WriteOne notificationToAdd (pendingNotifications p)) p
           end
  | _, _ => None
  end.

(** The same case on a closed channel: [pop] returns and closes [nextCh]. *)
Definition pop_returns (p : processorListener) : option processorListener :=
  match popping p, addCh p, addCh_closed p with
  | true, None, true =>
      Some (mkListener (handler p) (handler_state p) (syncTracker p) None true false
              (pop_notification p) (pendingNotifications p) true (running p) (handling p)
              (requestedResyncPeriod p) (resyncPeriod p) (nextResync p))
  | _, _, _ => None
  end.

(** The case [nextCh <- notification], received by [run]'s range over [nextCh]. *)
Definition pop_send (p : processorListener) : option processorListener :=
  match popping p, pop_notification p, running p, handling p with
  | true, Some n, true, None =>
      let '(r, next) := ReadOne (pendingNotifications p) in
      Some (mkListener (handler p) (handler_state p) (syncTracker p) (addCh p) (addCh_closed p)
              (popping p) next r (nextCh_closed p) (running p) (Some n)
              (requestedResyncPeriod p) (resyncPeriod p) (nextResync p))
  | _, _, _, _ => None
  end.

Definition with_handled (y : Y) (count : Z) (p : processorListener) : processorListener :=
  mkListener (handler p) y count (addCh p) (addCh_closed p) (popping p)
    (pop_notification p) (pendingNotifications p) (nextCh_closed p) (running p) None
    (requestedResyncPeriod p) (resyncPeriod p) (nextResync p).

(** The body of [run]'s loop.  A panic of [Finished] comes after its work: [run]
    starts over either way. *)
Definition run_handles (p : processorListener) : option processorListener :=
  match handling p with
  | Some n =>
      Some (with_handled (deliver (handler p) (handler_state p) n)
              (if is_initial n then (Finished (syncTracker p)).1 else syncTracker p) p)
  | None => None
  end.

(** The handler panics, having left [y] behind: [wait.Until] starts the loop again
    and the notification is skipped. *)
Definition run_panics (y : Y) (p : processorListener) : option processorListener :=
  match handling p with
  | Some n => Some (with_handled y (syncTracker p) p)
  | None => None
  end.

(** [run] returns when [nextCh] is closed. *)
Definition run_returns (p : processorListener) : option processorListener :=
  match running p, handling p, nextCh_closed p with
  | true, None, true =>
      Some (mkListener (handler p) (handler_state p) (syncTracker p) (addCh p) (addCh_closed p)
              (popping p) (pop_notification p) (pendingNotifications p) true false None
              (requestedResyncPeriod p) (resyncPeriod p) (nextResync p))
  | _, _, _ => None
  end.

(** ** Executions of one listener *)

Inductive label : Type :=
| LAdd (n : note)
| LHandled (n : note)
| LPanicked (n : note)
| LInternal
| LOutside.

(** The steps of the listener's own goroutines. *)
Inductive goroutine_step : processorListener -> label -> processorListener -> Prop :=
| gs_receive p p' : pop_receive p = Some p' -> goroutine_step p LInternal p'
| gs_pop_returns p p' : pop_returns p = Some p' -> goroutine_step p LInternal p'
| gs_send p p' : pop_send p = Some p' -> goroutine_step p LInternal p'
| gs_handles p n p' : handling p = Some n -> run_handles p = Some p' -> goroutine_step p (LHandled n) p'
| gs_panics y p n p' : handling p = Some n -> run_panics y p = Some p' -> goroutine_step p (LPanicked n) p'
| gs_run_returns p p' : run_returns p = Some p' -> goroutine_step p LInternal p'.

(** With what others do to the listener: one [add] at a time, on an open channel. *)
Inductive listener_step : processorListener -> label -> processorListener -> Prop :=
| ls_goroutine p a p' : goroutine_step p a p' -> listener_step p a p'
| ls_add p n : addCh p = None -> addCh_closed p = false -> listener_step p (LAdd n) (add_begin n p)
| ls_start p : popping p = false -> nextCh_closed p = false ->
    listener_step p LOutside (start_goroutines p)
| ls_close p : addCh p = None -> listener_step p LOutside (close_addCh p)
| ls_resync period next p : listener_step p LOutside (with_resync period next p).

Inductive traces (step : processorListener -> label -> processorListener -> Prop)
    : processorListener -> list label -> processorListener -> Prop :=
| traces_nil p : traces step p [] p
| traces_snoc p tr p' a p'' :
    traces step p tr p' -> step p' a p'' -> traces step p (tr ++ [a]) p''.

(** ** Specification *)

Definition added (tr : list label) : list note :=
  omap (fun a => match a with LAdd n => Some n | _ => None end) tr.
Definition handled (tr : list label) : list note :=
  omap (fun a => match a with LHandled n => Some n | _ => None end) tr.
Definition panicked (tr : list label) : list note :=
  omap (fun a => match a with LPanicked n => Some n | _ => None end) tr.
(** Those [run] is done with, in order. *)
Definition taken (tr : list label) : list note :=
  omap (fun a => match a with LHandled n | LPanicked n => Some n | _ => None end) tr.

(** The adds of the initial list among notifications. *)
Definition initials (l : list note) : nat := length (filter (fun n => is_initial n = true) l).

End listener.
Arguments processorListener O Y R : clear implicits.

Section in_flight.
Context {O Y R : Type} `{RingGrowingLaws (notification (O:=O)) R}.

(** The notifications added and not yet taken care of, oldest first. *)
Definition in_flight (p : processorListener O Y R) : list (notification (O:=O)) :=
  option_list (handling p) ++ option_list (pop_notification p) ++
  ring_contents (pendingNotifications p) ++ option_list (addCh p).

(** [pop] has dropped nothing: it has not returned. *)
Definition relaying (p : processorListener O Y R) : Prop := nextCh_closed p = false.

(** The ring holds nothing while [pop] has no notification at hand; the counter is
    an int64. *)
Definition listener_wf (p : processorListener O Y R) : Prop :=
  (pop_notification p = None -> ring_contents (pendingNotifications p) = []) /\
  (popping p = true -> relaying p) /\ in_int64 (syncTracker p).

(** How much the goroutines have left to do. *)
Definition work_left (p : processorListener O Y R) : nat :=
  4 * length (option_list (addCh p)) +
  3 * length (ring_contents (pendingNotifications p)) +
  3 * length (option_list (pop_notification p)) +
  2 * length (option_list (handling p)) +
  (if popping p then 1 else 0) + (if running p then 1 else 0).

End in_flight.

(** ** Lemmas *)

Section lemmas.
Context {O Y R : Type} `{RingGrowingLaws (notification (O:=O)) R}.
Implicit Types (p : processorListener O Y R) (tr : list (label (O:=O))).

Lemma initials_app (l k : list (notification (O:=O))) : initials (l ++ k) = (initials l + initials k)%nat.
Proof. unfold initials. by rewrite filter_app, length_app. Qed.

Lemma initials_singleton (n : notification (O:=O)) : initials [n] = if is_initial n then 1%nat else 0%nat.
Proof. unfold initials. rewrite filter_cons. by destruct (is_initial n). Qed.

Lemma initials_le (l : list (notification (O:=O))) : (initials l <= length l)%nat.
Proof. apply length_filter. Qed.

Lemma initials_0 (l : list (notification (O:=O))) :
  initials l = 0%nat <-> Forall (fun n => is_initial n = false) l.
Proof.
  induction l as [|n l IH]; [done|]. rewrite Forall_cons, <- IH.
  change (n :: l) with ([n] ++ l). rewrite initials_app, initials_singleton.
  destruct (is_initial n); split; [lia|by intros []|by split; [|lia]|intros []; lia].
Qed.

(** What one step does to the queue, the tracker and the handler. *)
Record step_effect p (a : label (O:=O)) p' : Prop := {
  eff_wf : listener_wf p';
  eff_queue : taken [a] ++ in_flight p' = in_flight p ++ added [a];
  eff_count : syncTracker p' = wrap64
    (syncTracker p + (Z.of_nat (initials (added [a])) - Z.of_nat (initials (handled [a]))));
  eff_handler : handler p' = handler p;
  eff_state : panicked [a] = [] ->
    handler_state p' = fold_left (deliver (handler p)) (handled [a]) (handler_state p)
}.

Lemma initials_nil : initials (O:=O) [] = 0%nat.
Proof. done. Qed.

#[local] Arguments initials : simpl never.

Ltac effect Hi :=
  constructor; cbn;
  [split; [|split]; unfold relaying in *; cbn; auto; try done; try apply wrap64_range
  |unfold in_flight; cbn
  |rewrite ?initials_nil, ?initials_singleton; cbn; rewrite ?Z.add_0_r; try (by rewrite wrap64_id)
  |done|try done].

Lemma listener_step_effect p a p' : listener_wf p -> listener_step p a p' -> step_effect p a p'.
Proof.
  intros (Hr & Hp & Hi) Hs. destruct Hs as [p a p' Hs|p n Ha Hc|p Hpop Hnc|p Ha|period next p].
  - destruct Hs as [p p' E|p p' E|p p' E|p n p' Hn E|y p n p' Hn E|p p' E].
    + unfold pop_receive in E. repeat split_match_in E; simplify_eq; effect Hi.
      * rewrite WriteOne_law, Heqo, Heqo0. cbn. by rewrite !app_nil_r.
      * rewrite Heqo, Heqo0, Hr by done. cbn. by rewrite !app_nil_r.
    + unfold pop_returns in E. repeat split_match_in E; simplify_eq; effect Hi.
      rewrite Heqo. by rewrite !app_nil_r.
    + unfold pop_send in E. repeat split_match_in E; simplify_eq; effect Hi.
      * destruct (ReadOne_law (pendingNotifications p)) as [E1 E2]. rewrite Heqp0 in E1, E2. cbn in *.
        rewrite E1, E2. by destruct (ring_contents _).
      * destruct (ReadOne_law (pendingNotifications p)) as [E1 E2]. rewrite Heqp0 in E1, E2. cbn in *.
        rewrite E1, E2, Heqo, Heqo0. cbn. rewrite app_nil_r. by destruct (ring_contents _).
    + unfold run_handles in E. rewrite Hn in E. simplify_eq. effect Hi.
      * destruct (is_initial n); [apply wrap64_range|done].
      * by rewrite Hn, app_nil_r.
      * destruct (is_initial n); cbn; [done|by rewrite Z.add_0_r, wrap64_id].
    + unfold run_panics in E. rewrite Hn in E. simplify_eq. effect Hi. by rewrite Hn, app_nil_r.
    + unfold run_returns in E. repeat split_match_in E; simplify_eq; effect Hi.
      * intros. rewrite <- Heqb0. auto.
      * rewrite Heqo. by rewrite !app_nil_r.
  - effect Hi.
    + destruct (is_initial n); [apply wrap64_range|done].
    + rewrite Ha. cbn. by rewrite app_nil_r, <- !app_assoc.
    + destruct (is_initial n); cbn; [done|by rewrite Z.add_0_r, wrap64_id].
  - effect Hi. by rewrite app_nil_r.
  - effect Hi. by rewrite app_nil_r.
  - effect Hi. by rewrite app_nil_r.
Qed.

(** What an execution does. *)
Record trace_effect p tr p' : Prop := {
  tr_wf : listener_wf p';
  tr_queue : taken tr ++ in_flight p' = in_flight p ++ added tr;
  tr_count : syncTracker p' = wrap64
    (syncTracker p + (Z.of_nat (initials (added tr)) - Z.of_nat (initials (handled tr))));
  tr_handler : handler p' = handler p;
  tr_state : panicked tr = [] ->
    taken tr = handled tr /\ handler_state p' = fold_left (deliver (handler p)) (handled tr) (handler_state p)
}.

Lemma wrap64_add a b : wrap64 (wrap64 a + b) = wrap64 (a + b).
Proof.
  unfold wrap64. f_equal. replace ((a + 2 ^ 63) mod 2 ^ 64 - 2 ^ 63 + b + 2 ^ 63)
    with ((a + 2 ^ 63) mod 2 ^ 64 + b) by lia.
  rewrite Zplus_mod_idemp_l. f_equal. lia.
Qed.

Lemma traces_effect p tr p' : listener_wf p -> traces listener_step p tr p' -> trace_effect p tr p'.
Proof.
  intros Hwf Htr. induction Htr as [p|p tr p' a p'' _ IH Hs].
  { constructor; [done|by rewrite app_nil_r| |done|done].
    destruct Hwf as (_ & _ & Hi). cbn. by rewrite Z.add_0_r, wrap64_id. }
  destruct (IH Hwf) as [Hwf' Hq Hc Hh Hst].
  destruct (listener_step_effect p' a p'' Hwf' Hs) as [Hwf2 Hq2 Hc2 Hh2 Hst2].
  unfold taken, added, handled, panicked in *. constructor; unfold taken, added, handled, panicked;
    rewrite ?omap_app.
  - done.
  - rewrite <- app_assoc, Hq2, app_assoc, Hq, app_assoc. done.
  - rewrite Hc2, Hc, wrap64_add, !initials_app. f_equal. lia.
  - congruence.
  - intros [Hp1 Hp2]%app_nil. destruct (Hst Hp1) as [E1 E2]. specialize (Hst2 Hp2).
    rewrite E1, Hst2, Hh, E2, fold_left_app. split; [|done]. f_equal. by destruct a.
Qed.

Lemma newProcessListener_wf h y req per now size : listener_wf (newProcessListener (R:=R) h y req per now size : processorListener O Y R).
Proof. split; [|split]; [intros _; apply NewRingGrowing_law|done|done]. Qed.

Lemma newProcessListener_in_flight h y req per now size :
  in_flight (newProcessListener h y req per now size : processorListener O Y R) = [].
Proof. unfold in_flight. cbn. by rewrite NewRingGrowing_law. Qed.

(** *** Progress *)

(** The step of a goroutine that moves the oldest notification on. *)
Lemma goroutine_progress p :
  listener_wf p -> popping p = true -> running p = true -> in_flight p <> [] ->
  exists a p', goroutine_step p a p' /\ added [a] = [] /\ panicked [a] = [] /\ popping p' = true /\ running p' = true.
Proof.
  intros (Hr & Hp & _) Hpop Hrun Hne. destruct (handling p) as [n|] eqn:Eh.
  { exists (LHandled n). eexists. split; [by eapply gs_handles; [|unfold run_handles; by rewrite Eh]|done]. }
  destruct (pop_notification p) as [n|] eqn:En.
  { exists LInternal. destruct (ReadOne (pendingNotifications p)) as [r o] eqn:Er.
    eexists. split; [eapply gs_send; unfold pop_send; by rewrite Hpop, En, Hrun, Eh, Er|done]. }
  destruct (addCh p) as [n|] eqn:Ea.
  { exists LInternal. eexists. split; [eapply gs_receive; unfold pop_receive; by rewrite Hpop, Ea, En|done]. }
  unfold in_flight in Hne. by rewrite Eh, En, Ea, Hr in Hne.
Qed.

Lemma goroutine_work_left p a p' : goroutine_step p a p' -> (work_left p' < work_left p)%nat.
Proof.
  intros Hs. unfold work_left.
  destruct Hs as [p p' E|p p' E|p p' E|p n p' Hn E|y p n p' Hn E|p p' E].
  - unfold pop_receive in E. repeat split_match_in E; simplify_eq; cbn;
      rewrite ?WriteOne_law, ?length_app, ?Heqb; cbn; lia.
  - unfold pop_returns in E. repeat split_match_in E; simplify_eq; cbn; rewrite ?Heqb, ?Heqb0, ?Heqo; cbn; lia.
  - unfold pop_send in E. repeat split_match_in E; simplify_eq; cbn.
    destruct (ReadOne_law (pendingNotifications p)) as [E1 E2]. rewrite Heqp0 in E1, E2. cbn in *.
    rewrite E1, E2, ?Heqb, ?Heqb0, ?Heqo, ?Heqo0. destruct (ring_contents _); cbn; lia.
  - unfold run_handles in E. rewrite Hn in E. simplify_eq. rewrite Hn. cbn. lia.
  - unfold run_panics in E. rewrite Hn in E. simplify_eq. rewrite Hn. cbn. lia.
  - unfold run_returns in E. repeat split_match_in E; simplify_eq; cbn; rewrite ?Heqb, ?Heqb0, ?Heqo; cbn; lia.
Qed.

Lemma goroutine_traces p tr p' : traces goroutine_step p tr p' -> traces listener_step p tr p'.
Proof. induction 1; econstructor; eauto using ls_goroutine. Qed.

Lemma traces_trans (step : processorListener O Y R -> label -> processorListener O Y R -> Prop)
    p1 t1 p2 t2 p3 :
  traces step p1 t1 p2 -> traces step p2 t2 p3 -> traces step p1 (t1 ++ t2) p3.
Proof.
  intros H1 H2. induction H2; [by rewrite app_nil_r|]. rewrite app_assoc. econstructor; eauto.
Qed.

Lemma goroutines_deliver p :
  listener_wf p -> popping p = true -> running p = true ->
  exists tr p', traces goroutine_step p tr p' /\ added tr = [] /\ panicked tr = [] /\ in_flight p' = [].
Proof.
  revert p. apply (well_founded_induction (well_founded_ltof _ work_left) (fun p =>
    listener_wf p -> popping p = true -> running p = true ->
    exists tr p', traces goroutine_step p tr p' /\ added tr = [] /\ panicked tr = [] /\ in_flight p' = [])).
  intros p IH Hwf Hpop Hrun. destruct (decide (in_flight p = [])) as [He|He].
  { exists [], p. by split; [constructor|]. }
  destruct (goroutine_progress p Hwf Hpop Hrun He) as (a & p1 & Hs & Ha & Hp & Hpop1 & Hrun1).
  destruct (IH p1) as (tr & p' & Htr & Hat & Hpt & He'); [by eapply goroutine_work_left| |done|done|].
  { eapply eff_wf, listener_step_effect; [done|by apply ls_goroutine]. }
  exists ([a] ++ tr), p'. unfold added, panicked in *. rewrite !omap_app, Ha, Hat, Hp, Hpt.
  split; [|done]. eapply traces_trans; [|done]. eapply (traces_snoc _ p []); [constructor|done].
Qed.

(** The tracker counts the adds of the initial list that are in flight, and those
    whose handler panicked. *)
Lemma taken_initials tr : initials (taken tr) = (initials (handled tr) + initials (panicked tr))%nat.
Proof.
  induction tr as [|a tr IH]; [done|]. unfold taken, handled, panicked in *.
  destruct a as [n|n|n| |]; cbn; try done.
  all: change (n :: ?l) with ([n] ++ l); rewrite !initials_app, IH; lia.
Qed.

Lemma tracker_exact p tr p' :
  listener_wf p -> in_flight p = [] -> syncTracker p = 0 -> traces listener_step p tr p' ->
  Z.of_nat (initials (in_flight p') + initials (panicked tr)) <= MaxInt64 ->
  syncTracker p' = Z.of_nat (initials (in_flight p') + initials (panicked tr)).
Proof.
  intros Hwf He H0' Htr Hlen. destruct (traces_effect p tr p' Hwf Htr) as [_ Hq Hc _ _].
  rewrite He in Hq. cbn in Hq.
  assert (E : initials (added tr) =
    (initials (handled tr) + initials (panicked tr) + initials (in_flight p'))%nat).
  { rewrite <- Hq, initials_app, taken_initials. lia. }
  rewrite Hc, H0', wrap64_id; unfold in_int64, MinInt64 in *; lia.
Qed.

(** The same from a new listener, as the client of the handle sees it. *)
Lemma HasSynced_iff h y req per now size tr p upstream :
  traces listener_step (newProcessListener h y req per now size) tr p ->
  Z.of_nat (initials (in_flight p) + initials (panicked tr)) <= MaxInt64 ->
  listener_HasSynced upstream p = true <->
  upstream = true /\ Forall (fun n => is_initial n = false) (in_flight p) /\
  Forall (fun n => is_initial n = false) (panicked tr).
Proof.
  intros Htr Hlen.
  pose proof (tracker_exact _ tr p (newProcessListener_wf h y req per now size)
    (newProcessListener_in_flight h y req per now size) eq_refl Htr Hlen) as Hc.
  unfold listener_HasSynced, SingleFileTracker_HasSynced.
  rewrite <- !initials_0. destruct upstream; cbn; [|naive_solver].
  rewrite Hc, Z.leb_le. split; [|lia]. intros. split; [done|]. lia.
Qed.

(** What a new listener has done after any execution. *)
Lemma new_listener_effect h y req per now size tr p :
  traces listener_step (newProcessListener h y req per now size) tr p ->
  listener_wf p /\ added tr = taken tr ++ in_flight p /\ handler p = h /\
  (panicked tr = [] -> taken tr = handled tr /\ handler_state p = fold_left (deliver h) (taken tr) y).
Proof.
  intros Htr. destruct (traces_effect _ tr p (newProcessListener_wf h y req per now size) Htr)
    as [Hwf Hq _ Hh Hst].
  rewrite newProcessListener_in_flight in Hq. split_and!; try done.
  intros Hp. by destruct (Hst Hp) as [-> ->].
Qed.

End lemmas.

(** ** Properties *)

Section properties.
Context {O Y R : Type} `{RingGrowingLaws (notification (O:=O)) R}.
Implicit Types (p : processorListener O Y R) (tr : list (label (O:=O))).

(** C12: a listener is a queue.  Whatever the interleaving of [add], [pop], [run],
    the closing of [addCh] and the handler's panics, the notifications [run] has
    taken followed by those in flight are exactly those added, in order; and while
    the handler has not panicked, its state is the result of the notifications
    taken, delivered in that order. *)
Theorem listener_relays_in_order h y req per now size tr p :
  traces listener_step (newProcessListener h y req per now size) tr p ->
  added tr = taken tr ++ in_flight p /\
  (panicked tr = [] -> handler_state p = fold_left (deliver h) (taken tr) y).
Proof.
  intros Htr. destruct (new_listener_effect _ _ _ _ _ _ _ _ Htr) as (_ & Hq & _ & Hst).
  split; [done|]. intros Hp. by destruct (Hst Hp).
Qed.

(** C13: a running listener delivers everything.  While anything is in flight a
    goroutine of the listener can move; each of their moves leaves less to do, so
    they cannot move for ever; and left alone they get the handler called with
    exactly the notifications in flight, in order. *)
Theorem listener_delivers_all h y req per now size tr p :
  traces listener_step (newProcessListener h y req per now size) tr p ->
  popping p = true -> running p = true ->
  (in_flight p <> [] -> exists a p', goroutine_step p a p' /\ panicked [a] = []) /\
  (forall a p', goroutine_step p a p' -> (work_left p' < work_left p)%nat) /\
  exists tr' p', traces goroutine_step p tr' p' /\ panicked tr' = [] /\
    handled tr' = in_flight p /\ in_flight p' = [] /\
    handler_state p' = fold_left (deliver h) (in_flight p) (handler_state p).
Proof.
  intros Htr Hpop Hrun. destruct (new_listener_effect _ _ _ _ _ _ _ _ Htr) as (Hwf & _ & Hh & _).
  split; [|split; [apply goroutine_work_left|]].
  - intros Hne. destruct (goroutine_progress p Hwf Hpop Hrun Hne) as (a & p' & ? & _ & ? & _). eauto.
  - destruct (goroutines_deliver p Hwf Hpop Hrun) as (tr' & p' & Htr' & Ha & Hp & He).
    destruct (traces_effect p tr' p' Hwf (goroutine_traces _ _ _ Htr')) as [_ Hq _ _ Hst].
    destruct (Hst Hp) as [Et Es]. rewrite He, Ha, !app_nil_r, Et in Hq.
    exists tr', p'. rewrite Es, Hq, Hh. done.
Qed.

(** When a handle reports that it has synced.  With fewer than 2^63
    notifications added, [HasSynced] is true exactly when the informer has synced,
    no add of the initial list is in flight, and the handler has panicked on none:
    after such a panic the handle never reports synced again. *)
Theorem listener_HasSynced_exact h y req per now size tr p upstream :
  traces listener_step (newProcessListener h y req per now size) tr p ->
  Z.of_nat (length (added tr)) <= MaxInt64 ->
  listener_HasSynced upstream p = true <->
  upstream = true /\ Forall (fun n => is_initial n = false) (in_flight p) /\
  Forall (fun n => is_initial n = false) (panicked tr).
Proof.
  intros Htr Hlen. apply (HasSynced_iff h y req per now size); [done|].
  destruct (new_listener_effect _ _ _ _ _ _ _ _ Htr) as (_ & Hq & _).
  pose proof (taken_initials tr). pose proof (initials_le (added tr)).
  assert (E : initials (added tr) = (initials (taken tr) + initials (in_flight p))%nat)
    by (by rewrite Hq, initials_app).
  lia.
Qed.

End properties.

(** ** Witnesses *)

(** A list as ring buffer. *)
#[export] Instance list_ring {N} : RingGrowing N (list N) := {|
  NewRingGrowing _ := [];
  WriteOne n r := r ++ [n];
  ReadOne r := (tail r, head r)
|}.

#[export] Program Instance list_ring_laws {N} : RingGrowingLaws N (list N) := {|
  ring_contents r := r
|}.
Solve All Obligations with done.

Definition wit_listener0 : processorListener pod (list string) (list (notification (O:=pod))) :=
  newProcessListener wit_handler [] 0 0 0 initialBufferSize.

(** Two notifications, the first handed to [run]. *)
Definition wit_trace : list (label (O:=pod)) :=
  [LOutside; LAdd (NAdd (pod_obj "a" 1) true); LInternal; LAdd (NDelete (pod_obj "a" 1)); LInternal;
   LInternal].
Definition wit_listener : processorListener pod (list string) (list (notification (O:=pod))) :=
  default wit_listener0
    (p ← pop_receive (add_begin (NAdd (pod_obj "a" 1) true) (start_goroutines wit_listener0));
     p ← pop_receive (add_begin (NDelete (pod_obj "a" 1)) p);
     pop_send p).

Lemma wit_listener_trace : traces listener_step wit_listener0 wit_trace wit_listener.
Proof.
  change wit_trace with (((((([] ++ [LOutside]) ++ [LAdd (NAdd (pod_obj "a" 1) true)]) ++ [LInternal]) ++
    [LAdd (NDelete (pod_obj "a" 1))]) ++ [LInternal]) ++ [LInternal (O:=pod)]).
  repeat (eapply traces_snoc); [constructor|..].
  - by apply ls_start.
  - by apply ls_add.
  - by apply ls_goroutine, gs_receive.
  - by apply ls_add.
  - by apply ls_goroutine, gs_receive.
  - by apply ls_goroutine, gs_send.
Qed.

Lemma listener_relays_in_order_witness :
  in_flight wit_listener = [NAdd (pod_obj "a" 1) true; NDelete (pod_obj "a" 1)] /\
  added wit_trace = taken wit_trace ++ in_flight wit_listener.
Proof.
  split; [reflexivity|].
  exact (proj1 (listener_relays_in_order _ _ _ _ _ _ _ _ wit_listener_trace)).
Defined.

Lemma listener_delivers_all_witness :
  exists p' : processorListener pod (list string) (list (notification (O:=pod))),
    in_flight p' = [] /\ handler_state p' = ["delete"; "add"].
Proof.
  destruct (proj2 (proj2 (listener_delivers_all _ _ _ _ _ _ _ _ wit_listener_trace eq_refl eq_refl)))
    as (tr' & p' & _ & _ & _ & He & Hs).
  exists p'. split; [exact He|exact Hs].
Defined.

Lemma listener_HasSynced_exact_witness : listener_HasSynced true wit_listener = false.
Proof.
  destruct (listener_HasSynced true wit_listener) eqn:E; [|reflexivity].
  apply (listener_HasSynced_exact _ _ _ _ _ _ _ _ true wit_listener_trace) in E.
  - destruct E as (_ & E & _). by apply Forall_cons_1 in E as [E _].
  - by vm_compute.
Defined.
