(* ===== verification/SharedInformer.v ===== *)
(** * Shared informers: tools/cache/shared_informer.go.

    A shared informer is the informer of [Controller] with a [sharedProcessor] as its
    handler, which distributes each notification to the listeners registered
    ([ProcessorListener]).  The queue, the locks, the goroutines of the listeners
    and the calls of clients run concurrently: [shared_step] is one step of any of
    them. *)

From S2P Require Import Prelude Objects ThreadSafeStore Store DeltaFIFO Controller ProcessorListener.

Section shared.
Context {O S Y R : Type} `{MetaAccessor O} `{StoreI (value O) S}
  `{RingGrowing (notification (O:=O)) R}.
Local Abbreviation note := (notification (O:=O)).

(** ** sharedProcessor

    [heap] holds every listener made, by its address; [listeners] is the map of the
    registered ones (nil and empty are the same to the code) with whether each is
    syncing.  [wg.Start] on a listener's goroutines is [start_goroutines]. *)

Record sharedProcessor : Type := mkProcessor {
  listenersStarted : bool;
  heap : gmap nat (processorListener O Y R);
  listeners : gmap nat bool
}.

(** [for listener := range p.listeners], calling a method of each. *)
Definition for_listeners (f : processorListener O Y R -> processorListener O Y R)
    (ids : list nat) (h : gmap nat (processorListener O Y R)) : gmap nat (processorListener O Y R) :=
  fold_left (fun h l => alter f l h) ids h.

Definition addListener (listener : nat) (p : sharedProcessor) : sharedProcessor :=
  mkProcessor (listenersStarted p)
    (if listenersStarted p then alter start_goroutines listener (heap p) else heap p)
    (<[listener := true]> (listeners p)).

Definition getListener (registration : nat) (p : sharedProcessor)
    : option (processorListener O Y R) :=
  match listeners p !! registration with
  | Some _ => heap p !! registration
  | None => None
  end.

Definition removeListener (handle : nat) (p : sharedProcessor) : sharedProcessor :=
  match listeners p !! handle with
  | None => p
  | Some _ =>
      mkProcessor (listenersStarted p)
        (if listenersStarted p then alter close_addCh handle (heap p) else heap p)
        (delete handle (listeners p))
  end.

(** The listeners [distribute] adds the notification to, in the order it does. *)
Definition distribute `{MapRange} (sync : bool) (p : sharedProcessor) : list nat :=
  omap (fun '(listener, isSyncing) =>
    if negb sync then Some listener else if (isSyncing : bool) then Some listener else None)
    (range (listeners p)).

(** [run] up to where it waits for the stop channel, and from there on. *)
Definition processor_run_start `{MapRange} (p : sharedProcessor) : sharedProcessor :=
  mkProcessor true (for_listeners start_goroutines (range (listeners p)).*1 (heap p)) (listeners p).

Definition processor_run_stop `{MapRange} (p : sharedProcessor) : sharedProcessor :=
  mkProcessor false (for_listeners close_addCh (range (listeners p)).*1 (heap p)) ∅.

(** The body of the loop of [sharedProcessor.shouldResync]. *)
Definition shouldResync_body (now : Z) (listener : nat) (acc : sharedProcessor * bool)
    : sharedProcessor * bool :=
  let '(p, resyncNeeded) := acc in
  match heap p !! listener with
  | None => (p, resyncNeeded)
  | Some lis =>
      let sr := shouldResync now lis in
      let p := mkProcessor (listenersStarted p) (heap p) (<[listener := sr]> (listeners p)) in
      if sr then
        (mkProcessor (listenersStarted p) (alter (determineNextResync now) listener (heap p))
           (listeners p), true)
      else (p, resyncNeeded)
  end.

Definition processor_shouldResync `{MapRange} (now : Z) (p : sharedProcessor)
    : sharedProcessor * bool :=
  fold_left (fun acc listener => shouldResync_body now listener acc)
    (range (listeners p)).*1 (p, false).

Definition determineResyncPeriod (desired check : Z) : Z :=
  if desired =? 0 then desired
  else if check =? 0 then 0
  else if desired <? check then check
  else desired.

Definition resyncCheckPeriodChanged `{MapRange} (resyncCheckPeriod : Z) (p : sharedProcessor)
    : sharedProcessor :=
  mkProcessor (listenersStarted p)
    (for_listeners
       (fun listener =>
          setResyncPeriod (determineResyncPeriod (requestedResyncPeriod listener) resyncCheckPeriod)
            listener)
       (range (listeners p)).*1 (heap p))
    (listeners p).

(** ** sharedIndexInformer

    The queue and the indexer are an [informer], whose handler [shared_handler] is
    [OnAdd], [OnUpdate] and [OnDelete] of the shared informer: it keeps the
    notifications it was called with, and whether each is a sync, in order.  They
    are distributed one after the other by the goroutine that processes the deltas. *)

Record sharedIndexInformer : Type := mkShared {
  s_inf : @informer O S (list (note * bool));
  processor : sharedProcessor;
  resyncCheckPeriod : Z;
  defaultEventHandlerResyncPeriod : Z;
  started : bool;
  stopped : bool
}.

(** Does [OnUpdate] treat the update as a sync? *)
Definition isSync (old new : iface (value O)) : bool :=
  match Accessor new with
  | Ok accessor =>
      match Accessor old with
      | Ok oldAccessor =>
          bool_decide (GetResourceVersion accessor = GetResourceVersion oldAccessor)
      | Err _ => false
      end
  | Err _ => false
  end.

Definition shared_handler : ResourceEventHandler (value O) (list (note * bool)) := {|
  OnAdd obj isInInitialList calls := calls ++ [(NAdd obj isInInitialList, false)];
  OnUpdate old new calls := calls ++ [(NUpdate old new, isSync old new)];
  OnDelete old calls := calls ++ [(NDelete old, false)]
|}.

Definition HandleDeltas (obj : iface (value O)) (isInInitialList : bool)
    (w : option (S * list (note * bool)))
    : option (S * list (note * bool)) * option (error (value O)) :=
  match obj with
  | Some (VDeltas deltas) =>
      match w with
      | None => (None, None)
      | Some (indexer, calls) =>
          match processDeltas shared_handler indexer deltas isInInitialList calls with
          | None => (None, None)
          | Some (indexer, calls, err) => (Some (indexer, calls), err)
          end
      end
  | _ => (w, Some (Errorf "object given as Process argument is not Deltas" []))
  end.

(** One iteration of the process loop of the informer's controller. *)
Definition shared_turn (cfg : DeltaFIFOConfig O) (i : @informer O S (list (note * bool)))
    : @informer O S (list (note * bool)) :=
  let '(f, w, _) := processLoop_iteration cfg false
    (fun deltas => HandleDeltas (Some (VDeltas deltas))) (fifo i) (world i) in
  mkInformer f w.

Definition NewSharedIndexInformer (indexer : S) (ResyncPeriod : Z) : sharedIndexInformer :=
  mkShared (newInformer indexer []) (mkProcessor false ∅ ∅) ResyncPeriod ResyncPeriod false false.

Definition with_informer (i : @informer O S (list (note * bool))) (s : sharedIndexInformer) : sharedIndexInformer :=
  mkShared i (processor s) (resyncCheckPeriod s) (defaultEventHandlerResyncPeriod s)
    (started s) (stopped s).

Definition with_processor (p : sharedProcessor) (s : sharedIndexInformer) : sharedIndexInformer :=
  mkShared (s_inf s) p (resyncCheckPeriod s) (defaultEventHandlerResyncPeriod s)
    (started s) (stopped s).

Definition with_resyncCheckPeriod (period : Z) (s : sharedIndexInformer) : sharedIndexInformer :=
  mkShared (s_inf s) (processor s) period (defaultEventHandlerResyncPeriod s)
    (started s) (stopped s).

Definition minimumResyncPeriod : Z := 1 * Second.

(** The lines of [AddEventHandlerWithResyncPeriod] that settle the resync period. *)
Definition settle_resync `{MapRange} (period : Z) (s : sharedIndexInformer)
    : sharedIndexInformer * Z :=
  if 0 <? period then
    let period := if period <? minimumResyncPeriod then minimumResyncPeriod else period in
    if period <? resyncCheckPeriod s then
      if started s then (s, resyncCheckPeriod s)
      else
        let s := with_resyncCheckPeriod period s in
        (with_processor (resyncCheckPeriodChanged period (processor s)) s, period)
    else (s, period)
  else (s, period).

(** A listener at a new address. *)
Definition new_listener (lis : processorListener O Y R) (p : sharedProcessor)
    : sharedProcessor * nat :=
  let l := fresh (dom (heap p)) in
  (mkProcessor (listenersStarted p) (<[l := lis]> (heap p)) (listeners p), l).

(** With the handle, or the error, come the notifications left to add. *)
Definition AddEventHandlerWithResyncPeriod `{MapRange} (now : Z)
    (h : ResourceEventHandler (value O) Y) (y : Y) (period : Z) (s : sharedIndexInformer)
    : sharedIndexInformer * result (value O) nat * list (nat * note) :=
  if stopped s then
    (s, Err (Errorf "handler %v was not added to shared informer because it has stopped already" []), [])
  else
    let '(s, period) := settle_resync period s in
    let listener := newProcessListener h y period
      (determineResyncPeriod period (resyncCheckPeriod s)) now initialBufferSize in
    let '(p, l) := new_listener listener (processor s) in
    let s := with_processor (addListener l p) s in
    if negb (started s) then (s, Ok l, [])
    else
      (s, Ok l,
       match world (s_inf s) with
       | Some (indexer, _) => (fun item => (l, NAdd item true)) <$> st_List indexer
       | None => []
       end).

Definition AddEventHandler `{MapRange} (now : Z) (h : ResourceEventHandler (value O) Y) (y : Y)
    (s : sharedIndexInformer) : sharedIndexInformer * result (value O) nat * list (nat * note) :=
  AddEventHandlerWithResyncPeriod now h y (defaultEventHandlerResyncPeriod s) s.

Definition RemoveEventHandler (handle : nat) (s : sharedIndexInformer) : sharedIndexInformer :=
  with_processor (removeListener handle (processor s)) s.

Definition HasStarted (s : sharedIndexInformer) : bool := started s.
Definition IsStopped (s : sharedIndexInformer) : bool := stopped s.

(** The controller is nil until [Run]. *)
Definition shared_HasSynced (s : sharedIndexInformer) : bool :=
  if started s then HasSynced (fifo (s_inf s)) else false.

(** [HasSynced] of the handle [l]. *)
Definition handle_HasSynced (l : nat) (s : sharedIndexInformer) : option bool :=
  listener_HasSynced (shared_HasSynced s) <$> heap (processor s) !! l.

(** The first part of [Run]. *)
Definition Run_start (s : sharedIndexInformer) : sharedIndexInformer :=
  if started s then s
  else mkShared (s_inf s) (processor s) (resyncCheckPeriod s) (defaultEventHandlerResyncPeriod s)
         true (stopped s).

(** Its deferred function that runs once the controller has returned. *)
Definition Run_stopped (s : sharedIndexInformer) : sharedIndexInformer :=
  mkShared (s_inf s) (processor s) (resyncCheckPeriod s) (defaultEventHandlerResyncPeriod s)
    (started s) true.

(** ** The system

    [lock] says who holds [blockDeltas]: the goroutine processing deltas, which
    then also holds the queue's lock, or a client adding a handler, which then
    holds [startedLock].  [distributed] counts the calls of [shared_handler] worked
    off, [sends] the adds the holder has left of the current one. *)

Inductive holder : Type := Free | Handling | Joining.
Inductive run_pc : Type := RunNotStarted | RunStarted | RunEnded.

Record shared_sys : Type := mkSys {
  inf : sharedIndexInformer;
  lock : holder;
  distributed : nat;
  sends : list (nat * note);
  run_at : run_pc
}.

Definition calls_of (s : shared_sys) : list (note * bool) :=
  match world (s_inf (inf s)) with Some (_, calls) => calls | None => [] end.

(** No [add] is blocked on its channel. *)
Definition no_add_blocked (s : shared_sys) : Prop :=
  forall l lis, heap (processor (inf s)) !! l = Some lis -> addCh lis = None.

Definition with_heap (h : gmap nat (processorListener O Y R)) (s : sharedIndexInformer)
    : sharedIndexInformer :=
  with_processor (mkProcessor (listenersStarted (processor s)) h (listeners (processor s))) s.

Section steps.
Context (cfg : DeltaFIFOConfig O).

Inductive shared_step : option (event (O:=O)) -> shared_sys -> shared_sys -> Prop :=
(** The reflector calls the queue, whose lock is free. *)
| sh_reflector e i k d q pc i' :
    e <> EvPop -> k <> Handling -> started i = true -> stopped i = false ->
    informer_step cfg shared_handler e (s_inf i) i' ->
    shared_step (Some e) (mkSys i k d q pc) (mkSys (with_informer i' i) k d q pc)
(** The controller pops and [HandleDeltas] processes the deltas. *)
| sh_HandleDeltas i d pc :
    started i = true -> stopped i = false ->
    shared_step (Some EvPop) (mkSys i Free d [] pc)
      (mkSys (with_informer (shared_turn cfg (s_inf i)) i) Handling d [] pc)
(** It distributes the next notification. *)
| sh_distribute (Rg : MapRange) i d pc n sync :
    no_add_blocked (mkSys i Handling d [] pc) ->
    calls_of (mkSys i Handling d [] pc) !! d = Some (n, sync) ->
    shared_step None (mkSys i Handling d [] pc)
      (mkSys i Handling (Datatypes.S d) ((fun l => (l, n)) <$> distribute sync (processor i)) pc)
(** [listener.add] of the next listener. *)
| sh_add i k d l n q pc lis :
    no_add_blocked (mkSys i k d ((l, n) :: q) pc) -> heap (processor i) !! l = Some lis ->
    shared_step None (mkSys i k d ((l, n) :: q) pc)
      (mkSys (with_heap (<[l := add_begin n lis]> (heap (processor i))) i) k d q pc)
(** The holder is done and unlocks. *)
| sh_unlock i k d pc :
    no_add_blocked (mkSys i k d [] pc) ->
    (k = Handling -> d = length (calls_of (mkSys i k d [] pc))) ->
    shared_step None (mkSys i k d [] pc) (mkSys i Free d [] pc)
(** A goroutine of a listener moves; a handler that panics ends the process. *)
| sh_goroutine i k d q pc l lis a lis' :
    heap (processor i) !! l = Some lis -> goroutine_step lis a lis' -> panicked [a] = [] ->
    shared_step None (mkSys i k d q pc) (mkSys (with_heap (<[l := lis']> (heap (processor i))) i) k d q pc)
(** A client adds a handler: it takes [blockDeltas] if the informer runs. *)
| sh_AddEventHandler (Rg : MapRange) i d pc now h y period i' l q' :
    AddEventHandlerWithResyncPeriod now h y period i = (i', Ok l, q') ->
    shared_step None (mkSys i Free d [] pc) (mkSys i' (if started i then Joining else Free) d q' pc)
| sh_RemoveEventHandler i d pc l :
    shared_step None (mkSys i Free d [] pc) (mkSys (RemoveEventHandler l i) Free d [] pc)
(** The reflector's resync timer; [distribute] holds the lock it needs. *)
| sh_shouldResync (Rg : MapRange) i k d q pc now :
    (k = Handling -> q = [] /\ no_add_blocked (mkSys i k d q pc)) ->
    shared_step None (mkSys i k d q pc)
      (mkSys (with_processor (processor_shouldResync now (processor i)).1 i) k d q pc)
| sh_Run i d pc : shared_step None (mkSys i Free d [] pc) (mkSys (Run_start i) Free d [] pc)
| sh_processor_run (Rg : MapRange) i k d q :
    started i = true ->
    shared_step None (mkSys i k d q RunNotStarted)
      (mkSys (with_processor (processor_run_start (processor i)) i) k d q RunStarted)
| sh_stop i d pc :
    started i = true -> shared_step None (mkSys i Free d [] pc) (mkSys (Run_stopped i) Free d [] pc)
| sh_processor_stop (Rg : MapRange) i d :
    stopped i = true ->
    shared_step None (mkSys i Free d [] RunStarted)
      (mkSys (with_processor (processor_run_stop (processor i)) i) Free d [] RunEnded).

Inductive shared_steps : list (event (O:=O)) -> shared_sys -> shared_sys -> Prop :=
| shared_nil s : shared_steps [] s s
| shared_snoc es e s1 s2 s3 :
    shared_steps es s1 s2 -> shared_step e s2 s3 -> shared_steps (es ++ option_list e) s1 s3.

End steps.

Definition shared_init (indexer : S) (ResyncPeriod : Z) : shared_sys :=
  mkSys (NewSharedIndexInformer indexer ResyncPeriod) Free 0 [] RunNotStarted.

(** ** Specification *)

(** The same object, or two objects of one resource version. *)
Definition same_version (o o' : iface (value O)) : Prop :=
  o = o' \/ isSync o o' = true.

(** What a client that has been told a map [M] learns from a notification.  Unlike
    in [notifies], the old object of an update is only of the version the client
    has seen, since a sync may have been kept from it. *)
Inductive learns (key : KeyFunc (value O))
    : gmap string (iface (value O)) -> note -> gmap string (iface (value O)) -> Prop :=
| learns_add M k obj i :
    key obj = Ok k -> M !! k = None -> learns key M (NAdd obj i) (<[k := obj]> M)
| learns_update M k o old new :
    key new = Ok k -> M !! k = Some o -> same_version o old -> learns key M (NUpdate old new) (<[k := new]> M)
| learns_delete M k old :
    key old = Ok k -> is_Some (M !! k) -> learns key M (NDelete old) (delete k M).

Inductive follows (key : KeyFunc (value O))
    : gmap string (iface (value O)) -> list note -> gmap string (iface (value O)) -> Prop :=
| follows_nil M : follows key M [] M
| follows_snoc M1 M2 M3 n log :
    follows key M1 log M2 -> learns key M2 n M3 -> follows key M1 (log ++ [n]) M3.

(** The same keys, each with an object of the same version. *)
Definition agrees (M M' : gmap string (iface (value O))) : Prop :=
  forall k, option_Forall2 same_version (M !! k) (M' !! k).

(** The notifications to add to one listener. *)
Definition sends_to (l : nat) (q : list (nat * note)) : list note :=
  omap (fun '(l', n) => if decide (l' = l) then Some n else None) q.

End shared.
Arguments sharedProcessor O Y R : clear implicits.
Arguments sharedIndexInformer O S Y R : clear implicits.
Arguments shared_sys O S Y R : clear implicits.

(** ** Lemmas *)

(** *** The processor's loops *)

Section loops.
Context {O Y R : Type} `{RingGrowing (notification (O:=O)) R} `{MapRange}.
Implicit Types (p : sharedProcessor O Y R) (h : gmap nat (processorListener O Y R)).

Lemma lookup_for_listeners f ids h l :
  NoDup ids ->
  for_listeners f ids h !! l = if decide (l ∈ ids) then f <$> h !! l else h !! l.
Proof.
  unfold for_listeners. revert h. induction ids as [|l' ids IH]; intros h Hnd; [done|].
  apply NoDup_cons in Hnd as [Hl' Hnd]. cbn. rewrite IH by done.
  destruct (decide (l = l')) as [->|Hne].
  - rewrite decide_False by done. rewrite decide_True by left. apply lookup_alter_eq.
  - rewrite lookup_alter_ne by done. destruct (decide (l ∈ ids)) as [Hi|Hi].
    + by rewrite decide_True by (by right).
    + by rewrite decide_False by (by rewrite not_elem_of_cons).
Qed.

Lemma lookup_for_all f p l :
  for_listeners f (range (listeners p)).*1 (heap p) !! l =
    match listeners p !! l with Some _ => f <$> heap p !! l | None => heap p !! l end.
Proof.
  rewrite lookup_for_listeners by apply NoDup_fst_range.
  destruct (listeners p !! l) as [b|] eqn:E.
  - by rewrite decide_True by (apply elem_of_range_keys; eauto).
  - rewrite decide_False; [done|]. intros [? ?]%elem_of_range_keys. congruence.
Qed.

Lemma elem_of_distribute sync p l :
  l ∈ distribute sync p <-> exists b, listeners p !! l = Some b /\ (sync = false \/ b = true).
Proof.
  unfold distribute. rewrite list_elem_of_omap. split.
  - intros ([l' b] & Hin & E). apply elem_of_range in Hin. exists b.
    destruct sync, b; cbn in E; simplify_eq; eauto.
  - intros (b & Hl & Hb). exists (l, b). split; [by apply elem_of_range|].
    destruct sync, b; cbn; naive_solver.
Qed.

Lemma NoDup_distribute sync p : NoDup (distribute sync p).
Proof.
  unfold distribute. pose proof (NoDup_fst_range (listeners p)) as Hnd. revert Hnd.
  generalize (range (listeners p)) as l. induction l as [|[l' b] l IH]; [constructor|].
  rewrite fmap_cons. cbn [fst]. intros [Hl' Hnd]%NoDup_cons.
  assert (Hin : l' ∉ omap (fun '(listener, isSyncing) =>
    if negb sync then Some listener else if (isSyncing : bool) then Some listener else None) l).
  { rewrite list_elem_of_omap. intros ([l2 b2] & Hin & E). apply Hl', list_elem_of_fmap.
    exists (l2, b2). split; [|done]. destruct sync, b2; cbn in E; by simplify_eq. }
  cbn. destruct (negb sync), b; cbn; auto using NoDup_cons_2.
Qed.

(** What [shouldResync] does to each listener; it returns whether one is due. *)
Definition is_due (now : Z) p (l : nat) : bool :=
  match heap p !! l with Some lis => shouldResync now lis | None => false end.

Lemma shouldResync_loop now ids p b :
  NoDup ids -> (forall l, l ∈ ids -> is_Some (heap p !! l)) ->
  let p' := (fold_left (fun acc l => shouldResync_body now l acc) ids (p, b)).1 in
  listenersStarted p' = listenersStarted p /\
  (forall l, heap p' !! l = if decide (l ∈ ids) then
     (if is_due now p l then determineNextResync now <$> heap p !! l else heap p !! l)
     else heap p !! l) /\
  (forall l, listeners p' !! l =
     if decide (l ∈ ids) then Some (is_due now p l) else listeners p !! l) /\
  (fold_left (fun acc l => shouldResync_body now l acc) ids (p, b)).2 =
    (b || existsb (is_due now p) ids).
Proof.
  revert p b. induction ids as [|l0 ids IH]; intros p b Hnd Hin.
  { cbn. rewrite orb_false_r. done. }
  apply NoDup_cons in Hnd as [Hl0 Hnd]. destruct (Hin l0 ltac:(left)) as [lis Hlis].
  cbn [fold_left]. set (acc1 := shouldResync_body now l0 (p, b)).
  assert (E1 : acc1 = (mkProcessor (listenersStarted p)
    (if is_due now p l0 then alter (determineNextResync now) l0 (heap p) else heap p)
    (<[l0 := is_due now p l0]> (listeners p)), b || is_due now p l0)).
  { unfold acc1, shouldResync_body, is_due. rewrite Hlis.
    destruct (shouldResync now lis); cbn; by rewrite ?orb_true_r, ?orb_false_r. }
  rewrite E1. set (p1 := mkProcessor _ _ _).
  assert (Hoth : forall l, l <> l0 -> heap p1 !! l = heap p !! l).
  { intros l Hl. unfold p1. cbn. destruct (is_due now p l0); [by rewrite lookup_alter_ne|done]. }
  assert (Hdue : forall l, l <> l0 -> is_due now p1 l = is_due now p l).
  { intros l Hl. unfold is_due. by rewrite Hoth. }
  destruct (IH p1 (b || is_due now p l0)) as (Hs & Hh & Hl & Hb); [done| |].
  { intros l Hl. rewrite Hoth; [apply Hin; by right|]. by intros ->. }
  rewrite Hs, Hb. split; [done|]. split_and!.
  - intros l. rewrite Hh. destruct (decide (l = l0)) as [->|Hne].
    + rewrite decide_False by done. rewrite (decide_True (P := l0 ∈ l0 :: ids)) by left.
      unfold p1. cbn. destruct (is_due now p l0); [apply lookup_alter_eq|done].
    + rewrite Hoth, Hdue by done. destruct (decide (l ∈ ids)) as [Hi|Hi].
      * by rewrite decide_True by (by right).
      * by rewrite decide_False by (by rewrite not_elem_of_cons).
  - intros l. rewrite Hl. destruct (decide (l = l0)) as [->|Hne].
    + rewrite decide_False by done. rewrite (decide_True (P := l0 ∈ l0 :: ids)) by left.
      apply lookup_insert_eq.
    + rewrite Hdue by done. destruct (decide (l ∈ ids)) as [Hi|Hi].
      * by rewrite decide_True by (by right).
      * rewrite decide_False by (by rewrite not_elem_of_cons). by apply lookup_insert_ne.
  - cbn. rewrite <- orb_assoc. f_equal. f_equal.
    assert (Hx : forall ids', l0 ∉ ids' -> existsb (is_due now p1) ids' = existsb (is_due now p) ids').
    { induction ids' as [|l ids' IH']; [done|]. intros [Hl1 Hl2]%not_elem_of_cons.
      cbn. rewrite Hdue, IH' by done. done. }
    by apply Hx.
Qed.

End loops.

(** *** What clients learn *)

Section relations.
Context {O : Type} `{MetaAccessor O}.
Context (key : KeyFunc (value O)).
Implicit Types (M : gmap string (iface (value O))) (n : notification (O:=O)).

Lemma isSync_sym (o o' : iface (value O)) : isSync o o' = true -> isSync o' o = true.
Proof.
  unfold isSync. destruct (Accessor o') as [a|]; [|done]. destruct (Accessor o) as [b|]; [|done].
  rewrite !bool_decide_eq_true. done.
Qed.

Lemma isSync_trans (o1 o2 o3 : iface (value O)) :
  isSync o1 o2 = true -> isSync o2 o3 = true -> isSync o1 o3 = true.
Proof.
  unfold isSync. destruct (Accessor o1) as [a|], (Accessor o2) as [b|], (Accessor o3) as [c|]; try done.
  rewrite !bool_decide_eq_true. congruence.
Qed.

#[global] Instance same_version_equivalence : Equivalence (same_version (O:=O)).
Proof.
  split.
  - by left.
  - intros o o' [->|?]; [by left|right; by apply isSync_sym].
  - intros o1 o2 o3 [->|?] [<-|?]; unfold same_version; eauto using isSync_trans.
Qed.

Lemma agrees_refl M : agrees M M.
Proof. intros k. destruct (M !! k); constructor. reflexivity. Qed.

Lemma agrees_insert M M' k o o' :
  agrees M M' -> same_version o o' -> agrees (<[k := o]> M) (<[k := o']> M').
Proof.
  intros Ha Ho k'. destruct (decide (k = k')) as [<-|Hk].
  - rewrite !lookup_insert_eq. by constructor.
  - by rewrite !lookup_insert_ne.
Qed.

Lemma agrees_delete M M' k : agrees M M' -> agrees (delete k M) (delete k M').
Proof.
  intros Ha k'. destruct (decide (k = k')) as [<-|Hk].
  - rewrite !lookup_delete_eq. constructor.
  - by rewrite !lookup_delete_ne.
Qed.

Lemma agrees_lookup M M' k o' :
  agrees M M' -> M' !! k = Some o' -> exists o, M !! k = Some o /\ same_version o o'.
Proof. intros Ha E. specialize (Ha k). rewrite E in Ha. inversion Ha; subst. eauto. Qed.

Lemma agrees_none M M' k : agrees M M' -> M' !! k = None -> M !! k = None.
Proof. intros Ha E. specialize (Ha k). rewrite E in Ha. by inversion Ha. Qed.

(** A client told the notification keeps up. *)
Lemma learns_agrees M Mt n Mt' :
  agrees M Mt -> notifies key Mt n Mt' -> exists M', learns key M n M' /\ agrees M' Mt'.
Proof.
  intros Ha Hn. destruct Hn as [Mt k obj i Hk He|Mt k old new Hk Ho|Mt k old Hk [o Ho]].
  - exists (<[k := obj]> M). split; [constructor; [done|by eapply agrees_none]|].
    by apply agrees_insert; [|reflexivity].
  - destruct (agrees_lookup _ _ _ _ Ha Ho) as (o & Eo & Hs). exists (<[k := new]> M).
    split; [by eapply learns_update|by apply agrees_insert; [|reflexivity]].
  - destruct (agrees_lookup _ _ _ _ Ha Ho) as (o' & Eo & Hs). exists (delete k M).
    split; [constructor; eauto|by apply agrees_delete].
Qed.

(** A client spared a sync keeps up as well. *)
Lemma skip_agrees M Mt old new Mt' :
  agrees M Mt -> notifies key Mt (NUpdate old new) Mt' -> isSync old new = true -> agrees M Mt'.
Proof.
  intros Ha Hn Hs. inversion Hn as [|? k ? ? Hk Ho|]; subst. intros k'.
  destruct (decide (k = k')) as [<-|Hne]; [|by rewrite lookup_insert_ne].
  destruct (agrees_lookup _ _ _ _ Ha Ho) as (o & Eo & Hv). rewrite Eo, lookup_insert_eq.
  constructor. transitivity old; [done|]. by right.
Qed.

Lemma notifies_functional M n M1 M2 : notifies key M n M1 -> notifies key M n M2 -> M1 = M2.
Proof. intros [] H2; inversion H2; subst; congruence. Qed.

Lemma replays_app_inv M l1 l2 M' :
  replays key M (l1 ++ l2) M' -> exists M1, replays key M l1 M1 /\ replays key M1 l2 M'.
Proof.
  revert M. induction l1 as [|n l1 IH]; intros M Hr; [exists M; split; [constructor|done]|].
  inversion Hr; subst. destruct (IH _ ltac:(done)) as (M1 & ? & ?). exists M1.
  split; [by econstructor|done].
Qed.

Lemma replays_functional M l M1 M2 : replays key M l M1 -> replays key M l M2 -> M1 = M2.
Proof.
  revert M. induction l as [|n l IH]; intros M H1 H2; inversion H1; inversion H2; subst; [done|].
  match goal with Ha : notifies _ M n ?A, Hb : notifies _ M n ?B |- _ =>
    pose proof (notifies_functional _ _ _ _ Ha Hb); subst end. eauto.
Qed.

(** A client that joins is told of every object. *)
Lemma follows_adds (l : list (string * iface (value O))) :
  NoDup l.*1 -> Forall (fun kv => key kv.2 = Ok kv.1) l ->
  follows key ∅ ((fun o => NAdd o true) <$> l.*2) (list_to_map l).
Proof.
  induction l as [|[k o] l IH] using rev_ind; intros Hnd HF; [constructor|].
  rewrite fmap_app in Hnd. apply NoDup_app in Hnd as (Hnd & Hd & _).
  apply Forall_app in HF as [HF Hk]. rewrite Forall_singleton in Hk.
  assert (Hl : k ∉ l.*1) by (intros Hin; apply (Hd k Hin); by left).
  rewrite !fmap_app, list_to_map_snoc by done.
  econstructor; [by apply IH|]. constructor; [done|]. by apply not_elem_of_list_to_map_1.
Qed.

End relations.

(** *** The informer behind a shared informer *)

Section calls.
Context {O S : Type} `{MetaAccessor O}.

(** A call of [shared_handler]. *)
Definition call_of (n : notification (O:=O)) : notification (O:=O) * bool :=
  (n, match n with NUpdate old new => isSync old new | _ => false end).

Lemma fold_shared_handler log calls :
  fold_left (deliver shared_handler) log calls = calls ++ (call_of <$> log).
Proof.
  revert calls. induction log as [|n log IH]; intros calls; cbn; [by rewrite app_nil_r|].
  rewrite IH. by destruct n; cbn; rewrite <- app_assoc.
Qed.

Lemma fst_call_of log : (call_of <$> log).*1 = log.
Proof. rewrite <- list_fmap_compose. apply list_fmap_id. Qed.

End calls.

(** *** The system's invariant *)

Section tracking.
Context {O S Y R : Type} `{MetaAccessor O} `{StoreLaws (value O) S}
  `{RingGrowingLaws (notification (O:=O)) R}.
Context (transformer : option (iface (value O) -> result (value O) (iface (value O)))).
Local Abbreviation cfg := (newInformer_fifo transformer).1.
Local Abbreviation key := DeletionHandlingMetaNamespaceKeyFunc.
Context (st0 : S) (period0 : Z).
Context (Hmade : informer_made st0) (Hacc : Accessor_refuses_deltas)
  (Htr : transformer_ok cfg (st_key st0) (st_accepts st0)).
Implicit Types (lis : processorListener O Y R) (p : sharedProcessor O Y R)
  (i : sharedIndexInformer O S Y R) (s : shared_sys O S Y R).

(** The informer at some point: its store and the calls of its handler. *)
Record reached (c : informer (O:=O) (S:=S)) (st : S) (log : list (notification (O:=O))) : Prop := {
  rc_world : world c = Some (st, call_of <$> log);
  rc_replays : replays key ∅ log (st_items st);
  rc_keyed : forall k o, st_items st !! k = Some o -> key o = Ok k
}.

Lemma informer_at_reached' M c st log :
  informer_at cfg shared_handler st0 [] M c st log -> reached c st log.
Proof.
  destruct Hmade as (_ & He & Hk). intros [Hw Hi _ Hr]. rewrite He, Hk in Hr.
  constructor; [|done|].
  - by rewrite Hw, fold_shared_handler.
  - intros k o E. destruct (inv_store _ _ _ _ Hi k o E) as (Ek & _). by rewrite <- Hk.
Qed.

Lemma reached_steps es c :
  Forall event_ok es -> informer_steps cfg shared_handler es (newInformer st0 []) c ->
  exists st log, informer_at cfg shared_handler st0 [] (fold_left (ideal cfg) es ∅) c st log /\
    reached c st log.
Proof.
  intros Hes Hs. destruct (informer_at_reached transformer shared_handler st0 [] es c Hmade Hacc Htr Hes Hs)
    as (st & log & Hat).
  exists st, log. split; [done|]. by eapply informer_at_reached'.
Qed.

(** A turn of the process loop makes more calls. *)
Lemma turn_calls M c st log :
  informer_at cfg shared_handler st0 [] M c st log ->
  exists st' log', world (shared_turn cfg c) = Some (st', call_of <$> (log ++ log')).
Proof.
  intros [Hw Hi _ _]. rewrite fold_shared_handler in Hw. destruct c as [f w].
  cbn in Hw, Hi. subst w.
  assert (Et : forall c, shared_turn cfg c = processLoop_turn cfg (S:=S) shared_handler c) by done.
  rewrite Et. unfold processLoop_turn. cbn [fifo world]. destruct (DeltaFIFO.queue f) as [|id q] eqn:Hq.
  - unfold processLoop_iteration. rewrite Pop_empty by done.
    exists st, []. rewrite app_nil_r. by destruct (closed f).
  - destruct (Pop_view cfg shared_handler st0 st f (call_of <$> log) id q Hi Hq)
      as (f' & st' & log' & -> & _).
    exists st', log'. by rewrite fold_shared_handler, fmap_app.
Qed.

(** *** One listener *)

Definition told_by lis (tr : list (label (O:=O))) : Prop :=
  panicked tr = [] /\ exists h y req per now,
    traces listener_step (newProcessListener h y req per now initialBufferSize) tr lis.

(** A registered listener: what it has been told, with the adds [q] still to come,
    follows the notifications [seen] that have been distributed. *)
Definition tracks (running : bool) (q : list (nat * notification (O:=O)))
    (seen : list (notification (O:=O))) (l : nat) lis : Prop :=
  addCh_closed lis = false /\
  (running = false -> popping lis = false /\ nextCh_closed lis = false) /\
  exists tr M Mt, told_by lis tr /\ follows key ∅ (added tr ++ sends_to l q) M /\
    agrees M Mt /\ replays key ∅ seen Mt.

Lemma sends_to_cons l l' n (q : list (nat * notification (O:=O))) :
  sends_to l ((l', n) :: q) = (if decide (l' = l) then [n] else []) ++ sends_to l q.
Proof. unfold sends_to. cbn. by destruct (decide (l' = l)). Qed.

Lemma sends_to_none l (q : list (nat * notification (O:=O))) :
  (forall n, (l, n) ∉ q) -> sends_to l q = [].
Proof.
  induction q as [|[l' n] q IH]; intros Hq; [done|]. rewrite sends_to_cons, IH.
  - rewrite decide_False; [done|]. intros ->. apply (Hq n). by left.
  - intros n' Hn. apply (Hq n'). by right.
Qed.

Lemma sends_to_same l (ns : list (notification (O:=O))) : sends_to l ((fun n => (l, n)) <$> ns) = ns.
Proof.
  induction ns as [|n ns IH]; [done|]. rewrite fmap_cons, sends_to_cons, IH. by rewrite decide_True.
Qed.

Lemma sends_to_distribute l (ids : list nat) (n : notification (O:=O)) :
  NoDup ids -> sends_to l ((fun l => (l, n)) <$> ids) = if decide (l ∈ ids) then [n] else [].
Proof.
  induction 1 as [|l' ids Hl' _ IH]; [done|]. rewrite fmap_cons, sends_to_cons, IH.
  destruct (decide (l' = l)) as [->|Hne].
  - rewrite decide_False by done. by rewrite decide_True by left.
  - destruct (decide (l ∈ ids)) as [Hi|Hi].
    + by rewrite decide_True by (by right).
    + rewrite decide_False; [done|]. rewrite not_elem_of_cons. naive_solver.
Qed.

Lemma told_by_snoc lis tr a lis' :
  told_by lis tr -> listener_step lis a lis' -> panicked [a] = [] -> told_by lis' (tr ++ [a]).
Proof.
  intros [Hp (h & y & req & per & now & Ht)] Hs Ha. split.
  - unfold panicked in *. by rewrite omap_app, Hp, Ha.
  - exists h, y, req, per, now. by econstructor.
Qed.

Lemma tracks_step running running' q seen l lis a lis' :
  tracks running q seen l lis -> listener_step lis a lis' -> added [a] = [] -> panicked [a] = [] ->
  addCh_closed lis' = false -> (running' = false -> popping lis' = false /\ nextCh_closed lis' = false) ->
  tracks running' q seen l lis'.
Proof.
  intros (_ & _ & tr & M & Mt & Ht & Hf & Hrest) Hs Ha Hp Hc Hr.
  split; [done|]. split; [done|]. exists (tr ++ [a]), M, Mt.
  split; [by eapply told_by_snoc|]. split; [|done].
  unfold added in *. by rewrite omap_app, Ha, app_nil_r.
Qed.

Lemma goroutine_step_keeps lis a lis' :
  goroutine_step lis a lis' ->
  addCh_closed lis' = addCh_closed lis /\ added [a] = [] /\
  (addCh lis = None -> addCh lis' = None) /\
  (addCh_closed lis = false -> popping lis' = popping lis /\ nextCh_closed lis' = nextCh_closed lis).
Proof.
  intros Hs. destruct Hs as [p p' E|p p' E|p p' E|p n p' Hn E|y p n p' Hn E|p p' E].
  - unfold pop_receive in E. by repeat split_match_in E; simplify_eq.
  - unfold pop_returns in E. by repeat split_match_in E; simplify_eq.
  - unfold pop_send in E. by repeat split_match_in E; simplify_eq.
  - unfold run_handles in E. rewrite Hn in E. by simplify_eq.
  - unfold run_panics in E. rewrite Hn in E. by simplify_eq.
  - unfold run_returns in E. repeat split_match_in E; by simplify_eq.
Qed.

(** *** Steps of the system *)

Definition seen_of s : list (notification (O:=O)) := (take (distributed s) (calls_of s)).*1.

Record shared_inv (es : list (event (O:=O))) s : Prop := {
  si_steps : informer_steps cfg shared_handler es (newInformer st0 []) (s_inf (inf s));
  si_lock : lock s <> Handling -> distributed s = length (calls_of s);
  si_le : (distributed s <= length (calls_of s))%nat;
  si_free : lock s = Free -> sends s = [] /\ no_add_blocked s;
  si_sends : forall l n, (l, n) ∈ sends s -> is_Some (listeners (processor (inf s)) !! l);
  si_unstarted : started (inf s) = false -> calls_of s = [];
  si_run : run_at s <> RunStarted -> listenersStarted (processor (inf s)) = false;
  si_tracks : forall l b, listeners (processor (inf s)) !! l = Some b ->
    exists lis, heap (processor (inf s)) !! l = Some lis /\
      tracks (listenersStarted (processor (inf s))) (sends s) (seen_of s) l lis
}.

(** A step of the processor alone. *)
Lemma inv_processor es i k d q pc p' pc' :
  shared_inv es (mkSys i k d q pc) ->
  (k = Free -> forall l lis, heap p' !! l = Some lis -> addCh lis = None) ->
  (forall l n, (l, n) ∈ q -> is_Some (listeners p' !! l)) ->
  (pc' <> RunStarted -> listenersStarted p' = false) ->
  (forall l b lis, listeners p' !! l = Some b -> heap (processor i) !! l = Some lis ->
     is_Some (listeners (processor i) !! l) ->
     tracks (listenersStarted (processor i)) q (seen_of (mkSys i k d q pc)) l lis ->
     exists lis', heap p' !! l = Some lis' /\
       tracks (listenersStarted p') q (seen_of (mkSys i k d q pc)) l lis') ->
  (forall l, is_Some (listeners p' !! l) -> is_Some (listeners (processor i) !! l)) ->
  shared_inv es (mkSys (with_processor p' i) k d q pc').
Proof.
  intros [Hs Hl Hle Hf Hq Hu Hr Ht] Hf' Hq' Hr' Ht' Hsub. constructor; try done.
  - intros Hk. cbn in Hk. destruct (Hf Hk) as [? _]. split; [done|]. exact (Hf' Hk).
  - intros l b Hlb. cbn in Hlb. destruct (Hsub l ltac:(eauto)) as [b0 Hb0].
    destruct (Ht l b0 Hb0) as (lis & Elis & Htr'). cbn in *. eapply Ht'; eauto.
Qed.

Lemma inv_reflector es e i k d q pc c' :
  e <> EvPop -> k <> Handling ->
  informer_step cfg shared_handler e (s_inf i) c' ->
  shared_inv es (mkSys i k d q pc) -> shared_inv (es ++ [e]) (mkSys (with_informer c' i) k d q pc).
Proof.
  intros He Hk Hs [Hst Hl Hle Hf Hq Hu Hr Ht].
  assert (Hw : world c' = world (s_inf i)) by (inversion Hs; subst; done).
  assert (Hc : calls_of (mkSys (with_informer c' i) k d q pc) = calls_of (mkSys i k d q pc)).
  { unfold calls_of. cbn. by rewrite Hw. }
  constructor; unfold seen_of; rewrite ?Hc; cbn [distributed]; try done. by econstructor.
Qed.

Lemma inv_HandleDeltas es i d pc :
  Forall event_ok es -> started i = true -> shared_inv es (mkSys i Free d [] pc) ->
  shared_inv (es ++ [EvPop]) (mkSys (with_informer (shared_turn cfg (s_inf i)) i) Handling d [] pc).
Proof.
  intros Hes Hstart [Hst Hl Hle Hf Hq Hu Hr Ht]. cbn in Hst.
  destruct (reached_steps es (s_inf i) Hes Hst) as (st & log & Hat & [Hw _ _]).
  destruct (turn_calls _ _ _ _ Hat) as (st' & log' & Hw').
  assert (Ec : calls_of (mkSys i Free d [] pc) = call_of <$> log) by (unfold calls_of; cbn; by rewrite Hw).
  assert (Ec' : calls_of (mkSys (with_informer (shared_turn cfg (s_inf i)) i) Handling d [] pc) =
    (call_of <$> log) ++ (call_of <$> log')) by (unfold calls_of; cbn [inf s_inf with_informer]; rewrite Hw'; apply fmap_app).
  specialize (Hl ltac:(done)). cbn [distributed] in Hl. rewrite Ec in Hl.
  constructor; unfold seen_of in *; rewrite ?Ec'; cbn [distributed] in *; try done.
  - eapply inf_snoc; [done|]. apply inf_Pop.
  - rewrite length_app. lia.
  - cbn. congruence.
  - intros l b Hb. destruct (Ht l b Hb) as (lis & E & Htl). exists lis. split; [done|].
    rewrite Ec in Htl. by rewrite take_app_le by lia.
Qed.

Lemma inv_distribute es (Rg : MapRange) i d pc n sync :
  Forall event_ok es -> calls_of (mkSys i Handling d [] pc) !! d = Some (n, sync) ->
  shared_inv es (mkSys i Handling d [] pc) ->
  shared_inv es (mkSys i Handling (Datatypes.S d)
    ((fun l => (l, n)) <$> distribute sync (processor i)) pc).
Proof.
  intros Hes Hc [Hst Hl Hle Hf Hq Hu Hr Ht]. cbn in Hst.
  destruct (reached_steps es (s_inf i) Hes Hst) as (st & log & _ & [Hw Hrep _]).
  assert (Ec : calls_of (mkSys i Handling d [] pc) = call_of <$> log) by (unfold calls_of; cbn; by rewrite Hw).
  rewrite Ec in Hc. apply list_lookup_fmap_Some in Hc as (n' & [= -> Hsync] & Hn').
  constructor; try done.
  - cbn. change (calls_of _) with (calls_of (mkSys i Handling d [] pc)). rewrite Ec, length_fmap.
    by apply lookup_lt_Some in Hn'.
  - intros l m (l' & [= -> ->] & Hin)%list_elem_of_fmap. apply elem_of_distribute in Hin as (b & ? & _).
    by exists b.
  - intros l b Hb. cbn in Hb. destruct (Ht l b Hb) as (lis & E & Hc & Hrun & tr & M & Mt & Htold & Hfol & Hag & Hrp).
    exists lis. split; [done|]. split; [done|]. split; [done|].
    unfold seen_of in *. cbn [distributed] in *.
    change (calls_of (mkSys i Handling (Datatypes.S d) _ pc)) with (calls_of (mkSys i Handling d [] pc)).
    rewrite Ec in *. rewrite <- fmap_take, fst_call_of in *.
    rewrite <- (take_drop_middle log d n' Hn') in Hrep. apply replays_app_inv in Hrep as (M1 & Hr1 & Hr2).
    pose proof (replays_functional _ _ _ _ _ Hr1 Hrp) as ->.
    inversion Hr2 as [|? M2 ? ? ? Hnot _]; subst.
    erewrite take_S_r by done.
    assert (Hrep' : replays key ∅ (take d log ++ [n']) M2).
    { eapply replays_trans; [done|]. econstructor; [done|constructor]. }
    cbn [sends] in *. rewrite sends_to_none in Hfol by (intros; apply not_elem_of_nil).
    rewrite app_nil_r in Hfol. rewrite sends_to_distribute by apply NoDup_distribute.
    destruct (decide (l ∈ distribute _ (processor i))) as [Hin|Hin].
    + destruct (learns_agrees key M Mt n' M2 Hag Hnot) as (M' & Hlearn & Hag').
      exists tr, M', M2. split; [done|]. split; [by econstructor|done].
    + exists tr, M, M2. split; [done|]. split; [by rewrite app_nil_r|]. split; [|done].
      destruct n' as [|old new|]; try (exfalso; apply Hin, elem_of_distribute; by eauto).
      destruct (isSync old new) eqn:Es; [by eapply skip_agrees|].
      exfalso. apply Hin, elem_of_distribute. eauto.
Qed.

(** The invariant is about the informer and the processor only. *)
Lemma inv_ext es i i' k d q pc :
  s_inf i' = s_inf i -> processor i' = processor i -> (started i' = false -> started i = false) ->
  shared_inv es (mkSys i k d q pc) -> shared_inv es (mkSys i' k d q pc).
Proof.
  intros E1 E2 E3 [Hs Hl Hle Hf Hq Hu Hr Ht].
  assert (Ec : calls_of (mkSys i' k d q pc) = calls_of (mkSys i k d q pc)).
  { unfold calls_of. cbn. by rewrite E1. }
  unfold seen_of, no_add_blocked in *. cbn in *.
  constructor; unfold seen_of, no_add_blocked; cbn; rewrite ?Ec, ?E1, ?E2; auto.
Qed.

Lemma inv_add es i k d l n q pc lis :
  no_add_blocked (mkSys i k d ((l, n) :: q) pc) -> heap (processor i) !! l = Some lis ->
  shared_inv es (mkSys i k d ((l, n) :: q) pc) ->
  shared_inv es (mkSys (with_heap (<[l := add_begin n lis]> (heap (processor i))) i) k d q pc).
Proof.
  intros Hb Hlis [Hs Hl Hle Hf Hq Hu Hr Ht]. constructor; try done.
  - intros Hk. by destruct (Hf Hk).
  - intros l' n' Hin. apply (Hq l' n'). by right.
  - intros l' b Hb'. destruct (Ht l' b Hb') as (lis' & E & Hc & Hrun & tr & M & Mt & Ht' & Hfol & Hrest).
    cbn in E. cbn [sends] in Hfol. rewrite sends_to_cons in Hfol. cbn. destruct (decide (l = l')) as [<-|Hne].
    + rewrite lookup_insert_eq. assert (lis' = lis) as -> by congruence.
      exists (add_begin n lis). split; [done|]. split; [done|]. split; [done|].
      exists (tr ++ [LAdd n]), M, Mt. split; [|split; [|done]].
      * eapply told_by_snoc; [done|apply ls_add; [by eapply Hb|done]|done].
      * unfold added in *. rewrite omap_app. cbn. by rewrite <- app_assoc.
    + rewrite lookup_insert_ne by done. exists lis'. split; [done|]. split; [done|]. split; [done|].
      by exists tr, M, Mt.
Qed.

Lemma inv_goroutine es i k d q pc l lis a lis' :
  heap (processor i) !! l = Some lis -> goroutine_step lis a lis' -> panicked [a] = [] ->
  shared_inv es (mkSys i k d q pc) ->
  shared_inv es (mkSys (with_heap (<[l := lis']> (heap (processor i))) i) k d q pc).
Proof.
  intros Hlis Hs Hp Hinv. destruct (goroutine_step_keeps _ _ _ Hs) as (Hc & Ha & Hb & Hk).
  apply inv_processor with (pc := pc); [done|..]; cbn.
  - intros -> l' lis1 [[<- <-]|[_ E]]%lookup_insert_Some; destruct (si_free _ _ Hinv) as [_ Hn]; try done.
    + by eapply Hb, Hn.
    + by eapply Hn.
  - apply Hinv.
  - apply Hinv.
  - intros l' b lis1 Hl' E1 _ Htr'. destruct (decide (l = l')) as [<-|Hne].
    + rewrite lookup_insert_eq. exists lis'. split; [done|]. assert (lis1 = lis) as -> by congruence.
      pose proof Htr' as (Hopen & Hrun & _). destruct (Hk Hopen) as [Ep En].
      eapply tracks_step; [done|by apply ls_goroutine|done|done|congruence|].
      intros Hf. destruct (Hrun Hf). split; congruence.
    + rewrite lookup_insert_ne by done. by exists lis1.
  - done.
Qed.

Lemma inv_for_all `{MapRange} es i k d q pc pc' f running' :
  shared_inv es (mkSys i k d q pc) ->
  (forall lis, addCh (f lis) = addCh lis) ->
  (pc' <> RunStarted -> running' = false) ->
  (forall seen l lis, tracks (listenersStarted (processor i)) q seen l lis -> tracks running' q seen l (f lis)) ->
  shared_inv es (mkSys (with_processor (mkProcessor running'
    (for_listeners f (range (listeners (processor i))).*1 (heap (processor i)))
    (listeners (processor i))) i) k d q pc').
Proof.
  intros Hinv Hadd Hpc Hf. apply inv_processor with (pc := pc); [done|..]; cbn; try done.
  - intros -> l lis. rewrite lookup_for_all. destruct (si_free _ _ Hinv eq_refl) as [_ Hn].
    destruct (listeners (processor i) !! l); [|apply Hn].
    intros (lis0 & E & ->)%fmap_Some. rewrite Hadd. by eapply Hn.
  - apply Hinv.
  - intros l b lis Hl E _ Htl. rewrite lookup_for_all, Hl, E. exists (f lis). split; [done|]. by apply Hf.
Qed.

Lemma inv_settle_resync `{MapRange} es i d pc period :
  shared_inv es (mkSys i Free d [] pc) ->
  let i' := (settle_resync period i).1 in
  shared_inv es (mkSys i' Free d [] pc) /\ started i' = started i /\ s_inf i' = s_inf i /\
  heap (processor i') !! fresh (dom (heap (processor i'))) = None.
Proof.
  intros Hinv. cbn zeta. split; [|split; [|split]].
  - assert (Hc : forall period, shared_inv es (mkSys (with_processor (resyncCheckPeriodChanged period
      (processor i)) (with_resyncCheckPeriod period i)) Free d [] pc)).
    { intros rp. eapply (inv_ext _ (with_processor (resyncCheckPeriodChanged rp (processor i)) i)); [done|done|done|].
      apply inv_for_all with (pc := pc); [done|done|apply Hinv|].
      intros seen l lis Ht. eapply tracks_step; [done|apply ls_resync|done|done| |]; apply Ht. }
    unfold settle_resync. repeat case_match; first [exact Hinv|apply Hc].
  - unfold settle_resync. repeat case_match; cbn; congruence.
  - unfold settle_resync. repeat case_match; cbn; congruence.
  - apply not_elem_of_dom. apply is_fresh.
Qed.

Lemma newProcessListener_tracks (running : bool) h y req per now l seen Mt :
  replays key ∅ seen Mt ->
  forall M q, follows key ∅ (sends_to l q) M -> agrees M Mt ->
  tracks running q seen l
    (if running then start_goroutines (newProcessListener h y req per now initialBufferSize)
     else newProcessListener h y req per now initialBufferSize).
Proof.
  intros Hr M q Hf Ha. destruct running.
  - split; [done|]. split; [done|]. exists ([] ++ [LOutside]), M, Mt. split; [|done].
    split; [done|]. exists h, y, req, per, now. econstructor; [constructor|]. by apply ls_start.
  - split; [done|]. split; [done|]. exists [], M, Mt. split; [|done].
    split; [done|]. exists h, y, req, per, now. constructor.
Qed.

Lemma inv_new_listener es i d pc lis q' k' :
  k' <> Handling -> (k' = Free -> q' = []) ->
  heap (processor i) !! fresh (dom (heap (processor i))) = None -> addCh lis = None ->
  (forall l n, (l, n) ∈ q' -> l = fresh (dom (heap (processor i)))) ->
  tracks (listenersStarted (processor i)) q' (seen_of (mkSys i Free d [] pc))
    (fresh (dom (heap (processor i))))
    (if listenersStarted (processor i) then start_goroutines lis else lis) ->
  shared_inv es (mkSys i Free d [] pc) ->
  shared_inv es (mkSys (with_processor
    (addListener (new_listener lis (processor i)).2 (new_listener lis (processor i)).1) i) k' d q' pc).
Proof.
  set (l0 := fresh (dom (heap (processor i)))). intros Hk Hq' Hfresh Hadd Hl0 Ht0 [Hs Hl Hle Hf Hq Hu Hr Ht].
  destruct (Hf eq_refl) as [_ Hn].
  assert (Hheap : forall l, heap (addListener l0 (new_listener lis (processor i)).1) !! l =
    if decide (l = l0) then Some (if listenersStarted (processor i) then start_goroutines lis else lis)
    else heap (processor i) !! l).
  { intros l. unfold addListener, new_listener. cbn. destruct (listenersStarted (processor i)), (decide (l = l0)) as [->|Hne];
      fold l0; rewrite ?lookup_alter_eq, ?lookup_alter_ne, ?lookup_insert_eq, ?lookup_insert_ne by done; done. }
  constructor; try done.
  - intros _. apply Hl. done.
  - intros Hk'. split; [by apply Hq'|]. intros l lis1. cbn [inf processor with_processor].
    change (new_listener lis (processor i)).2 with l0. rewrite Hheap. destruct (decide (l = l0)).
    + intros [= <-]. by destruct (listenersStarted (processor i)).
    + apply Hn.
  - intros l n Hin. cbn in Hin. rewrite (Hl0 l n Hin). cbn. fold l0. rewrite lookup_insert_eq. by eexists.
  - intros l b Hb. cbn [inf processor with_processor sends].
    change (new_listener lis (processor i)).2 with l0. rewrite Hheap. destruct (decide (l = l0)) as [->|Hne].
    + eexists. split; [done|]. exact Ht0.
    + cbn in Hb. fold l0 in Hb. rewrite lookup_insert_ne in Hb by done.
      destruct (Ht l b Hb) as (lis1 & E & Hc & Hrun & tr & M & Mt & Htold & Hfol & Hrest).
      exists lis1. split; [done|]. split; [done|]. split; [done|]. exists tr, M, Mt.
      split; [done|]. split; [|done]. rewrite sends_to_none; [exact Hfol|].
      intros n Hin. by apply Hne, (Hl0 l n).
Qed.

Lemma inv_AddEventHandler `{MapRange} es i d pc now h y period i' l q' :
  Forall event_ok es -> AddEventHandlerWithResyncPeriod now h y period i = (i', Ok l, q') ->
  shared_inv es (mkSys i Free d [] pc) ->
  shared_inv es (mkSys i' (if started i then Joining else Free) d q' pc).
Proof.
  intros Hes E Hinv. unfold AddEventHandlerWithResyncPeriod in E.
  destruct (stopped i); [done|].
  destruct (inv_settle_resync es i d pc period Hinv) as (Hinv1 & Est & Einf & Hfresh).
  destruct (settle_resync period i) as [i1 period1]. cbn in Hinv1, Est, Einf, Hfresh.
  rewrite <- Est in *. clear Hinv Est.
  destruct (reached_steps es (s_inf i1) Hes (si_steps _ _ Hinv1)) as (st & log & _ & [Hw Hrep Hkeyed]).
  assert (Eseen : seen_of (mkSys i1 Free d [] pc) = log).
  { unfold seen_of. rewrite (si_lock _ _ Hinv1) by done. rewrite firstn_all.
    unfold calls_of. cbn. rewrite Hw. apply fst_call_of. }
  destruct (new_listener _ (processor i1)) as [p l1] eqn:En.
  assert (El : l1 = fresh (dom (heap (processor i1)))) by (unfold new_listener in En; by simplify_eq).
  cbn [started with_processor s_inf] in E. set (lis := newProcessListener _ _ _ _ _ _) in *.
  assert (Hinv' : forall k q M, k <> Handling -> (k = Free -> q = []) ->
    (forall l n, (l, n) ∈ q -> l = l1) -> follows key ∅ (sends_to l1 q) M -> agrees M (st_items st) ->
    shared_inv es (mkSys (with_processor (addListener l1 p) i1) k d q pc)).
  { intros k q M Hk Hq Hlq Hf Ha. pose proof (inv_new_listener es i1 d pc lis q k) as Hx.
    rewrite En in Hx. cbn [fst snd] in Hx. rewrite Eseen in Hx.
    apply Hx; try done; [by intros l' n Hin; rewrite <- El; eapply Hlq|].
    rewrite <- El. by eapply newProcessListener_tracks. }
  destruct (started i1) eqn:Est; cbn [negb] in E; injection E as Ei' El' Eq'; subst i' l q'.
  - rewrite Hw. apply (Hinv' Joining _ (st_items st)); [done|done| | |apply agrees_refl].
    + by intros l' n (o & [= -> ->] & _)%list_elem_of_fmap.
    + pose proof (st_List_law st) as Hp. apply Permutation_map_inv in Hp as (kvs & Ekv & Hp).
      replace ((fun item => (l1, NAdd item true)) <$> st_List st)
        with ((fun n => (l1, n)) <$> ((fun o => NAdd o true) <$> st_List st))
        by (by rewrite <- list_fmap_compose).
      assert (Hnd : NoDup kvs.*1) by (rewrite <- Hp; apply NoDup_fst_map_to_list).
      assert (Em : list_to_map kvs = st_items st).
      { rewrite <- (list_to_map_to_list (st_items st)). by apply list_to_map_proper. }
      rewrite sends_to_same, Ekv, <- Em. apply follows_adds; [done|]. apply Forall_forall.
      intros [k o] Hin. cbn. apply Hkeyed. rewrite <- Em. by apply elem_of_list_to_map_1.
  - apply (Hinv' Free [] ∅); try done.
    + by intros l' n ?%not_elem_of_nil.
    + constructor.
    + pose proof (si_unstarted _ _ Hinv1 Est) as Hc. unfold calls_of in Hc. cbn in Hc. rewrite Hw in Hc.
      apply fmap_nil_inv in Hc. rewrite Hc in Hrep. inversion Hrep; subst. apply agrees_refl.
Qed.

Lemma inv_RemoveEventHandler es i d pc l :
  shared_inv es (mkSys i Free d [] pc) ->
  shared_inv es (mkSys (RemoveEventHandler l i) Free d [] pc).
Proof.
  intros Hinv. destruct (si_free _ _ Hinv eq_refl) as [_ Hn]. unfold RemoveEventHandler, removeListener.
  destruct (listeners (processor i) !! l) as [b|] eqn:El; [|by eapply inv_ext; [..|exact Hinv]].
  assert (Hheap : forall l', l' <> l ->
    (if listenersStarted (processor i) then alter close_addCh l (heap (processor i)) else heap (processor i)) !! l' =
    heap (processor i) !! l').
  { intros l' Hl'. destruct (listenersStarted (processor i)); [by rewrite lookup_alter_ne|done]. }
  apply inv_processor with (pc := pc); [done|..]; cbn.
  - intros _ l' lis. destruct (decide (l' = l)) as [->|Hl']; [|rewrite Hheap by done; apply Hn].
    destruct (listenersStarted (processor i)); [|apply Hn]. rewrite lookup_alter_eq.
    intros (lis0 & E & ->)%fmap_Some. by eapply Hn in E.
  - by intros l' n ?%not_elem_of_nil.
  - apply Hinv.
  - intros l' b' lis [Hl' Hb]%lookup_delete_Some E _ Ht. rewrite Hheap by done. by exists lis.
  - intros l' [b' [Hl' Hb]%lookup_delete_Some]. by exists b'.
Qed.

Lemma inv_shouldResync `{MapRange} es i k d q pc now :
  shared_inv es (mkSys i k d q pc) ->
  shared_inv es (mkSys (with_processor (processor_shouldResync now (processor i)).1 i) k d q pc).
Proof.
  intros Hinv. pose proof (shouldResync_loop now (range (listeners (processor i))).*1 (processor i) false
    (NoDup_fst_range _)) as Hx. unfold processor_shouldResync.
  set (p' := (fold_left _ _ _).1) in *. destruct Hx as (Hs & Hh & Hl & _).
  { intros l [b Hb]%elem_of_range_keys. destruct (si_tracks _ _ Hinv l b Hb) as (lis & E & _). eauto. }
  assert (Hheap : forall l lis', heap p' !! l = Some lis' -> exists lis, heap (processor i) !! l = Some lis /\
    (lis' = lis \/ lis' = determineNextResync now lis)).
  { intros l lis'. rewrite Hh. destruct (heap (processor i) !! l) as [lis|].
    - exists lis. split; [done|]. repeat case_match; simplify_eq/=; auto.
    - by repeat case_match. }
  assert (Hdom : forall l, is_Some (listeners p' !! l) <-> is_Some (listeners (processor i) !! l)).
  { intros l. rewrite Hl. case_decide as Hin; [|done]. apply elem_of_range_keys in Hin. split; [done|by eexists]. }
  apply inv_processor with (pc := pc); [done|..].
  - intros -> l lis' E. destruct (Hheap l lis' E) as (lis & E' & Hor).
    destruct (si_free _ _ Hinv eq_refl) as [_ Hn]. specialize (Hn l lis E'). by destruct Hor as [->| ->].
  - intros l n Hin. apply Hdom. by eapply Hinv.
  - rewrite Hs. apply Hinv.
  - intros l b lis Hb E _ Ht. rewrite Hs, Hh, E.
    assert (Ht' : tracks (listenersStarted (processor i)) q (seen_of (mkSys i k d q pc)) l (determineNextResync now lis)).
    { eapply tracks_step; [done|apply ls_resync|done|done| |]; apply Ht. }
    repeat case_match; eauto.
  - intros l. apply Hdom.
Qed.

Lemma inv_processor_run `{MapRange} es i k d q :
  shared_inv es (mkSys i k d q RunNotStarted) ->
  shared_inv es (mkSys (with_processor (processor_run_start (processor i)) i) k d q RunStarted).
Proof.
  intros Hinv. apply inv_for_all with (pc := RunNotStarted); [done|done|done|].
  intros seen l lis Ht. pose proof Ht as (Hc & Hr & _).
  destruct (Hr (si_run _ _ Hinv ltac:(done))). by eapply tracks_step; [done|apply ls_start|..].
Qed.

Lemma inv_processor_stop `{MapRange} es i d :
  shared_inv es (mkSys i Free d [] RunStarted) ->
  shared_inv es (mkSys (with_processor (processor_run_stop (processor i)) i) Free d [] RunEnded).
Proof.
  intros Hinv. destruct (si_free _ _ Hinv eq_refl) as [_ Hn].
  apply inv_processor with (pc := RunStarted); [done|..]; cbn.
  - intros _ l lis. rewrite lookup_for_all. destruct (listeners (processor i) !! l); [|apply Hn].
    intros (lis0 & E & ->)%fmap_Some. by eapply Hn in E.
  - by intros l n ?%not_elem_of_nil.
  - done.
  - intros l b lis. by rewrite lookup_empty.
  - intros l [b Hb]. by rewrite lookup_empty in Hb.
Qed.

Lemma inv_unlock es i k d pc :
  no_add_blocked (mkSys i k d [] pc) ->
  (k = Handling -> d = length (calls_of (mkSys i k d [] pc))) ->
  shared_inv es (mkSys i k d [] pc) -> shared_inv es (mkSys i Free d [] pc).
Proof.
  intros Hn Hk [Hs Hl Hle Hf Hq Hu Hr Ht]. constructor; try done.
  intros _. destruct k; [by apply Hl|by apply Hk|by apply Hl].
Qed.

Lemma shared_step_inv es e s s' :
  Forall event_ok es -> shared_step cfg e s s' -> shared_inv es s -> shared_inv (es ++ option_list e) s'.
Proof.
  intros Hes Hs Hinv. destruct Hs; cbn [option_list option_rect]; rewrite ?app_nil_r.
  - by apply inv_reflector.
  - by apply inv_HandleDeltas.
  - by eapply inv_distribute.
  - by apply inv_add.
  - by eapply inv_unlock.
  - by eapply inv_goroutine.
  - by eapply inv_AddEventHandler.
  - by apply inv_RemoveEventHandler.
  - by apply inv_shouldResync.
  - unfold Run_start. destruct (started i) eqn:E; [done|]. by eapply inv_ext; [..|exact Hinv].
  - by apply inv_processor_run.
  - by eapply inv_ext; [..|exact Hinv].
  - by apply inv_processor_stop.
Qed.

Lemma shared_init_inv : shared_inv [] (shared_init st0 period0).
Proof.
  constructor; try done.
  - constructor.
  - intros l n Hin. by apply not_elem_of_nil in Hin.
Qed.

Lemma shared_steps_inv es s :
  Forall event_ok es -> shared_steps cfg es (shared_init st0 period0) s -> shared_inv es s.
Proof.
  remember (shared_init st0 period0) as s0 eqn:E0. intros Hes Hs. revert E0 Hes.
  induction Hs as [|es e s1 s2 s3 _ IH Hs]; intros -> Hes; [apply shared_init_inv|].
  apply Forall_app in Hes as [Hes He]. eapply shared_step_inv; eauto.
Qed.

End tracking.

(** *** Resync periods *)

Section resync.
Context {O S Y R : Type} `{MetaAccessor O} `{StoreI (value O) S}
  `{RingGrowing (notification (O:=O)) R}.
Context (cfg : DeltaFIFOConfig O) (indexer0 : S) (period0 : Z).
Implicit Types (lis : processorListener O Y R) (i : sharedIndexInformer O S Y R)
  (s : shared_sys O S Y R).

Definition period_ok (check : Z) lis : Prop :=
  resyncPeriod lis = determineResyncPeriod (requestedResyncPeriod lis) check /\
  (0 < requestedResyncPeriod lis ->
     minimumResyncPeriod <= requestedResyncPeriod lis /\ check <= requestedResyncPeriod lis).

Definition resync_inv i : Prop :=
  (period0 <= minimumResyncPeriod -> resyncCheckPeriod i = period0) /\
  resyncCheckPeriod i <= period0 /\
  forall l b, listeners (processor i) !! l = Some b ->
    exists lis, heap (processor i) !! l = Some lis /\ period_ok (resyncCheckPeriod i) lis.

Lemma goroutine_step_period lis a lis' :
  goroutine_step lis a lis' ->
  requestedResyncPeriod lis' = requestedResyncPeriod lis /\ resyncPeriod lis' = resyncPeriod lis.
Proof.
  intros Hs. destruct Hs as [p p' E|p p' E|p p' E|p n p' Hn E|y p n p' Hn E|p p' E].
  - unfold pop_receive in E. by repeat split_match_in E; simplify_eq.
  - unfold pop_returns in E. by repeat split_match_in E; simplify_eq.
  - unfold pop_send in E. by repeat split_match_in E; simplify_eq.
  - unfold run_handles in E. rewrite Hn in E. by simplify_eq.
  - unfold run_panics in E. rewrite Hn in E. by simplify_eq.
  - unfold run_returns in E. repeat split_match_in E; by simplify_eq.
Qed.

(** A step that leaves the periods and registers nobody new. *)
Lemma resync_inv_keeps i i' :
  resyncCheckPeriod i' = resyncCheckPeriod i ->
  (forall l b, listeners (processor i') !! l = Some b -> is_Some (listeners (processor i) !! l)) ->
  (forall l lis, heap (processor i) !! l = Some lis -> is_Some (listeners (processor i') !! l) ->
     exists lis', heap (processor i') !! l = Some lis' /\
       requestedResyncPeriod lis' = requestedResyncPeriod lis /\ resyncPeriod lis' = resyncPeriod lis) ->
  resync_inv i -> resync_inv i'.
Proof.
  intros Ec Hl Hh (H1' & H2' & H3). unfold resync_inv. rewrite Ec. split; [done|]. split; [done|].
  intros l b Hb. destruct (Hl l b Hb) as [b0 Hb0]. destruct (H3 l b0 Hb0) as (lis & E & Hp).
  destruct (Hh l lis E ltac:(eauto)) as (lis' & E' & Er & Ep). exists lis'. split; [done|].
  unfold period_ok. by rewrite Er, Ep.
Qed.

Lemma resync_inv_heap i l lis lis' :
  heap (processor i) !! l = Some lis ->
  requestedResyncPeriod lis' = requestedResyncPeriod lis /\ resyncPeriod lis' = resyncPeriod lis ->
  resync_inv i -> resync_inv (with_heap (<[l := lis']> (heap (processor i))) i).
Proof.
  intros E Hp. apply resync_inv_keeps; [done|by eauto|]. cbn. intros l' lis1 E1 _.
  destruct (decide (l = l')) as [<-|Hne]; [|rewrite lookup_insert_ne by done; by exists lis1].
  rewrite lookup_insert_eq. exists lis'. by simplify_eq.
Qed.

Lemma resync_inv_settle `{MapRange} i period :
  resync_inv i ->
  let '(i', period') := settle_resync period i in
  resync_inv i' /\
  (0 < period' -> minimumResyncPeriod <= period' /\ resyncCheckPeriod i' <= period').
Proof.
  intros Hinv. pose proof Hinv as (Hb1 & Hb2 & Hl). unfold settle_resync.
  destruct (0 <? period) eqn:Epos; [|bool_to_prop; split; [done|lia]].
  set (rp := if period <? minimumResyncPeriod then minimumResyncPeriod else period).
  assert (Hmin : minimumResyncPeriod <= rp).
  { unfold rp. destruct (period <? minimumResyncPeriod) eqn:E; bool_to_prop; lia. }
  clearbody rp. destruct (rp <? resyncCheckPeriod i) eqn:Elt; bool_to_prop; [|split; [done|lia]].
  destruct (started i); [split; [done|lia]|]. cbn. split; [|lia]. split; [|split; [cbn; lia|]].
  - intros Hp0. specialize (Hb1 Hp0). lia.
  - intros l b Hb. destruct (Hl l b Hb) as (lis & E & Hreq & Hpos). cbn.
    rewrite lookup_for_all. cbn in Hb. rewrite Hb, E. eexists. split; [done|].
    split; [done|]. cbn. intros Hr. destruct (Hpos Hr). lia.
Qed.

Lemma resync_inv_add `{MapRange} i now h y period i' l q' :
  AddEventHandlerWithResyncPeriod now h y period i = (i', Ok l, q') -> resync_inv i -> resync_inv i'.
Proof.
  intros E Hinv. unfold AddEventHandlerWithResyncPeriod in E. destruct (stopped i); [done|].
  pose proof (resync_inv_settle i period Hinv) as Hs.
  destruct (settle_resync period i) as [i1 period1]. destruct Hs as [(Hb1 & Hb2 & Hl) Hp].
  unfold new_listener in E. cbn [started with_processor s_inf] in E.
  set (l1 := fresh (dom (heap (processor i1)))) in *.
  set (lis := newProcessListener _ _ _ _ _ _) in *. set (p := mkProcessor _ _ _) in *.
  assert (Ei : i' = with_processor (addListener l1 p) i1) by (destruct (started i1); cbn [negb] in E; congruence).
  subst i'. split; [done|]. split; [done|]. intros l0 b Hb. cbn in *.
  assert (Hlis : period_ok (resyncCheckPeriod i1) lis /\ period_ok (resyncCheckPeriod i1) (start_goroutines lis))
    by (split; (split; [done|exact Hp])).
  destruct (decide (l0 = l1)) as [->|Hne].
  - destruct (listenersStarted (processor i1)); rewrite ?lookup_alter_eq, lookup_insert_eq;
      eexists; (split; [done|apply Hlis]).
  - rewrite lookup_insert_ne in Hb by done. destruct (Hl l0 b Hb) as (lis0 & E0 & Hok). exists lis0.
    split; [|done]. destruct (listenersStarted (processor i1));
      rewrite ?lookup_alter_ne, lookup_insert_ne by done; done.
Qed.

Lemma resync_inv_for_all `{MapRange} i f running' ls :
  (forall lis, requestedResyncPeriod (f lis) = requestedResyncPeriod lis /\ resyncPeriod (f lis) = resyncPeriod lis) ->
  (forall l b, ls !! l = Some b -> is_Some (listeners (processor i) !! l)) ->
  resync_inv i -> resync_inv (with_processor (mkProcessor running'
    (for_listeners f (range (listeners (processor i))).*1 (heap (processor i))) ls) i).
Proof.
  intros Hf Hls. apply resync_inv_keeps; [done|done|]. cbn. intros l lis E [b Hb].
  rewrite lookup_for_all. destruct (Hls l b Hb) as [b' ->]. rewrite E. by eexists.
Qed.

Lemma shared_step_resync e s s' :
  shared_step cfg e s s' -> resync_inv (inf s) -> resync_inv (inf s').
Proof.
  intros Hs. destruct Hs; cbn [inf]; try (intros Hinv; exact Hinv).
  - by apply resync_inv_heap with (lis := lis).
  - eapply resync_inv_heap; [done|]. by eapply goroutine_step_period.
  - by eapply resync_inv_add.
  - apply resync_inv_keeps; [done|..]; unfold RemoveEventHandler, removeListener; cbn;
      destruct (listeners (processor i) !! l) as [b|] eqn:El; cbn; try by eauto.
    + by intros l' b' [_ ?]%lookup_delete_Some.
    + intros l' lis E [b' [Hne Hb]%lookup_delete_Some]. exists lis. split; [|done].
      destruct (listenersStarted (processor i)); [by rewrite lookup_alter_ne|done].
  - intros Hinv. pose proof Hinv as (_ & _ & Hl). unfold processor_shouldResync.
    destruct (shouldResync_loop now (range (listeners (processor i))).*1 (processor i) false
      (NoDup_fst_range _)) as (_ & Hh & Hls & _).
    { intros l [b Hb]%elem_of_range_keys. destruct (Hl l b Hb) as (lis & E & _). eauto. }
    revert Hinv. apply resync_inv_keeps; [done|..]; cbn.
    + intros l b. rewrite Hls. case_decide as Hin; [|by eauto]. intros _. by apply elem_of_range_keys.
    + intros l lis E _. rewrite Hh, E. repeat case_match; eexists; split; done.
  - unfold Run_start. by destruct (started i).
  - apply resync_inv_for_all; [done|by eauto].
  - apply resync_inv_for_all; [done|]. intros l b. by rewrite lookup_empty.
Qed.

Lemma shared_steps_resync es s :
  shared_steps cfg es (shared_init indexer0 period0) s -> resync_inv (inf s).
Proof.
  remember (shared_init indexer0 period0) as s0 eqn:E0. intros Hs. revert E0.
  induction Hs as [|es e s1 s2 s3 _ IH Hs]; intros ->; [|eapply shared_step_resync; eauto].
  split; [done|]. split; [done|]. intros l b. cbn. by rewrite lookup_empty.
Qed.

End resync.

(** ** Properties *)

Section properties.
Context {O S Y R : Type} `{MetaAccessor O} `{StoreLaws (value O) S}
  `{RingGrowingLaws (notification (O:=O)) R}.
Context (transformer : option (iface (value O) -> result (value O) (iface (value O)))).
Local Abbreviation cfg := (newInformer_fifo transformer).1.
Implicit Types (s : shared_sys O S Y R).

(** C3: every handler of a shared informer tracks the store.  In every state the
    system reaches, whatever the interleaving of the reflector, the processing of
    deltas, the goroutines of the listeners, resync timers, and clients adding and
    removing handlers before and after the start: the state of each registered
    handler is the result of the notifications it has been told so far; those, with
    the ones under way to it, are consistent (adds of keys it has not, updates and
    deletes of keys it has, updates from the version it was last told); and unless
    deltas are being processed, they lead it to the store's keys, each with an
    object of the version the store has.  The store itself holds what the reflector
    reported, except for the keys still queued. *)
Theorem shared_handlers_track (st0 : S) period0 es s :
  informer_made st0 -> Accessor_refuses_deltas ->
  transformer_ok cfg (st_key st0) (st_accepts st0) ->
  Forall event_ok es -> shared_steps cfg es (shared_init st0 period0) s ->
  exists st calls, world (s_inf (inf s)) = Some (st, calls) /\
    (forall k, k ∉ DeltaFIFO.queue (fifo (s_inf (inf s))) ->
       st_items st !! k = fold_left (ideal cfg) es ∅ !! k) /\
    forall l b, listeners (processor (inf s)) !! l = Some b ->
      exists lis y told M, heap (processor (inf s)) !! l = Some lis /\
        handler_state lis = fold_left (deliver (handler lis)) told y /\
        follows DeletionHandlingMetaNamespaceKeyFunc ∅
          (told ++ in_flight lis ++ sends_to l (sends s)) M /\
        (lock s <> Handling -> agrees M (st_items st)).
Proof.
  intros Hmade Hacc Htr Hes Hs.
  pose proof (shared_steps_inv transformer st0 period0 Hmade Hacc Htr es s Hes Hs) as Hinv.
  destruct (reached_steps transformer st0 Hmade Hacc Htr es _ Hes (si_steps _ _ _ _ Hinv))
    as (st & log & Hat & [Hw Hrep _]).
  exists st, (call_of <$> log). split; [done|]. split.
  - intros k Hk. rewrite <- (at_view _ _ _ _ _ _ _ _ Hat). unfold view.
    rewrite (ok_mem _ (inv_fifo _ _ _ _ (at_inv _ _ _ _ _ _ _ _ Hat))) in Hk.
    apply eq_None_not_Some in Hk. by rewrite Hk.
  - intros l b Hb. destruct (si_tracks _ _ _ _ Hinv l b Hb)
      as (lis & E & _ & _ & tr & M & Mt & [Hp (h & y & req & per & now & Ht)] & Hf & Ha & Hr).
    destruct (new_listener_effect _ _ _ _ _ _ _ _ Ht) as (_ & Hq & Hh & Hst).
    exists lis, y, (taken tr), M. split; [done|]. split; [rewrite Hh; by apply Hst|].
    split; [by rewrite app_assoc, <- Hq|]. intros Hl.
    unfold seen_of in Hr. rewrite (si_lock _ _ _ _ Hinv Hl), firstn_all in Hr.
    unfold calls_of in Hr. rewrite Hw, fst_call_of in Hr.
    by rewrite (replays_functional _ _ _ _ _ Hrep Hr).
Qed.

(** When a handle reports that it has synced.  While no deltas are being
    processed, the handle of a registered handler has synced exactly when the
    informer runs, its queue has popped the initial list, and no add of the initial
    list is still under way to the handler. *)
Theorem shared_HasSynced_exact (st0 : S) period0 es s l b lis :
  informer_made st0 -> Accessor_refuses_deltas ->
  transformer_ok cfg (st_key st0) (st_accepts st0) ->
  Forall event_ok es -> shared_steps cfg es (shared_init st0 period0) s ->
  lock s = Free -> listeners (processor (inf s)) !! l = Some b ->
  heap (processor (inf s)) !! l = Some lis -> Z.of_nat (length (in_flight lis)) <= MaxInt64 ->
  handle_HasSynced l (inf s) = Some true <->
  started (inf s) = true /\ HasSynced (fifo (s_inf (inf s))) = true /\
  Forall (fun n => is_initial n = false) (in_flight lis ++ sends_to l (sends s)).
Proof.
  intros Hmade Hacc Htr Hes Hs Hfree Hb E Hlen.
  pose proof (shared_steps_inv transformer st0 period0 Hmade Hacc Htr es s Hes Hs) as Hinv.
  destruct (si_free _ _ _ _ Hinv Hfree) as [-> _]. rewrite app_nil_r.
  destruct (si_tracks _ _ _ _ Hinv l b Hb)
    as (lis' & E' & _ & _ & tr & _ & _ & [Hp (h & y & req & per & now & Ht)] & _).
  assert (lis' = lis) as -> by congruence.
  unfold handle_HasSynced. rewrite E. cbn. unfold shared_HasSynced.
  pose proof (HasSynced_iff h y req per now initialBufferSize tr lis
    (if started (inf s) then HasSynced (fifo (s_inf (inf s))) else false) Ht) as Hiff.
  rewrite Hp in Hiff. cbn in Hiff. pose proof (initials_le (in_flight lis)).
  destruct (started (inf s)); split.
  - intros [= Hx]. apply Hiff in Hx as (? & ? & _); [done|lia].
  - intros (_ & Hx & Hi). f_equal. apply Hiff; [lia|]. split; [done|]. by split; [|constructor].
  - done.
  - by intros (? & _).
Qed.

End properties.

(** Resync periods.  In every state the system reaches, each registered
    listener resyncs at the period it requested, or not at all if the informer does
    none; a requested period is at least a second and at least the informer's check
    period; and a check period below a second, given at construction, stays: it is
    not raised to the minimum. *)
Theorem shared_resync_periods {O S Y R} `{MetaAccessor O} `{StoreI (value O) S}
    `{RingGrowing (notification (O:=O)) R} (cfg : DeltaFIFOConfig O) (st0 : S) period0 es
    (s : shared_sys O S Y R) :
  shared_steps cfg es (shared_init st0 period0) s ->
  (period0 <= minimumResyncPeriod -> resyncCheckPeriod (inf s) = period0) /\
  forall l b, listeners (processor (inf s)) !! l = Some b ->
    exists lis, heap (processor (inf s)) !! l = Some lis /\
      (0 <= requestedResyncPeriod lis ->
         resyncPeriod lis =
           if resyncCheckPeriod (inf s) =? 0 then 0 else requestedResyncPeriod lis) /\
      (0 < requestedResyncPeriod lis ->
         minimumResyncPeriod <= requestedResyncPeriod lis /\
         resyncCheckPeriod (inf s) <= requestedResyncPeriod lis).
Proof.
  intros Hs. destruct (shared_steps_resync cfg st0 period0 es s Hs) as (Hb & _ & Hl).
  split; [done|]. intros l b Hlb. destruct (Hl l b Hlb) as (lis & E & Hr & Hp).
  exists lis. split; [done|]. split; [|done]. intros Hpos. rewrite Hr. unfold determineResyncPeriod.
  destruct (requestedResyncPeriod lis =? 0) eqn:E0; bool_to_prop.
  - rewrite E0. by destruct (_ =? 0).
  - destruct (resyncCheckPeriod (inf s) =? 0); [done|].
    destruct (_ <? _) eqn:Elt; bool_to_prop; [|done]. destruct (Hp ltac:(lia)). lia.
Qed.

(** [shouldResync].  It asks for a resync exactly when the period of a
    registered listener has passed; the listeners it is due for, and no others,
    take part in the sync, and are next due a period from now. *)
Theorem processor_shouldResync_exact {O Y R} `{MapRange} (now : Z) (p : sharedProcessor O Y R) :
  (forall l, is_Some (listeners p !! l) -> is_Some (heap p !! l)) ->
  let '(p', resyncNeeded) := processor_shouldResync now p in
  (resyncNeeded = true <-> exists l, is_Some (listeners p !! l) /\ is_due now p l = true) /\
  (forall l, listeners p' !! l = (fun _ => is_due now p l) <$> listeners p !! l) /\
  (forall l, is_Some (listeners p !! l) -> heap p' !! l =
     (if is_due now p l then determineNextResync now <$> heap p !! l else heap p !! l)) /\
  (forall l, listeners p !! l = None -> heap p' !! l = heap p !! l).
Proof.
  intros Hheap. unfold processor_shouldResync.
  pose proof (shouldResync_loop now (range (listeners p)).*1 p false (NoDup_fst_range _)) as Hx.
  destruct (fold_left _ _ _) as [p' b]. cbn in Hx. destruct Hx as (_ & Hh & Hl & ->).
  { intros l Hl%elem_of_range_keys. auto. }
  split; [|split; [|split]].
  - rewrite existsb_exists. split.
    + intros (l & Hin & Hd). exists l. split; [|done].
      by apply elem_of_range_keys, list_elem_of_In.
    + intros (l & Hin & Hd). exists l. split; [|done].
      by apply list_elem_of_In, elem_of_range_keys.
  - intros l. rewrite Hl. case_decide as Hin.
    + apply elem_of_range_keys in Hin as [b0 ->]. done.
    + rewrite elem_of_range_keys in Hin. apply eq_None_not_Some in Hin. by rewrite Hin.
  - intros l Hin. rewrite Hh, decide_True by (by apply elem_of_range_keys). done.
  - intros l Hn. rewrite Hh, decide_False; [done|]. rewrite elem_of_range_keys, Hn. by intros [? ?].
Qed.

(** ** Witnesses *)

#[local] Existing Instance pod_accessor.
#[local] Existing Instance range_in_key_order.
#[local] Existing Instance sets_in_key_order.
#[local] Existing Instance wit_store_impl.
#[local] Existing Instance wit_store_laws.

Abbreviation wit_store := (cache (value pod) (threadSafeMap (value pod))).
Abbreviation wit_shared := (sharedIndexInformer pod wit_store (list string) (list (notification (O:=pod)))).

(** A handler added, the informer started, a pod added and processed, the listener
    started, the notification taken by [pop]. *)
Definition wit_i0 : wit_shared := NewSharedIndexInformer wit_indexer 0.
Definition wit_i1 : wit_shared := (AddEventHandlerWithResyncPeriod 0 wit_handler [] 0 wit_i0).1.1.
Definition wit_i2 : wit_shared := Run_start wit_i1.
Definition wit_i3 : wit_shared :=
  with_informer (mkInformer (DeltaFIFO.Add wit_inf (pod_obj "a" 1) (fifo (s_inf wit_i2))).1
    (world (s_inf wit_i2))) wit_i2.
Definition wit_i4 : wit_shared := with_informer (shared_turn wit_inf (s_inf wit_i3)) wit_i3.
Definition wit_note : notification (O:=pod) := NAdd (pod_obj "a" 1) false.
Definition wit_lis4 : processorListener pod (list string) (list (notification (O:=pod))) :=
  default wit_listener0 (heap (processor wit_i4) !! 0%nat).
Definition wit_i5 : wit_shared :=
  with_heap (<[0%nat := add_begin wit_note wit_lis4]> (heap (processor wit_i4))) wit_i4.
Definition wit_i6 : wit_shared := with_processor (processor_run_start (processor wit_i5)) wit_i5.
Definition wit_lis6 : processorListener pod (list string) (list (notification (O:=pod))) :=
  default wit_listener0 (heap (processor wit_i6) !! 0%nat).
Definition wit_lis7 : processorListener pod (list string) (list (notification (O:=pod))) :=
  default wit_listener0 (pop_receive wit_lis6).
Definition wit_i7 : wit_shared := with_heap (<[0%nat := wit_lis7]> (heap (processor wit_i6))) wit_i6.
Definition wit_s7 := mkSys wit_i7 Free 1 [] RunStarted.

Lemma wit_unblocked (i : wit_shared) k d q pc lis :
  heap (processor i) = {[0%nat := lis]} -> addCh lis = None -> no_add_blocked (mkSys i k d q pc).
Proof. intros Eh Ha l lis'. cbn. rewrite Eh. by intros [<- <-]%lookup_singleton_Some. Qed.

Lemma wit_shared_steps :
  shared_steps wit_inf [EvAdd (pod_obj "a" 1); EvPop] (shared_init wit_indexer 0) wit_s7.
Proof.
  change [EvAdd (pod_obj "a" 1); EvPop] with ((((((((([] ++ option_list None) ++ option_list None) ++
    option_list (Some (EvAdd (pod_obj "a" 1)))) ++ option_list (Some EvPop)) ++ option_list None) ++
    option_list None) ++ option_list None) ++ option_list None) ++ option_list (@None (event (O:=pod)))).
  eapply shared_snoc with (s2 := mkSys wit_i7 Handling 1 [] RunStarted).
  eapply shared_snoc with (s2 := mkSys wit_i6 Handling 1 [] RunStarted).
  eapply shared_snoc with (s2 := mkSys wit_i5 Handling 1 [] RunNotStarted).
  eapply shared_snoc with (s2 := mkSys wit_i4 Handling 1 [(0%nat, wit_note)] RunNotStarted).
  eapply shared_snoc with (s2 := mkSys wit_i4 Handling 0 [] RunNotStarted).
  eapply shared_snoc with (s2 := mkSys wit_i3 Free 0 [] RunNotStarted).
  eapply shared_snoc with (s2 := mkSys wit_i2 Free 0 [] RunNotStarted).
  eapply shared_snoc with (s2 := mkSys wit_i1 Free 0 [] RunNotStarted).
  eapply shared_snoc with (s2 := mkSys wit_i0 Free 0 [] RunNotStarted); [constructor|].
  - apply (sh_AddEventHandler wit_inf range_in_key_order wit_i0 0 RunNotStarted 0 wit_handler [] 0 wit_i1 0%nat []).
    vm_compute. reflexivity.
  - apply (sh_Run wit_inf wit_i1).
  - apply sh_reflector; try done. apply (inf_Add _ _ _ (fifo (s_inf wit_i2))).
  - by apply sh_HandleDeltas.
  - apply (sh_distribute wit_inf range_in_key_order wit_i4 0 RunNotStarted wit_note false).
    + by apply wit_unblocked with (lis := wit_lis4); [vm_compute; reflexivity|].
    + vm_compute. reflexivity.
  - apply sh_add; [|vm_compute; reflexivity].
    by apply wit_unblocked with (lis := wit_lis4); [vm_compute; reflexivity|].
  - by apply sh_processor_run.
  - apply (sh_goroutine wit_inf wit_i6 Handling 1 [] RunStarted 0 wit_lis6 LInternal);
      [vm_compute; reflexivity| |done].
    apply gs_receive. vm_compute. reflexivity.
  - apply sh_unlock; [|intros _; vm_compute; reflexivity].
    by apply wit_unblocked with (lis := wit_lis7); [vm_compute; reflexivity|].
Qed.

Lemma wit_shared_events : Forall event_ok [EvAdd (pod_obj "a" 1); EvPop].
Proof. repeat constructor. by eexists. Qed.

Lemma shared_handlers_track_witness :
  exists y told M, handler_state wit_lis7 = fold_left (deliver wit_handler) told y /\
    follows wit_key ∅ (told ++ [wit_note]) M /\
    agrees M (st_items (match world (s_inf wit_i7) with Some (st, _) => st | None => wit_indexer end)).
Proof.
  destruct (shared_handlers_track (Some wit_strip) wit_indexer 0 _ wit_s7 wit_indexer_made
    wit_accessor_deltas wit_strip_ok wit_shared_events wit_shared_steps)
    as (st & calls & Hw & _ & Hall).
  destruct (Hall 0%nat true) as (lis & y & told & M & E & Hst & Hf & Ha); [vm_compute; reflexivity|].
  assert (lis = wit_lis7) as ->.
  { vm_compute in E. injection E as <-. vm_compute. reflexivity. }
  exists y, told, M. split; [exact Hst|]. split; [exact Hf|].
  change (world (s_inf wit_i7)) with (world (s_inf (inf wit_s7))). rewrite Hw. by apply Ha.
Defined.

Lemma shared_HasSynced_exact_witness : handle_HasSynced 0 wit_i7 = Some true.
Proof.
  apply (shared_HasSynced_exact (Some wit_strip) wit_indexer 0 _ wit_s7 0%nat true wit_lis7 wit_indexer_made
    wit_accessor_deltas wit_strip_ok wit_shared_events wit_shared_steps); try (vm_compute; reflexivity).
  - vm_compute. discriminate.
  - split; [vm_compute; reflexivity|]. split; [vm_compute; reflexivity|].
    vm_compute. repeat constructor.
Defined.

Lemma shared_resync_periods_witness :
  resyncCheckPeriod wit_i7 = 0 /\ exists lis, heap (processor wit_i7) !! 0%nat = Some lis /\ resyncPeriod lis = 0.
Proof.
  destruct (shared_resync_periods wit_inf wit_indexer 0 _ wit_s7 wit_shared_steps) as (Hc & Hl).
  split; [exact (Hc ltac:(vm_compute; discriminate))|].
  destruct (Hl 0%nat true) as (lis & E & Hr & _); [vm_compute; reflexivity|].
  exists lis. split; [exact E|]. rewrite Hr; [vm_compute; reflexivity|].
  vm_compute in E. injection E as <-. vm_compute. discriminate.
Defined.

(** A listener that asked for a resync every two seconds, three seconds later. *)
Definition wit_processor : sharedProcessor pod (list string) (list (notification (O:=pod))) :=
  mkProcessor true {[0%nat := newProcessListener wit_handler [] (2 * Second) (2 * Second) 0 initialBufferSize]}
    {[0%nat := false]}.

Lemma processor_shouldResync_exact_witness :
  (processor_shouldResync (3 * Second) wit_processor).2 = true.
Proof.
  pose proof (processor_shouldResync_exact (3 * Second) wit_processor) as Hx.
  destruct (processor_shouldResync (3 * Second) wit_processor) as [p' b]. cbn [snd].
  apply Hx; [|exists 0%nat; split; [by eexists|vm_compute; reflexivity]].
  intros l [x Hl]. change (({[0%nat := false]} : gmap nat bool) !! l = Some x) in Hl.
  apply lookup_singleton_Some in Hl as [<- _]. eexists. apply lookup_insert_eq.
Defined.
