(* ===== verification/WorkQueue.v ===== *)
(** * The work queue: util/workqueue/queue.go and metrics.go.

    Every method of [Type] holds the lock of its condition variable from its first
    access of the state to its return, except while it waits.  Each method is an
    atomic step that returns the new state and what it does to the waiters
    ([wake]); the waiting loops of [Get] and [ShutDownWithDrain] are steps of a
    system of threads ([sys_step]), in which a signal wakes any one waiter. *)

From S2P Require Import Prelude.

(** ** Metrics *)

(** [queueMetrics], with the time its clock shows as the first argument. *)
Class QueueMetrics (T M : Type) : Type := {
  m_add : Z -> T -> M -> M;
  m_get : Z -> T -> M -> M;
  m_done : Z -> T -> M -> M
}.

#[export] Instance noMetrics {T} : QueueMetrics T unit := {|
  m_add _ _ m := m;
  m_get _ _ m := m;
  m_done _ _ m := m
|}.

Section metrics.
Context {T : Type} `{Countable T}.

(** The gauges and counters are the numbers they show, the histograms the list of
    durations observed, newest first. *)
Record defaultQueueMetrics : Type := mkMetrics {
  depth : Z;
  adds : Z;
  latency : list Z;
  workDuration : list Z;
  addTimes : gmap T Z;
  processingStartTimes : gmap T Z
}.

Definition metrics_add (now : Z) (item : T) (m : defaultQueueMetrics) : defaultQueueMetrics :=
  mkMetrics (depth m + 1) (adds m + 1) (latency m) (workDuration m)
    (match addTimes m !! item with
     | None => <[item := now]> (addTimes m)
     | Some _ => addTimes m
     end)
    (processingStartTimes m).

Definition metrics_get (now : Z) (item : T) (m : defaultQueueMetrics) : defaultQueueMetrics :=
  let '(lat, times) :=
    match addTimes m !! item with
    | Some startTime => (time_sub now startTime :: latency m, delete item (addTimes m))
    | None => (latency m, addTimes m)
    end in
  mkMetrics (depth m - 1) (adds m) lat (workDuration m) times
    (<[item := now]> (processingStartTimes m)).

Definition metrics_done (now : Z) (item : T) (m : defaultQueueMetrics) : defaultQueueMetrics :=
  match processingStartTimes m !! item with
  | Some startTime =>
      mkMetrics (depth m) (adds m) (latency m) (time_sub now startTime :: workDuration m)
        (addTimes m) (delete item (processingStartTimes m))
  | None => m
  end.

#[global] Instance defaultQueueMetrics_QueueMetrics : QueueMetrics T defaultQueueMetrics := {|
  m_add := metrics_add;
  m_get := metrics_get;
  m_done := metrics_done
|}.

Definition newQueueMetrics : defaultQueueMetrics := mkMetrics 0 0 [] [] ∅ ∅.

End metrics.
Arguments defaultQueueMetrics T {_ _}.

(** ** The queue *)

Section queue.
Context {T M : Type} `{Countable T} `{QueueMetrics T M}.

Record Type_ : Type := mkType {
  queue : list T;
  dirty : gset T;
  processing : gset T;
  shuttingDown : bool;
  drain : bool;
  metrics : M
}.

Definition newQueue (metrics : M) : Type_ := mkType [] ∅ ∅ false false metrics.

(** What a method does to the goroutines waiting on the condition variable. *)
Inductive wake : Type := NoWake | Signal | Broadcast.

#[global] Instance wake_eq_dec : EqDecision wake.
Proof. solve_decision. Defined.

Definition Add (now : Z) (item : T) (q : Type_) : Type_ * wake :=
  if shuttingDown q then (q, NoWake)
  else if decide (item ∈ dirty q) then (q, NoWake)
  else
    let q := mkType (queue q) ({[item]} ∪ dirty q) (processing q) (shuttingDown q) (drain q)
               (m_add now item (metrics q)) in
    if decide (item ∈ processing q) then (q, NoWake)
    else (mkType (queue q ++ [item]) (dirty q) (processing q) (shuttingDown q) (drain q) (metrics q),
          Signal).

Definition Len (q : Type_) : Z := Z.of_nat (length (queue q)).

Inductive get_outcome : Type :=
| GetWaits
| GetShutdown
| GetItem (item : T).

(** [Get] from its test of the loop condition on. *)
Definition Get (now : Z) (q : Type_) : Type_ * get_outcome :=
  match queue q with
  | [] => if negb (shuttingDown q) then (q, GetWaits) else (q, GetShutdown)
  | item :: rest =>
      (mkType rest (dirty q ∖ {[item]}) ({[item]} ∪ processing q) (shuttingDown q) (drain q)
         (m_get now item (metrics q)),
       GetItem item)
  end.

Definition Done (now : Z) (item : T) (q : Type_) : Type_ * wake :=
  let q := mkType (queue q) (dirty q) (processing q ∖ {[item]}) (shuttingDown q) (drain q)
             (m_done now item (metrics q)) in
  if decide (item ∈ dirty q)
  then (mkType (queue q ++ [item]) (dirty q) (processing q) (shuttingDown q) (drain q) (metrics q),
        Signal)
  else if decide (processing q = ∅) then (q, Signal)
  else (q, NoWake).

Definition ShutDown (q : Type_) : Type_ * wake :=
  (mkType (queue q) (dirty q) (processing q) true false (metrics q), Broadcast).

(** [ShutDownWithDrain] up to its loop, and the loop's condition. *)
Definition ShutDownWithDrain (q : Type_) : Type_ * wake :=
  (mkType (queue q) (dirty q) (processing q) true true (metrics q), Broadcast).

Definition drain_waits (q : Type_) : bool :=
  negb (bool_decide (processing q = ∅)) && drain q.

Definition ShuttingDown (q : Type_) : bool := shuttingDown q.

(** ** Executions

    [wq_step q a q'] is a call by a client that keeps to the contract: it calls
    [Done] only on an item it got and has not called it on yet. *)

Inductive action : Type :=
| AAdd (item : T)
| AGet (item : T)
| ADone (item : T)
| AShutDown
| AShutDownWithDrain.

Inductive wq_step : Type_ -> action -> Type_ -> Prop :=
| wq_Add now item q : wq_step q (AAdd item) (Add now item q).1
| wq_Get now item q q' : Get now q = (q', GetItem item) -> wq_step q (AGet item) q'
| wq_Done now item q : item ∈ processing q -> wq_step q (ADone item) (Done now item q).1
| wq_ShutDown q : wq_step q AShutDown (ShutDown q).1
| wq_ShutDownWithDrain q : wq_step q AShutDownWithDrain (ShutDownWithDrain q).1.

Inductive wq_steps : Type_ -> list action -> Type_ -> Prop :=
| wq_nil q : wq_steps q [] q
| wq_cons q1 a q2 l q3 : wq_step q1 a q2 -> wq_steps q2 l q3 -> wq_steps q1 (a :: l) q3.

(** ** Specification *)

(** What the comments on the fields of [Type] state. *)
Record wq_ok (q : Type_) : Prop := {
  ok_nodup : NoDup (queue q);
  ok_queue : forall x, x ∈ queue q <-> x ∈ dirty q /\ x ∉ processing q
}.

(** The life of one item. *)
Inductive item_state : Type := Idle | Queued | Processing | ProcessingDirty.

Definition state_of (q : Type_) (x : T) : item_state :=
  if decide (x ∈ processing q) then (if decide (x ∈ dirty q) then ProcessingDirty else Processing)
  else (if decide (x ∈ dirty q) then Queued else Idle).

(** The machine a single item goes through; [None] for an action not allowed. *)
Definition item_next (down : bool) (s : item_state) (a : action) (x : T) : option item_state :=
  match a with
  | AAdd y =>
      if decide (x = y) then
        if down then Some s
        else match s with
             | Idle => Some Queued
             | Processing => Some ProcessingDirty
             | s => Some s
             end
      else Some s
  | AGet y =>
      if decide (x = y) then match s with Queued => Some Processing | _ => None end else Some s
  | ADone y =>
      if decide (x = y) then
        match s with
        | Processing => Some Idle
        | ProcessingDirty => Some Queued
        | _ => None
        end
      else Some s
  | AShutDown | AShutDownWithDrain => Some s
  end.

(** The items handed out, in order. *)
Fixpoint gets (l : list action) : list T :=
  match l with
  | [] => []
  | AGet x :: l' => x :: gets l'
  | _ :: l' => gets l'
  end.

(** ** Goroutines

    The callers blocked in [Get] and in [ShutDownWithDrain], counted: those waiting
    on the condition variable, and those woken that have not yet run.  A signal
    wakes any one waiter, as [sync.Cond] documents, a broadcast all of them. *)

Record sys : Type := mkSys {
  sq : Type_;
  waitG : nat;
  waitD : nat;
  wokenG : nat;
  wokenD : nat
}.

Inductive wakes : wake -> sys -> sys -> Prop :=
| wakes_none s : wakes NoWake s s
| wakes_nobody q kg kd : wakes Signal (mkSys q 0 0 kg kd) (mkSys q 0 0 kg kd)
| wakes_getter q n wd kg kd : wakes Signal (mkSys q (S n) wd kg kd) (mkSys q n wd (S kg) kd)
| wakes_drainer q wg n kg kd : wakes Signal (mkSys q wg (S n) kg kd) (mkSys q wg n kg (S kd))
| wakes_all q wg wd kg kd :
    wakes Broadcast (mkSys q wg wd kg kd) (mkSys q 0 0 (wg + kg) (wd + kd)).

(** A step of the system.  With [single], [ShutDownWithDrain] is not called while
    another call of it is blocked. *)
Inductive sys_step (single : bool) : sys -> sys -> Prop :=
| sys_Add now x q wg wd kg kd s' :
    wakes (Add now x q).2 (mkSys (Add now x q).1 wg wd kg kd) s' ->
    sys_step single (mkSys q wg wd kg kd) s'
| sys_Done now x q wg wd kg kd s' :
    x ∈ processing q ->
    wakes (Done now x q).2 (mkSys (Done now x q).1 wg wd kg kd) s' ->
    sys_step single (mkSys q wg wd kg kd) s'
| sys_ShutDown q wg wd kg kd s' :
    wakes (ShutDown q).2 (mkSys (ShutDown q).1 wg wd kg kd) s' ->
    sys_step single (mkSys q wg wd kg kd) s'
| sys_Get_waits now q q' wg wd kg kd :
    Get now q = (q', GetWaits) ->
    sys_step single (mkSys q wg wd kg kd) (mkSys q' (S wg) wd kg kd)
| sys_Get_returns now q q' o wg wd kg kd :
    Get now q = (q', o) -> o <> GetWaits ->
    sys_step single (mkSys q wg wd kg kd) (mkSys q' wg wd kg kd)
| sys_Get_resumes_waits now q q' wg wd kg kd :
    Get now q = (q', GetWaits) ->
    sys_step single (mkSys q wg wd (S kg) kd) (mkSys q' (S wg) wd kg kd)
| sys_Get_resumes_returns now q q' o wg wd kg kd :
    Get now q = (q', o) -> o <> GetWaits ->
    sys_step single (mkSys q wg wd (S kg) kd) (mkSys q' wg wd kg kd)
| sys_Drain q wg wd kg kd s' q' wg' wd' kg' kd' :
    (single = true -> wd = 0%nat /\ kd = 0%nat) ->
    wakes (ShutDownWithDrain q).2 (mkSys (ShutDownWithDrain q).1 wg wd kg kd) s' ->
    s' = mkSys q' wg' wd' kg' kd' ->
    sys_step single (mkSys q wg wd kg kd)
      (mkSys q' wg' (if drain_waits q' then S wd' else wd') kg' kd')
| sys_Drain_resumes q wg wd kg kd :
    sys_step single (mkSys q wg wd kg (S kd))
      (mkSys q wg (if drain_waits q then S wd else wd) kg kd).

Definition sys_init (metrics : M) : sys := mkSys (newQueue metrics) 0 0 0 0.

Definition sys_reach (single : bool) (metrics : M) : sys -> Prop :=
  rtc (sys_step single) (sys_init metrics).

(** Every item queued has a getter about to take it, unless no getter waits; no
    getter waits once the queue shuts down, and no drainer before. *)
Record getters_ok (s : sys) : Prop := {
  go_enough : (length (queue (sq s)) <= wokenG s)%nat \/ waitG s = 0%nat;
  go_down : shuttingDown (sq s) = true -> waitG s = 0%nat;
  go_up : shuttingDown (sq s) = false -> waitD s = 0%nat /\ wokenD s = 0%nat
}.

(** A lone drainer that waits has a reason to. *)
Record drainer_ok (s : sys) : Prop := {
  do_one : (waitD s + wokenD s <= 1)%nat;
  do_reason : waitD s = 1%nat -> drain_waits (sq s) = true
}.

End queue.
Arguments sys T M {_ _}.
Arguments Type_ T M {_ _}.
Arguments action T : clear implicits.

#[global] Instance action_eq_dec `{EqDecision T} : EqDecision (action T).
Proof. solve_decision. Defined.

(** The metrics tell the truth: the depth gauge is the number of dirty items, the
    latency clock runs for exactly these, and the work clock for exactly the items
    being processed. *)
Definition metrics_ok `{Countable T} (q : Type_ T (defaultQueueMetrics T)) : Prop :=
  depth (metrics q) = Z.of_nat (size (dirty q)) /\
  dom (addTimes (metrics q)) = dirty q /\
  dom (processingStartTimes (metrics q)) = processing q.

(** ** Lemmas *)

Section lemmas.
Context {T M : Type} `{Countable T} `{QueueMetrics T M}.
Implicit Types (q : Type_ T M).

Lemma newQueue_ok (m : M) : wq_ok (newQueue (T:=T) m).
Proof. constructor; cbn; [constructor|]. intros x. set_solver. Qed.

Lemma Add_cases now x q :
  (Add now x q = (q, NoWake) /\ (shuttingDown q = true \/ x ∈ dirty q)) \/
  (shuttingDown q = false /\ x ∉ dirty q /\ exists w,
    Add now x q = (mkType (if decide (x ∈ processing q) then queue q else queue q ++ [x])
      ({[x]} ∪ dirty q) (processing q) (shuttingDown q) (drain q) (m_add now x (metrics q)), w) /\
    w = if decide (x ∈ processing q) then NoWake else Signal).
Proof.
  unfold Add. destruct (shuttingDown q) eqn:E; [by left; auto|].
  destruct (decide (x ∈ dirty q)); [by left; auto|]. right. split; [done|split; [done|]].
  cbn. destruct (decide (x ∈ processing q)); by eexists.
Qed.

Lemma Done_cases now x q :
  exists w, Done now x q = (mkType (if decide (x ∈ dirty q) then queue q ++ [x] else queue q)
    (dirty q) (processing q ∖ {[x]}) (shuttingDown q) (drain q) (m_done now x (metrics q)), w) /\
    w = if decide (x ∈ dirty q \/ processing q ∖ {[x]} = ∅) then Signal else NoWake.
Proof.
  unfold Done. cbn. destruct (decide (x ∈ dirty q)) as [Hd|Hd].
  - eexists. split; [done|]. rewrite decide_True by auto. done.
  - destruct (decide (processing q ∖ {[x]} = ∅)); (eexists; split; [done|]);
      case_decide; naive_solver.
Qed.

Lemma wq_step_ok q a q' : wq_ok q -> wq_step q a q' -> wq_ok q'.
Proof.
  intros [Hnd Hq] Hs. destruct Hs as [now x q|now x q q' E|now x q Hp|q|q]; [| | |done|done].
  - destruct (Add_cases now x q) as [[-> _]|(_ & Hx & w & -> & _)]; [done|]. cbn.
    case_decide as Hpx; constructor; cbn; try done.
    + intros y. rewrite Hq. set_solver.
    + apply NoDup_snoc; [done|]. rewrite Hq. tauto.
    + intros y. rewrite elem_of_app, Hq. set_solver.
  - unfold Get in E. destruct (queue q) as [|y rest] eqn:Eq; [by destruct (shuttingDown q)|].
    simplify_eq. apply NoDup_cons in Hnd as [Hx Hnd]. constructor; cbn; [done|].
    intros y. specialize (Hq y). rewrite elem_of_cons in Hq. set_solver.
  - destruct (Done_cases now x q) as (w & -> & _). cbn. case_decide as Hd; constructor; cbn; try done.
    + apply NoDup_snoc; [done|]. rewrite Hq. tauto.
    + intros y. rewrite elem_of_app, Hq. destruct (decide (y = x)); set_solver.
    + intros y. rewrite Hq. destruct (decide (y = x)); set_solver.
Qed.

Lemma wq_steps_ok q l q' : wq_ok q -> wq_steps q l q' -> wq_ok q'.
Proof. intros Hok Hs. induction Hs; eauto using wq_step_ok. Qed.

Lemma state_of_step q a q' x :
  wq_ok q -> wq_step q a q' -> item_next (shuttingDown q) (state_of q x) a x = Some (state_of q' x).
Proof.
  intros [Hnd Hq] Hs. destruct Hs as [now y q|now y q q' E|now y q Hp|q|q]; [| | |done|done].
  - cbn. destruct (Add_cases now y q) as [[-> Hor]|(-> & Hx & w & -> & _)]; unfold state_of; cbn.
    + destruct Hor as [->|Hd]; [by repeat case_decide|].
      destruct (decide (x = y)); [subst|done]. destruct (shuttingDown q); by repeat case_decide.
    + destruct (decide (x = y)); [subst y|]; repeat case_decide; try done; set_solver.
  - unfold Get in E. destruct (queue q) as [|z rest] eqn:Eq; [by destruct (shuttingDown q)|].
    simplify_eq. destruct (proj1 (Hq y) ltac:(left)) as [Hd Hp]. unfold state_of; cbn.
    destruct (decide (x = y)); [subst|]; repeat case_decide; try done; set_solver.
  - destruct (Done_cases now y q) as (w & -> & _). unfold state_of. cbn.
    destruct (decide (x = y)); [subst|]; repeat case_decide; try done; set_solver.
Qed.

(** A step hands out the head of the queue, if any item, and otherwise only
    appends. *)
Lemma wq_step_queue q a q' :
  wq_step q a q' -> exists suffix, gets [a] ++ queue q' = queue q ++ suffix.
Proof.
  intros Hs. destruct Hs as [now y q|now y q q' E|now y q Hp|q|q]; cbn.
  - destruct (Add_cases now y q) as [[-> _]|(_ & _ & w & -> & _)]; cbn; [by exists []; rewrite app_nil_r|].
    case_decide; [by exists []; rewrite app_nil_r|by eexists].
  - unfold Get in E. destruct (queue q) as [|z rest]; [by destruct (shuttingDown q)|].
    simplify_eq. exists []. by rewrite app_nil_r.
  - destruct (Done_cases now y q) as (w & -> & _). cbn.
    case_decide; [by eexists|by exists []; rewrite app_nil_r].
  - exists []. by rewrite app_nil_r.
  - exists []. by rewrite app_nil_r.
Qed.

Lemma gets_cons (a : action T) l : gets (a :: l) = gets [a] ++ gets l.
Proof. by destruct a. Qed.

Lemma wq_steps_queue q l q' :
  wq_steps q l q' -> exists suffix, gets l ++ queue q' = queue q ++ suffix.
Proof.
  induction 1 as [q|q1 a q2 l q3 Hs _ [s IH]]; [by exists []; rewrite app_nil_r|].
  destruct (wq_step_queue _ _ _ Hs) as [s' E]. exists (s' ++ s).
  by rewrite gets_cons, <- (assoc_L (++)), IH, (assoc_L (++)), E, <- (assoc_L (++)).
Qed.

(** *** The system of goroutines *)

Lemma Get_cases now q :
  (Get now q = (q, GetWaits) /\ queue q = [] /\ shuttingDown q = false) \/
  (Get now q = (q, GetShutdown) /\ queue q = [] /\ shuttingDown q = true) \/
  (exists x rest, queue q = x :: rest /\
    Get now q = (mkType rest (dirty q ∖ {[x]}) ({[x]} ∪ processing q) (shuttingDown q) (drain q)
                  (m_get now x (metrics q)), GetItem x)).
Proof.
  unfold Get. destruct (queue q) as [|x rest]; [|right; right; eauto].
  destruct (shuttingDown q); auto.
Qed.

(** What a call that signals when it queues an item does to the getters. *)
Lemma getters_ok_signal q wg wd kg kd q' w s' :
  getters_ok (mkSys q wg wd kg kd) -> shuttingDown q' = shuttingDown q ->
  (queue q' = queue q \/ exists x, queue q' = queue q ++ [x] /\ w = Signal) -> w <> Broadcast ->
  wakes w (mkSys q' wg wd kg kd) s' -> getters_ok s'.
Proof.
  intros [He Hd Hu] Hsd Hq Hw Hwk. cbn in *.
  assert (Hlen : (length (queue q') <= length (queue q) + (if decide (w = Signal) then 1 else 0))%nat).
  { destruct Hq as [->|(x & -> & ->)]; [lia|]. rewrite length_app. case_decide; [cbn; lia|done]. }
  inversion Hwk; subst; try done; constructor; cbn in *; rewrite ?Hsd; try done.
  - case_decide; [done|]. destruct He; [left; lia|by right].
  - by right.
  - case_decide; [|done]. destruct He; [left; lia|done].
  - intros E. by specialize (Hd E).
  - destruct (shuttingDown q) eqn:E; [|by destruct (Hu eq_refl)]. right. by apply Hd.
  - intros E. by destruct (Hu E).
Qed.

Lemma getters_ok_get q wg wd kg kd k now q' o :
  getters_ok (mkSys q wg wd kg kd) -> Get now q = (q', o) -> k = kg \/ kg = S k ->
  getters_ok (mkSys q' (match o with GetWaits => S wg | _ => wg end) wd k kd).
Proof.
  intros [He Hd Hu] E Hk. cbn in *.
  destruct (Get_cases now q) as [(E' & Eq & Es)|[(E' & Eq & Es)|(x & rest & Eq & E')]];
    rewrite E' in E; simplify_eq; rewrite Eq in He; cbn in He; constructor; cbn;
    rewrite ?Eq, ?Es in *; cbn in *; try done; auto.
  - left. lia.
  - destruct He; [left; lia|by right].
Qed.

Lemma getters_ok_broadcast (q : Type_ T M) wd kg kd :
  shuttingDown q = true -> getters_ok (mkSys q 0 wd kg kd).
Proof. intros E. constructor; cbn; [by right|done|by rewrite E]. Qed.

Lemma Add_wake now x q :
  shuttingDown (Add now x q).1 = shuttingDown q /\ (Add now x q).2 <> Broadcast /\
  (queue (Add now x q).1 = queue q \/
   exists y, queue (Add now x q).1 = queue q ++ [y] /\ (Add now x q).2 = Signal).
Proof.
  destruct (Add_cases now x q) as [[-> _]|(E & _ & w & -> & ->)]; cbn; [by auto|].
  case_decide; split_and!; eauto.
Qed.

Lemma Done_wake now x q :
  shuttingDown (Done now x q).1 = shuttingDown q /\ (Done now x q).2 <> Broadcast /\
  (queue (Done now x q).1 = queue q \/
   exists y, queue (Done now x q).1 = queue q ++ [y] /\ (Done now x q).2 = Signal).
Proof.
  destruct (Done_cases now x q) as (w & -> & ->). cbn.
  split; [done|]. destruct (decide (x ∈ dirty q)).
  - rewrite decide_True by auto. split; eauto.
  - split; [by case_decide|by left].
Qed.

Lemma getters_ok_step single (s s' : sys T M) : getters_ok s -> sys_step single s s' -> getters_ok s'.
Proof.
  intros Hok Hs. destruct Hs as [now x q wg wd kg kd s' Hw|now x q wg wd kg kd s' _ Hw
    |q wg wd kg kd s' Hw|now q q' wg wd kg kd E|now q q' o wg wd kg kd E Ho
    |now q q' wg wd kg kd E|now q q' o wg wd kg kd E Ho
    |q wg wd kg kd s' q' wg' wd' kg' kd' _ Hw ->|q wg wd kg kd].
  - destruct (Add_wake now x q) as (? & ? & ?). by eapply getters_ok_signal.
  - destruct (Done_wake now x q) as (? & ? & ?). by eapply getters_ok_signal.
  - inversion Hw; subst. by apply getters_ok_broadcast.
  - apply (getters_ok_get _ _ _ _ _ kg _ _ _ Hok E). by left.
  - pose proof (getters_ok_get _ _ _ _ _ kg _ _ _ Hok E ltac:(by left)). by destruct o.
  - apply (getters_ok_get _ _ _ _ _ kg _ _ _ Hok E). by right.
  - pose proof (getters_ok_get _ _ _ _ _ kg _ _ _ Hok E ltac:(by right)). by destruct o.
  - inversion Hw; subst. by apply getters_ok_broadcast.
  - destruct Hok as [He Hd Hu]. cbn in *. constructor; cbn; [done|done|].
    intros E. by destruct (Hu E).
Qed.

Lemma drainer_ok_signal q wg wd kg kd q' w s' :
  getters_ok (mkSys q wg wd kg kd) -> drainer_ok (mkSys q wg wd kg kd) ->
  shuttingDown q' = shuttingDown q -> w <> Broadcast ->
  (drain_waits q = true -> drain_waits q' = false -> w = Signal) ->
  wakes w (mkSys q' wg wd kg kd) s' -> drainer_ok s'.
Proof.
  intros [_ Hd Hu] [H1 Hr] Hsd Hb Hw Hwk. cbn in *.
  assert (Hdw : wd = 1%nat -> drain_waits q' = true \/ w = Signal).
  { intros E. destruct (drain_waits q') eqn:E'; auto. }
  inversion Hwk; subst; try done; constructor; cbn in *; try lia.
  - intros E. destruct (Hdw E); done.
  - intros E. destruct (shuttingDown q) eqn:Esd; [by specialize (Hd eq_refl)|].
    destruct (Hu eq_refl). lia.
Qed.

Lemma drainer_ok_get q wg wd kg kd wg' k now q' o :
  drainer_ok (mkSys q wg wd kg kd) -> Get now q = (q', o) -> drainer_ok (mkSys q' wg' wd k kd).
Proof.
  intros [H1 Hr] E. constructor; cbn in *; [done|]. intros Hd. specialize (Hr Hd).
  destruct (Get_cases now q) as [(E' & _)|[(E' & _)|(x & rest & _ & E')]];
    rewrite E' in E; simplify_eq; try done.
  unfold drain_waits in *. cbn. apply andb_prop in Hr as [_ ->]. rewrite andb_true_r.
  apply negb_true_iff, bool_decide_eq_false. set_solver.
Qed.

Lemma drainer_ok_step (s s' : sys T M) :
  getters_ok s -> drainer_ok s -> sys_step true s s' -> drainer_ok s'.
Proof.
  intros Hg Hok Hs. destruct Hs as [now x q wg wd kg kd s' Hw|now x q wg wd kg kd s' Hx Hw
    |q wg wd kg kd s' Hw|now q q' wg wd kg kd E|now q q' o wg wd kg kd E Ho
    |now q q' wg wd kg kd E|now q q' o wg wd kg kd E Ho
    |q wg wd kg kd s' q' wg' wd' kg' kd' Hone Hw ->|q wg wd kg kd].
  - destruct (Add_wake now x q) as (? & ? & _). eapply drainer_ok_signal; [done|done|done|done| |done].
    unfold drain_waits. destruct (Add_cases now x q) as [[-> _]|(_ & _ & w & -> & _)]; cbn; congruence.
  - destruct (Done_wake now x q) as (? & ? & _). eapply drainer_ok_signal; [done|done|done|done| |done].
    unfold drain_waits. destruct (Done_cases now x q) as (w & -> & ->). cbn.
    intros [_ ->]%andb_prop. rewrite andb_true_r. intros E. apply negb_false_iff, bool_decide_eq_true in E.
    rewrite decide_True by auto. done.
  - destruct Hok as [H1 Hr]. inversion Hw; subst. constructor; cbn in *; lia.
  - eapply drainer_ok_get; eauto.
  - eapply drainer_ok_get; eauto.
  - eapply drainer_ok_get; eauto.
  - eapply drainer_ok_get; eauto.
  - destruct (Hone eq_refl) as [-> ->]. inversion Hw; subst.
    constructor; cbn; destruct (drain_waits _) eqn:E; cbn in *; try lia; done.
  - destruct Hok as [H1 Hr]. cbn in *. constructor; cbn; destruct (drain_waits q); lia || done.
Qed.

Lemma wq_steps_app_inv q l1 l2 q' :
  wq_steps q (l1 ++ l2) q' -> exists q1, wq_steps q l1 q1 /\ wq_steps q1 l2 q'.
Proof.
  revert q. induction l1 as [|a l1 IH]; intros q; cbn; [intros; exists q; split; [constructor|done]|].
  intros Hs. inversion Hs; subst. edestruct IH as (q1 & ? & ?); [done|].
  exists q1. split; [|done]. by econstructor.
Qed.

(** A dirty item stays dirty until it is handed out, and an item being processed
    stays so until it is done. *)
Lemma wq_steps_dirty q l q' x :
  wq_steps q l q' -> x ∈ dirty q -> AGet x ∉ l -> x ∈ dirty q'.
Proof.
  induction 1 as [q|q1 a q2 l q3 Hs _ IH]; [done|]. intros Hd Hl.
  apply not_elem_of_cons in Hl as [Ha Hl]. apply IH; [|done].
  destruct Hs as [now y q|now y q q' E|now y q Hp|q|q]; [| | |done|done].
  - destruct (Add_cases now y q) as [[-> _]|(_ & _ & w & -> & _)]; cbn; set_solver.
  - destruct (Get_cases now q) as [(E' & _)|[(E' & _)|(z & rest & _ & E')]];
      rewrite E' in E; simplify_eq. cbn. set_solver.
  - destruct (Done_cases now y q) as (w & -> & _). done.
Qed.

(** Whoever is not being processed is not so later without being handed out, and a [Done]
    ends the processing. *)
Lemma wq_steps_not_processing q l q' x :
  wq_steps q l q' -> (x ∈ processing q -> ADone x ∈ l) -> AGet x ∉ l -> x ∉ processing q'.
Proof.
  induction 1 as [q|q1 a q2 l q3 Hs _ IH]; [intros Hp _ Hx; by apply elem_of_nil in Hp|]. intros Hp Hl.
  apply not_elem_of_cons in Hl as [Ha Hl]. apply IH; [|done]. clear IH. intros Hx. rewrite elem_of_cons in Hp.
  destruct Hs as [now y q|now y q q' E|now y q Hin|q|q]; [| | |naive_solver..].
  - assert (E : processing (Add now y q).1 = processing q)
      by (destruct (Add_cases now y q) as [[-> _]|(_ & _ & w & -> & _)]; done).
    rewrite E in Hx. by destruct (Hp Hx) as [?|?].
  - destruct (Get_cases now q) as [(E' & _)|[(E' & _)|(z & rest & _ & E')]];
      rewrite E' in E; simplify_eq. cbn in Hx. apply elem_of_union in Hx as [Hx|Hx]; [set_solver|naive_solver].
  - destruct (Done_cases now y q) as (w & Hd & _). rewrite Hd in Hx. cbn in Hx. apply elem_of_difference in Hx as [Hx Hy].
    destruct (Hp Hx) as [Hd'|?]; [|done]. set_solver.
Qed.

Lemma elem_of_gets x (l : list (action T)) : x ∈ gets l -> AGet x ∈ l.
Proof. induction l as [|a l IH]; cbn; [by intros ?%elem_of_nil|]. destruct a; set_solver. Qed.

Lemma wq_steps_processing q l q' x :
  wq_steps q l q' -> x ∈ processing q -> ADone x ∉ l -> x ∈ processing q'.
Proof.
  induction 1 as [q|q1 a q2 l q3 Hs _ IH]; [done|]. intros Hd Hl.
  apply not_elem_of_cons in Hl as [Ha Hl]. apply IH; [|done].
  destruct Hs as [now y q|now y q q' E|now y q Hp|q|q]; [| | |done|done].
  - destruct (Add_cases now y q) as [[-> _]|(_ & _ & w & -> & _)]; done.
  - destruct (Get_cases now q) as [(E' & _)|[(E' & _)|(z & rest & _ & E')]];
      rewrite E' in E; simplify_eq. cbn. set_solver.
  - destruct (Done_cases now y q) as (w & -> & _). cbn. set_solver.
Qed.

End lemmas.

Section metrics_lemmas.
Context {T : Type} `{Countable T}.
Implicit Types (q : Type_ T (defaultQueueMetrics T)).

Lemma metrics_ok_step q a q' : wq_ok q -> wq_step q a q' -> metrics_ok q -> metrics_ok q'.
Proof.
  intros [_ Hok] Hs (Hd & Ha & Hp). destruct Hs as [now y q|now y q q' E|now y q Hin|q|q]; [| | |done|done].
  - destruct (Add_cases now y q) as [[-> _]|(_ & Hx & w & -> & _)]; [done|]. unfold metrics_ok; cbn.
    rewrite size_union, size_singleton, Hd by set_solver.
    split; [lia|]. split; [|done].
    assert (E : addTimes (metrics q) !! y = None) by (apply not_elem_of_dom; by rewrite Ha).
    by rewrite E, dom_insert_L, Ha.
  - destruct (Get_cases now q) as [(E' & _)|[(E' & _)|(z & rest & Eq & E')]];
      rewrite E' in E; simplify_eq. rewrite Eq in Hok.
    assert (Hy : y ∈ dirty q) by (apply Hok; by left).
    assert (is_Some (addTimes (metrics q) !! y)) as [s Es] by (apply elem_of_dom; by rewrite Ha).
    unfold metrics_ok; cbn. unfold metrics_get. rewrite Es. cbn.
    rewrite size_difference, size_singleton by set_solver.
    assert (size (dirty q) <> 0)%nat.
    { intros E0%size_empty_inv. set_solver. }
    split; [lia|]. by rewrite dom_delete_L, dom_insert_L, Ha, Hp.
  - destruct (Done_cases now y q) as (w & -> & _). unfold metrics_ok; cbn.
    assert (is_Some (processingStartTimes (metrics q) !! y)) as [s Es]
      by (apply elem_of_dom; by rewrite Hp).
    unfold metrics_done. rewrite Es. cbn. by rewrite dom_delete_L, Hp.
Qed.

End metrics_lemmas.

(** ** Properties *)

Section properties.
Context {T M : Type} `{Countable T} `{QueueMetrics T M}.
Implicit Types (q : Type_ T M).

(** C5: the life of an item.  In every state clients that keep to the contract can
    reach, the queue lists each item once, exactly the items that are dirty and not
    being processed; and every call moves every item as the four-state machine
    [item_next] says: idle, queued, being processed, and being processed while
    dirty again. *)
Theorem workqueue_item_lifecycle (m : M) l q a q' x :
  wq_steps (newQueue m) l q -> wq_step q a q' ->
  wq_ok q /\ item_next (shuttingDown q) (state_of q x) a x = Some (state_of q' x).
Proof.
  intros Hl Hs. pose proof (wq_steps_ok _ _ _ (newQueue_ok m) Hl). split; [done|].
  by apply state_of_step.
Qed.

(** An item is never processed by two workers at once: between two [Get]s that
    return it there is a [Done] on it. *)
Theorem workqueue_exclusive (m : M) l1 l2 l3 x q :
  wq_steps (newQueue m) (l1 ++ AGet x :: l2 ++ AGet x :: l3) q -> ADone x ∈ l2.
Proof.
  intros Hs. apply wq_steps_app_inv in Hs as (q1 & H1 & Hs). inversion Hs as [|? ? q2 ? ? Hg Hs']; subst.
  apply wq_steps_app_inv in Hs' as (q3 & H2 & Hs'). inversion Hs' as [|? ? q4 ? ? Hg' _]; subst.
  destruct (decide (ADone x ∈ l2)) as [?|Hn]; [done|exfalso].
  assert (Hok : forall l q, wq_steps (newQueue m) l q -> wq_ok q)
    by (intros; eauto using wq_steps_ok, newQueue_ok).
  pose proof (wq_step_ok _ _ _ (Hok _ _ H1) Hg) as Hok2.
  assert (x ∈ processing q2).
  { inversion Hg as [|now ? ? ? E| | |]; subst.
    destruct (Get_cases now q1) as [(E' & _)|[(E' & _)|(z & rest & _ & E')]];
      rewrite E' in E; simplify_eq. cbn. set_solver. }
  pose proof (wq_steps_processing _ _ _ _ H2 ltac:(done) Hn) as Hp.
  pose proof (wq_steps_ok _ _ _ Hok2 H2) as Hok3.
  pose proof (state_of_step _ _ _ x Hok3 Hg') as Hst.
  unfold state_of in Hst at 1. rewrite (decide_True _ _ Hp) in Hst. cbn in Hst.
  rewrite decide_True in Hst by done. by case_decide.
Qed.

(** C7: no add is lost.  After an [Add] that was not ignored because of a shutdown,
    whatever calls follow, the item is handed out by one of them, or it is in
    the queue, or it is being processed and marked to be queued again; and it is handed out
    again in the end: once the processing that was under way at the [Add], if any, is done,
    it is in the queue unless it has been handed out, there a [Get] does not wait, and as
    many [Get]s as the queue is long hand it out. *)
Theorem workqueue_no_lost_add (m : M) l q now x l1 q1 :
  wq_steps (newQueue m) l q -> shuttingDown q = false ->
  wq_steps (Add now x q).1 l1 q1 ->
  (AGet x ∈ l1 \/ x ∈ queue q1 \/ (x ∈ processing q1 /\ x ∈ dirty q1)) /\
  ((x ∈ processing q -> ADone x ∈ l1) -> AGet x ∉ l1 ->
   (forall now', exists y q2, Get now' q1 = (q2, GetItem y)) /\
   (forall l2 q2, wq_steps q1 l2 q2 -> (length (queue q1) <= length (gets l2))%nat -> AGet x ∈ l2)).
Proof.
  intros Hl Hsd Hs.
  pose proof (wq_steps_ok _ _ _ (newQueue_ok m) Hl) as Hok.
  assert (Hd : x ∈ dirty (Add now x q).1 /\ processing (Add now x q).1 = processing q).
  { destruct (Add_cases now x q) as [[-> [?|?]]|(_ & _ & w & -> & _)]; cbn; [congruence|done|set_solver]. }
  destruct Hd as [Hd Hpq]. pose proof (wq_step_ok _ _ _ Hok (wq_Add now x q)) as Hok1.
  pose proof (wq_steps_ok _ _ _ Hok1 Hs) as [_ Hq].
  assert (Hdirty : AGet x ∉ l1 -> x ∈ dirty q1) by (intros Hn; by eapply wq_steps_dirty).
  split.
  - destruct (decide (AGet x ∈ l1)) as [?|Hn]; [by left|right]. specialize (Hdirty Hn).
    destruct (decide (x ∈ processing q1)); [by right|left]. by apply Hq.
  - intros Hdone Hn. assert (Hx : x ∈ queue q1).
    { apply Hq. split; [by apply Hdirty|]. eapply wq_steps_not_processing; [exact Hs|by rewrite Hpq|done]. }
    split.
    + intros now'. destruct (Get_cases now' q1) as [(_ & Eq & _)|[(_ & Eq & _)|(y & rest & _ & ->)]]; [..|eauto];
        rewrite Eq in Hx; by apply elem_of_nil in Hx.
    + intros l2 q2 Hs2 Hlen. apply elem_of_gets. destruct (wq_steps_queue _ _ _ Hs2) as [suffix E].
      apply (f_equal (take (length (queue q1)))) in E. rewrite take_app_le, take_app_length in E by done.
      rewrite <- E in Hx. rewrite <- (take_drop (length (queue q1)) (gets l2)). apply elem_of_app. by left.
Qed.

(** First in, first out.  The items handed out, followed by those still
    queued, are those queued before followed by those queued since. *)
Theorem workqueue_fifo (m : M) l0 q l q' :
  wq_steps (newQueue m) l0 q -> wq_steps q l q' ->
  exists queued_since, gets l ++ queue q' = queue q ++ queued_since /\ NoDup (queue q').
Proof.
  intros H0' Hs. destruct (wq_steps_queue _ _ _ Hs) as [s E]. exists s. split; [done|].
  apply ok_nodup. eauto using wq_steps_ok, newQueue_ok.
Qed.

(** C19: no wakeup is lost.  In every reachable state of any number of goroutines
    calling the queue, when items are queued while getters wait, at least as many
    getters have been woken and are about to run as there are items; and once the
    queue shuts down no getter waits. *)
Theorem workqueue_no_lost_wakeup (single : bool) (m : M) s :
  sys_reach single m s ->
  ((0 < waitG s)%nat -> (length (queue (sq s)) <= wokenG s)%nat) /\
  (shuttingDown (sq s) = true -> waitG s = 0%nat).
Proof.
  intros Hr. assert (getters_ok s) as [He Hd _]; [|split; [intros; destruct He; lia|done]].
  unfold sys_reach in Hr. remember (sys_init m) as s0 eqn:Es0.
  assert (H0' : getters_ok s0) by (subst; constructor; cbn; [by right|done|done]). clear Es0.
  induction Hr as [|s1 s2 s3 Hs _ IH]; eauto using getters_ok_step.
Qed.

(** A drainer is woken.  When [ShutDownWithDrain] is not called while another
    call of it is blocked, a call that waits always has a reason: items are still
    being processed and [ShutDown] was not called since.  So the [Done] that ends the
    last processing, and a [ShutDown], let it return. *)
Theorem workqueue_drain_woken (m : M) s :
  sys_reach true m s -> (0 < waitD s)%nat ->
  processing (sq s) <> ∅ /\ drain (sq s) = true.
Proof.
  intros Hr Hw. assert (getters_ok s /\ drainer_ok s) as [_ [H1 Hre]].
  { clear Hw. unfold sys_reach in Hr. remember (sys_init m) as s0 eqn:Es0.
    assert (H0' : getters_ok s0 /\ drainer_ok s0)
      by (subst; split; constructor; cbn; (lia || auto)). clear Es0.
    induction Hr as [|s1 s2 s3 Hs _ IH]; [done|]. destruct H0' as [Hg Hd].
    apply IH. eauto using getters_ok_step, drainer_ok_step. }
  specialize (Hre ltac:(lia)). unfold drain_waits in Hre.
  apply andb_prop in Hre as [Hp ?]. apply negb_true_iff, bool_decide_eq_false in Hp. done.
Qed.

End properties.

(** The metrics tell the truth.  With [defaultQueueMetrics], in every state
    clients that keep to the contract can reach, the depth gauge is the number of
    dirty items (also those being processed, which [Len] does not count), an item's
    latency clock runs exactly while it is dirty, and its work clock exactly while
    it is being processed. *)
Theorem workqueue_metrics_truth {T} `{Countable T} l (q : Type_ T (defaultQueueMetrics T)) :
  wq_steps (newQueue newQueueMetrics) l q -> metrics_ok q.
Proof.
  intros Hs. assert (Hm : metrics_ok (newQueue (T:=T) newQueueMetrics)).
  { unfold metrics_ok. cbn. by rewrite size_empty, !dom_empty_L. }
  pose proof (newQueue_ok (T:=T) (newQueueMetrics (T:=T))) as Hok.
  induction Hs as [|q1 a q2 l q3 H1 _ IH]; [done|].
  apply IH; eauto using metrics_ok_step, wq_step_ok.
Qed.

(** ** What [ShutDownWithDrain] does not promise *)

(** The drain is of the items being processed, not of the queue.  A call of
    [ShutDownWithDrain] on a queue with an item that nobody has got yet returns at
    once. *)
Theorem drain_ignores_queued_items :
  exists q : Type_ string unit,
    wq_steps (newQueue tt) [AAdd "a"; AShutDownWithDrain] q /\
    queue q = ["a"] /\ drain_waits q = false.
Proof.
  eexists. split; [|split].
  - econstructor; [apply (wq_Add 0 "a")|]. econstructor; [apply wq_ShutDownWithDrain|constructor].
  - vm_compute. reflexivity.
  - vm_compute. reflexivity.
Qed.

(** Of two concurrent calls of [ShutDownWithDrain] one may never return.  There
    is a reachable state in which the queue is empty, nothing is being processed and
    one of the two has returned, while the other still waits and nobody has woken
    it: no item is left to call [Done] on, and an [Add] signals nobody. *)
Theorem two_drainers_one_stuck :
  exists s : sys string unit, sys_reach false tt s /\
    waitD s = 1%nat /\ wokenD s = 0%nat /\ queue (sq s) = [] /\
    processing (sq s) = ∅ /\ shuttingDown (sq s) = true /\
    forall now x, (Add now x (sq s)).2 = NoWake.
Proof.
  pose (q1 := (Add 0 "a" (newQueue (T:=string) tt)).1).
  pose (q2 := (Get 0 q1).1).
  pose (q3 := (ShutDownWithDrain q2).1).
  pose (q4 := (Done 0 "a" q3).1).
  exists (mkSys q4 0 1 0 0). split; [|by vm_compute].
  unfold sys_reach.
  eapply rtc_l with (mkSys q1 0 0 0 0).
  { apply (sys_Add false 0 "a" (newQueue tt)). apply wakes_nobody. }
  eapply rtc_l with (mkSys q2 0 0 0 0).
  { by apply (sys_Get_returns false 0 q1 q2 (GetItem "a")). }
  eapply rtc_l with (mkSys q3 0 1 0 0).
  { apply (sys_Drain false q2 0 0 0 0 (mkSys q3 0 0 0 0) q3 0 0 0 0); [done| |done].
    apply wakes_all. }
  eapply rtc_l with (mkSys q3 0 1 0 1).
  { apply (sys_Drain false q3 0 1 0 0 (mkSys q3 0 0 0 1) q3 0 0 0 1); [done| |done].
    apply wakes_all. }
  eapply rtc_l with (mkSys q3 0 2 0 0); [apply (sys_Drain_resumes false q3 0 1 0 0)|].
  eapply rtc_l with (mkSys q4 0 1 0 1).
  { apply (sys_Done false 0 "a" q3); [vm_compute; set_solver|]. apply wakes_drainer. }
  eapply rtc_l with (mkSys q4 0 1 0 0); [apply (sys_Drain_resumes false q4 0 1 0 0)|].
  apply rtc_refl.
Qed.

(** ** Witnesses *)

Definition wit_queue : Type_ string unit := (Add 0 "b" (Add 0 "a" (newQueue tt)).1).1.
Definition wit_got : Type_ string unit := (Get 0 wit_queue).1.

Lemma wit_queue_steps : wq_steps (newQueue tt) [AAdd "a"; AAdd "b"] wit_queue.
Proof. econstructor; [apply (wq_Add 0 "a")|]. econstructor; [apply (wq_Add 0 "b")|constructor]. Qed.

Lemma wit_got_step : wq_step wit_queue (AGet "a") wit_got.
Proof. apply (wq_Get 0). vm_compute. reflexivity. Qed.

Lemma workqueue_item_lifecycle_witness :
  wq_ok wit_queue /\ state_of wit_queue "a" = Queued /\ state_of wit_got "a" = Processing.
Proof.
  destruct (workqueue_item_lifecycle tt _ wit_queue (AGet "a") wit_got "a" wit_queue_steps wit_got_step)
    as [Hok _].
  split; [exact Hok|split; vm_compute; reflexivity].
Defined.

Definition wit_trace : list (action string) :=
  [AAdd "a"] ++ AGet "a" :: [AAdd "a"; ADone "a"] ++ AGet "a" :: [].

Lemma wit_trace_steps : exists q : Type_ string unit, wq_steps (newQueue tt) wit_trace q.
Proof.
  eexists. econstructor; [apply (wq_Add 0 "a")|]. econstructor; [apply (wq_Get 0); vm_compute; reflexivity|].
  econstructor; [apply (wq_Add 0 "a")|]. econstructor; [apply (wq_Done 0); vm_compute; set_solver|].
  econstructor; [apply (wq_Get 0); vm_compute; reflexivity|]. constructor.
Qed.

Lemma workqueue_exclusive_witness : ADone "a" ∈ [AAdd "a"; ADone "a"].
Proof.
  destruct wit_trace_steps as [q Hq].
  exact (workqueue_exclusive tt [AAdd "a"] [AAdd "a"; ADone "a"] [] "a" q Hq).
Defined.

(** "a" is added again while it is being processed, and "b" after it; then "a" is done. *)
Lemma workqueue_no_lost_add_witness :
  let q := (Get 0 (Add 0 "a" (newQueue (T:=string) tt)).1).1 in
  let q1 := (Done 0 "a" (Add 0 "b" (Add 0 "a" q).1).1).1 in
  "a" ∈ processing q /\ queue q1 = ["b"; "a"] /\ AGet "a" ∈ [AGet "b"; AGet "a"].
Proof.
  intros q q1. split; [vm_compute; set_solver|]. split; [vm_compute; reflexivity|].
  assert (Hq : wq_steps (newQueue tt) [AAdd "a"; AGet "a"] q).
  { econstructor; [apply (wq_Add 0 "a")|]. econstructor; [apply (wq_Get 0); vm_compute; reflexivity|constructor]. }
  assert (Hq1 : wq_steps (Add 0 "a" q).1 [AAdd "b"; ADone "a"] q1).
  { econstructor; [apply (wq_Add 0 "b")|]. econstructor; [apply (wq_Done 0 "a"); vm_compute; set_solver|constructor]. }
  destruct (workqueue_no_lost_add tt _ q 0 "a" _ q1 Hq eq_refl Hq1) as [_ Hlive].
  destruct Hlive as [_ Hlive]; [intros _; by right; left|apply not_elem_of_cons; split; [done|]; apply not_elem_of_cons; split; [done|apply not_elem_of_nil]|].
  apply (Hlive _ (Get 0 (Get 0 q1).1).1); [|vm_compute; lia].
  econstructor; [apply (wq_Get 0); vm_compute; reflexivity|]. econstructor; [apply (wq_Get 0); vm_compute; reflexivity|constructor].
Defined.

Lemma workqueue_fifo_witness :
  exists since, gets [AGet "a"] ++ queue wit_got = queue wit_queue ++ since /\ NoDup (queue wit_got).
Proof.
  apply (workqueue_fifo tt _ wit_queue [AGet "a"] wit_got wit_queue_steps).
  econstructor; [apply wit_got_step|constructor].
Defined.

(** A getter waits, then an item is added. *)
Lemma workqueue_no_lost_wakeup_witness :
  let s := mkSys (Add 0 "a" (newQueue (T:=string) tt)).1 1 0 1 0 in
  (length (queue (sq s)) <= wokenG s)%nat.
Proof.
  refine (proj1 (workqueue_no_lost_wakeup false tt
    (mkSys (Add 0 "a" (newQueue (T:=string) tt)).1 1 0 1 0) _) _); [|cbn; lia].
  unfold sys_reach. eapply rtc_l; [by apply (sys_Get_waits false 0)|].
  eapply rtc_l; [by apply (sys_Get_waits false 0)|].
  eapply rtc_l; [|apply rtc_refl]. apply (sys_Add false 0 "a"). apply wakes_getter.
Defined.

Lemma workqueue_drain_woken_witness :
  let q := (ShutDownWithDrain (Get 0 (Add 0 "a" (newQueue (T:=string) tt)).1).1).1 in
  processing q <> ∅ /\ drain q = true.
Proof.
  pose (q2 := (Get 0 (Add 0 "a" (newQueue (T:=string) tt)).1).1).
  pose (q3 := (ShutDownWithDrain q2).1).
  refine (workqueue_drain_woken tt (mkSys q3 0 1 0 0) _ _); [|cbn; lia]. unfold sys_reach.
  eapply rtc_l with (mkSys (Add 0 "a" (newQueue tt)).1 0 0 0 0).
  { apply (sys_Add true 0 "a" (newQueue tt)). apply wakes_nobody. }
  eapply rtc_l with (mkSys q2 0 0 0 0).
  { by apply (sys_Get_returns true 0 _ _ (GetItem "a")). }
  eapply rtc_l; [|apply rtc_refl].
  apply (sys_Drain true q2 0 0 0 0 (mkSys q3 0 0 0 0) q3 0 0 0 0); [done| |done].
  apply wakes_all.
Defined.

Lemma workqueue_metrics_truth_witness :
  metrics_ok (Get 7 (Add 3 "a" (newQueue (T:=string) newQueueMetrics)).1).1.
Proof.
  apply (workqueue_metrics_truth [AAdd "a"; AGet "a"]).
  econstructor; [apply (wq_Add 3 "a")|]. econstructor; [|constructor].
  apply (wq_Get 7). vm_compute. reflexivity.
Defined.
