(* ===== verification/GoHeap.v ===== *)
(** * The standard library's container/heap.

    The algorithms [Init], [Push], [Pop], [Remove] and [Fix] run over the methods of
    a [heap.Interface], which util/workqueue/delaying_queue.go and
    tools/cache/heap.go implement.  [HeapInterface] is that interface and
    [HeapLaws] what an implementation promises; the theorems of the algorithms are
    proved against it.  The loops have fuel: [up] moves to a smaller index at every
    turn and [down] to a larger one, so the index, or the length, is enough; the
    heap order that holds at the end is only reached by a loop that ended. *)

From S2P Require Import Prelude.
#[local] Open Scope nat_scope.

Class HeapInterface (H X : Type) : Type := {
  h_Len : H -> nat;
  h_Less : nat -> nat -> H -> bool;
  h_Swap : nat -> nat -> H -> H;
  h_Push : X -> H -> H;
  h_Pop : H -> option (X * H)
}.

Section algorithms.
Context {H X : Type} `{HeapInterface H X}.

Fixpoint up_loop (fuel : nat) (j : nat) (h : H) : H :=
  match fuel with
  | O => h
  | S fuel =>
      let i := (j - 1) / 2 in
      if bool_decide (i = j) || negb (h_Less j i h) then h
      else up_loop fuel i (h_Swap i j h)
  end.

Definition up (j : nat) (h : H) : H := up_loop (S j) j h.

(** The result is the state and the index the loop ends at. *)
Fixpoint down_loop (fuel : nat) (i n : nat) (h : H) : H * nat :=
  match fuel with
  | O => (h, i)
  | S fuel =>
      let j1 := 2 * i + 1 in
      if n <=? j1 then (h, i)
      else
        let j2 := j1 + 1 in
        let j := if (j2 <? n) && h_Less j2 j1 h then j2 else j1 in
        if negb (h_Less j i h) then (h, i)
        else down_loop fuel j n (h_Swap i j h)
  end.

Definition down (i0 n : nat) (h : H) : H * bool :=
  let '(h, i) := down_loop n i0 n h in (h, i0 <? i).

Fixpoint Init_loop (k n : nat) (h : H) : H :=
  match k with
  | O => h
  | S i => Init_loop i n (down i n h).1
  end.

Definition heap_Init (h : H) : H := let n := h_Len h in Init_loop (n / 2) n h.

Definition heap_Push (x : X) (h : H) : H :=
  let h := h_Push x h in up (h_Len h - 1) h.

(** [None]: [Pop] of an empty heap panics in [Swap]. *)
Definition heap_Pop (h : H) : option (X * H) :=
  if h_Len h =? 0 then None
  else
    let n := h_Len h - 1 in
    let h := h_Swap 0 n h in
    h_Pop (down 0 n h).1.

Definition heap_Remove (i : nat) (h : H) : option (X * H) :=
  if h_Len h <=? i then None
  else
    let n := h_Len h - 1 in
    let h :=
      if negb (n =? i) then
        let h := h_Swap i n h in
        let '(h, moved) := down i n h in
        if negb moved then up i h else h
      else h in
    h_Pop h.

Definition heap_Fix (i : nat) (h : H) : H :=
  let '(h, moved) := down i (h_Len h) h in
  if negb moved then up i h else h.

End algorithms.

(** ** The laws of an implementation *)

(** Where an index goes when [i] and [j] are swapped. *)
Definition swapped (i j k : nat) : nat :=
  if decide (k = i) then j else if decide (k = j) then i else k.

Definition list_swap {E} (i j : nat) (l : list E) : list E :=
  match l !! i, l !! j with
  | Some a, Some b => <[i := b]> (<[j := a]> l)
  | _, _ => l
  end.

(** [hv_view h] is the list of elements, [hv_frame] what no operation changes and
    the order depends on. *)
Class HeapLaws (H X E F : Type) `{HeapInterface H X} : Type := {
  hv_view : H -> list E;
  hv_frame : H -> F;
  hv_inv : H -> Prop;
  hv_lt : F -> E -> E -> bool;
  hv_elem : X -> F -> E;
  hv_push_ok : X -> H -> Prop;
  hv_lt_asym f a b : hv_lt f a b = true -> hv_lt f b a = false;
  hv_le_trans f a b c : hv_lt f b a = false -> hv_lt f c b = false -> hv_lt f c a = false;
  h_Len_law h : hv_inv h -> h_Len h = length (hv_view h);
  h_Less_law h i j a b : hv_inv h -> hv_view h !! i = Some a -> hv_view h !! j = Some b ->
    h_Less i j h = hv_lt (hv_frame h) a b;
  h_Swap_law h i j : hv_inv h -> i < length (hv_view h) -> j < length (hv_view h) ->
    hv_inv (h_Swap i j h) /\ hv_view (h_Swap i j h) = list_swap i j (hv_view h) /\
    hv_frame (h_Swap i j h) = hv_frame h;
  h_Push_law h x : hv_inv h -> hv_push_ok x h ->
    hv_inv (h_Push x h) /\ hv_frame (h_Push x h) = hv_frame h /\
    hv_view (h_Push x h) = hv_view h ++ [hv_elem x (hv_frame h)];
  h_Pop_law h l e : hv_inv h -> hv_view h = l ++ [e] ->
    exists x h', h_Pop h = Some (x, h') /\ hv_inv h' /\ hv_view h' = l /\
      hv_frame h' = hv_frame h /\ hv_elem x (hv_frame h) = e
}.

(** The parent of an index. *)
Definition parent (k : nat) : nat := (k - 1) / 2.

Section specification.
Context {H X E F : Type} `{HeapLaws H X E F}.

(** The element at [i] is not above the one at [j] in the order. *)
Definition le_at (h : H) (i j : nat) : Prop :=
  forall a b, hv_view h !! i = Some a -> hv_view h !! j = Some b ->
    hv_lt (hv_frame h) b a = false.

(** The heap order on the first [n] elements: none is less than its parent. *)
Definition heap_upto (n : nat) (h : H) : Prop :=
  forall k, 0 < k < n -> le_at h (parent k) k.

Definition heap_ok (h : H) : Prop := heap_upto (length (hv_view h)) h.

(** The heap order holds but for the element at [i], and without it. *)
Definition heap_except (n : nat) (h : H) (i : nat) : Prop :=
  (forall k, 0 < k < n -> k <> i -> parent k <> i -> le_at h (parent k) k) /\
  (forall k, 0 < k < n -> parent k = i -> 0 < i -> le_at h (parent i) k).

(** [h'] has the elements of [h], in another order. *)
Definition rearranged (h h' : H) : Prop :=
  hv_inv h' /\ hv_view h' ≡ₚ hv_view h /\ hv_frame h' = hv_frame h.

End specification.

(** ** Lemmas *)

Lemma parent_lt k : 0 < k -> parent k < k.
Proof. intros. unfold parent. pose proof (Nat.div_le_upper_bound (k - 1) 2 (k - 1)). lia. Qed.

Lemma parent_child i k : 0 < k -> parent k = i <-> k = 2 * i + 1 \/ k = 2 * i + 2.
Proof.
  intros Hk. unfold parent. pose proof (Nat.div_mod (k - 1) 2 ltac:(lia)).
  pose proof (Nat.mod_upper_bound (k - 1) 2 ltac:(lia)). lia.
Qed.

Section list_swap.
Context {E : Type}.
Implicit Types l : list E.

Lemma length_list_swap i j l : length (list_swap i j l) = length l.
Proof. unfold list_swap. repeat split_match; by rewrite ?length_insert. Qed.

Lemma lookup_list_swap i j l k :
  i < length l -> j < length l -> list_swap i j l !! k = l !! swapped i j k.
Proof.
  intros [a Ha]%lookup_lt_is_Some [b Hb]%lookup_lt_is_Some. unfold list_swap, swapped.
  rewrite Ha, Hb. pose proof (lookup_lt_Some _ _ _ Ha). pose proof (lookup_lt_Some _ _ _ Hb).
  destruct (decide (k = i)) as [->|Hi].
  - rewrite list_lookup_insert_eq by (rewrite length_insert; done). done.
  - rewrite list_lookup_insert_ne by done. destruct (decide (k = j)) as [->|Hj].
    + by rewrite list_lookup_insert_eq.
    + by rewrite list_lookup_insert_ne.
Qed.

Lemma list_swap_Permutation i j l : list_swap i j l ≡ₚ l.
Proof.
  unfold list_swap. destruct (l !! i) as [a|] eqn:Ha; [|done].
  destruct (l !! j) as [b|] eqn:Hb; [|done].
  by apply Permutation_insert_swap.
Qed.

End list_swap.

Section heap_lemmas.
Context {H X E F : Type} `{HeapLaws H X E F}.
Implicit Types h : H.

Lemma rearranged_refl h : hv_inv h -> rearranged h h.
Proof. done. Qed.

Lemma rearranged_trans h1 h2 h3 : rearranged h1 h2 -> rearranged h2 h3 -> rearranged h1 h3.
Proof.
  intros (_ & P1 & F1) (? & P2 & F2). split; [done|]. split; [by rewrite P2|congruence].
Qed.

Lemma rearranged_length h h' : rearranged h h' -> length (hv_view h') = length (hv_view h).
Proof. intros (_ & P & _). by apply Permutation_length. Qed.

Lemma rearranged_swap h i j :
  hv_inv h -> i < length (hv_view h) -> j < length (hv_view h) -> rearranged h (h_Swap i j h).
Proof.
  intros Hi Hli Hlj. destruct (h_Swap_law h i j Hi Hli Hlj) as (? & Hv & ?).
  split; [done|]. split; [|done]. rewrite Hv. apply list_swap_Permutation.
Qed.

Lemma le_at_swap h i j a b :
  hv_inv h -> i < length (hv_view h) -> j < length (hv_view h) ->
  le_at h (swapped i j a) (swapped i j b) -> le_at (h_Swap i j h) a b.
Proof.
  intros Hi Hli Hlj Hle x y. destruct (h_Swap_law h i j Hi Hli Hlj) as (_ & -> & ->).
  rewrite !lookup_list_swap by done. apply Hle.
Qed.

Lemma le_at_refl h i : le_at h i i.
Proof.
  intros a b Ha Hb. simplify_eq. destruct (hv_lt (hv_frame h) a a) eqn:Ea; [|done].
  by rewrite (hv_lt_asym _ _ _ Ea) in Ea.
Qed.

Lemma le_at_trans h i j k :
  j < length (hv_view h) -> le_at h i j -> le_at h j k -> le_at h i k.
Proof.
  intros [b Hb]%lookup_lt_is_Some Hij Hjk a c Ha Hc. eapply hv_le_trans; eauto.
Qed.

Lemma Less_false h i j :
  hv_inv h -> h_Less j i h = false -> le_at h i j.
Proof. intros Hi Hl a b Ha Hb. by rewrite <- (h_Less_law h j i b a). Qed.

Lemma Less_true h i j :
  hv_inv h -> h_Less j i h = true -> le_at h j i.
Proof.
  intros Hi Hl a b Ha Hb. apply hv_lt_asym. by rewrite <- (h_Less_law h j i a b).
Qed.

(** *** up *)

Definition up_inv (n : nat) (h : H) (j : nat) : Prop :=
  (forall k, 0 < k < n -> k <> j -> le_at h (parent k) k) /\
  (forall k, 0 < k < n -> parent k = j -> 0 < j -> le_at h (parent j) k).

Lemma up_inv_swap n h j :
  hv_inv h -> n <= length (hv_view h) -> 0 < j < n -> up_inv n h j -> le_at h j (parent j) ->
  up_inv n (h_Swap (parent j) j h) (parent j).
Proof.
  intros Hi Hn Hj [HA HB] Hle. pose proof (parent_lt j ltac:(lia)) as Hp.
  split; intros k Hk; pose proof (parent_lt k ltac:(lia)) as Hpk.
  - intros Hki. apply le_at_swap; [done|lia|lia|]. unfold swapped.
    rewrite (decide_False (P := k = parent j)) by done.
    destruct (decide (k = j)) as [->|Hkj]; [by rewrite decide_True by done|].
    destruct (decide (parent k = parent j)) as [E1|E1].
    { apply le_at_trans with (parent j); [lia|done|]. rewrite <- E1. by apply HA. }
    destruct (decide (parent k = j)) as [E2|E2]; [apply HB; [lia|done|lia]|by apply HA].
  - intros Epk Hpos. pose proof (parent_lt (parent j) Hpos) as Hpp.
    apply le_at_swap; [done|lia|lia|]. unfold swapped.
    rewrite (decide_False (P := parent (parent j) = parent j)) by lia.
    rewrite (decide_False (P := parent (parent j) = j)) by lia.
    rewrite (decide_False (P := k = parent j)) by lia.
    assert (Hpj : le_at h (parent (parent j)) (parent j)) by (apply HA; lia).
    destruct (decide (k = j)) as [->|Hkj]; [done|].
    apply le_at_trans with (parent j); [lia|done|]. rewrite <- Epk. by apply HA.
Qed.

Lemma up_loop_ok fuel n j h :
  hv_inv h -> n <= length (hv_view h) -> j < n -> j < fuel -> up_inv n h j ->
  let h' := up_loop fuel j h in
  rearranged h h' /\ heap_upto n h' /\ (forall k, n <= k -> hv_view h' !! k = hv_view h !! k).
Proof.
  revert j h. induction fuel as [|fuel IH]; intros j h Hi Hn Hj Hf Hup; [lia|].
  cbn [up_loop]. fold (parent j). case_bool_decide as Epj; cbn [orb].
  { split_and!; try done. destruct Hup as [HA _]. intros k Hk. apply HA; [done|].
    destruct (decide (j = 0)) as [->|Hj0]; [lia|]. pose proof (parent_lt j ltac:(lia)). lia. }
  destruct (h_Less j (parent j) h) eqn:El; cbn [negb].
  - assert (Hj0 : 0 < j) by (destruct j; [done|lia]). pose proof (parent_lt j Hj0) as Hp.
    pose proof (rearranged_swap h (parent j) j Hi ltac:(lia) ltac:(lia)) as Hr.
    destruct (IH (parent j) (h_Swap (parent j) j h)) as (Hr' & Hok & Hrest).
    + apply Hr.
    + rewrite (rearranged_length _ _ Hr). lia.
    + lia.
    + lia.
    + apply up_inv_swap; [done|done|lia|done|]. by apply Less_true.
    + split_and!; [by eapply rearranged_trans|done|]. intros k Hk. rewrite Hrest by done.
      destruct (h_Swap_law h (parent j) j Hi ltac:(lia) ltac:(lia)) as (_ & -> & _).
      rewrite lookup_list_swap by lia. unfold swapped. by rewrite !decide_False by lia.
  - split_and!; try done. destruct Hup as [HA _]. intros k Hk.
    destruct (decide (k = j)) as [->|Hkj]; [by apply Less_false|by apply HA].
Qed.

(** *** down *)

(** The order holds from [lo] on but for the children of [i], and for the pair of
    [i0] and its parent as long as the loop has not left [i0]. *)
Definition down_inv (lo n i0 i : nat) (h : H) : Prop :=
  (forall k, 0 < k < n -> lo <= parent k -> parent k <> i -> k <> i0 \/ i <> i0 ->
     le_at h (parent k) k) /\
  (forall k, 0 < k < n -> parent k = i -> 0 < i -> lo <= parent i -> le_at h (parent i) k).

Definition down_done (lo n i0 i : nat) (h : H) : Prop :=
  forall k, 0 < k < n -> lo <= parent k -> k <> i0 \/ i <> i0 -> le_at h (parent k) k.

Lemma down_inv_swap lo n i0 i j h :
  hv_inv h -> n <= length (hv_view h) -> i0 <= i -> j < n -> 0 < j -> parent j = i ->
  (forall k, 0 < k < n -> parent k = i -> le_at h j k) -> le_at h j i ->
  down_inv lo n i0 i h -> down_inv lo n i0 j (h_Swap i j h).
Proof.
  intros Hi Hn Hi0 Hjn Hj0 Hpj Hmin Hji [HA HB]. pose proof (parent_lt j Hj0) as Hlt.
  split; intros k Hk; pose proof (parent_lt k ltac:(lia)) as Hpk.
  - intros Hlo Hkj _. apply le_at_swap; [done|lia|lia|]. unfold swapped.
    rewrite (decide_False (P := parent k = j)) by done.
    destruct (decide (parent k = i)) as [E1|E1].
    { rewrite (decide_False (P := k = i)) by lia.
      destruct (decide (k = j)) as [->|Hne]; [done|by apply Hmin]. }
    destruct (decide (k = i)) as [->|Hne].
    { apply HB; [lia|done|lia|lia]. }
    destruct (decide (k = j)) as [->|Hne']; [done|]. apply HA; try done.
    destruct (decide (i = i0)) as [->|]; [left; done|by right].
  - intros Epk _ Hlo. apply le_at_swap; [done|lia|lia|]. unfold swapped.
    rewrite (decide_True (P := parent j = i)) by done.
    rewrite (decide_False (P := k = i)), (decide_False (P := k = j)) by lia.
    rewrite <- Epk. apply HA; lia.
Qed.

Lemma down_loop_ok fuel lo n i0 i h :
  hv_inv h -> n <= length (hv_view h) -> n <= fuel + i -> i0 <= i -> down_inv lo n i0 i h ->
  let '(h', i') := down_loop fuel i n h in
  rearranged h h' /\ i <= i' /\ down_done lo n i0 i' h' /\ (i' = i -> h' = h) /\
  (forall k, n <= k -> hv_view h' !! k = hv_view h !! k).
Proof.
  revert i h. induction fuel as [|fuel IH]; intros i h Hi Hn Hf Hi0 Hinv; cbn [down_loop].
  { split_and!; try done. intros k Hk Hlo Hor.
    destruct Hinv as [HA _]. apply HA; try done. pose proof (parent_lt k ltac:(lia)). lia. }
  destruct (n <=? 2 * i + 1) eqn:En.
  { apply Nat.leb_le in En. split_and!; try done.
    intros k Hk Hlo Hor. destruct Hinv as [HA _]. apply HA; try done.
    intros E1%parent_child; lia. }
  apply Nat.leb_gt in En. cbn zeta.
  set (j := if (2 * i + 1 + 1 <? n) && h_Less (2 * i + 1 + 1) (2 * i + 1) h
            then 2 * i + 1 + 1 else 2 * i + 1).
  assert (Hj : i < j < n /\ parent j = i /\ forall k, 0 < k < n -> parent k = i -> le_at h j k).
  { subst j. destruct (2 * i + 1 + 1 <? n) eqn:E2; cbn [andb].
    - apply Nat.ltb_lt in E2. destruct (h_Less (2 * i + 1 + 1) (2 * i + 1) h) eqn:El.
      + split_and!; [lia|lia|apply parent_child; lia|]. intros k Hk [->| ->]%parent_child; [| |lia].
        * replace (2 * i + 1 + 1) with (2 * i + 2) in * by lia. by apply Less_true.
        * replace (2 * i + 1 + 1) with (2 * i + 2) in * by lia.
          apply le_at_refl.
      + split_and!; [lia|lia|apply parent_child; lia|]. intros k Hk [->| ->]%parent_child; [| |lia].
        * apply le_at_refl.
        * replace (2 * i + 1 + 1) with (2 * i + 2) in * by lia. by apply Less_false.
    - apply Nat.ltb_ge in E2. split_and!; [lia|lia|apply parent_child; lia|].
      intros k Hk [->| ->]%parent_child; [|lia|lia].
      apply le_at_refl. }
  clearbody j. destruct Hj as (Hjn & Hpj & Hmin).
  destruct (h_Less j i h) eqn:El; cbn [negb].
  - pose proof (rearranged_swap h i j Hi ltac:(lia) ltac:(lia)) as Hr.
    pose proof (rearranged_length _ _ Hr) as Hlen.
    specialize (IH j (h_Swap i j h)). destruct (down_loop fuel j n (h_Swap i j h)) as [h' i'].
    destruct IH as (Hr' & Hij & Hd & _ & Hrest); [apply Hr|lia|lia|lia| |].
    { apply down_inv_swap; try done; [lia|lia|]. by apply Less_true. }
    split_and!; [by eapply rearranged_trans|lia|done|lia|].
    intros k Hk. rewrite Hrest by done. destruct (h_Swap_law h i j Hi ltac:(lia) ltac:(lia)) as (_ & -> & _).
    rewrite lookup_list_swap by lia. unfold swapped. by rewrite !decide_False by lia.
  - split_and!; try done. intros k Hk Hlo Hor.
    destruct (decide (parent k = i)) as [E1|E1].
    + rewrite E1. eapply le_at_trans; [|by apply Less_false|by apply Hmin]. lia.
    + destruct Hinv as [HA _]. by apply HA.
Qed.

(** [down] and, when it does not move the element, [up]: what [Fix] and [Remove] do
    to repair the order at [i]. *)
Lemma down_up_ok n i h :
  hv_inv h -> n <= length (hv_view h) -> i < n -> heap_except n h i ->
  let h' := (let '(h1, moved) := down i n h in if negb moved then up i h1 else h1) in
  rearranged h h' /\ heap_upto n h' /\ (forall k, n <= k -> hv_view h' !! k = hv_view h !! k).
Proof.
  intros Hi Hn Hin [HA HB]. cbn zeta. unfold down.
  pose proof (down_loop_ok n 0 n i i h Hi Hn ltac:(lia) ltac:(lia)) as Hd.
  destruct (down_loop n i n h) as [h1 i1]. destruct Hd as (Hr & Hle & Hdone & Hsame & Hrest).
  { split; [|intros; by apply HB]. intros k Hk _ Hpk [?|?]; [by apply HA|done]. }
  destruct (i <? i1) eqn:Ei; cbn [negb].
  - apply Nat.ltb_lt in Ei. split_and!; [done| |done]. intros k Hk. apply Hdone; lia.
  - apply Nat.ltb_ge in Ei. assert (i1 = i) as -> by lia. rewrite (Hsame eq_refl) in *.
    apply up_loop_ok; [done|done|done|lia|]. split; [|done].
    intros k Hk Hki. apply Hdone; [done|lia|by left].
Qed.

(** Removing the last element of a view that is a heap without it. *)
Lemma h_Pop_last n h e :
  hv_inv h -> length (hv_view h) = S n -> hv_view h !! n = Some e -> heap_upto n h ->
  exists x h', h_Pop h = Some (x, h') /\ hv_inv h' /\ hv_frame h' = hv_frame h /\
    hv_elem x (hv_frame h) = e /\ hv_view h ≡ₚ e :: hv_view h' /\ heap_ok h'.
Proof.
  intros Hi Hlen He Hup.
  assert (Hv : hv_view h = take n (hv_view h) ++ [e]).
  { rewrite <- (take_drop n (hv_view h)) at 1. f_equal.
    rewrite (drop_S _ e n He), drop_ge by lia. done. }
  destruct (h_Pop_law h _ _ Hi Hv) as (x & h' & Hpop & Hi' & Hv' & Hf & Hx).
  exists x, h'. split_and!; [done|done|done|done| |].
  - rewrite Hv' . rewrite Hv at 1. by rewrite Permutation_app_comm.
  - unfold heap_ok. rewrite Hv', length_take, Nat.min_l by lia. intros k Hk a b.
    pose proof (parent_lt k ltac:(lia)).
    rewrite Hv', Hf, !lookup_take_lt by lia. by apply Hup.
Qed.

Lemma heap_Init_ok h :
  hv_inv h -> rearranged h (heap_Init h) /\ heap_ok (heap_Init h).
Proof.
  intros Hi. unfold heap_Init. rewrite h_Len_law by done.
  set (n := length (hv_view h)).
  assert (Hk : forall k g, rearranged h g ->
    (forall j, 0 < j < n -> k <= parent j -> le_at g (parent j) j) ->
    rearranged h (Init_loop k n g) /\ heap_upto n (Init_loop k n g)).
  { induction k as [|i IH]; intros g Hg Hord; cbn [Init_loop].
    { split; [done|]. intros j Hj. apply Hord; lia. }
    unfold down. pose proof (down_loop_ok n i n i i g) as Hd.
    destruct (down_loop n i n g) as [g1 i1] eqn:Eg. cbn [fst].
    destruct Hd as (Hr & Hle & Hdone & _).
    - apply Hg.
    - by rewrite (rearranged_length _ _ Hg).
    - lia.
    - lia.
    - split; intros j Hj; pose proof (parent_lt j ltac:(lia)).
      + intros Hlo Hne _. apply Hord; lia.
      + intros _ Hpos Hlo. pose proof (parent_lt i Hpos). lia.
    - apply IH; [by eapply rearranged_trans|]. intros j Hj Hij.
      pose proof (parent_lt j ltac:(lia)). apply Hdone; lia. }
  destruct (Hk (n / 2) h (rearranged_refl h Hi)) as [Hr Hup].
  { intros j Hj Hp. unfold parent in Hp. exfalso.
    pose proof (Nat.div_mod n 2 ltac:(lia)). pose proof (Nat.mod_upper_bound n 2 ltac:(lia)).
    pose proof (Nat.div_mod (j - 1) 2 ltac:(lia)). lia. }
  split; [done|]. unfold heap_ok. by rewrite (rearranged_length _ _ Hr).
Qed.

Lemma heap_Push_ok x h :
  hv_inv h -> hv_push_ok x h -> heap_ok h ->
  let h' := heap_Push x h in
  hv_inv h' /\ hv_frame h' = hv_frame h /\ heap_ok h' /\
  hv_view h' ≡ₚ hv_elem x (hv_frame h) :: hv_view h.
Proof.
  intros Hi Hx Hok. cbn zeta. unfold heap_Push, up.
  destruct (h_Push_law h x Hi Hx) as (Hi' & Hf & Hv). rewrite h_Len_law by done.
  assert (Hlen : length (hv_view (h_Push x h)) = S (length (hv_view h)))
    by (rewrite Hv, length_app; cbn; lia).
  destruct (up_loop_ok (S (length (hv_view (h_Push x h)) - 1)) (length (hv_view (h_Push x h)))
    (length (hv_view (h_Push x h)) - 1) (h_Push x h) Hi') as ((Hi2 & Hp & Hf2) & Hup & _);
    [lia|lia|lia| |].
  { rewrite Hlen. split; intros k Hk; pose proof (parent_lt k ltac:(lia)); [|lia].
    intros Hne a b. rewrite Hv, Hf, !lookup_app_l by lia. apply Hok. lia. }
  split_and!; [done|congruence| |].
  - unfold heap_ok. by rewrite (Permutation_length Hp).
  - rewrite Hp, Hv. by rewrite Permutation_app_comm.
Qed.

Lemma heap_head_min h k :
  heap_ok h -> k < length (hv_view h) -> le_at h 0 k.
Proof.
  intros Hok. induction (lt_wf k) as [k _ IH]. intros Hk.
  destruct (decide (k = 0)) as [->|Hk0]; [apply le_at_refl|].
  pose proof (parent_lt k ltac:(lia)). apply le_at_trans with (parent k); [lia|apply IH; lia|].
  apply Hok. lia.
Qed.

Lemma heap_Pop_ok h e :
  hv_inv h -> heap_ok h -> head (hv_view h) = Some e ->
  exists x h', heap_Pop h = Some (x, h') /\ hv_inv h' /\ hv_frame h' = hv_frame h /\
    hv_elem x (hv_frame h) = e /\ hv_view h ≡ₚ e :: hv_view h' /\ heap_ok h' /\
    (forall e', e' ∈ hv_view h -> hv_lt (hv_frame h) e' e = false).
Proof.
  intros Hi Hok He. rewrite head_lookup in He. pose proof (lookup_lt_Some _ _ _ He) as Hlen.
  unfold heap_Pop. rewrite h_Len_law by done. destruct (length (hv_view h)) as [|n] eqn:En; [lia|].
  cbn [Nat.eqb Nat.sub]. rewrite Nat.sub_0_r.
  pose proof (rearranged_swap h 0 n Hi ltac:(lia) ltac:(lia)) as Hr.
  unfold down. pose proof (down_loop_ok n 0 n 0 0 (h_Swap 0 n h)) as Hd.
  destruct (down_loop n 0 n (h_Swap 0 n h)) as [h1 i1]. cbn [fst].
  destruct Hd as (Hr1 & _ & Hdone & _ & Hrest); [apply Hr|rewrite (rearranged_length _ _ Hr); lia|lia|lia| |].
  { split; intros k Hk; pose proof (parent_lt k ltac:(lia)); [|lia]. intros _ Hpk _.
    apply le_at_swap; [done|lia|lia|]. unfold swapped. rewrite !decide_False by lia.
    apply Hok. lia. }
  pose proof (rearranged_trans _ _ _ Hr Hr1) as Hr2.
  assert (Hlast : hv_view h1 !! n = Some e).
  { rewrite Hrest by lia. destruct (h_Swap_law h 0 n Hi ltac:(lia) ltac:(lia)) as (_ & -> & _).
    rewrite lookup_list_swap by lia. unfold swapped.
    destruct (decide (n = 0)) as [->|]; [done|]. by rewrite decide_True by done. }
  destruct (h_Pop_last n h1 e) as (x & h' & -> & Hi' & Hf & Hx & Hp & Hok').
  - apply Hr2.
  - by rewrite (rearranged_length _ _ Hr2).
  - done.
  - intros k Hk. apply Hdone; lia.
  - destruct Hr2 as (_ & Hperm & Hframe). exists x, h'.
    split_and!; [done|done|congruence|congruence|by rewrite <- Hperm|done|].
    intros e' [k Hk]%list_elem_of_lookup. eapply (heap_head_min h k); [done| |done|done].
    by eapply lookup_lt_Some.
Qed.

Lemma heap_Remove_ok h i e :
  hv_inv h -> heap_ok h -> hv_view h !! i = Some e ->
  exists x h', heap_Remove i h = Some (x, h') /\ hv_inv h' /\ hv_frame h' = hv_frame h /\
    hv_elem x (hv_frame h) = e /\ hv_view h ≡ₚ e :: hv_view h' /\ heap_ok h'.
Proof.
  intros Hi Hok He. pose proof (lookup_lt_Some _ _ _ He) as Hlen.
  unfold heap_Remove. rewrite h_Len_law by done.
  destruct (length (hv_view h)) as [|n] eqn:En; [lia|].
  replace (S n <=? i) with false by (symmetry; apply Nat.leb_gt; lia).
  cbn [Nat.sub]. rewrite Nat.sub_0_r. destruct (n =? i) eqn:Eni; cbn [negb].
  - apply Nat.eqb_eq in Eni as ->. apply (h_Pop_last i); [done|done|done|].
    intros k Hk. apply Hok. lia.
  - apply Nat.eqb_neq in Eni.
    pose proof (rearranged_swap h i n Hi ltac:(lia) ltac:(lia)) as Hr.
    destruct (down_up_ok n i (h_Swap i n h)) as (Hr1 & Hup & Hrest);
      [apply Hr|rewrite (rearranged_length _ _ Hr); lia|lia| |].
    { split; intros k Hk; pose proof (parent_lt k ltac:(lia)).
      - intros Hki Hpk. apply le_at_swap; [done|lia|lia|]. unfold swapped.
        rewrite !decide_False by lia. apply Hok. lia.
      - intros Epk Hpos. pose proof (parent_lt i Hpos). apply le_at_swap; [done|lia|lia|].
        unfold swapped. rewrite !decide_False by lia.
        apply le_at_trans with i; [lia|apply Hok; lia|]. rewrite <- Epk. apply Hok. lia. }
    destruct (down i n (h_Swap i n h)) as [h1 moved].
    pose proof (rearranged_trans _ _ _ Hr Hr1) as Hr2.
    destruct (h_Pop_last n (if negb moved then up i h1 else h1) e) as (x & h' & -> & Hi' & Hf & Hx & Hp & Hok').
    + apply Hr2.
    + by rewrite (rearranged_length _ _ Hr2).
    + rewrite Hrest by lia. destruct (h_Swap_law h i n Hi ltac:(lia) ltac:(lia)) as (_ & -> & _).
      rewrite lookup_list_swap by lia. unfold swapped. by rewrite decide_False, decide_True by lia.
    + done.
    + destruct Hr2 as (_ & Hperm & Hframe). exists x, h'.
      split_and!; [done|done|congruence|congruence|by rewrite <- Hperm|done].
Qed.

Lemma heap_Fix_ok h i :
  hv_inv h -> i < length (hv_view h) -> heap_except (length (hv_view h)) h i ->
  rearranged h (heap_Fix i h) /\ heap_ok (heap_Fix i h).
Proof.
  intros Hi Hlt Hex. unfold heap_Fix. rewrite h_Len_law by done.
  destruct (down_up_ok (length (hv_view h)) i h Hi ltac:(done) Hlt Hex) as (Hr & Hup & _).
  destruct (down i (length (hv_view h)) h) as [h1 moved]. split; [done|].
  unfold heap_ok. by rewrite (rearranged_length _ _ Hr).
Qed.

(** A heap whose element at [i] alone was changed is a heap but for [i]. *)
Lemma heap_except_changed h h' i :
  heap_ok h -> length (hv_view h') = length (hv_view h) -> i < length (hv_view h) ->
  (forall k1 k2, k1 <> i -> k2 <> i -> le_at h k1 k2 -> le_at h' k1 k2) ->
  heap_except (length (hv_view h')) h' i.
Proof.
  intros Hok Hlen Hi Hch. rewrite Hlen. split; intros k Hk; pose proof (parent_lt k ltac:(lia)).
  - intros Hki Hpk. apply Hch; [done|done|]. apply Hok. lia.
  - intros Epk Hpos. pose proof (parent_lt i Hpos). apply Hch; [lia|lia|].
    apply le_at_trans with i; [done|apply Hok; lia|]. rewrite <- Epk. apply Hok. lia.
Qed.

End heap_lemmas.
