(* ===== verification/DelayingQueue.v ===== *)
(** * The delaying queue: util/workqueue/delaying_queue.go.

    The waiting loop's heap holds pointers to [waitFor] entries, which the map
    [waitingEntryByData] and the channel [waitingForAddCh] hold too; the entries
    live in the memory [mem] and a pointer is its address, so that a write through
    the map is seen through the heap.  The loop's goroutine, the callers of
    [AddAfter] and the workers interleave: each section of the loop that does not
    wait is one step.  The embedded queue is any [QueueInterface]; [time.Time]
    is a point on the nanosecond axis. *)

From S2P Require Import Prelude GoHeap WorkQueue.

(** What the delaying queue calls of the [Interface] it embeds. *)
Class QueueInterface (T Q : Type) : Type := {
  qi_Add : T -> Q -> Q;
  qi_ShuttingDown : Q -> bool;
  qi_ShutDown : Q -> Q
}.

(** The work queue without metrics. *)
#[export] Instance Type_QueueInterface `{Countable T} : QueueInterface T (Type_ T unit) := {|
  qi_Add item q := (Add 0 item q).1;
  qi_ShuttingDown := ShuttingDown;
  qi_ShutDown q := (ShutDown q).1
|}.

Section delaying.
Context {T : Type} `{Countable T}.

Abbreviation ptr := nat.

Record waitFor : Type := mkWaitFor { wf_data : T; readyAt : Z; wf_index : Z }.

(** The heap: the slice of pointers, and the memory they point into. *)
Record waitForPriorityQueue : Type := mkPQ { mem : gmap ptr waitFor; pq : list ptr }.

Definition set_wf_index (p : ptr) (i : Z) (m : gmap ptr waitFor) : gmap ptr waitFor :=
  match m !! p with
  | Some w => <[p := mkWaitFor (wf_data w) (readyAt w) i]> m
  | None => m
  end.

Definition readyAt_of (m : gmap ptr waitFor) (p : ptr) : Z :=
  match m !! p with Some w => readyAt w | None => 0 end.

Definition pq_Len (h : waitForPriorityQueue) : nat := length (pq h).

Definition pq_Less (i j : nat) (h : waitForPriorityQueue) : bool :=
  match pq h !! i, pq h !! j with
  | Some p, Some q => readyAt_of (mem h) p <? readyAt_of (mem h) q
  | _, _ => false
  end.

Definition pq_Swap (i j : nat) (h : waitForPriorityQueue) : waitForPriorityQueue :=
  match pq h !! i, pq h !! j with
  | Some pi, Some pj =>
      mkPQ (set_wf_index pi (Z.of_nat j) (set_wf_index pj (Z.of_nat i) (mem h)))
        (<[i := pj]> (<[j := pi]> (pq h)))
  | _, _ => h
  end.

Definition pq_Push (p : ptr) (h : waitForPriorityQueue) : waitForPriorityQueue :=
  mkPQ (set_wf_index p (Z.of_nat (length (pq h))) (mem h)) (pq h ++ [p]).

Definition pq_Pop (h : waitForPriorityQueue) : option (ptr * waitForPriorityQueue) :=
  match last (pq h) with
  | None => None
  | Some item => Some (item, mkPQ (set_wf_index item (-1) (mem h)) (take (length (pq h) - 1) (pq h)))
  end.

Definition pq_Peek (h : waitForPriorityQueue) : option ptr := head (pq h).

#[export] Instance pq_Interface : HeapInterface waitForPriorityQueue ptr := {|
  h_Len := pq_Len;
  h_Less := pq_Less;
  h_Swap := pq_Swap;
  h_Push := pq_Push;
  h_Pop := pq_Pop
|}.

Definition waitingForAddCh_cap : nat := 1000.

Section queue.
Context {Q : Type} `{QueueInterface T Q}.

Record delayingType : Type := mkDelaying {
  Interface : Q;
  stopCh_closed : bool;
  waitingForAddCh : list ptr;
  retries : Z;
  waitingForQueue : waitForPriorityQueue;
  waitingEntryByData : gmap T ptr
}.

Definition newDelayingQueue (q : Q) : delayingType :=
  mkDelaying q false [] 0 (heap_Init (mkPQ ∅ [])) ∅.

Definition with_Interface (q : Q) (s : delayingType) : delayingType :=
  mkDelaying q (stopCh_closed s) (waitingForAddCh s) (retries s) (waitingForQueue s)
    (waitingEntryByData s).

(** [q.Add] is the embedded queue's. *)
Definition delaying_Add (item : T) (s : delayingType) : delayingType :=
  with_Interface (qi_Add item (Interface s)) s.

(** [ShutDown]: the body of [stopOnce.Do] runs once. *)
Definition delaying_ShutDown (s : delayingType) : delayingType :=
  if stopCh_closed s then s
  else mkDelaying (qi_ShutDown (Interface s)) true (waitingForAddCh s) (retries s)
         (waitingForQueue s) (waitingEntryByData s).

(** The states a call of [AddAfter] may end in; none while it blocks on a full
    channel.  The [select] takes either branch that is ready. *)
Definition AddAfter (now : Z) (item : T) (duration : Z) (s : delayingType) : list delayingType :=
  if qi_ShuttingDown (Interface s) then [s]
  else
    let s := mkDelaying (Interface s) (stopCh_closed s) (waitingForAddCh s) (retries s + 1)
               (waitingForQueue s) (waitingEntryByData s) in
    if duration <=? 0 then [delaying_Add item s]
    else
      (if stopCh_closed s then [s] else []) ++
      (if (length (waitingForAddCh s) <? waitingForAddCh_cap)%nat then
         let m := mem (waitingForQueue s) in
         let p := fresh (dom m) in
         [mkDelaying (Interface s) (stopCh_closed s) (waitingForAddCh s ++ [p]) (retries s)
            (mkPQ (<[p := mkWaitFor item (now + duration) 0]> m) (pq (waitingForQueue s)))
            (waitingEntryByData s)]
       else []).

(** [insert], the entry being a pointer. *)
Definition insert_entry (entry : ptr) (s : delayingType) : delayingType :=
  let h := waitingForQueue s in
  match mem h !! entry with
  | None => s
  | Some e =>
      match waitingEntryByData s !! wf_data e with
      | Some existing =>
          match mem h !! existing with
          | None => s
          | Some ex =>
              if readyAt e <? readyAt ex then
                let h := mkPQ (<[existing := mkWaitFor (wf_data ex) (readyAt e) (wf_index ex)]> (mem h))
                           (pq h) in
                mkDelaying (Interface s) (stopCh_closed s) (waitingForAddCh s) (retries s)
                  (heap_Fix (Z.to_nat (wf_index ex)) h) (waitingEntryByData s)
              else s
          end
      | None =>
          mkDelaying (Interface s) (stopCh_closed s) (waitingForAddCh s) (retries s)
            (heap_Push entry h) (<[wf_data e := entry]> (waitingEntryByData s))
      end
  end.

(** The loop of [waitingLoop] that adds the ready entries. *)
Fixpoint add_ready (fuel : nat) (now : Z) (s : delayingType) : delayingType :=
  match fuel with
  | 0%nat => s
  | S fuel =>
      match pq_Peek (waitingForQueue s) with
      | None => s
      | Some p =>
          if now <? readyAt_of (mem (waitingForQueue s)) p then s
          else
            match heap_Pop (waitingForQueue s) with
            | None => s
            | Some (entry, h) =>
                match mem h !! entry with
                | None => s
                | Some e =>
                    add_ready fuel now
                      (mkDelaying (qi_Add (wf_data e) (Interface s)) (stopCh_closed s)
                         (waitingForAddCh s) (retries s) h
                         (delete (wf_data e) (waitingEntryByData s)))
                end
            end
      end
  end.

(** One turn of [waitingLoop] up to its [select]: the state and the delay of the
    timer it waits on, if any; [None] when the loop returns. *)
Definition waitingLoop_top (now : Z) (s : delayingType) : option (delayingType * option Z) :=
  if qi_ShuttingDown (Interface s) then None
  else
    let s := add_ready (length (pq (waitingForQueue s))) now s in
    Some (s, (fun p => time_sub (readyAt_of (mem (waitingForQueue s)) p) now)
               <$> pq_Peek (waitingForQueue s)).

(** Receiving one entry from the channel, in the [select] or in the draining loop;
    [now] is the clock at that moment. *)
Definition waitingLoop_receive (now : Z) (s : delayingType) : option delayingType :=
  match waitingForAddCh s with
  | [] => None
  | waitEntry :: ch =>
      let s := mkDelaying (Interface s) (stopCh_closed s) ch (retries s) (waitingForQueue s)
                 (waitingEntryByData s) in
      match mem (waitingForQueue s) !! waitEntry with
      | None => Some s
      | Some e =>
          if now <? readyAt e then Some (insert_entry waitEntry s)
          else Some (delaying_Add (wf_data e) s)
      end
  end.

(** ** Executions: the callers, the loop and the workers, in any order. *)
Inductive delaying_step : delayingType -> delayingType -> Prop :=
| ds_AddAfter now item duration s s' :
    s' ∈ AddAfter now item duration s -> delaying_step s s'
| ds_Add item s : delaying_step s (delaying_Add item s)
| ds_top now s s' timer : waitingLoop_top now s = Some (s', timer) -> delaying_step s s'
| ds_receive now s s' : waitingLoop_receive now s = Some s' -> delaying_step s s'
| ds_ShutDown s : delaying_step s (delaying_ShutDown s)
| ds_worker q s : delaying_step s (with_Interface q s).

Definition delaying_reach (q : Q) : delayingType -> Prop := rtc delaying_step (newDelayingQueue q).

(** ** Specification *)

(** What an entry says, without its place in the heap. *)
Definition entry_of (m : gmap ptr waitFor) (p : ptr) : option (T * Z) :=
  (fun w => (wf_data w, readyAt w)) <$> m !! p.

(** The items that wait, with the time each is ready. *)
Definition waiting (s : delayingType) : gmap T Z :=
  readyAt_of (mem (waitingForQueue s)) <$> waitingEntryByData s.

(** The entries in the channel. *)
Definition sent (s : delayingType) : list (T * Z) :=
  omap (entry_of (mem (waitingForQueue s))) (waitingForAddCh s).

(** Adding an entry to the waiting items: the earlier time counts. *)
Definition wait_min (x : T) (t : Z) (m : gmap T Z) : gmap T Z :=
  <[x := match m !! x with Some t0 => Z.min t0 t | None => t end]> m.

End queue.

(** The slice holds each pointer once, and an entry in it knows its place. *)
Record pq_ok (h : waitForPriorityQueue) : Prop := {
  pok_nodup : NoDup (pq h);
  pok_index : forall i p, pq h !! i = Some p ->
    exists w, mem h !! p = Some w /\ wf_index w = Z.of_nat i
}.

End delaying.
Arguments waitFor T : clear implicits.
Arguments waitForPriorityQueue T : clear implicits.
Arguments delayingType T {_ _} Q.

(** ** Lemmas *)

Section laws.
Context {T : Type} `{Countable T}.
Implicit Types (h : waitForPriorityQueue T) (m : gmap nat (waitFor T)).

(** What the memory says of every entry, places aside. *)
Definition frame_of m : gmap nat (T * Z) := (fun w => (wf_data w, readyAt w)) <$> m.

#[local] Arguments frame_of : simpl never.

Definition time_in (f : gmap nat (T * Z)) (p : nat) : Z :=
  match f !! p with Some e => e.2 | None => 0 end.

Lemma entry_of_frame m p : entry_of m p = frame_of m !! p.
Proof. unfold entry_of, frame_of. by rewrite lookup_fmap. Qed.

Lemma readyAt_of_frame m p : readyAt_of m p = time_in (frame_of m) p.
Proof.
  unfold readyAt_of, time_in, frame_of. rewrite lookup_fmap. by destruct (m !! p).
Qed.

Lemma frame_of_set_wf_index p i m : frame_of (set_wf_index p i m) = frame_of m.
Proof.
  unfold set_wf_index. destruct (m !! p) as [w|] eqn:E; [|done]. unfold frame_of.
  rewrite fmap_insert. apply insert_id. by rewrite lookup_fmap, E.
Qed.

Lemma lookup_set_wf_index p i m q w :
  m !! q = Some w ->
  set_wf_index p i m !! q =
  Some (mkWaitFor (wf_data w) (readyAt w) (if decide (p = q) then i else wf_index w)).
Proof.
  intros E. unfold set_wf_index. destruct (m !! p) as [w'|] eqn:Ep.
  - rewrite lookup_insert. case_decide; [subst; by simplify_eq|]. rewrite E. by destruct w.
  - case_decide; [congruence|]. rewrite E. by destruct w.
Qed.

Lemma pq_Swap_ok h i j :
  pq_ok h -> (i < length (pq h))%nat -> (j < length (pq h))%nat ->
  pq_ok (pq_Swap i j h) /\ pq (pq_Swap i j h) = list_swap i j (pq h) /\
  frame_of (mem (pq_Swap i j h)) = frame_of (mem h).
Proof.
  intros [Hnd Hidx] Hi Hj.
  pose proof (lookup_list_swap i j (pq h)) as Hsw.
  pose proof (list_swap_Permutation i j (pq h)) as Hp.
  pose proof Hi as [pi Hpi]%lookup_lt_is_Some. pose proof Hj as [pj Hpj]%lookup_lt_is_Some.
  unfold pq_Swap, list_swap in *. rewrite Hpi, Hpj in *. cbn.
  rewrite !frame_of_set_wf_index. split; [|done].
  constructor; cbn; [by rewrite Hp|]. intros x p Hx. rewrite Hsw in Hx by done.
  destruct (Hidx _ _ Hx) as (w & Hw & Hwi). unfold swapped in *.
  eexists. split.
  { apply lookup_set_wf_index. by apply lookup_set_wf_index. }
  cbn. assert (Hinj : forall a b q, pq h !! a = Some q -> pq h !! b = Some q -> a = b)
    by (intros; eapply NoDup_lookup; eauto).
  destruct (decide (x = i)) as [->|].
  - assert (p = pj) as -> by congruence. case_decide; [|by rewrite decide_True].
    subst. f_equal. by apply (Hinj j i pj).
  - destruct (decide (x = j)) as [->|].
    + assert (p = pi) as -> by congruence. by rewrite decide_True.
    + rewrite !decide_False; [done| |]; intros ->; eauto.
Qed.

Lemma pq_Push_ok p h :
  pq_ok h -> p ∉ pq h -> is_Some (mem h !! p) ->
  pq_ok (pq_Push p h) /\ frame_of (mem (pq_Push p h)) = frame_of (mem h).
Proof.
  intros [Hnd Hidx] Hp [w Hw]. split; [|apply frame_of_set_wf_index].
  constructor; cbn; [by apply NoDup_snoc|]. intros i q [Hq|[Hle Hq]]%lookup_app_Some.
  - destruct (Hidx _ _ Hq) as (w' & Hw' & Hi). eexists. split; [by apply lookup_set_wf_index|].
    cbn. rewrite decide_False; [done|]. intros ->. apply Hp. by eapply list_elem_of_lookup_2.
  - apply list_lookup_singleton_Some in Hq as [Hz ->].
    eexists. split; [by apply lookup_set_wf_index|]. cbn. rewrite decide_True by done. lia.
Qed.

Lemma pq_Pop_ok h l e :
  pq_ok h -> pq h = l ++ [e] ->
  exists h', pq_Pop h = Some (e, h') /\ pq_ok h' /\ pq h' = l /\ frame_of (mem h') = frame_of (mem h).
Proof.
  intros [Hnd Hidx] Hq. unfold pq_Pop. rewrite Hq, last_snoc, length_app. cbn.
  replace (length l + 1 - 1)%nat with (length l + 0)%nat by lia. rewrite take_app_add. cbn.
  rewrite app_nil_r. eexists. split; [done|]. cbn. rewrite frame_of_set_wf_index. split; [|done].
  rewrite Hq in Hnd. apply NoDup_app in Hnd as (Hl & Hd & _). constructor; cbn; [done|].
  intros i p Hp. destruct (Hidx i p) as (w & Hw & Hi); [rewrite Hq; by apply lookup_app_l_Some|].
  eexists. split; [by apply lookup_set_wf_index|]. cbn. rewrite decide_False; [done|].
  intros <-. apply (Hd e); [by eapply list_elem_of_lookup_2|by left].
Qed.

#[export] Program Instance pq_laws :
    HeapLaws (waitForPriorityQueue T) nat nat (gmap nat (T * Z)) := {|
  hv_view := pq;
  hv_frame h := frame_of (mem h);
  hv_inv := pq_ok;
  hv_lt f p q := time_in f p <? time_in f q;
  hv_elem x _ := x;
  hv_push_ok p h := p ∉ pq h /\ is_Some (mem h !! p)
|}.
Next Obligation. intros f a b. cbn. rewrite Z.ltb_lt, Z.ltb_ge. lia. Qed.
Next Obligation. intros f a b c. cbn. rewrite !Z.ltb_ge. lia. Qed.
Next Obligation. done. Qed.
Next Obligation.
  intros h i j a b _. cbn. intros Ha Hb. unfold pq_Less. by rewrite Ha, Hb, !readyAt_of_frame.
Qed.
Next Obligation. intros h i j Hok Hi Hj. cbn in *. by apply pq_Swap_ok. Qed.
Next Obligation.
  intros h p Hok [Hp Hm]. cbn in *. by destruct (pq_Push_ok p h Hok Hp Hm).
Qed.
Next Obligation.
  intros h l e Hok Hv. cbn in *. destruct (pq_Pop_ok h l e Hok Hv) as (h' & ? & ? & ? & ?).
  by exists e, h'.
Qed.

(** The order of the heap only depends on the times of its own entries. *)
Lemma heap_ok_same_times h h' :
  heap_ok h -> pq h' = pq h ->
  (forall p, p ∈ pq h -> readyAt_of (mem h') p = readyAt_of (mem h) p) -> heap_ok h'.
Proof.
  intros Hok Hq Ht k Hk a b. cbn in *. rewrite Hq in *. intros Ha Hb.
  rewrite <- !readyAt_of_frame, !Ht by (by eapply list_elem_of_lookup_2).
  rewrite !readyAt_of_frame. by apply (Hok k).
Qed.

End laws.

#[local] Arguments frame_of : simpl never.

Section delaying_lemmas.
Context {T Q : Type} `{Countable T} `{QueueInterface T Q}.
Implicit Types (s : delayingType T Q).

Record delaying_ok s : Prop := {
  dy_pq : pq_ok (waitingForQueue s);
  dy_heap : heap_ok (waitingForQueue s);
  dy_known : forall x p, waitingEntryByData s !! x = Some p <->
    p ∈ pq (waitingForQueue s) /\ exists t, frame_of (mem (waitingForQueue s)) !! p = Some (x, t);
  dy_nodup : NoDup (waitingForAddCh s);
  dy_chan : forall p, p ∈ waitingForAddCh s ->
    p ∉ pq (waitingForQueue s) /\ is_Some (frame_of (mem (waitingForQueue s)) !! p)
}.

Lemma is_Some_frame (m : gmap nat (waitFor T)) p : is_Some (frame_of m !! p) <-> is_Some (m !! p).
Proof. unfold frame_of. rewrite lookup_fmap. apply fmap_is_Some. Qed.

Lemma newDelayingQueue_ok q : delaying_ok (newDelayingQueue (T:=T) q).
Proof.
  assert (Hok : pq_ok (mkPQ (T:=T) ∅ [])) by (constructor; cbn; [constructor|done]).
  destruct (heap_Init_ok (H1:=pq_laws) (mkPQ (T:=T) ∅ []) Hok) as ((Hi & _ & _) & Hh).
  unfold newDelayingQueue. constructor; cbn [waitingForQueue waitingEntryByData waitingForAddCh].
  - done.
  - done.
  - intros x p. rewrite lookup_empty. split; [done|]. intros [Hin _].
    by apply not_elem_of_nil in Hin.
  - constructor.
  - by intros p ?%not_elem_of_nil.
Qed.

Lemma lookup_waiting s x t :
  delaying_ok s -> waiting s !! x = Some t <->
  exists p, p ∈ pq (waitingForQueue s) /\ frame_of (mem (waitingForQueue s)) !! p = Some (x, t).
Proof.
  intros Hok. unfold waiting. rewrite lookup_fmap. split.
  - destruct (waitingEntryByData s !! x) as [p|] eqn:E; [|done]. cbn. intros [= <-].
    apply (dy_known _ Hok) in E as [Hp [t Ht]]. exists p. split; [done|].
    rewrite readyAt_of_frame. unfold time_in. by rewrite Ht.
  - intros (p & Hp & Ht). assert (waitingEntryByData s !! x = Some p) as ->
      by (apply (dy_known _ Hok); eauto).
    cbn. rewrite readyAt_of_frame. unfold time_in. by rewrite Ht.
Qed.

(** *** The ready entries *)

(** Taking the first entry out of the heap. *)
Lemma take_first s p rest :
  delaying_ok s -> pq (waitingForQueue s) = p :: rest ->
  exists h x t w, heap_Pop (waitingForQueue s) = Some (p, h) /\
    mem h !! p = Some w /\ wf_data w = x /\
    frame_of (mem h) = frame_of (mem (waitingForQueue s)) /\
    readyAt_of (mem (waitingForQueue s)) p = t /\
    waiting s !! x = Some t /\
    (forall x' t', waiting s !! x' = Some t' -> t <= t') /\
    forall q, let s' := mkDelaying q (stopCh_closed s) (waitingForAddCh s) (retries s) h
                          (delete x (waitingEntryByData s)) in
      delaying_ok s' /\ waiting s' = delete x (waiting s) /\ sent s' = sent s /\
      length (pq h) = length rest.
Proof.
  intros Hok Hq. pose proof Hok as [Hpq Hheap Hknown Hnd Hch].
  destruct (heap_Pop_ok (H1:=pq_laws) (waitingForQueue s) p Hpq Hheap) as
    (x0 & h & E & Hpq' & Hf & Hx & Hperm & Hheap' & Hmin); [cbn; by rewrite Hq|].
  cbn in Hx, Hperm, Hf, Hmin. subst x0.
  assert (Hw : is_Some (mem (waitingForQueue s) !! p)).
  { destruct (pok_index _ Hpq 0%nat p) as (w & ? & _); [by rewrite Hq|by eexists]. }
  assert (Hw' : is_Some (mem h !! p)) by (by rewrite <- is_Some_frame, Hf, is_Some_frame).
  destruct Hw' as [w Hw']. exists h, (wf_data w), (readyAt w), w.
  assert (Hfp : frame_of (mem (waitingForQueue s)) !! p = Some (wf_data w, readyAt w)).
  { rewrite <- Hf. unfold frame_of. by rewrite lookup_fmap, Hw'. }
  assert (Hpin : p ∈ pq (waitingForQueue s)) by (rewrite Hq; left).
  assert (Hpw : waiting s !! wf_data w = Some (readyAt w)) by (apply lookup_waiting; eauto).
  pose proof (pok_nodup _ Hpq) as Hnd1. rewrite Hperm in Hnd1. apply NoDup_cons in Hnd1 as [Hp _].
  split; [done|]. split; [done|]. split; [done|]. split; [done|].
  split; [rewrite readyAt_of_frame; unfold time_in; by rewrite Hfp|]. split; [done|].
  split.
  { intros x' t' (p' & Hp' & Ht')%lookup_waiting; [|done]. specialize (Hmin p' Hp').
    unfold time_in in Hmin. rewrite Hfp, Ht' in Hmin. cbn in Hmin. by apply Z.ltb_ge in Hmin. }
  intros q. cbn zeta.
  assert (Hinpq : forall p', p' ∈ pq h <-> p' ∈ pq (waitingForQueue s) /\ p' <> p).
  { intros p'. rewrite Hperm, elem_of_cons. split; [intros; split; [by right|by intros ->]|naive_solver]. }
  assert (Hok' : delaying_ok (mkDelaying q (stopCh_closed s) (waitingForAddCh s) (retries s) h
    (delete (wf_data w) (waitingEntryByData s)))).
  { constructor; cbn; [done|done| |done|].
    - intros x' p'. rewrite lookup_delete_Some, Hknown, Hinpq, Hf. split.
      + intros (Hne & Hp' & t' & Ht'). split; [|by eexists]. split; [done|]. intros ->. congruence.
      + intros ((Hp' & Hne) & t' & Ht'). split; [|eauto]. intros <-. apply Hne.
        assert (waitingEntryByData s !! wf_data w = Some p') by (apply Hknown; eauto).
        assert (waitingEntryByData s !! wf_data w = Some p) by (apply Hknown; eauto). congruence.
    - intros p' Hp'. rewrite Hinpq, Hf. destruct (Hch p' Hp'). naive_solver. }
  split; [done|]. split; [|split].
  - apply map_eq. intros x'. apply option_eq. intros t'.
    rewrite lookup_waiting, lookup_delete_Some, lookup_waiting by done. cbn. rewrite Hf. setoid_rewrite Hinpq.
    split.
    + intros (p' & (Hp' & Hne) & Ht'). split; [|eauto]. intros <-. apply Hne.
      assert (waitingEntryByData s !! wf_data w = Some p') by (apply Hknown; eauto).
      assert (waitingEntryByData s !! wf_data w = Some p) by (apply Hknown; eauto). congruence.
    + intros (Hne & p' & Hp' & Ht'). exists p'. split; [|done]. split; [done|]. intros ->. congruence.
  - unfold sent. cbn. apply list_omap_ext. apply Forall2_same_length_lookup.
    split; [done|]. intros i a b Ha Hb. simplify_eq. rewrite !entry_of_frame, Hf. done.
  - apply Permutation_length in Hperm. rewrite Hq in Hperm. cbn in Hperm. lia.
Qed.

(** The entries of [m] that are ready at [now], and the others. *)
Definition ready_at (now : Z) (m : gmap T Z) : gmap T Z := filter (fun e => e.2 <= now) m.
Definition not_ready_at (now : Z) (m : gmap T Z) : gmap T Z := filter (fun e => now < e.2) m.

Definition earlier (a b : T * Z) : Prop := a.2 <= b.2.

Lemma waiting_empty s : delaying_ok s -> pq (waitingForQueue s) = [] -> waiting s = ∅.
Proof.
  intros Hok Hq. apply map_eq. intros x. rewrite lookup_empty. apply eq_None_not_Some.
  intros [t (p & Hp & _)%lookup_waiting]; [|done]. rewrite Hq in Hp. by apply not_elem_of_nil in Hp.
Qed.

Lemma all_waiting s p rest t :
  delaying_ok s -> pq (waitingForQueue s) = p :: rest ->
  readyAt_of (mem (waitingForQueue s)) p = t ->
  (forall x' t', waiting s !! x' = Some t' -> t <= t') /\ exists x, waiting s !! x = Some t.
Proof.
  intros Hok Hq Ht.
  destruct (take_first s p rest Hok Hq) as (h & x & t' & w & _ & _ & _ & _ & Ht' & Hx & Hmin & _).
  rewrite Ht in Ht'. subst t'. split; [done|by exists x].
Qed.

Lemma add_ready_ok fuel now s :
  delaying_ok s -> length (pq (waitingForQueue s)) = fuel ->
  let s' := add_ready fuel now s in
  exists l, Interface s' = fold_left (fun q e => qi_Add e.1 q) l (Interface s) /\
    l ≡ₚ map_to_list (ready_at now (waiting s)) /\ StronglySorted earlier l /\
    waiting s' = not_ready_at now (waiting s) /\ sent s' = sent s /\ delaying_ok s' /\
    stopCh_closed s' = stopCh_closed s.
Proof.
  revert s. induction fuel as [|fuel IH]; intros s Hok Hlen; cbn [add_ready].
  { apply nil_length_inv in Hlen. exists []. unfold ready_at, not_ready_at.
    rewrite (waiting_empty s Hok Hlen), !map_filter_empty, map_to_list_empty.
    split_and!; try done. constructor. }
  unfold pq_Peek. destruct (pq (waitingForQueue s)) as [|p rest] eqn:Hq; [done|]. cbn [head].
  destruct (now <? readyAt_of (mem (waitingForQueue s)) p) eqn:Et; bool_to_prop.
  { destruct (all_waiting s p rest _ Hok Hq eq_refl) as [Hall _]. exists [].
    assert (ready_at now (waiting s) = ∅) as ->.
    { apply map_empty_filter_2. intros x t Hx. cbn. specialize (Hall _ _ Hx). lia. }
    assert (not_ready_at now (waiting s) = waiting s) as ->.
    { apply map_filter_id. intros x t Hx. cbn. specialize (Hall _ _ Hx). lia. }
    rewrite map_to_list_empty. split_and!; try done. constructor. }
  destruct (take_first s p rest Hok Hq)
    as (h & x & t & w & -> & -> & Hx & _ & Ht & Hwx & Hmin & Hs'). rewrite Hx, Ht in *.
  destruct (Hs' (qi_Add x (Interface s))) as (Hok' & Hw' & Hsent & Hlen').
  destruct (IH _ Hok') as (l & Hi & Hp & Hsort & Hwait & Hsent' & Hok2 & Hstop);
    [cbn in *; lia|]. rewrite Hw' in *.
  exists ((x, t) :: l). split_and!; [exact Hi| | | |congruence|done|done].
  - assert (ready_at now (waiting s) = <[x := t]> (ready_at now (delete x (waiting s)))) as ->.
    { unfold ready_at. rewrite <- map_filter_insert_True by (cbn; lia). by rewrite insert_delete_id. }
    rewrite Hp. symmetry. apply map_to_list_insert.
    apply map_lookup_filter_None. left. apply lookup_delete_eq.
  - constructor; [done|]. apply Forall_forall. intros [x' t'] Hin.
    rewrite Hp in Hin. apply elem_of_map_to_list, map_lookup_filter_Some in Hin as [Hin _].
    apply lookup_delete_Some in Hin as [_ Hin]. unfold earlier. cbn. by apply (Hmin x').
  - rewrite Hwait. unfold not_ready_at. rewrite map_filter_delete. apply delete_id.
    apply map_lookup_filter_None. right. intros t' Ht'. cbn. rewrite Hwx in Ht'. simplify_eq. lia.
Qed.

(** *** Inserting an entry *)

(** Changing the time of the entry at [i] and restoring the order. *)
Lemma retime_ok (h : waitForPriorityQueue T) i existing ex t :
  pq_ok h -> heap_ok h -> mem h !! existing = Some ex -> pq h !! i = Some existing ->
  let h' := heap_Fix i (mkPQ (<[existing := mkWaitFor (wf_data ex) t (wf_index ex)]> (mem h)) (pq h)) in
  wf_index ex = Z.of_nat i /\ pq_ok h' /\ heap_ok h' /\ (forall p, p ∈ pq h' <-> p ∈ pq h) /\
  frame_of (mem h') = <[existing := (wf_data ex, t)]> (frame_of (mem h)).
Proof.
  intros Hpq Hheap Em Hi. cbn zeta.
  set (m1 := <[existing := mkWaitFor (wf_data ex) t (wf_index ex)]> (mem h)).
  set (h1 := mkPQ m1 (pq h)).
  assert (Hf1 : frame_of m1 = <[existing := (wf_data ex, t)]> (frame_of (mem h))).
  { unfold frame_of, m1. by rewrite fmap_insert. }
  destruct (pok_index _ Hpq i existing Hi) as (ex' & Hex' & Hidx). rewrite Em in Hex'. injection Hex' as <-.
  assert (Hpq1 : pq_ok h1).
  { constructor; cbn; [apply Hpq|]. intros j p Hj. unfold m1. rewrite lookup_insert.
    case_decide as Hp; [|by apply Hpq]. subst p. eexists. split; [done|]. cbn.
    by rewrite (NoDup_lookup _ _ _ _ (pok_nodup _ Hpq) Hi Hj) in Hidx. }
  destruct (heap_Fix_ok (H1:=pq_laws) h1 i Hpq1) as ((Hpq2 & Hp2 & Hf2) & Hheap2).
  { cbn. by eapply lookup_lt_Some. }
  { apply (heap_except_changed (H1:=pq_laws) h); [done|done| |].
    - cbn. by eapply lookup_lt_Some.
    - intros k1 k2 H1' H2' Hle a b Ha Hb. cbn in *. specialize (Hle a b Ha Hb). cbn in Hle.
      assert (existing <> a /\ existing <> b) as [Hna Hnb].
      { split; intros <-; [apply H1'|apply H2'];
          by eapply (NoDup_lookup _ _ _ _ (pok_nodup _ Hpq)). }
      unfold time_in in *. rewrite Hf1, !lookup_insert_ne by done. done. }
  cbn in Hp2, Hf2. rewrite Hf1 in Hf2. split_and!; [done|done|done| |done].
  intros p. by rewrite Hp2.
Qed.

(** The entry of [x] already waits, as [existing]. *)
Lemma insert_known_ok existing x t s :
  delaying_ok s -> waitingEntryByData s !! x = Some existing ->
  existing ∉ waitingForAddCh s ->
  let s' :=
    match mem (waitingForQueue s) !! existing with
    | None => s
    | Some ex =>
        if t <? readyAt ex then
          mkDelaying (Interface s) (stopCh_closed s) (waitingForAddCh s) (retries s)
            (heap_Fix (Z.to_nat (wf_index ex))
               (mkPQ (<[existing := mkWaitFor (wf_data ex) t (wf_index ex)]> (mem (waitingForQueue s)))
                  (pq (waitingForQueue s)))) (waitingEntryByData s)
        else s
    end in
  delaying_ok s' /\ waiting s' = wait_min x t (waiting s) /\ sent s' = sent s /\
  Interface s' = Interface s /\ stopCh_closed s' = stopCh_closed s.
Proof.
  intros Hok Hex Hnc. pose proof Hok as [Hpq Hheap Hknown Hnd Hch]. cbn zeta.
  pose proof Hex as [Hpin [t0 Ht0]]%Hknown.
  unfold frame_of in Ht0. rewrite lookup_fmap in Ht0.
  destruct (mem (waitingForQueue s) !! existing) as [ex|] eqn:Em; [|done]. cbn in Ht0.
  injection Ht0 as Hdx Ht0.
  assert (Hfx : frame_of (mem (waitingForQueue s)) !! existing = Some (x, t0)).
  { unfold frame_of. rewrite lookup_fmap, Em. cbn. congruence. }
  assert (Hwx : waiting s !! x = Some t0) by (apply lookup_waiting; eauto).
  unfold wait_min. rewrite Hwx. destruct (t <? readyAt ex) eqn:Et; bool_to_prop.
  2:{ split; [done|]. split; [|done]. symmetry. apply insert_id. rewrite Hwx. f_equal. lia. }
  apply list_elem_of_lookup in Hpin as [i Hi].
  destruct (retime_ok (waitingForQueue s) i existing ex t Hpq Hheap Em Hi)
    as (Hidx & Hpq2 & Hheap2 & Hp2 & Hf2).
  rewrite Hidx, Nat2Z.id in *. set (h2 := heap_Fix i _) in *. rewrite Hdx in Hf2.
  assert (Hok' : delaying_ok (mkDelaying (Interface s) (stopCh_closed s) (waitingForAddCh s)
      (retries s) h2 (waitingEntryByData s))).
  { constructor; cbn; [done|done| |done|].
    - intros x' p. rewrite Hknown, Hp2, Hf2. setoid_rewrite lookup_insert.
      case_decide as Hp; [|done]. subst p. rewrite Hfx.
      split; (intros [? [? ?]]; split; [done|]; simplify_eq; eauto).
    - intros p Hp'. rewrite Hp2, Hf2. destruct (Hch p Hp'). split; [done|].
      rewrite lookup_insert_ne; [done|]. intros ->. done. }
  split; [done|]. split; [|split; [|done]].
  - apply map_eq. intros x'. apply option_eq. intros t'.
    rewrite lookup_waiting, lookup_insert_Some, lookup_waiting by done. cbn.
    setoid_rewrite Hp2. rewrite Hf2. split.
    + intros (p & Hp' & [[<- Hv]|[Hne Ht']]%lookup_insert_Some); [left; simplify_eq; split; [done|lia]|].
      right. split; [|eauto]. intros <-. apply Hne.
      assert (waitingEntryByData s !! x = Some p) by (apply Hknown; eauto). congruence.
    + intros [[<- <-]|[Hne (p & Hp' & Ht')]].
      * exists existing. split; [by eapply list_elem_of_lookup_2|]. rewrite lookup_insert_eq.
        do 2 f_equal. lia.
      * exists p. split; [done|]. rewrite lookup_insert_ne; [done|]. intros <-. congruence.
  - unfold sent. cbn. apply list_omap_ext, Forall2_same_length_lookup. split; [done|].
    intros j a b Ha Hb. simplify_eq. rewrite !entry_of_frame, Hf2, lookup_insert_ne; [done|].
    intros ->. apply Hnc. by eapply list_elem_of_lookup_2.
Qed.

Lemma insert_entry_ok entry x t s :
  delaying_ok s -> frame_of (mem (waitingForQueue s)) !! entry = Some (x, t) ->
  entry ∉ pq (waitingForQueue s) -> entry ∉ waitingForAddCh s ->
  let s' := insert_entry entry s in
  delaying_ok s' /\ waiting s' = wait_min x t (waiting s) /\ sent s' = sent s /\
  Interface s' = Interface s /\ stopCh_closed s' = stopCh_closed s.
Proof.
  intros Hok He Hnq Hnc. pose proof Hok as [Hpq Hheap Hknown Hnd Hch]. cbn zeta.
  unfold insert_entry. unfold frame_of in He. rewrite lookup_fmap in He.
  destruct (mem (waitingForQueue s) !! entry) as [e|] eqn:Ee; [|done]. cbn in He.
  injection He as Hx Ht. rewrite Hx, Ht.
  destruct (waitingEntryByData s !! x) as [existing|] eqn:Ex.
  - apply (insert_known_ok existing x t s); [done|done|].
    intros Hin. destruct (Hch _ Hin) as [Hn _]. by apply Hknown in Ex as [? _].
  - destruct (heap_Push_ok (H1:=pq_laws) entry (waitingForQueue s) Hpq) as (Hpq' & Hf & Hheap' & Hp);
      [split; [done|by eexists]|done|]. cbn in Hf, Hp.
    assert (Hin : forall p, p ∈ pq (heap_Push entry (waitingForQueue s)) <->
      p = entry \/ p ∈ pq (waitingForQueue s)) by (intros; by rewrite Hp, elem_of_cons).
    assert (Hfe : frame_of (mem (waitingForQueue s)) !! entry = Some (x, t)).
    { unfold frame_of. rewrite lookup_fmap, Ee. cbn. congruence. }
    assert (Hok' : delaying_ok (mkDelaying (Interface s) (stopCh_closed s) (waitingForAddCh s)
      (retries s) (heap_Push entry (waitingForQueue s)) (<[x := entry]> (waitingEntryByData s)))).
    { constructor; cbn; [done|done| |done|].
      - intros x' p. rewrite lookup_insert_Some, Hknown, Hin, Hf. split.
        + intros [[<- <-]|[Hne [Hp' Ht']]]; [split; [by left|by eexists]|split; [by right|done]].
        + intros [[->|Hp'] [t' Ht']].
          * left. rewrite Hfe in Ht'. by simplify_eq.
          * right. split; [|eauto]. intros <-.
            assert (waitingEntryByData s !! x = Some p) by (apply Hknown; eauto). congruence.
      - intros p Hp'. rewrite Hin, Hf. destruct (Hch p Hp'). split; [|done]. naive_solver. }
    split; [done|]. split; [|split; [|done]].
    + apply map_eq. intros x'. apply option_eq. intros t'. unfold wait_min.
      assert (waiting s !! x = None) as -> by (unfold waiting; by rewrite lookup_fmap, Ex).
      rewrite lookup_waiting, lookup_insert_Some, lookup_waiting by done. cbn. rewrite Hf.
      setoid_rewrite Hin. split.
      * intros (p & [->|Hp'] & Ht'); [left; rewrite Hfe in Ht'; by simplify_eq|].
        right. split; [|eauto]. intros <-.
        assert (waitingEntryByData s !! x = Some p) by (apply Hknown; eauto). congruence.
      * intros [[<- <-]|[Hne (p & Hp' & Ht')]]; eauto.
    + unfold sent. cbn. apply list_omap_ext, Forall2_same_length_lookup. split; [done|].
      intros i a b Ha Hb. simplify_eq. by rewrite !entry_of_frame, Hf.
Qed.

(** *** Steps *)

(** The parts of the state the invariant is about. *)
Lemma delaying_ok_fields s s' :
  delaying_ok s -> waitingForQueue s' = waitingForQueue s ->
  waitingEntryByData s' = waitingEntryByData s -> waitingForAddCh s' = waitingForAddCh s ->
  delaying_ok s'.
Proof. intros [] Hq Hk Hc. by constructor; rewrite ?Hq, ?Hk, ?Hc. Qed.

(** A new entry is sent. *)
Definition send_entry (item : T) (t : Z) (n : Z) s : delayingType T Q :=
  let m := mem (waitingForQueue s) in
  let p := fresh (dom m) in
  mkDelaying (Interface s) (stopCh_closed s) (waitingForAddCh s ++ [p]) n
    (mkPQ (<[p := mkWaitFor item t 0]> m) (pq (waitingForQueue s))) (waitingEntryByData s).

Lemma send_entry_ok item t n s :
  delaying_ok s ->
  let s' := send_entry item t n s in
  delaying_ok s' /\ waiting s' = waiting s /\ sent s' = sent s ++ [(item, t)].
Proof.
  intros Hok. pose proof Hok as [Hpq Hheap Hknown Hnd Hch]. cbn zeta. unfold send_entry.
  set (m := mem (waitingForQueue s)) in *. set (p := fresh (dom m)).
  assert (Hp : m !! p = None) by apply not_elem_of_dom, is_fresh.
  assert (Hf : frame_of (<[p := mkWaitFor item t 0]> m) = <[p := (item, t)]> (frame_of m))
    by (unfold frame_of; by rewrite fmap_insert).
  assert (Hold : forall q, is_Some (frame_of m !! q) -> q <> p).
  { intros q Hq%is_Some_frame ->. rewrite Hp in Hq. by destruct Hq. }
  assert (Hpqin : forall q, q ∈ pq (waitingForQueue s) -> is_Some (frame_of m !! q)).
  { intros q [i Hi]%list_elem_of_lookup. destruct (pok_index _ Hpq i q Hi) as (w & Hw & _).
    apply is_Some_frame. by eexists. }
  assert (Hentry : forall q, is_Some (frame_of m !! q) ->
    frame_of (<[p := mkWaitFor item t 0]> m) !! q = frame_of m !! q).
  { intros q Hq. rewrite Hf, lookup_insert_ne; [done|]. intros <-. by apply (Hold p). }
  split; [constructor; cbn|split].
  - constructor; cbn; [apply Hpq|]. intros i q Hi. destruct (pok_index _ Hpq i q Hi) as (w & Hw & Hidx).
    exists w. split; [|done]. rewrite lookup_insert_ne; [done|]. intros <-. fold m in Hw. congruence.
  - apply (heap_ok_same_times (waitingForQueue s)); [done|done|]. intros q Hq. cbn.
    rewrite !readyAt_of_frame. unfold time_in. by rewrite Hentry by auto.
  - intros x q. rewrite Hknown. split; intros [Hq [t' Ht']]; (split; [done|exists t']).
    + by rewrite Hentry by auto.
    + by rewrite Hentry in Ht' by auto.
  - apply NoDup_snoc; [done|]. intros Hin. destruct (Hch p Hin) as [_ Hs]. by apply (Hold p).
  - intros q [Hq| ->%list_elem_of_singleton]%elem_of_app.
    + destruct (Hch q Hq) as [? Hs]. by rewrite Hentry.
    + split; [intros Hin; by apply (Hold p); auto|]. rewrite Hf, lookup_insert_eq. by eexists.
  - unfold waiting. cbn. apply map_fmap_ext. intros x q Hq. apply Hknown in Hq as [Hq _].
    rewrite !readyAt_of_frame. unfold time_in. by rewrite Hentry by auto.
  - unfold sent. cbn. rewrite omap_app. f_equal.
    + apply list_omap_ext, Forall2_same_length_lookup. split; [done|].
      intros i a b Ha Hb. simplify_eq. rewrite !entry_of_frame. apply Hentry.
      eapply Hch, list_elem_of_lookup_2. done.
    + cbn. by rewrite entry_of_frame, Hf, lookup_insert_eq.
Qed.

Lemma AddAfter_cases now item duration s s' :
  s' ∈ AddAfter now item duration s ->
  (s' = s /\ qi_ShuttingDown (Interface s) = true) \/
  (duration <= 0 /\ s' = delaying_Add item (mkDelaying (Interface s) (stopCh_closed s)
     (waitingForAddCh s) (retries s + 1) (waitingForQueue s) (waitingEntryByData s))) \/
  (0 < duration /\ stopCh_closed s = true /\ s' = mkDelaying (Interface s) (stopCh_closed s)
     (waitingForAddCh s) (retries s + 1) (waitingForQueue s) (waitingEntryByData s)) \/
  (0 < duration /\ s' = send_entry item (now + duration) (retries s + 1) s).
Proof.
  unfold AddAfter. destruct (qi_ShuttingDown (Interface s)) eqn:Esd.
  { intros ->%list_elem_of_singleton. by left. }
  destruct (duration <=? 0) eqn:Ed; bool_to_prop.
  { intros ->%list_elem_of_singleton. right; left. done. }
  cbn [Interface stopCh_closed waitingForAddCh retries waitingForQueue waitingEntryByData].
  intros [Hin|Hin]%elem_of_app.
  - destruct (stopCh_closed s) eqn:Es; [|by apply not_elem_of_nil in Hin].
    apply list_elem_of_singleton in Hin as ->. right; right; left. done.
  - destruct (_ <? _)%nat; [|by apply not_elem_of_nil in Hin].
    apply list_elem_of_singleton in Hin as ->. right; right; right. done.
Qed.

Lemma receive_ok now s p ch :
  delaying_ok s -> waitingForAddCh s = p :: ch ->
  exists x t rest s', sent s = (x, t) :: rest /\ waitingLoop_receive now s = Some s' /\
    delaying_ok s' /\ sent s' = rest /\ stopCh_closed s' = stopCh_closed s /\
    if now <? t then waiting s' = wait_min x t (waiting s) /\ Interface s' = Interface s
    else waiting s' = waiting s /\ Interface s' = qi_Add x (Interface s).
Proof.
  intros Hok Hc. pose proof Hok as [Hpq Hheap Hknown Hnd Hch].
  destruct (Hch p ltac:(rewrite Hc; left)) as [Hnq [[x t] Hp]].
  rewrite Hc in Hnd. apply NoDup_cons in Hnd as [Hnp Hnd].
  set (s1 := mkDelaying (Interface s) (stopCh_closed s) ch (retries s) (waitingForQueue s)
    (waitingEntryByData s)).
  assert (Hok1 : delaying_ok s1).
  { constructor; cbn; [done|done|done|done|]. intros q Hq. apply Hch. rewrite Hc. by right. }
  unfold waitingLoop_receive. rewrite Hc. fold s1.
  assert (Hmem : exists w, mem (waitingForQueue s1) !! p = Some w /\ wf_data w = x /\ readyAt w = t).
  { unfold frame_of in Hp. rewrite lookup_fmap in Hp. cbn.
    destruct (mem (waitingForQueue s) !! p) as [w|]; [|done]. cbn in Hp. simplify_eq. eauto. }
  destruct Hmem as (w & -> & -> & ->). exists x, t, (sent s1).
  assert (Hsent : sent s = (x, t) :: sent s1).
  { unfold sent. rewrite Hc. cbn. by rewrite entry_of_frame, Hp. }
  destruct (now <? t) eqn:Et.
  - destruct (insert_entry_ok p x t s1 Hok1 Hp Hnq Hnp) as (Hok' & Hw & Hs & Hi & Hst).
    eexists. split; [done|]. split; [done|]. done.
  - eexists. split; [done|]. split; [done|]. split; [by eapply delaying_ok_fields|done].
Qed.

Lemma top_ok now s :
  delaying_ok s -> qi_ShuttingDown (Interface s) = false ->
  exists s' timer l, waitingLoop_top now s = Some (s', timer) /\ delaying_ok s' /\
    Interface s' = fold_left (fun q e => qi_Add e.1 q) l (Interface s) /\
    l ≡ₚ map_to_list (ready_at now (waiting s)) /\ StronglySorted earlier l /\
    waiting s' = not_ready_at now (waiting s) /\ sent s' = sent s /\
    match timer with
    | None => waiting s' = ∅
    | Some d => exists x t, waiting s' !! x = Some t /\ now < t /\ d = time_sub t now /\
        forall x' t', waiting s' !! x' = Some t' -> t <= t'
    end.
Proof.
  intros Hok Hsd. unfold waitingLoop_top. rewrite Hsd.
  destruct (add_ready_ok _ now s Hok eq_refl) as (l & Hi & Hp & Hs & Hw & Hsent & Hok' & _).
  set (s' := add_ready (length (pq (waitingForQueue s))) now s) in *.
  eexists s', _, l. split; [done|]. split_and!; try done.
  unfold pq_Peek. destruct (pq (waitingForQueue s')) as [|p rest] eqn:Eq; cbn.
  { by apply waiting_empty. }
  destruct (all_waiting s' p rest _ Hok' Eq eq_refl) as [Hmin [x Hx]].
  exists x, (readyAt_of (mem (waitingForQueue s')) p). split_and!; try done.
  rewrite Hw in Hx. apply map_lookup_filter_Some in Hx as [_ Hx]. done.
Qed.

Lemma delaying_step_ok s s' : delaying_ok s -> delaying_step s s' -> delaying_ok s'.
Proof.
  intros Hok Hs. destruct Hs as [now item d s s' Hin|item s|now s s' timer E|now s s' E|s|q s].
  - destruct (AddAfter_cases _ _ _ _ _ Hin) as [[-> _]|[(_ & ->)|[(_ & _ & ->)|(_ & ->)]]].
    + done.
    + by eapply delaying_ok_fields.
    + by eapply delaying_ok_fields.
    + by apply send_entry_ok.
  - by eapply delaying_ok_fields.
  - destruct (qi_ShuttingDown (Interface s)) eqn:Esd.
    { unfold waitingLoop_top in E. by rewrite Esd in E. }
    destruct (top_ok now s Hok Esd) as (s1 & timer1 & l & E1 & Hok1 & _).
    rewrite E1 in E. by simplify_eq.
  - destruct (waitingForAddCh s) as [|p ch] eqn:Ec.
    { unfold waitingLoop_receive in E. by rewrite Ec in E. }
    destruct (receive_ok now s p ch Hok Ec) as (x & t & rest & s1 & _ & E1 & Hok1 & _).
    rewrite E1 in E. by simplify_eq.
  - unfold delaying_ShutDown. destruct (stopCh_closed s); [done|]. by eapply delaying_ok_fields.
  - by eapply delaying_ok_fields.
Qed.

Lemma delaying_reach_ok q s : delaying_reach q s -> delaying_ok s.
Proof.
  intros Hr. unfold delaying_reach in Hr. remember (newDelayingQueue q) as s0 eqn:E.
  assert (H0' : delaying_ok s0) by (subst; apply newDelayingQueue_ok). clear E.
  induction Hr; eauto using delaying_step_ok.
Qed.

End delaying_lemmas.

(** ** Properties *)

Section properties.
Context {T Q : Type} `{Countable T} `{QueueInterface T Q}.
Implicit Types (s : delayingType T Q).

(** C14: a turn of the waiting loop adds exactly the items that are ready.  In any
    reachable state, at any time [now], the loop adds to the queue exactly the
    waiting items whose time has come, each once and in the order of their times,
    keeps exactly the others, and sets its timer to the earliest of these, which is
    still in the future; with none left it sets no timer.  So no item is added
    before its time, and none that is ready is left behind. *)
Theorem delaying_ready_exact q s now :
  delaying_reach q s -> qi_ShuttingDown (Interface s) = false ->
  exists s' timer l, waitingLoop_top now s = Some (s', timer) /\
    Interface s' = fold_left (fun q e => qi_Add e.1 q) l (Interface s) /\
    l ≡ₚ map_to_list (ready_at now (waiting s)) /\ StronglySorted earlier l /\
    waiting s' = not_ready_at now (waiting s) /\ sent s' = sent s /\
    match timer with
    | None => waiting s' = ∅
    | Some d => exists x t, waiting s' !! x = Some t /\ now < t /\ d = time_sub t now /\
        forall x' t', waiting s' !! x' = Some t' -> t <= t'
    end.
Proof.
  intros Hr Hsd. destruct (top_ok now s (delaying_reach_ok q s Hr) Hsd) as (s' & timer & l & ? & _ & ?).
  eauto.
Qed.

(** An item asked for twice waits for the earlier time.  In any reachable state
    the loop takes the entries from the channel in order; an entry whose time has
    come is added to the queue at once; any other is merged with the waiting items,
    where the minimum of the times asked for counts, and nothing else changes. *)
Theorem delaying_receive_min q s now x t rest :
  delaying_reach q s -> sent s = (x, t) :: rest ->
  exists s', waitingLoop_receive now s = Some s' /\ sent s' = rest /\
    if now <? t then waiting s' = wait_min x t (waiting s) /\ Interface s' = Interface s
    else waiting s' = waiting s /\ Interface s' = qi_Add x (Interface s).
Proof.
  intros Hr Hs. pose proof (delaying_reach_ok q s Hr) as Hok.
  destruct (waitingForAddCh s) as [|p ch] eqn:Ec; [unfold sent in Hs; by rewrite Ec in Hs|].
  destruct (receive_ok now s p ch Hok Ec) as (x' & t' & rest' & s' & Hs' & E & _ & Hr' & _ & Hif).
  rewrite Hs in Hs'. simplify_eq. eauto.
Qed.

(** What [AddAfter] may do.  On a queue that is shutting down, nothing; without
    a delay, it adds the item at once; otherwise it sends the item with the time
    [now + duration], or, once the queue was shut down, may drop it.  It blocks only
    on a full channel of a queue that was not shut down. *)
Theorem delaying_AddAfter q s now item duration :
  delaying_reach q s ->
  (forall s', s' ∈ AddAfter now item duration s ->
     waiting s' = waiting s /\
     ((qi_ShuttingDown (Interface s) = true /\ s' = s) \/
      (duration <= 0 /\ Interface s' = qi_Add item (Interface s) /\ sent s' = sent s) \/
      (stopCh_closed s = true /\ Interface s' = Interface s /\ sent s' = sent s) \/
      (0 < duration /\ Interface s' = Interface s /\ sent s' = sent s ++ [(item, now + duration)]))) /\
  (AddAfter now item duration s = [] <->
     qi_ShuttingDown (Interface s) = false /\ 0 < duration /\ stopCh_closed s = false /\
     (waitingForAddCh_cap <= length (waitingForAddCh s))%nat).
Proof.
  intros Hr. pose proof (delaying_reach_ok q s Hr) as Hok. split.
  - intros s' Hin. destruct (AddAfter_cases _ _ _ _ _ Hin) as [[-> ?]|[(? & ->)|[(? & ? & ->)|(? & ->)]]].
    + auto.
    + split; [done|]. right; left. done.
    + split; [done|]. right; right; left. done.
    + destruct (send_entry_ok item (now + duration) (retries s + 1) s Hok) as (_ & Hw & Hs).
      split; [done|]. right; right; right. done.
  - unfold AddAfter. destruct (qi_ShuttingDown (Interface s)); [naive_solver|].
    destruct (duration <=? 0) eqn:Ed; bool_to_prop; [naive_solver lia|].
    cbn [Interface stopCh_closed waitingForAddCh retries waitingForQueue waitingEntryByData].
    destruct (stopCh_closed s); [naive_solver|]. cbn [app].
    destruct (_ <? _)%nat eqn:El; [apply Nat.ltb_lt in El|apply Nat.ltb_ge in El]; [|naive_solver].
    split; [done|]. unfold waitingForAddCh_cap in *. lia.
Qed.

End properties.

(** ** Witnesses *)

(** Item "a" is asked for at 50, then at 30, and "b" at 40. *)
Definition wit_d0 : delayingType string (Type_ string unit) := newDelayingQueue (newQueue tt).
Definition wit_ask (now : Z) (item : string) (d : Z) (s : delayingType string (Type_ string unit)) :=
  default s (head (AddAfter now item d s)).
Definition wit_d3 := wit_ask 0 "b" 40 (wit_ask 0 "a" 30 (wit_ask 0 "a" 50 wit_d0)).
Definition wit_take (s : delayingType string (Type_ string unit)) :=
  default s (waitingLoop_receive 1 s).
Definition wit_d6 := wit_take (wit_take (wit_take wit_d3)).

Lemma wit_ask_step now item d s :
  head (AddAfter now item d s) = Some (wit_ask now item d s) -> delaying_step s (wit_ask now item d s).
Proof.
  intros E. apply (ds_AddAfter now item d). unfold wit_ask in *.
  destruct (AddAfter now item d s); [done|]. left.
Qed.

Lemma wit_d3_reach : delaying_reach (newQueue tt) wit_d3.
Proof.
  unfold delaying_reach. eapply rtc_l; [apply (wit_ask_step 0 "a" 50); vm_compute; reflexivity|].
  eapply rtc_l; [apply (wit_ask_step 0 "a" 30); vm_compute; reflexivity|].
  eapply rtc_l; [apply (wit_ask_step 0 "b" 40); vm_compute; reflexivity|]. apply rtc_refl.
Qed.

Lemma wit_d6_reach : delaying_reach (newQueue tt) wit_d6.
Proof.
  eapply rtc_r; [eapply rtc_r; [eapply rtc_r; [exact wit_d3_reach|]|]|];
    apply (ds_receive 1); vm_compute; reflexivity.
Qed.

Lemma delaying_ready_exact_witness :
  exists s' timer l, waitingLoop_top 35 wit_d6 = Some (s', timer) /\
    l ≡ₚ map_to_list (ready_at 35 (waiting wit_d6)) /\ waiting s' = not_ready_at 35 (waiting wit_d6).
Proof.
  destruct (delaying_ready_exact (newQueue tt) wit_d6 35 wit_d6_reach ltac:(vm_compute; reflexivity))
    as (s' & timer & l & E & _ & Hl & _ & Hw & _).
  exists s', timer, l. split; [exact E|split; [exact Hl|exact Hw]].
Defined.

Lemma delaying_receive_min_witness :
  exists s', waitingLoop_receive 1 wit_d3 = Some s' /\ sent s' = [("a", 30); ("b", 40)].
Proof.
  destruct (delaying_receive_min (newQueue tt) wit_d3 1 "a" 50 [("a", 30); ("b", 40)] wit_d3_reach
    ltac:(vm_compute; reflexivity)) as (s' & E & Hs & _).
  exists s'. split; [exact E|exact Hs].
Defined.

Lemma delaying_AddAfter_witness :
  Forall (fun s' => waiting s' = waiting wit_d6) (AddAfter 5 "c" 9 wit_d6).
Proof.
  apply Forall_forall. intros s' Hs. exact (proj1 (proj1 (delaying_AddAfter (newQueue tt) wit_d6 5 "c" 9 wit_d6_reach) s' Hs)).
Defined.
