(* ===== verification/CacheHeap.v ===== *)
(** * The keyed heap: tools/cache/heap.go.

    [heapData] implements [heap.Interface] (file GoHeap.v) with a slice of keys and
    a map from keys to items that know their index in the slice; [Heap] is the
    producer/consumer queue over it.  The immutable [keyFunc] and [lessFunc] are the
    record [HeapConfig].  An access of the slice or the map that would panic in Go
    is the identity, or [false], here: the invariant [data_ok] rules it out. *)

From S2P Require Import Prelude Objects GoHeap.

Section heap.
Context {V : Type}.

Record HeapConfig : Type := mkHeapConfig {
  keyFunc : KeyFunc V;
  lessFunc : iface V -> iface V -> bool
}.

Record heapItem : Type := mkHeapItem { obj : iface V; index : nat }.

Record heapData : Type := mkHeapData {
  items : gmap string heapItem;
  queue : list string
}.

Definition heapData_Len (h : heapData) : nat := length (queue h).

Definition set_index (k : string) (i : nat) (h : heapData) : heapData :=
  match items h !! k with
  | Some item => mkHeapData (<[k := mkHeapItem (obj item) i]> (items h)) (queue h)
  | None => h
  end.

Definition heapData_Swap (i j : nat) (h : heapData) : heapData :=
  match queue h !! i, queue h !! j with
  | Some ki, Some kj =>
      let h := mkHeapData (items h) (<[i := kj]> (<[j := ki]> (queue h))) in
      set_index ki j (set_index kj i h)
  | _, _ => h
  end.

Definition heapData_Push (kv : string * iface V) (h : heapData) : heapData :=
  mkHeapData (<[kv.1 := mkHeapItem kv.2 (length (queue h))]> (items h)) (queue h ++ [kv.1]).

(** [None] is a panic; the value is the object removed, nil if the map has none,
    and with it the key. *)
Definition heapData_Pop (h : heapData) : option ((string * iface V) * heapData) :=
  match last (queue h) with
  | None => None
  | Some key =>
      let q := take (length (queue h) - 1) (queue h) in
      match items h !! key with
      | None => Some ((key, None), mkHeapData (items h) q)
      | Some item => Some ((key, obj item), mkHeapData (delete key (items h)) q)
      end
  end.

Record Heap : Type := mkHeap { data : heapData; closed : bool }.

Definition NewHeap : Heap := mkHeap (mkHeapData ∅ []) false.

Definition Close (h : Heap) : Heap := mkHeap (data h) true.

Definition ListKeys `{MapRange} (h : Heap) : list string := (range (items (data h))).*1.
Definition List `{MapRange} (h : Heap) : list (iface V) :=
  (fun kv => obj kv.2) <$> range (items (data h)).

Definition GetByKey (key : string) (h : Heap) : iface V * bool * option (error V) :=
  match items (data h) !! key with
  | None => (None, false, None)
  | Some item => (obj item, true, None)
  end.

Definition IsClosed (h : Heap) : bool := closed h.

Section operations.
Context (cfg : HeapConfig).

Definition heapData_Less (i j : nat) (h : heapData) : bool :=
  if (length (queue h) <? i)%nat || (length (queue h) <? j)%nat then false
  else
    match queue h !! i ≫= (items h !!.), queue h !! j ≫= (items h !!.) with
    | Some itemi, Some itemj => lessFunc cfg (obj itemi) (obj itemj)
    | _, _ => false
    end.

#[local] Instance heapData_Interface : HeapInterface heapData (string * iface V) := {|
  h_Len := heapData_Len;
  h_Less := heapData_Less;
  h_Swap := heapData_Swap;
  h_Push := heapData_Push;
  h_Pop := heapData_Pop
|}.

Definition addIfNotPresentLocked (key : string) (o : iface V) (d : heapData) : heapData :=
  match items d !! key with
  | Some _ => d
  | None => heap_Push (key, o) d
  end.

(** The body [Add] and [BulkAdd] share: replace the object and fix the heap, or
    push it. *)
Definition add_locked (key : string) (o : iface V) (d : heapData) : heapData :=
  match items d !! key with
  | Some item =>
      heap_Fix (index item)
        (mkHeapData (<[key := mkHeapItem o (index item)]> (items d)) (queue d))
  | None => addIfNotPresentLocked key o d
  end.

Definition closedMsg : error V := Errorf "heap is closed" [].

Definition Add (o : iface V) : stateM Heap V unit := fun h =>
  match keyFunc cfg o with
  | Err err => (h, Err (KeyError o err))
  | Ok key =>
      if closed h then (h, Err closedMsg)
      else (mkHeap (add_locked key o (data h)) (closed h), Ok tt)
  end.

Fixpoint BulkAdd_loop (l : list (iface V)) : stateM Heap V unit := fun h =>
  match l with
  | [] => (h, Ok tt)
  | o :: l' =>
      match keyFunc cfg o with
      | Err err => (h, Err (KeyError o err))
      | Ok key => BulkAdd_loop l' (mkHeap (add_locked key o (data h)) (closed h))
      end
  end.

Definition BulkAdd (l : list (iface V)) : stateM Heap V unit := fun h =>
  if closed h then (h, Err closedMsg) else BulkAdd_loop l h.

Definition AddIfNotPresent (o : iface V) : stateM Heap V unit := fun h =>
  match keyFunc cfg o with
  | Err err => (h, Err (KeyError o err))
  | Ok id =>
      if closed h then (h, Err closedMsg)
      else (mkHeap (addIfNotPresentLocked id o (data h)) (closed h), Ok tt)
  end.

Definition Update (o : iface V) : stateM Heap V unit := Add o.

(** [None] is a panic. *)
Definition Delete (o : iface V) (h : Heap) : option (Heap * result V unit) :=
  match keyFunc cfg o with
  | Err err => Some (h, Err (KeyError o err))
  | Ok key =>
      match items (data h) !! key with
      | Some item =>
          '(_, d) ← heap_Remove (index item) (data h); Some (mkHeap d (closed h), Ok tt)
      | None => Some (h, Err (Errorf "object not found" []))
      end
  end.

Inductive PopOutcome : Type :=
| PopBlocked
| PopReturns (r : result V (iface V)).

Definition Pop (h : Heap) : option (Heap * PopOutcome) :=
  match queue (data h) with
  | [] =>
      if closed h then Some (h, PopReturns (Err closedMsg)) else Some (h, PopBlocked)
  | _ =>
      '(kv, d) ← heap_Pop (data h);
      match kv.2 with
      | None => Some (mkHeap d (closed h),
                  PopReturns (Err (Errorf "object was removed from heap data" [])))
      | Some o => Some (mkHeap d (closed h), PopReturns (Ok (Some o)))
      end
  end.

Definition Get (o : iface V) (h : Heap) : iface V * bool * option (error V) :=
  match keyFunc cfg o with
  | Err err => (None, false, Some (KeyError o err))
  | Ok key => GetByKey key h
  end.

(** ** Specification *)

(** The objects of the heap by key. *)
Definition contents (d : heapData) : gmap string (iface V) := obj <$> items d.

(** The items are the keys of the slice, each once, and know their place. *)
Record data_ok (d : heapData) : Prop := {
  dok_nodup : NoDup (queue d);
  dok_index : forall i k, queue d !! i = Some k <-> exists o, items d !! k = Some (mkHeapItem o i)
}.

(** The elements in the order of the slice. *)
Definition elements_of (d : heapData) : list (string * iface V) :=
  (fun k => (k, default None (contents d !! k))) <$> queue d.

(** [lessFunc] is a strict weak order. *)
Record strict_weak_order : Prop := {
  swo_asym a b : lessFunc cfg a b = true -> lessFunc cfg b a = false;
  swo_trans a b c : lessFunc cfg b a = false -> lessFunc cfg c b = false -> lessFunc cfg c a = false
}.

(** What a [BulkAdd] adds: the objects up to the first without a key. *)
Fixpoint bulk_contents (l : list (iface V)) (m : gmap string (iface V)) : gmap string (iface V) :=
  match l with
  | [] => m
  | o :: l' => match keyFunc cfg o with Ok key => bulk_contents l' (<[key := o]> m) | Err _ => m end
  end.

(** Reachable heaps, with the map of what they hold. *)
Inductive heap_reach : Heap -> gmap string (iface V) -> Prop :=
| reach_New : heap_reach NewHeap ∅
| reach_Add h m o key h' :
    heap_reach h m -> keyFunc cfg o = Ok key -> Add o h = (h', Ok tt) ->
    heap_reach h' (<[key := o]> m)
| reach_BulkAdd h m l h' r :
    heap_reach h m -> closed h = false -> BulkAdd l h = (h', r) ->
    heap_reach h' (bulk_contents l m)
| reach_AddIfNotPresent h m o key h' :
    heap_reach h m -> keyFunc cfg o = Ok key -> AddIfNotPresent o h = (h', Ok tt) ->
    heap_reach h' (match m !! key with Some _ => m | None => <[key := o]> m end)
| reach_Delete h m o key h' :
    heap_reach h m -> keyFunc cfg o = Ok key -> Delete o h = Some (h', Ok tt) ->
    heap_reach h' (delete key m)
| reach_Pop h m o key h' :
    heap_reach h m -> keyFunc cfg o = Ok key -> Pop h = Some (h', PopReturns (Ok o)) ->
    heap_reach h' (delete key m)
| reach_Close h m : heap_reach h m -> heap_reach (Close h) m.

End operations.
End heap.
Arguments HeapConfig V : clear implicits.
Arguments Heap V : clear implicits.
Arguments heapData V : clear implicits.

(** ** Lemmas *)

Lemma swapped_involutive i j k : swapped i j (swapped i j k) = k.
Proof. unfold swapped. repeat case_decide; congruence. Qed.

Section laws.
Context {V : Type} (cfg : HeapConfig V) (Hswo : strict_weak_order cfg).
Implicit Types (d : heapData V).

Lemma data_ok_index d k it : data_ok d -> items d !! k = Some it -> queue d !! index it = Some k.
Proof. intros [_ Hidx] Hk. apply Hidx. destruct it. by eexists. Qed.

Lemma data_ok_item d i k : data_ok d -> queue d !! i = Some k ->
  exists o, items d !! k = Some (mkHeapItem o i).
Proof. intros [_ Hidx] Hk. by apply Hidx. Qed.

Lemma Swap_items d i j :
  data_ok d -> (i < length (queue d))%nat -> (j < length (queue d))%nat ->
  items (heapData_Swap i j d) = (fun it => mkHeapItem (obj it) (swapped i j (index it))) <$> items d.
Proof.
  intros Hok [ki Hki]%lookup_lt_is_Some [kj Hkj]%lookup_lt_is_Some.
  unfold heapData_Swap. rewrite Hki, Hkj.
  destruct (data_ok_item _ _ _ Hok Hki) as [oi Hi]. destruct (data_ok_item _ _ _ Hok Hkj) as [oj Hj].
  unfold set_index at 2. cbn. rewrite Hj. unfold set_index. cbn.
  apply map_eq. intros k. rewrite lookup_fmap.
  destruct (decide (ki = kj)) as [->|Hne].
  - rewrite lookup_insert_eq. cbn. pose proof Hj as E. rewrite Hi in E. injection E as -> ->.
    destruct (decide (k = kj)) as [->|Hk].
    + rewrite lookup_insert_eq, Hj. cbn. unfold swapped. by rewrite decide_True.
    + rewrite !lookup_insert_ne by done. destruct (items d !! k) as [[o n]|] eqn:Ek; [|done]. cbn.
      pose proof (data_ok_index _ _ _ Hok Ek) as Hq. cbn in Hq. unfold swapped.
      rewrite !decide_False by congruence. done.
  - rewrite lookup_insert_ne, Hi by done. cbn. destruct (decide (k = ki)) as [->|Hk].
    { rewrite lookup_insert_eq, Hi. cbn. unfold swapped. by rewrite decide_True. }
    rewrite lookup_insert_ne by done. destruct (decide (k = kj)) as [->|Hk'].
    { rewrite lookup_insert_eq, Hj. cbn. unfold swapped.
      case_decide; [congruence|]. by rewrite decide_True. }
    rewrite lookup_insert_ne by done. destruct (items d !! k) as [[o n]|] eqn:Ek; [|done]. cbn.
    pose proof (data_ok_index _ _ _ Hok Ek) as Hq. cbn in Hq. unfold swapped.
    rewrite !decide_False by congruence. done.
Qed.

Lemma Swap_queue d i j : queue (heapData_Swap i j d) = list_swap i j (queue d).
Proof.
  unfold heapData_Swap, list_swap. destruct (queue d !! i) as [ki|]; [|done].
  destruct (queue d !! j) as [kj|]; [|done].
  unfold set_index. repeat split_match; cbn in *; done.
Qed.

Lemma Swap_contents d i j :
  data_ok d -> (i < length (queue d))%nat -> (j < length (queue d))%nat ->
  contents (heapData_Swap i j d) = contents d.
Proof. intros. unfold contents. rewrite Swap_items, <- map_fmap_compose by done. done. Qed.

Lemma list_swap_fmap {A B} (f : A -> B) i j (l : list A) :
  f <$> list_swap i j l = list_swap i j (f <$> l).
Proof.
  unfold list_swap. rewrite !list_lookup_fmap.
  destruct (l !! i), (l !! j); cbn; by rewrite ?list_fmap_insert.
Qed.

Lemma Swap_ok d i j :
  data_ok d -> (i < length (queue d))%nat -> (j < length (queue d))%nat ->
  data_ok (heapData_Swap i j d).
Proof.
  intros Hok Hi Hj. constructor; rewrite Swap_queue.
  - rewrite list_swap_Permutation. apply Hok.
  - intros x k. rewrite lookup_list_swap, (dok_index _ Hok), Swap_items, lookup_fmap by done.
    split.
    + intros [o ->]. exists o. cbn. by rewrite swapped_involutive.
    + intros [o Ho]. destruct (items d !! k) as [[o' n]|]; [|done]. cbn in Ho. simplify_eq.
      exists o. by rewrite swapped_involutive.
Qed.

Lemma length_elements_of d : length (elements_of d) = length (queue d).
Proof. apply length_fmap. Qed.

Lemma lookup_elements_of d i e :
  data_ok d -> elements_of d !! i = Some e ->
  queue d !! i = Some e.1 /\ items d !! e.1 = Some (mkHeapItem e.2 i).
Proof.
  intros Hok. unfold elements_of. rewrite list_lookup_fmap.
  destruct (queue d !! i) as [k|] eqn:Ek; [|done]. intros [= <-]. cbn. split; [done|].
  destruct (data_ok_item _ _ _ Hok Ek) as [o Ho]. unfold contents. by rewrite lookup_fmap, Ho.
Qed.

Lemma Less_ok d i j a b :
  data_ok d -> elements_of d !! i = Some a -> elements_of d !! j = Some b ->
  heapData_Less cfg i j d = lessFunc cfg a.2 b.2.
Proof.
  intros Hok Ha Hb. pose proof (lookup_lt_Some _ _ _ Ha) as Hi.
  pose proof (lookup_lt_Some _ _ _ Hb) as Hj. rewrite length_elements_of in Hi, Hj.
  apply lookup_elements_of in Ha as [Hqa Hia]; [|done].
  apply lookup_elements_of in Hb as [Hqb Hib]; [|done]. unfold heapData_Less.
  replace (length (queue d) <? i)%nat with false by (symmetry; apply Nat.ltb_ge; lia).
  replace (length (queue d) <? j)%nat with false by (symmetry; apply Nat.ltb_ge; lia).
  cbn. rewrite Hqa, Hqb. cbn. by rewrite Hia, Hib.
Qed.

Lemma elements_of_ext d d' :
  queue d' = queue d -> (forall k, k ∈ queue d -> contents d' !! k = contents d !! k) ->
  elements_of d' = elements_of d.
Proof.
  intros Hq Hc. unfold elements_of. rewrite Hq. apply list_fmap_ext. intros i k Hk. f_equal.
  f_equal. apply Hc. by eapply list_elem_of_lookup_2.
Qed.

Lemma Push_ok (kv : string * iface V) d :
  data_ok d -> items d !! kv.1 = None ->
  data_ok (heapData_Push kv d) /\ elements_of (heapData_Push kv d) = elements_of d ++ [kv].
Proof.
  intros Hok Hnone. assert (Hnq : kv.1 ∉ queue d).
  { intros [i Hi]%list_elem_of_lookup. destruct (data_ok_item _ _ _ Hok Hi) as [o Ho]. congruence. }
  split.
  - constructor; cbn; [by apply NoDup_snoc; [apply Hok|]|]. intros i k.
    rewrite lookup_app_Some, list_lookup_singleton_Some, (dok_index _ Hok). split.
    + intros [[o Ho]|[Hle [Hi <-]]].
      * exists o. rewrite lookup_insert_ne; [done|congruence].
      * exists kv.2. rewrite lookup_insert_eq. do 2 f_equal. lia.
    + intros [o Ho]. apply lookup_insert_Some in Ho as [[Ek Ei]|[Hne Ho]]; [|left; by eexists].
      injection Ei as _ Ei. right. split; [lia|]. split; [lia|done].
  - unfold elements_of at 1. cbn. rewrite fmap_app. cbn. f_equal.
    + apply list_fmap_ext. intros i k Hk. f_equal. f_equal. unfold contents. cbn.
      rewrite fmap_insert, lookup_insert_ne; [done|].
      intros <-. apply Hnq. by eapply list_elem_of_lookup_2.
    + unfold contents. cbn. rewrite fmap_insert, lookup_insert_eq. by destruct kv.
Qed.

Lemma heapData_Pop_ok d l e :
  data_ok d -> elements_of d = l ++ [e] ->
  exists d', heapData_Pop d = Some (e, d') /\ data_ok d' /\ elements_of d' = l /\
    contents d' = delete e.1 (contents d).
Proof.
  intros Hok He. destruct (queue d) as [|k q _] eqn:Eq using rev_ind.
  { apply (f_equal length) in He. rewrite length_elements_of, Eq, length_app in He. cbn in He. lia. }
  assert (He' := He). unfold elements_of in He'. rewrite Eq, fmap_app in He'. cbn in He'.
  apply app_inj_tail in He' as [Hl Hek].
  pose proof (dok_nodup _ Hok) as Hnd. rewrite Eq in Hnd.
  assert (Hk : k ∉ q). { apply NoDup_app in Hnd as (_ & Hd & _). intros Hin. apply (Hd _ Hin). by left. }
  assert (Hqk : queue d !! length q = Some k) by (rewrite Eq; by apply list_lookup_middle).
  destruct (data_ok_item _ _ _ Hok Hqk) as [o Ho].
  unfold heapData_Pop. rewrite Eq, last_snoc, length_app. cbn [length].
  replace (length q + 1 - 1)%nat with (length q + 0)%nat by lia. rewrite take_app_add, Ho. cbn.
  unfold contents in Hek. rewrite lookup_fmap, Ho in Hek. cbn in Hek. subst e. cbn.
  rewrite app_nil_r. eexists. split; [done|]. split_and!.
  - constructor; cbn; [by apply NoDup_app in Hnd as [? _]|]. intros i k'. split.
    + intros Hi. assert (Hi' : queue d !! i = Some k') by (rewrite Eq; by apply lookup_app_l_Some).
      destruct (data_ok_item _ _ _ Hok Hi') as [o' Ho']. exists o'.
      rewrite lookup_delete_ne; [done|]. intros <-. apply Hk. by eapply list_elem_of_lookup_2.
    + intros [o' [Hne Ho']%lookup_delete_Some]. pose proof (data_ok_index _ _ _ Hok Ho') as Hi.
      cbn in Hi. rewrite Eq in Hi. apply lookup_app_Some in Hi as [?|[_ Hi]]; [done|].
      apply list_lookup_singleton_Some in Hi as [_ ->]. done.
  - rewrite <- Hl. unfold elements_of. cbn. apply list_fmap_ext. intros i k' Hi. f_equal. f_equal.
    unfold contents. cbn. rewrite fmap_delete, lookup_delete_ne; [done|].
    intros <-. apply Hk. by eapply list_elem_of_lookup_2.
  - unfold contents. cbn. by rewrite fmap_delete.
Qed.

#[local] Existing Instance heapData_Interface.

#[local] Program Instance heapData_laws :
    @HeapLaws (heapData V) (string * iface V) (string * iface V) unit (heapData_Interface cfg) := {|
  hv_view := elements_of;
  hv_frame _ := tt;
  hv_inv := data_ok;
  hv_lt _ a b := lessFunc cfg a.2 b.2;
  hv_elem x _ := x;
  hv_push_ok x d := items d !! x.1 = None
|}.
Next Obligation. intros f a b. cbn. apply Hswo. Qed.
Next Obligation. intros f a b c. cbn. apply Hswo. Qed.
Next Obligation. intros d Hok. cbn. by rewrite length_elements_of. Qed.
Next Obligation. intros d i j a b. apply Less_ok. Qed.
Next Obligation.
  intros d i j Hok. cbn. rewrite length_elements_of. intros Hi Hj. split; [by apply Swap_ok|].
  split; [|done]. unfold elements_of.
  rewrite Swap_contents, Swap_queue by done. apply list_swap_fmap.
Qed.
Next Obligation. intros d x Hok Hx. cbn in *. destruct (Push_ok x d Hok Hx) as [? ?]. done. Qed.
Next Obligation.
  intros d l e Hok Hv. cbn in *. destruct (heapData_Pop_ok d l e Hok Hv) as (d' & ? & ? & ? & ?).
  by exists e, d'.
Qed.

(** *** The elements determine the contents *)

Lemma elements_keys d : (elements_of d).*1 = queue d.
Proof.
  unfold elements_of. rewrite <- list_fmap_compose. rewrite <- (list_fmap_id (queue d)) at 2. done.
Qed.

Lemma contents_elements d : data_ok d -> contents d = list_to_map (elements_of d).
Proof.
  intros Hok. assert (Hnd : NoDup (elements_of d).*1) by (rewrite elements_keys; apply Hok).
  apply map_eq. intros k. destruct (list_to_map (elements_of d) !! k) as [o|] eqn:E.
  - apply elem_of_list_to_map in E; [|done]. apply list_elem_of_lookup in E as [i Hi].
    apply lookup_elements_of in Hi as [_ Hi]; [|done]. cbn in Hi. unfold contents.
    by rewrite lookup_fmap, Hi.
  - apply not_elem_of_list_to_map in E. rewrite elements_keys in E.
    unfold contents. rewrite lookup_fmap. destruct (items d !! k) as [it|] eqn:Ek; [|done].
    exfalso. apply E. eapply list_elem_of_lookup_2. by apply data_ok_index.
Qed.

Lemma contents_perm d d' l :
  data_ok d -> data_ok d' -> elements_of d' ≡ₚ l ++ elements_of d ->
  contents d' = list_to_map l ∪ contents d.
Proof.
  intros Hok Hok' Hp. rewrite (contents_elements d), (contents_elements d') by done.
  rewrite <- list_to_map_app. apply list_to_map_proper; [|done].
  rewrite elements_keys. apply Hok'.
Qed.

Lemma elements_Some d k o : data_ok d -> contents d !! k = Some o -> (k, o) ∈ elements_of d.
Proof.
  intros Hok Hk. rewrite contents_elements in Hk by done.
  by apply elem_of_list_to_map_2 in Hk.
Qed.

Local Abbreviation ordered := (heap_ok (H1:=heapData_laws)).

(** *** The operations *)

Lemma add_locked_ok k o d :
  data_ok d -> ordered d ->
  let d' := add_locked cfg k o d in
  data_ok d' /\ ordered d' /\ contents d' = <[k := o]> (contents d).
Proof.
  intros Hok Hheap. cbn zeta. unfold add_locked, addIfNotPresentLocked.
  destruct (items d !! k) as [item|] eqn:Ek.
  - set (d1 := mkHeapData (<[k := mkHeapItem o (index item)]> (items d)) (queue d)).
    pose proof (data_ok_index _ _ _ Hok Ek) as Hq.
    assert (Hok1 : data_ok d1).
    { constructor; cbn; [apply Hok|]. intros i k'. rewrite lookup_insert. case_decide as Hk; [subst k'|apply Hok].
      split.
      - intros Hi. exists o. do 2 f_equal. destruct (data_ok_item _ _ _ Hok Hi) as [o' Ho'].
        rewrite Ek in Ho'. by simplify_eq.
      - intros [o' [= -> <-]]. done. }
    assert (Hc1 : contents d1 = <[k := o]> (contents d)) by (unfold contents; cbn; by rewrite fmap_insert).
    assert (Hother : forall i, i <> index item -> elements_of d1 !! i = elements_of d !! i).
    { intros i Hi. unfold elements_of. rewrite !list_lookup_fmap. change (queue d1) with (queue d).
      destruct (queue d !! i) as [k'|] eqn:Eq; [|done].
      change (Some (k', default None (contents d1 !! k')) = Some (k', default None (contents d !! k'))).
      rewrite Hc1, lookup_insert_ne; [done|]. intros <-. destruct (data_ok_item _ _ _ Hok Eq) as [o' Ho'].
      rewrite Ek in Ho'. by simplify_eq. }
    assert (Hlt : (index item < length (elements_of d))%nat)
      by (rewrite length_elements_of; by eapply lookup_lt_Some).
    assert (Hlen : length (elements_of d1) = length (elements_of d)) by (by rewrite !length_elements_of).
    destruct (heap_Fix_ok (H1:=heapData_laws) d1 (index item) Hok1) as ((Hok2 & Hp & _) & Hheap2).
    + by rewrite <- Hlen in Hlt.
    + apply (heap_except_changed (H1:=heapData_laws) d d1); [done|done|done|].
      intros k1 k2 H1 H2 Hle a b. cbn. rewrite !Hother by done. apply Hle.
    + split; [done|]. split; [done|]. rewrite <- Hc1.
      rewrite (contents_perm d1 _ [] Hok1 Hok2 Hp). apply map_empty_union.
  - destruct (heap_Push_ok (H1:=heapData_laws) (k, o) d Hok Ek Hheap) as (Hok' & _ & Hheap' & Hp).
    split; [done|]. split; [done|].
    rewrite (contents_perm d _ [(k, o)] Hok Hok' Hp). cbn.
    by rewrite insert_empty, insert_union_singleton_l.
Qed.

Lemma removed_contents d d' k o :
  data_ok d -> data_ok d' -> elements_of d ≡ₚ (k, o) :: elements_of d' ->
  contents d' = delete k (contents d) /\ contents d !! k = Some o.
Proof.
  intros Hok Hok' Hp. pose proof (contents_perm d' d [(k, o)] Hok' Hok Hp) as E. cbn in E.
  rewrite insert_empty, <- insert_union_singleton_l in E.
  pose proof (dok_nodup _ Hok) as Hnd. rewrite <- elements_keys, Hp in Hnd. cbn in Hnd.
  apply NoDup_cons in Hnd as [Hk _]. rewrite elements_keys in Hk.
  rewrite E, lookup_insert_eq. split; [|done]. rewrite delete_insert_id; [done|].
  unfold contents. rewrite lookup_fmap. destruct (items d' !! k) as [it|] eqn:Ek; [|done].
  exfalso. apply Hk. eapply list_elem_of_lookup_2. by apply data_ok_index.
Qed.

Lemma Remove_key_ok d k item :
  data_ok d -> ordered d -> items d !! k = Some item ->
  exists x d', heap_Remove (H:=heapData V) (H0:=heapData_Interface cfg) (index item) d = Some (x, d') /\ data_ok d' /\ ordered d' /\
    contents d' = delete k (contents d).
Proof.
  intros Hok Hheap Ek. pose proof (data_ok_index _ _ _ Hok Ek) as Hq.
  assert (He : elements_of d !! index item = Some (k, default None (contents d !! k)))
    by (cbn; unfold elements_of; by rewrite list_lookup_fmap, Hq).
  destruct (heap_Remove_ok (H1:=heapData_laws) d (index item) _ Hok Hheap He) as (x & d' & E & Hok' & _ & _ & Hp & Hheap').
  exists x, d'. split_and!; try done. by apply (removed_contents d d' k _ Hok Hok') in Hp as [? _].
Qed.

Lemma Pop_min_ok d :
  data_ok d -> ordered d -> queue d <> [] ->
  exists k o d', heap_Pop (H:=heapData V) (H0:=heapData_Interface cfg) d = Some ((k, o), d') /\ data_ok d' /\ ordered d' /\
    contents d !! k = Some o /\ contents d' = delete k (contents d) /\
    forall k' o', contents d !! k' = Some o' -> lessFunc cfg o' o = false.
Proof.
  intros Hok Hheap Hne.
  assert (exists e, head (elements_of d) = Some e) as [[k o] He].
  { cbn. unfold elements_of. destruct (queue d); [done|]. by eexists. }
  destruct (heap_Pop_ok (H1:=heapData_laws) d (k, o) Hok Hheap He)
    as (x & d' & E & Hok' & _ & Hx & Hp & Hheap' & Hmin). cbn in Hx. subst x.
  destruct (removed_contents d d' k o Hok Hok' Hp) as [Hc Hk].
  exists k, o, d'. split_and!; try done. intros k' o' Hk'.
  by apply (Hmin (k', o')), elements_Some.
Qed.

(** *** Reachable heaps *)

Definition heap_inv (h : Heap V) (m : gmap string (iface V)) : Prop :=
  data_ok (data h) /\ ordered (data h) /\ contents (data h) = m /\
  (forall k o, m !! k = Some o -> keyFunc cfg o = Ok k).

Lemma heap_inv_add k o h m :
  heap_inv h m -> keyFunc cfg o = Ok k ->
  heap_inv (mkHeap (add_locked cfg k o (data h)) (closed h)) (<[k := o]> m).
Proof.
  intros (Hok & Hheap & <- & Hkey) Hk. destruct (add_locked_ok k o (data h) Hok Hheap) as (? & ? & Hc).
  split_and!; try done. intros k' o' [[<- <-]|[_ ?]]%lookup_insert_Some; eauto.
Qed.

Lemma heap_inv_bulk l h m h' r :
  heap_inv h m -> BulkAdd_loop cfg l h = (h', r) -> heap_inv h' (bulk_contents cfg l m).
Proof.
  revert h m. induction l as [|o l IH]; intros h m Hinv; cbn; [by intros [= <- _]|].
  destruct (keyFunc cfg o) as [k|e] eqn:Ek; [|by intros [= <- _]].
  apply IH. by apply heap_inv_add.
Qed.

Lemma heap_inv_delete k m h d :
  heap_inv h m -> data_ok d -> ordered d -> contents d = delete k (contents (data h)) ->
  heap_inv (mkHeap d (closed h)) (delete k m).
Proof.
  intros (_ & _ & <- & Hkey) ?? Hc. split_and!; try done.
  intros k' o' [_ ?]%lookup_delete_Some. eauto.
Qed.

(** What [Pop] returns for the object it removes. *)
Definition pop_result (o : iface V) : result V (iface V) :=
  match o with
  | Some v => Ok (Some v)
  | None => Err (Errorf "object was removed from heap data" [])
  end.

Lemma Pop_keyed h m h' out :
  heap_inv h m -> Pop cfg h = Some (h', out) -> out = PopBlocked \/
  (closed h = true /\ queue (data h) = [] /\ h' = h) \/
  exists k o, m !! k = Some o /\ heap_inv h' (delete k m) /\
    out = PopReturns (pop_result o) /\
    (forall k' o', m !! k' = Some o' -> lessFunc cfg o' o = false).
Proof.
  intros Hinv. pose proof Hinv as (Hok & Hheap & Hm & Hkey). unfold Pop.
  destruct (queue (data h)) as [|k0 q] eqn:Eq.
  { destruct (closed h) eqn:Ec; intros [= <- <-]; [right; left; done|by left]. }
  destruct (Pop_min_ok (data h) Hok Hheap ltac:(by rewrite Eq))
    as (k & o & d' & E & Hok' & Hheap' & Hk & Hc & Hmin). rewrite E, <- Hm. cbn.
  intros Hout. right. right. exists k, o. split; [done|].
  assert (heap_inv (mkHeap d' (closed h)) (delete k (contents (data h))))
    by (rewrite Hm; by apply (heap_inv_delete k m h)).
  destruct o as [v|]; simplify_eq; done.
Qed.

Lemma heap_reach_inv h m : heap_reach cfg h m -> heap_inv h m.
Proof.
  induction 1 as [|h m o k h' _ IH Hk E|h m l h' r _ IH Hcl E|h m o k h' _ IH Hk E
    |h m o k h' _ IH Hk E|h m o k h' _ IH Hk E|h m _ IH].
  - split; [constructor; cbn; [constructor|]|].
    { intros i k. rewrite lookup_empty. split; [by rewrite lookup_nil|by intros [? ?]]. }
    split; [intros k; cbn; lia|]. split; [apply fmap_empty|]. intros k o. by rewrite lookup_empty.
  - unfold Add in E. rewrite Hk in E. destruct (closed h) eqn:Ec; [done|]. simplify_eq.
    rewrite <- Ec. by apply heap_inv_add.
  - unfold BulkAdd in E. rewrite Hcl in E. by eapply heap_inv_bulk.
  - unfold AddIfNotPresent in E. rewrite Hk in E. destruct (closed h) eqn:Ec; [done|].
    simplify_eq. pose proof IH as (Hok & Hheap & <- & Hkey). unfold contents at 1.
    rewrite lookup_fmap. unfold addIfNotPresentLocked.
    destruct (items (data h) !! k) as [it|] eqn:Ei; cbn.
    + destruct h. cbn in *. by subst.
    + pose proof (heap_inv_add k o h _ IH Hk) as Ha. unfold add_locked, addIfNotPresentLocked in Ha.
      rewrite Ei in Ha. by rewrite <- Ec.
  - unfold Delete in E. rewrite Hk in E. pose proof IH as (Hok & Hheap & _ & _).
    destruct (items (data h) !! k) as [it|] eqn:Ei; [|done].
    destruct (Remove_key_ok (data h) k it Hok Hheap Ei) as (x & d' & Er & ? & ? & ?).
    rewrite Er in E. cbn in E. simplify_eq. by apply (heap_inv_delete k).
  - destruct (Pop_keyed h m h' _ IH E) as [?|[(? & Hq & ->)|(k' & o' & Hk' & Hinv & Ho & _)]]; [done| |].
    + unfold Pop in E. rewrite Hq in E. destruct (closed h); simplify_eq.
    + destruct IH as (_ & _ & _ & Hkey). pose proof (Hkey _ _ Hk') as Hko.
      assert (o' = o) as -> by (destruct o'; cbn in Ho; by simplify_eq).
      assert (k' = k) as -> by congruence. done.
  - done.
Qed.

End laws.

(** ** Properties *)

(** The keyed heap is a priority queue over a map.  When [lessFunc] is a strict
    weak order, every reachable heap holds exactly the objects that were added and
    not deleted or popped, the last one added for each key; [Pop] returns one that
    no other is less than and removes it, and on an empty heap it waits, or fails
    when the heap is closed. *)
Theorem cache_heap_Pop_min {V} (cfg : HeapConfig V) h m :
  strict_weak_order cfg -> heap_reach cfg h m ->
  contents (data h) = m /\
  (m = ∅ /\ Pop cfg h = Some (h, if closed h then PopReturns (Err closedMsg) else PopBlocked) \/
   exists k o h', m !! k = Some o /\
     Pop cfg h = Some (h', PopReturns (pop_result o)) /\
     contents (data h') = delete k m /\
     forall k' o', m !! k' = Some o' -> lessFunc cfg o' o = false).
Proof.
  intros Hswo Hr. destruct (heap_reach_inv cfg Hswo h m Hr) as (Hok & Hheap & Hm & Hkey).
  split; [done|]. destruct (queue (data h)) as [|k0 q] eqn:Eq.
  - left. split; [|unfold Pop; rewrite Eq; by destruct (closed h)].
    rewrite <- Hm, contents_elements by done. unfold elements_of. by rewrite Eq.
  - right. destruct (Pop_min_ok cfg Hswo (data h) Hok Hheap ltac:(by rewrite Eq))
      as (k & o & d' & E & _ & _ & Hk & Hc & Hmin). rewrite Hm in *.
    exists k, o, (mkHeap d' (closed h)). split; [done|]. split; [|done].
    unfold Pop. rewrite Eq, E. cbn. by destruct o.
Qed.

(** The mutations of the keyed heap, on every branch.  On a reachable heap an
    object without a key is refused; a closed heap refuses an [Add]; otherwise
    [Add] stores the object under its key, in place of any other; [Delete] removes
    the key or reports that it is not there, and never panics. *)
Theorem cache_heap_mutations {V} (cfg : HeapConfig V) h m o :
  strict_weak_order cfg -> heap_reach cfg h m ->
  match keyFunc cfg o with
  | Err e =>
      Add cfg o h = (h, Err (KeyError o e)) /\ Delete cfg o h = Some (h, Err (KeyError o e))
  | Ok k =>
      (if closed h then Add cfg o h = (h, Err closedMsg)
       else exists h', Add cfg o h = (h', Ok tt) /\ contents (data h') = <[k := o]> m) /\
      match m !! k with
      | None => Delete cfg o h = Some (h, Err (Errorf "object not found" []))
      | Some _ => exists h', Delete cfg o h = Some (h', Ok tt) /\ contents (data h') = delete k m
      end
  end.
Proof.
  intros Hswo Hr. destruct (heap_reach_inv cfg Hswo h m Hr) as (Hok & Hheap & Hm & Hkey).
  unfold Add, Delete. destruct (keyFunc cfg o) as [k|e] eqn:Ek; [|done].
  split.
  - destruct (closed h); [done|].
    destruct (add_locked_ok cfg Hswo k o (data h) Hok Hheap) as (_ & _ & Hc).
    eexists. split; [done|]. cbn. by rewrite Hc, Hm.
  - rewrite <- Hm. unfold contents at 1. rewrite lookup_fmap.
    destruct (items (data h) !! k) as [it|] eqn:Ei; [|done]. cbn.
    destruct (Remove_key_ok cfg Hswo (data h) k it Hok Hheap Ei) as (x & d' & E & _ & _ & Hc).
    rewrite E. cbn. eauto.
Qed.

(** ** Witnesses *)

(** Pods by name, the lower version first. *)
Definition wit_heap_cfg : HeapConfig (value pod) := mkHeapConfig
  (@MetaNamespaceKeyFunc pod pod_accessor)
  (fun a b => match a, b with
              | Some (VObject p), Some (VObject q) => pod_version p <? pod_version q
              | Some (VObject _), _ => true
              | _, _ => false
              end).

Lemma wit_heap_order : strict_weak_order wit_heap_cfg.
Proof.
  split; cbn.
  - intros [[p| | |]|] [[q| | |]|]; try done. rewrite Z.ltb_lt, Z.ltb_ge. lia.
  - intros [[p| | |]|] [[q| | |]|] [[r| | |]|]; try done. rewrite !Z.ltb_ge. lia.
Qed.

Definition wit_heap1 : Heap (value pod) := (Add wit_heap_cfg (pod_obj "a" 5) NewHeap).1.
Definition wit_heap2 : Heap (value pod) := (Add wit_heap_cfg (pod_obj "b" 3) wit_heap1).1.

Lemma wit_heap_reach :
  heap_reach wit_heap_cfg wit_heap2 (<["default/b" := pod_obj "b" 3]> (<["default/a" := pod_obj "a" 5]> ∅)).
Proof.
  apply (reach_Add wit_heap_cfg wit_heap1); [|reflexivity|reflexivity].
  apply (reach_Add wit_heap_cfg NewHeap); [constructor|reflexivity|reflexivity].
Qed.

Lemma cache_heap_Pop_min_witness :
  contents (data wit_heap2) = <["default/b" := pod_obj "b" 3]> (<["default/a" := pod_obj "a" 5]> ∅) /\
  snd <$> Pop wit_heap_cfg wit_heap2 = Some (PopReturns (Ok (pod_obj "b" 3))).
Proof.
  destruct (cache_heap_Pop_min wit_heap_cfg wit_heap2 _ wit_heap_order wit_heap_reach) as [Hc _].
  split; [exact Hc|vm_compute; reflexivity].
Defined.

Lemma cache_heap_mutations_witness :
  exists h', Delete wit_heap_cfg (pod_obj "b" 9) wit_heap2 = Some (h', Ok tt) /\
    contents (data h') = delete "default/b"
      (<["default/b" := pod_obj "b" 3]> (<["default/a" := pod_obj "a" 5]> ∅)).
Proof.
  exact (proj2 (cache_heap_mutations wit_heap_cfg wit_heap2 _ (pod_obj "b" 9)
    wit_heap_order wit_heap_reach)).
Defined.
