(* ===== verification/FIFO.v ===== *)
(** * The plain queue: tools/cache/fifo.go.

    A [FIFO] keeps only the last object of each key, and its slice of keys may hold
    keys that were deleted, or the same key twice; [Pop] skips the former.  It is a
    [Store]: the instance [FIFO_laws] discharges the laws of Store.v.  Every method
    holds the lock, so each is an atomic step; a [Pop] that has to wait returns
    [Blocked] and is run again. *)

From S2P Require Import Prelude Objects ThreadSafeStore Store.

Section fifo.
Context {V : Type}.

Record FIFO : Type := mkFIFO {
  items : gmap string (iface V);
  queue : list string;
  populated : bool;
  initialPopulationCount : Z;
  closed : bool
}.

Definition NewFIFO : FIFO := mkFIFO ∅ [] false 0 false.

Definition Close (f : FIFO) : FIFO :=
  mkFIFO (items f) (queue f) (populated f) (initialPopulationCount f) true.

Definition hasSynced_locked (f : FIFO) : bool := populated f && (initialPopulationCount f =? 0).
Definition HasSynced (f : FIFO) : bool := hasSynced_locked f.

Definition addIfNotPresent (id : string) (obj : iface V) (f : FIFO) : FIFO :=
  match items f !! id with
  | Some _ => mkFIFO (items f) (queue f) true (initialPopulationCount f) (closed f)
  | None => mkFIFO (<[id := obj]> (items f)) (queue f ++ [id]) true (initialPopulationCount f) (closed f)
  end.

Definition List `{MapRange} (f : FIFO) : list (iface V) := (range (items f)).*2.
Definition ListKeys `{MapRange} (f : FIFO) : list string := (range (items f)).*1.

Definition GetByKey (key : string) (f : FIFO) : iface V * bool * option (error V) :=
  match items f !! key with
  | Some item => (item, true, None)
  | None => (None, false, None)
  end.

Definition IsClosed (f : FIFO) : bool := closed f.

Definition requeue_error (err : option (error V)) : option (option (error V)) :=
  match err with
  | Some (ErrRequeue e) => Some e
  | _ => None
  end.

Inductive PopOutcome : Type :=
| Blocked
| PopClosed
| Popped (item : iface V) (err : option (error V)).

Fixpoint Pop_loop {X} (process : iface V -> bool -> X -> X * option (error V))
    (q : list string) (f : FIFO) (x : X) : FIFO * X * PopOutcome :=
  match q with
  | [] => (f, x, if closed f then PopClosed else Blocked)
  | id :: q' =>
      let isInInitialList := negb (hasSynced_locked f) in
      let f := mkFIFO (items f) q' (populated f)
                 (if 0 <? initialPopulationCount f then initialPopulationCount f - 1
                  else initialPopulationCount f) (closed f) in
      match items f !! id with
      | None => Pop_loop process q' f x
      | Some item =>
          let f := mkFIFO (delete id (items f)) (queue f) (populated f)
                     (initialPopulationCount f) (closed f) in
          let '(x, err) := process item isInInitialList x in
          match requeue_error err with
          | Some e => (addIfNotPresent id item f, x, Popped item e)
          | None => (f, x, Popped item err)
          end
      end
  end.

Definition Pop {X} (process : iface V -> bool -> X -> X * option (error V)) (f : FIFO) (x : X)
    : FIFO * X * PopOutcome :=
  Pop_loop process (queue f) f x.

Definition Resync `{MapRange} (f : FIFO) : FIFO * result V unit :=
  let inQueue := list_to_set (C := gset string) (queue f) in
  let missing := filter (fun id => id ∉ inQueue) (range (items f)).*1 in
  (mkFIFO (items f) (queue f ++ missing) (populated f) (initialPopulationCount f) (closed f), Ok tt).

Section keyed.
Context (keyFunc : KeyFunc V).

Definition Add (obj : iface V) : stateM FIFO V unit := fun f =>
  match keyFunc obj with
  | Err err => (f, Err (KeyError obj err))
  | Ok id =>
      let q := match items f !! id with Some _ => queue f | None => queue f ++ [id] end in
      (mkFIFO (<[id := obj]> (items f)) q true (initialPopulationCount f) (closed f), Ok tt)
  end.

Definition AddIfNotPresent (obj : iface V) : stateM FIFO V unit := fun f =>
  match keyFunc obj with
  | Err err => (f, Err (KeyError obj err))
  | Ok id => (addIfNotPresent id obj f, Ok tt)
  end.

Definition Update (obj : iface V) : stateM FIFO V unit := Add obj.

Definition Delete (obj : iface V) : stateM FIFO V unit := fun f =>
  match keyFunc obj with
  | Err err => (f, Err (KeyError obj err))
  | Ok id =>
      (mkFIFO (delete id (items f)) (queue f) true (initialPopulationCount f) (closed f), Ok tt)
  end.

Definition Get (obj : iface V) (f : FIFO) : iface V * bool * option (error V) :=
  match keyFunc obj with
  | Err err => (None, false, Some (KeyError obj err))
  | Ok key => GetByKey key f
  end.

Definition Replace `{MapRange} (l : list (iface V)) (resourceVersion : string)
    : stateM FIFO V unit := fun f =>
  match items_of_list keyFunc l ∅ with
  | Err e => (f, Err e)
  | Ok m =>
      let '(p, n) := if negb (populated f) then (true, Z.of_nat (size m))
                     else (populated f, initialPopulationCount f) in
      (mkFIFO m (range m).*1 p n (closed f), Ok tt)
  end.

(** ** Specification *)

(** The property the comment on [items] depends on. *)
Definition items_queued (f : FIFO) : Prop := forall k, is_Some (items f !! k) -> k ∈ queue f.

(** The keys [Pop] will hand out: each key with an item once, in the order in which
    the keys first stand in the queue. *)
Fixpoint live (q : list string) (m : gmap string (iface V)) : list string :=
  match q with
  | [] => []
  | k :: q' => match m !! k with Some _ => k :: live q' (delete k m) | None => live q' m end
  end.

(** Reachable queues. *)
Inductive fifo_reach : FIFO -> Prop :=
| reach_New : fifo_reach NewFIFO
| reach_Add obj f : fifo_reach f -> fifo_reach (Add obj f).1
| reach_AddIfNotPresent obj f : fifo_reach f -> fifo_reach (AddIfNotPresent obj f).1
| reach_Delete obj f : fifo_reach f -> fifo_reach (Delete obj f).1
| reach_Replace (R : MapRange) l rv f : fifo_reach f -> fifo_reach (Replace l rv f).1
| reach_Resync (R : MapRange) f : fifo_reach f -> fifo_reach (Resync f).1
| reach_Pop X (process : iface V -> bool -> X -> X * option (error V)) x f :
    fifo_reach f -> fifo_reach (Pop process f x).1.1
| reach_Close f : fifo_reach f -> fifo_reach (Close f).

(** [FIFO] implements [Store]. *)
#[local] Instance FIFO_Store `{MapRange} : StoreI V FIFO := {|
  st_Add obj f := Some (Add obj f);
  st_Update obj f := Some (Update obj f);
  st_Delete obj f := Some (Delete obj f);
  st_List := List;
  st_ListKeys := ListKeys;
  st_Get := Get;
  st_GetByKey := GetByKey;
  st_Replace l rv f := Some (Replace l rv f);
  st_Resync f := Some (Resync f)
|}.

(** ** Lemmas *)

#[local] Program Instance FIFO_laws `{MapRange} : @StoreLaws V FIFO FIFO_Store := {|
  st_items := items;
  st_inv := items_queued;
  st_accepts _ _ := True;
  st_key _ := keyFunc
|}.
Next Obligation.
  intros R obj f Hinv _. cbn. unfold Update, Add. destruct (keyFunc obj) as [k|e]; [|done].
  eexists. split; [done|]. split; [done|]. split; [|done]. intros k' Hk'. cbn in *.
  destruct (items f !! k) eqn:E.
  - apply Hinv. rewrite lookup_insert in Hk'. case_decide; [subst; by eexists|done].
  - rewrite elem_of_app, list_elem_of_singleton. rewrite lookup_insert in Hk'.
    case_decide; [by right|left; by apply Hinv].
Qed.
Next Obligation. intros R obj f Hinv _. by apply (FIFO_laws_obligation_1 R obj f). Qed.
Next Obligation.
  intros R obj f Hinv. cbn. unfold Delete. destruct (keyFunc obj) as [k|e]; [|done].
  eexists. split; [done|]. split; [done|]. split; [|done]. intros k' Hk'. cbn in *.
  apply Hinv. rewrite lookup_delete in Hk'. case_decide; [by destruct Hk'|done].
Qed.
Next Obligation.
  intros R l rv f Hinv _. cbn. unfold Replace. destruct (items_of_list keyFunc l ∅) as [m|e]; [|done].
  destruct (populated f); (eexists; split; [done|]; split; [done|]; split; [|done]);
    intros k' Hk'; cbn in *; by apply elem_of_range_keys.
Qed.
Next Obligation. done. Qed.
Next Obligation. done. Qed.
Next Obligation. intros R f. cbn. unfold ListKeys. by rewrite (range_perm (items f)). Qed.
Next Obligation. intros R f. cbn. unfold List. by rewrite (range_perm (items f)). Qed.

Lemma addIfNotPresent_queued id obj f : items_queued f -> items_queued (addIfNotPresent id obj f).
Proof.
  intros Hinv k. unfold addIfNotPresent. destruct (items f !! id) eqn:E; cbn; [apply Hinv|].
  rewrite lookup_insert, elem_of_app, list_elem_of_singleton.
  case_decide; [by right|left; by apply Hinv].
Qed.

(** [Pop] skips the keys without an item. *)
Lemma Pop_loop_ok {X} (process : iface V -> bool -> X -> X * option (error V)) q f x :
  match live q (items f) with
  | [] => exists n, Pop_loop process q f x =
      (mkFIFO (items f) (if q is [] then queue f else []) (populated f) n (closed f), x,
       if closed f then PopClosed else Blocked)
  | k :: rest => exists item q' n b, items f !! k = Some item /\
      live q' (delete k (items f)) = rest /\
      (forall k', k' ∈ q -> k' <> k -> is_Some (items f !! k') -> k' ∈ q') /\
      let g := mkFIFO (delete k (items f)) q' (populated f) n (closed f) in
      Pop_loop process q f x =
        let '(x', err) := process item b x in
        match requeue_error err with
        | Some e => (addIfNotPresent k item g, x', Popped item e)
        | None => (g, x', Popped item err)
        end
  end.
Proof.
  revert f. induction q as [|id q IH]; intros f; cbn [live Pop_loop].
  { exists (initialPopulationCount f). by destruct f. }
  cbn [items]. destruct (items f !! id) as [item|] eqn:Ei.
  - exists item, q, (if 0 <? initialPopulationCount f then initialPopulationCount f - 1
      else initialPopulationCount f), (negb (hasSynced_locked f)).
    split; [done|]. split; [done|]. split.
    + intros k' [->|?]%elem_of_cons; done.
    + by destruct (process item _ x).
  - specialize (IH (mkFIFO (items f) q (populated f)
      (if 0 <? initialPopulationCount f then initialPopulationCount f - 1
       else initialPopulationCount f) (closed f))). cbn [items queue populated closed] in IH.
    destruct (live q (items f)) as [|k rest].
    + destruct IH as [n ->]. exists n. by destruct q.
    + destruct IH as (item & q' & n & b & Hk & Hl & Hq & E). exists item, q', n, b.
      split; [done|]. split; [done|]. split; [|done].
      intros k' [->|?]%elem_of_cons Hne Hs; [by rewrite Ei in Hs; destruct Hs|by apply Hq].
Qed.

Lemma live_nil q (m : gmap string (iface V)) :
  live q m = [] -> forall k, k ∈ q -> m !! k = None.
Proof.
  induction q as [|id q IH]; cbn; [by intros _ k ?%not_elem_of_nil|].
  destruct (m !! id) eqn:E; [done|]. intros Hl k [->|?]%elem_of_cons; auto.
Qed.

Lemma Pop_queued {X} (process : iface V -> bool -> X -> X * option (error V)) f x :
  items_queued f -> items_queued (Pop process f x).1.1.
Proof.
  intros Hinv. unfold Pop. pose proof (Pop_loop_ok process (queue f) f x) as Hp.
  destruct (live (queue f) (items f)) as [|k rest] eqn:El.
  - destruct Hp as [n ->]. intros k Hk. cbn in *. specialize (live_nil _ _ El k (Hinv k Hk)) as Hn.
    rewrite Hn in Hk. by destruct Hk.
  - destruct Hp as (item & q' & n & b & Hk & Hl & Hq & ->).
    assert (Hg : items_queued (mkFIFO (delete k (items f)) q' (populated f) n (closed f))).
    { intros k' Hk'. cbn in *. rewrite lookup_delete in Hk'. case_decide; [by destruct Hk'|].
      apply Hq; [by apply Hinv|done|done]. }
    destruct (process item b x) as [x' err]. destruct (requeue_error err); [|done].
    by apply addIfNotPresent_queued.
Qed.

Lemma Resync_noop `{MapRange} f :
  items_queued f -> Resync f = (f, Ok tt).
Proof.
  intros Hinv. unfold Resync.
  assert (filter (fun id => id ∉ list_to_set (C := gset string) (queue f)) (range (items f)).*1 = [])
    as ->.
  { apply list_filter_none. apply Forall_forall. intros k Hk%elem_of_range_keys Hn.
    apply Hn. apply elem_of_list_to_set. by apply Hinv. }
  rewrite app_nil_r. by destruct f.
Qed.

Lemma fifo_reach_queued f : fifo_reach f -> items_queued f.
Proof.
  induction 1 as [|obj f _ IH|obj f _ IH|obj f _ IH|R l rv f _ IH|R f _ IH|X process x f _ IH|f _ IH].
  - intros k. cbn. rewrite lookup_empty. by intros [].
  - pose proof (st_Add_law (StoreLaws := @FIFO_laws range_in_key_order) obj f IH I) as Hl.
    cbn in Hl. destruct (keyFunc obj) eqn:Ek; [|unfold Add; by rewrite Ek].
    destruct Hl as (s' & E & _ & He). injection E as ->. apply He.
  - unfold AddIfNotPresent. destruct (keyFunc obj); [by apply addIfNotPresent_queued|done].
  - pose proof (st_Delete_law (StoreLaws := @FIFO_laws range_in_key_order) obj f IH) as Hl.
    cbn in Hl. destruct (keyFunc obj) eqn:Ek; [|unfold Delete; by rewrite Ek].
    destruct Hl as (s' & E & _ & He). injection E as ->. apply He.
  - unfold Replace. destruct (items_of_list keyFunc l ∅) as [m|e]; [|done].
    destruct (populated f); intros k Hk; cbn in *; by apply elem_of_range_keys.
  - by rewrite Resync_noop.
  - by apply Pop_queued.
  - done.
Qed.

End keyed.
End fifo.
Arguments FIFO V : clear implicits.
Arguments PopOutcome V : clear implicits.

(** ** Properties *)

(** The plain queue.  On every reachable queue every item's key is in the slice;
    [Pop] hands out the item of the first live key, that is, the first key of the
    slice that still has an item, with the last object given for it, removes it
    (or puts it back at the end, when asked to requeue), and leaves the other items;
    with no live key it waits, or reports the closing.  So a deleted object is never
    handed out, and no other is lost. *)
Theorem fifo_Pop_live {V X} (keyFunc : KeyFunc V) (f : FIFO V)
    (process : iface V -> bool -> X -> X * option (error V)) (x : X) :
  fifo_reach keyFunc f ->
  items_queued f /\
  match live (queue f) (items f) with
  | [] => items f = ∅ /\ (Pop process f x).1.2 = x /\
      (Pop process f x).2 = (if closed f then PopClosed else Blocked)
  | k :: rest => exists item b, items f !! k = Some item /\
      let '(x', err) := process item b x in
      match requeue_error err with
      | None => exists f', Pop process f x = (f', x', Popped item err) /\
          items f' = delete k (items f) /\ live (queue f') (items f') = rest
      | Some e => exists f', Pop process f x = (f', x', Popped item e) /\ items f' = items f
      end
  end.
Proof.
  intros Hr. pose proof (fifo_reach_queued keyFunc f Hr) as Hq. split; [done|].
  pose proof (Pop_loop_ok process (queue f) f x) as Hp. fold (Pop process f x) in Hp.
  destruct (live (queue f) (items f)) as [|k rest] eqn:El.
  - destruct Hp as [n ->]. split; [|done]. apply map_eq. intros k. rewrite lookup_empty.
    destruct (items f !! k) eqn:E; [|done].
    rewrite <- E. apply (live_nil _ _ El), Hq. by eexists.
  - destruct Hp as (item & q' & n & b & Hk & Hl & _ & ->). exists item, b. split; [done|].
    destruct (process item b x) as [x' err]. destruct (requeue_error err) as [e|]; [|eauto].
    eexists. split; [done|]. unfold addIfNotPresent. cbn. rewrite lookup_delete_eq. cbn.
    by rewrite insert_delete_eq, insert_id.
Qed.

(** [FIFO] is a [Store], and [Resync] is the no-op its comment says it should
    be: on a reachable queue the mutations act as on a map, an object without a key
    is refused with the state unchanged, and [Resync] changes nothing. *)
Theorem fifo_is_store {V} `{MapRange} (keyFunc : KeyFunc V) (f : FIFO V) obj l rv :
  fifo_reach keyFunc f ->
  Resync f = (f, Ok tt) /\
  match keyFunc obj with
  | Err e => Add keyFunc obj f = (f, Err (KeyError obj e)) /\
      Delete keyFunc obj f = (f, Err (KeyError obj e))
  | Ok k => items (Add keyFunc obj f).1 = <[k := obj]> (items f) /\
      items (Delete keyFunc obj f).1 = delete k (items f)
  end /\
  match items_of_list keyFunc l ∅ with
  | Err e => Replace keyFunc l rv f = (f, Err e)
  | Ok m => items (Replace keyFunc l rv f).1 = m /\ queue (Replace keyFunc l rv f).1 ≡ₚ (map_to_list m).*1
  end.
Proof.
  intros Hr. pose proof (fifo_reach_queued keyFunc f Hr) as Hq.
  split; [by apply Resync_noop|]. split.
  - unfold Add, Delete. by destruct (keyFunc obj).
  - unfold Replace. destruct (items_of_list keyFunc l ∅) as [m|e]; [|done].
    destruct (populated f); cbn; by rewrite (range_perm m).
Qed.

(** [Pop] does not return the items "in the order in which they were added": a
    key that is deleted and added again keeps its first place in the slice, so [a]
    added after [b] is handed out before it. *)
Theorem fifo_readd_jumps_queue :
  let key : KeyFunc string := fun o => match o with Some s => Ok s | None => Err (Errorf "nil" []) end in
  let f := (Add key (Some "a") (Delete key (Some "a")
             (Add key (Some "b") (Add key (Some "a") NewFIFO).1).1).1).1 in
  fifo_reach key f /\
  (Pop (fun _ _ x => (x, None)) f tt).2 = Popped (Some "a") None.
Proof.
  split; [repeat constructor|vm_compute; reflexivity].
Qed.

(** ** Witnesses *)

Definition wit_fifo_key : KeyFunc string := fun o =>
  match o with Some s => Ok s | None => Err (Errorf "nil" []) end.
Definition wit_fifo : FIFO string :=
  (Add wit_fifo_key (Some "b") (Add wit_fifo_key (Some "a") NewFIFO).1).1.

Lemma wit_fifo_reach : fifo_reach wit_fifo_key wit_fifo.
Proof. repeat constructor. Qed.

Lemma fifo_Pop_live_witness : items_queued wit_fifo /\ live (queue wit_fifo) (items wit_fifo) = ["a"; "b"].
Proof.
  split; [|vm_compute; reflexivity].
  exact (proj1 (fifo_Pop_live wit_fifo_key wit_fifo (fun _ _ x => (x, None)) tt wit_fifo_reach)).
Defined.

Lemma fifo_is_store_witness : @Resync string range_in_key_order wit_fifo = (wit_fifo, Ok tt).
Proof.
  exact (proj1 (@fifo_is_store string range_in_key_order wit_fifo_key wit_fifo None [] "" wit_fifo_reach)).
Defined.
