(* ===== verification/DerivedStores.v ===== *)
(** * Stores over stores: tools/cache/undelta_store.go and expiration_cache.go.

    [UndeltaStore] is proved over any [Store], [ExpirationCache] over any
    [ThreadSafeStore], through the laws of Store.v. *)

From S2P Require Import Prelude Objects ThreadSafeStore Store.

(** ** UndeltaStore *)

Section undelta.
Context {V S X : Type} `{StoreI V S} (PushFunc : list (iface V) -> X -> X).

Record UndeltaStore : Type := mkUndelta { store : S; pushed : X }.

Definition push (u : UndeltaStore) : UndeltaStore :=
  mkUndelta (store u) (PushFunc (st_List (store u)) (pushed u)).

(** A mutation of the store, followed by a push when it succeeds. *)
Definition then_push (op : store_op V S unit) : store_op V UndeltaStore unit := fun u =>
  '(s, r) ← op (store u);
  match r with
  | Err err => Some (mkUndelta s (pushed u), Err err)
  | Ok _ => Some (push (mkUndelta s (pushed u)), Ok tt)
  end.

Definition undelta_Add (obj : iface V) : store_op V UndeltaStore unit := then_push (st_Add obj).
Definition undelta_Update (obj : iface V) : store_op V UndeltaStore unit := then_push (st_Update obj).
Definition undelta_Delete (obj : iface V) : store_op V UndeltaStore unit := then_push (st_Delete obj).
Definition undelta_Replace (l : list (iface V)) (rv : string) : store_op V UndeltaStore unit :=
  then_push (st_Replace l rv).

(** Threads.  A successful mutation, the [List] after it and the call of [PushFunc]
    with the result are three steps of one call: [listing] counts the calls that
    have mutated and not listed, [lists] holds what the others have listed and not
    yet pushed. *)
Record undelta_sys : Type := mkUsys {
  u_store : S;
  listing : nat;
  lists : list (list (iface V));
  u_pushed : X
}.

Inductive undelta_step : undelta_sys -> undelta_sys -> Prop :=
| us_mutate (op : store_op V S unit) s s' n ls x :
    op s = Some (s', Ok tt) -> undelta_step (mkUsys s n ls x) (mkUsys s' (Datatypes.S n) ls x)
| us_list s n ls x :
    undelta_step (mkUsys s (Datatypes.S n) ls x) (mkUsys s n (st_List s :: ls) x)
| us_push s n ls1 l ls2 x :
    undelta_step (mkUsys s n (ls1 ++ l :: ls2) x) (mkUsys s n (ls1 ++ ls2) (PushFunc l x)).

End undelta.
Arguments UndeltaStore S X : clear implicits.

(** [NewUndeltaStore]. *)
Definition NewUndeltaStore {V X} (keyFunc : KeyFunc V) (x : X)
    : UndeltaStore (cache V (threadSafeMap V)) X :=
  mkUndelta (NewStore keyFunc) x.

(** ** ExpirationCache *)

Section expiration.
Context {V : Type}.

Record TimestampedEntry : Type := mkEntry { Obj : iface V; Timestamp : Z; key : string }.

(** [TTLPolicy.IsExpired] on a clock that shows [now]. *)
Definition IsExpired (TTL now : Z) (obj : TimestampedEntry) : bool :=
  (0 <? TTL) && (TTL <? time_sub now (Timestamp obj)).

Section cache.
Context {S : Type} `{ThreadSafeStoreI TimestampedEntry S}.
Context (keyFunc : KeyFunc V) (isExpired : Z -> TimestampedEntry -> bool).

Definition getTimestampedEntry (k : string) (s : S) : option TimestampedEntry := (ts_Get k s).1.

(** The object, if it has not expired at [now]; the outer [None] is a panic of the
    store. *)
Definition getOrExpire (now : Z) (k : string) (s : S) : option (S * (iface V * bool)) :=
  match getTimestampedEntry k s with
  | None => Some (s, (None, false))
  | Some timestampedItem =>
      if isExpired now timestampedItem then s' ← ts_Delete k s; Some (s', (None, false))
      else Some (s, (Obj timestampedItem, true))
  end.

Definition exp_GetByKey (now : Z) (k : string) (s : S)
    : option (S * (iface V * bool * option (error V))) :=
  '(s, (obj, exists_)) ← getOrExpire now k s; Some (s, (obj, exists_, None)).

Definition exp_Get (now : Z) (obj : iface V) (s : S)
    : option (S * (iface V * bool * option (error V))) :=
  match keyFunc obj with
  | Err err => Some (s, (None, false, Some (KeyError obj err)))
  | Ok k => exp_GetByKey now k s
  end.

(** The loop of [List]; the clock shows [at_ k] when the key [k] is checked.  A value
    that is no [TimestampedEntry] fails the type assertion. *)
Fixpoint exp_List_loop (at_ : string -> Z) (items : list (option TimestampedEntry)) (s : S)
    : option (S * list (iface V)) :=
  match items with
  | [] => Some (s, [])
  | None :: _ => None
  | Some item :: items' =>
      '(s, (obj, exists_)) ← getOrExpire (at_ (key item)) (key item) s;
      '(s, l) ← exp_List_loop at_ items' s;
      Some (s, if (exists_ : bool) then obj :: l else l)
  end.

Definition exp_List (at_ : string -> Z) (s : S) : option (S * list (iface V)) :=
  exp_List_loop at_ (ts_List s) s.

Definition exp_ListKeys (s : S) : list string := ts_ListKeys s.

Definition exp_Add (now : Z) (obj : iface V) : store_op V S unit := fun s =>
  match keyFunc obj with
  | Err err => Some (s, Err (KeyError obj err))
  | Ok k => s' ← ts_Add k (Some (mkEntry obj now k)) s; Some (s', Ok tt)
  end.

Definition exp_Update (now : Z) (obj : iface V) : store_op V S unit := exp_Add now obj.

Definition exp_Delete (obj : iface V) : store_op V S unit := fun s =>
  match keyFunc obj with
  | Err err => Some (s, Err (KeyError obj err))
  | Ok k => s' ← ts_Delete k s; Some (s', Ok tt)
  end.

Fixpoint exp_items (ts : Z) (l : list (iface V)) (m : gmap string (option TimestampedEntry))
    : result V (gmap string (option TimestampedEntry)) :=
  match l with
  | [] => Ok m
  | item :: l' =>
      match keyFunc item with
      | Err err => Err (KeyError item err)
      | Ok k => exp_items ts l' (<[k := Some (mkEntry item ts k)]> m)
      end
  end.

Definition exp_Replace (now : Z) (l : list (iface V)) (rv : string) : store_op V S unit := fun s =>
  match exp_items now l ∅ with
  | Err err => Some (s, Err err)
  | Ok items => s' ← ts_Replace items rv s; Some (s', Ok tt)
  end.

Definition exp_Resync : store_op V S unit := fun s => Some (s, Ok tt).

End cache.
End expiration.
Arguments TimestampedEntry V : clear implicits.

(** ** Specification *)

Section exp_spec.
Context {V S : Type} `{ThreadSafeStoreLaws (TimestampedEntry V) S}.
Context (isExpired : Z -> TimestampedEntry V -> bool).

(** Every value is an entry that knows its key, and the store takes any entry. *)
Definition entries_ok (s : S) : Prop :=
  ts_inv s /\ (forall e, ts_accepts s e) /\
  forall k e, ts_items s !! k = Some e -> exists e', e = Some e' /\ key e' = k.

(** The object under a key, if it has not expired. *)
Definition fresh_obj (now : Z) (s : S) (k : string) : option (iface V) :=
  match ts_items s !! k with
  | Some (Some e) => if isExpired now e then None else Some (Obj e)
  | _ => None
  end.

(** The store without its expired entries. *)
Definition purged (at_ : string -> Z) (m : gmap string (option (TimestampedEntry V)))
    : gmap string (option (TimestampedEntry V)) :=
  filter (fun kv =>
    (match kv.2 with Some e => negb (isExpired (at_ kv.1) e) | None => false end) = true) m.

End exp_spec.

(** ** Lemmas *)

Section exp_lemmas.
Context {V S : Type} `{ThreadSafeStoreLaws (TimestampedEntry V) S}.
Context (isExpired : Z -> TimestampedEntry V -> bool).
Implicit Types s : S.

Lemma entries_ok_ext s s' :
  entries_ok s -> ts_ext s s' ->
  (forall k e, ts_items s' !! k = Some e -> exists e', e = Some e' /\ key e' = k) -> entries_ok s'.
Proof. intros (_ & Ha & _) (? & Ha') He. split_and!; auto. Qed.

Lemma getOrExpire_ok now k s :
  entries_ok s ->
  exists s', getOrExpire isExpired now k s =
      Some (s', match fresh_obj isExpired now s k with Some o => (o, true) | None => (None, false) end) /\
    entries_ok s' /\
    ts_items s' = match fresh_obj isExpired now s k with
                  | Some _ => ts_items s
                  | None => delete k (ts_items s)
                  end.
Proof.
  intros Hok. pose proof Hok as (Hinv & Ha & He). unfold getOrExpire, getTimestampedEntry, fresh_obj.
  rewrite ts_Get_law. destruct (ts_items s !! k) as [e|] eqn:Ek.
  - destruct (He k e Ek) as (e' & -> & Hk). cbn. destruct (isExpired now e') eqn:Ex.
    + destruct (ts_Delete_law k s Hinv) as (s' & -> & Hi & Hext). cbn.
      exists s'. split; [done|]. split; [|done]. eapply entries_ok_ext; [done|done|].
      rewrite Hi. intros k' e [_ ?]%lookup_delete_Some. eauto.
    + exists s. done.
  - cbn. exists s. by rewrite delete_id.
Qed.

(** The loop of [List] visits each key once. *)
Lemma exp_List_loop_ok at_ l s :
  entries_ok s -> NoDup l.*1 ->
  (forall k e, (k, e) ∈ l -> ts_items s !! k = Some e) ->
  exists s' objs, exp_List_loop isExpired at_ l.*2 s = Some (s', objs) /\ entries_ok s' /\
    objs = omap (fun kv => fresh_obj isExpired (at_ kv.1) s kv.1) l /\
    (forall k, k ∉ l.*1 -> ts_items s' !! k = ts_items s !! k) /\
    (forall k, k ∈ l.*1 -> ts_items s' !! k =
       match fresh_obj isExpired (at_ k) s k with Some _ => ts_items s !! k | None => None end).
Proof.
  revert s. induction l as [|[k e] l IH]; intros s Hok Hnd Hl.
  { exists s, []. split_and!; try done. by intros k ?%not_elem_of_nil. }
  rewrite fmap_cons in Hnd. cbn [fst] in Hnd. apply NoDup_cons in Hnd as [Hk Hnd].
  pose proof Hok as (_ & _ & He). destruct (He k e (Hl k e ltac:(left))) as (e' & -> & Hke).
  rewrite fmap_cons. cbn [snd exp_List_loop]. rewrite Hke.
  destruct (getOrExpire_ok (at_ k) k s Hok) as (s1 & -> & Hok1 & Hi1). cbn [mbind option_bind].
  assert (Hother : forall k', k' <> k -> ts_items s1 !! k' = ts_items s !! k').
  { intros k' Hk'. rewrite Hi1. destruct (fresh_obj isExpired (at_ k) s k); [done|].
    by rewrite lookup_delete_ne. }
  assert (Hfresh : forall k' t, k' <> k -> fresh_obj isExpired t s1 k' = fresh_obj isExpired t s k').
  { intros k' t Hk'. unfold fresh_obj. by rewrite Hother. }
  assert (Hin : forall k' e0, (k', e0) ∈ l -> k' <> k).
  { intros k' e0 Hin ->. apply Hk. apply list_elem_of_fmap. by exists (k, e0). }
  destruct (IH s1 Hok1 Hnd) as (s' & objs & E & Hok' & Hobjs & Hout & Hinl).
  { intros k' e0 Hin'. rewrite Hother by eauto. apply Hl. by right. }
  assert (Hobjs' : objs = omap (fun kv => fresh_obj isExpired (at_ kv.1) s kv.1) l).
  { rewrite Hobjs. apply list_omap_ext, Forall2_same_length_lookup. split; [done|].
    intros i a b Ha Hb. assert (a = b) as <- by congruence.
    destruct a as [k' e0]. apply Hfresh.
    eapply Hin, list_elem_of_lookup_2. done. }
  assert (Hmem : forall k', k' ∈ l.*1 -> k' <> k) by (intros k' ? ->; done).
  destruct (fresh_obj isExpired (at_ k) s k) as [o|] eqn:Ef; rewrite E; cbn [mbind option_bind];
    (eexists s', _; split; [done|]; split; [done|]; split;
      [cbn; rewrite Ef; by rewrite Hobjs'|]).
  all: rewrite fmap_cons; cbn [fst]; split.
  all: try (intros k' Hk'; apply not_elem_of_cons in Hk' as [Hne Hk']; by rewrite Hout, Hother).
  all: intros k' [->|Hk']%elem_of_cons; [rewrite Hout, Ef by done|rewrite Hinl, Hother, Hfresh by auto; done].
  - by rewrite Hi1.
  - by rewrite Hi1, lookup_delete_eq.
Qed.

Lemma exp_items_ok (keyFunc : KeyFunc V) ts l m :
  (forall k e, m !! k = Some e -> exists e', e = Some e' /\ key e' = k) ->
  match exp_items keyFunc ts l m with
  | Ok m' => forall k e, m' !! k = Some e -> exists e', e = Some e' /\ key e' = k
  | Err _ => True
  end.
Proof.
  revert m. induction l as [|o l IH]; intros m Hm; cbn; [done|].
  destruct (keyFunc o) as [k|e]; [|done]. apply IH.
  intros k' e [[<- <-]|[_ ?]]%lookup_insert_Some; eauto.
Qed.

End exp_lemmas.

(** ** Properties *)

(** One push per change.  On a store that keeps its laws, a mutation of an
    [UndeltaStore] that succeeds makes the store's change and then pushes the
    store's complete contents exactly once; one that fails pushes nothing. *)
Theorem undelta_pushes {V S X} `{StoreLaws V S} (PushFunc : list (iface V) -> X -> X)
    (u : UndeltaStore S X) obj :
  st_inv (store u) -> st_accepts (store u) obj ->
  match st_key (store u) obj with
  | Err e => undelta_Add PushFunc obj u = Some (u, Err (KeyError obj e)) /\
      undelta_Delete PushFunc obj u = Some (u, Err (KeyError obj e))
  | Ok k =>
      (exists u', undelta_Add PushFunc obj u = Some (u', Ok tt) /\
         st_items (store u') = <[k := obj]> (st_items (store u)) /\
         exists l, l ≡ₚ (map_to_list (<[k := obj]> (st_items (store u)))).*2 /\
           pushed u' = PushFunc l (pushed u)) /\
      (exists u', undelta_Delete PushFunc obj u = Some (u', Ok tt) /\
         st_items (store u') = delete k (st_items (store u)) /\
         exists l, l ≡ₚ (map_to_list (delete k (st_items (store u)))).*2 /\
           pushed u' = PushFunc l (pushed u))
  end.
Proof.
  intros Hinv Hacc. unfold undelta_Add, undelta_Delete, then_push.
  pose proof (st_Add_law obj (store u) Hinv Hacc) as Ha.
  pose proof (st_Delete_law obj (store u) Hinv) as Hd.
  destruct (st_key (store u) obj) as [k|e].
  - destruct Ha as (s1 & -> & Hi1 & _). destruct Hd as (s2 & -> & Hi2 & _). cbn.
    split; (eexists; split; [done|]; split; [done|]; eexists; split; [|done]; cbn;
      rewrite st_List_law; by rewrite ?Hi1, ?Hi2).
  - rewrite Ha, Hd. cbn. by destruct u.
Qed.

(** With several threads the last push may be stale.  The store's contents are
    listed before [PushFunc] is called, with no lock over both, so two calls can
    push in the other order: there is an execution after which nothing is pending
    and the last contents pushed lack the second object added. *)
Theorem undelta_last_push_stale :
  let key : KeyFunc string := fun o => match o with Some s => Ok s | None => Err (Errorf "nil" []) end in
  let St := cache string (threadSafeMap string) in
  let PushFunc := fun (l : list (iface string)) (log : list (list (iface string))) => l :: log in
  forall (R : MapRange) (SS : SetsString), exists s : St,
    rtc (@undelta_step string St _ cache_Store PushFunc) (mkUsys (NewStore key) 0 [] [])
      (mkUsys s 0 [] [[Some "a"]; st_List s]) /\ length (st_List s) = 2%nat.
Proof.
  intros key St PushFunc R SS.
  destruct (NewStore_inv key) as (Hinv0 & Hi0 & Hacc0).
  pose proof (st_Add_law (Some "a") (NewStore key) Hinv0 (Hacc0 _)) as H1. cbn in H1.
  destruct H1 as (s1 & E1 & Hi1 & Hext1). pose proof Hext1 as (Hinv1 & Hk1 & Hacc1).
  pose proof (st_Add_law (Some "b") s1 Hinv1 (Hacc1 _ (Hacc0 _))) as H2.
  rewrite Hk1 in H2. destruct H2 as (s2 & E2 & Hi2 & _).
  change (st_items (NewStore key)) with (∅ : gmap string (iface string)) in Hi0.
  assert (Hl1 : st_List s1 = [Some "a"]).
  { apply Permutation_singleton_r. rewrite st_List_law. change (st_items s1 = {["a" := Some "a"]}) in Hi1.
    rewrite Hi1, map_to_list_singleton. done. }
  exists s2. split.
  - eapply rtc_l; [apply (us_mutate PushFunc (st_Add (Some "a"))); exact E1|].
    eapply (rtc_l _ _ (mkUsys s1 0 [[Some "a"]] [])); [rewrite <- Hl1; apply us_list|].
    eapply rtc_l; [apply (us_mutate PushFunc (st_Add (Some "b"))); exact E2|].
    eapply rtc_l; [apply us_list|].
    eapply rtc_l; [apply (us_push PushFunc s2 0 [] (st_List s2) [[Some "a"]])|].
    eapply rtc_l; [apply (us_push PushFunc s2 0 [] [Some "a"] [])|]. apply rtc_refl.
  - pose proof (st_List_law s2) as Hp. rewrite Hi2 in Hp.
    change (st_items s1 = {["a" := Some "a"]}) in Hi1. rewrite Hi1 in Hp.
    apply Permutation_length in Hp. etrans; [exact Hp|]. done.
Qed.

(** The expiration cache.  Over any [ThreadSafeStore] that keeps its laws:
    [GetByKey] returns the object stored under a key exactly when it has not expired
    at the time of the call, and otherwise removes it; [List] returns exactly the
    objects not expired when their key is checked, and removes exactly the others;
    [Add] stores the object with the time of the call. *)
Theorem expiration_cache_ok {V S} `{ThreadSafeStoreLaws (TimestampedEntry V) S}
    (keyFunc : KeyFunc V) (isExpired : Z -> TimestampedEntry V -> bool) (s : S) now k at_ obj :
  entries_ok s ->
  (exists s', exp_GetByKey isExpired now k s =
      Some (s', match fresh_obj isExpired now s k with
                | Some o => (o, true, None)
                | None => (None, false, None)
                end) /\ entries_ok s' /\
    ts_items s' = match fresh_obj isExpired now s k with
                  | Some _ => ts_items s
                  | None => delete k (ts_items s)
                  end) /\
  (exists s' objs, exp_List isExpired at_ s = Some (s', objs) /\ entries_ok s' /\
    objs ≡ₚ omap (fun kv => fresh_obj isExpired (at_ kv.1) s kv.1) (map_to_list (ts_items s)) /\
    ts_items s' = purged isExpired at_ (ts_items s)) /\
  match keyFunc obj with
  | Err e => exp_Add keyFunc now obj s = Some (s, Err (KeyError obj e))
  | Ok k => exists s', exp_Add keyFunc now obj s = Some (s', Ok tt) /\ entries_ok s' /\
      ts_items s' = <[k := Some (mkEntry obj now k)]> (ts_items s)
  end.
Proof.
  intros Hok. split; [|split].
  - unfold exp_GetByKey. destruct (getOrExpire_ok isExpired now k s Hok) as (s' & -> & Hok' & Hi).
    exists s'. cbn. by destruct (fresh_obj isExpired now s k).
  - assert (exists l, l.*2 = ts_List s /\ l ≡ₚ map_to_list (ts_items s)) as (l & El & Hl).
    { pose proof (ts_List_law s) as Hp. apply Permutation_map_inv in Hp as (l & E & Hp).
      exists l. by rewrite E. }
    destruct (exp_List_loop_ok isExpired at_ l s Hok) as (s' & objs & E & Hok' & Hobjs & Hout & Hin).
    { rewrite Hl. apply NoDup_fst_map_to_list. }
    { intros k' e Hin. rewrite Hl in Hin. by apply elem_of_map_to_list in Hin. }
    exists s', objs. unfold exp_List. rewrite <- El. split; [done|]. split; [done|].
    split; [rewrite Hobjs; by rewrite Hl|]. apply map_eq. intros k'. apply option_eq. intros e.
    unfold purged. rewrite map_lookup_filter_Some. cbn.
    destruct (decide (k' ∈ l.*1)) as [Hk'|Hk'].
    + rewrite Hin by done. unfold fresh_obj. destruct Hok as (_ & _ & He).
      destruct (ts_items s !! k') as [e0|] eqn:E0; [|by split; [|intros []]].
      destruct (He _ _ E0) as (e' & -> & _). destruct (isExpired (at_ k') e') eqn:Ex.
      * split; [done|]. intros [[= <-] Hx]. by rewrite Ex in Hx.
      * split; [|by intros []]. intros [= <-]. by rewrite Ex.
    + rewrite Hout by done. assert (ts_items s !! k' = None) as ->; [|by split; [|intros []]].
      rewrite Hl in Hk'. apply eq_None_not_Some. intros [e0 He0%elem_of_map_to_list].
      apply Hk', list_elem_of_fmap. by exists (k', e0).
  - unfold exp_Add. destruct (keyFunc obj) as [k'|e]; [|done]. pose proof Hok as (Hinv & Ha & He).
    rewrite ts_Add_law. destruct (ts_Update_law k' (Some (mkEntry obj now k')) s Hinv (Ha _))
      as (s' & -> & Hi & Hext).
    exists s'. split; [done|]. split; [|done]. eapply entries_ok_ext; [done|done|].
    rewrite Hi. intros k0 e [[<- <-]|[_ ?]]%lookup_insert_Some; eauto.
Qed.

(** ** Witnesses *)

Definition wit_str_key : KeyFunc string := fun o =>
  match o with Some s => Ok s | None => Err (Errorf "nil" []) end.

Lemma undelta_pushes_witness :
  exists u', @undelta_Add string _ (list nat)
      (@cache_Store string (threadSafeMap string)
         (@threadSafeMap_ThreadSafeStore string range_in_key_order sets_in_key_order))
      (fun l log => length l :: log) (Some "a") (NewUndeltaStore wit_str_key []) = Some (u', Ok tt) /\
    pushed u' = [1%nat].
Proof.
  destruct (@NewStore_inv string range_in_key_order sets_in_key_order wit_str_key) as (Hinv & Hi & Hacc).
  destruct (proj1 (@undelta_pushes string _ (list nat) _
    (@cache_laws string (threadSafeMap string) _
       (@threadSafeMap_laws string range_in_key_order sets_in_key_order))
    (fun l log => length l :: log) (NewUndeltaStore wit_str_key []) (Some "a") Hinv (Hacc _)))
    as (u' & E & _ & l & Hl & Hp).
  exists u'. split; [exact E|]. rewrite Hp. cbn.
  apply Permutation_length in Hl. rewrite Hl. vm_compute. reflexivity.
Defined.

Definition wit_exp_store := NewThreadSafeStore (V := TimestampedEntry string) ∅ ∅.

Lemma expiration_cache_ok_witness :
  exists s', @exp_Add string _
      (@threadSafeMap_ThreadSafeStore _ range_in_key_order sets_in_key_order)
      wit_str_key 5 (Some "a") wit_exp_store = Some (s', Ok tt) /\
    items s' !! "a" = Some (Some (mkEntry (Some "a") 5 "a")).
Proof.
  destruct (@expiration_cache_ok string (threadSafeMap (TimestampedEntry string)) _
    (@threadSafeMap_laws _ range_in_key_order sets_in_key_order)
    wit_str_key (IsExpired 10) wit_exp_store 5 "a" (fun _ => 5) (Some "a")) as (_ & _ & s' & E & _ & Hi).
  - split; [cbn; apply NewThreadSafeStore_wf|]. split.
    + intros e name f Hf. cbn in Hf. by rewrite lookup_empty in Hf.
    + intros k e He. cbn in He. by rewrite lookup_empty in He.
  - exists s'. split; [exact E|]. cbn in Hi. rewrite Hi. apply lookup_insert_eq.
Defined.
