(* ===== verification/Float64.v ===== *)
(** * Floating point numbers

    The part of Go's float64 that the delays of client-go go through: conversion of
    an int64, products, [math.Pow] with base 2, comparison, and conversion back to
    an int64.  A finite value is [Fin m e], that is m * 2^e; a result is rounded to
    the nearest value of 53 bits, ties to even, with the subnormal spacing 2^-1074
    below and infinity from 2^1024 on.  Zeros are not signed: nothing here can tell.

    The Go specification leaves the conversion of a float64 that does not fit an
    int64 to the implementation, so it is a parameter ([FloatConv]). *)

From S2P Require Import Prelude.

Inductive float64 : Type :=
| Fin (m e : Z)
| Inf (neg : bool)
| NaN.

(** The integer nearest to m / d, the even one of two. *)
Definition div_ne (m d : Z) : Z :=
  let q := m / d in
  let r := m mod d in
  if 2 * r <? d then q
  else if d <? 2 * r then q + 1
  else if Z.even q then q else q + 1.

(** The bits of the mantissa that rounding drops. *)
Definition drop_bits (m e : Z) : Z := Z.max 0 (Z.max (Z.log2 (Z.abs m) - 52) (-1074 - e)).

Definition round64 (m e : Z) : float64 :=
  if m =? 0 then Fin 0 0
  else
    let s := drop_bits m e in
    let m' := div_ne m (2 ^ s) in
    if (negb (m' =? 0) && (1024 <=? Z.log2 (Z.abs m') + (e + s)))%bool then Inf (m <? 0)
    else Fin m' (e + s).

Definition of_int64 (z : Z) : float64 := round64 z 0.

(** [math.Pow(2, float64(n))] for an integer n. *)
Definition pow2 (n : Z) : float64 :=
  if n <? -1074 then Fin 0 0 else if n <=? 1023 then Fin 1 n else Inf false.

Definition is_neg (f : float64) : bool :=
  match f with Fin m _ => m <? 0 | Inf neg => neg | NaN => false end.

Definition is_zero (f : float64) : bool := match f with Fin m _ => m =? 0 | _ => false end.

Definition fmul (a b : float64) : float64 :=
  match a, b with
  | NaN, _ | _, NaN => NaN
  | Fin m1 e1, Fin m2 e2 => round64 (m1 * m2) (e1 + e2)
  | _, _ => if (is_zero a || is_zero b)%bool then NaN else Inf (xorb (is_neg a) (is_neg b))
  end.

Definition fltb (a b : float64) : bool :=
  match a, b with
  | NaN, _ | _, NaN => false
  | Fin m1 e1, Fin m2 e2 =>
      let e := Z.min e1 e2 in m1 * 2 ^ (e1 - e) <? m2 * 2 ^ (e2 - e)
  | Fin _ _, Inf neg => negb neg
  | Inf neg, Fin _ _ => neg
  | Inf n1, Inf n2 => n1 && negb n2
  end.

(** The integer part, towards zero. *)
Definition trunc (m e : Z) : Z := if 0 <=? e then m * 2 ^ e else Z.quot m (2 ^ (- e)).

Definition in_int64b (z : Z) : bool := (MinInt64 <=? z) && (z <=? MaxInt64).

Class FloatConv : Type := {
  out_of_range : float64 -> Z;
  out_of_range_int64 : forall f, in_int64 (out_of_range f)
}.

(** The conversion amd64 processors make. *)
Program Definition amd64_conv : FloatConv := {| out_of_range := fun _ => MinInt64 |}.
Next Obligation. unfold in_int64, MinInt64, MaxInt64. lia. Qed.

(** [int64(f)], and so [time.Duration(f)]. *)
Definition to_int64 `{FloatConv} (f : float64) : Z :=
  match f with
  | Fin m e => let t := trunc m e in if in_int64b t then t else out_of_range f
  | _ => out_of_range f
  end.

(** ** Lemmas *)

Lemma in_int64b_spec z : in_int64b z = true <-> in_int64 z.
Proof. unfold in_int64b, in_int64. rewrite andb_true_iff, !Z.leb_le. done. Qed.

Lemma to_int64_range `{FloatConv} f : in_int64 (to_int64 f).
Proof.
  destruct f as [m e| |]; cbn; try apply out_of_range_int64.
  destruct (in_int64b (trunc m e)) eqn:E; [by apply in_int64b_spec|apply out_of_range_int64].
Qed.

Lemma div_ne_1 m : div_ne m 1 = m.
Proof. unfold div_ne. rewrite Z.div_1_r, Z.mod_1_r. done. Qed.

(** Rounding never goes below the floor. *)
Lemma div_ne_floor m d : m / d <= div_ne m d <= m / d + 1.
Proof. unfold div_ne. repeat split_match; lia. Qed.

Lemma round64_exact m e :
  Z.abs m < 2 ^ 53 -> -1074 <= e -> e <= 971 -> round64 m e = if m =? 0 then Fin 0 0 else Fin m e.
Proof.
  intros Hm He He'. unfold round64. destruct (m =? 0) eqn:E; [done|]. bool_to_prop.
  assert (Z.log2 (Z.abs m) < 53) by (apply Z.log2_lt_pow2; lia).
  replace (drop_bits m e) with 0 by (unfold drop_bits; lia).
  rewrite Z.pow_0_r, div_ne_1, Z.add_0_r.
  replace (1024 <=? Z.log2 (Z.abs m) + e) with false by (symmetry; apply Z.leb_gt; lia).
  by rewrite andb_false_r.
Qed.

(** Values of at most 53 bits are converted exactly. *)
Lemma of_int64_exact z : 0 < Z.abs z < 2 ^ 53 -> of_int64 z = Fin z 0.
Proof.
  intros Hz. unfold of_int64. rewrite round64_exact by lia.
  destruct (z =? 0) eqn:E; [bool_to_prop; lia|done].
Qed.

(** A product by a power of two is exact or overflows. *)
Lemma fmul_pow2 z n :
  0 < z < 2 ^ 53 -> 0 <= n ->
  fmul (Fin z 0) (pow2 n) = if Z.log2 z + n <? 1024 then Fin z n else Inf false.
Proof.
  intros Hz Hn. assert (0 <= Z.log2 z < 53).
  { split; [apply Z.log2_nonneg|]. apply Z.log2_lt_pow2; lia. }
  unfold pow2. replace (n <? -1074) with false by (symmetry; apply Z.ltb_ge; lia).
  destruct (n <=? 1023) eqn:E; bool_to_prop; cbn.
  - rewrite Z.mul_1_r. change (0 + n) with n. unfold round64. replace (z =? 0) with false by (symmetry; apply Z.eqb_neq; lia).
    replace (drop_bits z n) with 0 by (unfold drop_bits; rewrite (Z.abs_eq z) by lia; lia).
    rewrite Z.pow_0_r, div_ne_1, Z.add_0_r, (Z.abs_eq z) by lia.
    replace (z =? 0) with false by (symmetry; apply Z.eqb_neq; lia).
    replace (z <? 0) with false by (symmetry; apply Z.ltb_ge; lia). cbn.
    rewrite Z.ltb_antisym. by destruct (1024 <=? _).
  - replace (z =? 0) with false by (symmetry; apply Z.eqb_neq; lia).
    replace (z <? 0) with false by (symmetry; apply Z.ltb_ge; lia). cbn.
    replace (Z.log2 z + n <? 1024) with false by (symmetry; apply Z.ltb_ge; lia). done.
Qed.

(** Comparison of an exact integer with another. *)
Lemma fltb_ints m1 e1 m2 e2 :
  0 <= e1 -> 0 <= e2 -> fltb (Fin m1 e1) (Fin m2 e2) = (m1 * 2 ^ e1 <? m2 * 2 ^ e2).
Proof.
  intros H1 H2. cbn. apply eq_iff_eq_true. rewrite !Z.ltb_lt.
  remember (Z.min e1 e2) as e eqn:He.
  assert (2 ^ e1 = 2 ^ (e1 - e) * 2 ^ e) as -> by (rewrite <- Z.pow_add_r by lia; f_equal; lia).
  assert (2 ^ e2 = 2 ^ (e2 - e) * 2 ^ e) as -> by (rewrite <- Z.pow_add_r by lia; f_equal; lia).
  assert (0 < 2 ^ e) by (apply Z.pow_pos_nonneg; lia). rewrite !Z.mul_assoc. nia.
Qed.

Lemma trunc_int m e : 0 <= e -> trunc m e = m * 2 ^ e.
Proof. intros He. unfold trunc. by rewrite (proj2 (Z.leb_le _ _) He). Qed.

Lemma to_int64_int `{FloatConv} m e :
  0 <= e -> in_int64 (m * 2 ^ e) -> to_int64 (Fin m e) = m * 2 ^ e.
Proof.
  intros He Hr. cbn. rewrite trunc_int by done. by rewrite (proj2 (in_int64b_spec _) Hr).
Qed.

(** The constant [math.MaxInt64] is 2^63 once it is a float64. *)
Lemma float_MaxInt64 : of_int64 MaxInt64 = Fin (2 ^ 53) 10.
Proof. reflexivity. Qed.
