(* ===== verification/RateLimiters.v ===== *)
(** * Rate limiters and the rate limited queue

    util/workqueue/default_rate_limiters.go: the limiters a controller composes, and
    rate_limiting_queue.go: a delaying queue that asks a limiter for the delay.

    A limiter is a tree; it owns the limiters it is made of.  The token bucket is
    golang.org/x/time/rate's: [TokenBucket], whose state includes the clock it reads.
    Every method runs under the limiter's lock, so it is one step. *)

From S2P Require Import Prelude Float64 GoHeap WorkQueue DelayingQueue.

(** [rate.Limiter]: [Reserve().Delay()] is never negative, and at most
    [rate.InfDuration]. *)
Class TokenBucket (B : Type) : Type := {
  newLimiter : Z -> Z -> B;
  Reserve_Delay : B -> Z * B;
  Reserve_Delay_range : forall b, 0 <= (Reserve_Delay b).1 <= MaxInt64
}.

Section limiters.
Context {T B : Type} `{Countable T} `{TokenBucket B} `{FloatConv}.

Inductive RateLimiter : Type :=
| BucketRateLimiter (Limiter : B)
| ItemExponentialFailureRateLimiter (failures : gmap T Z) (baseDelay maxDelay : Z)
| ItemFastSlowRateLimiter (failures : gmap T Z) (maxFastAttempts fastDelay slowDelay : Z)
| MaxOfRateLimiter (limiters : list RateLimiter)
| WithMaxWaitRateLimiter (limiter : RateLimiter) (maxDelay : Z).

Definition NewItemExponentialFailureRateLimiter (baseDelay maxDelay : Z) : RateLimiter :=
  ItemExponentialFailureRateLimiter ∅ baseDelay maxDelay.

Definition DefaultItemBasedRateLimiter : RateLimiter :=
  NewItemExponentialFailureRateLimiter Millisecond (1000 * Second).

Definition NewItemFastSlowRateLimiter (fastDelay slowDelay maxFastAttempts : Z) : RateLimiter :=
  ItemFastSlowRateLimiter ∅ maxFastAttempts fastDelay slowDelay.

Definition NewMaxOfRateLimiter (limiters : list RateLimiter) : RateLimiter := MaxOfRateLimiter limiters.

Definition NewWithMaxWaitRateLimiter (limiter : RateLimiter) (maxDelay : Z) : RateLimiter :=
  WithMaxWaitRateLimiter limiter maxDelay.

Definition DefaultControllerRateLimiter : RateLimiter :=
  NewMaxOfRateLimiter
    [NewItemExponentialFailureRateLimiter (5 * Millisecond) (1000 * Second);
     BucketRateLimiter (newLimiter 10 100)].

(** [failures[item]] is 0 for an absent item. *)
Definition failures_of (failures : gmap T Z) (item : T) : Z := default 0 (failures !! item).

Definition count_failure (failures : gmap T Z) (item : T) : gmap T Z :=
  <[item := wrap64 (failures_of failures item + 1)]> failures.

(** The delay of an item with [exp] failures. *)
Definition exponential_delay (baseDelay maxDelay exp : Z) : Z :=
  let backoff := fmul (of_int64 baseDelay) (pow2 exp) in
  if fltb (of_int64 MaxInt64) backoff then maxDelay
  else
    let calculated := to_int64 backoff in
    if maxDelay <? calculated then maxDelay else calculated.

Definition ItemExponentialFailure_When (item : T) (failures : gmap T Z) (baseDelay maxDelay : Z) : Z * gmap T Z :=
  let exp := failures_of failures item in
  (exponential_delay baseDelay maxDelay exp, count_failure failures item).

Definition ItemFastSlow_When (item : T) (failures : gmap T Z) (maxFastAttempts fastDelay slowDelay : Z)
    : Z * gmap T Z :=
  let failures := count_failure failures item in
  (if failures_of failures item <=? maxFastAttempts then fastDelay else slowDelay, failures).

(** The methods that call those of other limiters take these as arguments. *)
Definition MaxOf_When (When : RateLimiter -> Z * RateLimiter) : Z -> list RateLimiter -> Z * list RateLimiter :=
  fix loop (ret : Z) (limiters : list RateLimiter) :=
    match limiters with
    | [] => (ret, [])
    | limiter :: rest =>
        let '(curr, limiter) := When limiter in
        let '(ret, rest) := loop (if ret <? curr then curr else ret) rest in
        (ret, limiter :: rest)
    end.

Definition MaxOf_NumRequeues (NumRequeues : RateLimiter -> Z) (limiters : list RateLimiter) : Z :=
  fold_left (fun ret limiter =>
    let curr := NumRequeues limiter in if ret <? curr then curr else ret) limiters 0.

Definition MaxOf_Forget (Forget : RateLimiter -> RateLimiter) (limiters : list RateLimiter) : list RateLimiter :=
  map Forget limiters.

Definition WithMaxWait_When (When : RateLimiter -> Z * RateLimiter) (limiter : RateLimiter) (maxDelay : Z)
    : Z * RateLimiter :=
  let '(delay, limiter) := When limiter in
  (if maxDelay <? delay then maxDelay else delay, limiter).

Fixpoint When (item : T) (r : RateLimiter) : Z * RateLimiter :=
  match r with
  | BucketRateLimiter b =>
      let '(d, b) := Reserve_Delay b in (d, BucketRateLimiter b)
  | ItemExponentialFailureRateLimiter failures baseDelay maxDelay =>
      let '(d, failures) := ItemExponentialFailure_When item failures baseDelay maxDelay in
      (d, ItemExponentialFailureRateLimiter failures baseDelay maxDelay)
  | ItemFastSlowRateLimiter failures maxFastAttempts fastDelay slowDelay =>
      let '(d, failures) := ItemFastSlow_When item failures maxFastAttempts fastDelay slowDelay in
      (d, ItemFastSlowRateLimiter failures maxFastAttempts fastDelay slowDelay)
  | MaxOfRateLimiter limiters =>
      let '(d, limiters) := MaxOf_When (When item) 0 limiters in (d, MaxOfRateLimiter limiters)
  | WithMaxWaitRateLimiter limiter maxDelay =>
      let '(d, limiter) := WithMaxWait_When (When item) limiter maxDelay in
      (d, WithMaxWaitRateLimiter limiter maxDelay)
  end.

Fixpoint NumRequeues (item : T) (r : RateLimiter) : Z :=
  match r with
  | BucketRateLimiter _ => 0
  | ItemExponentialFailureRateLimiter failures _ _ => failures_of failures item
  | ItemFastSlowRateLimiter failures _ _ _ => failures_of failures item
  | MaxOfRateLimiter limiters => MaxOf_NumRequeues (NumRequeues item) limiters
  | WithMaxWaitRateLimiter limiter _ => NumRequeues item limiter
  end.

Fixpoint Forget (item : T) (r : RateLimiter) : RateLimiter :=
  match r with
  | BucketRateLimiter b => BucketRateLimiter b
  | ItemExponentialFailureRateLimiter failures baseDelay maxDelay =>
      ItemExponentialFailureRateLimiter (delete item failures) baseDelay maxDelay
  | ItemFastSlowRateLimiter failures maxFastAttempts fastDelay slowDelay =>
      ItemFastSlowRateLimiter (delete item failures) maxFastAttempts fastDelay slowDelay
  | MaxOfRateLimiter limiters => MaxOfRateLimiter (MaxOf_Forget (Forget item) limiters)
  | WithMaxWaitRateLimiter limiter maxDelay => WithMaxWaitRateLimiter (Forget item limiter) maxDelay
  end.

(** ** The queue *)

Section queue.
Context {Q : Type} `{QueueInterface T Q}.

Record rateLimitingType : Type := mkRateLimiting {
  DelayingInterface : delayingType T Q;
  rateLimiter : RateLimiter
}.

Definition NewRateLimitingQueue (limiter : RateLimiter) (q : Q) : rateLimitingType :=
  mkRateLimiting (newDelayingQueue q) limiter.

(** The states a call may end in, as [AddAfter]. *)
Definition AddRateLimited (now : Z) (item : T) (q : rateLimitingType) : list rateLimitingType :=
  let '(d, limiter) := When item (rateLimiter q) in
  (fun di => mkRateLimiting di limiter) <$> AddAfter now item d (DelayingInterface q).

Definition queue_NumRequeues (item : T) (q : rateLimitingType) : Z := NumRequeues item (rateLimiter q).

Definition queue_Forget (item : T) (q : rateLimitingType) : rateLimitingType :=
  mkRateLimiting (DelayingInterface q) (Forget item (rateLimiter q)).

End queue.

(** ** Specification *)

(** The calls made of a limiter, and the failures of an item since it was last
    forgotten. *)
Inductive call : Type :=
| CWhen (item : T)
| CForget (item : T).

Definition run_call (r : RateLimiter) (c : call) : RateLimiter :=
  match c with
  | CWhen item => (When item r).2
  | CForget item => Forget item r
  end.

Definition run_calls (cs : list call) (r : RateLimiter) : RateLimiter := fold_left run_call cs r.

Definition count_call (f : T -> Z) (c : call) : T -> Z := fun x =>
  match c with
  | CWhen item => if decide (item = x) then f x + 1 else f x
  | CForget item => if decide (item = x) then 0 else f x
  end.

Definition since_forget (cs : list call) : T -> Z := fold_left count_call cs (fun _ => 0).

(** A limiter as its constructor makes it: nothing counted. *)
Fixpoint fresh_limiter (r : RateLimiter) : Prop :=
  match r with
  | BucketRateLimiter _ => True
  | ItemExponentialFailureRateLimiter failures _ _ => failures = ∅
  | ItemFastSlowRateLimiter failures _ _ _ => failures = ∅
  | MaxOfRateLimiter limiters => fold_right (fun r P => fresh_limiter r /\ P) True limiters
  | WithMaxWaitRateLimiter limiter _ => fresh_limiter limiter
  end.

(** Whether some part of it counts. *)
Fixpoint counts (r : RateLimiter) : bool :=
  match r with
  | BucketRateLimiter _ => false
  | ItemExponentialFailureRateLimiter _ _ _ => true
  | ItemFastSlowRateLimiter _ _ _ _ => true
  | MaxOfRateLimiter limiters => existsb counts limiters
  | WithMaxWaitRateLimiter limiter _ => counts limiter
  end.

(** The longest delay its parameters allow. *)
Fixpoint upper (r : RateLimiter) : Z :=
  match r with
  | BucketRateLimiter _ => MaxInt64
  | ItemExponentialFailureRateLimiter _ _ maxDelay => maxDelay
  | ItemFastSlowRateLimiter _ _ fastDelay slowDelay => Z.max fastDelay slowDelay
  | MaxOfRateLimiter limiters => fold_right (fun r u => Z.max (upper r) u) 0 limiters
  | WithMaxWaitRateLimiter limiter maxDelay => Z.min (upper limiter) maxDelay
  end.

(** A base delay whose doublings pass 2^63 without hitting it, below 2^53 ns. *)
Definition good_base (baseDelay : Z) : Prop :=
  0 < baseDelay < 2 ^ 53 /\ forall k, 0 <= k -> baseDelay * 2 ^ k <> 2 ^ 63.

Fixpoint good_delays (r : RateLimiter) : Prop :=
  match r with
  | BucketRateLimiter _ => True
  | ItemExponentialFailureRateLimiter _ baseDelay maxDelay =>
      good_base baseDelay /\ 0 <= maxDelay <= MaxInt64
  | ItemFastSlowRateLimiter _ _ fastDelay slowDelay => 0 <= fastDelay /\ 0 <= slowDelay
  | MaxOfRateLimiter limiters => fold_right (fun r P => good_delays r /\ P) True limiters
  | WithMaxWaitRateLimiter limiter maxDelay => good_delays limiter /\ 0 <= maxDelay
  end.

End limiters.
Arguments RateLimiter T B {_ _}.
Arguments rateLimitingType T B {_ _} Q.
Arguments call T : clear implicits.

(** ** Lemmas *)

(** The limiters a [MaxOfRateLimiter] is made of satisfy the induction hypothesis. *)
Section limiter_ind.
Context {T B : Type} `{Countable T} (P : RateLimiter T B -> Prop).
Hypothesis Hbucket : forall b, P (BucketRateLimiter b).
Hypothesis Hexp : forall m b d, P (ItemExponentialFailureRateLimiter m b d).
Hypothesis Hfast : forall m n f s, P (ItemFastSlowRateLimiter m n f s).
Hypothesis Hmax : forall l, Forall P l -> P (MaxOfRateLimiter l).
Hypothesis Hwith : forall r d, P r -> P (WithMaxWaitRateLimiter r d).

Fixpoint limiter_ind (r : RateLimiter T B) : P r :=
  match r with
  | BucketRateLimiter b => Hbucket b
  | ItemExponentialFailureRateLimiter m b d => Hexp m b d
  | ItemFastSlowRateLimiter m n f s => Hfast m n f s
  | MaxOfRateLimiter l =>
      Hmax l ((fix all l : Forall P l :=
                 match l with
                 | [] => Forall_nil_2 P
                 | r :: l => Forall_cons_2 P r l (limiter_ind r) (all l)
                 end) l)
  | WithMaxWaitRateLimiter r d => Hwith r d (limiter_ind r)
  end.
End limiter_ind.

Lemma fold_right_and {A} (P : A -> Prop) l :
  fold_right (fun r Q => P r /\ Q) True l <-> forall r, r ∈ l -> P r.
Proof.
  rewrite <- Forall_forall. induction l as [|x l IH]; cbn; [by rewrite Forall_nil|].
  by rewrite Forall_cons, IH.
Qed.

Section limiter_lemmas.
Context {T B : Type} `{Countable T} `{TokenBucket B} `{FloatConv}.
Implicit Types (r : RateLimiter T B) (item : T) (cs : list (call T)) (c : call T) (f : T -> Z).

(** The largest of some delays, and 0. *)
Definition max_of (ds : list Z) : Z := fold_left Z.max ds 0.

Lemma When_MaxOf item l :
  When item (MaxOfRateLimiter l) =
  (max_of ((fun r => (When item r).1) <$> l), MaxOfRateLimiter ((fun r => (When item r).2) <$> l)).
Proof.
  assert (Hl : forall ret, MaxOf_When (When item) ret l =
    (fold_left Z.max ((fun r => (When item r).1) <$> l) ret, (fun r => (When item r).2) <$> l)).
  { induction l as [|r l IH]; intros ret; [done|]. cbn. destruct (When item r) as [d r'] eqn:E.
    rewrite IH. cbn. do 2 f_equal. destruct (ret <? d) eqn:?; bool_to_prop; lia. }
  cbn [When]. by rewrite Hl.
Qed.

Lemma max_of_spec ds :
  0 <= max_of ds /\ Forall (fun d => d <= max_of ds) ds /\ (max_of ds = 0 \/ max_of ds ∈ ds).
Proof.
  unfold max_of. assert (Hg : forall d0, d0 <= fold_left Z.max ds d0 /\
    Forall (fun d => d <= fold_left Z.max ds d0) ds /\
    (fold_left Z.max ds d0 = d0 \/ fold_left Z.max ds d0 ∈ ds)); [|apply Hg].
  induction ds as [|d ds IH]; intros d0; cbn; [split; [lia|split; [constructor|by left]]|].
  destruct (IH (Z.max d0 d)) as (Hle & Hall & Hin). split; [lia|]. split; [constructor; [lia|done]|].
  destruct Hin as [->|Hin]; [|right; by right].
  destruct (Z.max_spec d0 d) as [[_ ->]|[_ ->]]; [right; left|by left].
Qed.

Lemma NumRequeues_MaxOf item l :
  NumRequeues item (MaxOfRateLimiter (T:=T) (B:=B) l) = max_of (NumRequeues item <$> l).
Proof.
  unfold max_of. cbn. unfold MaxOf_NumRequeues. generalize 0. induction l as [|r l IH]; intros n; cbn; [done|]. rewrite IH.
  f_equal. destruct (n <? _) eqn:?; bool_to_prop; lia.
Qed.

(** *** Counting *)

(** Every counting part of the limiter has counted [f]. *)
Fixpoint counted (f : T -> Z) (r : RateLimiter T B) : Prop :=
  match r with
  | BucketRateLimiter _ => True
  | ItemExponentialFailureRateLimiter failures _ _ => forall x, failures_of failures x = f x
  | ItemFastSlowRateLimiter failures _ _ _ => forall x, failures_of failures x = f x
  | MaxOfRateLimiter limiters => fold_right (fun r P => counted f r /\ P) True limiters
  | WithMaxWaitRateLimiter limiter _ => counted f limiter
  end.

Lemma fresh_counted r : fresh_limiter r -> counted (fun _ => 0) r.
Proof.
  induction r as [b|m b d|m n f s|l IH|r d IH] using limiter_ind; cbn; try done.
  - intros ->. done.
  - intros ->. done.
  - rewrite !fold_right_and. rewrite Forall_forall in IH. eauto.
Qed.

Lemma failures_of_insert (m : gmap T Z) item n x :
  failures_of (<[item := n]> m) x = if decide (item = x) then n else failures_of m x.
Proof. unfold failures_of. rewrite lookup_insert. by case_decide. Qed.

Lemma failures_of_delete (m : gmap T Z) item x :
  failures_of (delete item m) x = if decide (item = x) then 0 else failures_of m x.
Proof. unfold failures_of. rewrite lookup_delete. by case_decide. Qed.

Lemma count_failure_counted m f item :
  0 <= f item < MaxInt64 -> (forall x, failures_of m x = f x) ->
  forall x, failures_of (count_failure m item) x = count_call f (CWhen item) x.
Proof.
  intros Hf Hm x. unfold count_failure. rewrite failures_of_insert, !Hm. cbn. case_decide; [|done].
  subst. apply wrap64_id. unfold in_int64, MinInt64, MaxInt64 in *. lia.
Qed.

Lemma run_call_MaxOf c l :
  run_call (MaxOfRateLimiter l) c = MaxOfRateLimiter ((fun r => run_call r c) <$> l).
Proof. destruct c; cbn [run_call]; [by rewrite When_MaxOf|done]. Qed.

Lemma run_call_WithMaxWait c r d :
  run_call (WithMaxWaitRateLimiter r d) c = WithMaxWaitRateLimiter (run_call r c) d.
Proof. destruct c; cbn; [unfold WithMaxWait_When; by destruct (When item r)|done]. Qed.

Lemma run_call_Bucket c b : exists b', run_call (BucketRateLimiter b) c = BucketRateLimiter b'.
Proof. destruct c; cbn; [destruct (Reserve_Delay b)|]; eauto. Qed.

Lemma run_call_counted f c r :
  (forall x, 0 <= f x < MaxInt64) -> counted f r -> counted (count_call f c) (run_call r c).
Proof.
  intros Hf. induction r as [b|m b d|m n fd s|l IH|r d IH] using limiter_ind.
  - destruct (run_call_Bucket c b) as [b' ->]. done.
  - destruct c; cbn; intros Hm x; [by apply count_failure_counted|].
    rewrite failures_of_delete. by case_decide.
  - destruct c; cbn; intros Hm x; [by apply count_failure_counted|].
    rewrite failures_of_delete. by case_decide.
  - rewrite run_call_MaxOf. cbn. rewrite !fold_right_and. rewrite Forall_forall in IH.
    intros Hl r' (r & -> & Hr)%list_elem_of_fmap. auto.
  - rewrite run_call_WithMaxWait. exact IH.
Qed.

Lemma since_forget_bound cs (x : T) : 0 <= since_forget cs x <= Z.of_nat (length cs).
Proof.
  unfold since_forget. induction cs as [|c cs IH] using rev_ind; [done|].
  rewrite fold_left_app, length_app. cbn. destruct c; cbn; case_decide; lia.
Qed.

Lemma run_calls_snoc cs c r : run_calls (cs ++ [c]) r = run_call (run_calls cs r) c.
Proof. unfold run_calls. by rewrite fold_left_app. Qed.

Lemma since_forget_snoc cs c (x : T) : since_forget (cs ++ [c]) x = count_call (since_forget cs) c x.
Proof. unfold since_forget. by rewrite fold_left_app. Qed.

Lemma counted_ext f g r : (forall x, f x = g x) -> counted f r -> counted g r.
Proof.
  intros Hfg. induction r as [b|m b d|m n fd s|l IH|r d IH] using limiter_ind; cbn; auto.
  - intros Hm x. by rewrite <- Hfg.
  - intros Hm x. by rewrite <- Hfg.
  - rewrite !fold_right_and. rewrite Forall_forall in IH. eauto.
Qed.

Lemma run_calls_counted cs r :
  fresh_limiter r -> Z.of_nat (length cs) <= MaxInt64 -> counted (since_forget cs) (run_calls cs r).
Proof.
  intros Hr. induction cs as [|c cs IH] using rev_ind; intros Hcs; [by apply fresh_counted|].
  rewrite length_app in Hcs. cbn in Hcs. rewrite run_calls_snoc.
  eapply counted_ext; [intros x; symmetry; apply since_forget_snoc|].
  apply run_call_counted; [|apply IH; lia]. intros x. pose proof (since_forget_bound cs x). lia.
Qed.

Lemma counted_NumRequeues f r item :
  counted f r -> 0 <= f item -> NumRequeues item r = if counts r then f item else 0.
Proof.
  intros Hc Hf. induction r as [b|m b d|m n fd s|l IH|r d IH] using limiter_ind; cbn in Hc;
    rewrite ?NumRequeues_MaxOf; cbn; auto.
  rewrite fold_right_and in Hc. rewrite Forall_forall in IH.
  destruct (max_of_spec (NumRequeues item <$> l)) as (Hpos & Hall & Hin). rewrite Forall_forall in Hall.
  destruct (existsb counts l) eqn:E.
  - apply existsb_exists in E as (r & Hr%list_elem_of_In & Er).
    assert (f item <= max_of (NumRequeues item <$> l)).
    { specialize (IH r Hr (Hc r Hr)). rewrite Er in IH. rewrite <- IH. apply Hall.
      apply list_elem_of_fmap. eauto. }
    destruct Hin as [|(r' & Hm & Hr')%list_elem_of_fmap]; [lia|].
    pose proof (IH r' Hr' (Hc r' Hr')) as Hr''. destruct (counts r'); lia.
  - destruct Hin as [->|(r' & Hm & Hr')%list_elem_of_fmap]; [done|].
    rewrite Hm, (IH r' Hr' (Hc r' Hr')). destruct (counts r') eqn:Er; [|done].
    rewrite (proj2 (existsb_exists counts l)) in E; [done|]. exists r'. by rewrite <- list_elem_of_In.
Qed.

(** *** Delays *)

(** A call leaves the parameters alone. *)
Lemma run_call_config c r :
  upper (run_call r c) = upper r /\ counts (run_call r c) = counts r /\
  (good_delays (run_call r c) <-> good_delays r).
Proof.
  induction r as [b|m b d|m n fd s|l IH|r d IH] using limiter_ind.
  - by destruct (run_call_Bucket c b) as [b' ->].
  - by destruct c.
  - by destruct c.
  - rewrite run_call_MaxOf. cbn. induction IH as [|r l (Hu & Hc & Hg) _ (IHu & IHc & IHg)]; [done|].
    cbn. rewrite Hu, Hc, Hg, IHu, IHc, IHg. done.
  - rewrite run_call_WithMaxWait. cbn. destruct IH as (-> & -> & ->). done.
Qed.

Lemma run_calls_config cs r :
  upper (run_calls cs r) = upper r /\ counts (run_calls cs r) = counts r /\
  (good_delays (run_calls cs r) <-> good_delays r).
Proof.
  induction cs as [|c cs (IHu & IHc & IHg)] using rev_ind; [done|]. rewrite run_calls_snoc.
  destruct (run_call_config c (run_calls cs r)) as (-> & -> & ->). done.
Qed.

Lemma exponential_delay_exact baseDelay maxDelay n :
  good_base baseDelay -> maxDelay <= MaxInt64 -> 0 <= n ->
  exponential_delay baseDelay maxDelay n = Z.min (baseDelay * 2 ^ n) maxDelay.
Proof.
  intros [Hb Hne] Hm Hn. unfold exponential_delay. rewrite float_MaxInt64, of_int64_exact by lia.
  rewrite fmul_pow2 by lia. specialize (Hne n Hn).
  assert (Hpos : 0 < 2 ^ n) by (apply Z.pow_pos_nonneg; lia).
  unfold MaxInt64 in Hm. destruct (_ <? 1024) eqn:El; bool_to_prop.
  - rewrite fltb_ints by lia. change (2 ^ 53 * 2 ^ 10) with (2 ^ 63).
    destruct (2 ^ 63 <? _) eqn:E; bool_to_prop; [lia|].
    rewrite to_int64_int; [|lia|unfold in_int64, MinInt64, MaxInt64; nia].
    destruct (maxDelay <? _) eqn:?; bool_to_prop; lia.
  - cbn [fltb negb]. assert (2 ^ 1024 <= baseDelay * 2 ^ n); [|lia].
    destruct (Z.log2_spec baseDelay) as [Hl _]; [lia|]. pose proof (Z.log2_nonneg baseDelay).
    transitivity (2 ^ (Z.log2 baseDelay + n)); [by apply Z.pow_le_mono_r|].
    rewrite Z.pow_add_r by lia. apply Z.mul_le_mono_nonneg_r; lia.
Qed.

Lemma exponential_delay_le baseDelay maxDelay n : exponential_delay baseDelay maxDelay n <= maxDelay.
Proof.
  unfold exponential_delay. destruct (fltb _ _); [done|]. destruct (_ <? _) eqn:?; bool_to_prop; lia.
Qed.

Lemma max_of_le ds u : 0 <= u -> Forall (fun d => d <= u) ds -> max_of ds <= u.
Proof.
  intros Hu Hds. destruct (max_of_spec ds) as (_ & _ & [->|Hin]); [done|].
  rewrite Forall_forall in Hds. auto.
Qed.

Lemma upper_MaxOf l r : r ∈ l -> 0 <= upper (MaxOfRateLimiter l) /\ upper r <= upper (MaxOfRateLimiter l).
Proof.
  cbn [upper]. intros Hr. assert (Hpos : forall l, 0 <= fold_right (fun r u => Z.max (upper r) u) 0 l).
  { clear. intros l. induction l; cbn [fold_right]; lia. }
  split; [apply Hpos|]. induction Hr as [r l|r r' l _ IH]; cbn [fold_right]; lia.
Qed.

Lemma When_le_upper item r : (When item r).1 <= upper r.
Proof.
  induction r as [b|m b d|m n fd s|l IH|r d IH] using limiter_ind.
  - cbn. pose proof (Reserve_Delay_range b). destruct (Reserve_Delay b). cbn in *. lia.
  - cbn. apply exponential_delay_le.
  - cbn. destruct (_ <=? _); lia.
  - rewrite When_MaxOf. cbn [fst]. destruct l as [|r0 l]; [done|].
    apply max_of_le; [by destruct (upper_MaxOf (r0 :: l) r0 ltac:(left))|].
    rewrite Forall_forall in IH. apply Forall_forall. intros x (r & -> & Hr)%list_elem_of_fmap.
    etransitivity; [by apply IH|]. by apply upper_MaxOf.
  - cbn. unfold WithMaxWait_When. destruct (When item r) as [delay r']. cbn in *. destruct (_ <? _) eqn:?; bool_to_prop; lia.
Qed.

Lemma When_nonneg f item r :
  counted f r -> 0 <= f item -> good_delays r -> 0 <= (When item r).1.
Proof.
  intros Hc Hf. induction r as [b|m b d|m n fd s|l IH|r d IH] using limiter_ind.
  - intros _. cbn. pose proof (Reserve_Delay_range b). destruct (Reserve_Delay b). cbn in *. lia.
  - cbn in *. intros [Hb Hd]. rewrite Hc, exponential_delay_exact by (done || lia).
    destruct Hb as [Hb _]. pose proof (Z.pow_nonneg 2 (f item)). nia.
  - cbn. intros []. destruct (_ <=? _); lia.
  - intros _. rewrite When_MaxOf. apply max_of_spec.
  - cbn. intros [Hg Hd]. specialize (IH Hc Hg). unfold WithMaxWait_When. destruct (When item r). cbn in *.
    destruct (_ <? _); lia.
Qed.

(** Asking for a delay counts. *)
Lemma When_count baseDelay maxDelay cs item :
  Z.of_nat (length cs) < MaxInt64 ->
  NumRequeues item (When item (run_calls (B:=B) cs
    (NewItemExponentialFailureRateLimiter baseDelay maxDelay))).2 = since_forget cs item + 1.
Proof.
  intros Hcs. match goal with |- context [When item ?l] => change (When item l).2 with (run_call l (CWhen item)) end.
  rewrite <- run_calls_snoc.
  erewrite counted_NumRequeues; [|apply run_calls_counted; [done|rewrite length_app; cbn; lia]|apply since_forget_bound].
  rewrite (proj1 (proj2 (run_calls_config _ _))), since_forget_snoc. cbn. by rewrite decide_True.
Qed.

(** A fresh exponential limiter after some calls. *)
Lemma exponential_When_since baseDelay maxDelay cs item :
  Z.of_nat (length cs) <= MaxInt64 ->
  (When item (run_calls (B:=B) cs (NewItemExponentialFailureRateLimiter baseDelay maxDelay))).1 =
  exponential_delay baseDelay maxDelay (since_forget cs item).
Proof.
  intros Hcs.
  pose proof (run_calls_counted cs (NewItemExponentialFailureRateLimiter baseDelay maxDelay) eq_refl Hcs) as Hc.
  assert (Hs : exists failures, run_calls (B:=B) cs (NewItemExponentialFailureRateLimiter baseDelay maxDelay)
    = ItemExponentialFailureRateLimiter failures baseDelay maxDelay).
  { clear. unfold NewItemExponentialFailureRateLimiter. induction cs as [|c cs [m IH]] using rev_ind; [by eexists|].
    rewrite run_calls_snoc, IH. destruct c; by eexists. }
  destruct Hs as [m Hs]. rewrite Hs in *. cbn in *. by rewrite Hc.
Qed.

Lemma exponential_When_counted baseDelay maxDelay cs item :
  good_base baseDelay -> maxDelay <= MaxInt64 -> Z.of_nat (length cs) <= MaxInt64 ->
  (When item (run_calls (B:=B) cs (NewItemExponentialFailureRateLimiter baseDelay maxDelay))).1 =
  Z.min (baseDelay * 2 ^ since_forget cs item) maxDelay.
Proof.
  intros Hb Hm Hcs. rewrite exponential_When_since by done.
  apply exponential_delay_exact; [done|done|]. apply since_forget_bound.
Qed.

Lemma since_forget_replicate n item : since_forget (replicate n (CWhen item)) item = Z.of_nat n.
Proof.
  induction n as [|n IH]; [done|]. rewrite replicate_S_end, since_forget_snoc.
  cbn [count_call]. rewrite decide_True, IH by done. lia.
Qed.

End limiter_lemmas.

(** ** Properties *)

Section properties.
Context {T B : Type} `{Countable T} `{TokenBucket B} `{FloatConv}.
Implicit Types (r : RateLimiter T B) (item : T) (cs : list (call T)).

(** The delays of the exponential limiter.  After any calls, an item that failed n
    times since it was last forgotten waits exactly baseDelay * 2^n, capped at
    maxDelay: the computation through float64 neither rounds nor overflows, however
    often the item failed, if the base delay is below 2^53 ns and is no power of two. *)
Theorem exponential_When_exact baseDelay maxDelay cs item :
  good_base baseDelay -> maxDelay <= MaxInt64 -> Z.of_nat (length cs) <= MaxInt64 ->
  (When item (run_calls (B:=B) cs (NewItemExponentialFailureRateLimiter baseDelay maxDelay))).1 =
  Z.min (baseDelay * 2 ^ since_forget cs item) maxDelay.
Proof.
  intros. by apply exponential_When_counted.
Qed.

(** Bounds of every delay.  A limiter composed in any way of the limiters of this
    package never asks for a negative delay nor for one above what its parameters
    allow: the maximum of an exponential limiter, the slower of the two delays of a
    fast/slow one, the largest of the parts of a maximum, at most the maximum wait. *)
Theorem limiter_When_bounds r cs item :
  fresh_limiter r -> good_delays r -> Z.of_nat (length cs) <= MaxInt64 ->
  0 <= (When item (run_calls cs r)).1 <= upper r.
Proof.
  intros Hr Hg Hcs. destruct (run_calls_config cs r) as (Hu & _ & Hg'). split.
  - eapply When_nonneg; [by apply run_calls_counted|apply since_forget_bound|by apply Hg'].
  - rewrite <- Hu. apply When_le_upper.
Qed.

(** [NumRequeues] counts.  Whatever limiters are composed, after any calls it is
    the number of times [When] was asked about the item since the item was last
    forgotten, and 0 if no part of the limiter counts.  Items do not interfere. *)
Theorem limiter_NumRequeues_exact r cs item :
  fresh_limiter r -> Z.of_nat (length cs) <= MaxInt64 ->
  NumRequeues item (run_calls cs r) = if counts r then since_forget cs item else 0.
Proof.
  intros Hr Hcs. destruct (run_calls_config cs r) as (_ & <- & _).
  apply counted_NumRequeues; [by apply run_calls_counted|apply since_forget_bound].
Qed.

(** A failing item is retried after its backoff.  On a reachable rate limited queue
    with an exponential limiter, [AddRateLimited] counts the failure and, unless the
    queue is shutting down, sends the item to wait until now + min(baseDelay * 2^n,
    maxDelay), n being its failures so far; the work queue itself and what waits are
    untouched, so nothing is retried early.  It blocks only while the channel of a
    queue that was not shut down is full. *)
Theorem AddRateLimited_backs_off {Q} `{QueueInterface T Q} (q : Q) di cs baseDelay maxDelay now item :
  let limiter := NewItemExponentialFailureRateLimiter (B:=B) baseDelay maxDelay in
  let rq := mkRateLimiting di (run_calls cs limiter) in
  let d := Z.min (baseDelay * 2 ^ since_forget cs item) maxDelay in
  delaying_reach q di -> good_base baseDelay -> 0 < maxDelay <= MaxInt64 ->
  Z.of_nat (length cs) < MaxInt64 ->
  (forall rq', rq' ∈ AddRateLimited now item rq ->
     queue_NumRequeues item rq' = since_forget cs item + 1 /\
     Interface (DelayingInterface rq') = Interface di /\
     waiting (DelayingInterface rq') = waiting di /\
     (sent (DelayingInterface rq') = sent di ++ [(item, now + d)] \/
      sent (DelayingInterface rq') = sent di /\
      (qi_ShuttingDown (Interface di) = true \/ stopCh_closed di = true))) /\
  (AddRateLimited now item rq = [] ->
     stopCh_closed di = false /\ (waitingForAddCh_cap <= length (waitingForAddCh di))%nat).
Proof.
  cbn zeta. intros Hreach Hb Hm Hcs.
  assert (Hd : 0 < Z.min (baseDelay * 2 ^ since_forget cs item) maxDelay).
  { destruct Hb as [Hb _]. pose proof (Z.pow_pos_nonneg 2 (since_forget cs item)) as Hp.
    specialize (Hp ltac:(lia) (proj1 (since_forget_bound cs item))). nia. }
  pose proof (exponential_When_counted baseDelay maxDelay cs item Hb (proj2 Hm) ltac:(lia)) as Hl.
  pose proof (When_count baseDelay maxDelay cs item ltac:(lia)) as Hn.
  unfold AddRateLimited. cbn [rateLimiter DelayingInterface].
  destruct (When item _) as [d r]. cbn in Hl, Hn. rewrite <- Hl in *. clear Hl.
  destruct (delaying_AddAfter q di now item d Hreach) as [Hcases Hblock]. split.
  - intros rq' (di' & -> & Hin)%list_elem_of_fmap. cbn [queue_NumRequeues rateLimiter DelayingInterface].
    destruct (Hcases di' Hin) as (Hw & [[? ->]|[[? _]|[(? & ? & ?)|(? & ? & ?)]]]); [|lia| |];
      (split; [exact Hn|]); auto 8.
  - intros Hnil%fmap_nil_inv. apply Hblock in Hnil. tauto.
Qed.

End properties.

(** ** A base delay whose doublings hit 2^63

    [backoff > math.MaxInt64] compares with 2^63, the float64 nearest to the
    constant, so a backoff of exactly 2^63 passes the guard that should keep
    the conversion from overflowing.  On amd64 the delay is then the most negative
    duration, and the item is retried at once. *)
Section overflow.
#[local] Existing Instance amd64_conv.

Theorem exponential_overflow {T B} `{Countable T} `{TokenBucket B} (item : T) :
  exists cs, since_forget cs item = 43 /\
  (When item (run_calls cs (NewItemExponentialFailureRateLimiter (B:=B) (2 ^ 20) (1000 * Second)))).1
  = MinInt64.
Proof.
  exists (replicate 43 (CWhen item)). split; [apply (since_forget_replicate 43)|].
  rewrite exponential_When_since, since_forget_replicate by done. vm_compute. done.
Qed.

End overflow.

(** ** Witnesses *)

Section witnesses.
#[local] Existing Instance amd64_conv.

(** A bucket that always asks to wait a tenth of a second. *)
#[local] Program Instance wit_bucket : TokenBucket unit := {|
  newLimiter := fun _ _ => tt;
  Reserve_Delay := fun b => (100 * Millisecond, b)
|}.
Next Obligation. cbn. unfold MaxInt64. vm_compute. done. Qed.

Definition wit_calls : list (call string) :=
  [CWhen "a"; CWhen "b"; CWhen "a"; CForget "b"; CWhen "a"; CWhen "b"].

Lemma wit_base : good_base (5 * Millisecond).
Proof. split; [vm_compute; done|]. intros k _. change (5 * Millisecond) with 5000000. lia. Qed.

Lemma wit_good_default : good_delays (DefaultControllerRateLimiter (T:=string) (B:=unit)).
Proof. split; [split; [exact wit_base|vm_compute; done]|done]. Qed.

Lemma exponential_When_exact_witness :
  (When "a" (run_calls (B:=unit) wit_calls
     (NewItemExponentialFailureRateLimiter (5 * Millisecond) (1000 * Second)))).1 = 40 * Millisecond.
Proof.
  rewrite exponential_When_exact; [vm_compute; reflexivity|exact wit_base|vm_compute; discriminate..].
Defined.

Lemma limiter_When_bounds_witness :
  0 <= (When "a" (run_calls wit_calls (NewWithMaxWaitRateLimiter
     (DefaultControllerRateLimiter (T:=string) (B:=unit)) Second))).1 <= Second.
Proof.
  apply (limiter_When_bounds (NewWithMaxWaitRateLimiter DefaultControllerRateLimiter Second)).
  - cbn. auto.
  - split; [exact wit_good_default|vm_compute; discriminate].
  - vm_compute. discriminate.
Defined.

Lemma limiter_NumRequeues_exact_witness :
  NumRequeues "a" (run_calls wit_calls (DefaultControllerRateLimiter (T:=string) (B:=unit))) = 3.
Proof.
  rewrite limiter_NumRequeues_exact; [reflexivity|cbn; auto|vm_compute; discriminate].
Defined.

Lemma AddRateLimited_backs_off_witness :
  Forall (fun rq => queue_NumRequeues "a" rq = 4 /\ waiting (DelayingInterface rq) = waiting wit_d6)
    (AddRateLimited (B:=unit) 7 "a" (mkRateLimiting wit_d6
       (run_calls wit_calls (NewItemExponentialFailureRateLimiter (5 * Millisecond) (1000 * Second))))).
Proof.
  apply Forall_forall. intros rq Hrq.
  destruct (proj1 (AddRateLimited_backs_off (B:=unit) (newQueue tt) wit_d6 wit_calls (5 * Millisecond)
    (1000 * Second) 7 "a" wit_d6_reach wit_base ltac:(vm_compute; split; [reflexivity|discriminate])
    ltac:(vm_compute; reflexivity)) rq Hrq) as (Hn & _ & Hw & _).
  split; [exact Hn|exact Hw].
Defined.

End witnesses.
