(* ===== verification/Backoff.v ===== *)
(** * Per-item backoff

    util/flowcontrol/backoff.go.  Every method runs under the lock, so it is one
    step; [now] is what the clock says during the step and [u] what
    [p.rand.Float64()] would return.  Entries never leave the type, so an entry is
    its two fields. *)

From S2P Require Import Prelude Float64.

(** k8s.io/utils/integer. *)
Class IntegerUtil : Type := {
  Int64Min : Z -> Z -> Z;
  Int64Min_spec : forall a b, Int64Min a b = Z.min a b
}.

Section backoff.
Context `{FloatConv} `{MapRange} `{IntegerUtil}.

Record backoffEntry : Type := mkEntry { backoff : Z; lastUpdate : Z }.

Record Backoff : Type := mkBackoff {
  defaultDuration : Z;
  maxDuration : Z;
  perItemBackoff : gmap string backoffEntry;
  rand : bool;   (* whether it is non-nil *)
  maxJitterFactor : float64
}.

Definition newBackoff (initial max : Z) (maxJitterFactor : float64) : Backoff :=
  mkBackoff initial max ∅ (fltb (of_int64 0) maxJitterFactor) maxJitterFactor.

Definition NewBackOffWithJitter (initial max : Z) (maxJitterFactor : float64) : Backoff :=
  newBackoff initial max maxJitterFactor.

Definition NewBackOff (initial max : Z) : Backoff := NewBackOffWithJitter initial max (of_int64 0).

Definition with_entries (m : gmap string backoffEntry) (p : Backoff) : Backoff :=
  mkBackoff (defaultDuration p) (maxDuration p) m (rand p) (maxJitterFactor p).

Definition Get (id : string) (p : Backoff) : Z :=
  match perItemBackoff p !! id with
  | Some entry => backoff entry
  | None => 0
  end.

Definition hasExpired (eventTime lastUpdate maxDuration : Z) : bool :=
  wrap64 (maxDuration * 2) <? time_sub eventTime lastUpdate.

Definition initEntryUnsafe (id : string) (p : Backoff) : backoffEntry * Backoff :=
  let entry := mkEntry (defaultDuration p) 0 in
  (entry, with_entries (<[id := entry]> (perItemBackoff p)) p).

Definition jitter (u : float64) (delay : Z) (p : Backoff) : Z :=
  if rand p then to_int64 (fmul (fmul u (maxJitterFactor p)) (of_int64 delay)) else 0.

(** [u] and [now] are read in the order of the code; neither depends on the other. *)
Definition Next (u : float64) (now : Z) (id : string) (eventTime : Z) (p : Backoff) : Backoff :=
  let '(entry, p) :=
    match perItemBackoff p !! id with
    | Some entry =>
        if hasExpired eventTime (lastUpdate entry) (maxDuration p) then
          let '(entry, p) := initEntryUnsafe id p in
          (mkEntry (wrap64 (backoff entry + jitter u (backoff entry) p)) (lastUpdate entry), p)
        else
          let delay := wrap64 (backoff entry * 2) in
          let delay := wrap64 (delay + jitter u (backoff entry) p) in
          (mkEntry (Int64Min delay (maxDuration p)) (lastUpdate entry), p)
    | None =>
        let '(entry, p) := initEntryUnsafe id p in
        (mkEntry (wrap64 (backoff entry + jitter u (backoff entry) p)) (lastUpdate entry), p)
    end in
  with_entries (<[id := mkEntry (backoff entry) now]> (perItemBackoff p)) p.

Definition Reset (id : string) (p : Backoff) : Backoff :=
  with_entries (delete id (perItemBackoff p)) p.

Definition IsInBackOffSince (now : Z) (id : string) (eventTime : Z) (p : Backoff) : bool :=
  match perItemBackoff p !! id with
  | None => false
  | Some entry =>
      if hasExpired eventTime (lastUpdate entry) (maxDuration p) then false
      else time_sub now eventTime <? backoff entry
  end.

Definition IsInBackOffSinceUpdate (id : string) (eventTime : Z) (p : Backoff) : bool :=
  match perItemBackoff p !! id with
  | None => false
  | Some entry =>
      if hasExpired eventTime (lastUpdate entry) (maxDuration p) then false
      else time_sub eventTime (lastUpdate entry) <? backoff entry
  end.

Definition GC (now : Z) (p : Backoff) : Backoff :=
  with_entries
    (fold_left (fun m e =>
       if wrap64 (maxDuration p * 2) <? time_sub now (lastUpdate e.2) then delete e.1 m else m)
       (range (perItemBackoff p)) (perItemBackoff p)) p.

Definition DeleteEntry (id : string) (p : Backoff) : Backoff :=
  with_entries (delete id (perItemBackoff p)) p.

(** ** Specification

    An item has seen a number of events, the last at some time, since it was new,
    reset, or quiet for twice the maximum. *)

Inductive call : Type :=
| CNext (u : float64) (now : Z) (id : string) (eventTime : Z)
| CReset (id : string)
| CDeleteEntry (id : string)
| CGC (now : Z).

Definition run_call (p : Backoff) (c : call) : Backoff :=
  match c with
  | CNext u now id eventTime => Next u now id eventTime p
  | CReset id => Reset id p
  | CDeleteEntry id => DeleteEntry id p
  | CGC now => GC now p
  end.

Definition run_calls (cs : list call) (p : Backoff) : Backoff := fold_left run_call cs p.

(** Events seen before this one, and the time of the last. *)
Definition seen_call (max : Z) (m : gmap string (nat * Z)) (c : call) : gmap string (nat * Z) :=
  match c with
  | CNext _ now id eventTime =>
      <[id := (match m !! id with
               | Some (n, last) => if 2 * max <? eventTime - last then 0%nat else S n
               | None => 0%nat
               end, now)]> m
  | CReset id | CDeleteEntry id => delete id m
  | CGC now => filter (fun e => now - e.2.2 <= 2 * max) m
  end.

Definition seen (max : Z) (cs : list call) : gmap string (nat * Z) := fold_left (seen_call max) cs ∅.

(** The longest backoff after [n] further events, each jitter being at most [J]. *)
Fixpoint longest (initial max J : Z) (n : nat) : Z :=
  match n with
  | 0%nat => initial + J
  | S n => Z.min (2 * longest initial max J n + J) max
  end.

Definition jitter_within (J : Z) (p : Backoff) (c : call) : Prop :=
  match c with
  | CNext u _ _ _ => forall delay, 0 <= delay <= maxDuration p + J -> 0 <= jitter u delay p <= J
  | _ => True
  end.

End backoff.

(** ** Lemmas *)

Section backoff_lemmas.
Context `{FloatConv} `{MapRange} `{IntegerUtil}.
Implicit Types (p : Backoff).

Lemma hasExpired_exact t last max :
  0 <= max < 2 ^ 62 -> hasExpired t last max = (2 * max <? t - last).
Proof.
  intros Hm. unfold hasExpired. rewrite wrap64_id by (unfold in_int64, MinInt64, MaxInt64; lia).
  rewrite ltb_time_sub by (unfold MinInt64, MaxInt64; lia). by rewrite Z.mul_comm.
Qed.

Lemma fold_delete {A} (P : A -> bool) (l : list (string * A)) (m : gmap string A) id :
  fold_left (fun m e => if P e.2 then delete e.1 m else m) l m !! id =
  if existsb (fun e => bool_decide (e.1 = id) && P e.2) l then None else m !! id.
Proof.
  revert m. induction l as [|[k e] l IH]; intros m; cbn; [done|]. rewrite IH.
  destruct (P e) eqn:E; [|by rewrite andb_false_r]. rewrite lookup_delete, andb_true_r.
  case_decide as Hk; [rewrite bool_decide_true by done; by destruct (existsb _ l)|].
  by rewrite bool_decide_false.
Qed.

Lemma lookup_GC now p id :
  perItemBackoff (GC now p) !! id =
  match perItemBackoff p !! id with
  | Some e => if wrap64 (maxDuration p * 2) <? time_sub now (lastUpdate e) then None else Some e
  | None => None
  end.
Proof.
  unfold GC. cbn [perItemBackoff with_entries].
  rewrite (fold_delete (fun e => wrap64 (maxDuration p * 2) <? time_sub now (lastUpdate e))).
  set (m := perItemBackoff p). destruct (existsb _ _) eqn:E.
  - apply existsb_exists in E as ((k & e) & He%list_elem_of_In & Hk). cbn in Hk. bool_to_prop. subst.
    apply elem_of_range in He. rewrite He. by rewrite (proj2 (Z.ltb_lt _ _)).
  - destruct (m !! id) as [e|] eqn:Em; [|done]. destruct (_ <? _) eqn:El; [|done].
    exfalso. apply not_true_iff_false in E. apply E, existsb_exists. exists (id, e).
    rewrite <- list_elem_of_In, elem_of_range. cbn. by rewrite bool_decide_true.
Qed.

(** The entries of [p] follow what was [seen]. *)
Record follows (initial max J : Z) p (m : gmap string (nat * Z)) : Prop := {
  fo_default : defaultDuration p = initial;
  fo_max : maxDuration p = max;
  fo_entries : forall id, option_Forall2 (fun e s => lastUpdate e = s.2 /\
    Z.min (initial * 2 ^ Z.of_nat s.1) max <= backoff e <= longest initial max J s.1)
    (perItemBackoff p !! id) (m !! id)
}.

Section run.
Variables (initial max J : Z).
Hypothesis Hinit : 0 <= initial <= max.
Hypothesis Hmax : max < 2 ^ 61.
Hypothesis HJ : 0 <= J < 2 ^ 60.

Lemma longest_le n : longest initial max J n <= max + J.
Proof. destruct n; cbn; lia. Qed.

Lemma follows_lookup p m id :
  follows initial max J p m ->
  match perItemBackoff p !! id, m !! id with
  | Some e, Some s => lastUpdate e = s.2 /\
      Z.min (initial * 2 ^ Z.of_nat s.1) max <= backoff e <= longest initial max J s.1
  | None, None => True
  | _, _ => False
  end.
Proof. intros [_ _ Hf]. specialize (Hf id). by destruct Hf. Qed.

Lemma follows_delete p m id :
  follows initial max J p m -> follows initial max J (Reset id p) (delete id m).
Proof.
  intros [Hd Hm Hf]. constructor; [done|done|]. intros k. cbn. rewrite !lookup_delete.
  case_decide; [constructor|apply Hf].
Qed.

Lemma follows_GC now p m :
  follows initial max J p m -> follows initial max J (GC now p) (seen_call max m (CGC now)).
Proof.
  intros Hfo. constructor; [apply Hfo|apply Hfo|]. intros k. rewrite lookup_GC. cbn [seen_call]. rewrite map_lookup_filter.
  pose proof (follows_lookup p m k Hfo) as Hk.
  destruct (perItemBackoff p !! k) as [e|], (m !! k) as [s|]; try done; [|constructor].
  destruct Hk as [Hl Hb].
  pose proof (hasExpired_exact now (lastUpdate e) (maxDuration p)) as Hx. unfold hasExpired in Hx.
  destruct Hfo as [_ Hpm _]. rewrite Hpm in *. rewrite Hx, Hl by lia. clear Hx. cbn.
  destruct (2 * max <? now - s.2) eqn:E; bool_to_prop.
  - rewrite option_guard_False by lia. constructor.
  - rewrite option_guard_True by lia. by constructor.
Qed.

Lemma follows_Next u now id t p m :
  follows initial max J p m -> (forall delay, 0 <= delay <= max + J -> 0 <= jitter u delay p <= J) ->
  follows initial max J (Next u now id t p) (seen_call max m (CNext u now id t)).
Proof.
  intros Hfo Hj. pose proof (follows_lookup p m id Hfo) as Hk. pose proof Hfo as [Hd Hm Hf].
  assert (Hi64 : forall z, - 2 ^ 63 <= z < 2 ^ 63 -> wrap64 z = z)
    by (intros; apply wrap64_id; unfold in_int64, MinInt64, MaxInt64; lia).
  assert (Hnew : exists e q, Next u now id t p = with_entries (<[id := e]> q) p /\
    (q = perItemBackoff p \/ exists e0, q = <[id := e0]> (perItemBackoff p)) /\ lastUpdate e = now /\
    let n := match m !! id with Some (n, last) => if 2 * max <? t - last then 0%nat else S n | None => 0%nat end in
    Z.min (initial * 2 ^ Z.of_nat n) max <= backoff e <= longest initial max J n).
  { unfold Next. destruct (perItemBackoff p !! id) as [e|], (m !! id) as [[n last]|]; try done.
    - destruct Hk as [Hl Hb]. cbn in Hl, Hb. rewrite Hm, hasExpired_exact, Hl by lia.
      destruct (2 * max <? t - last).
      + cbn. specialize (Hj initial ltac:(lia)). unfold jitter in *. cbn. rewrite Hd in *.
        eexists _, _. split; [done|]. split; [eauto|]. split; [done|]. cbn. rewrite Hi64; lia.
      + eexists _, _. split; [done|]. split; [eauto|]. split; [done|].
        cbn [backoff longest]. rewrite Int64Min_spec.
        pose proof (longest_le n). rewrite Nat2Z.inj_succ, Z.pow_succ_r by lia.
        assert (0 <= backoff e).
        { pose proof (Z.pow_nonneg 2 (Z.of_nat n)). assert (0 <= initial * 2 ^ Z.of_nat n) by nia. lia. }
        specialize (Hj (backoff e) ltac:(lia)).
        rewrite (Hi64 (backoff e * 2)) by lia. rewrite Hi64 by lia. lia.
    - cbn. specialize (Hj initial ltac:(lia)). unfold jitter in *. cbn. rewrite Hd in *.
      eexists _, _. split; [done|]. split; [eauto|]. split; [done|]. cbn. rewrite Hi64; lia. }
  destruct Hnew as (e & q & -> & Hq & Hl & Hb). constructor; [done|done|]. intros k. cbn.
  rewrite !lookup_insert. case_decide; [by constructor|].
  destruct Hq as [-> |[e0 ->]]; [|rewrite lookup_insert_ne by done]; apply Hf.
Qed.

Lemma jitter_fields u delay p q :
  rand p = rand q -> maxJitterFactor p = maxJitterFactor q -> jitter u delay p = jitter u delay q.
Proof. unfold jitter. by intros -> ->. Qed.

Lemma run_call_fields c p :
  rand (run_call p c) = rand p /\ maxJitterFactor (run_call p c) = maxJitterFactor p.
Proof.
  destruct c; cbn; try done. unfold Next. destruct (perItemBackoff p !! id); [|done].
  by destruct (hasExpired _ _ _).
Qed.

Lemma run_calls_follows f cs :
  Forall (jitter_within J (newBackoff initial max f)) cs ->
  follows initial max J (run_calls cs (newBackoff initial max f)) (seen max cs) /\
  (forall u delay, jitter u delay (run_calls cs (newBackoff initial max f)) =
    jitter u delay (newBackoff initial max f)).
Proof.
  induction cs as [|c cs IH] using rev_ind; intros Hcs.
  { split; [|done]. constructor; [done|done|]. intros id. cbn. rewrite !lookup_empty. constructor. }
  apply Forall_app in Hcs as [Hcs Hc%Forall_inv]. destruct (IH Hcs) as [Hf Hj].
  unfold run_calls, seen in *. rewrite !fold_left_app. cbn [fold_left]. split.
  - destruct c; cbn [run_call].
    + apply follows_Next; [done|]. intros. rewrite Hj. by apply Hc.
    + by apply follows_delete.
    + by apply follows_delete.
    + by apply follows_GC.
  - intros u delay. rewrite <- Hj. apply jitter_fields; apply run_call_fields.
Qed.

End run.

Lemma longest_no_jitter initial max n :
  0 <= initial <= max -> longest initial max 0 n = Z.min (initial * 2 ^ Z.of_nat n) max.
Proof.
  intros Hi. induction n as [|n IH]; cbn [longest]; [cbn; lia|].
  rewrite IH, Nat2Z.inj_succ, Z.pow_succ_r by lia. lia.
Qed.

Lemma NewBackOff_follows initial max cs :
  0 <= initial <= max -> max < 2 ^ 61 ->
  follows initial max 0 (run_calls cs (NewBackOff initial max)) (seen max cs).
Proof.
  intros Hi Hm. apply (run_calls_follows initial max 0); [done|done|lia|].
  apply Forall_forall. intros [] _; done.
Qed.

(** What an entry holds without jitter. *)
Lemma NewBackOff_lookup initial max cs id :
  0 <= initial <= max -> max < 2 ^ 61 ->
  perItemBackoff (run_calls cs (NewBackOff initial max)) !! id =
  (fun s => mkEntry (Z.min (initial * 2 ^ Z.of_nat s.1) max) s.2) <$> seen max cs !! id.
Proof.
  intros Hi Hm. pose proof (follows_lookup _ _ _ _ _ id (NewBackOff_follows initial max cs Hi Hm)) as Hf.
  destruct (perItemBackoff _ !! id) as [[b l]|], (seen max cs !! id) as [[n last]|]; try done.
  cbn in *. destruct Hf as [-> Hb]. rewrite longest_no_jitter in Hb by done. do 2 f_equal. lia.
Qed.

End backoff_lemmas.

(** ** Properties *)

Section properties.
Context `{FloatConv} `{MapRange} `{IntegerUtil}.

(** Backoffs double.  Without jitter, after any calls the backoff of an item is
    initial * 2^n capped at the maximum, n being the number of events since its
    first one after it was new, reset, collected or quiet for twice the maximum;
    an item without events has none.  Items do not interfere and nothing overflows. *)
Theorem backoff_doubles initial max cs id :
  0 <= initial <= max -> max < 2 ^ 61 ->
  Get id (run_calls cs (NewBackOff initial max)) =
  match seen max cs !! id with
  | Some (n, _) => Z.min (initial * 2 ^ Z.of_nat n) max
  | None => 0
  end.
Proof.
  intros Hi Hm. unfold Get. rewrite NewBackOff_lookup by done. by destruct (seen max cs !! id) as [[]|].
Qed.

(** Bounds with jitter.  Whatever the random numbers, as long as each jitter is
    at most J, an item that has seen events has at least the backoff it would have
    without jitter; it exceeds the maximum only at its first event, by at most J. *)
Theorem backoff_jitter_bounds initial max J f cs id n last :
  0 <= initial <= max -> max < 2 ^ 61 -> 0 <= J < 2 ^ 60 ->
  Forall (jitter_within J (newBackoff initial max f)) cs ->
  seen max cs !! id = Some (n, last) ->
  Z.min (initial * 2 ^ Z.of_nat n) max <= Get id (run_calls cs (newBackoff initial max f)) /\
  Get id (run_calls cs (newBackoff initial max f)) <= (if decide (n = 0%nat) then initial + J else max).
Proof.
  intros Hi Hm HJ Hcs Hs. destruct (run_calls_follows initial max J Hi Hm HJ f cs Hcs) as [Hf _].
  pose proof (follows_lookup _ _ _ _ _ id Hf) as Hk. unfold Get. rewrite Hs in Hk.
  destruct (perItemBackoff _ !! id) as [e|]; [|done]. cbn in Hk. destruct Hk as [_ Hb].
  split; [lia|]. case_decide; [subst; cbn in Hb; lia|]. destruct n; [done|]. cbn [longest] in Hb. lia.
Qed.

(** The backoff window.  Without jitter, after any calls an item is in backoff at
    time t exactly until its backoff has passed since its last event; measured from
    another event, until that long has passed since that event, unless the item was
    quiet for twice the maximum before it. *)
Theorem backoff_window initial max cs id t now :
  0 <= initial <= max -> max < 2 ^ 61 ->
  let p := run_calls cs (NewBackOff initial max) in
  IsInBackOffSinceUpdate id t p =
    match seen max cs !! id with
    | Some (_, last) => t <? last + Get id p
    | None => false
    end /\
  IsInBackOffSince now id t p =
    match seen max cs !! id with
    | Some (_, last) => (t <=? last + 2 * max) && (now <? t + Get id p)
    | None => false
    end.
Proof.
  intros Hi Hm. cbn zeta. pose proof (NewBackOff_follows initial max cs Hi Hm) as [_ Hmax _].
  unfold IsInBackOffSinceUpdate, IsInBackOffSince, Get. rewrite NewBackOff_lookup, Hmax by done.
  destruct (seen max cs !! id) as [[n last]|]; [|done]. cbn. rewrite hasExpired_exact by lia.
  set (b := Z.min _ max). assert (Hb : 0 <= b <= max).
  { subst b. pose proof (Z.pow_nonneg 2 (Z.of_nat n)). assert (0 <= initial * 2 ^ Z.of_nat n) by nia. lia. }
  clearbody b. rewrite !time_sub_ltb by (unfold MinInt64, MaxInt64; lia).
  destruct (2 * max <? t - last) eqn:E; bool_to_prop.
  - replace (t <=? last + 2 * max) with false by (symmetry; apply Z.leb_gt; lia).
    split; [|done]. symmetry. apply Z.ltb_ge. lia.
  - replace (t <=? last + 2 * max) with true by (symmetry; apply Z.leb_le; lia).
    split; apply eq_iff_eq_true; cbn; rewrite !Z.ltb_lt; lia.
Qed.

End properties.

(** The first backoff is the initial duration, not capped as the comment of [Next]
    says. *)
Theorem backoff_first_uncapped `{FloatConv} `{MapRange} `{IntegerUtil} now t id :
  Get id (Next (of_int64 0) now id t (NewBackOff 10 5)) = 10.
Proof. unfold Next, Get. cbn [perItemBackoff NewBackOff NewBackOffWithJitter newBackoff]. rewrite lookup_empty. cbn. rewrite !lookup_insert_eq. done. Qed.

(** ** Witnesses *)

Section witnesses.
#[local] Existing Instance amd64_conv.
#[local] Existing Instance range_in_key_order.
#[local] Instance wit_util : IntegerUtil := {| Int64Min := Z.min; Int64Min_spec := fun _ _ => eq_refl |}.

(** Three events of "a", with a pause of more than twice the maximum, one of "b". *)
Definition wit_calls : list call :=
  [CNext (Fin 1 (-1)) 0 "a" 0; CNext (Fin 1 (-1)) 100 "a" 100; CNext (Fin 3 (-2)) 4 "b" 4;
   CNext (Fin 1 (-1)) 200 "a" 200; CNext (Fin 1 (-1)) 300 "a" 300].

Lemma backoff_doubles_witness : Get "a" (run_calls wit_calls (NewBackOff 100 500)) = 500.
Proof. rewrite backoff_doubles by lia. vm_compute. reflexivity. Defined.

Lemma wit_jitter_quarter delay u :
  u = Fin 1 (-1) \/ u = Fin 3 (-2) -> 0 <= delay <= 1000 -> 
  0 <= jitter u delay (newBackoff 100 500 (Fin 1 (-1))) <= 500.
Proof.
  intros Hu Hd. destruct (decide (delay = 0)) as [->|]; [by destruct Hu as [-> | ->]|].
  change (0 <= to_int64 (fmul (fmul u (Fin 1 (-1))) (of_int64 delay)) <= 500).
  rewrite of_int64_exact by lia.
  destruct Hu as [-> | ->].
  - change (fmul (Fin 1 (-1)) (Fin 1 (-1))) with (Fin 1 (-2)). cbn [fmul].
    rewrite round64_exact by lia. replace (1 * delay =? 0) with false by (symmetry; apply Z.eqb_neq; lia).
    assert (0 <= Z.quot (1 * delay) 4 <= 500).
    { split; [apply Z.quot_pos; lia|]. apply Z.quot_le_upper_bound; lia. }
    unfold to_int64. change (trunc (1 * delay) (-2 + 0)) with (Z.quot (1 * delay) 4). cbv zeta.
    rewrite (proj2 (in_int64b_spec _)); [lia|unfold in_int64, MinInt64, MaxInt64; lia].
  - change (fmul (Fin 3 (-2)) (Fin 1 (-1))) with (Fin 3 (-3)). cbn [fmul].
    rewrite round64_exact by lia. replace (3 * delay =? 0) with false by (symmetry; apply Z.eqb_neq; lia).
    assert (0 <= Z.quot (3 * delay) 8 <= 500).
    { split; [apply Z.quot_pos; lia|]. apply Z.quot_le_upper_bound; lia. }
    unfold to_int64. change (trunc (3 * delay) (-3 + 0)) with (Z.quot (3 * delay) 8). cbv zeta.
    rewrite (proj2 (in_int64b_spec _)); [lia|unfold in_int64, MinInt64, MaxInt64; lia].
Qed.

Lemma wit_jitter : Forall (jitter_within 500 (newBackoff 100 500 (Fin 1 (-1)))) wit_calls.
Proof. repeat (constructor; [intros delay Hd; apply wit_jitter_quarter; auto|]). constructor. Qed.

(** With a jitter of up to one half, the first backoff of "b" is above its initial 100. *)
Lemma backoff_jitter_bounds_witness :
  Get "b" (run_calls wit_calls (newBackoff 100 500 (Fin 1 (-1)))) = 137 /\
  Get "a" (run_calls wit_calls (newBackoff 100 500 (Fin 1 (-1)))) <= 500.
Proof.
  split; [vm_compute; reflexivity|].
  exact (proj2 (backoff_jitter_bounds 100 500 500 (Fin 1 (-1)) wit_calls "a" 3 300 ltac:(lia) ltac:(lia) ltac:(lia)
    wit_jitter ltac:(vm_compute; reflexivity))).
Defined.

Lemma backoff_window_witness :
  IsInBackOffSinceUpdate "b" 103 (run_calls wit_calls (NewBackOff 100 500)) = true.
Proof.
  rewrite (proj1 (backoff_window 100 500 wit_calls "b" 103 0 ltac:(lia) ltac:(lia))).
  vm_compute. reflexivity.
Defined.

End witnesses.
