(* ===== verification/Parallelizer.v ===== *)
(** * The parallelizer

    util/workqueue/parallelizer.go: [ParallelizeUntil] cuts the pieces into chunks,
    puts the chunks into a channel and starts workers that take chunks from it.  The
    workers run concurrently: a step relation over the channel and the place of each
    worker in its loop, with a step of the caller that cancels the context.  A piece
    may panic; the deferred [HandleCrash] then ends the worker alone. *)

From S2P Require Import Prelude.

(** ** The code *)

Record options : Type := mkOptions { chunkSize : Z }.

Definition Options : Type := options -> options.

Definition WithChunkSize (c : Z) : Options := fun _ => mkOptions c.

Definition ceilDiv (a b : Z) : Z := Z.quot (wrap64 (wrap64 (a + b) - 1)) b.

(** Where a worker is: at the head of [range toProcess]; at the head of the loop over
    its chunk; inside [doWorkPiece(p)]; returned. *)
Inductive worker : Type :=
| WRecv
| WAt (p e : Z)
| WRun (p e : Z)
| WDone.

#[export] Instance worker_eq_dec : EqDecision worker.
Proof. solve_decision. Defined.

Record parallel : Type := mkPar {
  toProcess : list Z;
  pool : list worker;
  stop : bool;            (* the context is done *)
  panicked : bool;        (* some piece panicked *)
  started : list Z;       (* the calls of doWorkPiece *)
  finished : list Z       (* those that returned *)
}.

(** How a call starts: it returns or panics at once, or waits for its workers. *)
Inductive outcome : Type :=
| Returns
| Panics
| Runs (size : Z) (s : parallel).

Definition ParallelizeUntil (workers pieces : Z) (opts : list Options) : outcome :=
  if pieces =? 0 then Returns
  else
    let o := fold_left (fun o opt => opt o) opts (mkOptions 0) in
    let chunkSize := if chunkSize o <? 1 then 1 else chunkSize o in
    let chunks := ceilDiv pieces chunkSize in
    if chunks <? 0 then Panics   (* make(chan int, chunks) *)
    else
      let workers := if chunks <? workers then chunks else workers in
      if workers <? 0 then Panics   (* wg.Add(workers) *)
      else Runs chunkSize (mkPar (seqZ 0 chunks) (replicate (Z.to_nat workers) WRecv) false false [] []).

(** The bounds of a chunk. *)
Definition chunk_start (chunkSize chunk : Z) : Z := wrap64 (chunk * chunkSize).
Definition chunk_end (chunkSize pieces chunk : Z) : Z :=
  let e := wrap64 (chunk_start chunkSize chunk + chunkSize) in
  if pieces <? e then pieces else e.

(** One step of worker [i]; [ok] says whether the running piece returns. *)
Definition worker_step (chunkSize pieces : Z) (ok : bool) (i : nat) (s : parallel) : option parallel :=
  let go w ch pan st fi := Some (mkPar ch (<[i := w]> (pool s)) (stop s) pan st fi) in
  match pool s !! i with
  | Some WRecv =>
      match toProcess s with
      | [] => go WDone [] (panicked s) (started s) (finished s)
      | chunk :: ch =>
          go (WAt (chunk_start chunkSize chunk) (chunk_end chunkSize pieces chunk))
            ch (panicked s) (started s) (finished s)
      end
  | Some (WAt p e) =>
      if e <=? p then go WRecv (toProcess s) (panicked s) (started s) (finished s)
      else if stop s then go WDone (toProcess s) (panicked s) (started s) (finished s)
      else go (WRun p e) (toProcess s) (panicked s) (started s ++ [p]) (finished s)
  | Some (WRun p e) =>
      if ok then go (WAt (p + 1) e) (toProcess s) (panicked s) (started s) (finished s ++ [p])
      else go WDone (toProcess s) true (started s) (finished s)
  | Some WDone | None => None
  end.

(** [ctx] is whether the call got a context: without one nothing can stop it. *)
Inductive parallel_step (ctx : bool) (chunkSize pieces : Z) : parallel -> parallel -> Prop :=
| ps_worker ok i s s' : worker_step chunkSize pieces ok i s = Some s' -> parallel_step ctx chunkSize pieces s s'
| ps_cancel s : ctx = true -> stop s = false ->
    parallel_step ctx chunkSize pieces s
      (mkPar (toProcess s) (pool s) true (panicked s) (started s) (finished s)).

(** [wg.Wait()] returns. *)
Definition all_done (s : parallel) : Prop := Forall (fun w => w = WDone) (pool s).

(** ** Specification *)

(** The pieces of a chunk, and those a worker has yet to start. *)
Definition chunk_pieces (chunkSize pieces chunk : Z) : list Z :=
  seqZ (chunk * chunkSize) (Z.min (chunk * chunkSize + chunkSize) pieces - chunk * chunkSize).

Definition ahead (w : worker) : list Z :=
  match w with
  | WAt p e => seqZ p (e - p)
  | WRun p e => seqZ (p + 1) (e - (p + 1))
  | _ => []
  end.

Definition running (w : worker) : list Z := match w with WRun p _ => [p] | _ => [] end.

(** The steps a worker and the channel can still make. *)
Definition worker_fuel (w : worker) : Z :=
  match w with
  | WRecv => 1
  | WAt p e => 2 + 2 * Z.max 0 (e - p)
  | WRun p e => 1 + 2 * Z.max 1 (e - p)
  | WDone => 0
  end.

Definition fuel (chunkSize : Z) (s : parallel) : Z :=
  (if stop s then 0 else 1) + (2 + 2 * chunkSize) * Z.of_nat (length (toProcess s)) +
  foldr (fun w n => worker_fuel w + n) 0 (pool s).

(** ** Lemmas *)

Section chunks.
Variables (cs pieces : Z).
Hypothesis Hcs : 1 <= cs.
Hypothesis Hp : 0 <= pieces.
Hypothesis Hsum : pieces + cs <= MaxInt64.

Lemma ceilDiv_exact : ceilDiv pieces cs = (pieces + cs - 1) / cs.
Proof.
  unfold ceilDiv, MaxInt64 in *. rewrite (wrap64_id (pieces + cs)) by (unfold in_int64, MinInt64, MaxInt64; lia).
  rewrite wrap64_id by (unfold in_int64, MinInt64, MaxInt64; lia). apply Z.quot_div_nonneg; lia.
Qed.

(** The chunks are the fewest that hold all pieces. *)
Lemma ceilDiv_bounds :
  0 <= ceilDiv pieces cs /\ pieces <= ceilDiv pieces cs * cs /\ (ceilDiv pieces cs - 1) * cs < pieces.
Proof.
  rewrite ceilDiv_exact. pose proof (Z.div_mod (pieces + cs - 1) cs ltac:(lia)).
  pose proof (Z.mod_pos_bound (pieces + cs - 1) cs ltac:(lia)).
  pose proof (Z.div_pos (pieces + cs - 1) cs ltac:(lia) ltac:(lia)). nia.
Qed.

Lemma seqZ_split a n k : 0 <= n -> 0 <= k -> seqZ a (n + k) = seqZ a n ++ seqZ (a + n) k.
Proof. intros. apply seqZ_app; lia. Qed.

(** Laid end to end the chunks are all pieces in order. *)
Lemma chunks_prefix (k : nat) :
  (Z.of_nat k - 1) * cs < pieces ->
  concat (chunk_pieces cs pieces <$> seqZ 0 (Z.of_nat k)) = seqZ 0 (Z.min (Z.of_nat k * cs) pieces).
Proof.
  induction k as [|k IH]; intros Hk.
  { change (Z.of_nat 0 * cs) with 0. rewrite Z.min_l by lia. done. }
  replace (Z.of_nat (S k)) with (Z.of_nat k + 1) in * by lia.
  rewrite seqZ_split by lia. rewrite fmap_app, concat_app, IH by nia.
  rewrite (seqZ_cons _ 1), (seqZ_nil _ (Z.pred 1)) by lia. cbn [fmap list_fmap concat].
  rewrite Z.add_0_l, app_nil_r.
  unfold chunk_pieces. replace (Z.min (Z.of_nat k * cs) pieces) with (0 + Z.of_nat k * cs) by nia.
  rewrite <- (seqZ_split 0 (Z.of_nat k * cs)) by nia. f_equal. nia.
Qed.

Lemma chunks_all : concat (chunk_pieces cs pieces <$> seqZ 0 (ceilDiv pieces cs)) = seqZ 0 pieces.
Proof.
  destruct ceilDiv_bounds as (H0 & H1 & H2).
  rewrite <- (Z2Nat.id (ceilDiv pieces cs)) by done. rewrite chunks_prefix by (rewrite Z2Nat.id; lia).
  rewrite Z2Nat.id by done. f_equal. lia.
Qed.

Lemma chunk_bounds_exact c :
  0 <= c < ceilDiv pieces cs ->
  chunk_start cs c = c * cs /\ chunk_end cs pieces c = Z.min (c * cs + cs) pieces.
Proof.
  intros Hc. destruct ceilDiv_bounds as (H0 & H1 & H2). assert (0 <= c * cs < pieces) by nia.
  unfold chunk_start, chunk_end, chunk_start, MaxInt64 in *.
  rewrite !(wrap64_id (c * cs)) by (unfold in_int64, MinInt64, MaxInt64; lia). split; [done|].
  rewrite wrap64_id by (unfold in_int64, MinInt64, MaxInt64; lia). destruct (_ <? _) eqn:?; bool_to_prop; lia.
Qed.

End chunks.

(** *** One worker of the pool moves *)

Lemma concat_insert {A B} (f : A -> list B) l i w w' :
  l !! i = Some w ->
  exists k, concat (f <$> l) ≡ₚ f w ++ k /\ concat (f <$> <[i := w']> l) ≡ₚ f w' ++ k.
Proof.
  intros Hi. exists (concat (f <$> take i l) ++ concat (f <$> drop (S i) l)).
  rewrite <- (take_drop_middle l i w Hi) at 1.
  rewrite insert_take_drop by (by eapply lookup_lt_Some).
  rewrite !fmap_app, !fmap_cons, !concat_app. cbn. split; solve_Permutation.
Qed.

Lemma sum_insert {A} (g : A -> Z) l i w w' :
  l !! i = Some w ->
  foldr (fun w n => g w + n) 0 (<[i := w']> l) = foldr (fun w n => g w + n) 0 l - g w + g w'.
Proof.
  revert i. induction l as [|x l IH]; intros [|i] Hi; [done|done| |].
  - injection Hi as ->. cbn. lia.
  - specialize (IH i Hi). change (<[S i := w']> (x :: l)) with (x :: <[i := w']> l). cbn [foldr]. lia.
Qed.

Section reach.
Variables (ctx : bool) (cs pieces : Z).
Hypothesis Hcs : 1 <= cs.
Hypothesis Hp : 0 <= pieces.
Hypothesis Hsum : pieces + cs <= MaxInt64.

Definition clean (s : parallel) : Prop := stop s = false /\ panicked s = false.

(** Every piece is started, ahead of a worker, in the channel or dropped, and nothing
    is dropped without a cancellation or a panic. *)
Record parallel_ok (s : parallel) : Prop := {
  po_chunks : Forall (fun c => 0 <= c < ceilDiv pieces cs) (toProcess s);
  po_pieces : exists dropped,
    started s ++ concat (ahead <$> pool s) ++ concat (chunk_pieces cs pieces <$> toProcess s) ++ dropped
      ≡ₚ seqZ 0 pieces /\ (clean s -> dropped = []);
  po_started : exists lost,
    started s ≡ₚ finished s ++ concat (running <$> pool s) ++ lost /\ (panicked s = false -> lost = []);
  po_drained : clean s -> WDone ∈ pool s -> toProcess s = [];
  po_size : forall p e, WRun p e ∈ pool s -> p < e
}.

Lemma pool_insert (P : worker -> Prop) i w s :
  P w -> (forall w', w' ∈ pool s -> P w') -> forall w', w' ∈ <[i := w]> (pool s) -> P w'.
Proof.
  intros Hw Hs w' (j & Hj)%list_elem_of_lookup. apply list_lookup_insert_Some in Hj as [(-> & <- & _)|[_ Hj]]; [done|].
  by eapply Hs, list_elem_of_lookup_2.
Qed.

Lemma ahead_at p e : p < e -> seqZ p (e - p) = p :: seqZ (p + 1) (e - (p + 1)).
Proof. intros. rewrite seqZ_cons by lia. do 2 f_equal; lia. Qed.

(** What a move of worker [i] from [w] to [w'] must account for. *)
Lemma move_ok i w w' ch pan ds df d l s :
  parallel_ok s -> pool s !! i = Some w ->
  Forall (fun c => 0 <= c < ceilDiv pieces cs) ch ->
  ahead w ++ concat (chunk_pieces cs pieces <$> toProcess s)
    ≡ₚ ds ++ ahead w' ++ concat (chunk_pieces cs pieces <$> ch) ++ d ->
  ds ++ running w ≡ₚ df ++ running w' ++ l ->
  (d <> [] -> stop s = true \/ pan = true) -> (l <> [] -> pan = true) ->
  (panicked s = true -> pan = true) -> (toProcess s = [] -> ch = []) ->
  (w' = WDone -> stop s = false -> pan = false -> ch = []) ->
  (forall p e, w' = WRun p e -> p < e) ->
  parallel_ok (mkPar ch (<[i := w']> (pool s)) (stop s) pan (started s ++ ds) (finished s ++ df)).
Proof.
  intros [Hc (dropped & Hd & Hd0) (lost & Hl & Hl0) Hdr Hsz] Hi Hch Hah Hrun Hd1 Hl1 Hpan Hemp Hdone Hrn.
  destruct (concat_insert ahead (pool s) i w w' Hi) as (k & Hk & Hk').
  destruct (concat_insert running (pool s) i w w' Hi) as (r & Hr & Hr').
  assert (Hclean : forall st fi, clean (mkPar ch (<[i := w']> (pool s)) (stop s) pan st fi) -> clean s).
  { intros st fi []. split; [done|]. cbn in *. destruct (panicked s); [|done]. by rewrite Hpan in *. }
  constructor; cbn [toProcess pool stop panicked started finished].
  - done.
  - exists (d ++ dropped). split.
    + rewrite <- Hd, Hk, Hk'. rewrite <- !(assoc_L (++)).
      rewrite (assoc (++) (ahead w)), (Permutation_app_comm (ahead w) k), <- (assoc (++) k).
      rewrite (assoc (++) (ahead w)), Hah. solve_Permutation.
    + intros Hcl. rewrite Hd0 by eauto. rewrite app_nil_r. destruct Hcl as [Hst Hpn]. cbn in *.
      destruct d; [done|]. destruct Hd1; [done|congruence..].
  - exists (l ++ lost). split.
    + rewrite Hl, Hr, Hr'.
      transitivity (finished s ++ (ds ++ running w) ++ r ++ lost); [solve_Permutation|].
      rewrite Hrun. solve_Permutation.
    + intros Hpn. rewrite Hl0 by (destruct (panicked s); [by rewrite Hpan in Hpn|done]).
      destruct l; [done|]. by rewrite Hl1 in Hpn.
  - intros Hcl [j Hj]%list_elem_of_lookup. pose proof (Hclean _ _ Hcl). destruct Hcl as [Hst Hpn]. cbn in *.
    apply list_lookup_insert_Some in Hj as [(-> & Hw & _)|[_ Hj]]; [by apply Hdone|].
    apply Hemp, Hdr; [done|]. by eapply list_elem_of_lookup_2.
  - intros p e Hin.
    refine (pool_insert (fun w => forall p e, w = WRun p e -> p < e) i w' s Hrn _ _ Hin p e eq_refl).
    intros w0 Hw0 p0 e0 ->. eauto.
Qed.

Lemma worker_step_ok ok i s s' :
  parallel_ok s -> worker_step cs pieces ok i s = Some s' -> parallel_ok s'.
Proof.
  intros Hok Hs. unfold worker_step in Hs. destruct (pool s !! i) as [w|] eqn:Ei; [|done].
  pose proof (po_chunks s Hok) as Hc.
  assert (Hsz : forall p e, w = WRun p e -> p < e)
    by (intros p e ->; eapply po_size; [done|by eapply list_elem_of_lookup_2]).
  destruct w as [|p e|p e|]; [destruct (toProcess s) as [|chunk ch] eqn:Ech| | |done].
  - simplify_eq. rewrite <- (app_nil_r (started s)), <- (app_nil_r (finished s)).
    apply (move_ok i WRecv WDone [] (panicked s) [] [] [] []); rewrite ?Ech; try done.
  - simplify_eq. rewrite <- (app_nil_r (started s)), <- (app_nil_r (finished s)).
    inversion Hc as [|? ? Hchunk Hch]; subst.
    destruct (chunk_bounds_exact cs pieces Hcs Hp Hsum chunk Hchunk) as [-> ->].
    eapply (move_ok i WRecv (WAt _ _) ch (panicked s) [] [] [] []); rewrite ?Ech; try done.
    by rewrite app_nil_r.
  - destruct (e <=? p) eqn:Ee; [|destruct (stop s) eqn:Es]; simplify_eq; bool_to_prop.
    + rewrite <- (app_nil_r (started s)), <- (app_nil_r (finished s)).
      apply (move_ok i (WAt p e) WRecv (toProcess s) (panicked s) [] [] [] []); try done.
      cbn. by rewrite seqZ_nil, app_nil_r by lia.
    + rewrite <- Es, <- (app_nil_r (started s)), <- (app_nil_r (finished s)).
      apply (move_ok i (WAt p e) WDone (toProcess s) (panicked s) [] [] (ahead (WAt p e)) []); try done; auto; [|congruence].
      cbn. apply Permutation_app_comm.
    + rewrite <- Es, <- (app_nil_r (finished s)).
      apply (move_ok i (WAt p e) (WRun p e) (toProcess s) (panicked s) [p] [] [] []); try done.
      * cbn. rewrite ahead_at, app_nil_r by lia. done.
      * intros ? ? [=]. lia.
  - specialize (Hsz p e eq_refl). destruct ok; simplify_eq; rewrite <- (app_nil_r (started s)).
    + apply (move_ok i (WRun p e) (WAt (p + 1) e) (toProcess s) (panicked s) [] [p] [] []); try done.
      cbn. by rewrite app_nil_r.
    + rewrite <- (app_nil_r (finished s)).
      apply (move_ok i (WRun p e) WDone (toProcess s) true [] [] (ahead (WRun p e)) [p]); try done; auto.
      cbn. apply Permutation_app_comm.
Qed.

Lemma parallel_step_ok s s' : parallel_ok s -> parallel_step ctx cs pieces s s' -> parallel_ok s'.
Proof.
  intros Hok Hs. destruct Hs as [ok i s1 s2 Hs|s1 _ _]; [exact (worker_step_ok ok i s1 s2 Hok Hs)|]. destruct Hok as [Hc (d & Hd & _) (l & Hl & Hl0) _ Hsz].
  constructor; cbn; try done; [|by exists l|by intros []]. exists d. by split; [|intros []].
Qed.

Lemma initial_ok n :
  parallel_ok (mkPar (seqZ 0 (ceilDiv pieces cs)) (replicate n WRecv) false false [] []).
Proof.
  assert (Hnil : forall {A} (f : worker -> list A), f WRecv = [] -> concat (f <$> replicate n WRecv) = []).
  { intros A f Hf. induction n; cbn; by rewrite ?Hf. }
  assert (Hrecv : forall w, w ∈ replicate n WRecv -> w = WRecv) by (intros w []%elem_of_replicate; done).
  constructor; cbn [toProcess pool stop panicked started finished].
  - apply Forall_forall. intros c Hc%elem_of_seqZ. lia.
  - exists []. rewrite !(Hnil _ ahead), chunks_all by done. split; [|done]. by rewrite app_nil_r.
  - exists []. by rewrite (Hnil _ running).
  - intros _ ?%Hrecv. done.
  - intros p e ?%Hrecv. done.
Qed.

(** *** Termination *)

Lemma parallel_step_fuel s s' :
  parallel_ok s -> parallel_step ctx cs pieces s s' -> fuel cs s' < fuel cs s.
Proof.
  intros Hok Hs. destruct Hs as [ok i s1 s2 Hs|s1 _ Hst]; unfold fuel; cbn; [|rewrite Hst; lia].
  unfold worker_step in Hs. destruct (pool s1 !! i) as [w|] eqn:Ei; [|done].
  pose proof (po_chunks s1 Hok) as Hc.
  assert (Hsz : forall p e, w = WRun p e -> p < e)
    by (intros p e ->; eapply po_size; [done|by eapply list_elem_of_lookup_2]).
  pose proof (fun w' => sum_insert worker_fuel (pool s1) i w w' Ei) as Hsum'.
  destruct w as [|p e|p e|]; [destruct (toProcess s1) as [|chunk ch] eqn:Ech| | |done].
  - simplify_eq. cbn. rewrite Hsum'. cbn. lia.
  - simplify_eq. cbn [toProcess pool stop]. rewrite Hsum'. inversion Hc as [|? ? Hchunk Hch]; subst.
    destruct (chunk_bounds_exact cs pieces Hcs Hp Hsum chunk Hchunk) as [-> ->]. cbn [worker_fuel length]. nia.
  - destruct (e <=? p) eqn:Ee; [|destruct (stop s1) eqn:Es]; simplify_eq; bool_to_prop; cbn [toProcess pool stop];
      rewrite Hsum'; cbn [worker_fuel]; rewrite ?Es; lia.
  - specialize (Hsz p e eq_refl). destruct ok; simplify_eq; cbn [toProcess pool stop];
      rewrite Hsum'; cbn [worker_fuel]; lia.
Qed.

Lemma fuel_nonneg s : 0 <= fuel cs s.
Proof.
  unfold fuel. assert (0 <= foldr (fun w n => worker_fuel w + n) 0 (pool s)).
  { induction (pool s) as [|w l IH]; cbn; [done|]. destruct w; cbn; lia. }
  assert (0 <= (2 + 2 * cs) * Z.of_nat (length (toProcess s))) by nia. destruct (stop s); lia.
Qed.

Lemma steps_bounded n s s' :
  parallel_ok s -> nsteps (parallel_step ctx cs pieces) n s s' -> Z.of_nat n + fuel cs s' <= fuel cs s.
Proof.
  intros Hok Hn. induction Hn as [s|n s s1 s2 Hs Hn IH]; [lia|].
  pose proof (parallel_step_fuel s s1 Hok Hs). specialize (IH (parallel_step_ok s s1 Hok Hs)). lia.
Qed.

(** A worker that has not returned can move. *)
Lemma worker_can_move ok i s w :
  pool s !! i = Some w -> w <> WDone -> is_Some (worker_step cs pieces ok i s).
Proof.
  intros Hi Hw. unfold worker_step. rewrite Hi. destruct w; [|..|done]; repeat case_match; eauto.
Qed.

Lemma reach_ok s s' : parallel_ok s -> rtc (parallel_step ctx cs pieces) s s' -> parallel_ok s'.
Proof.
  intros Hok Hr. induction Hr as [s|s s1 s2 Hs _ IH]; [done|]. apply IH. by apply (parallel_step_ok s).
Qed.

End reach.

(** *** From the call *)

Lemma ParallelizeUntil_runs workers pieces opts size s :
  0 < pieces -> ParallelizeUntil workers pieces opts = Runs size s ->
  1 <= size /\ exists n, s = mkPar (seqZ 0 (ceilDiv pieces size)) (replicate n WRecv) false false [] [] /\
    Z.of_nat n = Z.min workers (ceilDiv pieces size) /\ 0 <= workers.
Proof.
  unfold ParallelizeUntil. intros Hp. destruct (pieces =? 0) eqn:E; bool_to_prop; [lia|].
  set (c := chunkSize _). set (k := if c <? 1 then 1 else c).
  assert (1 <= k) by (subst k; destruct (c <? 1) eqn:?; bool_to_prop; lia).
  destruct (ceilDiv pieces k <? 0) eqn:Ec; [done|].
  destruct ((if ceilDiv pieces k <? workers then ceilDiv pieces k else workers) <? 0) eqn:Ew; [done|].
  intros [= <- <-]. split; [done|]. eexists. split; [done|]. rewrite Z2Nat.id by (bool_to_prop; lia).
  destruct (ceilDiv pieces k <? workers) eqn:?; bool_to_prop; lia.
Qed.

Lemma started_of s pieces cs :
  parallel_ok cs pieces s -> NoDup (started s) /\ forall p, p ∈ started s -> 0 <= p < pieces.
Proof.
  intros Hok. destruct (po_pieces _ _ _ Hok) as (d & Hd & _). split.
  - pose proof (NoDup_seqZ 0 pieces) as Hnd. rewrite <- Hd in Hnd. by apply NoDup_app in Hnd as [? _].
  - intros p Hp. assert (p ∈ seqZ 0 pieces) as Hin%elem_of_seqZ; [|lia].
    rewrite <- Hd. apply elem_of_app. by left.
Qed.

Lemma running_bound (l : list worker) : (length (concat (running <$> l)) <= length l)%nat.
Proof.
  induction l as [|w l IH]; cbn; [done|]. rewrite length_app. destruct w; cbn; lia.
Qed.

Lemma pool_size ctx cs pieces s s' :
  rtc (parallel_step ctx cs pieces) s s' -> length (pool s') = length (pool s).
Proof.
  induction 1 as [|s s1 s2 Hs _ ->]; [done|]. destruct Hs as [ok i s s' Hs|]; [|done].
  unfold worker_step in Hs. repeat case_match; simplify_eq; cbn; by rewrite length_insert.
Qed.

(** When all workers have returned, undisturbed, nothing is left. *)
Lemma all_done_finished cs pieces s :
  parallel_ok cs pieces s -> clean s -> all_done s -> pool s <> [] -> finished s ≡ₚ seqZ 0 pieces.
Proof.
  intros Hok Hcl Hdone Hne. pose proof Hok as [_ (d & Hd & Hd0) (l & Hl & Hl0) Hdr _].
  assert (Hnil : forall (f : worker -> list Z), f WDone = [] -> concat (f <$> pool s) = []).
  { intros f Hf. clear -Hdone Hf. unfold all_done in Hdone. induction Hdone as [|w ws -> _ IH]; [done|].
    cbn. by rewrite Hf, IH. }
  rewrite (Hnil running), (Hl0 (proj2 Hcl)), !app_nil_r in Hl by done.
  rewrite (Hnil ahead), (Hd0 Hcl), Hdr, !app_nil_r in Hd; [by rewrite <- Hl|done| |done].
  destruct (pool s) as [|w ws] eqn:E; [done|]. unfold all_done in Hdone. rewrite E in Hdone.
  inversion Hdone; subst. left.
Qed.

(** ** Properties *)

(** C17: the parallel loop does what the sequential loop over the pieces does.  In
    every reachable state of a call, whatever the chunk size and the interleaving,
    no piece was started twice and none outside the pieces; at most [workers] run at
    once; once the context is done no piece is started.  When the workers have
    returned without that and without a panic, exactly the pieces were processed. *)
Theorem parallel_exactly_once ctx workers pieces opts size s0 s :
  0 < pieces -> ParallelizeUntil workers pieces opts = Runs size s0 -> pieces + size <= MaxInt64 ->
  rtc (parallel_step ctx size pieces) s0 s ->
  NoDup (started s) /\ (forall p, p ∈ started s -> 0 <= p < pieces) /\
  Z.of_nat (length (concat (running <$> pool s))) <= workers /\
  (stop s = true -> forall s', parallel_step ctx size pieces s s' -> started s' = started s) /\
  (0 < workers -> clean s -> all_done s -> finished s ≡ₚ seqZ 0 pieces).
Proof.
  intros Hp Hrun Hsum Hr. destruct (ParallelizeUntil_runs _ _ _ _ _ Hp Hrun) as (Hsz & n & -> & Hn & Hw).
  assert (Hok : parallel_ok size pieces s).
  { eapply (reach_ok ctx size pieces); [lia..| |done]. apply initial_ok; lia. }
  pose proof (pool_size _ _ _ _ _ Hr) as Hlen. cbn in Hlen. rewrite length_replicate in Hlen.
  split; [by eapply started_of|]. split; [by eapply started_of|].
  split; [pose proof (running_bound (pool s)); lia|]. split.
  - intros Hst s' Hs. destruct Hs as [ok i s s' Hs|]; [|done]. unfold worker_step in Hs.
    rewrite Hst in Hs. by repeat case_match; simplify_eq.
  - intros Hw0 Hcl Hdone. eapply all_done_finished; eauto. intros Hnil.
    rewrite Hnil in Hlen. cbn in Hlen. pose proof (ceilDiv_bounds size pieces Hsz ltac:(lia) Hsum). nia.
Qed.

(** The call returns.  If every piece returns or panics, the workers cannot get
    stuck and cannot go on for ever: a worker that has not returned can always move,
    and no run has more steps than a bound in the chunks and the workers. *)
Theorem parallel_terminates ctx workers pieces opts size s0 s n :
  0 < pieces -> ParallelizeUntil workers pieces opts = Runs size s0 -> pieces + size <= MaxInt64 ->
  nsteps (parallel_step ctx size pieces) n s0 s ->
  Z.of_nat n <= 1 + (2 + 2 * size) * ceilDiv pieces size + workers /\
  (all_done s \/ exists s', parallel_step ctx size pieces s s').
Proof.
  intros Hp Hrun Hsum Hr. destruct (ParallelizeUntil_runs _ _ _ _ _ Hp Hrun) as (Hsz & k & -> & Hn & Hw). split.
  - pose proof (steps_bounded ctx size pieces Hsz ltac:(lia) Hsum n _ s (initial_ok size pieces Hsz ltac:(lia) Hsum k) Hr) as Hb.
    pose proof (fuel_nonneg size Hsz s) as Hf. unfold fuel in Hb at 2. cbn in Hb.
    assert (Hrep : foldr (fun w n => worker_fuel w + n) 0 (replicate k WRecv) = Z.of_nat k).
    { clear. induction k as [|k IH]; [done|]. cbn [replicate foldr]. rewrite IH. cbn [worker_fuel]. lia. }
    pose proof (ceilDiv_bounds size pieces Hsz ltac:(lia) Hsum).
    rewrite Hrep, length_seqZ, Z2Nat.id in Hb by lia. lia.
  - unfold all_done. destruct (decide (Forall (fun w => w = WDone) (pool s))) as [|Hnot]; [by left|right].
    apply not_Forall_Exists in Hnot; [|intros w; apply _]. apply Exists_exists in Hnot as (w & [i Hi]%list_elem_of_lookup & Hw').
    destruct (worker_can_move size pieces true i s w Hi Hw') as [s' Hs']. exists s'. by eapply ps_worker.
Qed.

(** ** Witnesses *)

(** A run in which the listed workers move one after the other. *)
Fixpoint wit_run (l : list nat) (s : parallel) : option parallel :=
  match l with
  | [] => Some s
  | i :: l => s' ← worker_step 2 5 true i s; wit_run l s'
  end.

Lemma wit_run_nsteps l s s' :
  wit_run l s = Some s' -> nsteps (parallel_step false 2 5) (length l) s s'.
Proof.
  revert s. induction l as [|i l IH]; intros s Hs; cbn in Hs; [simplify_eq; constructor|].
  destruct (worker_step 2 5 true i s) as [s1|] eqn:E; [|done].
  eapply nsteps_l; [by apply (ps_worker _ _ _ true i)|]. by apply IH.
Qed.

(** Five pieces in chunks of two, by two workers. *)
Definition wit_p0 : parallel := mkPar [0; 1; 2] [WRecv; WRecv] false false [] [].

Definition wit_schedule : list nat :=
  [0; 1; 0; 1; 1; 0; 0; 1; 1; 1; 0; 0; 0; 0; 0; 0; 0; 1]%nat.

Definition wit_end : parallel := default wit_p0 (wit_run wit_schedule wit_p0).

Lemma wit_end_nsteps : nsteps (parallel_step false 2 5) 18 wit_p0 wit_end.
Proof. apply (wit_run_nsteps wit_schedule). vm_compute. reflexivity. Qed.

Lemma wit_end_done : all_done wit_end.
Proof. vm_compute. repeat constructor. Qed.

Lemma parallel_exactly_once_witness : finished wit_end ≡ₚ [0; 1; 2; 3; 4].
Proof.
  exact (proj2 (proj2 (proj2 (proj2 (parallel_exactly_once false 2 5 [WithChunkSize 2] 2 wit_p0 wit_end
    ltac:(lia) eq_refl ltac:(vm_compute; discriminate) (rtc_nsteps_2 18 _ _ wit_end_nsteps)))))
    ltac:(lia) (conj eq_refl eq_refl) wit_end_done).
Defined.

Lemma parallel_terminates_witness : Z.of_nat 18 <= 1 + (2 + 2 * 2) * ceilDiv 5 2 + 2.
Proof.
  exact (proj1 (parallel_terminates false 2 5 [WithChunkSize 2] 2 wit_p0 wit_end 18 ltac:(lia) eq_refl
    ltac:(vm_compute; discriminate) wit_end_nsteps)).
Defined.
