(* ===== verification/LeaderElection.v ===== *)
(** * Leader election

    tools/leaderelection/leaderelection.go over the lock of
    tools/leaderelection/resourcelock/leaselock.go.  This file has the code: the record
    and its conversions, the validation of a configuration, and one attempt to acquire
    or renew the lease.  [LeaderSafety] has the candidates as a concurrent system.

    An attempt talks to the API server twice, and other candidates act in between, so
    it is cut where it calls: [after_Get] runs from the answer to [Get] to the next
    call; what follows the answer to [Create] or [Update] is [setObservedRecord].  [now] is the clock at
    the start of the attempt and [clock] the clock when [setObservedRecord] reads it.
    The leases API and [json.Marshal] are outside the repository: [LeasesAPI],
    [RecordJSON].  Go's zero time is the origin of the axis of times. *)

From S2P Require Import Prelude Float64.
From stdpp Require Import pretty.
#[local] Open Scope Z_scope.

(** ** The record and the lease *)

Record LeaderElectionRecord : Type := mkRecord {
  HolderIdentity : string;
  LeaseDurationSeconds : Z;
  AcquireTime : Z;
  RenewTime : Z;
  LeaderTransitions : Z
}.

Definition zero_record : LeaderElectionRecord := mkRecord "" 0 0 0 0.

(** coordination/v1 LeaseSpec: its fields are pointers. *)
Record LeaseSpec : Type := mkSpec {
  spec_HolderIdentity : option string;
  spec_LeaseDurationSeconds : option Z;
  spec_AcquireTime : option Z;
  spec_RenewTime : option Z;
  spec_LeaseTransitions : option Z
}.

Record Lease : Type := mkLease { ResourceVersion : string; Spec : LeaseSpec }.

Definition LeaseSpecToLeaderElectionRecord (spec : LeaseSpec) : LeaderElectionRecord :=
  mkRecord
    (default "" (spec_HolderIdentity spec))
    (default 0 (spec_LeaseDurationSeconds spec))
    (default 0 (spec_AcquireTime spec))
    (default 0 (spec_RenewTime spec))
    (default 0 (spec_LeaseTransitions spec)).

Definition LeaderElectionRecordToLeaseSpec (ler : LeaderElectionRecord) : LeaseSpec :=
  mkSpec (Some (HolderIdentity ler)) (Some (wrap32 (LeaseDurationSeconds ler)))
    (Some (AcquireTime ler)) (Some (RenewTime ler)) (Some (wrap32 (LeaderTransitions ler))).

(** ** What lies outside *)

(** [json.Marshal] of a record: times are written in RFC 3339 with seconds, so two
    records with one encoding agree in all but fractions of a second. *)
Class RecordJSON : Type := {
  Marshal : LeaderElectionRecord -> string;
  Marshal_nonempty : forall r, Marshal r <> "";
  Marshal_inj : forall r r', Marshal r = Marshal r' ->
    HolderIdentity r = HolderIdentity r' /\ LeaseDurationSeconds r = LeaseDurationSeconds r' /\
    LeaderTransitions r = LeaderTransitions r' /\ RenewTime r / Second = RenewTime r' / Second
}.

(** A MicroTime loses what is below a microsecond on its way to the server. *)
Definition micro (t : Z) : Z := t / Microsecond * Microsecond.

Definition stored_spec (s : LeaseSpec) : LeaseSpec :=
  mkSpec (spec_HolderIdentity s) (spec_LeaseDurationSeconds s)
    (micro <$> spec_AcquireTime s) (micro <$> spec_RenewTime s) (spec_LeaseTransitions s).

(** The leases API of one object, with the optimistic concurrency the server documents:
    a lease is created only where there is none, an update succeeds only if the lease
    it carries has the current resource version, and every write gives a new one.
    [revision] is the order the server made the versions in; clients never use it. *)
Class LeasesAPI (Srv : Type) : Type := {
  api_Get : Srv -> option Lease;
  api_Create : LeaseSpec -> Srv -> option (Srv * Lease);
  api_Update : Lease -> Srv -> option (Srv * Lease);
  revision : string -> Z;
  api_Create_ok : forall spec s s' l, api_Create spec s = Some (s', l) ->
    api_Get s = None /\ api_Get s' = Some l /\ Spec l = stored_spec spec;
  api_Update_ok : forall l0 s s' l, api_Update l0 s = Some (s', l) ->
    exists c, api_Get s = Some c /\ ResourceVersion l0 = ResourceVersion c /\
      api_Get s' = Some l /\ Spec l = stored_spec (Spec l0) /\
      revision (ResourceVersion c) < revision (ResourceVersion l)
}.

(** ** Configuration *)

Record LeaderElectionConfig : Type := mkConfig {
  Lock : option string;   (* its identity *)
  LeaseDuration : Z;
  RenewDeadline : Z;
  RetryPeriod : Z;
  OnStartedLeading : bool;   (* the callbacks that are not nil *)
  OnStoppedLeading : bool;
  OnNewLeader : bool;
  ReleaseOnCancel : bool
}.

(** The float64 nearest to 1.2. *)
Definition JitterFactor : float64 := Fin 5404319552844595 (-52).

Record LeaderElector : Type := mkElector {
  config : LeaderElectionConfig;
  identity : string;                       (* config.Lock.Identity() *)
  lease : option Lease;                    (* the lease the lock keeps *)
  observedRecord : LeaderElectionRecord;
  observedRawRecord : string;
  observedTime : Z;
  reportedLeader : string
}.

Definition NewLeaderElector `{FloatConv} (lec : LeaderElectionConfig) : result unit LeaderElector :=
  if LeaseDuration lec <=? RenewDeadline lec then
    Err (Errorf "leaseDuration must be greater than renewDeadline" [])
  else if RenewDeadline lec <=? to_int64 (fmul JitterFactor (of_int64 (RetryPeriod lec))) then
    Err (Errorf "renewDeadline must be greater than retryPeriod*JitterFactor" [])
  else if LeaseDuration lec <? 1 then Err (Errorf "leaseDuration must be greater than zero" [])
  else if RenewDeadline lec <? 1 then Err (Errorf "renewDeadline must be greater than zero" [])
  else if RetryPeriod lec <? 1 then Err (Errorf "retryPeriod must be greater than zero" [])
  else if negb (OnStartedLeading lec) then Err (Errorf "OnStartedLeading callback must not be nil" [])
  else if negb (OnStoppedLeading lec) then Err (Errorf "OnStoppedLeading callback must not be nil" [])
  else
    match Lock lec with
    | None => Err (Errorf "Lock must not be nil." [])
    | Some id =>
        if decide (id = "") then Err (Errorf "Lock identity is empty" [])
        else Ok (mkElector lec id None zero_record "" 0 "")
    end.

(** ** One attempt *)

Section elector.
Context `{RecordJSON}.

Definition GetLeader (le : LeaderElector) : string := HolderIdentity (observedRecord le).

Definition IsLeader (le : LeaderElector) : bool :=
  bool_decide (HolderIdentity (observedRecord le) = identity le).

Definition setObservedRecord (clock : Z) (r : LeaderElectionRecord) (le : LeaderElector) : LeaderElector :=
  mkElector (config le) (identity le) (lease le) r (observedRawRecord le) clock (reportedLeader le).

Definition set_raw (raw : string) (le : LeaderElector) : LeaderElector :=
  mkElector (config le) (identity le) (lease le) (observedRecord le) raw (observedTime le) (reportedLeader le).

Definition set_lease (l : Lease) (le : LeaderElector) : LeaderElector :=
  mkElector (config le) (identity le) (Some l) (observedRecord le) (observedRawRecord le) (observedTime le)
    (reportedLeader le).

(** [LeaseLock.Get] once the server answered with a lease. *)
Definition LeaseLock_Get (l : Lease) (le : LeaderElector) : LeaderElectionRecord * string * LeaderElector :=
  let record := LeaseSpecToLeaderElectionRecord (Spec l) in
  (record, Marshal record, set_lease l le).

(** The lease [LeaseLock.Update] sends; it fails without one, and keeps the new spec
    whatever the server answers. *)
Definition LeaseLock_Update (ler : LeaderElectionRecord) (le : LeaderElector) : option (Lease * LeaderElector) :=
  match lease le with
  | None => None
  | Some l =>
      let l := mkLease (ResourceVersion l) (LeaderElectionRecordToLeaseSpec ler) in
      Some (l, set_lease l le)
  end.

(** [LeaseLock.Create] keeps what the client returned, with an error an empty lease. *)
Definition empty_lease : Lease := mkLease "" (mkSpec None None None None None).

Definition LeaseLock_Create (answer : option Lease) (le : LeaderElector) : LeaderElector :=
  set_lease (default empty_lease answer) le.

(** What the attempt does next: return, or call [Create] or [Update]. *)
Inductive action : Type :=
| Return (b : bool)
| Create (r : LeaderElectionRecord)
| Update (r : LeaderElectionRecord).

(** What [Lock.Get] returned. *)
Inductive got : Type :=
| GotLease (l : Lease)
| GotNotFound
| GotError.

Definition new_record (now : Z) (le : LeaderElector) : LeaderElectionRecord :=
  mkRecord (identity le) (Z.quot (LeaseDuration (config le)) Second) now now 0.

(** Step 2 of the attempt: the record and when it was first seen. *)
Definition observe (clock : Z) (old : LeaderElectionRecord) (raw : string) (le : LeaderElector) : LeaderElector :=
  if decide (observedRawRecord le = raw) then le
  else set_raw raw (setObservedRecord clock old le).

Definition held_by_other (now : Z) (old : LeaderElectionRecord) (le : LeaderElector) : bool :=
  (0 <? Z.of_nat (String.length (HolderIdentity old))) &&
  (now <? observedTime le + wrap64 (Second * LeaseDurationSeconds old)) &&
  negb (IsLeader le).

Definition after_Get (now clock : Z) (res : got) (le : LeaderElector) : action * LeaderElector :=
  match res with
  | GotError => (Return false, le)
  | GotNotFound => (Create (new_record now le), le)
  | GotLease l =>
      let '(old, raw, le) := LeaseLock_Get l le in
      let le := observe clock old raw le in
      if held_by_other now old le then (Return false, le)
      else
        let r := new_record now le in
        let r :=
          if IsLeader le then
            mkRecord (HolderIdentity r) (LeaseDurationSeconds r) (AcquireTime old) (RenewTime r)
              (LeaderTransitions old)
          else
            mkRecord (HolderIdentity r) (LeaseDurationSeconds r) (AcquireTime r) (RenewTime r)
              (LeaderTransitions old + 1) in
        (Update r, le)
  end.

Definition maybeReportTransition (le : LeaderElector) : bool * LeaderElector :=
  if decide (HolderIdentity (observedRecord le) = reportedLeader le) then (false, le)
  else (OnNewLeader (config le),
        mkElector (config le) (identity le) (lease le) (observedRecord le) (observedRawRecord le)
          (observedTime le) (HolderIdentity (observedRecord le))).

(** Whether [Check] reports a leader that failed to renew. *)
Definition Check_fails (now maxTolerableExpiredLease : Z) (le : LeaderElector) : bool :=
  IsLeader le &&
  (wrap64 (LeaseDuration (config le) + maxTolerableExpiredLease) <? time_sub now (observedTime le)).

(** The record [release] writes, when it writes one. *)
Definition release_record (now : Z) (le : LeaderElector) : option LeaderElectionRecord :=
  if IsLeader le then Some (mkRecord "" 1 now now (LeaderTransitions (observedRecord le))) else None.

(** *** An attempt no other candidate interferes with *)

Context {Srv : Type} `{LeasesAPI Srv}.

(** Writing: the result, the elector and the server. *)
Definition write_Create (clock : Z) (r : LeaderElectionRecord) (le : LeaderElector) (s : Srv)
    : bool * LeaderElector * Srv :=
  match api_Create (LeaderElectionRecordToLeaseSpec r) s with
  | None => (false, LeaseLock_Create None le, s)
  | Some (s, l) => (true, setObservedRecord clock r (LeaseLock_Create (Some l) le), s)
  end.

Definition write_Update (clock : Z) (r : LeaderElectionRecord) (le : LeaderElector) (s : Srv)
    : bool * LeaderElector * Srv :=
  match LeaseLock_Update r le with
  | None => (false, le, s)
  | Some (l, le) =>
      match api_Update l s with
      | None => (false, le, s)
      | Some (s, l) => (true, setObservedRecord clock r (set_lease l le), s)
      end
  end.

(** [reads] is whether the server can be read. *)
Definition tryAcquireOrRenew (reads : bool) (now clock clock' : Z) (le : LeaderElector) (s : Srv)
    : bool * LeaderElector * Srv :=
  let res := if reads then match api_Get s with Some l => GotLease l | None => GotNotFound end else GotError in
  let '(a, le) := after_Get now clock res le in
  match a with
  | Return b => (b, le, s)
  | Create r => write_Create clock' r le s
  | Update r => write_Update clock' r le s
  end.

Definition release (now clock : Z) (le : LeaderElector) (s : Srv) : bool * LeaderElector * Srv :=
  match release_record now le with
  | None => (true, le, s)
  | Some r => write_Update clock r le s
  end.

End elector.

(** ** Lemmas *)

Lemma wrap32_fixed z : wrap32 z = z <-> - 2 ^ 31 <= z < 2 ^ 31.
Proof.
  split; [|apply wrap32_id]. unfold wrap32. pose proof (Z.mod_pos_bound (z + 2 ^ 31) (2 ^ 32)). lia.
Qed.

(** Cutting below a microsecond leaves the second. *)
Lemma micro_second t : micro t / Second = t / Second.
Proof.
  unfold micro. change Second with (Microsecond * 1000000). rewrite <- !Z.div_div by done.
  by rewrite Z.div_mul.
Qed.

Lemma observed_identity `{RecordJSON} clock old raw le : identity (observe clock old raw le) = identity le.
Proof. unfold observe. by case_decide. Qed.

(** A product of 1.2 and a duration below 2^52 is at least the duration. *)
Lemma JitterFactor_mul `{FloatConv} d :
  0 < d < 2 ^ 52 -> d <= to_int64 (fmul JitterFactor (of_int64 d)).
Proof.
  intros Hd. rewrite of_int64_exact by lia. unfold JitterFactor. cbn [fmul].
  set (M := 5404319552844595 * d). assert (HM : 2 ^ 52 * d <= M < 2 ^ 105) by (subst M; lia).
  assert (Hlog : 0 <= Z.log2 M < 105) by (split; [apply Z.log2_nonneg|apply Z.log2_lt_pow2; lia]).
  unfold round64. replace (M =? 0) with false by (symmetry; apply Z.eqb_neq; lia).
  set (s := drop_bits M (-52 + 0)). assert (Hs : 0 <= s <= 52).
  { subst s. unfold drop_bits. rewrite Z.abs_eq by lia. lia. }
  clearbody s. assert (H2 : 1 <= 2 ^ s) by (pose proof (Z.pow_pos_nonneg 2 s); lia).
  pose proof (div_ne_floor M (2 ^ s)) as Hq. set (m := div_ne M (2 ^ s)) in *.
  assert (Hm : 0 <= M / 2 ^ s <= M) by (split; [apply Z.div_pos; lia|apply Z.div_le_upper_bound; nia]).
  assert (Hlm : Z.log2 (Z.abs m) < 106).
  { rewrite Z.abs_eq by lia. destruct (Z.eq_dec m 0) as [->|]; [done|]. apply Z.log2_lt_pow2; lia. }
  replace (1024 <=? Z.log2 (Z.abs m) + (-52 + 0 + s)) with false by (symmetry; apply Z.leb_gt; lia).
  rewrite andb_false_r. unfold to_int64.
  assert (Htr : trunc m (-52 + 0 + s) = m / 2 ^ (52 - s)).
  { unfold trunc. destruct (0 <=? -52 + 0 + s) eqn:E; bool_to_prop.
    - replace s with 52 by lia. by rewrite Z.mul_1_r, Z.div_1_r.
    - replace (- (-52 + 0 + s)) with (52 - s) by lia. apply Z.quot_div_nonneg; [lia|].
      apply Z.pow_pos_nonneg; lia. }
  rewrite Htr. assert (Hpow : 2 ^ s * 2 ^ (52 - s) = 2 ^ 52) by (rewrite <- Z.pow_add_r by lia; f_equal; lia).
  assert (Hp2 : 0 < 2 ^ (52 - s)) by (apply Z.pow_pos_nonneg; lia).
  assert (Hlow : d <= M / 2 ^ s / 2 ^ (52 - s)).
  { rewrite Z.div_div, Hpow by lia. apply Z.div_le_lower_bound; lia. }
  assert (Hmono : M / 2 ^ s / 2 ^ (52 - s) <= m / 2 ^ (52 - s)) by (apply Z.div_le_mono; lia).
  assert (Hup : m / 2 ^ (52 - s) < 2 ^ 54).
  { apply Z.div_lt_upper_bound; [done|]. assert (M / 2 ^ s < 2 ^ (52 - s) * 2 ^ 53).
    - apply Z.div_lt_upper_bound; [lia|]. rewrite Z.mul_assoc, Hpow. lia.
    - lia. }
  rewrite (proj2 (in_int64b_spec _)); [lia|]. unfold in_int64, MinInt64, MaxInt64. lia.
Qed.

(** What a call of [Update] does to an elector and the server. *)
Lemma write_Update_spec `{RecordJSON} `{LeasesAPI Srv} clock r le s b le' s' :
  write_Update clock r le s = (b, le', s') ->
  if b then
    observedRecord le' = r /\ observedTime le' = clock /\ identity le' = identity le /\ config le' = config le /\
    exists l, lease le' = Some l /\ api_Get s' = Some l /\
      Spec l = stored_spec (LeaderElectionRecordToLeaseSpec r)
  else s' = s /\ observedRecord le' = observedRecord le.
Proof.
  unfold write_Update, LeaseLock_Update. destruct (lease le) as [l|]; [|by intros; simplify_eq].
  destruct (api_Update _ s) as [[s1 l1]|] eqn:E; intros; simplify_eq; [|done].
  apply api_Update_ok in E as (c & _ & _ & Hg & Hsp & _). cbn. eauto 10.
Qed.

(** ** Properties *)

(** A record survives the lease exactly when its two integers fit an int32.  The
    lock writes records into leases and reads them back; nothing else is lost, and a
    lease duration of 2^31 seconds or a 2^31st transition would be. *)
Theorem record_spec_roundtrip r :
  LeaseSpecToLeaderElectionRecord (LeaderElectionRecordToLeaseSpec r) = r <->
  - 2 ^ 31 <= LeaseDurationSeconds r < 2 ^ 31 /\ - 2 ^ 31 <= LeaderTransitions r < 2 ^ 31.
Proof.
  rewrite <- !wrap32_fixed. destruct r as [h d a n t].
  unfold LeaseSpecToLeaderElectionRecord, LeaderElectionRecordToLeaseSpec. cbn. split.
  - intros Heq. injection Heq as Hd Ht. done.
  - by intros [-> ->].
Qed.

(** What a validated configuration guarantees.  An elector is made exactly if the
    lease outlasts the deadline, the deadline exceeds the jittered retry period as
    float64 computes it, the retry period is positive, the two callbacks are there and
    the lock has an identity; then, for retry periods below 52 days, rounding cannot
    undo 0 < RetryPeriod < RenewDeadline < LeaseDuration, and the elector has observed
    nothing and does not lead. *)
Theorem NewLeaderElector_validates `{FloatConv} lec :
  (is_ok (NewLeaderElector lec) = true <->
     RenewDeadline lec < LeaseDuration lec /\
     to_int64 (fmul JitterFactor (of_int64 (RetryPeriod lec))) < RenewDeadline lec /\
     1 <= LeaseDuration lec /\ 1 <= RenewDeadline lec /\ 1 <= RetryPeriod lec /\
     OnStartedLeading lec = true /\ OnStoppedLeading lec = true /\
     exists id, Lock lec = Some id /\ id <> "") /\
  (forall le, NewLeaderElector lec = Ok le -> RetryPeriod lec < 2 ^ 52 ->
     0 < RetryPeriod lec /\ RetryPeriod lec < RenewDeadline lec /\ RenewDeadline lec < LeaseDuration lec /\
     config le = lec /\ Lock lec = Some (identity le) /\ IsLeader le = false).
Proof.
  unfold NewLeaderElector.
  destruct (LeaseDuration lec <=? RenewDeadline lec) eqn:E1; [bool_to_prop; split; [split; [done|lia]|done]|].
  destruct (RenewDeadline lec <=? _) eqn:E2; [bool_to_prop; split; [split; [done|lia]|done]|].
  destruct (LeaseDuration lec <? 1) eqn:E3; [bool_to_prop; split; [split; [done|lia]|done]|].
  destruct (RenewDeadline lec <? 1) eqn:E4; [bool_to_prop; split; [split; [done|lia]|done]|].
  destruct (RetryPeriod lec <? 1) eqn:E5; [bool_to_prop; split; [split; [done|lia]|done]|].
  destruct (OnStartedLeading lec); [|split; [split; [done|naive_solver]|done]].
  destruct (OnStoppedLeading lec); [|split; [split; [done|naive_solver]|done]]. cbn [negb].
  destruct (Lock lec) as [id|]; [|split; [split; [done|naive_solver]|done]].
  destruct (decide (id = "")) as [->|Hid]; [split; [split; [done|naive_solver]|done]|].
  bool_to_prop. split; [split; [intros _|done]; eauto 12|].
  intros le [= <-] Hr. pose proof (JitterFactor_mul (RetryPeriod lec)) as HJ.
  split; [lia|]. split; [lia|]. split; [lia|]. split; [done|]. split; [done|].
  unfold IsLeader. cbn. apply bool_decide_eq_false. congruence.
Qed.

(** What an attempt that returns true has done, and when it may.  If no other
    candidate acts during an attempt that succeeds, the server holds the record it
    wrote: its identity, its lease duration in whole seconds, renewed at the start of
    the attempt; a leader keeps the acquire time and the transitions, anyone else
    counts a transition, and got there only because the lease was free or it has seen
    the same record for the lease's duration.  A failed attempt leaves the server as
    it was. *)
Theorem tryAcquireOrRenew_outcome `{RecordJSON} `{LeasesAPI Srv} reads now clock clock' le s b le' s' :
  tryAcquireOrRenew reads now clock clock' le s = (b, le', s') ->
  (forall l, api_Get s = Some l -> - 2 ^ 31 <= LeaseDurationSeconds (LeaseSpecToLeaderElectionRecord (Spec l)) < 2 ^ 31) ->
  if b then
    let r := observedRecord le' in
    (exists l, lease le' = Some l /\ api_Get s' = Some l /\ Spec l = stored_spec (LeaderElectionRecordToLeaseSpec r)) /\
    IsLeader le' = true /\ observedTime le' = clock' /\ identity le' = identity le /\
    LeaseDurationSeconds r = Z.quot (LeaseDuration (config le)) Second /\ RenewTime r = now /\
    match api_Get s with
    | None => AcquireTime r = now /\ LeaderTransitions r = 0
    | Some l =>
        let old := LeaseSpecToLeaderElectionRecord (Spec l) in
        let seen := observe clock old (Marshal old) (set_lease l le) in
        if IsLeader seen then AcquireTime r = AcquireTime old /\ LeaderTransitions r = LeaderTransitions old
        else
          (HolderIdentity old = "" \/ observedTime seen + Second * LeaseDurationSeconds old <= now) /\
          AcquireTime r = now /\ LeaderTransitions r = LeaderTransitions old + 1
    end
  else s' = s.
Proof.
  unfold tryAcquireOrRenew. intros Hrun Hint. destruct reads; [|by cbn in Hrun; simplify_eq].
  destruct (api_Get s) as [l|] eqn:El; cbn [after_Get LeaseLock_Get] in Hrun.
  - specialize (Hint l eq_refl). set (old := LeaseSpecToLeaderElectionRecord (Spec l)) in *.
    set (seen := observe clock old (Marshal old) (set_lease l le)) in *.
    assert (Hseen : identity seen = identity le /\ config seen = config le).
    { subst seen. unfold observe. by case_decide. }
    destruct (held_by_other now old seen) eqn:Eh; [by simplify_eq|].
    apply write_Update_spec in Hrun. destruct b; [|apply Hrun].
    destruct Hrun as (Hr & Ht & Hid & Hcfg & Hl). cbn zeta. rewrite Hr. destruct Hseen as [Hsi Hsc].
    split; [exact Hl|]. split.
    { unfold IsLeader. rewrite Hr, Hid. apply bool_decide_eq_true. by destruct (IsLeader seen). }
    split; [done|]. split; [congruence|]. rewrite <- Hsc.
    destruct (IsLeader seen) eqn:Ele; (split; [done|]; split; [done|]); [done|].
    split; [|done]. unfold held_by_other in Eh. rewrite Ele, andb_true_r in Eh. bool_to_prop.
    destruct Eh as [Eh|Eh]; bool_to_prop; [left|right].
    + destruct (HolderIdentity old); [done|cbn in Eh; lia].
    + rewrite wrap64_id in Eh; [lia|]. unfold in_int64, MinInt64, MaxInt64, Second, Millisecond, Microsecond, Nanosecond. lia.
  - unfold write_Create in Hrun. destruct (api_Create _ s) as [[s1 l1]|] eqn:E; simplify_eq; [|done].
    apply api_Create_ok in E as (_ & Hg & Hsp). cbn. split; [eauto|]. split; [|done].
    by apply bool_decide_eq_true.
Qed.

(** ** Witnesses *)

(** A server whose n-th write makes the resource version of n letters. *)
Definition wit_server : Type := option Lease.

#[export] Program Instance wit_api : LeasesAPI wit_server := {|
  api_Get := fun s => s;
  api_Create := fun spec s =>
    match s with
    | Some _ => None
    | None => let l := mkLease "v" (stored_spec spec) in Some (Some l, l)
    end;
  api_Update := fun l0 s =>
    match s with
    | None => None
    | Some c =>
        if decide (ResourceVersion l0 = ResourceVersion c) then
          let l := mkLease (String.append "v" (ResourceVersion c)) (stored_spec (Spec l0)) in Some (Some l, l)
        else None
    end;
  revision := fun v => Z.of_nat (String.length v)
|}.
Next Obligation. intros spec [c|] s' l Hl; cbn in Hl; [done|]. by simplify_eq. Qed.
Next Obligation.
  intros l0 [c|] s' l Hl; [|done]. cbn in Hl. case_decide; simplify_eq. exists c. cbn.
  repeat (split; [done|]).
  change (String.length ("v" +:+ ResourceVersion c)) with (Datatypes.S (String.length (ResourceVersion c))). lia.
Qed.

(** The encoding writes the second of the renew time and drops the acquire time. *)
#[export] Program Instance wit_json : RecordJSON := {|
  Marshal := fun r => String.append "r" (pretty (Npos (encode
    (HolderIdentity r, LeaseDurationSeconds r, LeaderTransitions r, RenewTime r / Second))))
|}.
Next Obligation. done. Qed.
Next Obligation.
  intros r r' Hr. cbn in Hr. apply (inj (String.append "r")), (inj pretty) in Hr. injection Hr as Hr.
  apply (inj encode) in Hr. by simplify_eq.
Qed.

Definition wit_config : LeaderElectionConfig :=
  mkConfig (Some "a") (15 * Second) (10 * Second) (2 * Second) true true false true.

Definition wit_elector : LeaderElector := mkElector wit_config "a" None zero_record "" 0 "".

Lemma NewLeaderElector_validates_witness :
  RetryPeriod wit_config < RenewDeadline wit_config /\ IsLeader wit_elector = false.
Proof.
  destruct (proj2 (@NewLeaderElector_validates amd64_conv wit_config) wit_elector ltac:(vm_compute; reflexivity)
    ltac:(vm_compute; reflexivity)) as (_ & Hr & _ & _ & _ & Hl). split; [exact Hr|exact Hl].
Defined.

(** "b" held the lease, silent since it was seen at time 0. *)
Definition wit_held : wit_server :=
  Some (mkLease "v" (LeaderElectionRecordToLeaseSpec (mkRecord "b" 15 7 7 3))).

Definition wit_seen : LeaderElector :=
  (tryAcquireOrRenew true 10 20 30 wit_elector wit_held).1.2.

Lemma tryAcquireOrRenew_outcome_witness :
  let '(b, le', s') := tryAcquireOrRenew true (16 * Second) (16 * Second + 1) (16 * Second + 2) wit_seen wit_held in
  b = true /\ IsLeader le' = true.
Proof.
  destruct (tryAcquireOrRenew true (16 * Second) (16 * Second + 1) (16 * Second + 2) wit_seen wit_held)
    as [[b le'] s'] eqn:E.
  assert (b = true) as -> by (vm_compute in E; injection E as <- <- <-; reflexivity).
  split; [reflexivity|].
  exact (proj1 (proj2 (tryAcquireOrRenew_outcome true _ _ _ _ _ _ _ _ E
    ltac:(intros l Hl; injection Hl as <-; vm_compute; split; [discriminate|reflexivity])))).
Defined.
