(* ===== verification/LeaderSafety.v ===== *)
(** * Leader election: at most one leader

    The candidates of tools/leaderelection as a system in time.  Each runs
    [LeaderElector.Run]: [acquire], then [renew] until it fails or is cancelled, then
    [release] if configured.  Candidates have clocks of their own; requests and answers
    travel for any time, may be lost, and a request its sender gave up on may still
    reach the server.

    A state change of a candidate is an [event]: the start of an attempt, the server
    reading for [Get], the code of [after_Get], the server writing, the answer
    arriving.  [JitterUntil] and [PollImmediateUntil] decide when attempts start; here
    an attempt may start at any time while the candidate acquires or renews.

    The package does not promise that there is one leader, and the steps of the system do
    not make it so: time may pass and answers may come at any moment.  What it takes is
    a hypothesis on a run, [prompt_run]: processes are scheduled, so that a candidate leaves
    [renew] by its deadline and a pause by its end ([timely]), and an answer that makes a
    candidate leader reaches it within [Latency] of the attempt's start.  The
    contexts of [renew] enforce this for the calls they bound; [acquire] has no
    such bound, so there it is an assumption about the network, and
    [late_answer_two_leaders] shows that it is needed. *)

From S2P Require Import Prelude Float64 LeaderElection.

Section system.
Context `{RecordJSON} {Srv : Type} `{LeasesAPI Srv}.

(** What the clock of a candidate shows at a point of real time. *)
Variable clk : nat -> Z -> Z.

Inductive phase : Type :=
| Acquiring
| Renewing (start : Z)   (* in [PollImmediateUntil], its context made at [start] *)
| Pausing (until : Z)    (* between two turns of [wait.Until] *)
| Releasing
| Stopped.

#[export] Instance phase_eq_dec : EqDecision phase.
Proof. solve_decision. Defined.

(** A write on its way: [carried] is the lease of an [Update], none for a [Create]. *)
Record request : Type := mkRequest {
  sender : nat;
  started : Z;
  written : LeaderElectionRecord;
  carried : option Lease
}.

Inductive attempt : Type :=
| Idle
| Getting (now : Z)
| Answered (now : Z) (res : got)
| Writing (req : request)
| Written (req : request) (l : Lease).

Record candidate : Type := mkCandidate { elector : LeaderElector; ph : phase; att : attempt }.

Record system : Type := mkSystem {
  time : Z;
  server : Srv;
  candidates : list candidate;
  late : list request   (* given up by their senders, still on their way *)
}.

Definition serve (req : request) (s : Srv) : option (Srv * Lease) :=
  match carried req with
  | None => api_Create (LeaderElectionRecordToLeaseSpec (written req)) s
  | Some l => api_Update l s
  end.

(** [Run] considers itself the leader. *)
Definition leading (c : candidate) : bool :=
  match ph c with Renewing _ | Pausing _ => true | _ => false end.

Inductive event : Type :=
| Elapse (t : Z)
| Begin (i : nat)
| Read (i : nat) (ok : bool)
| Process (i : nat)
| Apply (i : nat)
| Fails (i : nat) (lost : bool)
| Respond (i : nat)
| ResponseLost (i : nat)
| Late (k : nat)
| Resume (i : nat)
| GiveUp (i : nat)
| Release (i : nat).

Definition put (i : nat) (c : candidate) (st : system) : system :=
  mkSystem (time st) (server st) (<[i := c]> (candidates st)) (late st).

(** The start of an attempt. *)
Definition begin_attempt (now : Z) (c : candidate) : option candidate :=
  match ph c, att c with
  | (Acquiring | Renewing _), Idle => Some (mkCandidate (elector c) (ph c) (Getting now))
  | _, _ => None
  end.

(** From the answer of [Get] to the next call. *)
Definition process (i : nat) (clock : Z) (c : candidate) : option candidate :=
  match att c with
  | Answered now res =>
      let '(a, le) := after_Get now clock res (elector c) in
      match a with
      | Return _ => Some (mkCandidate le (ph c) Idle)
      | Create r => Some (mkCandidate le (ph c) (Writing (mkRequest i now r None)))
      | Update r =>
          match LeaseLock_Update r le with
          | None => Some (mkCandidate le (ph c) Idle)
          | Some (l, le) => Some (mkCandidate le (ph c) (Writing (mkRequest i now r (Some l))))
          end
      end
  | _ => None
  end.

(** The call of [Create] or [Update] returns an error. *)
Definition write_fails (c : candidate) : option (request * candidate) :=
  match att c with
  | Writing req =>
      let le := match carried req with None => LeaseLock_Create None (elector c) | Some _ => elector c end in
      Some (req, mkCandidate le (ph c) Idle)
  | _ => None
  end.

(** It returns no error: the attempt, or [release], succeeded. *)
Definition write_succeeds (clock : Z) (c : candidate) : option candidate :=
  match att c with
  | Written req l =>
      let le := setObservedRecord clock (written req) (set_lease l (elector c)) in
      let p := match ph c with
               | Acquiring => Renewing clock
               | Renewing _ => Pausing (clock + RetryPeriod (config le))
               | p => p
               end in
      Some (mkCandidate le p Idle)
  | _ => None
  end.

(** The context is cancelled, or the deadline of a renewal passed. *)
Definition abandon (c : candidate) : option candidate :=
  match ph c, att c with
  | Acquiring, Idle => Some (mkCandidate (elector c) Stopped Idle)
  | (Renewing _ | Pausing _), Idle =>
      Some (mkCandidate (elector c) (if ReleaseOnCancel (config (elector c)) then Releasing else Stopped) Idle)
  | _, _ => None
  end.

Definition begin_release (i : nat) (now : Z) (c : candidate) : option candidate :=
  match ph c, att c with
  | Releasing, Idle =>
      match release_record now (elector c) with
      | None => Some (mkCandidate (elector c) Stopped Idle)
      | Some r =>
          match LeaseLock_Update r (elector c) with
          | None => Some (mkCandidate (elector c) Stopped Idle)
          | Some (l, le) => Some (mkCandidate le Stopped (Writing (mkRequest i now r (Some l))))
          end
      end
  | _, _ => None
  end.

Definition on_candidate (i : nat) (st : system) (f : candidate -> option candidate) : option system :=
  c ← candidates st !! i; c' ← f c; Some (put i c' st).

Definition step (e : event) (st : system) : option system :=
  match e with
  | Elapse t =>
      if time st <=? t then Some (mkSystem t (server st) (candidates st) (late st)) else None
  | Begin i => on_candidate i st (begin_attempt (clk i (time st)))
  | Read i ok =>
      on_candidate i st (fun c =>
        match att c with
        | Getting now =>
            let res := if ok then match api_Get (server st) with Some l => GotLease l | None => GotNotFound end
                       else GotError in
            Some (mkCandidate (elector c) (ph c) (Answered now res))
        | _ => None
        end)
  | Process i => on_candidate i st (process i (clk i (time st)))
  | Apply i =>
      c ← candidates st !! i;
      match att c with
      | Writing req =>
          '(s, l) ← serve req (server st);
          Some (mkSystem (time st) s (<[i := mkCandidate (elector c) (ph c) (Written req l)]> (candidates st))
                  (late st))
      | _ => None
      end
  | Fails i lost =>
      c ← candidates st !! i;
      '(req, c) ← write_fails c;
      Some (mkSystem (time st) (server st) (<[i := c]> (candidates st)) (if lost then req :: late st else late st))
  | Respond i => on_candidate i st (write_succeeds (clk i (time st)))
  | ResponseLost i =>
      on_candidate i st (fun c =>
        match att c with
        | Written _ _ => Some (mkCandidate (elector c) (ph c) Idle)
        | _ => None
        end)
  | Late k =>
      req ← late st !! k;
      '(s, _) ← serve req (server st); Some (mkSystem (time st) s (candidates st) (late st))
  | Resume i =>
      on_candidate i st (fun c =>
        match ph c, att c with
        | Pausing _, Idle => Some (mkCandidate (elector c) (Renewing (clk i (time st))) Idle)
        | _, _ => None
        end)
  | GiveUp i => on_candidate i st abandon
  | Release i => on_candidate i st (begin_release i (clk i (time st)))
  end.

Fixpoint run (es : list event) (st : system) : option system :=
  match es with
  | [] => Some st
  | e :: es => st ← step e st; run es st
  end.

(** *** Promptness *)

Definition fits32 (z : Z) : bool := (- 2 ^ 31 <=? z) && (z <? 2 ^ 31).

(** The process is scheduled: the deadline of a renewal and the end of a pause do not go
    by unnoticed. *)
Definition timely (t : Z) (i : nat) (c : candidate) : bool :=
  match ph c with
  | Renewing start => clk i t <=? start + RenewDeadline (config (elector c))
  | Pausing until => clk i t <=? until
  | _ => true
  end.

(** An event that is on time: an answer comes within [Latency].  The 2^31st change of
    leader is left out. *)
Definition prompt (Latency : Z) (e : event) (st : system) : bool :=
  match e with
  | Elapse t => forallb (fun ic => timely t ic.1 ic.2) (imap pair (candidates st))
  | Respond i =>
      match candidates st !! i with
      | Some c =>
          match ph c, att c with
          | Stopped, _ => true
          | _, Written req _ => clk i (time st) <=? started req + Latency
          | _, _ => true
          end
      | None => true
      end
  | Apply i =>
      match candidates st !! i with
      | Some c => match att c with Writing req => fits32 (LeaderTransitions (written req)) | _ => true end
      | None => true
      end
  | Late k => match late st !! k with Some req => fits32 (LeaderTransitions (written req)) | None => true end
  | _ => true
  end.

Fixpoint prompt_run (Latency : Z) (es : list event) (st : system) : bool :=
  match es with
  | [] => true
  | e :: es => prompt Latency e st && match step e st with Some st => prompt_run Latency es st | None => true end
  end.

(** Electors as [NewLeaderElector] makes them, on a server whose lease, if there is
    one, is nobody's here. *)
Record initial (lecs : list (LeaderElectionConfig * string)) (st : system) : Prop := {
  in_candidates : candidates st =
    (fun ci => mkCandidate (mkElector ci.1 ci.2 None zero_record "" 0 "") Acquiring Idle) <$> lecs;
  in_late : late st = [];
  in_lease : forall l, api_Get (server st) = Some l ->
    HolderIdentity (LeaseSpecToLeaderElectionRecord (Spec l)) ∉ lecs.*2
}.

End system.

(** ** The invariant *)

Definition recd (l : Lease) : LeaderElectionRecord := LeaseSpecToLeaderElectionRecord (Spec l).
#[local] Arguments recd : simpl never.

Section safety.
Context `{RecordJSON} {Srv : Type} `{LeasesAPI Srv}.
Variable clk : nat -> Z -> Z.
Variables (Latency lo hi : Z) (lecs : list (LeaderElectionConfig * string)).

Implicit Types (c : candidate) (l : Lease) (req : request) (s : Srv) (st : system (Srv:=Srv)).

Definition rev l : Z := revision (ResourceVersion l).

(** The lease the server had: still the current one, or an older version. *)
Definition behind s l : Prop :=
  exists cur, api_Get s = Some cur /\
    (l = cur \/ rev l < rev cur /\ LeaderTransitions (recd l) <= LeaderTransitions (recd cur)).

Definition srv_le s s' : Prop := forall l, behind s l -> behind s' l.

(** A lease of candidate [j] says how long it lasts and was renewed in the past. *)
Definition dated (t : Z) (r : LeaderElectionRecord) : Prop :=
  forall j cfg id, lecs !! j = Some (cfg, id) -> HolderIdentity r = id ->
    RenewTime r / Second <= clk j t / Second.

Definition genuine (t : Z) l : Prop :=
  dated t (recd l) /\
  forall j cfg id, lecs !! j = Some (cfg, id) -> HolderIdentity (recd l) = id ->
    LeaseDurationSeconds (recd l) = Z.quot (LeaseDuration cfg) Second.

(** Candidate [i] saw the record it keeps encoded at a time after that record was renewed. *)
Definition seen (t : Z) s (i : nat) (le : LeaderElector) : Prop :=
  observedRawRecord le = "" \/
  (exists cur, api_Get s = Some cur) /\
  exists r0 o, observedRawRecord le = Marshal r0 /\ o <= t /\ clk i o <= observedTime le /\ dated o r0.

(** What it takes for itself leading is in the record it keeps encoded or newer. *)
Definition leads s (le : LeaderElector) : Prop :=
  IsLeader le = true -> forall r0, observedRawRecord le = Marshal r0 ->
    (HolderIdentity r0 = identity le /\ LeaderTransitions (observedRecord le) = LeaderTransitions r0) \/
    exists cur, api_Get s = Some cur /\ LeaderTransitions r0 < LeaderTransitions (recd cur).

(** So for the record about to be written. *)
Definition advances (r : LeaderElectionRecord) (le : LeaderElector) : Prop :=
  forall r0, observedRawRecord le = Marshal r0 ->
    (HolderIdentity r0 = identity le /\ LeaderTransitions r = LeaderTransitions r0) \/
    LeaderTransitions r0 < LeaderTransitions r.

(** The lease the lock keeps, if it is still current, is the candidate's. *)
Definition mine s (le : LeaderElector) : Prop :=
  IsLeader le = true -> forall b, lease le = Some b ->
  exists b0, ResourceVersion b = ResourceVersion b0 /\ behind s b0 /\
    (api_Get s = Some b0 -> HolderIdentity (recd b0) = identity le /\
       LeaderTransitions (recd b0) = LeaderTransitions (observedRecord le)).

(** The lease has run out for candidate [i]. *)
Definition expired (t : Z) (i : nat) l : Prop :=
  forall j cfg id, lecs !! j = Some (cfg, id) -> HolderIdentity (recd l) = id -> j <> i ->
  exists o, o <= t /\ clk i o + Second * LeaseDurationSeconds (recd l) <= clk i t /\
    RenewTime (recd l) / Second <= clk j o / Second.

Definition justified (t : Z) (i : nat) (id : string) l (r : LeaderElectionRecord) : Prop :=
  LeaderTransitions (recd l) <= LeaderTransitions r /\
  (HolderIdentity r = "" -> HolderIdentity (recd l) = id) /\
  (HolderIdentity r = id -> expired t i l).

Definition own (cfg : LeaderElectionConfig) (id : string) req : Prop :=
  HolderIdentity (written req) = id /\ RenewTime (written req) = started req /\
  LeaseDurationSeconds (written req) = Z.quot (LeaseDuration cfg) Second.

Definition req_ok (t : Z) s cfg id req : Prop :=
  started req <= clk (sender req) t /\ (own cfg id req \/ HolderIdentity (written req) = "") /\
  match carried req with
  | None => HolderIdentity (written req) = id
  | Some l => Spec l = LeaderElectionRecordToLeaseSpec (written req) /\
      exists l0, ResourceVersion l = ResourceVersion l0 /\ behind s l0 /\
        (api_Get s = Some l0 -> justified t (sender req) id l0 (written req))
  end.

Definition stale s req : Prop :=
  exists cur, api_Get s = Some cur /\
    match carried req with None => True | Some l => rev l < rev cur end.

Definition att_ok (t : Z) s (i : nat) c : Prop :=
  let le := elector c in
  match att c with
  | Idle => True
  | Getting now => now <= clk i t
  | Answered now res => now <= clk i t /\
      match res with
      | GotLease l => behind s l /\ genuine t l /\
          (IsLeader le = true -> observedRawRecord le = Marshal (recd l) ->
             HolderIdentity (recd l) = identity le /\
             LeaderTransitions (observedRecord le) = LeaderTransitions (recd l))
      | GotNotFound => observedRawRecord le = "" /\ ph c = Acquiring
      | GotError => True
      end
  | Writing req => sender req = i /\ req_ok t s (config le) (identity le) req /\
      (ph c = Stopped \/ own (config le) (identity le) req /\ advances (written req) le) /\
      (carried req = None -> ph c = Acquiring)
  | Written req l => sender req = i /\ started req <= clk i t /\ behind s l /\
      HolderIdentity (recd l) = HolderIdentity (written req) /\
      LeaderTransitions (recd l) = LeaderTransitions (written req) /\
      (ph c = Stopped /\ HolderIdentity (written req) = "" \/
       ph c <> Stopped /\ own (config le) (identity le) req /\ advances (written req) le)
  end.

(** What holds of a candidate whatever the others do. *)
Record cand_ok (t : Z) s (i : nat) c : Prop := {
  co_static : lecs !! i = Some (config (elector c), identity (elector c));
  co_seen : seen t s i (elector c);
  co_leads : leads s (elector c);
  co_mine : ph c = Releasing \/ leading c = true -> mine s (elector c);
  co_att : att_ok t s i c;
  co_timely : timely clk t i c = true;
  co_phase : ph c = Stopped -> match att c with Getting _ | Answered _ _ => False | _ => True end;
  co_stopped : ph c = Stopped -> forall req, att c = Writing req -> HolderIdentity (written req) = "";
  co_releasing : ph c = Releasing -> att c = Idle
}.

(** The server's lease is candidate [i]'s, renewed at [n] or later, to the second. *)
Definition holds s (i : nat) (n : Z) : Prop :=
  exists cur cfg id, api_Get s = Some cur /\ lecs !! i = Some (cfg, id) /\
    HolderIdentity (recd cur) = id /\ n / Second <= RenewTime (recd cur) / Second.

Record claim (t : Z) s (lt : list request) (i : nat) (n : Z) : Prop := {
  cl_holds : holds s i n;
  cl_past : n <= clk i t;
  cl_late : forall req, req ∈ lt -> sender req = i -> n <= started req \/ stale s req
}.

(** When it stops leading at the latest. *)
Definition limit c : Z :=
  match ph c with
  | Renewing start => start + RenewDeadline (config (elector c))
  | Pausing until => until + RenewDeadline (config (elector c))
  | _ => 0
  end.

Definition starts_after (n : Z) (a : attempt) : Prop :=
  match a with
  | Idle => True
  | Getting now | Answered now _ => n <= now
  | Writing req | Written req _ => n <= started req
  end.

Record claims_ok (t : Z) s (lt : list request) (i : nat) c : Prop := {
  cs_leading : leading c = true ->
    exists n, claim t s lt i n /\ starts_after n (att c) /\
      limit c <= n + Latency + RetryPeriod (config (elector c)) + RenewDeadline (config (elector c));
  cs_written : forall req l, att c = Written req l -> ph c <> Stopped ->
    clk i t <= started req + Latency -> claim t s lt i (started req)
}.

Record sys_ok st : Prop := {
  so_genuine : forall l, api_Get (server st) = Some l -> genuine (time st) l;
  so_cand : forall i c, candidates st !! i = Some c -> cand_ok (time st) (server st) i c;
  so_late : forall req, req ∈ late st -> exists c, candidates st !! sender req = Some c /\
    req_ok (time st) (server st) (config (elector c)) (identity (elector c)) req /\
    (HolderIdentity (written req) = "" -> ph c = Stopped);
  so_claims : forall i c, candidates st !! i = Some c ->
    claims_ok (time st) (server st) (late st) i c
}.

(** ** Lemmas *)

Hypothesis Hids : NoDup lecs.*2.
Hypothesis Hnonempty : "" ∉ lecs.*2.
Hypothesis Hmono : forall i t0 t1, t0 <= t1 -> clk i t0 <= clk i t1.
Hypothesis Hrate : forall i j t0 t1, t0 <= t1 -> lo * (clk i t1 - clk i t0) <= hi * (clk j t1 - clk j t0).
Hypothesis Hlo : 0 < lo.
Hypothesis Hhi : 0 < hi.
Hypothesis Hlat : 0 <= Latency.
Hypothesis Hcfg : forall cfg id, (cfg, id) ∈ lecs ->
  0 <= RetryPeriod cfg /\ 0 <= RenewDeadline cfg /\ 0 <= LeaseDuration cfg < 2 ^ 31 * Second /\
  hi * (Second + Latency + RetryPeriod cfg + RenewDeadline cfg)
    <= lo * (Second * Z.quot (LeaseDuration cfg) Second).

Lemma id_nonempty i cfg id : lecs !! i = Some (cfg, id) -> id <> "".
Proof.
  intros Hi ->. apply Hnonempty. apply list_elem_of_fmap. exists (cfg, ""). split; [done|].
  by eapply list_elem_of_lookup_2.
Qed.

Lemma id_inj i j cfg cfg' id : lecs !! i = Some (cfg, id) -> lecs !! j = Some (cfg', id) -> i = j.
Proof.
  intros Hi Hj. eapply (NoDup_lookup lecs.*2); [done|..]; by rewrite list_lookup_fmap, ?Hi, ?Hj.
Qed.

(** *** Time passes and the server's lease changes *)

Lemma behind_rev s l cur : behind s l -> api_Get s = Some cur -> rev l <= rev cur.
Proof. intros (c & Hc & Hl) Hs. simplify_eq. destruct Hl as [->|[? _]]; lia. Qed.

Lemma behind_trans_le s l cur :
  behind s l -> api_Get s = Some cur -> LeaderTransitions (recd l) <= LeaderTransitions (recd cur).
Proof. intros (c & Hc & Hl) Hs. simplify_eq. destruct Hl as [->|[_ ?]]; lia. Qed.

(** A version that has the current revision is the current one. *)
Lemma behind_current s l cur : behind s l -> api_Get s = Some cur -> rev l = rev cur -> l = cur.
Proof. intros (c & Hc & Hl) Hs Hr. simplify_eq. destruct Hl as [->|[? _]]; [done|lia]. Qed.

Lemma srv_le_refl s : srv_le s s.
Proof. by intros l. Qed.

Lemma srv_le_some s s' cur : srv_le s s' -> api_Get s = Some cur ->
  exists cur', api_Get s' = Some cur' /\ rev cur <= rev cur' /\
    LeaderTransitions (recd cur) <= LeaderTransitions (recd cur').
Proof.
  intros Hle Hc. destruct (Hle cur) as (c & Hc' & Hl); [by exists cur; auto|].
  exists c. split; [done|]. destruct Hl as [->|[]]; lia.
Qed.

(** An old version that is current after a change was current before. *)
Lemma srv_le_current s s' l : srv_le s s' -> behind s l -> api_Get s' = Some l -> api_Get s = Some l.
Proof.
  intros Hle (c & Hc & Hl) Hs'. rewrite Hc. f_equal. symmetry. destruct Hl as [|[Hr _]]; [done|].
  destruct (srv_le_some s s' c Hle Hc) as (c' & Hc' & Hrev & _). rewrite Hs' in Hc'. simplify_eq. lia.
Qed.

Lemma dated_mono t t' r : t <= t' -> dated t r -> dated t' r.
Proof.
  intros Ht Hd j cfg id Hj Hh. transitivity (clk j t / Second); [by eapply Hd|].
  apply Z.div_le_mono; [done|auto].
Qed.

Lemma genuine_mono t t' l : t <= t' -> genuine t l -> genuine t' l.
Proof. intros Ht [Hd Hg]. split; [by eapply dated_mono|done]. Qed.

Lemma expired_mono t t' i l : t <= t' -> expired t i l -> expired t' i l.
Proof.
  intros Ht He j cfg id Hj Hh Hne. destruct (He j cfg id Hj Hh Hne) as (o & Ho & Hx & Hr).
  pose proof (Hmono i t t' Ht). exists o. split; [lia|]. split; [lia|done].
Qed.

Lemma stale_mono s s' req : srv_le s s' -> stale s req -> stale s' req.
Proof.
  intros Hle (c & Hc & Hs). destruct (srv_le_some s s' c Hle Hc) as (c' & Hc' & Hr & _).
  exists c'. split; [done|]. destruct (carried req); [lia|done].
Qed.

Lemma req_ok_mono t t' s s' cfg id req :
  t <= t' -> srv_le s s' -> req_ok t s cfg id req -> req_ok t' s' cfg id req.
Proof.
  intros Ht Hle (Hst & Ho & Hc). pose proof (Hmono (sender req) t t' Ht).
  split; [lia|]. split; [done|]. destruct (carried req) as [l|]; [|done].
  destruct Hc as (Hsp & l0 & Hrv & Hb & Hj). split; [done|]. exists l0. split; [done|]. split; [auto|].
  intros Hs'. destruct (Hj (srv_le_current s s' l0 Hle Hb Hs')) as (Hj1 & Hj2 & Hj3).
  split; [done|]. split; [done|]. eauto using expired_mono.
Qed.

Lemma seen_mono t t' s s' i le : t <= t' -> srv_le s s' -> seen t s i le -> seen t' s' i le.
Proof.
  intros Ht Hle [Hr|[[cur Hc] (r0 & o & Hr & Ho & Hx)]]; [by left|right].
  destruct (srv_le_some s s' cur Hle Hc) as (c' & Hc' & _). split; [by eexists|].
  exists r0, o. split; [done|]. split; [lia|done].
Qed.

Lemma leads_mono s s' le : srv_le s s' -> leads s le -> leads s' le.
Proof.
  intros Hle Hl Hi r0 Hr. destruct (Hl Hi r0 Hr) as [|(cur & Hc & Ht)]; [by left|right].
  destruct (srv_le_some s s' cur Hle Hc) as (c' & Hc' & _ & Ht'). exists c'. split; [done|lia].
Qed.

Lemma mine_mono s s' le : srv_le s s' -> mine s le -> mine s' le.
Proof.
  intros Hle Hm Hi b Hb. destruct (Hm Hi b Hb) as (b0 & Hrv & Hbe & Hx). exists b0.
  split; [done|]. split; [auto|]. intros Hs'. apply Hx. by eapply srv_le_current.
Qed.

Lemma att_ok_mono t t' s s' i c :
  t <= t' -> srv_le s s' -> att_ok t s i c -> att_ok t' s' i c.
Proof.
  intros Ht Hle. pose proof (Hmono i t t' Ht) as Hck. unfold att_ok.
  destruct (att c) as [|now|now res|req|req l]; [done|lia|..].
  - intros [Hn Hr]. split; [lia|]. destruct res as [l| |]; [|done|done].
    destruct Hr as (Hb & Hg & Hx). split; [auto|]. split; [by eapply genuine_mono|done].
  - intros (Hs & Hr & Ho). split; [done|]. split; [by eapply req_ok_mono|done].
  - intros (Hs & Hst & Hb & Hx). split; [done|]. split; [lia|]. split; [auto|done].
Qed.

(** Everything but its deadlines survives the passing of time and the writes of others. *)
Lemma cand_ok_mono t t' s s' i c :
  t <= t' -> srv_le s s' -> timely clk t' i c = true -> cand_ok t s i c -> cand_ok t' s' i c.
Proof.
  intros Ht Hle Htm []. constructor; eauto using seen_mono, leads_mono, mine_mono, att_ok_mono.
Qed.

(** *** The server writes *)

Lemma recd_stored l r :
  Spec l = stored_spec (LeaderElectionRecordToLeaseSpec r) -> fits32 (LeaderTransitions r) = true ->
  HolderIdentity (recd l) = HolderIdentity r /\ LeaderTransitions (recd l) = LeaderTransitions r /\
  LeaseDurationSeconds (recd l) = wrap32 (LeaseDurationSeconds r) /\
  RenewTime (recd l) / Second = RenewTime r / Second.
Proof.
  intros Hs Hf. unfold recd. rewrite Hs. cbn. unfold fits32 in Hf. bool_to_prop.
  rewrite wrap32_id by lia. by rewrite micro_second.
Qed.

(** A version newer than all before it. *)
Lemma srv_le_new s s' l' :
  api_Get s' = Some l' ->
  (forall cur, api_Get s = Some cur -> rev cur < rev l' /\
     LeaderTransitions (recd cur) <= LeaderTransitions (recd l')) ->
  srv_le s s'.
Proof.
  intros Hs' Hcur l (cur & Hc & Hl). destruct (Hcur cur Hc) as [Hr Ht]. exists l'. split; [done|right].
  destruct Hl as [->|[]]; [done|lia].
Qed.

(** What a write that the server accepts does, and what it rests on. *)
Record served (t : Z) s s' (i : nat) id req l' : Prop := {
  se_current : api_Get s' = Some l';
  se_le : srv_le s s';
  se_newer : forall cur, api_Get s = Some cur -> rev cur < rev l';
  se_holder : HolderIdentity (recd l') = HolderIdentity (written req);
  se_trans : LeaderTransitions (recd l') = LeaderTransitions (written req);
  se_genuine : genuine t l';
  se_fresh : ~ stale s req;
  se_base : match api_Get s with
            | None => HolderIdentity (written req) = id
            | Some l0 => justified t i id l0 (written req)
            end;
  se_renewed : HolderIdentity (written req) = id -> RenewTime (recd l') / Second = started req / Second
}.

Lemma quot_seconds cfg id : (cfg, id) ∈ lecs -> - 2 ^ 31 <= Z.quot (LeaseDuration cfg) Second < 2 ^ 31.
Proof.
  intros Hin. destruct (Hcfg cfg id Hin) as (_ & _ & [Hd Hd'] & _).
  assert (0 <= Z.quot (LeaseDuration cfg) Second) by (apply Z.quot_pos; [done|by vm_compute]).
  assert (Z.quot (LeaseDuration cfg) Second < 2 ^ 31) by (apply Z.quot_lt_upper_bound; [done|by vm_compute|lia]).
  lia.
Qed.

Lemma written_genuine t cfg id req l' :
  lecs !! sender req = Some (cfg, id) -> started req <= clk (sender req) t ->
  own cfg id req \/ HolderIdentity (written req) = "" ->
  Spec l' = stored_spec (LeaderElectionRecordToLeaseSpec (written req)) ->
  fits32 (LeaderTransitions (written req)) = true ->
  genuine t l' /\ (HolderIdentity (written req) = id -> RenewTime (recd l') / Second = started req / Second).
Proof.
  intros Hi Hst Ho Hsp Hf. destruct (recd_stored l' _ Hsp Hf) as (Hh & _ & Hd & Hr).
  destruct Ho as [(Hid & Hren & Hdur)|Hempty].
  - rewrite Hren in Hr. split; [|done]. split; intros j cfg' id' Hj Hx; rewrite Hh, Hid in Hx; subst id';
      pose proof (id_inj _ _ _ _ _ Hi Hj); subst j; rewrite Hi in Hj; simplify_eq.
    + rewrite Hr. apply Z.div_le_mono; [done|lia].
    + rewrite Hd, Hdur, wrap32_id; [done|]. eapply quot_seconds. by eapply list_elem_of_lookup_2.
  - pose proof (id_nonempty _ _ _ Hi). split; [|congruence].
    split; intros j cfg' id' Hj Hx; pose proof (id_nonempty _ _ _ Hj); congruence.
Qed.

Lemma serve_ok t s s' cfg id req l' :
  lecs !! sender req = Some (cfg, id) -> req_ok t s cfg id req ->
  fits32 (LeaderTransitions (written req)) = true -> serve req s = Some (s', l') ->
  served t s s' (sender req) id req l'.
Proof.
  intros Hi (Hst & Ho & Hc) Hf Hs. unfold serve in Hs. destruct (carried req) as [l|] eqn:Ec.
  - destruct Hc as (Hsp & l0 & Hrv & Hb & Hj). apply api_Update_ok in Hs as (cur & Hg & Hrv' & Hg' & Hsp' & Hrev).
    assert (l0 = cur) as ->.
    { apply (behind_current s); [done|done|]. unfold rev. by rewrite <- Hrv, Hrv'. }
    rewrite Hsp in Hsp'. destruct (written_genuine t cfg id req l' Hi Hst Ho Hsp' Hf) as [Hgen Hren].
    destruct (recd_stored l' _ Hsp' Hf) as (Hh & Ht & _). specialize (Hj Hg). constructor; try done.
    + apply (srv_le_new s s' l' Hg'). intros c Hc. rewrite Hg in Hc. simplify_eq. split; [done|].
      rewrite Ht. apply Hj.
    + intros c Hc. rewrite Hg in Hc. by simplify_eq.
    + intros (c & Hc & Hlt). rewrite Hg in Hc. simplify_eq. rewrite Ec in Hlt. unfold rev in Hlt.
      rewrite Hrv' in Hlt. lia.
    + by rewrite Hg.
  - apply api_Create_ok in Hs as (Hg & Hg' & Hsp').
    destruct (written_genuine t cfg id req l' Hi Hst Ho Hsp' Hf) as [Hgen Hren].
    destruct (recd_stored l' _ Hsp' Hf) as (Hh & Ht & _). constructor; try done.
    + apply (srv_le_new s s' l' Hg'). intros c Hc'. congruence.
    + intros c Hc'. congruence.
    + intros (c & Hc' & _). congruence.
    + by rewrite Hg.
Qed.

(** *** A leader's lease outlives its term *)

(** While a candidate may still act on a renewal at [n], nobody else finds the lease
    expired: the others' clocks cannot have run so far ahead of its own. *)
Lemma not_expired t i j n cfg id l :
  lecs !! i = Some (cfg, id) -> j <> i -> HolderIdentity (recd l) = id -> genuine t l ->
  n / Second <= RenewTime (recd l) / Second ->
  clk i t <= n + Latency + RetryPeriod cfg + RenewDeadline cfg ->
  expired t j l -> False.
Proof.
  intros Hi Hne Hh [_ Hg] Hn Hclk Hx. destruct (Hx i cfg id Hi Hh ltac:(done)) as (o & Ho & Hexp & Hren).
  rewrite (Hg i cfg id Hi Hh) in Hexp.
  destruct (Hcfg cfg id) as (_ & _ & _ & Hbound); [by eapply list_elem_of_lookup_2|].
  pose proof (Hrate j i o t Ho) as Hr.
  assert (Hn' : n < clk i o + Second).
  { assert (Hs : 0 < Second) by by vm_compute. pose proof (Z.div_mod n Second ltac:(lia)).
    pose proof (Z.mod_pos_bound n Second Hs). pose proof (Z.div_mod (clk i o) Second ltac:(lia)).
    pose proof (Z.mod_pos_bound (clk i o) Second Hs). nia. }
  nia.
Qed.

(** A write of another candidate cannot replace the lease of one that may still act on
    a claim; its own writes renew the claim. *)
Lemma claim_served t s s' lt i n cfg req idj cfgj l' :
  claim t s lt i n -> lecs !! i = Some cfg -> lecs !! sender req = Some (cfgj, idj) ->
  (forall l, api_Get s = Some l -> genuine t l) ->
  served t s s' (sender req) idj req l' ->
  HolderIdentity (written req) = idj \/ HolderIdentity (written req) = "" ->
  clk i t <= n + Latency + RetryPeriod cfg.1 + RenewDeadline cfg.1 ->
  (sender req = i -> HolderIdentity (written req) = idj /\ (n <= started req \/ stale s req)) ->
  claim t s' lt i n.
Proof.
  intros [(cur & cfg0 & id & Hcur & Hi0 & Hh & Hn) Hp Hl] Hi Hj Hgen Hs Hw Hclk Hown. simplify_eq.
  destruct Hs as [Hs' Hle Hnew Hho Htr Hge Hfr Hbase Hren]. rewrite Hcur in Hbase.
  destruct (decide (sender req = i)) as [Heq|Hne].
  - destruct (Hown Heq) as [Hid [Hle'|]]; [|done]. rewrite Heq in Hj. simplify_eq. constructor; [|done|].
    + exists l', cfg0, (HolderIdentity (written req)). rewrite Hho, Hren by done.
      split; [done|]. split; [congruence|]. split; [done|]. apply Z.div_le_mono; [done|lia].
    + intros r Hr Hsr. destruct (Hl r Hr Hsr); [by left|right]. by eapply stale_mono.
  - exfalso. destruct Hbase as (_ & Hrel & Hexp). destruct Hw as [Hw|Hw].
    + eapply (not_expired t i (sender req)); eauto. 
    + specialize (Hrel Hw). rewrite Hrel in *. apply Hne. by eapply id_inj.
Qed.

(** *** The candidate's own steps *)

Lemma IsLeader_spec le : IsLeader le = true <-> HolderIdentity (observedRecord le) = identity le.
Proof. apply bool_decide_eq_true. Qed.

Lemma Marshal_eq r r' :
  Marshal r = Marshal r' ->
  HolderIdentity r = HolderIdentity r' /\ LeaderTransitions r = LeaderTransitions r' /\
  RenewTime r / Second = RenewTime r' / Second.
Proof. intros (? & _ & ? & ?)%Marshal_inj. done. Qed.

Lemma dated_marshal t r r' : Marshal r = Marshal r' -> dated t r -> dated t r'.
Proof. intros (Hh & _ & Hr)%Marshal_eq Hd j cfg id Hj Hx. rewrite <- Hr. apply (Hd j cfg id); congruence. Qed.

(** The elector once it has looked at a lease. *)
Record looked (t : Z) s (i : nat) l (le le' : LeaderElector) : Prop := {
  lk_id : identity le' = identity le;
  lk_config : config le' = config le;
  lk_lease : lease le' = Some l;
  lk_raw : observedRawRecord le' = Marshal (recd l);
  lk_seen : seen t s i le';
  lk_leads : leads s le';
  lk_mine : IsLeader le' = true -> HolderIdentity (recd l) = identity le /\
    LeaderTransitions (observedRecord le') = LeaderTransitions (recd l)
}.

Lemma observe_ok t s i l le :
  seen t s i le -> leads s le -> behind s l -> genuine t l ->
  (IsLeader le = true -> observedRawRecord le = Marshal (recd l) ->
     HolderIdentity (recd l) = identity le /\
     LeaderTransitions (observedRecord le) = LeaderTransitions (recd l)) ->
  looked t s i l le (observe (clk i t) (recd l) (Marshal (recd l)) (set_lease l le)).
Proof.
  intros Hs Hl Hb [Hd _] Hm. assert (Hcur : exists cur, api_Get s = Some cur) by (destruct Hb as (c & Hc & _); eauto).
  unfold observe. cbn [observedRawRecord set_lease]. case_decide as Hraw.
  - constructor; cbn; auto.
  - constructor; cbn; try done.
    + right. split; [done|]. exists (recd l), t. cbn. split; [done|]. split; [done|]. split; [done|done].
    + intros Hi%IsLeader_spec r0 Hr0. cbn in Hi, Hr0. apply Marshal_eq in Hr0 as (Hh & Ht & _).
      left. cbn. split; congruence.
    + intros Hi%IsLeader_spec. cbn in Hi. done.
Qed.

(** An elector that goes on to update a lease held by another saw it run out. *)
Lemma may_take t s i l le now :
  seen t s i le -> observedRawRecord le = Marshal (recd l) -> genuine t l -> now <= clk i t ->
  held_by_other now (recd l) le = false -> IsLeader le = false -> expired t i l.
Proof.
  intros Hs Hraw [_ Hg] Hnow Hh Hl j cfg id Hj Hid Hne. destruct Hs as [Hs|[_ (r0 & o & Hr0 & Ho & Hclk & Hd)]].
  { rewrite Hs in Hraw. by destruct (Marshal_nonempty (recd l)). }
  rewrite Hraw in Hr0. symmetry in Hr0. pose proof (dated_marshal o r0 (recd l) Hr0 Hd) as Hd'.
  exists o. split; [done|]. split; [|by eapply Hd'].
  unfold held_by_other in Hh. rewrite Hl, andb_true_r in Hh. bool_to_prop.
  pose proof (id_nonempty _ _ _ Hj) as Hne'. destruct Hh as [Hh|Hh]; bool_to_prop.
  - destruct (HolderIdentity (recd l)); [by subst|cbn in Hh; lia].
  - rewrite wrap64_id in Hh; [lia|]. rewrite (Hg j cfg id Hj Hid).
    pose proof (quot_seconds cfg id) as Hq. specialize (Hq ltac:(by eapply list_elem_of_lookup_2)).
    unfold in_int64, MinInt64, MaxInt64, Second, Millisecond, Microsecond, Nanosecond in *. lia.
Qed.

(** The record of an attempt that goes on. *)
Lemma update_record_ok t s i cfg id l le le' now r l1 le1 :
  lecs !! i = Some (cfg, id) -> config le = cfg -> identity le = id ->
  looked t s i l le le' -> behind s l -> genuine t l -> now <= clk i t ->
  held_by_other now (recd l) le' = false ->
  r = (if IsLeader le' then
         mkRecord id (Z.quot (LeaseDuration cfg) Second) (AcquireTime (recd l)) now (LeaderTransitions (recd l))
       else mkRecord id (Z.quot (LeaseDuration cfg) Second) now now (LeaderTransitions (recd l) + 1)) ->
  LeaseLock_Update r le' = Some (l1, le1) ->
  let req := mkRequest i now r (Some l1) in
  req_ok t s cfg id req /\ own cfg id req /\ advances r le1 /\ seen t s i le1 /\ leads s le1 /\ mine s le1 /\
  config le1 = cfg /\ identity le1 = id.
Proof.
  intros Hi Hc Hid [Li Lc Ll Lr Ls Le Lm] Hb Hg Hnow Hheld Hr Hu. cbn zeta.
  unfold LeaseLock_Update in Hu. rewrite Ll in Hu. injection Hu as <- <-. pose proof (id_nonempty _ _ _ Hi) as Hne.
  assert (Hown : HolderIdentity r = id /\ RenewTime r = now /\
    LeaseDurationSeconds r = Z.quot (LeaseDuration cfg) Second) by (rewrite Hr; by destruct (IsLeader le')).
  assert (Ht : LeaderTransitions r =
    if IsLeader le' then LeaderTransitions (recd l) else LeaderTransitions (recd l) + 1)
    by (rewrite Hr; by destruct (IsLeader le')).
  clear Hr. destruct Hown as (Hrid & Hrn & Hrd).
  assert (Hj : justified t i id l r).
  { split; [destruct (IsLeader le'); lia|]. split; [congruence|]. intros _.
    destruct (IsLeader le') eqn:El; [|by eapply may_take].
    intros j cfg' id' Hlj Hh Hji. destruct (Lm eq_refl) as [Hm _]. exfalso. apply Hji.
    eapply id_inj; [exact Hlj|]. rewrite <- Hid in Hi. by rewrite <- Hh, Hm. }
  split; [|split; [done|]].
  - split; [done|]. split; [by left|]. split; [done|]. exists l. done.
  - split; [|split; [exact Ls|split; [exact Le|split; [|by rewrite <- Hc, <- Hid]]]].
    + intros r0 Hr0. cbn in Hr0. rewrite Lr in Hr0. apply Marshal_eq in Hr0 as (Hh & Htr & _). cbn.
      destruct (IsLeader le'); [left|right; lia]. destruct (Lm eq_refl) as [Hm _]. split; congruence.
    + intros Hil b Hb'. cbn in Hb'. injection Hb' as <-. exists l. split; [done|]. split; [done|].
      intros _. cbn. destruct (Lm Hil) as [Hm Hm']. split; congruence.
Qed.

(** What a step of a candidate alone must preserve. *)
Record stays_ok (t : Z) s lt (i : nat) c c' : Prop := {
  st_cand : cand_ok t s i c';
  st_claims : claims_ok t s lt i c';
  st_stopped : ph c = Stopped -> ph c' = Stopped
}.

Lemma claims_same t s lt i c c' :
  claims_ok t s lt i c -> ph c' = ph c -> config (elector c') = config (elector c) ->
  (forall n, n <= clk i t -> starts_after n (att c) -> starts_after n (att c')) ->
  (forall req l, att c' <> Written req l) -> claims_ok t s lt i c'.
Proof.
  intros [Hl Hw] Hp Hc Hst Hnw. constructor.
  - unfold leading, limit in *. rewrite Hp, Hc. intros Hlead. destruct (Hl Hlead) as (n & Hn & Ha & Hlim).
    exists n. split; [done|]. split; [|done]. apply Hst; [apply Hn|done].
  - intros req l Ha. by destruct (Hnw req l).
Qed.

Section steps.
Variables (t : Z) (s : Srv) (lt : list request) (i : nat).
Hypothesis Hgen : forall l, api_Get s = Some l -> genuine t l.

Lemma begin_attempt_ok c c' :
  cand_ok t s i c -> claims_ok t s lt i c -> begin_attempt (clk i t) c = Some c' -> stays_ok t s lt i c c'.
Proof.
  intros [] Hcl Hb. unfold begin_attempt in Hb. destruct c as [le p a].
  destruct p, a; cbn in Hb; simplify_eq; (constructor; cbn; [|eapply claims_same; [exact Hcl|..]; cbn; auto|done]);
    constructor; cbn in *; try done; unfold att_ok; cbn; lia.
Qed.

Lemma read_ok c now (ok : bool) :
  cand_ok t s i c -> claims_ok t s lt i c -> att c = Getting now ->
  stays_ok t s lt i c (mkCandidate (elector c) (ph c) (Answered now
    (if ok then match api_Get s with Some l => GotLease l | None => GotNotFound end else GotError))).
Proof.
  intros [Hst Hse Hle Hmi Hat Hti Hph Hsp Hre] Hcl Ha. unfold att_ok in Hat. rewrite Ha in *.
  constructor; cbn; [|eapply claims_same; [exact Hcl|done|done| |done]; cbn; by rewrite Ha|done].
  assert (Hnr : ph c <> Releasing) by (intros Hx; by specialize (Hre Hx)).
  constructor; cbn; try done. unfold att_ok. cbn. split; [done|]. destruct ok; [|done].
  destruct (api_Get s) as [l|] eqn:El.
  - split; [by exists l; auto|]. split; [auto|]. intros Hil Hr.
    destruct (Hle Hil (recd l) Hr) as [[]|(cur & Hc & Hlt)]; [done|]. rewrite El in Hc. simplify_eq. lia.
  - split.
    + destruct Hse as [|[[cur Hc] _]]; [done|congruence].
    + destruct (ph c) eqn:Ep; try done; exfalso.
      * destruct (cs_leading _ _ _ _ _ Hcl) as (n & [Hh _ _] & _); [unfold leading; by rewrite Ep|].
        destruct Hh as (cur & ? & ? & Hc & _). congruence.
      * destruct (cs_leading _ _ _ _ _ Hcl) as (n & [Hh _ _] & _); [unfold leading; by rewrite Ep|].
        destruct Hh as (cur & ? & ? & Hc & _). congruence.
Qed.

(** A candidate whose elector looked at a lease, or not, and whose attempt is [a]. *)
Lemma cand_attempt c le a :
  cand_ok t s i c -> config le = config (elector c) -> identity le = identity (elector c) ->
  seen t s i le -> leads s le -> (ph c = Releasing \/ leading c = true -> mine s le) ->
  ph c <> Stopped -> ph c <> Releasing -> att_ok t s i (mkCandidate le (ph c) a) ->
  cand_ok t s i (mkCandidate le (ph c) a).
Proof.
  intros [] Hc Hid Hs Hl Hm Hns Hnr Ha. constructor; cbn; try done.
  - congruence.
  - unfold timely in *. cbn. by rewrite Hc.
Qed.

Lemma process_ok c c' :
  cand_ok t s i c -> claims_ok t s lt i c -> process i (clk i t) c = Some c' -> stays_ok t s lt i c c'.
Proof.
  intros Hok Hcl Hpr. pose proof Hok as [Hst Hse Hle Hmi Hat Hti Hph Hsp Hre]. unfold process in Hpr.
  destruct (att c) as [| |now res| |] eqn:Ea; try done.
  assert (Hns : ph c <> Stopped) by (intros Hx; by specialize (Hph Hx)).
  assert (Hnr : ph c <> Releasing) by (intros Hx; specialize (Hre Hx); congruence).
  unfold att_ok in Hat. rewrite Ea in Hat. destruct Hat as [Hnow Hres].
  assert (Hclaims : forall le a, config le = config (elector c) ->
    a = Idle \/ (exists r carried, a = Writing (mkRequest i now r carried)) ->
    claims_ok t s lt i (mkCandidate le (ph c) a)).
  { intros le a Hc Ha. apply (claims_same t s lt i c); [done|done|done| |].
    - intros n _. rewrite Ea. cbn. by destruct Ha as [->|(r & l & ->)].
    - cbn. by destruct Ha as [->|(r & l & ->)]. }
  destruct res as [l| |]; cbn [after_Get LeaseLock_Get] in Hpr.
  - destruct Hres as (Hb & Hg & Hm). pose proof (observe_ok t s i l (elector c) Hse Hle Hb Hg Hm) as Hlk.
    fold (recd l) in Hpr. set (le' := observe _ _ _ _) in *. pose proof Hlk as [Li Lc Ll Lr Ls Lle Lm].
    destruct (held_by_other now (recd l) le') eqn:Eh.
    + simplify_eq. constructor; [|apply Hclaims; auto|done].
      apply cand_attempt; try done. intros _ Hil. unfold held_by_other in Eh. rewrite Hil, andb_false_r in Eh. done.
    + set (r := if IsLeader le' then _ else _) in Hpr.
      destruct (LeaseLock_Update r le') as [[l1 le1]|] eqn:Eu; simplify_eq.
      * destruct (update_record_ok t s i _ _ l (elector c) le' now r l1 le1 Hst eq_refl eq_refl Hlk Hb Hg Hnow Eh)
          as (Hreq & Hown & Hadv & Hs1 & Hl1 & Hm1 & Hc1 & Hi1); [|done|].
        { subst r. unfold new_record. cbn. by rewrite Li, Lc. }
        constructor; [|apply Hclaims; eauto|done]. apply cand_attempt; try done.
        unfold att_ok. cbn. rewrite Hc1, Hi1. split; [done|]. split; [done|]. split; [by right|done].
      * constructor; [|apply Hclaims; auto|done]. unfold LeaseLock_Update in Eu. by rewrite Ll in Eu.
  - destruct Hres as [Hraw Hacq]. simplify_eq. constructor; [|apply Hclaims; eauto|done].
    apply cand_attempt; try done. unfold att_ok, req_ok, own, advances. cbn. 
    split; [done|]. split; [auto 6|]. split; [|done]. right. split; [done|]. intros r0 Hr0.
    rewrite Hraw in Hr0. by destruct (Marshal_nonempty r0).
  - simplify_eq. constructor; [|apply Hclaims; auto|done]. by apply cand_attempt.
Qed.

Lemma idle_ok c le :
  cand_ok t s i c -> claims_ok t s lt i c -> ph c <> Releasing ->
  config le = config (elector c) -> identity le = identity (elector c) -> observedRawRecord le = observedRawRecord (elector c) ->
  observedRecord le = observedRecord (elector c) -> observedTime le = observedTime (elector c) ->
  (lease le = lease (elector c) \/ leading c = false) ->
  stays_ok t s lt i c (mkCandidate le (ph c) Idle).
Proof.
  intros [Hst Hse Hle Hmi Hat Hti Hph Hsp Hre] Hcl Hnr Hc Hid Hraw Hrec Htime Hlease.
  constructor; [|by eapply claims_same|done]. constructor; cbn; try done.
  - congruence.
  - unfold seen in *. by rewrite Hraw, Htime.
  - unfold leads, IsLeader in *. by rewrite Hid, Hraw, Hrec.
  - intros [|Hx]; [done|]. destruct Hlease as [Hl|Hl]; [|unfold leading in *; cbn in *; congruence].
    unfold mine, IsLeader in *. rewrite Hid, Hrec, Hl. apply Hmi. by right.
  - unfold timely in *. cbn. by rewrite Hc.
Qed.

Lemma write_fails_ok c c' req :
  cand_ok t s i c -> claims_ok t s lt i c -> write_fails c = Some (req, c') ->
  stays_ok t s lt i c c' /\ sender req = i /\
  req_ok t s (config (elector c)) (identity (elector c)) req /\
  (HolderIdentity (written req) = "" -> ph c = Stopped) /\
  forall n, starts_after n (att c) -> n <= started req.
Proof.
  intros Hok Hcl Hw. pose proof Hok as [Hst Hse Hle Hmi Hat Hti Hph Hsp Hre]. unfold write_fails in Hw.
  unfold att_ok in Hat. destruct (att c) as [| | |req'|] eqn:Ea; simplify_eq.
  destruct Hat as (Hsi & Hr & Hx & Hacq). pose proof (id_nonempty _ _ _ Hst) as Hne.
  assert (Hnr : ph c <> Releasing) by (intros Hp; by specialize (Hre Hp)).
  split; [|split; [done|split; [done|split; [|done]]]].
  - destruct (carried req) eqn:Ec; apply idle_ok; try done; [by left|right].
    unfold leading. by rewrite Hacq.
  - intros He. destruct Hx as [|[(Ho & _) _]]; [done|congruence].
Qed.

Lemma response_lost_ok c req l :
  cand_ok t s i c -> claims_ok t s lt i c -> att c = Written req l ->
  stays_ok t s lt i c (mkCandidate (elector c) (ph c) Idle).
Proof.
  intros Hok Hcl Ha. apply idle_ok; try done; [|by left].
  intros Hp. pose proof (co_releasing _ _ _ _ Hok Hp). congruence.
Qed.

(** The lease that was written and the record observed for it. *)
Lemma written_elector_ok c req l le :
  cand_ok t s i c -> att c = Written req l ->
  le = setObservedRecord (clk i t) (written req) (set_lease l (elector c)) ->
  seen t s i le /\ leads s le /\ (HolderIdentity (written req) <> "" -> mine s le).
Proof.
  intros [Hst Hse Hle Hmi Hat Hti Hph Hsp Hre] Ha ->. unfold att_ok in Hat. rewrite Ha in Hat.
  destruct Hat as (Hsi & Hstart & Hb & Hh & Htr & Hx). pose proof (id_nonempty _ _ _ Hst) as Hne.
  split; [|split].
  - destruct Hse as [|[Hcur (r0 & o & Hr0 & Ho & Hclk & Hd)]]; [by left|right]. split; [done|].
    exists r0, o. cbn. split; [done|]. split; [done|]. split; [by apply Hmono|done].
  - intros Hil%IsLeader_spec r0 Hr0. cbn in Hil, Hr0.
    destruct Hx as [[_ He]|(_ & _ & Hadv)]; [congruence|].
    destruct (Hadv r0 Hr0) as [|Hlt]; [by left|right]. destruct Hb as (cur & Hc & Hl). exists cur.
    split; [done|]. rewrite <- Htr in Hlt. destruct Hl as [->|[_ ?]]; lia.
  - intros Hnr Hil%IsLeader_spec b Hbl. cbn in Hil, Hbl. injection Hbl as <-. exists l.
    split; [done|]. split; [done|]. intros _. cbn. split; congruence.
Qed.

Lemma write_succeeds_ok c c' :
  cand_ok t s i c -> claims_ok t s lt i c -> write_succeeds (clk i t) c = Some c' ->
  (ph c <> Stopped -> forall req l, att c = Written req l -> clk i t <= started req + Latency) ->
  stays_ok t s lt i c c'.
Proof.
  intros Hok Hcl Hw Hprompt. unfold write_succeeds in Hw. destruct (att c) as [| | | |req l] eqn:Ea; try done.
  assert (Eck : ph c <> Stopped -> clk i t <= started req + Latency) by (intros Hp; by apply (Hprompt Hp req l)). clear Hprompt.
  destruct (written_elector_ok c req l _ Hok Ea eq_refl) as (Hs' & Hl' & Hm').
  set (le := setObservedRecord _ _ _) in *. pose proof Hok as [Hst Hse Hle Hmi Hat Hti Hph Hsp Hre].
  unfold att_ok in Hat. rewrite Ea in Hat. destruct Hat as (Hsi & Hstart & Hb & Hh & Htr & Hx).
  destruct (Hcfg _ _ (list_elem_of_lookup_2 _ _ _ Hst)) as (Hrp & Hrd & _ & _).
  assert (Hne : ph c <> Stopped -> HolderIdentity (written req) <> "").
  { intros Hp. destruct Hx as [[]|(_ & [Ho _] & _)]; [done|]. rewrite Ho. by eapply id_nonempty. }
  assert (Hcand : forall p, p <> Stopped -> ph c <> Stopped -> p <> Releasing ->
    timely clk t i (mkCandidate le p Idle) = true -> cand_ok t s i (mkCandidate le p Idle)).
  { intros p Hp Hpc Hpr Ht. constructor; cbn; try done. intros _. by apply Hm', Hne. }
  assert (Hclaim : forall p, ph c <> Stopped -> clk i t <= started req + Latency ->
    limit (mkCandidate le p Idle) <= clk i t + RetryPeriod (config le) + RenewDeadline (config le) ->
    claims_ok t s lt i (mkCandidate le p Idle)).
  { intros p Hp Hck Hlim. constructor; [|done]. intros _. exists (started req).
    split; [by eapply cs_written|]. split; [done|]. cbn in *. lia. }
  destruct (ph c) eqn:Ep; simplify_eq; cbn beta iota zeta.
  - constructor; [|apply Hclaim; [done|by apply Eck|]|by rewrite Ep].
    + apply Hcand; try done. unfold timely. cbn. apply Z.leb_le. lia.
    + unfold limit. cbn. lia.
  - constructor; [|apply Hclaim; [done|by apply Eck|]|by rewrite Ep].
    + apply Hcand; try done. unfold timely. cbn. apply Z.leb_le. lia.
    + unfold limit. cbn. lia.
  - constructor; [| |by rewrite Ep].
    + apply Hcand; try done. unfold timely in *. cbn. by rewrite Ep in Hti.
    + constructor; [|done]. intros Hld. destruct (cs_leading _ _ _ _ _ Hcl) as (n & Hn & _ & Hlim).
      { unfold leading. by rewrite Ep. }
      exists n. split; [done|]. split; [done|]. unfold limit in *. rewrite Ep in Hlim. done.
  - specialize (Hre eq_refl). congruence.
  - constructor; [|constructor; done|done]. constructor; cbn; try done. by intros [|].
Qed.

Lemma resume_ok c until :
  cand_ok t s i c -> claims_ok t s lt i c -> ph c = Pausing until -> att c = Idle ->
  stays_ok t s lt i c (mkCandidate (elector c) (Renewing (clk i t)) Idle).
Proof.
  intros Hok Hcl Ep Ea. pose proof Hok as [Hst Hse Hle Hmi Hat Hti Hph Hsp Hre].
  destruct (Hcfg _ _ (list_elem_of_lookup_2 _ _ _ Hst)) as (Hrp & Hrd & _ & _).
  unfold timely in Hti. rewrite Ep in Hti. bool_to_prop. constructor; [| |by rewrite Ep].
  - constructor; cbn; try done.
    + intros _. apply Hmi. right. unfold leading. by rewrite Ep.
    + unfold timely. cbn. apply Z.leb_le. lia.
  - constructor; [|done]. intros _. destruct (cs_leading _ _ _ _ _ Hcl) as (n & Hn & _ & Hlim).
    { unfold leading. by rewrite Ep. }
    exists n. split; [done|]. split; [done|]. unfold limit in *. rewrite Ep in Hlim. cbn. lia.
Qed.

Lemma abandon_ok c c' :
  cand_ok t s i c -> claims_ok t s lt i c -> abandon c = Some c' -> stays_ok t s lt i c c'.
Proof.
  intros [Hst Hse Hle Hmi Hat Hti Hph Hsp Hre] Hcl Hg. unfold abandon in Hg.
  assert (Hstop : ph c <> Stopped -> stays_ok t s lt i c (mkCandidate (elector c) Stopped Idle)).
  { intros Hp. constructor; [|constructor; done|done]. constructor; cbn; try done. by intros [|]. }
  assert (Hrel : ph c <> Stopped -> leading c = true ->
    stays_ok t s lt i c (mkCandidate (elector c) Releasing Idle)).
  { intros Hp Hl. constructor; [|constructor; done|done]. constructor; cbn; try done. auto. }
  destruct (ph c) eqn:Ep; destruct (att c); try done; simplify_eq; try by apply Hstop.
  - destruct (ReleaseOnCancel _); [|by apply Hstop]. apply Hrel; [done|]. unfold leading. by rewrite Ep.
  - destruct (ReleaseOnCancel _); [|by apply Hstop]. apply Hrel; [done|]. unfold leading. by rewrite Ep.
Qed.

Lemma begin_release_ok c c' :
  cand_ok t s i c -> claims_ok t s lt i c -> begin_release i (clk i t) c = Some c' -> stays_ok t s lt i c c'.
Proof.
  intros [Hst Hse Hle Hmi Hat Hti Hph Hsp Hre] Hcl Hb. unfold begin_release in Hb.
  destruct (ph c) eqn:Ep; destruct (att c) eqn:Ea; try done.
  assert (Hclaims : forall le a, (forall req l, a <> Written req l) -> claims_ok t s lt i (mkCandidate le Stopped a)).
  { intros le a Ha. constructor; [done|]. cbn. intros req l ->. by destruct (Ha req l). }
  unfold release_record in Hb. destruct (IsLeader (elector c)) eqn:El.
  - unfold LeaseLock_Update in Hb. destruct (lease (elector c)) as [b|] eqn:Eb; simplify_eq.
    + constructor; [|by apply Hclaims|done].
      destruct (Hmi ltac:(by left) El b Eb) as (b0 & Hrv & Hbe & Hcur).
      constructor; cbn; try done; [by intros [|]| |by intros _ req [= <-]].
      unfold att_ok. cbn. split; [done|]. split; [|split; [by left|done]].
      split; [done|]. split; [by right|]. split; [done|]. exists b0. split; [done|]. split; [done|].
      intros Hc. destruct (Hcur Hc) as [Hh Ht]. split; [cbn; lia|]. split; [done|]. cbn. intros Hx.
      pose proof (id_nonempty _ _ _ Hst). congruence.
    + constructor; [|by apply Hclaims|done]. constructor; cbn; try done. by intros [|].
  - simplify_eq. constructor; [|by apply Hclaims|done]. constructor; cbn; try done. by intros [|].
Qed.

End steps.

(** *** The system *)

Lemma sys_static st i c : sys_ok st -> candidates st !! i = Some c ->
  lecs !! i = Some (config (elector c), identity (elector c)).
Proof. intros Hok Hi. by destruct (so_cand _ Hok i c Hi). Qed.

Lemma put_candidate_ok st i c c' :
  sys_ok st -> candidates st !! i = Some c ->
  stays_ok (time st) (server st) (late st) i c c' -> sys_ok (put i c' st).
Proof.
  intros Hok Hi [Hc Hcl Hstop]. pose proof Hok as [Hgen Hcand Hlate Hclaims].
  assert (Hlook : forall j d, <[i:=c']> (candidates st) !! j = Some d ->
    j = i /\ d = c' \/ candidates st !! j = Some d).
  { intros j d [(-> & -> & _)|[_ Hd]]%list_lookup_insert_Some; auto. }
  constructor; cbn; [done|..].
  - intros j d [[-> ->]|Hj]%Hlook; [done|auto].
  - intros req Hr. destruct (Hlate req Hr) as (d & Hd & Hreq & Hs).
    destruct (decide (sender req = i)) as [Heq|Hne].
    + rewrite Heq in *. simplify_eq. exists c'. rewrite list_lookup_insert_eq by (by eapply lookup_lt_Some).
      split; [done|]. pose proof (co_static _ _ _ _ Hc) as H1'. rewrite (sys_static _ _ _ Hok Hi) in H1'.
      simplify_eq. split; [congruence|auto].
    + exists d. by rewrite list_lookup_insert_ne.
  - intros j d [[-> ->]|Hj]%Hlook; [done|auto].
Qed.

Lemma elapse_ok st t' :
  sys_ok st -> time st <= t' ->
  (forall i c, candidates st !! i = Some c -> timely clk t' i c = true) ->
  sys_ok (mkSystem t' (server st) (candidates st) (late st)).
Proof.
  intros [Hgen Hcand Hlate Hclaims] Ht Htm. constructor; cbn.
  - eauto using genuine_mono.
  - intros i c Hi. eapply cand_ok_mono; eauto using srv_le_refl.
  - intros req Hr. destruct (Hlate req Hr) as (c & Hc & Hreq & Hs). exists c.
    split; [done|]. split; [|done]. eapply req_ok_mono; eauto using srv_le_refl.
  - intros i c Hi. destruct (Hclaims i c Hi) as [Hl Hw]. pose proof (Hmono i _ _ Ht) as Hck.
    assert (Hcl : forall n, claim (time st) (server st) (late st) i n -> claim t' (server st) (late st) i n).
    { intros n [? ? ?]. constructor; [done|lia|done]. }
    constructor.
    + intros Hx. destruct (Hl Hx) as (n & Hn & Hrest). exists n. auto.
    + intros req l Ha Hp Hk. apply Hcl. eapply Hw; eauto. lia.
Qed.

(** A version that was behind is stale once there is a newer one. *)
Lemma served_stale t s s' i id req l' cfg0 id0 r :
  served t s s' i id req l' -> req_ok t s cfg0 id0 r -> stale s' r.
Proof.
  intros [Hs' _ Hnew _ _ _ _ _ _] (_ & _ & Hr). exists l'. split; [done|].
  destruct (carried r) as [b|]; [|done]. destruct Hr as (_ & b0 & Hrv & Hb & _).
  destruct Hb as (cur & Hc & Hl). specialize (Hnew cur Hc). unfold rev in *. rewrite Hrv.
  destruct Hl as [->|[? _]]; lia.
Qed.

(** The term of a leading candidate ends with its deadline. *)
Lemma leading_limit t s i c :
  cand_ok t s i c -> leading c = true -> clk i t <= limit c.
Proof.
  intros Hok Hl. pose proof (co_timely _ _ _ _ Hok) as Ht. pose proof (co_static _ _ _ _ Hok) as Hs.
  destruct (Hcfg _ _ (list_elem_of_lookup_2 _ _ _ Hs)) as (_ & Hrd & _).
  unfold leading, timely, limit in *. destruct (ph c); try done; bool_to_prop; lia.
Qed.

Lemma write_ok st s' req c l' :
  sys_ok st -> candidates st !! sender req = Some c ->
  req_ok (time st) (server st) (config (elector c)) (identity (elector c)) req ->
  (HolderIdentity (written req) = "" -> ph c = Stopped) ->
  served (time st) (server st) s' (sender req) (identity (elector c)) req l' ->
  (forall n, claim (time st) (server st) (late st) (sender req) n ->
     leading c = true /\ starts_after n (att c) \/ (exists r l, att c = Written r l /\ n = started r) ->
     n <= started req \/ stale (server st) req) ->
  sys_ok (mkSystem (time st) s' (candidates st) (late st)).
Proof.
  intros Hok Hi Hreq Hrel Hs Hord. pose proof Hok as [Hgen Hcand Hlate Hclaims].
  pose proof (se_le _ _ _ _ _ _ _ Hs) as Hle. pose proof (sys_static _ _ _ Hok Hi) as Hst.
  constructor; cbn.
  - intros l Hl. rewrite (se_current _ _ _ _ _ _ _ Hs) in Hl. simplify_eq. apply Hs.
  - intros j d Hj. eapply cand_ok_mono; eauto; [done|]. by apply (co_timely _ _ _ _ (Hcand j d Hj)).
  - intros r Hr. destruct (Hlate r Hr) as (d & Hd & Hrok & Hx). exists d. split; [done|]. split; [|done].
    by eapply req_ok_mono.
  - intros j d Hj. destruct (Hclaims j d Hj) as [Hl Hw].
    pose proof (sys_static _ _ _ Hok Hj) as Hstj.
    destruct (Hcfg _ _ (list_elem_of_lookup_2 _ _ _ Hstj)) as (Hrp & Hrd & _).
    assert (Hkeep : forall n, claim (time st) (server st) (late st) j n -> ph d <> Stopped ->
      clk j (time st) <= n + Latency + RetryPeriod (config (elector d)) + RenewDeadline (config (elector d)) ->
      leading d = true /\ starts_after n (att d) \/ (exists r l, att d = Written r l /\ n = started r) ->
      claim (time st) s' (late st) j n).
    { intros n Hn Hp Hck Hwhy. eapply (claim_served (time st) (server st)); eauto.
      - destruct Hreq as (_ & [(Ho & _)|Ho] & _); auto.
      - intros Heq. rewrite Heq in *. rewrite Hi in Hj. simplify_eq. split; [|by apply Hord].
        destruct Hreq as (_ & [(Ho & _)|Ho] & _); [done|]. by destruct Hp; apply Hrel. }
    constructor.
    + intros Hld. destruct (Hl Hld) as (n & Hn & Ha & Hlim). exists n. split; [|done].
      pose proof (leading_limit _ _ _ _ (Hcand j d Hj) Hld).
      apply Hkeep; [done| |lia|by left]. intros Hp. unfold leading in Hld. by rewrite Hp in Hld.
    + intros r l Ha Hp Hck. apply Hkeep; [by eapply Hw|done|lia|]. right. eauto.
Qed.

Lemma apply_ok st i c req s' l' :
  sys_ok st -> candidates st !! i = Some c -> att c = Writing req ->
  fits32 (LeaderTransitions (written req)) = true -> serve req (server st) = Some (s', l') ->
  sys_ok (mkSystem (time st) s' (<[i := mkCandidate (elector c) (ph c) (Written req l')]> (candidates st)) (late st)).
Proof.
  intros Hok Hi Ha Hf Hs. pose proof (so_cand _ Hok i c Hi) as Hc. pose proof (co_att _ _ _ _ Hc) as Hat.
  unfold att_ok in Hat. rewrite Ha in Hat. destruct Hat as (Hsi & Hreq & Hx & _). subst i.
  pose proof (sys_static _ _ _ Hok Hi) as Hst. pose proof (id_nonempty _ _ _ Hst) as Hne.
  pose proof (serve_ok _ _ _ _ _ _ _ Hst Hreq Hf Hs) as Hsv.
  assert (Hrel : HolderIdentity (written req) = "" -> ph c = Stopped).
  { intros He. destruct Hx as [|[(Ho & _) _]]; [done|congruence]. }
  pose proof (write_ok st s' req c l' Hok Hi Hreq Hrel Hsv) as Hok'.
  specialize (Hok' ltac:(intros n _ [[_ Hn]|(r & l & Hr & _)]; rewrite Ha in *; [by left|done])).
  refine (put_candidate_ok (mkSystem (time st) s' (candidates st) (late st)) (sender req) c _ Hok' Hi _). cbn.
  pose proof (so_cand _ Hok' (sender req) c Hi) as Hc'. cbn in Hc'. constructor; [| |done].
  - destruct Hc' as [C1 C2 C3 C4 C5 C6 C7 C8 C9].
    constructor; cbn; try done; [|intros Hp; specialize (C9 Hp); congruence].
    unfold att_ok. cbn. split; [done|]. split; [apply Hreq|].
    split; [exists l'; split; [by apply Hsv|by left]|]. split; [apply Hsv|]. split; [apply Hsv|].
    destruct (decide (ph c = Stopped)) as [Hp|Hp]; [left; split; [done|by apply (C8 Hp)]|right].
    by destruct Hx.
  - pose proof (so_claims _ Hok' (sender req) c Hi) as [Hl Hw]. cbn in Hl, Hw. constructor.
    + unfold leading in *. cbn. intros Hld. destruct (Hl Hld) as (n & Hn & Hsa & Hlim). rewrite Ha in Hsa. eauto.
    + cbn. intros r l [= <- <-] Hp Hck. destruct Hx as [|[(Ho & _) _]]; [done|]. constructor.
      * exists l', (config (elector c)), (identity (elector c)). split; [apply Hsv|]. split; [done|].
        rewrite (se_holder _ _ _ _ _ _ _ Hsv), (se_renewed _ _ _ _ _ _ _ Hsv) by done. done.
      * apply Hreq.
      * intros r Hr Hsr. right. destruct (so_late _ Hok r Hr) as (d & _ & Hrok & _). by eapply served_stale.
Qed.

Lemma late_ok st k req s' l' :
  sys_ok st -> late st !! k = Some req ->
  fits32 (LeaderTransitions (written req)) = true -> serve req (server st) = Some (s', l') ->
  sys_ok (mkSystem (time st) s' (candidates st) (late st)).
Proof.
  intros Hok Hk Hf Hs. pose proof (list_elem_of_lookup_2 _ _ _ Hk) as Hin.
  destruct (so_late _ Hok req Hin) as (c & Hi & Hreq & Hrel).
  eapply (write_ok st s' req c l'); eauto.
  - eapply serve_ok; eauto. by eapply sys_static.
  - intros n [_ _ Hl] _. by apply Hl.
Qed.

Lemma fails_ok st i c c' req (lost : bool) :
  sys_ok st -> candidates st !! i = Some c -> write_fails c = Some (req, c') ->
  sys_ok (mkSystem (time st) (server st) (<[i := c']> (candidates st))
    (if lost then req :: late st else late st)).
Proof.
  intros Hok Hi Hw. pose proof (so_cand _ Hok i c Hi) as Hc. pose proof (so_claims _ Hok i c Hi) as Hcl.
  assert (Ha : att c = Writing req) by (unfold write_fails in Hw; destruct (att c); by simplify_eq).
  destruct (write_fails_ok _ _ _ i c c' req Hc Hcl Hw) as (Hst & Hsi & Hreq & Hrel & Hord).
  destruct lost; [|by apply (put_candidate_ok st i c)].
  pose proof (put_candidate_ok st i c c' Hok Hi Hst) as [Hgen Hcand Hlate Hclaims].
  assert (Hi' : <[i:=c']> (candidates st) !! i = Some c')
    by (apply list_lookup_insert_eq; by eapply lookup_lt_Some).
  pose proof (co_static _ _ _ _ Hc) as Hs1. pose proof (co_static _ _ _ _ (st_cand _ _ _ _ _ _ Hst)) as Hs2.
  rewrite Hs1 in Hs2. injection Hs2 as Hcf Hid. constructor; cbn in *.
  - done.
  - done.
  - intros r [->|Hr]%elem_of_cons; [|by apply Hlate]. exists c'. rewrite Hsi, <- Hcf, <- Hid. split; [done|].
    split; [done|]. intros He. by apply (st_stopped _ _ _ _ _ _ Hst), Hrel.
  - intros j d Hj.
    assert (Hlist : forall n, claim (time st) (server st) (late st) j n -> (j = i -> n <= started req) ->
      claim (time st) (server st) (req :: late st) j n).
    { intros n [H1' H2' H3'] Hn. constructor; [done|done|]. intros r [->|Hr]%elem_of_cons Hsr; [left; apply Hn; congruence|eauto]. }
    destruct (Hclaims j d Hj) as [Hl Hw']. destruct (decide (j = i)) as [->|Hne].
    + rewrite Hi' in Hj. injection Hj as <-.
      assert (Hidle : att c' = Idle) by (unfold write_fails in Hw; rewrite Ha in Hw; by simplify_eq).
      assert (Hld : leading c' = leading c /\ limit c' = limit c /\ config (elector c') = config (elector c)).
      { unfold write_fails in Hw. rewrite Ha in Hw. simplify_eq. unfold leading, limit. cbn.
        by destruct (carried req). }
      destruct Hld as (Hl1 & Hl2 & Hl3). constructor; [|intros r l Hx; congruence].
      rewrite Hl1, Hl2, Hl3, Hidle. intros Hx. destruct (cs_leading _ _ _ _ _ Hcl Hx) as (n & Hn & Hsa & Hlim).
      exists n. split; [|done]. apply Hlist; auto.
    + constructor.
      * intros Hx. destruct (Hl Hx) as (n & Hn & Hrest). exists n. split; [by apply Hlist|done].
      * intros r l Hx Hp Hck. apply Hlist; [by eapply Hw'|done].
Qed.

Lemma on_candidate_ok st st' i f :
  sys_ok st ->
  (forall c c', candidates st !! i = Some c -> cand_ok (time st) (server st) i c ->
     claims_ok (time st) (server st) (late st) i c -> f c = Some c' ->
     stays_ok (time st) (server st) (late st) i c c') ->
  on_candidate i st f = Some st' -> sys_ok st'.
Proof.
  intros Hok Hf Hs. unfold on_candidate in Hs. destruct (candidates st !! i) as [c|] eqn:Ei; [|done]. cbn in Hs.
  destruct (f c) as [c'|] eqn:Ef; cbn in Hs; simplify_eq. eapply put_candidate_ok; eauto. eapply Hf; eauto; apply Hok; done.
Qed.

Lemma step_ok e st st' : sys_ok st -> prompt clk Latency e st = true -> step clk e st = Some st' -> sys_ok st'.
Proof.
  intros Hok Hp Hs. destruct e; cbn [step] in Hs; cbn [prompt] in Hp.
  - destruct (_ <=? _) eqn:E; simplify_eq. bool_to_prop. apply elapse_ok; [done|done|].
    intros i c Hi. rewrite forallb_forall in Hp. apply (Hp (i, c)), list_elem_of_In, elem_of_lookup_imap.
    exists i, c. done.
  - eapply on_candidate_ok; eauto using begin_attempt_ok.
  - eapply on_candidate_ok; eauto. cbn. intros c c' Hi Hc Hcl Hx. destruct (att c) eqn:Ea; simplify_eq.
    by apply read_ok; [apply Hok|..].
  - eapply on_candidate_ok; eauto using process_ok.
  - destruct (candidates st !! i) as [c|] eqn:Ei; [|done]. cbn in Hs. destruct (att c) eqn:Ea; try done.
    destruct (serve req (server st)) as [[s' l']|] eqn:Es; [|done].
    cbn in Hs. simplify_eq. by apply apply_ok.
  - destruct (candidates st !! i) as [c|] eqn:Ei; [|done]. cbn in Hs.
    destruct (write_fails c) as [[req c']|] eqn:Ew; [|done]. cbn in Hs. simplify_eq. by eapply fails_ok.
  - eapply on_candidate_ok; eauto. intros c c' Hi Hc Hcl Hx. apply write_succeeds_ok; [done..|].
    intros Hne req l Ha. rewrite Hi, Ha in Hp. destruct (ph c); by try apply Z.leb_le.
  - eapply on_candidate_ok; eauto. cbn. intros c c' Hi Hc Hcl Hx. destruct (att c) eqn:Ea; simplify_eq.
    by eapply response_lost_ok.
  - destruct (late st !! k) as [req|] eqn:Ek; [|done]. cbn in Hs.
    destruct (serve req (server st)) as [[s' l']|] eqn:Es; [|done].
    cbn in Hs. simplify_eq. by eapply late_ok.
  - eapply on_candidate_ok; eauto. cbn. intros c c' Hi Hc Hcl Hx.
    destruct (ph c) eqn:Ep; try done. destruct (att c) eqn:Ea; simplify_eq. by eapply resume_ok.
  - eapply on_candidate_ok; eauto using abandon_ok.
  - eapply on_candidate_ok; eauto using begin_release_ok.
Qed.

Lemma start_ok st : initial lecs st -> sys_ok st.
Proof.
  intros [Hc Hl Hs].
  assert (Hg : forall l, api_Get (server st) = Some l -> genuine (time st) l).
  { intros l Hgl. assert (Hno : forall j cfg id, lecs !! j = Some (cfg, id) -> HolderIdentity (recd l) <> id).
    { intros j cfg id Hj He. apply (Hs l Hgl). fold (recd l). rewrite He. apply list_elem_of_fmap.
      exists (cfg, id). split; [done|]. by eapply list_elem_of_lookup_2. }
    split; intros j cfg id Hj He; by destruct (Hno j cfg id Hj). }
  assert (Hcand : forall i c, candidates st !! i = Some c -> exists cfg id, lecs !! i = Some (cfg, id) /\
    c = mkCandidate (mkElector cfg id None zero_record "" 0 "") Acquiring Idle).
  { intros i c Hi. rewrite Hc, list_lookup_fmap in Hi. destruct (lecs !! i) as [[cfg id]|]; [|done].
    cbn in Hi. simplify_eq. eauto. }
  constructor; [done|..].
  - intros i c (cfg & id & Hi & ->)%Hcand. constructor; cbn; try done.
    + by left.
    + intros Hx%IsLeader_spec. cbn in Hx. pose proof (id_nonempty _ _ _ Hi). congruence.
  - rewrite Hl. intros r Hr. by apply elem_of_nil in Hr.
  - intros i c (cfg & id & Hi & ->)%Hcand. constructor; done.
Qed.

Lemma run_ok es st st' : sys_ok st -> prompt_run clk Latency es st = true -> run clk es st = Some st' -> sys_ok st'.
Proof.
  revert st. induction es as [|e es IH]; intros st Hok Hp Hr; cbn in Hr, Hp; [by simplify_eq|]. apply andb_prop in Hp as [Hpe Hp].
  destruct (step clk e st) as [st1|] eqn:E; [|done]. eapply IH; [by eapply step_ok|done..].
Qed.

(** A leader holds the server's lease, so there is one at most. *)
Lemma leader_unique st i j ci cj :
  sys_ok st -> candidates st !! i = Some ci -> candidates st !! j = Some cj ->
  leading ci = true -> leading cj = true -> i = j.
Proof.
  intros Hok Hi Hj Hli Hlj.
  destruct (cs_leading _ _ _ _ _ (so_claims _ Hok i ci Hi) Hli) as (n & [(cur & cfg & id & Hc & Hl & Hh & _) _ _] & _).
  destruct (cs_leading _ _ _ _ _ (so_claims _ Hok j cj Hj) Hlj) as (m & [(cur' & cfg' & id' & Hc' & Hl' & Hh' & _) _ _] & _).
  rewrite Hc in Hc'. simplify_eq. by eapply id_inj.
Qed.

End safety.

(** ** Properties *)

(** What the election needs: distinct identities, clocks that do not run backwards and
    of which none runs faster than hi/lo times another, and lease durations that, in
    the whole seconds the lease stores, exceed the longest a leader acts on one renewal
    by that ratio and by one second. *)
Record tolerant (clk : nat -> Z -> Z) (Latency lo hi : Z) (lecs : list (LeaderElectionConfig * string)) : Prop := {
  to_distinct : NoDup lecs.*2;
  to_named : "" ∉ lecs.*2;
  to_monotone : forall i t0 t1, t0 <= t1 -> clk i t0 <= clk i t1;
  to_rate : forall i j t0 t1, t0 <= t1 -> lo * (clk i t1 - clk i t0) <= hi * (clk j t1 - clk j t0);
  to_ratio : 0 < lo /\ 0 < hi;
  to_latency : 0 <= Latency;
  to_config : forall cfg id, (cfg, id) ∈ lecs ->
    0 <= RetryPeriod cfg /\ 0 <= RenewDeadline cfg /\ 0 <= LeaseDuration cfg < 2 ^ 31 * Second /\
    hi * (Second + Latency + RetryPeriod cfg + RenewDeadline cfg)
      <= lo * (Second * Z.quot (LeaseDuration cfg) Second)
}.

Section properties.
Context `{RecordJSON} {Srv : Type} `{LeasesAPI Srv}.

Lemma tolerant_run clk Latency lo hi lecs es (st st' : system (Srv:=Srv)) :
  tolerant clk Latency lo hi lecs -> initial lecs st -> run clk es st = Some st' -> prompt_run clk Latency es st = true ->
  sys_ok clk Latency lecs st'.
Proof.
  intros [] Hi Hr Hp. destruct to_ratio0. eapply (run_ok clk Latency lo hi lecs); eauto. by apply start_ok.
Qed.


(** A leader holds the lease.  Under the same conditions, while a candidate takes
    itself for the leader the server's lease carries its identity: every other
    candidate that looks sees who leads. *)
Theorem leader_holds_lease clk Latency lo hi lecs es (st st' : system (Srv:=Srv)) i c :
  tolerant clk Latency lo hi lecs -> initial lecs st -> run clk es st = Some st' -> prompt_run clk Latency es st = true ->
  candidates st' !! i = Some c -> leading c = true ->
  exists l, api_Get (server st') = Some l /\
    HolderIdentity (LeaseSpecToLeaderElectionRecord (Spec l)) = identity (elector c).
Proof.
  intros Ht Hi Hr Hp Hc Hl. pose proof (tolerant_run _ _ _ _ _ _ _ _ Ht Hi Hr Hp) as Hok.
  destruct (cs_leading _ _ _ _ _ _ _ _ (so_claims _ _ _ _ Hok i c Hc) Hl) as (n & [(l & cfg & id & Hg & Hlc & Hh & _) _ _] & _).
  exists l. split; [done|]. pose proof (sys_static _ _ _ _ _ _ Hok Hc). unfold recd in Hh. congruence.
Qed.

End properties.

(** ** A configuration that validates and elects two leaders *)

(** The lease stores whole seconds, so a duration of 1.9 s with a deadline of 1.5 s
    passes [NewLeaderElector] and is taken over after 1 s, while its holder leads on.
    The clocks are perfect and every answer is immediate. *)
Definition short_config (id : string) : LeaderElectionConfig :=
  mkConfig (Some id) (1900 * Millisecond) (1500 * Millisecond) (1 * Second) true true false false.

Definition start_of (lecs : list (LeaderElectionConfig * string)) : system (Srv:=wit_server) :=
  mkSystem 0 None
    ((fun ci => mkCandidate (mkElector ci.1 ci.2 None zero_record "" 0 "") Acquiring Idle) <$> lecs) [].

Definition attempt_of (i : nat) : list event := [Begin i; Read i true; Process i].

Theorem whole_seconds_two_leaders :
  is_ok (@NewLeaderElector amd64_conv (short_config "a")) = true /\
  is_ok (@NewLeaderElector amd64_conv (short_config "b")) = true /\
  exists es st', run (fun _ t => t) es (start_of [(short_config "a", "a"); (short_config "b", "b")]) = Some st' /\
    prompt_run (fun _ t => t) 0 es (start_of [(short_config "a", "a"); (short_config "b", "b")]) = true /\
    map leading (candidates st') = [true; true].
Proof.
  split; [vm_compute; reflexivity|]. split; [vm_compute; reflexivity|].
  exists (attempt_of 0 ++ [Apply 0; Respond 0] ++ attempt_of 1 ++ [Elapse Second] ++ attempt_of 1 ++
    [Apply 1; Respond 1])%nat.
  eexists. split; [vm_compute; reflexivity|]. split; vm_compute; reflexivity.
Qed.

(** ** A late answer elects two leaders

    [acquire] runs its attempts without a deadline and takes the answer for new
    whenever it arrives.  With the default durations, a candidate whose [Create] is
    answered after 20 s leads while the lease is another's since 15 s.  So the bound on
    [Latency] cannot be dropped: the run is on time but for that answer. *)
Definition default_config (id : string) : LeaderElectionConfig :=
  mkConfig (Some id) (15 * Second) (10 * Second) (2 * Second) true true false false.

Theorem late_answer_two_leaders :
  exists es st', run (fun _ t => t) es (start_of [(default_config "a", "a"); (default_config "b", "b")]) = Some st' /\
    prompt_run (fun _ t => t) (20 * Second) es (start_of [(default_config "a", "a"); (default_config "b", "b")]) = true /\
    prompt_run (fun _ t => t) (2 * Second) es (start_of [(default_config "a", "a"); (default_config "b", "b")]) = false /\
    map leading (candidates st') = [true; true].
Proof.
  exists (attempt_of 0 ++ [Apply 0] ++ attempt_of 1 ++ [Elapse (15 * Second)] ++ attempt_of 1 ++
    [Apply 1; Respond 1; Elapse (20 * Second); Respond 0])%nat.
  eexists. split; [vm_compute; reflexivity|]. split_and!; vm_compute; reflexivity.
Qed.

(** ** Witnesses *)

Definition wit_cfg (id : string) : LeaderElectionConfig :=
  mkConfig (Some id) (20 * Second) (10 * Second) (2 * Second) true true false true.

Definition wit_lecs : list (LeaderElectionConfig * string) := [(wit_cfg "a", "a"); (wit_cfg "b", "b")].

(** The second clock is ahead and runs faster by a tenth. *)
Definition wit_clk (i : nat) (t : Z) : Z :=
  match i with 1%nat => 11 * t + 7000000000 | _ => 10 * t end.

Lemma wit_tolerant : tolerant wit_clk (2 * Second) 10 11 wit_lecs.
Proof.
  constructor.
  - apply (bool_decide_unpack _). vm_compute. exact I.
  - apply (bool_decide_unpack _). vm_compute. exact I.
  - intros i t0 t1 Ht. unfold wit_clk. destruct i as [|[|i]]; lia.
  - intros i j t0 t1 Ht. unfold wit_clk. destruct i as [|[|i]], j as [|[|j]]; lia.
  - lia.
  - by vm_compute.
  - intros cfg id Hin. apply elem_of_cons in Hin as [[= -> ->]|Hin]; [by vm_compute|].
    apply list_elem_of_singleton in Hin as [= -> ->]. by vm_compute.
Qed.

(** "a" acquires and renews; the answer to a renewal of "a" is lost, "b" looks twice and
    waits; "a" gives up and releases, and "b" takes over. *)
Definition wit_events : list event :=
  attempt_of 0 ++ [Apply 0; Respond 0] ++ attempt_of 1 ++ [Elapse (Second / 10)] ++
  attempt_of 0 ++ [Apply 0; ResponseLost 0] ++ attempt_of 1 ++
  attempt_of 0 ++ [Fails 0 true; Late 0; GiveUp 0; Elapse (Second / 5); Release 0; Fails 0 false] ++
  [Elapse (2 * Second)] ++ attempt_of 1 ++ [Apply 1; Respond 1].

Definition wit_final : system (Srv:=wit_server) :=
  default (start_of wit_lecs) (run wit_clk wit_events (start_of wit_lecs)).

Lemma wit_initial : initial wit_lecs (start_of wit_lecs).
Proof. constructor; [reflexivity|reflexivity|]. intros l Hl. discriminate Hl. Qed.

Lemma wit_run : run wit_clk wit_events (start_of wit_lecs) = Some wit_final.
Proof. vm_compute. reflexivity. Qed.

Lemma wit_prompt : prompt_run wit_clk (2 * Second) wit_events (start_of wit_lecs) = true.
Proof. vm_compute. reflexivity. Qed.


Lemma leader_holds_lease_witness :
  exists l, api_Get (server wit_final) = Some l /\
    HolderIdentity (LeaseSpecToLeaderElectionRecord (Spec l)) = "b".
Proof.
  destruct (candidates wit_final) as [|c0 [|c1 [|]]] eqn:E; try (vm_compute in E; discriminate E).
  destruct (leader_holds_lease wit_clk (2 * Second) 10 11 wit_lecs wit_events (start_of wit_lecs) wit_final
    1 c1 wit_tolerant wit_initial wit_run wit_prompt ltac:(rewrite E; reflexivity)
    ltac:(vm_compute in E; injection E as <- <-; reflexivity)) as (l & Hl & Hh).
  exists l. split; [exact Hl|]. rewrite Hh. vm_compute in E. injection E as <- <-. reflexivity.
Defined.
