(* ===== verification/Pager.v ===== *)
(** * Lists in pages

    tools/pager/pager.go: [ListPager] asks for a list page by page and falls back to
    one full list when the snapshot it is reading expires.  [PageFn] calls the server:
    it acts on a world [W] and answers with an object or an error.  List objects and
    errors are apimachinery's: [ListObject], [IsResourceExpired].  [List] and
    [ListWithAlloc] differ in what memory they share only. *)

From S2P Require Import Prelude.

(** metav1.ListOptions, as far as it is used here. *)
Record ListOptions : Type := mkOptions {
  ResourceVersion : string;
  ResourceVersionMatch : string;
  Limit : Z;
  Continue : string;
  AllowWatchBookmarks : bool;
  SendInitialEvents : option bool
}.

Definition no_options : ListOptions := mkOptions "" "" 0 "" false None.

(** [meta.ListAccessor] gives a list's resource version and continue token, and
    [meta.EachListItem] its items. *)
Class ListObject (L I : Type) : Type := {
  ListAccessor : L -> option (string * string);
  EachListItem_items : L -> option (list I)
}.

Section pager.
Context {L I E W : Type} `{ListObject L I}.
Variable IsResourceExpired : E -> bool.

(** The list that is returned: a page as it came, or the internal list. *)
Inductive listed : Type :=
| Page (obj : L)
| Internal (rv : string) (items : list I).

Inductive list_error : Type :=
| PageError (e : E)
| ContextDone
| NotAList
| NoItems
| CallbackError
| BadBufferSize.

Record ListPager : Type := mkPager {
  PageSize : Z;
  PageFn : ListOptions -> W -> W * (L + E);
  FullListIfExpired : bool;
  PageBufferSize : Z
}.

Definition defaultPageSize : Z := 500.
Definition defaultPageBufferSize : Z := 10.

Definition New (fn : ListOptions -> W -> W * (L + E)) : ListPager :=
  mkPager defaultPageSize fn true defaultPageBufferSize.

Definition set_page (limit : Z) (rv rvMatch cont : string) (o : ListOptions) : ListOptions :=
  mkOptions rv rvMatch limit cont (AllowWatchBookmarks o) (SendInitialEvents o).

(** The loop of [ListPager.list]; [got] is the list so far.  It runs as long as the
    server has another page: [None] when it is still running after [fuel] pages.
    [done] says whether the context is done. *)
Fixpoint list_loop (fuel : nat) (p : ListPager) (done : W -> bool) (requested requestedMatch : string)
    (options : ListOptions) (got : option (string * list I)) (paginated : bool) (w : W)
    : option (W * (listed + list_error) * bool) :=
  match fuel with
  | 0%nat => None
  | S fuel =>
      if done w then Some (w, inr ContextDone, paginated)
      else
        match PageFn p options w with
        | (w, inr e) =>
            if (negb (IsResourceExpired e) || negb (FullListIfExpired p) || bool_decide (Continue options = ""))%bool
            then Some (w, inr (PageError e), paginated)
            else
              let options := set_page 0 requested requestedMatch "" options in
              match PageFn p options w with
              | (w, inr e) => Some (w, inr (PageError e), paginated)
              | (w, inl obj) => Some (w, inl (Page obj), paginated)
              end
        | (w, inl obj) =>
            match ListAccessor obj with
            | None => Some (w, inr NotAList, paginated)
            | Some (rv, cont) =>
                if (bool_decide (cont = "") && bool_decide (got = None))%bool
                then Some (w, inl (Page obj), paginated)
                else
                  let list := default (rv, []) got in
                  match EachListItem_items obj with
                  | None => Some (w, inr NoItems, paginated)
                  | Some items =>
                      let list := (list.1, list.2 ++ items) in
                      if decide (cont = "") then Some (w, inl (Internal list.1 list.2), paginated)
                      else
                        list_loop fuel p done requested requestedMatch
                          (set_page (Limit options) "" "" cont options) (Some list) true w
                  end
            end
        end
  end.

Definition with_limit (p : ListPager) (options : ListOptions) : ListOptions :=
  if Limit options =? 0
  then set_page (PageSize p) (ResourceVersion options) (ResourceVersionMatch options) (Continue options) options
  else options.

Definition List (fuel : nat) (p : ListPager) (done : W -> bool) (options : ListOptions) (w : W)
    : option (W * (listed + list_error) * bool) :=
  list_loop fuel p done (ResourceVersion options) (ResourceVersionMatch options) (with_limit p options) None false w.

(** The loop of [eachListChunk]; the callback may change [X] and fail. *)
Fixpoint chunk_loop {X} (fuel : nat) (p : ListPager) (done : W -> bool) (fn : L -> X -> X * option list_error)
    (options : ListOptions) (w : W) (x : X) : option (W * X * option list_error) :=
  match fuel with
  | 0%nat => None
  | S fuel =>
      if done w then Some (w, x, Some ContextDone)
      else
        match PageFn p options w with
        | (w, inr e) => Some (w, x, Some (PageError e))
        | (w, inl obj) =>
            match ListAccessor obj with
            | None => Some (w, x, Some NotAList)
            | Some (_, cont) =>
                match fn obj x with
                | (x, Some e) => Some (w, x, Some e)
                | (x, None) =>
                    if decide (cont = "") then Some (w, x, None)
                    else
                      chunk_loop fuel p done fn
                        (set_page (Limit options) (ResourceVersion options) (ResourceVersionMatch options) cont options)
                        w x
                end
            end
        end
  end.

Definition eachListChunk {X} (fuel : nat) (p : ListPager) (done : W -> bool) (fn : L -> X -> X * option list_error)
    (options : ListOptions) (w : W) (x : X) : option (W * X * option list_error) :=
  chunk_loop fuel p done fn (with_limit p options) w x.

(** What [meta.EachListItem] makes of a callback for items: it stops at the first
    error. *)
Fixpoint each_item {X} (fn : I -> X -> X * bool) (items : list I) (x : X) : X * option list_error :=
  match items with
  | [] => (x, None)
  | i :: items =>
      match fn i x with
      | (x, true) => each_item fn items x
      | (x, false) => (x, Some CallbackError)
      end
  end.

Definition on_chunk {X} (fn : I -> X -> X * bool) (obj : L) (x : X) : X * option list_error :=
  match EachListItem_items obj with
  | None => (x, Some NoItems)
  | Some items => each_item fn items x
  end.

(** [EachListItem]: the chunks reach the callback in the order of the pages; that the
    buffer lets the server be called ahead of the callback is not seen. *)
Definition EachListItem {X} (fuel : nat) (p : ListPager) (done : W -> bool) (fn : I -> X -> X * bool)
    (options : ListOptions) (w : W) (x : X) : option (W * X * option list_error) :=
  if PageBufferSize p <? 0 then Some (w, x, Some BadBufferSize)
  else eachListChunk fuel p done (on_chunk fn) options w x.

(** ** What a server promises

    A first page starts a snapshot: the items of one resource version.  A continue
    token stands for the rest of a snapshot; used without a resource version it gives
    the next items of the same snapshot, which may be none, or an error.  Without a
    limit the page is the whole snapshot.  Calls take the world to a [later] one. *)
Record pages_snapshots (fn : ListOptions -> W -> W * (L + E)) (later : W -> W -> Prop)
    (snapshot : ListOptions -> W -> string -> list I -> Prop) (token : string -> string -> list I -> Prop) : Prop := {
  ps_refl : forall w, later w w;
  ps_trans : forall w1 w2 w3, later w1 w2 -> later w2 w3 -> later w1 w3;
  ps_later : forall o w, later w (fn o w).1;
  ps_first : forall o w w' obj rv cont items, Continue o = "" -> fn o w = (w', inl obj) ->
    ListAccessor obj = Some (rv, cont) -> EachListItem_items obj = Some items ->
    exists rest, snapshot o w rv (items ++ rest) /\
      (if decide (cont = "") then rest = [] else token cont rv rest /\ Limit o <> 0);
  ps_next : forall o w w' obj rv0 rest rv cont items, token (Continue o) rv0 rest ->
    ResourceVersion o = "" -> ResourceVersionMatch o = "" -> fn o w = (w', inl obj) ->
    ListAccessor obj = Some (rv, cont) -> EachListItem_items obj = Some items ->
    exists rest', rest = items ++ rest' /\
      (if decide (cont = "") then rest' = [] else token cont rv0 rest');
  ps_token : forall rv rest, ~ token "" rv rest
}.

(** Lists end, although a page may be empty: [left] says how many pages there are still
    to come for a continue token, and no list has more than [n]. *)
Record pages_run_out (fn : ListOptions -> W -> W * (L + E)) (left : string -> nat) (n : nat) : Prop := {
  pe_first : forall o w w' obj rv cont, Continue o = "" -> fn o w = (w', inl obj) ->
    ListAccessor obj = Some (rv, cont) -> cont <> "" -> (left cont < n)%nat;
  pe_next : forall o w w' obj rv cont, Continue o <> "" -> fn o w = (w', inl obj) ->
    ListAccessor obj = Some (rv, cont) -> cont <> "" -> (left cont < left (Continue o))%nat
}.

(** What was returned, as a resource version and items. *)
Definition contents (l : listed) : option (string * list I) :=
  match l with
  | Page obj =>
      match ListAccessor obj, EachListItem_items obj with
      | Some (rv, _), Some items => Some (rv, items)
      | _, _ => None
      end
  | Internal rv items => Some (rv, items)
  end.

End pager.
Arguments listed L I : clear implicits.
Arguments list_error E : clear implicits.
Arguments ListPager L E W : clear implicits.

(** ** Lemmas *)

Section pager_lemmas.
Context {L I E W : Type} `{ListObject L I} (IsResourceExpired : E -> bool).
Variables (p : ListPager L E W) (done : W -> bool) (later : W -> W -> Prop).
Variables (snapshot : ListOptions -> W -> string -> list I -> Prop) (token : string -> string -> list I -> Prop).
Hypothesis Hserver : pages_snapshots (PageFn p) later snapshot token.

(** A snapshot taken between two moments, asked for as the caller asked. *)
Definition taken (wi : W) (rv rvMatch rv1 : string) (items : list I) (w : W) : Prop :=
  exists o0 w0, later wi w0 /\ later (PageFn p o0 w0).1 w /\ ResourceVersion o0 = rv /\
    ResourceVersionMatch o0 = rvMatch /\ snapshot o0 w0 rv1 items.

Lemma taken_later wi rv rvMatch rv1 items w w' :
  taken wi rv rvMatch rv1 items w -> later w w' -> taken wi rv rvMatch rv1 items w'.
Proof.
  intros (o0 & w0 & Hl & Hl' & Hr) Hw. exists o0, w0. split; [done|]. split; [|done].
  by apply (ps_trans _ _ _ _ Hserver _ w).
Qed.

(** What the loop has: nothing yet, or a part of a snapshot and the token of the rest. *)
Definition gathered (wi : W) (rv rvMatch : string) (o : ListOptions) (got : option (string * list I)) (w : W) : Prop :=
  match got with
  | None => Continue o = "" /\ ResourceVersion o = rv /\ ResourceVersionMatch o = rvMatch
  | Some (rv0, items) =>
      ResourceVersion o = "" /\ ResourceVersionMatch o = "" /\
      exists rest, token (Continue o) rv0 rest /\ taken wi rv rvMatch rv0 (items ++ rest) w
  end.

(** A page's part in the loop. *)
Lemma gathered_page wi rv rvMatch o got w w' obj rv1 cont items :
  gathered wi rv rvMatch o got w -> later wi w -> PageFn p o w = (w', inl obj) ->
  ListAccessor obj = Some (rv1, cont) -> EachListItem_items obj = Some items ->
  let list := default (rv1, []) got in
  (cont = "" -> taken wi rv rvMatch list.1 (list.2 ++ items) w') /\
  (cont <> "" -> gathered wi rv rvMatch (set_page (Limit o) "" "" cont o) (Some (list.1, list.2 ++ items)) w').
Proof.
  intros Hg Hw Hp Ha Hi. cbn zeta. pose proof (ps_later _ _ _ _ Hserver o w) as Hlw. rewrite Hp in Hlw. cbn in Hlw.
  destruct got as [[rv0 items0]|]; cbn [default fst snd].
  - destruct Hg as (Hrv & Hm & rest & Ht & Htk). apply (taken_later _ _ _ _ _ _ w') in Htk; [|done].
    destruct (ps_next _ _ _ _ Hserver o w w' obj rv0 rest rv1 cont items Ht Hrv Hm Hp Ha Hi)
      as (rest' & -> & Hc). rewrite app_assoc in Htk. split; intros Hcont.
    + rewrite decide_True in Hc by done. subst rest'. by rewrite app_nil_r in Htk.
    + rewrite decide_False in Hc by done. split; [done|]. split; [done|]. by exists rest'.
  - destruct Hg as (Hco & Hrv & Hm).
    destruct (ps_first _ _ _ _ Hserver o w w' obj rv1 cont items Hco Hp Ha Hi) as (rest & Hs & Hc).
    assert (Htk : taken wi rv rvMatch rv1 (items ++ rest) w').
    { exists o, w. rewrite Hp. split_and!; try done. apply (ps_refl _ _ _ _ Hserver). }
    split; intros Hcont.
    + rewrite decide_True in Hc by done. subst rest. by rewrite app_nil_r in Htk.
    + rewrite decide_False in Hc by done. destruct Hc as [Ht _]. split; [done|]. split; [done|]. by exists rest.
Qed.

Lemma list_loop_snapshot fuel wi rv rvMatch o got paginated w w' l pg rv1 items :
  gathered wi rv rvMatch o got w -> later wi w ->
  list_loop IsResourceExpired fuel p done rv rvMatch o got paginated w = Some (w', inl l, pg) ->
  contents l = Some (rv1, items) -> taken wi rv rvMatch rv1 items w'.
Proof.
  revert o got paginated w. induction fuel as [|fuel IH]; intros o got paginated w Hg Hw Hl Hc; [done|].
  cbn in Hl. destruct (done w); [done|].
  pose proof (ps_trans _ _ _ _ Hserver _ _ _ Hw (ps_later _ _ _ _ Hserver o w)) as Hw1.
  destruct (PageFn p o w) as [w1 [obj|e]] eqn:Ep; cbn in Hw1.
  - destruct (ListAccessor obj) as [[rv2 cont]|] eqn:Ea; [|done].
    destruct (bool_decide (cont = "") && bool_decide (got = None)) eqn:Ed.
    + bool_to_prop. subst. simplify_eq. cbn in Hc. rewrite Ea in Hc.
      destruct (EachListItem_items obj) as [items'|] eqn:Ei; simplify_eq.
      destruct (gathered_page wi _ _ o None w w' obj rv1 "" items Hg Hw Ep Ea Ei) as [Hx _]. by apply Hx.
    + destruct (EachListItem_items obj) as [items'|] eqn:Ei; [|done].
      destruct (gathered_page wi _ _ o got w w1 obj rv2 cont items' Hg Hw Ep Ea Ei) as [Hx Hy].
      destruct (decide (cont = "")) as [->|Hne].
      * simplify_eq. cbn in Hc. simplify_eq. by apply Hx.
      * eapply IH; [by apply Hy|done|done|done].
  - destruct (_ || _) eqn:Eo; [done|]. bool_to_prop.
    destruct (PageFn p (set_page 0 rv rvMatch "" o) w1) as [w2 [obj|e']] eqn:Ep'; simplify_eq.
    cbn in Hc. destruct (ListAccessor obj) as [[rv2 cont]|] eqn:Ea; [|done].
    destruct (EachListItem_items obj) as [items'|] eqn:Ei; simplify_eq.
    destruct (ps_first _ _ _ _ Hserver (set_page 0 rv rvMatch "" o) w1 w' obj rv1 cont items eq_refl Ep' Ea Ei)
      as (rest & Hs & Hr).
    exists (set_page 0 rv rvMatch "" o), w1. split; [done|].
    split; [rewrite Ep'; apply (ps_refl _ _ _ _ Hserver)|]. split; [done|]. split; [done|].
    destruct (decide (cont = "")); [subst; by rewrite app_nil_r in Hs|]. by destruct Hr as [_ []].
Qed.

(** Every further page leaves fewer to come. *)
Lemma list_loop_next_total left n fuel rv rvMatch o got paginated w :
  pages_run_out (PageFn p) left n -> (left (Continue o) < fuel)%nat -> Continue o <> "" ->
  is_Some (list_loop IsResourceExpired fuel p done rv rvMatch o (Some got) paginated w).
Proof.
  intros Hend. revert o got paginated w. induction fuel as [|fuel IH]; intros o got paginated w Hf Ho; [lia|].
  cbn. destruct (done w); [eauto|]. destruct (PageFn p o w) as [w1 [obj|e]] eqn:Ep.
  - destruct (ListAccessor obj) as [[rv2 cont]|] eqn:Ea; [|eauto]. rewrite andb_false_r.
    destruct (EachListItem_items obj) as [items'|]; [|eauto]. destruct (decide (cont = "")) as [|Hne]; [eauto|].
    pose proof (pe_next _ _ _ Hend o w w1 obj rv2 cont Ho Ep Ea Hne). apply IH; [cbn; lia|done].
  - destruct (_ || _); [eauto|]. destruct (PageFn p _ w1) as [? []]; eauto.
Qed.

Lemma list_loop_total left n fuel rv rvMatch o paginated w :
  pages_run_out (PageFn p) left n -> (n < fuel)%nat -> Continue o = "" ->
  is_Some (list_loop IsResourceExpired fuel p done rv rvMatch o None paginated w).
Proof.
  intros Hend Hf Hc. destruct fuel as [|fuel]; [lia|]. cbn. destruct (done w); [eauto|].
  destruct (PageFn p o w) as [w1 [obj|e]] eqn:Ep.
  - destruct (ListAccessor obj) as [[rv2 cont]|] eqn:Ea; [|eauto].
    destruct (bool_decide (cont = "")) eqn:Ed; [cbn; eauto|]. cbn.
    destruct (EachListItem_items obj) as [items'|]; [|eauto]. bool_to_prop.
    rewrite decide_False by done. pose proof (pe_first _ _ _ Hend o w w1 obj rv2 cont Hc Ep Ea Ed).
    apply (list_loop_next_total left n); [done|cbn; lia|done].
  - destruct (_ || _); [eauto|]. destruct (PageFn p _ w1) as [? []]; eauto.
Qed.

Lemma with_limit_fields options :
  Continue (with_limit p options) = Continue options /\
  ResourceVersion (with_limit p options) = ResourceVersion options /\
  ResourceVersionMatch (with_limit p options) = ResourceVersionMatch options.
Proof. unfold with_limit. by destruct (_ =? 0). Qed.

Lemma List_snapshot options w fuel w' l pg rv items :
  Continue options = "" ->
  List IsResourceExpired fuel p done options w = Some (w', inl l, pg) -> contents l = Some (rv, items) ->
  taken w (ResourceVersion options) (ResourceVersionMatch options) rv items w'.
Proof.
  intros Hc Hl Hcont. destruct (with_limit_fields options) as (Hc' & Hrv & Hm). unfold List in Hl.
  eapply list_loop_snapshot; [|apply (ps_refl _ _ _ _ Hserver)|exact Hl|exact Hcont].
  split; [congruence|done].
Qed.

Lemma list_loop_later fuel rv rvMatch o got paginated w w' res pg :
  list_loop IsResourceExpired fuel p done rv rvMatch o got paginated w = Some (w', res, pg) -> later w w'.
Proof.
  revert o got paginated w. induction fuel as [|fuel IH]; intros o got paginated w Hl; [done|].
  cbn in Hl. destruct (done w); [simplify_eq; apply (ps_refl _ _ _ _ Hserver)|].
  pose proof (ps_later _ _ _ _ Hserver o w) as Hw1.
  destruct (PageFn p o w) as [w1 out] eqn:Ep. cbn in Hw1.
  destruct out as [obj|e].
  - repeat (case_match; simplify_eq; try done). by apply (ps_trans _ _ _ _ Hserver _ w1), (IH _ _ _ _ Hl).
  - destruct (_ || _); [by simplify_eq|].
    pose proof (ps_later _ _ _ _ Hserver (set_page 0 rv rvMatch "" o) w1) as Hw3.
    destruct (PageFn p _ w1) as [w2 []]; simplify_eq; by apply (ps_trans _ _ _ _ Hserver _ w1).
Qed.

Lemma List_later options w fuel w' res pg :
  List IsResourceExpired fuel p done options w = Some (w', res, pg) -> later w w'.
Proof. apply list_loop_later. Qed.

Lemma List_total left n options w fuel :
  pages_run_out (PageFn p) left n ->
  Continue options = "" -> (n < fuel)%nat -> is_Some (List IsResourceExpired fuel p done options w).
Proof.
  intros Hend Hc Hf. destruct (with_limit_fields options) as (Hc' & _). unfold List.
  apply (list_loop_total left n); [done|done|congruence].
Qed.

End pager_lemmas.

(** ** Properties *)

(** C10: a paged list is a snapshot.  Whatever the size of the pages and however the
    server changes meanwhile, a list that the pager returns is the complete list of
    one resource version, with that version, answered to a request made between the
    call and its return with the caller's version and match, be it gathered from
    pages, a single page, or the full list it falls back to when the snapshot
    expires; nothing is missing, doubled or mixed, and pages without items change
    nothing.  It does return: more steps than the longest list has pages are never
    needed. *)
Theorem pager_returns_snapshot {L I E W} `{ListObject L I} (IsResourceExpired : E -> bool)
    (p : ListPager L E W) done later snapshot token left n options w fuel :
  pages_snapshots (PageFn p) later snapshot token ->
  pages_run_out (PageFn p) left n -> Continue options = "" -> (n < fuel)%nat ->
  exists w' res paginated, List IsResourceExpired fuel p done options w = Some (w', res, paginated) /\
    forall l rv items, res = inl l -> contents l = Some (rv, items) ->
      taken p later snapshot w (ResourceVersion options) (ResourceVersionMatch options) rv items w'.
Proof.
  intros Hs Hn Hc Hf.
  destruct (List_total IsResourceExpired p done left n options w fuel Hn Hc Hf)
    as [[[w' res] pg] Hl].
  exists w', res, pg. split; [done|]. intros l rv items -> Hcont. by eapply List_snapshot.
Qed.

(** ** A server

    It counts its calls.  Its first answers are pages of the three objects it had at
    version 1, the second of them without items; then it has two others at version 2.  As the apiserver does, it refuses
    a continue token along with a resource version. *)
Module wit_server.

#[global] Instance ListObject_pages : ListObject (string * string * list nat) nat := {|
  ListAccessor := fun l => Some l.1;
  EachListItem_items := fun l => Some l.2
|}.

Definition serve (o : ListOptions) (calls : nat) : nat * (string * string * list nat + bool) :=
  (S calls,
   if decide (Continue o = "") then
     if decide (calls = 0%nat) then
       if decide (Limit o = 0) then inl ("1", "", [1; 2; 3]%nat) else inl ("1", "more", [1; 2]%nat)
     else inl ("2", "", [4; 5]%nat)
   else if decide (Continue o = "more" /\ ResourceVersion o = "") then inl ("1", "rest", [])
  else if decide (Continue o = "rest" /\ ResourceVersion o = "") then inl ("1", "", [3%nat])
   else inr false).

Definition had (o : ListOptions) (w : nat) (rv : string) (items : list nat) : Prop :=
  (rv = "1" /\ items = [1; 2; 3]%nat) \/ (rv = "2" /\ items = [4; 5]%nat).

Definition rest_of (t rv : string) (items : list nat) : Prop := (t = "more" \/ t = "rest") /\ rv = "1" /\ items = [3%nat].

Definition pages_left (t : string) : nat := if decide (t = "more") then 2 else 1.

Definition pager := New serve.

Lemma serve_pages : pages_snapshots serve le had rest_of.
Proof.
  split.
  - done.
  - intros w1 w2 w3. lia.
  - intros o w. cbn. lia.
  - intros o w w' obj rv cont items Hc Hs Ha Hi. unfold serve in Hs. cbn in *.
    rewrite decide_True in Hs by done. repeat case_decide; simplify_eq/=; simplify_eq;
      [exists []|exists [3%nat]|exists []]; unfold had, rest_of; cbn; naive_solver.
  - intros o w w' obj rv0 rest rv cont items (Ht & -> & ->) Hrv _ Hs Ha Hi. unfold serve in Hs. cbn in *.
    rewrite decide_False in Hs by (by destruct Ht as [-> | ->]).
    destruct Ht as [Ht|Ht]; rewrite ?(decide_False (P := Continue o = "more" /\ _)) in Hs by (by intros [He _]; rewrite Ht in He);
      rewrite decide_True in Hs by done; simplify_eq/=; simplify_eq; unfold rest_of; eauto 6.
  - by intros rv rest ([] & _).
Qed.

Lemma serve_ends : pages_run_out serve pages_left 3.
Proof.
  split; intros o w w' obj rv cont Ho Hs Ha Hne; injection Ha as Ha; unfold serve in Hs; injection Hs as _ Hs.
  - rewrite decide_True in Hs by done. repeat case_decide; injection Hs as <-; cbn in Ha; injection Ha as <- <-; (done || (vm_compute; lia)).
  - rewrite decide_False in Hs by done. case_decide as Hm; [|by case_decide; simplify_eq/=].
    injection Hs as <-. cbn in Ha. injection Ha as <- <-. destruct Hm as [-> _]. vm_compute. lia.
Qed.

End wit_server.

Lemma pager_returns_snapshot_witness :
  List (fun e => e) 6 wit_server.pager (fun _ => false) (mkOptions "1" "" 0 "" false None) 0%nat
    = Some (3%nat, inl (Internal "1" [1; 2; 3]%nat), true) /\
  exists w' res paginated,
    List (fun e => e) 6 wit_server.pager (fun _ => false) (mkOptions "1" "" 0 "" false None) 0%nat
      = Some (w', res, paginated) /\
    forall l rv items, res = inl l -> contents l = Some (rv, items) ->
      taken wit_server.pager le wit_server.had 0%nat "1" "" rv items w'.
Proof.
  split; [vm_compute; reflexivity|].
  apply (pager_returns_snapshot (fun e => e) wit_server.pager (fun _ => false) le
    wit_server.had wit_server.rest_of wit_server.pages_left 3 (mkOptions "1" "" 0 "" false None) 0%nat 6 wit_server.serve_pages
    wit_server.serve_ends); [reflexivity|lia].
Defined.

(** [eachListChunk] keeps the resource version of its options when it goes on with a
    continue token: what [List] reads to the end stops at the second page, with two
    of the three items seen. *)
Theorem each_item_keeps_version :
  EachListItem 6 wit_server.pager (fun _ => false) (fun i seen => (seen ++ [i], true))
    (mkOptions "1" "" 0 "" false None) 0%nat []
  = Some (2%nat, [1; 2]%nat, Some (PageError false)).
Proof. vm_compute. reflexivity. Qed.
