(* ===== verification/LoopMonad.v ===== *)
(** * A monad for endless loops

    Code that runs until it is stopped: its state is a [run], with the world [W] it
    calls, a local state and a budget.  The loops do not end by themselves, so each
    turn of a loop takes one from the budget, and a run that has used it up is
    [Running]: the budgets 0, 1, 2, ... show every moment of one endless run.
    [triple] is the logic to prove such code with, [thrifty] says that a part never
    gives itself more budget. *)

From S2P Require Import Prelude.

(** ** The monad *)

Section monad.
Context {W : Type}.

Record run (X : Type) : Type := mkRun { budget : nat; srv : W; local : X }.

Inductive outcome (A : Type) : Type :=
| Running
| Panics
| Returns (a : A).

Definition M (X A : Type) : Type := run X -> run X * outcome A.

Definition ret {X A} (a : A) : M X A := fun s => (s, Returns A a).

Definition bind {X A B} (m : M X A) (f : A -> M X B) : M X B := fun s =>
  match m s with
  | (s, Running _) => (s, Running B)
  | (s, Panics _) => (s, Panics B)
  | (s, Returns _ a) => f a s
  end.

Definition panic {X A} : M X A := fun s => (s, Panics A).

Definition tick {X} : M X unit := fun s =>
  match budget X s with
  | 0%nat => (s, Running unit)
  | S n => (mkRun X n (srv X s) (local X s), Returns unit tt)
  end.

(** [for] without a condition, the loop variable passed along; [inr] leaves it. *)
Fixpoint repeat {X A B} (n : nat) (body : A -> M X (A + B)) (a : A) : M X B :=
  match n with
  | 0%nat => fun s => (s, Running B)
  | S n => bind (tick) (fun _ => bind (body a) (fun r =>
      match r with inl a => repeat n body a | inr b => ret b end))
  end.

Definition forever {X A B} (body : A -> M X (A + B)) (a : A) : M X B := fun s =>
  repeat (S (budget X s)) body a s.

Definition get {X} : M X X := fun s => (s, Returns X (local X s)).
Definition put {X} (x : X) : M X unit := fun s => (mkRun X (budget X s) (srv X s) x, Returns unit tt).
Definition modify {X} (f : X -> X) : M X unit := fun s =>
  (mkRun X (budget X s) (srv X s) (f (local X s)), Returns unit tt).
Definition look {X A} (f : W -> A) : M X A := fun s => (s, Returns A (f (srv X s))).
Definition call {X A} (f : W -> W * A) : M X A := fun s =>
  let '(w, a) := f (srv X s) in (mkRun X (budget X s) w (local X s), Returns A a).

(** Runs a part that works on a part of the state. *)
Definition zoom {X Y A} (get : X -> Y) (put : Y -> X -> X) (m : M Y A) : M X A := fun s =>
  let '(s', out) := m (mkRun Y (budget X s) (srv X s) (get (local X s))) in
  (mkRun X (budget Y s') (srv Y s') (put (local Y s') (local X s)), out).

End monad.
Arguments run : clear implicits.
Arguments mkRun {W X}.
Arguments budget {W X} r.
Arguments srv {W X} r.
Arguments local {W X} r.
Arguments Running {A}.
Arguments Panics {A}.
Arguments Returns {A} a.
Arguments M : clear implicits.

Notation "'let!' x ':=' m 'in' k" := (bind m (fun x => k))
  (at level 200, x pattern, right associativity) : go_scope.

(** ** The logic

    Started in [P], the part does not panic; [R] holds of it whenever it is looked at,
    [Q] of its result. *)
Section triples.
Context {W : Type}.

Definition triple {X A} (R P : run W X -> Prop) (m : M W X A) (Q : A -> run W X -> Prop) : Prop :=
  forall s, P s ->
    match m s with
    | (s', Running) => R s'
    | (_, Panics) => False
    | (s', Returns a) => Q a s'
    end.

Lemma triple_ret {X A} (R P : run W X -> Prop) (Q : A -> run W X -> Prop) a :
  (forall s, P s -> Q a s) -> triple R P (ret a) Q.
Proof. intros HQ s Hs. by apply HQ. Qed.

Lemma triple_bind {X A B} (R P : run W X -> Prop) (m : M W X A) (f : A -> M W X B) Q Q' :
  triple R P m Q -> (forall a, triple R (Q a) (f a) Q') -> triple R P (bind m f) Q'.
Proof.
  intros Hm Hf s Hs. unfold bind. specialize (Hm s Hs).
  destruct (m s) as [s' [| |a]]; [done..|]. by apply Hf.
Qed.

Lemma triple_conseq {X A} (R R' P P' : run W X -> Prop) (m : M W X A) (Q Q' : A -> run W X -> Prop) :
  triple R' P' m Q' -> (forall s, P s -> P' s) -> (forall s, R' s -> R s) ->
  (forall a s, Q' a s -> Q a s) -> triple R P m Q.
Proof.
  intros Hm HP HR HQ s Hs. specialize (Hm s (HP s Hs)). destruct (m s) as [s' [| |a]]; auto.
Qed.

Lemma triple_get {X} (R P : run W X -> Prop) : triple R P get (fun x s => P s /\ x = local s).
Proof. intros s Hs. done. Qed.

Lemma triple_look {X A} (R P : run W X -> Prop) (f : W -> A) :
  triple R P (look f) (fun a s => P s /\ a = f (srv s)).
Proof. intros s Hs. done. Qed.

Lemma triple_modify {X} (R P Q : run W X -> Prop) (f : X -> X) :
  (forall n w x, P (mkRun n w x) -> Q (mkRun n w (f x))) -> triple R P (modify f) (fun _ => Q).
Proof. intros HQ [n w x] Hs. by apply HQ. Qed.

Lemma triple_put {X} (R P Q : run W X -> Prop) (x : X) :
  (forall n w x', P (mkRun n w x') -> Q (mkRun n w x)) -> triple R P (put x) (fun _ => Q).
Proof. intros HQ [n w x'] Hs. by apply (HQ n w x'). Qed.

Lemma triple_call {X A} (R P : run W X -> Prop) (Q : A -> run W X -> Prop) (f : W -> W * A) :
  (forall n w w' a x, P (mkRun n w x) -> f w = (w', a) -> Q a (mkRun n w' x)) -> triple R P (call f) Q.
Proof.
  intros HQ [n w x] Hs. unfold call. cbn. destruct (f w) as [w' a] eqn:Ef. by apply (HQ n w w' a x).
Qed.

Lemma triple_pre {X A} (R P P' : run W X -> Prop) (m : M W X A) Q :
  (forall s, P s -> P' s) -> triple R P' m Q -> triple R P m Q.
Proof. intros HP Hm s Hs. by apply Hm, HP. Qed.

Lemma triple_zoom {X Y A} (R P : run W X -> Prop) (Q : A -> run W X -> Prop) (get : X -> Y) put (m : M W Y A) :
  (forall x, triple (fun s => R (mkRun (budget s) (srv s) (put (local s) x)))
               (fun s => P (mkRun (budget s) (srv s) x) /\ local s = get x) m
               (fun a s => Q a (mkRun (budget s) (srv s) (put (local s) x)))) ->
  triple R P (zoom get put m) Q.
Proof.
  intros Hm [n w x] Hs. unfold zoom. cbn.
  specialize (Hm x (mkRun n w (get x)) (conj Hs eq_refl)).
  destruct (m _) as [s' [| |a]]; done.
Qed.

(** A loop keeps its invariant, which may mention the loop variable but not the
    budget. *)
Lemma triple_forever {X A B} (R : run W X -> Prop) (J : A -> run W X -> Prop) (body : A -> M W X (A + B)) Q a :
  (forall a s, J a s -> R s) ->
  (forall a n m w x, J a (mkRun n w x) -> J a (mkRun m w x)) ->
  (forall a, triple R (J a) (body a) (fun r s => match r with inl a => J a s | inr b => Q b s end)) ->
  triple R (J a) (forever body a) Q.
Proof.
  intros HR Hb Hbody s. unfold forever. generalize (S (budget s)). intros n. revert a s.
  induction n as [|n IH]; intros a s Hs; [by apply (HR a)|]. destruct s as [[|m] w x]; [by apply (HR a)|].
  cbn [repeat bind tick budget srv local].
  specialize (Hbody a (mkRun m w x) (Hb _ _ _ _ _ Hs)). unfold bind.
  destruct (body a _) as [s' [| |[a'|b]]]; [done|done| |done]. by apply IH.
Qed.

(** ** Total correctness

    A loop whose every turn makes a measure smaller ends before a budget larger than the
    measure does. *)

Definition total {X A} (P : run W X -> Prop) (m : M W X A) (Q : A -> run W X -> Prop) : Prop :=
  triple (fun _ => False) P m Q.

Lemma total_forever {X A B} (J : A -> run W X -> Prop) (μ : W -> X -> nat) (body : A -> M W X (A + B)) Q a :
  (forall a n m w x, J a (mkRun n w x) -> J a (mkRun m w x)) ->
  (forall a k n, total (fun s => J a s /\ μ (srv s) (local s) = k /\ budget s = n) (body a)
     (fun r s => match r with
                 | inl a => J a s /\ (μ (srv s) (local s) < k)%nat /\ budget s = n
                 | inr b => Q b s
                 end)) ->
  total (fun s => J a s /\ (μ (srv s) (local s) < budget s)%nat) (forever body a) Q.
Proof.
  intros Hb Hbody s [Hs Hm]. unfold forever.
  assert (Hn : (budget s < S (budget s))%nat) by lia. revert Hn. generalize (S (budget s)). intros n.
  revert a s Hs Hm. induction n as [|n IH]; intros a s Hs Hm Hn; [lia|]. destruct s as [[|m] w x]; [cbn in *; lia|].
  cbn [repeat bind tick budget srv local] in *.
  specialize (Hbody a (μ w x) m (mkRun m w x) (conj (Hb _ _ _ _ _ Hs) (conj eq_refl eq_refl))). unfold bind.
  destruct (body a _) as [s' [| |[a'|b]]]; [done|done| |done]. destruct Hbody as (Hs' & Hm' & Hb').
  apply IH; [done|lia|lia].
Qed.

(** ** The budget *)

(** The part keeps or spends budget, and it is cut short only when there is none. *)
Definition thrifty {X A} (m : M W X A) : Prop :=
  forall s, (budget (m s).1 <= budget s)%nat /\ ((m s).2 = Running -> budget (m s).1 = 0%nat).

Lemma thrifty_ret {X A} (a : A) : thrifty (ret (X:=X) a).
Proof. intros s. done. Qed.

Lemma thrifty_bind {X A B} (m : M W X A) (f : A -> M W X B) :
  thrifty m -> (forall a, thrifty (f a)) -> thrifty (bind m f).
Proof.
  intros Hm Hf s. unfold bind. specialize (Hm s). destruct (m s) as [s' [| |a]]; cbn in *.
  - split; [apply Hm|]. intros _. by apply Hm.
  - split; [apply Hm|done].
  - destruct (Hf a s') as [Hl Hr]. split; [lia|done].
Qed.

Lemma thrifty_tick {X} : thrifty (tick (X:=X)).
Proof. intros [[|n] w x]; cbn; split; auto with lia. done. Qed.

Lemma thrifty_get {X} : thrifty (get (X:=X)).
Proof. intros s. done. Qed.

Lemma thrifty_look {X A} (f : W -> A) : thrifty (look (X:=X) f).
Proof. intros s. done. Qed.

Lemma thrifty_modify {X} (f : X -> X) : thrifty (modify f).
Proof. intros s. done. Qed.

Lemma thrifty_put {X} (x : X) : thrifty (put x).
Proof. intros s. done. Qed.

Lemma thrifty_call {X A} (f : W -> W * A) : thrifty (call (X:=X) f).
Proof. intros s. unfold call. by destruct (f (srv s)). Qed.

Lemma thrifty_panic {X A} : thrifty (panic (X:=X) (A:=A)).
Proof. intros s. done. Qed.

Lemma thrifty_zoom {X Y A} (get : X -> Y) put (m : M W Y A) : thrifty m -> thrifty (zoom get put m).
Proof.
  intros Hm s. unfold zoom. specialize (Hm (mkRun (budget s) (srv s) (get (local s)))).
  by destruct (m _) as [s' out].
Qed.

(** A loop has turns enough: it is cut short by the budget, never by its bound. *)
Lemma thrifty_forever {X A B} (body : A -> M W X (A + B)) a :
  (forall a, thrifty (body a)) -> thrifty (forever body a).
Proof.
  intros Hbody s. unfold forever.
  assert (Hn : (budget s < S (budget s))%nat) by lia. revert Hn. generalize (S (budget s)).
  intros n. revert a s. induction n as [|n IH]; intros a [b w x] Hn; [lia|]. cbn [repeat bind tick budget srv local].
  destruct b as [|b]; [done|]. cbn in Hn.
  destruct (Hbody a (mkRun b w x)) as [Hl Hr]. unfold bind. cbn [tick budget srv local].
  destruct (body a (mkRun b w x)) as [s' [| |[a'|r]]]; cbn in *.
  - split; [lia|auto].
  - split; [lia|done].
  - destruct (IH a' s') as [IHl IHr]; [lia|]. split; [lia|done].
  - split; [lia|done].
Qed.

End triples.

(** The parts already known to be thrifty. *)
Create HintDb thrifty discriminated.

(** Proves [thrifty] by the shape of the code. *)
Ltac thrifty :=
  repeat first
    [ progress intros
    | solve [auto 2 with thrifty nocore]
    | apply thrifty_ret | apply thrifty_get | apply thrifty_look | apply thrifty_modify | apply thrifty_put
    | apply thrifty_call | apply thrifty_panic | apply thrifty_tick | apply thrifty_bind
    | apply thrifty_forever | apply thrifty_zoom
    | split_match ].
