(* ===== verification/Reflector.v ===== *)
(** * Reflectors

    tools/cache/reflector.go and retry_with_deadline.go: a [Reflector] lists the
    objects of a server into a store, then watches and passes every change on, for
    ever.  This file has the code; [ReflectorTracks] has what it does to the store.

    The code runs in the monad of [LoopMonad].  What a [select] picks is up to the
    world, in [next] of a watch: an event, the closing of the channel, the stop
    signal, the error of the resync goroutine or a tick of its timer.  Errors of the API and the objects' types are
    apimachinery's: [APIErrors], [WatchObjects].  Log messages, traces, names
    and the timeouts asked of the server are left out, and so is a panic within a list.
    Ticks of the resync goroutine are taken where the reflector waits, in the handler. *)

From S2P Require Import Prelude Objects ThreadSafeStore Store Pager LoopMonad.

(** ** What lies outside *)

Inductive EventType : Type := WAdded | WModified | WDeleted | WBookmark | WError | WOther.

#[global] Instance EventType_eq_dec : EqDecision EventType.
Proof. solve_decision. Defined.

Record watch_event (V : Type) : Type := mkEvent { Type_ : EventType; Object : iface V }.
Arguments mkEvent {V} Type_ Object.
Arguments Type_ {V} w.
Arguments Object {V} w.

(** apimachinery's api/errors and util/net. *)
Class APIErrors (V E : Type) : Type := {
  IsResourceExpired : E -> bool;
  IsGone : E -> bool;
  IsTimeout : E -> bool;
  IsTooManyRequests : E -> bool;
  IsInternalError : E -> bool;
  IsInvalid : E -> bool;
  IsConnectionRefused : E -> bool;
  HasStatusCause : E -> string -> bool;
  (** An [APIStatus]: the messages of its causes, when it has details, and its own. *)
  APIStatus : E -> option (option (list string) * string);
  FromObject : iface V -> E
}.

(** [metav1.CauseTypeResourceVersionTooLarge], [strings.Contains], types and
    annotations of objects. *)
Class WatchObjects (V T G : Type) : Type := {
  CauseTypeResourceVersionTooLarge : string;
  strings_Contains : string -> string -> bool;
  TypeOf : iface V -> T;
  GroupVersionKind : iface V -> G;
  has_annotation : iface V -> string -> bool;
  type_eq_dec :: EqDecision T;
  gvk_eq_dec :: EqDecision G
}.

(** What the [select] of a watch gets. *)
Inductive message (V : Type) : Type :=
| StopSignal
| ResyncError
| ResyncTick
| Received (event : watch_event V)
| Closed.
Arguments StopSignal {V}.
Arguments ResyncError {V}.
Arguments ResyncTick {V}.
Arguments Received {V} event.
Arguments Closed {V}.

(** The list-watcher, a watch, the stop channel, the clock, the backoff manager: its
    wait says whether the stop signal came first.  [stop_first]: the stop signal comes
    before the end of a list.  [meanwhile]: how often the store's other user gets a
    turn now. *)
Class Surroundings (V L E W WI : Type) : Type := {
  lw_List : ListOptions -> W -> W * (L + E);
  lw_Watch : ListOptions -> W -> W * (WI + E);
  next : WI -> W -> W * message V;
  StopWatch : WI -> W -> W * unit;
  stopped : W -> bool;
  stop_first : W -> bool;
  Backoff : W -> W * bool;
  Now : W -> W * Z;
  meanwhile : W -> nat
}.

(** ** The store a reflector writes to *)

Class ReflectorStore (V S : Type) : Type := {
  rs_Add : iface V -> store_op V S unit;
  rs_Update : iface V -> store_op V S unit;
  rs_Delete : iface V -> store_op V S unit;
  rs_Replace : list (iface V) -> string -> store_op V S unit;
  rs_Resync : store_op V S unit;
  (** [ResourceVersionUpdater], when the store is one. *)
  rs_UpdateResourceVersion : option (string -> S -> S);
  (** What the store's other user does in that many turns. *)
  rs_others : nat -> S -> S
}.

(** A [Store]. *)
Definition reflect_Store {V S} `{StoreI V S} : ReflectorStore V S := {|
  rs_Add := st_Add;
  rs_Update := st_Update;
  rs_Delete := st_Delete;
  rs_Replace := st_Replace;
  rs_Resync := st_Resync;
  rs_UpdateResourceVersion := None;
  rs_others := fun _ s => s
|}.

(** Where a run may be looked at: between the turns of its loops, and, with [gaps], also
    where the store has been written and the version not yet been set. *)
Class Moments : Type := { gaps : bool }.

Definition between_turns : Moments := {| gaps := false |}.
Definition also_in_gaps : Moments := {| gaps := true |}.

Definition pause `{Moments} {W X} : M W X unit := if gaps then tick else ret tt.

(** ** RetryWithDeadline *)

Record retryWithDeadlineImpl : Type := mkRetry {
  firstErrorTime : Z;
  lastErrorTime : Z;
  maxRetryDuration : Z;
  minResetPeriod : Z
}.

Definition NewRetryWithDeadline (maxRetryDuration minResetPeriod : Z) : retryWithDeadlineImpl :=
  mkRetry 0 0 maxRetryDuration minResetPeriod.

Definition reset (r : retryWithDeadlineImpl) : retryWithDeadlineImpl :=
  mkRetry 0 0 (maxRetryDuration r) (minResetPeriod r).

(** [isRetryable] is of the error; [now1], [now2], [now3] are the clock's readings, in
    order.  Go's zero time is the origin of the axis of times. *)
Definition After (isRetryable : bool) (now1 now2 now3 : Z) (r : retryWithDeadlineImpl) : retryWithDeadlineImpl :=
  if isRetryable then
    let r := if minResetPeriod r <=? time_sub now1 (lastErrorTime r) then reset r else r in
    let first := if firstErrorTime r =? 0 then now2 else firstErrorTime r in
    mkRetry first now3 (maxRetryDuration r) (minResetPeriod r)
  else r.

Definition ShouldRetry (now : Z) (r : retryWithDeadlineImpl) : retryWithDeadlineImpl * bool :=
  if maxRetryDuration r <=? 0 then (r, false)
  else if time_sub now (firstErrorTime r) <=? maxRetryDuration r then (r, true)
  else (reset r, false).

(** ** Errors *)

Inductive rerror (V E : Type) : Type :=
| APIError (e : E)
| StoreError (e : error V)
| ErrorStopRequested
| VeryShortWatch
| FailedToList (e : list_error E)
| NotUnderstood
| UnableToSync (e : error V).
Arguments APIError {V E} e.
Arguments StoreError {V E} e.
Arguments ErrorStopRequested {V E}.
Arguments VeryShortWatch {V E}.
Arguments FailedToList {V E} e.
Arguments NotUnderstood {V E}.
Arguments UnableToSync {V E} e.

Section errors.
Context {V E T G : Type} `{APIErrors V E} `{WatchObjects V T G}.

Definition isExpiredError (err : E) : bool := IsResourceExpired err || IsGone err.

Definition isTooLargeResourceVersionError (err : E) : bool :=
  if HasStatusCause err CauseTypeResourceVersionTooLarge then true
  else if negb (IsTimeout err) then false
  else
    match APIStatus err with
    | Some (Some causes, Message) =>
        if existsb (fun cause => bool_decide (cause = "Too large resource version")) causes then true
        else if strings_Contains Message "Too large resource version" then true
        else false
    | _ => false
    end.

Definition isWatchErrorRetriable (err : E) : bool := IsConnectionRefused err || IsTooManyRequests err.

(** An error of the API, wrapped or not: the helpers of api/errors see through [%w]. *)
Definition api_error (p : E -> bool) (err : rerror V E) : bool :=
  match err with
  | APIError e | FailedToList (PageError e) => p e
  | _ => false
  end.

(** What the pager returned was such an error. *)
Definition listed_error {I LL} (p : E -> bool) (res : listed LL I + list_error E) : bool :=
  match res with
  | inr (PageError e) => p e
  | _ => false
  end.

End errors.

(** ** The reflector *)

Definition Minute : Z := 60 * Second.

Record Reflector (T G W : Type) : Type := mkReflector {
  expectedType : option T;
  expectedGVK : option G;
  resyncPeriod : Z;
  paginatedResult : bool;
  lastSyncResourceVersion : string;
  isLastSyncResourceVersionUnavailable : bool;
  WatchListPageSize : Z;
  ShouldResync : option (W -> bool);
  MaxInternalErrorRetryDuration : Z;
  UseWatchList : bool
}.
Arguments mkReflector {T G W}.
Arguments expectedType {T G W} r.
Arguments expectedGVK {T G W} r.
Arguments resyncPeriod {T G W} r.
Arguments paginatedResult {T G W} r.
Arguments lastSyncResourceVersion {T G W} r.
Arguments isLastSyncResourceVersionUnavailable {T G W} r.
Arguments WatchListPageSize {T G W} r.
Arguments ShouldResync {T G W} r.
Arguments MaxInternalErrorRetryDuration {T G W} r.
Arguments UseWatchList {T G W} r.

Section reflector.
Context {O L E T G W WI : Type} `{MetaAccessor O} `{ListObject L (iface (value O))} `{APIErrors (value O) E}
  `{WatchObjects (value O) T G} `{Surroundings (value O) L E W WI}.
Local Abbreviation V := (value O).
Local Abbreviation rerror := (rerror V E).
Local Abbreviation Reflector := (Reflector T G W).

(** Whether an example object is an [*Unstructured], and whether a GVK is empty, are
    apimachinery's. *)
Definition getExpectedGVKFromObject (is_unstructured : iface V -> bool) (Empty : G -> bool) (expected : iface V)
    : option G :=
  if is_unstructured expected then
    let gvk := GroupVersionKind expected in if Empty gvk then None else Some gvk
  else None.

(** Its options for log messages and tests aside; [watch_list_alpha] says whether the
    environment variable is set. *)
Definition NewReflectorWithOptions (is_unstructured : iface V -> bool) (Empty : G -> bool) (watch_list_alpha : bool)
    (expected : iface V) (ResyncPeriod : Z) : Reflector :=
  mkReflector (match expected with None => None | Some _ => Some (TypeOf expected) end)
    (getExpectedGVKFromObject is_unstructured Empty expected) ResyncPeriod false "" false 0 None 0 watch_list_alpha.

Definition set_paginatedResult (b : bool) (r : Reflector) : Reflector :=
  mkReflector (expectedType r) (expectedGVK r) (resyncPeriod r) b (lastSyncResourceVersion r)
    (isLastSyncResourceVersionUnavailable r) (WatchListPageSize r) (ShouldResync r)
    (MaxInternalErrorRetryDuration r) (UseWatchList r).

Definition setLastSyncResourceVersion (v : string) (r : Reflector) : Reflector :=
  mkReflector (expectedType r) (expectedGVK r) (resyncPeriod r) (paginatedResult r) v
    (isLastSyncResourceVersionUnavailable r) (WatchListPageSize r) (ShouldResync r)
    (MaxInternalErrorRetryDuration r) (UseWatchList r).

Definition setIsLastSyncResourceVersionUnavailable (isUnavailable : bool) (r : Reflector) : Reflector :=
  mkReflector (expectedType r) (expectedGVK r) (resyncPeriod r) (paginatedResult r) (lastSyncResourceVersion r)
    isUnavailable (WatchListPageSize r) (ShouldResync r) (MaxInternalErrorRetryDuration r) (UseWatchList r).

Definition LastSyncResourceVersion (r : Reflector) : string := lastSyncResourceVersion r.

Definition relistResourceVersion (r : Reflector) : string :=
  if isLastSyncResourceVersionUnavailable r then ""
  else if decide (lastSyncResourceVersion r = "") then "0"
  else lastSyncResourceVersion r.

Definition rewatchResourceVersion (r : Reflector) : string :=
  if isLastSyncResourceVersionUnavailable r then "" else lastSyncResourceVersion r.

(** *** watchHandler

    Its state: the store, what [setLastSyncResourceVersion] sets, the channel of the
    resync goroutine and whether that goroutine runs. *)
Section handler.
Context {S : Type} `{ReflectorStore V S} `{Moments}.

Record handler : Type := mkHandler {
  h_store : S;
  h_version : string;
  h_errc : option rerror;
  h_resync : bool
}.

Definition with_store (s : S) (h : handler) : handler := mkHandler s (h_version h) (h_errc h) (h_resync h).

(** A call of a method of the store. *)
Definition on_store (op : store_op V S unit) : M W handler (result V unit) :=
  let! h := get in
  match op (h_store h) with
  | None => panic
  | Some (s, r) => let! _ := put (with_store s h) in ret r
  end.

(** The store's other user takes its turns. *)
Definition others : M W handler unit :=
  let! n := look meanwhile in modify (fun h => with_store (rs_others n (h_store h)) h).

(** A tick of [startResync]'s timer: the goroutine ends when the store fails, and the
    error waits in the channel. *)
Definition resync (ShouldResync : option (W -> bool)) : M W handler unit :=
  let! h := get in
  let! should := look (fun w => match ShouldResync with None => true | Some f => f w end) in
  if (h_resync h && should)%bool then
    let! r := on_store rs_Resync in
    match r with
    | Ok _ => ret tt
    | Err e => modify (fun h => mkHandler (h_store h) (h_version h) (Some (StoreError e)) false)
    end
  else ret tt.

Definition set_version (version : string) (h : handler) : handler :=
  let h := mkHandler (h_store h) version (h_errc h) (h_resync h) in
  match rs_UpdateResourceVersion with
  | None => h
  | Some update => with_store (update version (h_store h)) h
  end.

(** What a turn of the loop comes to: it goes on, the event counted or not, or
    returns, with whether the bookmark has come. *)
Inductive handled : Type :=
| Skipped
| Counted
| Exits (err : option rerror) (bookmark : bool).

Definition initial_events_end : string := "k8s.io/initial-events-end".

Definition unexpected (r : Reflector) (obj : iface V) : bool :=
  (match expectedType r with Some e => negb (bool_decide (e = TypeOf obj)) | None => false end ||
   match expectedGVK r with Some e => negb (bool_decide (e = GroupVersionKind obj)) | None => false end)%bool.

(** What an event does to the store. *)
Definition store_event (event : watch_event V) : store_op V S unit := fun s =>
  match Type_ event with
  | WAdded => rs_Add (Object event) s
  | WModified => rs_Update (Object event) s
  | WDeleted => rs_Delete (Object event) s
  | WBookmark | WError | WOther => Some (s, Ok tt)
  end.

(** The case of an event; errors of the store are only logged. *)
Definition handle_event (r : Reflector) (exitOnInitialEventsEndBookmark : bool) (event : watch_event V)
    : M W handler handled :=
  let obj := Object event in
  if decide (Type_ event = WError) then ret (Exits (Some (APIError (FromObject obj))) false)
  else if unexpected r obj then ret Skipped
  else
    match Accessor obj with
    | Err _ => ret Skipped
    | Ok meta =>
        let! _ := on_store (store_event event) in
        let! _ := pause in
        let! _ := modify (set_version (GetResourceVersion meta)) in
        if (bool_decide (Type_ event = WBookmark) && has_annotation obj initial_events_end
            && exitOnInitialEventsEndBookmark)%bool
        then ret (Exits None true)
        else ret Counted
    end.

Definition handle (r : Reflector) (start : Z) (exitOnInitialEventsEndBookmark : bool) (eventCount : Z)
    (m : message V) : M W handler handled :=
  match m with
  | StopSignal => ret (Exits (Some ErrorStopRequested) false)
  | ResyncError =>
      let! h := get in
      match h_errc h with
      | Some err =>
          let! _ := put (mkHandler (h_store h) (h_version h) None (h_resync h)) in
          ret (Exits (Some err) false)
      | None => ret Skipped
      end
  | ResyncTick => let! _ := resync (ShouldResync r) in ret Skipped
  | Received event => handle_event r exitOnInitialEventsEndBookmark event
  | Closed =>
      let! now := call Now in
      if ((time_sub now start <? 1 * Second) && (eventCount =? 0))%bool
      then ret (Exits (Some VeryShortWatch) false)
      else ret (Exits None false)
  end.

Definition watchHandler (r : Reflector) (start : Z) (wi : WI) (exitOnInitialEventsEndBookmark : bool)
    : M W handler (option rerror * bool) :=
  forever (fun eventCount =>
    let! m := call (next wi) in
    let! _ := others in
    let! out := handle r start exitOnInitialEventsEndBookmark eventCount m in
    match out with
    | Skipped => ret (inl eventCount)
    | Counted => ret (inl (eventCount + 1))
    | Exits err bookmark => ret (inr (err, bookmark))
    end) 0.

End handler.
Arguments handler : clear implicits.

(** *** Listing and watching *)

Section loops.
Context {S : Type} `{ReflectorStore V S} `{Moments} `{MapRange} `{SetsString}.

(** The reflector, its store, and its resync goroutine. *)
Record reflecting : Type := mkReflecting {
  refl : Reflector;
  store : S;
  resyncerrc : option rerror;
  resyncing : bool
}.

Definition with_refl (f : Reflector -> Reflector) (x : reflecting) : reflecting :=
  mkReflecting (f (refl x)) (store x) (resyncerrc x) (resyncing x).

(** The handler on the reflector's own store. *)
Definition to_handler (x : reflecting) : handler S :=
  mkHandler (store x) (lastSyncResourceVersion (refl x)) (resyncerrc x) (resyncing x).
Definition of_handler (h : handler S) (x : reflecting) : reflecting :=
  mkReflecting (setLastSyncResourceVersion (h_version h) (refl x)) (h_store h) (h_errc h) (h_resync h).

(** [store.Replace] and [setLastSyncResourceVersion] after it. *)
Definition syncWith (items : list (iface V)) (resourceVersion : string) : M W reflecting (result V unit) :=
  zoom to_handler of_handler (let! _ := others in on_store (rs_Replace items resourceVersion)).

Definition sync_to (items : list (iface V)) (resourceVersion : string) : M W reflecting (option rerror) :=
  let! res := syncWith items resourceVersion in
  match res with
  | Err e => ret (Some (UnableToSync e))
  | Ok _ =>
      let! _ := pause in
      let! _ := modify (with_refl (setLastSyncResourceVersion resourceVersion)) in
      ret None
  end.

(** The pager [list] sets up. *)
Definition list_pager (r : Reflector) (ResourceVersion : string) : ListPager L E W :=
  let pager := New lw_List in
  let PageSize :=
    if negb (WatchListPageSize r =? 0) then WatchListPageSize r
    else if paginatedResult r then PageSize pager
    else if (negb (bool_decide (ResourceVersion = "")) && negb (bool_decide (ResourceVersion = "0")))%bool then 0
    else PageSize pager in
  mkPager PageSize (PageFn pager) (FullListIfExpired pager) (PageBufferSize pager).

Definition options_at (ResourceVersion : string) : ListOptions := mkOptions ResourceVersion "" 0 "" false None.

(** A pager call of at most [pages] pages; the context is never done. *)
Definition pager_list (pages : nat) (p : ListPager L E W) (options : ListOptions)
    : M W reflecting ((listed L (iface V) + list_error E) * bool) := fun s =>
  match List IsResourceExpired pages p (fun _ => false) options (srv s) with
  | None => (s, Running)
  | Some (w, res, paginated) => (mkRun (budget s) w (local s), Returns (res, paginated))
  end.

Definition Reflector_list (pages : nat) : M W reflecting (option rerror) :=
  let! x := get in
  let ResourceVersion := relistResourceVersion (refl x) in
  let pager := list_pager (refl x) ResourceVersion in
  let! res := pager_list pages pager (options_at ResourceVersion) in
  let! (res, paginated) :=
    if (listed_error isExpiredError res.1 || listed_error isTooLargeResourceVersionError res.1)%bool then
      let! _ := modify (with_refl (setIsLastSyncResourceVersionUnavailable true)) in
      let! x := get in
      pager_list pages pager (options_at (relistResourceVersion (refl x)))
    else ret res in
  let! stop := look stop_first in
  if (stop : bool) then ret None
  else
    match res with
    | inr e => ret (Some (FailedToList e))
    | inl l =>
        let! _ :=
          if (bool_decide (ResourceVersion = "0") && paginated)%bool
          then modify (with_refl (set_paginatedResult true)) else ret tt in
        let! _ := modify (with_refl (setIsLastSyncResourceVersionUnavailable false)) in
        match contents l with
        | None => ret (Some NotUnderstood)
        | Some (resourceVersion, items) => sync_to items resourceVersion
        end
    end.

(** [isErrorRetriableWithSideEffectsFn]; waiting for the backoff there does not
    heed the stop signal. *)
Definition isErrorRetriableWithSideEffectsFn (err : rerror) : M W reflecting bool :=
  if api_error isWatchErrorRetriable err then let! _ := call Backoff in ret true
  else if (api_error isExpiredError err || api_error isTooLargeResourceVersionError err)%bool
  then let! _ := modify (with_refl (setIsLastSyncResourceVersionUnavailable true)) in ret true
  else ret false.

Definition watchList_options (ResourceVersion : string) : ListOptions :=
  mkOptions ResourceVersion "NotOlderThan" 0 "" true (Some true).

(** The handler on a temporary store, which the rest of the program does not see. *)
Local Abbreviation temporary := (cache V (threadSafeMap V)).

Definition temporary_handler (r : Reflector) (start : Z) (wi : WI)
    : M W reflecting ((option rerror * bool) * (temporary * string)) := fun s =>
  let '(s', out) := @watchHandler temporary reflect_Store _ r start wi true
    (mkRun (budget s) (srv s) (mkHandler (NewStore DeletionHandlingMetaNamespaceKeyFunc) "" None false)) in
  (mkRun (budget s') (srv s') (local s),
   match out with
   | Running => Running
   | Panics => Panics
   | Returns a => Returns (a, (h_store (local s'), h_version (local s')))
   end).

(** A turn of [watchList]'s loop. *)
Definition watchList_turn
    : M W reflecting (unit + ((option WI * option rerror) + (WI * temporary * string))) :=
  let! stop := look stopped in
  if (stop : bool) then ret (inr (inl (None, None)))
  else
    let! x := get in
    let! start := call Now in
    let! w := call (lw_Watch (watchList_options (rewatchResourceVersion (refl x)))) in
    match w with
    | inr e =>
        let! again := isErrorRetriableWithSideEffectsFn (APIError e) in
        if (again : bool) then ret (inl tt) else ret (inr (inl (None, Some (APIError e))))
    | inl wi =>
        let! ((err, bookmark), (temporaryStore, resourceVersion)) := temporary_handler (refl x) start wi in
        match err with
        | Some ErrorStopRequested =>
            let! _ := call (StopWatch wi) in ret (inr (inl (None, None)))
        | Some err =>
            let! _ := call (StopWatch wi) in
            let! again := isErrorRetriableWithSideEffectsFn err in
            if (again : bool) then ret (inl tt) else ret (inr (inl (None, Some err)))
        | None =>
            if (bookmark : bool) then ret (inr (inr (wi, temporaryStore, resourceVersion))) else ret (inl tt)
        end
    end.

(** The watch and the error; neither when the reflector is stopped. *)
Definition watchList : M W reflecting (option WI * option rerror) :=
  let! r := forever (fun _ => watchList_turn) tt in
  match r with
  | inl early => ret early
  | inr (wi, temporaryStore, resourceVersion) =>
      let! _ := modify (with_refl (setIsLastSyncResourceVersionUnavailable false)) in
      let! err := sync_to (st_List temporaryStore) resourceVersion in
      match err with
      | Some err => ret (None, Some err)
      | None => ret (Some wi, None)
      end
  end.

(** [retry.After(err)], with the readings of the clock it may make. *)
Definition After_error (err : option rerror) (retry : retryWithDeadlineImpl) : M W reflecting retryWithDeadlineImpl :=
  match err with
  | Some e =>
      if api_error IsInternalError e then
        let! now1 := call Now in
        let! now2 := call Now in
        let! now3 := call Now in
        ret (After true now1 now2 now3 retry)
      else ret retry
  | None => ret retry
  end.

Definition watch_options (ResourceVersion : string) : ListOptions :=
  mkOptions ResourceVersion "" 0 "" true None.

(** What follows a handler's return: another turn, with no watch, or the end. *)
Definition after_handler (err : option rerror) (retry : retryWithDeadlineImpl)
    : M W reflecting ((option WI * retryWithDeadlineImpl) + option rerror) :=
  let! retry := After_error err retry in
  match err with
  | None => ret (inl (None, retry))
  | Some ErrorStopRequested => ret (inr None)
  | Some e =>
      if api_error isExpiredError e then ret (inr None)
      else if api_error IsTooManyRequests e then
        let! stop := call Backoff in
        if (stop : bool) then ret (inr None) else ret (inl (None, retry))
      else if api_error IsInternalError e then
        let! now := call Now in
        let '(retry, again) := ShouldRetry now retry in
        if again then ret (inl (None, retry)) else ret (inr None)
      else ret (inr None)
  end.

Definition handle_watch (start : Z) (wi : WI) (retry : retryWithDeadlineImpl)
    : M W reflecting ((option WI * retryWithDeadlineImpl) + option rerror) :=
  let! x := get in
  let! (err, _) := zoom to_handler of_handler (watchHandler (refl x) start wi false) in
  let! _ := call (StopWatch wi) in
  after_handler err retry.

(** A turn of [watch]'s loop, with the watch it has, if any. *)
Definition watch_turn (w : option WI) (retry : retryWithDeadlineImpl)
    : M W reflecting ((option WI * retryWithDeadlineImpl) + option rerror) :=
  let! stop := look stopped in
  if (stop : bool) then ret (inr None)
  else
    let! start := call Now in
    match w with
    | Some wi => handle_watch start wi retry
    | None =>
        let! x := get in
        let! w := call (lw_Watch (watch_options (LastSyncResourceVersion (refl x)))) in
        match w with
        | inr e =>
            if isWatchErrorRetriable e then
              let! stop := call Backoff in
              if (stop : bool) then ret (inr None) else ret (inl (None, retry))
            else ret (inr (Some (APIError e)))
        | inl wi => handle_watch start wi retry
        end
    end.

Definition watch (w : option WI) : M W reflecting (option rerror) :=
  let! x := get in
  forever (fun '(w, retry) => watch_turn w retry)
    (w, NewRetryWithDeadline (MaxInternalErrorRetryDuration (refl x)) Minute).

(** [resyncChan]: without a period the timer never fires. *)
Definition startResync (x : reflecting) : reflecting :=
  mkReflecting (refl x) (store x) None (negb (resyncPeriod (refl x) =? 0)).
Definition cancelResync (x : reflecting) : reflecting := mkReflecting (refl x) (store x) None false.

Definition watch_with_resync (w : option WI) : M W reflecting (option rerror) :=
  let! _ := modify startResync in
  let! err := watch w in
  let! _ := modify cancelResync in
  ret err.

Definition list_and_watch (pages : nat) : M W reflecting (option rerror) :=
  let! err := Reflector_list pages in
  match err with
  | Some err => ret (Some err)
  | None => watch_with_resync None
  end.

Definition ListAndWatch (pages : nat) : M W reflecting (option rerror) :=
  let! x := get in
  if UseWatchList (refl x) then
    let! r := watchList in
    match r with
    | (None, None) => ret None
    | (w, None) => watch_with_resync w
    | (_, Some err) =>
        if api_error IsInvalid err then list_and_watch pages else ret (Some err)
    end
  else list_and_watch pages.

(** [Run]: [wait.BackoffUntil] calls [ListAndWatch] and waits, until it is stopped.
    The error handler only logs. *)
Definition Run (pages : nat) : M W reflecting unit :=
  forever (fun _ =>
    let! stop := look stopped in
    if (stop : bool) then ret (inr tt)
    else
      let! _ := ListAndWatch pages in
      let! stop := call Backoff in
      if (stop : bool) then ret (inr tt) else ret (inl tt)) tt.

End loops.
End reflector.
Arguments handler : clear implicits.
Arguments handled : clear implicits.
Arguments reflecting : clear implicits.

(** ** Properties of RetryWithDeadline *)

(** The answers to retryable errors at the times [ts]. *)
Fixpoint answers (ts : list Z) (r : retryWithDeadlineImpl) : list bool :=
  match ts with
  | [] => []
  | t :: ts =>
      let '(r, again) := ShouldRetry t (After true t t t r) in again :: answers ts r
  end.

(** Each time comes less than [d] after the one before. *)
Fixpoint close_together (d t : Z) (ts : list Z) : Prop :=
  match ts with
  | [] => True
  | t' :: ts => t <= t' < t + d /\ close_together d t' ts
  end.

Lemma answer_within max d t0 last t :
  0 < t0 -> t0 <= last -> last <= t < last + d -> 0 < max < MaxInt64 -> d <= MaxInt64 ->
  ShouldRetry t (After true t t t (mkRetry t0 last max d)) =
    (if t - t0 <=? max then (mkRetry t0 t max d, true) else (mkRetry 0 0 max d, false)).
Proof.
  intros H0 Hl Ht Hm Hd. unfold After, ShouldRetry. cbn [minResetPeriod maxRetryDuration firstErrorTime lastErrorTime].
  replace (d <=? time_sub t last) with false by (symmetry; apply Z.leb_gt; unfold time_sub, MaxInt64, MinInt64 in *; lia).
  cbn [firstErrorTime]. replace (t0 =? 0) with false by (symmetry; apply Z.eqb_neq; lia).
  cbn [firstErrorTime maxRetryDuration]. replace (max <=? 0) with false by (symmetry; apply Z.leb_gt; lia).
  assert (Heq : (time_sub t t0 <=? max) = (t - t0 <=? max)).
  { apply eq_iff_eq_true. rewrite !Z.leb_le. unfold time_sub, MaxInt64, MinInt64 in *. lia. }
  rewrite Heq. by destruct (t - t0 <=? max).
Qed.

(** Internal errors are retried until the deadline.  In a burst of errors, each
    less than [minResetPeriod] after the one before, every error at most
    [maxRetryDuration] after the first is retried and the first later one is not,
    whenever the burst starts and however many errors it has. *)
Theorem retry_until_deadline max d t0 ts t :
  0 < max < MaxInt64 -> 0 < d <= t0 -> d <= MaxInt64 ->
  close_together d t0 (ts ++ [t]) -> Forall (fun t' => t' - t0 <= max) ts -> max < t - t0 ->
  answers (t0 :: ts ++ [t]) (NewRetryWithDeadline max d) = true :: ((fun _ => true) <$> ts) ++ [false].
Proof.
  intros Hm Hd Hd' Hc Hin Hout. cbn [answers].
  assert (Hfirst : ShouldRetry t0 (After true t0 t0 t0 (NewRetryWithDeadline max d)) = (mkRetry t0 t0 max d, true)).
  { unfold After, ShouldRetry, NewRetryWithDeadline. cbn [minResetPeriod maxRetryDuration firstErrorTime lastErrorTime].
    replace (d <=? time_sub t0 0) with true by (symmetry; apply Z.leb_le; unfold time_sub, MaxInt64, MinInt64 in *; lia).
    cbn. replace (max <=? 0) with false by (symmetry; apply Z.leb_gt; lia).
    rewrite time_sub_exact by (unfold in_int64, MaxInt64, MinInt64; lia). rewrite Z.sub_diag.
    by replace (0 <=? max) with true by (symmetry; apply Z.leb_le; lia). }
  rewrite Hfirst. f_equal. clear Hfirst.
  assert (Hgen : forall last, t0 <= last -> close_together d last (ts ++ [t]) ->
    answers (ts ++ [t]) (mkRetry t0 last max d) = ((fun _ => true) <$> ts) ++ [false]); [|apply Hgen; [lia|done]].
  clear Hc. induction Hin as [|t1 ts H1 Hin IH]; intros last Hl [Ht Hc]; cbn [app fmap list_fmap answers].
  - rewrite answer_within by lia. by replace (t - t0 <=? max) with false by (symmetry; apply Z.leb_gt; lia).
  - rewrite answer_within by lia. replace (t1 - t0 <=? max) with true by (symmetry; apply Z.leb_le; lia).
    f_equal. apply IH; [lia|done].
Qed.

(** Errors at 100, 130 and 155 s, with a minute each way. *)
Lemma retry_until_deadline_witness :
  answers [100 * Second; 130 * Second; 155 * Second; 170 * Second] (NewRetryWithDeadline Minute Minute)
  = [true; true; true; false].
Proof.
  apply (retry_until_deadline Minute Minute (100 * Second) [130 * Second; 155 * Second] (170 * Second));
    unfold Minute, Second, Millisecond, Microsecond, Nanosecond, MaxInt64; cbn; try lia.
  repeat constructor; cbn; lia.
Defined.
