(* ===== verification/ReflectorTracks.v ===== *)
(** * What a reflector keeps true

    [Reflector]'s loops against a server that keeps the promises of the API
    ([serves]) and a store that represents a map ([Reflected]): at every moment the
    store holds exactly the objects the server had at the reflector's
    [lastSyncResourceVersion], and that version never goes back. *)

From S2P Require Import Prelude Objects ThreadSafeStore Store DeltaFIFO Controller Pager LoopMonad Reflector.

(** ** The store's promise *)

Section promises.
Context {O : Type} `{MetaAccessor O}.
Local Abbreviation V := (value O).
Local Abbreviation key := (DeletionHandlingMetaNamespaceKeyFunc (O:=O)).

(** The store represents a map under the keys of [MetaNamespaceKeyFunc], for the
    objects [acc] accepts; a resync, which may fail, its other user and the news of a
    version do not change what it represents. *)
Class Reflected (acc : iface V -> Prop) (S : Type) `{ReflectorStore V S} : Type := {
  represents : S -> gmap string (iface V) -> Prop;
  rs_Add_law obj k s m : represents s m -> acc obj -> key obj = Ok k ->
    exists s', rs_Add obj s = Some (s', Ok tt) /\ represents s' (<[k := obj]> m);
  rs_Update_law obj k s m : represents s m -> acc obj -> key obj = Ok k ->
    exists s', rs_Update obj s = Some (s', Ok tt) /\ represents s' (<[k := obj]> m);
  rs_Delete_law obj k s m : represents s m -> acc obj -> key obj = Ok k ->
    exists s', rs_Delete obj s = Some (s', Ok tt) /\ represents s' (delete k m);
  rs_Replace_law l rv s m m' : represents s m -> Forall acc l -> items_of_list key l ∅ = Ok m' ->
    exists s', rs_Replace l rv s = Some (s', Ok tt) /\ represents s' m';
  rs_Resync_law s m : represents s m -> exists s' r, rs_Resync s = Some (s', r) /\ represents s' m;
  rs_others_law n s m : represents s m -> represents (rs_others n s) m;
  rs_UpdateResourceVersion_law f rv s m :
    rs_UpdateResourceVersion = Some f -> represents s m -> represents (f rv s) m
}.

(** ** The server's promise *)

(** Where a watch is: it sends the changes after a version, or, before that, the
    objects of a version not older than [least], of which it has sent [sent]. *)
Inductive phase : Type :=
| Live (rv : string)
| Initial (least : Z) (sent : gmap string (iface V)).

Section server.
Context {L E T G W WI : Type} `{ListObject L (iface V)} `{APIErrors V E} `{WatchObjects V T G}
  `{Surroundings V L E W WI}.

(** [state rv] is what the server has at version [rv], versions are ordered by
    [rank], and [newest w] is the newest version the server has told of in [w]. *)
Variables (state : string -> gmap string (iface V)) (rank : string -> Z) (newest : W -> Z).
Variables (acc unexp : iface V -> Prop) (token : string -> string -> list (iface V) -> Prop).
Variable streams : WI -> phase -> W -> Prop.

Definition later (w w' : W) : Prop := newest w <= newest w'.

(** A list has the objects of one version, each once: of the newest when none is asked for, of
    any for "0", otherwise of one not older than asked for. *)
Definition listing (o : ListOptions) (w : W) (rv : string) (items : list (iface V)) : Prop :=
  rv <> "" /\ rv <> "0" /\ Forall acc items /\ items_of_list key items ∅ = Ok (state rv) /\
  length items = size (state rv) /\ rank rv <= newest (lw_List o w).1 /\
  (if decide (ResourceVersion o = "") then newest w <= rank rv
   else if decide (ResourceVersion o = "0") then True
   else rank (ResourceVersion o) <= rank rv).

(** What an object event does to a map. *)
Definition change (t : EventType) (k : string) (obj : iface V) (m : gmap string (iface V)) : gmap string (iface V) :=
  match t with
  | WAdded | WModified => <[k := obj]> m
  | WDeleted => delete k m
  | WBookmark | WError | WOther => m
  end.

(** A new version, told of in [w], and the map of a phase that moves to it. *)
Definition moves_to (rv : string) (m : gmap string (iface V)) (least : Z) (w : W) : Prop :=
  rv <> "" /\ rv <> "0" /\ state rv = m /\ least <= rank rv <= newest w.

(** An event: an error; an event about an object of another type; a change; or a
    bookmark.  The first annotated bookmark ends the initial objects. *)
Definition sends (wi : WI) (ph : phase) (ev : watch_event V) (w : W) : Prop :=
  let obj := Object ev in
  Type_ ev = WError \/
  (unexp obj /\ streams wi ph w) \/
  (~ unexp obj /\ exists meta, Accessor obj = Ok meta /\
   let rv := GetResourceVersion meta in
   match Type_ ev with
   | WAdded | WModified | WDeleted =>
       exists k, acc obj /\ key obj = Ok k /\
       match ph with
       | Live rv0 => moves_to rv (change (Type_ ev) k obj (state rv0)) (rank rv0) w /\ streams wi (Live rv) w
       | Initial least sent => streams wi (Initial least (change (Type_ ev) k obj sent)) w
       end
   | WBookmark =>
       match ph with
       | Live rv0 => moves_to rv (state rv0) (rank rv0) w /\ streams wi (Live rv) w
       | Initial least sent =>
           if has_annotation obj initial_events_end
           then moves_to rv sent least w /\ streams wi (Live rv) w
           else streams wi ph w
       end
   | WError | WOther => False
   end).

Record serves : Prop := {
  sv_pages : pages_snapshots lw_List later listing token;
  sv_state rv k obj : state rv !! k = Some obj -> key obj = Ok k /\ acc obj;
  sv_Watch_later o w : later w (lw_Watch o w).1;
  sv_next_later wi w : later w (next wi w).1;
  sv_StopWatch_later wi w : later w (StopWatch wi w).1;
  sv_Backoff_later w : later w (Backoff w).1;
  sv_Now_later w : later w (Now w).1;
  sv_watch rv w w' wi : rv <> "" -> lw_Watch (watch_options rv) w = (w', inl wi) -> streams wi (Live rv) w';
  sv_watchList rv w w' wi : lw_Watch (watchList_options rv) w = (w', inl wi) ->
    streams wi (Initial (if decide (rv = "") then newest w else rank rv) ∅) w';
  sv_next wi ph w w' m : streams wi ph w -> next wi w = (w', m) ->
    match m with
    | Received ev => sends wi ph ev w'
    | Closed => True
    | StopSignal | ResyncError | ResyncTick => streams wi ph w'
    end;
  sv_Now wi ph w : streams wi ph w -> streams wi ph (Now w).1;
  (** A closed stop channel stays closed. *)
  sv_stop w : stop_first w = true -> stopped w = true;
  sv_Backoff_stop w w' : Backoff w = (w', true) -> stopped w' = true
}.

End server.
End promises.

(** ** The handler *)

Section handler.
Context {O L E T G W WI : Type} `{MetaAccessor O} `{ListObject L (iface (value O))} `{APIErrors (value O) E}
  `{WatchObjects (value O) T G} `{Surroundings (value O) L E W WI}.
Local Abbreviation V := (value O).
Local Abbreviation key := (DeletionHandlingMetaNamespaceKeyFunc (O:=O)).
Variables (state : string -> gmap string (iface V)) (rank : string -> Z) (newest : W -> Z).
Variables (acc unexp : iface V -> Prop) (token : string -> string -> list (iface V) -> Prop).
Variable streams : WI -> phase (O:=O) -> W -> Prop.
Hypothesis Hserves : serves state rank newest acc unexp token streams.
Context {S : Type} `{Hrs : ReflectorStore V S} `{Hrl : !Reflected acc S} `{Hmoments : Moments}.
Variables (r : Reflector T G W) (floor : Z) (w0 : W).
Hypothesis Hunexp : forall obj, unexpected r obj = true <-> unexp obj.

Lemma later_trans w1 w2 w3 : later newest w1 w2 -> later newest w2 w3 -> later newest w1 w3.
Proof. unfold later. lia. Qed.

(** The store in a phase; no version from before [floor]. *)
Definition holds (ph : phase) (s : run W (handler O E S)) : Prop :=
  later newest w0 (srv s) /\
  match ph with
  | Live rv =>
      h_version (local s) = rv /\ represents (h_store (local s)) (state rv) /\ rv <> "" /\ rv <> "0" /\
      floor <= rank rv <= newest (srv s)
  | Initial least sent => represents (h_store (local s)) sent /\ floor <= least
  end.

Definition is_live (ph : phase (O:=O)) : Prop := exists rv, ph = Live rv.

(** In some phase, a live one if [live]. *)
Definition looked (live : bool) (s : run W (handler O E S)) : Prop :=
  exists ph, holds ph s /\ (live = true -> is_live ph).

(** The store is written and the version not yet set: the store is at a version, and the
    version that is set is one that is not newer. *)
Definition written (s : run W (handler O E S)) : Prop :=
  exists rv, represents (h_store (local s)) (state rv) /\ rv <> "" /\ rv <> "0" /\
    h_version (local s) <> "" /\ h_version (local s) <> "0" /\
    floor <= rank (h_version (local s)) <= rank rv /\ rank rv <= newest (srv s).

(** At any moment there is. *)
Definition glimpsed (live : bool) (s : run W (handler O E S)) : Prop :=
  looked live s \/ (gaps = true /\ later newest w0 (srv s) /\ (live = true -> written s)).

Definition streaming (live : bool) (wi : WI) (s : run W (handler O E S)) : Prop :=
  exists ph, holds ph s /\ (live = true -> is_live ph) /\ streams wi ph (srv s).

Lemma holds_budget ph n m w x : holds ph (mkRun n w x) -> holds ph (mkRun m w x).
Proof. done. Qed.

Lemma holds_later ph n w w' x : holds ph (mkRun n w x) -> later newest w w' -> holds ph (mkRun n w' x).
Proof.
  unfold later. intros [Hw Hph] Hl. split; [unfold later in *; cbn in *; lia|].
  destruct ph as [rv|least sent]; [|done]. cbn in *. destruct Hph as (? & ? & ? & ? & ? & ?). split_and!; try done; lia.
Qed.

(** The store's other user, or the resync goroutine, at work. *)
Lemma holds_store ph n w h s' :
  holds ph (mkRun n w h) ->
  (forall m, represents (h_store h) m -> represents s' m) ->
  holds ph (mkRun n w (with_store s' h)).
Proof.
  intros [Hw Hph] Hs. split; [done|]. destruct ph as [rv|least sent]; cbn in *.
  - destruct Hph as (Hv & Hr & Hrest). split; [done|]. split; [by apply Hs|done].
  - destruct Hph as [Hr Hf]. auto.
Qed.

Lemma triple_others (R : run W (handler O E S) -> Prop) (Q : run W (handler O E S) -> Prop) :
  (forall n w h s', Q (mkRun n w h) -> (forall m, represents (h_store h) m -> represents s' m) ->
     Q (mkRun n w (with_store s' h))) ->
  triple R Q others (fun _ => Q).
Proof.
  intros HQ. eapply triple_bind; [apply triple_look|]. intros n. cbn.
  intros [b w h] [Hs _]. cbn. apply HQ; [done|]. intros m. by apply rs_others_law.
Qed.

Lemma streaming_store live wi n w h s' :
  streaming live wi (mkRun n w h) -> (forall m, represents (h_store h) m -> represents s' m) ->
  streaming live wi (mkRun n w (with_store s' h)).
Proof. intros (ph & Hh & Hl & Hs) Hm. exists ph. split; [by apply holds_store|done]. Qed.

(** A step of the handler keeps the stream: what the result must be. *)
Definition handled_post (live : bool) (wi : WI) (out : handled O E) (s : run W (handler O E S)) : Prop :=
  match out with
  | Skipped | Counted => streaming live wi s
  | Exits _ bookmark =>
      looked live s /\ (bookmark = true -> exists rv, holds (Live rv) s /\ streams wi (Live rv) (srv s))
  end.

Lemma streaming_looked live wi s : streaming live wi s -> looked live s.
Proof. intros (ph & ? & ? & _). by exists ph. Qed.

Lemma on_store_returns (op : store_op V S unit) n (w : W) (h : handler O E S) s' res :
  op (h_store h) = Some (s', res) ->
  on_store op (mkRun n w h) = (mkRun n w (with_store s' h), Returns res).
Proof. intros Hop. unfold on_store, bind. cbn. by rewrite Hop. Qed.

Lemma holds_represents ph s : holds ph s -> exists m, represents (h_store (local s)) m.
Proof. intros [_ Hph]. destruct ph; destruct_and?; eauto. Qed.

Lemma triple_resync live wi (R : run W (handler O E S) -> Prop) f :
  triple R (streaming live wi) (resync f) (fun _ => streaming live wi).
Proof.
  intros [b w h] Hs. unfold resync, bind, look. cbn [get local srv].
  destruct (h_resync h && _); [|done].
  destruct Hs as (ph & Hh & Hl & Hst). destruct (holds_represents _ _ Hh) as [m Hm]. cbn in Hm.
  destruct (rs_Resync_law _ _ Hm) as (s' & res & Hop & _).
  rewrite (on_store_returns _ _ _ _ _ _ Hop).
  assert (Hmine : streaming live wi (mkRun b w (with_store s' h))).
  { apply streaming_store; [by exists ph|]. intros m' Hm'.
    destruct (rs_Resync_law _ _ Hm') as (? & ? & ? & ?). by simplify_eq. }
  destruct res; done.
Qed.

Lemma set_version_spec version (h : handler O E S) :
  h_version (set_version version h) = version /\
  forall m, represents (h_store h) m -> represents (h_store (set_version version h)) m.
Proof.
  unfold set_version. destruct rs_UpdateResourceVersion as [f|] eqn:Ef; [|done]. cbn.
  split; [done|]. intros m. by apply rs_UpdateResourceVersion_law.
Qed.

Lemma store_event_change ev k s m :
  represents s m -> acc (Object ev) -> key (Object ev) = Ok k ->
  exists s', store_event ev s = Some (s', Ok tt) /\ represents s' (change (Type_ ev) k (Object ev) m).
Proof.
  intros Hm Ha Hk. unfold store_event.
  destruct (Type_ ev); cbn; eauto using rs_Add_law, rs_Update_law, rs_Delete_law.
Qed.

(** The phase after an event of an expected type. *)
Lemma event_phase wi ph ev b w h meta :
  holds ph (mkRun b w h) -> ~ unexp (Object ev) -> Accessor (Object ev) = Ok meta -> Type_ ev <> WError ->
  sends state rank newest acc unexp streams wi ph ev w ->
  let rv := GetResourceVersion meta in
  exists s' ph', store_event ev (h_store h) = Some (s', Ok tt) /\ (is_live ph -> is_live ph') /\
    streams wi ph' w /\ holds ph' (mkRun b w (set_version rv (with_store s' h))) /\
    (Type_ ev = WBookmark -> has_annotation (Object ev) initial_events_end = true -> ph' = Live rv) /\
    (is_live ph -> written (mkRun b w (with_store s' h))).
Proof.
  intros [Hw Hph] Hu Hmeta Hne [?|[[? _]|(_ & meta' & Hmeta' & Hev)]]; [done..|]. cbn in Hw, Hph.
  rewrite Hmeta in Hmeta'. injection Hmeta' as <-. cbn zeta. set (rv := GetResourceVersion meta) in *.
  assert (Hlive : forall s' m least, represents s' m -> moves_to state rank newest rv m least w -> floor <= least ->
    holds (Live rv) (mkRun b w (set_version rv (with_store s' h)))).
  { intros s' m least Hm (Hne1 & Hne2 & Hst & Hr) Hf. split; [done|]. cbn [local srv].
    destruct (set_version_spec rv (with_store s' h)) as [-> Hsv]. rewrite Hst. split; [done|].
    split; [by apply Hsv|]. split_and!; [done|done|lia..]. }
  assert (Hwr : forall s' rv0 m, ph = Live rv0 -> represents s' m -> moves_to state rank newest rv m (rank rv0) w ->
    written (mkRun b w (with_store s' h))).
  { intros s' rv0 m -> Hm' (Hne1 & Hne2 & Hst & Hr). destruct Hph as (Hv & _ & Hv1 & Hv2 & Hf). exists rv. cbn. rewrite Hst, Hv.
    split_and!; try done; lia. }
  assert (Hinit : forall s' m least, represents s' m -> floor <= least ->
    holds (Initial least m) (mkRun b w (set_version rv (with_store s' h)))).
  { intros s' m least Hm Hf. split; [done|]. split; [by apply (set_version_spec rv (with_store s' h))|done]. }
  assert (Hobj : forall k m, represents (h_store h) m -> acc (Object ev) -> key (Object ev) = Ok k ->
    exists s', store_event ev (h_store h) = Some (s', Ok tt) /\ represents s' (change (Type_ ev) k (Object ev) m))
    by (intros; by apply store_event_change).
  destruct (Type_ ev) eqn:Et; try done.
  1-3: destruct Hev as (k & Hacc & Hk & Hev); destruct ph as [rv0|least sent];
    [destruct Hph as (_ & Hm & _ & _ & Hf), Hev as [Hmv Hst]|destruct Hph as [Hm Hf]];
    destruct (Hobj k _ Hm Hacc Hk) as (s' & Hop & Hm'); exists s'; eexists;
    (split; [exact Hop|split; [|split; [eassumption|split; [|split; [done|]]]]]);
    [by eexists|eapply Hlive; [done..|lia]|intros _; by eapply Hwr|by intros []|by apply Hinit|by intros []].
  exists (h_store h). unfold store_event at 1. rewrite Et.
  destruct ph as [rv0|least sent];
    [destruct Hph as (_ & Hm & _ & _ & Hf), Hev as [Hmv Hst]; exists (Live rv)|destruct Hph as [Hm Hf]].
  - split; [done|]. split; [by eexists|]. split; [done|]. split; [|split; [done|intros _; by eapply Hwr]]. eapply Hlive; [done..|lia].
  - destruct (has_annotation _ _); [destruct Hev as [Hmv Hst]; exists (Live rv)|exists (Initial least sent)].
    + split; [done|]. split; [by eexists|]. split; [done|]. split; [|split; [done|by intros []]]. by eapply Hlive.
    + split; [done|]. split; [by intros []|]. split; [done|]. split; [|split; [done|by intros []]]. by apply Hinit.
Qed.

(** The gap after a write. *)
Lemma triple_pause {X} (R P : run W X -> Prop) :
  (forall w x, P (mkRun 0 w x) -> gaps = true -> R (mkRun 0 w x)) ->
  (forall n w x, P (mkRun (Datatypes.S n) w x) -> P (mkRun n w x)) -> triple R P pause (fun _ => P).
Proof.
  intros HR HP s Hs. unfold pause. destruct gaps eqn:Hg; [|exact Hs]. destruct s as [[|n] w x]; cbn; [by apply HR|by apply HP].
Qed.

Lemma triple_handle_event live wi ph ev exit :
  triple (glimpsed live) (fun s => holds ph s /\ (live = true -> is_live ph) /\
                     sends state rank newest acc unexp streams wi ph ev (srv s))
    (handle_event r exit ev) (handled_post live wi).
Proof.
  intros [b w h] (Hh & Hl & Hev). cbn in Hev. unfold handle_event.
  destruct (decide (Type_ ev = WError)) as [|Hne]; [split; [by exists ph|done]|].
  pose proof Hev as [?|[[Hu Hst]|(Hu & meta & Hmeta & _)]]; [done| |].
  { apply Hunexp in Hu. rewrite Hu. by exists ph. }
  destruct (unexpected r (Object ev)) eqn:Hun; [by apply Hunexp in Hun|]. rewrite Hmeta.
  destruct (event_phase wi ph ev b w h meta Hh Hu Hmeta Hne Hev) as (s' & ph' & Hop & Hl' & Hst & Hh' & Hbm & Hwr).
  unfold bind at 1. rewrite (on_store_returns _ _ _ _ _ _ Hop). revert Hh'. generalize (GetResourceVersion meta). intros rv Hh'.
  eapply (triple_bind _ (fun s => srv s = w /\ local s = with_store s' h)); [apply triple_pause|intros []|done].
  { intros w' x [Hw Hx] Hg. cbn in Hw, Hx. subst w' x. right. split; [done|]. split; [apply Hh|]. intros Hlive. by apply Hwr, Hl. }
  { by intros n w' x []. }
  intros [n w' x] [Hw Hx]. cbn in Hw, Hx. subst w' x. apply (holds_budget ph' b n) in Hh'. unfold bind. cbn [modify budget srv local].
  destruct (_ && exit)%bool eqn:Hexit; [|by exists ph'; eauto]. bool_to_prop.
  split; [by exists ph'; eauto|]. intros _. eexists. rewrite Hbm in Hh', Hst by done. done.
Qed.

Lemma looked_later live n w w' x :
  looked live (mkRun n w x) -> later newest w w' -> looked live (mkRun n w' x).
Proof. intros (ph & Hh & Hl) Hw. exists ph. split; [by eapply holds_later|done]. Qed.

(** What [next] gives the loop. *)
Definition got (live : bool) (wi : WI) (m : message V) (s : run W (handler O E S)) : Prop :=
  match m with
  | Received ev => exists ph, holds ph s /\ (live = true -> is_live ph) /\
                     sends state rank newest acc unexp streams wi ph ev (srv s)
  | Closed => looked live s
  | StopSignal | ResyncError | ResyncTick => streaming live wi s
  end.

Lemma triple_next live wi (R : run W (handler O E S) -> Prop) :
  triple R (streaming live wi) (call (next wi)) (got live wi).
Proof.
  intros [b w h] (ph & Hh & Hl & Hst). cbn in Hst. unfold call. cbn [srv budget local]. pose proof (sv_next_later _ _ _ _ _ _ _ Hserves wi w) as Hlw.
  destruct (next wi w) as [w' m] eqn:En. pose proof (sv_next _ _ _ _ _ _ _ Hserves wi ph w w' m Hst En) as Hm.
  apply (holds_later _ _ _ w') in Hh; [|done]. cbn [fst snd]. destruct m; unfold got, streaming, looked; eauto 6.
Qed.

Lemma triple_handle live wi start exit count m :
  triple (glimpsed live) (got live wi m) (handle r start exit count m) (handled_post live wi).
Proof.
  destruct m as [| | |ev|]; cbn [handle got].
  - intros s Hs. split; [by eapply streaming_looked|done].
  - intros [b w h] Hs. cbn. destruct (h_errc h) eqn:He; cbn; [|done].
    split; [|done]. apply streaming_looked in Hs as (ph & [Hw Hph] & Hl). exists ph. split; [split; [done|]|done].
    by destruct ph.
  - eapply triple_bind; [apply (triple_resync live)|]. by intros [] s Hs.
  - intros s (ph & Hs). by apply (triple_handle_event live wi ph).
  - intros [b w h] Hs. unfold bind, call. pose proof (sv_Now_later _ _ _ _ _ _ _ Hserves w) as Hn.
    cbn [srv]. destruct (Now w) as [w' now]. cbn in Hn |- *.
    destruct (_ && _)%bool; (split; [by eapply looked_later|done]).
Qed.

Lemma got_store live wi m n w h s' :
  got live wi m (mkRun n w h) -> (forall m, represents (h_store h) m -> represents s' m) ->
  got live wi m (mkRun n w (with_store s' h)).
Proof.
  intros Hg Hs. destruct m; cbn in *; try by apply streaming_store.
  - destruct Hg as (ph & Hh & Hg). exists ph. split; [by apply holds_store|done].
  - destruct Hg as (ph & Hh & Hg). exists ph. split; [by apply holds_store|done].
Qed.

(** The whole handler: the store is in a phase at every moment and at the end, and
    after the bookmark it is in a live one. *)
Lemma triple_watchHandler live wi start exit :
  triple (glimpsed live) (streaming live wi) (watchHandler r start wi exit)
    (fun res s => looked live s /\
       (res.2 = true -> exists rv, holds (Live rv) s /\ streams wi (Live rv) (srv s))).
Proof.
  unfold watchHandler.
  apply (triple_forever (glimpsed live) (fun _ => streaming live wi)); [intros _ s Hs; left; by eapply streaming_looked|done|].
  intros count. eapply triple_bind; [apply triple_next|]. intros m. cbn beta.
  eapply triple_bind; [apply (triple_others _ (got live wi m)); intros; by apply got_store|]. intros []. cbn beta.
  eapply triple_bind; [apply (triple_handle live)|]. intros out. cbn beta.
  intros s Hs. by destruct out.
Qed.

End handler.

(** ** Stores *)

Section stores.
Context {O : Type} `{MetaAccessor O}.
Local Abbreviation V := (value O).
Local Abbreviation key := (DeletionHandlingMetaNamespaceKeyFunc (O:=O)).

(** A list of the values of a map, in any order, makes the map. *)
Lemma items_of_list_pairs (kf : KeyFunc V) (ps : list (string * iface V)) m :
  Forall (fun p => kf p.2 = Ok p.1) ps -> NoDup ps.*1 ->
  items_of_list kf ps.*2 m = Ok (list_to_map ps ∪ m).
Proof.
  intros Hk. revert m. induction Hk as [|[k o] ps Hko Hk IH]; intros m Hnd; cbn.
  - by rewrite (left_id_L ∅ (∪)).
  - apply NoDup_cons in Hnd as [Hni Hnd]. cbn in Hko. rewrite Hko, IH by done. f_equal.
    assert (list_to_map (M:=gmap string (iface V)) ps !! k = None) by by apply not_elem_of_list_to_map_1.
    rewrite <- insert_union_r by done. by rewrite insert_union_l.
Qed.

Lemma items_of_list_of_map (kf : KeyFunc V) l (m : gmap string (iface V)) :
  l ≡ₚ (map_to_list m).*2 -> (forall k o, m !! k = Some o -> kf o = Ok k) -> items_of_list kf l ∅ = Ok m.
Proof.
  intros Hp Hk. destruct (Permutation_map_inv _ _ Hp) as (ps & -> & Hps).
  rewrite items_of_list_pairs.
  - rewrite (right_id_L ∅ (∪)). f_equal. rewrite <- (list_to_map_to_list m).
    apply list_to_map_proper; [|by rewrite <- Hps]. rewrite <- Hps. apply NoDup_fst_map_to_list.
  - rewrite <- Hps. apply Forall_forall. intros [k o] Hin%elem_of_map_to_list. by apply Hk.
  - rewrite <- Hps. apply NoDup_fst_map_to_list.
Qed.

Lemma items_of_list_ext (kf kf' : KeyFunc V) (acc : iface V -> Prop) l m :
  Forall acc l -> (forall o, acc o -> kf o = kf' o) -> items_of_list kf l m = items_of_list kf' l m.
Proof.
  intros Hl Hk. revert m. induction Hl as [|o l Ho Hl IH]; intros m; cbn; [done|].
  rewrite (Hk o Ho). destruct (kf' o); [apply IH|done].
Qed.

(** A simple store represents its items. *)
#[program] Definition Store_Reflected (acc : iface V -> Prop) {S} `{StoreLaws V S}
    (Hresync : forall s, st_Resync s = Some (s, Ok tt)) : @Reflected O _ acc S reflect_Store := {|
  represents s m := st_inv s /\ st_items s = m /\ (forall obj, acc obj -> st_accepts s obj) /\
    (forall obj, acc obj -> st_key s obj = key obj)
|}.
Next Obligation.
  intros acc S ?? _ obj k s m (Hi & <- & Ha & Hk) Hobj Ek. pose proof (st_Add_law obj s Hi (Ha _ Hobj)) as Hl.
  rewrite Hk, Ek in Hl by done. destruct Hl as (s' & Hop & Hit & Hi' & Hk' & Ha'). exists s'.
  split; [done|]. split_and!; auto. intros o Ho. rewrite Hk'. auto.
Qed.
Next Obligation.
  intros acc S ?? _ obj k s m (Hi & <- & Ha & Hk) Hobj Ek. pose proof (st_Update_law obj s Hi (Ha _ Hobj)) as Hl.
  rewrite Hk, Ek in Hl by done. destruct Hl as (s' & Hop & Hit & Hi' & Hk' & Ha'). exists s'.
  split; [done|]. split_and!; auto. intros o Ho. rewrite Hk'. auto.
Qed.
Next Obligation.
  intros acc S ?? _ obj k s m (Hi & <- & Ha & Hk) Hobj Ek. pose proof (st_Delete_law obj s Hi) as Hl.
  rewrite Hk, Ek in Hl by done. destruct Hl as (s' & Hop & Hit & Hi' & Hk' & Ha'). exists s'.
  split; [done|]. split_and!; auto. intros o Ho. rewrite Hk'. auto.
Qed.
Next Obligation.
  intros acc S ?? _ l rv s m m' (Hi & _ & Ha & Hk) Hl Em.
  pose proof (st_Replace_law l rv s Hi (Forall_impl _ _ _ Hl Ha)) as Hlaw.
  rewrite (items_of_list_ext _ key acc), Em in Hlaw by done.
  destruct Hlaw as (s' & Hop & Hit & Hi' & Hk' & Ha'). exists s'.
  split; [done|]. split_and!; auto. intros o Ho. rewrite Hk'. auto.
Qed.
Next Obligation. intros acc S ?? Hr s m Hm. exists s, (Ok tt). split; [apply Hr|done]. Qed.
Next Obligation. done. Qed.
Next Obligation. done. Qed.

End stores.

(** ** The reflector *)

Section reflector.
Context {O L E T G W WI : Type} `{MetaAccessor O} `{ListObject L (iface (value O))} `{APIErrors (value O) E}
  `{WatchObjects (value O) T G} `{Surroundings (value O) L E W WI}.
Local Abbreviation V := (value O).
Local Abbreviation key := (DeletionHandlingMetaNamespaceKeyFunc (O:=O)).
Variables (state : string -> gmap string (iface V)) (rank : string -> Z) (newest : W -> Z).
Variables (acc unexp : iface V -> Prop) (token : string -> string -> list (iface V) -> Prop).
Variable streams : WI -> phase (O:=O) -> W -> Prop.
Hypothesis Hserves : serves state rank newest acc unexp token streams.
Context {S : Type} `{Hrs : ReflectorStore V S} `{Hrl : !Reflected acc S} `{Hmoments : Moments} `{MapRange} `{SetsString}.
Local Abbreviation reflecting := (reflecting O E T G W S).
Variables (before : gmap string (iface V)) (rv0 : string).

(** A version is not older than another; "" is older than every other. *)
Definition no_older (rv1 rv2 : string) : Prop := rv1 = "" \/ (rv2 <> "" /\ rank rv1 <= rank rv2).

Definition version (s : run W reflecting) : string := lastSyncResourceVersion (refl (local s)).

(** What is true of a reflector at every moment: its store has the objects of the
    version it gives, or what it had [before] the first sync; the version is not from
    the future of the server, nor older than the one it started with. *)
Definition synced (s : run W reflecting) : Prop :=
  version s <> "" /\ version s <> "0" /\ represents (store (local s)) (state (version s)) /\
  rank (version s) <= newest (srv s).

Definition tracks (s : run W reflecting) : Prop :=
  no_older rv0 (version s) /\ (forall obj, unexpected (refl (local s)) obj = true <-> unexp obj) /\
  ((version s = "" /\ represents (store (local s)) before) \/ synced s).

(** In a gap the store is ahead of the version that is set: it has the objects of one
    that is not older. *)
Definition lags (s : run W reflecting) : Prop :=
  no_older rv0 (version s) /\
  exists rv, rv <> "" /\ rv <> "0" /\ represents (store (local s)) (state rv) /\ no_older (version s) rv /\
    rank rv <= newest (srv s).

Definition seen (s : run W reflecting) : Prop := tracks s \/ (gaps = true /\ lags s).

Definition synced_tracks (s : run W reflecting) : Prop := tracks s /\ synced s.

Lemma no_older_refl rv : no_older rv rv.
Proof. unfold no_older. destruct (decide (rv = "")); [by left|right]. split; [done|lia]. Qed.

Lemma no_older_trans rv1 rv2 rv3 : no_older rv1 rv2 -> no_older rv2 rv3 -> no_older rv1 rv3.
Proof. unfold no_older. intros [->|[? ?]] [->|[? ?]]; [by left..|done|right; split; [done|lia]]. Qed.

Lemma tracks_later n m w w' x : tracks (mkRun n w x) -> later newest w w' -> tracks (mkRun m w' x).
Proof.
  intros (Hn & Hu & Hs) Hl. split; [done|]. split; [done|]. destruct Hs as [Hs|(? & ? & ? & ?)]; [by left|right].
  split_and!; [done..|]. unfold later in Hl. cbn in *. unfold version in *. cbn in *. lia.
Qed.

Lemma synced_later n m w w' x : synced (mkRun n w x) -> later newest w w' -> synced (mkRun m w' x).
Proof.
  intros (? & ? & ? & ?) Hl. split_and!; [done..|]. unfold later in Hl. cbn in *. unfold version in *. cbn in *. lia.
Qed.

(** Parts that only call the world. *)
Lemma triple_quiet_call {A} (f : W -> W * A) (R P : run W reflecting -> Prop) :
  (forall n w w' x, P (mkRun n w x) -> later newest w w' -> P (mkRun n w' x)) ->
  (forall w, later newest w (f w).1) -> triple R P (call f) (fun _ => P).
Proof.
  intros HP Hf [n w x] Hs. unfold call. cbn. specialize (Hf w). destruct (f w) as [w' a]. by apply (HP n w).
Qed.

Lemma tracks_quiet n w w' x : tracks (mkRun n w x) -> later newest w w' -> tracks (mkRun n w' x).
Proof. apply tracks_later. Qed.

Lemma synced_tracks_quiet n w w' x :
  synced_tracks (mkRun n w x) -> later newest w w' -> synced_tracks (mkRun n w' x).
Proof. intros [Ht Hs] Hl. split; [by eapply tracks_later|by eapply synced_later]. Qed.

(** A reflector with another flag is as good. *)
Lemma tracks_flag n w x f :
  tracks (mkRun n w x) -> lastSyncResourceVersion (f (refl x)) = lastSyncResourceVersion (refl x) ->
  (forall obj, unexpected (f (refl x)) obj = unexpected (refl x) obj) -> tracks (mkRun n w (with_refl f x)).
Proof.
  intros (Hn & Hu & Hs) Hv Hx. unfold tracks, synced, version in *. cbn in *. rewrite Hv.
  split; [done|]. split; [|done]. intros obj. rewrite Hx. apply Hu.
Qed.

(** *** Replacing the store *)

Lemma syncWith_returns items rv m m' n w (x : reflecting) :
  represents (store x) m -> Forall acc items -> items_of_list key items ∅ = Ok m' ->
  exists st, syncWith items rv (mkRun n w x) =
    (mkRun n w (mkReflecting (refl x) st (resyncerrc x) (resyncing x)), Returns (Ok tt)) /\
    represents st m'.
Proof.
  intros Hm Ha Hi. set (turns := meanwhile w).
  destruct (rs_Replace_law items rv _ _ _ (rs_others_law turns _ _ Hm) Ha Hi) as (st & Hop & Hst).
  exists st. split; [|done]. unfold syncWith, zoom, others, bind, look, on_store. cbn. fold turns.
  unfold bind. cbn. rewrite Hop. by destruct x as [[] ? ? ?].
Qed.

(** What a sync needs of a list. *)
Definition fresh (rv : string) (items : list (iface V)) (s : run W reflecting) : Prop :=
  rv <> "" /\ rv <> "0" /\ Forall acc items /\ items_of_list key items ∅ = Ok (state rv) /\
  rank rv <= newest (srv s) /\ no_older (version s) rv.

Lemma triple_sync_to (K : W -> Prop) items rv :
  triple seen (fun s => (tracks s /\ fresh rv items s) /\ K (srv s)) (sync_to items rv)
    (fun err s => (err = None /\ synced_tracks s /\ version s = rv) /\ K (srv s)).
Proof.
  intros [n w x] [[Ht (Hne & Hne0 & Ha & Hi & Hr & Ho)] HK].
  assert (exists m, represents (store x) m) as [m Hm].
  { destruct Ht as (_ & _ & [[_ ?]|(_ & _ & ? & _)]); eauto. }
  destruct (syncWith_returns items rv m _ n w x Hm Ha Hi) as (st & Hs & Hst).
  unfold sync_to. unfold bind at 1. rewrite Hs. clear Hs. set (x' := mkReflecting _ st _ _). cbn [srv] in Hr, HK.
  assert (Hno : no_older rv0 rv) by (destruct Ht as (Hn & _); by eapply no_older_trans).
  eapply (triple_bind _ (fun s => srv s = w /\ local s = x')); [apply triple_pause|intros []|done].
  - intros w' y [Hw Hy] Hg. cbn in Hw, Hy. subst w' y. right. split; [done|]. split; [apply Ht|].
    exists rv. split_and!; try done.
  - by intros k w' y [].
  - eapply triple_bind; [by apply (triple_modify _ _ (fun s => srv s = w /\ local s = with_refl (setLastSyncResourceVersion rv) x')); intros k w' y [Hw Hy]; cbn in Hw, Hy; subst w' y|].
    intros []. apply triple_ret. intros [k w' y] [Hw Hy]. cbn in Hw, Hy. subst w' y. split; [|done].
    assert (Hsy : synced (mkRun k w (with_refl (setLastSyncResourceVersion rv) x'))) by done.
    split; [done|]. split; [|done]. split; [|done]. destruct Ht as (_ & Hu & _). split; [done|]. split; [done|by right].
Qed.

(** *** Listing *)

(** What a list may ask for. *)
Definition suits (rv : string) (s : run W reflecting) : Prop :=
  rv = "" \/ (rv = "0" /\ version s = "") \/ (rv = version s /\ version s <> "" /\ version s <> "0").

Lemma relist_suits s : tracks s -> suits (relistResourceVersion (refl (local s))) s.
Proof.
  intros (_ & _ & Hs). unfold relistResourceVersion, suits. fold (version s).
  destruct (isLastSyncResourceVersionUnavailable _); [by left|]. case_decide as Hv; [by right; left|].
  right. right. destruct Hs as [[? _]|(? & ? & _)]; done.
Qed.

(** A list answers with something fresh. *)
Definition fresh_result (res : listed L (iface V) + list_error E) (s : run W reflecting) : Prop :=
  forall l rv items, res = inl l -> contents l = Some (rv, items) -> fresh rv items s.

Lemma listing_fresh p rv rv1 items n w w' x :
  PageFn p = lw_List -> tracks (mkRun n w x) -> suits rv (mkRun n w x) ->
  taken p (later newest) (listing state rank newest acc) w rv "" rv1 items w' ->
  fresh rv1 items (mkRun n w' x).
Proof.
  intros Hp (_ & _ & Hs) Hsuits (o & w1 & Hl & Hl' & <- & _ & Hne & Hne0 & Ha & Hi & _ & Hr & Hv).
  unfold later in *. rewrite Hp in Hl'. split_and!; try done; [cbn; lia|].
  unfold version in *. cbn in *. unfold no_older. destruct Hs as [[Hx _]|(Hx & Hx0 & _ & Hx2)]; [by left|].
  unfold version in Hx, Hx0, Hx2. cbn in Hx, Hx0, Hx2. right. split; [done|].
  unfold suits, version in Hsuits. cbn in Hsuits. destruct Hsuits as [Hrv|[[_ ?]|[Hrv _]]]; [|done|].
  - rewrite decide_True in Hv by done. lia.
  - rewrite decide_False, decide_False in Hv by congruence. rewrite Hrv in Hv. lia.
Qed.

Lemma triple_pager_list pages p rv :
  PageFn p = lw_List ->
  triple seen (fun s => tracks s /\ suits rv s) (pager_list pages p (options_at rv))
    (fun res s => tracks s /\ fresh_result res.1 s).
Proof.
  intros Hp [n w x] [Ht Hsuits]. unfold pager_list. cbn [srv budget local].
  pose proof (sv_pages _ _ _ _ _ _ _ Hserves) as Hpages. rewrite <- Hp in Hpages.
  destruct (List _ _ _ _ _ _) as [[[w' res] pg]|] eqn:El; [|by left].
  pose proof (List_later _ _ _ _ _ _ Hpages _ _ _ _ _ _ El) as Hlw.
  split; [by eapply tracks_later|]. intros l rv1 items Hres Hc. cbn in Hres. subst res.
  eapply listing_fresh; [done|done|done|].
  eapply (List_snapshot _ _ _ _ _ _ Hpages (options_at rv)); [done|exact El|done].
Qed.

(** What [list] leaves: it is stopped, or its store is synced. *)
Definition listed_post (err : option (rerror V E)) (s : run W reflecting) : Prop :=
  tracks s /\ (err = None -> stopped (srv s) = true \/ synced s).

Lemma tracks_set_unavailable b n w x :
  tracks (mkRun n w x) -> tracks (mkRun n w (with_refl (setIsLastSyncResourceVersionUnavailable b) x)).
Proof. intros Ht. by apply tracks_flag. Qed.

Lemma triple_list pages : triple seen tracks (Reflector_list pages) listed_post.
Proof.
  unfold Reflector_list. eapply triple_bind; [apply triple_get|]. intros x. cbn beta.
  set (rv := relistResourceVersion (refl x)). set (p := list_pager (refl x) rv).
  eapply triple_bind.
  { apply (triple_pre _ _ (fun s => tracks s /\ suits rv s)); [|by apply triple_pager_list].
    intros s [Ht ->]. split; [done|by apply relist_suits]. }
  intros res. cbn beta.
  eapply (triple_bind _ _ _ _ (fun res s => tracks s /\ fresh_result res.1 s)).
  { destruct (_ || _)%bool; [|by apply triple_ret].
    eapply triple_bind; [apply (triple_modify _ _ tracks); intros n w y [Ht _]; by apply tracks_set_unavailable|].
    intros []. cbn beta. eapply triple_bind; [apply triple_get|]. intros y. cbn beta.
    apply (triple_pre _ _ (fun s => tracks s /\ suits (relistResourceVersion (refl y)) s)); [|by apply triple_pager_list].
    intros s [Ht ->]. split; [done|by apply relist_suits]. }
  intros [res' paginated]. cbn [fst]. eapply triple_bind; [apply triple_look|]. intros [|]; cbn beta.
  { apply triple_ret. intros s [[Ht _] Hstop]. split; [done|]. left. by apply (sv_stop _ _ _ _ _ _ _ Hserves). }
  destruct res' as [l|e]; [|apply triple_ret; by intros s [[? _] _]].
  set (P := fun s => tracks s /\ fresh_result (inl l) s).
  eapply (triple_bind _ _ _ _ (fun _ => P)).
  { destruct (_ && _)%bool; [|apply triple_ret; by intros s [? _]].
    apply triple_modify. intros n w y [[Ht Hf] _]. split; [by apply tracks_flag|done]. }
  intros []. cbn beta. eapply (triple_bind _ _ _ _ (fun _ => P)).
  { apply triple_modify. intros n w y [Ht Hf]. split; [by apply tracks_flag|done]. }
  intros []. cbn beta. destruct (contents l) as [[rv1 items]|] eqn:Ec; [|apply triple_ret; by intros s [? _]].
  apply (triple_pre _ _ (fun s => tracks s /\ fresh rv1 items s)); [intros s [Ht Hf]; split; [done|by apply (Hf l)]|].
  eapply triple_conseq; [apply (triple_sync_to (fun _ => True))|by split|done|].
  intros err s [(-> & [Ht Hsy] & _) _]. split; [done|by right].
Qed.

(** *** Listing by watching *)

Local Abbreviation temporary := (cache V (threadSafeMap V)).

Definition temporary_reflected : @Reflected O _ acc temporary reflect_Store :=
  Store_Reflected acc (S:=temporary) (fun s => eq_refl).

(** What a temporary store has after the bookmark. *)
Definition collected (wi : WI) (least : Z) (tmp : temporary) (rv : string) (w : W) : Prop :=
  rv <> "" /\ rv <> "0" /\ least <= rank rv <= newest w /\ streams wi (Live rv) w /\
  Forall acc (st_List tmp) /\ items_of_list key (st_List tmp) ∅ = Ok (state rv).

Lemma temporary_handler_collects (x : reflecting) start wi least n w :
  (forall obj, unexpected (refl x) obj = true <-> unexp obj) -> streams wi (Initial least ∅) w ->
  match temporary_handler (refl x) start wi (mkRun n w x) with
  | (s', out) =>
      local s' = x /\ later newest w (srv s') /\ out <> Panics /\
      forall err bookmark tmp rv, out = Returns ((err, bookmark), (tmp, rv)) -> bookmark = true ->
        collected wi least tmp rv (srv s')
  end.
Proof.
  intros Hu Hst. unfold temporary_handler. cbn [budget srv local].
  assert (Hstart : streaming state rank newest acc streams (Hrl:=temporary_reflected) least w false wi
    (mkRun n w (mkHandler (NewStore key) "" (@None (rerror V E)) false))).
  { exists (Initial least ∅). split; [|done]. split; [unfold later; cbn; lia|]. split; [|lia].
    destruct (NewStore_inv key) as (Hi & Hit & Ha). split_and!; auto. }
  pose proof (triple_watchHandler state rank newest acc unexp token streams Hserves (Hrs:=reflect_Store)
    (Hrl:=temporary_reflected) (refl x) least w Hu false wi start true _ Hstart) as Ht.
  destruct (watchHandler _ _ _ _ _) as [s' out]. cbn [local srv].
  assert (Hl : looked state rank newest acc (Hrl:=temporary_reflected) least w false s' -> later newest w (srv s'))
    by by intros (ph & [? _] & _).
  split; [done|]. destruct out as [| |[err bookmark]]; [split; [destruct Ht as [?|(_ & ? & _)]; auto|done]|done|]. cbn [snd] in Ht.
  destruct Ht as [Hlook Hbm]. split; [by apply Hl|]. split; [done|].
  intros err' bm tmp rv [= <- <- <- <-] ->. destruct (Hbm eq_refl) as (rv & [_ (Hv & Hr & Hne & Hne0 & Hrank)] & Hs).
  cbn in Hr. destruct Hr as (Hi & Hit & _). rewrite Hv.
  assert (Hlist : st_List (h_store (local s')) ≡ₚ (map_to_list (state rv)).*2)
    by (rewrite <- Hit; exact (st_List_law (S:=temporary) (h_store (local s')))).
  split_and!; [done|done|lia|lia|done|..].
  - rewrite Hlist. apply Forall_forall. intros o (p & -> & Hp)%list_elem_of_fmap. destruct p as [k o].
    apply elem_of_map_to_list in Hp. by destruct (sv_state _ _ _ _ _ _ _ Hserves _ _ _ Hp).
  - apply items_of_list_of_map; [done|]. intros k o Hk. by destruct (sv_state _ _ _ _ _ _ _ Hserves _ _ _ Hk).
Qed.

Lemma triple_retriable err : triple seen tracks (isErrorRetriableWithSideEffectsFn err) (fun _ => tracks).
Proof.
  unfold isErrorRetriableWithSideEffectsFn. destruct (api_error _ _).
  - eapply triple_bind; [apply (triple_quiet_call _ _ tracks tracks_quiet), (sv_Backoff_later _ _ _ _ _ _ _ Hserves)|].
    intros b. by apply triple_ret.
  - destruct (_ || _)%bool; [|by apply triple_ret].
    eapply triple_bind; [apply (triple_modify _ _ tracks); intros n w x Hs; by apply tracks_flag|].
    intros []. by apply triple_ret.
Qed.

(** A turn of the loop. *)
Definition streamed (r : unit + ((option WI * option (rerror V E)) + (WI * temporary * string)))
    (s : run W reflecting) : Prop :=
  tracks s /\
  match r with
  | inl _ => True
  | inr (inl (ow, _)) => ow = None
  | inr (inr (wi, tmp, rv)) => fresh rv (st_List tmp) s /\ streams wi (Live rv) (srv s)
  end.

Lemma rewatch_fresh wi tmp rv n w w' w'' x :
  tracks (mkRun n w x) -> later newest w' w'' ->
  later newest w w' ->
  collected wi (let rv := rewatchResourceVersion (refl x) in if decide (rv = "") then newest w' else rank rv) tmp rv w'' ->
  fresh rv (st_List tmp) (mkRun n w'' x).
Proof.
  intros (_ & _ & Hs) Hl' Hl (Hne & Hne0 & [Hleast Hr] & _ & Ha & Hi).
  split_and!; [done..|]. unfold version, no_older. cbn.
  destruct Hs as [[Hx _]|(Hx & Hx0 & _ & Hx2)]; [by left|right]. split; [done|].
  unfold version in Hx, Hx2. cbn in Hx, Hx2. unfold later in *. unfold rewatchResourceVersion in Hleast.
  destruct (isLastSyncResourceVersionUnavailable _); [rewrite decide_True in Hleast by done; lia|].
  by rewrite decide_False in Hleast by done.
Qed.

Definition least_asked (x : reflecting) (w : W) : Z :=
  let rv := rewatchResourceVersion (refl x) in if decide (rv = "") then newest w else rank rv.

(** The temporary handler within [watchList]. *)
Lemma triple_temporary_handler (x : reflecting) start wi w1 :
  triple seen
    (fun s => tracks s /\ x = local s /\ later newest w1 (srv s) /\ streams wi (Initial (least_asked x w1) ∅) (srv s) /\
              tracks (mkRun 0 w1 x))
    (temporary_handler (refl x) start wi)
    (fun res s => tracks s /\
       (res.1.2 = true -> fresh res.2.2 (st_List res.2.1) s /\ streams wi (Live res.2.2) (srv s))).
Proof.
  intros [n w y] (Ht & -> & Hl & Hst & Ht1). cbn [local srv] in *.
  pose proof (temporary_handler_collects y start wi _ n w ltac:(apply Ht) Hst) as Hc.
  destruct (temporary_handler _ _ _ _) as [[n' w' y'] out]. cbn [local srv] in Hc. destruct Hc as (-> & Hl' & Hp & Hc).
  assert (Ht' : tracks (mkRun n' w' y)) by exact (tracks_later _ _ _ _ _ Ht Hl').
  destruct out as [| |[[err bm] [tmp rv]]]; [by left|done|]. split; [done|]. cbn. intros ->.
  specialize (Hc _ _ _ _ eq_refl eq_refl). split; [|by apply Hc].
  apply (rewatch_fresh wi tmp rv n' w1 w1 w' y); [apply (tracks_later 0 n' w1 w1 y Ht1)| | |exact Hc];
    unfold later in *; lia.
Qed.

Lemma triple_watchList_turn : triple seen tracks watchList_turn streamed.
Proof.
  unfold watchList_turn. eapply triple_bind; [apply triple_look|]. intros [|]; cbn beta.
  { apply triple_ret. intros s [? _]. by split. }
  eapply triple_bind; [apply triple_get|]. intros x. cbn beta.
  eapply (triple_bind _ _ _ _ (fun _ s => tracks s /\ x = local s)).
  { apply triple_call. intros n w w' a y [[Ht _] ->] En. split; [|done]. eapply tracks_later; [done|].
    pose proof (sv_Now_later _ _ _ _ _ _ _ Hserves w) as Hl. by rewrite En in Hl. }
  intros start. cbn beta.
  eapply (triple_bind _ _ _ _ (fun res s => tracks s /\ x = local s /\
    match res with
    | inl wi => exists w1, later newest w1 (srv s) /\ streams wi (Initial (least_asked x w1) ∅) (srv s) /\ tracks (mkRun 0 w1 x)
    | inr _ => True
    end)).
  { apply triple_call. intros n w w' a y [Ht ->] Ew. cbn [local] in *.
    pose proof (sv_Watch_later _ _ _ _ _ _ _ Hserves (watchList_options (rewatchResourceVersion (refl y))) w) as Hl.
    rewrite Ew in Hl. cbn in Hl. split; [by eapply tracks_later|]. split; [done|]. destruct a as [wi|]; [|done].
    exists w. split; [done|]. split; [|apply (tracks_later n 0 w w y Ht); unfold later; lia].
    apply (sv_watchList _ _ _ _ _ _ _ Hserves _ _ _ _ Ew). }
  intros [wi|e]; cbn beta iota.
  2: { eapply triple_bind; [apply (triple_pre _ _ tracks); [by intros s [? _]|apply triple_retriable]|].
    intros [|]; apply triple_ret; intros s Hs; by split. }
  eapply triple_bind.
  { intros s (Ht & Hx & w1 & Hl & Hst & Ht1). apply (triple_temporary_handler x start wi w1 s). done. }
  intros [[err bm] [tmp rv]]. cbn [fst snd].
  assert (Hstop : triple seen tracks (call (StopWatch wi)) (fun _ => tracks))
    by (apply (triple_quiet_call _ _ tracks tracks_quiet), (sv_StopWatch_later _ _ _ _ _ _ _ Hserves)).
  assert (Hretry : forall err, triple seen tracks
    (let! again := isErrorRetriableWithSideEffectsFn err in
     if (again : bool) then ret (inl tt) else ret (inr (inl (None, Some err)))) streamed).
  { intros err'. eapply triple_bind; [apply triple_retriable|]. intros [|]; apply triple_ret; intros s Hs; by split. }
  destruct err as [err|].
  - apply (triple_pre _ _ tracks); [by intros s [? _]|].
    destruct err; (eapply triple_bind; [apply Hstop|]; intros []; try apply Hretry; apply triple_ret; intros s Hs; by split).
  - destruct bm; apply triple_ret; intros s [Ht Hc]; (split; [done|]); [by apply Hc|done].
Qed.

(** [watchList] gives a watch that goes on where the store is. *)
Lemma triple_watchList :
  triple seen tracks watchList
    (fun res s => tracks s /\
       match res with
       | (Some wi, None) => synced s /\ streams wi (Live (version s)) (srv s)
       | _ => True
       end).
Proof.
  unfold watchList.
  eapply triple_bind; [apply (triple_forever seen (fun _ => tracks)); [by left|done|]|].
  { intros []. eapply triple_conseq; [apply triple_watchList_turn|done|done|].
    intros r s Hs. destruct r as [[]|r]; [by destruct Hs|]. exact (Hs : streamed (inr r) s). }
  intros [[ow err]|[[wi tmp] rv]]; cbn beta iota.
  - apply triple_ret. intros s [Ht ->]. done.
  - eapply (triple_bind _ _ _ _ (fun _ s => (tracks s /\ fresh rv (st_List tmp) s) /\ streams wi (Live rv) (srv s))).
    { apply triple_modify. intros n w x [Ht Hf]. split; [split; [by apply tracks_flag|by apply Hf]|by apply Hf]. }
    intros []. cbn beta.
    eapply (triple_bind _ _ _ _ (fun err s => err = None /\ synced_tracks s /\ streams wi (Live (version s)) (srv s))).
    { eapply triple_conseq; [apply (triple_sync_to (streams wi (Live rv)))|by intros s [? ?]|done|].
      by intros err s [(-> & Hs & ->) Hst]. }
    intros err. cbn beta. destruct err as [err|]; apply triple_ret; [by intros s [? _]|].
    intros s (_ & [Ht Hsy] & Hst). done.
Qed.

(** *** Watching *)

(** The watch goes on where the store is. *)
Definition watching (ow : option WI) (s : run W reflecting) : Prop :=
  synced_tracks s /\ match ow with Some wi => streams wi (Live (version s)) (srv s) | None => True end.

Lemma looked_synced (x : reflecting) n w floor w0 (h : handler O E S) :
  looked state rank newest acc floor w0 true (mkRun n w h) -> floor = rank (lastSyncResourceVersion (refl x)) ->
  lastSyncResourceVersion (refl x) <> "" -> no_older rv0 (lastSyncResourceVersion (refl x)) ->
  (forall obj, unexpected (refl x) obj = true <-> unexp obj) ->
  synced_tracks (mkRun n w (of_handler h x)).
Proof.
  intros (ph & Hh & Hl) -> Hne Ho Hu. destruct (Hl eq_refl) as [rv ->].
  destruct Hh as [_ (Hv & Hr & Hne1 & Hne2 & Hr1 & Hr2)]. cbn in Hv, Hr, Hr2.
  assert (Hsy : synced (mkRun n w (of_handler h x))) by (unfold synced, version; cbn; by rewrite Hv).
  split; [|done]. split; [|split; [done|by right]]. unfold version. cbn. rewrite Hv.
  eapply no_older_trans; [done|]. by right.
Qed.

Lemma glimpsed_seen (x : reflecting) n w floor w0 (h : handler O E S) :
  glimpsed state rank newest acc floor w0 true (mkRun n w h) -> floor = rank (lastSyncResourceVersion (refl x)) ->
  lastSyncResourceVersion (refl x) <> "" -> no_older rv0 (lastSyncResourceVersion (refl x)) ->
  (forall obj, unexpected (refl x) obj = true <-> unexp obj) ->
  seen (mkRun n w (of_handler h x)).
Proof.
  intros [Hl|(Hg & _ & Hw)] Hf Hne Ho Hu; [left; by eapply looked_synced|right]. split; [done|].
  destruct (Hw eq_refl) as (rv & Hr & Hne1 & Hne2 & Hv1 & _ & Hr1 & Hr2). subst floor. cbn in Hr, Hv1, Hr1, Hr2.
  split; [|exists rv; split_and!; try done; right; split; [done|apply Hr1]].
  unfold version. cbn. eapply no_older_trans; [done|]. right. split; [done|apply Hr1].
Qed.

Lemma triple_main_handler (x : reflecting) start wi :
  triple seen (fun s => watching (Some wi) s /\ x = local s)
    (zoom to_handler of_handler (watchHandler (refl x) start wi false)) (fun _ => synced_tracks).
Proof.
  intros [n w y] [[[Ht Hsy] Hst] ->]. unfold zoom. cbn [budget srv local] in *.
  destruct Ht as (Ho & Hu & _). destruct Hsy as (Hne & Hne0 & Hr & Hle). unfold version in *. cbn in Ho, Hne, Hne0, Hr, Hle.
  assert (Hstart : streaming state rank newest acc streams (rank (lastSyncResourceVersion (refl y))) w true wi
    (mkRun n w (to_handler y))).
  { exists (Live (lastSyncResourceVersion (refl y))). split; [|split; [by eexists|done]].
    split; [unfold later; cbn; lia|]. split_and!; [done|done|done|done|lia|done]. }
  pose proof (triple_watchHandler state rank newest acc unexp token streams Hserves (refl y) _ w Hu true wi start false
    _ Hstart) as Hw.
  destruct (watchHandler _ _ _ _ _) as [[n' w' h'] [| |res]]; [|done|].
  - by eapply glimpsed_seen.
  - destruct Hw as [Hw _]. by eapply looked_synced.
Qed.

Lemma triple_world {A} (f : W -> W * A) :
  (forall w, later newest w (f w).1) -> triple seen synced_tracks (call f) (fun _ => synced_tracks).
Proof. intros Hf. by apply (triple_quiet_call _ _ synced_tracks synced_tracks_quiet). Qed.

Lemma triple_After_error err retry :
  triple seen synced_tracks (After_error err retry) (fun _ => synced_tracks).
Proof.
  pose proof (triple_world Now (sv_Now_later _ _ _ _ _ _ _ Hserves)) as Hnow.
  unfold After_error. destruct err as [e|]; [|by apply triple_ret]. destruct (api_error _ _); [|by apply triple_ret].
  do 3 (eapply triple_bind; [apply Hnow|]; intros ?). by apply triple_ret.
Qed.

(** What a turn of the watch comes to: another turn, or the end. *)
Definition turned (r : (option WI * retryWithDeadlineImpl) + option (rerror V E)) (s : run W reflecting) : Prop :=
  match r with
  | inl (ow, _) => watching ow s
  | inr _ => tracks s
  end.

Lemma triple_after_handler err retry : triple seen synced_tracks (after_handler err retry) turned.
Proof.
  unfold after_handler. eapply triple_bind; [apply triple_After_error|]. clear retry. intros retry.
  assert (Hend : forall err', triple seen synced_tracks (ret (inr err')) turned) by (intros; apply triple_ret; by intros s [? _]).
  assert (Hagain : triple seen synced_tracks (ret (inl (None, retry))) turned) by (apply triple_ret; by intros s Hs).
  destruct err as [err|]; [|done].
  assert (Hrest : triple seen synced_tracks
    (if api_error isExpiredError err then ret (inr None)
     else if api_error IsTooManyRequests err then
       let! stop := call Backoff in if (stop : bool) then ret (inr None) else ret (inl (None, retry))
     else if api_error IsInternalError err then
       let! now := call Now in
       let '(retry, again) := ShouldRetry now retry in
       if again then ret (inl (None, retry)) else ret (inr None)
     else ret (inr None)) turned).
  { destruct (api_error isExpiredError err); [done|]. destruct (api_error IsTooManyRequests err).
    - eapply triple_bind; [apply (triple_world Backoff (sv_Backoff_later _ _ _ _ _ _ _ Hserves))|]. by intros [|].
    - destruct (api_error IsInternalError err); [|done].
      eapply triple_bind; [apply (triple_world Now (sv_Now_later _ _ _ _ _ _ _ Hserves))|]. intros now. cbn beta.
      destruct (ShouldRetry now retry) as [retry' [|]]; [|done]. apply triple_ret. by intros s Hs. }
  destruct err; done.
Qed.

Lemma triple_handle_watch start wi retry : triple seen (watching (Some wi)) (handle_watch start wi retry) turned.
Proof.
  unfold handle_watch. eapply triple_bind; [apply triple_get|]. intros x. cbn beta.
  eapply triple_bind; [apply triple_main_handler|]. intros [err bm]. cbn beta.
  eapply triple_bind; [apply (triple_world (StopWatch wi) (sv_StopWatch_later _ _ _ _ _ _ _ Hserves wi))|].
  intros u. apply triple_after_handler.
Qed.

(** The first turn may also find that the reflector was stopped during the list. *)
Definition may_watch (ow : option WI) (s : run W reflecting) : Prop :=
  tracks s /\ (stopped (srv s) = true \/ watching ow s).

Lemma triple_watch_turn ow retry : triple seen (may_watch ow) (watch_turn ow retry) turned.
Proof.
  unfold watch_turn. eapply triple_bind; [apply triple_look|]. intros stop. cbn beta.
  destruct stop; [apply triple_ret; by intros s [[? _] _]|].
  apply (triple_pre _ _ (watching ow)); [intros s [[_ [?|?]] ?]; congruence|].
  eapply (triple_bind _ _ _ _ (fun _ => watching ow)).
  { apply triple_call. intros n w w' a x [Hs Hst] En. pose proof (sv_Now_later _ _ _ _ _ _ _ Hserves w) as Hl.
    rewrite En in Hl. split; [by eapply synced_tracks_quiet|]. destruct ow as [wi|]; [|done].
    pose proof (sv_Now _ _ _ _ _ _ _ Hserves _ _ _ Hst) as Hst'. cbn in Hst'. by rewrite En in Hst'. }
  intros start. cbn beta. destruct ow as [wi|]; [apply triple_handle_watch|].
  eapply triple_bind; [apply triple_get|]. intros x. cbn beta.
  eapply (triple_bind _ _ _ _ (fun res => match res with inl wi => watching (Some wi) | inr _ => synced_tracks end)).
  { apply triple_call. intros n w w' a y [[Hs _] ->] Ew. cbn [local] in *.
    pose proof (sv_Watch_later _ _ _ _ _ _ _ Hserves (watch_options (LastSyncResourceVersion (refl y))) w) as Hl.
    rewrite Ew in Hl. cbn in Hl. assert (Hs' : synced_tracks (mkRun n w' y)) by by eapply synced_tracks_quiet.
    destruct a as [wi|e]; [|done]. split; [done|]. apply (sv_watch _ _ _ _ _ _ _ Hserves _ w w' wi); [apply Hs|done]. }
  intros [wi|e]; [apply triple_handle_watch|]. cbn beta iota.
  destruct (isWatchErrorRetriable e); [|apply triple_ret; by intros s [? _]].
  eapply triple_bind; [apply (triple_world Backoff (sv_Backoff_later _ _ _ _ _ _ _ Hserves))|].
  intros [|]; apply triple_ret; [by intros s [? _]|by intros s Hs].
Qed.

Lemma triple_watch ow : triple seen (may_watch ow) (watch ow) (fun _ => tracks).
Proof.
  unfold watch. eapply triple_bind; [apply triple_get|]. intros x. cbn beta.
  apply (triple_pre _ _ (may_watch ow)); [by intros s [? _]|].
  apply (triple_forever seen (fun a => may_watch a.1) _ (fun _ => tracks) (ow, _)); [by intros a s [? _]; left|done|].
  intros [ow' retry]. eapply triple_conseq; [apply triple_watch_turn|done|done|].
  intros [[ow'' retry']|err] s Hs; [|done]. split; [apply Hs|by right].
Qed.

(** *** Running *)

Lemma triple_watch_with_resync ow : triple seen (may_watch ow) (watch_with_resync ow) (fun _ => tracks).
Proof.
  unfold watch_with_resync.
  eapply (triple_bind _ _ _ _ (fun _ => may_watch ow)); [by apply triple_modify|].
  intros []. eapply triple_bind; [apply triple_watch|]. intros err. cbn beta.
  eapply (triple_bind _ _ _ _ (fun _ => tracks)); [by apply triple_modify|]. intros []. by apply triple_ret.
Qed.

Lemma triple_list_and_watch pages : triple seen tracks (list_and_watch pages) (fun _ => tracks).
Proof.
  unfold list_and_watch. eapply triple_bind; [apply triple_list|]. intros [err|]; [by apply triple_ret; intros s [? _]|].
  eapply triple_pre; [|apply triple_watch_with_resync].
  intros s [Ht Hs]. split; [done|]. destruct (Hs eq_refl); [by left|by right].
Qed.

Lemma triple_ListAndWatch pages : triple seen tracks (ListAndWatch pages) (fun _ => tracks).
Proof.
  unfold ListAndWatch. eapply triple_bind; [apply triple_get|]. intros x. cbn beta.
  apply (triple_pre _ _ tracks); [by intros s [? _]|].
  destruct (UseWatchList _); [|apply triple_list_and_watch].
  eapply triple_bind; [apply triple_watchList|]. intros [ow err]. cbn beta iota.
  assert (Herr : triple seen tracks
    (match err with Some err => if api_error IsInvalid err then list_and_watch pages else ret (Some err) | None => ret None end)
    (fun _ => tracks)).
  { destruct err as [err|]; [|by apply triple_ret]. destruct (api_error _ _); [apply triple_list_and_watch|by apply triple_ret]. }
  destruct ow as [wi|], err as [err|].
  - apply (triple_pre _ _ tracks); [by intros s [? _]|done].
  - eapply triple_pre; [|apply triple_watch_with_resync]. intros s (Ht & Hsy & Hst). split; [done|]. by right.
  - apply (triple_pre _ _ tracks); [by intros s [? _]|done].
  - apply triple_ret. by intros s [? _].
Qed.

Lemma triple_Run pages :
  triple seen tracks (Run pages) (fun _ s => tracks s /\ stopped (srv s) = true).
Proof.
  unfold Run.
  apply (triple_forever seen (fun _ => tracks) _ (fun _ s => tracks s /\ stopped (srv s) = true)); [by left|done|]. intros [].
  eapply triple_bind; [apply triple_look|]. intros stop. cbn beta.
  destruct stop; [apply triple_ret; by intros s [? ?]|]. apply (triple_pre _ _ tracks); [by intros s [? _]|].
  eapply triple_bind; [apply triple_ListAndWatch|]. intros err. cbn beta.
  eapply (triple_bind _ _ _ _ (fun stop s => tracks s /\ (stop = true -> stopped (srv s) = true))).
  { apply triple_call. intros n w w' b x Ht Eb. pose proof (sv_Backoff_later _ _ _ _ _ _ _ Hserves w) as Hl.
    rewrite Eb in Hl. split; [by eapply tracks_later|]. intros ->. by apply (sv_Backoff_stop _ _ _ _ _ _ _ Hserves w). }
  intros [|]; apply triple_ret; intros s [Ht Hs]; [split; [done|by apply Hs]|done].
Qed.

End reflector.

(** ** The reflector spends its whole budget *)

Section thrifty.
Context {O L E T G W WI : Type} `{MetaAccessor O} `{ListObject L (iface (value O))} `{APIErrors (value O) E}
  `{WatchObjects (value O) T G} `{Surroundings (value O) L E W WI}.
Context {S : Type} `{ReflectorStore (value O) S} `{Moments} `{MapRange} `{SetsString}.
Local Abbreviation reflecting := (reflecting O E T G W S).
Variable pages : nat.
Hypothesis Hpages : forall (p : ListPager L E W) options w,
  PageFn p = lw_List -> Continue options = "" ->
  is_Some (List IsResourceExpired pages p (fun _ => false) options w).

Lemma thrifty_pager_list p rv : PageFn p = lw_List -> thrifty (pager_list (T:=T) (G:=G) (S:=S) pages p (options_at rv)).
Proof.
  intros Hp s. unfold pager_list. destruct (Hpages p (options_at rv) (srv s) Hp eq_refl) as [[[w' res] pg] ->]. done.
Qed.

Lemma thrifty_sync_to items rv : thrifty (sync_to (T:=T) (G:=G) (S:=S) items rv).
Proof. unfold sync_to, syncWith, others, on_store, pause. thrifty. Qed.

#[local] Hint Resolve thrifty_pager_list thrifty_sync_to : thrifty.

Lemma thrifty_list : thrifty (Reflector_list (T:=T) (G:=G) (S:=S) pages).
Proof. unfold Reflector_list. thrifty; by apply thrifty_pager_list. Qed.

Lemma thrifty_watchHandler {S' : Type} `{ReflectorStore (value O) S'} r start wi exit :
  thrifty (watchHandler (S:=S') r start wi exit).
Proof. unfold watchHandler, others, handle, resync, handle_event, on_store, pause. thrifty. Qed.

Lemma thrifty_temporary_handler r start wi : thrifty (temporary_handler (S:=S) r start wi).
Proof.
  intros s. unfold temporary_handler.
  pose proof (thrifty_watchHandler (H8:=reflect_Store) r start wi true
    (mkRun (budget s) (srv s) (mkHandler (NewStore DeletionHandlingMetaNamespaceKeyFunc) "" None false))) as Hw.
  destruct (watchHandler _ _ _ _ _) as [s' [| |res]]; cbn in *; split; [apply Hw|auto|apply Hw|done|apply Hw|done].
  intros _. by apply Hw.
Qed.

#[local] Hint Resolve thrifty_list thrifty_watchHandler thrifty_temporary_handler : thrifty.

Lemma thrifty_watchList : thrifty (watchList (T:=T) (G:=G) (S:=S)).
Proof. unfold watchList, watchList_turn, isErrorRetriableWithSideEffectsFn. thrifty. Qed.

Lemma thrifty_watch ow : thrifty (watch (T:=T) (G:=G) (S:=S) ow).
Proof. unfold watch, watch_turn, handle_watch, after_handler, After_error. thrifty. Qed.

#[local] Hint Resolve thrifty_watchList thrifty_watch : thrifty.

Lemma thrifty_Run : thrifty (Run (T:=T) (G:=G) (S:=S) pages).
Proof. unfold Run, ListAndWatch, list_and_watch, watch_with_resync. thrifty. Qed.
End thrifty.

(** ** Properties *)

(** C2: a reflector mirrors the server.  Against a server that keeps the API's
    promises, with any store that represents a map, and whatever lists, watches,
    bookmarks, expirations, too large versions, refusals, restarts, resyncs, other
    users of the store and stop signals come: however far [Run] has got, the store represents
    exactly the objects the server had at one version, none that the server has not told of,
    or, before the first sync, what it had at the start.  Between the turns of the loops that
    version is the reflector's [lastSyncResourceVersion]; in the gap after a write to the
    store, where the code has not set the version yet, the version that is set is not newer
    than the store.  The reflector never panics. *)
Theorem reflector_tracks {O L E T G W WI S} `{MetaAccessor O} `{ListObject L (iface (value O))}
    `{APIErrors (value O) E} `{WatchObjects (value O) T G} `{Surroundings (value O) L E W WI}
    `{ReflectorStore (value O) S} `{Moments} `{MapRange} `{SetsString} (acc unexp : iface (value O) -> Prop) `{!Reflected acc S}
    state rank newest token streams before pages (s : run W (reflecting O E T G W S)) :
  serves state rank newest acc unexp token streams ->
  (forall obj, unexpected (refl (local s)) obj = true <-> unexp obj) ->
  lastSyncResourceVersion (refl (local s)) = "" -> represents (store (local s)) before ->
  let '(s', out) := Run pages s in
  let set := lastSyncResourceVersion (refl (local s')) in
  out <> Panics /\
  ((set = "" /\ represents (store (local s')) before) \/
   exists rv, rv <> "" /\ represents (store (local s')) (state rv) /\ rank rv <= newest (srv s') /\
     (gaps = false -> set = rv) /\ (set <> "" -> rank set <= rank rv)).
Proof.
  intros Hserves Hu Hv Hr.
  pose proof (triple_Run state rank newest acc unexp token streams Hserves before "" pages s) as Hrun.
  destruct (Run pages s) as [s' out].
  assert (Hs : tracks state rank newest acc unexp before "" s) by (split; [by left|split; [done|by left]]).
  specialize (Hrun Hs).
  assert (Hs' : out <> Panics /\ seen state rank newest acc unexp before "" s')
    by (destruct out; [done..|split; [done|left; by destruct Hrun]]).
  destruct Hs' as [Hp [(_ & _ & [?|(? & _ & ? & ?)])|(Hg & _ & rv & Hne & _ & Hst & Ho & Hle)]]; (split; [done|]); [by left|right..].
  - eexists. by split_and!.
  - exists rv. rewrite Hg. split_and!; try done. intros Hset. by destruct Ho as [|[_ ?]].
Qed.

(** C8: a reflector never goes back.  Under the same promises, a reflector that is
    run again with its store at some version of the server, be its last list or watch
    a success or not, is at a version not older than that at every moment: not after
    a list that was answered from a stale cache, a watch that expired, or a fallback
    to the newest version.  Between the turns of its loops the store is at the version it
    gives. *)
Theorem reflector_never_goes_back {O L E T G W WI S} `{MetaAccessor O} `{ListObject L (iface (value O))}
    `{APIErrors (value O) E} `{WatchObjects (value O) T G} `{Surroundings (value O) L E W WI}
    `{ReflectorStore (value O) S} `{Moments} `{MapRange} `{SetsString} (acc unexp : iface (value O) -> Prop) `{!Reflected acc S}
    state rank newest token streams pages (s : run W (reflecting O E T G W S)) :
  serves state rank newest acc unexp token streams ->
  (forall obj, unexpected (refl (local s)) obj = true <-> unexp obj) ->
  synced state rank newest acc s ->
  let '(s', _) := Run pages s in
  (gaps = false -> synced state rank newest acc s') /\
  rank (lastSyncResourceVersion (refl (local s))) <= rank (lastSyncResourceVersion (refl (local s'))).
Proof.
  intros Hserves Hu Hsy.
  pose proof (triple_Run state rank newest acc unexp token streams Hserves ∅ (version s) pages s) as Hrun.
  destruct (Run pages s) as [s' out].
  assert (Hs : tracks state rank newest acc unexp ∅ (version s) s)
    by (split; [apply no_older_refl|split; [done|by right]]).
  specialize (Hrun Hs).
  assert (Hs' : seen state rank newest acc unexp ∅ (version s) s') by (destruct out; [done..|left; by destruct Hrun]).
  destruct Hs' as [([Hn|[Hne Hle]] & _ & Hs')|(Hg & [Hn|[_ Hle]] & _)]; [by destruct Hsy| |by destruct Hsy|by rewrite Hg].
  split; [|done]. destruct Hs' as [[? _]|]; [|done]. by destruct Hne.
Qed.

(** A reflector runs until it is stopped.  When no list of the server has more than [n]
    pages, [Run] is only ever cut short by the budget it is watched
    with, however large that is, and it returns only after the stop signal. *)
Theorem reflector_runs_until_stopped {O L E T G W WI S} `{MetaAccessor O} `{ListObject L (iface (value O))}
    `{APIErrors (value O) E} `{WatchObjects (value O) T G} `{Surroundings (value O) L E W WI}
    `{ReflectorStore (value O) S} `{Moments} `{MapRange} `{SetsString} (acc unexp : iface (value O) -> Prop) `{!Reflected acc S}
    state rank newest token streams before rv0 left n pages (s : run W (reflecting O E T G W S)) :
  serves state rank newest acc unexp token streams ->
  pages_run_out lw_List left n -> (n < pages)%nat ->
  tracks state rank newest acc unexp before rv0 s ->
  let '(s', out) := Run pages s in
  (out = Running /\ budget s' = 0%nat) \/ (out = Returns tt /\ stopped (srv s') = true).
Proof.
  intros Hserves Hend Hpages Hs.
  pose proof (triple_Run state rank newest acc unexp token streams Hserves before rv0 pages s Hs) as Hrun.
  assert (Htotal : forall (p : ListPager L E W) options w, PageFn p = lw_List -> Continue options = "" ->
    is_Some (List IsResourceExpired pages p (fun _ => false) options w)).
  { intros p o w Hp Hc. rewrite <- Hp in Hend. by apply (List_total _ _ _ left n). }
  destruct (thrifty_Run (T:=T) (G:=G) (S:=S) pages Htotal s) as [_ Hbudget].
  destruct (Run pages s) as [s' out].
  destruct out as [| |[]]; [left|done|right]; split; auto. by destruct Hrun.
Qed.

(** ** A server

    It has three versions: pod a; pods a and b; pod b.  Its cache answers a list for
    "0" with the first, other lists with the last.  A watch goes from version to
    version, then the channel closes; the world is where the watch is.  It does not
    stream lists. *)
Module api_server.

#[global] Instance pods : MetaAccessor pod := pod_accessor.

Definition pod_a := pod_obj "a" 1.
Definition pod_b := pod_obj "b" 2.

Definition state (rv : string) : gmap string (iface (value pod)) :=
  if decide (rv = "1") then {["default/a" := pod_a]}
  else if decide (rv = "2") then <["default/b" := pod_b]> {["default/a" := pod_a]}
  else if decide (rv = "3") then {["default/b" := pod_b]}
  else ∅.

Definition rank (rv : string) : Z :=
  if decide (rv = "1") then 1 else if decide (rv = "2") then 2 else if decide (rv = "3") then 3 else 0.

Definition newest (w : Z) : Z := 3.

#[global] Instance lists : ListObject (string * list (iface (value pod))) (iface (value pod)) := {|
  ListAccessor := fun l => Some (l.1, "");
  EachListItem_items := fun l => Some l.2
|}.

#[global] Instance no_errors : APIErrors (value pod) unit := {|
  IsResourceExpired := fun _ => false;
  IsGone := fun _ => false;
  IsTimeout := fun _ => false;
  IsTooManyRequests := fun _ => false;
  IsInternalError := fun _ => false;
  IsInvalid := fun _ => false;
  IsConnectionRefused := fun _ => false;
  HasStatusCause := fun _ _ => false;
  APIStatus := fun _ => None;
  FromObject := fun _ => tt
|}.

#[global] Instance one_type : WatchObjects (value pod) unit unit := {|
  CauseTypeResourceVersionTooLarge := "ResourceVersionTooLarge";
  strings_Contains := fun _ _ => false;
  TypeOf := fun _ => tt;
  GroupVersionKind := fun _ => tt;
  has_annotation := fun _ _ => false
|}.

(** [b] as it was last seen: with the version of the deletion of [a]. *)
Definition deletion_of_a := pod_obj "a" 3.

Definition serve_list (o : ListOptions) (w : Z) : Z * (string * list (iface (value pod)) + unit) :=
  (w, inl (if decide (ResourceVersion o = "0") then ("1", [pod_a]) else ("3", [pod_b]))).

Definition serve_watch (o : ListOptions) (w : Z) : Z * (unit + unit) :=
  if decide (SendInitialEvents o = None /\ 0 < rank (ResourceVersion o)) then (rank (ResourceVersion o), inl tt) else (w, inr tt).

Definition serve_next (wi : unit) (w : Z) : Z * message (value pod) :=
  if decide (w = 1) then (2, Received (mkEvent WAdded pod_b))
  else if decide (w = 2) then (3, Received (mkEvent WDeleted deletion_of_a))
  else (w, Closed).

#[global] Instance server : Surroundings (value pod) (string * list (iface (value pod))) unit Z unit := {|
  lw_List := serve_list;
  lw_Watch := serve_watch;
  next := serve_next;
  StopWatch := fun _ w => (w, tt);
  stopped := fun _ => false;
  stop_first := fun _ => false;
  Backoff := fun w => (w, false);
  Now := fun w => (w, 0);
  meanwhile := fun _ => 1%nat
|}.

Definition known (obj : iface (value pod)) : Prop := obj = pod_a \/ obj = pod_b \/ obj = deletion_of_a.

Definition at_version (wi : unit) (ph : phase (O:=pod)) (w : Z) : Prop :=
  (w = 1 /\ ph = Live "1") \/ (w = 2 /\ ph = Live "2") \/ (w = 3 /\ ph = Live "3").

Lemma pages : pages_snapshots serve_list (later newest) (listing (WI:=unit) state rank newest known) (fun _ _ _ => False).
Proof.
  split; try done; [|by intros ? ? []].
  intros o w w' obj rv cont items _ [= <- <-] [= <- <-] [= <-]. exists []. split; [|done]. rewrite app_nil_r.
  unfold listing. cbn [lw_List server]. case_decide as Ho; cbn.
  - split_and!; try done; [by apply Forall_singleton; left|].
    rewrite decide_False by congruence. done.
  - split_and!; try done; [by apply Forall_singleton; right; left|].
    case_decide; [done|]. change (rank "3") with 3. unfold rank. repeat case_decide; lia.
Qed.

Lemma serves_pods : serves (WI:=unit) state rank newest known (fun _ => False) (fun _ _ _ => False) at_version.
Proof.
  split; try done.
  - apply pages.
  - intros rv k obj Hk. unfold state in Hk. unfold known.
    repeat case_decide; [..|by rewrite lookup_empty in Hk];
      repeat match goal with
      | Hk : <[_ := _]> _ !! _ = Some _ |- _ => apply lookup_insert_Some in Hk as [[<- <-]|[_ Hk]]
      | Hk : {[_ := _]} !! _ = Some _ |- _ => apply lookup_singleton_Some in Hk as [<- <-]
      end; split; auto.
  - intros rv w w' wi Hrv Hw. cbn [lw_Watch server] in Hw. unfold serve_watch in Hw.
    cbn [SendInitialEvents watch_options ResourceVersion] in Hw.
    case_decide as Hd; [|done]. injection Hw as <- _. destruct Hd as [_ Hr]. unfold at_version, rank in *.
    repeat case_decide; subst; eauto; lia.
  - intros wi ph w w' m Hst Hn. cbn in Hn. unfold serve_next in Hn.
    destruct Hst as [[-> ->]|[[-> ->]|[-> ->]]]; injection Hn as <- <-; [..|done]; right; right;
      (split; [by intros []|]); eexists; (split; [reflexivity|]); cbn.
    + exists "default/b". split; [by right; left|]. split; [done|]. split; [|by right; left].
      split_and!; try done.
    + exists "default/a". split; [by right; right|]. split; [done|]. split; [|by right; right].
      split_and!; try done.
Qed.

(** A reflector with an empty store, about to run for a few turns of its loops. *)
Definition reflector : Reflector unit unit Z :=
  NewReflectorWithOptions (fun _ => false) (fun _ => true) false None 0.

#[local] Existing Instance range_in_key_order.
#[local] Existing Instance sets_in_key_order.

Definition pod_store := cache (value pod) (threadSafeMap (value pod)).

#[global] Instance reflect_pods : ReflectorStore (value pod) pod_store := reflect_Store.
#[global] Instance reflected_pods : Reflected known pod_store := Store_Reflected known (S:=pod_store) (fun s => eq_refl).

Definition start (n : nat) : run Z (reflecting pod unit unit unit Z pod_store) :=
  mkRun n 0 (mkReflecting reflector (NewStore (DeletionHandlingMetaNamespaceKeyFunc (O:=pod))) None false).

Definition after `{Moments} (n : nat) := Run 3 (start n).

End api_server.

#[local] Existing Instance range_in_key_order.
#[local] Existing Instance sets_in_key_order.

Lemma start_unexpected n obj : unexpected (refl (local (api_server.start n))) obj = true <-> False.
Proof. done. Qed.

Lemma start_represents n : represents (store (local (api_server.start n))) ∅.
Proof.
  destruct (NewStore_inv (DeletionHandlingMetaNamespaceKeyFunc (O:=pod))) as (Hi & Hit & Ha). by split_and!; auto.
Qed.

#[local] Existing Instance also_in_gaps.

(** The list has been answered from the cache, the watch has brought pod b, and the run is
    looked at in the gap: the store has it, and the version is still the first. *)
Lemma reflector_tracks_witness :
  let '(s', out) := api_server.after 4 in
  st_ListKeys (store (local s')) = ["default/a"; "default/b"] /\
  let set := lastSyncResourceVersion (refl (local s')) in
  set = "1" /\ out <> Panics /\
  ((set = "" /\ represents (store (local s')) ∅) \/
   exists rv, rv <> "" /\ represents (store (local s')) (api_server.state rv) /\
     api_server.rank rv <= api_server.newest (srv s') /\
     (gaps = false -> set = rv) /\ (set <> "" -> api_server.rank set <= api_server.rank rv)).
Proof.
  pose proof (reflector_tracks api_server.known (fun _ => False) api_server.state api_server.rank api_server.newest
    (fun _ _ _ => False) api_server.at_version ∅ 3 (api_server.start 4) api_server.serves_pods (start_unexpected 4)
    eq_refl (start_represents 4)) as Ht.
  assert (Hk : st_ListKeys (store (local (api_server.after 4).1)) = ["default/a"; "default/b"]) by (vm_compute; reflexivity).
  assert (Hv : lastSyncResourceVersion (refl (local (api_server.after 4).1)) = "1") by (vm_compute; reflexivity).
  unfold api_server.after in *. destruct (Run 3 (api_server.start 4)) as [s' out]. split; [exact Hk|]. split; [exact Hv|exact Ht].
Defined.

#[local] Remove Hints also_in_gaps : typeclass_instances.
#[local] Existing Instance between_turns.

(** The same reflector at the first version, with more turns to come. *)
Definition api_server_synced (n : nat) : run Z (reflecting pod unit unit unit Z api_server.pod_store) :=
  mkRun n 1 (mkReflecting (setLastSyncResourceVersion "1" api_server.reflector)
    (match rs_Replace [api_server.pod_a] "1" (store (local (api_server.start 0))) with
     | Some (st, _) => st
     | None => store (local (api_server.start 0))
     end) None false).

Lemma synced_start n : synced api_server.state api_server.rank api_server.newest api_server.known (api_server_synced n).
Proof.
  destruct (rs_Replace_law [api_server.pod_a] "1" _ _ (api_server.state "1") (start_represents 0)) as (st & Hop & Hst);
    [by apply Forall_singleton; left|reflexivity|].
  unfold api_server_synced. rewrite Hop. split_and!; done.
Qed.

Lemma reflector_never_goes_back_witness :
  let '(s', _) := Run 3 (api_server_synced 4) in
  lastSyncResourceVersion (refl (local s')) = "3" /\
  (gaps = false -> synced api_server.state api_server.rank api_server.newest api_server.known s') /\
  api_server.rank "1" <= api_server.rank (lastSyncResourceVersion (refl (local s'))).
Proof.
  pose proof (reflector_never_goes_back api_server.known (fun _ => False) api_server.state api_server.rank
    api_server.newest (fun _ _ _ => False) api_server.at_version 3 (api_server_synced 4) api_server.serves_pods
    (start_unexpected 0) (synced_start 4)) as Ht.
  assert (Hv : lastSyncResourceVersion (refl (local (Run 3 (api_server_synced 4)).1)) = "3") by (vm_compute; reflexivity).
  destruct (Run 3 (api_server_synced 4)) as [s' out]. split; [exact Hv|exact Ht].
Defined.

Lemma reflector_runs_until_stopped_witness :
  let '(s', out) := Run 4 (api_server.start 40) in
  out = Running /\
  ((out = Running /\ budget s' = 0%nat) \/ (out = Returns tt /\ stopped (srv s') = true)).
Proof.
  assert (Hend : pages_run_out api_server.serve_list (fun _ => 0%nat) 1)
    by (split; intros o w w' obj rv cont _ [= <- <-] [= <- <-]; done).
  assert (Hs : tracks api_server.state api_server.rank api_server.newest api_server.known (fun _ => False) ∅ ""
    (api_server.start 40)) by (split; [by left|split; [apply (start_unexpected 40)|left; split; [done|apply (start_represents 40)]]]).
  pose proof (reflector_runs_until_stopped api_server.known (fun _ => False) api_server.state api_server.rank
    api_server.newest (fun _ _ _ => False) api_server.at_version ∅ "" (fun _ => 0%nat) 1 4 (api_server.start 40) api_server.serves_pods
    Hend ltac:(lia) Hs) as Ht.
  assert (Hv : (Run 4 (api_server.start 40)).2 = Running) by (vm_compute; reflexivity).
  destruct (Run 4 (api_server.start 40)) as [s' out]. split; [exact Hv|exact Ht].
Defined.
