(* ===== verification/ReflectorInformer.v ===== *)
(** * A reflector feeding an informer

    [Reflector] writes to the delta queue of an informer ([Controller]) whose loop pops
    it meanwhile: the informer is a store in the sense of [ReflectorTracks], so that
    the theorems of both sides compose.  The informer has no transformer. *)

From S2P Require Import Prelude Objects ThreadSafeStore Store DeltaFIFO Controller Pager LoopMonad Reflector ReflectorTracks.

Section informer_store.
Context {O S X : Type} `{MetaAccessor O} `{StoreI (value O) S} `{MapRange}.
Local Abbreviation V := (value O).
Local Abbreviation informer := (@informer O S X).
Variables (cfg : DeltaFIFOConfig O) (h : ResourceEventHandler V X).

(** The methods of the queue, with the informer's store for its known objects; none
    of them returns once the process has panicked. *)
Definition on_fifo (op : option S -> stateM (DeltaFIFO O) V unit) : store_op V informer unit := fun s =>
  match world s with
  | None => None
  | Some (st, x) =>
      let '(f, r) := op (Some st) (fifo s) in Some (mkInformer f (world s), r)
  end.

Definition informer_ReflectorStore : ReflectorStore V informer := {|
  rs_Add := fun obj => on_fifo (fun _ => Add cfg obj);
  rs_Update := fun obj => on_fifo (fun _ => Update cfg obj);
  rs_Delete := fun obj => on_fifo (fun known => Delete cfg known obj);
  rs_Replace := fun l _ => on_fifo (fun known => Replace cfg known l);
  rs_Resync := on_fifo (fun known => Resync cfg known);
  rs_UpdateResourceVersion := None;
  rs_others := drain cfg h
|}.

End informer_store.

(** ** Without a transformer the queue refuses nothing that has a key *)

Section total.
Context {O : Type} `{MetaAccessor O}.
Variable cfg : DeltaFIFOConfig O.
Hypothesis Htransform : forall obj, transform cfg obj = Ok obj.

Lemma queueActionLocked_total t obj k f :
  KeyOf cfg obj = Ok k -> (queueActionLocked cfg t obj f).2 = Ok tt.
Proof. intros Hk. rewrite queueActionLocked_put, Hk, Htransform. done. Qed.

Lemma Replace_enqueue_total action l keys f m m' :
  items_of_list (KeyOf cfg) l m = Ok m' ->
  exists f' keys', Replace_enqueue cfg action l keys f = (f', Ok keys').
Proof.
  revert keys f m. induction l as [|item l IH]; intros keys f m; simpl; [by eauto|].
  destruct (KeyOf cfg item) as [k|] eqn:Hk; [|done]. intros Hl.
  pose proof (queueActionLocked_total action item k f Hk) as Hq.
  destruct (queueActionLocked cfg action item f) as [f1 r]. cbn in Hq. subst r. by eapply IH.
Qed.

Lemma Replace_queued_deletions_total l keys n f :
  exists f' n', Replace_queued_deletions cfg l keys n f = (f', Ok n').
Proof.
  revert n f. induction l as [|[k old] l IH]; intros n f; simpl; [by eauto|].
  destruct (decide _); [apply IH|].
  pose proof (queueActionLocked_total Deleted (Some (VTombstone k (deletedObjOf old))) k f eq_refl) as Hq.
  destruct (queueActionLocked cfg _ _ f) as [f1 r]. cbn in Hq. subst r. apply IH.
Qed.

Lemma Replace_known_deletions_total {K} `{KeyListerGetter (value O) K} (kn : K) ks keys n f :
  exists f' n', Replace_known_deletions cfg kn ks keys n f = (f', Ok n').
Proof.
  revert n f. induction ks as [|k ks IH]; intros n f; simpl; [by eauto|].
  destruct (decide _); [apply IH|]. destruct (_ <? _)%nat; [apply IH|].
  pose proof (queueActionLocked_total Deleted (Some (VTombstone k (known_obj kn k))) k f eq_refl) as Hq.
  destruct (queueActionLocked cfg _ _ f) as [f1 r]. cbn in Hq. subst r. apply IH.
Qed.

Lemma Replace_total {K} `{MapRange} `{KeyListerGetter (value O) K} (known : option K) l f m' :
  items_of_list (KeyOf cfg) l ∅ = Ok m' -> (Replace cfg known l f).2 = Ok tt.
Proof.
  intros Hl. unfold Replace, Replace_queue, sbind.
  destruct (Replace_enqueue_total (replace_action cfg) l ∅ f ∅ m' Hl) as (f1 & keys & ->).
  destruct (Replace_queued_deletions_total (range (items f1)) keys 0 f1) as (f2 & n2 & ->).
  destruct known as [kn|].
  - destruct (Replace_known_deletions_total kn (klg_ListKeys kn) keys n2 f2) as (f3 & n3 & ->). cbn.
    by destruct (populated f3).
  - cbn. by destruct (populated f2).
Qed.

Lemma Delete_total {K} `{KeyListerGetter (value O) K} (known : option K) obj k f :
  KeyOf cfg obj = Ok k -> (Delete cfg known obj f).2 = Ok tt.
Proof.
  intros Hk. unfold Delete. rewrite Hk. destruct known as [kn|].
  - destruct (klg_GetByKey k kn) as [[? ?] [?|]]; cbn; [by eapply queueActionLocked_total|].
    destruct (_ && _)%bool; [done|by eapply queueActionLocked_total].
  - cbn. destruct (negb _); [done|by eapply queueActionLocked_total].
Qed.

Lemma replaced_objects_items l m m' :
  items_of_list (KeyOf cfg) l m = Ok m' -> replaced_objects cfg l m = Some m'.
Proof.
  revert m. induction l as [|item l IH]; intros m; cbn; [by intros [= ->]|].
  rewrite Htransform. destruct (KeyOf cfg item); [apply IH|done].
Qed.

End total.

(** ** The informer represents what was reported to it *)

Section represents.
Context {O S X : Type} `{MetaAccessor O} `{StoreLaws (value O) S} `{MapRange}.
Local Abbreviation V := (value O).
Local Abbreviation informer := (@informer O S X).
Local Abbreviation cfg := (newInformer_fifo (O:=O) None).1.
Local Abbreviation key := (DeletionHandlingMetaNamespaceKeyFunc (O:=O)).
Variables (h : ResourceEventHandler V X) (acc : iface V -> Prop) (st0 : S) (x0 : X).
Hypothesis Hmade : informer_made st0.
Hypothesis Hdeltas : Accessor_refuses_deltas (O:=O).
Hypothesis Haccepts : forall obj, api_object obj -> st_accepts st0 obj.
Hypothesis Hacc : forall obj, acc obj -> api_object obj.

Lemma no_transform obj : transform cfg obj = Ok obj.
Proof. done. Qed.

Lemma key_KeyOf obj k : key obj = Ok k -> KeyOf cfg obj = Ok k.
Proof. by apply KeyOf_newInformer. Qed.

Lemma transformer_ok_none : transformer_ok cfg (st_key st0) (st_accepts st0).
Proof.
  destruct Hmade as (_ & _ & Hk). intros obj k o Hnd Hkey [= <-]. rewrite Hk. split; [|auto].
  destruct obj as [[o|e|t o|ds]|]; try done. by destruct (Hnd ds).
Qed.

Lemma st_key_KeyOf o k : st_key st0 o = Ok k -> KeyOf cfg o = Ok k.
Proof. destruct Hmade as (_ & _ & Hk). rewrite Hk. apply key_KeyOf. Qed.

Definition informer_represents (s : informer) (m : gmap string (iface V)) : Prop :=
  exists st log, informer_at cfg h st0 x0 m s st log.

Lemma represents_step s m e s' :
  informer_represents s m -> event_ok e -> informer_step cfg h e s s' -> informer_represents s' (ideal cfg m e).
Proof.
  intros (st & log & Hat) He Hs.
  by apply (informer_at_step cfg h st0 transformer_ok_none st_key_KeyOf x0 m s st log e s').
Qed.

Lemma represents_world s m : informer_represents s m -> exists st x, world s = Some (st, x).
Proof. intros (st & log & [Hw _ _ _]). eauto. Qed.

(** A method of the queue that succeeds is a step. *)
Lemma represents_op s m m' e op :
  informer_represents s m -> event_ok e ->
  (forall f st x, world s = Some (st, x) -> fifo s = f ->
     (op (Some st) f).2 = Ok tt /\ informer_step cfg h e (mkInformer f (Some (st, x))) (mkInformer (op (Some st) f).1 (Some (st, x)))) ->
  ideal cfg m e = m' ->
  exists s', on_fifo op s = Some (s', Ok tt) /\ informer_represents s' m'.
Proof.
  intros Hr He Hop <-. destruct (represents_world s m Hr) as (st & x & Hw).
  destruct (Hop (fifo s) st x Hw eq_refl) as [Hok Hstep]. unfold on_fifo. rewrite Hw.
  destruct (op (Some st) (fifo s)) as [f' r]. cbn in Hok, Hstep. subst r.
  eexists. split; [done|]. eapply represents_step; [exact Hr|done|].
  destruct s as [f w]. cbn in *. by subst w.
Qed.

#[program] Definition informer_Reflected : @Reflected O _ acc informer (informer_ReflectorStore cfg h) := {|
  represents := informer_represents
|}.
Next Obligation.
  intros obj k s m Hr Ha Hk%key_KeyOf.
  apply (represents_op s m _ (EvAdd obj)); [done|by apply Hacc| |by unfold ideal; rewrite Hk].
  intros f st x _ _. split; [by eapply queueActionLocked_total|constructor].
Qed.
Next Obligation.
  intros obj k s m Hr Ha Hk%key_KeyOf.
  apply (represents_op s m _ (EvUpdate obj)); [done|by apply Hacc| |by unfold ideal; rewrite Hk].
  intros f st x _ _. split; [by eapply queueActionLocked_total|constructor].
Qed.
Next Obligation.
  intros obj k s m Hr Ha Hk%key_KeyOf.
  apply (represents_op s m _ (EvDelete obj)); [done|by apply api_object_no_deltas, Hacc| |by unfold ideal; rewrite Hk].
  intros f st x _ _. split; [by eapply Delete_total|constructor].
Qed.
Next Obligation.
  intros l rv s m m' Hr Ha Hi.
  assert (Hi' : items_of_list (KeyOf cfg) l ∅ = Ok m').
  { clear -Hi Hdeltas. revert Hi. generalize (∅ : gmap string (iface V)). induction l as [|o l IH]; intros m0; cbn [items_of_list]; [done|].
    destruct (key o) as [k|] eqn:Ek; [|done]. rewrite (key_KeyOf _ _ Ek). apply IH. }
  apply (represents_op s m _ (EvReplace l)); [done|by eapply Forall_impl| |].
  - intros f st x _ _. pose proof (Replace_total cfg no_transform (Some st) l f m' Hi') as Hok. split; [done|].
    destruct (Replace cfg (Some st) l f) as [f' r] eqn:E. cbn in Hok. subst r. by econstructor.
  - unfold ideal. by rewrite (replaced_objects_items cfg no_transform l ∅ m' Hi').
Qed.
Next Obligation.
  intros s m Hr. destruct (represents_world s m Hr) as (st & x & Hw).
  cbn [rs_Resync informer_ReflectorStore]. unfold on_fifo. rewrite Hw.
  destruct (Resync cfg (Some st) (fifo s)) as [f' r] eqn:E. eexists _, r. split; [done|].
  apply (represents_step s m EvResync); [done|done|]. destruct s as [f w]. cbn [fifo world] in *. subst w.
  replace f' with (Resync cfg (Some st) f).1 by (by rewrite E). constructor.
Qed.
Next Obligation.
  intros n s m (st & log & Hat).
  destruct (informer_at_drain cfg h st0 x0 m n s st log Hat) as (st' & log' & Hat' & _).
  by exists st', log'.
Qed.
Next Obligation. done. Qed.

Lemma newInformer_represents : informer_represents (newInformer st0 x0) ∅.
Proof.
  destruct (informer_at_reached None h st0 x0 [] (newInformer st0 x0) Hmade Hdeltas transformer_ok_none)
    as (st & log & Hat); [done|constructor|]. by exists st, log.
Qed.

(** Drained, the informer's store holds what was reported. *)
Lemma represents_drained s m :
  informer_represents s m ->
  let s' := drain cfg h (length (DeltaFIFO.queue (fifo s))) s in
  DeltaFIFO.queue (fifo s') = [] /\ exists st x, world s' = Some (st, x) /\ st_items st = m.
Proof.
  intros (st & log & Hat).
  destruct (informer_at_drain cfg h st0 x0 m (length (DeltaFIFO.queue (fifo s)))
    s st log Hat) as (st' & log' & [Hw Hi Hv _] & Hq).
  rewrite drop_all in Hq. split; [done|]. eexists _, _. split; [exact Hw|]. apply map_eq. intros k.
  rewrite <- Hv. unfold view. assert (Hk : k ∉ DeltaFIFO.queue (fifo (drain cfg h (length (DeltaFIFO.queue (fifo s))) s)))
    by (rewrite Hq; apply not_elem_of_nil).
  rewrite (ok_mem _ (inv_fifo _ _ _ _ Hi)) in Hk. apply eq_None_not_Some in Hk. by rewrite Hk.
Qed.

End represents.

(** ** Properties *)

(** C9: the whole pipeline mirrors the server.  A reflector that feeds a new
    informer, against a server that keeps the API's promises, with the informer's
    loop taking turns whenever it likes: however far the reflector has got, once the informer
    has popped what is queued, its store is exactly what the server had at some version
    (nothing, before the first sync), which is the reflector's [lastSyncResourceVersion]
    between the turns of its loops, and not older than that in the gap after a write; and
    nothing has panicked. *)
Theorem reflector_feeds_informer {O L E T G W WI S X} `{MetaAccessor O} `{ListObject L (iface (value O))}
    `{APIErrors (value O) E} `{WatchObjects (value O) T G} `{Surroundings (value O) L E W WI}
    `{StoreLaws (value O) S} `{Moments} `{MapRange} `{SetsString} (h : ResourceEventHandler (value O) X)
    (acc unexp : iface (value O) -> Prop) state rank newest token streams pages (st0 : S) (x0 : X)
    (s : run W (reflecting O E T G W (@informer O S X))) :
  let cfg := (newInformer_fifo (O:=O) None).1 in
  let feeds := informer_ReflectorStore cfg h in
  serves state rank newest acc unexp token streams ->
  informer_made st0 -> Accessor_refuses_deltas (O:=O) ->
  (forall obj, acc obj -> api_object obj) -> (forall obj, api_object obj -> st_accepts st0 obj) ->
  (forall obj, unexpected (refl (local s)) obj = true <-> unexp obj) ->
  lastSyncResourceVersion (refl (local s)) = "" -> store (local s) = newInformer st0 x0 ->
  let '(s', out) := Run pages s in
  let set := lastSyncResourceVersion (refl (local s')) in
  let informer' := drain cfg h (length (DeltaFIFO.queue (fifo (store (local s'))))) (store (local s')) in
  out <> Panics /\ DeltaFIFO.queue (fifo informer') = [] /\
  exists st x rv, world informer' = Some (st, x) /\ st_items st = (if decide (rv = "") then ∅ else state rv) /\
    (gaps = false -> set = rv) /\ (set <> "" -> rank set <= rank rv).
Proof.
  intros cfg feeds Hserves Hmade Hdeltas Hacc Haccepts Hu Hv Hst.
  set (Hrl := informer_Reflected h acc st0 x0 Hmade Hdeltas Haccepts Hacc).
  pose proof (triple_Run state rank newest acc unexp token streams Hserves (Hrs:=feeds) (Hrl:=Hrl) ∅ "" pages s) as Hrun.
  destruct (Run pages s) as [s' out].
  assert (Hs : tracks state rank newest acc unexp (Hrl:=Hrl) ∅ "" s).
  { split; [by left|split; [done|left]]. split; [done|]. rewrite Hst. by apply newInformer_represents. }
  specialize (Hrun Hs).
  assert (Hs' : out <> Panics /\ seen state rank newest acc unexp (Hrl:=Hrl) ∅ "" s')
    by (destruct out; [done..|split; [done|left; by destruct Hrun]]).
  destruct Hs' as [Hp Hs']. split; [done|]. set (set := lastSyncResourceVersion (refl (local s'))).
  assert (exists rv, informer_represents h st0 x0 (store (local s')) (if decide (rv = "") then ∅ else state rv) /\
    (gaps = false -> set = rv) /\ (set <> "" -> rank set <= rank rv)) as (rv & Hr & Hset).
  { destruct Hs' as [(_ & _ & [[Hrv Hr]|(Hrv & _ & Hr & _)])|(Hg & _ & rv & Hne & _ & Hr & Ho & _)].
    - exists "". by rewrite decide_True.
    - exists set. by rewrite decide_False.
    - exists rv. rewrite decide_False, Hg by done. split; [done|]. split; [done|]. intros Hne0. by destruct Ho as [|[_ ?]]. }
  destruct (represents_drained h st0 x0 _ _ Hr) as (Hq & st & x & Hw & Hi). split; [done|]. by exists st, x, rv.
Qed.

(** A pod informer of the server of [ReflectorTracks]; between two messages its loop
    takes one turn. *)
#[local] Existing Instance wit_store_impl.
#[local] Existing Instance wit_store_laws.
#[local] Existing Instance range_in_key_order.
#[local] Existing Instance sets_in_key_order.
#[local] Existing Instance between_turns.

Definition feeds_pods : ReflectorStore (value pod) (@informer pod (cache (value pod) (threadSafeMap (value pod))) (list string)) :=
  informer_ReflectorStore (newInformer_fifo (O:=pod) None).1 wit_handler.

Definition feeding (n : nat) :
    run Z (reflecting pod unit unit unit Z (@informer pod (cache (value pod) (threadSafeMap (value pod))) (list string))) :=
  mkRun n 0 (mkReflecting api_server.reflector (newInformer wit_indexer []) None false).

Lemma reflector_feeds_informer_witness :
  let '(s', out) := Run (H4:=feeds_pods) 3 (feeding 4) in
  lastSyncResourceVersion (refl (local s')) = "3" /\
  let set := lastSyncResourceVersion (refl (local s')) in
  let informer' := drain (newInformer_fifo (O:=pod) None).1 wit_handler
    (length (DeltaFIFO.queue (fifo (store (local s'))))) (store (local s')) in
  out <> Panics /\ DeltaFIFO.queue (fifo informer') = [] /\
  exists st x rv, world informer' = Some (st, x) /\ st_items st = (if decide (rv = "") then ∅ else api_server.state rv) /\
    (gaps = false -> set = rv) /\ (set <> "" -> api_server.rank set <= api_server.rank rv).
Proof.
  assert (Hacc : forall obj, api_server.known obj -> api_object obj)
    by (intros obj [->|[->| ->]]; by eexists).
  assert (Haccepts : forall obj, api_object obj -> st_accepts wit_indexer obj).
  { intros obj [o ->] name f Hf. cbn in Hf. apply lookup_singleton_Some in Hf as [<- <-]. by eexists. }
  pose proof (reflector_feeds_informer wit_handler api_server.known (fun _ => False) api_server.state api_server.rank
    api_server.newest (fun _ _ _ => False) api_server.at_version 3 wit_indexer [] (feeding 4) api_server.serves_pods
    wit_indexer_made wit_accessor_deltas Hacc Haccepts (start_unexpected 4) eq_refl eq_refl) as Ht.
  assert (Hv : lastSyncResourceVersion (refl (local (Run (H4:=feeds_pods) 3 (feeding 4)).1)) = "3") by (vm_compute; reflexivity).
  fold feeds_pods in Ht. destruct (Run (H4:=feeds_pods) 3 (feeding 4)) as [s' out]. split; [exact Hv|exact Ht].
Defined.
