(* ===== verification/RetryWatcher.v ===== *)
(** * A watch that restarts itself

    tools/watch/retrywatcher.go: a [RetryWatcher] passes on the events of a watch and
    starts the watch again where it ended, so that its consumer sees one stream.  It
    runs in [LoopMonad]; the events are those of [Reflector].  What a [select] picks
    is up to the world. *)

From S2P Require Import Prelude Objects ThreadSafeStore Store Pager LoopMonad Reflector.

(** ** What lies outside *)

(** A status error: its code and, when it has details, [RetryAfterSeconds]. *)
Record Status : Type := mkStatus { Code : Z; RetryAfterSeconds : option Z }.

(** The [select] of a watch; a [Watch] that fails or gives nil is [None]; whether a
    send is received before the stop signal; whether a wait is cut short by it. *)
Inductive received (V : Type) : Type :=
| RStop
| REvent (event : watch_event V)
| RClosed.
Arguments RStop {V}.
Arguments REvent {V} event.
Arguments RClosed {V}.

Class WatcherWorld (V W WI : Type) : Type := {
  rw_Watch : ListOptions -> W -> W * option WI;
  rw_next : WI -> W -> W * received V;
  rw_Stop : WI -> W -> W * unit;
  rw_send : watch_event V -> W -> W * bool;
  rw_wait : Z -> W -> W * bool;
  rw_stopped : W -> bool;
  (** [GetResourceVersion], when the object has it; [FromObject], when it gives a
      [StatusError]; the errors the watcher makes itself. *)
  resourceVersionGetter : iface V -> option string;
  FromObject_status : iface V -> option Status;
  NewInternalError : string -> iface V
}.

Definition StatusGone : Z := 410.
Definition StatusInternalServerError : Z := 500.
Definition StatusGatewayTimeout : Z := 504.

Section retry_watcher.
Context {V W WI : Type} `{WatcherWorld V W WI}.

(** [resultChan] is the list of what the consumer has received. *)
Record RetryWatcher : Type := mkWatcher {
  lastResourceVersion : string;
  resultChan : list (watch_event V);
  minRestartDelay : Z
}.

Definition newRetryWatcher (initialResourceVersion : string) (minRestartDelay : Z) : option RetryWatcher :=
  if (bool_decide (initialResourceVersion = "") || bool_decide (initialResourceVersion = "0"))%bool then None
  else Some (mkWatcher initialResourceVersion [] minRestartDelay).

Definition NewRetryWatcher (initialResourceVersion : string) : option RetryWatcher :=
  newRetryWatcher initialResourceVersion (1 * Second).

Definition send (event : watch_event V) : M W RetryWatcher bool :=
  let! ok := call (rw_send event) in
  if (ok : bool) then
    let! _ := modify (fun rw => mkWatcher (lastResourceVersion rw) (resultChan rw ++ [event]) (minRestartDelay rw)) in
    ret true
  else ret false.

Definition set_lastResourceVersion (rv : string) (rw : RetryWatcher) : RetryWatcher :=
  mkWatcher rv (resultChan rw) (minRestartDelay rw).

Definition internal_error (message : string) : watch_event V := mkEvent WError (NewInternalError message).

(** The case of an event: [None] to go on, or done and the delay. *)
Definition receive_event (event : watch_event V) : M W RetryWatcher (option (bool * Z)) :=
  match Type_ event with
  | WAdded | WModified | WDeleted | WBookmark =>
      match resourceVersionGetter (Object event) with
      | None =>
          let! _ := send (internal_error "retryWatcher: doesn't support resourceVersion") in ret (Some (true, 0))
      | Some resourceVersion =>
          if decide (resourceVersion = "") then
            let! _ := send (internal_error "retryWatcher: object %#v doesn't support resourceVersion") in
            ret (Some (true, 0))
          else
            let! ok := if decide (Type_ event = WBookmark) then ret true else send event in
            if (ok : bool) then
              let! _ := modify (set_lastResourceVersion resourceVersion) in ret None
            else ret (Some (true, 0))
      end
  | WError =>
      match FromObject_status (Object event) with
      | None => ret (Some (false, 0))
      | Some status =>
          let statusDelay := match RetryAfterSeconds status with Some s => s * Second | None => 0 end in
          if Code status =? StatusGone then let! _ := send event in ret (Some (true, 0))
          else if ((Code status =? StatusGatewayTimeout) || (Code status =? StatusInternalServerError))%bool
          then ret (Some (false, statusDelay))
          else ret (Some (false, statusDelay))
      end
  | WOther =>
      let! _ := send (internal_error "retryWatcher failed to recognize Event type %q") in ret (Some (true, 0))
  end.

Definition retry_options (rv : string) : ListOptions := mkOptions rv "" 0 "" true None.

Definition doReceive : M W RetryWatcher (bool * Z) :=
  let! rw := get in
  let! watcher := call (rw_Watch (retry_options (lastResourceVersion rw))) in
  match watcher with
  | None => ret (false, 0)
  | Some wi =>
      let! res := forever (fun _ =>
        let! m := call (rw_next wi) in
        match m with
        | RStop => ret (inr (true, 0))
        | RClosed => ret (inr (false, 0))
        | REvent event =>
            let! out := receive_event event in
            match out with None => ret (inl tt) | Some r => ret (inr r) end
        end) tt in
      let! _ := call (rw_Stop wi) in
      ret res
  end.

(** [receive] with [wait.NonSlidingUntilWithContext]: the wait between two calls is
    the delay and what is left of [minRestartDelay]. *)
Definition receive : M W RetryWatcher unit :=
  forever (fun _ =>
    let! stop := look rw_stopped in
    if (stop : bool) then ret (inr tt)
    else
      let! (done, retryAfter) := doReceive in
      if (done : bool) then ret (inr tt)
      else
        let! stop := call (rw_wait retryAfter) in
        if (stop : bool) then ret (inr tt)
        else
          let! rw := get in
          let! stop := call (rw_wait (minRestartDelay rw)) in
          if (stop : bool) then ret (inr tt) else ret (inl tt)) tt.

(** ** Specification *)

(** The history of the server: what follows a version, and which versions have no
    change between them. *)
Variables (follows : string -> watch_event V -> string -> Prop) (same : string -> string -> Prop).

Definition is_change (t : EventType) : bool :=
  match t with WAdded | WModified | WDeleted => true | WBookmark | WError | WOther => false end.

Inductive path : string -> list (watch_event V) -> string -> Prop :=
| path_nil rv : path rv [] rv
| path_event rv1 evs rv2 ev rv3 :
    path rv1 evs rv2 -> is_change (Type_ ev) = true -> follows rv2 ev rv3 -> path rv1 (evs ++ [ev]) rv3
| path_mark rv1 evs rv2 rv3 : path rv1 evs rv2 -> same rv2 rv3 -> path rv1 evs rv3.

(** A watch from a version sends what follows it; what the watcher cannot make sense
    of may be anything. *)
Record watch_serves (streams : WI -> string -> W -> Prop) : Prop := {
  ws_Watch rv w w' wi : rw_Watch (retry_options rv) w = (w', Some wi) -> streams wi rv w';
  ws_next wi rv w w' ev rv' : streams wi rv w -> rw_next wi w = (w', REvent ev) ->
    resourceVersionGetter (Object ev) = Some rv' -> rv' <> "" ->
    if is_change (Type_ ev) then follows rv ev rv' /\ streams wi rv' w'
    else Type_ ev = WBookmark -> same rv rv' /\ streams wi rv' w';
  ws_send wi rv ev w : streams wi rv w -> streams wi rv (rw_send ev w).1;
  (** The stop signal is the closing of a channel. *)
  ws_stop_next wi w w' : rw_next wi w = (w', RStop) -> rw_stopped w' = true;
  ws_stop_send ev w w' : rw_send ev w = (w', false) -> rw_stopped w' = true;
  ws_stop_wait d w w' : rw_wait d w = (w', true) -> rw_stopped w' = true;
  ws_stop_Stop wi w : rw_stopped w = true -> rw_stopped (rw_Stop wi w).1 = true
}.

End retry_watcher.
Arguments RetryWatcher : clear implicits.

(** ** Lemmas *)

Section lemmas.
Context {V W WI : Type} `{WatcherWorld V W WI}.
Variables (follows : string -> watch_event V -> string -> Prop) (same : string -> string -> Prop).
Variables (streams : WI -> string -> W -> Prop).
Hypothesis Hserves : watch_serves follows same streams.
Variable rv0 : string.
Local Abbreviation watcher := (run W (RetryWatcher V)).

(** Nothing but the history so far; or that and one error; or that, and the watcher
    is stopped. *)
Definition so_far (s : watcher) : Prop := path follows same rv0 (resultChan (local s)) (lastResourceVersion (local s)).

Definition failed (s : watcher) : Prop :=
  exists evs err, resultChan (local s) = evs ++ [err] /\ Type_ err = WError /\
    path follows same rv0 evs (lastResourceVersion (local s)).

Definition ended (s : watcher) : Prop := failed s \/ (so_far s /\ rw_stopped (srv s) = true).

Definition on_stream (wi : WI) (s : watcher) : Prop := so_far s /\ streams wi (lastResourceVersion (local s)) (srv s).

(** An event that is an error ends it, received or not. *)
Lemma triple_send_error (R : watcher -> Prop) ev (r : Z) :
  Type_ ev = WError ->
  triple R so_far (let! _ := send ev in ret (Some (true, r))) (fun res s => ended s /\ exists r, res = Some (true, r)).
Proof.
  intros He [n w x] Hs. unfold send, bind, call. cbn [srv]. destruct (rw_send ev w) as [w' [|]] eqn:Es; cbn.
  - split; [|by eexists]. left. exists (resultChan x), ev. done.
  - split; [|by eexists]. right. split; [done|]. by eapply (ws_stop_send _ _ _ Hserves).
Qed.

(** What an event leads to. *)
Definition received_post (wi : WI) (res : option (bool * Z)) (s : watcher) : Prop :=
  match res with
  | None => on_stream wi s
  | Some (true, _) => ended s
  | Some (false, _) => so_far s
  end.

Lemma ended_post wi (res : option (bool * Z)) s :
  (ended s /\ exists r, res = Some (true, r)) -> received_post wi res s.
Proof. by intros [Hs [r ->]]. Qed.

(** The stream an event was received from. *)
Definition receiving (wi : WI) (ev : watch_event V) (s : watcher) : Prop :=
  so_far s /\ forall rv', resourceVersionGetter (Object ev) = Some rv' -> rv' <> "" ->
    if is_change (Type_ ev) then follows (lastResourceVersion (local s)) ev rv' /\ streams wi rv' (srv s)
    else Type_ ev = WBookmark -> same (lastResourceVersion (local s)) rv' /\ streams wi rv' (srv s).

Lemma receive_change wi ev rv' (R : watcher -> Prop) :
  is_change (Type_ ev) = true -> resourceVersionGetter (Object ev) = Some rv' -> rv' <> "" ->
  triple R (receiving wi ev)
    (let! ok := send ev in
     if (ok : bool) then let! _ := modify (set_lastResourceVersion rv') in ret None else ret (Some (true, 0)))
    (received_post wi).
Proof.
  intros Hc Hg Hne [n w x] [Hs Hrv]. specialize (Hrv rv' Hg Hne). rewrite Hc in Hrv. destruct Hrv as [Hf Hst].
  cbn in Hf, Hst. unfold send, bind, call. cbn [srv]. pose proof (ws_send _ _ _ Hserves wi rv' ev w Hst) as Hst'.
  destruct (rw_send ev w) as [w' [|]] eqn:Es; cbn in *.
  - split; [by eapply path_event|done].
  - right. split; [done|]. by eapply (ws_stop_send _ _ _ Hserves).
Qed.

Lemma triple_receive_event wi ev (R : watcher -> Prop) :
  triple R (receiving wi ev) (receive_event ev) (received_post wi).
Proof.
  assert (Herr : forall ev' (r : Z), Type_ ev' = WError ->
    triple R (receiving wi ev) (let! _ := send ev' in ret (Some (true, r))) (received_post wi)).
  { intros ev' r He. eapply triple_conseq; [by apply (triple_send_error R ev' r)|by intros s [? _]|done|].
    intros a s. apply ended_post. }
  unfold receive_event. destruct (Type_ ev) eqn:Et.
  5: { destruct (FromObject_status _) as [st|]; [|apply triple_ret; by intros s [? _]].
    destruct (Code st =? StatusGone); [by apply Herr|].
    destruct (_ || _)%bool; apply triple_ret; by intros s [? _]. }
  5: by apply Herr.
  1-3: destruct (resourceVersionGetter (Object ev)) as [rv'|] eqn:Eg; [|by apply Herr];
    destruct (decide (rv' = "")); [by apply Herr|];
    rewrite decide_False by done; apply receive_change; [by rewrite Et|done|done].
  destruct (resourceVersionGetter (Object ev)) as [rv'|] eqn:Eg; [|by apply Herr].
  destruct (decide (rv' = "")) as [|Hne]; [by apply Herr|]. rewrite decide_True by done.
  intros [n w x] [Hs Hrv]. specialize (Hrv rv' Eg Hne). rewrite Et in Hrv. destruct (Hrv eq_refl) as [Hm Hst].
  split; [by eapply path_mark|done].
Qed.

(** What a call of [doReceive] leaves. *)
Definition call_post (done_ : bool) (s : watcher) : Prop := if done_ then ended s else so_far s.

Lemma call_post_Stop wi d n w x : call_post d (mkRun n w x) -> call_post d (mkRun n (rw_Stop wi w).1 x).
Proof.
  destruct d; [|done]. intros [Hf|[Hs Hst]]; [by left|right]. split; [done|]. by apply (ws_stop_Stop _ _ _ Hserves).
Qed.

Lemma triple_doReceive : triple so_far so_far doReceive (fun res => call_post res.1).
Proof.
  unfold doReceive. eapply triple_bind; [apply triple_get|]. intros rw. cbn beta.
  eapply (triple_bind _ _ _ _ (fun res s => match res with Some wi => on_stream wi s | None => so_far s end)).
  { apply triple_call. intros n w w' a x [Hs ->] Ew. cbn [local] in Ew. destruct a as [wi|]; [|done].
    split; [done|]. by eapply (ws_Watch _ _ _ Hserves). }
  intros [wi|]; [|by apply triple_ret]. cbn beta iota.
  eapply (triple_bind _ _ _ _ (fun res => call_post res.1)).
  - apply (triple_forever so_far (fun _ => on_stream wi)); [by intros _ s [? _]|done|]. intros [].
    eapply (triple_bind _ _ _ _ (fun m s => match m with
      | RStop => so_far s /\ rw_stopped (srv s) = true
      | RClosed => so_far s
      | REvent ev => receiving wi ev s
      end)).
    { apply triple_call. intros n w w' m x [Hs Hst] En. destruct m as [|ev|]; [|split; [done|]|done].
      - split; [done|]. by eapply (ws_stop_next _ _ _ Hserves).
      - intros rv' Hg Hne. by apply (ws_next _ _ _ Hserves _ _ w). }
    intros [|ev|]; cbn beta iota.
    + apply triple_ret. intros s Hs. by right.
    + eapply triple_bind; [apply triple_receive_event|]. intros out. cbn beta.
      intros s Hs. by destruct out as [[[|] r]|].
    + by apply triple_ret.
  - intros [d r]. cbn [fst]. eapply (triple_bind _ _ _ _ (fun _ => call_post d)).
    + apply triple_call. intros n w w' a x Hs E. pose proof (call_post_Stop wi d n w x Hs) as Hp. by rewrite E in Hp.
    + intros u. by apply triple_ret.
Qed.

Lemma triple_receive : triple so_far so_far receive (fun _ => ended).
Proof.
  unfold receive. apply (triple_forever so_far (fun _ => so_far) _ (fun _ => ended)); [done|done|]. intros [].
  eapply triple_bind; [apply triple_look|]. intros stop. cbn beta.
  destruct stop; [apply triple_ret; intros s [? ?]; by right|]. apply (triple_pre _ _ so_far); [by intros s [? _]|].
  eapply triple_bind; [apply triple_doReceive|]. intros [d r]. cbn [fst].
  destruct d; [by apply triple_ret|]. cbn [call_post].
  assert (Hwait : forall d, triple so_far so_far (call (rw_wait d))
    (fun stop s => so_far s /\ (stop = true -> rw_stopped (srv s) = true))).
  { intros d. apply triple_call. intros n w w' a x Hs E. split; [done|]. intros ->. by eapply (ws_stop_wait _ _ _ Hserves). }
  eapply triple_bind; [apply Hwait|]. intros stop. cbn beta.
  destruct stop; [apply triple_ret; intros s [Hs Hst]; right; auto|]. apply (triple_pre _ _ so_far); [by intros s [? _]|].
  eapply triple_bind; [apply triple_get|]. intros rw. cbn beta. apply (triple_pre _ _ so_far); [by intros s [? _]|].
  eapply triple_bind; [apply Hwait|]. intros stop. cbn beta.
  destruct stop; apply triple_ret; intros s [Hs Hst]; [right; auto|done].
Qed.

Lemma thrifty_receive : thrifty (receive (V:=V) (W:=W) (WI:=WI)).
Proof. unfold receive, doReceive, receive_event, send. thrifty. Qed.

End lemmas.

(** ** Properties *)

(** C15: a retry watcher shows one history.  Whatever watches fail, close or end in
    an error, and whenever its consumer and the stop signal come: at every moment the
    consumer has received exactly the changes of the server from the initial resource
    version to [lastResourceVersion], in their order, none twice and none left out.
    The watcher goes on for as long as it is looked at; it ends only when it is
    stopped, or with one error as the last event, and the history before it is
    whole. *)
Theorem retry_watcher_history {V W WI} `{WatcherWorld V W WI} follows same streams rv0 delay n w :
  watch_serves follows same streams ->
  let '(s', out) := receive (mkRun n w (mkWatcher rv0 [] delay)) in
  match out with
  | Running =>
      budget s' = 0%nat /\ path follows same rv0 (resultChan (local s')) (lastResourceVersion (local s'))
  | Panics => False
  | Returns _ => ended follows same rv0 s'
  end.
Proof.
  intros Hserves. pose proof (triple_receive follows same streams Hserves rv0 (mkRun n w (mkWatcher rv0 [] delay))
    (path_nil _ _ _)) as Ht.
  destruct (thrifty_receive (mkRun n w (mkWatcher rv0 [] delay))) as [_ Hb].
  destruct (receive _) as [s' [| |u]]; auto.
Qed.

(** A server with versions 1, 2, 3, whose watches close after one event and which has
    expired the version 3: objects are their versions. *)
Module one_event.

Definition event_2 : watch_event string := mkEvent WAdded (Some "2").
Definition event_3 : watch_event string := mkEvent WModified (Some "3").
Definition event_gone : watch_event string := mkEvent WError (Some "gone").

Definition serve_next (wi : unit) (w : string * bool) : (string * bool) * received string :=
  if w.2 then
    if decide (w.1 = "1") then (("2", false), REvent event_2)
    else if decide (w.1 = "2") then (("3", false), REvent event_3)
    else (w, REvent event_gone)
  else (w, RClosed).

#[global] Instance server : WatcherWorld string (string * bool) unit := {|
  rw_Watch := fun o w => ((ResourceVersion o, true), Some tt);
  rw_next := serve_next;
  rw_Stop := fun _ w => (w, tt);
  rw_send := fun _ w => (w, true);
  rw_wait := fun _ w => (w, false);
  rw_stopped := fun _ => false;
  resourceVersionGetter := fun obj => obj;
  FromObject_status := fun _ => Some (mkStatus StatusGone None);
  NewInternalError := fun _ => None
|}.

Definition follows (rv : string) (ev : watch_event string) (rv' : string) : Prop :=
  (rv = "1" /\ ev = event_2 /\ rv' = "2") \/ (rv = "2" /\ ev = event_3 /\ rv' = "3").

Lemma serves : watch_serves follows (fun _ _ => False) (fun _ rv w => w.1 = rv).
Proof.
  split; try done; cbn.
  - by intros rv w w' wi [= <-].
  - intros wi rv [v fresh] w' ev rv' <- Hn Hg Hne. unfold serve_next in Hn. cbn in Hn.
    destruct fresh; [|done]. repeat case_decide; simplify_eq/=; simplify_eq; [by split; [left|]|by split; [right|]|done].
  - intros wi [v fresh] w' Hn. unfold serve_next in Hn. repeat case_match; by simplify_eq.
Qed.

End one_event.

Lemma retry_watcher_history_witness :
  let '(s', out) := receive (mkRun 20 ("", false) (mkWatcher "1" [] 0)) in
  (resultChan (local s') = [one_event.event_2; one_event.event_3; one_event.event_gone] /\ out = Returns tt) /\
  match out with
  | Running =>
      budget s' = 0%nat /\
      path one_event.follows (fun _ _ => False) "1" (resultChan (local s')) (lastResourceVersion (local s'))
  | Panics => False
  | Returns _ => ended one_event.follows (fun _ _ => False) "1" s'
  end.
Proof.
  pose proof (retry_watcher_history one_event.follows (fun _ _ => False) (fun _ rv w => w.1 = rv) "1" 0 20 ("", false)
    one_event.serves) as Ht.
  assert (Hv : resultChan (local (receive (mkRun 20 ("", false) (mkWatcher "1" [] 0))).1)
    = [one_event.event_2; one_event.event_3; one_event.event_gone] /\
    (receive (mkRun 20 ("", false) (mkWatcher "1" [] 0))).2 = Returns tt) by (split; vm_compute; reflexivity).
  destruct (receive _) as [s' out]. split; [exact Hv|exact Ht].
Defined.
