(* ===== verification/EventCorrelator.v ===== *)
(** * Event correlation

    tools/record/events_cache.go and the recording of events to a sink in event.go:
    events are aggregated by similarity, counted by identity, throttled by source and
    object, and what is left is written to the API server.  Every method runs under
    its lock, so it is one step; [now] is the clock.  The cache of golang/groupcache,
    the limiter of golang.org/x/time/rate, JSON patches and the sink are parameters
    with their documented behaviour.  Go's zero time is the origin of the axis. *)

From S2P Require Import Prelude.
From stdpp Require Import pretty.
#[local] Open Scope Z_scope.

(** ** What lies outside *)

(** groupcache's [lru.Cache]: a map that may forget, but not what was just added, and
    nothing while it has room. *)
Class LRU : Type := {
  Cache : Type -> Type;
  lru_New : forall {A}, Z -> Cache A;
  lru_Get : forall {A}, string -> Cache A -> Cache A * option A;
  lru_Add : forall {A}, string -> A -> Cache A -> Cache A;
  lru_map : forall {A}, Cache A -> gmap string A;
  lru_max : forall {A}, Cache A -> Z;
  lru_New_law : forall {A} n, lru_map (lru_New (A:=A) n) = ∅ /\ lru_max (lru_New (A:=A) n) = n;
  lru_Get_law : forall {A} k (c : Cache A),
    (lru_Get k c).2 = lru_map c !! k /\ lru_map (lru_Get k c).1 = lru_map c /\ lru_max (lru_Get k c).1 = lru_max c;
  lru_Add_law : forall {A} k a (c : Cache A),
    lru_max (lru_Add k a c) = lru_max c /\ lru_map (lru_Add k a c) !! k = Some a /\
    lru_map (lru_Add k a c) ⊆ <[k := a]> (lru_map c) /\
    (Z.of_nat (size (<[k := a]> (lru_map c))) <= lru_max c -> lru_map (lru_Add k a c) = <[k := a]> (lru_map c))
}.

(** [rate.Limiter] and the float32 rates. *)
Class Limiter : Type := {
  Qps : Type;
  Qps_is_zero : Qps -> bool;
  (** 1/300 *)
  one_per_five_minutes : Qps;
  Bucket : Type;
  NewLimiter : Qps -> Z -> Bucket;
  AllowN : Z -> Z -> Bucket -> Bucket * bool
}.

(** [sets.String.PopAny]: some member. *)
Class PopAny : Type := {
  PopAny_member : gset string -> option string;
  PopAny_law : forall s, match PopAny_member s with Some x => x ∈ s | None => s = ∅ end
}.

(** ** Events *)

Record ObjectReference : Type := mkReference {
  Kind : string;
  ref_Namespace : string;
  ref_Name : string;
  UID : string;
  APIVersion : string;
  FieldPath : string
}.

Record EventSource : Type := mkSource { Component : string; Host : string }.

Record Event : Type := mkEvent {
  Name : string;
  Namespace : string;
  Annotations : gmap string string;
  ResourceVersion : string;
  InvolvedObject : ObjectReference;
  Reason : string;
  Message : string;
  Source : EventSource;
  FirstTimestamp : Z;
  LastTimestamp : Z;
  Count : Z;
  Type_ : string;
  ReportingController : string;
  ReportingInstance : string
}.

(** [strings.Join] without a separator. *)
Definition Join (l : list string) : string := foldr String.append "" l.

Definition getEventKey (event : Event) : string :=
  Join [Component (Source event); Host (Source event); Kind (InvolvedObject event);
        ref_Namespace (InvolvedObject event); ref_Name (InvolvedObject event); FieldPath (InvolvedObject event);
        UID (InvolvedObject event); APIVersion (InvolvedObject event); Type_ event; Reason event; Message event].

Definition getSpamKey (event : Event) : string :=
  Join [Component (Source event); Host (Source event); Kind (InvolvedObject event);
        ref_Namespace (InvolvedObject event); ref_Name (InvolvedObject event);
        UID (InvolvedObject event); APIVersion (InvolvedObject event)].

Definition EventAggregatorByReasonFunc (event : Event) : string * string :=
  (Join [Component (Source event); Host (Source event); Kind (InvolvedObject event);
         ref_Namespace (InvolvedObject event); ref_Name (InvolvedObject event);
         UID (InvolvedObject event); APIVersion (InvolvedObject event); Type_ event; Reason event;
         ReportingController event; ReportingInstance event],
   Message event).

Definition EventAggregatorByReasonMessageFunc (event : Event) : string :=
  "(combined from similar events): " +:+ Message event.

(** [%x] of an integer. *)
Definition hex_digit (d : Z) : string :=
  if d <? 10 then pretty d
  else if d =? 10 then "a" else if d =? 11 then "b" else if d =? 12 then "c" else if d =? 13 then "d"
  else if d =? 14 then "e" else "f".

Fixpoint hex_digits (fuel : nat) (n : Z) (acc : string) : string :=
  match fuel with
  | 0%nat => acc
  | S fuel =>
      let acc := hex_digit (n mod 16) +:+ acc in
      if n / 16 =? 0 then acc else hex_digits fuel (n / 16) acc
  end.

(** An int64 has at most 16 hexadecimal digits. *)
Definition hex (n : Z) : string := if n <? 0 then "-" +:+ hex_digits 16 (- n) "" else hex_digits 16 n "".

(** [fmt.Sprintf("%v.%x", name, nanoseconds)] *)
Definition event_name (name : string) (nanoseconds : Z) : string := name +:+ "." +:+ hex nanoseconds.

Definition to_uint (z : Z) : Z := z mod 2 ^ 64.

Section correlator.
Context `{LRU} `{Limiter} `{PopAny}.

(** ** The spam filter *)

Record spamRecord : Type := mkSpamRecord { rateLimiter : option Bucket }.

Record EventSourceObjectSpamFilter : Type := mkFilter {
  f_cache : Cache spamRecord;
  burst : Z;
  qps : Qps;
  spamKeyFunc : Event -> string
}.

Definition NewEventSourceObjectSpamFilter (lruCacheSize burst : Z) (qps : Qps) (spamKeyFunc : Event -> string)
    : EventSourceObjectSpamFilter :=
  mkFilter (lru_New lruCacheSize) burst qps spamKeyFunc.

(** [flowcontrol.NewTokenBucketPassiveRateLimiterWithClock] and [TryAccept]. *)
Definition NewTokenBucketPassiveRateLimiter (qps : Qps) (burst : Z) : Bucket := NewLimiter qps burst.
Definition TryAccept (now : Z) (b : Bucket) : Bucket * bool := AllowN now 1 b.

Definition Filter (now : Z) (event : Event) (f : EventSourceObjectSpamFilter) : EventSourceObjectSpamFilter * bool :=
  let eventKey := spamKeyFunc f event in
  let '(cache, value) := lru_Get eventKey (f_cache f) in
  let record := default (mkSpamRecord None) value in
  let limiter := default (NewTokenBucketPassiveRateLimiter (qps f) (burst f)) (rateLimiter record) in
  let '(limiter, accepted) := TryAccept now limiter in
  (mkFilter (lru_Add eventKey (mkSpamRecord (Some limiter)) cache) (burst f) (qps f) (spamKeyFunc f), negb accepted).

(** ** The aggregator *)

(** A nil [localKeys] is [None]. *)
Record aggregateRecord : Type := mkAggregate { localKeys : option (gset string); lastTimestamp : Z }.

Record EventAggregator : Type := mkAggregator {
  a_cache : Cache aggregateRecord;
  keyFunc : Event -> string * string;
  messageFunc : Event -> string;
  maxEvents : Z;
  maxIntervalInSeconds : Z
}.

Definition NewEventAggregator (lruCacheSize : Z) (keyFunc : Event -> string * string) (messageFunc : Event -> string)
    (maxEvents maxIntervalInSeconds : Z) : EventAggregator :=
  mkAggregator (lru_New lruCacheSize) keyFunc messageFunc (to_uint maxEvents) (to_uint maxIntervalInSeconds).

Definition with_a_cache (c : Cache aggregateRecord) (e : EventAggregator) : EventAggregator :=
  mkAggregator c (keyFunc e) (messageFunc e) (maxEvents e) (maxIntervalInSeconds e).

Definition maxInterval (e : EventAggregator) : Z := wrap64 (wrap64 (maxIntervalInSeconds e) * Second).

(** The set is shared between the record and the cache, so what [PopAny] takes out is
    gone from both.  [None] is the panic of an insertion into a nil set. *)
Definition EventAggregate (now nanoseconds : Z) (newEvent : Event) (e : EventAggregator)
    : option (EventAggregator * (Event * string)) :=
  let eventKey := getEventKey newEvent in
  let '(aggregateKey, localKey) := keyFunc e newEvent in
  let '(cache, value) := lru_Get aggregateKey (a_cache e) in
  let record := default (mkAggregate None 0) value in
  let interval := time_sub now (lastTimestamp record) in
  let record := if maxInterval e <? interval then mkAggregate (Some ∅) (lastTimestamp record) else record in
  match localKeys record with
  | None => None
  | Some keys =>
      let keys := {[localKey]} ∪ keys in
      if Z.of_nat (size keys) <? maxEvents e then
        Some (with_a_cache (lru_Add aggregateKey (mkAggregate (Some keys) now) cache) e, (newEvent, eventKey))
      else
        let keys := match PopAny_member keys with Some x => keys ∖ {[x]} | None => keys end in
        let eventCopy :=
          mkEvent (event_name (ref_Name (InvolvedObject newEvent)) nanoseconds) (Namespace newEvent) ∅ ""
            (InvolvedObject newEvent) (Reason newEvent) (messageFunc e newEvent) (Source newEvent) now now 1
            (Type_ newEvent) "" "" in
        Some (with_a_cache (lru_Add aggregateKey (mkAggregate (Some keys) now) cache) e, (eventCopy, aggregateKey))
  end.

(** ** The logger *)

Record eventLog : Type := mkLog { count : Z; firstTimestamp : Z; name : string; resourceVersion : string }.

(** Its cache; the patch and its error are made by JSON and strategic merge. *)
Local Abbreviation eventLogger := (Cache eventLog).

Definition newEventLogger (lruCacheEntries : Z) : eventLogger := lru_New lruCacheEntries.

Definition lastEventObservationFromCache (key : string) (e : eventLogger) : eventLogger * eventLog :=
  let '(e, value) := lru_Get key e in (e, default (mkLog 0 0 "" "") value).

(** What is recorded of an event; [uint(event.Count)] of an int32. *)
Definition log_of (event : Event) : eventLog :=
  mkLog (to_uint (Count event)) (FirstTimestamp event) (Name event) (ResourceVersion event).

Definition set_observation (l : eventLog) (event : Event) : Event :=
  mkEvent (name l) (Namespace event) (Annotations event) (resourceVersion l) (InvolvedObject event) (Reason event)
    (Message event) (Source event) (firstTimestamp l) (LastTimestamp event) (wrap32 (wrap32 (count l) + 1))
    (Type_ event) (ReportingController event) (ReportingInstance event).

(** The event the patch starts from; [unix0] is 1970. *)
Definition patch_base (unix0 : Z) (event : Event) : Event :=
  mkEvent (Name event) (Namespace event) (Annotations event) (ResourceVersion event) (InvolvedObject event)
    (Reason event) "" (Source event) (FirstTimestamp event) unix0 0 (Type_ event) (ReportingController event)
    (ReportingInstance event).

Section logger.
Context {Patch E : Type}.
Variable unix0 : Z.
Variable CreateTwoWayMergePatch : Event -> Event -> option Patch * option E.

Definition eventObserve (newEvent : Event) (key : string) (e : eventLogger)
    : eventLogger * (Event * option Patch * option E) :=
  let '(e, lastObservation) := lastEventObservationFromCache key e in
  let '(event, (patch, err)) :=
    if 0 <? count lastObservation then
      let event := set_observation lastObservation newEvent in
      (event, CreateTwoWayMergePatch (patch_base unix0 event) event)
    else (newEvent, (None, None)) in
  (lru_Add key (log_of event) e, (event, patch, err)).

Definition updateState (event : Event) (e : eventLogger) : eventLogger := lru_Add (getEventKey event) (log_of event) e.

(** ** The correlator *)

Record EventCorrelator : Type := mkCorrelator {
  filterFunc : EventSourceObjectSpamFilter;
  aggregator : EventAggregator;
  logger : eventLogger
}.

Record EventCorrelateResult : Type := mkResult { r_Event : option Event; r_Patch : option Patch; Skip : bool }.

Record CorrelatorOptions : Type := mkCorrelatorOptions {
  LRUCacheSize : Z;
  BurstSize : Z;
  QPS : Qps;
  KeyFunc_ : option (Event -> string * string);
  MessageFunc : option (Event -> string);
  MaxEvents : Z;
  MaxIntervalInSeconds : Z;
  SpamKeyFunc : option (Event -> string)
}.

Definition maxLruCacheEntries : Z := 4096.
Definition defaultAggregateMaxEvents : Z := 10.
Definition defaultAggregateIntervalInSeconds : Z := 600.
Definition defaultSpamBurst : Z := 25.
Definition defaultSpamQPS : Qps := one_per_five_minutes.

Definition populateDefaults (o : CorrelatorOptions) : CorrelatorOptions :=
  mkCorrelatorOptions
    (if LRUCacheSize o =? 0 then maxLruCacheEntries else LRUCacheSize o)
    (if BurstSize o =? 0 then defaultSpamBurst else BurstSize o)
    (if Qps_is_zero (QPS o) then defaultSpamQPS else QPS o)
    (Some (default EventAggregatorByReasonFunc (KeyFunc_ o)))
    (Some (default EventAggregatorByReasonMessageFunc (MessageFunc o)))
    (if MaxEvents o =? 0 then defaultAggregateMaxEvents else MaxEvents o)
    (if MaxIntervalInSeconds o =? 0 then defaultAggregateIntervalInSeconds else MaxIntervalInSeconds o)
    (Some (default getSpamKey (SpamKeyFunc o))).

Definition NewEventCorrelator : EventCorrelator :=
  mkCorrelator
    (NewEventSourceObjectSpamFilter maxLruCacheEntries defaultSpamBurst defaultSpamQPS getSpamKey)
    (NewEventAggregator maxLruCacheEntries EventAggregatorByReasonFunc EventAggregatorByReasonMessageFunc
       defaultAggregateMaxEvents defaultAggregateIntervalInSeconds)
    (newEventLogger maxLruCacheEntries).

Definition NewEventCorrelatorWithOptions (options : CorrelatorOptions) : EventCorrelator :=
  let o := populateDefaults options in
  mkCorrelator
    (NewEventSourceObjectSpamFilter (LRUCacheSize o) (BurstSize o) (QPS o) (default getSpamKey (SpamKeyFunc o)))
    (NewEventAggregator (LRUCacheSize o) (default EventAggregatorByReasonFunc (KeyFunc_ o))
       (default EventAggregatorByReasonMessageFunc (MessageFunc o)) (MaxEvents o) (MaxIntervalInSeconds o))
    (newEventLogger (LRUCacheSize o)).

(** A nil event is refused by the caller's type; the clock is read twice. *)
Definition EventCorrelate (now nanoseconds now' : Z) (newEvent : Event) (c : EventCorrelator)
    : option (EventCorrelator * (EventCorrelateResult * option E)) :=
  match EventAggregate now nanoseconds newEvent (aggregator c) with
  | None => None
  | Some (aggregator, (aggregateEvent, ckey)) =>
      let '(logger, (observedEvent, patch, err)) := eventObserve aggregateEvent ckey (logger c) in
      let '(filterFunc, skip) := Filter now' observedEvent (filterFunc c) in
      let c := mkCorrelator filterFunc aggregator logger in
      if (skip : bool) then Some (c, (mkResult None None true, None))
      else Some (c, (mkResult (Some observedEvent) patch false, err))
  end.

Definition UpdateState (event : Event) (c : EventCorrelator) : EventCorrelator :=
  mkCorrelator (filterFunc c) (aggregator c) (updateState event (logger c)).

(** ** Recording to a sink *)

(** What a sink's error is to [recordEvent]: a request that cannot be built, a status
    with its code, or another. *)
Inductive sink_error : Type :=
| RequestConstructionError
| StatusError (code : Z)
| OtherError.

Definition IsKeyNotFoundError (err : sink_error) : bool :=
  match err with StatusError code => code =? 404 | RequestConstructionError | OtherError => false end.

Section sink.
Context {W : Type}.
Variables (sink_Create : Event -> W -> W * (Event + sink_error))
  (sink_Patch : Event -> option Patch -> W -> W * (Event + sink_error))
  (shut_down : W -> W * bool).

Definition set_ResourceVersion (rv : string) (event : Event) : Event :=
  mkEvent (Name event) (Namespace event) (Annotations event) rv (InvolvedObject event) (Reason event) (Message event)
    (Source event) (FirstTimestamp event) (LastTimestamp event) (Count event) (Type_ event) (ReportingController event)
    (ReportingInstance event).

(** The event is a pointer: a creation leaves it without a version for the next
    try. *)
Definition recordEvent (event : Event) (patch : option Patch) (updateExistingEvent : bool) (w : W) (c : EventCorrelator)
    : W * Event * EventCorrelator * bool :=
  let create w :=
    let event := set_ResourceVersion "" event in
    let '(w, res) := sink_Create event w in (w, event, res) in
  let '(w, event, res) :=
    if updateExistingEvent then
      match sink_Patch event patch w with
      | (w, inr err) => if IsKeyNotFoundError err then create w else (w, event, inr err)
      | (w, inl newEvent) => (w, event, inl newEvent)
      end
    else create w in
  match res with
  | inl newEvent => (w, event, UpdateState newEvent c, true)
  | inr (RequestConstructionError | StatusError _) => (w, event, c, true)
  | inr OtherError => (w, event, c, false)
  end.

Definition maxTriesPerEvent : nat := 12.

(** The loop of [recordToSink] with [tries] tries left; [shut_down] waits for the delay
    and says whether the broadcaster was shut down first. *)
Fixpoint record_loop (tries : nat) (event : Event) (patch : option Patch) (w : W) (c : EventCorrelator)
    : W * EventCorrelator :=
  match tries with
  | 0%nat => (w, c)
  | S tries =>
      let '(w, event, c, done) := recordEvent event patch (1 <? Count event) w c in
      if (done : bool) then (w, c)
      else
        match tries with
        | 0%nat => (w, c)
        | S _ =>
            let '(w, stop) := shut_down w in
            if (stop : bool) then (w, c) else record_loop tries event patch w c
        end
  end.

Definition recordToSink (now nanoseconds now' : Z) (event : Event) (w : W) (c : EventCorrelator)
    : option (W * EventCorrelator) :=
  match EventCorrelate now nanoseconds now' event c with
  | None => None
  | Some (c, (result, _)) =>
      if Skip result then Some (w, c)
      else
        match r_Event result with
        | None => None
        | Some event => Some (record_loop maxTriesPerEvent event (r_Patch result) w c)
        end
  end.

End sink.
End logger.

(** ** The recorder *)

Definition ValidateEventType (eventtype : string) : bool :=
  (bool_decide (eventtype = "Normal") || bool_decide (eventtype = "Warning"))%bool.

Definition makeEvent (now nanoseconds : Z) (ref : ObjectReference) (annotations : gmap string string)
    (eventtype reason message : string) : Event :=
  let namespace := if decide (ref_Namespace ref = "") then "default" else ref_Namespace ref in
  mkEvent (event_name (ref_Name ref) nanoseconds) namespace annotations "" ref reason message (mkSource "" "")
    now now 1 eventtype "" "".

(** What is put on the broadcaster's queue, if anything. *)
Definition generateEvent (now nanoseconds : Z) (source : EventSource) (ref : option ObjectReference)
    (annotations : gmap string string) (eventtype reason message : string) : option Event :=
  match ref with
  | None => None
  | Some ref =>
      if negb (ValidateEventType eventtype) then None
      else
        let event := makeEvent now nanoseconds ref annotations eventtype reason message in
        Some (mkEvent (Name event) (Namespace event) (Annotations event) (ResourceVersion event) (InvolvedObject event)
          (Reason event) (Message event) source (FirstTimestamp event) (LastTimestamp event) (Count event)
          (Type_ event) (Component source) (Host source))
  end.

End correlator.

(** ** Executions *)

Section executions.
Context `{LRU} `{Limiter} `{PopAny}.
Local Abbreviation eventLogger := (Cache eventLog).

(** Events to aggregate: the clock in the code's two units, and the event. *)
Fixpoint aggregate_all (evs : list (Z * Z * Event)) (e : EventAggregator) : option EventAggregator :=
  match evs with
  | [] => Some e
  | (now, nanoseconds, event) :: evs =>
      match EventAggregate now nanoseconds event e with
      | None => None
      | Some (e, _) => aggregate_all evs e
      end
  end.

(** The times and local keys of the events of an aggregate key. *)
Definition similar (kf : Event -> string * string) (ka : string) (evs : list (Z * Z * Event)) : list (Z * string) :=
  omap (fun '(now, _, event) => if decide ((kf event).1 = ka) then Some (now, (kf event).2) else None) evs.

(** Each time comes at most [d] after the one before. *)
Fixpoint in_burst (d : Z) (l : list (Z * string)) : Prop :=
  match l with
  | (t1, _) :: (((t2, _) :: _) as l') => t1 <= t2 <= t1 + d /\ in_burst d l'
  | _ => True
  end.

Fixpoint filter_all (evs : list (Z * Event)) (f : EventSourceObjectSpamFilter) : EventSourceObjectSpamFilter :=
  match evs with
  | [] => f
  | (now, event) :: evs => filter_all evs (Filter now event f).1
  end.

(** The bucket of a key that has been asked at these times. *)
Definition bucket_after (qps : Qps) (burst : Z) (times : list Z) : Bucket :=
  fold_left (fun b now => (TryAccept now b).1) times (NewTokenBucketPassiveRateLimiter qps burst).

Definition asked (kf : Event -> string) (k : string) (evs : list (Z * Event)) : list Z :=
  omap (fun '(now, event) => if decide (kf event = k) then Some now else None) evs.

(** What happens to the logger: an event is observed, or comes back from the server. *)
Inductive observation : Type :=
| Observed (event : Event) (key : string)
| Returned (event : Event).

Definition observe (o : observation) (e : eventLogger) : eventLogger :=
  match o with
  | Observed event key => (eventObserve (Patch:=unit) (E:=unit) 0 (fun _ _ => (None, None)) event key e).1
  | Returned event => updateState event e
  end.

Definition observe_all (os : list observation) (e : eventLogger) : eventLogger :=
  fold_left (fun e o => observe o e) os e.

(** The observations of a key so far: how many, and the first. *)
Definition tally (key : string) (os : list observation) : list Event :=
  omap (fun o => match o with Observed event k => if decide (k = key) then Some event else None | Returned _ => None end) os.

(** Every event is new when it is observed, and what the server returns under the key
    is what was last sent: the count, the name and the first time. *)
Fixpoint confirmed (key : string) (before os : list observation) : Prop :=
  match os with
  | [] => True
  | o :: os =>
      match o with
      | Observed event k => k = key -> Count event = 1
      | Returned event =>
          getEventKey event = key ->
          exists first rest, tally key before = first :: rest /\
            Count event = Z.of_nat (length (tally key before)) /\ Name event = Name first /\
            FirstTimestamp event = FirstTimestamp first
      end /\ confirmed key (before ++ [o]) os
  end.

End executions.

(** ** Lemmas *)

Section lru_lemmas.
Context `{LRU}.

(** Room for what is there and as many additions as are to come. *)
Definition room {A} (n : nat) (c : Cache A) : Prop := Z.of_nat (size (lru_map c)) + Z.of_nat n <= lru_max c.

Lemma room_New {A} n m : Z.of_nat n <= m -> room n (lru_New (A:=A) m).
Proof. intros Hn. unfold room. destruct (lru_New_law (A:=A) m) as [-> ->]. rewrite map_size_empty. lia. Qed.

Lemma room_Get {A} n k (c : Cache A) : room n c -> room n (lru_Get k c).1.
Proof. unfold room. destruct (lru_Get_law k c) as (_ & -> & ->). done. Qed.

Lemma room_Add {A} n k (a : A) (c : Cache A) :
  room (S n) c -> room n (lru_Add k a c) /\ lru_map (lru_Add k a c) = <[k := a]> (lru_map c).
Proof.
  unfold room. intros Hr. destruct (lru_Add_law k a c) as (Hm & _ & _ & Hall).
  assert (Hs : (size (<[k := a]> (lru_map c)) <= S (size (lru_map c)))%nat).
  { destruct (lru_map c !! k) eqn:E; [rewrite map_size_insert_Some by eauto; lia|].
    rewrite map_size_insert_None by done. lia. }
  rewrite Hall by lia. rewrite Hm. split; [lia|done].
Qed.

End lru_lemmas.

Section aggregation.
Context `{LRU} `{Limiter} `{PopAny}.

(** What the cache has for a key after the similar events [l], the latest last. *)
Definition aggregated (ka : string) (l : list (Z * string)) (e : EventAggregator) : Prop :=
  match last l with
  | None => lru_map (a_cache e) !! ka = None
  | Some (t, _) =>
      exists keys, lru_map (a_cache e) !! ka = Some (mkAggregate (Some keys) t) /\ keys ⊆ list_to_set l.*2 /\
        Z.of_nat (size keys) = Z.min (Z.of_nat (length l)) (maxEvents e - 1)
  end.

Lemma in_burst_app_inv d l1 l2 : in_burst d (l1 ++ l2) -> in_burst d l1.
Proof.
  induction l1 as [|[t1 k1] l1 IH]; [done|]. destruct l1 as [|[t2 k2] l1]; [done|].
  intros [Ht Hl]. split; [done|by apply IH].
Qed.

Lemma in_burst_last d l t0 k0 t k : last l = Some (t0, k0) -> in_burst d (l ++ [(t, k)]) -> t0 <= t <= t0 + d.
Proof.
  intros (l' & ->)%last_Some. induction l' as [|[t1 k1] l' IH]; cbn; [tauto|].
  destruct l' as [|[t2 k2] l']; cbn; [tauto|]. intros [_ Hl]. by apply IH.
Qed.

(** An event of the key, new to the burst. *)
Lemma EventAggregate_similar now ns event e ka m l n :
  keyFunc e event = (ka, m) -> aggregated ka l e -> in_burst (maxInterval e) (l ++ [(now, m)]) -> m ∉ l.*2 ->
  (l = [] -> maxInterval e < now) -> 0 <= maxInterval e < MaxInt64 -> 1 <= maxEvents e -> room (S n) (a_cache e) ->
  exists e' event' key', EventAggregate now ns event e = Some (e', (event', key')) /\
    aggregated ka (l ++ [(now, m)]) e' /\ room n (a_cache e') /\
    (forall k, k <> ka -> lru_map (a_cache e') !! k = lru_map (a_cache e) !! k) /\
    keyFunc e' = keyFunc e /\ messageFunc e' = messageFunc e /\ maxEvents e' = maxEvents e /\ maxInterval e' = maxInterval e /\
    if decide (Z.of_nat (length l) + 1 < maxEvents e) then event' = event /\ key' = getEventKey event
    else key' = ka /\ Message event' = messageFunc e event /\ Count event' = 1 /\
         InvolvedObject event' = InvolvedObject event.
Proof.
  intros Hk Hl Hb Hm Hfirst Hd Hmax Hroom. unfold EventAggregate. rewrite Hk.
  destruct (lru_Get_law ka (a_cache e)) as (Hv & Hmap & _). pose proof (room_Get _ ka _ Hroom) as Hroom'.
  destruct (lru_Get ka (a_cache e)) as [cache value]. cbn in Hv, Hmap, Hroom'.
  set (record := default (mkAggregate None 0) value).
  assert (Hkeys : exists keys, localKeys (if maxInterval e <? time_sub now (lastTimestamp record)
      then mkAggregate (Some ∅) (lastTimestamp record) else record) = Some keys /\ keys ⊆ list_to_set l.*2 /\
    Z.of_nat (size keys) = Z.min (Z.of_nat (length l)) (maxEvents e - 1)).
  { unfold aggregated in Hl. destruct (last l) as [[t k0]|] eqn:El.
    - destruct Hl as (keys & Hlook & Hsub & Hsize). rewrite Hlook in Hv. subst value. cbn in record. subst record. cbn.
      pose proof (in_burst_last _ _ _ _ _ _ El Hb) as Ht.
      replace (maxInterval e <? time_sub now t) with false; [by exists keys|].
      symmetry. apply Z.ltb_ge. unfold time_sub, MaxInt64, MinInt64 in *. lia.
    - apply last_None in El. subst l. rewrite Hl in Hv. subst value. cbn in record. subst record. cbn.
      replace (maxInterval e <? time_sub now 0) with true.
      + exists ∅. rewrite size_empty. cbn. split; [done|]. split; [done|lia].
      + symmetry. apply Z.ltb_lt. specialize (Hfirst eq_refl). unfold time_sub, MaxInt64, MinInt64 in *. lia. }
  destruct Hkeys as (keys & -> & Hsub & Hsize).
  assert (Hnew : m ∉ keys) by set_solver.
  assert (Hsize' : size ({[m]} ∪ keys) = S (size keys)) by (rewrite size_union by set_solver; by rewrite size_singleton).
  assert (Hpost : forall keys' a, keys' ⊆ list_to_set (l ++ [(now, m)]).*2 ->
    Z.of_nat (size keys') = Z.min (Z.of_nat (length l) + 1) (maxEvents e - 1) -> a = mkAggregate (Some keys') now ->
    let e' := with_a_cache (lru_Add ka a cache) e in
    aggregated ka (l ++ [(now, m)]) e' /\ room n (a_cache e') /\
    (forall k, k <> ka -> lru_map (a_cache e') !! k = lru_map (a_cache e) !! k)).
  { intros keys' a Hsub' Hs -> e'. destruct (room_Add n ka (mkAggregate (Some keys') now) cache Hroom') as [Hr Hm'].
    split; [|split; [done|]].
    - unfold aggregated. rewrite last_snoc. exists keys'. cbn. rewrite Hm', lookup_insert_eq, length_app. split; [done|].
      split; [done|]. cbn. lia.
    - intros k Hne. cbn. by rewrite Hm', lookup_insert_ne, Hmap. }
  assert (Hsub2 : {[m]} ∪ keys ⊆ list_to_set (l ++ [(now, m)]).*2) by (rewrite fmap_app, list_to_set_app_L; set_solver).
  destruct (Z.of_nat (size ({[m]} ∪ keys)) <? maxEvents e) eqn:Elt; bool_to_prop; rewrite Hsize' in Elt.
  - eexists _, _, _. split; [done|]. destruct (Hpost ({[m]} ∪ keys) _ Hsub2 ltac:(lia) eq_refl) as (Ha & Hr & Ho).
    split_and!; try done. by rewrite decide_True by lia.
  - pose proof (PopAny_law ({[m]} ∪ keys)) as Hpop.
    destruct (PopAny_member ({[m]} ∪ keys)) as [x|]; [|set_solver].
    assert (Hpopped : Z.of_nat (size (({[m]} ∪ keys) ∖ {[x]})) = Z.min (Z.of_nat (length l) + 1) (maxEvents e - 1)).
    { rewrite size_difference by set_solver. rewrite size_singleton, Hsize'. lia. }
    eexists _, _, _. split; [done|].
    destruct (Hpost (({[m]} ∪ keys) ∖ {[x]}) _ ltac:(set_solver) Hpopped eq_refl) as (Ha & Hr & Ho).
    split_and!; try done. by rewrite decide_False by lia.
Qed.

Definition no_nil_keys (e : EventAggregator) : Prop :=
  forall k r, lru_map (a_cache e) !! k = Some r -> is_Some (localKeys r).

Definition same_config (e e' : EventAggregator) : Prop :=
  keyFunc e' = keyFunc e /\ messageFunc e' = messageFunc e /\ maxEvents e' = maxEvents e /\
  maxIntervalInSeconds e' = maxIntervalInSeconds e.

(** Any event writes the record of its own key, and never panics once the clock is
    past the interval. *)
Lemma EventAggregate_writes now ns event e n :
  no_nil_keys e -> room (S n) (a_cache e) -> maxInterval e < now -> maxInterval e < MaxInt64 ->
  exists e' out keys, EventAggregate now ns event e = Some (e', out) /\ room n (a_cache e') /\ same_config e e' /\
    lru_map (a_cache e') = <[(keyFunc e event).1 := mkAggregate (Some keys) now]> (lru_map (a_cache e)).
Proof.
  intros Hkeys Hroom Hnow Hmax. unfold EventAggregate. destruct (keyFunc e event) as [k m]. cbn [fst].
  destruct (lru_Get_law k (a_cache e)) as (Hv & Hmap & _). pose proof (room_Get _ k _ Hroom) as Hroom'.
  destruct (lru_Get k (a_cache e)) as [cache value]. cbn in Hv, Hmap, Hroom'.
  set (record := default (mkAggregate None 0) value).
  assert (Hsome : is_Some (localKeys (if maxInterval e <? time_sub now (lastTimestamp record)
      then mkAggregate (Some ∅) (lastTimestamp record) else record))).
  { destruct value as [r|]; cbn in record; subst record.
    - destruct (_ <? _); [by eexists|]. by apply (Hkeys k).
    - cbn. rewrite (proj2 (Z.ltb_lt _ _)); [by eexists|]. unfold time_sub, MaxInt64, MinInt64 in *. lia. }
  destruct Hsome as [keys ->]. rewrite <- Hmap.
  pose proof (fun keys => room_Add n k (mkAggregate (Some keys) now) cache Hroom') as Hadd.
  destruct (_ <? _); eexists _, _, _; (split; [done|]); by split_and!; try apply Hadd.
Qed.

Lemma no_nil_keys_insert e k keys now e' :
  no_nil_keys e -> lru_map (a_cache e') = <[k := mkAggregate (Some keys) now]> (lru_map (a_cache e)) -> no_nil_keys e'.
Proof. intros Hk Hm k' r. rewrite Hm. intros [[<- <-]|[_ Hr]]%lookup_insert_Some; [by eexists|by apply (Hk k')]. Qed.

Lemma maxInterval_config e e' : same_config e e' -> maxInterval e' = maxInterval e.
Proof. intros (_ & _ & _ & Hi). unfold maxInterval. by rewrite Hi. Qed.

(** A prefix of a run: what the cache has for a key. *)
Lemma aggregate_all_similar ka e0 evs l e n :
  same_config e0 e -> aggregated ka l e -> no_nil_keys e -> room (length evs + n) (a_cache e) ->
  in_burst (maxInterval e0) (l ++ similar (keyFunc e0) ka evs) -> NoDup (l ++ similar (keyFunc e0) ka evs).*2 ->
  Forall (fun ev => maxInterval e0 < ev.1.1) evs -> 0 <= maxInterval e0 < MaxInt64 -> 1 <= maxEvents e0 ->
  exists e', aggregate_all evs e = Some e' /\ same_config e0 e' /\ aggregated ka (l ++ similar (keyFunc e0) ka evs) e' /\
    no_nil_keys e' /\ room n (a_cache e').
Proof.
  revert l e. induction evs as [|[[now ns] event] evs IH]; intros l e Hc Ha Hk Hr Hb Hd Ht Hi Hm.
  - exists e. by rewrite app_nil_r.
  - apply Forall_cons in Ht as [Hnow Ht]. cbn in Hnow. pose proof (maxInterval_config _ _ Hc) as Hmi.
    destruct (EventAggregate_writes now ns event e (length evs + n) Hk Hr ltac:(lia) ltac:(lia))
      as (e1 & out & keys & Hop & Hr1 & Hc1 & Hmap).
    pose proof (no_nil_keys_insert _ _ _ _ _ Hk Hmap) as Hk1.
    assert (Hc' : same_config e0 e1) by (destruct Hc as (? & ? & ? & ?), Hc1 as (? & ? & ? & ?); split_and!; congruence).
    destruct Hc as (Hkf & _ & Hme & _). cbn [aggregate_all]. rewrite Hop. unfold similar in *. cbn [omap list_omap] in *.
    destruct (decide ((keyFunc e0 event).1 = ka)) as [Heq|Hne].
    + rewrite cons_middle, app_assoc in Hb, Hd |- *. apply IH; try done.
      destruct (EventAggregate_similar now ns event e ka (keyFunc e0 event).2 l (length evs + n)) as (e2 & ev2 & key2 & Hop2 & Ha2 & _).
      * rewrite Hkf, <- Heq. by destruct (keyFunc e0 event).
      * done.
      * rewrite Hmi. by apply in_burst_app_inv in Hb.
      * rewrite !fmap_app, <- app_assoc in Hd. apply NoDup_app in Hd as (_ & Hd & _). intros Hin. apply (Hd _ Hin). by left.
      * intros ->. lia.
      * lia.
      * lia.
      * done.
      * rewrite Hop in Hop2. by simplify_eq.
    + apply IH; try done. unfold aggregated in *. rewrite Hmap, Hkf, lookup_insert_ne by done.
      destruct Hc' as (_ & _ & -> & _). by rewrite <- Hme.
Qed.

End aggregation.

(** ** Aggregation *)

Section bursts.
Context `{LRU} `{Limiter} `{PopAny}.

(** In a burst of events that differ in their local keys (each no longer after
    the one before than the interval), the first [maxEvents - 1] pass the aggregator as
    they are, under their own key, and every later one is replaced by the aggregate
    event of the burst, under the aggregate key, whatever other events come in between
    and however [PopAny] chooses. *)
Theorem aggregate_burst cacheSize kf mf maxE maxI pre now ns event :
  let e0 := NewEventAggregator cacheSize kf mf maxE maxI in
  let ka := (kf event).1 in
  let burst := similar kf ka (pre ++ [(now, ns, event)]) in
  1 <= maxEvents e0 -> 0 <= maxInterval e0 < MaxInt64 -> Z.of_nat (S (length pre)) <= cacheSize ->
  Forall (fun ev => maxInterval e0 < ev.1.1) (pre ++ [(now, ns, event)]) ->
  in_burst (maxInterval e0) burst -> NoDup burst.*2 ->
  exists e e' event' key',
    aggregate_all pre e0 = Some e /\ EventAggregate now ns event e = Some (e', (event', key')) /\
    if decide (Z.of_nat (length burst) < maxEvents e0) then event' = event /\ key' = getEventKey event
    else key' = ka /\ Message event' = mf event /\ Count event' = 1 /\ InvolvedObject event' = InvolvedObject event.
Proof.
  intros e0 ka burst Hmax Hi Hsize Htimes Hb Hd. subst burst.
  assert (Hsim : similar kf ka (pre ++ [(now, ns, event)]) = similar kf ka pre ++ [(now, (kf event).2)]).
  { unfold similar. rewrite omap_app. cbn [omap list_omap]. by rewrite decide_True. }
  rewrite Hsim in *. apply Forall_app in Htimes as [Htimes Hnow]. apply Forall_cons in Hnow as [Hnow _]. cbn in Hnow.
  destruct (lru_New_law (A:=aggregateRecord) cacheSize) as [Hempty _].
  destruct (aggregate_all_similar ka e0 pre [] e0 1) as (e & Hrun & Hc & Ha & _ & Hroom); try done.
  - apply Hempty || (unfold aggregated; cbn; by rewrite Hempty).
  - intros k r. cbn. by rewrite Hempty.
  - apply room_New. lia.
  - by apply in_burst_app_inv in Hb.
  - rewrite fmap_app in Hd. by apply NoDup_app in Hd as (Hd & _).
  - pose proof (maxInterval_config _ _ Hc) as Hmi. destruct Hc as (Hk & Hmf & Hme & _). cbn in Hk, Hmf, Hme, Ha.
    destruct (EventAggregate_similar now ns event e ka (kf event).2 (similar kf ka pre) 0)
      as (e' & event' & key' & Hop & _ & _ & _ & _ & _ & _ & _ & Hout).
    + rewrite Hk. unfold ka. by destruct (kf event).
    + done.
    + by rewrite Hmi.
    + rewrite fmap_app in Hd. apply NoDup_app in Hd as (_ & Hd & _). intros Hin. apply (Hd _ Hin). by left.
    + intros _. by rewrite Hmi.
    + by rewrite Hmi.
    + by rewrite Hme.
    + done.
    + exists e, e', event', key'. split; [done|]. split; [done|]. rewrite length_app. cbn [length].
      rewrite Hme, Hmf in Hout. replace (Z.of_nat (length (similar kf ka pre) + 1))
        with (Z.of_nat (length (similar kf ka pre)) + 1) by lia. exact Hout.
Qed.

End bursts.

(** ** Counting *)

Section counting.
Context `{LRU} `{Limiter} `{PopAny}.

(** The logger's record of a key after the observations [os]. *)
Definition counted (key : string) (os : list observation) (e : Cache eventLog) : Prop :=
  match tally key os with
  | [] => lru_map e !! key = None
  | first :: _ =>
      exists l, lru_map e !! key = Some l /\ count l = Z.of_nat (length (tally key os)) /\
        name l = Name first /\ firstTimestamp l = FirstTimestamp first
  end.

Lemma tally_app key os1 os2 : tally key (os1 ++ os2) = tally key os1 ++ tally key os2.
Proof. apply omap_app. Qed.

Lemma tally_length key os : (length (tally key os) <= length os)%nat.
Proof.
  unfold tally. induction os as [|o os IH]; cbn; [done|]. case_match; cbn; lia.
Qed.

Lemma to_uint_small z : 0 <= z < 2 ^ 64 -> to_uint z = z.
Proof. apply Z.mod_small. Qed.

(** What an observation gives, and what it leaves in the cache. *)
Lemma eventObserve_counted {Patch E} unix0 (mk : Event -> Event -> option Patch * option E) key os event e n :
  counted key os e -> room (S n) e -> Z.of_nat (length (tally key os)) < 2 ^ 31 - 1 ->
  exists e' event' patch err, eventObserve unix0 mk event key e = (e', (event', patch, err)) /\
    lru_map e' = <[key := log_of event']> (lru_map e) /\ room n e' /\
    match tally key os with
    | [] => event' = event /\ patch = None
    | first :: _ =>
        Count event' = Z.of_nat (length (tally key os)) + 1 /\ Name event' = Name first /\
        FirstTimestamp event' = FirstTimestamp first /\ Message event' = Message event /\
        LastTimestamp event' = LastTimestamp event /\ patch = (mk (patch_base unix0 event') event').1
    end.
Proof.
  intros Hc Hr Hlt. unfold eventObserve, lastEventObservationFromCache.
  destruct (lru_Get_law key e) as (Hv & Hmap & _). pose proof (room_Get _ key _ Hr) as Hr'.
  destruct (lru_Get key e) as [cache value]. cbn in Hv, Hmap, Hr'. subst value. unfold counted in Hc.
  destruct (tally key os) as [|first rest] eqn:Ht.
  - rewrite Hc. cbn. destruct (room_Add n key (log_of event) cache Hr') as [Hr1 Hm1].
    eexists _, _, _, _. split; [done|]. by rewrite Hm1, Hmap.
  - destruct Hc as (l & -> & Hcount & Hname & Hfirst). cbn [default]. unfold id.
    rewrite (proj2 (Z.ltb_lt 0 (count l))) by (rewrite Hcount; cbn [length]; lia).
    destruct (mk _ _) as [patch err] eqn:Hmk.
    destruct (room_Add n key (log_of (set_observation l event)) cache Hr') as [Hr1 Hm1].
    eexists _, _, _, _. split; [done|]. rewrite Hm1, Hmap, Hmk. cbn. rewrite Hcount.
    split; [done|]. split; [done|]. rewrite (wrap32_id (Z.of_nat _)), wrap32_id by (cbn [length] in *; lia). done.
Qed.

Lemma observe_all_counted key before os e n :
  counted key before e -> confirmed key before os -> room (length os + n) e ->
  Z.of_nat (length before + length os) < 2 ^ 31 -> counted key (before ++ os) (observe_all os e) /\ room n (observe_all os e).
Proof.
  revert before e. induction os as [|o os IH]; intros before e Hc Hok Hr Hlt; [by rewrite app_nil_r|].
  destruct Hok as [Ho Hok]. cbn [observe_all fold_left]. rewrite cons_middle, app_assoc.
  assert (Hstep : counted key (before ++ [o]) (observe o e) /\ room (length os + n) (observe o e)).
  { pose proof (tally_length key before) as Hlen. cbn [length] in Hlt. destruct o as [event k|event]; cbn [observe].
    - destruct (decide (k = key)) as [->|Hne].
      + destruct (eventObserve_counted (Patch:=unit) (E:=unit) 0 (fun _ _ => (None, None)) key before event e (length os + n))
          as (e' & event' & patch & err & -> & Hm & Hr' & Hout); [done..|lia|]. split; [|done].
        unfold counted. rewrite tally_app, length_app. cbn. rewrite decide_True by done. rewrite Hm, lookup_insert_eq.
        destruct (tally key before) as [|first rest] eqn:Ht; cbn.
        * destruct Hout as [-> _]. eexists. split; [done|]. cbn. by rewrite Ho.
        * destruct Hout as (Hcn & Hn & Hf & _). eexists. split; [done|]. cbn. rewrite Hcn.
          cbn [length] in *. rewrite to_uint_small by lia. split_and!; try done. lia.
      + unfold eventObserve, lastEventObservationFromCache.
        pose proof (room_Get _ k _ Hr) as Hr'. destruct (lru_Get_law k e) as (_ & Hmap & _).
        destruct (lru_Get k e) as [cache value]. cbn in Hmap, Hr'.
        set (ev := if 0 <? _ then _ else _). destruct ev as [event' [patch err]].
        destruct (room_Add (length os + n) k (log_of event') cache Hr') as [Hr1 Hm1]. cbn. split; [|done].
        unfold counted in *. rewrite tally_app. cbn. rewrite decide_False by done. rewrite app_nil_r, Hm1, lookup_insert_ne, Hmap by done.
        done.
    - unfold updateState. destruct (room_Add (length os + n) (getEventKey event) (log_of event) e Hr) as [Hr1 Hm1].
      split; [|done]. unfold counted in *. rewrite Hm1, tally_app. cbn [tally omap list_omap]. rewrite app_nil_r.
      destruct (decide (getEventKey event = key)) as [Heq|Hne].
      + destruct (Ho Heq) as (first & rest & Ht & Hcn & Hn & Hf). rewrite Ht in *. rewrite Heq, lookup_insert_eq.
        eexists. split; [done|]. cbn. rewrite Hcn. cbn [length] in *. by rewrite to_uint_small by lia.
      + by rewrite lookup_insert_ne. }
  apply IH; [apply Hstep|done|apply Hstep|rewrite length_app; cbn [length] in *; lia].
Qed.

(** The logger counts the occurrences of a key: as long as what the server
    returns under it is what was last sent, the first occurrence passes as it is, to be
    created, and the (n+1)-st passes with count [n+1], the name and the first time of
    the first, its own message and time, and a patch of exactly these. *)
Theorem event_counts {Patch E} unix0 (mk : Event -> Event -> option Patch * option E) size key os event :
  confirmed key [] os -> Z.of_nat (S (length os)) <= size -> Z.of_nat (length os) < 2 ^ 31 - 1 ->
  let '(_, (event', patch, _)) := eventObserve unix0 mk event key (observe_all os (newEventLogger size)) in
  match tally key os with
  | [] => event' = event /\ patch = None
  | first :: _ =>
      Count event' = Z.of_nat (length (tally key os)) + 1 /\ Name event' = Name first /\
      FirstTimestamp event' = FirstTimestamp first /\ Message event' = Message event /\
      LastTimestamp event' = LastTimestamp event /\ patch = (mk (patch_base unix0 event') event').1
  end.
Proof.
  intros Hok Hsize Hlt. pose proof (tally_length key os) as Hlen.
  destruct (observe_all_counted key [] os (newEventLogger size) 1) as [Hc Hr]; [|done|apply room_New; lia|cbn; lia|].
  - unfold counted, newEventLogger. cbn. by rewrite (proj1 (lru_New_law size)).
  - destruct (eventObserve_counted unix0 mk key os event _ 0 Hc Hr) as (e' & event' & patch & err & -> & _ & _ & Hout); [lia|].
    done.
Qed.

End counting.

(** ** Throttling *)

Section throttling.
Context `{LRU} `{Limiter} `{PopAny}.

(** Every key asked for has the bucket its own times made. *)
Definition throttled (kf : Event -> string) (qps : Qps) (burst : Z) (evs : list (Z * Event)) (c : Cache spamRecord) : Prop :=
  forall k, lru_map c !! k =
    match asked kf k evs with [] => None | times => Some (mkSpamRecord (Some (bucket_after qps burst times))) end.

Lemma asked_snoc kf k evs now event :
  asked kf k (evs ++ [(now, event)]) = asked kf k evs ++ (if decide (kf event = k) then [now] else []).
Proof. unfold asked. rewrite omap_app. cbn. by destruct (decide _). Qed.

Lemma bucket_after_snoc qps burst times now :
  bucket_after qps burst (times ++ [now]) = (TryAccept now (bucket_after qps burst times)).1.
Proof. unfold bucket_after. by rewrite fold_left_app. Qed.

Lemma Filter_throttled kf qps burst evs c now event n :
  throttled kf qps burst evs c -> room (S n) c ->
  exists c', Filter now event (mkFilter c burst qps kf) =
    (mkFilter c' burst qps kf, negb (TryAccept now (bucket_after qps burst (asked kf (kf event) evs))).2) /\
    throttled kf qps burst (evs ++ [(now, event)]) c' /\ room n c'.
Proof.
  intros Ht Hr. unfold Filter. cbn. destruct (lru_Get_law (kf event) c) as (Hv & Hmap & _).
  pose proof (room_Get _ (kf event) _ Hr) as Hr'. destruct (lru_Get (kf event) c) as [cache value]. cbn in Hv, Hmap, Hr'.
  assert (Hb : default (NewTokenBucketPassiveRateLimiter qps burst) (rateLimiter (default (mkSpamRecord None) value)) =
    bucket_after qps burst (asked kf (kf event) evs)).
  { subst value. rewrite (Ht (kf event)). by destruct (asked kf (kf event) evs). }
  rewrite Hb. pose proof (bucket_after_snoc qps burst (asked kf (kf event) evs) now) as Hsnoc.
  destruct (TryAccept now _) as [b accepted]. cbn in Hsnoc.
  destruct (room_Add n (kf event) (mkSpamRecord (Some b)) cache Hr') as [Hr1 Hm1].
  eexists. split; [done|]. split; [|done]. intros k. rewrite Hm1, Hmap, asked_snoc.
  destruct (decide (kf event = k)) as [<-|Hne].
  - rewrite lookup_insert_eq, <- Hsnoc. by destruct (asked kf (kf event) evs).
  - rewrite lookup_insert_ne, app_nil_r by done. apply Ht.
Qed.

Lemma filter_all_throttled kf qps burst before evs c n :
  throttled kf qps burst before c -> room (length evs + n) c ->
  exists c', filter_all evs (mkFilter c burst qps kf) = mkFilter c' burst qps kf /\
    throttled kf qps burst (before ++ evs) c' /\ room n c'.
Proof.
  revert before c. induction evs as [|[now event] evs IH]; intros before c Ht Hr; [exists c; by rewrite app_nil_r|].
  cbn [filter_all]. destruct (Filter_throttled kf qps burst before c now event (length evs + n) Ht Hr) as (c1 & -> & Ht1 & Hr1).
  rewrite cons_middle, app_assoc. by apply IH.
Qed.

(** Whatever else is filtered, the filter lets an event of a source and object
    through exactly if a token bucket of its own, asked at the times of the earlier
    events of that source and object, has a token now. *)
Theorem spam_filter_per_key size burst qps kf pre now event :
  Z.of_nat (S (length pre)) <= size ->
  (Filter now event (filter_all pre (NewEventSourceObjectSpamFilter size burst qps kf))).2 =
  negb (AllowN now 1 (bucket_after qps burst (asked kf (kf event) pre))).2.
Proof.
  intros Hsize. unfold NewEventSourceObjectSpamFilter.
  destruct (filter_all_throttled kf qps burst [] pre (lru_New size) 1) as (c & -> & Ht & Hr).
  - intros k. cbn. by rewrite (proj1 (lru_New_law _)).
  - apply room_New. lia.
  - by destruct (Filter_throttled kf qps burst pre c now event 0 Ht Hr) as (c' & -> & _ & _).
Qed.

End throttling.

(** ** Writing *)

Section writing.
Context `{LRU} `{Limiter} `{PopAny} {Patch E W : Type}.
Variable unix0 : Z.
Variable mk : Event -> Event -> option Patch * option E.
Variables (sink_Create : Event -> W -> W * (Event + sink_error))
  (sink_Patch : Event -> option Patch -> W -> W * (Event + sink_error))
  (shut_down : W -> W * bool).

(** The calls of a sink with their answers: any sink can be observed. *)
Inductive sink_call : Type :=
| Created (event : Event) (res : Event + sink_error)
| Patched (event : Event) (patch : option Patch) (res : Event + sink_error).

Definition answer (call : sink_call) : Event + sink_error :=
  match call with Created _ res | Patched _ _ res => res end.

Definition call_event (call : sink_call) : Event :=
  match call with Created event _ | Patched event _ _ => event end.

Definition failed (call : sink_call) : Prop := exists err, answer call = inr err.

Definition logging_Create (event : Event) (w : W * list sink_call) : (W * list sink_call) * (Event + sink_error) :=
  let '(w0, res) := sink_Create event w.1 in ((w0, w.2 ++ [Created event res]), res).

Definition logging_Patch (event : Event) (patch : option Patch) (w : W * list sink_call)
    : (W * list sink_call) * (Event + sink_error) :=
  let '(w0, res) := sink_Patch event patch w.1 in ((w0, w.2 ++ [Patched event patch res]), res).

Definition logging_shut_down (w : W * list sink_call) : (W * list sink_call) * bool :=
  let '(w0, stop) := shut_down w.1 in ((w0, w.2), stop).

(** What a call may carry: the correlated event, without its version when it is
    created. *)
Definition carries (event : Event) (call : sink_call) : Prop :=
  set_ResourceVersion "" (call_event call) = set_ResourceVersion "" event /\
  match call with Created event' _ => ResourceVersion event' = "" | Patched _ _ _ => True end.

(** The correlator after the calls: it learns of a write that was answered. *)
Definition learns (calls : list sink_call) (c : EventCorrelator) : EventCorrelator :=
  match answer <$> last calls with Some (inl newEvent) => UpdateState newEvent c | _ => c end.

(** All calls but the last have failed. *)
Definition at_most_one_write (calls : list sink_call) : Prop :=
  forall before call after, calls = before ++ call :: after -> after <> [] -> failed call.

Lemma at_most_one_write_app l1 l2 : Forall failed l1 -> at_most_one_write l2 -> at_most_one_write (l1 ++ l2).
Proof.
  induction 1 as [|c l1 Hc _ IH]; [done|]. intros H2 before call after Heq Hne.
  destruct before as [|c' before]; simplify_list_eq; [done|]. by apply (IH H2 before call after).
Qed.

Lemma recordEvent_calls event patch update w log c w' event' c' done :
  recordEvent logging_Create logging_Patch event patch update (w, log) c = ((w', event'), c', done) ->
  exists w0 calls, w' = (w0, log ++ calls) /\ (1 <= length calls <= 2)%nat /\ Forall (carries event) calls /\
    set_ResourceVersion "" event' = set_ResourceVersion "" event /\ at_most_one_write calls /\ c' = learns calls c /\
    (done = false -> Forall failed calls).
Proof.
  unfold recordEvent, logging_Create, logging_Patch. cbn [fst snd].
  assert (Hone : forall call : sink_call, at_most_one_write [call]).
  { intros call before call' after Heq. destruct before as [|? []]; simplify_list_eq. done. }
  destruct update.
  - destruct (sink_Patch event patch w) as [w1 [newEvent|err]] eqn:E1.
    + intros [= <- <- <- <-]. exists w1, [Patched event patch (inl newEvent)]. split_and!; try done; try (cbn; lia); by repeat constructor.
    + destruct (IsKeyNotFoundError err) eqn:E2.
      * destruct (sink_Create (set_ResourceVersion "" event) w1) as [w2 res] eqn:E3. intros Hrun. cbn [fst snd] in Hrun. rewrite ?E3 in Hrun.
        exists w2, ([Patched event patch (inr err)] ++ [Created (set_ResourceVersion "" event) res]). rewrite app_assoc.
        assert (Hout : w' = (w2, (log ++ [Patched event patch (inr err)]) ++ [Created (set_ResourceVersion "" event) res]) /\
          event' = set_ResourceVersion "" event /\
          c' = match res with inl newEvent => UpdateState newEvent c | inr _ => c end /\ (done = false -> exists e, res = inr e)).
        { destruct res as [newEvent|[| |]]; simplify_eq; split_and!; by eauto. }
        destruct Hout as (-> & -> & -> & Hd). split_and!; try done; try (cbn; lia); try by repeat constructor.
        -- apply at_most_one_write_app; [|apply Hone]. constructor; [by exists err|done].
        -- intros [e ->]%Hd. repeat constructor; by eexists.
      * intros Hrun. exists w1, [Patched event patch (inr err)]. unfold learns. cbn.
        assert (Hout : w' = (w1, log ++ [Patched event patch (inr err)]) /\ event' = event /\ c' = c)
          by (destruct err; simplify_eq; eauto).
        destruct Hout as (-> & -> & ->). split_and!; try done; try lia; try by repeat constructor.
        intros _. constructor; [by exists err|done].
  - destruct (sink_Create (set_ResourceVersion "" event) w) as [w2 res] eqn:E3. intros Hrun.
    exists w2, [Created (set_ResourceVersion "" event) res]. unfold learns. cbn.
    assert (Hout : w' = (w2, log ++ [Created (set_ResourceVersion "" event) res]) /\ event' = set_ResourceVersion "" event /\
      c' = match res with inl newEvent => UpdateState newEvent c | inr _ => c end /\ (done = false -> exists e, res = inr e)).
    { destruct res as [newEvent|[| |]]; simplify_eq; split_and!; by eauto. }
    destruct Hout as (-> & -> & -> & Hd). split_and!; try done; try lia; try by repeat constructor.
    intros [e ->]%Hd. constructor; [by eexists|done].
Qed.

Lemma carries_trans event event' call :
  set_ResourceVersion "" event' = set_ResourceVersion "" event -> carries event' call -> carries event call.
Proof. unfold carries. intros ->. done. Qed.

Lemma learns_app l1 l2 c : l2 <> [] -> learns (l1 ++ l2) c = learns l2 c.
Proof. intros Hne. unfold learns. rewrite last_app. destruct (last l2) eqn:El; [done|]. by apply last_None in El. Qed.

Lemma record_loop_calls tries event patch w log c w' c' :
  record_loop logging_Create logging_Patch logging_shut_down tries event patch (w, log) c = (w', c') ->
  exists w0 calls, w' = (w0, log ++ calls) /\ (length calls <= 2 * tries)%nat /\ (tries <> 0 -> calls <> [])%nat /\
    Forall (carries event) calls /\ at_most_one_write calls /\ c' = learns calls c.
Proof.
  revert event w log c. induction tries as [|tries IH]; intros event w log c.
  - intros [= <- <-]. exists w, []. rewrite app_nil_r. split_and!; try done. by intros [] call after.
  - cbn [record_loop]. destruct (recordEvent _ _ _ _ _ _ _) as [[[w1 event1] c1] done] eqn:E1.
    destruct (recordEvent_calls _ _ _ _ _ _ _ _ _ _ E1) as (w0 & calls & -> & Hlen & Hcar & Hev & Hmost & -> & Hfail).
    assert (Hstop : ((w0, log ++ calls), learns calls c) = (w', c') -> exists w2 calls', w' = (w2, log ++ calls') /\
      (length calls' <= 2 * S tries)%nat /\ (S tries <> 0 -> calls' <> [])%nat /\ Forall (carries event) calls' /\
      at_most_one_write calls' /\ c' = learns calls' c).
    { intros [= <- <-]. exists w0, calls. split_and!; try done; [lia|]. intros _ ->. cbn in Hlen. lia. }
    destruct done; [done|]. destruct tries as [|tries]; [done|].
    unfold logging_shut_down at 1. cbn [fst snd]. destruct (shut_down w0) as [w2 stop].
    destruct stop; [intros [= <- <-]; exists w2, calls; split_and!; try done; [lia|]; intros _ ->; cbn in Hlen; lia|].
    intros Hrun. destruct (IH _ _ _ _ Hrun) as (w3 & calls' & -> & Hlen' & Hne & Hcar' & Hmost' & ->).
    specialize (Hfail eq_refl). exists w3, (calls ++ calls'). rewrite app_assoc. split; [done|].
    assert (Hc : learns calls c = c).
    { unfold learns. destruct (last calls) as [call|] eqn:El; [|done]. apply last_Some in El as [l ->].
      apply Forall_app in Hfail as [_ Hf]. apply Forall_cons in Hf as [[err Herr] _]. cbn. by rewrite Herr. }
    split_and!.
    + rewrite length_app. lia.
    + intros _ [-> ->]%app_nil. cbn in Hlen. lia.
    + apply Forall_app. split; [done|]. eapply Forall_impl; [exact Hcar'|]. intros call. by apply carries_trans.
    + by apply at_most_one_write_app.
    + rewrite learns_app by (by apply Hne). by rewrite Hc.
Qed.

(** Recording an event makes no call of the sink when the filter skips it, and
    otherwise between one and twenty-four, each of the event the correlator made and
    each creation without a resource version; no call follows one that succeeded, and
    the correlator learns what the server answered exactly when the last call
    succeeded. *)
Theorem record_to_sink now nanoseconds now' event w c w' calls c' :
  recordToSink unix0 mk logging_Create logging_Patch logging_shut_down now nanoseconds now' event (w, []) c =
    Some ((w', calls), c') ->
  exists c1 res err, EventCorrelate unix0 mk now nanoseconds now' event c = Some (c1, (res, err)) /\
    match r_Event res with
    | None => Skip res = true /\ calls = [] /\ c' = c1
    | Some event' =>
        Skip res = false /\ (1 <= length calls <= 24)%nat /\ Forall (carries event') calls /\
        at_most_one_write calls /\ c' = learns calls c1
    end.
Proof.
  unfold recordToSink. destruct (EventCorrelate _ _ _ _ _ _ _) as [[c1 [res err]]|] eqn:Ec; [|done].
  intros Hrun. exists c1, res, err. split; [done|].
  assert (Hres : (Skip res = true /\ r_Event res = None) \/ (Skip res = false /\ exists event', r_Event res = Some event')).
  { revert Ec. unfold EventCorrelate. destruct (EventAggregate _ _ _ _) as [[a [ev key]]|]; [|done].
    destruct (eventObserve _ _ _ _ _) as [lg [[ev' patch] err']]. destruct (Filter _ _ _) as [f [|]]; intros; simplify_eq; eauto. }
  destruct Hres as [[Hs Hn]|[Hs [event' He]]]; rewrite Hs in Hrun; [rewrite Hn; by simplify_eq|].
  rewrite He in Hrun |- *. apply (inj Some) in Hrun.
  apply record_loop_calls in Hrun as (w0 & calls' & Hw & Hlen & Hne & Hcar & Hmost & ->). simplify_eq.
  split_and!; try done. specialize (Hne ltac:(done)). by destruct calls'; [|cbn; lia].
Qed.

End writing.

(** ** Concrete runs *)

Module samples.

(** A map that is emptied when it is full. *)
#[local] Program Instance full_map : LRU := {
  Cache := fun A => (gmap string A * Z)%type;
  lru_New := fun A n => (∅, n);
  lru_Get := fun A k c => (c, c.1 !! k);
  lru_Add := fun A k a c =>
    ((if decide (Z.of_nat (size (<[k := a]> c.1)) <= c.2) then <[k := a]> c.1 else {[k := a]}), c.2);
  lru_map := fun A c => c.1;
  lru_max := fun A c => c.2
}.
Next Obligation. done. Qed.
Next Obligation. done. Qed.
Next Obligation.
  intros A k a [m n]; cbn. case_decide; split_and!; try done; try apply lookup_insert_eq.
  by apply insert_mono, map_empty_subseteq.
Qed.

(** Tokens that are not refilled. *)
#[local] Instance tokens : Limiter := {
  Qps := Z;
  Qps_is_zero := Z.eqb 0;
  one_per_five_minutes := 1;
  Bucket := Z;
  NewLimiter := fun _ burst => burst;
  AllowN := fun _ n left => if n <=? left then (left - n, true) else (left, false)
}.

#[local] Program Instance pop_first : PopAny := { PopAny_member := fun s => head (elements s) }.
Next Obligation.
  intros s. destruct (elements s) as [|x l] eqn:E; rewrite ?E; cbn [head].
  - apply elements_empty_iff in E. by apply leibniz_equiv.
  - apply elem_of_elements. rewrite E. by left.
Qed.

Definition pod : ObjectReference := mkReference "Pod" "default" "web" "u1" "v1" "".

Definition event (message : string) (t : Z) : Event :=
  mkEvent (event_name "web" t) "default" ∅ "" pod "Failed" message (mkSource "kubelet" "node") t t 1 "Warning"
    "kubelet" "node".

(** 2023, in nanoseconds since the year one. *)
Definition now : Z := 63808000000 * Second.

Definition at_ (i : nat) : Z := now + Z.of_nat i * Second.

(** Nine events that differ in their messages, a second apart, and one of another
    reason among them. *)
Definition nine : list (Z * Z * Event) :=
  (fun i => (at_ i, at_ i, event ("m" +:+ pretty i) (at_ i))) <$> seq 0 9.

Definition other : Event :=
  mkEvent "x" "default" ∅ "" pod "Pulled" "pulled" (mkSource "kubelet" "node") now now 1 "Normal" "kubelet" "node".

Definition earlier : list (Z * Z * Event) := take 5 nine ++ (at_ 4, 0, other) :: drop 5 nine.

Lemma aggregate_burst_witness :
  exists e e' event' key',
    aggregate_all earlier
      (NewEventAggregator 4096 EventAggregatorByReasonFunc EventAggregatorByReasonMessageFunc 10 600) = Some e /\
    EventAggregate (at_ 9) 255 (event "m9" (at_ 9)) e = Some (e', (event', key')) /\
    key' = "kubeletnodePoddefaultwebu1v1WarningFailedkubeletnode" /\
    Message event' = "(combined from similar events): m9" /\ Count event' = 1 /\ InvolvedObject event' = pod.
Proof.
  apply (aggregate_burst 4096 EventAggregatorByReasonFunc EventAggregatorByReasonMessageFunc 10 600 earlier (at_ 9) 255
    (event "m9" (at_ 9))).
  - vm_compute. discriminate.
  - split; vm_compute; [discriminate|reflexivity].
  - vm_compute. discriminate.
  - repeat constructor.
  - vm_compute. repeat split; discriminate.
  - apply (bool_decide_eq_true_1 _). vm_compute. reflexivity.
Defined.

(** The parts of a key are put together without a separator: events of two objects can
    have one key. *)
Lemma getEventKey_collides :
  let on ns name := mkEvent "e" ns ∅ "" (mkReference "Pod" ns name "" "v1" "") "Failed" "m" (mkSource "c" "h")
    now now 1 "Normal" "" "" in
  getEventKey (on "team" "1-web") = getEventKey (on "team1" "-web") /\ on "team" "1-web" <> on "team1" "-web".
Proof. split; [reflexivity|discriminate]. Qed.

Definition no_patch (_ _ : Event) : option unit * option unit := (Some tt, None).

(** Twice observed, with the server's answers; the name is given by the server. *)
Definition history : list observation :=
  [Observed (event "m" (at_ 0)) (getEventKey (event "m" now));
   Returned (event "m" (at_ 0));
   Observed other (getEventKey other);
   Observed (event "m" (at_ 7)) (getEventKey (event "m" now))].

Lemma event_counts_witness :
  let '(_, (event', patch, _)) :=
    eventObserve 0 no_patch (event "m" (at_ 9)) (getEventKey (event "m" now)) (observe_all history (newEventLogger 4096)) in
  Count event' = 3 /\ Name event' = event_name "web" (at_ 0) /\ FirstTimestamp event' = at_ 0 /\ Message event' = "m" /\
  LastTimestamp event' = at_ 9 /\ patch = Some tt.
Proof.
  apply (event_counts 0 no_patch 4096 (getEventKey (event "m" now)) history (event "m" (at_ 9))).
  - split; [done|]. split; [|split; [|split; [done|done]]].
    + intros _. eexists _, _. split; [vm_compute; reflexivity|]. done.
    + intros Hk. vm_compute in Hk. discriminate.
  - vm_compute. discriminate.
  - vm_compute. reflexivity.
Defined.

(** A burst of two for each object: the third event of the pod is dropped, though
    another object's was let through in between. *)
Lemma spam_filter_per_key_witness :
  let elsewhere := mkEvent "y" "default" ∅ "" (mkReference "Pod" "default" "db" "u2" "v1" "") "Failed" "m"
    (mkSource "kubelet" "node") now now 1 "Warning" "" "" in
  let pre := [(at_ 0, event "a" (at_ 0)); (at_ 1, elsewhere); (at_ 2, event "b" (at_ 2))] in
  (Filter (at_ 3) (event "c" (at_ 3)) (filter_all pre (NewEventSourceObjectSpamFilter 4096 2 1 getSpamKey))).2 = true /\
  asked getSpamKey (getSpamKey (event "c" (at_ 3))) pre = [at_ 0; at_ 2].
Proof.
  intros elsewhere pre. split; [|vm_compute; reflexivity].
  etransitivity; [apply spam_filter_per_key; vm_compute; discriminate|vm_compute; reflexivity].
Defined.

(** A sink that loses its first two calls. *)
Definition flaky (event : Event) (lost : nat) : nat * (Event + sink_error) :=
  match lost with
  | 0%nat => (0%nat, inl event)
  | S lost => (lost, inr OtherError)
  end.

Definition run : option ((nat * list (sink_call (Patch:=unit))) * EventCorrelator) :=
  recordToSink (W:=nat * list (sink_call (Patch:=unit))) 0 no_patch (logging_Create flaky)
    (logging_Patch (fun event _ => flaky event)) (logging_shut_down (fun w => (w, false))) now now now
    (event "m" now) (2%nat, []) NewEventCorrelator.

Lemma record_to_sink_witness :
  exists w' calls c', run = Some ((w', calls), c') /\ length calls = 3%nat /\
  exists c1 res err, EventCorrelate 0 no_patch now now now (event "m" now) NewEventCorrelator = Some (c1, (res, err)) /\
    match r_Event res with
    | None => Skip res = true /\ calls = [] /\ c' = c1
    | Some event' =>
        Skip res = false /\ (1 <= length calls <= 24)%nat /\ Forall (carries event') calls /\
        at_most_one_write calls /\ c' = learns calls c1
    end.
Proof.
  assert (Hlen : (fun r => length r.1.2) <$> run = Some 3%nat) by (vm_compute; reflexivity).
  destruct run as [[[w' calls] c']|] eqn:Hrun; [|discriminate Hlen]. exists w', calls, c'.
  split; [reflexivity|]. split; [by injection Hlen|].
  exact (record_to_sink 0 no_patch flaky (fun event _ => flaky event) (fun w => (w, false)) now now now (event "m" now)
    2%nat NewEventCorrelator w' calls c' Hrun).
Defined.

End samples.
