(* ===== verification/ObjectTracker.v ===== *)
(** * The object tracker

    testing/fixture.go, the parts of testing/fake.go and testing/actions.go it works
    with: the in-memory server of the fake clientsets.  It keeps objects by resource,
    namespace and name, tells watchers of every change, and serves the actions of a
    fake client.  Its methods run under its lock, so each is one step.  Objects are
    stored and handed out as deep copies, so they are values here.  Schemes, metadata,
    patches and lists of apimachinery are parameters, and so is the capacity of a watch:
    a watcher that leaves that many events unhandled makes the next write panic. *)

From S2P Require Import Prelude.
From Stdlib Require Import Ascii.

(** ** Resources and names *)

Record GroupVersionResource : Type := mkGVR { Group : string; Version : string; Resource : string }.
Record GroupVersionKind : Type := mkGVK { k_Group : string; k_Version : string; Kind : string }.

#[global] Instance GroupVersionResource_eq_dec : EqDecision GroupVersionResource.
Proof. solve_decision. Defined.
#[global] Program Instance GroupVersionResource_countable : Countable GroupVersionResource :=
  inj_countable' (fun r => (Group r, Version r, Resource r)) (fun '(g, v, r) => mkGVR g v r) _.
Next Obligation. by intros []. Qed.

(** [types.NamespacedName]: the namespace and the name. *)
Abbreviation NamespacedName := (string * string)%type.

Definition NamespaceAll : string := "".
Definition APIVersionInternal : string := "__internal".

(** ** What lies outside *)

(** Errors of the API, and those of other code; and the panic of a full watch channel.  It
    unwinds through every caller as the errors do, which each returns at once. *)
Inductive api_error : Type :=
| NotFound (gvr : GroupVersionResource) (name : string)
| AlreadyExists (gvr : GroupVersionResource) (name : string)
| BadRequest (message : string)
| StatusError (status : string)
| Other (message : string)
| Panicked.

(** Objects with what apimachinery does with them: [meta.Accessor], the failed status
    an object may be, lists, the scheme, guesses of resources, and the patches of the
    reaction.  The laws are those of metadata and lists. *)
Class Objects (O : Type) : Type := {
  Accessor : O -> option NamespacedName;
  SetNamespace : string -> O -> O;
  failure : O -> option string;
  IsListType : O -> bool;
  ExtractList : O -> list O + string;
  DecodeList : list O -> list O + string;
  SetList : O -> list O -> O + string;
  New : GroupVersionKind -> O + string;
  ObjectKinds : O -> list GroupVersionKind + string;
  PartialObjectMetadata_kind : O -> option GroupVersionKind;
  UnsafeGuessKindToResource : GroupVersionKind -> GroupVersionResource;
  TypeOf : O -> string;
  obj_size : O -> nat;
  DefaultChanSize : nat;
  Accessor_SetNamespace o ns nn : Accessor o = Some nn -> Accessor (SetNamespace ns o) = Some (ns, nn.2);
  ExtractList_SetList l xs l' : SetList l xs = inl l' -> ExtractList l' = inl xs;
  ExtractList_New gvk l : New gvk = inl l -> IsListType l = true -> ExtractList l = inl [];
  list_items_smaller o xs ys x : ExtractList o = inl xs -> DecodeList xs = inl ys -> x ∈ ys -> (obj_size x < obj_size o)%nat
}.

Arguments DefaultChanSize O {_}.

(** ** The tracker *)

Inductive watch_event (O : Type) : Type :=
| Added (o : O)
| Modified (o : O)
| Deleted (o : O).
Arguments Added {O} o.
Arguments Modified {O} o.
Arguments Deleted {O} o.

Section tracker.
Context {O : Type} `{Objects O} `{MapRange}.

(** A fake watcher: what it has been told, the latest last, and how many of these events
    have been taken out of its channel, which holds the others. *)
Record RaceFreeFakeWatcher : Type := mkFakeWatcher { told : list (watch_event O); handled : nat }.

Definition result (f : RaceFreeFakeWatcher) : list (watch_event O) := drop (handled f) (told f).

Definition full (f : RaceFreeFakeWatcher) : bool := bool_decide (DefaultChanSize O <= length (result f))%nat.

Definition send (ev : watch_event O) (f : RaceFreeFakeWatcher) : RaceFreeFakeWatcher :=
  mkFakeWatcher (told f ++ [ev]) (handled f).

(** The fake watchers are numbered as they are made. *)
Record tracker : Type := mkTracker {
  objects : gmap GroupVersionResource (gmap NamespacedName O);
  watchers : gmap GroupVersionResource (gmap string (list nat));
  fakes : list RaceFreeFakeWatcher
}.

Definition NewObjectTracker : tracker := mkTracker ∅ ∅ [].

Definition set_objects (objs : gmap GroupVersionResource (gmap NamespacedName O)) (t : tracker) : tracker :=
  mkTracker objs (watchers t) (fakes t).

Definition getWatches (gvr : GroupVersionResource) (ns : string) (t : tracker) : list nat :=
  match watchers t !! gvr with
  | None => []
  | Some by_ns =>
      default [] (by_ns !! ns) ++ (if decide (ns <> NamespaceAll) then default [] (by_ns !! NamespaceAll) else [])
  end.

(** The loops over watches: a full channel panics, and the watches after it are not told. *)
Fixpoint tell (ws : list nat) (ev : watch_event O) (fs : list RaceFreeFakeWatcher) : list RaceFreeFakeWatcher * option api_error :=
  match ws with
  | [] => (fs, None)
  | w :: ws =>
      if default false (full <$> fs !! w) then (fs, Some Panicked)
      else tell ws ev (alter (send ev) w fs)
  end.

Definition tell_watches (gvr : GroupVersionResource) (ns : string) (ev : watch_event O) (t : tracker)
    : tracker * option api_error :=
  let '(fs, panic) := tell (getWatches gvr ns t) ev (fakes t) in
  (mkTracker (objects t) (watchers t) fs, panic).

Definition add (gvr : GroupVersionResource) (obj : O) (ns : string) (replaceExisting : bool) (t : tracker)
    : tracker * option api_error :=
  match Accessor obj with
  | None => (t, Some (Other "object does not implement the Object interfaces"))
  | Some (obj_ns, name) =>
      let obj := if decide (obj_ns = "") then SetNamespace ns obj else obj in
      let obj_ns := if decide (obj_ns = "") then ns else obj_ns in
      if decide (ns <> obj_ns) then
        (t, Some (BadRequest "request namespace does not match object namespace, request: %q object: %q"))
      else
        let by_name := default ∅ (objects t !! gvr) in
        let t := set_objects (<[gvr := by_name]> (objects t)) t in
        match by_name !! (obj_ns, name) with
        | Some _ =>
            if replaceExisting then
              match tell_watches gvr ns (Modified obj) t with
              | (t, Some panic) => (t, Some panic)
              | (t, None) => (set_objects (<[gvr := <[(obj_ns, name) := obj]> by_name]> (objects t)) t, None)
              end
            else (t, Some (AlreadyExists gvr name))
        | None =>
            if replaceExisting then (t, Some (NotFound gvr name))
            else
              let t := set_objects (<[gvr := <[(obj_ns, name) := obj]> by_name]> (objects t)) t in
              tell_watches gvr ns (Added obj) t
        end
  end.

Definition Create (gvr : GroupVersionResource) (obj : O) (ns : string) (t : tracker) : tracker * option api_error :=
  add gvr obj ns false t.

Definition Update (gvr : GroupVersionResource) (obj : O) (ns : string) (t : tracker) : tracker * option api_error :=
  add gvr obj ns true t.

Definition Delete (gvr : GroupVersionResource) (ns name : string) (t : tracker) : tracker * option api_error :=
  match objects t !! gvr with
  | None => (t, Some (NotFound gvr name))
  | Some objs =>
      match objs !! (ns, name) with
      | None => (t, Some (NotFound gvr name))
      | Some obj =>
          let t := set_objects (<[gvr := delete (ns, name) objs]> (objects t)) t in
          tell_watches gvr ns (Deleted obj) t
      end
  end.

Definition Get (gvr : GroupVersionResource) (ns name : string) (t : tracker) : O + api_error :=
  match objects t !! gvr with
  | None => inr (NotFound gvr name)
  | Some objs =>
      match objs !! (ns, name) with
      | None => inr (NotFound gvr name)
      | Some obj =>
          match failure obj with
          | Some status => inr (StatusError status)
          | None => inl obj
          end
      end
  end.

Definition Watch (gvr : GroupVersionResource) (ns : string) (t : tracker) : tracker * nat :=
  let fakewatcher := length (fakes t) in
  let by_ns := default ∅ (watchers t !! gvr) in
  (mkTracker (objects t) (<[gvr := <[ns := default [] (by_ns !! ns) ++ [fakewatcher]]> by_ns]> (watchers t))
     (fakes t ++ [mkFakeWatcher [] 0]), fakewatcher).

(** The client takes the next event out of the channel of a watch, if there is one. *)
Definition handle (w : nat) (t : tracker) : tracker * option (watch_event O) :=
  match fakes t !! w with
  | None => (t, None)
  | Some f =>
      match result f with
      | [] => (t, None)
      | ev :: _ => (mkTracker (objects t) (watchers t) (<[w := mkFakeWatcher (told f) (S (handled f))]> (fakes t)), Some ev)
      end
  end.

(** The order of [sort.Slice]: no element is less than one before it. *)
Definition name_le (p q : NamespacedName) : Prop :=
  if decide (p.1 = q.1) then String.le p.2 q.2 else String.le p.1 q.1.

#[global] Instance name_le_dec p q : Decision (name_le p q).
Proof. unfold name_le. destruct (decide (p.1 = q.1)); unfold String.le; apply _. Defined.

Definition meta_of (o : O) : NamespacedName := default ("", "") (Accessor o).

(** The loop of [filterByNamespace]. *)
Fixpoint matching (ns : string) (objs : list O) : option (list O) :=
  match objs with
  | [] => Some []
  | obj :: objs =>
      match Accessor obj with
      | None => None
      | Some acc =>
          res ← matching ns objs;
          Some (if decide (ns <> "" /\ acc.1 <> ns) then res else obj :: res)
      end
  end.

Definition filterByNamespace (objs : gmap NamespacedName O) (ns : string) : option (list O) :=
  res ← matching ns (range objs).*2;
  Some (merge_sort (fun o1 o2 => name_le (meta_of o1) (meta_of o2)) res).

Definition list_kind (gvk : GroupVersionKind) : GroupVersionKind :=
  mkGVK (k_Group gvk) (if decide (k_Version gvk = "") then APIVersionInternal else k_Version gvk) (Kind gvk +:+ "List").

Definition List (gvr : GroupVersionResource) (gvk : GroupVersionKind) (ns : string) (t : tracker) : O + api_error :=
  let listGVK := list_kind gvk in
  match New listGVK with
  | inr err => inr (Other err)
  | inl list =>
      if negb (IsListType list) then inr (Other "%q is not a list type")
      else
        match objects t !! gvr with
        | None => inl list
        | Some objs =>
            match filterByNamespace objs ns with
            | None => inr (Other "object does not implement the Object interfaces")
            | Some matchingObjs =>
                match SetList list matchingObjs with
                | inr err => inr (Other err)
                | inl list => inl list
                end
            end
        end
  end.

(** [Add] calls itself on the items of a list, which are smaller. *)
Fixpoint Add_kinds (gvks : list GroupVersionKind) (obj : O) (ns : string) (t : tracker) : tracker * option api_error :=
  match gvks with
  | [] => (t, None)
  | gvk :: gvks =>
      let gvr := UnsafeGuessKindToResource gvk in
      let gvr := mkGVR (Group gvr) (if decide (Version gvr = APIVersionInternal) then "" else Version gvr) (Resource gvr) in
      match add gvr obj ns false t with
      | (t, Some err) => (t, Some err)
      | (t, None) => Add_kinds gvks obj ns t
      end
  end.

Fixpoint add_items (add : O -> tracker -> tracker * option api_error) (items : list O) (t : tracker)
    : tracker * option api_error :=
  match items with
  | [] => (t, None)
  | obj :: items =>
      match add obj t with
      | (t, Some err) => (t, Some err)
      | (t, None) => add_items add items t
      end
  end.

Definition addList (add : O -> tracker -> tracker * option api_error) (obj : O) (t : tracker) : tracker * option api_error :=
  match ExtractList obj with
  | inr err => (t, Some (Other err))
  | inl items =>
      match DecodeList items with
      | inr err => (t, Some (Other err))
      | inl items => add_items add items t
      end
  end.

Fixpoint Add_fuel (fuel : nat) (obj : O) (t : tracker) : tracker * option api_error :=
  match fuel with
  | 0%nat => (t, Some (Other ""))
  | S fuel =>
      if IsListType obj then addList (Add_fuel fuel) obj t
      else
        match Accessor obj with
        | None => (t, Some (Other "object does not implement the Object interfaces"))
        | Some acc =>
            match ObjectKinds obj with
            | inr err => (t, Some (Other err))
            | inl gvks =>
                let gvks := match PartialObjectMetadata_kind obj with Some gvk => [gvk] | None => gvks end in
                match gvks with
                | [] => (t, Some (Other "no registered kinds for %v"))
                | _ => Add_kinds gvks obj acc.1 t
                end
            end
        end
  end.

Definition Add (obj : O) (t : tracker) : tracker * option api_error := Add_fuel (S (obj_size obj)) obj t.

End tracker.
Arguments tracker : clear implicits.
Arguments RaceFreeFakeWatcher : clear implicits.

(** ** Actions *)

Record ActionImpl : Type := mkActionImpl {
  GetNamespace : string;
  GetVerb : string;
  GetResource : GroupVersionResource;
  GetSubresource : string
}.

Inductive PatchType : Type :=
| JSONPatchType | MergePatchType | StrategicMergePatchType | ApplyPatchType | OtherPatchType (t : string).

(** Objects [O], list restrictions [R] (label and field selectors, and the version of a
    watch) and delete options [D]. *)
Inductive Action (O R D : Type) : Type :=
| GetActionImpl (a : ActionImpl) (Name : string)
| ListActionImpl (a : ActionImpl) (Kind : GroupVersionKind) (Name : string) (ListRestrictions : R)
| CreateActionImpl (a : ActionImpl) (Name : string) (Object : O)
| UpdateActionImpl (a : ActionImpl) (Object : O)
| PatchActionImpl (a : ActionImpl) (Name : string) (PatchType_ : PatchType) (Patch : string)
| DeleteActionImpl (a : ActionImpl) (Name : string) (DeleteOptions : D)
| DeleteCollectionActionImpl (a : ActionImpl) (ListRestrictions : R)
| WatchActionImpl (a : ActionImpl) (WatchRestrictions : R)
| ProxyGetActionImpl (a : ActionImpl) (Scheme Name Port Path : string) (Params : gmap string string).
Arguments GetActionImpl {O R D}.
Arguments ListActionImpl {O R D}.
Arguments CreateActionImpl {O R D}.
Arguments UpdateActionImpl {O R D}.
Arguments PatchActionImpl {O R D}.
Arguments DeleteActionImpl {O R D}.
Arguments DeleteCollectionActionImpl {O R D}.
Arguments WatchActionImpl {O R D}.
Arguments ProxyGetActionImpl {O R D}.

Section actions.
Context {O R D : Type}.
Implicit Types (resource : GroupVersionResource) (namespace name subresource : string).

Definition impl (action : Action O R D) : ActionImpl :=
  match action with
  | GetActionImpl a _ | ListActionImpl a _ _ _ | CreateActionImpl a _ _ | UpdateActionImpl a _ | PatchActionImpl a _ _ _
  | DeleteActionImpl a _ _ | DeleteCollectionActionImpl a _ | WatchActionImpl a _ | ProxyGetActionImpl a _ _ _ _ _ => a
  end.

Definition NewGetSubresourceAction resource namespace subresource name : Action O R D :=
  GetActionImpl (mkActionImpl namespace "get" resource subresource) name.
Definition NewGetAction resource namespace name : Action O R D := NewGetSubresourceAction resource namespace "" name.
Definition NewRootGetAction resource name : Action O R D := NewGetAction resource "" name.
Definition NewRootGetSubresourceAction resource subresource name : Action O R D :=
  NewGetSubresourceAction resource "" subresource name.

Definition NewCreateSubresourceAction resource name subresource namespace (object : O) : Action O R D :=
  CreateActionImpl (mkActionImpl namespace "create" resource subresource) name object.
Definition NewCreateAction resource namespace (object : O) : Action O R D :=
  NewCreateSubresourceAction resource "" "" namespace object.
Definition NewRootCreateAction resource (object : O) : Action O R D := NewCreateAction resource "" object.
Definition NewRootCreateSubresourceAction resource name subresource (object : O) : Action O R D :=
  NewCreateSubresourceAction resource name subresource "" object.

Definition NewUpdateSubresourceAction resource subresource namespace (object : O) : Action O R D :=
  UpdateActionImpl (mkActionImpl namespace "update" resource subresource) object.
Definition NewUpdateAction resource namespace (object : O) : Action O R D :=
  NewUpdateSubresourceAction resource "" namespace object.
Definition NewRootUpdateAction resource (object : O) : Action O R D := NewUpdateAction resource "" object.
Definition NewRootUpdateSubresourceAction resource subresource (object : O) : Action O R D :=
  NewUpdateSubresourceAction resource subresource "" object.

Definition NewPatchAction resource namespace name (pt : PatchType) (patch : string) : Action O R D :=
  PatchActionImpl (mkActionImpl namespace "patch" resource "") name pt patch.
Definition NewRootPatchAction resource name (pt : PatchType) (patch : string) : Action O R D :=
  NewPatchAction resource "" name pt patch.

Definition NewDeleteActionWithOptions resource namespace name (opts : D) : Action O R D :=
  DeleteActionImpl (mkActionImpl namespace "delete" resource "") name opts.
Definition NewRootDeleteActionWithOptions resource name (opts : D) : Action O R D :=
  NewDeleteActionWithOptions resource "" name opts.

(** The code parses the restrictions out of list options. *)
Definition NewListAction resource (kind : GroupVersionKind) namespace (restrictions : R) : Action O R D :=
  ListActionImpl (mkActionImpl namespace "list" resource "") kind "" restrictions.
Definition NewRootListAction resource (kind : GroupVersionKind) (restrictions : R) : Action O R D :=
  NewListAction resource kind "" restrictions.
Definition NewDeleteCollectionAction resource namespace (restrictions : R) : Action O R D :=
  DeleteCollectionActionImpl (mkActionImpl namespace "delete-collection" resource "") restrictions.
Definition NewRootDeleteCollectionAction resource (restrictions : R) : Action O R D :=
  NewDeleteCollectionAction resource "" restrictions.
Definition NewWatchAction resource namespace (restrictions : R) : Action O R D :=
  WatchActionImpl (mkActionImpl namespace "watch" resource "") restrictions.
Definition NewRootWatchAction resource (restrictions : R) : Action O R D := NewWatchAction resource "" restrictions.
Definition NewProxyGetAction resource namespace (scheme : string) name (port path : string) (params : gmap string string)
    : Action O R D :=
  ProxyGetActionImpl (mkActionImpl namespace "get" resource "") scheme name port path params.

End actions.

(** ** Reactions *)

(** [strings.Index] of a slash, with what is before and after it. *)
Fixpoint cut_slash (s : string) : option (string * string) :=
  match s with
  | EmptyString => None
  | String c s =>
      if Ascii.eqb c "/"%char then Some (EmptyString, s)
      else '(before, after) ← cut_slash s; Some (String c before, after)
  end.

Definition resourceCovers {O R D} (resource : string) (action : Action O R D) : bool :=
  let a := impl action in
  if decide (resource = "*") then true
  else if decide (resource = Resource (GetResource a)) then true
  else
    match cut_slash resource with
    | Some (before, after) => bool_decide (before = Resource (GetResource a) /\ after = GetSubresource a)
    | None => false
    end.

Section reactions.
Context {O R D : Type} `{Objects O} `{MapRange}.

(** Marshalling, patching and unmarshalling of an object. *)
Variables JSONPatch MergePatch StrategicMergePatch : string -> O -> O + string.

Definition patched (pt : PatchType) (patch : string) (obj : O) : O + string :=
  match pt with
  | JSONPatchType => JSONPatch patch obj
  | MergePatchType => MergePatch patch obj
  | StrategicMergePatchType | ApplyPatchType => StrategicMergePatch patch obj
  | OtherPatchType _ => inr "PatchType is not supported"
  end.

(** [true, obj, err] of the code; an object and an error are never both there. *)
Definition ObjectReaction (action : Action O R D) (t : tracker O) : tracker O * (bool * option O * option api_error) :=
  let ns := GetNamespace (impl action) in
  let gvr := GetResource (impl action) in
  let answer res : bool * option O * option api_error :=
    match res with inl obj => (true, Some obj, None) | inr err => (true, None, Some err) end in
  match action with
  | ListActionImpl _ kind _ _ => (t, answer (List gvr kind ns t))
  | GetActionImpl _ name => (t, answer (Get gvr ns name t))
  | CreateActionImpl a _ object =>
      match Accessor object with
      | None => (t, (true, None, Some (Other "object does not implement the Object interfaces")))
      | Some (_, name) =>
          if decide (GetSubresource a = "") then
            match Create gvr object ns t with
            | (t, Some err) => (t, (true, None, Some err))
            | (t, None) => (t, answer (Get gvr ns name t))
            end
          else
            match Get gvr ns name t with
            | inr err => (t, (true, None, Some err))
            | inl oldObj =>
                if decide (TypeOf oldObj = TypeOf object) then
                  match Update gvr object ns t with
                  | (t, Some err) => (t, (true, None, Some err))
                  | (t, None) => (t, answer (Get gvr ns name t))
                  end
                else (t, (true, Some object, None))
            end
      end
  | UpdateActionImpl _ object =>
      match Accessor object with
      | None => (t, (true, None, Some (Other "object does not implement the Object interfaces")))
      | Some (_, name) =>
          match Update gvr object ns t with
          | (t, Some err) => (t, (true, None, Some err))
          | (t, None) => (t, answer (Get gvr ns name t))
          end
      end
  | DeleteActionImpl _ name _ =>
      match Delete gvr ns name t with
      | (t, Some err) => (t, (true, None, Some err))
      | (t, None) => (t, (true, None, None))
      end
  | PatchActionImpl _ name pt patch =>
      match Get gvr ns name t with
      | inr err => (t, (true, None, Some err))
      | inl obj =>
          match patched pt patch obj with
          | inr err => (t, (true, None, Some (Other err)))
          | inl obj =>
              match Update gvr obj ns t with
              | (t, Some err) => (t, (true, None, Some err))
              | (t, None) => (t, (true, Some obj, None))
              end
          end
      end
  | DeleteCollectionActionImpl _ _ | WatchActionImpl _ _ | ProxyGetActionImpl _ _ _ _ _ _ =>
      (t, (false, None, Some (Other "no reaction implemented for %s")))
  end.

(** ** The fake client *)

(** Reactors over a world [W] that their functions share: the first that handles an
    action and says so answers it.  [A] is what is asked, [B] what is answered. *)
Record Reactor (W A B : Type) : Type := mkReactor {
  Handles : A -> bool;
  React : A -> W -> W * (bool * B)
}.
Arguments mkReactor {W A B}.
Arguments Handles {W A B}.
Arguments React {W A B}.

Section fake.
Context {W B : Type}.

Definition SimpleReactor (Verb Resource : string) (Reaction : Action O R D -> W -> W * (bool * B)) : Reactor W (Action O R D) B :=
  mkReactor
    (fun action =>
       let verbCovers := (bool_decide (Verb = "*") || bool_decide (Verb = GetVerb (impl action)))%bool in
       if negb verbCovers then false else resourceCovers Resource action)
    Reaction.

Definition SimpleWatchReactor (Resource : string) (Reaction : Action O R D -> W -> W * (bool * B))
    : Reactor W (Action O R D) B :=
  mkReactor (resourceCovers Resource) Reaction.

(** One kind of invocation of [Fake]: its actions and its chain. *)
Record Fake : Type := mkFake { actions : list (Action O R D); ReactionChain : list (Reactor W (Action O R D) B) }.

Definition AddReactor (reactor : Reactor W (Action O R D) B) (c : Fake) : Fake :=
  mkFake (actions c) (ReactionChain c ++ [reactor]).

Definition PrependReactor (reactor : Reactor W (Action O R D) B) (c : Fake) : Fake :=
  mkFake (actions c) (reactor :: ReactionChain c).

Definition ClearActions (c : Fake) : Fake := mkFake [] (ReactionChain c).

Fixpoint try_reactors (chain : list (Reactor W (Action O R D) B)) (action : Action O R D) (default_ : B) (w : W) : W * B :=
  match chain with
  | [] => (w, default_)
  | reactor :: chain =>
      if negb (Handles reactor action) then try_reactors chain action default_ w
      else
        match React reactor action w with
        | (w, (false, _)) => try_reactors chain action default_ w
        | (w, (true, ret)) => (w, ret)
        end
  end.

(** [Invokes], and [InvokesWatch] with the error of an unhandled watch for a default. *)
Definition Invokes (action : Action O R D) (defaultReturn : B) (w : W) (c : Fake) : W * Fake * B :=
  let '(w, ret) := try_reactors (ReactionChain c) action defaultReturn w in
  (w, mkFake (actions c ++ [action]) (ReactionChain c), ret).

End fake.

(** What [NewSimpleClientset] puts together: every verb and resource goes to the
    tracker, and a watch is a watch of the tracker. *)
Definition tracker_reactor : Reactor (tracker O) (Action O R D) (option O * option api_error) :=
  SimpleReactor "*" "*" (fun action t =>
    let '(t, (handled, ret, err)) := ObjectReaction action t in (t, (handled, (ret, err)))).

Definition tracker_watch_reactor : Reactor (tracker O) (Action O R D) (option nat) :=
  SimpleWatchReactor "*" (fun action t =>
    let '(t, watcher) := Watch (GetResource (impl action)) (GetNamespace (impl action)) t in (t, (true, Some watcher))).

End reactions.

(** ** Executions *)

Section executions.
Context {O : Type} `{Objects O} `{MapRange}.

(** What a client asks of the tracker, and what it sees of the answer: of a list, its
    items. *)
Inductive request : Type :=
| RCreate (gvr : GroupVersionResource) (obj : O) (ns : string)
| RUpdate (gvr : GroupVersionResource) (obj : O) (ns : string)
| RDelete (gvr : GroupVersionResource) (ns name : string)
| RGet (gvr : GroupVersionResource) (ns name : string)
| RList (gvr : GroupVersionResource) (gvk : GroupVersionKind) (ns : string)
| RWatch (gvr : GroupVersionResource) (ns : string)
| RHandle (w : nat)
| RAdd (obj : O).

Inductive answer : Type :=
| Done
| Failed (err : api_error)
| Object (o : O)
| Items (l : list O)
| Watcher (w : nat)
| Event (ev : watch_event O)
| NoEvent.

Definition done (res : tracker O * option api_error) : tracker O * answer :=
  match res with (t, None) => (t, Done) | (t, Some err) => (t, Failed err) end.

Definition serve (r : request) (t : tracker O) : tracker O * answer :=
  match r with
  | RCreate gvr obj ns => done (Create gvr obj ns t)
  | RUpdate gvr obj ns => done (Update gvr obj ns t)
  | RDelete gvr ns name => done (Delete gvr ns name t)
  | RGet gvr ns name => (t, match Get gvr ns name t with inl o => Object o | inr err => Failed err end)
  | RList gvr gvk ns =>
      (t, match List gvr gvk ns t with
          | inl list => match ExtractList list with inl items => Items items | inr err => Failed (Other err) end
          | inr err => Failed err
          end)
  | RWatch gvr ns => let '(t, w) := Watch gvr ns t in (t, Watcher w)
  | RHandle w => let '(t, ev) := handle w t in (t, match ev with Some ev => Event ev | None => NoEvent end)
  | RAdd obj => done (Add obj t)
  end.

Definition serve_all (rs : list request) (t : tracker O) : tracker O := fold_left (fun t r => (serve r t).1) rs t.

Fixpoint answers (rs : list request) (t : tracker O) : list answer :=
  match rs with
  | [] => []
  | r :: rs => let '(t, a) := serve r t in a :: answers rs t
  end.

(** What a list or a watch of a resource is about: [""] is all namespaces. *)
Definition in_namespace (ns : string) (nn : NamespacedName) : Prop := ns = "" \/ nn.1 = ns.

#[global] Instance in_namespace_dec ns nn : Decision (in_namespace ns nn).
Proof. unfold in_namespace. apply _. Defined.

Definition view (t : tracker O) (gvr : GroupVersionResource) (ns : string) : gmap NamespacedName O :=
  filter (fun kv => in_namespace ns kv.1) (default ∅ (objects t !! gvr)).

(** What a client that has the objects [m] makes of the events of a watch; [None] is an
    event that does not fit. *)
Definition apply_event (ev : watch_event O) (m : gmap NamespacedName O) : option (gmap NamespacedName O) :=
  match ev with
  | Added o => if decide (m !! meta_of o = None) then Some (<[meta_of o := o]> m) else None
  | Modified o => if decide (is_Some (m !! meta_of o)) then Some (<[meta_of o := o]> m) else None
  | Deleted o => if decide (is_Some (m !! meta_of o)) then Some (delete (meta_of o) m) else None
  end.

Fixpoint replay (evs : list (watch_event O)) (m : gmap NamespacedName O) : option (gmap NamespacedName O) :=
  match evs with
  | [] => Some m
  | ev :: evs => m ← apply_event ev m; replay evs m
  end.

End executions.
Arguments request : clear implicits.
Arguments answer : clear implicits.

(** ** Lemmas *)

Section tracker_lemmas.
Context {O : Type} `{Objects O} `{MapRange}.
Implicit Types (t : tracker O) (gvr : GroupVersionResource) (ns name : string).

(** The object at a place. *)
Definition look t gvr (nn : NamespacedName) : option O := objects t !! gvr ≫= (.!! nn).

(** An object as it is stored. *)
Definition placed ns (obj : O) : O :=
  match Accessor obj with
  | Some (obj_ns, _) => if decide (obj_ns = "") then SetNamespace ns obj else obj
  | None => obj
  end.

(** The two effects of an accepted write. *)
Definition put gvr (nn : NamespacedName) (obj : O) (ev : watch_event O) t : tracker O :=
  mkTracker (<[gvr := <[nn := obj]> (default ∅ (objects t !! gvr))]> (objects t)) (watchers t)
    (tell (getWatches gvr nn.1 t) ev (fakes t)).1.

Lemma put_told gvr nn obj ev t fs panic :
  tell (getWatches gvr nn.1 t) ev (fakes t) = (fs, panic) ->
  put gvr nn obj ev t = mkTracker (<[gvr := <[nn := obj]> (default ∅ (objects t !! gvr))]> (objects t)) (watchers t) fs.
Proof. intros E. unfold put. by rewrite E. Qed.

Lemma look_default t gvr nn : default ∅ (objects t !! gvr) !! nn = look t gvr nn.
Proof. unfold look. by destruct (objects t !! gvr). Qed.

Lemma look_put t gvr nn obj ev gvr' nn' :
  look (put gvr nn obj ev t) gvr' nn' = if decide (gvr' = gvr /\ nn' = nn) then Some obj else look t gvr' nn'.
Proof.
  unfold look, put. cbn. destruct (decide (gvr' = gvr)) as [->|Hne].
  - rewrite lookup_insert_eq. cbn. destruct (decide (nn' = nn)) as [->|Hnn].
    + by rewrite lookup_insert_eq, decide_True.
    + rewrite lookup_insert_ne by done. rewrite decide_False by naive_solver. apply look_default.
  - rewrite lookup_insert_ne by done. by rewrite decide_False by naive_solver.
Qed.

Lemma tell_result ws (ev : watch_event O) fs fs' e : tell ws ev fs = (fs', Some e) -> e = Panicked.
Proof. revert fs. induction ws as [|w ws IH]; intros fs; cbn; [done|]. destruct (default _ _); [by intros [= _ <-]|apply IH]. Qed.

(** The outcomes of [add]. *)
Inductive add_outcome gvr (obj : O) ns (replaceExisting : bool) t : tracker O * option api_error -> Prop :=
| add_no_meta e : Accessor obj = None -> add_outcome gvr obj ns replaceExisting t (t, Some (Other e))
| add_mismatch nn e : Accessor obj = Some nn -> nn.1 <> "" -> nn.1 <> ns ->
    add_outcome gvr obj ns replaceExisting t (t, Some (BadRequest e))
| add_refused nn t' : Accessor obj = Some nn -> nn.1 = "" \/ nn.1 = ns ->
    (if replaceExisting then look t gvr (ns, nn.2) = None else is_Some (look t gvr (ns, nn.2))) ->
    (forall gvr' nn', look t' gvr' nn' = look t gvr' nn') -> watchers t' = watchers t -> fakes t' = fakes t ->
    add_outcome gvr obj ns replaceExisting t
      (t', Some (if replaceExisting then NotFound gvr nn.2 else AlreadyExists gvr nn.2))
| add_panics nn t' ev : Accessor obj = Some nn -> nn.1 = "" \/ nn.1 = ns ->
    (if replaceExisting then is_Some (look t gvr (ns, nn.2)) else look t gvr (ns, nn.2) = None) ->
    ev = (if replaceExisting then Modified (placed ns obj) else Added (placed ns obj)) ->
    (tell (getWatches gvr ns t) ev (fakes t)).2 = Some Panicked ->
    (forall gvr' nn', look t' gvr' nn' = look (if replaceExisting then t else put gvr (ns, nn.2) (placed ns obj) ev t) gvr' nn') ->
    watchers t' = watchers t -> fakes t' = (tell (getWatches gvr ns t) ev (fakes t)).1 ->
    add_outcome gvr obj ns replaceExisting t (t', Some Panicked)
| add_done nn : Accessor obj = Some nn -> nn.1 = "" \/ nn.1 = ns ->
    (if replaceExisting then is_Some (look t gvr (ns, nn.2)) else look t gvr (ns, nn.2) = None) ->
    (tell (getWatches gvr ns t) (if replaceExisting then Modified (placed ns obj) else Added (placed ns obj)) (fakes t)).2 = None ->
    add_outcome gvr obj ns replaceExisting t
      (put gvr (ns, nn.2) (placed ns obj) (if replaceExisting then Modified (placed ns obj) else Added (placed ns obj)) t, None).

Lemma add_cases gvr obj ns replaceExisting t : add_outcome gvr obj ns replaceExisting t (add gvr obj ns replaceExisting t).
Proof.
  unfold add. destruct (Accessor obj) as [[obj_ns name]|] eqn:Hacc; [|by apply add_no_meta].
  assert (Hplaced : (if decide (obj_ns = "") then SetNamespace ns obj else obj) = placed ns obj) by (unfold placed; by rewrite Hacc).
  rewrite Hplaced. set (obj_ns' := if decide (obj_ns = "") then ns else obj_ns).
  destruct (decide (ns <> obj_ns')) as [Hne|Heq%dec_stable].
  { apply (add_mismatch _ _ _ _ _ (obj_ns, name)); subst obj_ns'; destruct (decide (obj_ns = "")); cbn; congruence. }
  assert (Hns : obj_ns = "" \/ obj_ns = ns) by (subst obj_ns'; destruct (decide (obj_ns = "")); auto).
  rewrite <- Heq, look_default. clear obj_ns' Heq.
  destruct (look t gvr (ns, name)) as [o|] eqn:El; destruct replaceExisting.
  - unfold tell_watches. change (getWatches gvr ns (set_objects _ t)) with (getWatches gvr ns t). cbn [fakes set_objects].
    destruct (tell _ (Modified (placed ns obj)) (fakes t)) as [fs [e|]] eqn:Et.
    + pose proof (tell_result _ _ _ _ _ Et) as ->. eapply (add_panics gvr obj ns true t (obj_ns, name)); cbn; eauto; rewrite ?Et; try done.
      intros gvr' nn'. unfold look. cbn. destruct (decide (gvr' = gvr)) as [->|Hne]; [|by rewrite lookup_insert_ne].
      rewrite lookup_insert_eq. apply look_default.
    + cbn [set_objects objects watchers fakes]. rewrite insert_insert_eq. unfold set_objects. cbn [watchers fakes]. rewrite <- (put_told gvr (ns, name) (placed ns obj) _ t _ _ Et).
      apply (add_done gvr obj ns true t (obj_ns, name)); cbn; eauto. by rewrite Et.
  - apply (add_refused gvr obj ns false t (obj_ns, name)); cbn; eauto. intros gvr' nn'. unfold look. cbn.
    destruct (decide (gvr' = gvr)) as [->|Hne]; [|by rewrite lookup_insert_ne].
    rewrite lookup_insert_eq. apply look_default.
  - apply (add_refused gvr obj ns true t (obj_ns, name)); cbn; eauto. intros gvr' nn'. unfold look. cbn.
    destruct (decide (gvr' = gvr)) as [->|Hne]; [|by rewrite lookup_insert_ne].
    rewrite lookup_insert_eq. apply look_default.
  - cbn [objects set_objects]. rewrite insert_insert_eq. unfold tell_watches.
    change (getWatches gvr ns (set_objects _ _)) with (getWatches gvr ns t). cbn [fakes set_objects objects watchers].
    destruct (tell _ (Added (placed ns obj)) (fakes t)) as [fs [e|]] eqn:Et.
    + pose proof (tell_result _ _ _ _ _ Et) as ->. by eapply (add_panics gvr obj ns false t (obj_ns, name)); cbn; eauto; rewrite ?Et.
    + rewrite <- (put_told gvr (ns, name) (placed ns obj) _ t _ _ Et).
      apply (add_done gvr obj ns false t (obj_ns, name)); cbn; eauto. by rewrite Et.
Qed.

Lemma Accessor_placed ns obj nn :
  Accessor obj = Some nn -> nn.1 = "" \/ nn.1 = ns -> Accessor (placed ns obj) = Some (ns, nn.2).
Proof.
  intros Ha Hns. unfold placed. rewrite Ha. destruct nn as [obj_ns name]. cbn in *.
  case_decide; [by rewrite (Accessor_SetNamespace _ _ _ Ha)|]. destruct Hns as [|<-]; [done|exact Ha].
Qed.

(** The outcomes of [Delete]. *)
Inductive delete_outcome gvr ns name t : tracker O * option api_error -> Prop :=
| delete_missing : look t gvr (ns, name) = None -> delete_outcome gvr ns name t (t, Some (NotFound gvr name))
| delete_done obj : look t gvr (ns, name) = Some obj ->
    delete_outcome gvr ns name t
      (mkTracker (<[gvr := delete (ns, name) (default ∅ (objects t !! gvr))]> (objects t)) (watchers t)
         (tell (getWatches gvr ns t) (Deleted obj) (fakes t)).1, (tell (getWatches gvr ns t) (Deleted obj) (fakes t)).2).

Lemma Delete_cases gvr ns name t : delete_outcome gvr ns name t (Delete gvr ns name t).
Proof.
  unfold Delete. destruct (objects t !! gvr) as [objs|] eqn:Eo.
  - destruct (objs !! (ns, name)) as [obj|] eqn:El.
    + unfold tell_watches, set_objects. cbn. change (getWatches gvr ns (mkTracker _ _ _)) with (getWatches gvr ns t).
      rewrite (surjective_pairing (tell _ _ _)). replace objs with (default ∅ (objects t !! gvr)) by (by rewrite Eo).
      refine (delete_done gvr ns name t obj _). unfold look. by rewrite Eo.
    + apply delete_missing. unfold look. by rewrite Eo.
  - apply delete_missing. unfold look. by rewrite Eo.
Qed.

End tracker_lemmas.

(** ** The invariant *)

Section invariant.
Context {O : Type} `{Objects O} `{MapRange}.
Implicit Types (t : tracker O) (gvr : GroupVersionResource) (ns name : string).

Definition registered t (w : nat) gvr ns : Prop := w ∈ default [] (default ∅ (watchers t !! gvr) !! ns).

(** Objects are where their metadata say, and a watcher is registered once. *)
Record tracker_ok t : Prop := {
  ok_place gvr nn o : look t gvr nn = Some o -> Accessor o = Some nn;
  ok_fake w gvr ns : registered t w gvr ns -> (w < length (fakes t))%nat;
  ok_once w gvr ns gvr' ns' : registered t w gvr ns -> registered t w gvr' ns' -> gvr = gvr' /\ ns = ns';
  ok_nodup gvr ns : NoDup (default [] (default ∅ (watchers t !! gvr) !! ns));
  ok_registered w : (w < length (fakes t))%nat -> exists gvr ns, registered t w gvr ns;
  ok_handled w f : fakes t !! w = Some f -> (handled f <= length (told f))%nat
}.

Lemma elem_of_getWatches t gvr ns w : w ∈ getWatches gvr ns t <-> registered t w gvr ns \/ registered t w gvr "".
Proof.
  unfold getWatches, registered, NamespaceAll. destruct (watchers t !! gvr) as [by_ns|]; cbn; [|set_solver].
  destruct (decide (ns <> "")) as [Hne|Hns%dec_stable]; rewrite elem_of_app; [done|subst ns; set_solver].
Qed.

Lemma NoDup_getWatches t gvr ns : tracker_ok t -> NoDup (getWatches gvr ns t).
Proof.
  intros Hok. unfold getWatches, NamespaceAll.
  pose proof (ok_nodup t Hok gvr) as Hnd. pose proof (ok_once t Hok) as Honce. unfold registered in Honce.
  destruct (watchers t !! gvr) as [by_ns|] eqn:Ew; [|apply NoDup_nil_2]. apply NoDup_app. split; [apply (Hnd ns)|].
  destruct (decide (ns <> "")) as [Hne|]; [|split; [set_solver|apply NoDup_nil_2]]. split; [|apply (Hnd "")].
  intros w Hw Hw'. destruct (Honce w gvr ns gvr ""); rewrite ?Ew; done.
Qed.

Lemma lookup_tell ws (ev : watch_event O) fs w : NoDup ws ->
  (tell ws ev fs).2 = None ->
  (tell ws ev fs).1 !! w = if decide (w ∈ ws) then send ev <$> fs !! w else fs !! w.
Proof.
  revert fs. induction ws as [|x ws IH]; intros fs Hnd; cbn [tell]; [by rewrite decide_False by set_solver|].
  destruct (default _ _); [done|]. intros Hn.
  apply NoDup_cons in Hnd as [Hx Hnd]. rewrite IH by done. destruct (decide (w = x)) as [->|Hne].
  - rewrite decide_False by done. rewrite decide_True by set_solver. by rewrite list_lookup_alter_eq.
  - rewrite list_lookup_alter_ne by done. destruct (decide (w ∈ ws)); [rewrite decide_True by set_solver|rewrite decide_False by set_solver]; done.
Qed.

(** When a channel is full, some of the watches may have been told. *)
Lemma lookup_tell_some ws (ev : watch_event O) fs w : NoDup ws ->
  (tell ws ev fs).1 !! w = fs !! w \/ w ∈ ws /\ (tell ws ev fs).1 !! w = send ev <$> fs !! w.
Proof.
  revert fs. induction ws as [|x ws IH]; intros fs Hnd; cbn [tell]; [by left|].
  destruct (default _ _); [by left|]. apply NoDup_cons in Hnd as [Hx Hnd]. destruct (IH (alter (send ev) x fs) Hnd) as [E|[Hw E]].
  - rewrite E. destruct (decide (w = x)) as [->|Hne]; [|left; by rewrite list_lookup_alter_ne].
    right. split; [set_solver|by rewrite list_lookup_alter_eq].
  - right. split; [set_solver|]. rewrite E, list_lookup_alter_ne; [done|]. by intros ->.
Qed.

(** A write panics exactly when a channel is full. *)
Lemma tell_panics ws (ev : watch_event O) fs : NoDup ws ->
  (tell ws ev fs).2 = None <-> forall w f, w ∈ ws -> fs !! w = Some f -> full f = false.
Proof.
  revert fs. induction ws as [|x ws IH]; intros fs Hnd; cbn [tell]; [split; [set_solver|done]|].
  apply NoDup_cons in Hnd as [Hx Hnd]. split.
  - destruct (default _ _) eqn:Ed; [done|]. intros Hn w f [->|Hw]%elem_of_cons Hf; [by rewrite Hf in Ed|].
    refine (proj1 (IH _ Hnd) Hn w f Hw _). rewrite list_lookup_alter_ne; [done|]. by intros ->.
  - intros Hall. destruct (default _ _) eqn:Ed.
    + destruct (fs !! x) as [f|] eqn:Hf; [|done]. cbn in Ed. rewrite (Hall x f) in Ed; set_solver.
    + apply IH; [done|]. intros w f Hw. rewrite list_lookup_alter_ne by (by intros ->). apply Hall. set_solver.
Qed.

Lemma length_tell ws (ev : watch_event O) fs : length (tell ws ev fs).1 = length fs.
Proof.
  revert fs. induction ws as [|w ws IH]; intros fs; cbn; [done|]. destruct (default _ _); [done|].
  by rewrite IH, length_alter.
Qed.

(** A write or a deletion leaves the watchers. *)
Lemma tracker_ok_objects t objs gvr0 ns0 ev :
  tracker_ok t -> (forall gvr nn o, (objs !! gvr ≫= (.!! nn)) = Some o -> Accessor o = Some nn) ->
  tracker_ok (mkTracker objs (watchers t) (tell (getWatches gvr0 ns0 t) ev (fakes t)).1).
Proof.
  intros Hok Hobjs. pose proof (NoDup_getWatches t gvr0 ns0 Hok) as Hnd. destruct Hok as [Hp Hf Ho Hn Hr Hh].
  constructor; cbn; [exact Hobjs| |exact Ho|exact Hn| |].
  - intros w gvr ns Hw. rewrite length_tell. by apply (Hf w gvr ns).
  - intros w. rewrite length_tell. apply Hr.
  - intros w f. destruct (lookup_tell_some (getWatches gvr0 ns0 t) ev (fakes t) w Hnd) as [->|[_ ->]]; [apply Hh|].
    destruct (fakes t !! w) as [f'|] eqn:Ef; [|done]. cbn. intros [= <-]. cbn. rewrite length_app. apply Hh in Ef. lia.
Qed.

Lemma tracker_ok_put t gvr nn obj ev : tracker_ok t -> Accessor obj = Some nn -> tracker_ok (put gvr nn obj ev t).
Proof.
  intros Hok Ha. apply tracker_ok_objects; [done|]. intros gvr' nn' o Ho.
  assert (Hl : look (put gvr nn obj ev t) gvr' nn' = Some o) by exact Ho. rewrite look_put in Hl.
  destruct (decide _) as [[-> ->]|_]; [congruence|]. by apply (ok_place t Hok gvr').
Qed.

Lemma tracker_ok_same t t' :
  tracker_ok t -> (forall gvr nn, look t' gvr nn = look t gvr nn) -> watchers t' = watchers t -> fakes t' = fakes t ->
  tracker_ok t'.
Proof.
  intros [Hp Hf Ho Hn Hr Hh] Hl Hw Hfk. constructor.
  - intros gvr nn o. rewrite Hl. apply Hp.
  - intros w gvr ns. unfold registered. rewrite Hw, Hfk. apply Hf.
  - intros w gvr ns gvr' ns'. unfold registered. rewrite Hw. apply Ho.
  - intros gvr ns. rewrite Hw. apply Hn.
  - intros w. rewrite Hfk. unfold registered. rewrite Hw. apply Hr.
  - intros w f. rewrite Hfk. apply Hh.
Qed.

Lemma registered_Watch t gvr ns w gvr' ns' :
  registered (Watch gvr ns t).1 w gvr' ns' <-> registered t w gvr' ns' \/ (w = length (fakes t) /\ gvr' = gvr /\ ns' = ns).
Proof.
  unfold registered, Watch. cbn. destruct (decide (gvr' = gvr)) as [->|Hne].
  - rewrite lookup_insert_eq. cbn. destruct (decide (ns' = ns)) as [->|Hns].
    + rewrite lookup_insert_eq. cbn. rewrite elem_of_app, list_elem_of_singleton. naive_solver.
    + rewrite lookup_insert_ne by done. naive_solver.
  - rewrite lookup_insert_ne by done. naive_solver.
Qed.

Lemma tracker_ok_Watch t gvr ns : tracker_ok t -> tracker_ok (Watch gvr ns t).1.
Proof.
  intros [Hp Hf Ho Hn Hreg Hh]. constructor.
  - exact Hp.
  - intros w gvr' ns' [Hw|(-> & _ & _)]%registered_Watch; cbn; rewrite length_app; cbn; [apply Hf in Hw|]; lia.
  - intros w gvr1 ns1 gvr2 ns2 [H1|(-> & -> & ->)]%registered_Watch [H2|(E2 & -> & ->)]%registered_Watch; [by apply (Ho w)|..|done].
    + apply Hf in H1. lia.
    + apply Hf in H2. lia.
  - intros gvr' ns'. cbn. destruct (decide (gvr' = gvr)) as [->|Hne]; [|by rewrite lookup_insert_ne].
    rewrite lookup_insert_eq. cbn. destruct (decide (ns' = ns)) as [->|Hns]; [|by rewrite lookup_insert_ne].
    rewrite lookup_insert_eq. cbn. apply NoDup_snoc; [apply Hn|]. intros Hw. apply (Hf _ gvr ns) in Hw. lia.
  - intros w Hw. cbn in Hw. rewrite length_app in Hw. cbn in Hw. destruct (decide (w = length (fakes t))) as [->|Hne].
    + exists gvr, ns. apply registered_Watch. by right.
    + destruct (Hreg w ltac:(lia)) as (g & n & Hr). exists g, n. apply registered_Watch. by left.
  - intros w f. cbn. intros [Hl|[_ Hl]]%lookup_app_Some; [by apply (Hh w)|].
    apply list_lookup_singleton_Some in Hl as [_ <-]. cbn. lia.
Qed.

Lemma handle_cases w t :
  (handle w t = (t, None) /\ default [] (result <$> fakes t !! w) = []) \/
  exists f ev, fakes t !! w = Some f /\ told f !! handled f = Some ev /\
    handle w t = (mkTracker (objects t) (watchers t) (<[w := mkFakeWatcher (told f) (S (handled f))]> (fakes t)), Some ev).
Proof.
  unfold handle. destruct (fakes t !! w) as [f|]; [|by left]. destruct (result f) as [|ev l] eqn:Er; [by left|].
  right. exists f, ev. split_and!; [done| |done]. unfold result in Er. rewrite <- (Nat.add_0_r (handled f)).
  by rewrite <- lookup_drop, Er.
Qed.

Lemma tracker_ok_handle w t : tracker_ok t -> tracker_ok (handle w t).1.
Proof.
  intros Hok. destruct (handle_cases w t) as [[-> _]|(f & ev & Hf & Hev & ->)]; [done|]. destruct Hok as [Hp Hfk Ho Hn Hreg Hh].
  constructor; cbn; [exact Hp| |exact Ho|exact Hn| |].
  - intros w' gvr ns Hw. rewrite length_insert. by apply (Hfk w' gvr ns).
  - intros w'. rewrite length_insert. apply Hreg.
  - intros w' f' [(-> & <- & _)|[_ Hf']]%list_lookup_insert_Some; [|by apply (Hh w')].
    cbn. apply lookup_lt_Some in Hev. lia.
Qed.

(** ** One change, as a watcher sees it *)

Lemma lookup_view t gvr ns nn : view t gvr ns !! nn = if decide (in_namespace ns nn) then look t gvr nn else None.
Proof.
  unfold view. rewrite map_lookup_filter, look_default.
  destruct (look t gvr nn) as [o|]; cbn; [|by case_decide]. destruct (decide (in_namespace ns nn)); [by rewrite option_guard_True|by rewrite option_guard_False].
Qed.

(** What a step may do to a watcher: tell it events that lead from what it saw to what
    it should see. *)
Definition sees t t' (w : nat) gvr ns : Prop :=
  exists evs, told <$> fakes t' !! w = (fun l => l ++ evs) <$> (told <$> fakes t !! w) /\ replay evs (view t gvr ns) = Some (view t' gvr ns).

Lemma replay_app (evs1 evs2 : list (watch_event O)) m : replay (evs1 ++ evs2) m = replay evs1 m ≫= replay evs2.
Proof.
  revert m. induction evs1 as [|ev evs1 IH]; intros m; cbn; [done|].
  destruct (apply_event ev m) as [m'|]; cbn; [apply IH|done].
Qed.

Lemma sees_trans t1 t2 t3 w gvr ns : sees t1 t2 w gvr ns -> sees t2 t3 w gvr ns -> sees t1 t3 w gvr ns.
Proof.
  intros (e1 & H1 & R1) (e2 & H2 & R2). exists (e1 ++ e2). rewrite H2, H1, replay_app, R1. split; [|done].
  destruct (fakes t1 !! w) as [f|]; cbn; [by rewrite <- app_assoc|done].
Qed.

Lemma sees_same t t' w gvr ns :
  (forall nn, look t' gvr nn = look t gvr nn) -> told <$> fakes t' !! w = told <$> fakes t !! w -> sees t t' w gvr ns.
Proof.
  intros Hl Hf. exists []. rewrite Hf. split.
  - destruct (fakes t !! w) as [f|]; cbn; [by rewrite app_nil_r|done].
  - cbn. f_equal. apply map_eq. intros nn. rewrite !lookup_view, Hl. done.
Qed.

(** A change of one place, told to its watchers. *)
Lemma sees_change t t' w gvr ns gvr0 nn0 ev :
  tracker_ok t -> registered t w gvr ns ->
  fakes t' = (tell (getWatches gvr0 nn0.1 t) ev (fakes t)).1 -> (tell (getWatches gvr0 nn0.1 t) ev (fakes t)).2 = None ->
  (forall gvr' nn', ~ (gvr' = gvr0 /\ nn' = nn0) -> look t' gvr' nn' = look t gvr' nn') ->
  (forall m, m !! nn0 = look t gvr0 nn0 -> exists m', apply_event ev m = Some m' /\ m' !! nn0 = look t' gvr0 nn0 /\
     forall nn, nn <> nn0 -> m' !! nn = m !! nn) ->
  sees t t' w gvr ns.
Proof.
  intros Hok Hw Hf Hpanic Hother Hev.
  assert (Hin : w ∈ getWatches gvr0 nn0.1 t <-> gvr = gvr0 /\ in_namespace ns nn0).
  { rewrite elem_of_getWatches. unfold in_namespace. split.
    - intros [Hr|Hr]; destruct (ok_once t Hok _ _ _ _ _ Hw Hr) as [-> ->]; auto.
    - intros [-> [->| <-]]; auto. }
  pose proof (lookup_tell (getWatches gvr0 nn0.1 t) ev (fakes t) w (NoDup_getWatches t gvr0 nn0.1 Hok) Hpanic) as Htell.
  destruct (decide (w ∈ getWatches gvr0 nn0.1 t)) as [Hi|Hi].
  - destruct (proj1 Hin Hi) as [-> Hns]. exists [ev]. split; [rewrite Hf, Htell; by destruct (fakes t !! w)|]. cbn.
    destruct (Hev (view t gvr0 ns)) as (m' & -> & Hm & Hrest); [by rewrite lookup_view, decide_True|]. cbn. f_equal.
    apply map_eq. intros nn. rewrite lookup_view. destruct (decide (nn = nn0)) as [->|Hne].
    + by rewrite Hm, decide_True.
    + rewrite Hrest, lookup_view, Hother by naive_solver. done.
  - exists []. split; [rewrite Hf, Htell; destruct (fakes t !! w); cbn; [by rewrite app_nil_r|done]|]. cbn. f_equal.
    apply map_eq. intros nn. rewrite !lookup_view. case_decide; [|done]. symmetry. apply Hother. intros [-> ->]. by apply Hi, Hin.
Qed.

(** A step that keeps the invariant, and every watcher informed unless it panics. *)
Definition good_step t t' (panics : Prop) : Prop :=
  tracker_ok t' /\ forall w gvr ns, registered t w gvr ns -> registered t' w gvr ns /\ (~ panics -> sees t t' w gvr ns).

Abbreviation good_result t res := (good_step t res.1 (res.2 = Some Panicked)).

Lemma good_step_refl t P : tracker_ok t -> good_step t t P.
Proof. intros Hok. split; [done|]. intros w gvr ns Hw. split; [done|]. intros _. by apply sees_same. Qed.

Lemma good_step_trans t1 t2 t3 P Q : good_step t1 t2 P -> good_step t2 t3 Q -> good_step t1 t3 (P \/ Q).
Proof.
  intros [_ H1] [Hok H2]. split; [done|]. intros w gvr ns Hw. destruct (H1 w gvr ns Hw) as [Hw2 S1].
  destruct (H2 w gvr ns Hw2) as [Hw3 S2]. split; [done|]. intros Hno. eapply sees_trans; [apply S1; tauto|apply S2; tauto].
Qed.

Lemma good_step_weaken t1 t2 (P Q : Prop) : (P -> Q) -> good_step t1 t2 P -> good_step t1 t2 Q.
Proof. intros Hpq [Hok Hs]. split; [done|]. intros w gvr ns Hw. destruct (Hs w gvr ns Hw). split; [done|tauto]. Qed.

Lemma add_good gvr obj ns replaceExisting t : tracker_ok t -> good_result t (add gvr obj ns replaceExisting t).
Proof.
  intros Hok. destruct (add_cases gvr obj ns replaceExisting t)
    as [| |nn t' Ha Hns Hlook Hl Hw Hf|nn t' ev Ha Hns Hlook Hev Hpanic Hl Hw Hf|nn Ha Hns Hlook Hpanic]; cbn;
    [by apply good_step_refl..| | |].
  - split; [by apply (tracker_ok_same t)|]. intros w gvr' ns' Hr. split; [unfold registered in *; by rewrite Hw|].
    intros _. apply sees_same; [done|by rewrite Hf].
  - split; [|intros w gvr' ns' Hr; split; [unfold registered in *; by rewrite Hw|done]].
    apply (tracker_ok_same (if replaceExisting then mkTracker (objects t) (watchers t) (tell (getWatches gvr ns t) ev (fakes t)).1
      else put gvr (ns, nn.2) (placed ns obj) ev t)); [|by destruct replaceExisting..].
    destruct replaceExisting; [apply tracker_ok_objects; [done|apply (ok_place t Hok)]|].
    apply tracker_ok_put; [done|by apply (Accessor_placed ns obj nn)].
  - pose proof (Accessor_placed ns obj nn Ha Hns) as Hp. split; [by apply tracker_ok_put|].
    intros w gvr' ns' Hr. split; [done|]. intros _. apply (sees_change t _ w gvr' ns' gvr (ns, nn.2)
      (if replaceExisting then Modified (placed ns obj) else Added (placed ns obj))); [done|done|done|done|..].
    + intros gvr1 nn1 Hne. rewrite look_put. by rewrite decide_False.
    + intros m Hm. exists (<[(ns, nn.2) := placed ns obj]> m).
      assert (Hmeta : meta_of (placed ns obj) = (ns, nn.2)) by (unfold meta_of; by rewrite Hp).
      split; [|split; [by rewrite lookup_insert_eq, look_put, decide_True|intros; by rewrite lookup_insert_ne]].
      destruct replaceExisting; cbn; rewrite Hmeta, Hm; by rewrite decide_True.
Qed.

Lemma Delete_good gvr ns name t : tracker_ok t -> good_result t (Delete gvr ns name t).
Proof.
  intros Hok. destruct (Delete_cases gvr ns name t) as [Hl|obj Hl]; cbn; [by apply good_step_refl|].
  set (t' := mkTracker _ _ _).
  assert (Hlook : forall gvr' nn', look t' gvr' nn' = if decide (gvr' = gvr /\ nn' = (ns, name)) then None else look t gvr' nn').
  { intros gvr' nn'. unfold t', look. cbn. destruct (decide (gvr' = gvr)) as [->|Hne].
    - rewrite lookup_insert_eq. cbn. destruct (decide (nn' = (ns, name))) as [->|Hnn].
      + by rewrite lookup_delete_eq, decide_True.
      + rewrite lookup_delete_ne by done. rewrite decide_False by naive_solver. apply look_default.
    - rewrite lookup_insert_ne by done. by rewrite decide_False by naive_solver. }
  pose proof (ok_place t Hok gvr _ _ Hl) as Hacc.
  split.
  - apply tracker_ok_objects; [done|]. intros gvr' nn' o Ho. assert (Hl' : look t' gvr' nn' = Some o) by exact Ho.
    rewrite Hlook in Hl'. destruct (decide _); [done|]. by apply (ok_place t Hok gvr').
  - intros w gvr' ns' Hr. split; [done|]. intros Hpanic.
    apply (sees_change t t' w gvr' ns' gvr (ns, name) (Deleted obj)); [done|done|done| |..].
    { cbn. destruct (tell _ _ _) as [fs [e|]] eqn:Et; [|done]. by destruct Hpanic; rewrite (tell_result _ _ _ _ _ Et). }
    + intros gvr1 nn1 Hne. rewrite Hlook. by rewrite decide_False.
    + intros m Hm. exists (delete (ns, name) m).
      assert (Hmeta : meta_of obj = (ns, name)) by (unfold meta_of; by rewrite Hacc).
      split; [|split; [by rewrite lookup_delete_eq, Hlook, decide_True|intros; by rewrite lookup_delete_ne]].
      cbn. rewrite Hmeta, Hm, Hl. by rewrite decide_True.
Qed.

Lemma Add_kinds_good gvks obj ns t : tracker_ok t -> good_result t (Add_kinds gvks obj ns t).
Proof.
  revert t. induction gvks as [|gvk gvks IH]; intros t Hok; cbn; [by apply good_step_refl|].
  match goal with |- context [add ?g ?o ?n ?b t] => pose proof (add_good g o n b t Hok) as Hg; destruct (add g o n b t) as [t' [err|]] end;
    cbn in *; [done|]. eapply good_step_weaken; [|eapply good_step_trans; [exact Hg|apply IH, Hg]]. by intros [?|?].
Qed.

Lemma Add_fuel_good fuel obj t : tracker_ok t -> good_result t (Add_fuel fuel obj t).
Proof.
  revert obj t. induction fuel as [|fuel IH]; intros obj t Hok; cbn; [by apply good_step_refl|].
  destruct (IsListType obj).
  - unfold addList. destruct (ExtractList obj) as [items|err]; [|by apply good_step_refl].
    destruct (DecodeList items) as [items'|err]; [|by apply good_step_refl].
    revert t Hok. induction items' as [|x items' IHi]; intros t Hok; cbn; [by apply good_step_refl|].
    pose proof (IH x t Hok) as Hg. destruct (Add_fuel fuel x t) as [t' [err|]]; cbn in *; [done|].
    eapply good_step_weaken; [|eapply good_step_trans; [exact Hg|apply IHi, Hg]]. by intros [?|?].
  - destruct (Accessor obj); [|by apply good_step_refl]. destruct (ObjectKinds obj) as [gvks|err]; [|by apply good_step_refl].
    destruct (match PartialObjectMetadata_kind obj with Some _ => _ | None => _ end); [by apply good_step_refl|].
    by apply Add_kinds_good.
Qed.

Lemma good_done t res : good_result t res -> good_step t (done res).1 ((done res).2 = Failed Panicked).
Proof. destruct res as [t' [e|]]; cbn; apply good_step_weaken; [by intros [= ->]|done]. Qed.

Lemma serve_good (r : request O) t : tracker_ok t -> good_step t (serve r t).1 ((serve r t).2 = Failed Panicked).
Proof.
  intros Hok. destruct r as [gvr obj ns|gvr obj ns|gvr ns name|gvr ns name|gvr gvk ns|gvr ns|w|obj]; cbn [serve].
  - by apply good_done, add_good.
  - by apply good_done, add_good.
  - by apply good_done, Delete_good.
  - by apply good_step_refl.
  - by apply good_step_refl.
  - split; [by apply tracker_ok_Watch|]. intros w gvr' ns' Hr. split; [by apply registered_Watch; left|].
    intros _. apply sees_same; [done|]. cbn. rewrite lookup_app_l; [done|]. by apply (ok_fake t Hok w gvr' ns').
  - pose proof (tracker_ok_handle w t Hok) as Hok'. destruct (handle_cases w t) as [[E _]|(f & ev & Hf & _ & E)]; rewrite E in *;
      cbn in *; [by apply good_step_refl|]. split; [done|]. intros w' gvr ns Hr. split; [done|]. intros _.
    apply sees_same; [done|]. cbn. destruct (decide (w' = w)) as [->|Hne]; [|by rewrite list_lookup_insert_ne].
    by rewrite list_lookup_insert_eq, Hf by (by eapply lookup_lt_Some).
  - by apply good_done, Add_fuel_good.
Qed.

Lemma serve_all_good (rs : list (request O)) t :
  tracker_ok t -> good_step t (serve_all rs t) (Failed Panicked ∈ answers rs t).
Proof.
  revert t. induction rs as [|r rs IH]; intros t Hok; [by apply good_step_refl|]. cbn.
  pose proof (serve_good r t Hok) as Hg. destruct (serve r t) as [t' a]. cbn in *.
  eapply good_step_weaken; [|eapply good_step_trans; [exact Hg|apply IH, Hg]]. rewrite elem_of_cons. intuition.
Qed.

Lemma NewObjectTracker_ok : tracker_ok NewObjectTracker.
Proof. constructor; unfold look, registered; cbn; intros; try rewrite lookup_empty in *; cbn in *; try rewrite lookup_empty in *; cbn in *; set_solver || lia || apply NoDup_nil_2. Qed.

End invariant.

(** ** Watching *)

Section watching.
Context {O : Type} `{Objects O} `{MapRange}.

(** List and watch are consistent: whatever was asked of the tracker before a
    watch is started and whatever after, if nothing asked after panicked on a full channel,
    the watcher has been told events that, applied in order to the objects of its resource and
    namespace at the start, all fit and give exactly the objects now. *)
Theorem tracker_watch_exact (before after : list (request O)) gvr ns :
  let t1 := serve_all before NewObjectTracker in
  let '(t2, w) := Watch gvr ns t1 in
  let t3 := serve_all after t2 in
  Failed Panicked ∉ answers after t2 ->
  exists f, fakes t3 !! w = Some f /\ replay (told f) (view t1 gvr ns) = Some (view t3 gvr ns).
Proof.
  intros t1. rewrite (surjective_pairing (Watch gvr ns t1)). intros t3 Hno. destruct (serve_all_good before NewObjectTracker NewObjectTracker_ok) as [Hok1 _].
  pose proof (tracker_ok_Watch t1 gvr ns Hok1) as Hok2.
  assert (Hr : registered (Watch gvr ns t1).1 (Watch gvr ns t1).2 gvr ns) by (apply registered_Watch; by right).
  assert (Hf : fakes (Watch gvr ns t1).1 !! (Watch gvr ns t1).2 = Some (mkFakeWatcher [] 0))
    by (cbn; by rewrite lookup_app_r, Nat.sub_diag).
  destruct (serve_all_good after _ Hok2) as [_ Hsee]. destruct (Hsee _ _ _ Hr) as [_ Hsees].
  destruct (Hsees Hno) as (evs & He & Hrep). rewrite Hf in He. cbn in He.
  apply fmap_Some in He as (f & Hl & E). exists f. split; [done|]. by rewrite <- E.
Qed.

End watching.

(** ** The tracker as a map *)

Section specification.
Context {O : Type} `{Objects O} `{MapRange}.

Abbreviation place := (GroupVersionResource * NamespacedName)%type.
Abbreviation contents := (gmap place O).

(** The scheme knows the list kind, and its lists take any items. *)
Definition list_supported (gvk : GroupVersionKind) : Prop :=
  exists l, New (list_kind gvk) = inl l /\ IsListType l = true /\ forall xs, exists l', SetList l xs = inl l'.

(** The server of objects: its contents, and the channels of its watches with their
    resource, namespace and unhandled events. *)
Record server : Type := mkServer { contents_of : contents; channels : list (GroupVersionResource * string * list (watch_event O)) }.

(** A watch is told of the writes to its resource in its namespace or, when it is of all
    namespaces, in any. *)
Definition interested (gvr : GroupVersionResource) (ns : string) (c : GroupVersionResource * string * list (watch_event O)) : Prop :=
  c.1.1 = gvr /\ (c.1.2 = ns \/ c.1.2 = "").

#[global] Instance interested_dec gvr ns c : Decision (interested gvr ns c).
Proof. unfold interested. apply _. Defined.

Definition told_of (gvr : GroupVersionResource) (ns : string) (ev : watch_event O) (c : GroupVersionResource * string * list (watch_event O)) :=
  if decide (interested gvr ns c) then (c.1, c.2 ++ [ev]) else c.

Definition has_room (gvr : GroupVersionResource) (ns : string) (s : server) : Prop :=
  Forall (fun c => interested gvr ns c -> (length c.2 < DefaultChanSize O)%nat) (channels s).

(** A write: when every interested watch has room, it is done and they are all told.
    Otherwise it panics: some of the watches may have been told, and the contents are [m'],
    or still those of before if the code tells the watches first. *)
Inductive writes (gvr : GroupVersionResource) (ns : string) (ev : watch_event O) (m_done m_panic : contents) (s : server) : server -> answer O -> Prop :=
| w_done : has_room gvr ns s ->
    writes gvr ns ev m_done m_panic s (mkServer m_done (told_of gvr ns ev <$> channels s)) Done
| w_panics cs : ~ has_room gvr ns s ->
    Forall2 (fun c c' => c' = c \/ c' = told_of gvr ns ev c) (channels s) cs ->
    writes gvr ns ev m_done m_panic s (mkServer m_panic cs) (Failed Panicked).

(** What the tracker answers to each request, and the server after it. *)
Inductive answered (s : server) : request O -> server -> answer O -> Prop :=
| a_create gvr obj ns nn s' a : let m := <[(gvr, (ns, nn.2)) := placed ns obj]> (contents_of s) in
    Accessor obj = Some nn -> nn.1 = "" \/ nn.1 = ns -> contents_of s !! (gvr, (ns, nn.2)) = None ->
    writes gvr ns (Added (placed ns obj)) m m s s' a -> answered s (RCreate gvr obj ns) s' a
| a_create_exists gvr obj ns nn : Accessor obj = Some nn -> nn.1 = "" \/ nn.1 = ns -> is_Some (contents_of s !! (gvr, (ns, nn.2))) ->
    answered s (RCreate gvr obj ns) s (Failed (AlreadyExists gvr nn.2))
| a_update gvr obj ns nn s' a : let m := <[(gvr, (ns, nn.2)) := placed ns obj]> (contents_of s) in
    Accessor obj = Some nn -> nn.1 = "" \/ nn.1 = ns -> is_Some (contents_of s !! (gvr, (ns, nn.2))) ->
    writes gvr ns (Modified (placed ns obj)) m (contents_of s) s s' a -> answered s (RUpdate gvr obj ns) s' a
| a_update_missing gvr obj ns nn : Accessor obj = Some nn -> nn.1 = "" \/ nn.1 = ns -> contents_of s !! (gvr, (ns, nn.2)) = None ->
    answered s (RUpdate gvr obj ns) s (Failed (NotFound gvr nn.2))
| a_write_elsewhere r gvr obj ns nn e : r = RCreate gvr obj ns \/ r = RUpdate gvr obj ns ->
    Accessor obj = Some nn -> nn.1 <> "" -> nn.1 <> ns -> answered s r s (Failed (BadRequest e))
| a_write_no_meta r gvr obj ns e : r = RCreate gvr obj ns \/ r = RUpdate gvr obj ns ->
    Accessor obj = None -> answered s r s (Failed (Other e))
| a_delete gvr ns name obj s' a : let m := delete (gvr, (ns, name)) (contents_of s) in
    contents_of s !! (gvr, (ns, name)) = Some obj ->
    writes gvr ns (Deleted obj) m m s s' a -> answered s (RDelete gvr ns name) s' a
| a_delete_missing gvr ns name : contents_of s !! (gvr, (ns, name)) = None ->
    answered s (RDelete gvr ns name) s (Failed (NotFound gvr name))
| a_get gvr ns name obj : contents_of s !! (gvr, (ns, name)) = Some obj -> failure obj = None ->
    answered s (RGet gvr ns name) s (Object obj)
| a_get_failure gvr ns name obj status : contents_of s !! (gvr, (ns, name)) = Some obj -> failure obj = Some status ->
    answered s (RGet gvr ns name) s (Failed (StatusError status))
| a_get_missing gvr ns name : contents_of s !! (gvr, (ns, name)) = None ->
    answered s (RGet gvr ns name) s (Failed (NotFound gvr name))
| a_list gvr gvk ns items :
    (forall o, o ∈ items <-> exists nn, contents_of s !! (gvr, nn) = Some o /\ in_namespace ns nn) ->
    NoDup (meta_of <$> items) -> StronglySorted name_le (meta_of <$> items) ->
    answered s (RList gvr gvk ns) s (Items items)
| a_list_unsupported gvr gvk ns e : ~ list_supported gvk -> answered s (RList gvr gvk ns) s (Failed (Other e))
| a_watch gvr ns :
    answered s (RWatch gvr ns) (mkServer (contents_of s) (channels s ++ [(gvr, ns, [])])) (Watcher (length (channels s)))
| a_handle w gvr ns ev evs : channels s !! w = Some (gvr, ns, ev :: evs) ->
    answered s (RHandle w) (mkServer (contents_of s) (<[w := (gvr, ns, evs)]> (channels s))) (Event ev)
| a_handle_nothing w : default [] (snd <$> channels s !! w) = [] -> answered s (RHandle w) s NoEvent.

(** Answers to requests in a row. *)
Inductive all_answered : server -> list (request O) -> list (answer O) -> Prop :=
| answered_nil s : all_answered s [] []
| answered_cons s s' r rs a ans : answered s r s' a -> all_answered s' rs ans -> all_answered s (r :: rs) (a :: ans).

(** [Add] is a sequence of creations; it prepares a tracker. *)
Definition not_add (r : request O) : Prop := match r with RAdd _ => False | _ => True end.

(** The tracker holds the contents, and its fake watchers are the watches. *)
Definition holds (t : tracker O) (m : contents) : Prop := forall gvr nn, m !! (gvr, nn) = look t gvr nn.

Definition holds_channels (t : tracker O) (cs : list (GroupVersionResource * string * list (watch_event O))) : Prop :=
  length cs = length (fakes t) /\
  forall w c, cs !! w = Some c -> registered t w c.1.1 c.1.2 /\ (result <$> fakes t !! w) = Some c.2.

#[local] Instance name_le_trans : Transitive name_le.
Proof.
  intros p q r. unfold name_le. intros Hpq Hqr.
  destruct (decide (p.1 = q.1)) as [E1|E1], (decide (q.1 = r.1)) as [E2|E2]; rewrite ?E1, ?E2 in *.
  - rewrite decide_True by done. by etrans.
  - by rewrite decide_False.
  - by rewrite decide_False.
  - destruct (decide (p.1 = r.1)) as [E3|E3]; [|by etrans].
    exfalso. apply E1. rewrite <- E3 in Hqr. by apply (anti_symm String.le).
Qed.

#[local] Instance name_le_total : Total name_le.
Proof.
  intros p q. unfold name_le. destruct (decide (p.1 = q.1)) as [E|E].
  - rewrite decide_True by done. apply (total String.le).
  - rewrite decide_False by done. apply (total String.le).
Qed.

Lemma StronglySorted_fmap {A B} (f : A -> B) (R : relation B) (l : list A) :
  StronglySorted (fun x y => R (f x) (f y)) l -> StronglySorted R (f <$> l).
Proof. induction 1 as [|x l Hl IH Hx]; constructor; [exact IH|]. by apply Forall_fmap. Qed.

Lemma matching_filter ns (l : list O) :
  Forall (fun o => is_Some (Accessor o)) l -> matching ns l = Some (filter (fun o => in_namespace ns (meta_of o)) l).
Proof.
  induction 1 as [|o l [nn Ho] _ IH]; [done|]. cbn [matching]. rewrite Ho, IH. cbn [mbind option_bind]. rewrite filter_cons.
  assert (Hm : meta_of o = nn) by (unfold meta_of; by rewrite Ho). rewrite Hm. f_equal. unfold in_namespace.
  repeat case_decide; try done; tauto.
Qed.

(** What [filterByNamespace] returns of objects that are where they belong. *)
Lemma filterByNamespace_ok (objs : gmap NamespacedName O) ns :
  (forall nn o, objs !! nn = Some o -> Accessor o = Some nn) ->
  exists items, filterByNamespace objs ns = Some items /\
    (forall o, o ∈ items <-> exists nn, objs !! nn = Some o /\ in_namespace ns nn) /\
    NoDup (meta_of <$> items) /\ StronglySorted name_le (meta_of <$> items).
Proof.
  intros Hobjs.
  assert (Hin : forall o, o ∈ (range objs).*2 <-> objs !! meta_of o = Some o).
  { intros o. rewrite list_elem_of_fmap. split.
    - intros ([nn o'] & -> & Ho%elem_of_range). cbn. unfold meta_of. by rewrite (Hobjs _ _ Ho).
    - intros Ho. exists (meta_of o, o). split; [done|]. by apply elem_of_range. }
  assert (Hkeys : meta_of <$> (range objs).*2 = (range objs).*1).
  { rewrite <- list_fmap_compose. apply list_fmap_ext. intros i [nn o] Hi%list_elem_of_lookup_2%elem_of_range.
    cbn. unfold meta_of. by rewrite (Hobjs _ _ Hi). }
  assert (Hnd : NoDup (range objs).*2) by (apply (NoDup_fmap_1 meta_of); rewrite Hkeys; apply NoDup_fst_range).
  unfold filterByNamespace. rewrite matching_filter.
  2: { apply Forall_forall. intros o Ho%Hin. rewrite (Hobjs _ _ Ho). by eexists. }
  cbn. eexists. split; [done|].
  pose proof (merge_sort_Permutation (fun o1 o2 : O => name_le (meta_of o1) (meta_of o2))
    (filter (fun o => in_namespace ns (meta_of o)) (range objs).*2)) as Hperm.
  split_and!.
  - intros o. rewrite Hperm, list_elem_of_filter, Hin. split; [intros [Hn Ho]; by exists (meta_of o)|].
    intros (nn & Ho & Hn). assert (Hm : meta_of o = nn) by (unfold meta_of; by rewrite (Hobjs _ _ Ho)). by rewrite Hm.
  - rewrite Hperm. apply NoDup_fmap_2_strong; [|by apply NoDup_filter].
    intros x y [_ Hx%Hin]%list_elem_of_filter [_ Hy%Hin]%list_elem_of_filter He. rewrite He in Hx. congruence.
  - apply StronglySorted_fmap, StronglySorted_merge_sort.
    + intros x y z. apply name_le_trans.
    + intros x y. apply name_le_total.
Qed.

Lemma holds_put t m gvr nn obj ev : holds t m -> holds (put gvr nn obj ev t) (<[(gvr, nn) := obj]> m).
Proof.
  intros Hh gvr' nn'. rewrite look_put. destruct (decide _) as [[-> ->]|Hne]; [by rewrite lookup_insert_eq|].
  rewrite lookup_insert_ne by naive_solver. apply Hh.
Qed.

Lemma channel_of t cs w gvr ns f :
  tracker_ok t -> holds_channels t cs -> registered t w gvr ns -> fakes t !! w = Some f -> cs !! w = Some (gvr, ns, result f).
Proof.
  intros Hok [Hlen Hcs] Hr Hf.
  assert (is_Some (cs !! w)) as [[[g n] evs] Hc] by (apply lookup_lt_is_Some; rewrite Hlen; by eapply lookup_lt_Some).
  destruct (Hcs w _ Hc) as [Hr' He]. cbn in *. destruct (ok_once t Hok _ _ _ _ _ Hr Hr') as [<- <-].
  rewrite Hf in He. cbn in He. congruence.
Qed.

Lemma interested_getWatches t cs w c gvr ns :
  tracker_ok t -> holds_channels t cs -> cs !! w = Some c -> interested gvr ns c <-> w ∈ getWatches gvr ns t.
Proof.
  intros Hok [_ Hcs] Hc. destruct (Hcs w c Hc) as [Hr _]. rewrite elem_of_getWatches. unfold interested. split.
  - intros [<- [<-| E]]; [by left|right; by rewrite <- E].
  - intros [Hr'|Hr']; destruct (ok_once t Hok _ _ _ _ _ Hr Hr') as [-> ->]; auto.
Qed.

Lemma has_room_tell t s gvr ns ev :
  tracker_ok t -> holds_channels t (channels s) ->
  (tell (getWatches gvr ns t) ev (fakes t)).2 = None <-> has_room gvr ns s.
Proof.
  intros Hok Hcs. rewrite tell_panics by (by apply NoDup_getWatches). unfold has_room. rewrite Forall_lookup. split.
  - intros Hfull w c Hc Hi. apply (interested_getWatches t _ w c gvr ns Hok Hcs Hc) in Hi.
    destruct (proj2 Hcs w c Hc) as [_ (f & Hf & ->)%fmap_Some]. apply (Hfull w f) in Hi; [|done].
    apply bool_decide_eq_false in Hi. lia.
  - intros Hroom w f Hw Hf. apply bool_decide_eq_false.
    assert (exists g n, registered t w g n) as (g & n & Hr) by (eapply (ok_registered t Hok), lookup_lt_Some, Hf).
    pose proof (channel_of t _ w g n f Hok Hcs Hr Hf) as Hc.
    pose proof (proj2 (interested_getWatches t _ w _ gvr ns Hok Hcs Hc) Hw) as Hi.
    pose proof (Hroom w _ Hc Hi) as Hlt. cbn in Hlt. lia.
Qed.

Lemma result_send ev (f : RaceFreeFakeWatcher O) : (handled f <= length (told f))%nat -> result (send ev f) = result f ++ [ev].
Proof. intros Hh. unfold result, send. cbn. by rewrite drop_app_le. Qed.

Lemma holds_channels_tell t t' cs gvr ns ev :
  tracker_ok t -> holds_channels t cs -> watchers t' = watchers t ->
  fakes t' = (tell (getWatches gvr ns t) ev (fakes t)).1 -> (tell (getWatches gvr ns t) ev (fakes t)).2 = None ->
  holds_channels t' (told_of gvr ns ev <$> cs).
Proof.
  intros Hok Hcs Hw Hf Hnone. split; [rewrite length_fmap, Hf, length_tell; apply Hcs|].
  intros w c' (c & -> & Hc)%list_lookup_fmap_Some. pose proof (interested_getWatches t cs w c gvr ns Hok Hcs Hc) as Hi.
  destruct (proj2 Hcs w c Hc) as [Hr (f & Hfl & Hres)%fmap_Some]. unfold registered in *. rewrite Hw, Hf.
  rewrite lookup_tell by (done || by apply NoDup_getWatches). unfold told_of.
  destruct (decide (interested gvr ns c)) as [Hint|Hint]; cbn.
  - rewrite decide_True by (by apply Hi). split; [done|]. rewrite Hfl. cbn [fmap option_fmap option_map]. by rewrite result_send, Hres by (by apply (ok_handled t Hok w)).
  - rewrite decide_False by (by rewrite <- Hi). split; [done|]. by rewrite Hfl, Hres.
Qed.

Lemma holds_channels_panic t t' cs gvr ns ev :
  tracker_ok t -> holds_channels t cs -> watchers t' = watchers t ->
  fakes t' = (tell (getWatches gvr ns t) ev (fakes t)).1 ->
  exists cs', Forall2 (fun c c' => c' = c \/ c' = told_of gvr ns ev c) cs cs' /\ holds_channels t' cs'.
Proof.
  intros Hok Hcs Hw Hf. exists (zip_with (fun c f => (c.1, result f)) cs (fakes t')).
  assert (Hlen : length cs = length (fakes t')) by (rewrite Hf, length_tell; apply Hcs).
  split; [|split; [rewrite length_zip_with; lia|]].
  - apply Forall2_same_length_lookup_2; [rewrite length_zip_with; lia|].
    intros w c c' Hc (c0 & f' & -> & Hc0 & Hf')%lookup_zip_with_Some. simplify_eq.
    pose proof (interested_getWatches t cs w c gvr ns Hok Hcs Hc) as Hi.
    destruct (proj2 Hcs w c Hc) as [Hr (f & Hfl & Hres)%fmap_Some]. rewrite Hf in Hf'.
    destruct (lookup_tell_some _ ev (fakes t) w (NoDup_getWatches t gvr ns Hok)) as [E|[Hin E]]; rewrite E, Hfl in Hf'; cbn in Hf'.
    + left. simplify_eq. rewrite <- Hres. by destruct c.
    + right. simplify_eq. unfold told_of. rewrite decide_True by (by apply Hi).
      by rewrite result_send, Hres by (by apply (ok_handled t Hok w)).
  - intros w c' (c & f' & -> & Hc & Hf')%lookup_zip_with_Some. cbn. rewrite Hf'. split; [|done].
    unfold registered. rewrite Hw. apply (proj2 Hcs w c Hc).
Qed.

(** What was told, and what is held then. *)
Definition write_answer (panic : option api_error) : answer O := match panic with None => Done | Some e => Failed e end.

Lemma write_answered t t' s gvr ns ev m_done m_panic :
  let told := tell (getWatches gvr ns t) ev (fakes t) in
  tracker_ok t -> holds_channels t (channels s) -> watchers t' = watchers t -> fakes t' = told.1 ->
  (told.2 = None -> holds t' m_done) -> (told.2 = Some Panicked -> holds t' m_panic) ->
  exists s', writes gvr ns ev m_done m_panic s s' (write_answer told.2) /\
    holds t' (contents_of s') /\ holds_channels t' (channels s').
Proof.
  intros told Hok Hcs Hw Hf Hd Hp. pose proof (has_room_tell t s gvr ns ev Hok Hcs) as Hroom.
  destruct told.2 as [e|] eqn:Et; unfold told in *.
  - assert (e = Panicked) as -> by (eapply (tell_result _ ev (fakes t)); rewrite (surjective_pairing (tell _ _ _)), Et; done).
    destruct (holds_channels_panic t t' _ gvr ns ev Hok Hcs Hw Hf) as (cs' & Hall & Hcs'). exists (mkServer m_panic cs').
    split; [|by split; [apply Hp|]]. apply w_panics; [|done]. intros Hr. apply Hroom in Hr. congruence.
  - exists (mkServer m_done (told_of gvr ns ev <$> channels s)). split; [by apply w_done, Hroom|].
    split; [by apply Hd|]. by apply (holds_channels_tell t).
Qed.

(** What a tracker that holds the server answers, and that it then holds the server after it. *)
Definition answers_as (s : server) (r : request O) (res : tracker O * answer O) : Prop :=
  exists s', answered s r s' res.2 /\ holds res.1 (contents_of s') /\ holds_channels res.1 (channels s').

Lemma add_answered t s gvr obj ns (replaceExisting : bool) :
  tracker_ok t -> holds t (contents_of s) -> holds_channels t (channels s) ->
  answers_as s (if replaceExisting then RUpdate gvr obj ns else RCreate gvr obj ns) (done (add gvr obj ns replaceExisting t)).
Proof.
  intros Hok Hh Hcs. assert (Hsame : forall t', (forall g n, look t' g n = look t g n) -> watchers t' = watchers t ->
    fakes t' = fakes t -> holds t' (contents_of s) /\ holds_channels t' (channels s)).
  { intros t' Hl Hw Hf. split; [intros g n; by rewrite Hl|]. unfold holds_channels, registered. by rewrite Hw, Hf. }
  assert (Hput : forall nn o ev, holds (put gvr nn o ev t) (<[(gvr, nn) := o]> (contents_of s))) by (intros; by apply holds_put).
  destruct (add_cases gvr obj ns replaceExisting t)
    as [e|nn e|nn t' Ha Hns Hl Hlook Hw Hf|nn t' ev Ha Hns Hl Hev Hpanic Hlook Hw Hf|nn Ha Hns Hl Hnone]; unfold answers_as; cbn [done fst snd].
  - exists s. split; [|done]. eapply a_write_no_meta; [|done]. destruct replaceExisting; eauto.
  - exists s. split; [|done]. eapply a_write_elsewhere; [|done..]. destruct replaceExisting; eauto.
  - exists s. split; [|by apply Hsame]. destruct replaceExisting; [apply a_update_missing|apply a_create_exists]; try done; by rewrite Hh.
  - set (m := <[(gvr, (ns, nn.2)) := placed ns obj]> (contents_of s)).
    destruct (write_answered t t' s gvr ns ev m (if replaceExisting then contents_of s else m) Hok Hcs Hw Hf) as (s' & Hwr & Hs').
    { intros Hn. congruence. }
    { intros _ g n. rewrite Hlook. destruct replaceExisting; [apply Hh|apply Hput]. }
    exists s'. split; [|done]. rewrite Hpanic in Hwr. destruct replaceExisting; subst ev;
      [eapply a_update|eapply a_create]; try done; by rewrite Hh.
  - set (ev := if replaceExisting then Modified (placed ns obj) else Added (placed ns obj)) in *.
    destruct (write_answered t (put gvr (ns, nn.2) (placed ns obj) ev t) s gvr ns ev
      (<[(gvr, (ns, nn.2)) := placed ns obj]> (contents_of s))
      (if replaceExisting then contents_of s else <[(gvr, (ns, nn.2)) := placed ns obj]> (contents_of s)) Hok Hcs
      eq_refl eq_refl (fun _ => Hput _ _ _)) as (s' & Hwr & Hs'); [intros; congruence|].
    exists s'. split; [|done]. rewrite Hnone in Hwr. destruct replaceExisting; [eapply a_update|eapply a_create]; try done; by rewrite Hh.
Qed.

Lemma Delete_answered t s gvr ns name :
  tracker_ok t -> holds t (contents_of s) -> holds_channels t (channels s) ->
  answers_as s (RDelete gvr ns name) (done (Delete gvr ns name t)).
Proof.
  intros Hok Hh Hcs. destruct (Delete_cases gvr ns name t) as [Hl|obj Hl].
  - exists s. split; [|done]. apply a_delete_missing. by rewrite Hh.
  - set (t' := mkTracker _ _ _). assert (Hholds : holds t' (delete (gvr, (ns, name)) (contents_of s))).
    { intros gvr' nn'. unfold t', look. cbn [objects]. destruct (decide (gvr' = gvr)) as [->|Hne].
      - rewrite lookup_insert_eq. cbn [mbind option_bind]. destruct (decide (nn' = (ns, name))) as [->|Hnn]; [by rewrite !lookup_delete_eq|].
        rewrite !lookup_delete_ne by congruence. rewrite Hh. symmetry. apply look_default.
      - rewrite lookup_insert_ne, lookup_delete_ne by congruence. apply Hh. }
    destruct (write_answered t t' s gvr ns (Deleted obj) _ _ Hok Hcs eq_refl eq_refl (fun _ => Hholds) (fun _ => Hholds)) as (s' & Hwr & Hs').
    exists s'. destruct (tell _ _ _).2 as [e|] eqn:Et; (split; [|done]); eapply a_delete; try (by rewrite Hh); done.
Qed.

Lemma List_answered t s gvr gvk ns :
  tracker_ok t -> holds t (contents_of s) -> answered s (RList gvr gvk ns) s (serve (RList gvr gvk ns) t).2.
Proof.
  intros Hok Hh. cbn. unfold List.
  destruct (New (list_kind gvk)) as [l|err] eqn:En; [|apply a_list_unsupported; intros (l & Hl & _); congruence].
  destruct (IsListType l) eqn:El; cbn [negb]; [|apply a_list_unsupported; intros (l' & Hl' & Ht & _); congruence].
  destruct (objects t !! gvr) as [objs|] eqn:Eo.
  - destruct (filterByNamespace_ok objs ns) as (items & -> & Hitems & Hnd & Hs).
    { intros nn o Ho. apply (ok_place t Hok gvr). unfold look. by rewrite Eo. }
    destruct (SetList l items) as [l'|err] eqn:Es.
    + rewrite (ExtractList_SetList _ _ _ Es). apply a_list; [|done..]. intros o. rewrite Hitems.
      split; intros (nn & Ho & Hn); exists nn; (split; [|done]); [rewrite Hh|rewrite Hh in Ho]; unfold look in *;
        rewrite Eo in *; done.
    + apply a_list_unsupported. intros (l' & Hl' & _ & Hset). simplify_eq. destruct (Hset items) as [? ?]. congruence.
  - rewrite (ExtractList_New _ _ En El). apply a_list; [|by constructor..]. intros o. split; [set_solver|].
    intros (nn & Ho & _). rewrite Hh in Ho. unfold look in Ho. by rewrite Eo in Ho.
Qed.

Lemma handle_answered w t s :
  holds t (contents_of s) -> holds_channels t (channels s) -> answers_as s (RHandle w) (serve (RHandle w) t).
Proof.
  intros Hh Hcs. cbn [serve]. destruct (handle_cases w t) as [[-> He]|(f & ev & Hf & Hev & ->)].
  - exists s. split; [|done]. apply a_handle_nothing. destruct (channels s !! w) as [c|] eqn:Hc; [|done]. cbn.
    destruct (proj2 Hcs w c Hc) as [_ E]. rewrite E in He. done.
  - assert (is_Some (channels s !! w)) as [[[g n] evs] Hc]
      by (apply lookup_lt_is_Some; rewrite (proj1 Hcs); by eapply lookup_lt_Some).
    destruct (proj2 Hcs w _ Hc) as [Hr He]. rewrite Hf in He. cbn in *. apply (inj Some) in He. unfold result in He.
    rewrite (drop_S _ _ _ Hev) in He. subst evs.
    exists (mkServer (contents_of s) (<[w := (g, n, drop (S (handled f)) (told f))]> (channels s))).
    split; [by eapply a_handle|]. split; [exact Hh|]. split; [cbn; rewrite !length_insert; apply Hcs|]. cbn.
    intros w' c [(<- & <- & _)|[Hne Hc']]%list_lookup_insert_Some.
    + rewrite list_lookup_insert_eq by (by eapply lookup_lt_Some). done.
    + rewrite list_lookup_insert_ne by done. apply (proj2 Hcs w' c Hc').
Qed.

Lemma serve_answered r t s :
  not_add r -> tracker_ok t -> holds t (contents_of s) -> holds_channels t (channels s) -> answers_as s r (serve r t).
Proof.
  intros Hr Hok Hh Hcs. destruct r as [gvr obj ns|gvr obj ns|gvr ns name|gvr ns name|gvr gvk ns|gvr ns|w|obj]; [..|done].
  - by apply (add_answered t s gvr obj ns false).
  - by apply (add_answered t s gvr obj ns true).
  - by apply Delete_answered.
  - exists s. split; [|done]. cbn. pose proof (Hh gvr (ns, name)) as Hm. unfold look in Hm. unfold Get.
    destruct (objects t !! gvr) as [objs|]; cbn in Hm; [|by apply a_get_missing].
    destruct (objs !! (ns, name)) as [obj|]; [|by apply a_get_missing].
    destruct (failure obj) as [status|] eqn:Ef; [by eapply a_get_failure|by apply a_get].
  - exists s. split; [by apply List_answered|done].
  - eexists. split; [cbn; rewrite <- (proj1 Hcs); apply a_watch|]. split; [exact Hh|].
    split; [cbn; rewrite !length_app; cbn; by rewrite (proj1 Hcs)|]. cbn.
    intros w c [Hc|[Hlt [Hi <-]%list_lookup_singleton_Some]]%lookup_app_Some.
    + destruct (proj2 Hcs w c Hc) as [Hreg Hres]. split; [by apply (registered_Watch t gvr ns); left|].
      rewrite lookup_app_l; [done|]. rewrite <- (proj1 Hcs). by eapply lookup_lt_Some.
    + assert (w = length (fakes t)) as -> by (rewrite <- (proj1 Hcs); lia).
      split; [apply (registered_Watch t gvr ns); by right|]. by rewrite lookup_app_r, Nat.sub_diag.
  - by apply handle_answered.
Qed.

(** C16: The tracker is a map of objects by resource, namespace and name, with a
    channel for each watch: whatever is asked of it in a row, every answer is the one that
    [answered] gives, errors included.  A list has exactly the objects of its resource and
    namespace, each once, in the order of namespace and name; a write goes to the channel of
    every watch of the resource in the namespace or in all, unless one of these has no room,
    when it panics, and a deletion of what is not there is NotFound, though the interface
    says that it is no error. *)
Theorem tracker_refines_map (rs : list (request O)) :
  Forall not_add rs -> all_answered (mkServer ∅ []) rs (answers rs NewObjectTracker).
Proof.
  assert (Hgen : forall t s, tracker_ok t -> holds t (contents_of s) -> holds_channels t (channels s) ->
    Forall not_add rs -> all_answered s rs (answers rs t)).
  { induction rs as [|r rs IH]; intros t s Hok Hh Hcs Hrs; cbn; [constructor|]. apply Forall_cons in Hrs as [Hr Hrs].
    destruct (serve_answered r t s Hr Hok Hh Hcs) as (s' & Hp & Hh' & Hcs'). destruct (serve_good r t Hok) as [Hok' _].
    destruct (serve r t) as [t' a]. econstructor; [exact Hp|by apply IH]. }
  apply Hgen; [apply NewObjectTracker_ok| |by split]. intros gvr nn. unfold look. cbn. by rewrite !lookup_empty.
Qed.

End specification.

(** ** Concrete runs *)

Module samples.

Inductive sample : Type :=
| Item (ns name data : string)
| ItemList (items : list (string * string * string)).

Definition of_triple (x : string * string * string) : sample := Item x.1.1 x.1.2 x.2.

Fixpoint triples (l : list sample) : option (list (string * string * string)) :=
  match l with
  | [] => Some []
  | Item ns name data :: l => xs ← triples l; Some ((ns, name, data) :: xs)
  | ItemList _ :: _ => None
  end.

Lemma triples_of l xs : triples l = Some xs -> of_triple <$> xs = l.
Proof.
  revert xs. induction l as [|[ns name data|items] l IH]; intros xs; cbn; [by intros [= <-]| |done].
  destruct (triples l) as [ys|]; [|done]. cbn. intros [= <-]. cbn. by rewrite IH.
Qed.

#[local] Obligation Tactic := idtac.

#[local] Program Instance sample_Objects : Objects sample := {
  Accessor := fun o => match o with Item ns name _ => Some (ns, name) | ItemList _ => None end;
  SetNamespace := fun ns o => match o with Item _ name data => Item ns name data | ItemList _ => o end;
  failure := fun o => None;
  IsListType := fun o => match o with ItemList _ => true | Item _ _ _ => false end;
  ExtractList := fun o => match o with ItemList l => inl (of_triple <$> l) | Item _ _ _ => inr "not a list" end;
  DecodeList := inl;
  SetList := fun _ xs => match triples xs with Some l => inl (ItemList l) | None => inr "not items" end;
  New := fun gvk => if decide (Kind gvk = "PodList") then inl (ItemList []) else inr "no kind";
  ObjectKinds := fun _ => inl [mkGVK "" "v1" "Pod"];
  PartialObjectMetadata_kind := fun _ => None;
  UnsafeGuessKindToResource := fun gvk => mkGVR (k_Group gvk) (k_Version gvk) "pods";
  TypeOf := fun _ => "Pod";
  DefaultChanSize := 2;
  obj_size := fun o => match o with ItemList _ => 1%nat | Item _ _ _ => 0%nat end
}.
Next Obligation. intros [ns name data|items] ns' nn; [by intros [= <-]|done]. Qed.
Next Obligation. intros l0 xs l'. cbn. destruct (triples xs) as [l|] eqn:E; [|intros ?; discriminate]. intros [= <-]. f_equal. by apply triples_of. Qed.
Next Obligation. intros gvk l. cbn. case_decide; [|done]. by intros [= <-]. Qed.
Next Obligation.
  intros [ns name data|items] xs ys x; [done|]. intros [= <-] [= <-] ([[ns name] data] & -> & _)%list_elem_of_fmap. cbn. lia.
Qed.

#[local] Instance sample_range : MapRange := range_in_key_order.

Definition pods : GroupVersionResource := mkGVR "" "v1" "pods".
Definition Pod : GroupVersionKind := mkGVK "" "v1" "Pod".

(** The second watch leaves its events unhandled: the third change in its namespace finds
    its channel full. *)
Definition requests : list (request sample) :=
  [RCreate pods (Item "" "web" "1") "b"; RWatch pods ""; RWatch pods "b"; RCreate pods (Item "a" "db" "1") "a";
   RCreate pods (Item "b" "web" "2") "b"; RHandle 0; RHandle 1;
   RCreate pods (Item "b" "api" "1") "b"; RUpdate pods (Item "b" "web" "3") "b"; RUpdate pods (Item "a" "web" "3") "b";
   RList pods Pod "b"; RHandle 0; RHandle 0; RDelete pods "b" "web"; RGet pods "b" "web"; RHandle 1; RDelete pods "b" "web";
   RList pods Pod ""].

Lemma tracker_refines_map_witness :
  all_answered (mkServer ∅ []) requests (answers requests NewObjectTracker) /\
  answers requests NewObjectTracker =
    [Done; Watcher 0; Watcher 1; Done; Failed (AlreadyExists pods "web"); Event (Added (Item "a" "db" "1")); NoEvent;
     Done; Done; Failed (BadRequest "request namespace does not match object namespace, request: %q object: %q");
     Items [Item "b" "api" "1"; Item "b" "web" "3"]; Event (Added (Item "b" "api" "1")); Event (Modified (Item "b" "web" "3"));
     Failed Panicked; Failed (NotFound pods "web"); Event (Added (Item "b" "api" "1"));
     Failed (NotFound pods "web"); Items [Item "a" "db" "1"; Item "b" "api" "1"]].
Proof.
  split; [apply (tracker_refines_map requests); repeat constructor|vm_compute; reflexivity].
Defined.

(** A watch of one namespace, started in the middle, next to one of all. *)
Example watch_run :
  let t := serve_all [RWatch pods ""; RCreate pods (Item "" "web" "1") "b"; RWatch pods "b";
    RCreate pods (Item "a" "db" "1") "a"; RHandle 0; RHandle 0; RUpdate pods (Item "b" "web" "2") "b"; RDelete pods "b" "web"]
    (NewObjectTracker (O:=sample)) in
  told <$> fakes t =
    [[Added (Item "b" "web" "1"); Added (Item "a" "db" "1"); Modified (Item "b" "web" "2"); Deleted (Item "b" "web" "2")];
     [Modified (Item "b" "web" "2"); Deleted (Item "b" "web" "2")]].
Proof. vm_compute. reflexivity. Qed.

End samples.
