(* ===== verification/Synctrack.v ===== *)
(** * Tracking what is synced, and values computed when needed

    tools/cache/synctrack: [AsyncTracker] (synctrack.go), which knows the keys of an
    initial list that are still being worked on, and [Lazy] (lazy.go), a value that is
    computed again after it has been notified of a change.  [Lazy] is lock-free up to a
    lock per cache entry: its goroutines are modelled as a concurrent system. *)

From S2P Require Import Prelude.
#[local] Open Scope nat_scope.

(** ** AsyncTracker *)

Module AsyncTracker.

Section tracker.
Context {T : Type} `{Countable T}.

(** [waiting] is nil until the first [Start]. *)
Definition AsyncTracker : Type := option (gset T).

Definition Start (key : T) (waiting : AsyncTracker) : AsyncTracker :=
  match waiting with
  | None => Some {[key]}
  | Some w => Some ({[key]} ∪ w)
  end.

Definition Finished (key : T) (waiting : AsyncTracker) : AsyncTracker :=
  match waiting with
  | None => None
  | Some w => Some (w ∖ {[key]})
  end.

(** The upstream is asked first, outside the lock. *)
Definition HasSynced (UpstreamHasSynced : bool) (waiting : AsyncTracker) : bool :=
  if negb UpstreamHasSynced then false else bool_decide (default ∅ waiting = ∅).

(** Calls of the tracker. *)
Inductive call : Type :=
| CStart (key : T)
| CFinished (key : T).

#[global] Instance call_eq_dec : EqDecision call.
Proof. solve_decision. Defined.

Definition perform (c : call) (waiting : AsyncTracker) : AsyncTracker :=
  match c with CStart key => Start key waiting | CFinished key => Finished key waiting end.

Definition perform_all (cs : list call) (waiting : AsyncTracker) : AsyncTracker :=
  fold_left (fun w c => perform c w) cs waiting.

(** Every start of a key in [cs] is followed by its end. *)
Definition all_finished (cs : list call) : Prop :=
  forall before key after, cs = before ++ CStart key :: after -> CFinished key ∈ after.

Definition waits (cs : list call) (key : T) : Prop :=
  exists before after, cs = before ++ CStart key :: after /\ CFinished key ∉ after.

Lemma waits_snoc cs c key :
  waits (cs ++ [c]) key <-> c = CStart key \/ (waits cs key /\ c <> CFinished key).
Proof.
  unfold waits. split.
  - intros (before & after & Heq & Hn). destruct (decide (after = [])) as [->|Hne].
    + apply app_inj_tail in Heq as [_ ->]. by left.
    + destruct (exists_last Hne) as (after' & c' & ->). rewrite app_comm_cons, app_assoc in Heq.
      apply app_inj_tail in Heq as [-> ->]. right. split; [|set_solver]. exists before, after'. set_solver.
  - intros [->|[(before & after & -> & Hn) Hc]].
    + exists cs, []. set_solver.
    + exists before, (after ++ [c]). rewrite <- app_assoc. split; [done|]. set_solver.
Qed.

Lemma perform_all_snoc cs c w : perform_all (cs ++ [c]) w = perform c (perform_all cs w).
Proof. apply fold_left_app. Qed.

Lemma perform_all_waits cs key : key ∈ default ∅ (perform_all cs None) <-> waits cs key.
Proof.
  induction cs as [|c cs IH] using rev_ind.
  - cbn. split; [set_solver|]. intros (before & after & Heq & _). by destruct before.
  - rewrite perform_all_snoc, waits_snoc, <- IH. destruct (perform_all cs None) as [w|], c as [k|k]; cbn; set_solver.
Qed.

(** The tracker reports that it has synced exactly when its source has and the
    work on every key that was started has been finished since its last start;
    finishing a key that was not started does no harm. *)
Theorem async_tracker_exact (UpstreamHasSynced : bool) (cs : list call) :
  HasSynced UpstreamHasSynced (perform_all cs None) = true <-> UpstreamHasSynced = true /\ all_finished cs.
Proof.
  unfold HasSynced. destruct UpstreamHasSynced; cbn; [|naive_solver]. rewrite bool_decide_eq_true. split.
  - intros He. split; [done|]. intros before key after ->. apply dec_stable. intros Hn.
    assert (Hw : key ∈ default ∅ (perform_all (before ++ CStart key :: after) None)) by (apply perform_all_waits; by exists before, after).
    rewrite He in Hw. set_solver.
  - intros [_ Hall]. apply set_eq. intros key. split; [|set_solver].
    intros (before & after & Heq & Hn)%perform_all_waits. exfalso. by apply Hn, (Hall before).
Qed.

End tracker.
End AsyncTracker.

(** ** Lazy *)

Module Lazy.

Section lazy.
Context {T E : Type}.

(** The result of an entry and who holds its lock for writing; [pub] is a ghost: what
    the source was at when the entry was put into the cache. *)
Record cacheEntry : Type := mkEntry {
  lock : option nat;
  result : option T;
  pub : nat
}.

(** Where a goroutine is in [Get]; [since] is a ghost, the version of the source when
    [Notify] was last called before the call. *)
Inductive local : Type :=
| Idle
| AtLoad (since : nat)
| AtSwap (since : nat)
| AtReload (since : nat)
| AtRead (since e : nat)
| AtLock (since e : nat)
| Locked (since e : nat)
| Evaluating (since e from : nat)
| Returned (since : nat) (res : T + E)
| Panicked.

(** The pointer, the entries it has had by the order of their creation, the goroutines
    that use it; and two ghosts: the version of the source [Evaluate] looks at, and what
    it was at the last [Notify]. *)
Record state : Type := mkState {
  cache : option nat;
  entries : list cacheEntry;
  goroutines : gmap nat local;
  source : nat;
  notified : nat
}.

Definition start : state := mkState None [] ∅ 0 0.

Definition newCacheEntry (s : state) : cacheEntry := mkEntry None None (source s).

Definition set_local (g : nat) (l : local) (s : state) : state :=
  mkState (cache s) (entries s) (<[g := l]> (goroutines s)) (source s) (notified s).

Definition set_entry (e : nat) (en : cacheEntry) (s : state) : state :=
  mkState (cache s) (<[e := en]> (entries s)) (goroutines s) (source s) (notified s).

Definition publish (s : state) : state :=
  mkState (Some (length (entries s))) (entries s ++ [newCacheEntry s]) (goroutines s) (source s) (notified s).

(** [Notify] swaps the pointer: one step. *)
Definition Notify (s : state) : state :=
  let s := publish s in mkState (cache s) (entries s) (goroutines s) (source s) (source s).

Definition at_ (g : nat) (s : state) : local := default Idle (goroutines s !! g).

(** One step of [Get]: the loads and the swap are atomic, and the section under the
    read lock is one step, which waits for a writer.  [out] is what [Evaluate] gives
    when it returns, [None] while it has not: a version of the source it has seen, or an
    error; [data] is what a version evaluates to. *)
Definition get_step (data : nat -> T) (g : nat) (out : option (nat + E)) (s : state) : option state :=
  match at_ g s with
  | Idle | Returned _ _ | Panicked => None
  | AtLoad since =>
      match cache s with
      | Some e => Some (set_local g (AtRead since e) s)
      | None => Some (set_local g (AtSwap since) s)
      end
  | AtSwap since =>
      Some (set_local g (AtReload since) (match cache s with None => publish s | Some _ => s end))
  | AtReload since =>
      match cache s with
      | Some e => Some (set_local g (AtRead since e) s)
      | None => Some (set_local g Panicked s)
      end
  | AtRead since e =>
      en ← entries s !! e;
      match lock en, result en with
      | Some _, _ => None
      | None, Some r => Some (set_local g (Returned since (inl r)) s)
      | None, None => Some (set_local g (AtLock since e) s)
      end
  | AtLock since e =>
      en ← entries s !! e;
      match lock en with
      | Some _ => None
      | None => Some (set_local g (Locked since e) (set_entry e (mkEntry (Some g) (result en) (pub en)) s))
      end
  | Locked since e =>
      en ← entries s !! e;
      match result en with
      | Some r => Some (set_local g (Returned since (inl r)) (set_entry e (mkEntry None (result en) (pub en)) s))
      | None => Some (set_local g (Evaluating since e (source s)) s)
      end
  | Evaluating since e from =>
      en ← entries s !! e;
      match out with
      | None => None
      | Some (inl v) =>
          if decide (from <= v <= source s) then
            Some (set_local g (Returned since (inl (data v))) (set_entry e (mkEntry None (Some (data v)) (pub en)) s))
          else None
      | Some (inr err) =>
          Some (set_local g (Returned since (inr err)) (set_entry e (mkEntry None (result en) (pub en)) s))
      end
  end.

(** What may happen next: the source changes, someone notifies, a goroutine calls
    [Get], goes on with it, or has taken its answer. *)
Inductive action : Type :=
| Change
| DoNotify
| Call (g : nat)
| Go (g : nat) (out : option (nat + E))
| Take (g : nat).

Definition step (data : nat -> T) (a : action) (s : state) : option state :=
  match a with
  | Change => Some (mkState (cache s) (entries s) (goroutines s) (S (source s)) (notified s))
  | DoNotify => Some (Notify s)
  | Call g => match at_ g s with Idle => Some (set_local g (AtLoad (notified s)) s) | _ => None end
  | Go g out => get_step data g out s
  | Take g => match at_ g s with Returned _ _ => Some (set_local g Idle s) | _ => None end
  end.

Fixpoint steps (data : nat -> T) (l : list action) (s : state) : option state :=
  match l with
  | [] => Some s
  | a :: l => s ← step data a s; steps data l s
  end.

End lazy.
Arguments cacheEntry : clear implicits.
Arguments local : clear implicits.
Arguments state : clear implicits.
Arguments action : clear implicits.

Section correctness.
Context {T E : Type}.
Variable data : nat -> T.
Implicit Types (s : state T E) (e g : nat).

(** What holds where a goroutine is. *)
Definition local_ok s g (l : local T E) : Prop :=
  match l with
  | Idle | Returned _ (inr _) => True
  | AtLoad since | AtSwap since => since <= notified s
  | AtReload since => since <= notified s /\ is_Some (cache s)
  | AtRead since e | AtLock since e => exists en, entries s !! e = Some en /\ since <= pub en
  | Locked since e => exists en, entries s !! e = Some en /\ since <= pub en /\ lock en = Some g
  | Evaluating since e from =>
      exists en, entries s !! e = Some en /\ since <= pub en /\ lock en = Some g /\ result en = None /\ pub en <= from <= source s
  | Returned since (inl r) => exists v, since <= v <= source s /\ r = data v
  | Panicked => False
  end.

Definition holds_lock e (l : local T E) : Prop :=
  match l with Locked _ e' | Evaluating _ e' _ => e' = e | _ => False end.

(** The cached entry is at least as new as the last notification, and a result was
    computed after its entry was published. *)
Record lazy_ok s : Prop := {
  ok_notified : notified s <= source s;
  ok_cache e : cache s = Some e -> exists en, entries s !! e = Some en /\ notified s <= pub en;
  ok_pub e en : entries s !! e = Some en -> pub en <= source s;
  ok_result e en r : entries s !! e = Some en -> result en = Some r -> exists v, pub en <= v <= source s /\ r = data v;
  ok_lock e en g : entries s !! e = Some en -> lock en = Some g -> holds_lock e (at_ g s);
  ok_local g : local_ok s g (at_ g s)
}.

(** What a step of [g] may change for the others. *)
Definition grows g s s' : Prop :=
  source s <= source s' /\ notified s <= notified s' /\ (is_Some (cache s) -> is_Some (cache s')) /\
  forall e en, entries s !! e = Some en -> exists en', entries s' !! e = Some en' /\ pub en' = pub en /\
    (forall g', lock en = Some g' -> g' <> g -> lock en' = lock en /\ result en' = result en).

Lemma local_ok_grows g g' s s' l : grows g s s' -> g' <> g -> local_ok s g' l -> local_ok s' g' l.
Proof.
  intros (Hs & Hn & Hc & He) Hne. destruct l as [|since|since|since|since e|since e|since e|since e from|since [r|err]|];
    cbn; try done; try lia.
  - intros [? ?]. split; [lia|auto].
  - intros (en & Hen & ?). destruct (He _ _ Hen) as (en' & ? & Hp & _). exists en'. rewrite Hp. auto.
  - intros (en & Hen & ?). destruct (He _ _ Hen) as (en' & ? & Hp & _). exists en'. rewrite Hp. auto.
  - intros (en & Hen & ? & Hl). destruct (He _ _ Hen) as (en' & ? & Hp & Hk). destruct (Hk g' Hl Hne) as [Hl' _].
    exists en'. rewrite Hp, Hl'. auto.
  - intros (en & Hen & ? & Hl & Hr & ?). destruct (He _ _ Hen) as (en' & ? & Hp & Hk). destruct (Hk g' Hl Hne) as [Hl' Hr'].
    exists en'. rewrite Hp, Hl', Hr'. split_and!; try done; lia.
  - intros (v & ? & ->). exists v. split; [lia|done].
Qed.

Lemma at_set_local g l g' s : at_ g' (set_local g l s) = if decide (g' = g) then l else at_ g' s.
Proof. unfold at_. cbn. case_decide as Hd; [subst; by rewrite lookup_insert_eq|by rewrite lookup_insert_ne]. Qed.

(** A goroutine moves and nothing else changes. *)
Lemma lazy_ok_move g l s : lazy_ok s -> local_ok s g l -> (forall e, holds_lock e (at_ g s) -> holds_lock e l) ->
  lazy_ok (set_local g l s).
Proof.
  intros [Hn Hc Hp Hr Hl Ho] Hg Hk. constructor; try done.
  - intros e en g' He Hlk. rewrite at_set_local. case_decide as Hd; [subst g'; apply Hk; by apply (Hl e en)|by apply (Hl e en)].
  - intros g'. rewrite at_set_local. case_decide as Hd; [by subst|]. apply (Ho g').
Qed.

(** A goroutine moves and rewrites an entry whose lock it has, takes or gives back. *)
Lemma lazy_ok_entry g l e en en' s :
  lazy_ok s -> entries s !! e = Some en -> pub en' = pub en -> (lock en = None \/ lock en = Some g) ->
  (lock en' = None \/ lock en' = Some g) -> (lock en' = Some g <-> holds_lock e l) ->
  (forall e', e' <> e -> holds_lock e' (at_ g s) -> holds_lock e' l) ->
  (forall r, result en' = Some r -> exists v, pub en <= v <= source s /\ r = data v) ->
  local_ok (set_entry e en' s) g l -> lazy_ok (set_local g l (set_entry e en' s)).
Proof.
  intros [Hn Hc Hp Hr Hl Ho] He Hpub Hlk Hlk' Hold Hothers Hres Hg.
  assert (Hlt : e < length (entries s)) by (by apply lookup_lt_Some in He).
  assert (Hlook : forall e' en0, entries (set_entry e en' s) !! e' = Some en0 ->
    (e' = e /\ en0 = en') \/ (e' <> e /\ entries s !! e' = Some en0)).
  { intros e' en0. cbn. destruct (decide (e' = e)) as [->|Hne].
    - rewrite list_lookup_insert_eq by done. intros [= <-]. by left.
    - rewrite list_lookup_insert_ne by done. by right. }
  assert (Hgrow : grows g s (set_entry e en' s)).
  { split_and!; try done. intros e' en0 He'. destruct (decide (e' = e)) as [->|Hne].
    - exists en'. cbn. rewrite list_lookup_insert_eq by done. simplify_eq. split_and!; try done.
      intros g' Hg' Hne. destruct Hlk; congruence.
    - exists en0. cbn. by rewrite list_lookup_insert_ne. }
  constructor.
  - done.
  - intros e' Hc'. destruct (Hc e' Hc') as (en0 & He' & Hle). destruct Hgrow as (_ & _ & _ & Hen).
    destruct (Hen _ _ He') as (en1 & ? & Hpe & _). exists en1. by rewrite Hpe.
  - intros e' en0 [[-> ->]|[_ He']]%Hlook; [rewrite Hpub|]; by eapply Hp.
  - intros e' en0 r [[-> ->]|[_ He']]%Hlook; [rewrite Hpub; apply Hres|by apply (Hr e' en0)].
  - intros e' en0 g' [[-> ->]|[Hne He']]%Hlook Hlock; rewrite at_set_local; case_decide as Hd.
    + subst. by apply Hold.
    + destruct Hlk'; congruence.
    + subst. apply Hothers; [done|]. by eapply Hl.
    + by eapply Hl.
  - intros g'. rewrite at_set_local. case_decide as Hd; [by subst|]. by eapply (local_ok_grows g), (Ho g').
Qed.

(** A new entry is published. *)
Lemma grows_publish g s : grows g s (publish s).
Proof.
  split_and!; cbn; try done. intros e en He. exists en. split; [|done]. by apply lookup_app_l_Some.
Qed.

Lemma lazy_ok_publish n s : lazy_ok s -> notified s <= n <= source s ->
  lazy_ok (mkState (cache (publish s)) (entries (publish s)) (goroutines s) (source s) n).
Proof.
  intros [Hn Hc Hp Hr Hl Ho] Hle.
  assert (Hlook : forall e en, (entries s ++ [newCacheEntry s]) !! e = Some en -> entries s !! e = Some en \/ en = newCacheEntry s).
  { intros e en [He|[_ He]]%lookup_app_Some; [by left|right]. apply list_lookup_singleton_Some in He as [_ <-]. done. }
  constructor; cbn.
  - lia.
  - intros e [= <-]. exists (newCacheEntry s). split; [by rewrite lookup_app_r, Nat.sub_diag|]. cbn. lia.
  - intros e en [He| ->]%Hlook; [by eapply Hp|done].
  - intros e en r [He| ->]%Hlook; [by apply (Hr e en)|done].
  - intros e en g [He| ->]%Hlook; [by apply (Hl e en)|done].
  - intros g. assert (Hgrow : grows (S g) s (mkState (cache (publish s)) (entries (publish s)) (goroutines s) (source s) n)).
    { destruct (grows_publish (S g) s) as (? & ? & ? & Hen). split_and!; cbn; try done; lia. }
    eapply local_ok_grows; [exact Hgrow|lia|apply (Ho g)].
Qed.

Lemma lazy_get_step_ok g out s s' : lazy_ok s -> get_step data g out s = Some s' -> lazy_ok s'.
Proof.
  intros Hok. pose proof (ok_local s Hok g) as Hg. unfold get_step.
  destruct (at_ g s) as [|since|since|since|since e|since e|since e|since e from|since res|] eqn:Hat; try done; cbn in Hg.
  - destruct (cache s) as [e|] eqn:Hc; intros [= <-]; apply lazy_ok_move; rewrite ?Hat; try done; cbn.
    destruct (ok_cache s Hok e Hc) as (en & ? & ?). exists en. split; [done|lia].
  - intros [= <-]. destruct (cache s) as [e|] eqn:Hc.
    + apply lazy_ok_move; rewrite ?Hat; cbn; rewrite ?Hc; eauto.
    + apply lazy_ok_move; [|cbn; eauto|change (at_ g (publish s)) with (at_ g s); by rewrite Hat].
      apply (lazy_ok_publish (notified s)); [done|]. pose proof (ok_notified s Hok). lia.
  - destruct Hg as [Hle [e Hc]]. rewrite Hc. intros [= <-]. apply lazy_ok_move; rewrite ?Hat; try done. cbn.
    destruct (ok_cache s Hok e Hc) as (en & ? & ?). exists en. split; [done|lia].
  - destruct Hg as (en & He & Hle). rewrite He. cbn. destruct (lock en); [done|].
    destruct (result en) as [r|] eqn:Hr; intros [= <-]; apply lazy_ok_move; rewrite ?Hat; try done; cbn; [|by exists en].
    destruct (ok_result s Hok e en r He Hr) as (v & ? & ->). exists v. split; [lia|done].
  - destruct Hg as (en & He & Hle). rewrite He. cbn. destruct (lock en) eqn:Hl; [done|]. intros [= <-].
    apply (lazy_ok_entry g _ e en); try done; auto; cbn; rewrite ?Hat.
    + intros e' _ [].
    + intros r Hr. by apply (ok_result s Hok e).
    + exists (mkEntry (Some g) (result en) (pub en)). rewrite list_lookup_insert_eq by (by apply lookup_lt_Some in He). done.
  - destruct Hg as (en & He & Hle & Hl). rewrite He. cbn. destruct (result en) as [r|] eqn:Hr; intros [= <-].
    + destruct (ok_result s Hok e en r He Hr) as (v & Hv & Hdata).
      apply (lazy_ok_entry g _ e en); try done; auto; cbn; rewrite ?Hat.
      * intros e' Hne <-. done.
      * intros r' [= <-]. by exists v.
      * exists v. split; [lia|done].
    + apply lazy_ok_move; rewrite ?Hat; try done. cbn. exists en. pose proof (ok_pub s Hok e en He). split_and!; try done.
  - destruct Hg as (en & He & Hle & Hl & Hr & Hfrom). rewrite He. cbn. destruct out as [[v|err]|]; [| |done].
    + case_decide as Hv; [|done]. intros [= <-]. apply (lazy_ok_entry g _ e en); try done; auto; cbn; rewrite ?Hat.
      * intros e' Hne <-. done.
      * intros r [= <-]. exists v. split; [lia|done].
      * exists v. split; [lia|done].
    + intros [= <-]. apply (lazy_ok_entry g _ e en); try done; auto; cbn; rewrite ?Hat.
      * intros e' Hne <-. done.
      * by rewrite Hr.
Qed.

Lemma lazy_step_ok a s s' : lazy_ok s -> step data a s = Some s' -> lazy_ok s'.
Proof.
  intros Hok. destruct a as [| |g|g out|g]; cbn [step].
  - intros [= <-]. destruct Hok as [Hn Hc Hp Hr Hl Ho]. constructor; cbn; try done.
    + lia.
    + intros e en He. pose proof (Hp e en He). lia.
    + intros e en r He Hres. destruct (Hr e en r He Hres) as (v & ? & ->). exists v. split; [lia|done].
    + intros g. apply (local_ok_grows (S g) g s); [|lia|apply (Ho g)]. split_and!; cbn; try done; [lia|].
      intros e en He. by exists en.
  - intros [= <-]. pose proof (ok_notified s Hok). by apply (lazy_ok_publish (source s) s).
  - destruct (at_ g s) eqn:Hat; try done. intros [= <-]. apply lazy_ok_move; rewrite ?Hat; done || (cbn; lia).
  - by apply lazy_get_step_ok.
  - destruct (at_ g s) eqn:Hat; try done. intros [= <-]. apply lazy_ok_move; rewrite ?Hat; done.
Qed.

Lemma lazy_start_ok : lazy_ok start.
Proof. by constructor. Qed.

Lemma steps_ok l s s' : lazy_ok s -> steps data l s = Some s' -> lazy_ok s'.
Proof.
  revert s. induction l as [|a l IH]; intros s Hok; cbn; [by intros [= <-]|].
  destruct (step data a s) as [s1|] eqn:Hs; [|done]. cbn. apply IH. by apply (lazy_step_ok a s).
Qed.

(** However goroutines that call [Get], [Notify] and change the source
    interleave, a value that [Get] returns is what the source evaluated to at some
    moment no earlier than the last change that [Notify] was called for before the call
    of [Get]; and [Get] never uses a nil entry. *)
Theorem lazy_get_fresh l s g :
  steps data l start = Some s ->
  match at_ g s with
  | Returned since (inl r) => exists v, since <= v <= source s /\ r = data v
  | Panicked => False
  | _ => True
  end.
Proof.
  intros Hl. pose proof (ok_local s (steps_ok l start s lazy_start_ok Hl) g) as Hg.
  destruct (at_ g s) as [| | | | | | | |since [r|err]|]; done.
Qed.

(** An entry is evaluated by one goroutine at a time, and never again once it
    has a value: between two calls of [Notify] a value is computed at most once, and all
    callers of the entry get it. *)
Theorem lazy_evaluates_once l s g1 g2 since1 since2 e from1 from2 :
  steps data l start = Some s ->
  at_ g1 s = Evaluating since1 e from1 ->
  (exists en, entries s !! e = Some en /\ result en = None) /\ (at_ g2 s = Evaluating since2 e from2 -> g2 = g1).
Proof.
  intros Hl H1. pose proof (steps_ok l start s lazy_start_ok Hl) as Hok.
  pose proof (ok_local s Hok g1) as Hg1. rewrite H1 in Hg1. destruct Hg1 as (en & He & _ & Hl1 & Hr & _). split; [by exists en|].
  intros H2. pose proof (ok_local s Hok g2) as Hg2. rewrite H2 in Hg2. destruct Hg2 as (en' & He' & _ & Hl2 & _). congruence.
Qed.

(** A goroutine within [Get] is never stuck: it can take its next step, or it
    waits for the lock of an entry whose holder can. *)
Theorem lazy_progress l s g err :
  steps data l start = Some s ->
  match at_ g s with
  | Idle | Returned _ _ => True
  | _ => exists g' out, is_Some (get_step data g' out s) /\ (out = None \/ out = Some (inr err)) /\
           (g' = g \/ exists since e, (at_ g s = AtRead since e \/ at_ g s = AtLock since e) /\ holds_lock e (at_ g' s))
  end.
Proof.
  intros Hl. pose proof (steps_ok l start s lazy_start_ok Hl) as Hok. pose proof (ok_local s Hok g) as Hg.
  assert (Hholder : forall e en g', entries s !! e = Some en -> lock en = Some g' ->
    exists out, is_Some (get_step data g' out s) /\ (out = None \/ out = Some (inr err)) /\ holds_lock e (at_ g' s)).
  { intros e en g' He Hlk. pose proof (ok_lock s Hok e en g' He Hlk) as Hh. unfold get_step.
    destruct (at_ g' s) as [| | | | | |since e'|since e' from| |]; try done; cbn in Hh; subst e'.
    - exists None. rewrite He. cbn. destruct (result en); eauto.
    - exists (Some (inr err)). rewrite He. cbn. eauto. }
  destruct (at_ g s) as [|since|since|since|since e|since e|since e|since e from|since res|] eqn:Hat; try done; cbn in Hg.
  - exists g, None. unfold get_step. rewrite Hat. destruct (cache s); eauto.
  - exists g, None. unfold get_step. rewrite Hat. eauto.
  - exists g, None. unfold get_step. rewrite Hat. destruct (cache s); eauto.
  - destruct Hg as (en & He & _). destruct (lock en) as [g'|] eqn:Hlk.
    + destruct (Hholder e en g' He Hlk) as (out & ? & ? & ?). exists g', out. eauto 8.
    + exists g, None. unfold get_step. rewrite Hat, He. cbn. rewrite Hlk. destruct (result en); eauto.
  - destruct Hg as (en & He & _). destruct (lock en) as [g'|] eqn:Hlk.
    + destruct (Hholder e en g' He Hlk) as (out & ? & ? & ?). exists g', out. eauto 8.
    + exists g, None. unfold get_step. rewrite Hat, He. cbn. rewrite Hlk. eauto.
  - destruct Hg as (en & He & _). exists g, None. unfold get_step. rewrite Hat, He. cbn. destruct (result en); eauto.
  - destruct Hg as (en & He & _). exists g, (Some (inr err)). unfold get_step. rewrite Hat, He. cbn. eauto.
Qed.

End correctness.

(** ** A concrete run *)

Module samples.

(** Two goroutines race for a nil pointer; a change and a notification come while the
    first evaluates, so its value is the old one and a later call evaluates again. *)
Definition run : list (action unit) :=
  [Change; Call 1; Call 2; Go 1 None; Go 2 None; Go 1 None; Go 2 None; Go 1 None; Go 2 None; Go 1 None; Go 2 None;
   Go 1 None; Go 1 None; Change; DoNotify; Go 1 (Some (inl 1)); Go 2 None; Go 2 None;
   Call 3; Go 3 None; Go 3 None; Go 3 None; Go 3 None; Go 3 (Some (inl 2))].

Definition double (v : nat) : nat := 2 * v.

Definition final : state nat unit := default start (steps double run start).

Lemma lazy_get_fresh_witness :
  at_ 3 final = Returned 2 (inl 4) /\ at_ 2 final = Returned 0 (inl 2) /\
  exists v, 2 <= v <= source final /\ 4 = double v.
Proof.
  split; [vm_compute; reflexivity|]. split; [vm_compute; reflexivity|].
  exact (lazy_get_fresh double run final 3 ltac:(vm_compute; reflexivity)).
Defined.

Definition evaluating : state nat unit := default start (steps double (take 13 run) start).

Lemma lazy_evaluates_once_witness :
  at_ 1 evaluating = Evaluating 0 0 1 /\
  (exists en, entries evaluating !! 0 = Some en /\ result en = None) /\ (at_ 2 evaluating = Evaluating 0 0 1 -> 2 = 1).
Proof.
  split; [vm_compute; reflexivity|].
  exact (lazy_evaluates_once double (take 13 run) evaluating 1 2 0 0 0 1 1 ltac:(vm_compute; reflexivity)
    ltac:(vm_compute; reflexivity)).
Defined.

Lemma lazy_progress_witness :
  at_ 2 evaluating = AtLock 0 0 /\
  exists g' out, is_Some (get_step double g' out evaluating) /\ (out = None \/ out = Some (inr tt)) /\
    (g' = 2 \/ exists since e, (at_ 2 evaluating = AtRead since e \/ at_ 2 evaluating = AtLock since e) /\
      holds_lock e (at_ g' evaluating)).
Proof.
  split; [vm_compute; reflexivity|].
  exact (lazy_progress double (take 13 run) evaluating 2 tt ltac:(vm_compute; reflexivity)).
Defined.

End samples.

End Lazy.
