(* ===== verification/Listers.v ===== *)
(** * Listers: tools/cache/listers.go.

    The read side of an informer's store: lists by label selector, of everything or of
    a namespace, and lookups by name.  A list of a namespace uses the namespace index
    when there is one and searches everything otherwise; both are proved to be the same
    list.  Selectors and labels are k8s.io/apimachinery. *)

From S2P Require Import Prelude Objects ThreadSafeStore Store.

(** [labels.Selector]: [Matches] is asked with the labels of the object's metadata. *)
Class LabelSelectors (O : Type) : Type := {
  Selector : Type;
  Empty : Selector -> bool;
  Matches : Selector -> iface (value O) -> bool;
  Empty_law sel obj : Empty sel = true -> Matches sel obj = true
}.

(** [&metav1.ObjectMeta{Namespace: namespace}], of which only the metadata count. *)
Class NamespaceMeta (O : Type) `{MetaAccessor O} : Type := {
  namespace_meta : string -> value O;
  namespace_meta_law ns : exists m, Accessor (Some (namespace_meta ns)) = Ok m /\ GetNamespace m = ns
}.

Definition NamespaceIndex : string := "namespace".
Definition NamespaceAll : string := "".

Section listers.
Context {O : Type} `{MetaAccessor O} `{!LabelSelectors O, !NamespaceMeta O} `{MapRange, SetsString}.
Local Abbreviation indexer := (cache (value O) (threadSafeMap (value O))).

(** What has been appended, and the error that ended the loop. *)
Fixpoint append_matching (selector : Selector) (items : list (iface (value O))) (ret : list (iface (value O)))
    : list (iface (value O)) * option (error (value O)) :=
  match items with
  | [] => (ret, None)
  | m :: items =>
      if Empty selector then append_matching selector items (ret ++ [m])
      else
        match Accessor m with
        | Err err => (ret, Some err)
        | Ok _ => append_matching selector items (if Matches selector m then ret ++ [m] else ret)
        end
  end.

Definition ListAll (store : indexer) (selector : Selector) : list (iface (value O)) * option (error (value O)) :=
  append_matching selector (cache_List store) [].

(** The search without an index. *)
Fixpoint append_in_namespace (namespace : string) (selector : Selector) (items ret : list (iface (value O)))
    : list (iface (value O)) * option (error (value O)) :=
  match items with
  | [] => (ret, None)
  | m :: items =>
      match Accessor m with
      | Err err => (ret, Some err)
      | Ok metadata =>
          append_in_namespace namespace selector items
            (if (bool_decide (GetNamespace metadata = namespace) && Matches selector m)%bool then ret ++ [m] else ret)
      end
  end.

Definition ListAllByNamespace (indexer : indexer) (namespace : string) (selector : Selector)
    : list (iface (value O)) * option (error (value O)) :=
  if decide (namespace = NamespaceAll) then ListAll indexer selector
  else
    match cache_Index NamespaceIndex (Some (namespace_meta namespace)) indexer with
    | Err _ => append_in_namespace namespace selector (cache_List indexer) []
    | Ok items => append_matching selector items []
    end.

(** [m.(runtime.Object)] of every item: [None] is the panic of one that is no object. *)
Definition as_object (m : iface (value O)) : option O :=
  match m with Some (VObject o) => Some o | _ => None end.

Definition objects_of (res : list (iface (value O)) * option (error (value O)))
    : option (list O * option (error (value O))) :=
  ret ← mapM as_object res.1; Some (ret, res.2).

Definition genericLister_List (indexer : indexer) (selector : Selector) : option (list O * option (error (value O))) :=
  objects_of (ListAll indexer selector).

Definition genericNamespaceLister_List (indexer : indexer) (namespace : string) (selector : Selector)
    : option (list O * option (error (value O))) :=
  objects_of (ListAllByNamespace indexer namespace selector).

(** A lookup: the object, an error of the indexer, or that it is not found. *)
Inductive get_result : Type :=
| Found (o : O)
| NotFound (name : string)
| Failed (err : error (value O))
| Panics.

Definition get_by_key (indexer : indexer) (key name : string) : get_result :=
  match cache_GetByKey key indexer with
  | (_, _, Some err) => Failed err
  | (_, false, None) => NotFound name
  | (obj, true, None) => match as_object obj with Some o => Found o | None => Panics end
  end.

Definition genericLister_Get (indexer : indexer) (name : string) : get_result := get_by_key indexer name name.

Definition genericNamespaceLister_Get (indexer : indexer) (namespace name : string) : get_result :=
  get_by_key indexer (namespace +:+ "/" +:+ name) name.

(** ** Lemmas *)

Definition has_meta (m : iface (value O)) : Prop := is_ok (Accessor m) = true.

(** The namespace an object's metadata name. *)
Definition namespace_of (m : iface (value O)) : option string :=
  match Accessor m with Ok metadata => Some (GetNamespace metadata) | Err _ => None end.

Lemma append_matching_filter selector items ret :
  Forall has_meta items ->
  append_matching selector items ret = (ret ++ filter (fun m => Matches selector m = true) items, None).
Proof.
  intros Hm. revert ret. induction Hm as [|m items Hm _ IH]; intros ret; cbn [append_matching].
  - by rewrite app_nil_r.
  - unfold has_meta in Hm. destruct (Empty selector) eqn:E.
    + rewrite IH, filter_cons_True by (by apply Empty_law). by rewrite <- app_assoc.
    + destruct (Accessor m); [|done]. rewrite IH, filter_cons. destruct (Matches selector m) eqn:Em.
      * rewrite decide_True by done. by rewrite <- app_assoc.
      * by rewrite decide_False.
Qed.

Lemma append_in_namespace_filter namespace selector items ret :
  Forall has_meta items ->
  append_in_namespace namespace selector items ret =
    (ret ++ filter (fun m => namespace_of m = Some namespace /\ Matches selector m = true) items, None).
Proof.
  intros Hm. revert ret. induction Hm as [|m items Hm _ IH]; intros ret; cbn [append_in_namespace].
  - by rewrite app_nil_r.
  - unfold has_meta in Hm. rewrite filter_cons. destruct (Accessor m) as [metadata|] eqn:Ea; [|done].
    assert (Hns : namespace_of m = Some (GetNamespace metadata)) by (unfold namespace_of; by rewrite Ea).
    rewrite IH. destruct (bool_decide (GetNamespace metadata = namespace)) eqn:E1; bool_to_prop; cbn [andb].
    + destruct (Matches selector m) eqn:E2.
      * rewrite decide_True by (by rewrite Hns, E1). by rewrite <- app_assoc.
      * rewrite decide_False; [done|]. naive_solver.
    + rewrite decide_False; [done|]. naive_solver.
Qed.

Lemma objects_perm (l1 l2 : list (iface (value O))) os :
  l1 ≡ₚ l2 -> mapM as_object l2 = Some os -> exists os', mapM as_object l1 = Some os' /\ os' ≡ₚ os.
Proof.
  rewrite mapM_Some. intros Hp Hf. revert l2 Hp os Hf.
  induction l1 as [|m l1 IH]; intros l2 Hp os Hf.
  - symmetry in Hp. apply Permutation_nil_r in Hp. subst l2. inversion Hf; subst. by exists [].
  - apply Permutation_cons_inv_l in Hp as (k1 & k2 & -> & Hp). apply Forall2_app_inv_l in Hf as (os1 & os2 & Hos1 & Hos2 & ->).
    inversion Hos2 as [|? o ? os2' Ho Hos2']; subst.
    destruct (IH (k1 ++ k2) Hp (os1 ++ os2')) as (os' & Hos & Hperm); [by apply Forall2_app|].
    exists (o :: os'). cbn. rewrite Ho, Hos. cbn. split; [done|]. rewrite Hperm. apply Permutation_middle.
Qed.

(** The items of a store, in no particular order. *)
Definition contents (m : gmap string (iface (value O))) : list (iface (value O)) := (map_to_list m).*2.

Definition selected (namespace : string) (selector : Selector) (m : gmap string (iface (value O)))
    : list (iface (value O)) :=
  filter (fun x => (namespace = NamespaceAll \/ namespace_of x = Some namespace) /\ Matches selector x = true) (contents m).

(** The namespace index is the function that comes with the package, if there is one. *)
Definition indexes_namespaces (c : threadSafeMap (value O)) : Prop :=
  match indexers (index c) !! NamespaceIndex with Some f => f = MetaNamespaceIndexFunc | None => True end.

Lemma list_filter_map_to_list (ks : list string) (m : gmap string (iface (value O))) (P : iface (value O) -> Prop)
    `{!forall x, Decision (P x)} :
  NoDup ks -> (forall k, k ∈ ks <-> exists x, m !! k = Some x /\ P x) ->
  item_at m <$> ks ≡ₚ filter P (contents m).
Proof.
  intros Hnd Hks. unfold contents.
  assert (Hf : filter P (map_to_list m).*2 = (filter (fun kv => P kv.2) (map_to_list m)).*2).
  { induction (map_to_list m) as [|[k x] l IH]; [done|]. cbn [fmap list_fmap]. rewrite !filter_cons. cbn.
    destruct (decide (P x)); cbn; by rewrite IH. }
  rewrite Hf. assert (Hp : ks ≡ₚ (filter (fun kv => P kv.2) (map_to_list m)).*1).
  { apply NoDup_Permutation; [done| |].
    - apply NoDup_fmap_fst.
      + intros k x y [_ Hx%elem_of_map_to_list]%list_elem_of_filter [_ Hy%elem_of_map_to_list]%list_elem_of_filter. congruence.
      + apply NoDup_filter, NoDup_map_to_list.
    - intros k. rewrite Hks, list_elem_of_fmap. split.
      + intros (x & Hx & HP). exists (k, x). split; [done|]. apply list_elem_of_filter. split; [done|].
        by apply elem_of_map_to_list.
      + intros ([k' x] & -> & [HP Hx%elem_of_map_to_list]%list_elem_of_filter). by exists x. }
  rewrite Hp, <- list_fmap_compose. apply Permutation_refl'. apply list_fmap_ext.
  intros i [k x] Hi%list_elem_of_lookup_2. apply list_elem_of_filter in Hi as [_ Hx%elem_of_map_to_list].
  unfold item_at. cbn. by rewrite Hx.
Qed.

(** A lister lists, of a store that only objects with metadata were put into,
    exactly the objects of the namespace (or of all) that the selector matches, each
    once and without an error, whether the namespace index serves the list, or there is
    no index and everything is searched. *)
Theorem lister_lists_namespace (c : threadSafeMap (value O)) (m : gmap string (iface (value O))) kf namespace selector :
  store_reach c m -> map_Forall (fun _ x => exists o, x = Some (VObject o) /\ has_meta x) m -> indexes_namespaces c ->
  exists objs, genericNamespaceLister_List (mkCache c kf) namespace selector = Some (objs, None) /\
    Some <$> (VObject <$> objs) ≡ₚ selected namespace selector m.
Proof.
  intros Hr Hm Hix. destruct (store_reach_wf _ _ Hr) as [_ Hitems].
  assert (Hall : Forall has_meta (contents m)).
  { unfold contents. apply Forall_fmap, Forall_forall. intros [k x] Hk%elem_of_map_to_list. cbn.
    destruct (Hm k x Hk) as (o & -> & Ho). done. }
  assert (Hlist : threadSafeMap_List c ≡ₚ contents m).
  { unfold threadSafeMap_List, contents. rewrite Hitems. by rewrite (range_perm m). }
  assert (Hmeta : Forall has_meta (threadSafeMap_List c)) by (by rewrite Hlist).
  assert (Hres : exists l, ListAllByNamespace (mkCache c kf) namespace selector = (l, None) /\ l ≡ₚ selected namespace selector m).
  { unfold ListAllByNamespace, ListAll, cache_List, cache_Index. cbn [cacheStorage ts_List ts_Index threadSafeMap_ThreadSafeStore].
    unfold selected. case_decide as Hns.
    - rewrite append_matching_filter by done. eexists. split; [done|]. cbn. rewrite Hlist. apply Permutation_refl'.
      apply list_filter_iff. naive_solver.
    - pose proof (reachable_Index_query c m NamespaceIndex (Some (namespace_meta namespace)) Hr) as Hq.
      unfold indexes_namespaces in Hix. destruct (indexers (index c) !! NamespaceIndex) as [f|]; [|rewrite Hq].
      + subst f. destruct (namespace_meta_law namespace) as (mt & Hmt & Hgn). unfold MetaNamespaceIndexFunc in Hq at 1.
        rewrite Hmt, Hgn in Hq. destruct Hq as (ks & -> & Hnd & Hks).
        assert (Hperm : item_at m <$> ks ≡ₚ filter (fun x => namespace_of x = Some namespace) (contents m)).
        { apply list_filter_map_to_list; [done|]. intros k. rewrite Hks. split.
          - intros (v & o & ws & ->%list_elem_of_singleton & Hk & Hf & Hin). exists (Some o). split; [done|].
            unfold namespace_of. unfold MetaNamespaceIndexFunc in Hf. destruct (Accessor (Some o)) as [mm|]; [|done].
            injection Hf as <-. apply list_elem_of_singleton in Hin. congruence.
          - intros (x & Hk & Hx). destruct (Hm k x Hk) as (o & -> & _). unfold namespace_of in Hx.
            destruct (Accessor (Some (VObject o))) as [mm|] eqn:Ea; [|done]. injection Hx as Hx.
            exists namespace, (VObject o), [GetNamespace mm]. split_and!; [set_solver|done| |set_solver].
            unfold MetaNamespaceIndexFunc. by rewrite Ea. }
        rewrite append_matching_filter.
        * eexists. split; [done|]. cbn. rewrite Hperm, list_filter_filter. apply Permutation_refl', list_filter_iff. naive_solver.
        * rewrite Hperm. apply Forall_forall. intros x [_ Hx]%list_elem_of_filter. by eapply Forall_forall in Hall.
      + rewrite append_in_namespace_filter by done. eexists. split; [done|]. cbn. rewrite Hlist. apply Permutation_refl'.
        apply list_filter_iff. naive_solver. }
  destruct Hres as (l & Hl & Hp). unfold genericNamespaceLister_List, objects_of. rewrite Hl. cbn.
  assert (Hobjs : exists os, mapM as_object (selected namespace selector m) = Some os /\
    Some <$> (VObject <$> os) = selected namespace selector m).
  { assert (Hfa : Forall (fun x => exists o, x = Some (VObject o)) (selected namespace selector m)).
    { apply Forall_forall. unfold selected, contents. intros x [_ Hx]%list_elem_of_filter.
      apply list_elem_of_fmap in Hx as ([k x'] & -> & Hk%elem_of_map_to_list). destruct (Hm k x' Hk) as (o & -> & _). eauto. }
    revert Hfa. generalize (selected namespace selector m). induction 1 as [|x l' Hx _ IH]; [by exists []|].
    destruct Hx as (o & ->), IH as (os & IH & He). exists (o :: os). cbn. rewrite IH. cbn. by rewrite He. }
  destruct Hobjs as (os & Hos & He). destruct (objects_perm _ _ _ Hp Hos) as (os' & -> & Hperm). cbn.
  exists os'. split; [done|]. by rewrite Hperm, He.
Qed.

End listers.

(** ** A concrete store *)

Module samples.

(** Namespace, name and label. *)
Definition pod : Type := (string * string * string)%type.

#[local] Instance pod_Accessor : MetaAccessor pod := fun x =>
  match x with
  | Some (VObject (ns, name, _)) => Ok {| GetNamespace := ns; GetName := name; GetResourceVersion := "1" |}
  | _ => Err (Errorf "object does not implement the Object interfaces" [])
  end.

Definition no_label (sel : option string) : bool := match sel with None => true | Some _ => false end.

Definition has_label (sel : option string) (x : iface (value pod)) : bool :=
  match sel with
  | None => true
  | Some l => match x with Some (VObject (_, _, l')) => bool_decide (l = l') | _ => false end
  end.

Lemma no_label_matches sel x : no_label sel = true -> has_label sel x = true.
Proof. by destruct sel. Qed.

#[local] Instance pod_Selectors : LabelSelectors pod := {|
  Selector := option string;
  Empty := no_label;
  Matches := has_label;
  Empty_law := no_label_matches
|}.

#[local] Program Instance pod_Meta : NamespaceMeta pod := { namespace_meta := fun ns => VObject (ns, "", "") }.
Next Obligation. intros ns. eexists. split; [reflexivity|done]. Qed.

#[local] Existing Instance range_in_key_order.
#[local] Existing Instance sets_in_key_order.

Definition c0 : threadSafeMap (value pod) := NewThreadSafeStore {["namespace" := MetaNamespaceIndexFunc]} ∅.
Definition c1 := default c0 (threadSafeMap_Add "a/x" (Some (VObject ("a", "x", "red"))) c0).
Definition c2 := default c0 (threadSafeMap_Add "b/y" (Some (VObject ("b", "y", "red"))) c1).
Definition c3 := default c0 (threadSafeMap_Add "a/z" (Some (VObject ("a", "z", "blue"))) c2).
Definition m3 : gmap string (iface (value pod)) :=
  <["a/z" := Some (VObject ("a", "z", "blue"))]> (<["b/y" := Some (VObject ("b", "y", "red"))]>
    (<["a/x" := Some (VObject ("a", "x", "red"))]> ∅)).

Lemma pod_indexable p (c : threadSafeMap (value pod)) :
  indexers (index c) = {["namespace" := MetaNamespaceIndexFunc]} -> indexable (indexers (index c)) (Some (VObject p)).
Proof. intros -> name f [<- <-]%lookup_singleton_Some. destruct p as [[ns n] l]. by eexists. Qed.

Lemma c3_reach : store_reach c3 m3.
Proof.
  eapply (reach_Add range_in_key_order "a/z" _ c2); [|by apply pod_indexable|by vm_compute].
  eapply (reach_Add range_in_key_order "b/y" _ c1); [|by apply pod_indexable|by vm_compute].
  eapply (reach_Add range_in_key_order "a/x" _ c0); [|by apply pod_indexable|by vm_compute].
  apply reach_New.
Qed.

Lemma m3_objects : map_Forall (fun _ x => exists o, x = Some (VObject o) /\ has_meta x) m3.
Proof.
  unfold m3. repeat (apply map_Forall_insert_2; [eexists; split; [reflexivity|done]|]). apply map_Forall_empty.
Qed.

Lemma lister_lists_namespace_witness :
  exists objs, genericNamespaceLister_List (mkCache c3 MetaNamespaceKeyFunc) "a" (Some "red") = Some (objs, None) /\
    Some <$> (VObject <$> objs) ≡ₚ [Some (VObject ("a", "x", "red"))].
Proof.
  exact (lister_lists_namespace c3 m3 MetaNamespaceKeyFunc "a" (Some "red") c3_reach m3_objects eq_refl).
Defined.

End samples.
