(* ===== verification/MutationCache.v ===== *)
(** * The mutation cache: tools/cache/mutation_cache.go.

    A view of a store that also knows the results of the caller's own writes: a read
    gives the newer of what the store has and of what was written.  Resource versions
    are compared as integers.  The cache of written objects is the LRUExpireCache of
    k8s.io/apimachinery, a parameter; [now] is its clock.  Every method runs under one
    lock.  A panic is [None]. *)

From S2P Require Import Prelude Objects GoStrings ThreadSafeStore Store.

(** What is live at a time can expire and can be evicted, but not what was just added,
    and nothing else changes. *)
Class LRUExpireCache (V : Type) : Type := {
  Cache : Type;
  NewLRUExpireCache : Z -> Cache;
  live : Z -> Cache -> gmap string V;
  lru_Get : Z -> string -> Cache -> Cache * option V;
  lru_Add : Z -> string -> V -> Z -> Cache -> Cache;
  lru_Remove : string -> Cache -> Cache;
  lru_Keys : Z -> Cache -> list string;
  lru_New_law n now : live now (NewLRUExpireCache n) = ∅;
  lru_expiry now now' c : now <= now' -> live now' c ⊆ live now c;
  lru_Get_law now key c :
    (lru_Get now key c).2 = live now c !! key /\ forall now', now <= now' -> live now' (lru_Get now key c).1 = live now' c;
  lru_Add_law now key v ttl c : 0 < ttl ->
    live now (lru_Add now key v ttl c) ⊆ <[key := v]> (live now c) /\ live now (lru_Add now key v ttl c) !! key = Some v;
  lru_Remove_law now key c : live now (lru_Remove key c) = delete key (live now c);
  lru_Keys_law now c : NoDup (lru_Keys now c) /\ forall key, key ∈ lru_Keys now c <-> is_Some (live now c !! key)
}.

Section mutation_cache.
Context {O : Type} `{MetaAccessor O} `{!LRUExpireCache (iface (value O))}.
Local Abbreviation V := (value O).

(** [None] is the error of [ParseUint], or of an object without metadata. *)
Definition ObjectResourceVersion (obj : O) : option Z :=
  match Accessor (Some (VObject obj)) with
  | Err _ => None
  | Ok m => if decide (GetResourceVersion m = "") then Some 0 else ParseUint (GetResourceVersion m)
  end.

(** It panics on a version that is no integer. *)
Definition CompareResourceVersion (lhs rhs : O) : option Z :=
  lhsVersion ← ObjectResourceVersion lhs;
  rhsVersion ← ObjectResourceVersion rhs;
  Some (if lhsVersion =? rhsVersion then 0 else if lhsVersion <? rhsVersion then -1 else 1).

Section cache.
Context {S : Type} `{StoreI V S} `{MapRange, SetsString}.

(** The backing store and the indexer are shared with an informer. *)
Record mutationCache : Type := mkMutationCache {
  backingCache : S;
  indexer : option (cache V (threadSafeMap V));
  mutations : Cache;
  includeAdds : bool;
  ttl : Z
}.

Definition with_mutations (m : Cache) (c : mutationCache) : mutationCache :=
  mkMutationCache (backingCache c) (indexer c) m (includeAdds c) (ttl c).

Definition NewIntegerResourceVersionMutationCache (backingCache : S) (indexer : option (cache V (threadSafeMap V)))
    (ttl : Z) (includeAdds : bool) : mutationCache :=
  mkMutationCache backingCache indexer (NewLRUExpireCache 100) includeAdds ttl.

(** [obj.(runtime.Object)] *)
Definition as_Object (obj : iface V) : option O := match obj with Some (VObject o) => Some o | _ => None end.

Definition newerObject (now : Z) (key : string) (backing : O) (c : mutationCache) : option (mutationCache * O) :=
  let '(m, mutatedObj) := lru_Get now key (mutations c) in
  match mutatedObj with
  | None => Some (with_mutations m c, backing)
  | Some mutatedObj =>
      match as_Object mutatedObj with
      | None => Some (with_mutations m c, backing)
      | Some mutatedObjRuntime =>
          cmp ← CompareResourceVersion backing mutatedObjRuntime;
          Some (if 0 <=? cmp then (with_mutations (lru_Remove key m) c, backing)
                else (with_mutations m c, mutatedObjRuntime))
      end
  end.

(** The object, whether it exists, and the error. *)
Definition GetByKey (now : Z) (key : string) (c : mutationCache)
    : option (mutationCache * (iface V * bool * option (error V))) :=
  let '(obj, exists_, err) := st_GetByKey key (backingCache c) in
  match err with
  | Some err => Some (c, (None, false, Some err))
  | None =>
      let found c obj :=
        match as_Object obj with
        | None => Some (c, (obj, true, None))
        | Some objRuntime => '(c, newer) ← newerObject now key objRuntime c; Some (c, (Some (VObject newer), true, None))
        end in
      if (exists_ : bool) then found c obj
      else if negb (includeAdds c) then Some (c, (None, false, None))
      else
        let '(m, mutated) := lru_Get now key (mutations c) in
        match mutated with
        | None => Some (with_mutations m c, (None, false, None))
        | Some obj => found (with_mutations m c) obj
        end
  end.

(** The loop of [ByIndex] over the keys of the index. *)
Fixpoint ByIndex_keys (now : Z) (ix : cache V (threadSafeMap V)) (keys : list string) (c : mutationCache)
    : option (mutationCache * (list (iface V) * option (error V))) :=
  match keys with
  | [] => Some (c, ([], None))
  | key :: keys =>
      match cache_GetByKey key ix with
      | (_, _, Some err) => Some (c, ([], Some err))
      | (_, false, None) => ByIndex_keys now ix keys c
      | (obj, true, None) =>
          '(c, item) ← match as_Object obj with
                       | Some objRuntime => '(c, newer) ← newerObject now key objRuntime c; Some (c, Some (VObject newer))
                       | None => Some (c, obj)
                       end;
          '(c, (items, err)) ← ByIndex_keys now ix keys c;
          Some (c, (item :: items, err))
      end
  end.

(** Its loop over the cached mutations. *)
Fixpoint ByIndex_adds (now : Z) (fn : IndexFunc V) (indexKey : string) (keySet : gset string) (keys : list string)
    (c : mutationCache) : mutationCache * list (iface V) :=
  match keys with
  | [] => (c, [])
  | key :: keys =>
      let '(m, updated) := lru_Get now key (mutations c) in
      let c := with_mutations m c in
      let '(c', items) := ByIndex_adds now fn indexKey keySet keys c in
      match updated with
      | None => (c', items)
      | Some updated =>
          if decide (key ∈ keySet) then (c', items)
          else
            match fn updated with
            | Err _ => (c', items)
            | Ok elements => (c', if decide (indexKey ∈ elements) then updated :: items else items)
            end
      end
  end.

(** With an unknown index [fn] would be nil, but then [IndexKeys] has failed. *)
Definition ByIndex (now : Z) (name indexKey : string) (c : mutationCache)
    : option (mutationCache * (list (iface V) * option (error V))) :=
  match indexer c with
  | None => Some (c, ([], Some (Errorf "no indexer has been provided to the mutation cache" [])))
  | Some ix =>
      match cache_IndexKeys name indexKey ix with
      | Err err => Some (c, ([], Some err))
      | Ok keys =>
          '(c, (items, err)) ← ByIndex_keys now ix keys c;
          match err with
          | Some err => Some (c, ([], Some err))
          | None =>
              if includeAdds c then
                fn ← cache_GetIndexers ix !! name;
                let '(c, added) := ByIndex_adds now fn indexKey (list_to_set keys) (lru_Keys now (mutations c)) c in
                Some (c, (items ++ added, None))
              else Some (c, (items, None))
          end
      end
  end.

(** A key function that fails is logged and the mutation dropped. *)
Definition Mutation (now : Z) (obj : iface V) (c : mutationCache) : option mutationCache :=
  match DeletionHandlingMetaNamespaceKeyFunc obj with
  | Err _ => Some c
  | Ok key =>
      let add c := with_mutations (lru_Add now key obj (ttl c) (mutations c)) c in
      match as_Object obj with
      | None => Some (add c)
      | Some objRuntime =>
          let '(m, mutatedObj) := lru_Get now key (mutations c) in
          let c := with_mutations m c in
          match mutatedObj ≫= as_Object with
          | None => Some (add c)
          | Some mutatedObjRuntime =>
              cmp ← CompareResourceVersion objRuntime mutatedObjRuntime;
              Some (if cmp <? 0 then c else add c)
          end
      end
  end.

End cache.
End mutation_cache.
Arguments mutationCache O {_} S.

(** ** One read *)

Section reads.
Context {O : Type} `{MetaAccessor O} `{!LRUExpireCache (iface (value O))} {S : Type} `{StoreLaws (value O) S}
  `{MapRange, SetsString}.
Local Abbreviation V := (value O).
Implicit Types (c : mutationCache O S).

Definition stored c (key : string) : option O := st_items (backingCache c) !! key ≫= as_Object.
Definition written (now : Z) c (key : string) : option O := live now (mutations c) !! key ≫= as_Object.

(** What a read of a key chooses: the written object if it is newer than the stored
    one, [None] if a version is no integer. *)
Definition newer_of (backing : O) (mutated : option O) : option O :=
  match mutated with
  | None => Some backing
  | Some o' =>
      v ← ObjectResourceVersion backing; v' ← ObjectResourceVersion o'; Some (if v <? v' then o' else backing)
  end.

Definition same_but_mutations c c' : Prop :=
  backingCache c' = backingCache c /\ indexer c' = indexer c /\ includeAdds c' = includeAdds c /\ ttl c' = ttl c.

Lemma newerObject_spec now key backing c newest :
  newer_of backing (written now c key) = Some newest ->
  exists c', newerObject now key backing c = Some (c', newest) /\ same_but_mutations c c' /\
    (live now (mutations c') = live now (mutations c) \/
     (live now (mutations c') = delete key (live now (mutations c)) /\ newest = backing)).
Proof.
  unfold newerObject, written, newer_of. destruct (lru_Get_law now key (mutations c)) as [Hv Hlive].
  destruct (lru_Get now key (mutations c)) as [m mutated]. cbn in Hv, Hlive. subst mutated.
  destruct (live now (mutations c) !! key) as [x|]; cbn.
  - destruct (as_Object x) as [o'|]; cbn.
    + unfold CompareResourceVersion. destruct (ObjectResourceVersion backing) as [v|]; [|done].
      destruct (ObjectResourceVersion o') as [v'|]; [|done]. cbn.
      destruct (v <? v') eqn:Elt; bool_to_prop; intros [= <-].
      * replace (v =? v') with false by (symmetry; apply Z.eqb_neq; lia).
        eexists. split; [done|]. split; [done|]. left. cbn. apply Hlive. lia.
      * assert (Hdel : live now (lru_Remove key m) = delete key (live now (mutations c))) by (by rewrite lru_Remove_law, Hlive by lia).
        destruct (v =? v'); cbn; (eexists; split; [done|]; split; [done|]); right; done.
    + intros [= <-]. eexists. split; [done|]. split; [done|]. left. cbn. apply Hlive. lia.
  - intros [= <-]. eexists. split; [done|]. split; [done|]. left. cbn. apply Hlive. lia.
Qed.

(** A read of a key that the store has. *)
Lemma GetByKey_stored now key c backing newest :
  st_items (backingCache c) !! key = Some (Some (VObject backing)) ->
  newer_of backing (written now c key) = Some newest ->
  exists c', GetByKey now key c = Some (c', (Some (VObject newest), true, None)) /\ same_but_mutations c c' /\
    (live now (mutations c') = live now (mutations c) \/
     (live now (mutations c') = delete key (live now (mutations c)) /\ newest = backing)).
Proof.
  intros Hs Hn. unfold GetByKey. rewrite st_GetByKey_law, Hs. cbn.
  destruct (newerObject_spec now key backing c newest Hn) as (c' & -> & ? & ?). by exists c'.
Qed.

(** With [includeAdds], an object that the store does not have yet is read from
    the written ones, but only once: the read compares the object with itself, finds it
    not older than the cached one, and removes it, so that the next read at the same
    time reports that the object does not exist. *)
Theorem mutation_cache_add_read_once now key c o v :
  includeAdds c = true -> st_items (backingCache c) !! key = None -> written now c key = Some o ->
  ObjectResourceVersion o = Some v ->
  exists c', GetByKey now key c = Some (c', (Some (VObject o), true, None)) /\
  exists c'', GetByKey now key c' = Some (c'', (None, false, None)).
Proof.
  intros Hadd Hnone Hw Hv. unfold GetByKey. rewrite st_GetByKey_law, Hnone, Hadd. cbn.
  unfold written in Hw. destruct (lru_Get_law now key (mutations c)) as [Hget Hlive].
  destruct (lru_Get now key (mutations c)) as [m mutated]. cbn in Hget, Hlive. subst mutated.
  destruct (live now (mutations c) !! key) as [x|] eqn:Ex; [|done]. cbn in Hw. rewrite Hw. unfold newerObject. cbn.
  destruct (lru_Get_law now key m) as [Hget' Hlive']. destruct (lru_Get now key m) as [m' mutated]. cbn in Hget', Hlive'.
  rewrite Hlive, Ex in Hget' by lia. subst mutated. rewrite Hw. unfold CompareResourceVersion. rewrite Hv. cbn.
  rewrite Z.eqb_refl. cbn. eexists. split; [done|]. cbn. rewrite st_GetByKey_law, Hnone, Hadd. cbn.
  destruct (lru_Get_law now key (lru_Remove key m')) as [Hget2 _].
  destruct (lru_Get now key (lru_Remove key m')) as [m2 mutated]. cbn in Hget2. subst mutated.
  rewrite lru_Remove_law, lookup_delete_eq. cbn. by eexists.
Qed.

(** ** Reading one's writes *)

Section run.

(** While nothing expires and nothing is evicted. *)
Hypothesis nothing_expires : forall now now' (c : Cache), live now' c = live now c.
Hypothesis nothing_evicted : forall now key v ttl (c : Cache), live now (lru_Add now key v ttl c) = <[key := v]> (live now c).

(** The store changes under the cache, a write's result is told, a key is read. *)
Inductive event : Type :=
| EBacking (s : S)
| EMutation (o : O)
| EGetByKey (key : string).

Definition step (now : Z) (ev : event) c : option (mutationCache O S) :=
  match ev with
  | EBacking s => Some (mkMutationCache s (indexer c) (mutations c) (includeAdds c) (ttl c))
  | EMutation o => Mutation now (Some (VObject o)) c
  | EGetByKey key => fst <$> GetByKey now key c
  end.

Fixpoint run (evs : list (Z * event)) c : option (mutationCache O S) :=
  match evs with
  | [] => Some c
  | (now, ev) :: evs => c ← step now ev c; run evs c
  end.

Definition versioned (x : iface V) : Prop := exists o, x = Some (VObject o) /\ is_Some (ObjectResourceVersion o).

Definition versioned_store (s : S) : Prop := map_Forall (fun _ x => versioned x) (st_items s).

Definition version_in (s : S) (key : string) : option Z :=
  (st_items s !! key ≫= as_Object) ≫= ObjectResourceVersion.

(** Objects have integer versions, and the store's version of [key] does not go back. *)
Definition allowed (key : string) (s : S) (ev : event) : Prop :=
  match ev with
  | EBacking s' => versioned_store s' /\ exists v v', version_in s key = Some v /\ version_in s' key = Some v' /\ v <= v'
  | EMutation o => is_Some (ObjectResourceVersion o)
  | EGetByKey _ => True
  end.

Fixpoint all_allowed (key : string) (s : S) (evs : list (Z * event)) : Prop :=
  match evs with
  | [] => True
  | (_, ev) :: evs => allowed key s ev /\ all_allowed key (match ev with EBacking s' => s' | _ => s end) evs
  end.

Definition cache_ok c : Prop :=
  versioned_store (backingCache c) /\ map_Forall (fun _ x => versioned x) (live 0 (mutations c)) /\ 0 < ttl c.

(** The version a read of the key would give. *)
Definition visible c (key : string) : option Z :=
  backing ← stored c key; newest ← newer_of backing (written 0 c key); ObjectResourceVersion newest.

Lemma versioned_newer c key backing :
  cache_ok c -> stored c key = Some backing -> exists newest v v0, newer_of backing (written 0 c key) = Some newest /\
    ObjectResourceVersion backing = Some v0 /\ ObjectResourceVersion newest = Some v /\ v0 <= v /\
    (forall o w, written 0 c key = Some o -> ObjectResourceVersion o = Some w -> w <= v) /\
    (v = v0 \/ written 0 c key = Some newest).
Proof.
  intros (Hb & Hm & _) Hs. unfold stored in Hs. destruct (st_items (backingCache c) !! key) as [x|] eqn:Ex; [|done].
  destruct (Hb key x Ex) as (o & -> & v0 & Hv0). cbn in Hs. injection Hs as <-. unfold written, newer_of.
  destruct (live 0 (mutations c) !! key) as [y|] eqn:Ey; cbn.
  - destruct (Hm key y Ey) as (o' & -> & v' & Hv'). cbn. rewrite Hv0, Hv'. cbn.
    destruct (v0 <? v') eqn:Elt; bool_to_prop.
    + exists o', v', v0. split_and!; try done; [lia| |by right]. intros ? ? [= <-]. rewrite Hv'. intros [= <-]. lia.
    + exists o, v0, v0. split_and!; try done; [|by left]. intros ? ? [= <-]. rewrite Hv'. intros [= <-]. lia.
  - exists o, v0, v0. split_and!; try done. by left.
Qed.

(** What is visible, as a maximum. *)
Lemma visible_max c key v :
  cache_ok c -> visible c key = Some v ->
  (exists v0, version_in (backingCache c) key = Some v0 /\ v0 <= v) /\
  (forall o w, written 0 c key = Some o -> ObjectResourceVersion o = Some w -> w <= v).
Proof.
  intros Hok. unfold visible. destruct (stored c key) as [backing|] eqn:Hs; [|done]. cbn.
  destruct (versioned_newer c key backing Hok Hs) as (newest & v' & v0 & -> & Hv0 & Hv' & Hle & Hw & _). cbn. rewrite Hv'.
  intros [= <-]. split; [|done]. exists v0. unfold version_in, stored in *. by rewrite Hs.
Qed.

Lemma visible_at_least c key v :
  cache_ok c -> is_Some (stored c key) ->
  (exists v0, version_in (backingCache c) key = Some v0 /\ v <= v0) \/
  (exists o w, written 0 c key = Some o /\ ObjectResourceVersion o = Some w /\ v <= w) ->
  exists v', visible c key = Some v' /\ v <= v'.
Proof.
  intros Hok [backing Hs] Hge. unfold visible. rewrite Hs. cbn.
  destruct (versioned_newer c key backing Hok Hs) as (newest & v' & v0 & -> & Hv0 & Hv' & Hle & Hw & _). cbn.
  exists v'. split; [done|]. destruct Hge as [(v1 & Hv1 & ?)|(o & w & Ho & Hwv & ?)].
  - unfold version_in, stored in *. rewrite Hs in Hv1. cbn in Hv1. rewrite Hv0 in Hv1. injection Hv1 as <-. lia.
  - pose proof (Hw o w Ho Hwv). lia.
Qed.

Lemma written_any now now' c key : written now' c key = written now c key.
Proof. unfold written. by rewrite (nothing_expires now now'). Qed.

Lemma live_any now now' c : live now (mutations c) = live now' (mutations c).
Proof. apply nothing_expires. Qed.

(** A read of any key changes the mutations of that key only, and only to drop one that
    is not newer than the store's. *)
Lemma GetByKey_step now key' c : cache_ok c ->
  exists c' res, GetByKey now key' c = Some (c', res) /\ same_but_mutations c c' /\
    (live 0 (mutations c') = live 0 (mutations c) \/
     (live 0 (mutations c') = delete key' (live 0 (mutations c)) /\
      forall v0, version_in (backingCache c) key' = Some v0 ->
        forall o w, written 0 c key' = Some o -> ObjectResourceVersion o = Some w -> w <= v0)).
Proof.
  intros Hok. pose proof Hok as (Hb & Hm & _). destruct (st_items (backingCache c) !! key') as [x|] eqn:Ex.
  - destruct (Hb key' x Ex) as (o & -> & v0 & Hv0).
    assert (Hs : stored c key' = Some o) by (unfold stored; by rewrite Ex).
    destruct (versioned_newer c key' o Hok Hs) as (newest & v & v0' & Hnew & Hv0' & Hv & Hle & Hw & _).
    rewrite <- (written_any 0 now) in Hnew.
    destruct (GetByKey_stored now key' c o newest Ex Hnew) as (c' & Hget & Hsame & Hlive).
    rewrite !(live_any now 0) in Hlive. exists c', (Some (VObject newest), true, None). split; [done|]. split; [done|].
    destruct Hlive as [Hl|[Hl ->]]; [by left|right]. split; [done|].
    intros v1 Hv1 o' w Ho' Hw'. unfold version_in in Hv1. rewrite Ex in Hv1. cbn in Hv1.
    pose proof (Hw o' w Ho' Hw'). simplify_eq. lia.
  - assert (Hno : version_in (backingCache c) key' = None) by (unfold version_in; by rewrite Ex).
    unfold GetByKey. rewrite st_GetByKey_law, Ex. destruct (includeAdds c) eqn:Hadd; cbn; [|by eexists _, _; (split; [done|]; split; [done|]; left)].
    destruct (lru_Get_law now key' (mutations c)) as [Hget Hlive].
    destruct (lru_Get now key' (mutations c)) as [m mutated]. cbn in Hget, Hlive. subst mutated.
    assert (Hm0 : live 0 m = live 0 (mutations c)) by (rewrite !(nothing_expires now 0); apply Hlive; lia).
    destruct (live now (mutations c) !! key') as [y|] eqn:Ey; [|by eexists _, _; (split; [done|]; split; [done|]; left)].
    rewrite (live_any now 0) in Ey. destruct (Hm key' y Ey) as (o & -> & v & Hv). cbn.
    assert (Hn : newer_of o (written now (with_mutations m c) key') = Some o).
    { unfold written. cbn. rewrite (nothing_expires 0 now), Hm0, Ey. cbn. rewrite Hv. cbn. by rewrite Z.ltb_irrefl. }
    destruct (newerObject_spec now key' o (with_mutations m c) o Hn) as (c' & -> & Hsame & Hl). cbn.
    eexists _, _. split; [done|]. split; [done|]. cbn in Hl. rewrite !(nothing_expires 0 now), Hm0 in Hl.
    destruct Hl as [Hl|[Hl _]]; [by left|right]. split; [done|]. intros v0. by rewrite Hno.
Qed.

(** The key an object is read under. *)
Definition key_of (o : O) : option string :=
  match DeletionHandlingMetaNamespaceKeyFunc (Some (VObject o)) with Ok key => Some key | Err _ => None end.

(** A mutation is kept unless a newer one is there. *)
Lemma Mutation_step now o w c : cache_ok c -> ObjectResourceVersion o = Some w ->
  exists c', Mutation now (Some (VObject o)) c = Some c' /\ same_but_mutations c c' /\
    match key_of o with
    | None => live 0 (mutations c') = live 0 (mutations c)
    | Some key =>
        (live 0 (mutations c') = <[key := Some (VObject o)]> (live 0 (mutations c)) /\
         forall o' w', written 0 c key = Some o' -> ObjectResourceVersion o' = Some w' -> w' <= w) \/
        (live 0 (mutations c') = live 0 (mutations c) /\
         exists o' w', written 0 c key = Some o' /\ ObjectResourceVersion o' = Some w' /\ w < w')
    end.
Proof.
  intros (Hb & Hm & Httl) Hw. unfold Mutation, key_of.
  destruct (DeletionHandlingMetaNamespaceKeyFunc (Some (VObject o))) as [key|err]; [|by exists c]. cbn [as_Object].
  destruct (lru_Get_law now key (mutations c)) as [Hget Hlive].
  destruct (lru_Get now key (mutations c)) as [m mutated]. cbn in Hget, Hlive. subst mutated.
  assert (Hm0 : live 0 m = live 0 (mutations c)) by (rewrite !(nothing_expires now 0); apply Hlive; lia).
  assert (Hadd : live 0 (lru_Add now key (Some (VObject o)) (ttl c) m) = <[key := Some (VObject o)]> (live 0 (mutations c))).
  { rewrite (nothing_expires now 0), nothing_evicted, (nothing_expires 0 now), Hm0. done. }
  rewrite (live_any now 0). unfold written. destruct (live 0 (mutations c) !! key) as [y|] eqn:Ey; cbn.
  - destruct (Hm key y Ey) as (o' & -> & w' & Hw'). cbn. unfold CompareResourceVersion. rewrite Hw, Hw'. cbn.
    destruct (w =? w') eqn:E1; [|destruct (w <? w') eqn:E2]; bool_to_prop; cbn.
    + eexists. split; [done|]. split; [done|]. left. split; [done|]. intros ? ? [= <-]. rewrite Hw'. intros [= <-]. lia.
    + eexists. split; [done|]. split; [done|]. right. split; [done|]. by exists o', w'.
    + eexists. split; [done|]. split; [done|]. left. split; [done|]. intros ? ? [= <-]. rewrite Hw'. intros [= <-]. lia.
  - eexists. split; [done|]. split; [done|]. left. split; [done|]. done.
Qed.

Lemma step_monotone key now ev c v :
  cache_ok c -> allowed key (backingCache c) ev -> visible c key = Some v ->
  exists c' v', step now ev c = Some c' /\ cache_ok c' /\
    backingCache c' = (match ev with EBacking s' => s' | _ => backingCache c end) /\
    visible c' key = Some v' /\ v <= v' /\
    (forall o w, ev = EMutation o -> key_of o = Some key -> ObjectResourceVersion o = Some w -> w <= v').
Proof.
  intros Hok Hall Hvis. pose proof Hok as (Hb & Hm & Httl). destruct (visible_max c key v Hok Hvis) as [(v0 & Hv0 & Hle0) Hmax].
  assert (Hstored : is_Some (stored c key)) by (unfold visible in Hvis; destruct (stored c key); [by eexists|done]).
  assert (Hcase : (exists v1, version_in (backingCache c) key = Some v1 /\ v <= v1) \/
    (exists o w, written 0 c key = Some o /\ ObjectResourceVersion o = Some w /\ v <= w)).
  { destruct Hstored as [backing Hs]. destruct (versioned_newer c key backing Hok Hs) as (newest & v' & v1 & Hn & Hv1 & Hv' & _ & _ & Hor).
    unfold visible in Hvis. rewrite Hs in Hvis. cbn in Hvis. rewrite Hn in Hvis. cbn in Hvis. rewrite Hv' in Hvis. injection Hvis as <-.
    destruct Hor as [-> |Hw]; [left; exists v1; split; [|lia]|right; exists newest, v'; split_and!; [done..|lia]].
    unfold version_in, stored in *. by rewrite Hs. }
  destruct ev as [s'|o|key']; cbn [step allowed] in *.
  - destruct Hall as [Hs' (u & u' & Hu & Hu' & Hle)]. set (c' := mkMutationCache s' _ _ _ _).
    assert (Hok' : cache_ok c') by done.
    assert (Hst : is_Some (stored c' key)) by (unfold version_in in Hu'; unfold stored; cbn; destruct (st_items s' !! key ≫= as_Object); [by eexists|done]).
    destruct (visible_at_least c' key v Hok' Hst) as (v' & ? & ?); [|exists c', v'; split_and!; done].
    destruct Hcase as [(v1 & Hv1 & ?)|?]; [left|right; done]. exists u'. split; [done|]. simplify_eq. lia.
  - destruct Hall as [w Hw]. destruct (Mutation_step now o w c Hok Hw) as (c' & Hmut & (Hsb & _ & _ & Hst) & Hlive).
    assert (Hst' : is_Some (stored c' key)) by (unfold stored in *; by rewrite Hsb).
    destruct (key_of o) as [k|] eqn:Hko.
    + destruct Hlive as [[Hl Hold]|[Hl (o' & w' & Ho' & Hw' & Hlt)]].
      * assert (Hok' : cache_ok c').
        { unfold cache_ok. rewrite Hsb, Hst, Hl. split_and!; try done. apply map_Forall_insert_2; [|done]. exists o. by rewrite Hw. }
        assert (Hwr : written 0 c' key = if decide (k = key) then Some o else written 0 c key).
        { unfold written. rewrite Hl. case_decide as Hd; [subst; by rewrite lookup_insert_eq|by rewrite lookup_insert_ne]. }
        destruct (visible_at_least c' key (if decide (k = key) then Z.max v w else v) Hok' Hst') as (v' & Hvis' & Hle').
        { unfold version_in in *. rewrite Hsb, Hwr. case_decide as Hd; [subst k|done].
          destruct Hcase as [(v1 & Hv1 & Hle1)|(o1 & w1 & Ho1 & Hw1 & Hle1)].
          - destruct (decide (w <= v1)); [left; exists v1; split; [done|lia]|right; exists o, w; split_and!; [done..|lia]].
          - pose proof (Hold o1 w1 Ho1 Hw1). right. exists o, w. split_and!; [done..|lia]. }
        exists c', v'. split_and!; try done; [case_decide; lia|]. intros o1 w1 [= <-] Hk1 Hw1.
        rewrite Hko in Hk1. injection Hk1 as ->. rewrite decide_True in Hle' by done. simplify_eq. lia.
      * assert (Hok' : cache_ok c') by (unfold cache_ok; by rewrite Hsb, Hst, Hl).
        destruct (visible_at_least c' key v Hok' Hst') as (v' & Hvis' & Hle').
        { unfold version_in, written in *. by rewrite Hsb, Hl. }
        exists c', v'. split_and!; try done. intros o1 w1 [= <-] Hk1 Hw1. rewrite Hko in Hk1. injection Hk1 as ->.
        destruct (visible_max c' key v' Hok' Hvis') as [_ Hmax']. unfold written in Hmax', Ho'. rewrite Hl in Hmax'.
        pose proof (Hmax' o' w' Ho' Hw'). simplify_eq. lia.
    + assert (Hok' : cache_ok c') by (unfold cache_ok; by rewrite Hsb, Hst, Hlive).
      destruct (visible_at_least c' key v Hok' Hst') as (v' & Hvis' & Hle').
      { unfold version_in, written in *. by rewrite Hsb, Hlive. }
      exists c', v'. split_and!; try done. intros o1 w1 [= <-] Hk1. by rewrite Hko in Hk1.
  - destruct (GetByKey_step now key' c Hok) as (c' & res & Hget & (Hsb & _ & _ & Hst) & Hlive).
    assert (Hok' : cache_ok c').
    { unfold cache_ok. rewrite Hsb, Hst. split_and!; try done. destruct Hlive as [->|[-> _]]; [done|]. by apply map_Forall_delete. }
    assert (Hst' : is_Some (stored c' key)) by (unfold stored in *; by rewrite Hsb).
    destruct (visible_at_least c' key v Hok' Hst') as (v' & Hvis' & Hle').
    { unfold version_in, written in *. rewrite Hsb. destruct Hlive as [->|[-> Hdrop]]; [done|].
      destruct (decide (key' = key)) as [->|Hne]; [|by rewrite lookup_delete_ne].
      destruct Hcase as [?|(o1 & w1 & Ho1 & Hw1 & Hle1)]; [by left|]. left. exists v0. split; [done|].
      pose proof (Hdrop v0 Hv0 o1 w1 Ho1 Hw1). lia. }
    exists c', v'. rewrite Hget. by split_and!.
Qed.

Lemma run_monotone key evs c v :
  cache_ok c -> all_allowed key (backingCache c) evs -> visible c key = Some v ->
  exists c' v', run evs c = Some c' /\ cache_ok c' /\ visible c' key = Some v' /\ v <= v' /\
    (forall now o w, (now, EMutation o) ∈ evs -> key_of o = Some key -> ObjectResourceVersion o = Some w -> w <= v').
Proof.
  revert c v. induction evs as [|[now ev] evs IH]; intros c v Hok Hall Hvis.
  - exists c, v. split_and!; try done. intros now o w []%elem_of_nil.
  - destruct Hall as [Hev Hall]. destruct (step_monotone key now ev c v Hok Hev Hvis) as (c1 & v1 & Hs & Hok1 & Hb1 & Hvis1 & Hle1 & Hmut).
    cbn [run]. rewrite Hs. cbn. rewrite <- Hb1 in Hall.
    destruct (IH c1 v1 Hok1 Hall Hvis1) as (c' & v' & Hr & Hok' & Hvis' & Hle' & Hmuts).
    exists c', v'. split_and!; try done; [lia|]. intros now' o w [[= <- <-]|Hin]%elem_of_cons Hk Hw; [|by eapply Hmuts].
    pose proof (Hmut o w eq_refl Hk Hw). lia.
Qed.

(** While nothing expires or is evicted, reads of a key never go back, and see
    the caller's own writes: after any sequence of changes of the store (whose version
    of the key does not go back), written objects and reads, a read of the key gives an
    object whose version is at least that of every object written under the key and of
    every earlier version of it in the store. *)
Theorem mutation_cache_reads_writes s indexer ttl includeAdds key v evs now :
  versioned_store s -> version_in s key = Some v -> 0 < ttl -> all_allowed key s evs ->
  exists c c' o w,
    run evs (NewIntegerResourceVersionMutationCache s indexer ttl includeAdds) = Some c /\
    GetByKey now key c = Some (c', (Some (VObject o), true, None)) /\ ObjectResourceVersion o = Some w /\ v <= w /\
    (forall now' o' w', (now', EMutation o') ∈ evs -> key_of o' = Some key -> ObjectResourceVersion o' = Some w' -> w' <= w) /\
    (forall w', version_in (backingCache c) key = Some w' -> w' <= w).
Proof.
  intros Hs Hv Httl Hall. set (c0 := NewIntegerResourceVersionMutationCache s indexer ttl includeAdds).
  assert (Hok0 : cache_ok c0) by (unfold cache_ok; cbn; rewrite lru_New_law; split_and!; [done|apply map_Forall_empty|done]).
  assert (Hst0 : is_Some (stored c0 key)) by (unfold version_in in Hv; unfold stored; cbn; destruct (st_items s !! key ≫= as_Object); [by eexists|done]).
  destruct (visible_at_least c0 key v Hok0 Hst0) as (v0 & Hvis0 & Hle0); [left; by exists v|].
  destruct (run_monotone key evs c0 v0 Hok0 Hall Hvis0) as (c & w & Hr & Hok & Hvis & Hle & Hmuts).
  pose proof (visible_max c key w Hok Hvis) as [(w0 & Hw0 & Hlew) _].
  unfold visible in Hvis. destruct (stored c key) as [backing|] eqn:Est; [|done]. cbn in Hvis.
  destruct (newer_of backing (written 0 c key)) as [o|] eqn:En; [|done]. cbn in Hvis.
  assert (Hitem : st_items (backingCache c) !! key = Some (Some (VObject backing))).
  { unfold stored in Est. destruct Hok as (Hb & _ & _). destruct (st_items (backingCache c) !! key) as [x|] eqn:Ex; [|done].
    destruct (Hb key x Ex) as (o1 & -> & _). cbn in Est. by simplify_eq. }
  rewrite <- (written_any 0 now) in En. destruct (GetByKey_stored now key c backing o Hitem En) as (c' & Hget & _ & _).
  exists c, c', o, w. split_and!; try done; [lia|]. intros w' Hw'. simplify_eq. lia.
Qed.

End run.
End reads.

(** ** Concrete runs *)

Module samples.

(** Name, resource version and label. *)
Definition pod : Type := (string * string * string)%type.

#[local] Instance pod_Accessor : MetaAccessor pod := fun x =>
  match x with
  | Some (VObject (name, rv, _)) => Ok {| GetNamespace := ""; GetName := name; GetResourceVersion := rv |}
  | _ => Err (Errorf "object does not implement the Object interfaces" [])
  end.

(** A cache that loses nothing. *)
#[local] Program Instance lossless : LRUExpireCache (iface (value pod)) := {
  Cache := gmap string (iface (value pod));
  NewLRUExpireCache := fun _ => ∅;
  live := fun _ c => c;
  lru_Get := fun _ key c => (c, c !! key);
  lru_Add := fun _ key v _ c => <[key := v]> c;
  lru_Remove := fun key c => delete key c;
  lru_Keys := fun _ c => (map_to_list c).*1
}.
Next Obligation. done. Qed.
Next Obligation. done. Qed.
Next Obligation. done. Qed.
Next Obligation. intros now key v ttl c _. cbn. split; [done|apply lookup_insert_eq]. Qed.
Next Obligation. done. Qed.
Next Obligation.
  intros now c. cbn. split; [apply NoDup_fst_map_to_list|]. intros key. rewrite list_elem_of_fmap. split.
  - intros ([k v] & -> & Hk%elem_of_map_to_list). by exists v.
  - intros [v Hv]. exists (key, v). split; [done|]. by apply elem_of_map_to_list.
Qed.

#[local] Existing Instance range_in_key_order.
#[local] Existing Instance sets_in_key_order.

Abbreviation store := (cache (value pod) (threadSafeMap (value pod))).

Definition by_label : IndexFunc (value pod) := fun x =>
  match x with Some (VObject (_, _, label)) => Ok [label] | _ => Err (Errorf "no label" []) end.

Definition with_pod (p : pod) (s : store) : store :=
  match cache_Add (Some (VObject p)) s with Some (s, _) => s | None => s end.

Definition s0 : store := NewIndexer MetaNamespaceKeyFunc {["label" := by_label]}.
Definition s5 : store := with_pod ("web", "5", "red") s0.
Definition s6 : store := with_pod ("web", "6", "red") s0.

Definition empty_cache : mutationCache pod store := NewIntegerResourceVersionMutationCache s0 None 1 true.
Definition added : mutationCache pod store := default empty_cache (Mutation 0 (Some (VObject ("web", "7", "blue"))) empty_cache).

Lemma mutation_cache_add_read_once_witness :
  exists c', GetByKey 0 "web" added = Some (c', (Some (VObject ("web", "7", "blue")), true, None)) /\
  exists c'', GetByKey 0 "web" c' = Some (c'', (None, false, None)).
Proof.
  apply (mutation_cache_add_read_once 0 "web" added ("web", "7", "blue") 7); vm_compute; reflexivity.
Defined.

(** A write of version 7, while the store goes from 5 to 6, and an old write after it. *)
Definition history : list (Z * event) :=
  [(0, EGetByKey "web"); (1, EMutation ("web", "7", "blue")); (2, EBacking s6); (3, EMutation ("web", "4", "red"));
   (4, EGetByKey "web"); (5, EGetByKey "db")].

Lemma versioned_single (s : store) p :
  st_items s = {["web" := Some (VObject p)]} -> is_Some (ObjectResourceVersion p) -> versioned_store s.
Proof. intros Hs Hp. unfold versioned_store. rewrite Hs. apply map_Forall_singleton. by exists p. Qed.

Lemma mutation_cache_reads_writes_witness :
  exists c c' o w,
    run history (NewIntegerResourceVersionMutationCache s5 None 1 false) = Some c /\
    GetByKey 6 "web" c = Some (c', (Some (VObject o), true, None)) /\ ObjectResourceVersion o = Some w /\ 5 <= w /\
    (forall now' o' w', (now', EMutation o') ∈ history -> key_of o' = Some "web" -> ObjectResourceVersion o' = Some w' -> w' <= w) /\
    (forall w', version_in (backingCache c) "web" = Some w' -> w' <= w).
Proof.
  apply mutation_cache_reads_writes.
  - reflexivity.
  - reflexivity.
  - apply (versioned_single s5 ("web", "5", "red")); [vm_compute; reflexivity|by exists 5].
  - vm_compute. reflexivity.
  - lia.
  - split; [done|]. split; [by exists 7|]. split; [split|split; [by exists 4|done]].
    + apply (versioned_single s6 ("web", "6", "red")); [vm_compute; reflexivity|by exists 6].
    + exists 5, 6. split; [vm_compute; reflexivity|]. split; [vm_compute; reflexivity|lia].
Defined.

(** The newer object that [ByIndex] returns for a key of the index need not have the
    index value that was asked for. *)
Lemma ByIndex_other_value :
  let c := NewIntegerResourceVersionMutationCache s5 (Some s5) 1 false in
  (fun c => (ByIndex 0 "label" "red" c) ≫= fun r => Some r.2) <$> Mutation 0 (Some (VObject ("web", "7", "blue"))) c =
    Some (Some ([Some (VObject ("web", "7", "blue"))], None)).
Proof. vm_compute. reflexivity. Qed.

End samples.
