(* ===== verification/RestRequest.v ===== *)
(** * Requests of the REST client

    rest/request.go and rest/client.go: a [Request] is built by a chain of calls, each of
    which may leave an error in it, and says which URL it asks for.  What the code
    calls of k8s.io/apimachinery (encoders, parameter codecs), the files it reads and
    [url.Parse] are the parameters of [Outside]; no law of them is needed. *)

From S2P Require Import Prelude Objects GoStrings.
From Stdlib Require Import Ascii.

(** ** What lies outside *)

Record GroupVersion : Type := mkGV { Group : string; Version : string }.

Class Outside : Type := {
  (** errors, opaque readers, objects, and what a client shares among its requests *)
  E : Type;
  Reader : Type;
  RObject : Type;
  Manager : Type;
  RateLimiter : Type;
  WarningHandler : Type;
  (** [NoBackoff] and what [readExpBackoffConfig] makes *)
  noBackoff : Manager;
  (** path and query of a URL *)
  url_Parse : string -> E + (string * Values);
  EncodeParameters : RObject -> GroupVersion -> E + Values;
  ReadFile : string -> E + string;
  IsNil : RObject -> bool;
  (** encoding for a content type *)
  Encode : string -> RObject -> E + string;
  Duration_String : Z -> string
}.

Section request.
Context `{Outside}.

Inductive request_error : Type :=
| RErrorf (format : string) (args : list string)
| ROutside (e : E)
(** [fmt.Errorf] with [%w] *)
| RWrapf (format : string) (e : E)
(** [wrapPreviousError] (rest/with_retry.go) *)
| RPrevious (currentErr : request_error) (previousErr : E).

(** [url.URL]; the raw query is kept as the values it is the encoding of. *)
Record URL : Type := mkURL {
  Scheme : string;
  Host : string;
  Path : string;
  RawQuery : Values;
  Fragment : string
}.

Definition no_URL : URL := mkURL "" "" "" ∅ "".
Definition with_path (p : string) (u : URL) : URL := mkURL (Scheme u) (Host u) p (RawQuery u) (Fragment u).
Definition with_query (q : Values) (u : URL) : URL := mkURL (Scheme u) (Host u) (Path u) q (Fragment u).

(** [ClientContentConfig] without its negotiator. *)
Record ClientContentConfig : Type := mkContent {
  AcceptContentTypes : string;
  ContentType : string;
  GV : GroupVersion
}.

(** [client_timeout] is the timeout of [Client], when it is not nil. *)
Record RESTClient : Type := mkRESTClient {
  base : option URL;
  versionedAPIPath : string;
  content : ClientContentConfig;
  createBackoffMgr : option (option Manager);
  client_rateLimiter : option RateLimiter;
  client_warningHandler : option WarningHandler;
  client_timeout : option Z
}.

Definition NewRESTClient (baseURL : URL) (versionedAPIPath : string) (config : ClientContentConfig)
    (readExpBackoffConfig : Manager) (rateLimiter : option RateLimiter) (client_timeout : option Z) : RESTClient :=
  let config := if decide (ContentType config = "")
                then mkContent (AcceptContentTypes config) "application/json" (GV config) else config in
  let p := if ends_with (Path baseURL) slash then Path baseURL else Path baseURL +:+ "/" in
  mkRESTClient (Some (mkURL (Scheme baseURL) (Host baseURL) p ∅ "")) versionedAPIPath config
    (Some (Some readExpBackoffConfig)) rateLimiter None client_timeout.

(** ** Requests

    [NewRequest] and [BackOff], which alone write [backoff], never leave it nil. *)

Record Request : Type := mkRequest {
  c : RESTClient;
  warningHandler : option WarningHandler;
  rateLimiter : option RateLimiter;
  backoff : Manager;
  timeout : Z;
  maxRetries : Z;
  verb : string;
  pathPrefix : string;
  subpath : string;
  params : Values;
  headers : Values;
  namespace : string;
  namespaceSet : bool;
  resource : string;
  resourceName : string;
  subresource : string;
  err : option request_error;
  body : option Reader;
  bodyBytes : option string
}.

Definition set_verb (x : string) (r : Request) : Request :=
  mkRequest (c r) (warningHandler r) (rateLimiter r) (backoff r) (timeout r) (maxRetries r) x
    (pathPrefix r) (subpath r) (params r) (headers r) (namespace r) (namespaceSet r) (resource r)
    (resourceName r) (subresource r) (err r) (body r) (bodyBytes r).

Definition set_pathPrefix (x : string) (r : Request) : Request :=
  mkRequest (c r) (warningHandler r) (rateLimiter r) (backoff r) (timeout r) (maxRetries r) (verb r)
    x (subpath r) (params r) (headers r) (namespace r) (namespaceSet r) (resource r) (resourceName
    r) (subresource r) (err r) (body r) (bodyBytes r).

Definition set_subpath (x : string) (r : Request) : Request :=
  mkRequest (c r) (warningHandler r) (rateLimiter r) (backoff r) (timeout r) (maxRetries r) (verb r)
    (pathPrefix r) x (params r) (headers r) (namespace r) (namespaceSet r) (resource r)
    (resourceName r) (subresource r) (err r) (body r) (bodyBytes r).

Definition set_params (x : Values) (r : Request) : Request :=
  mkRequest (c r) (warningHandler r) (rateLimiter r) (backoff r) (timeout r) (maxRetries r) (verb r)
    (pathPrefix r) (subpath r) x (headers r) (namespace r) (namespaceSet r) (resource r)
    (resourceName r) (subresource r) (err r) (body r) (bodyBytes r).

Definition set_headers (x : Values) (r : Request) : Request :=
  mkRequest (c r) (warningHandler r) (rateLimiter r) (backoff r) (timeout r) (maxRetries r) (verb r)
    (pathPrefix r) (subpath r) (params r) x (namespace r) (namespaceSet r) (resource r)
    (resourceName r) (subresource r) (err r) (body r) (bodyBytes r).

Definition set_namespace (ns : string) (b : bool) (r : Request) : Request :=
  mkRequest (c r) (warningHandler r) (rateLimiter r) (backoff r) (timeout r) (maxRetries r) (verb r)
    (pathPrefix r) (subpath r) (params r) (headers r) ns b (resource r) (resourceName r)
    (subresource r) (err r) (body r) (bodyBytes r).

Definition set_resource (x : string) (r : Request) : Request :=
  mkRequest (c r) (warningHandler r) (rateLimiter r) (backoff r) (timeout r) (maxRetries r) (verb r)
    (pathPrefix r) (subpath r) (params r) (headers r) (namespace r) (namespaceSet r) x (resourceName
    r) (subresource r) (err r) (body r) (bodyBytes r).

Definition set_resourceName (x : string) (r : Request) : Request :=
  mkRequest (c r) (warningHandler r) (rateLimiter r) (backoff r) (timeout r) (maxRetries r) (verb r)
    (pathPrefix r) (subpath r) (params r) (headers r) (namespace r) (namespaceSet r) (resource r) x
    (subresource r) (err r) (body r) (bodyBytes r).

Definition set_subresource (x : string) (r : Request) : Request :=
  mkRequest (c r) (warningHandler r) (rateLimiter r) (backoff r) (timeout r) (maxRetries r) (verb r)
    (pathPrefix r) (subpath r) (params r) (headers r) (namespace r) (namespaceSet r) (resource r)
    (resourceName r) x (err r) (body r) (bodyBytes r).

Definition set_err (e : option request_error) (r : Request) : Request :=
  mkRequest (c r) (warningHandler r) (rateLimiter r) (backoff r) (timeout r) (maxRetries r) (verb r)
    (pathPrefix r) (subpath r) (params r) (headers r) (namespace r) (namespaceSet r) (resource r)
    (resourceName r) (subresource r) e (body r) (bodyBytes r).

Definition set_body (x : option Reader) (y : option string) (r : Request) : Request :=
  mkRequest (c r) (warningHandler r) (rateLimiter r) (backoff r) (timeout r) (maxRetries r) (verb r)
    (pathPrefix r) (subpath r) (params r) (headers r) (namespace r) (namespaceSet r) (resource r)
    (resourceName r) (subresource r) (err r) x y.

Definition set_timeout (x : Z) (r : Request) : Request :=
  mkRequest (c r) (warningHandler r) (rateLimiter r) (backoff r) x (maxRetries r) (verb r)
    (pathPrefix r) (subpath r) (params r) (headers r) (namespace r) (namespaceSet r) (resource r)
    (resourceName r) (subresource r) (err r) (body r) (bodyBytes r).

Definition set_maxRetries (x : Z) (r : Request) : Request :=
  mkRequest (c r) (warningHandler r) (rateLimiter r) (backoff r) (timeout r) x (verb r) (pathPrefix
    r) (subpath r) (params r) (headers r) (namespace r) (namespaceSet r) (resource r) (resourceName
    r) (subresource r) (err r) (body r) (bodyBytes r).

Definition set_backoff (x : Manager) (r : Request) : Request :=
  mkRequest (c r) (warningHandler r) (rateLimiter r) x (timeout r) (maxRetries r) (verb r)
    (pathPrefix r) (subpath r) (params r) (headers r) (namespace r) (namespaceSet r) (resource r)
    (resourceName r) (subresource r) (err r) (body r) (bodyBytes r).

Definition set_rateLimiter (x : option RateLimiter) (r : Request) : Request :=
  mkRequest (c r) (warningHandler r) x (backoff r) (timeout r) (maxRetries r) (verb r) (pathPrefix
    r) (subpath r) (params r) (headers r) (namespace r) (namespaceSet r) (resource r) (resourceName
    r) (subresource r) (err r) (body r) (bodyBytes r).

Definition set_warningHandler (x : option WarningHandler) (r : Request) : Request :=
  mkRequest (c r) x (rateLimiter r) (backoff r) (timeout r) (maxRetries r) (verb r) (pathPrefix r)
    (subpath r) (params r) (headers r) (namespace r) (namespaceSet r) (resource r) (resourceName r)
    (subresource r) (err r) (body r) (bodyBytes r).

(** A method that leaves the request alone once it has an error. *)
Definition unless_err (r : Request) (k : Request) : Request :=
  match err r with
  | Some _ => r
  | None => k
  end.

Definition fail (e : request_error) (r : Request) : Request := set_err (Some e) r.

(** ** Names in paths *)

Definition NameMayNotBe : list string := ["."; ".."].
Definition NameMayNotContain : list string := ["/"; "%"].

Definition IsValidPathSegmentPrefix (name : string) : list string :=
  map (fun illegalContent => "may not contain '" +:+ illegalContent +:+ "'")
    (List.filter (strings_Contains name) NameMayNotContain).

Definition IsValidPathSegmentName (name : string) : list string :=
  match List.find (String.eqb name) NameMayNotBe with
  | Some illegalName => ["may not be '" +:+ illegalName +:+ "'"]
  | None => IsValidPathSegmentPrefix name
  end.

Definition ValidatePathSegmentName (name : string) (prefix : bool) : list string :=
  if prefix then IsValidPathSegmentPrefix name else IsValidPathSegmentName name.

(** ** The methods of [Request] *)

Definition SetHeader (key : string) (values : list string) (r : Request) : Request :=
  set_headers (fold_left (fun h v => Header_Add key v h) values (Header_Del key (headers r))) r.

Definition NewRequest (c : RESTClient) : Request :=
  let backoff := match createBackoffMgr c with
                 | Some (Some m) => m
                 | _ => noBackoff
                 end in
  let pathPrefix := match base c with
                    | Some b => path_Join ["/"; Path b; versionedAPIPath c]
                    | None => path_Join ["/"; versionedAPIPath c]
                    end in
  let timeout := default 0 (client_timeout c) in
  let r := mkRequest c (client_warningHandler c) (client_rateLimiter c) backoff timeout 10
             "" pathPrefix "" ∅ ∅ "" false "" "" "" None None None in
  if decide (AcceptContentTypes (content c) <> "") then SetHeader "Accept" [AcceptContentTypes (content c)] r
  else if decide (ContentType (content c) <> "") then SetHeader "Accept" [ContentType (content c) +:+ ", */*"] r
  else r.

Definition Verb (verb : string) (r : Request) : Request := set_verb verb r.

Definition Prefix (segments : list string) (r : Request) : Request :=
  unless_err r (set_pathPrefix (path_Join [pathPrefix r; path_Join segments]) r).

Definition Suffix (segments : list string) (r : Request) : Request :=
  unless_err r (set_subpath (path_Join [subpath r; path_Join segments]) r).

Definition Resource (resource_ : string) (r : Request) : Request :=
  unless_err r
    (if decide (resource r <> "") then
       fail (RErrorf "resource already set to %q, cannot change to %q" [resource r; resource_]) r
     else match IsValidPathSegmentName resource_ with
          | [] => set_resource resource_ r
          | msgs => fail (RErrorf "invalid resource %q: %v" (resource_ :: msgs)) r
          end).

Definition BackOff (manager : option Manager) (r : Request) : Request :=
  set_backoff (default noBackoff manager) r.

Definition Throttle (limiter : option RateLimiter) (r : Request) : Request := set_rateLimiter limiter r.

Definition WarningHandler_ (handler : option WarningHandler) (r : Request) : Request := set_warningHandler handler r.

(** The first of [subresources] that is not valid, with its messages. *)
Fixpoint first_invalid (subresources : list string) : option (string * list string) :=
  match subresources with
  | [] => None
  | s :: rest =>
      match IsValidPathSegmentName s with
      | [] => first_invalid rest
      | msgs => Some (s, msgs)
      end
  end.

Definition SubResource (subresources : list string) (r : Request) : Request :=
  unless_err r
    (let subresource_ := path_Join subresources in
     if decide (subresource r <> "") then
       fail (RErrorf "subresource already set to %q, cannot change to %q" [subresource r; subresource_]) r
     else match first_invalid subresources with
          | Some (s, msgs) => fail (RErrorf "invalid subresource %q: %v" (s :: msgs)) r
          | None => set_subresource subresource_ r
          end).

Definition Name_ (resourceName_ : string) (r : Request) : Request :=
  unless_err r
    (if decide (resourceName_ = "") then fail (RErrorf "resource name may not be empty" []) r
     else if decide (resourceName r <> "") then
       fail (RErrorf "resource name already set to %q, cannot change to %q" [resourceName r; resourceName_]) r
     else match IsValidPathSegmentName resourceName_ with
          | [] => set_resourceName resourceName_ r
          | msgs => fail (RErrorf "invalid resource name %q: %v" (resourceName_ :: msgs)) r
          end).

Definition Namespace_ (namespace_ : string) (r : Request) : Request :=
  unless_err r
    (if namespaceSet r then
       fail (RErrorf "namespace already set to %q, cannot change to %q" [namespace r; namespace_]) r
     else match IsValidPathSegmentName namespace_ with
          | [] => set_namespace namespace_ true r
          | msgs => fail (RErrorf "invalid namespace %q: %v" (namespace_ :: msgs)) r
          end).

Definition NamespaceIfScoped (namespace_ : string) (scoped : bool) (r : Request) : Request :=
  if scoped then Namespace_ namespace_ r else r.

(** [None]: the client has no base URL, and the code dereferences nil. *)
Definition AbsPath (segments : list string) (r : Request) : option Request :=
  match err r, base (c r) with
  | Some _, _ => Some r
  | None, None => None
  | None, Some b =>
      let p := path_Join [Path b; path_Join segments] in
      let keep_slash := match segments with
                        | [s] => ((1 <? String.length (Path b))%nat || (1 <? String.length s)%nat) && ends_with s slash
                        | _ => false
                        end in
      Some (set_pathPrefix (if keep_slash then p +:+ "/" else p) r)
  end.

(** [for k, v := range new { params[k] = v }] *)
Definition RequestURI (uri : string) (r : Request) : Request :=
  unless_err r
    match url_Parse uri with
    | inl e => fail (ROutside e) r
    | inr (p, query) => set_params (query ∪ params r) (set_pathPrefix p r)
    end.

Definition setParam (paramName value : string) (r : Request) : Request :=
  set_params (Values_Add paramName value (params r)) r.

Definition Param (paramName s : string) (r : Request) : Request :=
  unless_err r (setParam paramName s r).

(** [for k, v := range new { params[k] = append(params[k], v...) }] *)
Definition append_params (new old : Values) : Values :=
  union_with (fun o n => Some (o ++ n)) old new.

Definition SpecificallyVersionedParams (obj : RObject) (version : GroupVersion) (r : Request) : Request :=
  unless_err r
    match EncodeParameters obj version with
    | inl e => fail (ROutside e) r
    | inr new => set_params (append_params new (params r)) r
    end.

Definition VersionedParams (obj : RObject) (r : Request) : Request :=
  SpecificallyVersionedParams obj (GV (content (c r))) r.

Definition Timeout (d : Z) (r : Request) : Request := unless_err r (set_timeout d r).

Definition MaxRetries (maxRetries : Z) (r : Request) : Request :=
  set_maxRetries (if maxRetries <? 0 then 0 else maxRetries) r.

(** The argument of [Body] by its dynamic type. *)
Inductive body_arg : Type :=
| BodyFile (name : string)
| BodyBytes (b : option string)
| BodyReader (rd : Reader)
| BodyObject (o : RObject)
| BodyOther.

Definition Body (obj : body_arg) (r : Request) : Request :=
  unless_err r
    match obj with
    | BodyFile name =>
        match ReadFile name with
        | inl e => fail (ROutside e) r
        | inr data => set_body None (Some data) r
        end
    | BodyBytes b => set_body None b r
    | BodyReader rd => set_body (Some rd) None r
    | BodyObject o =>
        if IsNil o then r
        else match Encode (ContentType (content (c r))) o with
             | inl e => fail (ROutside e) r
             | inr data => SetHeader "Content-Type" [ContentType (content (c r))] (set_body None (Some data) r)
             end
    | BodyOther => fail (RErrorf "unknown type used for body: %+v" []) r
    end.

Definition Error (r : Request) : option request_error := err r.

(** ** The URL *)

(** [query.Add] of every value: a key without values is left out. *)
Definition copy_values (v : Values) : Values :=
  omap (fun l => match l with [] => None | _ => Some l end) v.

Definition URL_path (r : Request) : string :=
  let p := pathPrefix r in
  let p := if namespaceSet r && bool_decide (namespace r <> "")
           then path_Join [p; "namespaces"; namespace r] else p in
  let p := if decide (resource r <> "") then path_Join [p; strings_ToLower (resource r)] else p in
  if decide (resourceName r <> "" \/ subpath r <> "" \/ subresource r <> "")
  then path_Join [p; resourceName r; subresource r; subpath r] else p.

Definition URL_query (r : Request) : Values :=
  let query := copy_values (params r) in
  if decide (timeout r <> 0) then <["timeout" := [Duration_String (timeout r)]]> query else query.

Definition URL_ (r : Request) : URL :=
  with_query (URL_query r) (with_path (URL_path r) (default no_URL (base (c r)))).

(** ** The URL without its parameters, for metrics *)

(** The replacement of the segments from [index] on; the second argument counts down
    to it. *)
Definition template_tail (segments : list string) : list string :=
  match segments with
  | [res; _] => [res; "{name}"]
  | [a; b; sub] =>
      if decide (sub = "finalize" \/ sub = "status") then [a; "{name}"; sub] else [a; "{namespace}"; sub]
  | a :: b :: res :: x :: rest =>
      a :: "{namespace}" :: res :: (if decide (x <> "finalize" /\ x <> "status") then "{name}" else x) :: rest
  | _ => segments
  end.

Definition finalURLTemplate (r : Request) : URL :=
  let u := URL_ (set_params ((fun _ => ["{value}"]) <$> params r) r) in
  let '(segments, groupIndex, trimmedBasePath) :=
    match base (c r) with
    | Some b =>
        if strings_Contains (Path u) (Path b) then
          let p := strings_TrimPrefix (Path u) (Path b) in
          let p := if rooted p then p else "/" +:+ p in
          (strings_Split p slash, 1%nat, Path b)
        else (strings_Split (Path u) slash, 0%nat, "")
    | None => (strings_Split (Path u) slash, 0%nat, "")
    end in
  if (length segments <=? 2)%nat then u
  else
    let group := nth groupIndex segments "" in
    match (if decide (group = "api") then Some (groupIndex + 2)%nat
           else if decide (group = "apis") then Some (groupIndex + 3)%nat else None) with
    | None => with_query ∅ (with_path "/{prefix}" u)
    | Some index =>
        let segments := take index segments ++ template_tail (drop index segments) in
        with_path (path_Join [trimmedBasePath; path_Join segments]) u
    end.

(** ** Checks before a request is sent *)

Definition requestPreflightCheck (r : Request) : option request_error :=
  if negb (namespaceSet r) then None
  else if decide (namespace r <> "") then None
  else if decide (verb r = "POST") then Some (RErrorf "an empty namespace may not be set during creation" [])
  else if decide (verb r = "GET" \/ verb r = "PUT" \/ verb r = "DELETE") then
    if decide (resourceName r <> "")
    then Some (RErrorf "an empty namespace may not be set when a resource name is provided" []) else None
  else None.

(** ** The methods of the client *)

Definition RESTClient_Verb (verb : string) (c : RESTClient) : Request := Verb verb (NewRequest c).
Definition Post (c : RESTClient) : Request := RESTClient_Verb "POST" c.
Definition Put (c : RESTClient) : Request := RESTClient_Verb "PUT" c.
Definition Patch (pt : string) (c : RESTClient) : Request := SetHeader "Content-Type" [pt] (RESTClient_Verb "PATCH" c).
Definition Get (c : RESTClient) : Request := RESTClient_Verb "GET" c.
Definition Delete (c : RESTClient) : Request := RESTClient_Verb "DELETE" c.
Definition GetRateLimiter (c : option RESTClient) : option RateLimiter := c ≫= client_rateLimiter.
Definition APIVersion (c : RESTClient) : GroupVersion := GV (content c).

(** ** Chains of calls *)

Inductive call : Type :=
| CVerb (verb : string)
| CPrefix (segments : list string)
| CSuffix (segments : list string)
| CResource (resource : string)
| CBackOff (manager : option Manager)
| CThrottle (limiter : option RateLimiter)
| CWarningHandler (handler : option WarningHandler)
| CSubResource (subresources : list string)
| CName (resourceName : string)
| CNamespace (namespace : string)
| CNamespaceIfScoped (namespace : string) (scoped : bool)
| CAbsPath (segments : list string)
| CRequestURI (uri : string)
| CParam (paramName s : string)
| CVersionedParams (obj : RObject)
| CSpecificallyVersionedParams (obj : RObject) (version : GroupVersion)
| CSetHeader (key : string) (values : list string)
| CTimeout (d : Z)
| CMaxRetries (maxRetries : Z)
| CBody (obj : body_arg).

Definition run_call (k : call) (r : Request) : option Request :=
  match k with
  | CVerb verb => Some (Verb verb r)
  | CPrefix segments => Some (Prefix segments r)
  | CSuffix segments => Some (Suffix segments r)
  | CResource resource => Some (Resource resource r)
  | CBackOff manager => Some (BackOff manager r)
  | CThrottle limiter => Some (Throttle limiter r)
  | CWarningHandler handler => Some (WarningHandler_ handler r)
  | CSubResource subresources => Some (SubResource subresources r)
  | CName resourceName => Some (Name_ resourceName r)
  | CNamespace namespace => Some (Namespace_ namespace r)
  | CNamespaceIfScoped namespace scoped => Some (NamespaceIfScoped namespace scoped r)
  | CAbsPath segments => AbsPath segments r
  | CRequestURI uri => Some (RequestURI uri r)
  | CParam paramName s => Some (Param paramName s r)
  | CVersionedParams obj => Some (VersionedParams obj r)
  | CSpecificallyVersionedParams obj version => Some (SpecificallyVersionedParams obj version r)
  | CSetHeader key values => Some (SetHeader key values r)
  | CTimeout d => Some (Timeout d r)
  | CMaxRetries maxRetries => Some (MaxRetries maxRetries r)
  | CBody obj => Some (Body obj r)
  end.

Fixpoint run_calls (ks : list call) (r : Request) : option Request :=
  match ks with
  | [] => Some r
  | k :: ks => r ← run_call k r; run_calls ks r
  end.

(** ** Well-formed requests *)

Definition valid (s : string) : Prop := IsValidPathSegmentName s = [].

Record request_ok (r : Request) : Prop := {
  ok_namespace : valid (namespace r);
  ok_unset : namespaceSet r = false -> namespace r = "";
  ok_resource : valid (resource r);
  ok_resourceName : valid (resourceName r);
  ok_subresource : subresource r = "" \/ Forall (fun s => valid s /\ s <> "") (strings_Split (subresource r) slash);
  ok_maxRetries : 0 <= maxRetries r;
  ok_body : body r = None \/ bodyBytes r = None
}.

(** What a chain asks for is what the request holds. *)
Definition granted (r : Request) (k : call) : Prop :=
  match k with
  | CResource x => x = "" \/ resource r = x
  | CName x => x <> "" /\ resourceName r = x
  | CNamespace x => namespace r = x /\ namespaceSet r = true
  | CNamespaceIfScoped x scoped => scoped = true -> namespace r = x /\ namespaceSet r = true
  | CSubResource l => path_Join l = "" \/ subresource r = path_Join l
  | _ => True
  end.

(** The elements of the path that come after the prefix. *)
Definition ns_part (r : Request) : list string :=
  if decide (namespace r <> "") then ["namespaces"; namespace r] else [].
Definition resource_part (r : Request) : list string :=
  if decide (resource r <> "") then [strings_ToLower (resource r)] else [].
Definition named_part (r : Request) : list string :=
  filter (fun s => s <> "") (resourceName r :: strings_Split (subresource r) slash).
Definition tail (r : Request) : list string := ns_part r ++ resource_part r ++ named_part r.

(** ** Lemmas *)

Lemma valid_name s : valid s -> s = "" \/ name s.
Proof.
  unfold valid, IsValidPathSegmentName, IsValidPathSegmentPrefix, NameMayNotBe, NameMayNotContain. cbn [List.find].
  destruct (String.eqb_spec s "."), (String.eqb_spec s ".."); [done..|]. cbn [List.filter].
  rewrite contains_slash. destruct (no_slash s) eqn:Hs; [|done]. intros _.
  destruct (decide (s = "")); [by left|]. by right.
Qed.

Lemma valid_split s : valid s -> strings_Split s slash = [s].
Proof. intros [->|Hs]%valid_name; [done|]. apply strings_Split_no_slash, Hs. Qed.

Lemma first_invalid_none l : first_invalid l = None -> Forall valid l.
Proof.
  induction l as [|s l IH]; [done|]. cbn. destruct (IsValidPathSegmentName s) eqn:Hs; [|done].
  intros Hl. constructor; [done|]. auto.
Qed.

Lemma rooted_name s : s = "" \/ name s -> rooted s = false.
Proof.
  intros [->|(_ & _ & _ & Hs)]; [done|]. destruct s as [|c s]; [done|]. cbn in *.
  apply andb_prop in Hs as [Hs _]. by apply negb_true_iff in Hs.
Qed.

(** The subresource that valid pieces make. *)
Lemma join_valid l : Forall valid l ->
  path_Join l = "" \/ strings_Split (path_Join l) slash = filter (fun s => s <> "") l.
Proof.
  intros Hl. destruct (decide (path_Join l = "")) as [|Hne]; [by left|right].
  destruct (components_Join l) as [Hc Hr].
  assert (Hn : Forall (fun s => s = "" \/ name s) l).
  { eapply Forall_impl; [exact Hl|]. apply valid_name. }
  assert (Hs : concat (map (fun s => strings_Split s slash) l) = l).
  { clear -Hl. induction Hl as [|s l Hs _ IH]; [done|]. cbn. by rewrite valid_split, IH. }
  rewrite Hs, names_steps, app_nil_r, rev_involutive in Hc by done.
  assert (Hf : rooted (path_Join l) = false).
  { rewrite Hr. clear -Hn. induction Hn as [|s l Hs _ IH]; [done|]. destruct s; [done|]. by apply rooted_name. }
  rewrite (Join_render l Hne), Hf, Hc. apply split_render; [by apply filter_names|].
  intros Hnil. by apply Hne, Join_empty.
Qed.

Lemma SetHeader_keeps key vs r :
  namespace (SetHeader key vs r) = namespace r /\ namespaceSet (SetHeader key vs r) = namespaceSet r /\
  resource (SetHeader key vs r) = resource r /\ resourceName (SetHeader key vs r) = resourceName r /\
  subresource (SetHeader key vs r) = subresource r.
Proof. done. Qed.

Lemma NewRequest_ok c : request_ok (NewRequest c) /\ err (NewRequest c) = None /\ subpath (NewRequest c) = "".
Proof. unfold NewRequest. by repeat case_decide; repeat constructor; auto. Qed.

(** Splits a method of [Request] into its branches. *)
Ltac branches :=
  repeat match goal with
  | |- context [match ?x with _ => _ end] => destruct x eqn:?; cbn; try done
  | |- context [decide ?P] => destruct (decide P); cbn; try done
  end.

Create HintDb request discriminated.
#[local] Hint Unfold Verb Prefix Suffix Resource BackOff Throttle WarningHandler_ SubResource Name_ NamespaceIfScoped
  Namespace_ RequestURI setParam Param VersionedParams SpecificallyVersionedParams Timeout MaxRetries Body unless_err
  AbsPath : request.

Lemma run_call_ok k r r' : request_ok r -> run_call k r = Some r' -> request_ok r'.
Proof.
  intros Hok Hk. pose proof Hok as [H1 H2 H3 H4 H5 H6 H7].
  destruct k; cbn in Hk; autounfold with request in Hk; repeat split_match_in Hk; simplify_eq; try done;
    split; cbn in *; auto; bool_to_prop; try done; try lia.
  - destruct (join_valid subresources) as [|Hs]; [by apply first_invalid_none|by left|right].
    rewrite Hs. apply Forall_forall. intros s [Hne Hin]%list_elem_of_filter. split; [|done].
    assert (Hv : Forall valid subresources) by by apply first_invalid_none.
    rewrite Forall_forall in Hv. auto.
  - apply Hok.
  - apply Hok.
Qed.

Lemma run_calls_ok ks r r' : request_ok r -> run_calls ks r = Some r' -> request_ok r'.
Proof.
  revert r. induction ks as [|k ks IH]; cbn; intros r Hok Hr; [by simplify_eq|].
  destruct (run_call k r) as [r1|] eqn:Hk; [|done]. cbn in Hr. eapply IH; [|exact Hr]. by eapply run_call_ok.
Qed.

(** What the calls do to an error. *)
Lemma run_call_err k r r' e : err r = Some e -> run_call k r = Some r' ->
  err r' = Some e /\ URL_ r' = URL_ r /\ body r' = body r /\ bodyBytes r' = bodyBytes r /\ subpath r' = subpath r.
Proof.
  intros He Hk. destruct k; cbn in Hk; autounfold with request in Hk; rewrite ?He in Hk; try split_match_in Hk; by simplify_eq.
Qed.

Lemma run_calls_err ks r r' e : err r = Some e -> run_calls ks r = Some r' ->
  err r' = Some e /\ URL_ r' = URL_ r /\ body r' = body r /\ bodyBytes r' = bodyBytes r.
Proof.
  revert r. induction ks as [|k ks IH]; cbn; intros r He Hr; [by simplify_eq|].
  destruct (run_call k r) as [r1|] eqn:Hk; [|done]. cbn in Hr.
  destruct (run_call_err k r r1 e He Hk) as (He1 & <- & <- & <- & _). by apply IH.
Qed.

(** A call that fails leaves its error and nothing else. *)
Lemma run_call_fails k r r' e : err r = None -> run_call k r = Some r' -> err r' = Some e -> r' = fail e r.
Proof.
  intros He Hk He'. destruct k; cbn in Hk; autounfold with request in Hk; rewrite ?He in Hk;
    repeat split_match_in Hk; simplify_eq; cbn in He'; try congruence; by simplify_eq.
Qed.

(** What a call has set stays set. *)
Definition keeps (r r' : Request) : Prop :=
  (resource r <> "" -> resource r' = resource r) /\
  (resourceName r <> "" -> resourceName r' = resourceName r) /\
  (subresource r <> "" -> subresource r' = subresource r) /\
  (namespaceSet r = true -> namespace r' = namespace r /\ namespaceSet r' = true).

Lemma run_call_keeps k r r' : run_call k r = Some r' -> keeps r r'.
Proof.
  intros Hk. destruct k; cbn in Hk; autounfold with request in Hk; repeat split_match_in Hk; simplify_eq;
    split_and!; cbn; auto; try done; congruence.
Qed.

Lemma run_calls_keep ks r r' : run_calls ks r = Some r' -> keeps r r'.
Proof.
  revert r. induction ks as [|k ks IH]; cbn; intros r Hr; [simplify_eq; by repeat split|].
  destruct (run_call k r) as [r1|] eqn:Hk; [|done]. cbn in Hr.
  destruct (run_call_keeps k r r1 Hk) as (K1 & K2 & K3 & K4), (IH r1 Hr) as (L1 & L2 & L3 & L4).
  split_and!; intros Hx.
  - rewrite <- K1 by done. apply L1. by rewrite K1.
  - rewrite <- K2 by done. apply L2. by rewrite K2.
  - rewrite <- K3 by done. apply L3. by rewrite K3.
  - destruct (K4 Hx) as [<- ?]. by apply L4.
Qed.

Lemma run_call_granted k r r' : run_call k r = Some r' -> err r' = None -> granted r' k.
Proof.
  intros Hk He. destruct k; cbn in Hk |- *; autounfold with request in Hk; repeat split_match_in Hk; simplify_eq; cbn in *;
    auto; congruence.
Qed.

Lemma granted_keep k r r' : granted r k -> keeps r r' -> granted r' k.
Proof.
  intros Hg (K1 & K2 & K3 & K4). destruct k; cbn in *; try done.
  - destruct Hg as [?|<-]; [by left|]. destruct (decide (resource r = "")); [by left|right]. auto.
  - destruct Hg as [?|<-]; [by left|]. destruct (decide (subresource r = "")); [by left|right]. auto.
  - destruct Hg as [? <-]. auto.
  - destruct Hg as [<- ?]. auto.
  - intros Hs. destruct (Hg Hs) as [<- ?]. auto.
Qed.

Lemma run_calls_granted ks r r' : run_calls ks r = Some r' -> err r' = None -> Forall (granted r') ks.
Proof.
  revert r. induction ks as [|k ks IH]; cbn; intros r Hr He; [done|].
  destruct (run_call k r) as [r1|] eqn:Hk; [|done]. cbn in Hr.
  constructor; [|by eapply IH]. apply (granted_keep k r1); [|by eapply run_calls_keep].
  eapply run_call_granted; [done|]. destruct (err r1) as [e|] eqn:He1; [|done].
  by destruct (run_calls_err ks r1 r' e He1 Hr) as [? _]; congruence.
Qed.

Lemma run_calls_subpath ks r r' : (forall l, CSuffix l ∉ ks) -> run_calls ks r = Some r' -> subpath r' = subpath r.
Proof.
  revert r. induction ks as [|k ks IH]; cbn; intros r Hn Hr; [by simplify_eq|].
  destruct (run_call k r) as [r1|] eqn:Hk; [|done]. cbn in Hr.
  rewrite (IH r1); [|intros l Hl; apply (Hn l); by right|done].
  destruct k; cbn in Hk; autounfold with request in Hk; repeat split_match_in Hk; simplify_eq; try done.
  all: by destruct (Hn segments); left.
Qed.

(** ** The path of a request *)

Lemma lower_name s : name s -> name (strings_ToLower s).
Proof.
  intros (H1 & H2 & H3 & H4). pose proof (lower_dots s) as Hd. split_and!.
  - intros He. apply H1. by rewrite <- Hd, He by auto.
  - intros He. apply H2. by rewrite <- Hd, He by auto.
  - intros He. apply H3. by rewrite <- Hd, He by auto.
  - by rewrite no_slash_lower.
Qed.

Lemma name_piece s : name s -> (s = "" \/ Forall (fun q => q = "" \/ name q) (strings_Split s slash)) /\
  rooted s = false /\ strings_Split s slash = [s] /\ s <> "".
Proof.
  intros Hs. rewrite strings_Split_no_slash by apply Hs. split_and!; [|by apply rooted_name; right|done|apply Hs].
  right. constructor; [by right|constructor].
Qed.

Lemma subresource_piece r : request_ok r ->
  (subresource r = "" \/ Forall (fun q => q = "" \/ name q) (strings_Split (subresource r) slash)) /\
  rooted (subresource r) = false /\
  Forall name (filter (fun s => s <> "") (strings_Split (subresource r) slash)) /\
  (subresource r <> "" -> filter (fun s => s <> "") (strings_Split (subresource r) slash) = strings_Split (subresource r) slash).
Proof.
  intros [_ _ _ _ [Hs|Hs] _ _]; [rewrite Hs; by repeat split; auto|].
  assert (Hn : Forall name (strings_Split (subresource r) slash)).
  { eapply Forall_impl; [exact Hs|]. by intros s [[?|?]%valid_name ?]. }
  split_and!.
  - right. eapply Forall_impl; [exact Hn|]. auto.
  - destruct (subresource r) as [|ch s] eqn:Hsub; [done|]. cbn in Hn |- *. destruct (Ascii.eqb ch slash); [|done].
    inversion Hn as [|? ? (? & _)]; subst. done.
  - rewrite Forall_forall in *. intros s [_ ?]%list_elem_of_filter. auto.
  - intros _. apply list_filter_all. eapply Forall_impl; [exact Hs|]. by intros s [].
Qed.

(** One step of [URL_path]. *)
Lemma extends_names p0 t p l : extends p0 t p -> Forall name l -> l <> [] -> extends p0 (t ++ l) (path_Join (p :: l)).
Proof.
  intros He Hl Hne.
  assert (Hm : concat (map (fun s => strings_Split s slash) l) = l) by by apply split_components, names_no_slash.
  assert (Hf : filter (fun s => s <> "") l = l).
  { apply list_filter_all. eapply Forall_impl; [exact Hl|]. by intros s (? & _). }
  pose proof (extends_join p0 t p l He) as H1. rewrite Hm, Hf in H1. apply H1; [| |done].
  - eapply Forall_impl; [exact Hl|]. intros s Hs. apply (name_piece s Hs).
  - eapply Forall_impl; [exact Hl|]. intros s Hs. apply (name_piece s Hs).
Qed.

Lemma parts_names r : request_ok r ->
  Forall name (ns_part r) /\ Forall name (resource_part r) /\ Forall name (named_part r).
Proof.
  intros Hok. destruct (subresource_piece r Hok) as (_ & _ & Hs & _).
  destruct Hok as [H1 _ H3 H4 _ _ _]. apply valid_name in H1, H3, H4. split_and!.
  - unfold ns_part. case_decide; [|constructor]. destruct H1; [done|]. repeat (constructor; [done|]). constructor.
  - unfold resource_part. case_decide; [|constructor]. destruct H3; [done|]. constructor; [by apply lower_name|done].
  - unfold named_part. destruct (decide (resourceName r = "")) as [Hr|Hr].
    + by rewrite filter_cons_False by (intros Hx; by apply Hx).
    + rewrite filter_cons_True by done. constructor; [by destruct H4|done].
Qed.

(** The name and the subresource. *)
Lemma extends_named r p0 t p : request_ok r -> extends p0 t p ->
  extends p0 (t ++ named_part r)
    (if decide (resourceName r <> "" \/ "" <> "" \/ subresource r <> "")
     then path_Join [p; resourceName r; subresource r; ""] else p).
Proof.
  intros Hok He. destruct (subresource_piece r Hok) as (Hs1 & Hs2 & _ & Hs4). unfold named_part.
  destruct (valid_name _ (ok_resourceName r Hok)) as [Hn|Hn].
  - rewrite Hn, filter_cons_False by (intros Hx; by apply Hx). case_decide as Hd.
    + assert (Hsub : subresource r <> "") by (by destruct Hd as [|[|]]).
      pose proof (extends_join p0 t p [""; subresource r; ""] He) as Hj.
      cbn [map concat] in Hj. rewrite app_nil_r, !filter_app in Hj.
      change (filter (fun s => s <> "") (strings_Split "" slash)) with (@nil string) in Hj.
      rewrite app_nil_r, (Hs4 Hsub) in Hj. rewrite (Hs4 Hsub). apply Hj.
      * repeat (constructor; [by auto|]). constructor.
      * by repeat constructor.
      * apply strings_Split_not_nil.
    + destruct (decide (subresource r = "")) as [->|]; [by rewrite app_nil_r|tauto].
  - destruct (name_piece _ Hn) as (Hp & Hr & Hsp & Hne).
    rewrite decide_True by auto.
    pose proof (extends_join p0 t p [resourceName r; subresource r; ""] He) as Hj.
    cbn [map concat] in Hj. rewrite Hsp, app_nil_r, app_assoc, filter_app in Hj.
    change (filter (fun s => s <> "") (strings_Split "" slash)) with (@nil string) in Hj.
    rewrite app_nil_r in Hj. apply Hj.
    + constructor; [done|]. repeat (constructor; [by auto|]). constructor.
    + by repeat constructor.
    + cbn [app]. by rewrite filter_cons_True.
Qed.

Lemma URL_path_extends r : request_ok r -> subpath r = "" ->
  extends (pathPrefix r) (tail r) (URL_path r) /\ Forall name (tail r).
Proof.
  intros Hok Hsub. destruct (parts_names r Hok) as (HA & HB & HC).
  split; [|unfold tail; by repeat apply Forall_app_2].
  unfold URL_path, tail. rewrite Hsub, app_assoc. apply extends_named; [done|].
  set (p1 := if _ && _ then _ else _).
  assert (E1 : extends (pathPrefix r) (ns_part r) p1).
  { unfold p1, ns_part in *. destruct (decide (namespace r <> "")) as [Hn|Hn].
    - rewrite bool_decide_eq_true_2 by done. destruct (namespaceSet r) eqn:Hs; [|by destruct Hn; apply (ok_unset r)].
      cbn. by apply (extends_names _ []); [apply extends_refl| |].
    - rewrite bool_decide_eq_false_2, andb_false_r by done. apply extends_refl. }
  unfold resource_part in *. destruct (decide (resource r <> "")); [by apply extends_names|by rewrite app_nil_r].
Qed.

(** A filter of nonempty pieces determines what was split. *)
Lemma subresource_inj r1 r2 : request_ok r1 -> request_ok r2 ->
  filter (fun s => s <> "") (strings_Split (subresource r1) slash) =
  filter (fun s => s <> "") (strings_Split (subresource r2) slash) -> subresource r1 = subresource r2.
Proof.
  intros Hok1 Hok2 Heq.
  destruct (subresource_piece r1 Hok1) as (_ & _ & _ & Hs1), (subresource_piece r2 Hok2) as (_ & _ & _ & Hs2).
  destruct (decide (subresource r1 = "")) as [E1|E1], (decide (subresource r2 = "")) as [E2|E2]; [congruence|..].
  - rewrite E1, (Hs2 E2) in Heq. by destruct (strings_Split_not_nil (subresource r2) slash).
  - rewrite E2, (Hs1 E1) in Heq. by destruct (strings_Split_not_nil (subresource r1) slash).
  - rewrite (Hs1 E1), (Hs2 E2) in Heq. by rewrite <- (strings_Split_join (subresource r1)), Heq, strings_Split_join.
Qed.

Lemma tail_inj r1 r2 : request_ok r1 -> request_ok r2 ->
  (namespace r1 = "" <-> namespace r2 = "") -> resource r1 <> "" -> resource r2 <> "" ->
  resourceName r1 <> "" -> resourceName r2 <> "" -> tail r1 = tail r2 ->
  namespace r1 = namespace r2 /\ strings_ToLower (resource r1) = strings_ToLower (resource r2) /\
  resourceName r1 = resourceName r2 /\ subresource r1 = subresource r2.
Proof.
  intros Hok1 Hok2 Hns Hr1 Hr2 Hn1 Hn2. unfold tail, ns_part, resource_part, named_part.
  rewrite !(filter_cons_True _ (resourceName _)) by done. rewrite (decide_True (P:=resource r1 <> "")), (decide_True (P:=resource r2 <> "")) by done.
  destruct (decide (namespace r1 <> "")) as [N1|N1], (decide (namespace r2 <> "")) as [N2|N2]; [|tauto|tauto|].
  - cbn. intros [= ? ? ? Hs]. auto using subresource_inj.
  - cbn. intros [= ? ? Hs]. apply dec_stable in N1, N2. split_and!; [congruence|done..|by apply subresource_inj].
Qed.

(** ** The template of a URL

    The base path is [/b1/.../bn/], as [NewRESTClient] leaves it, and the rest of the
    prefix is [api/version] or [apis/group/version]. *)

Definition slashed (bs : list string) : string := String slash (join_slash (bs ++ [""])).

Definition api_path (gs : list string) : Prop :=
  (exists v, gs = ["api"; v]) \/ (exists g v, gs = ["apis"; g; v]).

Lemma Join_segments l : Forall name l -> l <> [] -> path_Join ("" :: l) = join_slash l.
Proof.
  intros Hl Hne. destruct l as [|s l]; [done|]. inversion Hl as [|? ? Hs ?]; subst.
  destruct (extends_names "" [] "" (s :: l) (extends_refl "") Hl Hne) as (_ & _ & _ & Hp). by rewrite Hp.
Qed.

Lemma Join_slashed bs l : Forall name bs -> Forall name l -> l <> [] ->
  path_Join [slashed bs; join_slash l] = render true (bs ++ l).
Proof.
  intros Hbs Hl Hne. destruct (components_Join [slashed bs; join_slash l]) as [Hc Hr].
  cbn [drop_empty hd slashed rooted] in Hr. rewrite Ascii.eqb_refl in Hr. rewrite Hr in Hc.
  assert (Hp : forall k, Forall name k -> filter (fun s => s <> "") k = k).
  { intros k Hk. apply list_filter_all. eapply Forall_impl; [exact Hk|]. by intros s (? & _). }
  assert (Hs : concat (map (fun s => strings_Split s slash) [slashed bs; join_slash l]) = "" :: bs ++ [""] ++ l).
  { cbn [map concat]. rewrite app_nil_r. unfold slashed. cbn [strings_Split]. rewrite Ascii.eqb_refl.
    rewrite split_join by (by destruct bs). rewrite (split_join l) by done. rewrite map_app, concat_app.
    rewrite (split_components bs), (split_components l) by (by apply names_no_slash). cbn [app].
    by rewrite <- app_assoc. }
  rewrite Hs, names_steps, app_nil_r, rev_involutive in Hc.
  - rewrite (Join_render [slashed bs; join_slash l]), Hr, Hc.
    + rewrite filter_cons_False by (intros Hx; by apply Hx). rewrite filter_app, Hp by done. cbn [app].
      rewrite filter_cons_False by (intros Hx; by apply Hx). by rewrite Hp.
    + intros Hj. by rewrite Hj in Hr.
  - constructor; [by left|]. apply Forall_app_2; [by eapply Forall_impl; [exact Hbs|]; auto|].
    constructor; [by left|]. by eapply Forall_impl; [exact Hl|]; auto.
Qed.

(** The replacement, on the elements after the base path. *)
Lemma template_segments gs ns res n : api_path gs -> n <> "finalize" -> n <> "status" ->
  let segments := "" :: gs ++ ["namespaces"; ns; res; n] in
  exists index,
    (if decide (nth 1 segments "" = "api") then Some (1 + 2)%nat
     else if decide (nth 1 segments "" = "apis") then Some (1 + 3)%nat else None) = Some index /\
    take index segments ++ template_tail (drop index segments) =
      "" :: gs ++ ["namespaces"; "{namespace}"; res; "{name}"].
Proof.
  intros [[v ->]|(g & v & ->)] Hf Hs; [exists 3%nat|exists 4%nat]; (split; [reflexivity|]);
    cbn [take drop app template_tail]; by rewrite decide_True.
Qed.

(** ** Properties *)

(** C24: Whatever calls build a request, the request is well formed: its namespace,
    resource, name and subresource are valid path segments, an unset namespace is
    empty, it never holds two bodies, and the number of retries is not negative. *)
Theorem request_well_formed c ks r : run_calls ks (NewRequest c) = Some r -> request_ok r.
Proof. intros Hr. eapply run_calls_ok; [apply NewRequest_ok|exact Hr]. Qed.

(** The first error of a chain of calls is the error of the request: the call that
    fails changes nothing else, and no later call changes the error, the URL or the body. *)
Theorem request_first_error c ks k ks' r1 r2 r e :
  run_calls ks (NewRequest c) = Some r1 -> Error r1 = None ->
  run_call k r1 = Some r2 -> Error r2 = Some e ->
  run_calls ks' r2 = Some r ->
  Error r = Some e /\ URL_ r = URL_ r1 /\ body r = body r1 /\ bodyBytes r = bodyBytes r1.
Proof.
  unfold Error. intros _ He1 Hk He2 Hr. apply (run_call_fails _ _ _ e) in Hk as ->; [|done..].
  by apply (run_calls_err ks' (fail e r1) r e).
Qed.

(** The path of a request that was built without [Suffix] is exactly its prefix
    followed by the namespace, the lower-cased resource, the name and the subresource it
    was asked for: each is one proper path element (a subresource: its elements), so that
    no argument, whatever it holds, leads out of the prefix or to another kind of object;
    and without an error every call is granted. *)
Theorem request_path_confined c ks r :
  run_calls ks (NewRequest c) = Some r -> (forall l, CSuffix l ∉ ks) ->
  Forall name (tail r) /\
  Path (URL_ r) = (if decide (tail r = []) then pathPrefix r
                   else render (rooted (pathPrefix r)) (components (pathPrefix r) ++ tail r)) /\
  components (Path (URL_ r)) = components (pathPrefix r) ++ tail r /\
  (Error r = None -> Forall (granted r) ks).
Proof.
  intros Hr Hn. destruct (NewRequest_ok c) as (Hok & _ & Hsub).
  destruct (URL_path_extends r) as [(Hc & _ & H1 & H2) Ht];
    [by eapply run_calls_ok|by rewrite (run_calls_subpath ks (NewRequest c) r)|].
  split_and!; [done| |done|intros He; by eapply run_calls_granted].
  change (Path (URL_ r)) with (URL_path r). case_decide; auto.
Qed.


(** The URL by which metrics count the requests for an object in a namespace has
    [{namespace}] and [{name}] in the place of the namespace and the name and [{value}] for
    every parameter, whatever they are, unless the name is [finalize] or [status]. *)
Theorem request_template_hides b bs gs r :
  base (c r) = Some b -> Path b = slashed bs -> Forall name bs -> Forall name gs -> api_path gs ->
  request_ok r -> pathPrefix r = render true (bs ++ gs) -> subpath r = "" ->
  namespace r <> "" -> resource r <> "" -> resourceName r <> "" -> subresource r = "" ->
  resourceName r <> "finalize" -> resourceName r <> "status" -> timeout r = 0 ->
  Path (finalURLTemplate r) =
    render true (bs ++ gs ++ ["namespaces"; "{namespace}"; strings_ToLower (resource r); "{name}"]) /\
  RawQuery (finalURLTemplate r) = (fun _ => ["{value}"]) <$> params r.
Proof.
  intros Hb HB Hbs Hgs Hapi Hok Hp Hsub Hns Hres Hn Hs0 Hf Hs Hto.
  assert (Ht : tail r = ["namespaces"; namespace r; strings_ToLower (resource r); resourceName r]).
  { unfold tail, ns_part, resource_part, named_part. rewrite Hs0, !filter_cons_True by done.
    by rewrite (decide_True (P:=namespace r <> "")), (decide_True (P:=resource r <> "")). }
  destruct (URL_path_extends r Hok Hsub) as [(_ & _ & _ & Hu) Htn]. rewrite Ht in *.
  rewrite Hp in Hu. destruct (components_render true (bs ++ gs)) as [Hc Hr].
  { apply names_stack, Forall_rev, Forall_app_2; done. }
  rewrite Hc, Hr, <- app_assoc in Hu. specialize (Hu ltac:(done)).
  set (l := gs ++ ["namespaces"; namespace r; strings_ToLower (resource r); resourceName r]) in *.
  assert (Hl : Forall name l) by (unfold l; by apply Forall_app_2).
  assert (Hlne : l <> []) by (unfold l; by destruct gs).
  assert (Hpath : URL_path r = slashed bs +:+ join_slash l).
  { rewrite Hu. unfold slashed. cbn [render]. rewrite (join_slash_after bs l) by done. done. }
  destruct (template_segments gs (namespace r) (strings_ToLower (resource r)) (resourceName r)) as (index & Hi & Hseg);
    [done..|]. fold l in Hi, Hseg.
  unfold finalURLTemplate. cbn [c set_params]. rewrite Hb. 
  replace (Path (URL_ _)) with (slashed bs +:+ join_slash l) by done.
  rewrite HB, contains_app, trim_app, (rooted_join l), split_rooted_join by done.
  replace (length ("" :: l) <=? 2)%nat with false by (unfold l; destruct Hapi as [[v ->]|(g & v & ->)]; done).
  rewrite Hi, Hseg.
  set (l' := gs ++ ["namespaces"; "{namespace}"; strings_ToLower (resource r); "{name}"]).
  assert (Hl' : Forall name l').
  { unfold l'. apply Forall_app_2; [done|]. inversion_clear Htn as [|? ? ? Hx]. inversion_clear Hx as [|? ? ? Hy].
    inversion_clear Hy. repeat (constructor; [done|]). constructor. }
  rewrite Join_segments, Join_slashed by (done || by destruct gs). split; [done|].
  change (URL_query (set_params ((fun _ => ["{value}"]) <$> params r) r) = (fun _ => ["{value}"]) <$> params r).
  unfold URL_query, copy_values. cbn [timeout set_params params]. rewrite decide_False by (intros Hx; by apply Hx).
  apply map_eq. intros k. rewrite lookup_omap, !lookup_fmap. by destruct (params r !! k).
Qed.

End request.

(** ** Witnesses *)

Module samples.

(** A surrounding whose objects are strings. *)
#[local] Instance outside : Outside := {|
  E := string; Reader := nat; RObject := string; Manager := nat; RateLimiter := nat; WarningHandler := nat;
  noBackoff := 0%nat;
  url_Parse := fun uri => if String.eqb uri "" then inl "empty" else inr (uri, ∅);
  EncodeParameters := fun o _ => inr {["fieldSelector" := [o]]};
  ReadFile := fun _ => inl "no such file";
  IsNil := fun o => String.eqb o "";
  Encode := fun _ o => inr o;
  Duration_String := fun d => pretty.pretty d
|}.

Definition server : RESTClient :=
  NewRESTClient (mkURL "https" "10.0.0.1" "/cluster" ∅ "") "api/v1" (mkContent "" "" (mkGV "" "v1")) 0%nat None None.

Definition pod_calls (ns n : string) : list call :=
  [CVerb "GET"; CNamespace ns; CResource "Pods"; CName n; CSubResource ["log"]; CParam "follow" "true"; CMaxRetries (-1)].

Definition pod_request (ns n : string) : Request :=
  default (NewRequest server) (run_calls (pod_calls ns n) (NewRequest server)).

Example pod_path :
  Path (URL_ (pod_request "default" "web")) = "/cluster/api/v1/namespaces/default/pods/web/log".
Proof. vm_compute. done. Qed.

Example dots_refused : Error (pod_request "default" "..") <> None.
Proof. vm_compute. done. Qed.

(** [Suffix] is not confined. *)
Example suffix_escapes :
  (fun r => Path (URL_ r)) <$> run_calls [CResource "pods"; CSuffix [".."; "secrets"]] (NewRequest server) =
    Some "/cluster/api/v1/secrets".
Proof. vm_compute. done. Qed.

Example template :
  Path (finalURLTemplate (pod_request "default" "web")) = "/cluster/api/v1/namespaces/{namespace}/pods/{name}/log".
Proof. vm_compute. done. Qed.

(** An object that is called [status] keeps its name in the template. *)
Example template_status :
  (fun r => Path (finalURLTemplate r)) <$>
    run_calls [CNamespace "default"; CResource "pods"; CName "status"] (NewRequest server) =
    Some "/cluster/api/v1/namespaces/{namespace}/pods/status".
Proof. vm_compute. done. Qed.

(** [RequestURI] leaves the namespace and the resource in place. *)
Example request_uri_keeps :
  (fun r => Path (URL_ r)) <$> run_calls [CNamespace "default"; CResource "pods"; CRequestURI "/version"] (NewRequest server) =
    Some "/version/namespaces/default/pods".
Proof. vm_compute. done. Qed.

Lemma request_well_formed_witness :
  run_calls (pod_calls "default" "web") (NewRequest server) = Some (pod_request "default" "web") /\
  request_ok (pod_request "default" "web").
Proof. split; [vm_compute; done|]. apply (request_well_formed server (pod_calls "default" "web")). vm_compute. done. Defined.

Definition slash_error : request_error := RErrorf "invalid resource %q: %v" ["a/b"; "may not contain '/'"].

Lemma request_first_error_witness :
  let r := Name_ "web" (Resource "a/b" (NewRequest server)) in
  Error r = Some slash_error /\ URL_ r = URL_ (NewRequest server).
Proof.
  intros r.
  pose proof (request_first_error server [] (CResource "a/b") [CName "web"] (NewRequest server)
    (Resource "a/b" (NewRequest server)) r slash_error) as Hw.
  destruct Hw as (He & Hu & _); [reflexivity|vm_compute; reflexivity|reflexivity|vm_compute; reflexivity|reflexivity|].
  exact (conj He Hu).
Defined.

Lemma request_path_confined_witness :
  Path (URL_ (pod_request "default" "web")) =
    render true (["cluster"; "api"; "v1"] ++ ["namespaces"; "default"; "pods"; "web"; "log"]).
Proof.
  destruct (request_path_confined server (pod_calls "default" "web") (pod_request "default" "web")) as (_ & Hp & _).
  - vm_compute. done.
  - intros l Hl. unfold pod_calls in Hl. rewrite !elem_of_cons, elem_of_nil in Hl. naive_solver.
  - rewrite Hp. vm_compute. done.
Defined.

(** The pod again, built another way and asked for with another verb and time limit. *)
Definition pod_calls' (ns n : string) : list call :=
  [CVerb "POST"; CSubResource ["log"]; CName n; CTimeout 5; CNamespaceIfScoped ns true; CResource "pods"].

Definition pod_request' (ns n : string) : Request :=
  default (NewRequest server) (run_calls (pod_calls' ns n) (NewRequest server)).


Lemma request_template_hides_witness :
  let r := default (NewRequest server)
    (run_calls [CNamespace "default"; CResource "pods"; CName "web"; CParam "a" "b"] (NewRequest server)) in
  Path (finalURLTemplate r) = "/cluster/api/v1/namespaces/{namespace}/pods/{name}".
Proof.
  intros r.
  assert (Hok : request_ok r).
  { apply (run_calls_ok [CNamespace "default"; CResource "pods"; CName "web"; CParam "a" "b"] (NewRequest server));
      [apply (NewRequest_ok server)|vm_compute; done]. }
  refine (eq_trans (proj1 (request_template_hides (mkURL "https" "10.0.0.1" "/cluster/" ∅ "") ["cluster"] ["api"; "v1"] r
    _ _ _ _ _ Hok _ _ _ _ _ _ _ _ _)) _); try (vm_compute; done).
  - by repeat (constructor; [vm_compute; done|]).
  - by repeat (constructor; [vm_compute; done|]).
  - left. by exists "v1".
Defined.

End samples.
