(* ===== verification/RestResult.v ===== *)
(** * Responses of the REST client

    The half of rest/request.go that turns an HTTP response into a [Result], and the
    warnings of rest/warnings.go.  Media types (package mime), decoders and API errors
    (k8s.io/apimachinery) are the parameters of [Codec]. *)

From S2P Require Import Prelude Objects GoStrings RestRequest.

(** ** Responses *)

Section response.
Context `{Outside}.

(** What reading a body to its end gives: the data read and the error that ended it, if
    one did, with whether it is an [http2.StreamError]. *)
Record reading : Type := mkReading { data : string; read_err : option (E * bool) }.

(** [http.Response]; [Body] may be nil. *)
Record Response : Type := mkResponse {
  StatusCode : Z;
  Header : Values;
  resp_Body : option reading
}.

(** [retryAfterSeconds] *)
Definition retryAfterSeconds (resp : Response) : Z * bool :=
  let h := Header_Get "Retry-After" (Header resp) in
  if decide (h = "") then (0, false)
  else match Atoi h with
       | Some i => (i, true)
       | None => (0, false)
       end.

End response.

(** ** What lies outside *)

Class Codec `{Outside} : Type := {
  MediaParams : Type;
  Decoder : Type;
  (** metav1.Status *)
  Status : Type;
  WarningHeader : Type;
  ParseMediaType : string -> E + (string * MediaParams);
  Negotiator_Decoder : string -> MediaParams -> E + Decoder;
  (** [Decode(body, defaults, nil)]; the defaults are nil or the version v1 *)
  Decode : Decoder -> bool -> string -> E + RObject;
  (** [Decode(body, nil, obj)]: the object that came out, or [obj] itself *)
  Decode_into : Decoder -> string -> RObject -> E + option RObject;
  (** the type switch on [*metav1.Status], its field [Status], [errors.FromObject] *)
  as_Status : RObject -> option Status;
  Status_Status : Status -> string;
  FromObject : Status -> E;
  NewInternalError : E -> E;
  (** status code, method, group, resource, name, message, seconds *)
  NewGenericServerResponse : Z -> string -> string -> string -> string -> string -> Z -> E;
  IsUnexpectedServerError : request_error -> bool;
  TrimSpace : string -> string;
  (** the warnings of the header [Warning] that can be parsed *)
  ParseWarningHeaders : list string -> list WarningHeader
}.

Section result.
Context `{Codec}.

(** ** Warnings

    Every warning is given to the handler of the request, or to the default one; the
    result holds the warnings, so a caller knows which the handler has been given. *)

Definition handleWarnings (headers : Values) : list WarningHeader :=
  ParseWarningHeaders (default [] (headers !! "Warning")).

(** ** Errors from responses *)

Definition maxUnstructuredResponseTextBytes : nat := 2048.

Definition isTextResponse (resp : Response) : bool :=
  let contentType := Header_Get "Content-Type" (Header resp) in
  if decide (contentType = "") then true
  else match ParseMediaType contentType with
       | inl _ => false
       | inr (media, _) => String.prefix "text/" media
       end.

Definition newUnstructuredResponseError (r : Request) (body : string) (isTextResponse : bool) (statusCode : Z)
    (method : string) (retryAfter : Z) : E :=
  let body := if (maxUnstructuredResponseTextBytes <? String.length body)%nat
              then String.substring 0 maxUnstructuredResponseTextBytes body else body in
  let message := if isTextResponse then TrimSpace body else "unknown" in
  let '(group, res) := if decide (resource r <> "") then (Group (GV (content (c r))), resource r) else ("", "") in
  NewGenericServerResponse statusCode method group res (resourceName r) message retryAfter.

(** [body] is nil when it has not been read. *)
Definition transformUnstructuredResponseError (r : Request) (resp : Response) (method : string) (body : option string) : E :=
  let body := match body, resp_Body resp with
              | Some b, _ => b
              | None, Some rd =>
                  match read_err rd with
                  | None => String.substring 0 maxUnstructuredResponseTextBytes (data rd)
                  | Some _ => ""
                  end
              | None, None => ""
              end in
  newUnstructuredResponseError r body (isTextResponse resp) (StatusCode resp) method (retryAfterSeconds resp).1.

(** ** Results *)

Record Result : Type := mkResult {
  result_body : string;
  warnings : list WarningHeader;
  contentType : string;
  result_err : option request_error;
  statusCode : Z;
  decoder : option Decoder
}.

Definition error_result (e : request_error) : Result := mkResult "" [] "" (Some e) 0 None.

Definition StatusSwitchingProtocols : Z := 101.
Definition StatusOK : Z := 200.
Definition StatusCreated : Z := 201.
Definition StatusPartialContent : Z := 206.

(** Neither an upgrade nor one of 200 to 206. *)
Definition failed (code : Z) : bool :=
  negb (code =? StatusSwitchingProtocols) && ((code <? StatusOK) || (StatusPartialContent <? code)).

Definition transformResponse (r : Request) (resp : Response) (method : string) : Result :=
  let read := match resp_Body resp with
              | None => inr ""
              | Some rd =>
                  match read_err rd with
                  | None => inr (data rd)
                  | Some (e, true) => inl (RWrapf "stream error when reading response body, may be caused by closed connection. Please retry. Original error: %w" e)
                  | Some (e, false) => inl (RWrapf "unexpected error when reading response body. Please retry. Original error: %w" e)
                  end
              end in
  match read with
  | inl e => error_result e
  | inr body =>
      let ct := Header_Get "Content-Type" (Header resp) in
      let ct := if decide (ct = "") then ContentType (content (c r)) else ct in
      let done decoder err := mkResult body (handleWarnings (Header resp)) ct err (StatusCode resp) decoder in
      let finish decoder :=
        if failed (StatusCode resp) then
          done decoder (Some (ROutside (newUnstructuredResponseError r body (isTextResponse resp) (StatusCode resp)
                                          method (retryAfterSeconds resp).1)))
        else done decoder None in
      if decide (ct = "") then finish None
      else match ParseMediaType ct with
           | inl e => error_result (ROutside (NewInternalError e))
           | inr (mediaType, params) =>
               match Negotiator_Decoder mediaType params with
               | inl _ =>
                   if failed (StatusCode resp) then
                     error_result (ROutside (transformUnstructuredResponseError r resp method
                                               (match resp_Body resp with Some _ => Some body | None => None end)))
                   else done None None
               | inr d => finish (Some d)
               end
           end
  end.

(** ** The methods of [Result] *)

Definition Raw (res : Result) : string * option request_error := (result_body res, result_err res).

Definition StatusSuccess : string := "Success".
Definition StatusFailure : string := "Failure".

Definition Result_Error (res : Result) : option request_error :=
  match result_err res, decoder res with
  | Some e, Some d =>
      if negb (IsUnexpectedServerError e) || bool_decide (result_body res = "") then Some e
      else match Decode d true (result_body res) with
           | inl _ => Some e
           | inr out =>
               match as_Status out with
               | Some t => if decide (Status_Status t = StatusFailure) then Some (ROutside (FromObject t)) else Some e
               | None => Some e
               end
           end
  | e, _ => e
  end.

Definition no_serializer (res : Result) : request_error := RErrorf "serializer for %s doesn't exist" [contentType res].

(** An object, or the error. *)
Definition Result_Get (res : Result) : option request_error + RObject :=
  match result_err res, decoder res with
  | Some _, _ => inl (Result_Error res)
  | None, None => inl (Some (no_serializer res))
  | None, Some d =>
      match Decode d false (result_body res) with
      | inl e => inl (Some (ROutside e))
      | inr out =>
          match as_Status out with
          | Some t => if decide (Status_Status t = StatusSuccess) then inr out else inl (Some (ROutside (FromObject t)))
          | None => inr out
          end
      end
  end.

Definition Into (obj : RObject) (res : Result) : option request_error :=
  match result_err res, decoder res with
  | Some _, _ => Result_Error res
  | None, None => Some (no_serializer res)
  | None, Some d =>
      if decide (result_body res = "") then
        Some (RErrorf "0-length response with status code: %d and content type: %s" [pretty.pretty (statusCode res); contentType res])
      else match Decode_into d (result_body res) obj with
           | inl e => Some (ROutside e)
           | inr None => None
           | inr (Some out) =>
               match as_Status out with
               | Some t => if decide (Status_Status t = StatusSuccess) then None else Some (ROutside (FromObject t))
               | None => None
               end
           end
  end.

Definition WasCreated (res : Result) : bool := statusCode res =? StatusCreated.

End result.

(** ** The warning writer *)

Module WarningWriter.

Record warningWriter : Type := mkWriter {
  out : list string;
  Deduplicate : bool;
  Color : bool;
  writtenCount : Z;
  written : gset string
}.

Definition NewWarningWriter (deduplicate color : bool) : warningWriter := mkWriter [] deduplicate color 0 ∅.

Definition escape : string := String (Ascii.ascii_of_nat 27) "".
Definition newline : string := String (Ascii.ascii_of_nat 10) "".
Definition yellowColor : string := escape +:+ "[33;1m".
Definition resetColor : string := escape +:+ "[0m".

(** [out] gets one line more. *)
Definition HandleWarningHeader (code : Z) (message : string) (w : warningWriter) : warningWriter :=
  if negb (code =? 299) || bool_decide (message = "") then w
  else if Deduplicate w && bool_decide (message ∈ written w) then w
  else
    let line := if Color w then yellowColor +:+ "Warning:" +:+ resetColor +:+ " " +:+ message +:+ newline
                else "Warning: " +:+ message +:+ newline in
    mkWriter (out w ++ [line]) (Deduplicate w) (Color w) (wrap64 (writtenCount w + 1))
      (if Deduplicate w then {[message]} ∪ written w else written w).

Definition WarningCount (w : warningWriter) : Z := writtenCount w.

End WarningWriter.

Section properties.
Context `{Codec}.

Lemma result_error_present (res : Result) : result_err res <> None -> Result_Error res <> None.
Proof.
  unfold Result_Error. destruct (result_err res) as [e|]; [|done]. intros _.
  by repeat split_match.
Qed.

Lemma result_err_stops (res : Result) :
  result_err res <> None ->
  Result_Get res = inl (Result_Error res) /\ forall obj, Into obj res = Result_Error res.
Proof. unfold Result_Get, Into. by destruct (result_err res). Qed.

Lemma transform_failed r resp method :
  failed (StatusCode resp) = true -> result_err (transformResponse r resp method) <> None.
Proof. intros Hf. unfold transformResponse. rewrite Hf. by repeat split_match. Qed.

(** A result without error was read to its end. *)
Lemma transform_ok r resp method : result_err (transformResponse r resp method) = None ->
  failed (StatusCode resp) = false /\
  result_body (transformResponse r resp method) = default "" (data <$> resp_Body resp) /\
  (forall rd, resp_Body resp = Some rd -> read_err rd = None).
Proof.
  intros Hok. split.
  { destruct (failed _) eqn:Hf; [|done]. by apply (transform_failed r resp method) in Hf. }
  revert Hok. unfold transformResponse.
  destruct (resp_Body resp) as [rd|]; [destruct (read_err rd) as [[e [|]]|] eqn:Hrd; [done..|]|];
    intros Hok; repeat split_match; try done; split; try done; intros rd' [= <-]; done.
Qed.

(** C25: A response whose status is neither 101 nor between 200 and 206 is an error of
    [Do], of [Get] and of [Into], and so is one whose body could not be read; when [Get]
    returns an object, it is what the decoder made of the complete body, and it is not a
    [Status] that says anything but success; when [Into] returns no error, neither was
    the response a failure nor what was decoded. *)
Theorem result_reports_failure r resp method :
  let res := transformResponse r resp method in
  (failed (StatusCode resp) = true \/ (exists rd, resp_Body resp = Some rd /\ read_err rd <> None) ->
     Result_Error res <> None /\ Result_Get res = inl (Result_Error res) /\
     forall obj, Into obj res = Result_Error res) /\
  (forall out, Result_Get res = inr out ->
     failed (StatusCode resp) = false /\
     (exists d, decoder res = Some d /\ Decode d false (default "" (data <$> resp_Body resp)) = inr out) /\
     forall t, as_Status out = Some t -> Status_Status t = StatusSuccess) /\
  (forall obj, Into obj res = None ->
     failed (StatusCode resp) = false /\
     exists d o, decoder res = Some d /\ Decode_into d (default "" (data <$> resp_Body resp)) obj = inr o /\
       forall out t, o = Some out -> as_Status out = Some t -> Status_Status t = StatusSuccess).
Proof.
  intros res. split_and!.
  - intros Hbad. assert (He : result_err res <> None).
    { intros Hn. destruct (transform_ok r resp method Hn) as (Hf & _ & Hrd).
      destruct Hbad as [?|(rd & Hb & Hr)]; [congruence|by apply Hr, Hrd]. }
    split; [by apply result_error_present|by apply result_err_stops].
  - intros out Hg. unfold Result_Get in Hg. destruct (result_err res) eqn:He; [done|].
    destruct (transform_ok r resp method He) as (Hf & Hb & _). fold res in Hb. rewrite Hb in Hg.
    destruct (decoder res) as [d|]; [|done]. destruct (Decode _ _ _) as [|o] eqn:Hd; [done|].
    destruct (as_Status o) as [t|] eqn:Ht; [case_decide; [|done]|]; simplify_eq; split_and!; eauto; congruence.
  - intros obj Hi. unfold Into in Hi. destruct (result_err res) eqn:He.
    { by destruct (result_error_present res); rewrite ?He. }
    destruct (transform_ok r resp method He) as (Hf & Hb & _). fold res in Hb. rewrite Hb in Hi. split; [done|].
    destruct (decoder res) as [d|]; [|done]. case_decide; [done|].
    destruct (Decode_into _ _ _) as [|o] eqn:Hd; [done|]. exists d, o. split_and!; [done..|].
    intros out t -> Ht. rewrite Ht in Hi. by case_decide.
Qed.

End properties.

(** ** The warning writer *)

Module warnings_once.
Import WarningWriter.

Definition handle_all (ws : list (Z * string)) (w : warningWriter) : warningWriter :=
  fold_left (fun w m => HandleWarningHeader m.1 m.2 w) ws w.

Definition shown (m : Z * string) : bool := (m.1 =? 299) && negb (bool_decide (m.2 = "")).

(** The texts to be shown, without repetitions. *)
Fixpoint first_seen (seen : gset string) (ws : list (Z * string)) : list string :=
  match ws with
  | [] => []
  | m :: ws =>
      if shown m && bool_decide (m.2 ∉ seen) then m.2 :: first_seen ({[m.2]} ∪ seen) ws else first_seen seen ws
  end.

Lemma first_seen_fresh seen ws : NoDup (first_seen seen ws) /\ forall s, s ∈ first_seen seen ws -> s ∉ seen.
Proof.
  revert seen. induction ws as [|m ws IH]; intros seen; cbn; [split; [constructor|set_solver]|].
  destruct (_ && _) eqn:Hb; [|apply IH]. bool_to_prop. destruct (IH ({[m.2]} ∪ seen)) as [Hn Hs]. split.
  - constructor; [|done]. intros Hin. apply Hs in Hin. set_solver.
  - intros s [->|Hin]%elem_of_cons; [done|]. apply Hs in Hin. set_solver.
Qed.

Lemma elem_of_first_seen seen ws m : m ∈ first_seen seen ws <-> m ∉ seen /\ m <> "" /\ (299, m) ∈ ws.
Proof.
  revert seen. induction ws as [|[code s] ws IH]; intros seen; cbn [first_seen snd]; [set_solver|].
  rewrite elem_of_cons. destruct (shown (code, s)) eqn:Hs; cbn [andb].
  - unfold shown in Hs. cbn in Hs. apply andb_prop in Hs as [Hc Hne]. bool_to_prop. subst.
    case_bool_decide as Hin; [rewrite elem_of_cons|]; rewrite IH; destruct (decide (m = s)) as [->|]; set_solver.
  - rewrite IH. unfold shown in Hs. cbn in Hs.
    assert (Hno : (299, m) = (code, s) -> m = "").
    { intros [= <- <-]. rewrite Z.eqb_refl in Hs. cbn in Hs. by bool_to_prop. }
    naive_solver.
Qed.

Definition line (color : bool) (m : string) : string :=
  if color then yellowColor +:+ "Warning:" +:+ resetColor +:+ " " +:+ m +:+ newline else "Warning: " +:+ m +:+ newline.

Lemma handle_all_out ws w : Deduplicate w = true ->
  out (handle_all ws w) = out w ++ (line (Color w) <$> first_seen (written w) ws).
Proof.
  revert w. induction ws as [|[code s] ws IH]; intros w Hd; [cbn; by rewrite app_nil_r|].
  change (handle_all _ w) with (handle_all ws (HandleWarningHeader code s w)). cbn [first_seen snd].
  unfold HandleWarningHeader, shown. cbn [fst snd]. rewrite Hd.
  destruct (code =? 299), (bool_decide (s = "")); cbn [negb andb orb]; try by apply IH.
  destruct (decide (s ∈ written w)) as [Hin|Hin].
  - rewrite bool_decide_eq_true_2, bool_decide_eq_false_2 by set_solver. by apply IH.
  - rewrite bool_decide_eq_false_2, bool_decide_eq_true_2 by done. rewrite IH by done. cbn.
    by rewrite <- app_assoc.
Qed.

(** A deduplicating writer prints each warning with code 299 once, in the order of their
    first arrival. *)
Theorem writer_deduplicates color ws :
  out (handle_all ws (NewWarningWriter true color)) = line color <$> first_seen ∅ ws /\
  NoDup (first_seen ∅ ws) /\
  (forall m, m ∈ first_seen ∅ ws <-> m <> "" /\ (299, m) ∈ ws).
Proof.
  split_and!; [by apply handle_all_out|apply first_seen_fresh|].
  intros m. rewrite elem_of_first_seen. set_solver.
Qed.

End warnings_once.

(** ** Witnesses *)

Module samples.
Import RestRequest.samples.

#[local] Existing Instance outside.

(** Media types and decoders that accept everything; no object is a [Status]. *)
#[local] Instance codec : Codec := {|
  MediaParams := unit; Decoder := unit; Status := unit; WarningHeader := string;
  ParseMediaType := fun s => inr (s, tt);
  Negotiator_Decoder := fun _ _ => inr tt;
  Decode := fun _ _ b => inr b;
  Decode_into := fun _ _ _ => inr None;
  as_Status := fun _ => None; Status_Status := fun _ => ""; FromObject := fun _ => "";
  NewInternalError := fun e => e;
  NewGenericServerResponse := fun _ _ _ _ _ m _ => m;
  IsUnexpectedServerError := fun _ => false;
  TrimSpace := fun s => s;
  ParseWarningHeaders := fun ws => ws
|}.

Definition busy : Response := mkResponse 429 {["Retry-After" := ["2"]]} (Some (mkReading "busy" None)).
Definition fine : Response := mkResponse 200 {["Content-Type" := ["json"]]} (Some (mkReading "pods" None)).

Lemma result_reports_failure_witness :
  Result_Error (transformResponse (NewRequest server) busy "GET") <> None /\
  failed (StatusCode fine) = false /\ Result_Get (transformResponse (NewRequest server) fine "GET") = inr "pods".
Proof.
  destruct (result_reports_failure (NewRequest server) busy "GET") as [Hf _].
  split; [exact (proj1 (Hf (or_introl eq_refl)))|].
  destruct (result_reports_failure (NewRequest server) fine "GET") as (_ & Hg & _).
  assert (Hok : Result_Get (transformResponse (NewRequest server) fine "GET") = inr "pods") by (vm_compute; reflexivity).
  exact (conj (proj1 (Hg "pods" Hok)) Hok).
Defined.

End samples.
