(* ===== verification/RestRetry.v ===== *)
(** * Sending requests: attempts, retries and backoff

    rest/with_retry.go, rest/urlbackoff.go and the loops of rest/request.go that send a
    request: [request] with [Do] and [DoRaw], [Stream] and [Watch].  The world is the
    history of what was done to it, a list of [event]s, and every answer it gives may
    depend on that history: the context, the rate limiter, the clock and the HTTP client
    are arbitrary functions of it ([Network]).  A client answers with a response, with an
    error or, as net/http documents, with an error and a response whose body is closed,
    when a redirect is refused.  Log messages, traces and metrics are left out. *)

From S2P Require Import Prelude Objects GoStrings Float64 Backoff RestRequest RestResult LoopMonad.

(** ** Requests on the wire *)

Section wire.
Context `{Outside}.

Inductive http_body : Type :=
| NoBody
| Opaque (rd : Reader)
| Bytes (b : string).

Record http_request : Type := mkHTTP { Method : string; req_URL : URL; req_Header : Values; req_Body : http_body }.

(** [fmt.Sprintf] of the reasons is left unrendered. *)
Inductive reason : Type :=
| NoReason
| Throttled (retries seconds : Z) (flowSchemaUID : string)
| RetryableError (retries seconds : Z) (err : E)
| RetryCode (retries seconds code : Z).

End wire.

Section events.
Context `{Codec}.

(** The answer to a call: an error, which may come with a response, or a response. *)
Definition reply : Type := (E * option Response) + Response.

(** What happens outside: a sleep, a wait for the rate limiter and what it gave, the start
    of the request's timeout, an HTTP call and its answer, a response whose body is
    closed, a response that is handed to the callback, a body that is handed to the
    caller, warnings that are handed to the handler. *)
Inductive event : Type :=
| EvSleep (d : Z)
| EvWait (info : reason) (err : option E)
| EvTimeout (d : Z)
| EvDo (req : http_request) (answer : reply)
| EvClose (resp : Response)
| EvFn (req : http_request) (resp : Response)
| EvBody (resp : Response)
| EvWarnings (ws : list WarningHeader).

End events.

Class Network `{Codec} : Type := {
  ctx_Err : list event -> option E;
  limiter_Wait : RateLimiter -> list event -> option E;
  client_Do : http_request -> list event -> reply;
  Now : list event -> Z;
  rand_Float64 : list event -> float64;
  (** [http.NewRequestWithContext] refuses some methods and URLs *)
  NewRequestWithContext : string -> URL -> option E;
  IsConnectionReset : E -> bool;
  IsProbableEOF : E -> bool;
  IsTimeout : E -> bool;
  (** the text of an error, and what a [*url.Error] wraps *)
  error_string : E -> string;
  url_Error_Unwrap : E -> option E;
  Sprintf : string -> list string -> string;
  (** the negotiation of a stream for the header [Content-Type] *)
  StreamDecoder : string -> option E
}.

(** A [BackoffManager] with its state; [None] is a panic. *)
Class BackoffManager `{Outside} (Bo : Type) : Type := {
  UpdateBackoff : float64 -> Z -> URL -> option E -> Z -> Bo -> option Bo;
  CalculateBackoff : URL -> Bo -> option Z
}.

(** ** Backoff managers (rest/urlbackoff.go) *)

Section managers.
Context `{Outside} `{FloatConv} `{IntegerUtil}.

#[local] Instance NoBackoff : BackoffManager unit := {|
  UpdateBackoff := fun _ _ _ _ _ _ => Some tt;
  CalculateBackoff := fun _ _ => Some 0
|}.

(** [url.Parse] of the text of a URL. *)
Variable reparse : URL -> option URL.

Definition baseUrlKey (rawurl : URL) : option string := Host <$> reparse rawurl.

Definition serverIsOverloadedSet : list Z := [429].
Definition maxResponseCode : Z := 499.

Definition URLBackoff_UpdateBackoff (u : float64) (now : Z) (actualUrl : URL) (err : option E) (responseCode : Z)
    (b : Backoff.Backoff) : option Backoff.Backoff :=
  host ← baseUrlKey actualUrl;
  Some (if (maxResponseCode <? responseCode) || existsb (Z.eqb responseCode) serverIsOverloadedSet
        then Backoff.Next u now host now b
        else Backoff.Reset host b).

Definition URLBackoff_CalculateBackoff (actualUrl : URL) (b : Backoff.Backoff) : option Z :=
  host ← baseUrlKey actualUrl; Some (Backoff.Get host b).

Definition Disable : Backoff.Backoff := Backoff.NewBackOff 0 0.

#[local] Instance URLBackoff : BackoffManager Backoff.Backoff := {|
  UpdateBackoff := URLBackoff_UpdateBackoff;
  CalculateBackoff := URLBackoff_CalculateBackoff
|}.

(** [readExpBackoffConfig] (rest/client.go), with the values of the two environment
    variables; [None] is [NoBackoff]. *)
Definition readExpBackoffConfig (backoffBase backoffDuration : string) : option Backoff.Backoff :=
  match ParseInt backoffBase, ParseInt backoffDuration with
  | Some b, Some d => Some (Backoff.NewBackOff (wrap64 (b * Second)) (wrap64 (d * Second)))
  | _, _ => None
  end.

End managers.

(** ** [withRetry] (rest/with_retry.go) *)

Section with_retry.
Context `{Network}.

Record RetryAfter : Type := mkRetryAfter { Wait : Z; Attempt : Z; Reason : reason }.

Record withRetry : Type := mkWithRetry {
  maxRetries : Z;
  attempts : Z;
  retryAfter : option RetryAfter;
  previousErr : option E;
  currentErr : option E
}.

Definition defaultRequestRetryFn (maxRetries : Z) : withRetry := mkWithRetry maxRetries 0 None None None.

Definition set_retryAfter (ra : option RetryAfter) (r : withRetry) : withRetry :=
  mkWithRetry (maxRetries r) (attempts r) ra (previousErr r) (currentErr r).

Definition trackPreviousError (err : option E) (r : withRetry) : withRetry :=
  mkWithRetry (maxRetries r) (attempts r) (retryAfter r)
    (match currentErr r with Some e => Some e | None => previousErr r end) err.

Definition StatusTooManyRequests : Z := 429.
Definition StatusInternalServerError : Z := 500.

Definition retryAfterResponseWithCodeAndDelay (code : Z) (delay : string) : Response :=
  mkResponse code {["Retry-After" := [delay]]} None.
Definition retryAfterResponseWithDelay (delay : string) : Response :=
  retryAfterResponseWithCodeAndDelay StatusInternalServerError delay.
Definition retryAfterResponse : Response := retryAfterResponseWithDelay "1".

Definition checkWait (resp : Response) : Z * bool :=
  if (StatusCode resp =? StatusTooManyRequests) || (500 <=? StatusCode resp)
  then retryAfterSeconds resp else (0, false).

Definition getRetryReason (retries seconds : Z) (resp : Response) (err : option E) : reason :=
  if StatusCode resp =? StatusTooManyRequests then
    Throttled retries seconds (Header_Get "X-Kubernetes-PF-FlowSchema-UID" (Header resp))
  else match err with
       | Some e => RetryableError retries seconds e
       | None => RetryCode retries seconds (StatusCode resp)
       end.

Definition answer_err (answer : reply) : option E :=
  match answer with inl (e, _) => Some e | inr _ => None end.

Definition answer_resp (answer : reply) : option Response :=
  match answer with inl (_, resp) => resp | inr resp => Some resp end.

Definition neverRetryError (_ : string) (_ : E) : bool := false.

(** [opaque]: the request has a reader for its body.  [f] judges an error by the method of
    the request. *)
Definition IsNextRetry (opaque : bool) (method : string) (answer : reply) (f : option (string -> E -> bool))
    (r : withRetry) : bool * withRetry :=
  let err := answer_err answer in
  let leave b r := (b, trackPreviousError err r) in
  if opaque then leave false r
  else
    let n := wrap64 (attempts r + 1) in
    let r := mkWithRetry (maxRetries r) n (Some (mkRetryAfter 0 n NoReason)) (previousErr r) (currentErr r) in
    if maxRetries r <? n then leave false r
    else
      let resp := match answer with
                  | inl (e, _) => if match f with Some f => f method e | None => false end
                             then Some retryAfterResponse else None
                  | inr resp => Some resp
                  end in
      match resp with
      | None => leave false r
      | Some resp =>
          let '(seconds, wait) := checkWait resp in
          if wait
          then leave true (set_retryAfter (Some (mkRetryAfter (wrap64 (seconds * Second)) n (getRetryReason n seconds resp err))) r)
          else leave false r
      end.

(** The text of an error of a request. *)
Fixpoint message (e : request_error) : string :=
  match e with
  | RErrorf format args => Sprintf format args
  | ROutside e => error_string e
  | RWrapf format e => Sprintf format [error_string e]
  | RPrevious currentErr previousErr =>
      message currentErr +:+ " - error from a previous attempt: " +:+ error_string previousErr
  end.

Definition WrapPreviousError (currentErr : option request_error) (r : withRetry) : option request_error :=
  match currentErr, previousErr r with
  | Some c, Some p =>
      if decide (message c = error_string p) then Some c
      else Some (RPrevious c (default p (url_Error_Unwrap p)))
  | c, _ => c
  end.

(** [Unwrap] of an error. *)
Definition Unwrap (e : request_error) : request_error :=
  match e with
  | RPrevious c _ => c
  | RWrapf _ e => ROutside e
  | e => e
  end.

End with_retry.

(** ** Attempts *)

Section attempts.
Context {Bo A : Type} `{Network} `{!BackoffManager Bo}.

(** A request in progress: its retries, its backoff manager and the variable [result] that
    the callback sets. *)
Record state : Type := mkState { retry : withRetry; backoff_ : Bo; result : A }.
Local Abbreviation X := state.

Definition set_retry (w : withRetry) (x : X) : X := mkState w (backoff_ x) (result x).
Definition set_backoff_ (b : Bo) (x : X) : X := mkState (retry x) b (result x).
Definition set_result (a : A) (x : X) : X := mkState (retry x) (backoff_ x) a.

Definition emit (e : event) : M (list event) X unit := call (fun log => (log ++ [e], tt)).

Definition or_panic {B} (o : option B) : M (list event) X B :=
  match o with
  | Some b => ret b
  | None => panic
  end.

(** [request.backoff.CalculateBackoff(url)] *)
Definition calculate (r : Request) : M (list event) X Z :=
  let! x := get in or_panic (CalculateBackoff (URL_ r) (backoff_ x)).

(** [Sleep] of the backoff manager. *)
Definition sleep (d : Z) : M (list event) X unit := emit (EvSleep d).

Definition tryThrottleWithInfo (r : Request) (retryInfo : reason) : M (list event) X (option request_error) :=
  match rateLimiter r with
  | None => ret None
  | Some limiter =>
      let! err := call (fun log => let err := limiter_Wait limiter log in (log ++ [EvWait retryInfo err], err)) in
      ret (RWrapf "client rate limiter Wait returned an error: %w" <$> err)
  end.

Definition tryThrottle (r : Request) : M (list event) X (option request_error) := tryThrottleWithInfo r NoReason.

Definition track (err : option E) : M (list event) X unit :=
  modify (fun x => set_retry (trackPreviousError err (retry x)) x).

Definition Before (r : Request) : M (list event) X (option request_error) :=
  let! err := look ctx_Err in
  match err with
  | Some e => let! _ := track (Some e) in ret (Some (ROutside e))
  | None =>
      let! x := get in
      match retryAfter (retry x) with
      | None =>
          let! delay := calculate r in
          let! _ := sleep delay in
          ret None
      | Some ra =>
          let! delay := calculate r in
          let! _ := sleep (if delay <? Wait ra then Wait ra else delay) in
          let! err := tryThrottleWithInfo r (Reason ra) in
          match err with
          | Some e =>
              let! ctxErr := look ctx_Err in
              let! _ := track ctxErr in
              ret (Some e)
          | None => ret None
          end
      end
  end.

Definition After (r : Request) (answer : reply) : M (list event) X unit :=
  let! _ := modify (fun x => set_retry (set_retryAfter None (retry x)) x) in
  match base (c r) with
  | None => ret tt
  | Some _ =>
      let! u := look rand_Float64 in
      let! now := look Now in
      let! x := get in
      let! b := or_panic (UpdateBackoff u now (URL_ r) (answer_err answer)
                            (match answer with inl _ => 0 | inr resp => StatusCode resp end) (backoff_ x)) in
      modify (set_backoff_ b)
  end.

Definition next_retry (r : Request) (req : http_request) (answer : reply) (f : string -> E -> bool)
    : M (list event) X bool :=
  let! x := get in
  let '(again, w) := IsNextRetry (bool_decide (body r <> None)) (Method req) answer (Some f) (retry x) in
  let! _ := modify (set_retry w) in
  ret again.

(** A method [""] is GET. *)
Definition newHTTPRequest (r : Request) : request_error + http_request :=
  match body r, bodyBytes r with
  | Some _, Some _ => inl (RErrorf "cannot set both body and bodyBytes" [])
  | rd, b =>
      match NewRequestWithContext (verb r) (URL_ r) with
      | Some e => inl (ROutside e)
      | None =>
          inr (mkHTTP (if decide (verb r = "") then "GET" else verb r) (URL_ r) (headers r)
                 (match rd, b with
                  | Some rd, _ => Opaque rd
                  | None, Some b => Bytes b
                  | None, None => NoBody
                  end))
      end
  end.

Definition Do_ (req : http_request) : M (list event) X reply :=
  call (fun log => let a := client_Do req log in (log ++ [EvDo req a], a)).

Definition readAndCloseResponseBody (answer : reply) : M (list event) X unit :=
  match answer_resp answer with
  | None => ret tt
  | Some resp => emit (EvClose resp)
  end.

Definition wrap (err : option request_error) : M (list event) X (option request_error) :=
  let! x := get in ret (WrapPreviousError err (retry x)).

(** [r.retryFn(r.maxRetries)] *)
Definition new_retry (r : Request) : M (list event) X unit :=
  modify (set_retry (defaultRequestRetryFn (RestRequest.maxRetries r))).

(** ** [request], [Do] and [DoRaw] *)

Definition isErrRetryable (method : string) (err : E) : bool :=
  if decide (method <> "GET") then false else IsConnectionReset err || IsProbableEOF err.

(** One turn of the loop of [request]. *)
Definition attempt (r : Request) (fn : http_request -> Response -> A -> A * list WarningHeader) (_ : unit)
    : M (list event) X (unit + option request_error) :=
  let! err := Before r in
  match err with
  | Some e => let! e := wrap (Some e) in ret (inr e)
  | None =>
      match newHTTPRequest r with
      | inl e => ret (inr (Some e))
      | inr req =>
          let! answer := Do_ req in
          let! _ := After r answer in
          let! again := next_retry r req answer isErrRetryable in
          if again then let! _ := readAndCloseResponseBody answer in ret (inl tt)
          else
            let! _ := match answer_resp answer with
                      | None => ret tt
                      | Some resp =>
                          let! _ := emit (EvFn req resp) in
                          let! x := get in
                          let '(a, ws) := fn req resp (result x) in
                          let! _ := emit (EvWarnings ws) in
                          modify (set_result a)
                      end in
            let! _ := readAndCloseResponseBody answer in
            let! e := wrap (ROutside <$> answer_err answer) in
            ret (inr e)
      end
  end.

Definition request (r : Request) (fn : http_request -> Response -> A -> A * list WarningHeader) : M (list event) X (option request_error) :=
  match err r with
  | Some e => ret (Some e)
  | None =>
      match requestPreflightCheck r with
      | Some e => ret (Some e)
      | None =>
          let! err := tryThrottle r in
          match err with
          | Some e => ret (Some e)
          | None =>
              let! _ := if 0 <? timeout r then emit (EvTimeout (timeout r)) else ret tt in
              let! _ := new_retry r in
              forever (attempt r fn) tt
          end
      end
  end.

(** ** [Stream] *)

Definition stream_attempt (r : Request) (_ : unit) : M (list event) X (unit + (request_error + Response)) :=
  let! err := Before r in
  match err with
  | Some e => ret (inr (inl e))
  | None =>
      match newHTTPRequest r with
      | inl e => ret (inr (inl e))
      | inr req =>
          let! answer := Do_ req in
          let! _ := After r answer in
          match answer with
          | inl (e, _) => ret (inr (inl (ROutside e)))
          | inr resp =>
              if (200 <=? StatusCode resp) && (StatusCode resp <? 300) then
                let! _ := emit (EvWarnings (handleWarnings (Header resp))) in
                let! _ := emit (EvBody resp) in
                ret (inr (inr resp))
              else
                let! again := next_retry r req answer neverRetryError in
                if again then let! _ := emit (EvClose resp) in ret (inl tt)
                else
                  let res := transformResponse r resp (Method req) in
                  let! _ := emit (EvWarnings (warnings res)) in
                  let! _ := emit (EvClose resp) in
                  ret (inr (inl (default (RErrorf "%d while accessing %v: %s" [pretty.pretty (statusCode res); Path (URL_ r); result_body res])
                                         (Result_Error res))))
          end
      end
  end.

Definition Stream (r : Request) : M (list event) X (request_error + Response) :=
  match err r with
  | Some e => ret (inl e)
  | None =>
      let! err := tryThrottle r in
      match err with
      | Some e => ret (inl e)
      | None =>
          let! _ := new_retry r in
          forever (stream_attempt r) tt
      end
  end.

(** ** [Watch] *)

Inductive watch_result : Type :=
| WError (e : option request_error)
| WStream (resp : Response)
| WEmpty.

Definition watch_retryable (_ : string) (err : E) : bool := IsProbableEOF err || IsTimeout err.

Definition newStreamWatcher (resp : Response) : M (list event) X watch_result :=
  match StreamDecoder (Header_Get "Content-Type" (Header resp)) with
  | Some e => ret (WError (Some (ROutside e)))
  | None =>
      let! _ := emit (EvWarnings (handleWarnings (Header resp))) in
      let! _ := emit (EvBody resp) in
      ret (WStream resp)
  end.

Definition watch_attempt (r : Request) (_ : unit) : M (list event) X (unit + watch_result) :=
  let! err := Before r in
  match err with
  | Some e => let! e := wrap (Some e) in ret (inr (WError e))
  | None =>
      match newHTTPRequest r with
      | inl e => ret (inr (WError (Some e)))
      | inr req =>
          let! answer := Do_ req in
          let! _ := After r answer in
          match answer with
          | inr resp =>
              if StatusCode resp =? StatusOK then let! w := newStreamWatcher resp in ret (inr w)
              else
                let! again := next_retry r req answer watch_retryable in
                if again then let! _ := readAndCloseResponseBody answer in ret (inl tt)
                else
                  let res := transformResponse r resp (Method req) in
                  let! _ := emit (EvWarnings (warnings res)) in
                  let! _ := readAndCloseResponseBody answer in
                  let! e := wrap (Some (default (RErrorf "for request %s, got status: %v" [Path (URL_ r); pretty.pretty (StatusCode resp)])
                                                (result_err res))) in
                  ret (inr (WError e))
          | inl (e, resp) =>
              let! again := next_retry r req answer watch_retryable in
              let! _ := match resp with
                        | Some resp => if again then ret tt else emit (EvWarnings (warnings (transformResponse r resp (Method req))))
                        | None => ret tt
                        end in
              let! _ := readAndCloseResponseBody answer in
              if again then ret (inl tt)
              else if watch_retryable (Method req) e then ret (inr WEmpty)
              else let! e := wrap (Some (ROutside e)) in ret (inr (WError e))
          end
      end
  end.

Definition Watch (r : Request) : M (list event) X watch_result :=
  match err r with
  | Some e => ret (WError (Some e))
  | None =>
      let! _ := new_retry r in
      forever (watch_attempt r) tt
  end.

End attempts.

(** ** [Do] and [DoRaw] *)

Section do.
Context {Bo : Type} `{Network} `{!BackoffManager Bo}.

Definition no_result : Result := mkResult "" [] "" None 0 None.

Definition Do (r : Request) : M (list event) (state (Bo:=Bo) (A:=Result)) Result :=
  let! err := request r (fun req resp _ => let res := transformResponse r resp (Method req) in (res, warnings res)) in
  match err with
  | Some e => ret (error_result e)
  | None => let! x := get in ret (result x)
  end.

(** The body and the error that [DoRaw] reads from a response. *)
Definition raw_result (r : Request) (req : http_request) (resp : Response) : string * option request_error :=
  let '(body, e) := match resp_Body resp with
                    | Some rd => (data rd, fst <$> read_err rd)
                    | None => ("", None)
                    end in
  (body, if (StatusCode resp <? StatusOK) || (StatusPartialContent <? StatusCode resp)
         then Some (ROutside (transformUnstructuredResponseError r resp (Method req) (Some body)))
         else ROutside <$> e).

Definition DoRaw (r : Request)
    : M (list event) (state (Bo:=Bo) (A:=string * option request_error)) (string * option request_error) :=
  let! err := request r (fun req resp _ => (raw_result r req resp, [])) in
  match err with
  | Some e => ret ("", Some e)
  | None => let! x := get in ret (result x)
  end.

End do.
