(* ===== verification/RestAttempts.v ===== *)
(** * What the attempts of a request are

    The theorems about [request], [Stream] and [Watch] of [RestRetry]: the history of a
    run is read as a list of attempts, each an HTTP call with its answer and the events
    up to the next one. *)

From S2P Require Import Prelude Objects GoStrings Float64 Backoff RestRequest RestResult LoopMonad RestRetry.

Section attempts.
Context {Bo A : Type} `{Network} `{!BackoffManager Bo}.
Local Abbreviation X := (state (Bo:=Bo) (A:=A)).
Local Abbreviation run := (run (list event) X).

(** ** Histories *)

(** The events before the first attempt, and the attempts. *)
Fixpoint attempts_of (log : list event) : list event * list (http_request * reply * list event) :=
  match log with
  | [] => ([], [])
  | e :: log =>
      let '(pre, l) := attempts_of log in
      match e with
      | EvDo req a => ([], (req, a, pre) :: l)
      | _ => (e :: pre, l)
      end
  end.

Definition ats (log : list event) : list (http_request * reply * list event) := (attempts_of log).2.

(** What was handed to the callback. *)
Definition fns (log : list event) : list (http_request * Response) :=
  omap (fun e => match e with EvFn req resp => Some (req, resp) | _ => None end) log.

Definition is_do (e : event) : bool := match e with EvDo _ _ => true | _ => false end.

(** ** Which answers are retried

    The wait before the next attempt, if the answer allows one: a 429 or 5xx with a
    [Retry-After] in seconds, or an error that [f] takes for retryable. *)
Definition retryable (f : string -> E -> bool) (method : string) (a : reply) : option Z :=
  match a with
  | inl (e, _) => if f method e then Some Second else None
  | inr resp =>
      if (StatusCode resp =? 429) || (500 <=? StatusCode resp) then
        match retryAfterSeconds resp with
        | (seconds, true) => Some (wrap64 (seconds * Second))
        | (_, false) => None
        end
      else None
  end.

(** The body of a response that came with an error was closed by net/http. *)
Definition closed (a : reply) (after : list event) : Prop :=
  match a with
  | inl _ => True
  | inr resp => EvClose resp ∈ after
  end.

Section request.
Variable r : Request.
Variable f : string -> E -> bool.

(** An attempt that was followed by another: its answer allowed it, its body was closed,
    the request had a body that can be sent again, and in between the client slept at
    least as long as it was told and was admitted by its rate limiter. *)
Definition followed (t : http_request * reply * list event) : Prop :=
  let '(req, a, after) := t in
  body r = None /\
  exists wait, retryable f (Method req) a = Some wait /\
    (exists d, EvSleep d ∈ after /\ wait <= d) /\
    (forall limiter, rateLimiter r = Some limiter -> exists info, EvWait info None ∈ after) /\
    closed a after.

(** Why an attempt was the last. *)
Definition gave_up (log : list event) (t : http_request * reply * list event) : Prop :=
  body r <> None \/ retryable f (Method t.1.1) t.1.2 = None \/ Z.of_nat (length (ats log)) = RestRequest.maxRetries r + 1.

(** All but the last attempt were rightly followed by another, and there are no more than
    one and the retries. *)
Definition log_ok (log : list event) : Prop :=
  Forall followed (removelast (ats log)) /\ Z.of_nat (length (ats log)) <= RestRequest.maxRetries r + 1.

End request.

(** ** Lemmas on histories *)

Fixpoint add_last (e : event) (l : list (http_request * reply * list event)) :=
  match l with
  | [] => []
  | [(req, a, after)] => [(req, a, after ++ [e])]
  | t :: l => t :: add_last e l
  end.

Lemma add_last_snoc e l req a after : add_last e (l ++ [(req, a, after)]) = l ++ [(req, a, after ++ [e])].
Proof. induction l as [|[[q b] p] l IH]; [done|]. cbn [app]. rewrite <- IH. by destruct l as [|[[? ?] ?] [|? ?]]. Qed.

Definition add_event (e : event) (p : list event * list (http_request * reply * list event)) :=
  match e with
  | EvDo req a => (p.1, p.2 ++ [(req, a, [])])
  | _ => match p.2 with [] => (p.1 ++ [e], []) | _ => (p.1, add_last e p.2) end
  end.

Lemma attempts_of_snoc log e : attempts_of (log ++ [e]) = add_event e (attempts_of log).
Proof.
  induction log as [|e' log IH]; [by destruct e|]. cbn [app attempts_of]. rewrite IH.
  destruct (attempts_of log) as [pre [|t l]]; by destruct e, e'.
Qed.

Lemma ats_do log req a : ats (log ++ [EvDo req a]) = ats log ++ [(req, a, [])].
Proof. unfold ats. by rewrite attempts_of_snoc. Qed.

Lemma ats_other_nil log e : is_do e = false -> ats log = [] -> ats (log ++ [e]) = [].
Proof. unfold ats. rewrite attempts_of_snoc. intros He Hl. destruct e; cbn in *; try done; by rewrite Hl. Qed.

Lemma ats_other log e l req a after : is_do e = false ->
  ats log = l ++ [(req, a, after)] -> ats (log ++ [e]) = l ++ [(req, a, after ++ [e])].
Proof.
  unfold ats. rewrite attempts_of_snoc. intros He Hl. rewrite <- add_last_snoc, <- Hl.
  assert (Hne : (attempts_of log).2 <> []) by (rewrite Hl; by destruct l).
  destruct e; cbn [add_event is_do] in *; try done; by destruct (attempts_of log).2.
Qed.

Lemma fns_app log log' : fns (log ++ log') = fns log ++ fns log'.
Proof. apply omap_app. Qed.

Lemma fns_snoc log e : fns (log ++ [e]) = fns log ++ match e with EvFn req resp => [(req, resp)] | _ => [] end.
Proof. unfold fns. rewrite omap_app. cbn. by destruct e. Qed.

(** ** [IsNextRetry] *)

Lemma IsNextRetry_spec opaque method a f w :
  attempts w + 1 <= MaxInt64 -> 0 <= attempts w ->
  let '(again, w') := IsNextRetry opaque method a (Some f) w in
  maxRetries w' = maxRetries w /\
  if again then
    opaque = false /\ attempts w' = attempts w + 1 /\ attempts w + 1 <= maxRetries w /\
    exists ra, retryAfter w' = Some ra /\ retryable f method a = Some (Wait ra)
  else opaque = true \/ retryable f method a = None \/ maxRetries w < attempts w + 1.
Proof.
  intros Hlt Hpos. unfold IsNextRetry. rewrite wrap64_id by (unfold in_int64, MinInt64; lia).
  destruct opaque; [by cbn; auto|]. cbn [maxRetries]. destruct (_ <? _) eqn:Hmax; bool_to_prop; [by cbn; auto|].
  assert (Hcw : forall resp, checkWait resp = (let '(s, b) := retryAfterSeconds resp in
    if (StatusCode resp =? 429) || (500 <=? StatusCode resp) then (s, b) else (0, false))).
  { intros resp. unfold checkWait, StatusTooManyRequests. destruct (retryAfterSeconds resp). by destruct (_ || _). }
  destruct a as [[e ro]|resp]; cbn [answer_err retryable].
  - destruct (f method e); [|by cbn; auto]. cbn. split; [done|]. split_and!; [done..|]. by eexists.
  - rewrite Hcw. destruct (retryAfterSeconds resp) as [s [|]], (_ || _); cbn; auto.
    split; [done|]. split_and!; [done..|]. by eexists.
Qed.

(** ** The parts of an attempt

    [holds n a Φ]: the budget is [n], the callback's variable is [a], and [Φ] holds of the
    history and the retries. *)

Definition holds (n : nat) (a : A) (Φ : list event -> withRetry -> Prop) (s : run) : Prop :=
  budget s = n /\ result (local s) = a /\ Φ (srv s) (retry (local s)).

(** A manager that does not panic. *)
Class Reliable : Prop := {
  updates : forall u now url e code b, UpdateBackoff (Bo:=Bo) u now url e code b <> None;
  calculates : forall url (b : Bo), CalculateBackoff url b <> None
}.

Lemma total_emit n a Φ Ψ e :
  (forall log w, Φ log w -> Ψ (log ++ [e]) w) ->
  total (holds n a Φ) (emit e) (fun _ : unit => holds n a Ψ).
Proof. intros HΦ. apply triple_call. intros m log log' [] x (Hn & Ha & Hx) [= <-]. by split_and!; [..|apply HΦ]. Qed.

Lemma total_get n a Φ :
  total (holds n a Φ) get (fun x : X => holds n a (fun log w => Φ log w /\ w = retry x /\ a = result x)).
Proof. intros s (Hn & Ha & Hx). by split_and!. Qed.

Lemma total_look {B} n a Φ (g : list event -> B) :
  total (X:=X) (holds n a Φ) (look g) (fun b => holds n a (fun log w => Φ log w /\ b = g log)).
Proof. intros s (Hn & Ha & Hx). by split_and!. Qed.

Lemma total_set_retry n a (Φ Ψ : list event -> withRetry -> Prop) g :
  (forall log w, Φ log w -> Ψ log (g w)) ->
  total (X:=X) (holds n a Φ) (modify (fun x => set_retry (g (retry x)) x)) (fun _ => holds n a Ψ).
Proof. intros HΦ. apply triple_modify. intros m log x (Hn & Ha & Hx). split_and!; [done..|]. by apply HΦ. Qed.

Lemma total_pure n a Φ {B} (m : M (list event) X B) (Q : B -> run -> Prop) (C : Prop) :
  (C -> total (holds n a Φ) m Q) -> total (holds n a (fun log w => Φ log w /\ C)) m Q.
Proof. intros Hm s (Hn & Ha & Hx & HC). by apply (Hm HC s). Qed.

Lemma total_conseq {B} n a (Φ Φ' : list event -> withRetry -> Prop) (m : M (list event) X B) Q :
  (forall log w, Φ log w -> Φ' log w) -> total (holds n a Φ') m Q -> total (holds n a Φ) m Q.
Proof. intros HΦ Hm s (Hn & Ha & Hx). apply Hm. split_and!; [done..|]. by apply HΦ. Qed.

Section parts.
Context `{!Reliable}.
Variable r : Request.
Hypothesis Hmax : 0 <= RestRequest.maxRetries r < MaxInt64.

Lemma total_calculate n a Φ : total (holds n a Φ) (calculate r) (fun _ : Z => holds n a Φ).
Proof.
  intros s Hs. unfold calculate, bind, get. destruct (CalculateBackoff _ _) as [d|] eqn:Hd; cbn.
  - done.
  - by apply calculates in Hd.
Qed.

Lemma total_throttle n a Φ (Ψ : option request_error -> list event -> withRetry -> Prop) info :
  (forall limiter log w e, rateLimiter r = Some limiter -> Φ log w ->
     Ψ (RWrapf "client rate limiter Wait returned an error: %w" <$> e) (log ++ [EvWait info e]) w) ->
  (rateLimiter r = None -> forall log w, Φ log w -> Ψ None log w) ->
  total (holds n a Φ) (tryThrottleWithInfo r info) (fun e => holds n a (Ψ e)).
Proof.
  intros HΦ HΦ'. unfold tryThrottleWithInfo. destruct (rateLimiter r) as [l|].
  - eapply triple_bind.
    + apply (triple_call _ _ (fun e => holds n a (Ψ (RWrapf "client rate limiter Wait returned an error: %w" <$> e)))).
      intros m log log' e x (Hn & Ha & Hx) [= <- <-]. split_and!; [done..|]. by eapply HΦ.
    + intros e. apply triple_ret. done.
  - apply triple_ret. intros s (Hn & Ha & Hx). split_and!; [done..|]. by apply HΦ'.
Qed.

(** *** The state between the parts: [m] attempts have been made *)

Variable f : string -> E -> bool.
Variable m : nat.

Definition counted (log : list event) (w : withRetry) : Prop :=
  maxRetries w = RestRequest.maxRetries r /\ attempts w = Z.of_nat m /\ length (ats log) = m /\
  Z.of_nat m <= RestRequest.maxRetries r /\ fns log = [].

(** At the head of the loop. *)
Definition at_head (log : list event) (w : withRetry) : Prop :=
  counted log w /\
  ((ats log = [] /\ retryAfter w = None) \/
   exists l req a after ra, ats log = l ++ [(req, a, after)] /\ Forall (followed r f) l /\ body r = None /\
     retryAfter w = Some ra /\ retryable f (Method req) a = Some (Wait ra) /\ closed a after).

(** Before the call, every attempt has been rightly followed. *)
Definition ready (log : list event) (w : withRetry) : Prop :=
  counted log w /\ Forall (followed r f) (ats log).

Definition all_closed (log : list event) : Prop := Forall (fun t => closed t.1.2 t.2) (ats log).

(** Left without a response. *)
Definition stopped (log : list event) : Prop :=
  log_ok r f log /\ fns log = [] /\ all_closed log.

Definition other (e : event) : bool := match e with EvDo _ _ | EvFn _ _ => false | _ => true end.

Lemma closed_snoc a after e : closed a after -> closed a (after ++ [e]).
Proof. destruct a; cbn; set_solver. Qed.

Lemma followed_closed l : Forall (followed r f) l -> Forall (fun t => closed t.1.2 t.2) l.
Proof. intros Hl. eapply Forall_impl; [exact Hl|]. by intros [[req a] after] (_ & ? & _ & _ & _ & ?). Qed.

Lemma at_head_stopped log w : at_head log w -> stopped log.
Proof.
  intros ((_ & _ & Hn & Hl & Hf) & Hs). unfold stopped, log_ok, all_closed. rewrite Hn.
  destruct Hs as [[-> _]|(l & req & a & after & ra & -> & Hl' & _ & _ & _ & Hcl)].
  - split_and!; [constructor|lia|done|constructor].
  - rewrite removelast_last. split_and!; [done|lia|done|].
    apply Forall_app_2; [by apply followed_closed|by constructor].
Qed.

Lemma stopped_other log e : other e = true -> stopped log -> stopped (log ++ [e]).
Proof.
  intros He ([Hf Hl] & Hn & Hc). assert (Hd : is_do e = false) by by destruct e.
  assert (Hn' : fns (log ++ [e]) = []) by (rewrite fns_snoc, Hn; by destruct e).
  unfold stopped, log_ok, all_closed in *. destruct (ats log) as [|[[req a] after] l _] eqn:Ha using rev_ind.
  - by rewrite (ats_other_nil log e).
  - rewrite (ats_other log e l req a after), removelast_last by done.
    rewrite removelast_last in Hf. apply Forall_app in Hc as [Hc1 Hc2].
    split_and!; [done|by rewrite !length_app in *|done|].
    apply Forall_app_2; [done|]. constructor; [|constructor]. apply closed_snoc. by inversion Hc2.
Qed.

(** The client has slept as long as it was told. *)
Definition slept (ra : RetryAfter) (log : list event) (w : withRetry) : Prop :=
  counted log w /\
  exists l req a after, ats log = l ++ [(req, a, after)] /\ Forall (followed r f) l /\ body r = None /\
    retryable f (Method req) a = Some (Wait ra) /\ closed a after /\ exists d, EvSleep d ∈ after /\ Wait ra <= d.

Lemma ats_other_length log e : other e = true -> length (ats (log ++ [e])) = length (ats log).
Proof.
  intros He. assert (Hd : is_do e = false) by by destruct e.
  destruct (ats log) as [|[[req a] after] l _] eqn:Hats using rev_ind; [by rewrite (ats_other_nil log e)|].
  rewrite (ats_other log e l req a after) by done. by rewrite !length_app.
Qed.

Lemma counted_other log w e : other e = true -> counted log w -> counted (log ++ [e]) w.
Proof.
  intros He (Hm & Ha & Hl & Hle & Hf). split_and!; [done..|by rewrite ats_other_length|done|].
  rewrite fns_snoc, Hf. by destruct e.
Qed.

Lemma first_ready log w e : other e = true -> at_head log w -> retryAfter w = None -> ready (log ++ [e]) w.
Proof.
  intros He (Hc & Hs) Hra. split; [by apply counted_other|].
  destruct Hs as [[Hats _]|(? & ? & ? & ? & ? & _ & _ & _ & ? & _)]; [|congruence].
  rewrite (ats_other_nil log e); [constructor|by destruct e|done].
Qed.

Lemma sleep_slept log w ra d : at_head log w -> retryAfter w = Some ra -> Wait ra <= d -> slept ra (log ++ [EvSleep d]) w.
Proof.
  intros (Hc & Hs) Hra Hd. split; [by apply counted_other|].
  destruct Hs as [[_ ?]|(l & req & a & after & ra' & Hats & Hfl & Hb & Hra' & Hre & Hcl)]; [congruence|]. simplify_eq.
  exists l, req, a, (after ++ [EvSleep d]). rewrite (ats_other log (EvSleep d) l req a after) by done.
  split_and!; [done..|by apply closed_snoc|]. exists d. set_solver.
Qed.

Lemma slept_stopped ra log w : slept ra log w -> stopped log.
Proof.
  intros ((_ & _ & Hn & Hl & Hf) & l & req & a & after & Hats & Hfl & _ & _ & Hc & _).
  unfold stopped, log_ok, all_closed. rewrite Hn, Hats, removelast_last. split_and!; [done|lia|done|].
  apply Forall_app_2; [by apply followed_closed|by constructor].
Qed.

Lemma slept_ready ra log w : slept ra log w -> rateLimiter r = None -> ready log w.
Proof.
  intros (Hc & l & req & a & after & Hats & Hfl & Hb & Hre & Hcl & Hd) Hr. split; [done|].
  rewrite Hats. apply Forall_app_2; [done|]. constructor; [|done].
  split; [done|]. eexists. split_and!; [done|done|congruence|done].
Qed.

Lemma wait_ready ra log w info : slept ra log w -> ready (log ++ [EvWait info None]) w.
Proof.
  intros (Hc & l & req & a & after & Hats & Hfl & Hb & Hre & Hcl & d & Hd & Hle).
  split; [by apply counted_other|].
  rewrite (ats_other log _ l req a after) by done. apply Forall_app_2; [done|]. constructor; [|done].
  split; [done|]. exists (Wait ra). split_and!; [done|exists d; set_solver|intros ? _; exists info; set_solver|by apply closed_snoc].
Qed.

Lemma Before_total n a :
  total (holds n a at_head) (Before r)
    (fun e => holds n a (fun log w => match e with None => ready log w | Some _ => stopped log end)).
Proof.
  unfold Before. eapply triple_bind; [apply total_look|]. intros [e|].
  - eapply triple_bind; [apply (total_set_retry n a _ (fun log _ => stopped log) (trackPreviousError (Some e)))|].
    + intros log w [Hh _]. by eapply at_head_stopped.
    + intros ?. by apply triple_ret.
  - eapply triple_bind; [apply total_get|]. intros x. cbn beta.
    destruct (retryAfter (retry x)) as [ra|] eqn:Hra.
    + eapply triple_bind; [apply total_calculate|]. intros d.
      eapply triple_bind; [apply (total_emit n a _ (slept ra))|].
      { intros log w ((Hh & _) & -> & _). apply sleep_slept; [done..|]. destruct (d <? Wait ra) eqn:Hd; bool_to_prop; lia. }
      intros ?. eapply triple_bind; [apply (total_throttle n a _ (fun e log w => match e with None => ready log w | Some _ => stopped log end))|].
      { intros limiter log w [e|] Hlim Hs; cbn; [|by eapply wait_ready].
        apply stopped_other; [done|]. by eapply slept_stopped. }
      { intros Hr log w Hs. by eapply slept_ready. }
      intros [e|]; [|by apply triple_ret].
      eapply triple_bind; [apply total_look|]. intros ctxErr.
      eapply triple_bind; [apply (total_set_retry n a _ (fun log _ => stopped log) (trackPreviousError ctxErr)); by intros ? ? []|].
      intros ?. by apply triple_ret.
    + eapply triple_bind; [apply total_calculate|]. intros d.
      eapply triple_bind; [apply (total_emit n a _ ready)|].
      { intros log w ((Hh & _) & -> & _). by apply first_ready. }
      intros ?. by apply triple_ret.
Qed.

Lemma ready_stopped log w : ready log w -> stopped log.
Proof.
  intros ((_ & _ & Hn & Hl & Hf) & Hfl). unfold stopped, log_ok, all_closed. rewrite Hn.
  split_and!; [|lia|done|by apply followed_closed].
  destruct (ats log) as [|t l _] using rev_ind; [constructor|]. rewrite removelast_last. by apply Forall_app in Hfl as [? _].
Qed.

(** After the call. *)
Definition sent (req : http_request) (ans : reply) (log : list event) (w : withRetry) : Prop :=
  maxRetries w = RestRequest.maxRetries r /\ attempts w = Z.of_nat m /\ Z.of_nat m <= RestRequest.maxRetries r /\
  fns log = [] /\ exists l, ats log = l ++ [(req, ans, [])] /\ Forall (followed r f) l /\ length l = m.

Definition unanswered (req : http_request) (ans : reply) (log : list event) : Prop :=
  fns log = [] /\ Z.of_nat m <= RestRequest.maxRetries r /\
  exists l, ats log = l ++ [(req, ans, [])] /\ Forall (followed r f) l /\ length l = m /\
    gave_up r f log (req, ans, []).

Lemma Do_total n a req : total (holds n a ready) (Do_ req) (fun ans : reply => holds n a (sent req ans)).
Proof.
  apply triple_call. intros k log log' ans x (Hn & Ha & (Hm & Hat & Hl & Hle & Hf) & Hfl) [= <- <-].
  split_and!; [done..|]. cbn [srv local] in *.
  split_and!; [done..|by rewrite fns_snoc, Hf|]. exists (ats log). by rewrite ats_do.
Qed.

Lemma After_total n a req ans : total (holds n a (sent req ans)) (After r ans) (fun _ : unit => holds n a (sent req ans)).
Proof.
  unfold After. eapply triple_bind; [by apply (total_set_retry n a _ (sent req ans))|]. intros ?.
  destruct (base (c r)) as [b|]; [|by apply triple_ret].
  eapply triple_bind; [apply total_look|]. intros u. eapply triple_bind; [apply total_look|]. intros now.
  eapply triple_bind; [apply total_get|]. intros x. cbn beta.
  destruct (UpdateBackoff _ _ _ _ _ _) as [bo|] eqn:Hu; [|by apply updates in Hu]. cbn [or_panic].
  intros s (Hn & Ha & (((Hs & _) & _) & _)). by split_and!.
Qed.

Lemma next_retry_total n a req ans :
  total (holds n a (sent req ans)) (next_retry r req ans f)
    (fun again => holds n a (fun log w =>
       if again then
         maxRetries w = RestRequest.maxRetries r /\ attempts w = Z.of_nat (S m) /\ Z.of_nat (S m) <= RestRequest.maxRetries r /\
         fns log = [] /\ body r = None /\
         (exists l, ats log = l ++ [(req, ans, [])] /\ Forall (followed r f) l /\ length l = m) /\
         exists ra, retryAfter w = Some ra /\ retryable f (Method req) ans = Some (Wait ra)
       else unanswered req ans log)).
Proof.
  intros s (Hn & Ha & Hmr & Hat & Hle & Hf & l & Hats & Hfl & Hl). unfold next_retry, bind, get. cbn.
  pose proof (IsNextRetry_spec (bool_decide (body r <> None)) (Method req) ans f (retry (local s)) ltac:(lia) ltac:(lia)) as Hs.
  destruct (IsNextRetry _ _ _ _ _) as [again w]. destruct Hs as [Hw Hs]. cbn. split_and!; [done..|].
  cbn [srv local retry set_retry]. destruct again.
  - destruct Hs as (Ho & Hat' & Hle' & Hra). apply bool_decide_eq_false_1 in Ho.
    split_and!; [congruence|lia|lia|done|by apply dec_stable|by exists l|done].
  - split_and!; [done..|]. exists l. split_and!; [done..|]. unfold gave_up. rewrite Hats, length_app. cbn.
    destruct Hs as [Ho|[Ho|Ho]]; [left; by apply bool_decide_eq_true_1 in Ho|by right; left|right; right; lia].
Qed.

End parts.

(** ** Turns of the loops *)

(** Events of a last attempt, one after the other. *)
Lemma ats_last_app log l req a after es :
  Forall (fun e => is_do e = false) es -> ats log = l ++ [(req, a, after)] ->
  ats (log ++ es) = l ++ [(req, a, after ++ es)].
Proof.
  intros Hes. revert log after. induction Hes as [|e es He _ IH]; intros log after Hl; [by rewrite !app_nil_r|].
  rewrite (cons_middle e log es), (cons_middle e after es), !app_assoc. apply IH. by apply ats_other.
Qed.

(** The events of [readAndCloseResponseBody]. *)
Definition close_events (ans : reply) : list event := match answer_resp ans with Some resp => [EvClose resp] | None => [] end.

Lemma close_events_ok ans : Forall (fun e => is_do e = false) (close_events ans) /\ closed ans (close_events ans) /\
  forall log, fns (log ++ close_events ans) = fns log.
Proof.
  unfold close_events. destruct ans as [[e [resp|]]|resp]; cbn; split_and!; try done; try (by repeat constructor);
    try (intros log; by rewrite fns_app, app_nil_r); set_solver.
Qed.

(** A retry is due: with the body of the response closed, the loop begins again. *)
Lemma again_at_head r f m log w req ans :
  maxRetries w = RestRequest.maxRetries r -> attempts w = Z.of_nat (S m) -> Z.of_nat (S m) <= RestRequest.maxRetries r ->
  fns log = [] -> body r = None ->
  (exists l, ats log = l ++ [(req, ans, [])] /\ Forall (followed r f) l /\ length l = m) ->
  (exists ra, retryAfter w = Some ra /\ retryable f (Method req) ans = Some (Wait ra)) ->
  at_head r f (S m) (log ++ close_events ans) w.
Proof.
  intros Hmr Hat Hle Hf Hb (l & Hats & Hfl & Hl) (ra & Hra & Hre).
  destruct (close_events_ok ans) as (Hes & Hcl & Hfns). set (es := close_events ans) in *.
  assert (Hats' : ats (log ++ es) = l ++ [(req, ans, es)]) by (by rewrite (ats_last_app log l req ans [] es)).
  split.
  - split_and!; [done..| |done|].
    + rewrite Hats', length_app, Hl. cbn. lia.
    + by rewrite Hfns.
  - right. by exists l, req, ans, es, ra.
Qed.

Lemma close_total r f m n a req ans :
  total (holds n a (fun log w =>
    maxRetries w = RestRequest.maxRetries r /\ attempts w = Z.of_nat (S m) /\ Z.of_nat (S m) <= RestRequest.maxRetries r /\
    fns log = [] /\ body r = None /\
    (exists l, ats log = l ++ [(req, ans, [])] /\ Forall (followed r f) l /\ length l = m) /\
    exists ra, retryAfter w = Some ra /\ retryable f (Method req) ans = Some (Wait ra)))
    (readAndCloseResponseBody ans) (fun _ : unit => holds n a (at_head r f (S m))).
Proof.
  unfold readAndCloseResponseBody. destruct (answer_resp ans) as [resp|] eqn:Hr.
  - apply total_emit. intros log w (? & ? & ? & ? & ? & ? & ?).
    pose proof (again_at_head r f m log w req ans) as Hh. unfold close_events in Hh. rewrite Hr in Hh. by apply Hh.
  - apply triple_ret. intros s (Hn & Ha & ? & ? & ? & ? & ? & ? & ?). split_and!; [done..|].
    pose proof (again_at_head r f m (srv s) (retry (local s)) req ans) as Hh. unfold close_events in Hh.
    rewrite Hr, app_nil_r in Hh. by apply Hh.
Qed.

(** What is true when the last answer [ans] is followed by the events [es]. *)
Lemma unanswered_done r f m req ans log es :
  unanswered r f m req ans log -> Forall (fun e => is_do e = false) es -> closed ans es ->
  log_ok r f (log ++ es) /\ all_closed (log ++ es) /\
  exists l, ats (log ++ es) = l ++ [(req, ans, es)] /\ gave_up r f (log ++ es) (req, ans, es).
Proof.
  intros (Hf & Hle & l & Hats & Hfl & Hl & Hg) Hes Hcl.
  pose proof (ats_last_app log l req ans [] es Hes Hats) as Ha. cbn in Ha.
  unfold log_ok, all_closed. rewrite Ha, removelast_last, length_app, Hl. split_and!.
  - done.
  - cbn. lia.
  - apply Forall_app_2; [by eapply followed_closed|by constructor].
  - exists l. split; [done|]. destruct Hg as [|[|Hg]]; [by left|by right; left|right; right].
    rewrite Hats, !length_app in Hg. rewrite Ha, !length_app. done.
Qed.

(** A loop whose turns are attempts ends, with at most one attempt more than retries. *)
Lemma loop_total {B} r f (body : unit -> M (list event) X (unit + B)) (a : A) (Q : B -> run -> Prop) :
  0 <= RestRequest.maxRetries r ->
  (forall m n, total (holds n a (at_head r f m)) (body tt)
     (fun res s => match res with inl _ => holds n a (at_head r f (S m)) s | inr b => Q b s end)) ->
  forall s, result (local s) = a -> at_head r f 0 (srv s) (retry (local s)) ->
    RestRequest.maxRetries r + 1 < Z.of_nat (budget s) ->
    match forever body tt s with (s', Returns b) => Q b s' | _ => False end.
Proof.
  intros Hmax Hbody s Ha Hh Hb.
  pose proof (total_forever (fun (_ : unit) s => result (local s) = a /\ exists m, at_head r f m (srv s) (retry (local s)))
    (fun log _ => Z.to_nat (RestRequest.maxRetries r + 1 - Z.of_nat (length (ats log)))) body Q tt) as Hf.
  assert (Hm : (Z.to_nat (RestRequest.maxRetries r + 1 - Z.of_nat (length (ats (srv s)))) < budget s)%nat) by lia.
  refine (_ (Hf _ _ s (conj (conj Ha (ex_intro _ 0%nat Hh)) Hm))).
  - by destruct (forever body tt s) as [s' [| |]].
  - done.
  - intros [] k n s1 ((Ha1 & m & Hm1) & Hk & Hn). pose proof (Hbody m n s1 (conj Hn (conj Ha1 Hm1))) as Hr.
    destruct (body tt s1) as [s2 [| |[[]|b]]]; [done|done| |done].
    destruct Hr as (Hn2 & Ha2 & Hm2). split_and!; [done|by exists (S m)| |done].
    destruct Hm1 as ((_ & _ & Hl1 & Hle1 & _) & _), Hm2 as ((_ & _ & Hl2 & _) & _). lia.
Qed.

Section request.
Context `{!Reliable}.
Variable r : Request.
Variable fn : http_request -> Response -> A -> A * list WarningHeader.
Hypothesis Hmax : 0 <= RestRequest.maxRetries r < MaxInt64.

(** The callback was called once, with a response of the last attempt. *)
Definition called (a0 : A) (log : list event) (a : A) (ans : reply) (resp : Response) : Prop :=
  exists l req after, ats log = l ++ [(req, ans, after)] /\
    gave_up r isErrRetryable log (req, ans, after) /\
    fns log = [(req, resp)] /\ a = (fn req resp a0).1.

(** What [request] returns: without an error, exactly one response was handed to the
    callback, that of the last attempt; with an error none, unless one came with it. *)
Definition outcome_ok (a0 : A) (e : option request_error) (log : list event) (a : A) : Prop :=
  log_ok r isErrRetryable log /\ all_closed log /\
  match e with
  | Some _ => (fns log = [] /\ a = a0) \/ exists e' resp, called a0 log a (inl (e', Some resp)) resp
  | None => exists resp, called a0 log a (inr resp) resp
  end.

Definition ends (n : nat) (a0 : A) (e : option request_error) (s : run) : Prop :=
  budget s = n /\ outcome_ok a0 e (srv s) (result (local s)).

Lemma stopped_ends n a e s : holds n a (fun log _ => stopped r isErrRetryable log) s -> ends n a (Some e) s.
Proof. intros (Hn & Ha & Hok & Hf & Hc). do 3 (split; [done|]). by left. Qed.

Lemma total_wrap_some n a e (Q : option request_error -> run -> Prop) Φ :
  (forall e s, holds n a Φ s -> Q (Some e) s) -> total (holds n a Φ) (wrap (Some e)) Q.
Proof.
  intros HQ s Hs. unfold wrap, bind, get, ret. unfold WrapPreviousError.
  destruct (previousErr _); [case_decide|]; by apply HQ.
Qed.

Lemma respond_total n a m req ans resp :
  answer_resp ans = Some resp ->
  total (holds n a (fun log _ => unanswered r isErrRetryable m req ans log))
    (let! _ := emit (EvFn req resp) in
     let! x := get in
     let '(a', ws) := fn req resp (result x) in
     let! _ := emit (EvWarnings ws) in
     let! _ := modify (set_result a') in
     let! _ := readAndCloseResponseBody ans in
     wrap (ROutside <$> answer_err ans))
    (fun e => ends n a e).
Proof.
  intros Hr [b log x] (Hn & Ha & Hu). cbn in Hn, Ha, Hu.
  unfold readAndCloseResponseBody, bind, emit, call, get, modify, wrap, ret. rewrite Hr. cbn.
  destruct (fn req resp (result x)) as [a' ws] eqn:Hfn. cbn. rewrite Ha in Hfn.
  destruct (unanswered_done r isErrRetryable m req ans log [EvFn req resp; EvWarnings ws; EvClose resp] Hu)
    as (Hok & Hcl & l & Hats & Hg); [by repeat constructor|destruct ans; cbn in *; simplify_eq; set_solver|].
  rewrite <- !app_assoc. cbn.
  assert (Hc : called a (log ++ [EvFn req resp; EvWarnings ws; EvClose resp]) a' ans resp).
  { eexists l, req, _. split_and!; [exact Hats|exact Hg| |by rewrite Hfn].
    destruct Hu as (Hf & _). by rewrite fns_app, Hf. }
  split; [done|]. split; [exact Hok|]. split; [exact Hcl|].
  destruct ans as [[e ro]|resp']; cbn in *; simplify_eq.
  - unfold WrapPreviousError. destruct (previousErr _); [case_decide|]; right; by exists e, resp.
  - by exists resp.
Qed.

Lemma attempt_total m n a :
  total (holds n a (at_head r isErrRetryable m)) (attempt r fn tt)
    (fun res => match res with
                | inl _ => holds n a (at_head r isErrRetryable (S m))
                | inr e => ends n a e
                end).
Proof.
  unfold attempt. eapply triple_bind; [apply (Before_total r Hmax isErrRetryable m)|]. intros [e|].
  - eapply triple_bind; [apply (total_wrap_some n a e (fun e => ends n a e))|].
    + intros e' s Hs. by apply stopped_ends.
    + intros e'. by apply triple_ret.
  - destruct (newHTTPRequest r) as [e|req].
    { apply triple_ret. intros s (Hn & Ha & Hs). apply stopped_ends. split_and!; [done..|]. by eapply ready_stopped. }
    eapply triple_bind; [apply (Do_total r isErrRetryable m)|]. intros ans.
    eapply triple_bind; [apply (After_total r isErrRetryable m)|]. intros ?.
    eapply triple_bind; [by apply (next_retry_total r Hmax isErrRetryable m)|]. intros [|].
    + eapply triple_bind; [apply (close_total r isErrRetryable m)|]. intros ?. by apply triple_ret.
    + destruct (answer_resp ans) as [resp|] eqn:Hresp.
      * pose proof (respond_total n a m req ans resp Hresp) as Hr. intros s Hs. specialize (Hr s Hs). revert Hr.
        unfold readAndCloseResponseBody. rewrite Hresp.
        unfold bind, emit, call, get, modify, wrap, ret. cbn. by destruct (fn req resp (result (local s))).
      * destruct ans as [[e ro]|resp]; [|done]. cbn in Hresp. subst ro.
        intros [b log x] (Hn & Ha & Hu). cbn in Hn, Ha, Hu. unfold bind, ret. cbn.
        destruct (unanswered_done r isErrRetryable m req (inl (e, None)) log [] Hu) as (Hok & Hcl & _); [constructor|done|].
        rewrite app_nil_r in Hok, Hcl. destruct Hu as (Hf & _).
        assert (He : forall e', ends n a (Some e') (mkRun b log x)) by (intros e'; do 3 (split; [done|]); by left).
        destruct (previousErr (retry x)); [case_decide|]; apply He.
Qed.

(** Before the loop. *)
Definition quiet (log : list event) : Prop := ats log = [] /\ fns log = [].

Lemma quiet_other log e : other e = true -> quiet log -> quiet (log ++ [e]).
Proof.
  intros He [Ha Hf]. split; [apply ats_other_nil; [by destruct e|done]|]. rewrite fns_snoc, Hf. by destruct e.
Qed.

Lemma throttle_quiet n a info :
  total (holds n a (fun log _ => quiet log)) (tryThrottleWithInfo r info) (fun _ => holds n a (fun log _ => quiet log)).
Proof. apply total_throttle; [|done]. intros limiter log w e _ Hq. by apply quiet_other. Qed.

Lemma new_retry_head f n a :
  total (holds n a (fun log _ => quiet log)) (new_retry r) (fun _ : unit => holds n a (at_head r f 0)).
Proof.
  apply (total_set_retry n a (fun log _ => quiet log) (at_head r f 0) (fun _ => defaultRequestRetryFn (RestRequest.maxRetries r))).
  intros log _ [Ha Hf]. split; [|by left]. split_and!; [done..|by rewrite Ha|cbn; lia|done].
Qed.

Lemma quiet_outcome a e log : quiet log -> outcome_ok a (Some e) log a.
Proof.
  intros [Ha Hf]. unfold outcome_ok, log_ok, all_closed. rewrite Ha. split_and!; [constructor|cbn; lia|constructor|by left].
Qed.

Lemma request_total s a :
  srv s = [] -> result (local s) = a -> RestRequest.maxRetries r + 1 < Z.of_nat (budget s) ->
  match request r fn s with
  | (s', Returns e) => outcome_ok a e (srv s') (result (local s'))
  | _ => False
  end.
Proof.
  intros Hs Ha Hb. assert (Hq : quiet (srv s)) by by rewrite Hs. unfold request.
  destruct (err r) as [e|]; [cbn; rewrite Ha; by apply quiet_outcome|].
  destruct (requestPreflightCheck r) as [e|]; [cbn; rewrite Ha; by apply quiet_outcome|].
  unfold bind at 1. pose proof (throttle_quiet (budget s) a NoReason s (conj eq_refl (conj Ha Hq))) as Ht.
  fold (tryThrottle (Bo:=Bo) (A:=A) r) in Ht. destruct (tryThrottle r s) as [s1 [| |[e|]]]; [done|done|..].
  { destruct Ht as (_ & Ha1 & Hq1). cbn. rewrite Ha1. by apply quiet_outcome. }
  set (m := if 0 <? timeout r then _ else _).
  assert (Hm : total (holds (budget s) a (fun log _ => quiet log)) m (fun _ => holds (budget s) a (fun log _ => quiet log))).
  { unfold m. destruct (0 <? timeout r); [|by apply triple_ret]. apply total_emit. intros log _ Hq'. by apply quiet_other. }
  unfold bind at 1. specialize (Hm s1 Ht). destruct (m s1) as [s2 [| |[]]]; [done|done|].
  unfold bind at 1. pose proof (new_retry_head isErrRetryable _ _ s2 Hm) as Hn.
  destruct (new_retry r s2) as [s3 [| |[]]]; [done|done|]. destruct Hn as (Hb3 & Ha3 & Hh3).
  apply (loop_total r isErrRetryable (attempt r fn) a (fun e s => outcome_ok a e (srv s) (result (local s))));
    [lia| |done|done|lia].
  intros k n s' Hs'. pose proof (attempt_total k n a s' Hs') as Hk.
  destruct (attempt r fn tt s') as [s4 [| |[[]|e]]]; [done..|]. apply Hk.
Qed.

End request.

(** ** [Stream] and [Watch] *)

Section streams.
Context `{!Reliable}.
Variable r : Request.
Hypothesis Hmax : 0 <= RestRequest.maxRetries r < MaxInt64.

Lemma sent_done f m req ans log w es :
  sent r f m req ans log w -> Forall (fun e => is_do e = false) es ->
  log_ok r f (log ++ es) /\ exists l, ats (log ++ es) = l ++ [(req, ans, es)] /\ Forall (fun t => closed t.1.2 t.2) l.
Proof.
  intros (_ & _ & Hle & _ & l & Hats & Hfl & Hl) Hes.
  pose proof (ats_last_app log l req ans [] es Hes Hats) as Ha. unfold log_ok.
  rewrite Ha, removelast_last, length_app, Hl. split; [split; [done|cbn; lia]|].
  exists l. split; [done|]. by eapply followed_closed.
Qed.

(** The body of the last response is with the caller, and every other is closed. *)
Definition handed (log : list event) (resp : Response) : Prop :=
  exists l req after, ats log = l ++ [(req, inr resp, after)] /\ EvBody resp ∈ after /\
    Forall (fun t => closed t.1.2 t.2) l.

Definition stream_outcome (out : request_error + Response) (log : list event) : Prop :=
  log_ok r neverRetryError log /\
  match out with
  | inl _ => all_closed log
  | inr resp => 200 <= StatusCode resp < 300 /\ handed log resp
  end.

Lemma stream_attempt_total m n a :
  total (holds n a (at_head r neverRetryError m)) (stream_attempt r tt)
    (fun res s => match res with
                  | inl _ => holds n a (at_head r neverRetryError (S m)) s
                  | inr out => stream_outcome out (srv s)
                  end).
Proof.
  unfold stream_attempt. eapply triple_bind; [apply (Before_total r Hmax neverRetryError m)|]. intros [e|].
  { apply triple_ret. intros s (_ & _ & Hok & _ & Hc). by split. }
  destruct (newHTTPRequest r) as [e|req].
  { apply triple_ret. intros s (_ & _ & Hs). apply ready_stopped in Hs as (Hok & _ & Hc). by split. }
  eapply triple_bind; [apply (Do_total r neverRetryError m)|]. intros ans.
  eapply triple_bind; [apply (After_total r neverRetryError m)|]. intros ?. destruct ans as [[e ro]|resp].
  - apply triple_ret. intros s (_ & _ & Hs).
    destruct (sent_done _ _ _ _ _ _ [] Hs) as (Hok & l & Hl & Hc); [constructor|]. rewrite app_nil_r in Hok, Hl.
    split; [done|]. unfold all_closed. rewrite Hl. apply Forall_app_2; [done|by constructor].
  - destruct (_ && _) eqn:Hcode.
    + intros [b log x] (_ & _ & Hs). unfold bind, emit, call, ret. cbn. rewrite <- app_assoc. cbn.
      destruct (sent_done _ _ _ _ _ _ [EvWarnings (handleWarnings (Header resp)); EvBody resp] Hs)
        as (Hok & l & Hl & Hc); [by repeat constructor|].
      bool_to_prop. split; [done|]. split; [lia|]. eexists l, req, _. split_and!; [exact Hl|set_solver|done].
    + eapply triple_bind; [by apply (next_retry_total r Hmax neverRetryError m)|]. intros [|].
      * eapply triple_bind; [apply (close_total r neverRetryError m n a req (inr resp))|]. intros ?. by apply triple_ret.
      * intros [b log x] (_ & _ & Hu). unfold bind, emit, call, ret. cbn. rewrite <- app_assoc.
        destruct (unanswered_done r neverRetryError m req (inr resp) log
          [EvWarnings (warnings (transformResponse r resp (Method req))); EvClose resp] Hu) as (Hok & Hc & _);
          [by repeat constructor|cbn; set_solver|]. by split.
Qed.

Lemma Stream_total (s : run) :
  srv s = [] -> RestRequest.maxRetries r + 1 < Z.of_nat (budget s) ->
  match Stream r s with (s', Returns out) => stream_outcome out (srv s') | _ => False end.
Proof.
  intros Hs Hb. assert (Hq : quiet (srv s)) by by rewrite Hs.
  assert (Hqo : forall e log, quiet log -> stream_outcome (inl e) log).
  { intros e log [Ha _]. unfold stream_outcome, log_ok, all_closed. rewrite Ha. split_and!; [constructor|cbn; lia|constructor]. }
  unfold Stream. destruct (err r) as [e|]; [by apply Hqo|].
  unfold bind at 1. pose proof (throttle_quiet r (budget s) (result (local s)) NoReason s (conj eq_refl (conj eq_refl Hq))) as Ht.
  fold (tryThrottle (Bo:=Bo) (A:=A) r) in Ht. destruct (tryThrottle r s) as [s1 [| |[e|]]]; [done|done|..].
  { destruct Ht as (_ & _ & Hq1). by apply Hqo. }
  unfold bind at 1. pose proof (new_retry_head r Hmax neverRetryError _ _ s1 Ht) as Hn.
  destruct (new_retry r s1) as [s2 [| |[]]]; [done|done|]. destruct Hn as (Hb2 & Ha2 & Hh2).
  apply (loop_total r neverRetryError (stream_attempt r) (result (local s)) (fun out s => stream_outcome out (srv s)));
    [lia| |done|done|lia].
  intros k n. apply stream_attempt_total.
Qed.

(** The stream of the response of a watch cannot be decoded: its body stays open. *)
Definition left_open (e : option request_error) (log : list event) : Prop :=
  exists l req resp e', ats log = l ++ [(req, inr resp, [])] /\ StatusCode resp = StatusOK /\
    StreamDecoder (Header_Get "Content-Type" (Header resp)) = Some e' /\ e = Some (ROutside e').

Definition watch_outcome (out : watch_result) (log : list event) : Prop :=
  log_ok r watch_retryable log /\
  match out with
  | WStream resp => StatusCode resp = StatusOK /\ handed log resp
  | WEmpty => all_closed log /\
      exists l req e resp after, ats log = l ++ [(req, inl (e, resp), after)] /\ watch_retryable (Method req) e = true /\
        gave_up r watch_retryable log (req, inl (e, resp), after)
  | WError e => e <> None /\ (all_closed log \/ left_open e log)
  end.

Lemma wrap_outcome e log s : srv s = log -> log_ok r watch_retryable log -> all_closed log ->
  match wrap (Bo:=Bo) (A:=A) (Some e) s with
  | (s', Returns e) => srv s' = log /\ watch_outcome (WError e) log
  | _ => False
  end.
Proof.
  intros Hs Hok Hc. unfold wrap, bind, get, ret, WrapPreviousError. cbn.
  destruct (previousErr _); [case_decide|]; (split; [done|]; split; [done|]; split; [done|by left]).
Qed.

Lemma watch_error e (s : run) : log_ok r watch_retryable (srv s) -> all_closed (srv s) ->
  match (let! e := wrap (Bo:=Bo) (A:=A) (Some e) in ret (inr (A:=unit) (WError e))) s with
  | (_, Running) | (_, Panics) => False
  | (s', Returns (inl _)) => False
  | (s', Returns (inr out)) => watch_outcome out (srv s')
  end.
Proof.
  intros Hok Hc. unfold bind at 1. pose proof (wrap_outcome e _ s eq_refl Hok Hc) as Hw.
  destruct (wrap (Some e) s) as [s' [| |e']]; [done|done|]. destruct Hw as [Hs Hw]. cbn. by rewrite Hs.
Qed.

Lemma watch_attempt_total m n a :
  total (holds n a (at_head r watch_retryable m)) (watch_attempt r tt)
    (fun res s => match res with
                  | inl _ => holds n a (at_head r watch_retryable (S m)) s
                  | inr out => watch_outcome out (srv s)
                  end).
Proof.
  unfold watch_attempt. eapply triple_bind; [apply (Before_total r Hmax watch_retryable m)|]. intros [e|].
  { intros s (_ & _ & Hok & _ & Hc). pose proof (watch_error e s Hok Hc) as Hw.
    by destruct (bind _ _ s) as [s' [| |[|]]]. }
  destruct (newHTTPRequest r) as [e|req].
  { apply triple_ret. intros s (_ & _ & Hs). apply ready_stopped in Hs as (Hok & _ & Hc). split; [done|]. split; [done|by left]. }
  eapply triple_bind; [apply (Do_total r watch_retryable m)|]. intros ans.
  eapply triple_bind; [apply (After_total r watch_retryable m)|]. intros ?. destruct ans as [[e ro]|resp].
  - eapply triple_bind; [by apply (next_retry_total r Hmax watch_retryable m)|]. intros [|].
    + eapply triple_bind.
      { instantiate (1 := fun _ => _). cbn beta. destruct ro; by apply triple_ret. }
      intros ?. eapply triple_bind; [apply (close_total r watch_retryable m n a req (inl (e, ro)))|].
      intros ?. by apply triple_ret.
    + intros [b log x] (_ & _ & Hu). cbn in Hu.
      set (es := match ro with Some resp => [EvWarnings (warnings (transformResponse r resp (Method req))); EvClose resp] | None => [] end).
      destruct (unanswered_done r watch_retryable m req (inl (e, ro)) log es Hu) as (Hok & Hc & l & Hl & Hg);
        [destruct ro; by repeat constructor|done|].
      pose proof (watch_error (ROutside e) (mkRun b (log ++ es) x) Hok Hc) as Hw.
      assert (Hend : forall rest : M (list event) X (unit + watch_result),
        (let! _ := match ro with Some resp => emit (EvWarnings (warnings (transformResponse r resp (Method req)))) | None => ret tt end in
         let! _ := readAndCloseResponseBody (inl (e, ro)) in rest) (mkRun b log x) = rest (mkRun b (log ++ es) x)).
      { intros rest. unfold es, readAndCloseResponseBody, emit, call, bind, ret. destruct ro; cbn; [by rewrite <- app_assoc|by rewrite app_nil_r]. }
      rewrite Hend. destruct (watch_retryable (Method req) e) eqn:Hre.
      * cbn. split_and!; [done|done|]. by exists l, req, e, ro, es.
      * by destruct (bind (wrap _) _ _) as [s' [| |[|]]].
  - destruct (StatusCode resp =? StatusOK) eqn:Hcode.
    + intros [b log x] (_ & _ & Hs). unfold newStreamWatcher. destruct (StreamDecoder _) as [e'|] eqn:Hd.
      * cbn. destruct (sent_done _ _ _ _ _ _ [] Hs) as (Hok & l & Hl & Hc); [constructor|]. rewrite app_nil_r in Hok, Hl.
        split_and!; [done|done|]. right. exists l, req, resp, e'. bool_to_prop. by split_and!.
      * unfold bind, emit, call, ret. cbn. rewrite <- app_assoc. cbn.
        destruct (sent_done _ _ _ _ _ _ [EvWarnings (handleWarnings (Header resp)); EvBody resp] Hs)
          as (Hok & l & Hl & Hc); [by repeat constructor|].
        bool_to_prop. split; [done|]. split; [done|]. eexists l, req, _. split_and!; [exact Hl|set_solver|done].
    + eapply triple_bind; [by apply (next_retry_total r Hmax watch_retryable m)|]. intros [|].
      * eapply triple_bind; [apply (close_total r watch_retryable m n a req (inr resp))|]. intros ?. by apply triple_ret.
      * intros [b log x] (_ & _ & Hu). cbn in Hu.
        destruct (unanswered_done r watch_retryable m req (inr resp) log
          [EvWarnings (warnings (transformResponse r resp (Method req))); EvClose resp] Hu) as (Hok & Hc & _);
          [by repeat constructor|cbn; set_solver|].
        pose proof (watch_error (default (RErrorf "for request %s, got status: %v" [Path (URL_ r); pretty.pretty (StatusCode resp)])
            (result_err (transformResponse r resp (Method req))))
          (mkRun b (log ++ [EvWarnings (warnings (transformResponse r resp (Method req))); EvClose resp]) x) Hok Hc) as Hw.
        unfold readAndCloseResponseBody. cbn [answer_resp]. unfold emit, call. unfold bind at 1 2. cbn [srv local budget].
        rewrite <- app_assoc. by destruct (bind (wrap _) _ _) as [s' [| |[|]]].
Qed.

Lemma Watch_total (s : run) :
  srv s = [] -> RestRequest.maxRetries r + 1 < Z.of_nat (budget s) ->
  match Watch r s with (s', Returns out) => watch_outcome out (srv s') | _ => False end.
Proof.
  intros Hs Hb. assert (Hq : quiet (srv s)) by by rewrite Hs. unfold Watch. destruct (err r) as [e|].
  { cbn. rewrite Hs. unfold watch_outcome, log_ok, all_closed. split; [split; [constructor|cbn; lia]|]. split; [done|left; constructor]. }
  unfold bind at 1.
  pose proof (new_retry_head r Hmax watch_retryable (budget s) (result (local s)) s (conj eq_refl (conj eq_refl Hq))) as Hn.
  destruct (new_retry r s) as [s2 [| |[]]]; [done|done|]. destruct Hn as (Hb2 & Ha2 & Hh2).
  apply (loop_total r watch_retryable (watch_attempt r) (result (local s)) (fun out s => watch_outcome out (srv s)));
    [lia| |done|done|lia].
  intros k n. apply watch_attempt_total.
Qed.

End streams.

(** ** Properties *)

Section properties.
Context `{!Reliable}.
Variable r : Request.
Hypothesis Hmax : 0 <= RestRequest.maxRetries r < MaxInt64.

Lemma followed_once log : log_ok r isErrRetryable log -> body r <> None -> (length (ats log) <= 1)%nat.
Proof.
  intros [Hf _] Hb. destruct (ats log) as [|t [|t' l]]; [cbn; lia..|]. inversion Hf as [|[[req a] after] ? Ht _]; subst.
  destruct Ht as [? _]. done.
Qed.

(** C21: [request] returns, whatever the server, the context and the rate limiter do: it
    makes at most one call more than it has retries, and only one when its body is a
    reader.  When it returns no error the callback was called exactly once, with the
    response to the last call, which was not to be retried or came after the last retry.
    When it returns an error the callback was not called, except when the last call gave a
    response along with its error, as net/http does when it refuses a redirect: then the
    callback was called once with that response, though the comment in the code says
    that there is none. *)
Theorem request_terminates (fn : http_request -> Response -> A -> A * list WarningHeader) (s : run) :
  srv s = [] -> RestRequest.maxRetries r + 1 < Z.of_nat (budget s) ->
  exists s' e, request r fn s = (s', Returns e) /\
    Z.of_nat (length (ats (srv s'))) <= RestRequest.maxRetries r + 1 /\
    (body r <> None -> (length (ats (srv s')) <= 1)%nat) /\
    let called_with ans resp :=
      exists l req after, ats (srv s') = l ++ [(req, ans, after)] /\
        gave_up r isErrRetryable (srv s') (req, ans, after) /\
        fns (srv s') = [(req, resp)] /\ result (local s') = (fn req resp (result (local s))).1 in
    match e with
    | Some _ =>
        (fns (srv s') = [] /\ result (local s') = result (local s)) \/
        exists err resp, called_with (inl (err, Some resp)) resp
    | None => exists resp, called_with (inr resp) resp
    end.
Proof.
  intros Hs Hb. pose proof (request_total r fn Hmax s (result (local s)) Hs eq_refl Hb) as Ht.
  destruct (request r fn s) as [s' [| |e]]; [done|done|]. exists s', e. destruct Ht as (Hok & _ & He).
  split_and!; [done|apply Hok|by apply followed_once|done].
Qed.

(** C20: Every call of a request after its first is a rightful retry: the response before it
    was a 429 or a 5xx with a [Retry-After] in seconds, or the request is a GET and the
    connection was reset or closed; the body can be sent again; and in between the client
    closed the body of the response, slept at least the time it was asked to, and was
    admitted by its rate limiter.  The body of every response is closed in the end. *)
Theorem request_retries_justified (fn : http_request -> Response -> A -> A * list WarningHeader) (s : run) :
  srv s = [] -> RestRequest.maxRetries r + 1 < Z.of_nat (budget s) ->
  let log := srv (request r fn s).1 in
  (forall i req a after, ats log !! i = Some (req, a, after) -> (S i < length (ats log))%nat ->
     body r = None /\
     exists wait, retryable isErrRetryable (Method req) a = Some wait /\
       (exists d, EvSleep d ∈ after /\ wait <= d) /\
       (forall limiter, rateLimiter r = Some limiter -> exists info, EvWait info None ∈ after) /\
       closed a after) /\
  (forall i req resp after, ats log !! i = Some (req, inr resp, after) -> EvClose resp ∈ after).
Proof.
  intros Hs Hb. pose proof (request_total r fn Hmax s (result (local s)) Hs eq_refl Hb) as Ht.
  destruct (request r fn s) as [s' [| |e]]; [done|done|]. destruct Ht as ([Hf _] & Hc & _). cbn. split.
  - intros i req a after Hi Hlt. destruct (ats (srv s')) as [|t l _] eqn:Hats using rev_ind; [done|].
    rewrite length_app in Hlt. cbn in Hlt. rewrite lookup_app_l in Hi by lia.
    rewrite removelast_last, Forall_lookup in Hf. exact (Hf i _ Hi).
  - intros i req resp after Hi. unfold all_closed in Hc. rewrite Forall_lookup in Hc. exact (Hc i _ Hi).
Qed.

(** C22: [Stream] and [Watch] return, after at most one call more than they have retries,
    and lose no response: [Stream] gives the caller the body of a 2xx response, [Watch]
    that of a 200, or an empty watch when the connection was closed or timed out and may
    not be retried; all other bodies are closed, except that of a 200 whose content type
    has no stream decoder. *)
Theorem streams_account_for_bodies (s : run) :
  srv s = [] -> RestRequest.maxRetries r + 1 < Z.of_nat (budget s) ->
  (exists s' out, Stream r s = (s', Returns out) /\
     Z.of_nat (length (ats (srv s'))) <= RestRequest.maxRetries r + 1 /\
     match out with
     | inl _ => all_closed (srv s')
     | inr resp => 200 <= StatusCode resp < 300 /\ handed (srv s') resp
     end) /\
  (exists s' out, Watch r s = (s', Returns out) /\
     Z.of_nat (length (ats (srv s'))) <= RestRequest.maxRetries r + 1 /\
     match out with
     | WStream resp => StatusCode resp = StatusOK /\ handed (srv s') resp
     | WEmpty => all_closed (srv s') /\
         exists l req e resp after, ats (srv s') = l ++ [(req, inl (e, resp), after)] /\ watch_retryable (Method req) e = true /\
           gave_up r watch_retryable (srv s') (req, inl (e, resp), after)
     | WError e => e <> None /\ (all_closed (srv s') \/ left_open e (srv s'))
     end).
Proof.
  intros Hs Hb. split.
  - pose proof (Stream_total r Hmax s Hs Hb) as Ht. destruct (Stream r s) as [s' [| |out]]; [done|done|].
    destruct Ht as [[_ Hl] Ho]. by exists s', out.
  - pose proof (Watch_total r Hmax s Hs Hb) as Ht. destruct (Watch r s) as [s' [| |out]]; [done|done|].
    destruct Ht as [[_ Hl] Ho]. by exists s', out.
Qed.

End properties.

End attempts.

(** ** The managers do not panic *)

Section managers.
Context `{Network} `{FloatConv} `{IntegerUtil}.

Lemma NoBackoff_reliable : @Reliable unit _ NoBackoff.
Proof. by split. Qed.

(** ... as long as the text of a URL can be parsed. *)
Lemma URLBackoff_reliable reparse : (forall u, reparse u <> None) -> @Reliable Backoff.Backoff _ (URLBackoff reparse).
Proof.
  intros Hr. split; cbn; unfold URLBackoff_UpdateBackoff, URLBackoff_CalculateBackoff, baseUrlKey.
  - intros u now url e code b. specialize (Hr url). by destruct (reparse url).
  - intros url b. specialize (Hr url). by destruct (reparse url).
Qed.

End managers.

(** ** Witnesses *)

Module samples.
Import RestRequest.samples RestResult.samples.

#[local] Existing Instances outside codec.

Definition network_of (answer : list event -> reply) : Network := {|
  ctx_Err := fun _ => None;
  limiter_Wait := fun _ _ => None;
  client_Do := fun _ => answer;
  Now := fun log => Z.of_nat (length log);
  rand_Float64 := fun _ => of_int64 0;
  NewRequestWithContext := fun _ _ => None;
  IsConnectionReset := fun _ => false;
  IsProbableEOF := fun _ => false;
  IsTimeout := fun _ => false;
  error_string := fun e => e;
  url_Error_Unwrap := fun _ => None;
  Sprintf := fun f _ => f;
  StreamDecoder := fun ct => if String.eqb ct "json" then None else Some "no decoder"
|}.

(** A server that asks for two seconds and then answers. *)
#[local] Instance network : Network :=
  network_of (fun log => if (2 <=? length log)%nat then inr fine else inr busy).

#[local] Existing Instance NoBackoff.

Definition get_pods : Request := Verb "GET" (Resource "pods" (NewRequest server)).

Definition start : LoopMonad.run (list event) (state (Bo:=unit) (A:=option Z)) :=
  mkRun 12 [] (mkState (defaultRequestRetryFn 0) tt None).

Definition keep_code (_ : http_request) (resp : Response) (_ : option Z) : option Z * list WarningHeader :=
  (Some (StatusCode resp), []).

Definition code (a : reply) : Z := match a with inl _ => 0 | inr resp => StatusCode resp end.
Definition sleeps (after : list event) : list Z :=
  omap (fun e => match e with EvSleep d => Some d | _ => None end) after.

Example two_attempts :
  let s := (request get_pods keep_code start).1 in
  (result (local s), (fun t => (code t.1.2, sleeps t.2)) <$> ats (srv s)) =
    (Some 200, [(429, [2 * Second]); (200, [])]).
Proof. vm_compute. reflexivity. Qed.

(** A refused redirect: the callback is given its response, and the error is returned. *)
Example refused_redirect :
  let network := network_of (fun _ => inl ("stopped after 10 redirects", Some fine)) in
  let s := request (H1:=network) get_pods (fun _ resp _ => (Some (StatusCode resp), [])) start in
  s.2 = Returns (Some (ROutside "stopped after 10 redirects")) /\ result (local s.1) = Some 200.
Proof. vm_compute. split; reflexivity. Qed.

Lemma run_pods : (request get_pods keep_code start).2 = Returns None.
Proof. vm_compute. reflexivity. Qed.

Lemma request_terminates_witness :
  exists s' e, request get_pods keep_code start = (s', Returns e) /\ e = None /\ fns (srv s') <> [].
Proof.
  destruct (request_terminates (H2:=NoBackoff_reliable) get_pods ltac:(vm_compute; done) keep_code start)
    as (s' & e & Hr & _ & _ & He); [reflexivity|reflexivity|].
  pose proof run_pods as Hv. rewrite Hr in Hv. injection Hv as ->.
  exists s', None. split; [exact Hr|]. split; [reflexivity|].
  destruct He as (resp & l & req & after & _ & _ & Hf & _). rewrite Hf. discriminate.
Defined.

Lemma two_calls : length (ats (srv (request get_pods keep_code start).1)) = 2%nat.
Proof. vm_compute. reflexivity. Qed.

Lemma request_retries_justified_witness :
  exists req a after wait d, ats (srv (request get_pods keep_code start).1) !! 0%nat = Some (req, a, after) /\
    retryable isErrRetryable (Method req) a = Some wait /\ EvSleep d ∈ after /\ wait <= d.
Proof.
  destruct (request_retries_justified (H2:=NoBackoff_reliable) get_pods ltac:(vm_compute; done) keep_code start)
    as [Hj _]; [reflexivity|reflexivity|].
  destruct (lookup_lt_is_Some_2 (ats (srv (request get_pods keep_code start).1)) 0) as [[[req a] after] Hc];
    [rewrite two_calls; lia|].
  destruct (Hj 0%nat req a after Hc) as (_ & wait & Hw & (d & Hd & Hle) & _); [rewrite two_calls; lia|].
  exists req, a, after, wait, d. exact (conj Hc (conj Hw (conj Hd Hle))).
Defined.

Lemma watch_pods : (Watch get_pods start).2 = Returns (WStream fine).
Proof. vm_compute. reflexivity. Qed.

Lemma streams_account_for_bodies_witness :
  exists s' out, Watch get_pods start = (s', Returns out) /\ out = WStream fine /\ handed (srv s') fine.
Proof.
  destruct (streams_account_for_bodies (H2:=NoBackoff_reliable) get_pods ltac:(vm_compute; done) start)
    as [_ (s' & out & Hr & _ & Ho)]; [reflexivity|reflexivity|].
  pose proof watch_pods as Hv. rewrite Hr in Hv. injection Hv as ->.
  exists s', (WStream fine). split; [exact Hr|]. split; [reflexivity|exact (proj2 Ho)].
Defined.

(** A wrapped error unwraps to the final error and not to what that one wraps, although the
    comment of [WrapPreviousError] promises the latter. *)
Example wrapped_unwrap :
  let final := RWrapf "client rate limiter Wait returned an error: %w" "context canceled" in
  exists e, WrapPreviousError (Some final) (mkWithRetry 10 1 None (Some "connection reset") None) = Some e /\
    Unwrap e = final /\ Unwrap e <> Unwrap final.
Proof. eexists. split; [vm_compute; reflexivity|]. split; [reflexivity|discriminate]. Qed.

End samples.
