(* ===== verification/WatchHelpers.v ===== *)
(** * Helpers over watches

    tools/watch/informerwatcher.go: [EventProcessor] carries the notifications of an
    informer to the channel of a watch, through a buffer, a condition variable and a
    goroutine of its own: a step relation over the places of that goroutine, its
    pushers, its stopper and the reader of the channel.  tools/watch/until.go: [Until]
    waits until conditions have held, one after the other. *)

From S2P Require Import Prelude Objects ThreadSafeStore Store Controller Pager LoopMonad Reflector.
#[local] Open Scope nat_scope.

(** ** The event processor *)

Module EventProcessor.

Section processor.
Context {Ev : Type}.

(** Where the goroutine of [run] is: about to take the lock in [takeBatch]; holding it,
    before the test of the loop; holding it, in [cond.Wait] but not yet among the
    waiters; asleep; woken, about to take the lock again; in [writeBatch] with the
    events it has left; about to look at [stopped]; gone. *)
Inductive place : Type :=
| Locking
| Checking
| Parking
| Asleep
| Woken
| Writing (events : list Ev)
| AfterBatch
| Returned.

(** How far [stop] has come. *)
Inductive stopping : Type := NotStopped | Closed | Signalled.

(** [pushed] and [received] record what went in and out. *)
Record eventProcessor : Type := mkProcessor {
  buff : list Ev;
  done : bool;
  at_ : place;
  stop_ : stopping;
  pushed : list Ev;
  received : list Ev
}.

Definition newEventProcessor : eventProcessor := mkProcessor [] false Locking NotStopped [] [].

Definition go_to (p : place) (e : eventProcessor) : eventProcessor :=
  mkProcessor (buff e) (done e) p (stop_ e) (pushed e) (received e).

(** [cond.Signal] *)
Definition Signal (e : eventProcessor) : eventProcessor :=
  match at_ e with
  | Asleep => go_to Woken e
  | _ => e
  end.

Definition locked (e : eventProcessor) : bool :=
  match at_ e with
  | Checking | Parking => true
  | _ => false
  end.

(** A step of the goroutine by itself; [None] when it has to wait or is gone. *)
Definition run_step (e : eventProcessor) : option eventProcessor :=
  match at_ e with
  | Locking | Woken => Some (go_to Checking e)
  | Checking =>
      if (length (buff e) =? 0) && negb (done e) then Some (go_to Parking e)
      else Some (mkProcessor [] (done e) (Writing (buff e)) (stop_ e) (pushed e) (received e))
  | Parking => Some (go_to Asleep e)
  | Asleep => None
  | Writing [] => Some (go_to AfterBatch e)
  | Writing (_ :: _) => if done e then Some (go_to AfterBatch e) else None
  | AfterBatch => Some (go_to (if done e then Returned else Locking) e)
  | Returned => None
  end.

(** The reader takes the event that is offered. *)
Definition receive (e : eventProcessor) : option eventProcessor :=
  match at_ e with
  | Writing (event :: events) =>
      Some (mkProcessor (buff e) (done e) (Writing events) (stop_ e) (pushed e) (received e ++ [event]))
  | _ => None
  end.

Definition push (event : Ev) (e : eventProcessor) : option eventProcessor :=
  if locked e then None
  else Some (Signal (mkProcessor (buff e ++ [event]) (done e) (at_ e) (stop_ e) (pushed e ++ [event]) (received e))).

(** [stop] takes no lock: closing the channel and signalling are two steps. *)
Definition stop_step (e : eventProcessor) : option eventProcessor :=
  match stop_ e with
  | NotStopped => Some (mkProcessor (buff e) true (at_ e) Closed (pushed e) (received e))
  | Closed => Some (Signal (mkProcessor (buff e) (done e) (at_ e) Signalled (pushed e) (received e)))
  | Signalled => None
  end.

Inductive action : Type := ARun | AReceive | APush (event : Ev) | AStop.

Definition step (a : action) (e : eventProcessor) : option eventProcessor :=
  match a with
  | ARun => run_step e
  | AReceive => receive e
  | APush event => push event e
  | AStop => stop_step e
  end.

Fixpoint steps (l : list action) (e : eventProcessor) : option eventProcessor :=
  match l with
  | [] => Some e
  | a :: l => e ← step a e; steps l e
  end.

(** ** What is kept *)

Definition batch (e : eventProcessor) : list Ev :=
  match at_ e with
  | Writing events => events
  | _ => []
  end.

Record processor_ok (e : eventProcessor) : Prop := {
  ok_stop : done e = false <-> stop_ e = NotStopped;
  ok_returned : at_ e = Returned -> done e = true;
  (** Nobody sleeps while there is something to write. *)
  ok_asleep : at_ e = Asleep \/ at_ e = Parking -> buff e = [];
  (** Nothing is lost before the stop, and nothing is ever reordered. *)
  ok_order : received e ++ batch e ++ buff e = pushed e \/
             (done e = true /\ (at_ e = AfterBatch \/ at_ e = Returned) /\ received e `prefix_of` pushed e)
}.

(** What a place is, for the invariant. *)
Lemma Signal_at e : at_ (Signal e) = match at_ e with Asleep => Woken | p => p end.
Proof. unfold Signal. by destruct (at_ e) eqn:Hp. Qed.

Lemma Signal_keeps e : processor_ok (go_to (match at_ e with Asleep => Woken | p => p end) e) -> processor_ok (Signal e).
Proof. unfold Signal. destruct e as [b d p st pu re]. by destruct p. Qed.

Lemma order_kept e : processor_ok e -> at_ e <> AfterBatch -> at_ e <> Returned ->
  received e ++ batch e ++ buff e = pushed e.
Proof. intros [_ _ _ Ho] H1 H2. destruct Ho as [?|(_ & [?|?] & _)]; done. Qed.

Lemma run_step_keeps e e' : processor_ok e -> run_step e = Some e' -> processor_ok e'.
Proof.
  intros Hok He. pose proof Hok as [Hs Hr Ha Ho]. pose proof (order_kept e Hok) as Hor.
  destruct e as [b d p st pu re]. unfold batch, run_step, go_to in *. cbn in *.
  destruct p as [| | | | |[|ev evs]| |]; simplify_eq; cbn in *.
  - split; [done|done|by intros [|]|by left; apply Hor].
  - destruct (length b =? 0) eqn:Hb, d; cbn in He; simplify_eq; cbn in *;
      (split; [done|done| |left; cbn; rewrite ?app_nil_r; by apply Hor]); cbn.
    all: try by intros [|].
    intros _. apply Nat.eqb_eq in Hb. by destruct b.
  - split; [done|done|intros _; apply Ha; by right|by left; apply Hor].
  - split; [done|done|by intros [|]|by left; apply Hor].
  - split; [done|done|by intros [|]|by left; apply Hor].
  - destruct d; simplify_eq. split; [done|done|by intros [|]|]. right. cbn. split_and!; [done|by left|].
    rewrite <- Hor by done. by apply prefix_app_r.
  - destruct d; (split; [done|done|by intros [|]|]); cbn.
    + destruct Ho as [Ho|(_ & _ & Ho)]; right; (split_and!; [done|by right|]); [|done].
      rewrite <- Ho. by apply prefix_app_r.
    + left. by destruct Ho as [?|[? _]].
Qed.

Lemma step_keeps a e e' : processor_ok e -> step a e = Some e' -> processor_ok e'.
Proof.
  intros Hok He. destruct a as [| |ev|]; cbn in He; [by eapply run_step_keeps|..];
    pose proof Hok as [Hs Hr Ha Ho]; pose proof (order_kept e Hok) as Hor; destruct e as [b d p st pu re];
    unfold batch, receive, push, stop_step, locked in *; cbn in *.
  - destruct p as [| | | | |[|ev evs]| |]; simplify_eq. split; [done|done|by intros [|]|]. left. cbn.
    rewrite <- app_assoc. by apply Hor.
  - destruct p; simplify_eq; apply Signal_keeps; (split; cbn; [done|done|by intros [|]|]).
    all: try (left; rewrite ?app_nil_r, <- Hor, <- ?app_assoc by done; done).
    all: destruct Ho as [<-|(? & ? & Ho)]; [left; cbn; by rewrite <- ?app_assoc|right; split_and!; [done..|by apply prefix_app_r]].
  - destruct st; simplify_eq.
    + split; cbn; [done|done|done|]. destruct Ho as [?|(? & ? & ?)]; [by left|by right].
    + assert (Hd : d = true) by (destruct d; [done|]; discriminate (proj1 Hs eq_refl)). subst d.
      apply Signal_keeps. split; cbn; [done|done|destruct p; intros [?|?]; try done; apply Ha; by right|].
      destruct Ho as [Ho|Ho]; [left; by destruct p|right].
      destruct Ho as (? & [-> | ->] & ?); auto.
Qed.

Lemma steps_keep l e e' : processor_ok e -> steps l e = Some e' -> processor_ok e'.
Proof.
  revert e. induction l as [|a l IH]; cbn; intros e Hok He; [by simplify_eq|].
  destruct (step a e) as [e1|] eqn:He1; [|done]. cbn in He. eapply IH; [|exact He]. by eapply step_keeps.
Qed.

Lemma newEventProcessor_ok : processor_ok newEventProcessor.
Proof. by split; cbn; auto. Qed.

(** ** Progress *)

(** The steps of the goroutine and the reader that are left before everything pushed has
    been received. *)
Definition to_go (e : eventProcessor) : nat :=
  8 * (length (batch e) + length (buff e)) +
  match at_ e with
  | Writing [] => 6
  | AfterBatch => 5
  | Locking | Woken => 4
  | Checking => 3
  | Writing _ => 2
  | _ => 0
  end.

Lemma moves_towards e a e' : a = ARun \/ a = AReceive -> processor_ok e -> done e = false ->
  batch e ++ buff e <> [] -> step a e = Some e' -> to_go e' < to_go e.
Proof.
  intros Ha [_ _ Hb _] Hd Hne He. destruct e as [b d p st pu re]. unfold to_go, batch in *. cbn in *. subst d.
  destruct Ha as [-> | ->]; cbn in He.
  - unfold run_step, go_to in He. cbn in He. destruct p as [| | | | |[|ev evs]| |]; simplify_eq; cbn; try lia.
    + destruct (length b =? 0) eqn:Hl; cbn in He; simplify_eq; cbn.
      * apply Nat.eqb_eq in Hl. by destruct b.
      * destruct b; cbn in *; [done|lia].
    + destruct Hne. cbn. by apply Hb; right.
  - unfold receive in He. cbn in He. destruct p as [| | | | |[|ev evs]| |]; simplify_eq. cbn. destruct evs; cbn; lia.
Qed.

Lemma some_move e : processor_ok e -> done e = false -> batch e ++ buff e <> [] ->
  is_Some (step ARun e) \/ is_Some (step AReceive e).
Proof.
  intros [_ Hrt Hb Ho] Hd Hne. destruct e as [b d p st pu re]. unfold batch in *. cbn in *. subst d.
  unfold run_step, receive. cbn. destruct p as [| | | | |[|ev evs]| |]; eauto.
  - destruct (_ && _); eauto.
  - destruct Hne. cbn. by apply Hb; left.
  - by discriminate Hrt.
Qed.

(** ** Stopping *)

Fixpoint run_alone (n : nat) (e : eventProcessor) : eventProcessor :=
  match n with
  | 0 => e
  | S n => match run_step e with Some e => run_alone n e | None => e end
  end.

(** Once stopped, a goroutine that is not waiting or about to wait is gone in six steps,
    whether or not anybody reads. *)
Lemma stops e : done e = true -> at_ e <> Asleep -> at_ e <> Parking -> at_ (run_alone 6 e) = Returned.
Proof.
  intros Hd H1 H2. destruct e as [b d p st pu re]. cbn in *. subst d.
  destruct p as [| | | | |[|ev evs]| |]; try done; cbn; rewrite ?andb_false_r; cbn; by destruct b.
Qed.

(** ** Properties *)

(** What comes out of an event processor is what went in, in order: at every moment,
    whatever the interleaving of the goroutine, the reader, the pushes and the stop, what
    was received is a beginning of what was pushed, and before the stop the rest is
    held.  Before the stop everything pushed is on its way: as long as something has not
    been received the goroutine can move or offers an event to the reader, and each of
    these moves brings the end nearer. *)
Theorem event_processor_relays l e :
  steps l newEventProcessor = Some e ->
  received e `prefix_of` pushed e /\
  (done e = false ->
     received e ++ batch e ++ buff e = pushed e /\
     (received e <> pushed e ->
        (is_Some (step ARun e) \/ is_Some (step AReceive e)) /\
        forall a e', a = ARun \/ a = AReceive -> step a e = Some e' -> to_go e' < to_go e)).
Proof.
  intros Hl. pose proof (steps_keep l _ e newEventProcessor_ok Hl) as Hok. split.
  - destruct (ok_order e Hok) as [<-|(_ & _ & Ho)]; [by apply prefix_app_r|done].
  - intros Hd. assert (Hor : received e ++ batch e ++ buff e = pushed e).
    { destruct (ok_order e Hok) as [?|(? & _)]; [done|congruence]. }
    split; [done|]. intros Hne. assert (Hx : batch e ++ buff e <> []).
    { intros Hx. by rewrite Hx, app_nil_r in Hor. }
    split; [by apply some_move|]. intros a e' Ha. by apply moves_towards.
Qed.

(** The goroutine is gone six steps after [stop], unless [stop] finds it between the test
    of its loop and the wait. *)
Theorem event_processor_stops l e e1 e2 :
  steps l newEventProcessor = Some e -> stop_ e = NotStopped ->
  step AStop e = Some e1 -> step AStop e1 = Some e2 -> at_ e <> Parking ->
  at_ (run_alone 6 e2) = Returned.
Proof.
  intros Hl Hs H1 H2 Hp. destruct e as [b d p st pu re]. cbn in *. subst st. cbn in H1. simplify_eq. cbn in H2. simplify_eq.
  apply stops; unfold Signal; destruct p; cbn; done.
Qed.

End processor.

Module samples.

(** The goroutine was asleep, is woken by the first push and has not yet taken the lock
    when the second comes... *)
Lemma event_processor_relays_witness :
  exists e, steps [ARun; ARun; ARun; APush 1%Z; APush 2%Z; ARun; ARun; AReceive] newEventProcessor = Some e /\
    received e = [1%Z] /\ received e `prefix_of` pushed e.
Proof.
  eexists. split; [reflexivity|]. split; [reflexivity|].
  apply (event_processor_relays [ARun; ARun; ARun; APush 1%Z; APush 2%Z; ARun; ARun; AReceive]). reflexivity.
Defined.

(** A lost wake-up: [stop] closes the channel and signals between the goroutine's test of
    its loop and its wait.  The goroutine then sleeps, the stop is over, and nothing
    but another push would wake it. *)
Definition leaked : option (eventProcessor (Ev:=Z)) :=
  steps [ARun; ARun; AStop; AStop; ARun] newEventProcessor.

Example stop_lost :
  exists e, leaked = Some e /\ done e = true /\ at_ e = Asleep /\
    step ARun e = None /\ step AReceive e = None /\ step AStop e = None.
Proof. eexists. split; [reflexivity|]. by repeat split. Qed.

End samples.
End EventProcessor.

(** ** Conditions over a watch (tools/watch/until.go) *)

Module Until.

Section until.
Context {Ev Err : Type}.

(** What the [select] of the loop finds: an event, the closed channel of the watch, or
    the end of the context. *)
Inductive choice : Type :=
| GotEvent (event : Ev)
| WatchClosed
| ContextDone.

Definition ConditionFunc : Type := Ev -> bool + Err.

Inductive until_error : Type :=
| ConditionError (e : Err)
| ErrWatchClosed
| ErrWaitTimeout.

(** The last event and the error; [Waiting]: the choices have run out. *)
Inductive outcome : Type :=
| Returns (lastEvent : option Ev) (err : option until_error)
| Waiting.

(** The loop of one condition: it returns, or goes on after the event that satisfied it. *)
Fixpoint await (condition : ConditionFunc) (choices : list choice) (lastEvent : option Ev)
    : outcome + (Ev * list choice) :=
  match choices with
  | [] => inl Waiting
  | GotEvent event :: choices =>
      match condition event with
      | inr e => inl (Returns (Some event) (Some (ConditionError e)))
      | inl true => inr (event, choices)
      | inl false => await condition choices (Some event)
      end
  | WatchClosed :: _ => inl (Returns lastEvent (Some ErrWatchClosed))
  | ContextDone :: _ => inl (Returns lastEvent (Some ErrWaitTimeout))
  end.

Fixpoint conditions_loop (conditions : list ConditionFunc) (choices : list choice) (lastEvent : option Ev) : outcome :=
  match conditions with
  | [] => Returns lastEvent None
  | condition :: conditions =>
      let go_on := match await condition choices lastEvent with
                   | inl out => out
                   | inr (event, choices) => conditions_loop conditions choices (Some event)
                   end in
      match lastEvent with
      | Some event =>
          match condition event with
          | inr e => Returns lastEvent (Some (ConditionError e))
          | inl true => conditions_loop conditions choices lastEvent
          | inl false => go_on
          end
      | None => go_on
      end
  end.

Definition UntilWithoutRetry (conditions : list ConditionFunc) (choices : list choice) : outcome :=
  conditions_loop conditions choices None.

(** [UntilWithSync]: whether the caches synced, and the precondition with what it says of
    the store.  [None] is a nil precondition. *)
Inductive sync_outcome : Type :=
| NotSynced
| PreconditionError (e : Err)
| PreconditionMet
| Watched (out : outcome).

Definition UntilWithSync {S} (synced : bool) (indexer : S) (precondition : option (S -> bool + Err))
    (conditions : list ConditionFunc) (choices : list choice) : sync_outcome :=
  match precondition with
  | None => Watched (UntilWithoutRetry conditions choices)
  | Some p =>
      if synced then
        match p indexer with
        | inr e => PreconditionError e
        | inl true => PreconditionMet
        | inl false => Watched (UntilWithoutRetry conditions choices)
        end
      else NotSynced
  end.

(** [ContextWithOptionalTimeout]: the timeout of the context, [None] for none. *)
Definition ContextWithOptionalTimeout (timeout : Z) : option Z :=
  let timeout := if (timeout <? 0)%Z then 0%Z else timeout in
  if decide (timeout = 0%Z) then None else Some timeout.

(** ** The reference: one pass over the events

    Each event satisfies as many conditions, in order, as it can. *)

Fixpoint satisfy (conditions : list ConditionFunc) (event : Ev) : list ConditionFunc + Err :=
  match conditions with
  | [] => inl []
  | condition :: rest =>
      match condition event with
      | inr e => inr e
      | inl true => satisfy rest event
      | inl false => inl conditions
      end
  end.

Fixpoint one_pass (conditions : list ConditionFunc) (choices : list choice) (lastEvent : option Ev) : outcome :=
  match conditions, choices with
  | [], _ => Returns lastEvent None
  | _, [] => Waiting
  | _, GotEvent event :: choices =>
      match satisfy conditions event with
      | inr e => Returns (Some event) (Some (ConditionError e))
      | inl rest => one_pass rest choices (Some event)
      end
  | _, WatchClosed :: _ => Returns lastEvent (Some ErrWatchClosed)
  | _, ContextDone :: _ => Returns lastEvent (Some ErrWaitTimeout)
  end.

Lemma satisfy_head condition conditions event rest :
  satisfy (condition :: conditions) event = inl rest ->
  condition event = inl false /\ rest = condition :: conditions \/
  condition event = inl true /\ satisfy conditions event = inl rest.
Proof. cbn. destruct (condition event) as [[|]|]; [by right|left; by simplify_eq|done]. Qed.

(** The conditions that are left after an event, seen from the loop. *)
Lemma loop_satisfies conditions choices event :
  conditions_loop conditions choices (Some event) =
    match satisfy conditions event with
    | inr e => Returns (Some event) (Some (ConditionError e))
    | inl [] => Returns (Some event) None
    | inl (condition :: rest) =>
        match await condition choices (Some event) with
        | inl out => out
        | inr (event', choices') => conditions_loop rest choices' (Some event')
        end
    end.
Proof.
  induction conditions as [|condition conditions IH]; [done|]. cbn.
  destruct (condition event) as [[|]|]; [by rewrite IH|done|done].
Qed.

Lemma one_pass_await condition rest choices lastEvent :
  one_pass (condition :: rest) choices lastEvent =
    match await condition choices lastEvent with
    | inl out => out
    | inr (event, choices') => conditions_loop rest choices' (Some event)
    end.
Proof.
  revert condition rest lastEvent. induction choices as [|ch choices IH]; intros condition rest lastEvent; [done|].
  destruct ch as [event| |]; [|done|done]. cbn [one_pass await satisfy].
  destruct (condition event) as [[|]|]; [|by rewrite IH|done].
  rewrite loop_satisfies. destruct (satisfy rest event) as [[|condition' rest']|]; [by destruct choices|by rewrite IH|done].
Qed.

(** Waiting for conditions one after the other, each looking at the last event first,
    is one pass over the events in which every event satisfies as many of the remaining
    conditions as it can: an error of a condition, the closing of the watch and the end
    of the context end it with the last event seen, and it succeeds at the first event
    that leaves no condition. *)
Theorem until_one_pass (conditions : list ConditionFunc) (choices : list choice) :
  UntilWithoutRetry conditions choices = one_pass conditions choices None.
Proof.
  unfold UntilWithoutRetry. destruct conditions as [|condition rest]; [by destruct choices|].
  symmetry. apply one_pass_await.
Qed.

End until.
End Until.
