(* ===== verification/TransportHeaders.v ===== *)
(** * Transport: the headers the round trippers write

    transport/round_trippers.go: the escaping of extra keys ([headerKeyEscape]), the
    headers of an authenticating proxy ([SetAuthProxyHeaders]) and of impersonation, and
    the masking of credentials in logs ([maskValue]).  A request is its header map; a map
    ranged over is read in any order.  [PathUnescape] is url.PathUnescape, with which the
    server reads the keys back. *)

From S2P Require Import Prelude Objects GoStrings GoUnicode.
From Stdlib Require Import Ascii.

(** [Header.Set]. *)
Definition Header_Set (key value : string) (h : Values) : Values :=
  <[CanonicalMIMEHeaderKey key := [value]]> h.

(** ** Escaping *)

Module Escape.

Definition legalHeaderKeyBytes : text :=
  chars "%!#$&'*+-.0123456789ABCDEFGHIJKLMNOPQRSTUWVXYZ^_`abcdefghijklmnopqrstuvwxyz|~".

(** The table has 127 entries. *)
Definition legalHeaderByte (b : ascii) : bool :=
  (byte_of b <? 127) && existsb (Ascii.eqb b) legalHeaderKeyBytes.

Definition shouldEscape (b : ascii) : bool := negb (legalHeaderByte b) || Ascii.eqb b "%".

Definition hex_digit (n : Z) : ascii := if n <? 10 then of_byte (rune "0" + n) else of_byte (rune "A" + n - 10).

(** The verb [%%%02X]. *)
Definition percent (b : ascii) : text := ["%"%char; hex_digit (byte_of b / 16); hex_digit (byte_of b mod 16)].

Fixpoint escape_bytes (t : text) : text :=
  match t with
  | [] => []
  | b :: t => (if shouldEscape b then percent b else [b]) ++ escape_bytes t
  end.

Definition headerKeyEscape (key : string) : string := str (escape_bytes (chars key)).

(** url.PathUnescape: an error unless each percent sign has two digits after it. *)
Fixpoint unescape_bytes (t : text) : option text :=
  match t with
  | [] => Some []
  | "%"%char :: t =>
      match t with
      | x :: y :: t => a ← unhex x; b ← unhex y; r ← unescape_bytes t; Some (of_byte (a * 16 + b) :: r)
      | _ => None
      end
  | c :: t => r ← unescape_bytes t; Some (c :: r)
  end.

Definition PathUnescape (s : string) : option string := str <$> unescape_bytes (chars s).

(** *** Lemmas *)

Lemma chars_app s t : chars (s +:+ t) = chars s ++ chars t.
Proof. induction s as [|c s IH]; [done|]. change (String c s +:+ t) with (String c (s +:+ t)). unfold chars, str in *. cbn. by rewrite IH. Qed.

Lemma chars_lower s : chars (strings_ToLower s) = map lower_char (chars s).
Proof. induction s as [|c s IH]; [done|]. unfold chars, str in *. cbn. by rewrite IH. Qed.

Lemma str_app s t : str (s ++ t) = str s +:+ str t.
Proof. induction s as [|c s IH]; [done|]. unfold chars, str in *. cbn. by rewrite IH. Qed.

Lemma chars_inj s t : chars s = chars t -> s = t.
Proof. intros H. by rewrite <- (str_chars s), <- (str_chars t), H. Qed.

Lemma all_chars_chars f s : all_chars f s = forallb f (chars s).
Proof. induction s as [|c s IH]; [done|]. unfold chars, str in *. cbn. by rewrite IH. Qed.

(** Both tables say what a byte of a token is. *)
Lemma legal_token b : legalHeaderByte b = token_char b.
Proof.
  pose proof (all_ascii_spec (fun b => Bool.eqb (legalHeaderByte b) (token_char b)) ltac:(by vm_compute) b) as H.
  by apply Bool.eqb_prop in H.
Qed.

Lemma percent_back b t :
  unescape_bytes (map lower_char (percent b) ++ t) = r ← unescape_bytes t; Some (b :: r).
Proof.
  pose (f := fun b : ascii => match unhex (lower_char (hex_digit (byte_of b / 16))), unhex (lower_char (hex_digit (byte_of b mod 16))) with
    | Some x, Some y => Ascii.eqb (of_byte (x * 16 + y)) b
    | _, _ => false
    end).
  pose proof (all_ascii_spec f ltac:(by vm_compute) b) as H. unfold f in H. cbn.
  destruct (unhex _) as [x|]; [|done]. destruct (unhex _) as [y|]; [|done]. apply Ascii.eqb_eq in H. cbn. by rewrite H.
Qed.

Lemma percent_token b : forallb token_char (percent b) = true.
Proof. apply (all_ascii_spec (fun b => forallb token_char (percent b))). by vm_compute. Qed.

Lemma plain_byte b : shouldEscape b = false -> lower_char b <> "%"%char /\ token_char b = true.
Proof.
  intros Hb.
  pose (f := fun b => shouldEscape b || (negb (Ascii.eqb (lower_char b) "%") && token_char b)).
  pose proof (all_ascii_spec f ltac:(by vm_compute) b) as H. unfold f in H. rewrite Hb in H.
  apply andb_true_iff in H as [H ?]. split; [|done]. intros He. by rewrite He in H.
Qed.

Lemma unescape_plain c t : c <> "%"%char -> unescape_bytes (c :: t) = r ← unescape_bytes t; Some (c :: r).
Proof. intros Hc. cbn. destruct c as [[] [] [] [] [] [] [] []]; done. Qed.

Lemma escape_bytes_token t : forallb token_char (escape_bytes t) = true.
Proof.
  induction t as [|b t IH]; [done|]. cbn [escape_bytes]. rewrite forallb_app, IH, andb_true_r.
  destruct (shouldEscape b) eqn:Hb; [apply percent_token|]. cbn. by rewrite (proj2 (plain_byte b Hb)).
Qed.

(** Reading back gives the lower-case key: the escapes themselves have no case. *)
Lemma escape_bytes_back t : map lower_char t = t -> unescape_bytes (map lower_char (escape_bytes t)) = Some t.
Proof.
  induction t as [|b t IH]; [done|]. cbn [map]. intros [= Hb Ht]. cbn [escape_bytes]. rewrite map_app.
  destruct (shouldEscape b) eqn:He; [by rewrite percent_back, (IH Ht)|].
  cbn [map app]. rewrite unescape_plain by apply (plain_byte b He). by rewrite (IH Ht), Hb.
Qed.

End Escape.

(** ** Headers of a user *)

Module UserHeaders.
Import Escape.

(** transport/config.go: [ImpersonationConfig]. *)
Record ImpersonationConfig : Type := mkImpersonationConfig {
  UserName : string;
  UID : string;
  Groups : list string;
  Extra : gmap string (list string)
}.

Definition ImpersonateUserHeader : string := "Impersonate-User".
Definition ImpersonateUIDHeader : string := "Impersonate-Uid".
Definition ImpersonateGroupHeader : string := "Impersonate-Group".
Definition ImpersonateUserExtraHeaderPrefix : string := "Impersonate-Extra-".

Section user_headers.
Context `{MapRange}.

(** The last loops of [SetAuthProxyHeaders] and of the impersonating [RoundTrip]. *)
Definition add_groups (key : string) (groups : list string) (h : Values) : Values :=
  fold_left (fun h group => Header_Add key group h) groups h.

Definition add_extra (prefix : string) (extra : gmap string (list string)) (h : Values) : Values :=
  fold_left (fun h '(key, values) =>
    fold_left (fun h value => Header_Add (prefix +:+ headerKeyEscape key) value h) values h) (range extra) h.

Definition SetAuthProxyHeaders (h : Values) (username : string) (groups : list string)
    (extra : gmap string (list string)) : Values :=
  let h := Header_Del "X-Remote-User" h in
  let h := Header_Del "X-Remote-Group" h in
  let h := fold_left (fun h key =>
    if strings_HasPrefix (strings_ToLower key) (strings_ToLower "X-Remote-Extra-") then Header_Del key h else h)
    (range h).*1 h in
  let h := Header_Set "X-Remote-User" username h in
  let h := add_groups "X-Remote-Group" groups h in
  add_extra "X-Remote-Extra-" extra h.

(** What [impersonatingRoundTripper.RoundTrip] writes. *)
Definition impersonation_headers (c : ImpersonationConfig) (h : Values) : Values :=
  let h := Header_Set ImpersonateUserHeader (UserName c) h in
  let h := if decide (UID c = "") then h else Header_Set ImpersonateUIDHeader (UID c) h in
  let h := add_groups ImpersonateGroupHeader (Groups c) h in
  add_extra ImpersonateUserExtraHeaderPrefix (Extra c) h.

(** *** What a server reads: the reference *)

Definition read_extra (prefix hk : string) : option string :=
  if strings_HasPrefix (strings_ToLower hk) (strings_ToLower prefix)
  then PathUnescape (strings_TrimPrefix (strings_ToLower hk) (strings_ToLower prefix)) else None.

Definition read_extras (prefix : string) (h : Values) : list (string * list string) :=
  omap (fun '(hk, vs) => k ← read_extra prefix hk; Some (k, vs)) (range h).

Record User : Type := mkUser { name : string; groups : list string; extra : gmap string (list string) }.

Definition read_user (user group prefix : string) (h : Values) : User :=
  mkUser (Header_Get user h) (default [] (h !! CanonicalMIMEHeaderKey group)) (list_to_map (read_extras prefix h)).

Definition canonical (h : Values) : Prop := forall k, is_Some (h !! k) -> CanonicalMIMEHeaderKey k = k.
Definition lower_keys (e : gmap string (list string)) : Prop := forall k, is_Some (e !! k) -> strings_ToLower k = k.

(** *** Lemmas *)

Lemma lower_canonical_chars s : forall u, strings_ToLower (canonical_chars u s) = strings_ToLower s.
Proof.
  induction s as [|c s IH]; intros u; [done|]. cbn. rewrite IH. f_equal.
  pose (f := fun c => Ascii.eqb (lower_char (upper_char c)) (lower_char c) && Ascii.eqb (lower_char (lower_char c)) (lower_char c)).
  pose proof (all_ascii_spec f ltac:(by vm_compute) c) as Hc. unfold f in Hc.
  apply andb_true_iff in Hc as [H1%Ascii.eqb_eq H2%Ascii.eqb_eq]. by destruct u.
Qed.

Lemma lower_canonical s : strings_ToLower (CanonicalMIMEHeaderKey s) = strings_ToLower s.
Proof. unfold CanonicalMIMEHeaderKey. destruct (all_chars _ s); [apply lower_canonical_chars|done]. Qed.

Lemma lower_app s t : strings_ToLower (s +:+ t) = strings_ToLower s +:+ strings_ToLower t.
Proof. apply chars_inj. by rewrite chars_app, !chars_lower, chars_app, map_app. Qed.

Definition extra_key (prefix k : string) : string := CanonicalMIMEHeaderKey (prefix +:+ headerKeyEscape k).

Lemma extra_key_prefix prefix k :
  strings_HasPrefix (strings_ToLower (extra_key prefix k)) (strings_ToLower prefix) = true.
Proof. unfold extra_key. rewrite lower_canonical, lower_app. apply prefix_app. Qed.

Lemma read_extra_key prefix k : strings_ToLower k = k -> read_extra prefix (extra_key prefix k) = Some k.
Proof.
  intros Hk. unfold read_extra. rewrite extra_key_prefix. unfold extra_key.
  rewrite lower_canonical, lower_app, trim_app. unfold PathUnescape. rewrite chars_lower.
  unfold headerKeyEscape. rewrite chars_str, escape_bytes_back by (by rewrite <- chars_lower, Hk).
  cbn. by rewrite str_chars.
Qed.

(** The values that a list of additions gives to one key. *)
Definition values_at (hk : string) (adds : list (string * string)) : list string :=
  snd <$> filter (fun kv => CanonicalMIMEHeaderKey kv.1 = hk) adds.

Definition add_all (adds : list (string * string)) (h : Values) : Values :=
  fold_left (fun h kv => Header_Add kv.1 kv.2 h) adds h.

Lemma add_all_lookup adds hk : forall h,
  add_all adds h !! hk =
    match values_at hk adds with [] => h !! hk | vs => Some (default [] (h !! hk) ++ vs) end.
Proof.
  unfold values_at. induction adds as [|[k v] adds IH]; intros h; [done|]. cbn [add_all fold_left].
  change (fold_left _ adds ?h') with (add_all adds h'). rewrite IH, filter_cons. cbn.
  unfold Header_Add, Values_Add. case_decide as Hk.
  - subst hk. rewrite lookup_insert_eq. cbn. destruct (snd <$> _); [done|]. by rewrite <- app_assoc.
  - by rewrite lookup_insert_ne.
Qed.

Definition extra_adds (prefix : string) (kvs : list (string * list string)) : list (string * string) :=
  kvs ≫= fun '(k, vs) => (fun v => (prefix +:+ headerKeyEscape k, v)) <$> vs.

Lemma add_extra_all prefix e h : add_extra prefix e h = add_all (extra_adds prefix (range e)) h.
Proof.
  unfold add_extra. revert h. generalize (range e). induction l as [|[k vs] l IH]; intros h; [done|].
  cbn [fold_left]. rewrite IH. unfold add_all, extra_adds. cbn [mbind list_bind]. rewrite fold_left_app. f_equal.
  clear. revert h. induction vs as [|v vs IH]; intros h; [done|]. cbn. apply IH.
Qed.

Lemma add_groups_all key gs h : add_groups key gs h = add_all ((fun g => (key, g)) <$> gs) h.
Proof. unfold add_groups, add_all. revert h. induction gs as [|g gs IH]; intros h; [done|]. cbn. apply IH. Qed.

Lemma values_at_groups key gs : values_at (CanonicalMIMEHeaderKey key) ((fun g => (key, g)) <$> gs) = gs.
Proof. unfold values_at. induction gs as [|g gs IH]; [done|]. rewrite fmap_cons, filter_cons, decide_True by done. cbn. by f_equal. Qed.

Lemma values_at_none hk adds : (forall kv, kv ∈ adds -> CanonicalMIMEHeaderKey kv.1 <> hk) -> values_at hk adds = [].
Proof.
  intros Hn. unfold values_at. rewrite list_filter_none; [done|]. apply Forall_forall. exact Hn.
Qed.

Lemma values_at_app hk l l' : values_at hk (l ++ l') = values_at hk l ++ values_at hk l'.
Proof. unfold values_at. by rewrite filter_app, fmap_app. Qed.

Lemma elem_of_extra_adds prefix kvs kv : kv ∈ extra_adds prefix kvs ->
  exists k vs, (k, vs) ∈ kvs /\ CanonicalMIMEHeaderKey kv.1 = extra_key prefix k /\ vs <> [].
Proof.
  unfold extra_adds. intros ([k vs] & Hkv & Hk)%list_elem_of_bind. exists k, vs.
  apply list_elem_of_fmap in Hkv as (v & -> & Hv). split_and!; try done. intros ->. by apply elem_of_nil in Hv.
Qed.

Lemma values_at_extra prefix k vs kvs :
  NoDup kvs.*1 -> Forall (fun kv => strings_ToLower kv.1 = kv.1) kvs -> (k, vs) ∈ kvs ->
  values_at (extra_key prefix k) (extra_adds prefix kvs) = vs.
Proof.
  induction kvs as [|[k' vs'] kvs IH]; [by intros _ _ ?%elem_of_nil|].
  cbn [fmap list_fmap]. intros [Hk' Hd]%NoDup_cons [Hl' Hl]%Forall_cons Hin.
  change (extra_adds prefix ((k', vs') :: kvs)) with (((fun v => (prefix +:+ headerKeyEscape k', v)) <$> vs') ++ extra_adds prefix kvs).
  rewrite values_at_app. apply elem_of_cons in Hin as [[= -> ->]|Hin].
  - unfold extra_key at 1. rewrite values_at_groups, values_at_none; [by rewrite app_nil_r|].
    intros kv (k1 & vs1 & Hk1 & -> & _)%elem_of_extra_adds He. rewrite Forall_forall in Hl.
    pose proof (read_extra_key prefix k1 (Hl _ Hk1)) as H1. rewrite He, (read_extra_key prefix k' Hl') in H1.
    injection H1 as ->. apply Hk'. by apply list_elem_of_fmap_2 with (f := fst) in Hk1.
  - rewrite IH by done. rewrite values_at_none; [done|].
    intros kv (v & -> & _)%list_elem_of_fmap He. change (extra_key prefix k' = extra_key prefix k) in He.
    rewrite Forall_forall in Hl. pose proof (read_extra_key prefix k (Hl _ Hin)) as H1.
    rewrite <- He, (read_extra_key prefix k' Hl') in H1. injection H1 as ->.
    apply Hk'. by apply list_elem_of_fmap_2 with (f := fst) in Hin.
Qed.

Definition prefixed (prefix hk : string) : bool :=
  strings_HasPrefix (strings_ToLower hk) (strings_ToLower prefix).

Lemma lower_all e : lower_keys e -> Forall (fun kv : string * list string => strings_ToLower kv.1 = kv.1) (range e).
Proof. intros He. apply Forall_forall. intros [k vs] Hk%elem_of_range. apply He. by eexists. Qed.

Lemma extras_elsewhere prefix e hk h : prefixed prefix hk = false -> add_extra prefix e h !! hk = h !! hk.
Proof.
  intros Hp. rewrite add_extra_all, add_all_lookup, values_at_none; [done|].
  intros kv (k & vs & _ & -> & _)%elem_of_extra_adds <-. unfold prefixed in Hp. by rewrite extra_key_prefix in Hp.
Qed.

Lemma groups_lookup key gs hk h :
  add_groups key gs h !! hk =
    if decide (CanonicalMIMEHeaderKey key = hk) then match gs with [] => h !! hk | _ => Some (default [] (h !! hk) ++ gs) end
    else h !! hk.
Proof.
  rewrite add_groups_all, add_all_lookup. case_decide as Hk.
  - subst hk. rewrite values_at_groups. by destruct gs.
  - rewrite values_at_none; [done|]. by intros kv (v & -> & _)%list_elem_of_fmap.
Qed.

(** The keys below a prefix that was free: one for each key of the map that has values. *)
Lemma extras_lookup prefix e h hk vs :
  lower_keys e -> prefixed prefix hk = true -> h !! hk = None ->
  add_extra prefix e h !! hk = Some vs <-> exists k, e !! k = Some vs /\ vs <> [] /\ hk = extra_key prefix k.
Proof.
  intros He Hp Hh. rewrite add_extra_all, add_all_lookup, Hh. split.
  - destruct (values_at hk _) as [|v vs'] eqn:Hv; [done|]. intros [= <-]. cbn [default app].
    assert (Hin : exists kv, kv ∈ extra_adds prefix (range e) /\ CanonicalMIMEHeaderKey kv.1 = hk).
    { assert (Hin : v ∈ values_at hk (extra_adds prefix (range e))) by (rewrite Hv; left).
      unfold values_at in Hin. apply list_elem_of_fmap in Hin as (kv & _ & [? ?]%list_elem_of_filter). by exists kv. }
    destruct Hin as (kv & (k & ws & Hk & Hkv & Hws)%elem_of_extra_adds & Hhk). exists k.
    rewrite Hkv in Hhk. subst hk.
    rewrite (values_at_extra prefix k ws) in Hv by (by apply NoDup_fst_range || by apply lower_all || done).
    subst ws. by apply elem_of_range in Hk.
  - intros (k & Hk & Hvs & ->).
    rewrite (values_at_extra prefix k vs) by (by apply NoDup_fst_range || by apply lower_all || by apply elem_of_range).
    by destruct vs.
Qed.

(** The server reads back what was written below a prefix that was free. *)
Lemma extras_read prefix e h :
  lower_keys e -> (forall hk, prefixed prefix hk = true -> h !! hk = None) ->
  list_to_map (read_extras prefix (add_extra prefix e h)) = filter (fun kv => kv.2 <> []) e.
Proof.
  intros He Hh.
  assert (Hr : forall k vs, (k, vs) ∈ read_extras prefix (add_extra prefix e h) <-> e !! k = Some vs /\ vs <> []).
  { intros k vs. unfold read_extras. rewrite list_elem_of_omap. split.
    - intros ([hk vs'] & Hk%elem_of_range & Hin). destruct (read_extra prefix hk) as [k'|] eqn:Hr; [|done].
      injection Hin as -> ->. assert (Hp : prefixed prefix hk = true).
      { unfold read_extra in Hr. unfold prefixed. by destruct (strings_HasPrefix _ _). }
      apply extras_lookup in Hk as (k' & Hk' & Hvs & ->); [|done|done|by apply Hh].
      rewrite read_extra_key in Hr by (apply He; by eexists). by injection Hr as ->.
    - intros [Hk Hvs]. exists (extra_key prefix k, vs). rewrite elem_of_range, read_extra_key by (apply He; by eexists).
      split; [|done]. apply extras_lookup; [done|apply extra_key_prefix|apply Hh, extra_key_prefix|]. by exists k. }
  apply map_eq. intros k. apply option_eq. intros vs. rewrite map_lookup_filter_Some. cbn. split.
  - intros Hk%elem_of_list_to_map_2. by apply Hr.
  - intros Hk. apply elem_of_list_to_map_1'; [|by apply Hr]. intros vs' [Hk' _]%Hr. destruct Hk as [Hk _]. congruence.
Qed.

Lemma deletions_lookup (P : string -> bool) keys hk : forall h,
  fold_left (fun h key => if P key then Header_Del key h else h) keys h !! hk =
    if decide (Exists (fun k => P k = true /\ CanonicalMIMEHeaderKey k = hk) keys) then None else h !! hk.
Proof.
  induction keys as [|k keys IH]; intros h; cbn [fold_left].
  - rewrite decide_False; [done|]. by intros ?%Exists_nil.
  - rewrite IH. unfold Header_Del.
    destruct (P k) eqn:Hk; [destruct (decide (CanonicalMIMEHeaderKey k = hk)) as [<-|Hne]|];
      repeat case_decide; rewrite ?Exists_cons in *; rewrite ?lookup_delete_eq, ?lookup_delete_ne by done;
      try done; exfalso; intuition congruence.
Qed.

(** The same of impersonation, on a request that does not impersonate yet. *)
Lemma impersonation_user_round_trip c h :
  lower_keys (Extra c) ->
  h !! ImpersonateGroupHeader = None -> (forall hk, prefixed ImpersonateUserExtraHeaderPrefix hk = true -> h !! hk = None) ->
  read_user ImpersonateUserHeader ImpersonateGroupHeader ImpersonateUserExtraHeaderPrefix (impersonation_headers c h) =
    mkUser (UserName c) (Groups c) (filter (fun kv => kv.2 <> []) (Extra c)).
Proof.
  intros He Hg Hfree. unfold impersonation_headers.
  set (h1 := Header_Set ImpersonateUserHeader (UserName c) h).
  set (h2 := if decide (UID c = "") then h1 else _).
  assert (H2 : forall hk, hk <> ImpersonateUIDHeader -> h2 !! hk = h1 !! hk).
  { intros hk Hk. unfold h2. case_decide; [done|]. unfold Header_Set. apply lookup_insert_ne. by intros <-. }
  assert (H1 : forall hk, hk <> ImpersonateUserHeader -> h1 !! hk = h !! hk).
  { intros hk Hk. unfold h1, Header_Set. apply lookup_insert_ne. by intros <-. }
  unfold read_user. f_equal.
  - unfold Header_Get. rewrite extras_elsewhere, groups_lookup, decide_False by done.
    rewrite H2 by done. unfold h1, Header_Set. by rewrite lookup_insert_eq.
  - rewrite extras_elsewhere, groups_lookup, decide_True by done.
    change (CanonicalMIMEHeaderKey ImpersonateGroupHeader) with ImpersonateGroupHeader.
    rewrite H2, H1, Hg by done. by destruct (Groups c).
  - apply extras_read; [done|]. intros hk Hp. rewrite groups_lookup, decide_False by (by intros <-).
    rewrite H2, H1 by (by intros ->). by apply Hfree.
Qed.

(** C30: whatever the request carried, a server reads from the headers of
    [SetAuthProxyHeaders] exactly the given user: the name, the groups in their order and
    the extra keys that have values, each with its values and its bytes intact, and the
    other headers stay as they were.  The header map is canonical, the extra keys are in
    lower case, as the comment of the constructor demands. *)
Theorem proxy_user_round_trip h username groups extra :
  canonical h -> lower_keys extra ->
  let h' := SetAuthProxyHeaders h username groups extra in
  read_user "X-Remote-User" "X-Remote-Group" "X-Remote-Extra-" h' =
    mkUser username groups (filter (fun kv => kv.2 <> []) extra) /\
  forall hk, hk <> "X-Remote-User" -> hk <> "X-Remote-Group" -> prefixed "X-Remote-Extra-" hk = false -> h' !! hk = h !! hk.
Proof.
  intros Hh He. cbn zeta. unfold SetAuthProxyHeaders.
  set (h1 := Header_Del "X-Remote-Group" (Header_Del "X-Remote-User" h)).
  set (h2 := fold_left _ (range h1).*1 h1).
  set (h3 := Header_Set "X-Remote-User" username h2).
  assert (H1 : h1 !! "X-Remote-Group" = None) by apply lookup_delete_eq.
  assert (Hfree : forall hk, prefixed "X-Remote-Extra-" hk = true -> h2 !! hk = None).
  { intros hk Hp. unfold h2. rewrite deletions_lookup. case_decide as Hd; [done|].
    destruct (h1 !! hk) as [vs|] eqn:Hk; [|done]. destruct Hd. apply Exists_exists. exists hk.
    split; [apply elem_of_range_keys; by eexists|]. split; [done|]. apply Hh.
    unfold h1, Header_Del in Hk. apply lookup_delete_Some in Hk as [_ Hk]. apply lookup_delete_Some in Hk as [_ Hk]. by exists vs. }
  assert (Hkept : forall hk, prefixed "X-Remote-Extra-" hk = false -> h2 !! hk = h1 !! hk).
  { intros hk Hp. unfold h2. rewrite deletions_lookup. case_decide as Hd; [|done].
    apply Exists_exists in Hd as (k & _ & Hk & <-). unfold prefixed in Hp. rewrite lower_canonical in Hp. cbv beta in Hk. congruence. }
  assert (Hset : forall hk, hk <> "X-Remote-User" -> h3 !! hk = h2 !! hk).
  { intros hk Hk. unfold h3, Header_Set. by apply lookup_insert_ne. }
  split.
  - unfold read_user. f_equal.
    + unfold Header_Get. rewrite extras_elsewhere, groups_lookup, decide_False by done.
      unfold h3, Header_Set. by rewrite lookup_insert_eq.
    + rewrite extras_elsewhere, groups_lookup, decide_True by done.
      change (CanonicalMIMEHeaderKey "X-Remote-Group") with "X-Remote-Group".
      rewrite Hset, Hkept, H1 by done. by destruct groups.
    + apply extras_read; [done|]. intros hk Hp. rewrite groups_lookup, decide_False by (by intros <-).
      rewrite Hset by (by intros ->). by apply Hfree.
  - intros hk Hu Hg Hp. rewrite extras_elsewhere, groups_lookup, decide_False by (done || by intros <-; apply Hg).
    rewrite Hset, Hkept by done. unfold h1, Header_Del.
    rewrite !lookup_delete_ne by (intros <-; by (apply Hu || apply Hg)). done.
Qed.

End user_headers.

(** A proxied request with an older user, at one order of the maps. *)
Definition sample_extra : gmap string (list string) := {["acme.com/scope%" := ["a"; "b"]; "x" := []]}.
Definition sample_request : Values := {["X-Remote-User" := ["root"]; "X-Remote-Extra-Acme.com%2fscope%25" := ["all"]; "Accept" := ["*"]]}.

(** Decided by looking at the keys. *)
Definition canonical_dec (h : Values) : bool := forallb (fun kv => bool_decide (CanonicalMIMEHeaderKey kv.1 = kv.1)) (map_to_list h).
Definition lower_dec (e : gmap string (list string)) : bool := forallb (fun kv => bool_decide (strings_ToLower kv.1 = kv.1)) (map_to_list e).

Lemma canonical_by h : canonical_dec h = true -> canonical h.
Proof.
  unfold canonical_dec. rewrite forallb_forall. intros Hf k [vs Hk].
  specialize (Hf (k, vs)). rewrite bool_decide_eq_true in Hf. apply Hf, list_elem_of_In. by apply elem_of_map_to_list.
Qed.

Lemma lower_by e : lower_dec e = true -> lower_keys e.
Proof.
  unfold lower_dec. rewrite forallb_forall. intros Hf k [vs Hk].
  specialize (Hf (k, vs)). rewrite bool_decide_eq_true in Hf. apply Hf, list_elem_of_In. by apply elem_of_map_to_list.
Qed.

Lemma proxy_user_round_trip_witness :
  canonical sample_request /\ lower_keys sample_extra /\
  let h' := SetAuthProxyHeaders (H := range_in_key_order) sample_request "jane" ["dev"; "ops"] sample_extra in
  h' !! "X-Remote-Extra-Acme.com%2fscope%25" = Some ["a"; "b"] /\ h' !! "Accept" = Some ["*"] /\
  read_user (H := range_in_key_order) "X-Remote-User" "X-Remote-Group" "X-Remote-Extra-" h' =
    mkUser "jane" ["dev"; "ops"] (filter (fun kv => kv.2 <> []) sample_extra).
Proof.
  assert (Hc : canonical sample_request) by (apply canonical_by; by vm_compute).
  assert (Hl : lower_keys sample_extra) by (apply lower_by; by vm_compute).
  split; [done|]. split; [done|]. split; [by vm_compute|]. split; [by vm_compute|].
  apply (proxy_user_round_trip (H := range_in_key_order) sample_request "jane" ["dev"; "ops"] sample_extra Hc Hl).
Defined.

(** The loop of [SetAuthProxyHeaders] looks at the lower case of a key but deletes its
    canonical form: a key that is not canonical survives, and so does a user header. *)
Example raw_keys_survive :
  SetAuthProxyHeaders (H := range_in_key_order)
    {["x-remote-extra-scope" := ["all"]; "x-remote-user" := ["root"]]} "jane" [] ∅ =
    {["x-remote-extra-scope" := ["all"]; "x-remote-user" := ["root"]; "X-Remote-User" := ["jane"]]}.
Proof. by vm_compute. Qed.

End UserHeaders.

(** ** What the logs show *)

Module Masking.
Import Escape.

(** [strings.EqualFold]; the fixed side has no letter that folds to one beyond ASCII. *)
Definition strings_EqualFold (s t : string) : bool := String.eqb (strings_ToLower s) (strings_ToLower t).

(** [strings.Index(value, " ")]. *)
Fixpoint index_space (t : text) : option nat :=
  match t with
  | [] => None
  | c :: t => if Ascii.eqb c " " then Some 0%nat else S <$> index_space t
  end.

Definition knownAuthTypes (s : string) : bool := existsb (String.eqb s) ["bearer"; "basic"; "negotiate"].

Definition maskValue (key value : string) : string :=
  if negb (strings_EqualFold key "Authorization") then value
  else if decide (value = "") then ""
  else
    let authType :=
      match index_space (chars value) with
      | Some (S i) => str (take (S i) (chars value))
      | _ => value
      end in
    if negb (knownAuthTypes (strings_ToLower authType)) then "<masked>"
    else if (String.length authType + 1 <? String.length value)%nat then authType +:+ " <masked>"
    else authType.

Record requestInfo : Type := mkRequestInfo {
  RequestHeaders : Values;
  RequestVerb : string;
  RequestURL : string
}.

Section logs.
Context `{MapRange}.
(** strconv.Quote, the verb [%q]. *)
Variable Quote : string -> string.

(** [for key, values := range headers { for _, value := range values { ... } }] *)
Definition each_header (headers : Values) (f : string -> string -> string) : list string :=
  range headers ≫= fun '(key, values) => (fun value => f key value) <$> values.

Definition toCurl (r : requestInfo) : string :=
  let headers := each_header (RequestHeaders r) (fun key value => " -H " +:+ Quote (key +:+ ": " +:+ maskValue key value)) in
  "curl -v -X" +:+ RequestVerb r +:+ " " +:+ fold_left String.app headers "" +:+ " '" +:+ RequestURL r +:+ "'".

(** The lines logged before the request is sent, by level. *)
Definition request_lines (just_url curl_command request_headers : bool) (r : requestInfo) : list string :=
  (if just_url then [RequestVerb r +:+ " " +:+ RequestURL r] else []) ++
  (if curl_command then [toCurl r] else []) ++
  (if request_headers
   then "Request Headers:" :: each_header (RequestHeaders r) (fun key value => "    " +:+ key +:+ ": " +:+ maskValue key value)
   else []).

(** What may be known of a value: its scheme, and whether anything comes after it. *)
Definition public (key value : string) : string :=
  if strings_EqualFold key "Authorization" then
    match index_space (chars value) with
    | Some (S i) =>
        let scheme := str (take (S i) (chars value)) in
        if knownAuthTypes (strings_ToLower scheme)
        then if (String.length scheme + 1 <? String.length value)%nat then scheme +:+ " ?" else scheme else "?"
    | _ => if decide (value = "") then "" else if knownAuthTypes (strings_ToLower value) then value else "?"
    end
  else value.

Definition public_headers (h : list (string * list string)) : list (string * list string) :=
  (fun kv => (kv.1, map (public kv.1) kv.2)) <$> h.

Lemma length_str t : String.length (str t) = length t.
Proof. induction t as [|c t IH]; [done|]. unfold str in *. cbn. by rewrite IH. Qed.

Lemma length_chars s : length (chars s) = String.length s.
Proof. by rewrite <- length_str, str_chars. Qed.

(** A masked value is a function of what may be known. *)
Definition mask_public (p : string) : string :=
  match index_space (chars p) with
  | Some i => str (take i (chars p)) +:+ " <masked>"
  | None => if decide (p = "?") then "<masked>" else p
  end.

Lemma index_space_app s t : index_space (chars s) = None -> index_space (chars (s +:+ String " " t)) = Some (String.length s).
Proof.
  induction s as [|c s IH]; [done|].
  change (chars (String c s +:+ String " " t)) with (c :: chars (s +:+ String " " t)). cbn [chars String.list_ascii_of_string index_space].
  change (String.list_ascii_of_string s) with (chars s). destruct (Ascii.eqb c " "); [done|].
  destruct (index_space (chars s)) eqn:Hs; [done|]. intros _. by rewrite IH.
Qed.

Lemma index_space_take t n : index_space t = Some n -> index_space (take n t) = None.
Proof.
  revert n. induction t as [|c t IH]; intros n; [done|]. cbn.
  destruct (Ascii.eqb c " ") eqn:Hc; [by intros [= <-]|]. destruct (index_space t) as [m|] eqn:Ht; [|done].
  intros [= <-]. cbn. by rewrite Hc, (IH m).
Qed.

Lemma known_not_hidden s : knownAuthTypes (strings_ToLower s) = true -> s <> "?" /\ s <> "" /\ index_space (chars s) = None.
Proof.
  intros Hs. split_and!; [by intros ->|by intros ->|].
  assert (Hl : index_space (map lower_char (chars s)) = None).
  { rewrite <- chars_lower. unfold knownAuthTypes in Hs. cbn in Hs.
    repeat (apply orb_true_iff in Hs as [->%String.eqb_eq|Hs]; [by vm_compute|]). done. }
  induction (chars s) as [|c t IH]; [done|]. cbn in *.
  destruct (Ascii.eqb c " ") eqn:Hc; [apply Ascii.eqb_eq in Hc as ->; done|].
  destruct (Ascii.eqb (lower_char c) " "); [done|].
  destruct (index_space (map _ t)); [done|]. by rewrite IH.
Qed.

Lemma mask_of_public key value :
  strings_EqualFold key "Authorization" = true -> maskValue key value = mask_public (public key value).
Proof.
  intros Hk. unfold maskValue, public. rewrite Hk. cbn [negb].
  case_decide as He; [by rewrite He|].
  destruct (index_space (chars value)) as [[|i]|] eqn:Hi.
  - destruct (knownAuthTypes _) eqn:Hs; [|done]. apply known_not_hidden in Hs as (_ & _ & Hs). congruence.
  - destruct (knownAuthTypes _) eqn:Hs; [|done]. apply known_not_hidden in Hs as (Hq & Hn & Hs). cbn [negb].
    destruct (_ <? _)%nat; unfold mask_public.
    + change (" ?") with (String " " "?"). rewrite index_space_app, chars_app by done.
      by rewrite <- length_chars, take_app_length, str_chars.
    + rewrite Hs. by case_decide.
  - destruct (knownAuthTypes _) eqn:Hs; [|done]. apply known_not_hidden in Hs as (Hq & Hn & Hs). cbn [negb].
    replace (_ <? _)%nat with false by (symmetry; apply Nat.ltb_ge; lia).
    unfold mask_public. rewrite Hs. by case_decide.
Qed.

Lemma maskValue_public key v v' : public key v = public key v' -> maskValue key v = maskValue key v'.
Proof.
  intros Hp. destruct (strings_EqualFold key "Authorization") eqn:Hk; [by rewrite !mask_of_public, Hp|].
  unfold public in Hp. rewrite Hk in Hp. by rewrite Hp.
Qed.

Lemma each_header_public h h' (f : string -> string -> string) :
  (forall key v v', public key v = public key v' -> f key v = f key v') ->
  public_headers (range h) = public_headers (range h') -> each_header h f = each_header h' f.
Proof.
  intros Hf. unfold each_header, public_headers. generalize (range h') as l'.
  induction (range h) as [|[k vs] l IH]; intros [|[k' vs'] l'] Hl; try done.
  cbn in Hl. injection Hl as -> Hv Hl. cbn. rewrite (IH l' Hl). f_equal. clear IH Hl. revert vs' Hv.
  induction vs as [|v vs IH]; intros [|v' vs'] Hv; try done. cbn in Hv. injection Hv as Hv Hvs. cbn.
  by rewrite (Hf _ _ _ Hv), (IH _ Hvs).
Qed.

(** C31: the lines logged for a request do not depend on its credentials: two requests
    whose headers, read in one order, differ only in what follows the scheme of an
    Authorization header, or in a whole value whose scheme is not a known one, give the
    same lines at every level, the curl command included. *)
Theorem logs_hide_credentials h h' verb url just_url curl_command request_headers :
  public_headers (range h) = public_headers (range h') ->
  request_lines just_url curl_command request_headers (mkRequestInfo h verb url) =
  request_lines just_url curl_command request_headers (mkRequestInfo h' verb url).
Proof.
  intros Hp. unfold request_lines, toCurl. cbn.
  rewrite !(fun f Hf => each_header_public h h' f Hf Hp) by (intros key v v' Hv; by rewrite (maskValue_public key v v')).
  done.
Qed.

End logs.

(** Two tokens give one text; a scheme that is not known is masked as a whole. *)
Lemma logs_hide_credentials_witness :
  let h token := {["Authorization" := ["Bearer " +:+ token]; "Accept" := ["*"]]} : Values in
  public_headers (range (MapRange := range_in_key_order) (h "secret")) = public_headers (range (MapRange := range_in_key_order) (h "other")) /\
  request_lines (H := range_in_key_order) id false false true (mkRequestInfo (h "secret") "GET" "/api") =
    ["Request Headers:"; "    Accept: *"; "    Authorization: Bearer <masked>"] /\
  request_lines (H := range_in_key_order) id true true true (mkRequestInfo (h "secret") "GET" "/api") =
    request_lines (H := range_in_key_order) id true true true (mkRequestInfo (h "other") "GET" "/api").
Proof.
  cbv zeta. split; [by vm_compute|]. split; [by vm_compute|].
  apply (logs_hide_credentials (H := range_in_key_order) id). by vm_compute.
Defined.

Example masks :
  map (maskValue "authorization") ["Bearer x"; "Bearer "; "Digest abc def"; "token"; " token"; "NEGOTIATE  x"] =
    ["Bearer <masked>"; "Bearer"; "<masked>"; "<masked>"; "<masked>"; "NEGOTIATE <masked>"].
Proof. by vm_compute. Qed.

End Masking.
