(* ===== verification/Transport.v ===== *)
(** * Transport: the round trippers of a client

    transport/config.go, transport/round_trippers.go, transport/token_source.go and the
    wrappers of transport/transport.go.  A request is a pointer: the world holds the
    headers of every request, [CloneRequest] makes a new one, and a round tripper is
    a computation on the world.  The answers of the network, the clock and the files
    are functions of the moment, which every use of them moves on.  Headers and masking
    are in TransportHeaders. *)

From S2P Require Import Prelude Objects GoStrings GoUnicode TransportHeaders.
From Stdlib Require Import Ascii.
From stdpp Require Import pretty.
#[local] Open Scope Z_scope.
Import Escape UserHeaders Masking.

(** ** Standard library *)

(** The runes of [unicode.IsSpace] in UTF-8; [strings.TrimSpace] takes them off both ends. *)
Definition spaces : list text :=
  map EncodeRune ([9; 10; 11; 12; 13; 32; 133; 160; 5760]%Z ++ map (fun i => 8192 + Z.of_nat i)%Z (seq 0 11) ++
    [8232; 8233; 8239; 8287; 12288]%Z).

Definition strip (t : text) : option text :=
  s ← List.find (fun s => bool_decide (take (length s) t = s)) spaces; Some (drop (length s) t).

Definition strip_end (t : text) : option text :=
  s ← List.find (fun s => bool_decide (drop (length t - length s) t = s)) spaces; Some (take (length t - length s) t).

Fixpoint strip_all (f : text -> option text) (fuel : nat) (t : text) : text :=
  match fuel with
  | 0%nat => t
  | S n => match f t with Some t => strip_all f n t | None => t end
  end.

Definition strings_TrimSpace (s : string) : string :=
  let t := strip_all strip (String.length s) (chars s) in str (strip_all strip_end (length t) t).

(** base64.StdEncoding. *)
Definition base64_char (n : Z) : ascii :=
  nth (Z.to_nat n) (chars "ABCDEFGHIJKLMNOPQRSTUVWXYZabcdefghijklmnopqrstuvwxyz0123456789+/") "="%char.

Fixpoint base64 (t : text) : text :=
  match t with
  | a :: b :: c :: t =>
      let n := byte_of a * 65536 + byte_of b * 256 + byte_of c in
      [base64_char (n / 262144); base64_char (n / 4096 mod 64); base64_char (n / 64 mod 64); base64_char (n mod 64)] ++ base64 t
  | [a; b] =>
      let n := byte_of a * 65536 + byte_of b * 256 in
      [base64_char (n / 262144); base64_char (n / 4096 mod 64); base64_char (n / 64 mod 64); "="%char]
  | [a] =>
      let n := byte_of a * 65536 in [base64_char (n / 262144); base64_char (n / 4096 mod 64); "="%char; "="%char]
  | [] => []
  end.

Definition basicAuth (username password : string) : string :=
  str (base64 (chars (username +:+ ":" +:+ password))).

Example base64_samples :
  map (fun s => str (base64 (chars s))) ["M"; "Ma"; "Man"; "user:pass"] = ["TQ=="; "TWE="; "TWFu"; "dXNlcjpwYXNz"].
Proof. by vm_compute. Qed.

(** ** The world *)

Record Token : Type := mkToken { AccessToken : string; Expiry : Z }.

(** [oauth2.TokenSource]: a file, or some other source. *)
Inductive TokenSource : Type :=
| fileTokenSource (path : string) (period : Z)
| otherTokenSource (id : nat).

(** [cachingTokenSource]; [t] is zero when there is no token. *)
Record cachingTokenSource : Type := mkCaching {
  base_source : TokenSource;
  leeway : Z;
  tok : option Token;
  t : Z
}.

Record Response : Type := mkResponse { Status : string; StatusCode : Z; Header : Values }.

Record World : Type := mkWorld {
  requests : list requestInfo;
  sources : list cachingTokenSource;
  moment : nat;
  sent : list Values;
  logs : list string
}.

Definition M (A : Type) : Type := World -> World * A.
Definition ret {A} (a : A) : M A := fun w => (w, a).
Definition bind {A B} (m : M A) (f : A -> M B) : M B := fun w => let '(w, a) := m w in f a w.
Notation "'do' x <- m ; k" := (bind m (fun x => k)) (at level 200, x pattern, m at level 100, k at level 200).

Definition set_requests (r : list requestInfo) (w : World) : World := mkWorld r (sources w) (moment w) (sent w) (logs w).
Definition set_sources (s : list cachingTokenSource) (w : World) : World := mkWorld (requests w) s (moment w) (sent w) (logs w).
Definition pass (w : World) : World := mkWorld (requests w) (sources w) (S (moment w)) (sent w) (logs w).

Definition no_request : requestInfo := mkRequestInfo ∅ "" "".
Definition request_at (p : nat) (w : World) : requestInfo := default no_request (requests w !! p).

Definition load (p : nat) : M Values := fun w => (w, RequestHeaders (request_at p w)).
Definition store (p : nat) (h : Values) : M unit := fun w =>
  let r := request_at p w in
  (set_requests (<[p := mkRequestInfo h (RequestVerb r) (RequestURL r)]> (requests w)) w, tt).
Definition CloneRequest (p : nat) : M nat := fun w =>
  (set_requests (requests w ++ [request_at p w]) w, length (requests w)).
Definition klog (lines : list string) : M unit := fun w =>
  (mkWorld (requests w) (sources w) (moment w) (sent w) (logs w ++ lines), tt).

Definition RoundTripper : Type := nat -> M (string + Response).
Definition WrapperFunc : Type := option (RoundTripper -> RoundTripper).

(** ** Configuration: transport/config.go *)

Record Config : Type := mkConfig {
  UserAgent : string;
  Username : string;
  Password : string;
  BearerToken : string;
  BearerTokenFile : string;
  Impersonate : ImpersonationConfig;
  WrapTransport : WrapperFunc
}.

Definition nonempty (s : string) : bool := negb (String.eqb s "").

Definition HasBasicAuth (c : Config) : bool := nonempty (Username c).
Definition HasTokenAuth (c : Config) : bool := nonempty (BearerToken c) || nonempty (BearerTokenFile c).

Definition Wrappers (fns : list WrapperFunc) : WrapperFunc :=
  match fns with
  | [] => None
  | [None; f] => f
  | _ => Some (fun rt => fold_left (fun base fn => match fn with Some fn => fn base | None => base end) fns rt)
  end.

Definition Wrap (c : Config) (fn : WrapperFunc) : Config :=
  mkConfig (UserAgent c) (Username c) (Password c) (BearerToken c) (BearerTokenFile c) (Impersonate c)
    (Wrappers [WrapTransport c; fn]).

Section transport.
Context `{MapRange}.
(** What the network answers, the clock, the files and the other token sources, by the
    moment; klog's verbosity, strconv.Quote and the loggers' numbers. *)
Variable Send : nat -> Values -> string + Response.
Variable Now : nat -> Z.
Variable ReadFile : nat -> string -> string + string.
Variable OtherToken : nat -> nat -> string + Token.
Variable Quote : string -> string.
Variable verbosity : Z.

Definition time_Now : M Z := fun w => (pass w, Now (moment w)).

(** The transport below all the others. *)
Definition base : RoundTripper := fun p w =>
  let h := RequestHeaders (request_at p w) in
  (mkWorld (requests w) (sources w) (S (moment w)) (sent w ++ [h]) (logs w), Send (moment w) h).

(** ** Token sources: transport/token_source.go *)

Definition fileTokenSource_Token (path : string) (period : Z) : M (string + Token) :=
  do tokb <- (fun w => (pass w, ReadFile (moment w) path));
  match tokb with
  | inl err => ret (inl ("failed to read token file " +:+ Quote path +:+ ": " +:+ err))
  | inr tokb =>
      let tok := strings_TrimSpace tokb in
      if decide (tok = "") then ret (inl ("read empty token from file " +:+ Quote path))
      else do now <- time_Now; ret (inr (mkToken tok (now + period)))
  end.

Definition base_Token (b : TokenSource) : M (string + Token) :=
  match b with
  | fileTokenSource path period => fileTokenSource_Token path period
  | otherTokenSource id => fun w => (pass w, OtherToken id (moment w))
  end.

Definition no_source : cachingTokenSource := mkCaching (otherTokenSource 0) 0 None 0.
Definition source_at (ts : nat) (w : World) : cachingTokenSource := default no_source (sources w !! ts).
Definition set_token (ts : nat) (tok : option Token) (t : Z) : M unit := fun w =>
  let c := source_at ts w in
  (set_sources (<[ts := mkCaching (base_source c) (leeway c) tok t]> (sources w)) w, tt).

(** A new source is a new pointer. *)
Definition NewCachedFileTokenSource (path : string) : M nat := fun w =>
  (set_sources (sources w ++ [mkCaching (fileTokenSource path (60 * Second)) (10 * Second) None 0]) w, length (sources w)).

Definition NewCachedTokenSource (id : nat) : M nat := fun w =>
  (set_sources (sources w ++ [mkCaching (otherTokenSource id) 0 None 0]) w, length (sources w)).

(** [tok != nil && tok.Expiry.Add(-1*ts.leeway).After(now)] *)
Definition usable (now : Z) (c : cachingTokenSource) : option Token :=
  match tok c with
  | Some k => if now <? Expiry k - leeway c then Some k else None
  | None => None
  end.

(** With the write lock held. *)
Definition Token_slow (ts : nat) (now : Z) : M (string + Token) :=
  do c <- (fun w => (w, source_at ts w));
  match usable now c with
  | Some k => ret (inr k)
  | None =>
      do r <- base_Token (base_source c);
      match r with
      | inl err =>
          match tok c with
          | None => ret (inl err)
          | Some k => do _ <- klog ["Unable to rotate token: " +:+ err]; ret (inr k)
          end
      | inr k =>
          do t <- time_Now;
          do _ <- set_token ts (Some k) t;
          ret (inr k)
      end
  end.

Definition cachingTokenSource_Token (ts : nat) : M (string + Token) :=
  do now <- time_Now;
  do c <- (fun w => (w, source_at ts w));
  match usable now c with
  | Some k => ret (inr k)
  | None => Token_slow ts now
  end.

Definition ResetTokenOlderThan (ts : nat) (start : Z) : M unit :=
  do c <- (fun w => (w, source_at ts w));
  if t c <? start then set_token ts None 0 else ret tt.

(** ** Round trippers: transport/round_trippers.go *)

Definition authProxyRoundTripper_RoundTrip (username : string) (groups : list string)
    (extra : gmap string (list string)) (rt : RoundTripper) : RoundTripper := fun req =>
  do req <- CloneRequest req;
  do h <- load req;
  do _ <- store req (SetAuthProxyHeaders h username groups extra);
  rt req.

Definition userAgentRoundTripper_RoundTrip (agent : string) (rt : RoundTripper) : RoundTripper := fun req =>
  do h <- load req;
  if nonempty (Header_Get "User-Agent" h) then rt req
  else
    do req <- CloneRequest req;
    do _ <- store req (Header_Set "User-Agent" agent h);
    rt req.

Definition basicAuthRoundTripper_RoundTrip (username password : string) (rt : RoundTripper) : RoundTripper := fun req =>
  do h <- load req;
  if nonempty (Header_Get "Authorization" h) then rt req
  else
    do req <- CloneRequest req;
    do _ <- store req (Header_Set "Authorization" ("Basic " +:+ basicAuth username password) h);
    rt req.

Definition impersonatingRoundTripper_RoundTrip (impersonate : ImpersonationConfig) (delegate : RoundTripper) : RoundTripper :=
  fun req =>
  do h <- load req;
  if nonempty (Header_Get ImpersonateUserHeader h) then delegate req
  else
    do req <- CloneRequest req;
    do _ <- store req (impersonation_headers impersonate h);
    delegate req.

Definition bearerAuthRoundTripper_RoundTrip (bearer : string) (source : option nat) (rt : RoundTripper) : RoundTripper :=
  fun req =>
  do h <- load req;
  if nonempty (Header_Get "Authorization" h) then rt req
  else
    do req <- CloneRequest req;
    do token <-
      match source with
      | None => ret bearer
      | Some source =>
          do r <- cachingTokenSource_Token source;
          ret (match r with inr refreshedToken => AccessToken refreshedToken | inl _ => bearer end)
      end;
    do _ <- store req (Header_Set "Authorization" ("Bearer " +:+ token) h);
    rt req.

Definition NewBearerAuthWithRefreshRoundTripper (bearer tokenFile : string) (rt : RoundTripper) : M (string + RoundTripper) :=
  if decide (tokenFile = "") then ret (inr (bearerAuthRoundTripper_RoundTrip bearer None rt))
  else
    do source <- NewCachedFileTokenSource tokenFile;
    if decide (bearer = "") then
      do token <- cachingTokenSource_Token source;
      match token with
      | inl err => ret (inl err)
      | inr token => ret (inr (bearerAuthRoundTripper_RoundTrip (AccessToken token) (Some source) rt))
      end
    else ret (inr (bearerAuthRoundTripper_RoundTrip bearer (Some source) rt)).

(** transport/token_source.go: [tokenSourceTransport]; [ort] is the transport of
    golang.org/x/oauth2 over [src]. *)
Definition tokenSourceTransport_RoundTrip (base ort : RoundTripper) (src : option nat) : RoundTripper := fun req =>
  do h <- load req;
  if nonempty (Header_Get "Authorization" h) then base req
  else
    do start <- time_Now;
    do resp <- ort req;
    do _ <-
      match resp, src with
      | inr r, Some src => if StatusCode r =? 401 then ResetTokenOlderThan src start else ret tt
      | _, _ => ret tt
      end;
    ret resp.

(** *** Debugging *)

Inductive DebugLevel : Type :=
| DebugJustURL
| DebugURLTiming
| DebugCurlCommand
| DebugRequestHeaders
| DebugResponseStatus
| DebugResponseHeaders
| DebugDetailedTiming.

#[global] Instance DebugLevel_eq_dec : EqDecision DebugLevel.
Proof. solve_decision. Defined.

(** The lines after the response; the statistics of [DebugDetailedTiming], traced by
    net/http, are not shown. *)
Definition response_lines (levels : list DebugLevel) (r : requestInfo) (resp : string + Response) (duration : Z) : list string :=
  let status := match resp with inr r => Status r | inl _ => "" end in
  let headers := match resp with inr r => Header r | inl _ => ∅ end in
  let ms := pretty (duration / Millisecond) in
  (if decide (DebugURLTiming ∈ levels)
   then [RequestVerb r +:+ " " +:+ RequestURL r +:+ " " +:+ status +:+ " in " +:+ ms +:+ " milliseconds"] else []) ++
  (if decide (DebugResponseStatus ∈ levels) then ["Response Status: " +:+ status +:+ " in " +:+ ms +:+ " milliseconds"] else []) ++
  (if decide (DebugResponseHeaders ∈ levels)
   then "Response Headers:" :: each_header headers (fun key value => "    " +:+ key +:+ ": " +:+ value) else []).

Definition debuggingRoundTripper_RoundTrip (levels : list DebugLevel) (rt : RoundTripper) : RoundTripper := fun req =>
  do reqInfo <- (fun w => (w, request_at req w));
  do _ <- klog (request_lines Quote (bool_decide (DebugJustURL ∈ levels)) (bool_decide (DebugCurlCommand ∈ levels))
    (bool_decide (DebugRequestHeaders ∈ levels)) reqInfo);
  do startTime <- time_Now;
  do response <- rt req;
  do endTime <- time_Now;
  do _ <- klog (response_lines levels reqInfo response (time_sub endTime startTime));
  ret response.

Definition DebugWrappers (rt : RoundTripper) : RoundTripper :=
  if 9 <=? verbosity then
    debuggingRoundTripper_RoundTrip [DebugCurlCommand; DebugURLTiming; DebugDetailedTiming; DebugResponseHeaders] rt
  else if 8 <=? verbosity then
    debuggingRoundTripper_RoundTrip [DebugJustURL; DebugRequestHeaders; DebugResponseStatus; DebugResponseHeaders] rt
  else if 7 <=? verbosity then debuggingRoundTripper_RoundTrip [DebugJustURL; DebugRequestHeaders; DebugResponseStatus] rt
  else if 6 <=? verbosity then debuggingRoundTripper_RoundTrip [DebugURLTiming] rt
  else rt.

(** ** The chain *)

Definition impersonates (c : ImpersonationConfig) : bool :=
  nonempty (UserName c) || nonempty (UID c) || bool_decide (Groups c <> []) || bool_decide (Extra c <> ∅).

Definition HTTPWrappersForConfig (c : Config) (rt : RoundTripper) : M (string + RoundTripper) :=
  let rt := match WrapTransport c with Some f => f rt | None => rt end in
  let rt := DebugWrappers rt in
  do r <-
    (if HasBasicAuth c && HasTokenAuth c
     then ret (inl "username/password or bearer token may be set, but not both")
     else if HasTokenAuth c then NewBearerAuthWithRefreshRoundTripper (BearerToken c) (BearerTokenFile c) rt
     else if HasBasicAuth c then ret (inr (basicAuthRoundTripper_RoundTrip (Username c) (Password c) rt))
     else ret (inr rt));
  match r with
  | inl err => ret (inl err)
  | inr rt =>
      let rt := if nonempty (UserAgent c) then userAgentRoundTripper_RoundTrip (UserAgent c) rt else rt in
      let rt := if impersonates (Impersonate c) then impersonatingRoundTripper_RoundTrip (Impersonate c) rt else rt in
      ret (inr rt)
  end.

(** transport/transport.go: [contextCanceller]; whether the context is done depends on the moment. *)
Definition contextCanceller_RoundTrip (done : nat -> bool) (err : string) (rt : RoundTripper) : RoundTripper := fun req w =>
  if done (moment w) then (w, inl err) else rt req w.

(** ** What a request goes through *)

(** The sources with their leeways, which never change. *)
Definition bases (w : World) : list (TokenSource * Z) := map (fun c => (base_source c, leeway c)) (sources w).

(** What a reading of a token file gives at a moment, if it can be read and is not blank. *)
Definition reading (path : string) (n : nat) : option string :=
  match ReadFile n path with
  | inr content => let k := strings_TrimSpace content in if decide (k = "") then None else Some k
  | inl _ => None
  end.

(** A token that was read from a file at a moment, or came from another source. *)
Definition read_at (path : string) (n : nat) (period : Z) (k : Token) : Prop :=
  reading path n = Some (AccessToken k) /\ Expiry k = Now (S n) + period.

Definition gave (b : TokenSource) (k : Token) : Prop :=
  match b with
  | fileTokenSource path period => exists n, read_at path n period k
  | otherTokenSource id => exists n, OtherToken id n = inr k
  end.

(** The invariant of the world: a cached token is one that its source gave. *)
Definition sourced (w : World) : Prop :=
  Forall (fun c => forall k, tok c = Some k -> gave (base_source c) k) (sources w).

(** A part that sends nothing and leaves the requests alone. *)
Record quiet (w w' : World) : Prop := mkQuiet {
  quiet_requests : requests w' = requests w;
  quiet_sent : sent w' = sent w;
  quiet_bases : bases w `prefix_of` bases w';
  quiet_sourced : sourced w -> sourced w';
  quiet_moment : (moment w <= moment w')%nat
}.

#[local] Instance quiet_preorder : PreOrder quiet.
Proof.
  split.
  - intros w. by split.
  - intros w1 w2 w3 [] []. split; [congruence|congruence|by etrans|tauto|lia].
Qed.

Lemma quiet_pass w : quiet w (pass w).
Proof. split; cbn; done || lia. Qed.

Lemma quiet_klog l w : quiet w (klog l w).1.
Proof. by split. Qed.

Lemma source_at_bases ts w b : bases w !! ts = Some b ->
  exists c, sources w !! ts = Some c /\ source_at ts w = c /\ (base_source c, leeway c) = b.
Proof.
  unfold bases, source_at. rewrite list_lookup_fmap. intros (c & Hc & Hb)%fmap_Some. exists c. by rewrite Hc.
Qed.

Lemma set_token_quiet ts b k t w : bases w !! ts = Some b ->
  (forall k', k = Some k' -> gave b.1 k') -> quiet w (set_token ts k t w).1.
Proof.
  intros (c & Hc & Hs & Hb)%source_at_bases Hk. unfold set_token. rewrite Hs. cbn. split; [done|done|..|done].
  - unfold bases. cbn. rewrite list_fmap_insert, list_insert_id; [done|]. by rewrite list_lookup_fmap, Hc.
  - unfold sourced. cbn. intros Hw. apply Forall_insert; [done|]. cbn. intros k' ->. subst b. by apply Hk.
Qed.

Lemma base_Token_spec b w :
  let '(w', r) := base_Token b w in quiet w w' /\ forall k, r = inr k -> gave b k.
Proof.
  assert (Hp : forall w' : World, w' = pass w \/ w' = pass (pass w) -> quiet w w').
  { intros w' [->| ->]; [apply quiet_pass|]. etrans; apply quiet_pass. }
  destruct b as [path period|id]; cbn [base_Token].
  - unfold fileTokenSource_Token, bind. destruct (ReadFile _ _) as [err|content] eqn:Hr; [split; [apply Hp; by left|done]|].
    cbv zeta. case_decide as Ht; [split; [apply Hp; by left|done]|]. cbn. split; [apply Hp; by right|].
    intros k [= <-]. exists (moment w). unfold read_at, reading. rewrite Hr. cbn. by rewrite decide_False.
  - split; [apply Hp; by left|]. cbn. intros k Hk. by eexists.
Qed.

Lemma usable_tok now c k : usable now c = Some k -> tok c = Some k.
Proof. unfold usable. destruct (tok c); [|done]. by case_match; intros [= <-]. Qed.

Lemma sourced_at w ts b k : sourced w -> bases w !! ts = Some b -> tok (source_at ts w) = Some k -> gave b.1 k.
Proof.
  intros Hw (c & Hc & -> & <-)%source_at_bases Hk. by apply (Forall_lookup_1 _ _ _ _ Hw Hc).
Qed.

Lemma Token_slow_spec ts now b w : sourced w -> bases w !! ts = Some b ->
  let '(w', r) := Token_slow ts now w in quiet w w' /\ forall k, r = inr k -> gave b.1 k.
Proof.
  intros Hw Hb. unfold Token_slow, bind.
  destruct (usable now (source_at ts w)) as [k|] eqn:Hu.
  { cbn. split; [done|]. intros k' [= <-]. apply usable_tok in Hu. by eapply sourced_at. }
  replace (base_source (source_at ts w)) with b.1 by (by apply source_at_bases in Hb as (c & _ & -> & <-)).
  pose proof (base_Token_spec b.1 w) as Hs. destruct (base_Token b.1 w) as [w1 [err|k]]; destruct Hs as [Hq Hk].
  - destruct (tok (source_at ts w)) as [k|] eqn:Ht; cbn; [|done].
    split; [etrans; [done|apply (quiet_klog _ w1)]|]. intros k' [= <-]. by eapply sourced_at.
  - unfold time_Now. destruct (set_token ts (Some k) (Now (moment w1)) (pass w1)) as [w2 []] eqn:H2.
    split; [|intros k' [= <-]; by apply Hk]. etrans; [exact Hq|]. etrans; [apply (quiet_pass w1)|].
    change w2 with (w2, tt).1. rewrite <- H2. apply (set_token_quiet _ b).
    + change (bases (pass w1)) with (bases w1). eapply prefix_lookup_Some; [done|apply Hq].
    + intros k' [= <-]. by apply Hk.
Qed.

Lemma Token_spec ts b w : sourced w -> bases w !! ts = Some b ->
  let '(w', r) := cachingTokenSource_Token ts w in quiet w w' /\ forall k, r = inr k -> gave b.1 k.
Proof.
  intros Hw Hb. unfold cachingTokenSource_Token, bind, time_Now.
  destruct (usable _ (source_at ts (pass w))) as [k|] eqn:Hu.
  { cbn. split; [apply quiet_pass|]. intros k' [= <-]. apply usable_tok in Hu. by eapply (sourced_at (pass w)). }
  pose proof (Token_slow_spec ts (Now (moment w)) b (pass w) Hw Hb) as Hs.
  destruct (Token_slow _ _ _) as [w' r]. destruct Hs as [Hq Hk]. split; [|done]. etrans; [apply quiet_pass|done].
Qed.

(** What [Token] gives: a cached token only while it is usable, otherwise what the base
    gives now, and the old token only when the base fails. *)
Lemma Token_cases ts w c w' r :
  sources w !! ts = Some c -> cachingTokenSource_Token ts w = (w', r) ->
  match usable (Now (moment w)) c with
  | Some k => r = inr k /\ sources w' = sources w
  | None =>
      let '(w1, b) := base_Token (base_source c) (pass w) in
      (moment w1 <= moment w')%nat /\
      match b with
      | inr k => r = inr k /\ sources w' = <[ts := mkCaching (base_source c) (leeway c) (Some k) (Now (moment w1))]> (sources w)
      | inl err => sources w' = sources w /\ r = match tok c with Some k => inr k | None => inl err end
      end
  end.
Proof.
  intros Hc. assert (Hs : source_at ts w = c) by (unfold source_at; by rewrite Hc).
  change (source_at ts w) with (source_at ts (pass w)) in Hs.
  unfold cachingTokenSource_Token, bind, time_Now. rewrite Hs.
  destruct (usable (Now (moment w)) c) as [k|] eqn:Hu; [by intros [= <- <-]|].
  unfold Token_slow, bind. rewrite Hs, Hu.
  assert (Hsrc : sources (base_Token (base_source c) (pass w)).1 = sources w).
  { destruct (base_source c) as [path period|id]; [|done]. cbn [base_Token]. unfold fileTokenSource_Token, bind.
    destruct (ReadFile _ _); [done|]. cbv zeta. by case_decide. }
  destruct (base_Token _ _) as [w1 [err|k]]; cbn in Hsrc.
  - destruct (tok c); by intros [= <- <-].
  - unfold set_token, source_at. cbn. rewrite Hsrc, Hc. intros [= <- <-]. split; [cbn; lia|done].
Qed.

(** The token sources at a moment. *)
Definition St : Type := list cachingTokenSource * nat.
Definition st (w : World) : St := (sources w, moment w).

(** What the token file at [path] with the source [ts] is good for between two moments: the
    token of a reading made then; or the token of the last good reading, because that is
    less than fifty seconds old or because the file cannot be read now; or nothing, when
    no reading was ever good. *)
Definition last_reading (path : string) (ts : nat) (s s' : St) (res : option Token) : Prop :=
  exists c c', s.1 !! ts = Some c /\ s'.1 !! ts = Some c' /\ tok c' = res /\
    exists n, (s.2 <= n < s'.2)%nat /\
      ((exists k, res = Some k /\ read_at path n (60 * Second) k) \/
       (res = tok c /\
        ((exists k n0, tok c = Some k /\ read_at path n0 (60 * Second) k /\ Now n < Now (S n0) + 50 * Second) \/
         reading path n = None))).

Definition file_source (path : string) : TokenSource * Z := (fileTokenSource path (60 * Second), 10 * Second).

Lemma Token_file ts w path : sourced w -> bases w !! ts = Some (file_source path) ->
  let '(w', r) := cachingTokenSource_Token ts w in
  last_reading path ts (st w) (st w') (match r with inr k => Some k | inl _ => None end).
Proof.
  intros Hw Hb. destruct (source_at_bases _ _ _ Hb) as (c & Hc & _ & [= Hsrc Hlee]).
  destruct (cachingTokenSource_Token ts w) as [w' r] eqn:Ht.
  assert (Hm : (moment w < moment w')%nat).
  { revert Ht. unfold cachingTokenSource_Token, bind, time_Now. case_match; [intros [= <- <-]; cbn; lia|].
    pose proof (Token_slow_spec ts (Now (moment w)) (file_source path) (pass w) Hw Hb) as Hs. intros Ht. rewrite Ht in Hs.
    destruct Hs as [[_ _ _ _ Hmo] _]. cbn in Hmo. lia. }
  pose proof (Token_cases ts w c w' r Hc Ht) as Hcase. unfold last_reading, st. cbn [fst snd].
  destruct (usable (Now (moment w)) c) as [k|] eqn:Hu.
  - destruct Hcase as [-> ->]. exists c, c. apply usable_tok in Hu as Hk. split_and!; [done..|].
    exists (moment w). split; [lia|]. right. split; [done|left].
    pose proof (Forall_lookup_1 _ _ _ _ Hw Hc k Hk) as Hg. rewrite Hsrc in Hg. destruct Hg as (n0 & Hg). exists k, n0.
    split_and!; [done|done|]. destruct Hg as [_ He]. unfold usable in Hu. rewrite Hk in Hu.
    destruct (Z.ltb_spec (Now (moment w)) (Expiry k - leeway c)) as [Hlt|]; [|done]. rewrite He, Hlee in Hlt. lia.
  - rewrite Hsrc in Hcase. cbn [base_Token] in Hcase. unfold fileTokenSource_Token, bind in Hcase.
    destruct (ReadFile (moment (pass w)) path) as [err|content] eqn:Hr.
    { destruct Hcase as (Hmo & Hs & ->). exists c, c. rewrite Hs. split_and!; [done|done|by destruct (tok c)|].
      exists (moment (pass w)). split; [cbn in *; lia|]. right. split; [by destruct (tok c)|right].
      unfold reading. by rewrite Hr. }
    cbv zeta in Hcase. destruct (decide (strings_TrimSpace content = "")) as [Hbl|Hbl].
    { destruct Hcase as (Hmo & Hs & ->). exists c, c. rewrite Hs. split_and!; [done|done|by destruct (tok c)|].
      exists (moment (pass w)). split; [cbn in *; lia|]. right. split; [by destruct (tok c)|right].
      unfold reading. rewrite Hr. cbn. by rewrite decide_True. }
    destruct Hcase as (Hmo & -> & Hs). exists c. eexists. rewrite Hs.
    split_and!; [done|by apply list_lookup_insert_eq, (lookup_lt_Some _ _ _ Hc)|done|].
    exists (moment (pass w)). split; [cbn in *; lia|]. left. eexists. split; [done|].
    unfold read_at, reading. rewrite Hr. cbn. by rewrite decide_False.
Qed.

(** What became of a request with the headers [h]: one request was sent, its answer
    returned, and every request there was is as it was. *)
Definition layer : Type := St -> St -> Values -> Values -> Prop.

Definition outcome (w : World) (h : Values) (G : layer) (o : World * (string + Response)) : Prop :=
  exists h' n, G (st w) (st o.1) h h' /\ o.2 = Send n h' /\ sent o.1 = sent w ++ [h'] /\ requests w `prefix_of` requests o.1 /\
    bases w `prefix_of` bases o.1 /\ sourced o.1.

Definition delivers (B : list (TokenSource * Z)) (rt : RoundTripper) (G : layer) : Prop :=
  forall p w r, requests w !! p = Some r -> sourced w -> B `prefix_of` bases w -> outcome w (RequestHeaders r) G (rt p w).

(** Nothing happens to the headers and to the token sources, but time passes. *)
Definition same : layer := fun s s' h h' => s'.1 = s.1 /\ (s.2 <= s'.2)%nat /\ h' = h.

Lemma outcome_after w w1 h (G G' : layer) h1 o :
  (forall s' h', G (st w1) s' h1 h' -> G' (st w) s' h h') -> requests w `prefix_of` requests w1 -> sent w1 = sent w ->
  bases w `prefix_of` bases w1 -> outcome w1 h1 G o -> outcome w h G' o.
Proof.
  intros HG Hr Hs Hb (h' & n & Hh & Hn & Hs' & Hr' & Hb' & Ho). exists h', n. rewrite Hs', Hs. naive_solver (by etrans).
Qed.

Lemma base_delivers B : delivers B base same.
Proof.
  intros p w r Hp Hw _. unfold base, outcome, request_at, same. rewrite Hp. cbn. do 2 eexists. repeat split; try done. lia.
Qed.

(** The request that a wrapper cloned and changed, on its way to the next one. *)
Lemma outcome_clone B rt G w w1 r h :
  delivers B rt G -> requests w1 = requests w ++ [r] -> sent w1 = sent w -> bases w `prefix_of` bases w1 -> sourced w1 ->
  B `prefix_of` bases w ->
  outcome w h (fun _ => G (st w1)) (let '(w2, _) := store (length (requests w)) h w1 in rt (length (requests w)) w2).
Proof.
  intros Hrt Hr Hs Hb Hw HB. unfold store, request_at. rewrite Hr.
  rewrite lookup_app_r, Nat.sub_diag by lia. cbn [lookup list_lookup default].
  rewrite insert_app_r_alt, Nat.sub_diag by lia. cbn [insert list_insert].
  set (r' := mkRequestInfo h _ _). set (w2 := set_requests (requests w ++ [r']) w1).
  apply (outcome_after w w2 h G _ h); [done|by apply prefix_app_r|done|done|].
  change h with (RequestHeaders r'). apply Hrt; [|done|by etrans].
  unfold w2. cbn. rewrite lookup_app_r, Nat.sub_diag by lia. done.
Qed.

Lemma request_at_headers p w r : requests w !! p = Some r -> load p w = (w, RequestHeaders r).
Proof. intros Hp. unfold load, request_at. by rewrite Hp. Qed.

(** *** The wrappers, one by one *)

Ltac deliver Hp := intros p w r Hp Hw HB; unfold bind; rewrite (request_at_headers _ _ _ Hp).

Definition then_ (W G : layer) : layer := fun s s' h h' => exists s1 h1, W s s1 h h1 /\ G s1 s' h1 h'.

(** A header that is set when the request has none. *)
Definition sets (key : string) (values : St -> St -> string -> Prop) : layer := fun s s' h h' =>
  if nonempty (Header_Get key h) then s' = s /\ h' = h else exists v, values s s' v /\ h' = Header_Set key v h.

Definition always (v : string) : St -> St -> string -> Prop := fun s s' v' => s' = s /\ v' = v.

(** What a wrapper has to show for its two branches. *)
Lemma outcome_kept B rt (W G : layer) p w r :
  delivers B rt G -> requests w !! p = Some r -> sourced w -> B `prefix_of` bases w ->
  W (st w) (st w) (RequestHeaders r) (RequestHeaders r) -> outcome w (RequestHeaders r) (then_ W G) (rt p w).
Proof.
  intros Hrt Hp Hw HB HW. apply (outcome_after w w (RequestHeaders r) G _ (RequestHeaders r)); try done; [|by apply Hrt].
  intros s' h' Hh'. by exists (st w), (RequestHeaders r).
Qed.

Lemma outcome_changed B rt (W G : layer) w w1 r h h1 :
  delivers B rt G -> W (st w) (st w1) h h1 -> requests w1 = requests w ++ [r] -> sent w1 = sent w -> bases w `prefix_of` bases w1 ->
  sourced w1 -> B `prefix_of` bases w ->
  outcome w h (then_ W G) (let '(w2, _) := store (length (requests w)) h1 w1 in rt (length (requests w)) w2).
Proof.
  intros Hrt HW Hr Hs Hb Hw HB. pose proof (outcome_clone B rt G w w1 r h1 Hrt Hr Hs Hb Hw HB) as Ho.
  revert Ho. apply (outcome_after w w h _ (then_ W G) h1); try done. intros s' h' Hh'. by exists (st w1), h1.
Qed.

Lemma userAgent_delivers B agent rt G :
  delivers B rt G -> delivers B (userAgentRoundTripper_RoundTrip agent rt) (then_ (sets "User-Agent" (always agent)) G).
Proof.
  intros Hrt. unfold userAgentRoundTripper_RoundTrip. deliver Hp.
  destruct (nonempty _) eqn:Hh; [by apply (outcome_kept B); unfold sets; rewrite ?Hh|].
  apply (outcome_changed B rt _ G w (CloneRequest p w).1 (request_at p w) _ (Header_Set "User-Agent" agent (RequestHeaders r)));
    try done. unfold sets. rewrite Hh. by exists agent.
Qed.

Lemma basicAuth_delivers B user password rt G :
  delivers B rt G ->
  delivers B (basicAuthRoundTripper_RoundTrip user password rt)
    (then_ (sets "Authorization" (always ("Basic " +:+ basicAuth user password))) G).
Proof.
  intros Hrt. unfold basicAuthRoundTripper_RoundTrip. deliver Hp.
  destruct (nonempty _) eqn:Hh; [by apply (outcome_kept B); unfold sets; rewrite ?Hh|].
  apply (outcome_changed B rt _ G w (CloneRequest p w).1 (request_at p w) _
    (Header_Set "Authorization" ("Basic " +:+ basicAuth user password) (RequestHeaders r))); try done.
  unfold sets. rewrite Hh. by eexists.
Qed.

(** The headers of impersonation, key by key: the user, the UID if there is one, and the
    groups and the values of the extra keys after what the request has under their keys.
    Two extra keys may have one header: then the values of both are there, in some order. *)
Definition extended (vs : option (list string)) (added : list string) : option (list string) :=
  match added with [] => vs | _ => Some (default [] vs ++ added) end.

Definition extra_header (k : string) : string := CanonicalMIMEHeaderKey ("Impersonate-Extra-" +:+ headerKeyEscape k).

Definition acts_as (c : ImpersonationConfig) (h h' : Values) : Prop :=
  exists order, order ≡ₚ map_to_list (Extra c) /\ forall hk,
    h' !! hk =
      if decide (hk = "Impersonate-User") then Some [UserName c]
      else if decide (hk = "Impersonate-Uid" /\ UID c <> "") then Some [UID c]
      else if decide (hk = "Impersonate-Group") then extended (h !! hk) (Groups c)
      else extended (h !! hk) (mjoin (snd <$> filter (fun kv => extra_header kv.1 = hk) order)).

Definition impersonated (c : ImpersonationConfig) : layer := fun s s' h h' =>
  s' = s /\ if nonempty (Header_Get ImpersonateUserHeader h) then h' = h else acts_as c h h'.

Lemma extra_values hk kvs :
  values_at hk (extra_adds ImpersonateUserExtraHeaderPrefix kvs) = mjoin (snd <$> filter (fun kv => extra_header kv.1 = hk) kvs).
Proof.
  induction kvs as [|[k vs] kvs IH]; [done|].
  change (extra_adds ?p ((k, vs) :: kvs)) with (((fun v => (p +:+ headerKeyEscape k, v)) <$> vs) ++ extra_adds p kvs).
  rewrite values_at_app, IH, filter_cons. cbn [fst]. case_decide as Hk.
  - cbn [fmap list_fmap mjoin list_join snd]. f_equal. rewrite <- Hk. apply values_at_groups.
  - rewrite values_at_none; [done|]. intros kv (v & -> & _)%list_elem_of_fmap. exact Hk.
Qed.

Lemma impersonation_acts_as c h : acts_as c h (impersonation_headers c h).
Proof.
  exists (range (Extra c)). split; [apply range_perm|]. intros hk. unfold impersonation_headers.
  rewrite add_extra_all, add_all_lookup, extra_values.
  assert (Hpre : forall k, prefixed ImpersonateUserExtraHeaderPrefix (extra_header k) = true) by (intros k; apply extra_key_prefix).
  assert (Hno : prefixed ImpersonateUserExtraHeaderPrefix hk = false -> filter (fun kv : string * list string => extra_header kv.1 = hk) (range (Extra c)) = []).
  { intros Hp. apply list_filter_none, Forall_forall. intros kv _ <-. by rewrite Hpre in Hp. }
  rewrite groups_lookup. change (CanonicalMIMEHeaderKey ImpersonateGroupHeader) with "Impersonate-Group".
  destruct (decide (hk = "Impersonate-User")) as [->|Hu].
  { rewrite Hno by done. rewrite decide_False by done. cbn.
    case_decide; unfold Header_Set; [|rewrite lookup_insert_ne by done]; by rewrite lookup_insert_eq. }
  destruct (decide (hk = "Impersonate-Uid" /\ UID c <> "")) as [[-> Hi]|Hi].
  { rewrite Hno by done. rewrite decide_False by done. cbn. rewrite decide_False by done. unfold Header_Set. by rewrite lookup_insert_eq. }
  assert (H2 : (if decide (UID c = "") then Header_Set ImpersonateUserHeader (UserName c) h
     else Header_Set ImpersonateUIDHeader (UID c) (Header_Set ImpersonateUserHeader (UserName c) h)) !! hk = h !! hk).
  { case_decide; unfold Header_Set; rewrite ?lookup_insert_ne; try done; intros <-; try (by apply Hu); by apply Hi. }
  destruct (decide (hk = "Impersonate-Group")) as [->|Hg].
  - rewrite Hno, decide_True, H2 by done. cbn. by destruct (Groups c).
  - rewrite decide_False by (by intros <-). rewrite H2. unfold extended. by destruct (mjoin _).
Qed.

Lemma impersonating_delivers B c rt G :
  delivers B rt G -> delivers B (impersonatingRoundTripper_RoundTrip c rt) (then_ (impersonated c) G).
Proof.
  intros Hrt. unfold impersonatingRoundTripper_RoundTrip. deliver Hp.
  destruct (nonempty _) eqn:Hh; [by apply (outcome_kept B); unfold impersonated; rewrite ?Hh|].
  apply (outcome_changed B rt _ G w (CloneRequest p w).1 (request_at p w) _ (impersonation_headers c (RequestHeaders r)));
    try done. unfold impersonated. rewrite Hh. split; [done|]. apply impersonation_acts_as.
Qed.

(** The token that is sent with a token file: that of the last good reading, and before any
    the static one. *)
Definition file_values (path static : string) (ts : nat) : St -> St -> string -> Prop := fun s s' v =>
  exists res, last_reading path ts s s' res /\ v = "Bearer " +:+ default static (AccessToken <$> res).

Lemma bearerAuth_file_delivers B static path ts rt G :
  delivers B rt G -> B !! ts = Some (file_source path) ->
  delivers B (bearerAuthRoundTripper_RoundTrip static (Some ts) rt) (then_ (sets "Authorization" (file_values path static ts)) G).
Proof.
  intros Hrt Hsrc. unfold bearerAuthRoundTripper_RoundTrip. deliver Hp.
  destruct (nonempty _) eqn:Hh; [by apply (outcome_kept B); unfold sets; rewrite ?Hh|].
  unfold CloneRequest at 1. unfold request_at. rewrite Hp. cbn [default].
  set (w1 := set_requests _ w). assert (H1 : sourced w1) by done.
  assert (Hts : bases w1 !! ts = Some (file_source path)) by (by eapply prefix_lookup_Some).
  pose proof (Token_spec ts _ w1 H1 Hts) as Hs. pose proof (Token_file ts w1 path H1 Hts) as Hl.
  destruct (cachingTokenSource_Token ts w1) as [w2 tk]. destruct Hs as [Hq _].
  set (v := "Bearer " +:+ match tk with inr k => AccessToken k | inl _ => static end).
  apply (outcome_changed B rt _ G w w2 r _ (Header_Set "Authorization" v (RequestHeaders r))); try done; try apply Hq; try done.
  unfold sets. rewrite Hh. exists v. split; [|done]. eexists. split; [exact Hl|]. by destruct tk.
Qed.

Lemma bearerAuth_static_delivers B bearer rt G :
  delivers B rt G ->
  delivers B (bearerAuthRoundTripper_RoundTrip bearer None rt) (then_ (sets "Authorization" (always ("Bearer " +:+ bearer))) G).
Proof.
  intros Hrt. unfold bearerAuthRoundTripper_RoundTrip. deliver Hp.
  destruct (nonempty _) eqn:Hh; [by apply (outcome_kept B); unfold sets; rewrite ?Hh|].
  unfold CloneRequest at 1. unfold request_at. rewrite Hp. cbn [default ret].
  apply (outcome_changed B rt _ G w (set_requests (requests w ++ [r]) w) r _
    (Header_Set "Authorization" ("Bearer " +:+ bearer) (RequestHeaders r))); try done.
  unfold sets. rewrite Hh. by eexists.
Qed.

Lemma debugging_delivers B levels rt : delivers B rt same -> delivers B (debuggingRoundTripper_RoundTrip levels rt) same.
Proof.
  intros Hrt p w r Hp Hw HB. unfold debuggingRoundTripper_RoundTrip, bind, time_Now, klog. cbn.
  match goal with |- context [rt p ?w1] => set (w1' := w1) end.
  assert (Ho : outcome w (RequestHeaders r) same (rt p w1')).
  { apply (outcome_after w w1' (RequestHeaders r) same same (RequestHeaders r)); try done; [|by apply Hrt].
    intros s' h' (H1 & H2 & H3). unfold same. cbn in *. split_and!; [done|lia|done]. }
  destruct (rt p w1') as [w2 resp]. destruct Ho as (h' & n & (H1 & H2 & H3) & Ho). exists h', n.
  split; [|exact Ho]. unfold same. cbn in *. split_and!; [done|lia|done].
Qed.

Lemma DebugWrappers_delivers B rt : delivers B rt same -> delivers B (DebugWrappers rt) same.
Proof.
  intros Hrt. unfold DebugWrappers. repeat case_match; try done; by apply debugging_delivers.
Qed.

(** *** The chain *)

Definition opt (b : bool) (W : layer) : layer := if b then W else fun s s' h h' => s' = s /\ h' = h.

Lemma delivers_impl B rt (G G' : layer) :
  (forall s s' h h', G s s' h h' -> G' s s' h h') -> delivers B rt G -> delivers B rt G'.
Proof.
  intros HG Hrt p w r Hp Hw HB.
  apply (outcome_after w w (RequestHeaders r) G G' (RequestHeaders r)); try done; [intros; by apply HG|by apply Hrt].
Qed.

Lemma delivers_opt B rt f W G (b : bool) :
  delivers B rt G -> (delivers B rt G -> delivers B (f rt) (then_ W G)) -> delivers B (if b then f rt else rt) (then_ (opt b W) G).
Proof.
  intros Hrt Hf. destruct b; [by apply Hf|]. apply (delivers_impl B rt G); [|done]. intros s s' h h' Hh. by exists s, h.
Qed.

Definition authenticates (c : Config) : bool := HasTokenAuth c || HasBasicAuth c.

(** The values of the Authorization header that the configuration stands for; [static] is
    the configured token or, when there is only a file, the token read first. *)
Definition auth_values (c : Config) (static : string) (ts : nat) : St -> St -> string -> Prop :=
  if HasTokenAuth c then
    if decide (BearerTokenFile c = "") then always ("Bearer " +:+ BearerToken c)
    else file_values (BearerTokenFile c) static ts
  else always ("Basic " +:+ basicAuth (Username c) (Password c)).

Definition first_token (c : Config) (s s' : St) (static : string) : Prop :=
  if decide (BearerTokenFile c <> "" /\ BearerToken c = "")
  then exists n, (s.2 <= n < s'.2)%nat /\ reading (BearerTokenFile c) n = Some static
  else static = BearerToken c.

Lemma delivers_prefix B B' rt G : B `prefix_of` B' -> delivers B rt G -> delivers B' rt G.
Proof. intros HB Hrt p w r Hp Hw HB'. apply Hrt; [done|done|by etrans]. Qed.

Lemma new_source_bases path w w' ts : NewCachedFileTokenSource path w = (w', ts) ->
  bases w' !! ts = Some (file_source path) /\ bases w `prefix_of` bases w' /\ (sourced w -> sourced w') /\
  moment w' = moment w /\ exists c, sources w' !! ts = Some c /\ tok c = None.
Proof.
  unfold NewCachedFileTokenSource. intros [= <- <-]. unfold bases, sourced. cbn. rewrite map_app. cbn. split_and!.
  - by rewrite lookup_app_r, length_map, Nat.sub_diag by (by rewrite length_map).
  - by apply prefix_app_r.
  - intros Hw. apply Forall_app. split; [done|]. by apply Forall_singleton.
  - done.
  - rewrite lookup_app_r, Nat.sub_diag by lia. by eexists.
Qed.

Lemma NewBearerAuth_delivers c w w1 rt rt' G :
  HasTokenAuth c = true -> sourced w -> (forall B, delivers B rt G) ->
  NewBearerAuthWithRefreshRoundTripper (BearerToken c) (BearerTokenFile c) rt w = (w1, inr rt') ->
  exists static ts, first_token c (st w) (st w1) static /\ delivers (bases w1) rt' (then_ (sets "Authorization" (auth_values c static ts)) G).
Proof.
  intros Hc Hw Hrt. unfold NewBearerAuthWithRefreshRoundTripper, first_token, auth_values. rewrite Hc.
  case_decide as Hf.
  - intros [= <- <-]. exists (BearerToken c), 0%nat. rewrite decide_False by naive_solver. split; [done|].
    by apply bearerAuth_static_delivers.
  - unfold bind. destruct (NewCachedFileTokenSource _ w) as [w2 ts] eqn:Hn.
    destruct (new_source_bases _ _ _ _ Hn) as (Hts & Hb2 & Hw2 & Hm2 & c0 & Hc0 & Ht0).
    case_decide as Hb.
    + pose proof (Token_spec ts _ w2 (Hw2 Hw) Hts) as Hs. pose proof (Token_file ts w2 _ (Hw2 Hw) Hts) as Hl.
      destruct (cachingTokenSource_Token ts w2) as [w3 [err|k]]; [done|]. destruct Hs as [Hq Hk].
      intros [= <- <-]. exists (AccessToken k), ts. rewrite decide_True by done. split.
      * destruct Hl as (c1 & c' & Hc1 & _ & _ & n & Hn' & Hr). cbn in Hc1. rewrite Hc0 in Hc1. injection Hc1 as <-.
        destruct Hr as [(k' & [= <-] & Hr & _)|[Hr _]]; [|congruence].
        exists n. split; [cbn in *; lia|exact Hr].
      * apply bearerAuth_file_delivers; [done|]. eapply prefix_lookup_Some; [done|apply Hq].
    + intros [= <- <-]. exists (BearerToken c), ts. rewrite decide_False by naive_solver. split; [done|].
      by apply bearerAuth_file_delivers.
Qed.

Lemma chain_delivers c rt0 w w1 rt :
  sourced w -> (forall B, delivers B (match WrapTransport c with Some f => f rt0 | None => rt0 end) same) ->
  HTTPWrappersForConfig c rt0 w = (w1, inr rt) ->
  exists static ts, first_token c (st w) (st w1) static /\
  delivers (bases w1) rt
    (then_ (opt (impersonates (Impersonate c)) (impersonated (Impersonate c)))
      (then_ (opt (nonempty (UserAgent c)) (sets "User-Agent" (always (UserAgent c))))
        (then_ (opt (authenticates c) (sets "Authorization" (auth_values c static ts))) same))).
Proof.
  intros Hw Hbase. unfold HTTPWrappersForConfig.
  set (rt1 := match WrapTransport c with Some f => f rt0 | None => rt0 end) in *.
  assert (Hd : forall B, delivers B (DebugWrappers rt1) same) by (intros B; by apply DebugWrappers_delivers).
  unfold bind.
  lazymatch goal with |- (let '(_, _) := ?m in _) = _ -> _ => destruct m as [w2 [err|rt2]] eqn:Hauth end; [done|].
  intros [= <- <-].
  enough (Ha : exists static ts, first_token c (st w) (st w2) static /\
    delivers (bases w2) rt2 (then_ (opt (authenticates c) (sets "Authorization" (auth_values c static ts))) same)).
  { destruct Ha as (static & ts & Hst & Ha). exists static, ts. split; [done|].
    apply (delivers_opt _ _ (impersonatingRoundTripper_RoundTrip (Impersonate c))); [|apply impersonating_delivers].
    apply (delivers_opt _ _ (userAgentRoundTripper_RoundTrip (UserAgent c))); [done|apply userAgent_delivers]. }
  unfold authenticates. destruct (HasTokenAuth c) eqn:Ht.
  - rewrite andb_true_r in Hauth. destruct (HasBasicAuth c); [done|].
    cbn [orb opt]. by eapply NewBearerAuth_delivers.
  - rewrite andb_false_r in Hauth. exists (BearerToken c), 0%nat.
    assert (Hnf : BearerTokenFile c = "").
    { unfold HasTokenAuth in Ht. apply orb_false_iff in Ht as [_ Ht]. unfold nonempty in Ht.
      by destruct (String.eqb_spec (BearerTokenFile c) ""). }
    split; [unfold first_token; by rewrite decide_False by naive_solver|].
    unfold auth_values. rewrite Ht.
    destruct (HasBasicAuth c) eqn:Hb; injection Hauth as <- <-; cbn [orb opt].
    + by apply basicAuth_delivers.
    + eapply delivers_impl; [|apply Hd]. intros s s' h h' Hh. by exists s, h.
Qed.

(** What the configuration makes of the headers of a request between two moments. *)
Definition decorated (c : Config) (static : string) (ts : nat) (s s' : St) (h h' : Values) : Prop :=
  (exists h1, (if impersonates (Impersonate c) && negb (nonempty (Header_Get "Impersonate-User" h))
               then acts_as (Impersonate c) h h1 else h1 = h) /\
     forall hk, hk <> "User-Agent" -> hk <> "Authorization" -> h' !! hk = h1 !! hk) /\
  h' !! "User-Agent" =
    (if nonempty (UserAgent c) && negb (nonempty (Header_Get "User-Agent" h)) then Some [UserAgent c] else h !! "User-Agent") /\
  (if authenticates c && negb (nonempty (Header_Get "Authorization" h))
   then exists v s1, auth_values c static ts s s1 v /\ h' !! "Authorization" = Some [v] /\ s'.1 = s1.1 /\ (s1.2 <= s'.2)%nat
   else h' !! "Authorization" = h !! "Authorization" /\ s'.1 = s.1).

Lemma acts_as_elsewhere c h h1 hk :
  acts_as c h h1 -> hk = "User-Agent" \/ hk = "Authorization" -> h1 !! hk = h !! hk.
Proof.
  intros (order & _ & Hh) Hk. rewrite Hh. repeat rewrite decide_False by (destruct Hk as [-> | ->]; naive_solver).
  rewrite list_filter_none; [done|]. apply Forall_forall. intros kv _ He.
  pose proof (extra_key_prefix ImpersonateUserExtraHeaderPrefix kv.1) as Hp. change (extra_key _ kv.1) with (extra_header kv.1) in Hp.
  rewrite He in Hp. by destruct Hk as [-> | ->].
Qed.

Lemma layers_decorate c static ts s s' h h' :
  then_ (opt (impersonates (Impersonate c)) (impersonated (Impersonate c)))
    (then_ (opt (nonempty (UserAgent c)) (sets "User-Agent" (always (UserAgent c))))
      (then_ (opt (authenticates c) (sets "Authorization" (auth_values c static ts))) same)) s s' h h' ->
  decorated c static ts s s' h h'.
Proof.
  intros (s1 & h1 & H1 & s2 & h2 & H2 & s3 & h3 & H3 & Hs' & Hm & ->).
  assert (Hu : s1 = s /\ if impersonates (Impersonate c) && negb (nonempty (Header_Get "Impersonate-User" h))
               then acts_as (Impersonate c) h h1 else h1 = h).
  { destruct (impersonates _); cbn [andb opt] in *; [|done]. destruct H1 as [Hs H1].
    change ImpersonateUserHeader with "Impersonate-User" in H1. by destruct (nonempty _). }
  destruct Hu as [-> Hu]. clear H1.
  assert (Ha : forall hk, hk = "User-Agent" \/ hk = "Authorization" -> h1 !! hk = h !! hk).
  { intros hk Hk. destruct (_ && _); [by eapply acts_as_elsewhere|by subst h1]. }
  assert (Hget : forall key, CanonicalMIMEHeaderKey key = key -> key = "User-Agent" \/ key = "Authorization" ->
    Header_Get key h1 = Header_Get key h).
  { intros key Hc Hk. unfold Header_Get. by rewrite Hc, Ha. }
  assert (H2' : s2 = s /\ h2 = if nonempty (UserAgent c) && negb (nonempty (Header_Get "User-Agent" h))
                     then Header_Set "User-Agent" (UserAgent c) h1 else h1).
  { destruct (nonempty (UserAgent c)); cbn [andb opt] in *; [|done]. unfold sets in H2. rewrite Hget in H2 by auto.
    destruct (nonempty _); [done|]. by destruct H2 as (v & [-> ->] & ->). }
  destruct H2' as [-> H2'].
  assert (Hget2 : Header_Get "Authorization" h2 = Header_Get "Authorization" h).
  { rewrite <- Hget by auto. rewrite H2'. destruct (nonempty (UserAgent c) && _); [|done]. unfold Header_Get, Header_Set.
    by rewrite lookup_insert_ne by done. }
  assert (H2e : forall hk, hk <> "User-Agent" -> h2 !! hk = h1 !! hk).
  { intros hk Hk. rewrite H2'. destruct (nonempty (UserAgent c) && _); [|done]. apply lookup_insert_ne. by intros <-. }
  assert (H3e : forall hk, hk <> "Authorization" -> h3 !! hk = h2 !! hk).
  { intros hk Hk. destruct (authenticates c); cbn [opt] in H3; [|by destruct H3 as [_ ->]]. unfold sets in H3.
    destruct (nonempty (Header_Get _ h2)); [by destruct H3 as [_ ->]|]. destruct H3 as (v & _ & ->). apply lookup_insert_ne. by intros <-. }
  split_and!.
  - exists h1. split; [done|]. intros hk Hua Hau. by rewrite H3e, H2e.
  - rewrite H3e, H2' by done. destruct (nonempty (UserAgent c) && _); [apply lookup_insert_eq|auto].
  - destruct (authenticates c); cbn [andb opt] in *; [|destruct H3 as [-> ->]; rewrite H2e; auto].
    unfold sets in H3. rewrite Hget2 in H3.
    destruct (nonempty (Header_Get "Authorization" h)); cbn [negb] in *; [destruct H3 as [-> ->]; rewrite H2e; auto|].
    destruct H3 as (v & Hv & ->). exists v, s3. split_and!; [done|apply lookup_insert_eq|done|done].
Qed.

(** C32: a client's transport sends each request once, with the headers that the
    configuration stands for.  An Authorization, User-Agent or Impersonate-User header with
    a value that the caller set is not touched.  Without one, the request carries: the
    configured agent; the user to act as, with the UID, which replaces the caller's, and
    the groups and extra values, after the caller's; and the static token, the basic
    credentials or, with a token file, the last token that could be read from it, which
    is less than fifty seconds old unless the file could not be read now, and before any
    was read the static one.  Nothing else changes: the answer of the network is returned,
    and no request the caller holds is modified.  A middleware of the configuration is taken
    to be one that neither changes the headers nor touches the token sources. *)
Theorem requests_decorated c w w1 rt :
  sourced w -> (forall B f, WrapTransport c = Some f -> delivers B (f base) same) ->
  HTTPWrappersForConfig c base w = (w1, inr rt) ->
  exists static ts, first_token c (st w) (st w1) static /\
  forall p w2 r, requests w2 !! p = Some r -> sourced w2 -> bases w1 `prefix_of` bases w2 ->
  exists h' n, decorated c static ts (st w2) (st (rt p w2).1) (RequestHeaders r) h' /\ (rt p w2).2 = Send n h' /\
    sent (rt p w2).1 = sent w2 ++ [h'] /\ requests w2 `prefix_of` requests (rt p w2).1 /\ sourced (rt p w2).1.
Proof.
  intros Hw Hwrap Hc. destruct (chain_delivers c base w w1 rt Hw) as (static & ts & Hst & Hd); [|done|].
  { intros B. destruct (WrapTransport c) as [f|]; [by apply Hwrap|apply base_delivers]. }
  exists static, ts. split; [done|]. intros p w2 r Hp Hw2 HB.
  destruct (Hd p w2 r Hp Hw2 HB) as (h' & n & Hh & Hn & Hs & Hr & _ & Ho). exists h', n.
  split; [by apply layers_decorate|done].
Qed.

(** ** Token sources *)

(** After a 401 for a request that began later than the token was fetched, the next call
    asks the base, whatever the expiry says; a token fetched since then is kept. *)
Lemma reset_token ts start w c :
  sources w !! ts = Some c ->
  let '(w', _) := ResetTokenOlderThan ts start w in
  exists c', sources w' !! ts = Some c' /\ base_source c' = base_source c /\
    (t c < start -> forall now, usable now c' = None) /\ (start <= t c -> c' = c).
Proof.
  intros Hc. unfold ResetTokenOlderThan, bind. assert (Hs : source_at ts w = c) by (unfold source_at; by rewrite Hc).
  rewrite Hs. destruct (Z.ltb_spec (t c) start) as [Ht|Ht]; cbn.
  - rewrite Hs. eexists. split; [apply list_lookup_insert_eq; by eapply lookup_lt_Some|]. by split_and!; [..|lia].
  - exists c. by split_and!; [..|lia|].
Qed.

End transport.

(** ** Composition of wrappers *)

Definition wrap_with (f : WrapperFunc) (rt : RoundTripper) : RoundTripper :=
  match f with Some f => f rt | None => rt end.

(** The shortcuts of [Wrappers] are none: the wrappers apply in order, nil ones ignored. *)
Lemma Wrappers_in_order fns rt : wrap_with (Wrappers fns) rt = fold_left (fun base fn => wrap_with fn base) fns rt.
Proof. destruct fns as [|[f|] [|g [|? ?]]]; done. Qed.

(** A middleware added by [Wrap] sees a request before those added earlier. *)
Lemma Wrap_last c fn rt : wrap_with (WrapTransport (Wrap c fn)) rt = wrap_with fn (wrap_with (WrapTransport c) rt).
Proof. apply Wrappers_in_order. Qed.

(** ** Concrete runs *)

Module samples.

Definition send (n : nat) (h : Values) : string + Response := inr (mkResponse "200 OK" 200 ∅).
Definition now (n : nat) : Z := Z.of_nat n * Second.
(** The token is replaced while the client runs. *)
Definition files (n : nat) (path : string) : string + string :=
  if decide (path = "/token") then inr (if (n <? 5)%nat then "  first
" else "second") else inl "no such file".
Definition others (id n : nat) : string + Token := inl "no token".

Definition conf : Config := mkConfig "kubectl" "" "" "" "/token" (mkImpersonationConfig "" "" [] ∅) None.
Definition req : requestInfo := mkRequestInfo {["Accept" := ["*"]]} "GET" "/api".
Definition world : World := mkWorld [req] [] 0 [] [].

Definition start : World * (string + RoundTripper) :=
  HTTPWrappersForConfig (H := range_in_key_order) now files others id 0 conf (base send) world.

(** The same request sent at two moments. *)
Definition sent_twice : list Values :=
  match start with
  | (w, inr rt) =>
      let w := (rt 0%nat w).1 in
      let w := mkWorld (requests w) (sources w) 55 (sent w) (logs w) in
      sent (rt 0%nat w).1
  | _ => []
  end.

Definition with_token (k : string) : Values :=
  {["Accept" := ["*"]; "User-Agent" := ["kubectl"]; "Authorization" := ["Bearer " +:+ k]]}.

Definition client : RoundTripper := match start.2 with inr rt => rt | inl _ => base send end.

(** The request is sent with the token of the file, though the world is that of the second
    sending, long after the first token was read. *)
Definition later : World := mkWorld (requests start.1) (sources start.1) 55 (sent start.1) (logs start.1).

Lemma requests_decorated_witness :
  start = (start.1, inr client) /\ sent_twice = [with_token "first"; with_token "second"] /\
  exists static ts, static = "first" /\
  exists h' n, decorated now files conf static ts (st later) (st (client 0%nat later).1) (RequestHeaders req) h' /\
    h' = with_token "second" /\ (client 0%nat later).2 = send n h'.
Proof.
  assert (Hs : start = (start.1, inr client)) by reflexivity.
  split; [done|]. split; [by vm_compute|].
  destruct (requests_decorated (H := range_in_key_order) send now files others id 0 conf world start.1 client) as (static & ts & Hst & Hd).
  - by apply Forall_nil.
  - by intros B f ?.
  - exact Hs.
  - exists static, ts. split.
    { unfold first_token in Hst. rewrite decide_True in Hst by (split; [discriminate|reflexivity]).
      destruct Hst as (n & Hn & Hr). assert (Hlt : (n <? 5)%nat = true) by (apply Nat.ltb_lt; vm_compute in Hn; lia).
      unfold reading, files in Hr. rewrite decide_True in Hr by reflexivity. rewrite Hlt in Hr. vm_compute in Hr. by injection Hr as <-. }
    destruct (Hd 0%nat later req) as (h' & n & Hh & Hn & Hse & _); [reflexivity| |reflexivity|].
    + apply Forall_singleton. intros k [= <-]. exists 1%nat. by vm_compute.
    + exists h', n. split; [exact Hh|]. split; [|exact Hn]. 
      assert (He : [with_token "second"] = [h']) by (rewrite <- (app_nil_l [h']); exact Hse). by injection He as ->.
Defined.

(** A plain chain with basic authentication leaves an Authorization header alone. *)
Example own_credentials_win :
  match HTTPWrappersForConfig (H := range_in_key_order) now files others id 0
          (mkConfig "" "user" "pass" "" "" (mkImpersonationConfig "" "" [] ∅) None) (base send)
          (mkWorld [mkRequestInfo {["Authorization" := ["Bearer mine"]]} "GET" "/"; req] [] 0 [] []) with
  | (w, inr rt) => sent (rt 1%nat (rt 0%nat w).1).1
  | _ => []
  end = [{["Authorization" := ["Bearer mine"]]}; {["Accept" := ["*"]; "Authorization" := ["Basic dXNlcjpwYXNz"]]}].
Proof. by vm_compute. Qed.

(** What the caller set is replaced when it is empty, though the comments say that what has
    been set stays, and so is a UID without a user to act as. *)
Example empty_headers_replaced :
  match HTTPWrappersForConfig (H := range_in_key_order) now files others id 0
          (mkConfig "agent" "user" "pass" "" "" (mkImpersonationConfig "jane" "7" ["dev"] ∅) None) (base send)
          (mkWorld [mkRequestInfo {["Authorization" := [""]; "User-Agent" := [""]; "Impersonate-Uid" := ["1"];
                                    "Impersonate-Group" := ["ops"]]} "GET" "/"] [] 0 [] []) with
  | (w, inr rt) => sent (rt 0%nat w).1
  | _ => []
  end = [{["Authorization" := ["Basic dXNlcjpwYXNz"]; "User-Agent" := ["agent"]; "Impersonate-User" := ["jane"];
           "Impersonate-Uid" := ["7"]; "Impersonate-Group" := ["ops"; "dev"]]}].
Proof. by vm_compute. Qed.

End samples.
