(* ===== verification/ExecAuth.v ===== *)
(** * Credentials from a plugin

    plugin/pkg/client/auth/exec/exec.go: the cache of authenticators, the rate limit of the
    install hint, interactive mode, and the authenticator itself with its round
    tripper.  Credentials are pointers into a heap, because [maybeRefreshCreds] compares
    pointers; the plugin, its codec and crypto/tls are parameters, a call of the
    plugin is numbered.  Each method holds the mutex, so it is one step. *)

From S2P Require Import Prelude Objects GoStrings TransportHeaders.
From stdpp Require Import pretty.
#[local] Open Scope Z_scope.

(** ** The cache of authenticators *)

Section cache.
Context {Authenticator : Type}.

Definition cache : Type := gmap string Authenticator.

Definition cache_get (c : cache) (s : string) : option Authenticator := c !! s.

Definition cache_put (c : cache) (s : string) (a : Authenticator) : cache * Authenticator :=
  match c !! s with
  | Some existing => (c, existing)
  | None => (<[s := a]> c, a)
  end.

(** However many goroutines put for a key, all get the first one. *)
Lemma put_first_wins c s (puts : list Authenticator) a :
  (fold_left (fun c b => (cache_put c s b).1) puts (cache_put c s a).1) !! s = Some (cache_put c s a).2.
Proof.
  assert (H0 : (cache_put c s a).1 !! s = Some (cache_put c s a).2).
  { unfold cache_put. destruct (c !! s) eqn:Hs; [done|apply lookup_insert_eq]. }
  revert H0. generalize (cache_put c s a).1 as c'. induction puts as [|b puts IH]; intros c' H0; [done|].
  cbn. apply IH. unfold cache_put at 1. by rewrite H0.
Qed.

End cache.

(** ** A function run only so often *)

Record sometimes : Type := mkSometimes {
  threshold : Z;
  interval : Z;
  count : Z;
  window : Z
}.

(** Whether [f] runs; a zero window has not begun. *)
Definition sometimes_Do (now : Z) (s : sometimes) : sometimes * bool :=
  let window := if window s =? 0 then now else window s in
  let inWindow := time_sub now window <? interval s in
  let '(window, count) := if inWindow then (window, count s) else (now, 0) in
  if count <? threshold s then (mkSometimes (threshold s) (interval s) (count + 1) window, true)
  else (mkSometimes (threshold s) (interval s) count window, false).

(** How often [f] runs in a sequence of calls. *)
Fixpoint runs (times : list Z) (s : sometimes) : Z :=
  match times with
  | [] => 0
  | now :: times => let '(s, ran) := sometimes_Do now s in (if ran then 1 else 0) + runs times s
  end.

Definition sometimes_ok (s : sometimes) : Prop :=
  0 < interval s <= MaxInt64 /\ 0 <= count s <= threshold s /\ 0 <= window s.

Lemma Do_in_window now s :
  sometimes_ok s -> 0 < now <= MaxInt64 -> window s = 0 \/ now - window s < interval s ->
  sometimes_Do now s =
    let w := if window s =? 0 then now else window s in
    if count s <? threshold s then (mkSometimes (threshold s) (interval s) (count s + 1) w, true)
    else (mkSometimes (threshold s) (interval s) (count s) w, false).
Proof.
  intros (Hi & Hc & Hw) Hn Hin. unfold sometimes_Do. cbv zeta.
  rewrite time_sub_ltb by (unfold MinInt64; unfold MaxInt64 in *; lia).
  destruct (Z.eqb_spec (window s) 0) as [Hz|Hz].
  - replace (now - now <? interval s) with true by (symmetry; apply Z.ltb_lt; lia). done.
  - replace (now - window s <? interval s) with true by (symmetry; apply Z.ltb_lt; lia). done.
Qed.

(** Within one window. *)
Lemma runs_in_window times : forall s,
  sometimes_ok s -> Forall (fun t => 0 < t <= MaxInt64 /\ t - window s < interval s) times -> 0 < window s ->
  0 <= runs times s <= threshold s - count s.
Proof.
  induction times as [|t times IH]; intros s Hs Ht Hw; [destruct Hs; cbn; lia|].
  apply Forall_cons in Ht as [[Ht1 Ht2] Ht]. cbn [runs]. rewrite Do_in_window by (done || by right). cbv zeta.
  replace (window s =? 0) with false by (symmetry; apply Z.eqb_neq; lia).
  destruct Hs as (Hi & Hc & Hw'). destruct (Z.ltb_spec (count s) (threshold s)).
  - specialize (IH (mkSometimes (threshold s) (interval s) (count s + 1) (window s))). cbn in IH.
    opose proof* IH; [split; cbn; lia|done|done|lia].
  - specialize (IH (mkSometimes (threshold s) (interval s) (count s) (window s))). cbn in IH.
    opose proof* IH; [split; cbn; lia|done|done|lia].
Qed.

(** The windows are fixed ones: any span of the length of the interval meets two at most,
    so [f] runs at most twice the threshold in it, whatever ran before. *)
Lemma sometimes_bound u times : forall s,
  sometimes_ok s -> StronglySorted Z.le times ->
  Forall (fun t => 0 < t <= MaxInt64 /\ u <= t < u + interval s) times ->
  0 <= runs times s <= (threshold s - count s) + threshold s.
Proof.
  induction times as [|t times IH]; intros s Hs Hsort Ht; [destruct Hs; cbn; lia|].
  apply Forall_cons in Ht as [[Ht1 Ht2] Ht]. apply StronglySorted_inv in Hsort as [Hsort Hall].
  assert (Hafter : Forall (fun t' => 0 < t' <= MaxInt64 /\ t' - t < interval s) times).
  { rewrite Forall_forall in *. intros t' Hin. specialize (Ht t' Hin). specialize (Hall t' Hin). lia. }
  assert (Hlater : forall c, 0 <= c <= threshold s -> 0 <= runs times (mkSometimes (threshold s) (interval s) c t) <= threshold s - c).
  { intros c Hc'. apply runs_in_window; [|done|cbn; lia]. destruct Hs as (? & ? & ?). split; cbn; lia. }
  destruct (decide (window s = 0 \/ t - window s < interval s)) as [Hin|Hout].
  - cbn [runs]. rewrite Do_in_window by done. cbv zeta. destruct Hs as (Hi & Hc & Hw').
    destruct (Z.eqb_spec (window s) 0) as [Hz|Hz]; (destruct (Z.ltb_spec (count s) (threshold s))).
    + specialize (Hlater (count s + 1) ltac:(lia)). lia.
    + specialize (Hlater (count s) ltac:(lia)). lia.
    + opose proof* (IH (mkSometimes (threshold s) (interval s) (count s + 1) (window s))); cbn in *; [split; cbn; lia|done|done|lia].
    + opose proof* (IH (mkSometimes (threshold s) (interval s) (count s) (window s))); cbn in *; [split; cbn; lia|done|done|lia].
  - cbn [runs]. unfold sometimes_Do. destruct Hs as (Hi & Hc & Hw').
    replace (window s =? 0) with false by (symmetry; apply Z.eqb_neq; lia).
    rewrite time_sub_ltb by (unfold MinInt64; unfold MaxInt64 in *; lia).
    replace (t - window s <? interval s) with false by (symmetry; apply Z.ltb_ge; lia).
    destruct (Z.ltb_spec 0 (threshold s)); [specialize (Hlater (0 + 1) ltac:(lia))|specialize (Hlater 0 ltac:(lia))]; lia.
Qed.

(** ** The authenticator *)

Inductive InteractiveMode : Type :=
| NeverExecInteractiveMode
| IfAvailableExecInteractiveMode
| AlwaysExecInteractiveMode
| OtherInteractiveMode (mode : string).

Record ExecConfig : Type := mkExecConfig {
  Command : string;
  Env : list (string * string);
  Group : string;
  Version : string;
  ProvideClusterInfo : bool;
  InstallHint : string;
  Mode : InteractiveMode;
  StdinUnavailable : bool;
  StdinUnavailableMessage : string
}.

Record Leaf : Type := mkLeaf { NotBefore : Z; NotAfter : Z }.

(** [tls.Certificate]: the chain, the key and the parsed leaf. *)
Record Certificate : Type := mkCertificate { chain : list string; PrivateKey : string; leaf : option Leaf }.

#[global] Instance Leaf_eq_dec : EqDecision Leaf.
Proof. solve_decision. Defined.
#[global] Instance Certificate_eq_dec : EqDecision Certificate.
Proof. solve_decision. Defined.

Record credentials : Type := mkCredentials { token : string; cert : option Certificate }.

Record ExecCredentialStatus : Type := mkStatus {
  ExpirationTimestamp : option Z;
  Token : string;
  ClientCertificateData : string;
  ClientKeyData : string
}.

(** How running the plugin ended. *)
Inductive run_result : Type :=
| NotFound
| ExitError (code : Z)
| OtherError (msg : string)
| Output (stdout : string).

(** [Authenticator], with the heap of credentials, the number of plugin calls, the moment
    of the clock, and how often the connections were closed. *)
Record Authenticator : Type := mkAuth {
  cachedCreds : option nat;
  exp : Z;
  hint : sometimes;
  heap : list credentials;
  calls : nat;
  moment : nat;
  closed : nat
}.

Definition set_exp (e : Z) (a : Authenticator) : Authenticator :=
  mkAuth (cachedCreds a) e (hint a) (heap a) (calls a) (moment a) (closed a).
Definition set_hint (s : sometimes) (a : Authenticator) : Authenticator :=
  mkAuth (cachedCreds a) (exp a) s (heap a) (calls a) (moment a) (closed a).
Definition called (a : Authenticator) : Authenticator :=
  mkAuth (cachedCreds a) (exp a) (hint a) (heap a) (S (calls a)) (moment a) (closed a).
Definition tick (a : Authenticator) : Authenticator :=
  mkAuth (cachedCreds a) (exp a) (hint a) (heap a) (calls a) (S (moment a)) (closed a).
(** [a.cachedCreds = newCreds], a new pointer. *)
Definition cache_creds (c : credentials) (a : Authenticator) : Authenticator :=
  mkAuth (Some (length (heap a))) (exp a) (hint a) (heap a ++ [c]) (calls a) (moment a) (closed a).
Definition CloseAll (a : Authenticator) : Authenticator :=
  mkAuth (cachedCreds a) (exp a) (hint a) (heap a) (calls a) (moment a) (S (closed a)).

Definition no_creds : credentials := mkCredentials "" None.
Definition creds_at (p : nat) (a : Authenticator) : credentials := default no_creds (heap a !! p).

Definition M (A : Type) : Type := stateM Authenticator unit A.
Definition modify (f : Authenticator -> Authenticator) : M unit := fun a => (f a, Ok tt).
Definition fail {A} (format : string) (args : list string) : M A := sthrow (Errorf format args).
Definition from_sum {A} (format : string) (r : string + A) : M A :=
  match r with inl err => fail format [err] | inr x => sret x end.
Notation "'do' x <- m ; k" := (sbind m (fun x => k)) (at level 200, x pattern, m at level 100, k at level 200).

Definition newline : string := "
".
Definition installHintVerboseHelp : string := "

It looks like you are trying to use a client-go credential plugin that is not installed.

To learn more about this feature, consult the documentation available at:
      https://kubernetes.io/docs/reference/access-authn-authz/authentication/#client-go-credential-plugins".

Section exec.
Variable conf : ExecConfig.
Variable Now : nat -> Z.
(** [term.IsTerminal] of standard input; [os.Environ]. *)
Variable isTerminal : bool.
Variable Environ : list string.
(** The cluster as the plugin is told it, and the encoding of the request. *)
Variable Cluster : Type.
Variable cluster : option Cluster.
Variable Encode : bool -> option Cluster -> string + string.
(** The plugin, by the number of the call. *)
Variable Run : nat -> list string -> bool -> run_result.
(** The codec: group, version and status of what was printed. *)
Variable Decode : string -> string + (string * string * option ExecCredentialStatus).
(** [tls.X509KeyPair]: chain and key; [x509.ParseCertificate]. *)
Variable X509KeyPair : string -> string -> string + (list string * string).
Variable ParseCertificate : string -> string + Leaf.

Definition isInteractive : result unit bool :=
  match Mode conf with
  | NeverExecInteractiveMode => Ok false
  | IfAvailableExecInteractiveMode => Ok (negb (StdinUnavailable conf) && isTerminal)
  | AlwaysExecInteractiveMode =>
      if negb isTerminal then Err (Errorf "standard input is not a terminal" [])
      else if StdinUnavailable conf then
        let suffix := if decide (StdinUnavailableMessage conf = "") then "" else ": " +:+ StdinUnavailableMessage conf in
        Err (Errorf "standard input is unavailable%s" [suffix])
      else Ok true
  | OtherInteractiveMode mode => Err (Errorf "unknown interactiveMode: %q" [mode])
  end.

Definition wrapCmdRunErrorLocked {A} (r : run_result) : M A :=
  match r with
  | NotFound => fun a =>
      let '(s, ran) := sometimes_Do (Now (moment a)) (hint a) in
      (tick (set_hint s a),
       Err (Errorf "exec: executable %s not found%s%s"
         [Command conf; (if ran then installHintVerboseHelp else "");
          (if ran then (if decide (InstallHint conf = "") then "" else newline +:+ newline +:+ InstallHint conf) else "")]))
  | ExitError code => fail "exec: executable %s failed with exit code %d" [Command conf; pretty code]
  | OtherError msg => fail "exec: %v" [msg]
  | Output _ => fail "exec: %v" [""]
  end.

(** The certificate of a status, with its leaf parsed. *)
Definition parse_cert (st : ExecCredentialStatus) : M (option Certificate) :=
  if bool_decide (ClientKeyData st <> "") && bool_decide (ClientCertificateData st <> "") then
    do c <- from_sum "failed parsing client key/certificate: %v" (X509KeyPair (ClientCertificateData st) (ClientKeyData st));
    do l <- from_sum "failed parsing client leaf certificate: %v" (ParseCertificate (hd "" c.1));
    sret (Some (mkCertificate c.1 c.2 (Some l)))
  else sret None.

Definition check_status (st : option ExecCredentialStatus) : M ExecCredentialStatus :=
  match st with
  | None => fail "exec plugin didn't return a status field" []
  | Some st =>
      if bool_decide (Token st = "") && bool_decide (ClientCertificateData st = "") && bool_decide (ClientKeyData st = "")
      then fail "exec plugin didn't return a token or cert/key pair" []
      else if negb (Bool.eqb (bool_decide (ClientCertificateData st = "")) (bool_decide (ClientKeyData st = "")))
      then fail "exec plugin returned only certificate or key, not both" []
      else sret st
  end.

(** Connections are closed where there were credentials and the certificate changed. *)
Definition rotate_connections (old : option nat) (newCreds : credentials) : M unit := fun a =>
  match old with
  | Some p => if decide (cert (creds_at p a) = cert newCreds) then (a, Ok tt) else (CloseAll a, Ok tt)
  | None => (a, Ok tt)
  end.

(** Up to the new credentials; the expiry is set before the key pair is parsed. *)
Definition obtain : M credentials :=
  do interactive <- (fun a => (a, match isInteractive with
    | Ok b => Ok b | Err e => Err (Wrapf "exec plugin cannot support interactive mode: %w" e) end));
  let info := if ProvideClusterInfo conf then cluster else None in
  do data <- from_sum "encode ExecCredentials: %v" (Encode interactive info);
  let env := Environ ++ map (fun '(k, v) => k +:+ "=" +:+ v) (Env conf) ++ ["KUBERNETES_EXEC_INFO=" +:+ data] in
  do r <- (fun a => (called a, Ok (Run (calls a) env interactive)));
  match r with
  | Output stdout =>
      do decoded <- from_sum "decoding stdout: %v" (Decode stdout);
      let '(group, version, st) := decoded in
      if negb (String.eqb group (Group conf)) || negb (String.eqb version (Version conf))
      then fail "exec plugin is configured to use API version %s, plugin returned version %s"
        [Group conf +:+ "/" +:+ Version conf; group +:+ "/" +:+ version]
      else
        do st <- check_status st;
        do _ <- modify (set_exp (default 0 (ExpirationTimestamp st)));
        do c <- parse_cert st;
        sret (mkCredentials (Token st) c)
  | r => wrapCmdRunErrorLocked r
  end.

Definition refreshCredsLocked : M unit :=
  do newCreds <- obtain;
  do oldCreds <- (fun a => (a, Ok (cachedCreds a)));
  do _ <- modify (cache_creds newCreds);
  rotate_connections oldCreds newCreds.

Definition credsExpired : M bool := fun a =>
  if exp a =? 0 then (a, Ok false) else (tick a, Ok (exp a <? Now (moment a))).

(** The cached pointer, which a refresh that returned has set. *)
Definition refreshed : M nat :=
  do _ <- refreshCredsLocked;
  (fun a => (a, Ok (default 0%nat (cachedCreds a)))).

Definition getCreds : M nat :=
  do cached <- (fun a => (a, Ok (cachedCreds a)));
  match cached with
  | Some p => do expired <- credsExpired; if (expired : bool) then refreshed else sret p
  | None => refreshed
  end.

Definition maybeRefreshCreds (creds : nat) : M unit := fun a =>
  if decide (cachedCreds a = Some creds) then refreshCredsLocked a else (a, Ok tt).

(** ** Lemmas *)

(** A part that leaves the cached credentials alone, and calls the plugin at most once. *)
Record kept (a a' : Authenticator) : Prop := mkKept {
  kept_creds : cachedCreds a' = cachedCreds a;
  kept_heap : heap a' = heap a;
  kept_closed : closed a' = closed a;
  kept_calls : (calls a <= calls a' <= S (calls a))%nat
}.

Definition obtained (a a' : Authenticator) (c : credentials) : Prop :=
  calls a' = S (calls a) /\ exists env i out g st, Run (calls a) env i = Output out /\ Decode out = inr (g, Some st) /\
    token c = Token st /\ exp a' = default 0 (ExpirationTimestamp st).

Lemma check_status_cases st a : exists o, check_status st a = (a, o) /\ forall st', o = Ok st' -> st = Some st'.
Proof.
  destruct st as [st|]; [|by eexists]. unfold check_status. repeat case_match; eexists; (split; [done|]); by intros ? [=->] || by intros.
Qed.

Lemma parse_cert_cases st a : exists o, parse_cert st a = (a, o).
Proof.
  unfold parse_cert. destruct (_ && _); [|by eexists]. unfold sbind.
  destruct (X509KeyPair _ _) as [|c]; [by eexists|]. cbn. destruct (ParseCertificate _); by eexists.
Qed.

Lemma wrap_cases {A} r a : exists a' e, wrapCmdRunErrorLocked (A := A) r a = (a', Err e) /\
  kept a a' /\ calls a' = calls a /\ exp a' = exp a.
Proof.
  destruct r; cbn; [destruct (sometimes_Do _ _)|..]; do 2 eexists; (split; [done|]); repeat split; cbn; lia.
Qed.

Lemma obtain_spec a : let '(a', o) := obtain a in
  kept a a' /\ match o with Ok c => obtained a a' c | Err _ => True end.
Proof.
  unfold obtain, sbind. destruct isInteractive as [i|e]; [|by repeat split; cbn; lia].
  set (info := if ProvideClusterInfo conf then cluster else None).
  destruct (Encode i info) as [err|data]; cbn [from_sum fail sthrow sret]; [by repeat split; cbn; lia|].
  set (env := Environ ++ _). destruct (Run (calls a) env i) as [|code|msg|out] eqn:Hrun;
    try (match goal with |- context [wrapCmdRunErrorLocked ?r (called a)] =>
           destruct (wrap_cases (A := credentials) r (called a)) as (a' & e & -> & [] & Hc & _) end;
         (split; [|done]); split; cbn in *; try done; lia).
  destruct (Decode out) as [err|[g [st|]]] eqn:Hd; cbn [from_sum fail sthrow sret]; [by repeat split; cbn; lia| |];
    destruct g as [g v]; (destruct (negb _ || negb _); [by repeat split; cbn; lia|]); [|by repeat split; cbn; lia].
  destruct (check_status_cases (Some st) (called a)) as ([st'|e] & -> & Hst); [|by repeat split; cbn; lia].
  specialize (Hst st' eq_refl) as [= <-]. cbn [modify].
  destruct (parse_cert_cases st (set_exp (default 0 (ExpirationTimestamp st)) (called a))) as ([c|e] & ->); [|by repeat split; cbn; lia].
  cbn. split; [by repeat split; cbn; lia|]. split; [done|]. by exists env, i, out, (g, v), st.
Qed.

(** A refresh either fails and leaves the credentials, or caches new ones under a pointer
    that was never used, and closes the connections exactly when there were others with
    another certificate. *)
Definition pointed (a : Authenticator) : Prop := forall p, cachedCreds a = Some p -> (p < length (heap a))%nat.

Lemma refresh_spec a : pointed a -> let '(a', o) := refreshCredsLocked a in
  (calls a <= calls a' <= S (calls a))%nat /\
  match o with
  | Ok _ => cachedCreds a' = Some (length (heap a)) /\
      exists c a1, obtained a a1 c /\ exp a' = exp a1 /\ calls a' = S (calls a) /\ heap a' = heap a ++ [c] /\
        closed a' = (closed a +
          match cachedCreds a with
          | Some p => if decide (cert (creds_at p a) = cert c) then 0 else 1
          | None => 0
          end)%nat
  | Err _ => cachedCreds a' = cachedCreds a /\ heap a' = heap a /\ closed a' = closed a
  end.
Proof.
  intros Hp. unfold refreshCredsLocked, sbind. pose proof (obtain_spec a) as Ho.
  destruct (obtain a) as [a1 [c|e]]; destruct Ho as [[Hc Hh Hcl Hca] Ho]; [|done]. cbn [modify].
  unfold rotate_connections. rewrite Hc.
  assert (H1 : forall p, cachedCreds a = Some p -> creds_at p (cache_creds c a1) = creds_at p a).
  { intros p Hs. unfold creds_at, cache_creds. cbn. rewrite Hh, lookup_app_l by auto. done. }
  destruct (cachedCreds a) as [p|].
  - rewrite H1 by done. case_decide; cbn; (split; [lia|]); rewrite Hh; (split; [done|]); exists c, a1; (split; [done|]);
      destruct Ho as [Hcalls _]; (split_and!; [done|done|done|]); [rewrite decide_True by done|rewrite decide_False by done]; lia.
  - cbn. split; [lia|]. rewrite Hh. split; [done|]. exists c, a1. split; [done|].
    destruct Ho as [Hcalls _]. repeat split; lia.
Qed.

(** ** Many goroutines *)

(** The calls that the goroutines of a client make, in the order in which they get the
    mutex. *)
Inductive op : Type :=
| Get
| MaybeRefresh (creds : nat).

Definition step (o : op) (a : Authenticator) : Authenticator :=
  match o with
  | Get => (getCreds a).1
  | MaybeRefresh p => (maybeRefreshCreds p a).1
  end.

Definition after (ops : list op) (a : Authenticator) : Authenticator := fold_left (fun a o => step o a) ops a.

(** What every operation does: it refreshes, or leaves all but the clock. *)
Definition idle (a a' : Authenticator) : Prop :=
  cachedCreds a' = cachedCreds a /\ exp a' = exp a /\ heap a' = heap a /\ closed a' = closed a /\ calls a' = calls a.

Lemma credsExpired_idle a : exists a' b, credsExpired a = (a', Ok b) /\ idle a a' /\
  (b = false -> exp a = 0 \/ Now (moment a) <= exp a).
Proof.
  unfold credsExpired. destruct (Z.eqb_spec (exp a) 0) as [He|He]; do 2 eexists; (split; [done|]); (split; [done|]); [by left|].
  intros Hb%Z.ltb_ge. by right.
Qed.

Lemma getCreds_cases a a' o : getCreds a = (a', o) ->
  (exists p, cachedCreds a = Some p /\ o = Ok p /\ idle a a' /\ (exp a = 0 \/ Now (moment a) <= exp a)) \/
  (exists a1, idle a a1 /\ refreshed a1 = (a', o)).
Proof.
  unfold getCreds, sbind. destruct (cachedCreds a) as [p|] eqn:Hc; [|intros Hr; right; by exists a].
  destruct (credsExpired_idle a) as (a1 & [] & -> & Hi & Hb); [intros Hr; right; by exists a1|].
  intros [= <- <-]. left. exists p. by split_and!; [..|apply Hb].
Qed.

Lemma refreshed_fst a : (refreshed a).1 = (refreshCredsLocked a).1.
Proof. unfold refreshed, sbind. by destruct (refreshCredsLocked a) as [a1 [[]|e]]. Qed.

Lemma step_cases o a : exists a1, idle a a1 /\ (step o a = a1 \/ step o a = (refreshCredsLocked a1).1).
Proof.
  destruct o as [|p]; cbn [step].
  - destruct (getCreds a) as [a' r] eqn:Hg. destruct (getCreds_cases a a' r Hg) as [(p & _ & _ & Hi & _)|(a1 & Hi & Hr)].
    + exists a'. by split; [|left].
    + exists a1. split; [done|]. right. by rewrite <- refreshed_fst, Hr.
  - unfold maybeRefreshCreds. exists a. case_decide; (split; [done|]); [by right|by left].
Qed.

Lemma refresh_pointed a : pointed a ->
  let a' := (refreshCredsLocked a).1 in
  pointed a' /\ (length (heap a) <= length (heap a'))%nat /\
  (cachedCreds a' = cachedCreds a \/ exists p, cachedCreds a' = Some p /\ (length (heap a) <= p)%nat).
Proof.
  intros Hp. pose proof (refresh_spec a Hp) as Hr. destruct (refreshCredsLocked a) as [a' [[]|e]]; cbn.
  - destruct Hr as (_ & Hc & c & a1 & _ & _ & _ & Hh & _). unfold pointed. rewrite Hc, Hh, length_app. cbn. split_and!.
    + intros p [= <-]. lia.
    + lia.
    + right. eexists. by split; [done|].
  - destruct Hr as (_ & Hc & Hh & _). unfold pointed. rewrite Hc, Hh. split_and!; [done|lia|by left].
Qed.

Lemma step_pointed o a : pointed a ->
  pointed (step o a) /\ (length (heap a) <= length (heap (step o a)))%nat /\
  (cachedCreds (step o a) = cachedCreds a \/ exists p, cachedCreds (step o a) = Some p /\ (length (heap a) <= p)%nat).
Proof.
  intros Hp. destruct (step_cases o a) as (a1 & (Hc & _ & Hh & _) & Hs).
  assert (H1 : pointed a1) by (unfold pointed; by rewrite Hc, Hh).
  destruct Hs as [-> | ->]; [rewrite Hc, Hh; split_and!; [done|lia|by left]|].
  pose proof (refresh_pointed a1 H1) as Hr. cbn zeta in Hr. by rewrite Hc, Hh in Hr.
Qed.

(** Credentials that were replaced do not come back. *)
Definition replaced (p : nat) (a : Authenticator) : Prop := pointed a /\ (p < length (heap a))%nat /\ cachedCreds a <> Some p.

Lemma after_pointed ops a : pointed a -> pointed (after ops a) /\ (length (heap a) <= length (heap (after ops a)))%nat.
Proof.
  revert a. induction ops as [|o ops IH]; intros a Hp; [done|]. destruct (step_pointed o a Hp) as (H1 & Hh & _).
  destruct (IH _ H1) as [H2 Hh']. split; [done|]. change (after (o :: ops) a) with (after ops (step o a)). lia.
Qed.

Lemma after_replaced ops p a : replaced p a -> replaced p (after ops a).
Proof.
  revert a. induction ops as [|o ops IH]; intros a (Hp & Hl & Hc); [done|]. apply IH.
  destruct (step_pointed o a Hp) as (H1 & Hh & Hs). split; [done|]. split; [lia|].
  destruct Hs as [->|(q & -> & Hq)]; [done|]. intros [= ->]. lia.
Qed.

Lemma getCreds_pointer a a1 p : pointed a -> getCreds a = (a1, Ok p) ->
  pointed a1 /\ cachedCreds a1 = Some p /\ (p < length (heap a1))%nat.
Proof.
  intros Hp Hg. assert (H1 : pointed a1).
  { replace a1 with (step Get a) by (cbn [step]; by rewrite Hg). by apply step_pointed. }
  enough (Hc : cachedCreds a1 = Some p) by (by split_and!; [..|apply H1]).
  destruct (getCreds_cases a a1 _ Hg) as [(q & Hq & [= <-] & (Hc & _) & _)|(a2 & (Hc & _ & Hh & _) & Hr)]; [by rewrite Hc|].
  assert (H2 : pointed a2) by (unfold pointed; by rewrite Hc, Hh).
  unfold refreshed, sbind in Hr. pose proof (refresh_spec a2 H2) as Hs.
  destruct (refreshCredsLocked a2) as [a3 [[]|e]]; [|done]. injection Hr as -> <-. destruct Hs as (_ & -> & _). done.
Qed.

(** C33: one rotation for credentials that the server refused, however many goroutines
    used them.  After any calls of the others the credentials are still cached or were
    replaced.  If they are still cached, [maybeRefreshCreds] makes one plugin call, and
    where it succeeds they are replaced by new ones; once they were replaced, by whom
    ever, [maybeRefreshCreds] with them does nothing, for good. *)
Theorem exec_one_rotation a a1 p ops :
  pointed a -> getCreds a = (a1, Ok p) ->
  let b := after ops a1 in
  (cachedCreds b = Some p /\
    forall b', maybeRefreshCreds p b = (b', Ok tt) ->
      calls b' = S (calls b) /\ length (heap b') = S (length (heap b)) /\
      forall ops', maybeRefreshCreds p (after ops' b') = (after ops' b', Ok tt)) \/
  (cachedCreds b <> Some p /\
    forall ops', maybeRefreshCreds p (after ops' b) = (after ops' b, Ok tt)).
Proof.
  intros Hp Hg b. destruct (getCreds_pointer _ _ _ Hp Hg) as (H1 & _ & Hl).
  destruct (after_pointed ops a1 H1) as [Hb Hlb]. fold b in Hb, Hlb.
  assert (Hno : forall c ops', replaced p c -> maybeRefreshCreds p (after ops' c) = (after ops' c, Ok tt)).
  { intros c ops' Hc. destruct (after_replaced ops' p c Hc) as (_ & _ & Hn). unfold maybeRefreshCreds. by rewrite decide_False. }
  destruct (decide (cachedCreds b = Some p)) as [Hc|Hc]; [left|right].
  - split; [done|]. intros b' Hm. unfold maybeRefreshCreds in Hm. rewrite decide_True in Hm by done.
    pose proof (refresh_spec b Hb) as Hr. pose proof (refresh_pointed b Hb) as Hp'. rewrite Hm in Hr, Hp'.
    destruct Hr as (_ & Hc' & c & a2 & _ & _ & Hcalls & Hh & _). cbn in Hp'. destruct Hp' as (Hp' & Hlen & _).
    rewrite Hh, length_app. cbn. split; [done|]. split; [lia|]. intros ops'. apply Hno.
    split; [done|]. split; [lia|]. rewrite Hc'. intros [= He]. lia.
  - split; [done|]. intros ops'. apply Hno. split; [done|]. split; [lia|done].
Qed.

(** ** Expiry *)

(** Every key pair that the plugin prints can be parsed. *)
Definition key_pairs_parse : Prop :=
  forall n env i out g st, Run n env i = Output out -> Decode out = inr (g, Some st) ->
    ClientKeyData st <> "" -> ClientCertificateData st <> "" ->
    exists c l, X509KeyPair (ClientCertificateData st) (ClientKeyData st) = inr c /\ ParseCertificate (hd "" c.1) = inr l.

Lemma parse_cert_ok st a : (ClientKeyData st <> "" -> ClientCertificateData st <> "" ->
    exists c l, X509KeyPair (ClientCertificateData st) (ClientKeyData st) = inr c /\ ParseCertificate (hd "" c.1) = inr l) ->
  exists c, parse_cert st a = (a, Ok c).
Proof.
  intros Hp. unfold parse_cert. do 2 case_bool_decide; cbn [andb]; try by eexists.
  destruct Hp as (c & l & Hc & Hl); [done|done|]. rewrite Hc. unfold sbind. cbn. rewrite Hl. by eexists.
Qed.

(** A refresh that fails before it looks at the key pair leaves the expiry. *)
Lemma obtain_fails_exp a a' e : key_pairs_parse -> obtain a = (a', Err e) -> exp a' = exp a.
Proof.
  intros Hkp. unfold obtain, sbind. destruct isInteractive as [i|err]; [|by intros [= <- _]].
  set (info := if ProvideClusterInfo conf then cluster else None).
  destruct (Encode i info) as [err|data]; cbn [from_sum fail sthrow sret]; [by intros [= <- _]|].
  set (env := Environ ++ _). destruct (Run (calls a) env i) as [|code|msg|out] eqn:Hrun;
    try (match goal with |- context [wrapCmdRunErrorLocked ?r (called a)] =>
           destruct (wrap_cases (A := credentials) r (called a)) as (a2 & e2 & -> & _ & _ & He) end;
         intros [= <- _]; exact He).
  destruct (Decode out) as [err|[g [st|]]] eqn:Hd; cbn [from_sum fail sthrow sret]; [by intros [= <- _]| |];
    destruct g as [g v]; (destruct (negb _ || negb _); [by intros [= <- _]|]); [|by intros [= <- _]].
  destruct (check_status_cases (Some st) (called a)) as ([st'|err] & -> & Hst); [|by intros [= <- _]].
  specialize (Hst st' eq_refl) as [= <-]. cbn [modify].
  destruct (parse_cert_ok st (set_exp (default 0 (ExpirationTimestamp st)) (called a))) as [c ->]; [by eapply Hkp|done].
Qed.

Lemma refresh_fails_exp a a' e : key_pairs_parse -> refreshCredsLocked a = (a', Err e) -> exp a' = exp a.
Proof.
  intros Hkp. unfold refreshCredsLocked, sbind. destruct (obtain a) as [a1 [c|err]] eqn:Ho.
  - cbn [modify]. unfold rotate_connections. repeat case_match; done.
  - intros [= <- _]. by eapply obtain_fails_exp.
Qed.

Lemma step_exp o a p : key_pairs_parse -> pointed a -> cachedCreds a = Some p -> cachedCreds (step o a) = Some p ->
  exp (step o a) = exp a.
Proof.
  intros Hkp Hp Ha Hs. destruct (step_cases o a) as (a1 & (Hc & He & Hh & _) & Hcases).
  destruct Hcases as [Hcases|Hcases]; rewrite Hcases in *; [done|].
  assert (H1 : pointed a1) by (unfold pointed; by rewrite Hc, Hh).
  pose proof (refresh_spec a1 H1) as Hr. destruct (refreshCredsLocked a1) as [a2 [[]|e]] eqn:Hf; cbn [fst] in *.
  - destruct Hr as (_ & Hr & _). rewrite Hr in Hs. injection Hs as Hs. specialize (Hp p Ha). rewrite Hh in Hs. lia.
  - rewrite <- He. by eapply refresh_fails_exp.
Qed.

Lemma after_exp ops p : key_pairs_parse -> forall a, pointed a -> cachedCreds a = Some p ->
  cachedCreds (after ops a) = Some p -> exp (after ops a) = exp a.
Proof.
  intros Hkp. induction ops as [|o ops IH]; intros a Hp Ha Hs; [done|].
  change (after (o :: ops) a) with (after ops (step o a)) in *. destruct (step_pointed o a Hp) as (H1 & Hh & Hc).
  destruct (decide (cachedCreds (step o a) = Some p)) as [Hd|Hd].
  - rewrite IH by done. by apply (step_exp _ _ p).
  - destruct (after_replaced ops p (step o a)) as (_ & _ & Hn); [|done].
    split; [done|]. split; [specialize (Hp p Ha); lia|done].
Qed.

(** Where the key pairs of the plugin can be parsed, credentials are not handed out
    after the expiry that came with them: if they are handed out at one time and again
    later, then at the later time the clock has not passed the expiry recorded at the
    first, or they have none. *)
Theorem exec_creds_unexpired a a1 p ops b :
  key_pairs_parse -> pointed a -> getCreds a = (a1, Ok p) -> getCreds (after ops a1) = (b, Ok p) ->
  exp a1 = 0 \/ Now (moment (after ops a1)) <= exp a1.
Proof.
  intros Hkp Hp Hg Hg'. destruct (getCreds_pointer _ _ _ Hp Hg) as (H1 & Hc & Hl).
  destruct (after_pointed ops a1 H1) as [H2 Hl'].
  destruct (getCreds_cases _ _ _ Hg') as [(q & Hq & [= <-] & _ & He)|(a2 & (Hc2 & _ & Hh & _) & Hr)].
  - by rewrite (after_exp ops p Hkp a1 H1 Hc Hq) in He.
  - exfalso. assert (H3 : pointed a2) by (unfold pointed; by rewrite Hc2, Hh).
    unfold refreshed, sbind in Hr. pose proof (refresh_spec a2 H3) as Hs.
    destruct (refreshCredsLocked a2) as [a3 [[]|e]]; [|done]. injection Hr as -> Hd. destruct Hs as (_ & Hs & _).
    rewrite Hs in Hd. cbn in Hd. rewrite Hh in Hd. lia.
Qed.

(** ** The round tripper *)

(** The authenticator, the headers of the requests by pointer, and what was sent. *)
Record Client : Type := mkClient { auth : Authenticator; requests : list Values; sent : list Values }.

(** The transport below: a status code by the number of the request. *)
Variable Base : nat -> Values -> string + Z.

Definition send (p : nat) (c : Client) : Client * (string + Z) :=
  let h := default ∅ (requests c !! p) in
  (mkClient (auth c) (requests c) (sent c ++ [h]), Base (length (sent c)) h).

Definition roundTripper_RoundTrip (req : nat) (c : Client) : Client * (result unit Z) :=
  let h := default ∅ (requests c !! req) in
  if negb (String.eqb (Header_Get "Authorization" h) "") then
    let '(c, res) := send req c in (c, match res with inl err => Err (Errorf err []) | inr res => Ok res end)
  else
    match getCreds (auth c) with
    | (a, Err err) => (mkClient a (requests c) (sent c), Err (Wrapf "getting credentials: %v" err))
    | (a, Ok creds) =>
        let tok := token (creds_at creds a) in
        let rs := if decide (tok = "") then requests c
                  else <[req := Header_Set "Authorization" ("Bearer " +:+ tok) h]> (requests c) in
        let '(c, res) := send req (mkClient a rs (sent c)) in
        match res with
        | inl err => (c, Err (Errorf err []))
        | inr res =>
            let c := if res =? 401 then mkClient (maybeRefreshCreds creds (auth c)).1 (requests c) (sent c) else c in
            (c, Ok res)
        end
    end.

End exec.

(** ** Concrete runs *)

Module samples.

Definition conf : ExecConfig := mkExecConfig "login" [("USER", "me")] "g" "v1" false "install it" NeverExecInteractiveMode false "".
Definition fresh : Authenticator := mkAuth None 0 (mkSometimes 10 (3600 * Second) 0 0) [] 0 0 0.

(** The plugin prints its call number; the tokens live for ten seconds. *)
Definition now (n : nat) : Z := Second * Z.of_nat (S n).
Definition run (n : nat) (env : list string) (stdin : bool) : run_result := Output (pretty n).
Definition decode (out : string) : string + (string * string * option ExecCredentialStatus) :=
  inr ("g", "v1", Some (mkStatus (Some (10 * Second)) ("token" +:+ out) "" "")).

Lemma fresh_pointed : pointed fresh.
Proof. done. Qed.

(** A plugin whose second answer is a key pair that cannot be parsed, with a late expiry. *)
Definition bad_decode (out : string) : string + (string * string * option ExecCredentialStatus) :=
  if decide (out = "0") then inr ("g", "v1", Some (mkStatus (Some (10 * Second)) "old" "" ""))
  else inr ("g", "v1", Some (mkStatus (Some (1000 * Second)) "new" "cert" "key")).

Section with_plugin.
Variable dec : string -> string + (string * string * option ExecCredentialStatus).

Definition get : Authenticator -> Authenticator * result unit nat :=
  getCreds conf now false [] unit None (fun _ _ => inr "{}") run dec (fun _ _ => inl "bad pair") (fun _ => inl "bad certificate").
Definition maybe (p : nat) : Authenticator -> Authenticator * result unit unit :=
  maybeRefreshCreds conf now false [] unit None (fun _ _ => inr "{}") run dec (fun _ _ => inl "bad pair") (fun _ => inl "bad certificate") p.
Definition at_moment (n : nat) (a : Authenticator) : Authenticator :=
  mkAuth (cachedCreds a) (exp a) (hint a) (heap a) (calls a) n (closed a).

End with_plugin.

(** Two goroutines with one refused token: one call. *)
Lemma exec_one_rotation_witness :
  let a1 := (get decode fresh).1 in
  let b := (maybe decode 0 a1).1 in
  get decode fresh = (a1, Ok 0%nat) /\ calls b = 2%nat /\ (maybe decode 0 b).1 = b /\
  (cachedCreds a1 = Some 0%nat /\
    (forall b', maybe decode 0 a1 = (b', Ok tt) ->
      calls b' = S (calls a1) /\ length (heap b') = S (length (heap a1)) /\
      forall ops', maybe decode 0 (after conf now false [] unit None (fun _ _ => inr "{}") run decode (fun _ _ => inl "bad pair") (fun _ => inl "bad certificate") ops' b') =
        (after conf now false [] unit None (fun _ _ => inr "{}") run decode (fun _ _ => inl "bad pair") (fun _ => inl "bad certificate") ops' b', Ok tt)) \/
   (cachedCreds a1 <> Some 0%nat /\
    forall ops', maybe decode 0 (after conf now false [] unit None (fun _ _ => inr "{}") run decode (fun _ _ => inl "bad pair") (fun _ => inl "bad certificate") ops' a1) =
        (after conf now false [] unit None (fun _ _ => inr "{}") run decode (fun _ _ => inl "bad pair") (fun _ => inl "bad certificate") ops' a1, Ok tt))).
Proof.
  cbv zeta. split; [by vm_compute|]. split; [by vm_compute|]. split; [by vm_compute|].
  exact (exec_one_rotation conf now false [] unit None (fun _ _ => inr "{}") run decode (fun _ _ => inl "bad pair")
    (fun _ => inl "bad certificate") fresh (get decode fresh).1 0%nat [] fresh_pointed eq_refl).
Defined.

Lemma exec_creds_unexpired_witness :
  let a1 := (get decode fresh).1 in
  get decode fresh = (a1, Ok 0%nat) /\ (get decode a1).2 = Ok 0%nat /\ (get decode (at_moment 20 a1)).2 = Ok 1%nat /\
  (exp a1 = 0 \/ now (moment a1) <= exp a1).
Proof.
  cbv zeta. split; [by vm_compute|]. split; [by vm_compute|]. split; [by vm_compute|].
  apply (exec_creds_unexpired conf now false [] unit None (fun _ _ => inr "{}") run decode (fun _ _ => inl "bad pair")
    (fun _ => inl "bad certificate") fresh (get decode fresh).1 0%nat [] (get decode (get decode fresh).1).1).
  - intros n env i out g st _ [= _ <-]. done.
  - exact fresh_pointed.
  - reflexivity.
  - reflexivity.
Defined.

(** The expiry is set before the key pair is parsed: after a failed refresh the expired
    credentials are handed out again, as if they were the new ones. *)
Example failed_parse_revives_expired :
  let a1 := (get bad_decode fresh).1 in
  let late := at_moment 20 a1 in
  exp a1 = 10 * Second /\ now 20 = 21 * Second /\
  (get bad_decode late).2 = Err (Errorf "failed parsing client key/certificate: %v" ["bad pair"]) /\
  let b := (get bad_decode late).1 in
  (get bad_decode b).2 = Ok 0%nat /\ creds_at 0 b = mkCredentials "old" None.
Proof. by vm_compute. Qed.

(** The header is written into the request of the caller: a second try with the same
    request carries the first token, refused or not. *)
Example request_is_changed :
  let trip := roundTripper_RoundTrip conf now false [] unit None (fun _ _ => inr "{}") run decode (fun _ _ => inl "bad pair")
    (fun _ => inl "bad certificate") (fun n h => inr (if decide (h !! "Authorization" = Some ["Bearer token0"]) then 401 else 200)) in
  let c1 := (trip 0%nat (mkClient fresh [∅] [])).1 in
  requests c1 = [{["Authorization" := ["Bearer token0"]]}] /\
  (trip 0%nat c1).2 = Ok 401 /\ calls (auth (trip 0%nat c1).1) = 2%nat.
Proof. by vm_compute. Qed.

End samples.
