(* ===== verification/TransportTLS.v ===== *)
(** * Transport: TLS configuration, its cache, and the rotation of certificates

    transport/transport.go ([New], [TLSConfigFor], [loadTLSFiles] and the caching
    certificate loader), transport/cache.go, transport/cert_rotation.go and
    util/connrotation.  A configuration is a value that the loading of files changes;
    the holders of callbacks are pointers, as in the key of the cache.  Byte slices are
    strings.  crypto/tls and crypto/x509 are parameters. *)

From S2P Require Import Prelude Objects.
From Stdlib Require Import Ascii.
#[local] Open Scope Z_scope.

(** ** Configuration *)

Record TLSConfig : Type := mkTLS {
  CAFile : string;
  CertFile : string;
  KeyFile : string;
  ReloadTLSFiles : bool;
  Insecure : bool;
  ServerName : string;
  CAData : string;
  CertData : string;
  KeyData : string;
  NextProtos : list string;
  GetCertHolder : option nat
}.

(** The part of transport.Config that the transport below is made from; a custom
    transport and a proxy function are opaque. *)
Record Config : Type := mkConfig {
  TLS : TLSConfig;
  DisableCompression : bool;
  Transport : option nat;
  DialHolder : option nat;
  Proxy : option nat
}.

Definition some_bytes (s : string) : bool := negb (String.eqb s "").

Definition HasCA (c : TLSConfig) : bool := some_bytes (CAData c) || some_bytes (CAFile c).
Definition HasCertAuth (c : TLSConfig) : bool :=
  (some_bytes (CertData c) || some_bytes (CertFile c)) && (some_bytes (KeyData c) || some_bytes (KeyFile c)).
Definition HasCertCallback (c : TLSConfig) : bool := bool_decide (is_Some (GetCertHolder c)).

Section tls.
(** What reading a file gives. *)
Variable ReadFile : string -> string + string.
Variable Pool : Type.
(** [AppendCertsFromPEM] on a new pool, with the error of [createErrorParsingCAData]. *)
Variable ParseCAs : string -> string + Pool.
Variable Certificate : Type.
Variable X509KeyPair : string -> string -> string + Certificate.
(** The pointers to holders whose function is nil. *)
Variable nil_cert_holder nil_dial_holder : nat -> bool.

Definition dataFromSliceOrFile (data file : string) : string + string :=
  if some_bytes data then inr data
  else if some_bytes file then ReadFile file
  else inr "".

(** The configuration keeps what was loaded before an error; a field whose file cannot be
    read becomes empty. *)
Definition set_ca (d : string) (c : TLSConfig) : TLSConfig :=
  mkTLS (CAFile c) (CertFile c) (KeyFile c) (ReloadTLSFiles c) (Insecure c) (ServerName c) d (CertData c) (KeyData c)
    (NextProtos c) (GetCertHolder c).
Definition set_cert (d : string) (c : TLSConfig) : TLSConfig :=
  mkTLS (CAFile c) (CertFile c) (KeyFile c) (ReloadTLSFiles c) (Insecure c) (ServerName c) (CAData c) d (KeyData c)
    (NextProtos c) (GetCertHolder c).
Definition set_key (d : string) (c : TLSConfig) : TLSConfig :=
  mkTLS (CAFile c) (CertFile c) (KeyFile c) (ReloadTLSFiles c) (Insecure c) (ServerName c) (CAData c) (CertData c) d
    (NextProtos c) (GetCertHolder c).
Definition set_reload (c : TLSConfig) : TLSConfig :=
  mkTLS (CAFile c) (CertFile c) (KeyFile c) true (Insecure c) (ServerName c) (CAData c) (CertData c) (KeyData c)
    (NextProtos c) (GetCertHolder c).

Definition loadTLSFiles (c : TLSConfig) : TLSConfig * option string :=
  match dataFromSliceOrFile (CAData c) (CAFile c) with
  | inl err => (set_ca "" c, Some err)
  | inr d =>
      let c := set_ca d c in
      let c := if some_bytes (CertFile c) && negb (some_bytes (CertData c)) && some_bytes (KeyFile c) && negb (some_bytes (KeyData c))
               then set_reload c else c in
      match dataFromSliceOrFile (CertData c) (CertFile c) with
      | inl err => (set_cert "" c, Some err)
      | inr d =>
          let c := set_cert d c in
          match dataFromSliceOrFile (KeyData c) (KeyFile c) with
          | inl err => (set_key "" c, Some err)
          | inr d => (set_key d c, None)
          end
      end
  end.

Definition rootCertPool (caData : string) : string + option Pool :=
  if some_bytes caData then
    match ParseCAs caData with inl err => inl err | inr p => inr (Some p) end
  else inr None.

(** Where a client certificate comes from: the fields that the closure
    [GetClientCertificate] looks at, in its order. *)
Record cert_source : Type := mkSource {
  staticCert : option Certificate;
  dynamicCertLoader : option (string * string);
  callback : option nat
}.

(** [tls.Config], without the constant MinVersion. *)
Record tls_config : Type := mkTLSConfig {
  InsecureSkipVerify : bool;
  tls_ServerName : string;
  tls_NextProtos : list string;
  RootCAs : option Pool;
  GetClientCertificate : option cert_source
}.

Definition TLSConfigFor (c : TLSConfig) : TLSConfig * (string + option tls_config) :=
  if negb (HasCA c || HasCertAuth c || HasCertCallback c || Insecure c || some_bytes (ServerName c) || bool_decide (NextProtos c <> []))
  then (c, inr None)
  else if HasCA c && Insecure c
  then (c, inl "specifying a root certificates file with the insecure flag is not allowed")
  else
    match loadTLSFiles c with
    | (c, Some err) => (c, inl err)
    | (c, None) =>
        match (if HasCA c then rootCertPool (CAData c) else inr None) with
        | inl err => (c, inl ("unable to load root certificates: " +:+ err))
        | inr pool =>
            match (if HasCertAuth c && negb (ReloadTLSFiles c)
                   then match X509KeyPair (CertData c) (KeyData c) with inl err => inl err | inr k => inr (Some k) end
                   else inr None) with
            | inl err => (c, inl err)
            | inr static =>
                let dynamic := if ReloadTLSFiles c then Some (CertFile c, KeyFile c) else None in
                let get := if HasCertAuth c || HasCertCallback c
                           then Some (mkSource static dynamic (GetCertHolder c)) else None in
                (c, inr (Some (mkTLSConfig (Insecure c) (ServerName c) (NextProtos c) pool get)))
            end
        end
    end.

(** The closure: what the static pair, the loader and the callback give, in this order;
    [None] is the empty certificate. *)
Definition GetClientCertificate_call (load : string * string -> string + Certificate)
    (call : nat -> string + option Certificate) (s : cert_source) : string + option Certificate :=
  match staticCert s with
  | Some c => inr (Some c)
  | None =>
      match dynamicCertLoader s with
      | Some files => match load files with inl err => inl err | inr c => inr (Some c) end
      | None => match callback s with Some h => call h | None => inr None end
      end
  end.

(** ** The cache of transports: transport/cache.go *)

Record tlsCacheKey : Type := mkKey {
  insecure : bool;
  caData : string;
  certData : string;
  keyData : string;
  certFile : string;
  keyFile : string;
  serverName : string;
  nextProtos : string;
  disableCompression : bool;
  getCert : option nat;
  dial : option nat
}.

#[global] Instance tlsCacheKey_eq_dec : EqDecision tlsCacheKey.
Proof. solve_decision. Defined.

Definition key_tuple (k : tlsCacheKey) :=
  (((insecure k, caData k), (certData k, keyData k)), ((certFile k, keyFile k), (serverName k, nextProtos k)),
   ((disableCompression k, getCert k), dial k)).

#[global] Instance tlsCacheKey_countable : Countable tlsCacheKey.
Proof.
  refine (inj_countable' key_tuple (fun '(((a, b), (c, d)), ((e, f), (g, h)), ((i, j), k)) => mkKey a b c d e f g h i j k) _).
  by intros [].
Defined.

(** [strings.Join(l, ",")]. *)
Fixpoint join_comma (l : list string) : string :=
  match l with
  | [] => ""
  | [s] => s
  | s :: l => s +:+ String "," (join_comma l)
  end.

Definition key_of (t : TLSConfig) (c : Config) : tlsCacheKey :=
  let data := if ReloadTLSFiles t then ("", "", CertFile t, KeyFile t) else (CertData t, KeyData t, "", "") in
  let '(cd, kd, cf, kf) := data in
  mkKey (Insecure t) (CAData t) cd kd cf kf (ServerName t) (join_comma (NextProtos t)) (DisableCompression c) (GetCertHolder t) (DialHolder c).

Definition set_tls (t : TLSConfig) (c : Config) : Config := mkConfig t (DisableCompression c) (Transport c) (DialHolder c) (Proxy c).

(** The key, where one can be made. *)
Definition tlsConfigKey (c : Config) : Config * (string + option tlsCacheKey) :=
  match loadTLSFiles (TLS c) with
  | (t, Some err) => (set_tls t c, inl err)
  | (t, None) => (set_tls t c, inr (if decide (is_Some (Proxy c)) then None else Some (key_of t c)))
  end.

(** An [http.Transport]: its options. [None] as dialer is the default one; [rotates] says
    that dialer and certificate are those of a dynamicClientCert. *)
Record transport : Type := mkTransport {
  t_Proxy : option nat;
  TLSClientConfig : option tls_config;
  t_dial : option nat;
  rotates : bool;
  t_DisableCompression : bool
}.

Inductive round_tripper : Type :=
| DefaultTransport
| CustomTransport (id : nat)
| TLSTransport (ptr : nat).

(** The transports there are, and the cache over them. *)
Record tlsTransportCache : Type := mkCache {
  made : list transport;
  transports : gmap tlsCacheKey nat
}.

Definition build (c : Config) (tc : option tls_config) : transport :=
  let rot := ReloadTLSFiles (TLS c) &&
             match tc with Some t => bool_decide (is_Some (GetClientCertificate t)) | None => false end in
  mkTransport (Proxy c) tc (DialHolder c) rot (DisableCompression c).

Definition cache_get (c : Config) (s : tlsTransportCache) : tlsTransportCache * Config * (string + round_tripper) :=
  match tlsConfigKey c with
  | (c, inl err) => (s, c, inl err)
  | (c, inr key) =>
      match (key ← key; transports s !! key) with
      | Some t => (s, c, inr (TLSTransport t))
      | None =>
          match TLSConfigFor (TLS c) with
          | (t, inl err) => (s, set_tls t c, inl err)
          | (t, inr tc) =>
              let c := set_tls t c in
              match tc, DialHolder c, Proxy c with
              | None, None, None => (s, c, inr DefaultTransport)
              | _, _, _ =>
                  let ptr := length (made s) in
                  (mkCache (made s ++ [build c tc])
                     (match key with Some key => <[key := ptr]> (transports s) | None => transports s end),
                   c, inr (TLSTransport ptr))
              end
          end
      end
  end.

(** ** [New]: transport/transport.go *)

Definition isValidHolders (c : Config) : bool :=
  negb (match GetCertHolder (TLS c) with Some h => nil_cert_holder h | None => false end) &&
  negb (match DialHolder c with Some h => nil_dial_holder h | None => false end).

(** Up to the wrappers, which are those of Transport. *)
Definition New (c : Config) (s : tlsTransportCache) : tlsTransportCache * Config * (string + round_tripper) :=
  if bool_decide (is_Some (Transport c)) && (HasCA (TLS c) || HasCertAuth (TLS c) || HasCertCallback (TLS c) || Insecure (TLS c))
  then (s, c, inl "using a custom transport with TLS certificate options or the insecure flag is not allowed")
  else if negb (isValidHolders c) then (s, c, inl "misconfigured holder for dialer or cert callback")
  else match Transport c with
       | Some id => (s, c, inr (CustomTransport id))
       | None => cache_get c s
       end.

End tls.

Arguments staticCert {Certificate}.
Arguments dynamicCertLoader {Certificate}.
Arguments callback {Certificate}.
Arguments GetClientCertificate {Pool Certificate}.
Arguments mkCache {Pool Certificate}.
Arguments made {Pool Certificate}.
Arguments transports {Pool Certificate}.
Arguments build {Pool Certificate}.

(** ** The cache is transparent *)

Section cache.
Context {Pool : Type} (ParseCAs : string -> string + Pool).
Context {Certificate : Type} (X509KeyPair : string -> string -> string + Certificate).

#[local] Notation tls_for r := (TLSConfigFor r Pool ParseCAs Certificate X509KeyPair).
#[local] Notation get_from r := (cache_get r Pool ParseCAs Certificate X509KeyPair).
#[local] Notation the_cache := (tlsTransportCache Pool Certificate).

(** The name of a protocol has a byte and no comma. *)
Fixpoint no_comma (s : string) : bool :=
  match s with
  | EmptyString => true
  | String c s => negb (Ascii.eqb c ","%char) && no_comma s
  end.
Definition proto_ok (s : string) : Prop := s <> "" /\ no_comma s = true.

(** A configuration as it is meant: files to reload are named, and the protocols are names. *)
Definition written (c : TLSConfig) : Prop :=
  (ReloadTLSFiles c = true -> CertFile c <> "" /\ KeyFile c <> "") /\ Forall proto_ok (NextProtos c).

(** Its files are loaded, and were not empty. *)
Record settled (t : TLSConfig) : Prop := mkSettled {
  settled_ca : CAFile t <> "" -> CAData t <> "";
  settled_cert : CertFile t <> "" -> CertData t <> "";
  settled_key : KeyFile t <> "" -> KeyData t <> "";
  settled_written : written t
}.

(** The files that the configuration names are not empty. *)
Definition files_full (r : string -> string + string) (c : TLSConfig) : Prop :=
  forall f, f = CAFile c \/ f = CertFile c \/ f = KeyFile c -> r f <> inr "".

Lemma some_bytes_spec s : reflect (s <> "") (some_bytes s).
Proof. unfold some_bytes. destruct (String.eqb_spec s ""); cbn [negb]; constructor; [tauto|done]. Qed.

Lemma data_settled r data file d :
  r file <> inr "" -> dataFromSliceOrFile r data file = inr d -> file <> "" -> d <> "".
Proof.
  intros Hr. unfold dataFromSliceOrFile. destruct (some_bytes_spec data); [by intros [= <-]|].
  destruct (some_bytes_spec file); [intros Hd _ ->; by rewrite Hd in Hr|]. done.
Qed.

Lemma data_again r data file : (file <> "" -> data <> "") -> dataFromSliceOrFile r data file = inr data.
Proof.
  intros Hd. unfold dataFromSliceOrFile. destruct (some_bytes_spec data) as [?|Hn]; [done|].
  destruct (some_bytes_spec file); [by destruct Hn; apply Hd|]. destruct data; [done|by destruct Hn].
Qed.

Lemma load_settles r c t : files_full r c -> written c -> loadTLSFiles r c = (t, None) -> settled t.
Proof.
  intros Hr [Hw Hprotos]. unfold loadTLSFiles.
  destruct (dataFromSliceOrFile r (CAData c) (CAFile c)) as [|ca] eqn:Hca; [done|].
  set (c1 := set_ca ca c).
  match goal with |- context [if ?b then set_reload c1 else c1] => set (c2 := if b then set_reload c1 else c1) end.
  assert (H2 : CAFile c2 = CAFile c /\ CAData c2 = ca /\ NextProtos c2 = NextProtos c /\ CertFile c2 = CertFile c /\ KeyFile c2 = KeyFile c /\
    (ReloadTLSFiles c2 = true -> CertFile c2 <> "" /\ KeyFile c2 <> "")).
  { unfold c2, c1. destruct (some_bytes_spec (CertFile (set_ca ca c))), (some_bytes_spec (KeyFile (set_ca ca c))),
      (some_bytes (CertData (set_ca ca c))), (some_bytes (KeyData (set_ca ca c))); cbn in *; naive_solver. }
  clearbody c2. destruct H2 as (Hf & Hd & Hp & Hcf & Hkf & Hre).
  destruct (dataFromSliceOrFile r (CertData c2) (CertFile c2)) as [|cert] eqn:Hcert; [done|].
  destruct (dataFromSliceOrFile r (KeyData (set_cert cert c2)) (KeyFile (set_cert cert c2))) as [|key] eqn:Hkey; [done|].
  intros [= <-]. split; cbn.
  - rewrite Hf, Hd. eapply data_settled; [|exact Hca]. apply Hr. auto.
  - eapply data_settled; [|exact Hcert]. apply Hr. auto.
  - eapply data_settled; [|exact Hkey]. apply Hr. cbn. auto.
  - split; cbn; [done|by rewrite Hp].
Qed.

Lemma load_settled r t : settled t -> loadTLSFiles r t = (t, None).
Proof.
  intros [Hca Hcert Hkey _]. unfold loadTLSFiles. rewrite data_again by done.
  replace (set_ca (CAData t) t) with t by (by destruct t).
  replace (some_bytes (CertFile t) && negb (some_bytes (CertData t)) && some_bytes (KeyFile t) && negb (some_bytes (KeyData t))) with false.
  - rewrite data_again by done. replace (set_cert (CertData t) t) with t by (by destruct t).
    rewrite data_again by done. by destruct t.
  - destruct (some_bytes_spec (CertFile t)); [|done]. by destruct (some_bytes_spec (CertData t)); [|naive_solver].
Qed.

Lemma comma_split s t s' t' : no_comma s = true -> no_comma s' = true ->
  s +:+ String "," t = s' +:+ String "," t' -> s = s' /\ t = t'.
Proof.
  revert s'. induction s as [|a s IH]; intros [|b s'] Hs Hs' He; cbn in *.
  - by injection He as ->.
  - injection He as <- _. done.
  - injection He as -> _. done.
  - apply andb_true_iff in Hs as [_ Hs], Hs' as [_ Hs']. injection He as -> He. by destruct (IH s' Hs Hs' He) as [-> ->].
Qed.

Lemma comma_absent s t s' : no_comma s' = true -> s +:+ String "," t <> s'.
Proof.
  revert s'. induction s as [|a s IH]; intros [|b s'] Hs' He; try done; cbn in *; injection He as <- He.
  - done.
  - apply andb_true_iff in Hs' as [_ Hs']. by apply (IH s' Hs').
Qed.

Lemma join_inj l : forall l', Forall proto_ok l -> Forall proto_ok l' -> join_comma l = join_comma l' -> l = l'.
Proof.
  induction l as [|s [|s2 l] IH]; intros [|s' [|s2' l']] Hl Hl' He; try done.
  - inversion Hl' as [|? ? [Hn _]]; subst. cbn in He. by destruct Hn.
  - inversion Hl' as [|? ? [Hn _]]; subst. cbn in He. by destruct s'.
  - inversion Hl as [|? ? [Hn _]]; subst. cbn in He. by destruct Hn.
  - cbn in He. by subst.
  - inversion Hl as [|? ? [_ Hc]]; subst. symmetry in He. by apply comma_absent in He.
  - inversion Hl as [|? ? [Hn _]]; subst. cbn in He. by destruct s.
  - inversion Hl' as [|? ? [_ Hc]]; subst. by apply comma_absent in He.
  - inversion Hl as [|? ? [_ Hc] Hl2]; inversion Hl' as [|? ? [_ Hc'] Hl2']; subst.
    change (s +:+ String "," (join_comma (s2 :: l)) = s' +:+ String "," (join_comma (s2' :: l'))) in He.
    apply comma_split in He as [-> He]; [|done|done]. by rewrite (IH (s2' :: l')).
Qed.

(** Two configurations with one key ask for the same TLS configuration. *)
Lemma key_determines r r' t t' c c' :
  settled t -> settled t' -> key_of t c = key_of t' c' ->
  (tls_for r t).2 = (tls_for r' t').2 /\ ReloadTLSFiles t = ReloadTLSFiles t' /\
  DisableCompression c = DisableCompression c' /\ DialHolder c = DialHolder c'.
Proof.
  intros Ht Ht' Hk.
  assert (HCA : forall t, settled t -> HasCA t = some_bytes (CAData t)).
  { intros u [Hca _ _ _]. unfold HasCA. destruct (some_bytes_spec (CAData u)); [done|].
    destruct (some_bytes_spec (CAFile u)); [naive_solver|done]. }
  assert (HCert : forall t, settled t -> HasCertAuth t = if ReloadTLSFiles t then true else some_bytes (CertData t) && some_bytes (KeyData t)).
  { intros u [_ Hcert Hkey [Hre _]]. unfold HasCertAuth. destruct (some_bytes_spec (CertData u)), (some_bytes_spec (CertFile u)),
      (some_bytes_spec (KeyData u)), (some_bytes_spec (KeyFile u)), (ReloadTLSFiles u); cbn; naive_solver. }
  assert (Hre : ReloadTLSFiles t = ReloadTLSFiles t').
  { unfold key_of in Hk. destruct Ht as [_ _ _ [Hre _]], Ht' as [_ _ _ [Hre' _]].
    destruct (ReloadTLSFiles t), (ReloadTLSFiles t'); try done; exfalso; injection Hk; naive_solver. }
  assert (Hp : NextProtos t = NextProtos t').
  { apply join_inj; [apply Ht|apply Ht'|]. unfold key_of in Hk. rewrite Hre in Hk. destruct (ReloadTLSFiles t'); by injection Hk. }
  unfold TLSConfigFor. unfold HasCertCallback. rewrite !load_settled, !HCA, !HCert, Hre, Hp by done.
  unfold key_of in Hk. rewrite Hre in Hk. destruct (ReloadTLSFiles t'); injection Hk; intros; (split_and!; [|done..]);
    cbn [andb orb negb]; repeat (match goal with H : ?f t = ?f t' |- _ => rewrite H; clear H end); by repeat case_match.
Qed.

Lemma tls_for_fst r t : settled t -> (tls_for r t).1 = t.
Proof. intros Ht. unfold TLSConfigFor. rewrite load_settled by done. by repeat case_match. Qed.

(** What the cache holds under a key was made for a configuration with that key. *)
Definition cache_ok (s : the_cache) : Prop :=
  forall k p, transports s !! k = Some p ->
    exists r t c tc, settled t /\ key_of t c = k /\ Proxy c = None /\ (tls_for r t).2 = inr tc /\
      made s !! p = Some (build (set_tls t c) tc).

(** A use of the cache: the files at that time, the configuration. *)
Definition good (u : (string -> string + string) * Config) : Prop := files_full u.1 (TLS u.2) /\ written (TLS u.2).

Definition empty_cache : the_cache := mkCache [] ∅.

Definition run (uses : list ((string -> string + string) * Config)) (s : the_cache) : the_cache :=
  fold_left (fun s u => (get_from u.1 u.2 s).1.1) uses s.

(** The direct way: what the transport of a configuration is when it is made anew. *)
Definition direct (r : string -> string + string) (c : Config) (s : the_cache) (rt : round_tripper) : Prop :=
  exists t tc, tls_for r (TLS c) = (t, inr tc) /\
    match rt with
    | DefaultTransport => tc = None /\ DialHolder c = None /\ Proxy c = None
    | TLSTransport p => made s !! p = Some (build (set_tls t c) tc)
    | CustomTransport _ => False
    end.

(** Loading first changes nothing of what is made. *)
Lemma load_keeps r c t : loadTLSFiles r c = (t, None) ->
  HasCA t = HasCA c /\ HasCertAuth t = HasCertAuth c /\ HasCertCallback t = HasCertCallback c /\ Insecure t = Insecure c /\
  ServerName t = ServerName c /\ NextProtos t = NextProtos c.
Proof.
  assert (Hd : forall data file d, dataFromSliceOrFile r data file = inr d ->
    some_bytes d || some_bytes file = some_bytes data || some_bytes file).
  { intros data file d. unfold dataFromSliceOrFile. destruct (some_bytes_spec data) as [Hn|Hn].
    - intros [= <-]. by destruct (some_bytes_spec data).
    - destruct (some_bytes_spec file); [by rewrite !orb_true_r|]. by intros [= <-]. }
  unfold loadTLSFiles. destruct (dataFromSliceOrFile r (CAData c) (CAFile c)) as [|ca] eqn:Hca; [done|].
  set (c1 := set_ca ca c).
  match goal with |- context [if ?b then set_reload c1 else c1] => set (c2 := if b then set_reload c1 else c1) end.
  assert (H2 : c2 = set_reload c1 \/ c2 = c1) by (unfold c2; case_match; auto). clearbody c2.
  destruct (dataFromSliceOrFile r (CertData c2) (CertFile c2)) as [|cert] eqn:Hcert; [done|].
  destruct (dataFromSliceOrFile r (KeyData (set_cert cert c2)) (KeyFile (set_cert cert c2))) as [|key] eqn:Hkey; [done|].
  intros [= <-]. apply Hd in Hca, Hcert, Hkey. unfold HasCA, HasCertAuth, HasCertCallback.
  destruct H2 as [-> | ->]; cbn in *; by rewrite ?Hca, ?Hcert, ?Hkey.
Qed.

Lemma tls_for_loaded r c t : settled t -> loadTLSFiles r c = (t, None) ->
  (tls_for r c).2 = (tls_for r t).2 /\ (forall tc, (tls_for r c).2 = inr (Some tc) -> (tls_for r c).1 = t).
Proof.
  intros Ht Hl. destruct (load_keeps r c t Hl) as (Hca & Hcert & Hcb & Hins & Hsn & Hnp).
  unfold TLSConfigFor. rewrite Hca, Hcert, Hcb, Hins, Hsn, Hnp, Hl, (load_settled r t Ht), Hca.
  repeat case_match; done || (split; [done|]; by intros tc [=]).
Qed.

Lemma build_loaded r c t c' tc : settled t -> loadTLSFiles r (TLS c) = (t, None) -> tls_for r t = (c', inr tc) ->
  exists t', tls_for r (TLS c) = (t', inr tc) /\ build (set_tls t' c) tc = build (set_tls t c) tc.
Proof.
  intros Ht Hl Htc. destruct (tls_for_loaded r (TLS c) t Ht Hl) as [He Hf]. rewrite Htc in He.
  destruct (tls_for r (TLS c)) as [t' res]. cbn in *. subst res. exists t'. split; [done|].
  destruct tc as [tc|]; [by rewrite (Hf tc eq_refl)|]. unfold build. cbn. by rewrite !andb_false_r.
Qed.

Lemma build_same r r' t t' c c' tc tc' :
  settled t -> settled t' -> key_of t c = key_of t' c' -> Proxy c = None -> Proxy c' = None ->
  (tls_for r t).2 = inr tc -> (tls_for r' t').2 = inr tc' ->
  tc = tc' /\ build (set_tls t c) tc = build (set_tls t' c') tc'.
Proof.
  intros Ht Ht' Hk Hp Hp' Htc Htc'. destruct (key_determines r r' t t' c c' Ht Ht' Hk) as (He & Hre & Hdis & Hdial).
  rewrite Htc, Htc' in He. injection He as ->. split; [done|]. unfold build. cbn. by rewrite Hre, Hdis, Hdial, Hp, Hp'.
Qed.

Lemma key_some r c t k : tlsConfigKey r c = (set_tls t c, inr (Some k)) -> loadTLSFiles r (TLS c) = (t, None) ->
  k = key_of t c /\ Proxy c = None.
Proof.
  unfold tlsConfigKey. intros Hk Hl. rewrite Hl in Hk. case_decide as Hp; [done|]. injection Hk as <-. split; [done|].
  destruct (Proxy c); [by destruct Hp|done].
Qed.

(** One use of the cache. *)
Lemma cache_get_spec r c s s' c' rt :
  cache_ok s -> files_full r (TLS c) -> written (TLS c) -> get_from r c s = (s', c', inr rt) ->
  cache_ok s' /\ direct r c s' rt /\ made s `prefix_of` made s' /\
  (forall k p, transports s !! k = Some p -> transports s' !! k = Some p) /\
  (forall k p, (tlsConfigKey r c).2 = inr (Some k) -> rt = TLSTransport p -> transports s' !! k = Some p) /\
  (forall k p, (tlsConfigKey r c).2 = inr (Some k) -> transports s !! k = Some p -> rt = TLSTransport p).
Proof.
  intros Hs Hr Hw. unfold cache_get. destruct (loadTLSFiles r (TLS c)) as [t [err|]] eqn:Hl.
  { unfold tlsConfigKey. by rewrite Hl. }
  assert (Ht : settled t) by (by eapply load_settles).
  assert (Hk : tlsConfigKey r c = (set_tls t c, inr (if decide (is_Some (Proxy c)) then None else Some (key_of t c)))).
  { unfold tlsConfigKey. by rewrite Hl. }
  rewrite Hk. set (key := if decide (is_Some (Proxy c)) then None else Some (key_of t c)) in *.
  assert (Hkey : forall k, key = Some k -> k = key_of t c /\ Proxy c = None).
  { intros k Hkk. apply (key_some r c t k); [by rewrite Hk, Hkk|done]. }
  destruct (key ≫= fun k => transports s !! k) as [p|] eqn:Hhit.
  - intros [= <- <- <-]. destruct key as [k|] eqn:Hkk; [|done]. cbn in Hhit. destruct (Hkey k eq_refl) as [-> Hp].
    split; [done|]. split_and!; [|done|done|intros k p' [= <-] [= <-]; done|intros k p' [= <-] Hk'; congruence].
    destruct (Hs _ _ Hhit) as (r0 & t0 & c0 & tc0 & Ht0 & Hk0 & Hp0 & Htc0 & Hm).
    destruct (key_determines r r0 t t0 c c0 Ht Ht0 (eq_sym Hk0)) as (He & _). rewrite Htc0 in He.
    destruct (tls_for r t) as [u res] eqn:Hu. cbn in He. subst res.
    destruct (build_loaded r c t u tc0 Ht Hl Hu) as (t' & Ht' & Hb). exists t', tc0. split; [done|]. rewrite Hm, Hb. f_equal.
    apply (build_same r0 r t0 t c0 c tc0 tc0); try done. by rewrite Hu.
  - change (TLS (set_tls t c)) with t. destruct (tls_for r t) as [t' [err|tc]] eqn:Htls; [done|].
    assert (t' = t) as -> by (pose proof (tls_for_fst r t Ht) as Hf; by rewrite Htls in Hf).
    change (set_tls t (set_tls t c)) with (set_tls t c). change (DialHolder (set_tls t c)) with (DialHolder c).
    change (Proxy (set_tls t c)) with (Proxy c).
    assert (Hd : forall s2 rt2, match rt2 with
        | DefaultTransport => tc = None /\ DialHolder c = None /\ Proxy c = None
        | TLSTransport p => made s2 !! p = Some (build (set_tls t c) tc)
        | CustomTransport _ => False end -> direct r c s2 rt2).
    { intros s2 rt2 H2. destruct (build_loaded r c t t tc Ht Hl Htls) as (t' & Ht' & Hb). exists t', tc.
      split; [done|]. destruct rt2; rewrite ?Hb; done. }
    assert (Hmiss : forall k p, inr key = inr (A := string) (Some k) -> transports s !! k = Some p -> rt = TLSTransport p).
    { intros k p [= Hkk] Hkp. rewrite Hkk in Hhit. cbn in Hhit. congruence. }
    set (s2 := mkCache (made s ++ [build (set_tls t c) tc])
      match key with Some key => <[key:=length (made s)]> (transports s) | None => transports s end).
    assert (Hnew : cache_ok s2 /\ made s `prefix_of` made s2 /\
        (forall k p, transports s !! k = Some p -> transports s2 !! k = Some p) /\
        (forall k p, inr key = inr (A := string) (Some k) -> TLSTransport (length (made s)) = TLSTransport p -> transports s2 !! k = Some p) /\
        made s2 !! length (made s) = Some (build (set_tls t c) tc)).
    { unfold s2. split_and!.
      - intros k p. cbn. intros Hkp.
        assert (Hcases : (key = Some k /\ p = length (made s)) \/ transports s !! k = Some p).
        { destruct key as [k0|]; [|by right]. destruct (decide (k0 = k)) as [->|Hne]; [left|right].
          - rewrite lookup_insert_eq in Hkp. by injection Hkp as <-.
          - by rewrite lookup_insert_ne in Hkp. }
        destruct Hcases as [[Hkk ->]|Hold].
        + destruct (Hkey k Hkk) as [-> Hp]. exists r, t, c, tc. rewrite Htls.
          split_and!; try done. rewrite lookup_app_r, Nat.sub_diag by lia. done.
        + destruct (Hs _ _ Hold) as (r0 & t0 & c0 & tc0 & ? & ? & ? & ? & Hm). exists r0, t0, c0, tc0.
          split_and!; try done. by apply lookup_app_l_Some.
      - cbn. by apply prefix_app_r.
      - intros k p Hkp. cbn. destruct key as [k0|]; [|done]. rewrite lookup_insert_ne; [done|]. intros ->.
        cbn in Hhit. congruence.
      - intros k p [= ->] [= <-]. cbn. apply lookup_insert_eq.
      - cbn. rewrite lookup_app_r, Nat.sub_diag by lia. done. }
    destruct Hnew as (Hok & Hpre & Hkeep & Hput & Hat). clearbody s2.
    destruct tc as [tc|]; [|destruct (DialHolder c); [|destruct (Proxy c)]];
      intros [= <- <- <-]; split_and!; try done; apply Hd; done.
Qed.

Lemma uses_ok uses s : cache_ok s -> Forall good uses ->
  cache_ok (run uses s) /\ (forall k p, transports s !! k = Some p -> transports (run uses s) !! k = Some p).
Proof.
  intros Hs Hu. revert s Hs. induction Hu as [|[r c] uses [Hr Hw] _ IH]; intros s Hs; [done|]. cbn [run fold_left].
  change (fold_left _ uses ?x) with (run uses x). cbn [fst snd] in *.
  destruct (get_from r c s) as [[s' c'] [err|rt]] eqn:Hg; cbn [fst].
  - enough (s' = s) as -> by (by apply IH). unfold cache_get in Hg. repeat case_match; by simplify_eq.
  - destruct (cache_get_spec r c s s' c' rt Hs Hr Hw Hg) as (Hs' & _ & _ & Hk & _).
    destruct (IH s' Hs') as [H1 H2]. split; [done|]. intros k p Hkp. by apply H2, Hk.
Qed.

(** Where the cache gives an error, so does the direct way, or a file cannot be read. *)
Lemma cache_get_error r c s s' c' err :
  get_from r c s = (s', c', inl err) -> files_full r (TLS c) -> written (TLS c) ->
  s' = s /\ ((exists e, (tls_for r (TLS c)).2 = inl e) \/ exists e, (loadTLSFiles r (TLS c)).2 = Some e).
Proof.
  intros Hg Hr Hw. unfold cache_get, tlsConfigKey in Hg. destruct (loadTLSFiles r (TLS c)) as [t [e|]] eqn:Hl.
  { injection Hg as <- _ _. split; [done|right; by exists e]. }
  assert (Ht : settled t) by (by eapply load_settles).
  destruct (_ ≫= _) in Hg; [done|]. cbn [TLS set_tls] in Hg.
  destruct (tls_for r t) as [t' [e|tc]] eqn:Htls; [|by repeat case_match].
  injection Hg as <- _ _. split; [done|]. left. exists e. rewrite (proj1 (tls_for_loaded r (TLS c) t Ht Hl)). by rewrite Htls.
Qed.

(** C34: the cache of transports is transparent and shares, for configurations whose
    named files are not empty when they are read, whose protocols are names without commas,
    and that name the files they have reloaded.  After any uses, with any such files, a use
    of the cache gives what would be made for the configuration at that time: its TLS
    options and certificate sources, its dialer and its compression, or the default
    transport where nothing was asked for; it gives an error only where that is an error too
    or a file cannot be read.  And a configuration with the same key gets the same transport
    at any later time, whatever comes between. *)
Theorem tls_cache_transparent uses r c s' c' res :
  Forall good uses -> good (r, c) -> get_from r c (run uses empty_cache) = (s', c', res) ->
  match res with
  | inl _ => (exists e, (tls_for r (TLS c)).2 = inl e) \/ (exists e, (loadTLSFiles r (TLS c)).2 = Some e)
  | inr rt =>
      direct r c s' rt /\
      forall uses' r2 c2 s2 c2' rt2 k p, Forall good uses' -> good (r2, c2) ->
        (tlsConfigKey r c).2 = inr (Some k) -> (tlsConfigKey r2 c2).2 = inr (Some k) -> rt = TLSTransport p ->
        get_from r2 c2 (run uses' s') = (s2, c2', inr rt2) -> rt2 = TLSTransport p
  end.
Proof.
  intros Hu [Hr Hw] Hg. destruct (uses_ok uses empty_cache) as [Hs _]; [by intros k p|done|].
  destruct res as [err|rt]; [by eapply cache_get_error|].
  destruct (cache_get_spec r c _ s' c' rt Hs Hr Hw Hg) as (Hs' & Hd & _ & _ & Hput & _). split; [done|].
  intros uses' r2 c2 s2 c2' rt2 k p Hu' [Hr2 Hw2] Hk Hk2 Hrt Hg2. destruct (uses_ok uses' s' Hs' Hu') as [Hs2 Hkeep].
  eapply (cache_get_spec r2 c2 _ s2 c2' rt2 Hs2 Hr2 Hw2 Hg2); [exact Hk2|]. apply Hkeep. by apply Hput.
Qed.

End cache.

(** A chain of uses: two configurations with the same certificate authority, one by file
    and one by data, and another server name. *)
Module cache_samples.

Definition files (f : string) : string + string := if decide (f = "/ca") then inr "PEM" else inl "no such file".
Definition tls (file data name : string) : TLSConfig := mkTLS file "" "" false false name data "" "" ["h2"] None.
Definition conf (t : TLSConfig) : Config := mkConfig t false None None None.
Definition by_file : Config := conf (tls "/ca" "" "").
Definition by_data : Config := conf (tls "" "PEM" "").
Definition named : Config := conf (tls "" "PEM" "server").

Definition cas (s : string) : string + string := inr s.
Definition pair (c k : string) : string + string := inr (c +:+ k).

#[local] Notation get := (cache_get files string cas string pair).
#[local] Notation history := [(files, by_file); (files, named)].
Definition state : tlsTransportCache string string := run cas pair history empty_cache.

Lemma files_full_sample c : files_full files c.
Proof. intros f _. unfold files. by case_decide. Qed.

Lemma good_sample file data name : good (files, conf (tls file data name)).
Proof.
  split; [apply files_full_sample|]. split; [done|]. cbn. by repeat constructor.
Qed.

Definition state' : tlsTransportCache string string := (get by_data state).1.1.

Lemma tls_cache_transparent_witness :
  get by_data state = (state', conf (tls "" "PEM" ""), inr (TLSTransport 0)) /\ length (made state') = 2%nat /\
  direct cas pair files by_data state' (TLSTransport 0).
Proof.
  assert (Hg : get by_data state = (state', conf (tls "" "PEM" ""), inr (TLSTransport 0))) by (vm_compute; reflexivity).
  split; [exact Hg|]. split; [by vm_compute|].
  assert (Hh : Forall good history) by (by repeat (apply Forall_cons; split; [apply good_sample|])).
  exact (proj1 (tls_cache_transparent cas pair history files by_data state' _ _ Hh (good_sample _ _ _) Hg)).
Defined.

(** The key joins the protocols by commas: one name with a comma is taken for two. *)
Example joined_protocols :
  key_of (mkTLS "" "" "" false false "s" "" "" "" ["a,b"] None) (conf (tls "" "" "")) =
  key_of (mkTLS "" "" "" false false "s" "" "" "" ["a"; "b"] None) (conf (tls "" "" "")).
Proof. by vm_compute. Qed.

(** ... so the second configuration gets the transport of the first, which does not offer its
    protocols. *)
Example protocols_collide :
  let c1 := conf (mkTLS "" "" "" false false "s" "" "" "" ["a,b"] None) in
  let c2 := conf (mkTLS "" "" "" false false "s" "" "" "" ["a"; "b"] None) in
  let s := run cas pair [(files, c1)] empty_cache in
  (get c2 s).2 = inr (TLSTransport 0) /\ ~ direct cas pair files c2 s (TLSTransport 0).
Proof.
  intros c1 c2 s. split; [by vm_compute|]. intros (t & tc & Ht & Hm). vm_compute in Ht. injection Ht as <- <-.
  vm_compute in Hm. congruence.
Qed.

(** An empty file of authorities next to the insecure flag is an error, but not to the cache
    once it has a transport for the flag alone. *)
Example empty_ca_file :
  let blank := fun _ : string => inr (A := string) "" in
  let c1 := conf (mkTLS "" "" "" false true "" "" "" "" [] None) in
  let c2 := conf (mkTLS "/ca" "" "" false true "" "" "" "" [] None) in
  let s := run cas pair [(blank, c1)] empty_cache in
  (cache_get blank string cas string pair c2 s).2 = inr (TLSTransport 0) /\
  (TLSConfigFor blank string cas string pair (TLS c2)).2 =
    inl "specifying a root certificates file with the insecure flag is not allowed".
Proof. split; by vm_compute. Qed.

End cache_samples.

(** ** Tracked connections: util/connrotation *)

Module connrotation.

(** The connections by their number; [closing] is what the loops of [CloseAll] have still
    to close, [callbacks] the goroutines of [onClose] that have not run. *)
Record ConnectionTracker : Type := mkTracker {
  conns : gset nat;
  next : nat;
  closing : gset nat;
  closed : gset nat;
  callbacks : gset nat
}.

Definition NewConnectionTracker : ConnectionTracker := mkTracker ∅ 0 ∅ ∅ ∅.

(** [Track], called by [DialContext] where dialing succeeded. *)
Definition Track (t : ConnectionTracker) : ConnectionTracker * nat :=
  (mkTracker ({[next t]} ∪ conns t) (S (next t)) (closing t) (closed t) (callbacks t), next t).

(** [CloseAll] under the lock: the map is replaced by an empty one. *)
Definition CloseAll_swap (t : ConnectionTracker) : ConnectionTracker :=
  mkTracker ∅ (next t) (closing t ∪ conns t) (closed t) (callbacks t).

(** [closableConn.Close]. *)
Definition Close (c : nat) (t : ConnectionTracker) : ConnectionTracker :=
  mkTracker (conns t) (next t) (closing t ∖ {[c]}) ({[c]} ∪ closed t) ({[c]} ∪ callbacks t).

(** [onClose]: a no-op if the connection is not in the map. *)
Definition onClose (c : nat) (t : ConnectionTracker) : ConnectionTracker :=
  mkTracker (conns t ∖ {[c]}) (next t) (closing t) (closed t) (callbacks t ∖ {[c]}).

Inductive step : ConnectionTracker -> ConnectionTracker -> Prop :=
| step_track t : step t (Track t).1
| step_close_all t : step t (CloseAll_swap t)
| step_close_next t c : c ∈ closing t -> step t (Close c t)
| step_close t c : (c < next t)%nat -> step t (Close c t)
| step_callback t c : c ∈ callbacks t -> step t (onClose c t).

(** A connection that was opened is tracked, about to be closed, or closed. *)
Definition accounted (t : ConnectionTracker) : Prop :=
  (forall c, (c < next t)%nat -> c ∈ conns t \/ c ∈ closing t \/ c ∈ closed t) /\ callbacks t ⊆ closed t /\
  (forall c, c ∈ conns t \/ c ∈ closing t \/ c ∈ closed t -> (c < next t)%nat).

Lemma step_accounted t t' : accounted t -> step t t' -> accounted t'.
Proof.
  intros (Ha & Hc & Hn) Hs. destruct Hs as [t|t|t c Hin|t c Hlt|t c Hin]; unfold accounted; cbn; (split_and!; [|set_solver|]).
  - intros c Hlt. destruct (decide (c = next t)) as [->|Hne]; [set_solver|]. destruct (Ha c); [lia|set_solver..].
  - intros c [Hc'|Hc']; [|specialize (Hn c); lia || (assert (c < next t)%nat by (apply Hn; tauto); lia)].
    apply elem_of_union in Hc' as [?%elem_of_singleton|?]; [lia|]. assert (c < next t)%nat by (apply Hn; tauto). lia.
  - intros c Hlt. destruct (Ha c Hlt) as [?|[?|?]]; set_solver.
  - intros c Hc'. apply Hn. set_solver.
  - intros d Hlt. destruct (decide (d = c)); [set_solver|]. destruct (Ha d Hlt) as [?|[?|?]]; set_solver.
  - intros d Hd. destruct (decide (d = c)) as [->|]; apply Hn; set_solver.
  - intros d Hd. destruct (decide (d = c)); [set_solver|]. destruct (Ha d Hd) as [?|[?|?]]; set_solver.
  - intros d Hd. destruct (decide (d = c)) as [->|]; [done|]. apply Hn. set_solver.
  - intros d Hd. destruct (decide (d = c)) as [->|]; [set_solver|]. destruct (Ha d Hd) as [?|[?|?]]; set_solver.
  - intros d Hd. apply Hn. set_solver.
Qed.

Lemma reachable_accounted t : rtc step NewConnectionTracker t -> accounted t.
Proof.
  intros Hr. assert (H0 : accounted NewConnectionTracker) by (split_and!; [cbn; lia|done|set_solver]).
  revert H0. induction Hr as [|t1 t2 t3 Hs _ IH]; [done|]. intros H0. by apply IH, (step_accounted t1).
Qed.

Lemma steps_closed t t' : rtc step t t' -> closed t ⊆ closed t' /\ (closing t ⊆ closing t' ∪ closed t') /\ (next t <= next t')%nat.
Proof.
  induction 1 as [t|t1 t2 t3 Hs _ (H1 & H2 & H3)]; [set_solver|].
  enough (closed t1 ⊆ closed t2 /\ closing t1 ⊆ closing t2 ∪ closed t2 /\ (next t1 <= next t2)%nat) as (? & ? & ?).
  { split_and!; [set_solver|set_solver|lia]. }
  destruct Hs as [t|t|t c Hin|t c Hlt|t c Hin]; cbn; split_and!; try lia; try set_solver;
    intros d Hd; destruct (decide (d = c)); set_solver.
Qed.

(** Whatever else happens meanwhile, once the loop of a [CloseAll] has closed what it
    took, every connection opened before it is closed. *)
Lemma close_all_closes t t' c :
  rtc step NewConnectionTracker t -> rtc step (CloseAll_swap t) t' -> closing t' = ∅ -> (c < next t)%nat -> c ∈ closed t'.
Proof.
  intros Hr Hs He Hc. destruct (reachable_accounted t Hr) as (Ha & _).
  destruct (steps_closed _ _ Hs) as (H1 & H2 & _). cbn in *. rewrite He in H2.
  destruct (Ha c Hc) as [?|[?|?]]; set_solver.
Qed.

End connrotation.

(** ** Certificates that are read again *)

Module rotation.
Import connrotation.

(** [tls.Certificate]: [None] is nil. *)
Record Certificate : Type := mkCertificate {
  chain : list string;
  PrivateKey : string;
  SignedCertificateTimestamps : list string;
  OCSPStaple : string;
  Leaf : option string
}.

#[global] Instance Certificate_eq_dec : EqDecision Certificate.
Proof. solve_decision. Defined.

Fixpoint byteMatrixEqual (l r : list string) : bool :=
  match l, r with
  | [], [] => true
  | x :: l, y :: r => String.eqb x y && byteMatrixEqual l r
  | _, _ => false
  end.

Definition certsEqual (l r : option Certificate) : bool :=
  match l, r with
  | None, None => true
  | None, Some _ | Some _, None => false
  | Some l, Some r =>
      byteMatrixEqual (chain l) (chain r) && String.eqb (PrivateKey l) (PrivateKey r) &&
      byteMatrixEqual (SignedCertificateTimestamps l) (SignedCertificateTimestamps r) &&
      String.eqb (OCSPStaple l) (OCSPStaple r)
  end.

Record dynamicClientCert : Type := mkDynamic { clientCert : option Certificate; connDialer : ConnectionTracker }.

(** [reload] has answered. *)
Definition loadClientCert (reload : string + option Certificate) (d : dynamicClientCert) :
    dynamicClientCert * (string + option Certificate) :=
  match reload with
  | inl err => (d, inl err)
  | inr cert =>
      let haveCert := bool_decide (is_Some (clientCert d)) in
      if certsEqual (clientCert d) cert then (d, inr (clientCert d))
      else if negb haveCert then (mkDynamic cert (connDialer d), inr cert)
      else (mkDynamic cert (CloseAll_swap (connDialer d)), inr cert)
  end.

Lemma byteMatrixEqual_spec l : forall r, byteMatrixEqual l r = true <-> l = r.
Proof.
  induction l as [|x l IH]; intros [|y r]; cbn; try done. rewrite andb_true_iff, String.eqb_eq, IH. naive_solver.
Qed.

Definition without_leaf (c : Certificate) : Certificate :=
  mkCertificate (chain c) (PrivateKey c) (SignedCertificateTimestamps c) (OCSPStaple c) None.

Lemma certsEqual_spec l r : certsEqual l r = true <-> without_leaf <$> l = without_leaf <$> r.
Proof.
  destruct l as [[]|], r as [[]|]; cbn; try done.
  rewrite !andb_true_iff, !byteMatrixEqual_spec, !String.eqb_eq. naive_solver.
Qed.

(** The connections are closed exactly when a certificate replaces another one; the
    certificate that is handed out is the newest up to its leaf. *)
Lemma loadClientCert_rotates cert d :
  let '(d', r) := loadClientCert (inr cert) d in
  r = inr (clientCert d') /\ without_leaf <$> clientCert d' = without_leaf <$> cert /\
  connDialer d' = (if bool_decide (is_Some (clientCert d) /\ without_leaf <$> clientCert d <> without_leaf <$> cert)
                   then CloseAll_swap (connDialer d) else connDialer d).
Proof.
  unfold loadClientCert. destruct (certsEqual (clientCert d) cert) eqn:He.
  - apply certsEqual_spec in He. split; [done|]. split; [done|]. rewrite bool_decide_false; [done|]. tauto.
  - assert (Hne : without_leaf <$> clientCert d <> without_leaf <$> cert).
    { intros Hc%certsEqual_spec. congruence. }
    case_bool_decide as Hh; cbn; split_and!; try done; [by rewrite bool_decide_true|by rewrite bool_decide_false by tauto].
Qed.

(** *** The loader of certificate files: at most one read in a second *)

Record certificateCacheEntry : Type := mkEntry { pair : string + Certificate; birth : Z }.

Definition isStale (now : Z) (c : certificateCacheEntry) : bool := Second <? time_sub now (birth c).

(** One call: the check under the read lock, the check under the write lock, and what the
    files give, born at [read]. *)
Definition load (now locked : Z) (files : string + Certificate) (read : Z) (c : certificateCacheEntry) : certificateCacheEntry :=
  if isStale now c then if isStale locked c then mkEntry files read else c else c.

Lemma load_at_most_once_a_second now locked files read c :
  in_int64 (now - birth c) -> in_int64 (locked - birth c) -> load now locked files read c <> c ->
  birth c + Second < now /\ birth c + Second < locked.
Proof.
  intros H1 H2. unfold load, isStale. rewrite !time_sub_exact by done. repeat case_match; try done. intros _.
  bool_to_prop. lia.
Qed.

End rotation.

(** ** The plugin's hand in a configuration: plugin/pkg/client/auth/exec/exec.go *)

Module exec_config.

Section update.
(** [a.getCert], [a.dial], and a new holder for a dialer wrapped by a tracker. *)
Variable getCert dial : nat.
Variable wrap_dial : nat -> nat.
Variable nil_dial_holder : nat -> bool.

(** The new configuration, whether the round tripper of the plugin was added to the
    wrappers, and the error; the configuration keeps what was done before an error. *)
Definition UpdateTransportConfig (has_token has_basic : bool) (c : Config) : Config * bool * option string :=
  if has_token || has_basic || HasCertAuth (TLS c) then (c, false, None)
  else if HasCertCallback (TLS c) then (c, true, Some "can't add TLS certificate callback: transport.Config.TLS.GetCert already set")
  else
    let t := TLS c in
    let t := mkTLS (CAFile t) (CertFile t) (KeyFile t) (ReloadTLSFiles t) (Insecure t) (ServerName t) (CAData t) (CertData t)
               (KeyData t) (NextProtos t) (Some getCert) in
    let c := set_tls t c in
    match DialHolder c with
    | Some h =>
        if nil_dial_holder h then (c, true, Some "invalid transport.Config.DialHolder: wrapped Dial function is nil")
        else (mkConfig t (DisableCompression c) (Transport c) (Some (wrap_dial h)) (Proxy c), true, None)
    | None => (mkConfig t (DisableCompression c) (Transport c) (Some dial) (Proxy c), true, None)
    end.

End update.

(** Credentials of the user keep the plugin out; otherwise the holders are those of the
    authenticator, so that two clients of one plugin that bring no dialer of their own
    and ask for the same files have one key in the cache. *)
Lemma clients_share getCert dial wrap nil_dial token basic c c1 c' c1' :
  UpdateTransportConfig getCert dial wrap nil_dial token basic c = (c1, true, None) ->
  UpdateTransportConfig getCert dial wrap nil_dial token basic c' = (c1', true, None) ->
  DialHolder c = None -> DialHolder c' = None -> key_of (TLS c) c = key_of (TLS c') c' ->
  ReloadTLSFiles (TLS c) = ReloadTLSFiles (TLS c') -> key_of (TLS c1) c1 = key_of (TLS c1') c1'.
Proof.
  intros H1 H1' Hd Hd' Hk Hre. unfold UpdateTransportConfig in *.
  destruct (token || basic || HasCertAuth (TLS c)), (token || basic || HasCertAuth (TLS c')); try done.
  destruct (HasCertCallback (TLS c)), (HasCertCallback (TLS c')); try done. cbn in *. rewrite Hd in H1. rewrite Hd' in H1'.
  simplify_eq. unfold key_of in *. cbn in *. rewrite Hre in *. by destruct (ReloadTLSFiles (TLS c')); simplify_eq/=; congruence.
Qed.

End exec_config.
