(* ===== verification/Discovery.v ===== *)
(** * Discovery: groups, versions and resources of a server

    discovery/discovery_client.go, discovery/aggregated_discovery.go and
    discovery/helper.go.  A discovery client is a record of operations on a world
    ([DiscoveryInterface]): the client of a server and the cache in memory are two of
    them, and the functions of this file work with either.  The schema package of
    k8s.io/apimachinery is the class [Schema]; goroutines run in any order. *)

From S2P Require Import Prelude Objects GoStrings.
#[local] Open Scope Z_scope.

(** ** Data *)

Record GroupVersion : Type := mkGV { Group : string; Version : string }.

#[global] Instance GroupVersion_eq_dec : EqDecision GroupVersion.
Proof. solve_decision. Defined.
#[global] Instance GroupVersion_countable : Countable GroupVersion.
Proof. refine (inj_countable' (fun g => (Group g, Version g)) (fun '(g, v) => mkGV g v) _). by intros []. Defined.

Record APIResource : Type := mkResource {
  Name : string;
  SingularName : string;
  Namespaced : bool;
  ResourceGroup : string;
  ResourceVersion : string;
  Kind : string;
  Verbs : list string;
  ShortNames : list string;
  Categories : list string
}.

Record APIResourceList : Type := mkResourceList { ListGroupVersion : string; APIResources : list APIResource }.

Record GroupVersionForDiscovery : Type := mkVersion { DGroupVersion : string; DVersion : string }.

#[global] Instance GroupVersionForDiscovery_eq_dec : EqDecision GroupVersionForDiscovery.
Proof. solve_decision. Defined.

Definition no_version : GroupVersionForDiscovery := mkVersion "" "".

Record APIGroup : Type := mkGroup {
  GroupName : string;
  Versions : list GroupVersionForDiscovery;
  PreferredVersion : GroupVersionForDiscovery
}.

(** k8s.io/apimachinery/pkg/runtime/schema: a group version as a string, and back. *)
Class Schema : Type := {
  gv_String : GroupVersion -> string;
  ParseGroupVersion : string -> option GroupVersion
}.

(** The order in which goroutines come: any. *)
Class Schedule : Type := {
  interleave : forall {A : Type}, list A -> list A;
  interleave_perm : forall {A : Type} (l : list A), interleave l ≡ₚ l
}.

Definition in_turn : Schedule := {| interleave := fun _ l => l; interleave_perm := fun A l => reflexivity l |}.

(** Errors: those of the calls, which are outside, and those of these packages. *)
Inductive error (E : Type) : Type :=
| External (e : E)
| StaleGroupVersionError (gv : GroupVersion)
| ErrGroupDiscoveryFailed (Groups : list (GroupVersion * error E))
| ErrCacheNotFound
| emptyResponseError (gv : string)
| ParseError (gv : string)
| EmptyGroupVersion
| VersionDiffers.
Arguments External {E} e.
Arguments StaleGroupVersionError {E} gv.
Arguments ErrGroupDiscoveryFailed {E} Groups.
Arguments ErrCacheNotFound {E}.
Arguments emptyResponseError {E} gv.
Arguments ParseError {E} gv.
Arguments EmptyGroupVersion {E}.
Arguments VersionDiffers {E}.

(** ** The aggregated format *)

Module Aggregated.

Record GroupVersionKind : Type := mkGVK { KGroup : string; KVersion : string; KKind : string }.
#[global] Instance GroupVersionKind_eq_dec : EqDecision GroupVersionKind.
Proof. solve_decision. Defined.

Record APISubresourceDiscovery : Type := mkSub { Subresource : string; SubKind : option GroupVersionKind; SubVerbs : list string }.

Record APIResourceDiscovery : Type := mkRes {
  Resource : string;
  SingularResource : string;
  ScopeNamespace : bool;
  ResponseKind : option GroupVersionKind;
  RVerbs : list string;
  RShortNames : list string;
  RCategories : list string;
  Subresources : list APISubresourceDiscovery
}.

Record APIVersionDiscovery : Type := mkVer { VVersion : string; Stale : bool; VResources : list APIResourceDiscovery }.
Record APIGroupDiscovery : Type := mkGrp { AName : string; AVersions : list APIVersionDiscovery }.

Definition emptyKind : GroupVersionKind := mkGVK "" "" "".

Section convert.
Context {Hrange : MapRange} {Hschema : Schema} {E : Type}.

(** The result, and whether it comes with an error. *)
Definition convertAPIResource (in_ : APIResourceDiscovery) : APIResource * bool :=
  match ResponseKind in_ with
  | Some k =>
      if decide (k = emptyKind)
      then (mkResource (Resource in_) (SingularResource in_) (ScopeNamespace in_) "" "" "" (RVerbs in_) (RShortNames in_) (RCategories in_), true)
      else (mkResource (Resource in_) (SingularResource in_) (ScopeNamespace in_) (KGroup k) (KVersion k) (KKind k)
              (RVerbs in_) (RShortNames in_) (RCategories in_), false)
  | None => (mkResource (Resource in_) (SingularResource in_) (ScopeNamespace in_) "" "" "" (RVerbs in_) (RShortNames in_) (RCategories in_), true)
  end.

Definition convertAPISubresource (parent : APIResource) (in_ : APISubresourceDiscovery) : option APIResource :=
  match SubKind in_ with
  | Some k =>
      if decide (k = emptyKind) then None
      else Some (mkResource (Name parent +:+ "/" +:+ Subresource in_) (SingularName parent) (Namespaced parent)
             (KGroup k) (KVersion k) (KKind k) (SubVerbs in_) [] [])
  | None => None
  end.

(** The resources that one entry becomes. *)
Definition convert_resource (r : APIResourceDiscovery) : list APIResource :=
  let '(resource, err) := convertAPIResource r in
  (if (err : bool) then [] else [resource]) ++ omap (convertAPISubresource resource) (Subresources r).

Definition convert_version (gname : string)
    (st : APIGroup * gmap GroupVersion APIResourceList * gmap GroupVersion (error E)) (v : APIVersionDiscovery) :=
  let '(group, gvResources, failedGVs) := st in
  let gv := mkGV gname (VVersion v) in
  if Stale v then (group, gvResources, <[gv := StaleGroupVersionError gv]> failedGVs)
  else
    let version := mkVersion (gv_String gv) (VVersion v) in
    let preferred := if decide (PreferredVersion group = no_version) then version else PreferredVersion group in
    let group := mkGroup (GroupName group) (Versions group ++ [version]) preferred in
    (group, <[gv := mkResourceList (gv_String gv) (VResources v ≫= convert_resource)]> gvResources, failedGVs).

Definition convertAPIGroup (g : APIGroupDiscovery) :=
  fold_left (convert_version (AName g)) (AVersions g) (mkGroup (AName g) [] no_version, ∅, ∅).

(** The maps of the groups are copied entry by entry; the order does not matter, the later
    group wins. *)
Definition SplitGroupsAndResources (aggregatedGroups : list APIGroupDiscovery) :
    list APIGroup * gmap GroupVersion APIResourceList * gmap GroupVersion (error E) :=
  fold_left (fun '(groups, resourcesByGV, failedGVs) aggGroup =>
    let '(group, resources, failed) := convertAPIGroup aggGroup in
    (groups ++ [group],
     fold_left (fun m '(gv, l) => <[gv := l]> m) (range resources) resourcesByGV,
     fold_left (fun m '(gv, err) => <[gv := err]> m) (range failed) failedGVs)) aggregatedGroups ([], ∅, ∅).

End convert.

End Aggregated.

(** ** The interface *)

Section discovery.
Context {Hrange : MapRange} {Hschema : Schema} {Hschedule : Schedule} {E : Type}.

#[local] Notation error := (error E).

Definition M (W A : Type) : Type := W -> W * A.
Definition ret {W A} (a : A) : M W A := fun w => (w, a).
Definition bind {W A B} (m : M W A) (f : A -> M W B) : M W B := fun w => let '(w, a) := m w in f a w.

(** What [GroupsAndMaybeResources] returns: groups and resources may be nil. *)
Definition MaybeResources : Type :=
  option (list APIGroup) * option (gmap GroupVersion APIResourceList) * gmap GroupVersion error * option error.

(** [AggregatedDiscoveryInterface] is there or not; a list and an error may come together. *)
Record DiscoveryInterface (W : Type) : Type := mkDiscovery {
  GroupsAndMaybeResources : option (M W MaybeResources);
  ServerGroups : M W (option (list APIGroup) * option error);
  ServerResourcesForGroupVersion : string -> M W (option APIResourceList * option error)
}.
Arguments GroupsAndMaybeResources {W}.
Arguments ServerGroups {W}.
Arguments ServerResourcesForGroupVersion {W}.

Fixpoint each {W A B} (f : A -> M W B) (l : list A) : M W (list B) :=
  match l with
  | [] => ret []
  | x :: l => bind (f x) (fun y => bind (each f l) (fun ys => ret (y :: ys)))
  end.

(** The pairs that the nested loops over groups and versions go through. *)
Definition pairs (groups : list APIGroup) : list (APIGroup * GroupVersionForDiscovery) :=
  groups ≫= fun g => (fun v => (g, v)) <$> Versions g.

Definition gv_of (p : APIGroup * GroupVersionForDiscovery) : GroupVersion := mkGV (GroupName p.1) (DVersion p.2).

(** The goroutines call in one order and record in another. *)
Definition fetchGroupVersionResources {W} (d : DiscoveryInterface W) (apiGroups : list APIGroup) :
    M W (gmap GroupVersion APIResourceList * gmap GroupVersion error) :=
  bind (each (fun p =>
          bind (ServerResourcesForGroupVersion d (gv_String (gv_of p))) (fun '(l, err) => ret (gv_of p, l, err)))
        (interleave (pairs apiGroups)))
    (fun results =>
       ret (fold_left (fun '(ok, failed) '(gv, l, err) =>
              (match l with Some l => <[gv := l]> ok | None => ok end,
               match err with Some err => <[gv := err]> failed | None => failed end))
            (interleave results) (∅, ∅))).

Definition failure (failed : gmap GroupVersion error) : option error :=
  if bool_decide (range failed = []) then None else Some (ErrGroupDiscoveryFailed (range failed)).

Definition ServerGroupsAndResources {W} (d : DiscoveryInterface W) :
    M W (option (list APIGroup) * option (list APIResourceList) * option error) :=
  bind (match GroupsAndMaybeResources d with
        | Some ad => bind ad (fun '(sgs, resourcesByGV, failedGVs, err) =>
            ret (sgs, match resourcesByGV with Some m => (range m).*2 | None => [] end, failedGVs, err))
        | None => bind (ServerGroups d) (fun '(sgs, err) => ret (sgs, [], ∅, err))
        end)
    (fun '(sgs, resources, failedGVs, err) =>
      match sgs with
      | None => ret (None, None, err)
      | Some groups =>
          match resources with
          | _ :: _ => ret (Some groups, Some resources, failure failedGVs)
          | [] =>
              bind (fetchGroupVersionResources d groups) (fun '(groupVersionResources, failedGroups) =>
                let result := omap (fun p => groupVersionResources !! gv_of p) (pairs groups) in
                ret (Some groups, Some result, failure failedGroups))
          end
      end).

(** The retries of [DiscoveryClient.ServerGroupsAndResources]. *)
Fixpoint withRetries {W G R} (maxRetries : nat) (f : M W (option G * option R * option error))
    (last : option G * option R * option error) : M W (option G * option R * option error) :=
  match maxRetries with
  | 0%nat => ret last
  | S n => bind f (fun '(groups, result, err) =>
      match err with
      | None => ret (groups, result, None)
      | Some (ErrGroupDiscoveryFailed _) => withRetries n f (groups, result, err)
      | Some _ => ret (None, None, err)
      end)
  end.

(** ** Preferred resources *)

(** What the loop over groups and versions has selected: for each resource of a group the
    version and the resource; the lists to fill, by their place in the result. *)
Record selection : Type := mkSelection {
  result_lists : list APIResourceList;
  grVersions : gmap (string * string) string;
  grAPIResources : gmap (string * string) APIResource;
  gvAPIResourceLists : gmap GroupVersion nat
}.

Definition empty_selection : selection := mkSelection [] ∅ ∅ ∅.

Definition select_resource (g : APIGroup) (version : string) (s : selection) (apiResource : APIResource) : selection :=
  if strings_Contains (Name apiResource) "/" then s
  else
    let gr := (GroupName g, Name apiResource) in
    if bool_decide (is_Some (grAPIResources s !! gr)) && negb (String.eqb version (DVersion (PreferredVersion g))) then s
    else mkSelection (result_lists s) (<[gr := version]> (grVersions s)) (<[gr := apiResource]> (grAPIResources s)) (gvAPIResourceLists s).

Definition select_version (groupVersionResources : gmap GroupVersion APIResourceList) (s : selection)
    (p : APIGroup * GroupVersionForDiscovery) : selection :=
  match groupVersionResources !! gv_of p with
  | None => s
  | Some apiResourceList =>
      let s := mkSelection (result_lists s ++ [mkResourceList (DGroupVersion p.2) []]) (grVersions s) (grAPIResources s)
                 (<[gv_of p := length (result_lists s)]> (gvAPIResourceLists s)) in
      fold_left (select_resource p.1 (DVersion p.2)) (APIResources apiResourceList) s
  end.

(** The last loop: each selected resource goes into the list of its version. *)
Definition place (s : selection) (result : list APIResourceList) (x : (string * string) * APIResource) : list APIResourceList :=
  let '((group, resource), apiResource) := x in
  let version := default "" (grVersions s !! (group, resource)) in
  let i := default 0%nat (gvAPIResourceLists s !! mkGV group version) in
  match result !! i with
  | Some l => <[i := mkResourceList (ListGroupVersion l) (APIResources l ++ [apiResource])]> result
  | None => result
  end.

Definition preferred_of (groups : list APIGroup) (groupVersionResources : gmap GroupVersion APIResourceList) : list APIResourceList :=
  let s := fold_left (select_version groupVersionResources) (pairs groups) empty_selection in
  fold_left (place s) (range (grAPIResources s)) (result_lists s).

(** [None] is the panic of a nil group list. *)
Definition ServerPreferredResources {W} (d : DiscoveryInterface W) : M W (option (list APIResourceList * option error)) :=
  bind (match GroupsAndMaybeResources d with
        | Some ad => ad
        | None => bind (ServerGroups d) (fun '(sgs, err) => ret (sgs, None, ∅, err))
        end)
    (fun '(serverGroupList, resources, failedGroups, err) =>
      match err with
      | Some err => ret (Some ([], Some err))
      | None =>
          match serverGroupList with
          | None => ret None
          | Some groups =>
              bind (match resources with
                    | Some m => ret (m, failedGroups)
                    | None => fetchGroupVersionResources d groups
                    end)
                (fun '(groupVersionResources, failedGroups) =>
                  ret (Some (preferred_of groups groupVersionResources, failure failedGroups)))
          end
      end).

(** ** helper.go *)

Definition FilteredBy (pred : string -> APIResource -> bool) (rls : list APIResourceList) : list APIResourceList :=
  omap (fun rl =>
    match List.filter (pred (ListGroupVersion rl)) (APIResources rl) with
    | [] => None
    | l => Some (mkResourceList (ListGroupVersion rl) l)
    end) rls.

Definition SupportsAllVerbs_Match (verbs : list string) (groupVersion : string) (r : APIResource) : bool :=
  forallb (fun v => bool_decide (v ∈ Verbs r)) verbs.

Definition ServerPreferredNamespacedResources {W} (d : DiscoveryInterface W) : M W (option (list APIResourceList * option error)) :=
  bind (ServerPreferredResources d) (fun r =>
    ret (match r with
         | Some (all, err) => Some (FilteredBy (fun _ => Namespaced) all, err)
         | None => None
         end)).

Definition GroupVersionResources (rls : list APIResourceList) : option (gset (GroupVersion * string)) :=
  fold_left (fun gvrs rl =>
    gvrs ← gvrs;
    gv ← ParseGroupVersion (ListGroupVersion rl);
    Some (fold_left (fun gvrs r => {[(gv, Name r)]} ∪ gvrs) (APIResources rl) gvrs)) rls (Some ∅).

(** [ServerSupportsVersion]; the versions are those of metav1.ExtractGroupVersions. *)
Definition ServerSupportsVersion (ExtractGroupVersions : list APIGroup -> list string) (groups : list APIGroup)
    (requiredGV : GroupVersion) : bool :=
  let serverVersions := ExtractGroupVersions groups in
  bool_decide (gv_String requiredGV ∈ serverVersions) || bool_decide (serverVersions = []).

(** ** Which version of a resource is preferred *)

Ltac decide_goal Hc :=
  match goal with |- context [bool_decide ?P] => destruct (bool_decide_reflect P) as [Hc|Hc] end.

Section preferred.
Variable m : gmap GroupVersion APIResourceList.

(** A version of a group serves a resource; subresources are not looked at. *)
Definition serves (gv : GroupVersion) (r : string) : bool :=
  match m !! gv with
  | Some l => negb (strings_Contains r "/") && bool_decide (r ∈ Name <$> APIResources l)
  | None => false
  end.

(** The preferred version if it serves the resource, else the first one that does. *)
Definition chosen (g : APIGroup) (r : string) : option string :=
  let vs := List.filter (fun v => serves (mkGV (GroupName g) v) r) (DVersion <$> Versions g) in
  let preferred := DVersion (PreferredVersion g) in
  if decide (preferred ∈ vs) then Some preferred else head vs.

(** What one version does to the choice for a resource. *)
Definition upd (g : APIGroup) (v : string) (old : option string) : option string :=
  if bool_decide (is_Some old) && negb (String.eqb v (DVersion (PreferredVersion g))) then old else Some v.

Lemma upd_idem g v old : upd g v (upd g v old) = upd g v old.
Proof.
  unfold upd. destruct (bool_decide (is_Some old) && _) eqn:Ho; [by rewrite Ho|].
  rewrite bool_decide_true by done. by destruct (String.eqb _ _).
Qed.

(** The invariant of the selection: the two maps have the same keys, and a selected
    resource is one that its version serves, under its name. *)
Definition selected (s : selection) : Prop :=
  forall g r, match grVersions s !! (g, r), grAPIResources s !! (g, r) with
  | Some v, Some x => Name x = r /\ strings_Contains r "/" = false /\ exists l, m !! mkGV g v = Some l /\ x ∈ APIResources l
  | None, None => True
  | _, _ => False
  end.

Lemma selected_same s gr : selected s -> is_Some (grAPIResources s !! gr) <-> is_Some (grVersions s !! gr).
Proof.
  intros Hs. destruct gr as [g r]. specialize (Hs g r). destruct (grVersions s !! (g, r)), (grAPIResources s !! (g, r)); try done.
Qed.

Lemma select_resources g v xs l s :
  m !! mkGV (GroupName g) v = Some l -> (forall x, x ∈ xs -> x ∈ APIResources l) -> selected s ->
  let s' := fold_left (select_resource g v) xs s in
  selected s' /\ result_lists s' = result_lists s /\ gvAPIResourceLists s' = gvAPIResourceLists s /\
  forall gn r, grVersions s' !! (gn, r) =
    if bool_decide (gn = GroupName g /\ strings_Contains r "/" = false /\ r ∈ Name <$> xs)
    then upd g v (grVersions s !! (gn, r)) else grVersions s !! (gn, r).
Proof.
  intros Hl. revert s. induction xs as [|x xs IH]; intros s Hin Hs; cbn [fold_left].
  { split_and!; [done|done|done|]. intros gn r. rewrite bool_decide_false; [done|]. intros (_ & _ & Hr). by apply elem_of_nil in Hr. }
  set (s1 := select_resource g v s x).
  assert (H1 : selected s1 /\ result_lists s1 = result_lists s /\ gvAPIResourceLists s1 = gvAPIResourceLists s /\
    forall gn r, grVersions s1 !! (gn, r) =
      if bool_decide (gn = GroupName g /\ strings_Contains r "/" = false /\ r = Name x)
      then upd g v (grVersions s !! (gn, r)) else grVersions s !! (gn, r)).
  { unfold s1, select_resource. destruct (strings_Contains (Name x) "/") eqn:Hslash.
    { split_and!; [done|done|done|]. intros gn r. decide_goal Hc; [|done]. destruct Hc as (_ & Hc & ->). congruence. }
    assert (He : bool_decide (is_Some (grAPIResources s !! (GroupName g, Name x))) = bool_decide (is_Some (grVersions s !! (GroupName g, Name x))))
      by (apply bool_decide_ext; by apply selected_same).
    rewrite He.
    destruct (bool_decide (is_Some (grVersions s !! (GroupName g, Name x))) && negb (String.eqb v (DVersion (PreferredVersion g)))) eqn:Hu.
    { split_and!; [done|done|done|]. intros gn r. decide_goal Hc; [|done]. destruct Hc as (-> & _ & ->). unfold upd. by rewrite Hu. }
    cbn. split_and!; [|done|done|].
    - intros gn r. cbn. destruct (decide ((GroupName g, Name x) = (gn, r))) as [[= <- <-]|Hne].
      + rewrite !lookup_insert_eq. split_and!; [done|done|]. exists l. split; [done|]. apply Hin. left.
      + rewrite !lookup_insert_ne by done. apply Hs.
    - intros gn r. decide_goal Hc.
      + destruct Hc as (-> & _ & ->). rewrite lookup_insert_eq. unfold upd. by rewrite Hu.
      + rewrite lookup_insert_ne; [done|]. intros [= <- <-]. by apply Hc. }
  destruct H1 as (Hs1 & Hr1 & Hg1 & Hv1). destruct (IH s1) as (Hs2 & Hr2 & Hg2 & Hv2); [|done|].
  { intros y Hy. apply Hin. by right. }
  split_and!; [done|by rewrite Hr2|by rewrite Hg2|]. intros gn r. rewrite Hv2, Hv1. rewrite fmap_cons.
  repeat case_bool_decide; rewrite ?elem_of_cons in *; try done; rewrite ?upd_idem; try done; exfalso; intuition congruence.
Qed.

(** The choice for a resource, version by version. *)
Definition consider (gn r : string) (old : option string) (p : APIGroup * GroupVersionForDiscovery) : option string :=
  if bool_decide (GroupName p.1 = gn) && serves (gv_of p) r then upd p.1 (DVersion p.2) old else old.

Lemma select_versions ps : forall s, selected s ->
  let s' := fold_left (select_version m) ps s in
  selected s' /\ (forall gn r, grVersions s' !! (gn, r) = fold_left (consider gn r) ps (grVersions s !! (gn, r))).
Proof.
  induction ps as [|p ps IH]; intros s Hs; [done|]. cbn [fold_left].
  enough (H1 : selected (select_version m s p) /\ forall gn r, grVersions (select_version m s p) !! (gn, r) = consider gn r (grVersions s !! (gn, r)) p).
  { destruct H1 as [Hs1 Hv1]. destruct (IH _ Hs1) as [Hs2 Hv2]. split; [done|]. intros gn r. by rewrite Hv2, Hv1. }
  unfold select_version, consider, serves. destruct (m !! gv_of p) as [l|] eqn:Hl; [|split; [done|]; intros gn r; by rewrite andb_false_r].
  set (s1 := mkSelection _ (grVersions s) (grAPIResources s) _).
  destruct (select_resources p.1 (DVersion p.2) (APIResources l) l s1 Hl ltac:(done) Hs) as (Hs2 & _ & _ & Hv2).
  split; [done|]. intros gn r. rewrite Hv2. cbn.
  destruct (decide (gn = GroupName p.1)) as [->|Hne].
  - rewrite (bool_decide_true (GroupName p.1 = _)) by done. cbn.
    destruct (strings_Contains r "/"); cbn; [by rewrite bool_decide_false by (by intros (_ & ? & _))|].
    repeat case_bool_decide; try done; exfalso; tauto.
  - rewrite !bool_decide_false by naive_solver. done.
Qed.

(** Versions in order, the choice starts with nothing: the preferred one wins. *)
Lemma consider_versions g r vs : forall old,
  NoDup (DVersion <$> vs) ->
  fold_left (consider (GroupName g) r) ((fun v => (g, v)) <$> vs) old =
    let served := List.filter (fun v => serves (mkGV (GroupName g) v) r) (DVersion <$> vs) in
    let preferred := DVersion (PreferredVersion g) in
    if decide (preferred ∈ served) then Some preferred else match old with Some v => Some v | None => head served end.
Proof.
  induction vs as [|v vs IH]; intros old Hd.
  { cbn. rewrite decide_False by (by intros ?%elem_of_nil). by destruct old. }
  rewrite !fmap_cons in *. apply NoDup_cons in Hd as [Hn Hd]. cbn [fold_left]. rewrite IH by done. cbv zeta.
  unfold consider at 1. cbn [fst snd]. rewrite bool_decide_true by done. cbn [andb List.filter].
  change (gv_of (g, v)) with (mkGV (GroupName g) (DVersion v)).
  destruct (serves (mkGV (GroupName g) (DVersion v)) r) eqn:Hs; [|done].
  set (pref := DVersion (PreferredVersion g)) in *. set (rest := List.filter _ (DVersion <$> vs)).
  assert (Hrest : forall x, x ∈ rest -> x ∈ DVersion <$> vs).
  { intros x. unfold rest. rewrite !list_elem_of_In, filter_In. tauto. }
  destruct (decide (pref ∈ rest)) as [Hp|Hp].
  - rewrite decide_True; [done|]. by right.
  - unfold upd. fold pref. destruct (String.eqb_spec (DVersion v) pref) as [He|He].
    + rewrite andb_false_r, decide_True by (rewrite He; left). by rewrite He.
    + rewrite decide_False by (intros [?|?]%elem_of_cons; [by subst|done]). by destruct old.
Qed.

Lemma consider_elsewhere gn r ps old : Forall (fun p => GroupName p.1 <> gn) ps -> fold_left (consider gn r) ps old = old.
Proof.
  intros Hp. revert old. induction Hp as [|p ps Hp _ IH]; intros old; [done|]. cbn. rewrite IH. unfold consider.
  by rewrite bool_decide_false.
Qed.

Lemma pairs_elsewhere groups gn : gn ∉ GroupName <$> groups -> Forall (fun p => GroupName p.1 <> gn) (pairs groups).
Proof.
  intros Hn. apply Forall_forall. intros p Hp. apply list_elem_of_bind in Hp as (g & Hp & Hg).
  apply list_elem_of_fmap in Hp as (v & -> & _). intros <-. apply Hn. by apply list_elem_of_fmap_2.
Qed.

Lemma selected_version groups g r :
  NoDup (GroupName <$> groups) -> g ∈ groups -> NoDup (DVersion <$> Versions g) ->
  fold_left (consider (GroupName g) r) (pairs groups) None = chosen g r.
Proof.
  intros Hd Hg Hv. apply list_elem_of_split in Hg as (l1 & l2 & ->). unfold pairs.
  rewrite fmap_app, fmap_cons in Hd. apply NoDup_app in Hd as (_ & Hd1 & Hd2). apply NoDup_cons in Hd2 as [Hd2 _].
  rewrite bind_app, bind_cons, !fold_left_app.
  change (l1 ≫= _) with (pairs l1). change (l2 ≫= _) with (pairs l2).
  rewrite (consider_elsewhere _ _ (pairs l1)) by (apply pairs_elsewhere; intros Hin; apply (Hd1 _ Hin); left).
  rewrite (consider_elsewhere _ _ (pairs l2)) by (by apply pairs_elsewhere).
  by rewrite consider_versions.
Qed.

(** The lists of the result: one for each version that was fetched. *)
Definition fetched (ps : list (APIGroup * GroupVersionForDiscovery)) : list (APIGroup * GroupVersionForDiscovery) :=
  filter (fun p => is_Some (m !! gv_of p)) ps.

Definition empty_list (p : APIGroup * GroupVersionForDiscovery) : APIResourceList := mkResourceList (DGroupVersion p.2) [].

Lemma select_lists ps : forall sp s,
  result_lists s = empty_list <$> sp -> (forall i p, sp !! i = Some p -> gvAPIResourceLists s !! gv_of p = Some i) ->
  NoDup (gv_of <$> sp ++ ps) -> selected s ->
  let s' := fold_left (select_version m) ps s in
  result_lists s' = empty_list <$> sp ++ fetched ps /\
  (forall i p, (sp ++ fetched ps) !! i = Some p -> gvAPIResourceLists s' !! gv_of p = Some i).
Proof.
  induction ps as [|p ps IH]; intros sp s Hr Hg Hd Hs; cbn [fold_left].
  { unfold fetched. cbn. rewrite !app_nil_r. by split. }
  unfold fetched. rewrite filter_cons. unfold select_version at 2 4. destruct (m !! gv_of p) as [l|] eqn:Hl.
  - rewrite decide_True by (by eexists). fold (fetched ps).
    set (s1 := mkSelection _ (grVersions s) (grAPIResources s) _).
    destruct (select_resources p.1 (DVersion p.2) (APIResources l) l s1 Hl ltac:(done) Hs) as (Hs2 & Hr2 & Hg2 & _).
    replace (sp ++ p :: fetched ps) with ((sp ++ [p]) ++ fetched ps) by (by rewrite <- app_assoc).
    apply IH; [|..|done].
    + rewrite Hr2. cbn. by rewrite Hr, fmap_app.
    + intros i q Hq. rewrite Hg2. cbn. apply lookup_snoc_Some in Hq as [[Hi Hq]|[-> <-]].
      * rewrite lookup_insert_ne; [by apply Hg|]. intros He. rewrite fmap_app, fmap_cons in Hd.
        apply NoDup_app in Hd as (_ & Hd & _). apply (Hd (gv_of q)).
        -- apply list_elem_of_fmap_2. by eapply list_elem_of_lookup_2.
        -- rewrite He. left.
      * by rewrite lookup_insert_eq, Hr, length_fmap.
    + by rewrite <- app_assoc.
  - rewrite decide_False by (by intros [? ?]). fold (fetched ps). apply IH; try done.
    rewrite fmap_app, fmap_cons in Hd. rewrite fmap_app. apply NoDup_app in Hd as (H1 & H2 & H3).
    apply NoDup_cons in H3 as [_ H3]. apply NoDup_app. split_and!; [done| |done]. intros x Hx Hx'. apply (H2 x Hx). by right.
Qed.

(** What the placing of the resources makes of one list. *)
Lemma place_all s xs : forall result i l,
  result !! i = Some l ->
  fold_left (place s) xs result !! i =
    Some (mkResourceList (ListGroupVersion l) (APIResources l ++
      (snd <$> filter (fun x => default 0%nat (gvAPIResourceLists s !! mkGV x.1.1 (default "" (grVersions s !! x.1))) = i) xs))).
Proof.
  induction xs as [|[[g r] x] xs IH]; intros result i l Hi; cbn [fold_left].
  { cbn. rewrite app_nil_r. by destruct l. }
  rewrite filter_cons. cbn [fst]. unfold place at 2. cbv zeta.
  set (j := default 0%nat (gvAPIResourceLists s !! mkGV g (default "" (grVersions s !! (g, r))))).
  destruct (decide (j = i)) as [->|Hne].
  - rewrite Hi. rewrite (IH _ i (mkResourceList (ListGroupVersion l) (APIResources l ++ [x]))).
    + cbn. by rewrite <- app_assoc.
    + apply list_lookup_insert_eq. by eapply lookup_lt_Some.
  - destruct (result !! j) as [lj|]; apply IH; [|done]. by rewrite list_lookup_insert_ne.
Qed.

Lemma place_length s xs : forall result, length (fold_left (place s) xs result) = length result.
Proof.
  induction xs as [|[[g r] x] xs IH]; intros result; [done|]. cbn [fold_left]. rewrite IH. unfold place. cbv zeta.
  destruct (result !! _); [apply length_insert|done].
Qed.

Lemma pairs_NoDup groups :
  NoDup (GroupName <$> groups) -> Forall (fun g => NoDup (DVersion <$> Versions g)) groups -> NoDup (gv_of <$> pairs groups).
Proof.
  induction groups as [|g groups IH]; intros Hd Hv; [constructor|].
  rewrite fmap_cons in Hd. apply NoDup_cons in Hd as [Hn Hd]. apply Forall_cons in Hv as [Hg Hv].
  unfold pairs. rewrite bind_cons, fmap_app. change (groups ≫= _) with (pairs groups). apply NoDup_app. split_and!.
  - rewrite <- list_fmap_compose. change (gv_of ∘ (fun v => (g, v))) with (mkGV (GroupName g) ∘ DVersion).
    rewrite list_fmap_compose. apply NoDup_fmap_2; [|done]. by intros v v' [= ->].
  - intros x Hx Hx'. apply list_elem_of_fmap in Hx as (p & -> & Hp). apply list_elem_of_fmap in Hp as (v & -> & _).
    apply list_elem_of_fmap in Hx' as (q & Hq & Hin). pose proof (pairs_elsewhere groups _ Hn) as Hall.
    rewrite Forall_forall in Hall. apply (Hall q Hin). by injection Hq.
  - by apply IH.
Qed.

Lemma pairs_group groups p : p ∈ pairs groups -> p.1 ∈ groups /\ p.2 ∈ Versions p.1.
Proof. intros Hp. apply list_elem_of_bind in Hp as (g & Hp & Hg). by apply list_elem_of_fmap in Hp as (v & -> & Hv). Qed.

Lemma chosen_serves g r v : chosen g r = Some v -> v ∈ DVersion <$> Versions g /\ serves (mkGV (GroupName g) v) r = true.
Proof.
  unfold chosen. set (vs := List.filter _ _).
  assert (Hvs : forall v, v ∈ vs -> v ∈ DVersion <$> Versions g /\ serves (mkGV (GroupName g) v) r = true).
  { intros u. unfold vs. rewrite !list_elem_of_In, filter_In. done. }
  case_decide as Hp; [intros [= <-]; by apply Hvs|]. destruct vs as [|u vs']; [done|]. intros [= ->]. apply Hvs. left.
Qed.

(** C35: the preferred resources are, for each version that was fetched and in the order
    of the groups and their versions, a list of exactly the resources for which that
    version is chosen: the group's preferred version where it serves the resource,
    otherwise the first listed version that does.  No resource of a group is in two
    lists or twice in one, each is the resource its version served, and subresources are
    left out. *)
Theorem preferred_resources_exact groups :
  NoDup (GroupName <$> groups) -> Forall (fun g => NoDup (DVersion <$> Versions g)) groups ->
  length (preferred_of groups m) = length (fetched (pairs groups)) /\
  forall i p, fetched (pairs groups) !! i = Some p -> exists l l0,
    preferred_of groups m !! i = Some l /\ m !! gv_of p = Some l0 /\ ListGroupVersion l = DGroupVersion p.2 /\
    NoDup (Name <$> APIResources l) /\ APIResources l ⊆ APIResources l0 /\
    forall r, r ∈ Name <$> APIResources l <-> chosen p.1 r = Some (DVersion p.2).
Proof.
  intros Hd Hv. unfold preferred_of. set (S := fold_left (select_version m) (pairs groups) empty_selection).
  assert (H0 : selected empty_selection) by (intros g r; done).
  destruct (select_versions (pairs groups) empty_selection H0) as [HS HSv]. fold S in HS, HSv.
  destruct (select_lists (pairs groups) [] empty_selection) as [HSr HSg];
    [done|done|by apply pairs_NoDup|done|]. fold S in HSr, HSg. cbn [app] in *.
  assert (Hgroup : forall g r, g ∈ groups -> grVersions S !! (GroupName g, r) = chosen g r).
  { intros g r Hg. rewrite HSv. apply selected_version; [done|done|]. rewrite Forall_forall in Hv. by apply Hv. }
  assert (Hwhere : forall gn r v, grVersions S !! (gn, r) = Some v ->
    exists j q, fetched (pairs groups) !! j = Some q /\ gv_of q = mkGV gn v /\ chosen q.1 r = Some v).
  { intros gn r v Hs. destruct (decide (gn ∈ GroupName <$> groups)) as [Hin|Hout].
    - apply list_elem_of_fmap in Hin as (g & -> & Hg). rewrite Hgroup in Hs by done.
      destruct (chosen_serves _ _ _ Hs) as [Hvs Hser]. apply list_elem_of_fmap in Hvs as (dv & -> & Hdv).
      assert (Hq : (g, dv) ∈ fetched (pairs groups)).
      { apply list_elem_of_filter. split.
        - unfold serves in Hser. change (gv_of (g, dv)) with (mkGV (GroupName g) (DVersion dv)). by destruct (m !! _).
        - apply list_elem_of_bind. exists g. split; [|done]. by apply list_elem_of_fmap_2. }
      apply list_elem_of_lookup_1 in Hq as [j Hj]. by exists j, (g, dv).
    - rewrite HSv, consider_elsewhere in Hs by (by apply pairs_elsewhere). done. }
  split; [by rewrite place_length, HSr, length_fmap|]. intros i p Hp.
  assert (Hpin : p ∈ fetched (pairs groups)) by (by eapply list_elem_of_lookup_2).
  apply list_elem_of_filter in Hpin as [[l0 Hl0] Hpairs]. destruct (pairs_group _ _ Hpairs) as [Hpg _].
  erewrite place_all by (rewrite HSr, list_lookup_fmap, Hp; reflexivity). do 2 eexists.
  split; [reflexivity|]. cbn [APIResources ListGroupVersion empty_list app].
  set (xs := filter _ (range (grAPIResources S))).
  assert (Hxs : forall g r x, ((g, r), x) ∈ xs -> g = GroupName p.1 /\ Name x = r /\ x ∈ APIResources l0 /\
    chosen p.1 r = Some (DVersion p.2) /\ grAPIResources S !! (g, r) = Some x).
  { intros g r x Hx. apply list_elem_of_filter in Hx as [Hi Hx%elem_of_range]. cbn [fst snd] in Hi. pose proof (HS g r) as Hsel.
    rewrite Hx in Hsel. destruct (grVersions S !! (g, r)) as [v|] eqn:Hgv; [|done]. destruct Hsel as (Hn & _ & l & Hl & Hin).
    destruct (Hwhere g r v Hgv) as (j & q & Hj & Hq & Hc). change (default "" (Some v)) with v in Hi. rewrite <- Hq in Hi, Hl.
    rewrite (HSg j q Hj) in Hi. cbn in Hi. subst j. rewrite Hp in Hj. injection Hj as ->.
    unfold gv_of in Hq. injection Hq as <- <-. rewrite Hl0 in Hl. injection Hl as ->. done. }
  split; [done|]. split; [done|]. split; [|split].
  - rewrite <- list_fmap_compose. apply NoDup_fmap_2_strong.
    + intros [[g r] x] [[g' r'] x'] Hx Hx' He. cbn in He. apply Hxs in Hx as (-> & <- & _ & _ & Hx), Hx' as (-> & <- & _ & _ & Hx').
      rewrite He in Hx. rewrite Hx in Hx'. by injection Hx' as ->.
    + apply NoDup_filter. eapply NoDup_fmap_1, NoDup_fst_range.
  - intros x Hx. apply list_elem_of_fmap in Hx as ([[g r] x'] & -> & Hx). by apply Hxs in Hx as (_ & _ & ? & _).
  - intros r. rewrite <- list_fmap_compose. split.
    + intros Hr. apply list_elem_of_fmap in Hr as ([[g r'] x] & -> & Hx). apply Hxs in Hx as (_ & <- & _ & Hc & _). done.
    + intros Hc. pose proof (Hgroup p.1 r Hpg) as Hgv. rewrite Hc in Hgv. pose proof (HS (GroupName p.1) r) as Hsel. rewrite Hgv in Hsel.
      destruct (grAPIResources S !! (GroupName p.1, r)) as [x|] eqn:Hx; [|done]. destruct Hsel as (<- & _ & _).
      apply list_elem_of_fmap. exists ((GroupName p.1, Name x), x). split; [done|]. apply list_elem_of_filter.
      rewrite elem_of_range. split; [|done]. cbn [fst snd]. rewrite Hgv. change (default "" (Some (DVersion p.2))) with (DVersion p.2).
      change (mkGV (GroupName p.1) (DVersion p.2)) with (gv_of p). by rewrite (HSg i p Hp).
Qed.

End preferred.

End discovery.

(** ** A server with two versions of a group *)

(** A format of group versions. *)
Definition plain_schema : Schema := {|
  gv_String gv := if String.eqb (Group gv) "" then Version gv else Group gv +:+ "/" +:+ Version gv;
  ParseGroupVersion s := match strings_Split s slash with
    | [v] => Some (mkGV "" v)
    | [g; v] => Some (mkGV g v)
    | _ => None
    end
|}.

Module samples.

#[local] Existing Instance range_in_key_order.

Definition pod : APIResource := mkResource "pods" "pod" true "" "" "Pod" ["get"; "list"] ["po"] ["all"].
Definition pod_log : APIResource := mkResource "pods/log" "" true "" "" "Pod" ["get"] [] [].
Definition job : APIResource := mkResource "jobs" "job" true "" "" "Job" ["get"] [] [].

Definition v1 : GroupVersionForDiscovery := mkVersion "g/v1" "v1".
Definition v2 : GroupVersionForDiscovery := mkVersion "g/v2" "v2".
Definition g : APIGroup := mkGroup "g" [v2; v1] v1.
Definition h : APIGroup := mkGroup "h" [mkVersion "h/v1" "v1"] no_version.

Definition served : gmap GroupVersion APIResourceList :=
  <[mkGV "g" "v1" := mkResourceList "g/v1" [pod; pod_log]]> (<[mkGV "g" "v2" := mkResourceList "g/v2" [pod; job]]> ∅).

(** Pods come from the preferred version though the other one is first. *)
Lemma preferred_resources_exact_witness :
  preferred_of [g; h] served = [mkResourceList "g/v2" [job]; mkResourceList "g/v1" [pod]] /\
  length (preferred_of [g; h] served) = length (fetched served (pairs [g; h])).
Proof.
  split; [vm_compute; reflexivity|].
  apply (preferred_resources_exact served [g; h]).
  - repeat (constructor; [rewrite ?elem_of_cons, ?elem_of_nil; naive_solver|]). constructor.
  - repeat constructor; rewrite ?elem_of_cons, ?elem_of_nil; naive_solver.
Defined.

(** Finding: a document with nothing but a stale version.  No resources came with it, so the
    function asks for those of the listed versions, of which there are none, and the stale
    one is not reported. *)
Definition stale_document : list Aggregated.APIGroupDiscovery := [Aggregated.mkGrp "g" [Aggregated.mkVer "v1" true []]].

Definition stale_server : DiscoveryInterface (E := Z) unit :=
  let '(groups, resources, failed) := Aggregated.SplitGroupsAndResources (Hschema := plain_schema) stale_document in
  mkDiscovery unit (Some (fun w => (w, (Some groups, Some resources, failed, None)))) (fun w => (w, (Some groups, None)))
    (fun _ w => (w, (None, Some (External 404)))).

Example stale_is_not_surfaced :
  (ServerGroupsAndResources (Hschema := plain_schema) (Hschedule := in_turn) stale_server tt).2 = (Some [mkGroup "g" [] no_version], Some [], None).
Proof. vm_compute. reflexivity. Qed.

Example stale_failed :
  (Aggregated.SplitGroupsAndResources (E := Z) (Hschema := plain_schema) stale_document).2 !! mkGV "g" "v1" =
    Some (StaleGroupVersionError (mkGV "g" "v1")).
Proof. vm_compute. reflexivity. Qed.

End samples.
