(* ===== verification/DiscoveryClient.v ===== *)
(** * The discovery client of a server

    discovery/discovery_client.go over the requests of a REST client, with the questions of
    discovery/helper.go, and what the aggregated documents of
    discovery/aggregated_discovery.go become.  Decoding and media types are parameters. *)

From S2P Require Import Prelude Objects GoStrings Discovery.
#[local] Open Scope Z_scope.

(** ** What an aggregated document becomes *)

Section split.
Context {Hrange : MapRange} {Hschema : Schema} {E : Type}.
Import Aggregated.

(** The version of a document that a group version names. *)
Definition version_in (n : string) (vs : list APIVersionDiscovery) (gv : GroupVersion) : option APIVersionDiscovery :=
  if String.eqb n (Group gv) then List.find (fun v => String.eqb (VVersion v) (Version gv)) vs else None.

Fixpoint version_of (aggs : list APIGroupDiscovery) (gv : GroupVersion) : option APIVersionDiscovery :=
  match aggs with
  | [] => None
  | g :: aggs => match version_in (AName g) (AVersions g) gv with Some v => Some v | None => version_of aggs gv end
  end.

Definition live (g : APIGroupDiscovery) : list GroupVersionForDiscovery :=
  (fun v => mkVersion (gv_String (mkGV (AName g) (VVersion v))) (VVersion v)) <$> List.filter (fun v => negb (Stale v)) (AVersions g).

(** An entry of a version: a resource, or a subresource of one; a resource comes before its
    subresources. *)
Definition entry : Type := APIResourceDiscovery * option APISubresourceDiscovery.

Definition entries (v : APIVersionDiscovery) : list entry :=
  VResources v ≫= fun r => (r, None) :: ((fun s => (r, Some s)) <$> Subresources r).

Definition kind_of (e : entry) : option GroupVersionKind := match e.2 with None => ResponseKind e.1 | Some s => SubKind s end.

(** Only what has a kind can be listed. *)
Definition has_kind (e : entry) : bool := if kind_of e is Some k then bool_decide (k <> mkGVK "" "" "") else false.

(** What a client is told of an entry: its name, a subresource after its resource; its kind
    and verbs; the singular name and the scope, which are those of the resource; and the
    short names and categories, which a subresource has not. *)
Definition describes (e : entry) (a : APIResource) : Prop :=
  (exists k, kind_of e = Some k /\ ResourceGroup a = KGroup k /\ ResourceVersion a = KVersion k /\ Kind a = KKind k) /\
  SingularName a = SingularResource e.1 /\ Namespaced a = ScopeNamespace e.1 /\
  match e.2 with
  | None => Name a = Resource e.1 /\ Verbs a = RVerbs e.1 /\ ShortNames a = RShortNames e.1 /\ Categories a = RCategories e.1
  | Some s => Name a = Resource e.1 +:+ "/" +:+ Subresource s /\ Verbs a = SubVerbs s /\ ShortNames a = [] /\ Categories a = []
  end.

Lemma convert_resource_describes r :
  Forall2 describes (List.filter has_kind ((r, None) :: ((fun s => (r, Some s)) <$> Subresources r))) (convert_resource r).
Proof.
  unfold convert_resource. cbn [List.filter].
  assert (Hsub : forall parent subs, Name parent = Resource r -> SingularName parent = SingularResource r -> Namespaced parent = ScopeNamespace r ->
    Forall2 describes (List.filter has_kind ((fun s => (r, Some s)) <$> subs)) (omap (convertAPISubresource parent) subs)).
  { intros parent subs Hn Hs Hns. induction subs as [|s subs IH]; [constructor|]. cbn [fmap list_fmap List.filter omap list_omap].
    unfold convertAPISubresource at 1, has_kind at 1, kind_of, emptyKind. cbn [snd].
    destruct (SubKind s) as [k|] eqn:Hk; [|done]. case_decide as Hd; [by rewrite bool_decide_false by tauto|].
    rewrite bool_decide_true by done. constructor; [|done]. unfold describes, kind_of. cbn. rewrite Hn, Hs, Hns. split; [by exists k|done]. }
  unfold convertAPIResource, has_kind at 1, kind_of, emptyKind. cbn [snd fst].
  destruct (ResponseKind r) as [k|] eqn:Hk; [|by apply Hsub]. case_decide as Hd.
  - rewrite bool_decide_false by tauto. by apply Hsub.
  - rewrite bool_decide_true by done. cbn [app]. constructor; [|by apply Hsub].
    unfold describes, kind_of. cbn. split; [by exists k|done].
Qed.

Lemma convert_resources_describe v : Forall2 describes (List.filter has_kind (entries v)) (VResources v ≫= convert_resource).
Proof.
  unfold entries. induction (VResources v) as [|r rs IH]; [constructor|]. cbn [mbind list_bind].
  rewrite List.filter_app. apply Forall2_app; [apply convert_resource_describes|done].
Qed.

Definition resources_of (gv : GroupVersion) (v : APIVersionDiscovery) : option APIResourceList :=
  if Stale v then None else Some (mkResourceList (gv_String gv) (VResources v ≫= convert_resource)).

Definition failure_of (gv : GroupVersion) (v : APIVersionDiscovery) : option (error E) :=
  if Stale v then Some (StaleGroupVersionError gv) else None.

Definition over {A} (new old : option A) : option A := if new is Some x then Some x else old.

Lemma over_assoc {A} (x y z : option A) : over x (over y z) = over (over x y) z.
Proof. by destruct x. Qed.

Lemma copy_lookup {A} (m m0 : gmap GroupVersion A) gv :
  fold_left (fun m '(gv, x) => <[gv := x]> m) (range m) m0 !! gv = over (m !! gv) (m0 !! gv).
Proof.
  assert (H : forall (l : list (GroupVersion * A)) (m0 : gmap GroupVersion A), NoDup l.*1 ->
    (forall x, (gv, x) ∈ l -> fold_left (fun m '(gv, x) => <[gv := x]> m) l m0 !! gv = Some x) /\
    (gv ∉ l.*1 -> fold_left (fun m '(gv, x) => <[gv := x]> m) l m0 !! gv = m0 !! gv)).
  { induction l as [|[k y] l IH]; intros n0 Hd; [split; [by intros x ?%elem_of_nil|done]|].
    rewrite fmap_cons in Hd. apply NoDup_cons in Hd as [Hn Hd]. cbn [fold_left]. destruct (IH (<[k := y]> n0) Hd) as [IH1 IH2]. split.
    - intros x [[= -> ->]|Hin]%elem_of_cons; [rewrite IH2 by done; by rewrite lookup_insert_eq|by apply IH1].
    - rewrite fmap_cons. intros Hgv. rewrite not_elem_of_cons in Hgv. destruct Hgv as [Hne Hgv]. cbn in Hne.
      rewrite IH2 by done. by rewrite lookup_insert_ne. }
  destruct (H (range m) m0 (NoDup_fst_range m)) as [H1 H2]. destruct (m !! gv) as [x|] eqn:Hx; cbn.
  - apply H1. by apply elem_of_range.
  - apply H2. rewrite elem_of_range_keys, Hx. by intros [? ?].
Qed.

(** The loop over the versions of one group. *)
Lemma convert_versions n vs : forall group ok failed,
  NoDup (VVersion <$> vs) -> Forall (fun v => VVersion v <> "") vs ->
  let '(group', ok', failed') := fold_left (convert_version n) vs (group, ok, failed) in
  group' = mkGroup (GroupName group) (Versions group ++ live (mkGrp n vs))
    (if decide (PreferredVersion group = no_version) then hd no_version (live (mkGrp n vs)) else PreferredVersion group) /\
  forall gv, ok' !! gv = over (version_in n vs gv ≫= resources_of gv) (ok !! gv) /\
             failed' !! gv = over (version_in n vs gv ≫= failure_of gv) (failed !! gv).
Proof.
  induction vs as [|v vs IH]; intros group ok failed Hd Hne; cbn [fold_left].
  { unfold live, version_in. cbn. rewrite app_nil_r. split; [by destruct group as [? ? p]; cbn; case_decide; subst|].
    intros gv. by destruct (String.eqb n (Group gv)). }
  rewrite fmap_cons in Hd. apply NoDup_cons in Hd as [Hn Hd]. apply Forall_cons in Hne as [Hv Hne].
  assert (Hstep : forall gv, version_in n (v :: vs) gv =
    if decide (gv = mkGV n (VVersion v)) then Some v else version_in n vs gv).
  { intros [g w]. unfold version_in. cbn [Group Version List.find]. destruct (String.eqb_spec n g) as [->|Hg].
    - destruct (String.eqb_spec (VVersion v) w) as [<-|Hw]; [by rewrite decide_True|]. by rewrite decide_False by congruence.
    - by rewrite decide_False by congruence. }
  assert (Hrest : version_in n vs (mkGV n (VVersion v)) = None).
  { unfold version_in. cbn. rewrite String.eqb_refl. destruct (List.find _ vs) as [v'|] eqn:Hf; [|done].
    apply find_some in Hf as [Hin%list_elem_of_In He%String.eqb_eq]. destruct Hn. rewrite <- He. by apply list_elem_of_fmap_2. }
  unfold convert_version at 2. destruct (Stale v) eqn:Hs.
  - specialize (IH group ok (<[mkGV n (VVersion v) := StaleGroupVersionError (mkGV n (VVersion v))]> failed) Hd Hne).
    destruct (fold_left _ vs _) as [[group' ok'] failed']. destruct IH as [-> IH]. split.
    + unfold live. cbn. by rewrite Hs.
    + intros gv. destruct (IH gv) as [-> ->]. rewrite Hstep. destruct (decide (gv = _)) as [->|Hg].
      * rewrite Hrest, lookup_insert_eq. cbn. unfold resources_of, failure_of. by rewrite Hs.
      * by rewrite lookup_insert_ne by done.
  - set (version := mkVersion _ (VVersion v)).
    specialize (IH (mkGroup (GroupName group) (Versions group ++ [version])
      (if decide (PreferredVersion group = no_version) then version else PreferredVersion group))
      (<[mkGV n (VVersion v) := mkResourceList (gv_String (mkGV n (VVersion v))) (VResources v ≫= convert_resource)]> ok) failed Hd Hne).
    destruct (fold_left _ vs _) as [[group' ok'] failed']. destruct IH as [-> IH]. split.
    + unfold live. cbn. rewrite Hs. cbn. rewrite <- app_assoc. f_equal.
      destruct (decide (PreferredVersion group = no_version)) as [Hp|Hp]; [|by rewrite decide_False].
      rewrite decide_False; [done|]. unfold version, no_version. congruence.
    + intros gv. destruct (IH gv) as [-> ->]. rewrite Hstep. destruct (decide (gv = _)) as [->|Hg].
      * rewrite Hrest, lookup_insert_eq. cbn. unfold resources_of, failure_of. by rewrite Hs.
      * by rewrite lookup_insert_ne by done.
Qed.

Lemma aggregated_split aggs :
  NoDup (AName <$> aggs) ->
  Forall (fun g => NoDup (VVersion <$> AVersions g) /\ Forall (fun v => VVersion v <> "") (AVersions g)) aggs ->
  let '(groups, resources, failed) := SplitGroupsAndResources (E := E) aggs in
  groups = (fun g => mkGroup (AName g) (live g) (hd no_version (live g))) <$> aggs /\
  forall gv, resources !! gv = version_of aggs gv ≫= resources_of gv /\ failed !! gv = version_of aggs gv ≫= failure_of gv.
Proof.
  intros Hd Hv. unfold SplitGroupsAndResources.
  match goal with |- context [fold_left ?f aggs _] => set (turn := f) end.
  assert (H : forall aggs groups ok failed, NoDup (AName <$> aggs) ->
    Forall (fun g => NoDup (VVersion <$> AVersions g) /\ Forall (fun v => VVersion v <> "") (AVersions g)) aggs ->
    let '(groups', ok', failed') := fold_left turn aggs (groups, ok, failed) in
    groups' = groups ++ ((fun g => mkGroup (AName g) (live g) (hd no_version (live g))) <$> aggs) /\
    forall gv, ok' !! gv = over (version_of aggs gv ≫= resources_of gv) (ok !! gv) /\
               failed' !! gv = over (version_of aggs gv ≫= failure_of gv) (failed !! gv)).
  { clear aggs Hd Hv. induction aggs as [|g aggs IH]; intros groups ok failed Hd Hv; cbn [fold_left].
    { split; [by rewrite app_nil_r|done]. }
    rewrite fmap_cons in Hd. apply NoDup_cons in Hd as [Hn Hd]. apply Forall_cons in Hv as [[Hv1 Hv2] Hv].
    unfold turn at 2. unfold convertAPIGroup.
    pose proof (convert_versions (AName g) (AVersions g) (mkGroup (AName g) [] no_version) ∅ ∅ Hv1 Hv2) as Hc.
    destruct (fold_left (convert_version (AName g)) _ _) as [[group rs] fs]. destruct Hc as [-> Hc].
    match goal with |- context [fold_left turn aggs (?a, ?b, ?c)] => specialize (IH a b c Hd Hv); destruct (fold_left turn aggs (a, b, c)) as [[groups' ok'] failed'] end.
    destruct IH as [-> IH]. split.
    { rewrite fmap_cons, <- app_assoc. cbn. destruct g as [n vs]. cbn. by destruct (live (mkGrp n vs)). }
    assert (Hone : forall gv, is_Some (version_in (AName g) (AVersions g) gv) -> version_of aggs gv = None).
    { intros gv [v Hin]. unfold version_in in Hin. destruct (String.eqb_spec (AName g) (Group gv)) as [He|He]; [|done].
      clear -Hn He. rewrite He in Hn. induction aggs as [|g' aggs IH]; [done|]. cbn. rewrite fmap_cons, not_elem_of_cons in Hn.
      destruct Hn as [Hn1 Hn2]. unfold version_in. rewrite (proj2 (String.eqb_neq _ _)) by congruence. by apply IH. }
    intros gv. destruct (IH gv) as [-> ->]. rewrite !copy_lookup. destruct (Hc gv) as [-> ->]. rewrite !lookup_empty. cbn [version_of].
    specialize (Hone gv). destruct (version_in (AName g) (AVersions g) gv) as [v|]; [|by destruct (version_of aggs gv)].
    rewrite Hone by done. cbn. unfold resources_of, failure_of. by destruct (Stale v). }
  specialize (H aggs [] ∅ ∅ Hd Hv). destruct (fold_left turn aggs ([], ∅, ∅)) as [[groups' ok'] failed'].
  destruct H as [-> H]. split; [done|]. intros gv. destruct (H gv) as [-> ->]. rewrite !lookup_empty.
  by destruct (version_of aggs gv ≫= resources_of gv), (version_of aggs gv ≫= failure_of gv).
Qed.

(** C36: an aggregated document is split without loss.  If its groups, and the versions of
    each, have distinct names and the versions have names: there is one group for each of
    its groups, in order, with exactly its versions that are not stale, the first of them
    preferred.  A group version has failed exactly if the document has it and it is stale,
    and has a list of resources exactly if it is there and not stale; that list has, in
    order, exactly the resources and subresources of the document that have a kind, each
    under its name and with its kind, verbs, scope, short names and categories. *)
Theorem aggregated_split_exact aggs :
  NoDup (AName <$> aggs) ->
  Forall (fun g => NoDup (VVersion <$> AVersions g) /\ Forall (fun v => VVersion v <> "") (AVersions g)) aggs ->
  let '(groups, resources, failed) := SplitGroupsAndResources (E := E) aggs in
  groups = (fun g => mkGroup (AName g) (live g) (hd no_version (live g))) <$> aggs /\
  forall gv,
    match version_of aggs gv with
    | None => resources !! gv = None /\ failed !! gv = None
    | Some v =>
        if Stale v then resources !! gv = None /\ failed !! gv = Some (StaleGroupVersionError gv)
        else failed !! gv = None /\
             exists l, resources !! gv = Some (mkResourceList (gv_String gv) l) /\
                       Forall2 describes (List.filter has_kind (entries v)) l
    end.
Proof.
  intros Hd Hv. pose proof (aggregated_split aggs Hd Hv) as H.
  destruct (SplitGroupsAndResources aggs) as [[groups resources] failed]. destruct H as [-> H]. split; [done|].
  intros gv. destruct (H gv) as [-> ->]. destruct (version_of aggs gv) as [v|]; [|done]. cbn. unfold resources_of, failure_of.
  destruct (Stale v); [done|]. split; [done|]. eexists. split; [done|]. apply convert_resources_describe.
Qed.

End split.

Arguments GroupsAndMaybeResources {E W}.
Arguments ServerGroups {E W}.
Arguments ServerResourcesForGroupVersion {E W}.
Arguments mkDiscovery {E W}.

(** ** The client *)

Section client.
Context {Hrange : MapRange} {Hschema : Schema} {Hschedule : Schedule} {E : Type}.

(** API errors, media types and JSON. *)
Variable IsNotFound : E -> bool.
Variable mime_ParseMediaType : string -> option (string * gmap string string).
Variable Unmarshal_aggregated : string -> E + list Aggregated.APIGroupDiscovery.
Variable Unmarshal_versions : string -> E + list string.
Variable Unmarshal_groups : string -> E + list APIGroup.

(** What is used of the REST client: a GET of a path with an [Accept] header gives the
    content type and the body; one into a list leaves the list and maybe an error. *)
Variable W : Type.
Variable Raw : string -> string -> M W (E + (string * string)).
Variable Into : string -> APIResourceList -> M W (APIResourceList * option E).
(** [url.URL.String] of a path. *)
Variable url_String : string -> string.

Record DiscoveryClient : Type := mkClient { LegacyPrefix : string; UseLegacyDiscovery : bool }.

Definition AcceptV1 : string := "application/json".
Definition AcceptV2Beta1 : string := AcceptV1 +:+ ";" +:+ "g=apidiscovery.k8s.io;v=v2beta1;as=APIGroupDiscoveryList".
Definition acceptDiscoveryFormats : string := AcceptV2Beta1 +:+ "," +:+ AcceptV1.

Definition isV2Beta1ContentType (contentType : string) : bool :=
  match mime_ParseMediaType contentType with
  | None => false
  | Some (base, params) =>
      String.eqb "application/json" base &&
      String.eqb (default "" (params !! "g")) "apidiscovery.k8s.io" &&
      String.eqb (default "" (params !! "v")) "v2beta1" &&
      String.eqb (default "" (params !! "as")) "APIGroupDiscoveryList"
  end.

(** An empty list of versions makes it panic; the caller asks first. *)
Definition apiVersionsToAPIGroup (versions : list string) : option APIGroup :=
  let groupVersions := (fun version => mkVersion version version) <$> versions in
  match groupVersions with
  | [] => None
  | v :: _ => Some (mkGroup "" groupVersions v)
  end.

Definition download : Type := error E + (list APIGroup * option (gmap GroupVersion APIResourceList) * gmap GroupVersion (error E)).

Definition accept_of (d : DiscoveryClient) : string := if UseLegacyDiscovery d then AcceptV1 else acceptDiscoveryFormats.

Definition aggregated (body : string) : download :=
  match Unmarshal_aggregated body with
  | inl err => inl (External err)
  | inr aggregatedDiscovery =>
      let '(groups, resourcesByGV, failedGVs) := Aggregated.SplitGroupsAndResources aggregatedDiscovery in
      inr (groups, Some resourcesByGV, failedGVs)
  end.

Definition downloadLegacy (d : DiscoveryClient) : M W download :=
  bind (Raw "/api" (accept_of d)) (fun r =>
    ret (match r with
         | inl err => if IsNotFound err then inr ([], Some ∅, ∅) else inl (External err)
         | inr (responseContentType, body) =>
             if isV2Beta1ContentType responseContentType then aggregated body
             else match Unmarshal_versions body with
                  | inl err => inl (External err)
                  | inr v => inr ([default (mkGroup "" [] no_version) (apiVersionsToAPIGroup v)], None, ∅)
                  end
         end)).

Definition downloadAPIs (d : DiscoveryClient) : M W download :=
  bind (Raw "/apis" (accept_of d)) (fun r =>
    ret (match r with
         | inl err => inl (External err)
         | inr (responseContentType, body) =>
             if isV2Beta1ContentType responseContentType then aggregated body
             else match Unmarshal_groups body with
                  | inl err => inl (External err)
                  | inr gs => inr (gs, None, ∅)
                  end
         end)).

(** The maps of /apis are copied over those of /api. *)
Definition merge_maps {A} (into from : gmap GroupVersion A) : gmap GroupVersion A :=
  fold_left (fun m '(gv, x) => <[gv := x]> m) (range from) into.

Definition client_GroupsAndMaybeResources (d : DiscoveryClient) : M W (MaybeResources (E := E)) :=
  bind (downloadLegacy d) (fun legacy =>
    match legacy with
    | inl err => ret (None, None, ∅, Some err)
    | inr (groups, resources, failedGVs) =>
        bind (downloadAPIs d) (fun apis =>
          ret (match apis with
               | inl err => (None, None, ∅, Some err)
               | inr (apiGroups, apiResources, failedApisGVs) =>
                   (Some (groups ++ apiGroups),
                    match resources, apiResources with
                    | Some rs, Some rs' => Some (merge_maps rs rs')
                    | _, _ => None
                    end,
                    merge_maps failedGVs failedApisGVs, None)
               end))
    end).

Definition client_ServerGroups (d : DiscoveryClient) : M W (option (list APIGroup) * option (error E)) :=
  bind (client_GroupsAndMaybeResources d) (fun '(groups, _, _, err) =>
    ret (match err with Some err => (None, Some err) | None => (groups, None) end)).

(** The resources of core v1 may be missing. *)
Definition client_ServerResourcesForGroupVersion (d : DiscoveryClient) (groupVersion : string) :
    M W (option APIResourceList * option (error E)) :=
  if (String.length groupVersion =? 0)%nat then ret (None, Some EmptyGroupVersion)
  else
    let path :=
      if negb (String.length (LegacyPrefix d) =? 0)%nat && String.eqb groupVersion "v1"
      then LegacyPrefix d +:+ "/" +:+ groupVersion else "/apis/" +:+ groupVersion in
    bind (Into (url_String path) (mkResourceList groupVersion [])) (fun '(resources, err) =>
      ret (match err with
           | None => (Some resources, None)
           | Some err => if String.eqb groupVersion "v1" && IsNotFound err then (Some resources, None) else (None, Some (External err))
           end)).

Definition client_of (d : DiscoveryClient) : DiscoveryInterface (E := E) W :=
  mkDiscovery (Some (client_GroupsAndMaybeResources d))
    (client_ServerGroups d) (client_ServerResourcesForGroupVersion d).

Definition defaultRetries : nat := 2.

Definition client_ServerGroupsAndResources (d : DiscoveryClient) :
    M W (option (list APIGroup) * option (list APIResourceList) * option (error E)) :=
  withRetries defaultRetries (ServerGroupsAndResources (client_of d)) (None, None, None).

(** [WithLegacy] *)
Definition WithLegacy (d : DiscoveryClient) : DiscoveryClient := mkClient (LegacyPrefix d) true.

(** [NewDiscoveryClient] *)
Definition NewDiscoveryClient : DiscoveryClient := mkClient "/api" false.

(** *** helper.go *)

(** [IsResourceEnabled]: whether the resource is there, or an error; [None] is the panic of
    a nil list without an error. *)
Definition IsResourceEnabled (client : DiscoveryInterface (E := E) W) (gv : GroupVersion) (resource : string) :
    M W (option (bool * option (error E))) :=
  bind (ServerResourcesForGroupVersion client (gv_String gv)) (fun '(resourceList, err) =>
    ret (match err with
         | Some err =>
             if (if err is External e then IsNotFound e else false) then Some (false, None) else Some (false, Some err)
         | None => l ← resourceList; Some (existsb (fun r => String.eqb (Name r) resource) (APIResources l), None)
         end)).

Record version_Info : Type := mkInfo { GitVersion : string; GitCommit : string; GitTreeState : string }.

Definition MatchesServerVersion (ServerVersion : M W (error E + version_Info)) (clientVersion : version_Info) : M W (option (error E)) :=
  bind ServerVersion (fun r =>
    ret (match r with
         | inl err => Some err
         | inr sVer =>
             if negb (String.eqb (GitVersion clientVersion) (GitVersion sVer)) || negb (String.eqb (GitCommit clientVersion) (GitCommit sVer)) ||
                negb (String.eqb (GitTreeState clientVersion) (GitTreeState sVer))
             then Some VersionDiffers else None
         end)).

(** *** What the client says *)

(** Resources come only from two aggregated answers (a missing /api is one); then they are
    those of both, and /apis wins. *)
Theorem client_resources_both d w gs rs failed :
  (client_GroupsAndMaybeResources d w).2 = (gs, Some rs, failed, None) ->
  exists w1 groups rs1 f1 w2 apiGroups rs2 f2,
    downloadLegacy d w = (w1, inr (groups, Some rs1, f1)) /\ downloadAPIs d w1 = (w2, inr (apiGroups, Some rs2, f2)) /\
    gs = Some (groups ++ apiGroups) /\
    forall gv, rs !! gv = over (rs2 !! gv) (rs1 !! gv) /\ failed !! gv = over (f2 !! gv) (f1 !! gv).
Proof.
  unfold client_GroupsAndMaybeResources, bind. destruct (downloadLegacy d w) as [w1 [err|[[groups rs1] f1]]]; [done|].
  destruct (downloadAPIs d w1) as [w2 [err|[[apiGroups rs2] f2]]] eqn:Ha; [done|]. cbn [snd ret].
  destruct rs1 as [rs1|], rs2 as [rs2|]; try done. intros [= <- <- <-].
  do 8 eexists. split; [reflexivity|]. split; [exact Ha|]. split; [done|]. intros gv. unfold merge_maps. by rewrite !copy_lookup.
Qed.

(** The groups are never nil without an error, and the other way round. *)
Theorem client_groups_or_error d w :
  let '(gs, err) := (client_ServerGroups d w).2 in is_Some gs <-> err = None.
Proof.
  unfold client_ServerGroups, client_GroupsAndMaybeResources, bind.
  destruct (downloadLegacy d w) as [w1 [err|[[groups rs1] f1]]]; cbn; [split; [by intros [? ?]|done]|].
  destruct (downloadAPIs d w1) as [w2 [err|[[apiGroups rs2] f2]]]; cbn; [split; [by intros [? ?]|done]|split; [done|by eexists]].
Qed.

(** *** Retries *)

Section retries.
Context {V G R : Type} (f : M V (option G * option R * option (error E))).

Definition failed_groups (a : option G * option R * option (error E)) : bool :=
  if a.2 is Some (ErrGroupDiscoveryFailed _) then true else false.

(** The answers of a number of calls. *)
Fixpoint calls (n : nat) (w : V) : list (V * (option G * option R * option (error E))) :=
  match n with
  | 0%nat => []
  | S n => f w :: calls n (f w).1
  end.

(** The function is called until groups do not fail, at most so often, and the last answer
    counts; an error of another kind comes alone. *)
Theorem withRetries_exact n w last :
  withRetries n f last w =
    match List.find (fun c => negb (failed_groups c.2)) (calls n w) with
    | Some (w', (g, r, None)) => (w', (g, r, None))
    | Some (w', (_, _, Some err)) => (w', (None, None, Some err))
    | None => default (w, last) (list.last (calls n w))
    end.
Proof.
  revert w last. induction n as [|n IH]; intros w last; [done|]. cbn [withRetries calls List.find]. unfold bind at 1.
  destruct (f w) as [w' [[g r] err]]. cbn [fst snd]. destruct err as [err|]; [|done]. unfold failed_groups at 1. cbn [snd].
  destruct err; try done. cbn [negb]. rewrite IH. destruct (List.find _ (calls n w')); [done|].
  rewrite list.last_cons. by destruct (list.last (calls n w')).
Qed.

End retries.

End client.

(** ** A document with two groups *)

Module samples.

#[local] Existing Instance range_in_key_order.
#[local] Existing Instance plain_schema.
Import Aggregated.

Definition pods : APIResourceDiscovery :=
  mkRes "pods" "pod" true (Some (mkGVK "" "v1" "Pod")) ["get"] ["po"] ["all"]
    [mkSub "log" (Some (mkGVK "" "v1" "Pod")) ["get"]; mkSub "binding" None ["create"]].

(** A resource without a kind is not listed, but its subresource is. *)
Definition tokens : APIResourceDiscovery :=
  mkRes "tokens" "token" false None ["create"] [] [] [mkSub "review" (Some (mkGVK "auth" "v1" "Review")) ["create"]].

Definition document : list APIGroupDiscovery :=
  [mkGrp "" [mkVer "v1" false [pods; tokens]]; mkGrp "apps" [mkVer "v2" true []; mkVer "v1" false []]].

Lemma aggregated_split_exact_witness :
  (SplitGroupsAndResources (E := Z) document).1.1 =
    [mkGroup "" [mkVersion "v1" "v1"] (mkVersion "v1" "v1"); mkGroup "apps" [mkVersion "apps/v1" "v1"] (mkVersion "apps/v1" "v1")] /\
  (SplitGroupsAndResources (E := Z) document).2 !! mkGV "apps" "v2" = Some (StaleGroupVersionError (mkGV "apps" "v2")) /\
  exists l, (SplitGroupsAndResources (E := Z) document).1.2 !! mkGV "" "v1" = Some (mkResourceList "v1" l) /\
    Name <$> l = ["pods"; "pods/log"; "tokens/review"] /\ Namespaced <$> l = [true; true; false] /\
    Verbs <$> l = [["get"]; ["get"]; ["create"]] /\ ShortNames <$> l = [["po"]; []; []].
Proof.
  split; [vm_compute; reflexivity|].
  assert (H1 : NoDup (AName <$> document)).
  { repeat (constructor; [rewrite ?elem_of_cons, ?elem_of_nil; naive_solver|]). constructor. }
  assert (H2 : Forall (fun g => NoDup (VVersion <$> AVersions g) /\ Forall (fun v => VVersion v <> "") (AVersions g)) document).
  { repeat constructor; rewrite ?elem_of_cons, ?elem_of_nil; naive_solver. }
  pose proof (aggregated_split_exact (E := Z) document H1 H2) as H.
  destruct (SplitGroupsAndResources (E := Z) document) as [[groups resources] failed]. cbn [fst snd]. destruct H as [_ H].
  split; [exact (proj2 (H (mkGV "apps" "v2")))|].
  destruct (H (mkGV "" "v1")) as (_ & l & Hl & Hd). exists l. split; [exact Hl|].
  change (List.filter has_kind (entries _)) with
    [(pods, None); (pods, Some (mkSub "log" (Some (mkGVK "" "v1" "Pod")) ["get"])); (tokens, Some (mkSub "review" (Some (mkGVK "auth" "v1" "Review")) ["create"]))] in Hd.
  inversion Hd as [|? a ? l1 D1 Hd1]; subst. destruct D1 as (_ & _ & N1 & A1 & A2 & A3 & _).
  inversion Hd1 as [|? b ? l2 D2 Hd2]; subst. destruct D2 as (_ & _ & N2 & B1 & B2 & B3 & _).
  inversion Hd2 as [|? c ? l3 D3 Hd3]; subst. destruct D3 as (_ & _ & N3 & C1 & C2 & C3 & _). inversion Hd3; subst. cbn.
  cbn in *. rewrite A1, A2, A3, B1, B2, B3, C1, C2, C3, N1, N2, N3. done.
Defined.

End samples.
