(* ===== verification/MemCache.v ===== *)
(** * The discovery cache in memory, and the mapper over it

    discovery/cached/memory/memcache.go and the deferred mapper of restmapper/discovery.go,
    with its shortcuts (restmapper/shortcut.go).  The cache is itself a discovery client
    ([DiscoveryInterface]) over another one, so the functions of Discovery apply to it.
    The mappers of k8s.io/apimachinery are parameters. *)

From S2P Require Import Prelude Objects GoStrings Discovery.
#[local] Open Scope Z_scope.

Arguments GroupsAndMaybeResources {E W}.
Arguments ServerGroups {E W}.
Arguments ServerResourcesForGroupVersion {E W}.
Arguments mkDiscovery {E W}.

(** ** The cache *)

Section memcache.
Context {Hrange : MapRange} {Hschema : Schema} {Hschedule : Schedule} {E : Type}.

(** What the code asks of an error of a call: its errno, the code of its API status. *)
Variable Errno : E -> option Z.
Variable StatusCode : E -> option Z.
Variable TooManyRequests : E -> bool.

Definition ECONNREFUSED : Z := 111.
Definition ECONNRESET : Z := 104.

Definition isTransientConnectionError (err : error E) : bool :=
  match err with
  | External e => match Errno e with Some errno => (errno =? ECONNREFUSED) || (errno =? ECONNRESET) | None => false end
  | _ => false
  end.

Definition isTransientError (err : error E) : bool :=
  isTransientConnectionError err ||
  match err with
  | External e => match StatusCode e with Some c => 500 <=? c | None => false end || TooManyRequests e
  | _ => false
  end.

Definition answer : Type := option APIResourceList * option (error E).

(** [memCacheClient]; a nil map is read as an empty one. *)
Record memCacheClient : Type := mkMem {
  groupToServerResources : gmap string answer;
  groupList : option (list APIGroup);
  cacheValid : bool;
  receivedAggregatedDiscovery : bool
}.

Definition NewMemCacheClient : memCacheClient := mkMem ∅ None false false.

Variable W : Type.
Variable delegate : DiscoveryInterface (E := E) W.
(** [Invalidate] of the delegate, where it is a cache too. *)
Variable delegate_Invalidate : W -> W.

Definition world : Type := memCacheClient * W.

Definition lift {A} (m : M W A) : M world A := fun '(c, w) => let '(w, a) := m w in ((c, w), a).

(** An empty list is an error; a nil list never comes without one. *)
Definition serverResourcesForGroupVersion (groupVersion : string) : M world answer :=
  bind (lift (ServerResourcesForGroupVersion delegate groupVersion)) (fun '(r, err) =>
    match err with
    | Some err => ret (r, Some err)
    | None =>
        match r with
        | Some l => if bool_decide (APIResources l = []) then ret (r, Some (emptyResponseError groupVersion)) else ret (r, None)
        | None => ret (r, Some (emptyResponseError groupVersion))
        end
    end).

Definition set_cache (c : memCacheClient) : M world unit := fun '(_, w) => ((c, w), tt).

Definition by_string {A} (f : A -> answer) (m : gmap GroupVersion A) (into : gmap string answer) : gmap string answer :=
  fold_left (fun acc '(gv, a) => <[gv_String gv := f a]> acc) (range m) into.

(** The resources of each group version, fetched by goroutines in one order and recorded in
    another. *)
Definition fetch_pair (p : APIGroup * GroupVersionForDiscovery) : M world (string * answer) :=
  bind (serverResourcesForGroupVersion (DGroupVersion p.2)) (fun a => ret (DGroupVersion p.2, a)).

Definition fetch_all (groups : list APIGroup) : M world (gmap string answer) :=
  bind (each fetch_pair (interleave (pairs groups)))
    (fun results => ret (fold_left (fun rl '(gv, a) => <[gv := a]> rl) (interleave results) ∅)).

(** Groups, and resources where the delegate gives them.  A delegate gives a nil list of
    groups only with an error: the code would panic on one without, which is read here as
    an empty one. *)
Definition ask_delegate : M world (MaybeResources (E := E)) :=
  match GroupsAndMaybeResources delegate with
  | Some ad => lift ad
  | None => bind (lift (ServerGroups delegate)) (fun '(gl, err) => ret (gl, None, ∅, err))
  end.

Definition cache_aggregated (gl : option (list APIGroup)) (resources : gmap GroupVersion APIResourceList)
    (failedGVs : gmap GroupVersion (error E)) : memCacheClient :=
  mkMem (by_string (fun e => (None, Some e)) failedGVs (by_string (fun l => (Some l, None)) resources ∅)) gl true true.

Definition cache_fetched (groups : list APIGroup) : M world (option (error E)) :=
  bind (fetch_all groups) (fun rl => fun '(c, w) =>
    ((mkMem rl (Some groups) true (receivedAggregatedDiscovery c), w), None)).

Definition refreshLocked : M world (option (error E)) :=
  bind ask_delegate (fun '(gl, resources, failedGVs, err) =>
    match err with
    | Some err => ret (Some err)
    | None =>
        match resources with
        | Some resources => bind (set_cache (cache_aggregated gl resources failedGVs)) (fun _ => ret None)
        | None =>
            match gl with
            | Some [] | None => ret None
            | Some groups => cache_fetched groups
            end
        end
    end).

(** The locked prologue of the readers. *)
Definition ensure {A} (on_error : error E -> A) (k : M world A) : M world A := fun '(c, w) =>
  if cacheValid c then k (c, w)
  else bind refreshLocked (fun err => match err with Some err => ret (on_error err) | None => k end) (c, w).

(** A transient error is asked for again. *)
Definition transient (a : answer) : bool :=
  match a.2 with Some err => isTransientError err | None => false end.

Definition refetch (groupVersion : string) : M world answer :=
  bind (serverResourcesForGroupVersion groupVersion) (fun a s =>
    ((mkMem (<[groupVersion := a]> (groupToServerResources s.1)) (groupList s.1) (cacheValid s.1) (receivedAggregatedDiscovery s.1), s.2), a)).

Definition cached (groupVersion : string) : M world answer := fun s =>
  match groupToServerResources s.1 !! groupVersion with
  | None => (s, (None, Some ErrCacheNotFound))
  | Some cachedVal => if transient cachedVal then refetch groupVersion s else (s, cachedVal)
  end.

Definition mem_ServerResourcesForGroupVersion (groupVersion : string) : M world answer :=
  ensure (fun err => (None, Some err)) (cached groupVersion).

(** The cached answers, split by whether they are errors; a key that cannot be parsed
    ends the loop. *)
Fixpoint split_cached (l : list (string * answer)) (ok : gmap GroupVersion APIResourceList) (failed : gmap GroupVersion (error E)) :
    error E + (gmap GroupVersion APIResourceList * gmap GroupVersion (error E)) :=
  match l with
  | [] => inr (ok, failed)
  | (gv, (r, err)) :: l =>
      match ParseGroupVersion gv with
      | None => inl (ParseError gv)
      | Some gvk =>
          match err with
          | Some err => split_cached l ok (<[gvk := err]> failed)
          | None => split_cached l (match r with Some r => <[gvk := r]> ok | None => ok end) failed
          end
      end
  end.

Definition from_cache : M world (MaybeResources (E := E)) := fun s =>
  if receivedAggregatedDiscovery s.1 && negb (bool_decide (range (groupToServerResources s.1) = []))
  then match split_cached (range (groupToServerResources s.1)) ∅ ∅ with
       | inr (ok, failed) => (s, (groupList s.1, Some ok, failed, None))
       | inl err => (s, (None, None, ∅, Some err))
       end
  else (s, (groupList s.1, None, ∅, None)).

Definition mem_GroupsAndMaybeResources : M world (MaybeResources (E := E)) :=
  ensure (fun err => (None, None, ∅, Some err)) from_cache.

Definition mem_ServerGroups : M world (option (list APIGroup) * option (error E)) :=
  bind mem_GroupsAndMaybeResources (fun '(groups, _, _, err) =>
    ret (match err with Some err => (None, Some err) | None => (groups, None) end)).

Definition Fresh (c : memCacheClient) : bool := cacheValid c.

Definition Invalidate : M world unit := fun '(c, w) => ((mkMem ∅ None false false, delegate_Invalidate w), tt).

(** The cache is a discovery client. *)
Definition mem_client : DiscoveryInterface (E := E) world :=
  mkDiscovery (Some mem_GroupsAndMaybeResources) mem_ServerGroups mem_ServerResourcesForGroupVersion.

(** ** What the cache says *)

(** A delegate that, while [I] holds, gives answers [P] for a group version, group lists [G],
    and errors [Q] when it is asked for them. *)
Record keeps (I : W -> Prop) (P : string -> answer -> Prop) (G : list APIGroup -> Prop) (Q : error E -> Prop) : Prop := mkKeeps {
  keeps_resources : forall gv w, I w -> let '(w', a) := ServerResourcesForGroupVersion delegate gv w in I w' /\ P gv a;
  keeps_groups : forall w, I w -> let '(w', (gl, err)) := ServerGroups delegate w in
    I w' /\ (forall gs, gl = Some gs -> G gs) /\ (forall e, err = Some e -> Q e);
  keeps_maybe : forall ad w, GroupsAndMaybeResources delegate = Some ad -> I w ->
    let '(w', (gl, rs, failed, err)) := ad w in I w' /\ (forall gs, gl = Some gs -> G gs) /\
    (forall m gv l, rs = Some m -> m !! gv = Some l -> P (gv_String gv) (Some l, None)) /\
    (forall gv e, failed !! gv = Some e -> P (gv_String gv) (None, Some e)) /\ (forall e, err = Some e -> Q e);
  keeps_invalidate : forall w, I w -> I (delegate_Invalidate w)
}.

(** An answer of the delegate as the cache keeps it. *)
Definition from_delegate (P : string -> answer -> Prop) (gv : string) (a : answer) : Prop :=
  P gv a \/ exists r, P gv (r, None) /\ a = (r, Some (emptyResponseError gv)).

Section coherent.
Context {I : W -> Prop} {P : string -> answer -> Prop} {G : list APIGroup -> Prop} {Q : error E -> Prop} (Hd : keeps I P G Q).

Definition coherent (s : world) : Prop :=
  I s.2 /\ (forall gv a, groupToServerResources s.1 !! gv = Some a -> from_delegate P gv a) /\
  (forall gs, groupList s.1 = Some gs -> G gs).

Lemma fetch_one gv c w : I w ->
  let '((c', w'), a) := serverResourcesForGroupVersion gv (c, w) in c' = c /\ I w' /\ from_delegate P gv a.
Proof.
  intros Hw. unfold serverResourcesForGroupVersion, bind, lift. pose proof (keeps_resources _ _ _ _ Hd gv w Hw) as Hr.
  destruct (ServerResourcesForGroupVersion delegate gv w) as [w' [r [err|]]]; destruct Hr as [Hw' Hp]; cbn.
  - split_and!; [done|done|]. by left.
  - destruct r as [l|]; cbn.
    + case_bool_decide; cbn; split_and!; try done; [right; by exists (Some l)|by left].
    + split_and!; [done|done|]. right. by exists None.
Qed.

Lemma fetch_each ps c : forall w, I w ->
  let '((c', w'), results) := each fetch_pair ps (c, w) in
  c' = c /\ I w' /\ forall gv a, (gv, a) ∈ results -> from_delegate P gv a.
Proof.
  induction ps as [|p ps IH]; intros w Hw; cbn [each]; [split_and!; [done|done|]; by intros gv a ?%elem_of_nil|].
  unfold bind at 1. unfold fetch_pair at 1, bind at 1. pose proof (fetch_one (DGroupVersion p.2) c w Hw) as H1.
  destruct (serverResourcesForGroupVersion (DGroupVersion p.2) (c, w)) as [[c1 w1] a]. destruct H1 as (-> & Hw1 & Ha). cbn [ret].
  unfold bind at 1. pose proof (IH w1 Hw1) as H2. destruct (each fetch_pair ps (c, w1)) as [[c2 w2] results]. destruct H2 as (-> & Hw2 & Hres).
  cbn. split_and!; [done|done|]. intros gv b [[= -> ->]|Hin]%elem_of_cons; [done|by apply Hres].
Qed.

Lemma recorded (l : list (string * answer)) : forall acc : gmap string answer,
  (forall gv a, acc !! gv = Some a -> from_delegate P gv a) -> (forall gv a, (gv, a) ∈ l -> from_delegate P gv a) ->
  forall gv a, fold_left (fun rl '(gv, a) => <[gv := a]> rl) l acc !! gv = Some a -> from_delegate P gv a.
Proof.
  induction l as [|[g b] l IH]; intros acc Hacc Hl; [done|]. cbn [fold_left]. apply IH.
  - intros gv a. destruct (decide (g = gv)) as [->|Hne]; [rewrite lookup_insert_eq; intros [= ->]; apply Hl; left|].
    rewrite lookup_insert_ne by done. apply Hacc.
  - intros gv a Hin. apply Hl. by right.
Qed.

Lemma by_string_from {A} (f : A -> answer) (m : gmap GroupVersion A) into :
  (forall gv x, m !! gv = Some x -> from_delegate P (gv_String gv) (f x)) ->
  (forall gv a, into !! gv = Some a -> from_delegate P gv a) ->
  forall gv a, by_string f m into !! gv = Some a -> from_delegate P gv a.
Proof.
  intros Hm. unfold by_string. assert (Hl : forall gv x, (gv, x) ∈ range m -> from_delegate P (gv_String gv) (f x)).
  { intros gv x Hin%elem_of_range. by apply Hm. }
  clear Hm. revert into Hl. induction (range m) as [|[g x] l IH]; intros into Hl Hinto; [done|]. cbn [fold_left]. apply IH.
  - intros gv y Hin. apply Hl. by right.
  - intros gv a. destruct (decide (gv_String g = gv)) as [<-|Hne]; [rewrite lookup_insert_eq; intros [= <-]; apply Hl; left|].
    rewrite lookup_insert_ne by done. apply Hinto.
Qed.

Lemma ask_coherent c w : I w -> let '((c', w'), (gl, rs, failed, err)) := ask_delegate (c, w) in
  c' = c /\ I w' /\ (forall gs, gl = Some gs -> G gs) /\
  (forall m gv l, rs = Some m -> m !! gv = Some l -> P (gv_String gv) (Some l, None)) /\
  (forall gv e, failed !! gv = Some e -> P (gv_String gv) (None, Some e)) /\ (forall e, err = Some e -> Q e).
Proof.
  intros Hw. unfold ask_delegate. destruct (GroupsAndMaybeResources delegate) as [ad|] eqn:Had.
  - pose proof (keeps_maybe _ _ _ _ Hd ad w Had Hw) as Hk. cbn. destruct (ad w) as [w' [[[gl rs] failed] err]]. done.
  - pose proof (keeps_groups _ _ _ _ Hd w Hw) as Hk. unfold bind. cbn. destruct (ServerGroups delegate w) as [w' [gl err]]. cbn.
    destruct Hk as (Hk1 & Hk2 & Hk3). split_and!; done.
Qed.

Lemma cache_fetched_coherent gs c w : I w -> G gs ->
  let '(s', err) := cache_fetched gs (c, w) in coherent s' /\ err = None /\ cacheValid s'.1 = true.
Proof.
  intros Hw Hg. unfold cache_fetched, fetch_all, bind at 1 2. pose proof (fetch_each (interleave (pairs gs)) c w Hw) as He.
  destruct (each fetch_pair (interleave (pairs gs)) (c, w)) as [[c2 w2] results]. destruct He as (-> & Hw2 & Hres). cbn.
  split; [|done]. split; [done|]. split; [|by intros gs' [= <-]]. cbn. apply recorded; [done|].
  intros gv a Hin. apply Hres. by rewrite <- (interleave_perm results).
Qed.

Lemma refresh_coherent s : coherent s ->
  let '(s', err) := refreshLocked s in coherent s' /\ forall e, err = Some e -> Q e.
Proof.
  destruct s as [c w]. intros (Hw & Hm & Hg). unfold refreshLocked. unfold bind at 1.
  pose proof (ask_coherent c w Hw) as Ha. destruct (ask_delegate (c, w)) as [[c' w'] [[[gl rs] failed] err]].
  destruct Ha as (-> & Hw' & Hgl & Hrs & Hfl & Hq). assert (Hstay : coherent (c, w')) by done.
  destruct err as [err|]; [by split|]. destruct rs as [m|].
  - cbn. split; [|done]. split; [done|]. split; [|done]. cbn. apply by_string_from; [intros gv e He; left; by apply Hfl|].
    apply by_string_from; [|done]. intros gv l Hl. left. by eapply Hrs.
  - destruct gl as [[|g gs]|]; [done| |done].
    pose proof (cache_fetched_coherent (g :: gs) c w' Hw' (Hgl _ eq_refl)) as Hc.
    destruct (cache_fetched (g :: gs) (c, w')) as [s' err]. destruct Hc as (? & -> & _). done.
Qed.

Lemma ensure_coherent {A} (on_error : error E -> A) (k : M world A) (R : A -> Prop) s :
  coherent s -> (forall s, coherent s -> let '(s', a) := k s in coherent s' /\ R a) -> (forall err, Q err -> R (on_error err)) ->
  let '(s', a) := ensure on_error k s in coherent s' /\ R a.
Proof.
  destruct s as [c w]. intros Hs Hk He. unfold ensure. destruct (cacheValid c); [by apply Hk|].
  unfold bind. pose proof (refresh_coherent (c, w) Hs) as Hr. destruct (refreshLocked (c, w)) as [s' [err|]]; destruct Hr as [Hr Hq].
  - split; [done|]. by apply He, Hq.
  - by apply Hk.
Qed.

(** The calls on the cache. *)
Inductive call : Type :=
| CallResources (gv : string)
| CallGroups
| CallInvalidate.

Definition perform (x : call) (s : world) : world :=
  match x with
  | CallResources gv => (mem_ServerResourcesForGroupVersion gv s).1
  | CallGroups => (mem_GroupsAndMaybeResources s).1
  | CallInvalidate => (Invalidate s).1
  end.

Lemma resources_coherent gv s : coherent s ->
  let '(s', a) := mem_ServerResourcesForGroupVersion gv s in
  coherent s' /\ (from_delegate P gv a \/ a = (None, Some ErrCacheNotFound) \/ exists err, Q err /\ a = (None, Some err)).
Proof.
  intros Hs. unfold mem_ServerResourcesForGroupVersion. apply ensure_coherent; [done| |intros err He; right; right; by eexists].
  clear s Hs. intros [c w] (Hw & Hm & Hg). unfold cached. cbn [fst].
  destruct (groupToServerResources c !! gv) as [a|] eqn:Ha; [|split; [done|right; by left]].
  destruct (transient a); [|split; [done|left; by apply Hm]].
  unfold refetch, bind. pose proof (fetch_one gv c w Hw) as Hf. destruct (serverResourcesForGroupVersion gv (c, w)) as [[c' w'] b].
  destruct Hf as (-> & Hw' & Hb). split; [|by left]. split; [done|]. split; [|done]. cbn. intros gv' a'.
  destruct (decide (gv = gv')) as [->|Hne]; [rewrite lookup_insert_eq; by intros [= <-]|]. rewrite lookup_insert_ne by done. apply Hm.
Qed.

(** What the split of the cached answers has comes from them. *)
Definition split_from (ok : gmap GroupVersion APIResourceList) (failed : gmap GroupVersion (error E)) : Prop :=
  (forall gv l, ok !! gv = Some l -> exists key, ParseGroupVersion key = Some gv /\ P key (Some l, None)) /\
  (forall gv e, failed !! gv = Some e -> exists key r, ParseGroupVersion key = Some gv /\ from_delegate P key (r, Some e)).

Lemma split_cached_from l : forall ok failed, (forall gv a, (gv, a) ∈ l -> from_delegate P gv a) -> split_from ok failed ->
  match split_cached l ok failed with
  | inl err => exists key a, err = ParseError key /\ ParseGroupVersion key = None /\ from_delegate P key a
  | inr (ok', failed') => split_from ok' failed'
  end.
Proof.
  induction l as [|[key [r err]] l IH]; intros ok failed Hl Hs; [done|]. cbn [split_cached].
  assert (Ha : from_delegate P key (r, err)) by (apply Hl; left).
  assert (Hl' : forall gv a, (gv, a) ∈ l -> from_delegate P gv a) by (intros gv a Hin; apply Hl; by right).
  destruct (ParseGroupVersion key) as [gvk|] eqn:Hk; [|by exists key, (r, err)]. destruct Hs as [Hok Hfl].
  destruct err as [err|]; apply IH; try done; (split; [|done]) || (split; [done|]).
  - intros gv e. destruct (decide (gvk = gv)) as [->|Hne]; [rewrite lookup_insert_eq; intros [= <-]; by exists key, r|].
    rewrite lookup_insert_ne by done. apply Hfl.
  - destruct r as [r|]; [|done]. intros gv l0. destruct (decide (gvk = gv)) as [->|Hne]; [|rewrite lookup_insert_ne by done; apply Hok].
    rewrite lookup_insert_eq. intros [= <-]. exists key. split; [done|]. by destruct Ha as [?|(r' & _ & ?)].
Qed.

(** What a client may be told of groups and resources at once. *)
Definition said (a : MaybeResources (E := E)) : Prop :=
  let '(gl, rs, failed, err) := a in
  (forall gs, gl = Some gs -> G gs) /\ split_from (default ∅ rs) failed /\
  (forall e, err = Some e -> Q e \/ exists key a, e = ParseError key /\ ParseGroupVersion key = None /\ from_delegate P key a).

Lemma groups_coherent s : coherent s -> let '(s', a) := mem_GroupsAndMaybeResources s in coherent s' /\ said a.
Proof.
  assert (H0 : split_from ∅ ∅) by (split; intros ? ?; by rewrite lookup_empty).
  intros Hs. unfold mem_GroupsAndMaybeResources. apply ensure_coherent; [done| |].
  - intros [c w] Hc. unfold from_cache. cbn [fst]. destruct (_ && _); cbn.
    2: { split; [done|]. split_and!; [apply Hc|done|done]. }
    pose proof (split_cached_from (range (groupToServerResources c)) ∅ ∅) as Hsp.
    destruct (split_cached _ _ _) as [err|[ok failed]]; (split; [done|]); split_and!; try done.
    + intros e [= <-]. right. apply Hsp; [|done]. intros gv a Hin%elem_of_range. by apply Hc.
    + apply Hc.
    + apply Hsp; [|done]. intros gv a Hin%elem_of_range. by apply Hc.
  - intros err Hq. split_and!; [done|done|]. intros e [= <-]. by left.
Qed.

Lemma perform_coherent x s : coherent s -> coherent (perform x s).
Proof.
  intros Hs. destruct x as [gv| |]; cbn [perform].
  - pose proof (resources_coherent gv s Hs) as Hr. destruct (mem_ServerResourcesForGroupVersion gv s) as [s' a]. apply Hr.
  - pose proof (groups_coherent s Hs) as Hr. destruct (mem_GroupsAndMaybeResources s) as [s' a]. apply Hr.
  - destruct s as [c w]. destruct Hs as (Hw & _). cbn. split; [by apply (keeps_invalidate _ _ _ _ Hd)|]. done.
Qed.

Lemma perform_all_coherent xs s : coherent s -> coherent (fold_left (fun s x => perform x s) xs s).
Proof. revert s. induction xs as [|x xs IH]; intros s Hs; [done|]. cbn. apply IH. by apply perform_coherent. Qed.

End coherent.


End memcache.

(** ** A server whose resources change *)

Module samples.

#[local] Existing Instance range_in_key_order.
#[local] Existing Instance in_turn.
#[local] Existing Instance plain_schema.

(** It says pods until the third call and jobs after, and gives no aggregated document. *)
Definition server : DiscoveryInterface (E := Z) nat :=
  mkDiscovery None (fun w => (S w, (Some [Discovery.samples.h], None)))
    (fun gv w => (S w, (Some (mkResourceList gv [if (w <? 3)%nat then Discovery.samples.pod else Discovery.samples.job]), None))).

Definition read (gv : string) := mem_ServerResourcesForGroupVersion (fun _ => None) (fun _ => None) (fun _ => false) nat server gv.

(** Two calls fill the cache; it answers with what it has kept until it is invalidated. *)
Definition filled := (read "h/v1" (NewMemCacheClient, 0%nat)).1.

Example filled_answers :
  (read "h/v1" (filled.1, 9%nat)).2 = (Some (mkResourceList "h/v1" [Discovery.samples.pod]), None) /\
  (read "h/v1" (Invalidate nat (fun w => w) (filled.1, 9%nat)).1).2 = (Some (mkResourceList "h/v1" [Discovery.samples.job]), None).
Proof. split; vm_compute; reflexivity. Qed.

(** A server with an aggregated document, one of whose group versions fails. *)
Definition aggregated : DiscoveryInterface (E := Z) nat :=
  mkDiscovery
    (Some (fun w => (S w, (Some [Discovery.samples.h],
       Some {[mkGV "h" "v1" := mkResourceList "h/v1" [if (w <? 3)%nat then Discovery.samples.pod else Discovery.samples.job]]},
       {[mkGV "h" "v2" := External 503]}, None))))
    (fun w => (S w, (Some [Discovery.samples.h], None)))
    (fun gv w => (S w, (None, Some (External 503)))).

Definition late (w : nat) : Prop := (3 <= w)%nat.
Definition jobs_only (gv : string) (a : answer (E := Z)) : Prop :=
  a = (Some (mkResourceList gv [Discovery.samples.job]), None) \/ a = (None, Some (External 503)).
Definition one_group (gs : list APIGroup) : Prop := gs = [Discovery.samples.h].
Definition no_error (e : error Z) : Prop := False.

Lemma aggregated_keeps : keeps nat aggregated (fun w => w) late jobs_only one_group no_error.
Proof.
  unfold late, jobs_only, one_group, no_error.
  split; cbn [ServerResourcesForGroupVersion ServerGroups GroupsAndMaybeResources aggregated]; [| | |done].
  - intros gv w Hw. split; [lia|]. by right.
  - intros w Hw. split; [lia|]. split; [by intros gs [= <-]|done].
  - intros ad w [= <-] Hw. destruct (Nat.ltb_spec w 3); [lia|]. split; [lia|]. split_and!; [by intros gs [= <-]| | |done].
    + intros m gv l [= <-]. intros [<- <-]%lookup_singleton_Some. by left.
    + intros gv e [<- <-]%lookup_singleton_Some. by right.
Qed.

(** The cache was filled early; when it is invalidated late it has jobs only, and the failure. *)
Definition filled_early : world (E := Z) nat := (mem_GroupsAndMaybeResources nat aggregated (NewMemCacheClient, 0%nat)).1.

Definition invalidated_late : world (E := Z) nat :=
  fold_left (fun s x => perform (fun _ => None) (fun _ => None) (fun _ => false) nat aggregated (fun w => w) x s)
    [CallGroups; CallResources "h/v1"] (Invalidate nat (fun w => w) (filled_early.1, 9%nat)).1.


(** Findings: a server without groups.  The refresh is no error, but the cache stays empty
    and not fresh, and says that it has no group list, which is nil. *)
Definition bare : DiscoveryInterface (E := Z) nat :=
  mkDiscovery None (fun w => (S w, (Some [], None))) (fun gv w => (S w, (None, Some (External 404)))).

Example bare_is_never_fresh c w : cacheValid c = false ->
  refreshLocked nat bare (c, w) = ((c, S w), None).
Proof. done. Qed.

Example bare_has_nil_groups :
  mem_GroupsAndMaybeResources nat bare (NewMemCacheClient, 0%nat) = ((NewMemCacheClient, 1%nat), (None, None, ∅, None)).
Proof. done. Qed.

Example bare_preferred_panics :
  (ServerPreferredResources (mem_client (fun _ => None) (fun _ => None) (fun _ => false) nat bare) (NewMemCacheClient, 0%nat)).2 = None.
Proof. done. Qed.

End samples.
