(* ===== verification/RestMapper.v ===== *)
(** * Mapping kinds and resources with discovery

    restmapper/discovery.go and restmapper/shortcut.go: the groups and resources of a
    discovery client ([GetAPIGroupResources]) become the mappings and priorities of a
    mapper ([NewDiscoveryRESTMapper]); a deferred mapper makes it at the first question
    and again when something is not found in a cache that is not fresh; the shortcuts are
    expanded before.  The mappers of k8s.io/apimachinery/pkg/api/meta are parameters: what
    is modelled of them is what they are made of. *)

From S2P Require Import Prelude Objects GoStrings Discovery MemCache.
#[local] Open Scope Z_scope.

(** ** What a mapper is made of *)

Record GVR : Type := mkGVR { RGroup : string; RVersion : string; RResource : string }.
Record GVK : Type := mkGVK { KGroup : string; KVersion : string; KKind : string }.

#[global] Instance GVR_eq_dec : EqDecision GVR.
Proof. solve_decision. Defined.

Definition Any : string := "*".

Definition WithResource (gv : GroupVersion) (r : string) : GVR := mkGVR (Group gv) (Version gv) r.
Definition WithKind (gv : GroupVersion) (k : string) : GVK := mkGVK (Group gv) (Version gv) k.

Inductive scope : Type := RESTScopeNamespace | RESTScopeRoot.

(** The calls that fill a [DefaultRESTMapper]. *)
Inductive mapping : Type :=
| AddSpecific (kind : GVK) (plural singular : GVR) (s : scope)
| Add (kind : GVK) (s : scope).

Record DefaultRESTMapper : Type := mkVersionMapper { defaultGroupVersions : list GroupVersion; mappings : list mapping }.

(** [meta.PriorityRESTMapper] over a [meta.MultiRESTMapper]. *)
Record PriorityRESTMapper : Type := mkPriority {
  Delegate : list DefaultRESTMapper;
  ResourcePriority : list GVR;
  KindPriority : list GVK
}.

Record APIGroupResources : Type := mkGroupResources {
  AGroup : APIGroup;
  VersionedResources : gmap string (list APIResource)
}.

(** ** NewDiscoveryRESTMapper *)

Section build.
(** [meta.UnsafeGuessKindToResource]: the plural and the singular. *)
Variable UnsafeGuessKindToResource : GVK -> GVR * GVR.

Definition resource_mappings (gv : GroupVersion) (resource : APIResource) : list mapping :=
  let scope := if Namespaced resource then RESTScopeNamespace else RESTScopeRoot in
  if strings_Contains (Name resource) "/" then []
  else
    let plural := WithResource gv (Name resource) in
    let singular :=
      if (String.length (SingularName resource) =? 0)%nat then (UnsafeGuessKindToResource (WithKind gv (Kind resource))).2
      else WithResource gv (SingularName resource) in
    [AddSpecific (WithKind gv (strings_ToLower (Kind resource))) plural singular scope;
     AddSpecific (WithKind gv (Kind resource)) plural singular scope;
     Add (WithKind gv (Kind resource +:+ "List")) scope].

Definition version_mapper (gv : GroupVersion) (resources : list APIResource) : DefaultRESTMapper :=
  mkVersionMapper [gv] ((resources ≫= resource_mappings gv) ++ [Add (WithKind gv "List") RESTScopeRoot]).

(** What the loops add to the priorities, resource and kind at once. *)
Definition prefer (g v : string) (u : PriorityRESTMapper) : PriorityRESTMapper :=
  mkPriority (Delegate u) (ResourcePriority u ++ [mkGVR g v Any]) (KindPriority u ++ [mkGVK g v Any]).

Definition union (m : DefaultRESTMapper) (u : PriorityRESTMapper) : PriorityRESTMapper :=
  mkPriority (Delegate u ++ [m]) (ResourcePriority u) (KindPriority u).

Definition add_preferred (group : APIGroupResources) (u : PriorityRESTMapper) : PriorityRESTMapper :=
  let preferred := DVersion (PreferredVersion (AGroup group)) in
  if (String.length preferred =? 0)%nat then u
  else if VersionedResources group !! preferred is Some _ then prefer (GroupName (AGroup group)) preferred u else u.

Definition add_version (group : APIGroupResources) (u : PriorityRESTMapper) (discoveryVersion : GroupVersionForDiscovery) : PriorityRESTMapper :=
  match VersionedResources group !! DVersion discoveryVersion with
  | None => u
  | Some resources =>
      let u := if String.eqb (DVersion discoveryVersion) (DVersion (PreferredVersion (AGroup group))) then u
               else prefer (GroupName (AGroup group)) (DVersion discoveryVersion) u in
      union (version_mapper (mkGV (GroupName (AGroup group)) (DVersion discoveryVersion)) resources) u
  end.

Definition add_group (u : PriorityRESTMapper) (group : APIGroupResources) : PriorityRESTMapper :=
  fold_left (add_version group) (Versions (AGroup group)) (add_preferred group u).

Definition NewDiscoveryRESTMapper (groupResources : list APIGroupResources) : PriorityRESTMapper :=
  fold_left (fun u group => prefer group Any u) (GroupName ∘ AGroup <$> groupResources)
    (fold_left add_group groupResources (mkPriority [] [mkGVR "" "v1" Any] [mkGVK "" "v1" Any])).

(** *** Its priorities and its mappers *)

(** The versions of a group that have resources, with the preferred one first, whether it is
    listed or not. *)
Definition ranked (group : APIGroupResources) : list string :=
  let preferred := DVersion (PreferredVersion (AGroup group)) in
  let served v := bool_decide (is_Some (VersionedResources group !! v)) in
  (if negb (String.eqb preferred "") && served preferred then [preferred] else []) ++
  List.filter (fun v => served v && negb (String.eqb v preferred)) (DVersion <$> Versions (AGroup group)).

Definition group_mappers (group : APIGroupResources) : list DefaultRESTMapper :=
  omap (fun v => version_mapper (mkGV (GroupName (AGroup group)) v) <$> VersionedResources group !! v)
    (DVersion <$> Versions (AGroup group)).

Lemma add_versions group vs : forall u, fold_left (add_version group) vs u =
  let vs' := List.filter (fun v => bool_decide (is_Some (VersionedResources group !! v)) &&
               negb (String.eqb v (DVersion (PreferredVersion (AGroup group))))) (DVersion <$> vs) in
  mkPriority
    (Delegate u ++ omap (fun v => version_mapper (mkGV (GroupName (AGroup group)) v) <$> VersionedResources group !! v) (DVersion <$> vs))
    (ResourcePriority u ++ ((fun v => mkGVR (GroupName (AGroup group)) v Any) <$> vs'))
    (KindPriority u ++ ((fun v => mkGVK (GroupName (AGroup group)) v Any) <$> vs')).
Proof.
  induction vs as [|v vs IH]; intros u; cbn [fold_left].
  { cbn. rewrite !app_nil_r. by destruct u. }
  rewrite IH. unfold add_version. rewrite fmap_cons. cbn [omap list_omap List.filter].
  destruct (VersionedResources group !! DVersion v) as [rs|] eqn:Hv; cbn; [|done].
  destruct (String.eqb (DVersion v) _); cbn; by rewrite <- !app_assoc.
Qed.

Lemma add_group_exact u group : add_group u group =
  mkPriority (Delegate u ++ group_mappers group)
    (ResourcePriority u ++ ((fun v => mkGVR (GroupName (AGroup group)) v Any) <$> ranked group))
    (KindPriority u ++ ((fun v => mkGVK (GroupName (AGroup group)) v Any) <$> ranked group)).
Proof.
  unfold add_group, group_mappers, ranked, add_preferred. rewrite add_versions.
  set (preferred := DVersion (PreferredVersion (AGroup group))).
  destruct (String.eqb_spec preferred "") as [->|Hne]; [done|].
  destruct (String.length preferred =? 0)%nat eqn:Hl.
  { apply Nat.eqb_eq in Hl. by destruct preferred. }
  destruct (VersionedResources group !! preferred); [|done]. cbn. by rewrite <- !app_assoc.
Qed.

(** The mapper that the groups make: core v1 is always tried first, then group by group
    the versions that have resources, the preferred one before the others, then every
    group at any version; kinds and resources are ranked alike; and there is one mapper
    for each listed version that has resources, in order. *)
Theorem discovery_mapper_exact groups :
  NewDiscoveryRESTMapper groups =
    let order := ("", "v1") :: (groups ≫= fun g => (fun v => (GroupName (AGroup g), v)) <$> ranked g) ++
                 ((fun g => (GroupName (AGroup g), Any)) <$> groups) in
    mkPriority (groups ≫= group_mappers)
      ((fun '(g, v) => mkGVR g v Any) <$> order) ((fun '(g, v) => mkGVK g v Any) <$> order).
Proof.
  unfold NewDiscoveryRESTMapper.
  assert (H1 : forall gs u, fold_left add_group gs u =
    mkPriority (Delegate u ++ (gs ≫= group_mappers))
      (ResourcePriority u ++ ((fun '(g, v) => mkGVR g v Any) <$> (gs ≫= fun g => (fun v => (GroupName (AGroup g), v)) <$> ranked g)))
      (KindPriority u ++ ((fun '(g, v) => mkGVK g v Any) <$> (gs ≫= fun g => (fun v => (GroupName (AGroup g), v)) <$> ranked g)))).
  { induction gs as [|g gs IH]; intros u; cbn [fold_left]; [cbn; rewrite !app_nil_r; by destruct u|].
    rewrite IH, add_group_exact. cbn [Delegate ResourcePriority KindPriority]. rewrite !bind_cons, !fmap_app, <- !list_fmap_compose, <- !app_assoc. done. }
  assert (H2 : forall gs u, fold_left (fun u group => prefer group Any u) (GroupName ∘ AGroup <$> gs) u =
    mkPriority (Delegate u) (ResourcePriority u ++ ((fun '(g, v) => mkGVR g v Any) <$> ((fun g => (GroupName (AGroup g), Any)) <$> gs)))
      (KindPriority u ++ ((fun '(g, v) => mkGVK g v Any) <$> ((fun g => (GroupName (AGroup g), Any)) <$> gs)))).
  { induction gs as [|g gs IH]; intros u; [cbn; rewrite !app_nil_r; by destruct u|].
    rewrite fmap_cons. cbn [fold_left]. rewrite IH. unfold prefer. cbn. rewrite <- !app_assoc. done. }
  rewrite H1, H2. cbn [Delegate ResourcePriority KindPriority app]. cbv zeta. rewrite !fmap_cons, !fmap_app. done.
Qed.

End build.

(** ** GetAPIGroupResources *)

Section mapper.
Context {Hrange : MapRange} {Hschema : Schema} {Hschedule : Schedule} {E : Type}.
Variable UnsafeGuessKindToResource : GVK -> GVR * GVR.

(** What a mapper asks of its discovery client, [CachedDiscoveryInterface]. *)
Record CachedDiscovery (W : Type) : Type := mkCached {
  GroupsAndResources : M W (option (list APIGroup) * option (list APIResourceList) * option (error E));
  IsFresh : W -> bool;
  DoInvalidate : W -> W
}.
Arguments GroupsAndResources {W}.
Arguments IsFresh {W}.
Arguments DoInvalidate {W}.

Section client.
Variable W : Type.
Variable cl : CachedDiscovery W.

Definition lists_by_version (rs : list APIResourceList) : gmap string APIResourceList :=
  fold_left (fun rsm r => <[ListGroupVersion r := r]> rsm) rs ∅.

Definition group_resources (rsm : gmap string APIResourceList) (group : APIGroup) : APIGroupResources :=
  mkGroupResources group
    (fold_left (fun m version =>
       match rsm !! DGroupVersion version with
       | Some resources => <[DVersion version := APIResources resources]> m
       | None => m
       end) (Versions group) ∅).

(** The result may be nil without an error; an error that comes with results is dropped. *)
Definition GetAPIGroupResources : M W (error E + list APIGroupResources) :=
  bind (GroupsAndResources cl) (fun '(gs, rs, err) =>
    ret (match rs, gs with
         | Some rs, Some gs => inr (group_resources (lists_by_version rs) <$> gs)
         | _, _ => match err with Some err => inl err | None => inr [] end
         end)).

(** ** DeferredDiscoveryRESTMapper *)

(** The delegate, and the world of the client. *)
Definition deferred : Type := option PriorityRESTMapper * W.

Definition NewDeferredDiscoveryRESTMapper (w : W) : deferred := (None, w).

Definition getDelegate : M deferred (error E + PriorityRESTMapper) := fun '(delegate, w) =>
  match delegate with
  | Some del => ((Some del, w), inr del)
  | None =>
      let '(w, r) := GetAPIGroupResources w in
      match r with
      | inl err => ((None, w), inl err)
      | inr groupResources =>
          let del := NewDiscoveryRESTMapper UnsafeGuessKindToResource groupResources in
          ((Some del, w), inr del)
      end
  end.

Definition Reset (s : deferred) : deferred := (None, DoInvalidate cl s.2).

(** The methods differ in what they ask of the delegate, when they ask again, and what they
    answer without a delegate; [None] is a recursion that has not ended. *)
Fixpoint ask {A} (fuel : nat) (question : PriorityRESTMapper -> A) (again : A -> bool) (on_error : error E -> A) (s : deferred) :
    option (deferred * A) :=
  match fuel with
  | 0%nat => None
  | S fuel =>
      let '(s, r) := getDelegate s in
      match r with
      | inl err => Some (s, on_error err)
      | inr del =>
          let a := question del in
          if again a && negb (IsFresh cl s.2) then ask fuel question again on_error (Reset s) else Some (s, a)
      end
  end.

(** A single answer, that comes with an error; a list. *)
Definition failed {A} (a : A * option (error E)) : bool := if a.2 is Some _ then true else false.
Definition none_found {A} (a : list A * option (error E)) : bool := (length a.1 =? 0)%nat.

Definition deferred_KindFor (fuel : nat) (KindFor : PriorityRESTMapper -> GVR -> GVK * option (error E)) (resource : GVR) :=
  ask fuel (fun del => KindFor del resource) failed (fun err => (mkGVK "" "" "", Some err)).
Definition deferred_KindsFor (fuel : nat) (KindsFor : PriorityRESTMapper -> GVR -> list GVK * option (error E)) (resource : GVR) :=
  ask fuel (fun del => KindsFor del resource) none_found (fun err => ([], Some err)).
Definition deferred_ResourceFor (fuel : nat) (ResourceFor : PriorityRESTMapper -> GVR -> GVR * option (error E)) (input : GVR) :=
  ask fuel (fun del => ResourceFor del input) failed (fun err => (mkGVR "" "" "", Some err)).
Definition deferred_ResourcesFor (fuel : nat) (ResourcesFor : PriorityRESTMapper -> GVR -> list GVR * option (error E)) (input : GVR) :=
  ask fuel (fun del => ResourcesFor del input) none_found (fun err => ([], Some err)).
Definition deferred_RESTMapping {RM} (fuel : nat) (RESTMapping : PriorityRESTMapper -> string * string -> list string -> option RM * option (error E))
    (gk : string * string) (versions : list string) :=
  ask fuel (fun del => RESTMapping del gk versions) failed (fun err => (None, Some err)).
Definition deferred_RESTMappings {RM} (fuel : nat) (RESTMappings : PriorityRESTMapper -> string * string -> list string -> list RM * option (error E))
    (gk : string * string) (versions : list string) :=
  ask fuel (fun del => RESTMappings del gk versions) none_found (fun err => ([], Some err)).
Definition deferred_ResourceSingularizer (fuel : nat) (ResourceSingularizer : PriorityRESTMapper -> string -> string * option (error E)) (resource : string) :=
  ask fuel (fun del => ResourceSingularizer del resource) failed (fun err => (resource, Some err)).

(** A client whose cache is fresh whenever it has just answered, as long as [J] holds. *)
Record refreshes (J : W -> Prop) : Prop := mkRefreshes {
  refreshes_answer w : J w -> let '(w', r) := GetAPIGroupResources w in
    J w' /\ forall gs, r = inr gs -> IsFresh cl w' = true;
  refreshes_invalidate w : J w -> J (DoInvalidate cl w)
}.

Lemma ask_new {A} J n (question : PriorityRESTMapper -> A) again on_error w :
  refreshes J -> J w ->
  exists s a, ask (S n) question again on_error (None, w) = Some (s, a) /\ J s.2 /\
    ((exists err, a = on_error err) \/ exists del, s.1 = Some del /\ a = question del /\ IsFresh cl s.2 = true).
Proof.
  intros Hr Hw. cbn [ask]. unfold getDelegate. pose proof (refreshes_answer _ Hr w Hw) as Ha.
  destruct (GetAPIGroupResources w) as [w' [err|gs]]; destruct Ha as [Hw' Hf].
  - do 2 eexists. split; [reflexivity|]. split; [done|]. left. by eexists.
  - rewrite (Hf gs eq_refl : IsFresh cl (_, w').2 = true), andb_false_r. do 2 eexists. split; [reflexivity|]. split; [done|].
    right. eexists. split; [reflexivity|]. split; [done|]. exact (Hf gs eq_refl).
Qed.

Lemma ask_known {A} n (question : PriorityRESTMapper -> A) again on_error del w :
  ask (S n) question again on_error (Some del, w) =
    if again (question del) && negb (IsFresh cl w) then ask n question again on_error (None, DoInvalidate cl w)
    else Some ((Some del, w), question del).
Proof. done. Qed.

Lemma ask_more {A} n : forall (question : PriorityRESTMapper -> A) again on_error s r,
  ask n question again on_error s = Some r -> ask (S n) question again on_error s = Some r.
Proof.
  induction n as [|n IH]; intros question again on_error s r Hr; [done|].
  cbn [ask] in Hr. change (ask (S (S n)) question again on_error s) with
    (let '(s, r) := getDelegate s in
     match r with
     | inl err => Some (s, on_error err)
     | inr del =>
         let a := question del in
         if again a && negb (IsFresh cl s.2) then ask (S n) question again on_error (Reset s) else Some (s, a)
     end).
  destruct (getDelegate s) as [s1 [err|del]]; [done|]. cbv zeta in *.
  destruct (again (question del) && negb (IsFresh cl s1.2)); [by apply IH|done].
Qed.

(** Two passes are enough, and what is not found has been looked for in what is fresh. *)
Lemma ask_returns {A} J n (question : PriorityRESTMapper -> A) again on_error s :
  refreshes J -> J s.2 ->
  exists s' a, ask (S (S n)) question again on_error s = Some (s', a) /\ J s'.2 /\
    ((exists err, a = on_error err) \/
     exists del, s'.1 = Some del /\ a = question del /\ (again a = true -> IsFresh cl s'.2 = true)).
Proof.
  intros Hr Hw. destruct s as [[del|] w].
  - rewrite ask_known. destruct (again (question del) && negb (IsFresh cl w)) eqn:Hag.
    + destruct (ask_new J n question again on_error (DoInvalidate cl w) Hr (refreshes_invalidate _ Hr w Hw))
        as (s' & a & Ha & Hs' & Hres). exists s', a. split; [exact Ha|]. split; [done|].
      destruct Hres as [Hres|(del' & H1 & H2 & H3)]; [by left|right; exists del'; by split_and!].
    + do 2 eexists. split; [reflexivity|]. split; [done|]. right. exists del. split_and!; [done|done|].
      intros Hq. rewrite Hq in Hag. by apply negb_false_iff in Hag.
  - destruct (ask_new J (S n) question again on_error w Hr Hw) as (s' & a & Ha & Hs' & Hres). exists s', a.
    split; [exact Ha|]. split; [done|]. destruct Hres as [Hres|(del' & H1 & H2 & H3)]; [by left|right; exists del'; by split_and!].
Qed.

(** ** shortcutExpander *)

Lemma has_prefix_refl t : strings_HasPrefix t t = true.
Proof. induction t as [|c t IH]; [done|]. unfold strings_HasPrefix in *. cbn. by destruct (Ascii.ascii_dec c c). Qed.

Record resourceShortcuts : Type := mkShortcut { ShortGroup : string; ShortResource : string; LongGroup : string; LongResource : string }.

Definition shortcuts_of (apiResources : APIResourceList) : list resourceShortcuts :=
  match ParseGroupVersion (ListGroupVersion apiResources) with
  | None => []
  | Some gv => APIResources apiResources ≫= fun apiRes =>
      (fun shortName => mkShortcut (Group gv) shortName (Group gv) (Name apiRes)) <$> ShortNames apiRes
  end.

(** An error is logged; what came with it is used. *)
Definition getShortcutMappings : M W (list APIResourceList * list resourceShortcuts) :=
  bind (GroupsAndResources cl) (fun '(_, apiResList, _) =>
    let l := default [] apiResList in ret (l, l ≫= shortcuts_of)).

(** A full name, in the group if one is given. *)
Definition names_resource (resource : GVR) (apiResources : APIResourceList) : bool :=
  match ParseGroupVersion (ListGroupVersion apiResources) with
  | None => false
  | Some gv =>
      if negb (String.eqb (RGroup resource) "") && negb (String.eqb (RGroup resource) (Group gv)) then false
      else existsb (fun apiRes => String.eqb (RResource resource) (Name apiRes) || String.eqb (RResource resource) (SingularName apiRes))
             (APIResources apiResources)
  end.

Definition expanded (resource : GVR) (item : resourceShortcuts) : GVR := mkGVR (LongGroup item) (RVersion resource) (LongResource item).

Definition in_group (resource : GVR) (item : resourceShortcuts) : bool :=
  (String.eqb (RGroup resource) "" || String.eqb (RGroup resource) (ShortGroup item)) && String.eqb (RResource resource) (ShortResource item).

Definition in_prefix (resource : GVR) (item : resourceShortcuts) : bool :=
  strings_HasPrefix (ShortGroup item) (RGroup resource) && String.eqb (RResource resource) (ShortResource item).

Definition expand (allResources : list APIResourceList) (shortcutResources : list resourceShortcuts) (resource : GVR) : GVR :=
  if existsb (names_resource resource) allResources then resource
  else
    match List.find (in_group resource) shortcutResources with
    | Some item => expanded resource item
    | None =>
        if String.eqb (RGroup resource) "" then resource
        else match List.find (in_prefix resource) shortcutResources with
             | Some item => expanded resource item
             | None => resource
             end
    end.

Definition expandResourceShortcut (resource : GVR) : M W GVR :=
  bind getShortcutMappings (fun '(allResources, shortcutResources) => ret (expand allResources shortcutResources resource)).

(** A name is left alone, or it is the short name of a resource in the group asked for,
    in one that begins so, or in any if none is asked for; the version stays. *)
Theorem expand_listed ls resource :
  let r := expand ls (ls ≫= shortcuts_of) resource in
  r = resource \/
  exists l gv apiRes, l ∈ ls /\ ParseGroupVersion (ListGroupVersion l) = Some gv /\ apiRes ∈ APIResources l /\
    RResource resource ∈ ShortNames apiRes /\ strings_HasPrefix (Group gv) (RGroup resource) = true /\
    r = mkGVR (Group gv) (RVersion resource) (Name apiRes).
Proof.
  assert (Hitem : forall item, item ∈ ls ≫= shortcuts_of -> RResource resource = ShortResource item ->
    strings_HasPrefix (ShortGroup item) (RGroup resource) = true ->
    exists l gv apiRes, l ∈ ls /\ ParseGroupVersion (ListGroupVersion l) = Some gv /\ apiRes ∈ APIResources l /\
      RResource resource ∈ ShortNames apiRes /\ strings_HasPrefix (Group gv) (RGroup resource) = true /\
      expanded resource item = mkGVR (Group gv) (RVersion resource) (Name apiRes)).
  { intros item Hin Hs Hp. apply list_elem_of_bind in Hin as (l & Hin & Hl). unfold shortcuts_of in Hin.
    destruct (ParseGroupVersion (ListGroupVersion l)) as [gv|] eqn:Hgv; [|by apply elem_of_nil in Hin].
    apply list_elem_of_bind in Hin as (apiRes & Hin & Hr). apply list_elem_of_fmap in Hin as (short & -> & Hsh).
    cbn in Hs, Hp. exists l, gv, apiRes. rewrite Hs. split_and!; done. }
  cbv zeta. unfold expand. destruct (existsb _ ls); [by left|].
  destruct (List.find (in_group resource) _) as [item|] eqn:Hf.
  - right. apply find_some in Hf as [Hin%list_elem_of_In Hg]. apply andb_prop in Hg as [Hg Hr%String.eqb_eq].
    apply Hitem; [done|done|]. apply orb_prop in Hg as [He|He]; apply String.eqb_eq in He; rewrite He; [by destruct (ShortGroup item)|].
    apply has_prefix_refl.
  - destruct (String.eqb (RGroup resource) ""); [by left|].
    destruct (List.find (in_prefix resource) _) as [item|] eqn:Hf2; [|by left]. right.
    apply find_some in Hf2 as [Hin%list_elem_of_In Hg]. apply andb_prop in Hg as [Hg Hr%String.eqb_eq]. by apply Hitem.
Qed.

(** [shortcutExpander.KindFor]: once more when there is no match, the wrapped mapper having
    refreshed the discovery in between. *)
Definition expander_KindFor (KindFor : GVR -> M W (GVK * option (error E))) (IsNoMatchError : error E -> bool) (resource : GVR) :
    M W (GVK * option (error E)) :=
  bind (expandResourceShortcut resource) (fun r => bind (KindFor r) (fun '(gvk, err) =>
    match err with
    | Some e => if IsNoMatchError e then bind (expandResourceShortcut resource) KindFor else ret (gvk, err)
    | None => ret (gvk, err)
    end)).

(** [KindsFor], [ResourcesFor], [ResourceFor]. *)
Definition expander_ask {A} (method : GVR -> M W A) (resource : GVR) : M W A := bind (expandResourceShortcut resource) method.

Definition expander_ResourceSingularizer {A} (ResourceSingularizer : string -> M W A) (resource : string) : M W A :=
  bind (expandResourceShortcut (mkGVR "" "" resource)) (fun r => ResourceSingularizer (RResource r)).

End client.

(** ** Over the cache in memory *)

Section over_memory.
Variable Errno : E -> option Z.
Variable StatusCode : E -> option Z.
Variable TooManyRequests : E -> bool.
Variable W : Type.
Variable server : DiscoveryInterface (E := E) W.
Variable server_Invalidate : W -> W.

#[local] Notation client := (mem_client Errno StatusCode TooManyRequests W server).

Definition mem_cached : CachedDiscovery (world W) := mkCached _
  (ServerGroupsAndResources client)
  (fun s => Fresh s.1)
  (fun s => (Invalidate W server_Invalidate s).1).

(** The server's group list is never empty, and comes unless there is an error. *)
Record has_groups : Prop := mkHasGroups {
  groups_listed w : let '(_, (gl, err)) := ServerGroups server w in err = None -> exists g gs, gl = Some (g :: gs);
  groups_maybe_listed ad w : GroupsAndMaybeResources server = Some ad ->
    let '(_, (gl, _, _, err)) := ad w in err = None -> exists g gs, gl = Some (g :: gs)
}.

Lemma refresh_fills s : has_groups -> let '(s', err) := refreshLocked W server s in err = None -> cacheValid s'.1 = true.
Proof.
  intros Hg. destruct s as [c w]. unfold refreshLocked, bind at 1.
  assert (Ha : let '((c', w'), (gl, rs, failed, err)) := ask_delegate W server (c, w) in
    err = None -> exists g gs, gl = Some (g :: gs)).
  { unfold ask_delegate. destruct (GroupsAndMaybeResources server) as [ad|] eqn:Had.
    - cbn. pose proof (groups_maybe_listed Hg ad w Had) as H. destruct (ad w) as [w' [[[gl rs] failed] err]]. exact H.
    - unfold bind. cbn. pose proof (groups_listed Hg w) as H. destruct (ServerGroups server w) as [w' [gl err]]. exact H. }
  destruct (ask_delegate W server (c, w)) as [[c' w'] [[[gl rs] failed] err]].
  destruct err as [err|]; [done|]. destruct (Ha eq_refl) as (g & gs & ->). destruct rs as [m|]; [done|].
  cbn. unfold cache_fetched, bind. destruct (fetch_all W server (g :: gs) (c', w')) as [[c2 w2] rl]. done.
Qed.

(** What has been filled stays so through the calls. *)
Lemma valid_stays gv s : has_groups -> cacheValid s.1 = true ->
  cacheValid (mem_ServerResourcesForGroupVersion Errno StatusCode TooManyRequests W server gv s).1.1 = true.
Proof.
  intros Hg Hv. destruct s as [c w]. cbn in Hv. unfold mem_ServerResourcesForGroupVersion, ensure. rewrite Hv.
  unfold cached. cbn [fst]. destruct (groupToServerResources c !! gv) as [a|]; [|done].
  destruct (transient Errno StatusCode TooManyRequests a); [|done].
  unfold refetch, bind, serverResourcesForGroupVersion, bind, lift.
  destruct (ServerResourcesForGroupVersion server gv w) as [w' [r [err|]]]; cbn; [done|].
  destruct r as [l|]; cbn; [case_bool_decide; done|done].
Qed.

Lemma each_valid {B} (f : APIGroup * GroupVersionForDiscovery -> M (world (E := E) W) B) ps :
  (forall p s, cacheValid s.1 = true -> cacheValid (f p s).1.1 = true) ->
  forall s, cacheValid s.1 = true -> cacheValid (each f ps s).1.1 = true.
Proof.
  intros Hf. induction ps as [|p ps IH]; intros s Hs; [done|]. cbn [each]. unfold bind, ret.
  pose proof (Hf p s Hs) as H1. destruct (f p s) as [s1 y]. pose proof (IH s1 H1) as H2. destruct (each f ps s1) as [s2 ys]. done.
Qed.

Lemma fetch_valid gs s : has_groups -> cacheValid s.1 = true -> cacheValid (fetchGroupVersionResources client gs s).1.1 = true.
Proof.
  intros Hg Hs. unfold fetchGroupVersionResources, bind at 1.
  match goal with |- context [each ?f ?ps s] => pose proof (each_valid f ps) as He; destruct (each f ps s) as [s' results] eqn:Heq end.
  specialize (He ltac:(intros p t Ht; unfold bind; pose proof (valid_stays (gv_String (gv_of p)) t Hg Ht) as H;
    cbn [ServerResourcesForGroupVersion mem_client];
    destruct (mem_ServerResourcesForGroupVersion Errno StatusCode TooManyRequests W server (gv_String (gv_of p)) t) as [t' [l err]]; exact H) s Hs).
  rewrite Heq in He. exact He.
Qed.

Lemma mem_refreshes : has_groups -> refreshes (world W) mem_cached (fun _ => True).
Proof.
  intros Hg. split; [|done]. intros s _. unfold GetAPIGroupResources, bind at 1. cbn [GroupsAndResources IsFresh mem_cached].
  unfold ServerGroupsAndResources. cbn [GroupsAndMaybeResources mem_client]. unfold bind at 1 2.
  assert (H1 : let '(s1, (gl, rs, failed, err)) := mem_GroupsAndMaybeResources W server s in
    (gl = None /\ is_Some err) \/ cacheValid s1.1 = true).
  { destruct s as [c w]. unfold mem_GroupsAndMaybeResources, ensure. destruct (cacheValid c) eqn:Hc.
    - unfold from_cache. destruct (_ && _); [destruct (split_cached _ _ _) as [?|[ok failed]]|]; right; done.
    - unfold bind at 1. pose proof (refresh_fills (c, w) Hg) as Hr. destruct (refreshLocked W server (c, w)) as [s1 [err|]].
      + left. split; [done|by eexists].
      + specialize (Hr eq_refl). unfold from_cache. destruct (_ && _); [destruct (split_cached _ _ _) as [?|[ok failed]]|]; right; done. }
  destruct (mem_GroupsAndMaybeResources W server s) as [s1 [[[gl rs] failed] err]]. cbn [ret].
  destruct H1 as [[-> [e ->]]|Hv]; [done|].
  destruct gl as [gs|]; [|split; [done|]; intros gs0 _; exact Hv].
  destruct (match rs with Some m => (range m).*2 | None => [] end) as [|l ls]; [|split; [done|]; intros gs0 _; exact Hv].
  pose proof (fetch_valid gs s1 Hg Hv) as Hf. unfold bind at 1.
  destruct (fetchGroupVersionResources client gs s1) as [s2 [ok failed']]. split; [done|]. intros gs0 _. exact Hf.
Qed.

(** *** Where the mapper's groups come from *)

Lemma listed_by_version (rs : list APIResourceList) k :
  (forall l, lists_by_version rs !! k = Some l -> l ∈ rs /\ ListGroupVersion l = k) /\
  (forall l, l ∈ rs -> ListGroupVersion l = k -> is_Some (lists_by_version rs !! k)).
Proof.
  unfold lists_by_version. set (f := fun (rsm : gmap string APIResourceList) r => <[ListGroupVersion r := r]> rsm).
  assert (H : forall acc : gmap string APIResourceList,
    (forall l, fold_left f rs acc !! k = Some l -> (l ∈ rs /\ ListGroupVersion l = k) \/ acc !! k = Some l) /\
    (is_Some (acc !! k) \/ (exists l, l ∈ rs /\ ListGroupVersion l = k) -> is_Some (fold_left f rs acc !! k))).
  { induction rs as [|r rs IH]; intros acc; cbn [fold_left].
    { split; [by right|]. intros [?|(l & Hl & _)]; [done|by apply elem_of_nil in Hl]. }
    destruct (IH (f acc r)) as [IH1 IH2]. split.
    - intros l [[Hin Hk]|Hl]%IH1; [left; split; [by right|done]|]. unfold f in Hl.
      destruct (decide (ListGroupVersion r = k)) as [Hk|Hk]; [|rewrite lookup_insert_ne in Hl by done; by right].
      rewrite Hk, lookup_insert_eq in Hl. injection Hl as ->. left. split; [left|done].
    - intros Hs. apply IH2. unfold f. destruct (decide (ListGroupVersion r = k)) as [Hk|Hk]; [left; rewrite Hk, lookup_insert_eq; by eexists|].
      rewrite lookup_insert_ne by done. destruct Hs as [?|(l & [->|Hin]%elem_of_cons & Hl)]; [by left|done|right; by exists l]. }
  destruct (H ∅) as [H1 H2]. split.
  - intros l [?|Hn]%H1; [done|]. by rewrite lookup_empty in Hn.
  - intros l Hin Hl. apply H2. right. by exists l.
Qed.

Lemma versioned_resources rsm group v :
  (forall rs, VersionedResources (group_resources rsm group) !! v = Some rs ->
     exists version l, version ∈ Versions group /\ DVersion version = v /\ rsm !! DGroupVersion version = Some l /\ rs = APIResources l) /\
  (forall version, version ∈ Versions group -> DVersion version = v -> is_Some (rsm !! DGroupVersion version) ->
     is_Some (VersionedResources (group_resources rsm group) !! v)).
Proof.
  unfold group_resources. cbn [VersionedResources].
  set (f := fun (m : gmap string (list APIResource)) version => match rsm !! DGroupVersion version with
      | Some resources => <[DVersion version := APIResources resources]> m | None => m end).
  set (from := fun (vs : list GroupVersionForDiscovery) rs => exists version l, version ∈ vs /\ DVersion version = v /\ rsm !! DGroupVersion version = Some l /\ rs = APIResources l).
  assert (H : forall vs acc,
    (forall rs, fold_left f vs acc !! v = Some rs -> from vs rs \/ acc !! v = Some rs) /\
    (is_Some (acc !! v) \/ (exists version, version ∈ vs /\ DVersion version = v /\ is_Some (rsm !! DGroupVersion version)) ->
       is_Some (fold_left f vs acc !! v))).
  { induction vs as [|x vs IH]; intros acc; cbn [fold_left].
    { split; [by right|]. intros [?|(y & Hy & _)]; [done|by apply elem_of_nil in Hy]. }
    destruct (IH (f acc x)) as [IH1 IH2]. split.
    - intros rs [(y & l & Hy & Hr)|Hl]%IH1; [left; exists y, l; split; [by right|done]|]. unfold f in Hl.
      destruct (rsm !! DGroupVersion x) as [l|] eqn:Hx; [|by right].
      destruct (decide (DVersion x = v)) as [Hv|Hv]; [|rewrite lookup_insert_ne in Hl by done; by right].
      rewrite Hv, lookup_insert_eq in Hl. injection Hl as <-. left. exists x, l. split_and!; [left|done..].
    - intros Hs. apply IH2. unfold f. destruct (rsm !! DGroupVersion x) as [l|] eqn:Hx.
      + destruct (decide (DVersion x = v)) as [Hv|Hv]; [left; rewrite Hv, lookup_insert_eq; by eexists|].
        rewrite lookup_insert_ne by done. destruct Hs as [?|(y & [->|Hy]%elem_of_cons & Hyv & Hys)]; [by left|done|right; by exists y].
      + destruct Hs as [?|(y & [->|Hy]%elem_of_cons & Hyv & Hys)]; [by left| |right; by exists y]. rewrite Hx in Hys. by destruct Hys. }
  destruct (H (Versions group) ∅) as [H1 H2]. split.
  - intros rs [?|Hn]%H1; [done|]. by rewrite lookup_empty in Hn.
  - intros version Hin Hv Hs. apply H2. right. by exists version.
Qed.

(** *** What a mapper is made of *)

(** The list [l] describes the version [v] of the group [g]. *)
Definition lists_version (groups : list APIGroup) (ls : list APIResourceList) (g v : string) (l : APIResourceList) : Prop :=
  exists group version, group ∈ groups /\ GroupName group = g /\ version ∈ Versions group /\ DVersion version = v /\
    l ∈ ls /\ ListGroupVersion l = DGroupVersion version.

(** The mapping of a kind to a resource, by the kind's own name or in small letters. *)
Definition maps_to (g v : string) (r : APIResource) (k : GVK) (p : GVR) (s : scope) : Prop :=
  strings_Contains (Name r) "/" = false /\ p = mkGVR g v (Name r) /\ (k = mkGVK g v (Kind r) \/ k = mkGVK g v (strings_ToLower (Kind r))) /\
  s = if Namespaced r then RESTScopeNamespace else RESTScopeRoot.

(** The mapper maps only what is listed, and of each version that is listed it maps all
    the resources of one of its lists, except subresources. *)
Definition discovers (groups : list APIGroup) (ls : list APIResourceList) (del : PriorityRESTMapper) : Prop :=
  let specific k p s := exists m singular, m ∈ Delegate del /\ AddSpecific k p singular s ∈ mappings m in
  (forall k p s, specific k p s -> exists g v l r, lists_version groups ls g v l /\ r ∈ APIResources l /\ maps_to g v r k p s) /\
  (forall g v l, lists_version groups ls g v l ->
    exists l', lists_version groups ls g v l' /\
      forall r k p s, r ∈ APIResources l' -> maps_to g v r k p s -> specific k p s).

Lemma resource_mappings_exact gv r k p s :
  (exists singular, AddSpecific k p singular s ∈ resource_mappings UnsafeGuessKindToResource gv r) <-> maps_to (Group gv) (Version gv) r k p s.
Proof.
  unfold resource_mappings, maps_to, WithKind, WithResource. destruct (strings_Contains (Name r) "/").
  { split; [intros (? & Hin); by apply elem_of_nil in Hin|by intros (? & _)]. }
  split.
  - intros (singular & Hin). apply elem_of_cons in Hin as [[= -> -> _ ->]|Hin]; [split_and!; try done; by right|].
    apply elem_of_cons in Hin as [[= -> -> _ ->]|Hin]; [split_and!; try done; by left|].
    by apply list_elem_of_singleton in Hin.
  - intros (_ & -> & [->| ->] & ->); eexists; [right; left|left].
Qed.

Lemma version_mapper_exact gv rs k p s :
  (exists singular, AddSpecific k p singular s ∈ mappings (version_mapper UnsafeGuessKindToResource gv rs)) <->
  exists r, r ∈ rs /\ maps_to (Group gv) (Version gv) r k p s.
Proof.
  unfold version_mapper. cbn [mappings]. split.
  - intros (singular & [Hin|Hin]%elem_of_app); [|by apply list_elem_of_singleton in Hin].
    apply list_elem_of_bind in Hin as (r & Hin & Hr). exists r. split; [done|]. apply resource_mappings_exact. by eexists.
  - intros (r & Hr & Hm). apply resource_mappings_exact in Hm as (singular & Hin). exists singular.
    apply elem_of_app. left. apply list_elem_of_bind. by exists r.
Qed.

Lemma mapper_discovers groups ls :
  discovers groups ls (NewDiscoveryRESTMapper UnsafeGuessKindToResource (group_resources (lists_by_version ls) <$> groups)).
Proof.
  unfold discovers. rewrite discovery_mapper_exact. cbn [Delegate]. split.
  - intros k p s (m & singular & Hm & Hin). apply list_elem_of_bind in Hm as (gr & Hm & Hgr).
    apply list_elem_of_fmap in Hgr as (group & -> & Hgroup). unfold group_mappers in Hm. cbn [AGroup group_resources] in Hm.
    apply list_elem_of_omap in Hm as (v & Hv & Hm).
    change (AGroup (group_resources (lists_by_version ls) group)) with group in Hm.
    destruct (VersionedResources (group_resources (lists_by_version ls) group) !! v) as [rs|] eqn:Hrs; [|done]. injection Hm as <-.
    apply versioned_resources in Hrs as (version & l & Hversion & Hdv & Hl & ->). apply listed_by_version in Hl as [Hl Hlg].
    assert (Hs : exists singular, AddSpecific k p singular s ∈ mappings (version_mapper UnsafeGuessKindToResource (mkGV (GroupName group) v) (APIResources l)))
      by (by exists singular).
    apply version_mapper_exact in Hs as (r & Hr & Hmt). exists (GroupName group), v, l, r. split; [|done]. by exists group, version.
  - intros g v l (group & version & Hgroup & <- & Hversion & <- & Hl & Hlg).
    destruct (listed_by_version ls (DGroupVersion version)) as [_ Hsome]. specialize (Hsome l Hl Hlg).
    destruct (versioned_resources (lists_by_version ls) group (DVersion version)) as [Hfrom Hv].
    destruct (Hv version Hversion eq_refl Hsome) as [rs Hrs].
    destruct (Hfrom rs Hrs) as (version' & l' & Hversion' & Hdv & Hl' & ->). apply listed_by_version in Hl' as [Hl' Hlg'].
    exists l'. split; [by exists group, version'|]. intros r k p s Hr Hm.
    destruct (proj2 (version_mapper_exact (mkGV (GroupName group) (DVersion version)) (APIResources l') k p s)) as (singular & Hin); [by exists r|].
    eexists _, singular. split; [|exact Hin]. apply list_elem_of_bind. exists (group_resources (lists_by_version ls) group).
    split; [|apply list_elem_of_fmap; by exists group]. unfold group_mappers. apply list_elem_of_omap. exists (DVersion version).
    split; [apply list_elem_of_fmap; by exists version|].
    change (AGroup (group_resources (lists_by_version ls) group)) with group. by rewrite Hrs.
Qed.

Section provenance.
Context {J : W -> Prop} {P : string -> answer (E := E) -> Prop} {G : list APIGroup -> Prop} {Q : error E -> Prop}.
Hypothesis Hd : keeps W server server_Invalidate J P G Q.

#[local] Notation coherent := (coherent W (I := J) (P := P) (G := G)).

(** A list that the delegate gave for a group version. *)
Definition given (l : APIResourceList) : Prop := exists key err, from_delegate P key (Some l, err).

Lemma fetch_given gs s : coherent s ->
  let '(s', (ok, failed)) := fetchGroupVersionResources client gs s in coherent s' /\ forall gv l, ok !! gv = Some l -> given l.
Proof.
  intros Hs. unfold fetchGroupVersionResources, bind at 1.
  assert (He : forall ps s, coherent s -> let '(s', results) := each (fun p =>
      bind (ServerResourcesForGroupVersion client (gv_String (gv_of p))) (fun '(l, err) => ret (gv_of p, l, err))) ps s in
    coherent s' /\ forall gv l err, (gv, Some l, err) ∈ results -> given l).
  { clear s Hs gs. induction ps as [|p ps IH]; intros s Hs; cbn [each]; [split; [done|]; by intros ? ? ? ?%elem_of_nil|].
    unfold bind at 1 2. pose proof (resources_coherent Errno StatusCode TooManyRequests W server server_Invalidate Hd (gv_String (gv_of p)) s Hs) as Hr.
    cbn [ServerResourcesForGroupVersion mem_client] in *.
    destruct (mem_ServerResourcesForGroupVersion _ _ _ _ _ _ s) as [s1 [l err]]. destruct Hr as [Hs1 Ha]. cbn [ret].
    unfold bind at 1. pose proof (IH s1 Hs1) as H2. destruct (each _ ps s1) as [s2 results]. destruct H2 as [Hs2 Hres].
    cbn. split; [done|]. intros gv l' err' [[= -> <- <-]|Hin]%elem_of_cons; [|by eapply Hres].
    destruct Ha as [Ha|[Ha|(e & _ & Ha)]]; [|discriminate Ha..]. by eexists _, _. }
  specialize (He (interleave (pairs gs)) s Hs). destruct (each _ (interleave (pairs gs)) s) as [s' results]. destruct He as [Hs' Hres]. cbn [ret].
  assert (Hres' : forall gv l err, (gv, Some l, err) ∈ interleave results -> given l).
  { intros gv l err Hin. eapply Hres. by rewrite <- (interleave_perm results). }
  match goal with |- context [fold_left ?f (interleave results) _] => set (turn := f) end.
  assert (Hf : forall l acc failed, (forall gv x err, (gv, Some x, err) ∈ l -> given x) -> (forall gv x, acc !! gv = Some x -> given x) ->
    let '(ok, failed') := fold_left turn l (acc, failed) in forall gv x, ok !! gv = Some x -> given x).
  { clear. induction l as [|[[gv0 l0] err0] l IH]; intros acc failed Hl Hacc; [done|]. cbn [fold_left]. unfold turn at 2.
    apply IH; [intros gv x err Hin; eapply Hl; by right|].
    destruct l0 as [l0|]; [|done]. intros gv x. destruct (decide (gv0 = gv)) as [->|Hne]; [|rewrite lookup_insert_ne by done; apply Hacc].
    rewrite lookup_insert_eq. intros [= <-]. eapply Hl. left. }
  specialize (Hf (interleave results) ∅ ∅ Hres' ltac:(intros gv x; by rewrite lookup_empty)).
  destruct (fold_left turn _ _) as [ok failed]. by split.
Qed.

(** What the cache lists is what the server said. *)
Lemma mem_lists s : coherent s ->
  let '(s', (gl, rs, err)) := ServerGroupsAndResources client s in
  (forall groups, gl = Some groups -> G groups) /\ (forall ls l, rs = Some ls -> l ∈ ls -> given l).
Proof.
  intros Hs. unfold ServerGroupsAndResources. cbn [GroupsAndMaybeResources mem_client]. unfold bind at 1 2.
  pose proof (groups_coherent W server server_Invalidate Hd s Hs) as Hg.
  destruct (mem_GroupsAndMaybeResources W server s) as [s1 [[[gl rs] failed] err]]. destruct Hg as (Hs1 & Hgl & [Hok _] & _). cbn [ret].
  destruct gl as [groups|]; [|done]. specialize (Hgl groups eq_refl).
  destruct (match rs with Some m => (range m).*2 | None => [] end) as [|l ls] eqn:Hls.
  - unfold bind at 1. pose proof (fetch_given groups s1 Hs1) as Hf.
    destruct (fetchGroupVersionResources client groups s1) as [s2 [ok failed']]. destruct Hf as [_ Hf]. cbn.
    split; [by intros ? [= <-]|]. intros ? l [= <-] (p & _ & Hl)%list_elem_of_omap. by eapply Hf.
  - cbn. split; [by intros ? [= <-]|]. intros ? l' [= <-] Hin. rewrite <- Hls in Hin.
    destruct rs as [m|]; [|by apply elem_of_nil in Hin]. apply list_elem_of_fmap in Hin as ([gv l0] & -> & Hin%elem_of_range).
    destruct (Hok gv l0 Hin) as (key & _ & Hp). exists key, None. by left.
Qed.

End provenance.

(** One pass without a mapper. *)
Lemma ask_built {A} n (question : PriorityRESTMapper -> A) again on_error w : has_groups ->
  ask (world W) mem_cached (S n) question again on_error (None, w) =
    let '(w', r) := GetAPIGroupResources (world W) mem_cached w in
    match r with
    | inl err => Some ((None, w'), on_error err)
    | inr gs => let del := NewDiscoveryRESTMapper UnsafeGuessKindToResource gs in Some ((Some del, w'), question del)
    end.
Proof.
  intros Hg. cbn [ask]. unfold getDelegate. pose proof (refreshes_answer _ _ _ (mem_refreshes Hg) w I) as Ha.
  destruct (GetAPIGroupResources (world W) mem_cached w) as [w' [err|gs]]; [done|]. destruct Ha as [_ Hf].
  cbn [snd]. by rewrite (Hf gs eq_refl), andb_false_r.
Qed.

(** What the groups and resources that the client gives are made into. *)
Lemma get_exact w :
  GetAPIGroupResources (world W) mem_cached w =
    let '(w', (gl, rs, err)) := ServerGroupsAndResources client w in
    (w', match gl, rs, err with
         | Some groups, Some ls, _ => inr (group_resources (lists_by_version ls) <$> groups)
         | _, _, Some err => inl err
         | _, _, None => inr []
         end).
Proof.
  unfold GetAPIGroupResources, bind, ret. cbn [GroupsAndResources mem_cached].
  destruct (ServerGroupsAndResources client w) as [w' [[[groups|] [ls|]] err]]; by destruct err.
Qed.

(** C38: a question to the deferred mapper over the cache in memory comes back, whatever
    the cache and the mapper hold, if the server always lists a group: two passes are
    enough.  A mapper that is kept answers, without another look at the cache, unless it has
    found nothing and the cache is not fresh.  Then the cache is invalidated and a mapper is
    made, as one is when none is kept: it maps exactly the groups and resources that the
    cache lists now, the cache is fresh after it, and the answer is that mapper's, or the
    error that the cache gives.  What is listed after the invalidation was said by the
    server since. *)
Theorem mem_mapper_returns {A} (question : PriorityRESTMapper -> A) again on_error s :
  has_groups ->
  exists s' a, (forall n, ask (world W) mem_cached (S (S n)) question again on_error s = Some (s', a)) /\
    let made groups ls w' := exists del, s' = (Some del, w') /\ a = question del /\ discovers groups ls del /\ Fresh w'.1 = true in
    let built w :=
      match ServerGroupsAndResources client w with
      | (w', (Some groups, Some ls, _)) =>
          made groups ls w' /\
          forall J P G Q, keeps W server server_Invalidate J P G Q ->
            w = (Invalidate W server_Invalidate s.2).1 /\ J s.2.2 \/ coherent W (I := J) (P := P) (G := G) w ->
            G groups /\ forall l, l ∈ ls -> given (P := P) l
      | (w', (_, _, Some err)) => s' = (None, w') /\ a = on_error err
      | (w', (_, _, None)) => made [] [] w'
      end in
    match s.1 with
    | Some del =>
        if again (question del) && negb (Fresh s.2.1) then built (Invalidate W server_Invalidate s.2).1
        else s' = s /\ a = question del
    | None => built s.2
    end.
Proof.
  intros Hg.
  set (made := fun s' (a : A) groups ls (w' : world (E := E) W) => exists del, s' = (Some del, w') /\ a = question del /\ discovers groups ls del /\ Fresh w'.1 = true).
  set (built := fun s' a w =>
    match ServerGroupsAndResources client w with
    | (w', (Some groups, Some ls, _)) =>
        made s' a groups ls w' /\
        forall J P G Q, keeps W server server_Invalidate J P G Q ->
          w = (Invalidate W server_Invalidate s.2).1 /\ J s.2.2 \/ coherent W (I := J) (P := P) (G := G) w ->
          G groups /\ forall l, l ∈ ls -> given (P := P) l
    | (w', (_, _, Some err)) => s' = (None, w') /\ a = on_error err
    | (w', (_, _, None)) => made s' a [] [] w'
    end).
  assert (Hb : forall w, exists s' a, (forall n, ask (world W) mem_cached (S n) question again on_error (None, w) = Some (s', a)) /\ built s' a w).
  { intros w. pose proof (refreshes_answer _ _ _ (mem_refreshes Hg) w I) as Ha.
    pose proof (fun n => ask_built n question again on_error w Hg) as Hn. rewrite get_exact in Ha, Hn. unfold built.
    destruct (ServerGroupsAndResources client w) as [w' [[gl rs] err]] eqn:Hget.
    assert (Hlists : forall J P G Q, keeps W server server_Invalidate J P G Q ->
      w = (Invalidate W server_Invalidate s.2).1 /\ J s.2.2 \/ coherent W (I := J) (P := P) (G := G) w ->
      (forall groups, gl = Some groups -> G groups) /\ (forall ls l, rs = Some ls -> l ∈ ls -> given (P := P) l)).
    { intros J P G Q Hd Hw. assert (Hc : coherent W (I := J) (P := P) (G := G) w).
      { destruct Hw as [[-> HJ]|Hc]; [|done]. destruct s as [del [c w0]]. cbn in *. split; [by apply (keeps_invalidate _ _ _ _ _ _ _ Hd)|done]. }
      pose proof (mem_lists Hd w Hc) as Hm. by rewrite Hget in Hm. }
    destruct gl as [groups|], rs as [ls|], err as [err|]; eexists _, _; (split; [exact Hn|]); try done;
      try (split; [|intros J P G Q Hd Hw; by destruct (Hlists J P G Q Hd Hw); eauto]); eexists; (split; [done|]); (split; [done|]);
      (split; [|by eapply Ha]); try apply mapper_discovers; apply (mapper_discovers [] []). }
  destruct s as [[del|] w]; cbn [fst snd] in *.
  - destruct (again (question del) && negb (Fresh w.1)) eqn:Hagain.
    + destruct (Hb (Invalidate W server_Invalidate w).1) as (s' & a & Ha & Hres). exists s', a. split; [|exact Hres].
      intros n. rewrite ask_known. change (IsFresh mem_cached w) with (Fresh w.1). rewrite Hagain. apply Ha.
    + exists (Some del, w), (question del). split; [|done]. intros n. rewrite ask_known.
      change (IsFresh mem_cached w) with (Fresh w.1). by rewrite Hagain.
  - destruct (Hb w) as (s' & a & Ha & Hres). exists s', a. split; [|exact Hres]. intros n. apply Ha.
Qed.

End over_memory.

End mapper.

(** ** Servers with and without groups *)

Module samples.

#[local] Existing Instance range_in_key_order.
#[local] Existing Instance in_turn.
#[local] Existing Instance plain_schema.

Definition guess (k : GVK) : GVR * GVR := (mkGVR (KGroup k) (KVersion k) (KKind k), mkGVR (KGroup k) (KVersion k) (KKind k)).

Definition mapper_over (server : DiscoveryInterface (E := Z) nat) (fuel : nat) (r : GVR) (s : deferred (world (E := Z) nat)) :=
  ask guess (world nat) (mem_cached (fun _ => None) (fun _ => None) (fun _ => false) nat server (fun w => w)) fuel
    (fun del => List.find (fun m => if m is AddSpecific _ p _ _ then bool_decide (p = r) else false) (Delegate del ≫= mappings))
    (fun a => if a is None then true else false) (fun _ => None) s.

(** Pods and then jobs: what is not in the first mapper is found by the second if the cache
    was invalidated in between. *)
Definition first := mapper_over MemCache.samples.server 2 (mkGVR "h" "v1" "pods") (None, (NewMemCacheClient, 0%nat)).

Example first_finds :
  (if first is Some (_, a) then a else None) =
    Some (AddSpecific (mkGVK "h" "v1" "pod") (mkGVR "h" "v1" "pods") (mkGVR "h" "v1" "pod") RESTScopeNamespace).
Proof. vm_compute. reflexivity. Qed.

Lemma server_has_groups : has_groups nat MemCache.samples.server.
Proof. split; [intros w _; by do 2 eexists|done]. Qed.

(** The mapper of pods is kept; the cache is invalidated, at a time when there are jobs. *)
Definition pods_mapper : PriorityRESTMapper :=
  NewDiscoveryRESTMapper guess (group_resources (lists_by_version [mkResourceList "h/v1" [Discovery.samples.pod]]) <$> [Discovery.samples.h]).

Definition kept_pods : deferred (world (E := Z) nat) := (Some pods_mapper, (NewMemCacheClient, 9%nat)).

Lemma mem_mapper_returns_witness :
  has_groups nat MemCache.samples.server /\
  exists s' a del, (forall n, mapper_over MemCache.samples.server (S (S n)) (mkGVR "h" "v1" "jobs") kept_pods = Some (s', a)) /\
    s'.1 = Some del /\ exists m singular, m ∈ Delegate del /\
      AddSpecific (mkGVK "h" "v1" (Kind Discovery.samples.job)) (mkGVR "h" "v1" "jobs") singular RESTScopeNamespace ∈ mappings m.
Proof.
  split; [exact server_has_groups|].
  destruct (mem_mapper_returns guess (fun _ => None) (fun _ => None) (fun _ => false) nat MemCache.samples.server (fun w => w)
    (fun del => List.find (fun m => if m is AddSpecific _ p _ _ then bool_decide (p = mkGVR "h" "v1" "jobs") else false) (Delegate del ≫= mappings))
    (fun a => if a is None then true else false) (fun _ => None) kept_pods server_has_groups) as (s' & a & Ha & Hres).
  cbv zeta in Hres. cbn [fst snd kept_pods] in Hres.
  match type of Hres with if ?b then _ else _ => replace b with true in Hres by (vm_compute; reflexivity) end.
  match type of Hres with let '(_, _) := ?x in _ =>
    replace x with (x.1, (Some [Discovery.samples.h], Some [mkResourceList "h/v1" [Discovery.samples.job]], @None (error Z))) in Hres
      by (vm_compute; reflexivity) end.
  destruct Hres as [(del & -> & _ & [_ Hd] & _) _]. eexists _, a, del. split; [exact Ha|]. split; [reflexivity|].
  destruct (Hd "h" "v1" (mkResourceList "h/v1" [Discovery.samples.job])) as (l' & (group & version & _ & _ & _ & _ & Hl & _) & Hmaps).
  - eexists Discovery.samples.h, _. split; [left|]. split; [reflexivity|]. split; [left|]. split; [reflexivity|]. split; [left|reflexivity].
  - apply list_elem_of_singleton in Hl as ->. apply (Hmaps Discovery.samples.job); [left|]. split_and!; [reflexivity|reflexivity|by left|reflexivity].
Defined.

(** Finding: [Fresh] is said of the cache and not of the mapper.  A mapper kept since before
    the cache, shared with others, was invalidated and filled again finds nothing of what the
    cache lists, and does not look. *)
Definition refilled : world (E := Z) nat :=
  (mem_GroupsAndMaybeResources nat MemCache.samples.server (Invalidate nat (fun w => w) (NewMemCacheClient, 9%nat)).1).1.

Example kept_over_fresh :
  let jobs := mkGVR "h" "v1" "jobs" in
  Fresh refilled.1 = true /\
  (if mapper_over MemCache.samples.server 2 jobs (Some pods_mapper, refilled) is Some (_, a) then a else None) = None /\
  (if mapper_over MemCache.samples.server 2 jobs (None, refilled) is Some (_, Some _) then true else false) = true.
Proof. vm_compute. auto. Qed.

(** Finding: over a server without groups the methods call themselves without end. *)
Example bare_never_returns fuel r w : mapper_over MemCache.samples.bare fuel r (None, (NewMemCacheClient, w)) = None.
Proof.
  revert w. induction fuel as [|fuel IH]; intros w; [done|]. unfold mapper_over. cbn [ask]. unfold getDelegate.
  replace (GetAPIGroupResources (world nat) (mem_cached (fun _ => None) (fun _ => None) (fun _ => false) nat MemCache.samples.bare (fun w => w)) (NewMemCacheClient, w))
    with ((NewMemCacheClient (E := Z), S w), inr [] : error Z + list APIGroupResources) by done.
  exact (IH (S w)).
Qed.

(** A short name; a full name of the same letters is left alone. *)
Definition lists : list APIResourceList := [mkResourceList "h/v1" [Discovery.samples.pod]].

Example expands :
  expand lists (lists ≫= shortcuts_of) (mkGVR "" "v1" "po") = mkGVR "h" "v1" "pods" /\
  expand lists (lists ≫= shortcuts_of) (mkGVR "" "v1" "pod") = mkGVR "" "v1" "pod".
Proof. split; reflexivity. Qed.

End samples.
