(* ===== verification/Kubeconfig.v ===== *)
(** * Configuration files: data, reading and writing

    tools/clientcmd/api (types.go, v1/conversion.go) and the part of
    tools/clientcmd/loader.go that reads, merges, migrates and writes files and makes
    their paths absolute or relative.  Files are a map from names to contents, with
    faults that do not change; YAML and mergo are parameters.

    The model does not tell nil slices and maps from empty ones, keeps an extension as the
    bytes it is encoded to, and has no nil stanza in a map.  The fields of an exec
    plugin that are set when it runs are left out. *)

From S2P Require Import Prelude Objects GoStrings.
#[local] Open Scope Z_scope.

(** ** Data *)

Record AuthProviderConfig : Type := mkAuthProvider { AP_Name : string; AP_Config : gmap string string }.

Record ExecConfig : Type := mkExec {
  Command : string;
  Args : list string;
  Env : list (string * string);
  APIVersion : string;
  InstallHint : string;
  ProvideClusterInfo : bool;
  InteractiveMode : string
}.

(** The fields of v1; the internal types have the file a stanza came from besides. *)
Record Cluster : Type := mkCluster {
  Server : string;
  TLSServerName : string;
  InsecureSkipTLSVerify : bool;
  CertificateAuthority : string;
  CertificateAuthorityData : string;
  ProxyURL : string;
  DisableCompression : bool;
  Cluster_Extensions : gmap string string
}.

Record AuthInfo : Type := mkAuthInfo {
  ClientCertificate : string;
  ClientCertificateData : string;
  ClientKey : string;
  ClientKeyData : string;
  Token : string;
  TokenFile : string;
  Impersonate : string;
  ImpersonateUID : string;
  ImpersonateGroups : list string;
  ImpersonateUserExtra : gmap string (list string);
  Username : string;
  Password : string;
  AuthProvider : option AuthProviderConfig;
  Exec : option ExecConfig;
  AuthInfo_Extensions : gmap string string
}.

Record Context : Type := mkContext {
  Context_Cluster : string;
  Context_AuthInfo : string;
  Namespace : string;
  Context_Extensions : gmap string string
}.

Record stanza (B : Type) : Type := mkStanza { LocationOfOrigin : string; body : B }.
Arguments mkStanza {B} LocationOfOrigin body.
Arguments LocationOfOrigin {B} s.
Arguments body {B} s.

Record Preferences : Type := mkPreferences { Colors : bool; Preferences_Extensions : gmap string string }.

Record Config : Type := mkConfig {
  Prefs : Preferences;
  Clusters : gmap string (stanza Cluster);
  AuthInfos : gmap string (stanza AuthInfo);
  Contexts : gmap string (stanza Context);
  CurrentContext : string;
  Extensions : gmap string string
}.

#[global] Instance AuthProviderConfig_eq_dec : EqDecision AuthProviderConfig.
Proof. solve_decision. Defined.
#[global] Instance ExecConfig_eq_dec : EqDecision ExecConfig.
Proof. solve_decision. Defined.
#[global] Instance Cluster_eq_dec : EqDecision Cluster.
Proof. solve_decision. Defined.
#[global] Instance AuthInfo_eq_dec : EqDecision AuthInfo.
Proof. solve_decision. Defined.
#[global] Instance Context_eq_dec : EqDecision Context.
Proof. solve_decision. Defined.
#[global] Instance stanza_eq_dec B : EqDecision B -> EqDecision (stanza B).
Proof. intros HB. solve_decision. Defined.
#[global] Instance Preferences_eq_dec : EqDecision Preferences.
Proof. solve_decision. Defined.
#[global] Instance Config_eq_dec : EqDecision Config.
Proof. solve_decision. Defined.

Definition NewConfig : Config := mkConfig (mkPreferences false ∅) ∅ ∅ ∅ "" ∅.

(** ** v1: named lists *)

(** [Convert_Map_string_To_..._To_Slice_v1_Named...]: sorted by name. *)
Definition key_le {B} (x y : string * B) : Prop := String.le x.1 y.1.
#[global] Instance key_le_dec {B} (x y : string * B) : Decision (key_le x y).
Proof. unfold key_le, String.le. apply _. Defined.

Definition to_named {B} (m : gmap string B) : list (string * B) := merge_sort key_le (map_to_list m).

(** [Convert_Slice_v1_Named..._To_Map_string_To_...]: a name given twice is an error. *)
Fixpoint from_named {B} (l : list (string * B)) (out : gmap string B) : option (gmap string B) :=
  match l with
  | [] => Some out
  | (name, x) :: l => match out !! name with None => from_named l (<[name := x]> out) | Some _ => None end
  end.

Record v1Config : Type := mkV1 {
  v1_colors : bool;
  v1_preferences_extensions : list (string * string);
  v1_clusters : list (string * Cluster);
  v1_users : list (string * AuthInfo);
  v1_contexts : list (string * Context);
  v1_current_context : string;
  v1_extensions : list (string * string)
}.

Definition at_file {B} (filename : string) (b : B) : stanza B := mkStanza filename b.

Definition to_v1 (c : Config) : v1Config :=
  mkV1 (Colors (Prefs c)) (to_named (Preferences_Extensions (Prefs c))) (to_named (body <$> Clusters c))
    (to_named (body <$> AuthInfos c)) (to_named (body <$> Contexts c)) (CurrentContext c) (to_named (Extensions c)).

Definition from_v1 (v : v1Config) : option Config :=
  pext ← from_named (v1_preferences_extensions v) ∅;
  clusters ← from_named (v1_clusters v) ∅;
  users ← from_named (v1_users v) ∅;
  contexts ← from_named (v1_contexts v) ∅;
  ext ← from_named (v1_extensions v) ∅;
  Some (mkConfig (mkPreferences (v1_colors v) pext) (at_file "" <$> clusters) (at_file "" <$> users) (at_file "" <$> contexts)
    (v1_current_context v) ext).

(** A configuration as it is read from a file: every stanza comes from it. *)
Definition move {B} (filename : string) (m : gmap string (stanza B)) : gmap string (stanza B) :=
  (fun s => mkStanza filename (body s)) <$> m.

Definition relocate (filename : string) (c : Config) : Config :=
  mkConfig (Prefs c) (move filename (Clusters c)) (move filename (AuthInfos c)) (move filename (Contexts c)) (CurrentContext c) (Extensions c).

Lemma from_named_all {B} (l : list (string * B)) : forall out,
  NoDup l.*1 -> (forall k, k ∈ l.*1 -> out !! k = None) -> from_named l out = Some (list_to_map l ∪ out).
Proof.
  induction l as [|[k x] l IH]; intros out Hd Hn; [cbn; by rewrite map_empty_union|].
  rewrite fmap_cons in *. apply NoDup_cons in Hd as [Hk Hd]. cbn [from_named]. rewrite Hn by left. rewrite IH; [|done|].
  - cbn [list_to_map foldr]. f_equal. rewrite <- insert_union_l, insert_union_r; [done|]. by apply not_elem_of_list_to_map_1.
  - intros k' Hk'. rewrite lookup_insert_ne by (intros <-; by apply Hk). apply Hn. by right.
Qed.

Lemma named_round_trip {B} (m : gmap string B) : from_named (to_named m) ∅ = Some m.
Proof.
  pose proof (merge_sort_Permutation key_le (map_to_list m)) as Hp. fold (to_named m) in Hp.
  rewrite from_named_all; [|rewrite Hp; apply NoDup_fst_map_to_list|intros; apply lookup_empty].
  rewrite map_union_empty. f_equal. rewrite (list_to_map_proper (to_named m) (map_to_list m)); [apply list_to_map_to_list| |exact Hp].
  rewrite Hp. apply NoDup_fst_map_to_list.
Qed.

(** Writing a configuration and reading it back loses nothing but where it came from. *)
Lemma v1_round_trip c : from_v1 (to_v1 c) = Some (relocate "" c).
Proof.
  unfold from_v1, to_v1. cbn. rewrite !named_round_trip. cbn. destruct c as [[colors pext] cs us xs cur ext]. unfold relocate, move. cbn.
  by rewrite <- !map_fmap_compose.
Qed.

Lemma move_move {B} f g (m : gmap string (stanza B)) : move f (move g m) = move f m.
Proof. unfold move. by rewrite <- map_fmap_compose. Qed.

Lemma relocate_relocate f g c : relocate f (relocate g c) = relocate f c.
Proof. unfold relocate. f_equal; apply move_move. Qed.

Lemma lookup_move {B} f (m : gmap string (stanza B)) k : move f m !! k = (fun s => mkStanza f (body s)) <$> m !! k.
Proof. apply lookup_fmap. Qed.

(** ** Paths *)

(** The elements of a clean path as [filepath.Rel] goes through them. *)
Definition elements (p : string) : list string := if decide (p = ".") then ["."] else components p.

Fixpoint strip_common (base targ : list string) : list string * list string :=
  match base, targ with
  | b :: base', t :: targ' => if decide (b = t) then strip_common base' targ' else (base, targ)
  | _, _ => (base, targ)
  end.

Definition filepath_Rel (basepath targpath : string) : option string :=
  let base := path_Clean basepath in
  let targ := path_Clean targpath in
  if decide (base = targ) then Some "."
  else
    let base := if decide (base = ".") then "" else base in
    if negb (Bool.eqb (rooted base) (rooted targ)) then None
    else
      let '(bs, ts) := strip_common (components base) (elements targ) in
      if bool_decide (head bs = Some "..") then None
      else Some (join_slash (((fun _ => "..") <$> bs) ++ ts)).

(** ** Files *)

Inductive os_error : Type :=
| NotExist (filename : string)
| IsExist (filename : string)
| Permission (filename : string)
| OtherFault (filename : string).

Inductive error : Type :=
| Os (e : os_error)
| DecodeFailed
| DuplicateName
| IsDirectory (source : string)
| NoOrigin
| NotRelative (targ base : string)
| Backsteps (path : string)
| NoConfigForContext
| NoConfigForPreferences
| Aggregate (errs : list (string * error)).

Definition IsNotExist (e : error) : bool := match e with Os (NotExist _) => true | _ => false end.
Definition IsPermission (e : error) : bool := match e with Os (Permission _) => true | _ => false end.

Definition result (A : Type) : Type := (error + A)%type.

(** *** Relative paths lead back *)

Lemma strip_common_spec b : forall t bs ts, strip_common b t = (bs, ts) -> exists c, b = c ++ bs /\ t = c ++ ts.
Proof.
  induction b as [|x b IH]; intros [|y t] bs ts; cbn [strip_common]; [by intros [= <- <-]; exists []..|].
  case_decide as Hxy; [|by intros [= <- <-]; exists []]. subst y. intros Hs. destruct (IH t bs ts Hs) as (c & -> & ->). by exists (x :: c).
Qed.

Lemma pops n st rest : Forall name st -> length st = n -> fold_left (path_step true) (replicate n "..") (st ++ rest) = rest.
Proof.
  revert st. induction n as [|n IH]; intros [|x st] Hn Hl; [done|done|done|]. cbn [replicate fold_left app].
  apply Forall_cons in Hn as [(? & ? & Hx & ?) Hn]. unfold path_step at 2. rewrite !decide_False by done. rewrite decide_True by done.
  rewrite decide_False by done. apply IH; [done|]. by injection Hl.
Qed.

(** The components of a relative path, after those of an absolute one. *)
Lemma Join_rooted base r : rooted base = true ->
  path_Join [base; r] = render true (rev (fold_left (path_step true) (strings_Split r slash) (rev (components base)))).
Proof.
  intros Hb. assert (Hne : base <> "") by (by intros ->).
  destruct (components_Join [base; r]) as [Hc Hr].
  assert (Hr' : rooted (path_Join [base; r]) = true) by (rewrite Hr; destruct base; [done|exact Hb]).
  rewrite Join_render by (intros Hj; by rewrite Hj in Hr'). rewrite Hr' in Hc |- *. rewrite Hc. do 2 f_equal. cbn [map concat].
  rewrite app_nil_r, fold_left_app. f_equal. unfold components. by rewrite Hb, rev_involutive.
Qed.

(** What [filepath.Rel] gives leads from the base to the target. *)
Lemma Rel_leads base targ rel : rooted base = true -> rooted targ = true -> filepath_Rel base targ = Some rel ->
  path_Join [base; rel] = path_Clean targ /\ rooted rel = false /\ rel <> "".
Proof.
  intros Hb Ht. unfold filepath_Rel. rewrite (Clean_rooted targ Ht). case_decide as Heq.
  { intros [= <-]. split_and!; [|done|done]. rewrite <- Heq. rewrite Join_rooted by done. change (strings_Split "." slash) with ["."].
    cbn [fold_left]. change (path_step true (rev (components base)) ".") with (rev (components base)).
    by rewrite rev_involutive, Clean_rooted. }
  destruct (components_Clean base) as [Hcb Hrb]. rewrite Hb in Hrb.
  rewrite (decide_False (P := path_Clean base = ".")) by (intros Hd; by rewrite Hd in Hrb). rewrite Hrb, Hcb.
  destruct (components_render true (components targ)) as [Hct Hrt]; [rewrite <- Ht; apply components_stack|]. rewrite Hrt. cbn [Bool.eqb negb].
  unfold elements. rewrite decide_False by done. rewrite Hct.
  destruct (strip_common (components base) (components targ)) as [bs ts] eqn:Hs. apply strip_common_spec in Hs as (c & Hcb' & Hct').
  case_bool_decide; [done|]. intros [= <-].
  pose proof (rooted_names base Hb) as Hnb. pose proof (rooted_names targ Ht) as Hnt. rewrite Hcb' in Hnb. rewrite Hct' in Hnt.
  apply Forall_app in Hnb as [_ Hnb]. apply Forall_app in Hnt as [_ Hnt].
  assert (Hdots : ((fun _ => "..") <$> bs) = replicate (length bs) "..") by (clear; induction bs as [|x bs IH]; [done|]; cbn; by rewrite IH).
  rewrite Hdots. assert (Hns : Forall (fun s => no_slash s = true /\ s <> "") (replicate (length bs) ".." ++ ts)).
  { apply Forall_app. split; [by apply Forall_replicate|]. by apply names_no_slash. }
  assert (Hne : replicate (length bs) ".." ++ ts <> []).
  { intros He. apply app_eq_nil in He as [He ->]. destruct bs; [|done]. apply Heq. rewrite Clean_rooted by done. by rewrite Hcb', Hct'. }
  assert (Hsplit : strings_Split (join_slash (replicate (length bs) ".." ++ ts)) slash = replicate (length bs) ".." ++ ts).
  { rewrite split_join by done. by apply split_components. }
  split_and!.
  - rewrite Join_rooted by done. rewrite Hsplit, fold_left_app, Hcb', rev_app_distr, pops by (rewrite ?length_rev; by try apply Forall_rev).
    rewrite names_steps by (eapply Forall_impl; [exact Hnt|]; intros; by right). rewrite rev_app_distr, !rev_involutive, Hct'. do 2 f_equal.
    clear -Hnt. induction Hnt as [|s ts (Hs & _) _ IH]; [done|]. rewrite filter_cons_True by done. by f_equal.
  - destruct (replicate (length bs) ".." ++ ts) as [|s l]; [done|]. apply Forall_cons in Hns as [[Hs Hs0] _].
    destruct s as [|ch s]; [done|]. cbn in Hs. apply andb_prop in Hs as [Hs _]. apply negb_true_iff in Hs. by destruct l.
  - intros He. rewrite He in Hsplit. cbn in Hsplit. destruct (replicate (length bs) ".." ++ ts) as [|s l]; [done|].
    injection Hsplit as <- <-. apply Forall_cons in Hns as [[_ Hs0] _]. done.
Qed.

(** *** The paths a stanza refers to *)

Definition resolve_path (base ref : string) : string :=
  if decide (ref = "") then ref else if rooted ref then ref else path_Join [base; ref].

Definition MakeRelative (path base : string) : result string :=
  if decide (path = "") then inr path
  else match filepath_Rel base path with Some rel => inr rel | None => inl (NotRelative path base) end.

Definition relativize_path (base ref : string) : result string :=
  if decide (ref = "") then inr ref
  else match MakeRelative ref base with
       | inl err => inl err
       | inr rel =>
           if strings_HasPrefix rel "../" then if rooted ref then inr ref else inl (Backsteps ref)
           else inr rel
       end.

(** An absolute path that is made relative to a directory and resolved there again is the
    same, cleaned unless it was left alone. *)
Theorem relative_round_trip base ref r :
  rooted base = true -> rooted ref = true -> relativize_path base ref = inr r ->
  resolve_path base r = path_Clean ref \/ r = ref /\ resolve_path base r = ref.
Proof.
  intros Hb Hr. unfold relativize_path, MakeRelative. rewrite !decide_False by (by intros ->).
  destruct (filepath_Rel base ref) as [rel|] eqn:Hrel; [|done]. destruct (Rel_leads base ref rel Hb Hr Hrel) as (Hj & Hrr & Hne).
  rewrite Hr. destruct (strings_HasPrefix rel "../"); intros [= <-].
  - right. split; [done|]. unfold resolve_path. rewrite decide_False by (by intros ->). by rewrite Hr.
  - left. unfold resolve_path. by rewrite decide_False, Hrr.
Qed.

(** The directory above the base does need a step back, and is not left alone: [..] does
    not begin with the prefix that is looked for. *)
Example one_step_back : relativize_path "/a/b" "/a" = inr ".." /\ relativize_path "/a/b" "/" = inr "/" /\ relativize_path "/a/b" "/a/c" = inr "/a/c".
Proof. split_and!; vm_compute; reflexivity. Qed.

(** The references of a stanza, in order, each put through [f]. *)
Definition map_cluster_refs (f : string -> result string) (c : Cluster) : result Cluster :=
  match f (CertificateAuthority c) with
  | inl err => inl err
  | inr ca => inr (mkCluster (Server c) (TLSServerName c) (InsecureSkipTLSVerify c) ca (CertificateAuthorityData c) (ProxyURL c)
                     (DisableCompression c) (Cluster_Extensions c))
  end.

Definition map_command (f : string -> result string) (e : ExecConfig) : result ExecConfig :=
  if strings_Contains (Command e) "/"
  then match f (Command e) with
       | inl err => inl err
       | inr command => inr (mkExec command (Args e) (Env e) (APIVersion e) (InstallHint e) (ProvideClusterInfo e) (InteractiveMode e))
       end
  else inr e.

Definition map_user_refs (f : string -> result string) (a : AuthInfo) : result AuthInfo :=
  match f (ClientCertificate a) with
  | inl err => inl err
  | inr certificate =>
    match f (ClientKey a) with
    | inl err => inl err
    | inr key =>
      match f (TokenFile a) with
      | inl err => inl err
      | inr tokenFile =>
        match (match Exec a with
               | Some e => match map_command f e with inl err => inl err | inr e => inr (Some e) end
               | None => inr None
               end) with
        | inl err => inl err
        | inr exec =>
            inr (mkAuthInfo certificate (ClientCertificateData a) key (ClientKeyData a) (Token a) tokenFile (Impersonate a)
                   (ImpersonateUID a) (ImpersonateGroups a) (ImpersonateUserExtra a) (Username a) (Password a) (AuthProvider a)
                   exec (AuthInfo_Extensions a))
        end
      end
    end
  end.

Section paths.
Variable wd : string.

(** [ResolveLocalPaths] of one stanza, with the way to its references. *)
Definition resolve_stanza {B} (refs : (string -> result string) -> B -> result B) (s : stanza B) : result (stanza B) :=
  if decide (LocationOfOrigin s = "") then inr s
  else
    let base := filepath_Abs wd (filepath_Dir (LocationOfOrigin s)) in
    match refs (fun ref => inr (resolve_path base ref)) (body s) with
    | inl err => inl err
    | inr b => inr (mkStanza (LocationOfOrigin s) b)
    end.

(** [RelativizeClusterLocalPaths], [RelativizeAuthInfoLocalPaths] *)
Definition relativize_stanza {B} (refs : (string -> result string) -> B -> result B) (s : stanza B) : result (stanza B) :=
  if decide (LocationOfOrigin s = "") then inl NoOrigin
  else
    let base := filepath_Abs wd (filepath_Dir (LocationOfOrigin s)) in
    match refs (fun ref => inr (resolve_path base ref)) (body s) with
    | inl err => inl err
    | inr b => match refs (relativize_path base) b with inl err => inl err | inr b => inr (mkStanza (LocationOfOrigin s) b) end
    end.

(** Resolving a reference does not fail. *)
Definition resolved {B} (refs : (string -> result string) -> B -> result B) (s : stanza B) : stanza B :=
  match resolve_stanza refs s with inr s => s | inl _ => s end.

Definition ResolveLocalPaths (c : Config) : Config :=
  mkConfig (Prefs c) (resolved map_cluster_refs <$> Clusters c) (resolved map_user_refs <$> AuthInfos c) (Contexts c) (CurrentContext c) (Extensions c).

End paths.

(** ** Merging *)

(** mergo.Merge with [WithOverride]: what is set in the source replaces what the
    destination has, key by key in maps. *)
Definition override (dst src : Config) : Config :=
  mkConfig (mkPreferences (Colors (Prefs dst) || Colors (Prefs src)) (Preferences_Extensions (Prefs src) ∪ Preferences_Extensions (Prefs dst)))
    (Clusters src ∪ Clusters dst) (AuthInfos src ∪ AuthInfos dst) (Contexts src ∪ Contexts dst)
    (if decide (CurrentContext src = "") then CurrentContext dst else CurrentContext src) (Extensions src ∪ Extensions dst).

Class Mergo : Type := {
  Merge : Config -> Config -> Config;
  Merge_override dst src : Merge dst src = override dst src
}.

Definition overriding : Mergo := {| Merge := override; Merge_override dst src := eq_refl |}.

(** The merging of [ClientConfigLoadingRules.Load]. *)
Definition merge_all `{Mergo} (kubeconfigs : list Config) : Config :=
  let mapConfig := fold_left Merge kubeconfigs NewConfig in
  let nonMapConfig := fold_left Merge (rev kubeconfigs) NewConfig in
  Merge (Merge NewConfig mapConfig) nonMapConfig.

(** The first that has something. *)
Definition first_key {B} (sel : Config -> gmap string B) (cs : list Config) (k : string) : option B :=
  head (omap (fun c => sel c !! k) cs).

Definition first_context (cs : list Config) : string := default "" (head (filter (fun x => x <> "") (CurrentContext <$> cs))).

Lemma fmap_rev {A B} (f : A -> B) l : f <$> rev l = rev (f <$> l).
Proof. apply map_rev. Qed.

Lemma filter_rev (P : string -> Prop) `{forall x, Decision (P x)} l : filter P (rev l) = rev (filter P l).
Proof.
  induction l as [|x l IH]; [done|]. cbn [rev]. rewrite filter_app, IH, filter_cons. case_decide as Hx.
  - by rewrite filter_cons_True.
  - rewrite filter_cons_False by done. by rewrite app_nil_r.
Qed.

Section merging.
Context `{Mergo}.

(** A map that is merged key by key. *)
Definition keyed {B} (sel : Config -> gmap string B) : Prop :=
  sel NewConfig = ∅ /\ forall dst src, sel (Merge dst src) = sel src ∪ sel dst.

Lemma keyed_fold {B} (sel : Config -> gmap string B) cs k : keyed sel -> forall c0,
  sel (fold_left Merge cs c0) !! k = match last (omap (fun c => sel c !! k) cs) with Some x => Some x | None => sel c0 !! k end.
Proof.
  intros [_ Hm]. induction cs as [|c cs IH]; intros c0; [done|]. cbn [fold_left]. rewrite IH, Hm. cbn [omap list_omap].
  rewrite lookup_union. destruct (sel c !! k) as [x|] eqn:Hx; cbn [union_with option_union_with]; rewrite ?left_id by apply _.
  - rewrite last_cons. destruct (last (omap _ cs)); [done|]. by destruct (sel c0 !! k).
  - by destruct (last (omap _ cs)); destruct (sel c0 !! k).
Qed.

Lemma omap_omap {X Y T} (g : Y -> option T) (h : X -> option Y) (xs : list X) : omap g (omap h xs) = omap (fun x => h x ≫= g) xs.
Proof. induction xs as [|x xs IH]; [done|]. cbn [omap list_omap]. destruct (h x); cbn; by rewrite IH. Qed.

Lemma omap_rev {A B} (f : A -> option B) l : omap f (rev l) = rev (omap f l).
Proof.
  induction l as [|x l IH]; [done|]. cbn [rev]. rewrite omap_app, IH. cbn [omap list_omap]. destruct (f x); [done|]. by rewrite app_nil_r.
Qed.

Lemma keyed_merge_all {B} (sel : Config -> gmap string B) cs k : keyed sel -> sel (merge_all cs) !! k = first_key sel cs k.
Proof.
  intros Hk. unfold merge_all, first_key. pose proof Hk as [H0 Hm]. rewrite !Hm, !lookup_union, !(keyed_fold sel) by done. rewrite H0, !lookup_empty.
  rewrite omap_rev, rev_alt. match goal with |- context [rev_append ?l []] => change (rev_append l []) with (reverse l) end. rewrite last_reverse.
  destruct (omap (fun c => sel c !! k) cs) as [|x l] eqn:Hl; [done|]. cbn. by destruct (last (x :: l)).
Qed.

Lemma Clusters_keyed : keyed Clusters.
Proof. split; [done|]. intros. by rewrite Merge_override. Qed.
Lemma AuthInfos_keyed : keyed AuthInfos.
Proof. split; [done|]. intros. by rewrite Merge_override. Qed.
Lemma Contexts_keyed : keyed Contexts.
Proof. split; [done|]. intros. by rewrite Merge_override. Qed.
Lemma Extensions_keyed : keyed Extensions.
Proof. split; [done|]. intros. by rewrite Merge_override. Qed.
Lemma Preferences_keyed : keyed (fun c => Preferences_Extensions (Prefs c)).
Proof. split; [done|]. intros. by rewrite Merge_override. Qed.

Lemma context_fold cs : forall c0,
  CurrentContext (fold_left Merge cs c0) = default (CurrentContext c0) (last (filter (fun x => x <> "") (CurrentContext <$> cs))).
Proof.
  induction cs as [|c cs IH]; intros c0; [done|]. cbn [fold_left]. rewrite IH, Merge_override. cbn [CurrentContext override].
  rewrite fmap_cons, filter_cons. destruct (decide (CurrentContext c = "")) as [Hc|Hc].
  - rewrite decide_False by (intros Hne; by apply Hne). done.
  - rewrite decide_True by done. rewrite last_cons. by destruct (last (filter _ _)).
Qed.

Lemma context_merge_all cs : CurrentContext (merge_all cs) = first_context cs.
Proof.
  unfold merge_all, first_context. rewrite !Merge_override. cbn [CurrentContext override]. rewrite !context_fold. cbn [CurrentContext NewConfig].
  rewrite fmap_rev, filter_rev, rev_alt. match goal with |- context [rev_append ?l []] => change (rev_append l []) with (reverse l) end.
  rewrite last_reverse. destruct (filter (fun x => x <> "") (CurrentContext <$> cs)) as [|x l] eqn:Hf; [done|].
  change (default "" (head (x :: l))) with x. rewrite (decide_False (P := x = "")); [done|]. intros ->.
  assert (Hx : "" ∈ filter (fun x => x <> "") (CurrentContext <$> cs)) by (rewrite Hf; left).
  apply list_elem_of_filter in Hx as [Hx _]. by apply Hx.
Qed.

Lemma colors_merge_all cs : Colors (Prefs (merge_all cs)) = existsb (fun c => Colors (Prefs c)) cs.
Proof.
  assert (Hf : forall cs c0, Colors (Prefs (fold_left Merge cs c0)) = Colors (Prefs c0) || existsb (fun c => Colors (Prefs c)) cs).
  { clear cs. induction cs as [|c cs IH]; intros c0; [by rewrite orb_false_r|]. cbn [fold_left existsb]. rewrite IH, Merge_override. cbn.
    by rewrite orb_assoc. }
  unfold merge_all. rewrite !Merge_override. cbn [Prefs override Colors]. rewrite !Hf. cbn.
  enough (Hr : existsb (fun c => Colors (Prefs c)) (rev cs) = existsb (fun c => Colors (Prefs c)) cs) by (rewrite Hr; by destruct (existsb _ cs)).
  induction cs as [|c cs IH]; [done|]. cbn [rev]. rewrite existsb_app, IH. cbn. rewrite orb_false_r. apply orb_comm.
Qed.
End merging.

Section files.
(** Contents, and their YAML. *)
Variable bytes : Type.
Variable empty_bytes : bytes.
Variable is_empty : bytes -> bool.
Variable marshal : v1Config -> bytes.
Variable unmarshal : bytes -> option v1Config.

#[local] Notation FS := (gmap string bytes).

(** What fails of the files that are there, always: to look, to read, to write. *)
Record Faults : Type := mkFaults {
  stat_fault : string -> option os_error;
  read_fault : string -> option os_error;
  write_fault : string -> option os_error;
  is_dir : string -> bool
}.
Variable faults : Faults.

Definition M (A : Type) : Type := FS -> FS * result A.
Definition ret {A} (a : A) : M A := fun fs => (fs, inr a).
Definition fail {A} (e : error) : M A := fun fs => (fs, inl e).
Definition bind {A B} (m : M A) (f : A -> M B) : M B := fun fs =>
  match m fs with
  | (fs, inr a) => f a fs
  | (fs, inl e) => (fs, inl e)
  end.
(** An error as a value. *)
Definition attempt {A} (m : M A) : M (result A) := fun fs => let '(fs, r) := m fs in (fs, inr r).

Fixpoint for_each {A} (l : list A) (f : A -> M unit) : M unit :=
  match l with
  | [] => ret tt
  | x :: l => bind (f x) (fun _ => for_each l f)
  end.

(** The empty name is no file. *)
Definition content (fs : FS) (filename : string) : option bytes := if decide (filename = "") then None else fs !! filename.

Definition os_Stat (filename : string) : M unit := fun fs =>
  (fs, match stat_fault faults filename with
       | Some e => inl (Os e)
       | None => if content fs filename is Some _ then inr tt else inl (Os (NotExist filename))
       end).

Definition os_ReadFile (filename : string) : M bytes := fun fs =>
  (fs, match content fs filename with
       | None => inl (Os (NotExist filename))
       | Some b => match read_fault faults filename with Some e => inl (Os e) | None => inr b end
       end).

(** Its directory is made where it is missing. *)
Definition os_WriteFile (filename : string) (b : bytes) : M unit := fun fs =>
  match write_fault faults filename with
  | Some e => (fs, inl (Os e))
  | None => if decide (filename = "") then (fs, inl (Os (NotExist filename))) else (<[filename := b]> fs, inr tt)
  end.

(** With O_CREATE and O_EXCL. *)
Definition os_Create (filename : string) : M unit := fun fs =>
  match write_fault faults filename with
  | Some e => (fs, inl (Os e))
  | None =>
      match fs !! filename with
      | Some _ => (fs, inl (Os (IsExist filename)))
      | None => (<[filename := empty_bytes]> fs, inr tt)
      end
  end.

Definition os_Remove (filename : string) : M unit := fun fs =>
  match write_fault faults filename with
  | Some e => (fs, inl (Os e))
  | None => (delete filename fs, inr tt)
  end.

(** ** Reading and writing *)

Definition Load (data : bytes) : result Config :=
  if is_empty data then inr NewConfig
  else match unmarshal data with
       | None => inl DecodeFailed
       | Some v => match from_v1 v with None => inl DuplicateName | Some c => inr c end
       end.

Definition LoadFromFile (filename : string) : M Config :=
  bind (os_ReadFile filename) (fun data =>
    match Load data with
    | inl err => fail err
    | inr config => ret (relocate filename config)
    end).

Definition Write (config : Config) : bytes := marshal (to_v1 config).

Definition WriteToFile (config : Config) (filename : string) : M unit := os_WriteFile filename (Write config).

Definition lockName (filename : string) : string := filename +:+ ".lock".
Definition lockFile (filename : string) : M unit := os_Create (lockName filename).
Definition unlockFile (filename : string) : M unit := os_Remove (lockName filename).

(** [getConfigFromFile]: a missing file is an empty configuration. *)
Definition getConfigFromFile (filename : string) : M Config :=
  bind (attempt (LoadFromFile filename)) (fun r =>
    match r with
    | inr config => ret config
    | inl err => if IsNotExist err then ret NewConfig else fail err
    end).

(** ** Loading rules *)

Context `{MapRange} `{Mergo}.
Variable wd : string.

Record ClientConfigLoadingRules : Type := mkRules {
  ExplicitPath : string;
  Precedence : list string;
  MigrationRules : gmap string string;
  DoNotResolvePaths : bool
}.

Definition migrate_one (rule : string * string) : M unit :=
  let '(destination, source) := rule in
  bind (attempt (os_Stat destination)) (fun r =>
    match r with
    | inr _ => ret tt
    | inl err =>
        if IsPermission err then ret tt
        else if negb (IsNotExist err) then fail err
        else
          bind (attempt (os_Stat source)) (fun r =>
            match r with
            | inl err => if IsNotExist err || IsPermission err then ret tt else fail err
            | inr _ =>
                if is_dir faults source then fail (IsDirectory source)
                else bind (os_ReadFile source) (fun data => os_WriteFile destination data)
            end)
    end).

Definition Migrate (rules : ClientConfigLoadingRules) : M unit := for_each (range (MigrationRules rules)) migrate_one.

(** The files that could be read, and the errors; missing files are skipped. *)
Fixpoint read_files (filenames : list string) : M (list Config * list (string * error)) :=
  match filenames with
  | [] => ret ([], [])
  | filename :: filenames =>
      if decide (filename = "") then read_files filenames
      else
        bind (attempt (LoadFromFile filename)) (fun r =>
          bind (read_files filenames) (fun '(kubeconfigs, errlist) =>
            ret (match r with
                 | inr config => (config :: kubeconfigs, errlist)
                 | inl err => if IsNotExist err then (kubeconfigs, errlist) else (kubeconfigs, (filename, err) :: errlist)
                 end)))
  end.

(** [ClientConfigLoadingRules.Load]; the configuration that comes with an error is not used. *)
Definition rules_Load (rules : ClientConfigLoadingRules) : M Config :=
  bind (Migrate rules) (fun _ =>
    bind (if decide (ExplicitPath rules = "") then ret (Precedence rules)
          else bind (attempt (os_Stat (ExplicitPath rules))) (fun r =>
            match r with
            | inl err => if IsNotExist err then fail err else ret [ExplicitPath rules]
            | inr _ => ret [ExplicitPath rules]
            end))
      (fun kubeConfigFiles =>
        bind (read_files kubeConfigFiles) (fun '(kubeconfigs, errlist) =>
          let config := merge_all kubeconfigs in
          let config := if DoNotResolvePaths rules then config else ResolveLocalPaths wd config in
          match errlist with
          | [] => ret config
          | _ => fail (Aggregate errlist)
          end))).

(** *** As a configuration access *)

Definition rules_GetLoadingPrecedence (rules : ClientConfigLoadingRules) : list string :=
  if decide (ExplicitPath rules = "") then Precedence rules else [ExplicitPath rules].

(** Through a client configuration that loads once and has no overrides. *)
Definition rules_GetStartingConfig (rules : ClientConfigLoadingRules) : M Config :=
  bind (attempt (rules_Load rules)) (fun r =>
    match r with
    | inr config => ret config
    | inl err => if IsNotExist err then ret NewConfig else fail err
    end).

Fixpoint first_existing (filenames : list string) : M (option string) :=
  match filenames with
  | [] => ret None
  | filename :: filenames =>
      bind (attempt (os_Stat filename)) (fun r => if r is inr _ then ret (Some filename) else first_existing filenames)
  end.

Definition rules_GetDefaultFilename (rules : ClientConfigLoadingRules) : M string :=
  if decide (ExplicitPath rules = "")
  then bind (first_existing (Precedence rules)) (fun r =>
         ret (match r with Some filename => filename | None => hd "" (Precedence rules) end))
  else ret (ExplicitPath rules).

(** ** What loading gives *)

(** The configuration in a file. *)
Definition config_in (fs : FS) (filename : string) : option Config :=
  match LoadFromFile filename fs with (_, inr c) => Some c | _ => None end.

(** A file that is not there. *)
Definition missing (fs : FS) (filename : string) : Prop :=
  filename = "" \/ exists err, (LoadFromFile filename fs).2 = inl err /\ IsNotExist err = true.

Lemma LoadFromFile_state filename fs : (LoadFromFile filename fs).1 = fs.
Proof.
  unfold LoadFromFile, bind, os_ReadFile. destruct (content fs filename) as [b|]; [|done].
  destruct (read_fault faults filename); [done|]. by destruct (Load b).
Qed.

Lemma read_files_exact filenames fs :
  exists errlist, read_files filenames fs = (fs, inr (omap (config_in fs) filenames, errlist)) /\
    (errlist = [] -> Forall (fun f => is_Some (config_in fs f) \/ missing fs f) filenames).
Proof.
  induction filenames as [|f fs' IH]; [by exists []|]. destruct IH as (errlist & IH & Hall). cbn [read_files omap list_omap].
  assert (Hempty : f = "" -> config_in fs f = None) by (by intros ->).
  case_decide as Hf; [rewrite (Hempty Hf); exists errlist; split; [done|]; intros He; constructor; [right; by left|auto]|]. clear Hempty.
  unfold bind at 1, attempt at 1. pose proof (LoadFromFile_state f fs) as Hs. unfold missing.
  destruct (LoadFromFile f fs) as [fs1 r] eqn:Hr. cbn in Hs. subst fs1. unfold bind. rewrite IH.
  assert (Hc : config_in fs f = match r with inr c => Some c | inl _ => None end) by (unfold config_in; by rewrite Hr). rewrite Hc.
  destruct r as [err|c].
  - destruct (IsNotExist err) eqn:He; eexists; (split; [reflexivity|]); [|done]. intros Hn. constructor; [|auto].
    right; right. exists err. by rewrite Hr.
  - eexists. split; [reflexivity|]. intros Hn. constructor; [left; by rewrite Hc|auto].
Qed.

(** *** What a file says, name by name *)

Definition named {B} (k : string) (l : list (string * B)) : option B := snd <$> List.find (fun p => String.eqb p.1 k) l.

Definition no_document : v1Config := mkV1 false [] [] [] [] "" [].

(** The document in a file that can be read. *)
Definition document (fs : FS) (filename : string) : option v1Config :=
  if decide (filename = "") then None
  else
    match fs !! filename, read_fault faults filename with
    | Some b, None => if is_empty b then Some no_document else unmarshal b
    | _, _ => None
    end.

(** There is no such file. *)
Definition absent (fs : FS) (filename : string) : Prop :=
  filename = "" \/ fs !! filename = None \/ exists err, read_fault faults filename = Some err /\ IsNotExist (Os err) = true.

(** No name is given twice. *)
Definition one_name (v : v1Config) : Prop :=
  NoDup (v1_clusters v).*1 /\ NoDup (v1_users v).*1 /\ NoDup (v1_contexts v).*1 /\ NoDup (v1_extensions v).*1 /\
  NoDup (v1_preferences_extensions v).*1.

(** A path in a file, and a command, which is looked for in PATH if it has no slash. *)
Definition absolute (filename p : string) : string :=
  if String.eqb p "" then "" else if rooted p then p else path_Join [filepath_Abs wd (filepath_Dir filename); p].

Definition absolute_command (filename : string) (e : ExecConfig) : ExecConfig :=
  mkExec (if strings_Contains (Command e) "/" then absolute filename (Command e) else Command e) (Args e) (Env e) (APIVersion e)
    (InstallHint e) (ProvideClusterInfo e) (InteractiveMode e).

Definition absolute_cluster (filename : string) (c : Cluster) : Cluster :=
  mkCluster (Server c) (TLSServerName c) (InsecureSkipTLSVerify c) (absolute filename (CertificateAuthority c)) (CertificateAuthorityData c)
    (ProxyURL c) (DisableCompression c) (Cluster_Extensions c).

Definition absolute_user (filename : string) (u : AuthInfo) : AuthInfo :=
  mkAuthInfo (absolute filename (ClientCertificate u)) (ClientCertificateData u) (absolute filename (ClientKey u)) (ClientKeyData u) (Token u)
    (absolute filename (TokenFile u)) (Impersonate u) (ImpersonateUID u) (ImpersonateGroups u) (ImpersonateUserExtra u) (Username u)
    (Password u) (AuthProvider u) (absolute_command filename <$> Exec u) (AuthInfo_Extensions u).

(** The first of the documents that has something, as it is in its file. *)
Definition first_of {B} (fs : FS) (files : list string) (has : string -> v1Config -> option B) : option B :=
  head (omap (fun f => document fs f ≫= has f) files).

Definition first_named {B} (fs : FS) (files : list string) (part : v1Config -> list (string * B)) (as_read : string -> B -> B) (k : string) :
    option (stanza B) :=
  first_of fs files (fun f v => (fun b => mkStanza f (as_read f b)) <$> named k (part v)).

Lemma from_named_lookup {B} (l : list (string * B)) : forall out m, from_named l out = Some m ->
  NoDup l.*1 /\ (forall k, is_Some (out !! k) -> k ∉ l.*1) /\ forall k, m !! k = match out !! k with Some x => Some x | None => named k l end.
Proof.
  induction l as [|[n x] l IH]; intros out m; cbn [from_named].
  { intros [= <-]. split_and!; [constructor|by intros k _ ?%elem_of_nil|]. intros k. cbn. by destruct (out !! k). }
  destruct (out !! n) as [y|] eqn:Hn; [done|]. intros Hm. destruct (IH _ _ Hm) as (H1 & H2 & H3). rewrite fmap_cons. split_and!.
  - constructor; [|done]. apply H2. rewrite lookup_insert_eq. by eexists.
  - intros k Hk [->|Hin]%elem_of_cons; [cbn in Hk; rewrite Hn in Hk; by destruct Hk|]. revert Hin. apply H2.
    destruct (decide (n = k)) as [->|Hne]; [rewrite lookup_insert_eq; by eexists|by rewrite lookup_insert_ne].
  - intros k. rewrite H3. unfold named. cbn [List.find fst]. destruct (String.eqb_spec n k) as [->|Hne].
    + by rewrite lookup_insert_eq, Hn.
    + by rewrite lookup_insert_ne.
Qed.

(** What a document is read as. *)
Lemma from_v1_exact v c : from_v1 v = Some c ->
  one_name v /\ (forall k, Clusters c !! k = at_file "" <$> named k (v1_clusters v)) /\
  (forall k, AuthInfos c !! k = at_file "" <$> named k (v1_users v)) /\
  (forall k, Contexts c !! k = at_file "" <$> named k (v1_contexts v)) /\
  (forall k, Extensions c !! k = named k (v1_extensions v)) /\
  (forall k, Preferences_Extensions (Prefs c) !! k = named k (v1_preferences_extensions v)) /\
  CurrentContext c = v1_current_context v /\ Colors (Prefs c) = v1_colors v.
Proof.
  unfold from_v1. intros Hc. repeat (apply bind_Some in Hc as (? & ?%from_named_lookup & Hc)). injection Hc as <-. cbn.
  destruct_and!. unfold one_name. split_and!; try done; intros k; rewrite ?lookup_fmap;
    repeat match goal with H : forall k, _ !! k = _ |- _ => rewrite H; clear H end; by rewrite lookup_empty.
Qed.

Lemma config_in_document fs f :
  config_in fs f = (v ← document fs f; c ← from_v1 v; Some (relocate f c)) /\
  (is_Some (config_in fs f) \/ missing fs f -> absent fs f \/ exists v c, document fs f = Some v /\ from_v1 v = Some c).
Proof.
  unfold config_in, document, missing, absent, LoadFromFile, bind, os_ReadFile, content, Load.
  case_decide as Hf; [split; [done|]; intros _; by do 2 left|]. destruct (fs !! f) as [b|]; [|split; [done|]; intros _; left; right; by left].
  destruct (read_fault faults f) as [e|].
  - split; [done|]. intros [[? ?]|[?|(err & He & Hn)]]; [done|done|]. injection He as <-. left. right. right. by exists e.
  - destruct (is_empty b).
    + split; [done|]. intros _. right. by exists no_document, NewConfig.
    + destruct (unmarshal b) as [v|]; [|split; [done|]; intros [[? ?]|[?|(err & He & Hn)]]; [done|done|by injection He as <-]].
      destruct (from_v1 v) as [c|] eqn:Hv.
      * split; [cbn; by rewrite Hv|]. intros _. right. by exists v, c.
      * split; [cbn; by rewrite Hv|]. intros [[? ?]|[?|(err & He & Hn)]]; [done|done|by injection He as <-].
Qed.

Lemma absent_document fs f : absent fs f -> document fs f = None.
Proof.
  unfold document. case_decide as Hf; [done|]. intros [->|[->|(err & -> & _)]]; [done|done|]. by destruct (fs !! f).
Qed.

(** A key of the merged configurations, in the documents. *)
Lemma first_key_of {B} (sel : Config -> gmap string B) (has : string -> v1Config -> option B) fs files k :
  (forall f v c, f ∈ files -> document fs f = Some v -> from_v1 v = Some c -> sel (relocate f c) !! k = has f v) ->
  Forall (fun f => absent fs f \/ exists v c, document fs f = Some v /\ from_v1 v = Some c) files ->
  first_key sel (omap (config_in fs) files) k = first_of fs files has.
Proof.
  intros Hsel Hall. unfold first_key, first_of. rewrite omap_omap. f_equal. rewrite Forall_forall in Hall.
  apply list_omap_ext, Forall2_same_length_lookup_2; [done|]. intros i f f' Hf Hf'. rewrite Hf in Hf'. injection Hf' as <-.
  assert (Hin : f ∈ files) by (by eapply list_elem_of_lookup_2). rewrite (proj1 (config_in_document fs f)).
  destruct (document fs f) as [v|] eqn:Hd; [|done]. destruct (Hall f Hin) as [Ha|(v' & c & Hv' & Hc)].
  - by rewrite (absent_document _ _ Ha) in Hd.
  - rewrite Hd in Hv'. injection Hv' as <-. cbn. rewrite Hc. cbn. by apply Hsel.
Qed.

Lemma fmap_first {B C} (g : B -> C) fs files has has' :
  (forall f v, f <> "" -> g <$> has f v = has' f v) -> g <$> first_of fs files has = first_of fs files has'.
Proof.
  intros Hg. unfold first_of. induction files as [|f files IH]; [done|]. cbn [omap list_omap].
  destruct (document fs f) as [v|] eqn:Hd; [|exact IH]. cbn. rewrite <- (Hg f v) by (by intros ->). by destruct (has f v).
Qed.

Lemma first_resolved {B} (g : stanza B -> stanza B) (as_read : string -> B -> B) fs files part k :
  (forall f b, f <> "" -> g (mkStanza f b) = mkStanza f (as_read f b)) ->
  g <$> first_named fs files part (fun _ b => b) k = first_named fs files part as_read k.
Proof. intros Hg. apply fmap_first. intros f v Hf. destruct (named k (part v)) as [b|]; [cbn; by rewrite Hg|done]. Qed.

Lemma resolve_absolute f p : resolve_path (filepath_Abs wd (filepath_Dir f)) p = absolute f p.
Proof. unfold resolve_path, absolute. destruct (String.eqb_spec p "") as [->|Hp]; [done|]. by rewrite decide_False. Qed.

Lemma resolved_cluster f b : f <> "" -> resolved wd map_cluster_refs (mkStanza f b) = mkStanza f (absolute_cluster f b).
Proof.
  intros Hf. unfold resolved, resolve_stanza. cbn [LocationOfOrigin body]. rewrite decide_False by done.
  unfold map_cluster_refs. by rewrite resolve_absolute.
Qed.

Lemma resolved_user f b : f <> "" -> resolved wd map_user_refs (mkStanza f b) = mkStanza f (absolute_user f b).
Proof.
  intros Hf. unfold resolved, resolve_stanza. cbn [LocationOfOrigin body]. rewrite decide_False by done.
  unfold map_user_refs, absolute_user, map_command, absolute_command. rewrite !resolve_absolute.
  destruct (Exec b) as [e|]; [|done]. cbn. destruct (strings_Contains (Command e) "/"); [by rewrite resolve_absolute|by destruct e].
Qed.

(** The documents one by one, of files that can be read or are not there. *)
Lemma first_context_of fs files : Forall (fun f => absent fs f \/ exists v c, document fs f = Some v /\ from_v1 v = Some c) files ->
  first_context (omap (config_in fs) files) =
    default "" (first_of fs files (fun _ v => if String.eqb (v1_current_context v) "" then None else Some (v1_current_context v))).
Proof.
  unfold first_context, first_of. induction 1 as [|f files Hf _ IH]; [done|]. cbn [omap list_omap]. rewrite (proj1 (config_in_document fs f)).
  destruct (document fs f) as [v|] eqn:Hd; [|exact IH]. destruct Hf as [Ha|(v' & c & Hv' & Hc)]; [by rewrite (absent_document _ _ Ha) in Hd|].
  assert (v' = v) as -> by congruence. cbn [mbind option_bind]. rewrite Hc. cbn [mbind option_bind].
  rewrite fmap_cons, filter_cons. cbn [CurrentContext relocate].
  destruct (from_v1_exact v c Hc) as (_ & _ & _ & _ & _ & _ & -> & _). destruct (String.eqb_spec (v1_current_context v) "") as [He|He].
  - rewrite decide_False; [exact IH|]. by intros Hn.
  - by rewrite decide_True.
Qed.

Lemma colors_of fs files : Forall (fun f => absent fs f \/ exists v c, document fs f = Some v /\ from_v1 v = Some c) files ->
  existsb (fun c => Colors (Prefs c)) (omap (config_in fs) files) = existsb (fun f => if document fs f is Some v then v1_colors v else false) files.
Proof.
  induction 1 as [|f files Hf _ IH]; [done|]. cbn [omap list_omap existsb]. rewrite (proj1 (config_in_document fs f)).
  destruct (document fs f) as [v|] eqn:Hd; [|exact IH]. destruct Hf as [Ha|(v' & c & Hv' & Hc)]; [by rewrite (absent_document _ _ Ha) in Hd|].
  assert (v' = v) as -> by congruence. cbn. rewrite Hc. cbn [existsb mbind option_bind mret option_ret].
  destruct (from_v1_exact v c Hc) as (_ & _ & _ & _ & _ & _ & _ & <-). by f_equal.
Qed.

(** What the migration does to the files that are there. *)
Lemma Migrate_keeps rules fs fs' r : Migrate rules fs = (fs', r) ->
  (forall f, MigrationRules rules !! f = None -> fs' !! f = fs !! f) /\
  (forall f b, fs !! f = Some b -> (forall err, stat_fault faults f = Some err -> IsNotExist (Os err) = false) -> fs' !! f = Some b).
Proof.
  unfold Migrate. assert (Hin : forall x, x ∈ range (MigrationRules rules) -> MigrationRules rules !! x.1 = Some x.2)
    by (intros [k y] Hx; by apply elem_of_range). revert fs fs' r Hin. induction (range (MigrationRules rules)) as [|[dst src] l IH]; intros fs fs' r Hin.
  { intros [= <- _]. by split. }
  cbn [for_each]. unfold bind at 1. assert (Hone : forall fs1 r1, migrate_one (dst, src) fs = (fs1, r1) ->
    (forall f, f <> dst -> fs1 !! f = fs !! f) /\
    (forall f b, fs !! f = Some b -> (forall err, stat_fault faults f = Some err -> IsNotExist (Os err) = false) -> fs1 !! f = Some b)).
  { intros fs1 r1. unfold migrate_one, bind, attempt, os_Stat, os_ReadFile, os_WriteFile, ret, fail.
    assert (Hw : forall b, fs !! dst = None \/ (exists err, stat_fault faults dst = Some err /\ IsNotExist (Os err) = true) ->
      (forall f, f <> dst -> <[dst := b]> fs !! f = fs !! f) /\
      (forall f x, fs !! f = Some x -> (forall err, stat_fault faults f = Some err -> IsNotExist (Os err) = false) -> <[dst := b]> fs !! f = Some x)).
    { intros b Hd. split; intros f; (destruct (decide (dst = f)) as [->|Hne]; [try done|by rewrite lookup_insert_ne]).
      intros x Hx Hs. destruct Hd as [Hd|(err & He & Hn)]; [congruence|]. by rewrite (Hs _ He) in Hn. }
    assert (Hall : forall g, (fs !! dst = None \/ exists err, stat_fault faults dst = Some err /\ IsNotExist (Os err) = true) ->
      (g = fs \/ exists b, g = <[dst := b]> fs) -> (forall f, f <> dst -> g !! f = fs !! f) /\
      (forall f b, fs !! f = Some b -> (forall err, stat_fault faults f = Some err -> IsNotExist (Os err) = false) -> g !! f = Some b))
      by (intros g Hd [->|[b ->]]; [done|by apply Hw]). clear Hw.
    destruct (stat_fault faults dst) as [e|] eqn:Hst.
    - destruct (IsPermission (Os e)); [by intros [= <- _]|]. destruct (IsNotExist (Os e)) eqn:Hne; [|by intros [= <- _]]. cbn [negb].
      assert (Hd : fs !! dst = None \/ exists err, Some e = Some err /\ IsNotExist (Os err) = true) by (right; by exists e).
      clear Hne Hst. repeat case_match; intros [= <- _]; apply Hall; try exact Hd; simplify_eq; eauto.
    - unfold content at 1. destruct (decide (dst = "")) as [->|Hd0]; cbn.
      + intros Hr. assert (Hd : fs1 = fs) by (revert Hr; repeat case_match; intros; simplify_eq; done). by subst fs1.
      + destruct (fs !! dst) as [b0|] eqn:Hd; cbn; [by intros [= <- _]|].
        repeat case_match; intros [= <- _]; apply Hall; simplify_eq; eauto. }
  destruct (migrate_one (dst, src) fs) as [fs1 [err|[]]] eqn:Hm; destruct (Hone _ _ eq_refl) as [O1 O2].
  - intros [= <- _]. split; [|done]. intros f Hf. apply O1. intros ->. specialize (Hin (dst, src) ltac:(left)). cbn in Hin. by rewrite Hf in Hin.
  - intros Hr. destruct (IH fs1 fs' r ltac:(intros x Hx; apply Hin; by right) Hr) as [I1 I2]. split.
    + intros f Hf. rewrite (I1 f Hf). apply O1. intros ->. specialize (Hin (dst, src) ltac:(left)). cbn in Hin. by rewrite Hf in Hin.
    + intros f b Hb Hs. apply I2; [|done]. by apply O2.
Qed.

(** C39: the first file wins.  A configuration that loading gives, from the explicit file or
    from those of the precedence, has for each name the cluster, user, context or extension
    of the first document that has one of that name, whole; the first current context that is
    set; and colors if any document sets them.  Each stanza says which file it is from, and
    its paths are made absolute, from the directory of that file, unless the rules say not
    to.  Every file has been read, without a name given twice, or is not there; the explicit
    file is there.  Loading writes only the destinations of migrations, and no file that
    was there. *)
Theorem load_first_wins rules fs fs' c :
  rules_Load rules fs = (fs', inr c) ->
  let files := if String.eqb (ExplicitPath rules) "" then Precedence rules else [ExplicitPath rules] in
  let as_read {B} (f : string -> B -> B) := if DoNotResolvePaths rules then fun _ b => b else f in
  Forall (fun f => absent fs' f \/ exists v, document fs' f = Some v /\ one_name v) files /\
  (ExplicitPath rules <> "" -> stat_fault faults (ExplicitPath rules) = None -> is_Some (fs' !! ExplicitPath rules)) /\
  (forall k, Clusters c !! k = first_named fs' files v1_clusters (as_read absolute_cluster) k) /\
  (forall k, AuthInfos c !! k = first_named fs' files v1_users (as_read absolute_user) k) /\
  (forall k, Contexts c !! k = first_named fs' files v1_contexts (fun _ x => x) k) /\
  (forall k, Extensions c !! k = first_of fs' files (fun _ v => named k (v1_extensions v))) /\
  (forall k, Preferences_Extensions (Prefs c) !! k = first_of fs' files (fun _ v => named k (v1_preferences_extensions v))) /\
  CurrentContext c = default "" (first_of fs' files (fun _ v => if String.eqb (v1_current_context v) "" then None else Some (v1_current_context v))) /\
  Colors (Prefs c) = existsb (fun f => if document fs' f is Some v then v1_colors v else false) files /\
  (forall f, MigrationRules rules !! f = None -> fs' !! f = fs !! f) /\
  (forall f b, fs !! f = Some b -> (forall err, stat_fault faults f = Some err -> IsNotExist (Os err) = false) -> fs' !! f = Some b).
Proof.
  intros Hl. cbv zeta. unfold rules_Load, bind at 1 in Hl. destruct (Migrate rules fs) as [fs1 [err|[]]] eqn:Hmig; [done|].
  set (files := if String.eqb (ExplicitPath rules) "" then Precedence rules else [ExplicitPath rules]).
  assert (Hfiles : (ExplicitPath rules <> "" -> stat_fault faults (ExplicitPath rules) = None -> is_Some (fs1 !! ExplicitPath rules)) /\
    bind (read_files files) (fun '(kubeconfigs, errlist) =>
      let config := if DoNotResolvePaths rules then merge_all kubeconfigs else ResolveLocalPaths wd (merge_all kubeconfigs) in
      match errlist with [] => ret config | _ => fail (Aggregate errlist) end) fs1 = (fs', inr c)).
  { unfold files. destruct (String.eqb_spec (ExplicitPath rules) "") as [He|He].
    - rewrite decide_True in Hl by done. split; [done|exact Hl].
    - rewrite decide_False in Hl by done. unfold bind at 1 2, attempt, os_Stat, content in Hl. rewrite decide_False in Hl by done.
      destruct (stat_fault faults (ExplicitPath rules)) as [e|].
      + destruct (IsNotExist (Os e)); [done|]. split; [done|exact Hl].
      + destruct (fs1 !! ExplicitPath rules); [|done]. split; [by eexists|exact Hl]. }
  destruct Hfiles as [Hexpl Hfiles]. unfold bind in Hfiles. destruct (read_files_exact files fs1) as (errlist & Hr & Hall). rewrite Hr in Hfiles.
  destruct errlist; [|done]. injection Hfiles as <- <-. specialize (Hall eq_refl).
  apply (Forall_impl _ (fun f => absent fs1 f \/ exists v c, document fs1 f = Some v /\ from_v1 v = Some c)) in Hall;
    [|intros f; apply config_in_document].
  set (cs := omap (config_in fs1) files). destruct (Migrate_keeps rules fs fs1 _ Hmig) as [Hm1 Hm2].
  assert (Hkey : forall B (part : v1Config -> list (string * B)) (sel : Config -> gmap string (stanza B)) k, keyed sel ->
    (forall f c, sel (relocate f c) = move f (sel c)) ->
    (forall v c, from_v1 v = Some c -> sel c !! k = at_file "" <$> named k (part v)) ->
    sel (merge_all cs) !! k = first_named fs1 files part (fun _ b => b) k).
  { intros B part sel k Hk Hrel Hsel. rewrite keyed_merge_all by done. apply first_key_of; [|done]. intros f v c Hf Hd Hc.
    rewrite Hrel, lookup_move, (Hsel v c Hc). by destruct (named k (part v)). }
  assert (Hplain : forall B (part : v1Config -> list (string * B)) (sel : Config -> gmap string B) k, keyed sel ->
    (forall f c, sel (relocate f c) = sel c) -> (forall v c, from_v1 v = Some c -> sel c !! k = named k (part v)) ->
    sel (merge_all cs) !! k = first_of fs1 files (fun _ v => named k (part v))).
  { intros B part sel k Hk Hrel Hsel. rewrite keyed_merge_all by done. apply first_key_of; [|done]. intros f v c Hf Hd Hc.
    by rewrite Hrel, (Hsel v c Hc). }
  split_and!.
  - eapply Forall_impl; [exact Hall|]. intros f [Ha|(v & c & Hv & Hc)]; [by left|right]. exists v. split; [done|by apply (from_v1_exact v c)].
  - exact Hexpl.
  - intros k. destruct (DoNotResolvePaths rules).
    { apply (Hkey _ v1_clusters Clusters); [apply Clusters_keyed|done|intros v c Hc; by apply (from_v1_exact v c)]. }
    cbn [Clusters ResolveLocalPaths]. rewrite lookup_fmap, (Hkey _ v1_clusters Clusters);
      [apply first_resolved, resolved_cluster|apply Clusters_keyed|done|intros v c Hc; by apply (from_v1_exact v c)].
  - intros k. destruct (DoNotResolvePaths rules).
    { apply (Hkey _ v1_users AuthInfos); [apply AuthInfos_keyed|done|intros v c Hc; by apply (from_v1_exact v c)]. }
    cbn [AuthInfos ResolveLocalPaths]. rewrite lookup_fmap, (Hkey _ v1_users AuthInfos);
      [apply first_resolved, resolved_user|apply AuthInfos_keyed|done|intros v c Hc; by apply (from_v1_exact v c)].
  - intros k. rewrite <- (Hkey _ v1_contexts Contexts); [by destruct (DoNotResolvePaths rules)|apply Contexts_keyed|done|].
    intros v c Hc. by apply (from_v1_exact v c).
  - intros k. rewrite <- (Hplain _ v1_extensions Extensions); [by destruct (DoNotResolvePaths rules)|apply Extensions_keyed|done|].
    intros v c Hc. by apply (from_v1_exact v c).
  - intros k. rewrite <- (Hplain _ v1_preferences_extensions (fun c => Preferences_Extensions (Prefs c)));
      [by destruct (DoNotResolvePaths rules)|apply Preferences_keyed|done|]. intros v c Hc. by apply (from_v1_exact v c).
  - transitivity (CurrentContext (merge_all cs)); [by destruct (DoNotResolvePaths rules)|]. rewrite context_merge_all. by apply first_context_of.
  - transitivity (Colors (Prefs (merge_all cs))); [by destruct (DoNotResolvePaths rules)|]. rewrite colors_merge_all. by apply colors_of.
  - exact Hm1.
  - exact Hm2.
Qed.

End files.

(** ** Two files *)

Module samples.

#[local] Existing Instance range_in_key_order.
#[local] Existing Instance overriding.

(** A file is a document, or empty. *)
Definition bytes : Type := option v1Config.
Definition is_empty (b : bytes) : bool := if b is None then true else false.
Definition unmarshal (b : bytes) : option v1Config := b.
Definition no_faults : Faults := mkFaults (fun _ => None) (fun _ => None) (fun _ => None) (fun _ => false).

Definition cluster (server : string) : Cluster := mkCluster server "" false "" "" "" false ∅.
Definition file (cs : gmap string Cluster) (context : string) : bytes :=
  Some (to_v1 (mkConfig (mkPreferences false ∅) (at_file "" <$> cs) ∅ ∅ context ∅)).

Definition files : gmap string bytes :=
  <["a" := file {[ "one" := cluster "http://one" ]} ""]>
  (<["b" := file (<["one" := cluster "http://other"]> {[ "two" := cluster "http://two" ]}) "x"]> ∅).

Definition rules (l : list string) : ClientConfigLoadingRules := mkRules "" l ∅ true.

(** Two files in their directories, with paths of their own, and users of the same name. *)
Definition authority (server ca : string) : Cluster := mkCluster server "" false ca "" "" false ∅.
Definition certified (certificate : string) : AuthInfo :=
  mkAuthInfo certificate "" "" "" "" "" "" "" [] ∅ "" "" None (Some (mkExec "bin/login" [] [] "v1" "" false "Never")) ∅.
Definition homes : gmap string bytes :=
  <["/home/u/a" := Some (mkV1 false [] [("one", authority "http://one" "ca.pem")] [("me", certified "../me.crt")] [] "" [])]>
  {[ "/etc/b" := Some (mkV1 true [] [("one", authority "http://other" "/ca.pem"); ("two", authority "http://two" "")] [("me", certified "x.crt")]
       [("x", mkContext "two" "me" "ns" ∅)] "x" [])]}.

Definition resolving (l : list string) : ClientConfigLoadingRules := mkRules "" l ∅ false.

Definition loaded : Config :=
  match rules_Load bytes is_empty unmarshal no_faults "/wd" (resolving ["/home/u/a"; "missing"; "/etc/b"]) homes with (_, inr c) => c | _ => NewConfig end.

Lemma load_first_wins_witness :
  rules_Load bytes is_empty unmarshal no_faults "/wd" (resolving ["/home/u/a"; "missing"; "/etc/b"]) homes = (homes, inr loaded) /\
  Clusters loaded !! "one" = Some (mkStanza "/home/u/a" (authority "http://one" "/home/u/ca.pem")) /\
  ((fun s => (ClientCertificate (body s), Command <$> Exec (body s))) <$> AuthInfos loaded !! "me" = Some ("/home/me.crt", Some "/home/u/bin/login")) /\
  Contexts loaded !! "x" = Some (mkStanza "/etc/b" (mkContext "two" "me" "ns" ∅)) /\
  CurrentContext loaded = "x" /\ Colors (Prefs loaded) = true.
Proof.
  assert (Hl : rules_Load bytes is_empty unmarshal no_faults "/wd" (resolving ["/home/u/a"; "missing"; "/etc/b"]) homes = (homes, inr loaded))
    by (vm_compute; reflexivity).
  split; [exact Hl|].
  destruct (load_first_wins bytes is_empty unmarshal no_faults "/wd" _ homes homes loaded Hl) as (_ & _ & Hc & Hu & Hx & _ & _ & Hcur & Hcol & _).
  rewrite (Hc "one"), (Hu "me"), (Hx "x"), Hcur, Hcol. split_and!; vm_compute; reflexivity.
Defined.

End samples.
