(* ===== verification/KubeconfigModify.v ===== *)
(** * Changing configuration files

    tools/clientcmd/config.go: [ModifyConfig] compares a configuration with what the files
    say now, finds the file of every stanza that differs, and writes it there.  The access
    to the files is the class [ConfigAccess], with the loading rules of loader.go and
    [PathOptions] as instances.  A class method is what the slice that [GetLoadingPrecedence]
    returns leaves of the access when it is sorted: the rules return their own.  The class
    [Lawful] is what the round trip needs of an access: all path options have it, and the
    rules whose precedence is in the order of the names. *)

From S2P Require Import Prelude Objects GoStrings Kubeconfig.
From Stdlib Require Import Ascii.
#[local] Open Scope Z_scope.

Section access.
Variable bytes : Type.
Variable empty_bytes : bytes.
Variable is_empty : bytes -> bool.
Variable marshal : v1Config -> bytes.
Variable unmarshal : bytes -> option v1Config.
Variable faults : Faults.
Context `{MapRange} `{Mergo}.
Variable wd : string.

#[local] Notation FS := (gmap string bytes).
#[local] Notation M := (M bytes).
#[local] Notation ret := (ret bytes).
#[local] Notation fail := (fail bytes).
#[local] Notation bind := (bind bytes).
#[local] Notation attempt := (attempt bytes).
#[local] Notation for_each := (for_each bytes).
#[local] Notation os_Stat := (os_Stat bytes faults).
#[local] Notation getConfigFromFile := (getConfigFromFile bytes is_empty unmarshal faults).
#[local] Notation WriteToFile := (WriteToFile bytes marshal faults).
#[local] Notation lockFile := (lockFile bytes empty_bytes faults).
#[local] Notation unlockFile := (unlockFile bytes faults).

Class ConfigAccess (A : Type) : Type := {
  GetLoadingPrecedence : A -> list string;
  precedence_sorted : A -> A;
  GetStartingConfig : A -> M Config;
  GetDefaultFilename : A -> M string;
  IsExplicitFile : A -> bool;
  GetExplicitFile : A -> string
}.

Definition sort_Strings (l : list string) : list string := merge_sort String.le l.

(** The rules hand out their own slice. *)
#[global] Instance rules_access : ConfigAccess ClientConfigLoadingRules := {|
  GetLoadingPrecedence := rules_GetLoadingPrecedence;
  precedence_sorted rules :=
    if decide (ExplicitPath rules = "")
    then mkRules (ExplicitPath rules) (sort_Strings (Precedence rules)) (MigrationRules rules) (DoNotResolvePaths rules)
    else rules;
  GetStartingConfig := rules_GetStartingConfig bytes is_empty unmarshal faults wd;
  GetDefaultFilename := rules_GetDefaultFilename bytes faults;
  IsExplicitFile rules := negb (String.eqb (ExplicitPath rules) "");
  GetExplicitFile := ExplicitPath
|}.

(** ** PathOptions *)

(** [os.Getenv]; [filepath.SplitList] of a value that is not empty. *)
Variable os_Getenv : string -> string.
Definition filepath_SplitList (path : string) : list string := strings_Split path ":"%char.

Definition deduplicate (s : list string) : list string :=
  rev (fold_left (fun ret x => if decide (x ∈ ret) then ret else x :: ret) s []).

Record PathOptions : Type := mkPathOptions { GlobalFile : string; EnvVar : string; LoadingRules : ClientConfigLoadingRules }.

Definition GetEnvVarFiles (o : PathOptions) : list string :=
  if decide (EnvVar o = "") then []
  else if decide (os_Getenv (EnvVar o) = "") then []
  else deduplicate (filepath_SplitList (os_Getenv (EnvVar o))).

Definition path_IsExplicitFile (o : PathOptions) : bool := negb (String.eqb (ExplicitPath (LoadingRules o)) "").

Definition path_GetLoadingPrecedence (o : PathOptions) : list string :=
  if path_IsExplicitFile o then [ExplicitPath (LoadingRules o)]
  else match GetEnvVarFiles o with [] => [GlobalFile o] | envVarFiles => envVarFiles end.

Definition with_precedence (rules : ClientConfigLoadingRules) (l : list string) : ClientConfigLoadingRules :=
  mkRules (ExplicitPath rules) l (MigrationRules rules) (DoNotResolvePaths rules).

Definition path_GetStartingConfig (o : PathOptions) : M Config :=
  rules_GetStartingConfig bytes is_empty unmarshal faults wd (with_precedence (LoadingRules o) (path_GetLoadingPrecedence o)).

Definition path_GetDefaultFilename (o : PathOptions) : M string :=
  if path_IsExplicitFile o then ret (ExplicitPath (LoadingRules o))
  else
    match GetEnvVarFiles o with
    | [] => ret (GlobalFile o)
    | [envVarFile] => ret envVarFile
    | envVarFiles =>
        bind (first_existing bytes faults envVarFiles) (fun r =>
          ret (match r with Some filename => filename | None => default "" (last envVarFiles) end))
    end.

#[global] Instance path_access : ConfigAccess PathOptions := {|
  GetLoadingPrecedence := path_GetLoadingPrecedence;
  precedence_sorted o := o;
  GetStartingConfig := path_GetStartingConfig;
  GetDefaultFilename := path_GetDefaultFilename;
  IsExplicitFile := path_IsExplicitFile;
  GetExplicitFile o := ExplicitPath (LoadingRules o)
|}.

(** *** The defaults, where the home directory is what HOME says *)

Definition RecommendedConfigDir : string := path_Join [os_Getenv "HOME"; ".kube"].
Definition RecommendedHomeFile : string := path_Join [RecommendedConfigDir; "config"].

Definition currentMigrationRules : gmap string string :=
  {[ RecommendedHomeFile := path_Join [os_Getenv "HOME"; ".kube"; ".kubeconfig"] ]}.

Definition NewDefaultClientConfigLoadingRules : ClientConfigLoadingRules :=
  let envVarFiles := os_Getenv "KUBECONFIG" in
  mkRules "" (if decide (envVarFiles = "") then [RecommendedHomeFile] else deduplicate (filepath_SplitList envVarFiles)) currentMigrationRules false.

Definition NewDefaultPathOptions : PathOptions :=
  let r := NewDefaultClientConfigLoadingRules in
  mkPathOptions RecommendedHomeFile "KUBECONFIG" (mkRules (ExplicitPath r) (Precedence r) (MigrationRules r) true).

(** ** ModifyConfig *)

(** [defer]: the action after, whatever the outcome. *)
Definition deferred {A} (m : M A) (after : M unit) : M A := fun fs =>
  let '(fs, r) := m fs in
  let '(fs, _) := after fs in (fs, r).

Fixpoint with_locks {A} (filenames : list string) (m : M A) : M A :=
  match filenames with
  | [] => m
  | filename :: filenames => bind (lockFile filename) (fun _ => deferred (with_locks filenames m) (unlockFile filename))
  end.

(** The three maps of a configuration. *)
Record lens (B : Type) : Type := mkLens {
  get : Config -> gmap string (stanza B);
  put : gmap string (stanza B) -> Config -> Config
}.
Arguments get {B} l.
Arguments put {B} l.

Definition clusters : lens Cluster :=
  mkLens _ Clusters (fun m c => mkConfig (Prefs c) m (AuthInfos c) (Contexts c) (CurrentContext c) (Extensions c)).
Definition users : lens AuthInfo :=
  mkLens _ AuthInfos (fun m c => mkConfig (Prefs c) (Clusters c) m (Contexts c) (CurrentContext c) (Extensions c)).
Definition contexts : lens Context :=
  mkLens _ Contexts (fun m c => mkConfig (Prefs c) (Clusters c) (AuthInfos c) m (CurrentContext c) (Extensions c)).

Definition with_context (x : string) (c : Config) : Config :=
  mkConfig (Prefs c) (Clusters c) (AuthInfos c) (Contexts c) x (Extensions c).
Definition with_preferences (p : Preferences) (c : Config) : Config :=
  mkConfig p (Clusters c) (AuthInfos c) (Contexts c) (CurrentContext c) (Extensions c).

(** Reads a file, changes what it says and writes it back. *)
Definition update_file (filename : string) (f : Config -> Config) : M unit :=
  bind (getConfigFromFile filename) (fun config => WriteToFile (f config) filename).

Section modify.
Context {A : Type} `{ConfigAccess A}.
Variable configAccess : A.

(** The file a stanza goes to. *)
Definition destination {B} (s : stanza B) : M string :=
  if decide (LocationOfOrigin s = "") then GetDefaultFilename configAccess else ret (LocationOfOrigin s).

Definition differs {B} `{EqDecision B} (starting : gmap string (stanza B)) (key : string) (s : stanza B) : bool :=
  negb (bool_decide (starting !! key = Some s)).

(** The loops over the clusters and the users. *)
Definition write_changed {B} `{EqDecision B} (l : lens B) (refs : (string -> result string) -> B -> result B) (relativizePaths : bool)
    (startingConfig newConfig : Config) : M unit :=
  for_each (range (get l newConfig)) (fun '(key, s) =>
    if differs (get l startingConfig) key s
    then
      bind (destination s) (fun destinationFile =>
      bind (getConfigFromFile destinationFile) (fun configToWrite =>
        let t := mkStanza destinationFile (body s) in
        match (if relativizePaths then relativize_stanza wd refs t else inr t) with
        | inl err => fail err
        | inr t => WriteToFile (put l (<[key := t]> (get l configToWrite)) configToWrite) destinationFile
        end))
    else ret tt).

(** The loop over the contexts: a file is read once, and written when all are in place. *)
Fixpoint place_contexts (startingConfig : Config) (l : list (string * stanza Context)) (seenConfigs : gmap string Config) : M (gmap string Config) :=
  match l with
  | [] => ret seenConfigs
  | (key, context) :: l =>
      if differs (Contexts startingConfig) key context
      then
        bind (destination context) (fun destinationFile =>
        bind (match seenConfigs !! destinationFile with
              | Some configToWrite => ret configToWrite
              | None => getConfigFromFile destinationFile
              end) (fun configToWrite =>
          place_contexts startingConfig l
            (<[destinationFile := put contexts (<[key := context]> (Contexts configToWrite)) configToWrite]> seenConfigs)))
      else place_contexts startingConfig l seenConfigs
  end.

Definition write_contexts (startingConfig newConfig : Config) : M unit :=
  bind (place_contexts startingConfig (range (Contexts newConfig)) ∅) (fun seenConfigs =>
    for_each (range seenConfigs) (fun '(destinationFile, configToWrite) => WriteToFile configToWrite destinationFile)).

Definition delete_missing {B} (l : lens B) (startingConfig newConfig : Config) : M unit :=
  for_each (range (get l startingConfig)) (fun '(key, s) =>
    match get l newConfig !! key with
    | Some _ => ret tt
    | None => bind (destination s) (fun destinationFile => update_file destinationFile (fun c => put l (delete key (get l c)) c))
    end).

(** Clearing the context: the first file that sets it. *)
Fixpoint clear_context (newCurrentContext : string) (filenames : list string) : M unit :=
  match filenames with
  | [] => fail NoConfigForContext
  | file :: filenames =>
      bind (attempt (os_Stat file)) (fun r =>
        match r with
        | inl _ => clear_context newCurrentContext filenames
        | inr _ =>
            bind (getConfigFromFile file) (fun currConfig =>
              if decide (CurrentContext currConfig = "") then clear_context newCurrentContext filenames
              else WriteToFile (with_context newCurrentContext currConfig) file)
        end)
  end.

Definition writeCurrentContext (newCurrentContext : string) : M unit :=
  bind (GetStartingConfig configAccess) (fun startingConfig =>
    if decide (CurrentContext startingConfig = newCurrentContext) then ret tt
    else if IsExplicitFile configAccess then update_file (GetExplicitFile configAccess) (with_context newCurrentContext)
    else if decide (newCurrentContext = "") then clear_context newCurrentContext (GetLoadingPrecedence configAccess)
    else bind (GetDefaultFilename configAccess) (fun destinationFile => update_file destinationFile (with_context newCurrentContext))).

Fixpoint change_preferences (newPrefs : Preferences) (filenames : list string) : M unit :=
  match filenames with
  | [] => fail NoConfigForPreferences
  | file :: filenames =>
      bind (getConfigFromFile file) (fun currConfig =>
        if decide (Prefs currConfig = newPrefs) then change_preferences newPrefs filenames
        else WriteToFile (with_preferences newPrefs currConfig) file)
  end.

Definition writePreferences (newPrefs : Preferences) : M unit :=
  bind (GetStartingConfig configAccess) (fun startingConfig =>
    if decide (Prefs startingConfig = newPrefs) then ret tt
    else if IsExplicitFile configAccess then update_file (GetExplicitFile configAccess) (with_preferences newPrefs)
    else change_preferences newPrefs (GetLoadingPrecedence configAccess)).

(** Under the locks. *)
Definition modify_locked (newConfig : Config) (relativizePaths : bool) : M unit :=
  bind (GetStartingConfig configAccess) (fun startingConfig =>
    if decide (startingConfig = newConfig) then ret tt
    else
      bind (if decide (CurrentContext startingConfig = CurrentContext newConfig) then ret tt
            else writeCurrentContext (CurrentContext newConfig)) (fun _ =>
      bind (if decide (Prefs startingConfig = Prefs newConfig) then ret tt else writePreferences (Prefs newConfig)) (fun _ =>
      bind (write_changed clusters map_cluster_refs relativizePaths startingConfig newConfig) (fun _ =>
      bind (write_contexts startingConfig newConfig) (fun _ =>
      bind (write_changed users map_user_refs relativizePaths startingConfig newConfig) (fun _ =>
      bind (delete_missing clusters startingConfig newConfig) (fun _ =>
      bind (delete_missing contexts startingConfig newConfig) (fun _ =>
      delete_missing users startingConfig newConfig)))))))).

End modify.

(** The access as it is afterwards, and the change of the files. *)
Definition ModifyConfig {A} `{ConfigAccess A} (UseModifyConfigLock : bool) (configAccess : A) (newConfig : Config) (relativizePaths : bool) :
    A * M unit :=
  if UseModifyConfigLock
  then
    let possibleSources := sort_Strings (GetLoadingPrecedence configAccess) in
    let configAccess := precedence_sorted configAccess in
    (configAccess, with_locks possibleSources (modify_locked configAccess newConfig relativizePaths))
  else (configAccess, modify_locked configAccess newConfig relativizePaths).

(** [persister.Persist] *)
Definition Persist {A} `{ConfigAccess A} (UseModifyConfigLock : bool) (configAccess : A) (user : string) (config : gmap string string) : M unit :=
  bind (GetStartingConfig configAccess) (fun newConfig =>
    match AuthInfos newConfig !! user with
    | Some s =>
        match AuthProvider (body s) with
        | Some p =>
            let b := body s in
            let authInfo := mkAuthInfo (ClientCertificate b) (ClientCertificateData b) (ClientKey b) (ClientKeyData b) (Token b) (TokenFile b)
              (Impersonate b) (ImpersonateUID b) (ImpersonateGroups b) (ImpersonateUserExtra b) (Username b) (Password b)
              (Some (mkAuthProvider (AP_Name p) config)) (Exec b) (AuthInfo_Extensions b) in
            (ModifyConfig UseModifyConfigLock configAccess
              (put users (<[user := mkStanza (LocationOfOrigin s) authInfo]> (AuthInfos newConfig)) newConfig) false).2
        | None => ret tt
        end
    | None => ret tt
    end).

(** ** What a change of the files leaves *)

(** The codec gives back what it was given. *)
Record codec_ok : Prop := mkCodecOk {
  unmarshal_marshal v : unmarshal (marshal v) = Some v;
  marshal_filled v : is_empty (marshal v) = false
}.

(** A file that can be looked at, read and written, and read if it is there. *)
Definition sound (fs : FS) (f : string) : Prop :=
  f <> "" /\ stat_fault faults f = None /\ read_fault faults f = None /\ write_fault faults f = None /\
  forall b, fs !! f = Some b -> exists c, Load bytes is_empty unmarshal b = inr c.

(** What a file says; nothing if it is not there. *)
Definition view (fs : FS) (f : string) : Config :=
  match fs !! f with
  | Some b => match Load bytes is_empty unmarshal b with inr c => relocate "" c | inl _ => NewConfig end
  | None => NewConfig
  end.

Definition loaded (fs : FS) (f : string) : option Config := if fs !! f is Some _ then Some (relocate f (view fs f)) else None.
Definition merged (fs : FS) (prec : list string) : Config := merge_all (omap (loaded fs) prec).

(** What loading makes of the merged files. *)
Definition as_loaded (resolving : bool) (c : Config) : Config := if resolving then ResolveLocalPaths wd c else c.

(** The migrations have been done: the destination is there, or no source is or will be. *)
Definition migrated (rules : gmap string string) (prec : list string) (fs : FS) : Prop :=
  forall destination source, rules !! destination = Some source ->
    destination <> "" /\ stat_fault faults destination = None /\ stat_fault faults source = None /\
    (is_Some (fs !! destination) \/ fs !! source = None /\ source ∉ prec /\ source ∉ lockName <$> prec).

(** An access as the code uses it: it loads the files of its precedence, with or without
    resolving their paths, which sorting does not change; its default file is one of them,
    those before it are not there, and it stays the default when other files have not come
    up; an explicit file is the only one. *)
Class Lawful {A} `{HA : ConfigAccess A} (a : A) (prec : list string) : Type := {
  default_of : FS -> string;
  migrations : gmap string string;
  resolving : bool;
  lawful_precedence : GetLoadingPrecedence a = prec;
  lawful_sorted : precedence_sorted a = a;
  lawful_start fs : Forall (sound fs) prec -> migrated migrations prec fs ->
    GetStartingConfig a fs = (fs, inr (as_loaded resolving (merged fs prec)));
  lawful_default fs : Forall (sound fs) prec -> GetDefaultFilename a fs = (fs, inr (default_of fs));
  lawful_first fs : exists l1 l2, prec = l1 ++ default_of fs :: l2 /\ Forall (fun f => fs !! f = None) l1;
  lawful_stable fs fs' : (forall f, f ∈ prec -> is_Some (fs !! f) -> is_Some (fs' !! f)) ->
    (forall f, f ∈ prec -> is_Some (fs' !! f) -> is_Some (fs !! f) \/ f = default_of fs) -> default_of fs' = default_of fs;
  lawful_explicit : IsExplicitFile a = true -> prec = [GetExplicitFile a];
  lawful_NoDup : NoDup prec
}.

Lemma migrated_stays rules prec fs fs' : migrated rules prec fs ->
  (forall f, is_Some (fs !! f) -> is_Some (fs' !! f)) ->
  (forall f, is_Some (fs' !! f) -> is_Some (fs !! f) \/ f ∈ prec \/ f ∈ lockName <$> prec) -> migrated rules prec fs'.
Proof.
  intros Hm Hkeep Hnew dst src Hr. destruct (Hm dst src Hr) as (H1 & H2 & H3 & H4). split_and!; try done.
  destruct H4 as [H4|(H4 & H5 & H6)]; [left; by apply Hkeep|right]. split_and!; try done.
  apply eq_None_not_Some. intros Hs. apply Hnew in Hs as [Hs|[Hs|Hs]]; [rewrite H4 in Hs; by destruct Hs|done..].
Qed.

(** *** Paths that come back *)

(** No path, or an absolute one, clean if it is to be made relative. *)
Definition whole (relative : bool) (p : string) : Prop := p = "" \/ rooted p = true /\ (relative = true -> path_Clean p = p).

Definition whole_cluster (relative : bool) (base : string) (c : Cluster) : Prop := whole relative (CertificateAuthority c).

(** A command that is made relative must not become a bare name, which is looked for in
    PATH. *)
Definition whole_user (relative : bool) (base : string) (u : AuthInfo) : Prop :=
  whole relative (ClientCertificate u) /\ whole relative (ClientKey u) /\ whole relative (TokenFile u) /\
  forall e, Exec u = Some e -> strings_Contains (Command e) "/" = true ->
    whole relative (Command e) /\
    (relative = true -> forall r, relativize_path base (Command e) = inr r -> strings_Contains r "/" = true).

Lemma Rel_rooted base targ : rooted base = true -> rooted targ = true -> exists rel, filepath_Rel base targ = Some rel.
Proof.
  intros Hb Ht. unfold filepath_Rel. case_decide; [by eexists|].
  destruct (components_Clean base) as [Hcb Hrb]. destruct (components_Clean targ) as [Hct Hrt].
  rewrite (decide_False (P := path_Clean base = ".")) by (intros Hd; rewrite Hd in Hrb; by rewrite Hb in Hrb).
  rewrite Hrb, Hrt, Hb, Ht. cbn [Bool.eqb negb]. rewrite Hcb.
  destruct (strip_common _ _) as [bs ts] eqn:Hs. apply strip_common_spec in Hs as (c & Hc & _).
  rewrite bool_decide_false; [by eexists|]. intros Hh. pose proof (rooted_names base Hb) as Hn. rewrite Hc in Hn.
  apply Forall_app in Hn as [_ Hn]. destruct bs as [|b bs]; [done|]. injection Hh as ->. apply Forall_cons in Hn as [(_ & _ & Hx & _) _]. done.
Qed.

Lemma whole_resolves relative base p : whole relative p -> resolve_path base p = p.
Proof. unfold resolve_path. intros [->|[Hr _]]; [done|]. rewrite Hr. by case_decide. Qed.

Lemma whole_returns base p : rooted base = true -> whole true p ->
  exists r, relativize_path base p = inr r /\ resolve_path base r = p.
Proof.
  intros Hb [->|[Hr Hc]]; [by exists ""|]. assert (Hne : p <> "") by (by intros ->).
  assert (Hrel : exists r, relativize_path base p = inr r).
  { unfold relativize_path, MakeRelative. rewrite !decide_False by done. destruct (Rel_rooted base p Hb Hr) as [rel ->].
    rewrite Hr. destruct (strings_HasPrefix rel "../"); by eexists. }
  destruct Hrel as [r Hrel]. exists r. split; [done|]. destruct (relative_round_trip base p r Hb Hr Hrel) as [->|[_ ?]]; [by apply Hc|done].
Qed.

(** The references of the stanzas of a map, of which contexts have none. *)
Class LensRefs {B} (l : lens B) : Type := {
  refs : (string -> result string) -> B -> result B;
  fit : bool -> string -> B -> Prop;
  refs_resolve relative base b : fit relative base b -> refs (fun p => inr (resolve_path base p)) b = inr b;
  refs_return base b : rooted base = true -> fit true base b ->
    exists b', refs (relativize_path base) b = inr b' /\ refs (fun p => inr (resolve_path base p)) b' = inr b;
  refs_loaded c : get l (ResolveLocalPaths wd c) = resolved wd refs <$> get l c
}.

#[local] Instance clusters_refs : LensRefs clusters.
Proof.
  refine {| refs := map_cluster_refs; fit := whole_cluster |}; [..|done].
  - intros relative base b Hf. unfold map_cluster_refs. rewrite (whole_resolves relative) by done. by destruct b.
  - intros base b Hb Hf. destruct (whole_returns base _ Hb Hf) as (r & H1 & H2). unfold map_cluster_refs. rewrite H1. eexists. split; [done|].
    cbn. rewrite H2. by destruct b.
Defined.

#[local] Instance users_refs : LensRefs users.
Proof.
  refine {| refs := map_user_refs; fit := whole_user |}; [..|done].
  - intros relative base b (H1 & H2 & H3 & H4). unfold map_user_refs. rewrite !(whole_resolves relative) by done. destruct b as [? ? ? ? ? ? ? ? ? ? ? ? ? ex ?]. cbn in *.
    destruct ex as [e|]; [|done]. unfold map_command. destruct (strings_Contains (Command e) "/") eqn:He; [|done].
    destruct (H4 e eq_refl He) as [Hw _]. rewrite (whole_resolves relative) by done. by destruct e.
  - intros base b Hb (H1 & H2 & H3 & H4). unfold map_user_refs.
    destruct (whole_returns base _ Hb H1) as (r1 & -> & R1). destruct (whole_returns base _ Hb H2) as (r2 & -> & R2).
    destruct (whole_returns base _ Hb H3) as (r3 & -> & R3). destruct b as [? ? ? ? ? ? ? ? ? ? ? ? ? ex ?]. cbn in *.
    destruct ex as [e|]; [|eexists; split; [done|]; cbn; by rewrite R1, R2, R3]. unfold map_command at 1.
    destruct (strings_Contains (Command e) "/") eqn:He.
    + destruct (H4 e eq_refl He) as [Hw Hbare]. destruct (whole_returns base _ Hb Hw) as (r & Hr & R). rewrite Hr. eexists. split; [done|]. cbn.
      rewrite R1, R2, R3. unfold map_command. cbn [Command]. rewrite (Hbare eq_refl r Hr), R. by destruct e.
    + eexists. split; [done|]. cbn. rewrite R1, R2, R3. unfold map_command. by rewrite He.
Defined.

#[local] Instance contexts_refs : LensRefs contexts.
Proof.
  refine {| refs := fun _ b => inr b; fit := fun _ _ _ => True |}; [done|by eexists|]. intros c. symmetry.
  cbn [get contexts ResolveLocalPaths Contexts]. etransitivity; [|apply map_fmap_id]. apply map_fmap_ext. intros k [f b] _.
  unfold resolved, resolve_stanza. cbn. by case_decide.
Defined.

Class LensOk {B} (l : lens B) : Prop := {
  get_put m c : get l (put l m c) = m;
  put_put m m' c : put l m (put l m' c) = put l m c;
  put_get c : put l (get l c) c = c;
  relocate_put f m c : relocate f (put l m c) = put l (move f m) (relocate f c);
  get_relocate f c : get l (relocate f c) = move f (get l c);
  get_keyed : keyed (get l)
}.

#[local] Instance clusters_ok : LensOk clusters.
Proof. split; try (by intros); [by intros []|apply Clusters_keyed]. Qed.
#[local] Instance users_ok : LensOk users.
Proof. split; try (by intros); [by intros []|apply AuthInfos_keyed]. Qed.
#[local] Instance contexts_ok : LensOk contexts.
Proof. split; try (by intros); [by intros []|apply Contexts_keyed]. Qed.

Lemma relocate_New f : relocate f NewConfig = NewConfig.
Proof. unfold relocate, move. cbn. by rewrite !fmap_empty. Qed.

Lemma view_plain fs f : relocate "" (view fs f) = view fs f.
Proof. unfold view. destruct (fs !! f) as [b|]; [|apply relocate_New]. destruct (Load _ _ _ b); [apply relocate_New|apply relocate_relocate]. Qed.

Lemma move_insert {B} f k (s : stanza B) m : move f (<[k := s]> m) = <[k := mkStanza f (body s)]> (move f m).
Proof. unfold move. by rewrite fmap_insert. Qed.

Lemma move_delete {B} f k (m : gmap string (stanza B)) : move f (delete k m) = delete k (move f m).
Proof. unfold move. by rewrite fmap_delete. Qed.

Section codec.
Context (Hcodec : codec_ok).

Lemma Load_Write c : Load bytes is_empty unmarshal (Write bytes marshal c) = inr (relocate "" c).
Proof. unfold Load, Write. by rewrite (marshal_filled Hcodec), (unmarshal_marshal Hcodec), v1_round_trip. Qed.

Lemma view_write fs f g c : view (<[f := Write bytes marshal c]> fs) g = if decide (g = f) then relocate "" c else view fs g.
Proof.
  unfold view. destruct (decide (g = f)) as [->|Hne]; [|by rewrite lookup_insert_ne].
  rewrite lookup_insert_eq, Load_Write. apply relocate_relocate.
Qed.

Lemma sound_write fs f g c : sound fs g -> sound (<[f := Write bytes marshal c]> fs) g.
Proof.
  intros (H1 & H2 & H3 & H4 & H5). split_and!; try done. intros b. destruct (decide (f = g)) as [->|Hne].
  - rewrite lookup_insert_eq. intros [= <-]. eexists. apply Load_Write.
  - rewrite lookup_insert_ne by done. apply H5.
Qed.

Lemma LoadFromFile_sound fs f : sound fs f ->
  LoadFromFile bytes is_empty unmarshal faults f fs =
    (fs, match fs !! f with Some _ => inr (relocate f (view fs f)) | None => inl (Os (NotExist f)) end).
Proof.
  intros (Hne & _ & Hr & _ & Hd). unfold LoadFromFile, Kubeconfig.bind, os_ReadFile, content, view. rewrite decide_False by done.
  destruct (fs !! f) as [b|] eqn:Hb; [|done]. rewrite Hr. destruct (Hd b eq_refl) as [c Hc]. rewrite Hc. cbn.
  by rewrite relocate_relocate.
Qed.

Lemma config_in_sound fs f : sound fs f -> config_in bytes is_empty unmarshal faults fs f = loaded fs f.
Proof. intros Hs. unfold config_in, loaded. rewrite LoadFromFile_sound by done. by destruct (fs !! f). Qed.

Lemma getConfigFromFile_sound fs f : sound fs f -> getConfigFromFile f fs = (fs, inr (relocate f (view fs f))).
Proof.
  intros Hs. unfold Kubeconfig.getConfigFromFile, Kubeconfig.bind, Kubeconfig.attempt. rewrite LoadFromFile_sound by done.
  unfold view. destruct (fs !! f); [done|]. cbn. by rewrite relocate_New.
Qed.

Lemma WriteToFile_sound fs f c : sound fs f -> WriteToFile c f fs = (<[f := Write bytes marshal c]> fs, inr tt).
Proof. intros (Hne & _ & _ & Hw & _). unfold Kubeconfig.WriteToFile, os_WriteFile. rewrite Hw. by rewrite decide_False. Qed.

Lemma update_file_sound fs f g : sound fs f ->
  update_file f g fs = (<[f := Write bytes marshal (g (relocate f (view fs f)))]> fs, inr tt).
Proof. intros Hs. unfold update_file, Kubeconfig.bind. rewrite getConfigFromFile_sound by done. by apply WriteToFile_sound. Qed.

(** *** What loading finds *)

(** The first file of the precedence that has a key. *)
Definition found {B} (files : list string) (V : string -> option (stanza B)) : option (stanza B) :=
  head (omap (fun f => (fun s => mkStanza f (body s)) <$> V f) files).

Lemma merged_key {B} (l : lens B) `{!LensOk l} files fs k : get l (merged fs files) !! k = found files (fun f => get l (view fs f) !! k).
Proof.
  unfold merged. rewrite keyed_merge_all by apply get_keyed. unfold first_key, found. rewrite omap_omap. f_equal.
  apply list_omap_ext, Forall2_same_length_lookup_2; [done|]. intros i f f' Hf Hf'. rewrite Hf in Hf'. injection Hf' as <-.
  unfold loaded. destruct (fs !! f) as [b|] eqn:Hb; cbn.
  - by rewrite get_relocate, lookup_move.
  - unfold view. rewrite Hb. pose proof (get_keyed (l := l)) as [HN _]. by rewrite HN, lookup_empty.
Qed.

Lemma found_Some {B} files (V : string -> option (stanza B)) s0 : found files V = Some s0 ->
  exists l1 f0 l2 v, files = l1 ++ f0 :: l2 /\ Forall (fun f => V f = None) l1 /\ V f0 = Some v /\ s0 = mkStanza f0 (body v).
Proof.
  unfold found. induction files as [|f fs IH]; [done|]. cbn [omap list_omap]. destruct (V f) as [v|] eqn:Hv; cbn.
  - intros [= <-]. by exists [], f, fs, v.
  - intros Hs. destruct (IH Hs) as (l1 & f0 & l2 & v & -> & H1 & H2 & H3). exists (f :: l1), f0, l2, v. split_and!; auto.
Qed.

Lemma found_first {B} files (V : string -> option (stanza B)) l1 f0 l2 v :
  files = l1 ++ f0 :: l2 -> Forall (fun f => V f = None) l1 -> V f0 = Some v -> found files V = Some (mkStanza f0 (body v)).
Proof.
  unfold found. intros ->. induction 1 as [|f l1 Hf _ IH]; intros Hv; cbn [app omap list_omap]; [by rewrite Hv|]. rewrite Hf. by apply IH.
Qed.

Lemma found_None {B} files (V : string -> option (stanza B)) : found files V = None <-> forall f, f ∈ files -> V f = None.
Proof.
  unfold found. induction files as [|f fs IH]; [split; [by intros _ f ?%elem_of_nil|done]|]. cbn [omap list_omap].
  destruct (V f) as [v|] eqn:Hv; cbn.
  - split; [done|]. intros Hall. rewrite Hall in Hv; [done|left].
  - rewrite IH. split; [intros Hall g [->|Hg]%elem_of_cons; auto|intros Hall g Hg; apply Hall; by right].
Qed.

(** What is not kept by stanza. *)
Lemma merged_map {B} (sel : Config -> gmap string B) files fs k :
  keyed sel -> (forall f c, sel (relocate f c) = sel c) ->
  sel (merged fs files) !! k = head (omap (fun f => sel (view fs f) !! k) files).
Proof.
  intros Hk Hr. unfold merged. rewrite keyed_merge_all by done. unfold first_key. rewrite omap_omap. f_equal.
  apply list_omap_ext, Forall2_same_length_lookup_2; [done|]. intros i f f' Hf Hf'. rewrite Hf in Hf'. injection Hf' as <-.
  unfold loaded. destruct (fs !! f) as [b|] eqn:Hb; cbn; [by rewrite Hr|]. unfold view. rewrite Hb. destruct Hk as [HN _]. by rewrite HN, lookup_empty.
Qed.

Lemma merged_colors files fs : Colors (Prefs (merged fs files)) = existsb (fun f => Colors (Prefs (view fs f))) files.
Proof.
  unfold merged. rewrite colors_merge_all. induction files as [|f files IH]; [done|]. cbn [omap list_omap existsb]. unfold loaded at 1.
  destruct (fs !! f) as [b|] eqn:Hb; cbn [existsb]; rewrite IH; [done|]. unfold view at 2. by rewrite Hb.
Qed.

Lemma merged_context files fs :
  CurrentContext (merged fs files) = default "" (head (filter (fun x => x <> "") ((fun f => CurrentContext (view fs f)) <$> files))).
Proof.
  unfold merged. rewrite context_merge_all. unfold first_context. do 2 f_equal. induction files as [|f files IH]; [done|].
  cbn [omap list_omap]. rewrite fmap_cons. unfold loaded at 1. destruct (fs !! f) as [b|] eqn:Hb.
  - rewrite fmap_cons, !filter_cons. cbn [CurrentContext relocate]. by rewrite IH.
  - rewrite IH, filter_cons. rewrite decide_False; [done|]. unfold view. rewrite Hb. intros Hn. by apply Hn.
Qed.

(** The same preferences and extensions in every file. *)
Lemma merged_rest files fs fs' : (forall f, f ∈ files -> Prefs (view fs' f) = Prefs (view fs f) /\ Extensions (view fs' f) = Extensions (view fs f)) ->
  Prefs (merged fs' files) = Prefs (merged fs files) /\ Extensions (merged fs' files) = Extensions (merged fs files).
Proof.
  intros Hall.
  assert (Hmap : forall B (sel : Config -> gmap string B), keyed sel -> (forall f c, sel (relocate f c) = sel c) ->
    (forall f, f ∈ files -> sel (view fs' f) = sel (view fs f)) -> sel (merged fs' files) = sel (merged fs files)).
  { intros B sel Hk Hr Hs. apply map_eq. intros k. rewrite !merged_map by done. f_equal.
    apply list_omap_ext, Forall2_same_length_lookup_2; [done|]. intros i f f' Hf Hf'. rewrite Hf in Hf'. injection Hf' as <-.
    by rewrite (Hs f) by (by eapply list_elem_of_lookup_2). }
  split; [|apply Hmap; [apply Extensions_keyed|done|intros f Hf; by apply Hall]].
  pose proof (Hmap _ _ Preferences_keyed (fun _ _ => eq_refl) ltac:(intros f Hf; cbn; by rewrite (proj1 (Hall f Hf)))) as Hext. cbn in Hext.
  assert (Hcol : Colors (Prefs (merged fs' files)) = Colors (Prefs (merged fs files))).
  { rewrite !merged_colors. clear Hmap Hext. induction files as [|f fl IH]; [done|]. cbn [existsb]. rewrite IH by (intros g Hg; apply Hall; by right).
    by rewrite (proj1 (Hall f ltac:(left))). }
  destruct (Prefs (merged fs' files)), (Prefs (merged fs files)). cbn in *. by subst.
Qed.

(** *** Stages of the change *)

Section stages.
Context {A : Type} `{HA : ConfigAccess A} (a : A) (prec : list string) `{!Lawful a prec}.
Variables (startingConfig newConfig : Config) (d : string) (relativizePaths : bool).

Definition settled (fs : FS) : Prop :=
  Forall (sound fs) prec /\ default_of (a := a) fs = d /\ migrated (migrations (a := a)) prec fs.

(** What the changes do not do: files do not go, none comes but the default, and none
    outside of the precedence is touched. *)
Record grows (fs fs' : FS) : Prop := mkGrows {
  grows_keep f : is_Some (fs !! f) -> is_Some (fs' !! f);
  grows_new f : is_Some (fs' !! f) -> is_Some (fs !! f) \/ f = d;
  grows_else f : f ∉ prec -> fs' !! f = fs !! f
}.

#[local] Instance grows_preorder : PreOrder grows.
Proof.
  split; [by intros fs; split; auto|]. intros fs1 fs2 fs3 H12 H23. split.
  - intros f Hf. by apply (grows_keep _ _ H23), (grows_keep _ _ H12).
  - intros f Hf. apply (grows_new _ _ H23) in Hf as [Hf|Hf]; [by apply (grows_new _ _ H12)|by right].
  - intros f Hf. rewrite (grows_else _ _ H23) by done. by apply (grows_else _ _ H12).
Qed.

Lemma sound_in fs f : settled fs -> f ∈ prec -> sound fs f.
Proof. intros [Hs _] Hf. rewrite Forall_forall in Hs. by apply Hs. Qed.

(** [m] ends well, and [g] is what it makes of each file. *)
Definition stage (m : M unit) (fs : FS) (g : string -> Config -> Config) : Prop :=
  exists fs', m fs = (fs', inr tt) /\ settled fs' /\ grows fs fs' /\ forall f, view fs' f = g f (view fs f).

Lemma stage_ext m fs g h : stage m fs g -> (forall f, g f (view fs f) = h f (view fs f)) -> stage m fs h.
Proof. intros (fs' & H1 & H2 & H3 & H4) Hgh. exists fs'. split_and!; try done. intros f. by rewrite H4. Qed.

Lemma stage_ret fs : settled fs -> stage (ret tt) fs (fun _ c => c).
Proof. intros Hs. exists fs. split_and!; done. Qed.

Lemma stage_bind (m k : M unit) fs g h : stage m fs g ->
  (forall fs', settled fs' -> grows fs fs' -> (forall f, view fs' f = g f (view fs f)) -> stage k fs' h) ->
  stage (bind m (fun _ => k)) fs (fun f c => h f (g f c)).
Proof.
  intros (fs1 & H1 & H2 & H3 & H4) Hk. destruct (Hk fs1 H2 H3 H4) as (fs2 & K1 & K2 & K3 & K4). exists fs2. split_and!; [|done|by etransitivity|].
  - unfold Kubeconfig.bind. by rewrite H1.
  - intros f. by rewrite K4, H4.
Qed.

Lemma stage_for_each {X} (l : list X) (body : X -> M unit) (g : X -> string -> Config -> Config) fs :
  settled fs -> (forall x fs', x ∈ l -> settled fs' -> grows fs fs' -> stage (body x) fs' (g x)) ->
  stage (for_each l body) fs (fun f c => fold_left (fun c x => g x f c) l c).
Proof.
  revert fs. induction l as [|x l IH]; intros fs Hs Hb; [by apply stage_ret|]. cbn [Kubeconfig.for_each fold_left].
  apply (stage_bind _ _ fs (g x) (fun f c => fold_left (fun c x => g x f c) l c)).
  - apply Hb; [left|done|done].
  - intros fs' Hs' Hg _. apply IH; [done|]. intros y fs2 Hy Hs2 Hg2. apply Hb; [by right|done|by etransitivity].
Qed.

Definition open_file (fs : FS) (f : string) : Prop := f ∈ prec /\ (is_Some (fs !! f) \/ f = d).

Lemma open_grows fs fs' f : open_file fs f -> grows fs fs' -> open_file fs' f.
Proof. intros [Hf Ho] Hg. split; [done|]. destruct Ho as [Ho|Ho]; [left; by apply (grows_keep _ _ Hg)|by right]. Qed.

Lemma stage_write fs f c : settled fs -> open_file fs f ->
  stage (WriteToFile c f) fs (fun g v => if decide (g = f) then relocate "" c else v).
Proof.
  intros Hs [Hf Ho]. exists (<[f := Write bytes marshal c]> fs). split; [apply WriteToFile_sound; by apply sound_in|].
  split; [|split].
  - destruct Hs as (Hs & Hd & Hm).
    assert (Hkeep : forall g, is_Some (fs !! g) -> is_Some (<[f := Write bytes marshal c]> fs !! g)).
    { intros g Hg. destruct (decide (f = g)) as [->|Hne]; [by rewrite lookup_insert_eq|by rewrite lookup_insert_ne]. }
    split; [eapply Forall_impl; [exact Hs|]; intros g Hg; by apply sound_write|]. split.
    + rewrite <- Hd. apply lawful_stable; [intros g _; apply Hkeep|].
      intros g _ Hg. rewrite Hd. destruct (decide (f = g)) as [->|Hne]; [done|]. rewrite lookup_insert_ne in Hg by done. by left.
    + apply (migrated_stays _ _ fs); [done|exact Hkeep|]. intros g Hg. destruct (decide (f = g)) as [->|Hne]; [by right; left|].
      rewrite lookup_insert_ne in Hg by done. by left.
  - split.
    + intros g Hg. destruct (decide (f = g)) as [->|Hne]; [by rewrite lookup_insert_eq|by rewrite lookup_insert_ne].
    + intros g Hg. destruct (decide (f = g)) as [->|Hne]; [done|]. rewrite lookup_insert_ne in Hg by done. by left.
    + intros g Hg. rewrite lookup_insert_ne; [done|]. by intros ->.
  - intros g. by apply view_write.
Qed.

Lemma stage_update fs f F : settled fs -> open_file fs f ->
  stage (update_file f F) fs (fun g v => if decide (g = f) then relocate "" (F (relocate f v)) else v).
Proof.
  intros Hs Ho. pose proof (stage_write fs f (F (relocate f (view fs f))) Hs Ho) as (fs' & H1 & H2 & H3 & H4).
  exists fs'. split_and!; try done.
  - rewrite update_file_sound by (by apply sound_in, Ho). rewrite <- H1. symmetry. apply WriteToFile_sound. by apply sound_in, Ho.
  - intros g. rewrite H4. by case_decide as Hg; [subst|].
Qed.

(** The file a stanza goes to. *)
Definition dst {B} (s : stanza B) : string := if decide (LocationOfOrigin s = "") then d else LocationOfOrigin s.

Lemma destination_settled {B} (s : stanza B) fs : settled fs -> destination a s fs = (fs, inr (dst s)).
Proof.
  intros (Hs & Hd & _). unfold destination, dst. case_decide; [|done]. rewrite lawful_default by done. by rewrite Hd.
Qed.

Lemma bind_destination {B X} (s : stanza B) (k : string -> M X) fs : settled fs -> bind (destination a s) k fs = k (dst s) fs.
Proof. intros Hs. unfold Kubeconfig.bind. by rewrite destination_settled. Qed.

Lemma bind_get {X} f (k : Config -> M X) fs : settled fs -> f ∈ prec -> bind (getConfigFromFile f) k fs = k (relocate f (view fs f)) fs.
Proof. intros Hs Hf. unfold Kubeconfig.bind. by rewrite getConfigFromFile_sound by (by apply sound_in). Qed.

Definition plain {B} (s : stanza B) : stanza B := mkStanza "" (body s).

(** The body that is written to a file. *)
Definition as_written {B} (l : lens B) `{!LensRefs l} (f : string) (b : B) : B :=
  if relativizePaths then match relativize_stanza wd (refs (l := l)) (mkStanza f b) with inr t => body t | inl _ => b end else b.

(** What one stanza makes of a file. *)
Definition set_cell {B} `{EqDecision B} (l : lens B) `{!LensRefs l} (x : string * stanza B) (f : string) (c : Config) : Config :=
  if differs (get l startingConfig) x.1 x.2 && bool_decide (dst x.2 = f)
  then put l (<[x.1 := mkStanza "" (as_written l f (body x.2))]> (get l c)) c else c.

(** Where its paths are to be made relative, or are resolved when they are read, the paths
    of a stanza come back. *)
Definition fits {B} (l : lens B) `{!LensRefs l} (s : stanza B) : Prop :=
  relativizePaths || resolving (a := a) = true -> fit (l := l) relativizePaths (filepath_Abs wd (filepath_Dir (dst s))) (body s).

Lemma contexts_as_written f b : as_written contexts f b = b.
Proof. unfold as_written. destruct relativizePaths; [|done]. unfold relativize_stanza. cbn. by case_decide. Qed.

Lemma relativized {B} (l : lens B) `{!LensRefs l} (s : stanza B) : rooted wd = true -> dst s <> "" -> fits l s ->
  (if relativizePaths then relativize_stanza wd (refs (l := l)) (mkStanza (dst s) (body s)) else inr (mkStanza (dst s) (body s))) =
    inr (mkStanza (dst s) (as_written l (dst s) (body s))).
Proof.
  intros Hw Hd Hf. unfold as_written, fits in *. destruct relativizePaths; [|done]. specialize (Hf eq_refl).
  assert (Hr : exists b, relativize_stanza wd (refs (l := l)) (mkStanza (dst s) (body s)) = inr (mkStanza (dst s) b)); [|by destruct Hr as [b ->]].
  unfold relativize_stanza. cbn [LocationOfOrigin body]. rewrite decide_False by done. rewrite (refs_resolve true) by done.
  destruct (refs_return _ _ (rooted_Abs wd (filepath_Dir (dst s)) Hw) Hf) as (b' & -> & _). by exists b'.
Qed.

Lemma relocate_insert {B} (l : lens B) `{!LensOk l} k (s : stanza B) c :
  relocate "" (put l (<[k := s]> (get l c)) c) = put l (<[k := plain s]> (get l (relocate "" c))) (relocate "" c).
Proof. by rewrite relocate_put, move_insert, get_relocate. Qed.

Lemma relocate_cell {B} (l : lens B) `{!LensOk l} f k (s : stanza B) v : relocate "" v = v ->
  relocate "" (put l (<[k := s]> (get l (relocate f v))) (relocate f v)) = put l (<[k := plain s]> (get l v)) v.
Proof. intros Hv. by rewrite relocate_insert, relocate_relocate, Hv. Qed.

Lemma stage_changed {B} `{EqDecision B} (l : lens B) `{!LensOk l} `{!LensRefs l} fs : rooted wd = true -> "" ∉ prec -> settled fs ->
  (forall k s, get l newConfig !! k = Some s -> differs (get l startingConfig) k s = true -> open_file fs (dst s) /\ fits l s) ->
  stage (write_changed a l (refs (l := l)) relativizePaths startingConfig newConfig) fs
    (fun f c => fold_left (fun c x => set_cell l x f c) (range (get l newConfig)) c).
Proof.
  intros Hw Hne Hs Ho. apply stage_for_each; [done|]. intros [k s] fs' Hin Hs' Hg. apply elem_of_range in Hin. unfold set_cell. cbn [fst snd].
  destruct (differs (get l startingConfig) k s) eqn:Hdiff; [|by apply stage_ret].
  destruct (Ho k s Hin Hdiff) as [Hop Hfit]. pose proof (open_grows _ _ _ Hop Hg) as Ho'.
  assert (Hd : dst s <> "") by (intros He; apply Hne; rewrite <- He; apply Ho'). pose proof (relativized l s Hw Hd Hfit) as Hrel.
  set (t := mkStanza (dst s) (as_written l (dst s) (body s))) in *.
  destruct (stage_write fs' (dst s) (put l (<[k := t]> (get l (relocate (dst s) (view fs' (dst s))))) (relocate (dst s) (view fs' (dst s)))) Hs' Ho')
    as (fs2 & H1 & H2 & H3 & H4).
  exists fs2. split_and!; [|done|done|].
  - rewrite bind_destination by done. rewrite bind_get by (apply Ho' || done). cbv zeta. rewrite Hrel. exact H1.
  - intros f. rewrite H4. cbn [andb]. destruct (decide (f = dst s)) as [->|Hnf].
    + rewrite bool_decide_true by done. by rewrite (relocate_cell l _ _ _ _ (view_plain _ _)).
    + by rewrite bool_decide_false by congruence.
Qed.

Lemma stage_deleted {B} (l : lens B) `{!LensOk l} fs : settled fs ->
  (forall k s, get l startingConfig !! k = Some s -> get l newConfig !! k = None -> open_file fs (dst s)) ->
  stage (delete_missing a l startingConfig newConfig) fs
    (fun f c => fold_left (fun c x => if bool_decide (get l newConfig !! x.1 = None) && bool_decide (dst x.2 = f)
                                      then put l (delete x.1 (get l c)) c else c) (range (get l startingConfig)) c).
Proof.
  intros Hs Ho. apply stage_for_each; [done|]. intros [k s] fs' Hin Hs' Hg. apply elem_of_range in Hin. cbn [fst snd].
  destruct (get l newConfig !! k) eqn:Hk; [by apply stage_ret|]. rewrite bool_decide_true by done. cbn [andb].
  pose proof (open_grows _ _ _ (Ho k s Hin Hk) Hg) as Ho'.
  destruct (stage_update fs' (dst s) (fun c => put l (delete k (get l c)) c) Hs' Ho') as (fs2 & H1 & H2 & H3 & H4).
  exists fs2. split_and!; [by rewrite bind_destination|done|done|].
  intros f. rewrite H4. destruct (decide (f = dst s)) as [->|Hne].
  - rewrite bool_decide_true by done. rewrite relocate_put, relocate_relocate, move_delete, get_relocate, move_move, <- get_relocate, view_plain. done.
  - by rewrite bool_decide_false by congruence.
Qed.

(** The contexts: what is to be written to a file after some of them have been placed. *)
Definition planned (fs : FS) (seen : gmap string Config) (f : string) : Config :=
  match seen !! f with Some c => relocate "" c | None => view fs f end.

Lemma place_contexts_exact fs l : forall seen, settled fs ->
  (forall k s, (k, s) ∈ l -> differs (Contexts startingConfig) k s = true -> open_file fs (dst s)) ->
  exists seen', place_contexts a startingConfig l seen fs = (fs, inr seen') /\
    (forall f, is_Some (seen' !! f) -> is_Some (seen !! f) \/ open_file fs f) /\
    forall f, planned fs seen' f = fold_left (fun c x => set_cell contexts x f c) l (planned fs seen f).
Proof.
  induction l as [|[k s] l IH]; intros seen Hs Ho; [exists seen; split_and!; auto|]. cbn [place_contexts fold_left].
  assert (Ho' : forall k s, (k, s) ∈ l -> differs (Contexts startingConfig) k s = true -> open_file fs (dst s)).
  { intros k' s' Hin. apply Ho. by right. }
  unfold set_cell at 2. cbn [fst snd get contexts]. destruct (differs (Contexts startingConfig) k s) eqn:Hdiff; [|by apply IH].
  pose proof (Ho k s ltac:(left) Hdiff) as Hk. rewrite bind_destination by done. cbn [andb].
  set (step := fun c : Config => put contexts (<[k := s]> (Contexts c)) c).
  assert (Hc : exists c, (match seen !! dst s with Some c => ret c | None => getConfigFromFile (dst s) end) fs = (fs, inr c) /\
    relocate "" (step c) = put contexts (<[k := plain s]> (get contexts (planned fs seen (dst s)))) (planned fs seen (dst s))).
  { unfold planned. destruct (seen !! dst s) as [c|].
    - exists c. split; [done|]. apply (relocate_insert contexts).
    - eexists. split; [apply getConfigFromFile_sound, sound_in; [done|apply Hk]|]. apply (relocate_cell contexts), view_plain. }
  destruct Hc as (c & Hc & Hstep). unfold Kubeconfig.bind at 1. rewrite Hc.
  destruct (IH (<[dst s := step c]> seen) Hs Ho') as (seen' & R1 & R2 & R3). exists seen'. split; [exact R1|]. split.
  - intros f Hf. apply R2 in Hf as [Hf|Hf]; [|by right]. destruct (decide (dst s = f)) as [<-|Hne]; [by right|].
    rewrite lookup_insert_ne in Hf by done. by left.
  - intros f. rewrite R3. f_equal. unfold planned at 1. destruct (decide (dst s = f)) as [<-|Hne].
    + rewrite lookup_insert_eq, bool_decide_true, contexts_as_written by done. exact Hstep.
    + rewrite lookup_insert_ne, bool_decide_false by done. done.
Qed.

Lemma fold_writes fs seen f (l : list (string * Config)) : forall v, (forall x, x ∈ l -> seen !! x.1 = Some x.2) ->
  fold_left (fun v x => if decide (f = x.1) then relocate "" x.2 else v) l v = if decide (f ∈ l.*1) then planned fs seen f else v.
Proof.
  induction l as [|x l IH]; intros v Hl; [by rewrite decide_False by (by intros ?%elem_of_nil)|]. cbn [fold_left].
  rewrite IH by (intros y Hy; apply Hl; by right). rewrite fmap_cons. destruct (decide (f ∈ l.*1)) as [Hin|Hout].
  - by rewrite decide_True by (by right).
  - destruct (decide (f = x.1)) as [->|Hne].
    + rewrite decide_True by left. unfold planned. by rewrite (Hl x) by left.
    + rewrite decide_False; [done|]. by intros [?|?]%elem_of_cons.
Qed.

Lemma stage_contexts fs : settled fs ->
  (forall k s, Contexts newConfig !! k = Some s -> differs (Contexts startingConfig) k s = true -> open_file fs (dst s)) ->
  stage (write_contexts a startingConfig newConfig) fs
    (fun f c => fold_left (fun c x => set_cell contexts x f c) (range (Contexts newConfig)) c).
Proof.
  intros Hs Ho. destruct (place_contexts_exact fs (range (Contexts newConfig)) ∅ Hs) as (seen & R1 & R2 & R3).
  { intros k s Hin. apply Ho. by apply elem_of_range. }
  assert (Hw : stage (for_each (range seen) (fun '(destinationFile, configToWrite) => WriteToFile configToWrite destinationFile)) fs
    (fun f c => fold_left (fun v x => if decide (f = x.1) then relocate "" x.2 else v) (range seen) c)).
  { apply stage_for_each; [done|]. intros [f c] fs' Hin Hs' Hg. apply stage_write; [done|]. apply (open_grows fs); [|done].
    apply elem_of_range in Hin. destruct (R2 f) as [Hf|Hf]; [by eexists|by apply lookup_empty_is_Some in Hf|done]. }
  destruct Hw as (fs' & W1 & W2 & W3 & W4). exists fs'. split_and!; [|done|done|].
  - unfold write_contexts, Kubeconfig.bind. by rewrite R1.
  - intros f. rewrite W4, (fold_writes fs seen) by (intros x Hx; by apply elem_of_range; rewrite <- surjective_pairing).
    transitivity (planned fs seen f); [|rewrite R3; unfold planned; by rewrite lookup_empty].
    case_decide as Hf; [done|]. unfold planned. destruct (seen !! f) eqn:Hsf; [|done]. destruct Hf. apply elem_of_range_keys. by eexists.
Qed.

(** *** What the stages make of one key *)

Lemma fold_cells {B} (l : lens B) `{!LensOk l} (test : string * stanza B -> bool) (u : string * stanza B -> option (stanza B)) m c :
  let c' := fold_left (fun c x => if test x then put l (partial_alter (fun _ => u x) x.1 (get l c)) c else c) (range m) c in
  c' = put l (get l c') c /\
  forall k, get l c' !! k = match m !! k with
    | Some s => if test (k, s) then u (k, s) else get l c !! k
    | None => get l c !! k
    end.
Proof.
  cbv zeta. set (step := fun c x => if test x then put l (partial_alter (fun _ => u x) x.1 (get l c)) c else c).
  assert (Hput : forall L c, fold_left step L c = put l (get l (fold_left step L c)) c).
  { induction L as [|x L IH]; intros c0; [symmetry; apply put_get|]. cbn [fold_left]. rewrite IH at 1. unfold step at 3.
    destruct (test x); [apply put_put|done]. }
  split; [apply Hput|]. intros k.
  assert (Hfold : forall L c0, NoDup L.*1 ->
    (k ∉ L.*1 -> get l (fold_left step L c0) !! k = get l c0 !! k) /\
    (forall s, (k, s) ∈ L -> get l (fold_left step L c0) !! k = if test (k, s) then u (k, s) else get l c0 !! k)).
  { induction L as [|[k0 s0] L IH]; intros c0 Hd; [split; [done|by intros s ?%elem_of_nil]|].
    rewrite fmap_cons in *. apply NoDup_cons in Hd as [Hn Hd]. cbn [fold_left fst]. destruct (IH (step c0 (k0, s0)) Hd) as [IH1 IH2].
    assert (Hstep : k <> k0 -> get l (step c0 (k0, s0)) !! k = get l c0 !! k).
    { intros Hne. unfold step. destruct (test _); [|done]. rewrite get_put. by apply lookup_partial_alter_ne. }
    split.
    - intros Hk. rewrite not_elem_of_cons in Hk. destruct Hk as [Hk1 Hk2]. by rewrite IH1, Hstep.
    - intros s [[= -> ->]|Hin]%elem_of_cons.
      + rewrite IH1 by done. unfold step. destruct (test (k0, s0)); [|done]. rewrite get_put. by rewrite lookup_partial_alter_eq.
      + rewrite (IH2 s Hin). destruct (test (k, s)); [done|]. apply Hstep. intros ->. apply Hn. by apply (list_elem_of_fmap_2 fst _ (k0, s)). }
  destruct (Hfold (range m) c (NoDup_fst_range m)) as [H1 H2]. destruct (m !! k) as [s|] eqn:Hk.
  - apply H2. by apply elem_of_range.
  - apply H1. rewrite elem_of_range_keys, Hk. by intros [? ?].
Qed.

(** The cell of a key in a file after the change. *)
Definition cell {B} `{EqDecision B} (l : lens B) `{!LensRefs l} (f k : string) (old : option (stanza B)) : option (stanza B) :=
  match get l newConfig !! k with
  | Some s => if differs (get l startingConfig) k s && bool_decide (dst s = f) then Some (mkStanza "" (as_written l f (body s))) else old
  | None => match get l startingConfig !! k with Some s0 => if bool_decide (dst s0 = f) then None else old | None => old end
  end.

(** A stanza as it is loaded, and as the configurations are compared. *)
Definition read_in {B} (l : lens B) `{!LensRefs l} (s : stanza B) : stanza B := if resolving (a := a) then resolved wd (refs (l := l)) s else s.
Definition compared {B} (l : lens B) `{!LensRefs l} (s : stanza B) : stanza B := if relativizePaths then resolved wd (refs (l := l)) s else s.

Lemma resolved_origin {B} (r : (string -> result string) -> B -> result B) s : LocationOfOrigin (resolved wd r s) = LocationOfOrigin s.
Proof. unfold resolved, resolve_stanza. case_decide; [done|]. by destruct (r _ (body s)). Qed.

Lemma read_origin {B} (l : lens B) `{!LensRefs l} s : LocationOfOrigin (read_in l s) = LocationOfOrigin s.
Proof. unfold read_in. destruct resolving; [apply resolved_origin|done]. Qed.

(** A stanza that fits is resolved to itself, and is read as it was, or seen so. *)
Lemma resolved_fit {B} (l : lens B) `{!LensRefs l} relative f (b : B) :
  f = "" \/ fit (l := l) relative (filepath_Abs wd (filepath_Dir f)) b -> resolved wd (refs (l := l)) (mkStanza f b) = mkStanza f b.
Proof.
  unfold resolved, resolve_stanza. cbn [LocationOfOrigin body]. intros Hf. case_decide as He; [done|]. destruct Hf as [?|Hf]; [done|].
  by rewrite (refs_resolve relative).
Qed.

Lemma written_back {B} (l : lens B) `{!LensRefs l} (s : stanza B) : rooted wd = true -> dst s <> "" -> fits l s ->
  body (compared l (read_in l (mkStanza (dst s) (as_written l (dst s) (body s))))) = body (compared l s).
Proof.
  intros Hw Hd Hf. unfold compared, read_in, as_written, fits in *. destruct relativizePaths.
  - specialize (Hf eq_refl). unfold relativize_stanza. cbn [LocationOfOrigin body]. rewrite decide_False by done.
    rewrite (refs_resolve true) by done. destruct (refs_return _ _ (rooted_Abs wd (filepath_Dir (dst s)) Hw) Hf) as (b' & -> & Hb). cbn [body].
    assert (Hback : resolved wd (refs (l := l)) (mkStanza (dst s) b') = mkStanza (dst s) (body s)).
    { unfold resolved, resolve_stanza. cbn [LocationOfOrigin body]. rewrite decide_False by done. by rewrite Hb. }
    assert (Hs : resolved wd (refs (l := l)) s = s).
    { destruct s as [o b]. apply (resolved_fit l true). unfold dst in Hf. cbn in Hf. case_decide; [by left|by right]. }
    rewrite Hs. destruct resolving; rewrite Hback; [|done]. by rewrite (resolved_fit l true) by (by right).
  - destruct resolving; [|done]. by rewrite (resolved_fit l false) by (right; by apply Hf).
Qed.

(** A key is found after the change as the new configuration has it. *)
Lemma cell_found {B} `{EqDecision B} (l : lens B) `{!LensRefs l} k (V : string -> option (stanza B)) :
  rooted wd = true -> "" ∉ prec -> d ∈ prec ->
  read_in l <$> found prec V = get l startingConfig !! k ->
  (forall s, get l newConfig !! k = Some s ->
     LocationOfOrigin s = match get l startingConfig !! k with Some s0 => LocationOfOrigin s0 | None => "" end) ->
  (forall s, get l newConfig !! k = Some s -> differs (get l startingConfig) k s = true -> fits l s) ->
  (forall s0 f, get l startingConfig !! k = Some s0 -> get l newConfig !! k = None -> f ∈ prec -> is_Some (V f) -> f = LocationOfOrigin s0) ->
  body <$> ((fun s => compared l (read_in l s)) <$> found prec (fun f => cell l f k (V f))) = body <$> (compared l <$> get l newConfig !! k).
Proof.
  intros Hw Hne Hd HV Horigin Hfits Hdel. unfold cell. pose proof (lawful_NoDup (a := a) (prec := prec)) as Hnd.
  assert (Hat : forall f0, f0 ∈ prec -> f0 <> "") by (by intros f0 Hf0 ->).
  assert (Hread : forall s0, get l startingConfig !! k = Some s0 -> exists l1 f0 l2 v, prec = l1 ++ f0 :: l2 /\
    Forall (fun f => V f = None) l1 /\ V f0 = Some v /\ s0 = read_in l (mkStanza f0 (body v)) /\ LocationOfOrigin s0 = f0 /\ dst s0 = f0).
  { intros s0 Hs0. rewrite Hs0 in HV. apply fmap_Some in HV as (s1 & Hs1 & ->). apply found_Some in Hs1 as (l1 & f0 & l2 & v & Hp & H1 & H2 & ->).
    exists l1, f0, l2, v. unfold dst. rewrite read_origin. cbn [LocationOfOrigin]. split_and!; try done. rewrite decide_False; [done|].
    apply Hat. rewrite Hp. apply elem_of_app. right. left. }
  destruct (get l newConfig !! k) as [s|] eqn:Hnew.
  - specialize (Horigin s eq_refl). specialize (Hfits s eq_refl). destruct (get l startingConfig !! k) as [s0|] eqn:Hstart.
    + destruct (Hread s0 eq_refl) as (l1 & f0 & l2 & v & Hp & H1 & H2 & Hs0 & Ho & _).
      assert (Hf0 : f0 ∈ prec) by (rewrite Hp; apply elem_of_app; right; left).
      assert (Hs : dst s = f0) by (unfold dst; rewrite Horigin, Ho; by rewrite decide_False by (by apply Hat)). rewrite Hs.
      destruct (differs (get l startingConfig) k s) eqn:Hdiff; cbn [andb].
      * rewrite (found_first prec _ l1 f0 l2 (mkStanza "" (as_written l f0 (body s)))); [|done| |by rewrite bool_decide_true].
        -- cbn [fmap option_fmap option_map body]. f_equal. rewrite <- Hs. apply written_back; [done|rewrite Hs; by apply Hat|by apply Hfits].
        -- rewrite Forall_forall in H1 |- *. intros f Hf. rewrite bool_decide_false; [by apply H1|]. intros <-.
           rewrite Hp in Hnd. apply NoDup_app in Hnd as (_ & Hnd & _). apply (Hnd f0 Hf). left.
      * change (fun f => V f) with V. rewrite (found_first prec V l1 f0 l2 v Hp H1 H2). unfold differs in Hdiff.
        apply negb_false_iff, bool_decide_eq_true in Hdiff. rewrite Hstart in Hdiff. injection Hdiff as ->. by rewrite Hs0.
    + assert (Hs : dst s = d) by (unfold dst; by rewrite Horigin). rewrite Hs.
      assert (Hdiff : differs (get l startingConfig) k s = true) by (unfold differs; by rewrite Hstart). rewrite Hdiff. cbn [andb].
      assert (Hnone : forall f, f ∈ prec -> V f = None) by (apply found_None; by destruct (found prec V)).
      pose proof (Hat d Hd) as Hd0. apply list_elem_of_split in Hd as (l1 & l2 & Hp).
      rewrite (found_first prec _ l1 d l2 (mkStanza "" (as_written l d (body s)))); [|done| |by rewrite bool_decide_true].
      * cbn [fmap option_fmap option_map body]. f_equal. rewrite <- Hs. apply written_back; [done|by rewrite Hs|by apply Hfits].
      * apply Forall_forall. intros f Hf. rewrite bool_decide_false; [apply Hnone; rewrite Hp; by apply elem_of_app; left|]. intros <-.
        rewrite Hp in Hnd. apply NoDup_app in Hnd as (_ & Hnd & _). apply (Hnd d Hf). left.
  - destruct (get l startingConfig !! k) as [s0|] eqn:Hstart.
    + destruct (Hread s0 eq_refl) as (l1 & f0 & l2 & v & _ & _ & _ & _ & Ho & Hs0).
      assert (Hnone : found prec (fun f => if bool_decide (dst s0 = f) then None else V f) = None); [|by rewrite Hnone].
      apply found_None. intros f Hf. rewrite Hs0. case_bool_decide as Heq; [done|].
      destruct (V f) as [v'|] eqn:Hv; [|done]. destruct Heq. rewrite <- Ho. symmetry. apply (Hdel s0 f); [done|done|done|by eexists].
    + change (fun f => V f) with V. by destruct (found prec V).
Qed.

(** *** The whole change *)

(** An edit of one kind of stanzas: what stays or is changed says where it came from, what
    is new does not; the paths of what is new or changed come back; and what is deleted is
    in one file only. *)
Record lens_edit {B} `{EqDecision B} (l : lens B) `{!LensRefs l} (fs : FS) : Prop := mkLensEdit {
  edit_origin k s : get l newConfig !! k = Some s ->
    LocationOfOrigin s = match get l startingConfig !! k with Some s0 => LocationOfOrigin s0 | None => "" end;
  edit_paths k s : get l newConfig !! k = Some s -> differs (get l startingConfig) k s = true -> fits l s;
  edit_single k s0 f : get l startingConfig !! k = Some s0 -> get l newConfig !! k = None -> f ∈ prec ->
    is_Some (get l (view fs f) !! k) -> f = LocationOfOrigin s0
}.

Lemma default_in fs : settled fs -> d ∈ prec.
Proof.
  intros (_ & Hd & _). destruct (lawful_first (a := a) (prec := prec) fs) as (l1 & l2 & Hp & _). rewrite Hd in Hp. rewrite Hp.
  apply elem_of_app. right. left.
Qed.

Lemma found_open {B} (l : lens B) `{!LensOk l} fs k s0 : "" ∉ prec ->
  found prec (fun f => get l (view fs f) !! k) = Some s0 -> dst s0 = LocationOfOrigin s0 /\ open_file fs (LocationOfOrigin s0).
Proof.
  intros Hne Hs0. apply found_Some in Hs0 as (l1 & f0 & l2 & v & Hp & _ & Hv & ->). cbn.
  assert (Hin : f0 ∈ prec) by (rewrite Hp; apply elem_of_app; right; left). split.
  - unfold dst. cbn. rewrite decide_False; [done|]. by intros ->.
  - split; [done|]. left. unfold view in Hv. destruct (fs !! f0); [done|]. pose proof (get_keyed (l := l)) as [HN _]. by rewrite HN in Hv.
Qed.

Lemma start_key {B} (l : lens B) `{!LensOk l} `{!LensRefs l} fs k : startingConfig = as_loaded (resolving (a := a)) (merged fs prec) ->
  get l startingConfig !! k = read_in l <$> found prec (fun f => get l (view fs f) !! k).
Proof.
  intros ->. unfold as_loaded, read_in. destruct resolving.
  - by rewrite refs_loaded, lookup_fmap, (merged_key l).
  - rewrite (merged_key l). by destruct (found _ _).
Qed.

Lemma edit_opens {B} `{EqDecision B} (l : lens B) `{!LensOk l} `{!LensRefs l} fs : settled fs -> "" ∉ prec ->
  startingConfig = as_loaded (resolving (a := a)) (merged fs prec) -> lens_edit l fs ->
  (forall k s, get l newConfig !! k = Some s -> differs (get l startingConfig) k s = true -> open_file fs (dst s) /\ fits l s) /\
  (forall k s, get l startingConfig !! k = Some s -> get l newConfig !! k = None -> open_file fs (dst s)).
Proof.
  intros Hs Hne Hstart He.
  assert (Hopen : forall k s0, get l startingConfig !! k = Some s0 -> dst s0 = LocationOfOrigin s0 /\ open_file fs (LocationOfOrigin s0)).
  { intros k s0 Hs0. rewrite (start_key l fs) in Hs0 by done. apply fmap_Some in Hs0 as (s1 & Hs1 & ->).
    unfold dst. rewrite read_origin. exact (found_open l fs k s1 Hne Hs1). }
  split.
  - intros k s Hk Hdiff. split; [|by apply (edit_paths _ _ He k)]. pose proof (edit_origin _ _ He k s Hk) as Ho.
    destruct (get l startingConfig !! k) as [s0|] eqn:Hs0.
    + destruct (Hopen k s0 Hs0) as [Hd Hop]. replace (dst s) with (dst s0) by (unfold dst; by rewrite Ho). by rewrite Hd.
    + unfold dst. rewrite Ho. cbn. split; [by apply (default_in fs)|by right].
  - intros k s0 Hs0 _. destruct (Hopen k s0 Hs0) as [Hd Hop]. by rewrite Hd.
Qed.

(** The loop that writes and the one that deletes, for one file. *)
Definition written {B} `{EqDecision B} (l : lens B) `{!LensRefs l} (f : string) (c : Config) : Config :=
  fold_left (fun c x => set_cell l x f c) (range (get l newConfig)) c.
Definition deleted {B} (l : lens B) (f : string) (c : Config) : Config :=
  fold_left (fun c x => if bool_decide (get l newConfig !! x.1 = None) && bool_decide (dst x.2 = f)
                        then put l (delete x.1 (get l c)) c else c) (range (get l startingConfig)) c.

Lemma written_exact {B} `{EqDecision B} (l : lens B) `{!LensOk l} `{!LensRefs l} f c :
  written l f c = put l (get l (written l f c)) c /\
  forall k, get l (written l f c) !! k = match get l newConfig !! k with
    | Some s => if differs (get l startingConfig) k s && bool_decide (dst s = f) then Some (mkStanza "" (as_written l f (body s))) else get l c !! k
    | None => get l c !! k
    end.
Proof.
  apply (fold_cells l (fun x => differs (get l startingConfig) x.1 x.2 && bool_decide (dst x.2 = f))
    (fun x => Some (mkStanza "" (as_written l f (body x.2))))).
Qed.

Lemma deleted_exact {B} (l : lens B) `{!LensOk l} f c :
  deleted l f c = put l (get l (deleted l f c)) c /\
  forall k, get l (deleted l f c) !! k = match get l startingConfig !! k with
    | Some s => if bool_decide (get l newConfig !! k = None) && bool_decide (dst s = f) then None else get l c !! k
    | None => get l c !! k
    end.
Proof.
  apply (fold_cells l (fun x => bool_decide (get l newConfig !! x.1 = None) && bool_decide (dst x.2 = f)) (fun _ => None)).
Qed.

Lemma cell_exact {B} `{EqDecision B} (l : lens B) `{!LensOk l} `{!LensRefs l} f c c1 k :
  get l c1 = get l (written l f c) -> get l (deleted l f c1) !! k = cell l f k (get l c !! k).
Proof.
  intros Hc1. rewrite (proj2 (deleted_exact l f c1)), Hc1, (proj2 (written_exact l f c)). unfold cell.
  destruct (get l newConfig !! k) as [s|] eqn:Hk; destruct (get l startingConfig !! k) as [s0|]; try done.
Qed.

(** The context: in the default file, or cleared where it is set. *)
Definition contexted (f : string) (c : Config) : Config :=
  if decide (CurrentContext startingConfig = CurrentContext newConfig) then c
  else if decide (CurrentContext newConfig = "")
  then if decide (f ∈ prec /\ CurrentContext c <> "") then with_context "" c else c
  else if decide (f = d) then with_context (CurrentContext newConfig) c else c.

(** Only one file sets the context. *)
Definition one_context (fs : FS) : Prop :=
  forall f g, f ∈ prec -> g ∈ prec -> CurrentContext (view fs f) <> "" -> CurrentContext (view fs g) <> "" -> f = g.

Lemma explicit_is_d fs : settled fs -> IsExplicitFile a = true -> prec = [d] /\ GetExplicitFile a = d.
Proof.
  intros Hs He. pose proof (lawful_explicit He) as Hp. pose proof (default_in fs Hs) as Hd. rewrite Hp in Hd.
  apply list_elem_of_singleton in Hd. by rewrite Hd.
Qed.

Lemma as_loaded_context b c : CurrentContext (as_loaded b c) = CurrentContext c.
Proof. by destruct b. Qed.
Lemma as_loaded_prefs b c : Prefs (as_loaded b c) = Prefs c.
Proof. by destruct b. Qed.

Lemma start_settled fs : settled fs -> GetStartingConfig a fs = (fs, inr (as_loaded (resolving (a := a)) (merged fs prec))).
Proof. intros (Hs & _ & Hm). by apply lawful_start. Qed.

Lemma bind_start {X} fs (k : Config -> M X) : settled fs ->
  bind (GetStartingConfig a) k fs = k (as_loaded (resolving (a := a)) (merged fs prec)) fs.
Proof. intros Hs. unfold Kubeconfig.bind. by rewrite start_settled. Qed.

(** Clearing: the files before the one that sets the context are passed over. *)
Lemma clear_context_exact fs l1 f0 l2 : settled fs -> prec = l1 ++ f0 :: l2 ->
  Forall (fun f => CurrentContext (view fs f) = "") l1 -> CurrentContext (view fs f0) <> "" ->
  clear_context "" prec fs = WriteToFile (with_context "" (relocate f0 (view fs f0))) f0 fs.
Proof.
  intros Hs Hp Hun Hset. assert (Hin : forall f, f ∈ l1 ++ [f0] -> sound fs f).
  { intros f Hf. apply sound_in; [done|]. rewrite Hp. apply elem_of_app in Hf as [Hf|Hf]; apply elem_of_app; [by left|right].
    apply list_elem_of_singleton in Hf as ->. left. }
  rewrite Hp. clear Hp. induction l1 as [|f l1 IH]; cbn [app clear_context].
  - pose proof (Hin f0 ltac:(left)) as Hf0. pose proof Hf0 as (Hne & Hst & _).
    unfold Kubeconfig.bind at 1, Kubeconfig.attempt, Kubeconfig.os_Stat, content. rewrite Hst, decide_False by done.
    destruct (fs !! f0) as [b|] eqn:Hb; [|unfold view in Hset; by rewrite Hb in Hset].
    unfold Kubeconfig.bind. rewrite getConfigFromFile_sound by done. cbn [CurrentContext relocate]. by rewrite decide_False.
  - apply Forall_cons in Hun as [Hf Hun]. pose proof (Hin f ltac:(left)) as Hsf. pose proof Hsf as (Hne & Hst & _).
    specialize (IH Hun ltac:(intros g Hg; apply Hin; by right)).
    unfold Kubeconfig.bind at 1, Kubeconfig.attempt, Kubeconfig.os_Stat, content. rewrite Hst, decide_False by done.
    destruct (fs !! f) as [b|] eqn:Hb; [|exact IH].
    unfold Kubeconfig.bind. rewrite getConfigFromFile_sound by done. cbn [CurrentContext relocate]. by rewrite decide_True.
Qed.

(** The context that is loaded is set somewhere. *)
Lemma context_set fs : CurrentContext (merged fs prec) <> "" ->
  exists l1 f0 l2, prec = l1 ++ f0 :: l2 /\ Forall (fun f => CurrentContext (view fs f) = "") l1 /\ CurrentContext (view fs f0) <> "".
Proof.
  rewrite merged_context. generalize prec. intros files. induction files as [|f l IH]; [done|]. rewrite fmap_cons, filter_cons.
  destruct (decide (CurrentContext (view fs f) = "")) as [Hf|Hf].
  - rewrite decide_False by (intros Hn; by apply Hn). intros Hc. destruct (IH Hc) as (l1 & f0 & l2 & -> & Hun & Hset).
    exists (f :: l1), f0, l2. split_and!; [done|by constructor|done].
  - intros _. by exists [], f, l.
Qed.

Lemma view_context f c : relocate "" c = c -> relocate "" (with_context "" (relocate f c)) = with_context "" c.
Proof. intros Hc. transitivity (with_context "" (relocate "" (relocate f c))); [done|]. by rewrite relocate_relocate, Hc. Qed.

Lemma stage_context fs : settled fs -> startingConfig = as_loaded (resolving (a := a)) (merged fs prec) ->
  CurrentContext newConfig <> "" \/ CurrentContext newConfig = CurrentContext startingConfig \/ one_context fs ->
  stage (if decide (CurrentContext startingConfig = CurrentContext newConfig) then ret tt
         else writeCurrentContext a (CurrentContext newConfig)) fs contexted.
Proof.
  intros Hs Hstart Hx. unfold contexted. case_decide as Heq; [by apply stage_ret|].
  assert (Hd : open_file fs d) by (split; [by apply (default_in fs)|by right]).
  assert (Hcur : CurrentContext startingConfig = CurrentContext (merged fs prec)) by (rewrite Hstart; apply as_loaded_context).
  assert (Hup : writeCurrentContext a (CurrentContext newConfig) fs = update_file d (with_context (CurrentContext newConfig)) fs ->
    stage (writeCurrentContext a (CurrentContext newConfig)) fs (fun f c => if decide (f = d) then with_context (CurrentContext newConfig) c else c)).
  { intros Hw. destruct (stage_update fs d (with_context (CurrentContext newConfig)) Hs Hd) as (fs' & R1 & R2 & R3 & R4).
    exists fs'. split; [by rewrite Hw|]. split; [done|]. split; [done|]. intros f. rewrite R4. case_decide as Hf; [|done].
    subst f. transitivity (with_context (CurrentContext newConfig) (relocate "" (relocate d (view fs d)))); [done|].
    by rewrite relocate_relocate, view_plain. }
  assert (Hw : writeCurrentContext a (CurrentContext newConfig) fs =
    (if IsExplicitFile a then update_file d (with_context (CurrentContext newConfig))
     else if decide (CurrentContext newConfig = "") then clear_context (CurrentContext newConfig) prec
     else update_file d (with_context (CurrentContext newConfig))) fs).
  { unfold writeCurrentContext. rewrite bind_start by done. rewrite <- Hstart, decide_False by done.
    destruct (IsExplicitFile a) eqn:He; [by rewrite (proj2 (explicit_is_d fs Hs He))|]. rewrite lawful_precedence.
    destruct (decide (CurrentContext newConfig = "")) as [Hn|Hn]; [by rewrite Hn|].
    unfold Kubeconfig.bind at 1. destruct Hs as (Hs & Hdef & _). rewrite lawful_default by done. by rewrite Hdef. }
  destruct (decide (CurrentContext newConfig = "")) as [Hn|Hn]; [|apply Hup; rewrite Hw; by destruct (IsExplicitFile a)].
  destruct (context_set fs) as (l1 & f0 & l2 & Hp & Hun & Hset); [rewrite <- Hcur; congruence|].
  assert (Hin : f0 ∈ prec) by (rewrite Hp; apply elem_of_app; right; left).
  destruct (IsExplicitFile a) eqn:He.
  - destruct (explicit_is_d fs Hs He) as [Hpd _]. eapply stage_ext; [by apply Hup|]. intros f. rewrite Hn, Hpd.
    assert (Hf0 : f0 = d) by (rewrite Hpd in Hin; by apply list_elem_of_singleton). subst f0.
    destruct (decide (f = d)) as [->|Hf]; [rewrite decide_True; [done|split; [left|done]]|].
    rewrite decide_False; [done|]. by intros [?%list_elem_of_singleton _].
  - assert (Ho : open_file fs f0).
    { split; [done|]. left. unfold view in Hset. destruct (fs !! f0); [by eexists|done]. }
    destruct (stage_write fs f0 (with_context "" (relocate f0 (view fs f0))) Hs Ho) as (fs' & R1 & R2 & R3 & R4).
    exists fs'. split; [rewrite Hw, Hn, (clear_context_exact fs l1 f0 l2) by done; exact R1|]. split; [done|]. split; [done|].
    intros f. rewrite R4. destruct (decide (f = f0)) as [->|Hf].
    + rewrite decide_True by done. by apply view_context, view_plain.
    + rewrite decide_False; [done|]. intros [Hfp Hfc]. apply Hf. destruct Hx as [Hx|[Hx|Hx]]; [done|congruence|by apply Hx].
Qed.

(** The preferences, in the first file. *)
Definition preferred (f : string) (c : Config) : Config :=
  if decide (Prefs startingConfig = Prefs newConfig) then c
  else if decide (head prec = Some f) then with_preferences (Prefs newConfig) c else c.

(** Only the first file, which is there or is the default, has preferences. *)
Definition first_prefers (fs : FS) : Prop :=
  exists f rest, prec = f :: rest /\ open_file fs f /\ Forall (fun g => Prefs (view fs g) = Prefs NewConfig) rest.

Lemma first_preferences fs f rest : prec = f :: rest -> Forall (fun g => Prefs (view fs g) = Prefs NewConfig) rest ->
  Prefs (merged fs prec) = Prefs (view fs f).
Proof.
  intros Hp Hr. assert (Hc : Colors (Prefs (merged fs prec)) = Colors (Prefs (view fs f))).
  { rewrite merged_colors, Hp. cbn [existsb]. enough (existsb (fun g => Colors (Prefs (view fs g))) rest = false) as -> by apply orb_false_r.
    clear Hp. induction Hr as [|g rest Hg _ IH]; [done|]. cbn [existsb]. by rewrite Hg, IH. }
  assert (He : Preferences_Extensions (Prefs (merged fs prec)) = Preferences_Extensions (Prefs (view fs f))).
  { apply map_eq. intros k. rewrite (merged_map (fun c => Preferences_Extensions (Prefs c)) prec fs k Preferences_keyed) by done.
    rewrite Hp. cbn [omap list_omap]. destruct (Preferences_Extensions (Prefs (view fs f)) !! k); [done|].
    clear Hp. induction Hr as [|g rest Hg _ IH]; [done|]. cbn [omap list_omap]. rewrite Hg. cbn [Prefs NewConfig Preferences_Extensions].
    by rewrite lookup_empty. }
  destruct (Prefs (merged fs prec)), (Prefs (view fs f)). cbn in *. by subst.
Qed.

Lemma contexted_rest f c :
  Clusters (contexted f c) = Clusters c /\ AuthInfos (contexted f c) = AuthInfos c /\ Contexts (contexted f c) = Contexts c /\
  Prefs (contexted f c) = Prefs c /\ Extensions (contexted f c) = Extensions c.
Proof. unfold contexted. repeat case_decide; done. Qed.

Lemma stage_preferences fs : settled fs ->
  (Prefs newConfig = Prefs startingConfig \/ Prefs (merged fs prec) = Prefs startingConfig /\ first_prefers fs) ->
  stage (if decide (Prefs startingConfig = Prefs newConfig) then ret tt else writePreferences a (Prefs newConfig)) fs preferred.
Proof.
  intros Hs Hx. unfold preferred. case_decide as Heq; [by apply stage_ret|]. destruct Hx as [Hx|[Hm (f & rest & Hp & Ho & Hr)]]; [congruence|].
  pose proof (first_preferences fs f rest Hp Hr) as Hf.
  assert (Hw : writePreferences a (Prefs newConfig) fs = update_file f (with_preferences (Prefs newConfig)) fs).
  { unfold writePreferences. rewrite bind_start by done. rewrite as_loaded_prefs, Hm, decide_False by done.
    destruct (IsExplicitFile a) eqn:He.
    - destruct (explicit_is_d fs Hs He) as [Hpd ->]. rewrite Hpd in Hp. by injection Hp as <-.
    - rewrite lawful_precedence, Hp. cbn [change_preferences]. unfold update_file. rewrite !bind_get by (apply Ho || done).
      cbn [Prefs relocate]. rewrite decide_False; [done|]. by rewrite <- Hf, Hm. }
  destruct (stage_update fs f (with_preferences (Prefs newConfig)) Hs Ho) as (fs' & R1 & R2 & R3 & R4).
  exists fs'. split; [by rewrite Hw|]. split; [done|]. split; [done|]. intros g. rewrite R4, Hp. cbn [head].
  destruct (decide (g = f)) as [->|Hg].
  - rewrite decide_True by done. transitivity (with_preferences (Prefs newConfig) (relocate "" (relocate f (view fs f)))); [done|].
    by rewrite relocate_relocate, view_plain.
  - by rewrite decide_False by congruence.
Qed.

Definition changed (f : string) (c : Config) : Config :=
  deleted users f (deleted contexts f (deleted clusters f (written users f (written contexts f (written clusters f (preferred f (contexted f c))))))).

Lemma changed_cells f c :
  (forall k, Clusters (changed f c) !! k = cell clusters f k (Clusters c !! k)) /\
  (forall k, AuthInfos (changed f c) !! k = cell users f k (AuthInfos c !! k)) /\
  (forall k, Contexts (changed f c) !! k = cell contexts f k (Contexts c !! k)) /\
  Prefs (changed f c) = Prefs (preferred f c) /\ Extensions (changed f c) = Extensions c /\
  CurrentContext (changed f c) = CurrentContext (contexted f c).
Proof.
  unfold changed. set (c0 := preferred f (contexted f c)). set (c1 := written clusters f c0). set (c2 := written contexts f c1).
  set (c3 := written users f c2). set (c4 := deleted clusters f c3). set (c5 := deleted contexts f c4).
  assert (E0 : Clusters c0 = Clusters c /\ AuthInfos c0 = AuthInfos c /\ Contexts c0 = Contexts c /\ Prefs c0 = Prefs (preferred f c) /\
    Extensions c0 = Extensions c /\ CurrentContext c0 = CurrentContext (contexted f c)).
  { destruct (contexted_rest f c) as (R1 & R2 & R3 & R4 & R5). unfold c0, preferred. repeat case_decide; cbn; split_and!; congruence. }
  pose proof (proj1 (written_exact clusters f c0)) as E1. fold c1 in E1. pose proof (proj1 (written_exact contexts f c1)) as E2. fold c2 in E2.
  pose proof (proj1 (written_exact users f c2)) as E3. fold c3 in E3. pose proof (proj1 (deleted_exact clusters f c3)) as E4. fold c4 in E4.
  pose proof (proj1 (deleted_exact contexts f c4)) as E5. fold c5 in E5. pose proof (proj1 (deleted_exact users f c5)) as E6.
  destruct E0 as (Ec & Eu & Ex & Ep & Ee & Ek).
  assert (C3 : get clusters c3 = get clusters c1) by (by rewrite E3, E2).
  assert (U5 : get users c5 = get users c3) by (by rewrite E5, E4).
  assert (U2 : get users c2 = get users c0) by (by rewrite E2, E1).
  assert (X4 : get contexts c4 = get contexts c2) by (by rewrite E4, E3).
  assert (X1 : get contexts c1 = get contexts c0) by (by rewrite E1).
  split_and!.
  - intros k. rewrite E6, E5, <- Ec. by apply (cell_exact clusters f c0 c3).
  - intros k. rewrite <- Eu. change (AuthInfos c0) with (get users c0). rewrite <- U2. by apply (cell_exact users f c2 c5).
  - intros k. rewrite E6, <- Ex. change (Contexts c0) with (get contexts c0). rewrite <- X1. by apply (cell_exact contexts f c1 c4).
  - by rewrite E6, E5, E4, E3, E2, E1, <- Ep.
  - by rewrite E6, E5, E4, E3, E2, E1, <- Ee.
  - by rewrite E6, E5, E4, E3, E2, E1, <- Ek.
Qed.

(** An edit: of stanzas; of the current context, which is cleared only where one file sets
    it; of the preferences, where only the first file has some.  The extensions of the
    configuration itself are not written. *)
Record edit (fs : FS) : Prop := mkEdit {
  edit_clusters : lens_edit clusters fs;
  edit_users : lens_edit users fs;
  edit_contexts : lens_edit contexts fs;
  edit_current : CurrentContext newConfig <> "" \/ CurrentContext newConfig = CurrentContext startingConfig \/ one_context fs;
  edit_prefs : Prefs newConfig = Prefs startingConfig \/ first_prefers fs;
  edit_extensions : Extensions newConfig = Extensions startingConfig
}.

#[local] Notation written_and_deleted := (fun f c =>
  deleted users f (deleted contexts f (deleted clusters f (written users f (written contexts f (written clusters f c)))))).

(** The loops over the stanzas. *)
Lemma stage_stanzas fs fs0 : rooted wd = true -> "" ∉ prec -> settled fs0 -> startingConfig = as_loaded (resolving (a := a)) (merged fs0 prec) ->
  edit fs0 -> settled fs -> grows fs0 fs ->
  stage (bind (write_changed a clusters map_cluster_refs relativizePaths startingConfig newConfig) (fun _ =>
    bind (write_contexts a startingConfig newConfig) (fun _ =>
    bind (write_changed a users map_user_refs relativizePaths startingConfig newConfig) (fun _ =>
    bind (delete_missing a clusters startingConfig newConfig) (fun _ =>
    bind (delete_missing a contexts startingConfig newConfig) (fun _ =>
    delete_missing a users startingConfig newConfig)))))) fs written_and_deleted.
Proof.
  intros Hw Hne Hs0 Hstart He Hs1 G0.
  destruct (edit_opens clusters fs0 Hs0 Hne Hstart (edit_clusters _ He)) as [Wc Dc].
  destruct (edit_opens users fs0 Hs0 Hne Hstart (edit_users _ He)) as [Wu Du].
  destruct (edit_opens contexts fs0 Hs0 Hne Hstart (edit_contexts _ He)) as [Wx Dx].
  apply (stage_bind _ _ fs (written clusters) (fun f c => deleted users f (deleted contexts f (deleted clusters f (written users f (written contexts f c)))))).
  { refine (stage_changed clusters fs Hw Hne Hs1 _). intros k s Hk Hd. split; [eapply open_grows; [by apply (Wc k)|done]|by apply (Wc k)]. }
  intros fs2 Hs2 G2 _. assert (G : grows fs0 fs2) by (by etransitivity). clear G2 G0.
  apply (stage_bind _ _ fs2 (written contexts) (fun f c => deleted users f (deleted contexts f (deleted clusters f (written users f c))))).
  { apply stage_contexts; [done|]. intros k s Hk Hd. eapply open_grows; [by apply (Wx k)|done]. }
  intros fs3 Hs3 G3 _. assert (G' : grows fs0 fs3) by (by etransitivity). clear G G3.
  apply (stage_bind _ _ fs3 (written users) (fun f c => deleted users f (deleted contexts f (deleted clusters f c)))).
  { refine (stage_changed users fs3 Hw Hne Hs3 _). intros k s Hk Hd. split; [eapply open_grows; [by apply (Wu k)|done]|by apply (Wu k)]. }
  intros fs4 Hs4 G4 _. assert (G : grows fs0 fs4) by (by etransitivity). clear G' G4.
  apply (stage_bind _ _ fs4 (deleted clusters) (fun f c => deleted users f (deleted contexts f c))).
  { apply (stage_deleted clusters); [done|]. intros k s Hk Hd. eapply open_grows; [by apply (Dc k)|done]. }
  intros fs5 Hs5 G5 _. assert (G' : grows fs0 fs5) by (by etransitivity). clear G G5.
  apply (stage_bind _ _ fs5 (deleted contexts) (deleted users)).
  { apply (stage_deleted contexts); [done|]. intros k s Hk Hd. eapply open_grows; [by apply (Dx k)|done]. }
  intros fs6 Hs6 G6 _. assert (G : grows fs0 fs6) by (by etransitivity).
  apply (stage_deleted users); [done|]. intros k s Hk Hd. eapply open_grows; [by apply (Du k)|done].
Qed.

(** The context does not change what the files prefer. *)
Lemma prefers_after fs fs1 : grows fs fs1 -> (forall f, view fs1 f = contexted f (view fs f)) -> startingConfig = as_loaded (resolving (a := a)) (merged fs prec) ->
  first_prefers fs -> Prefs (merged fs1 prec) = Prefs startingConfig /\ first_prefers fs1.
Proof.
  intros G Hv Hstart (f & rest & Hp & Ho & Hr).
  assert (Hsame : forall g, Prefs (view fs1 g) = Prefs (view fs g)) by (intros g; rewrite Hv; apply contexted_rest). split.
  - rewrite Hstart, as_loaded_prefs. apply merged_rest. intros g _. rewrite Hv. split; apply contexted_rest.
  - exists f, rest. split_and!; [done|by apply (open_grows fs)|]. eapply Forall_impl; [exact Hr|]. intros g. by rewrite Hsame.
Qed.

Lemma stage_modify fs : rooted wd = true -> settled fs -> "" ∉ prec -> startingConfig = as_loaded (resolving (a := a)) (merged fs prec) -> edit fs ->
  startingConfig <> newConfig -> stage (modify_locked a newConfig relativizePaths) fs changed.
Proof.
  intros Hw Hs Hne Hstart He Hdiff.
  enough (Hst : stage (bind (if decide (CurrentContext startingConfig = CurrentContext newConfig) then ret tt else writeCurrentContext a (CurrentContext newConfig)) (fun _ =>
    bind (if decide (Prefs startingConfig = Prefs newConfig) then ret tt else writePreferences a (Prefs newConfig)) (fun _ =>
    bind (write_changed a clusters map_cluster_refs relativizePaths startingConfig newConfig) (fun _ =>
    bind (write_contexts a startingConfig newConfig) (fun _ =>
    bind (write_changed a users map_user_refs relativizePaths startingConfig newConfig) (fun _ =>
    bind (delete_missing a clusters startingConfig newConfig) (fun _ =>
    bind (delete_missing a contexts startingConfig newConfig) (fun _ =>
    delete_missing a users startingConfig newConfig)))))))) fs changed).
  { destruct Hst as (fs' & R1 & R2). exists fs'. split; [|done]. unfold modify_locked. rewrite bind_start by done.
    rewrite <- Hstart, decide_False by done. exact R1. }
  apply (stage_bind _ _ fs contexted (fun f c => written_and_deleted f (preferred f c))).
  { apply stage_context; [done|done|]. apply He. }
  intros fs1 Hs1 G1 Hv1. apply (stage_bind _ _ fs1 preferred written_and_deleted).
  { apply stage_preferences; [done|]. destruct (edit_prefs _ He) as [Hp|Hp]; [by left|right]. by apply (prefers_after fs). }
  intros fs2 Hs2 G2 _. apply (stage_stanzas fs2 fs); [done..|]. by etransitivity.
Qed.

(** Stanzas with the same bodies are the same up to their files. *)
Lemma move_bodies {B} (m m' : gmap string (stanza B)) : (forall k, body <$> m !! k = body <$> m' !! k) -> move "" m = move "" m'.
Proof.
  intros Hb. apply map_eq. intros k. rewrite !lookup_move. specialize (Hb k). destruct (m !! k), (m' !! k); try done. cbn in *. congruence.
Qed.

(** The configuration as it is compared. *)
Definition in_full (c : Config) : Config := if relativizePaths then ResolveLocalPaths wd c else c.

Lemma in_full_key {B} (l : lens B) `{!LensRefs l} c k : get l (in_full c) !! k = compared l <$> get l c !! k.
Proof.
  unfold in_full, compared. destruct relativizePaths; [by rewrite refs_loaded, lookup_fmap|by destruct (get l c !! k)].
Qed.

Lemma in_full_rest c : Prefs (in_full c) = Prefs c /\ CurrentContext (in_full c) = CurrentContext c /\ Extensions (in_full c) = Extensions c.
Proof. unfold in_full. by destruct relativizePaths. Qed.

Lemma edited {B} `{EqDecision B} (l : lens B) `{!LensOk l} `{!LensRefs l} fs fs' : rooted wd = true -> settled fs -> "" ∉ prec ->
  startingConfig = as_loaded (resolving (a := a)) (merged fs prec) -> lens_edit l fs ->
  (forall f k, get l (view fs' f) !! k = cell l f k (get l (view fs f) !! k)) ->
  move "" (get l (in_full (as_loaded (resolving (a := a)) (merged fs' prec)))) = move "" (get l (in_full newConfig)).
Proof.
  intros Hw Hs Hne Hstart He Hcell. apply move_bodies. intros k. rewrite !(in_full_key l).
  rewrite <- (cell_found l k (fun f => get l (view fs f) !! k));
    [|done|done|by apply (default_in fs)|by rewrite (start_key l fs)|apply He|apply (edit_paths l fs He)|].
  - assert (Hl : get l (as_loaded (resolving (a := a)) (merged fs' prec)) !! k = read_in l <$> found prec (fun f => get l (view fs' f) !! k)).
    { unfold as_loaded, read_in. destruct resolving; [by rewrite refs_loaded, lookup_fmap, (merged_key l)|].
      rewrite (merged_key l). by destruct (found _ _). }
    rewrite Hl, <- (option_fmap_compose (read_in l) (compared l)). do 2 f_equal. unfold found. f_equal. apply list_omap_ext, Forall2_same_length_lookup_2; [done|].
    intros i f f' Hf Hf'. rewrite Hf in Hf'. injection Hf' as <-. by rewrite Hcell.
  - intros s0 f. apply (edit_single l fs He).
Qed.

(** The context that is loaded afterwards. *)
Lemma context_after fs fs' : settled fs -> startingConfig = as_loaded (resolving (a := a)) (merged fs prec) -> edit fs ->
  (forall f, CurrentContext (view fs' f) = CurrentContext (contexted f (view fs f))) -> CurrentContext (merged fs' prec) = CurrentContext newConfig.
Proof.
  intros Hs Hstart He Hcur. rewrite merged_context. unfold contexted in Hcur. destruct (decide (CurrentContext startingConfig = CurrentContext newConfig)) as [Hc|Hc].
  { rewrite <- Hc, Hstart, as_loaded_context, merged_context. do 3 f_equal. apply list_fmap_ext. intros i f _. apply Hcur. }
  destruct (decide (CurrentContext newConfig = "")) as [Hn|Hn].
  - rewrite Hn. replace (filter (fun x => x <> "") ((fun f => CurrentContext (view fs' f)) <$> prec)) with (@nil string); [done|].
    assert (Hall : forall f, f ∈ prec -> CurrentContext (view fs' f) = "").
    { intros f Hf. rewrite Hcur. case_decide as Hd; [done|]. destruct (decide (CurrentContext (view fs f) = "")) as [?|Hz]; [done|]. by destruct Hd. }
    clear -Hall. induction prec as [|f l IH]; [done|]. rewrite fmap_cons, filter_cons, (Hall f) by left. rewrite decide_False by (intros Hn; by apply Hn).
    apply IH. intros g Hg. apply Hall. by right.
  - destruct (lawful_first (a := a) (prec := prec) fs) as (l1 & l2 & Hp & Hl1).
    destruct Hs as (_ & Hdef & _). rewrite Hdef in Hp. rewrite Hp, fmap_app, filter_app.
    replace (filter (fun x => x <> "") ((fun f => CurrentContext (view fs' f)) <$> l1)) with (@nil string).
    * rewrite fmap_cons, filter_cons, Hcur, (decide_True (P := d = d)) by done. by rewrite decide_True.
    * symmetry. pose proof (lawful_NoDup (a := a) (prec := prec)) as Hnd. rewrite Hp in Hnd. apply NoDup_app in Hnd as (_ & Hnd & _).
      clear Hp. induction Hl1 as [|f l1 Hf _ IH]; [done|]. rewrite fmap_cons, filter_cons, Hcur.
      rewrite (decide_False (P := f = d)) by (intros ->; apply (Hnd d); left). rewrite decide_False; [apply IH; intros g Hg; apply Hnd; by right|].
      unfold view. rewrite Hf. intros Hz. by apply Hz.
Qed.

(** The preferences. *)
Lemma prefs_after fs fs' : startingConfig = as_loaded (resolving (a := a)) (merged fs prec) -> edit fs ->
  (forall f, Prefs (view fs' f) = Prefs (preferred f (view fs f)) /\ Extensions (view fs' f) = Extensions (view fs f)) ->
  Prefs (merged fs' prec) = Prefs newConfig.
Proof.
  intros Hstart He Hv. destruct (decide (Prefs startingConfig = Prefs newConfig)) as [Heq|Hne].
  - rewrite <- Heq, Hstart, as_loaded_prefs. apply merged_rest. intros f _. destruct (Hv f) as [-> ->]. unfold preferred. by rewrite decide_True.
  - destruct (edit_prefs _ He) as [Hp|(f & rest & Hp & _ & Hr)]; [congruence|]. rewrite (first_preferences fs' f rest Hp).
    + rewrite (proj1 (Hv f)). unfold preferred. rewrite decide_False, Hp by done. cbn [head]. by rewrite decide_True.
    + pose proof (lawful_NoDup (a := a) (prec := prec)) as Hnd. rewrite Hp in Hnd. apply NoDup_cons in Hnd as [Hnd _].
      rewrite Forall_forall in Hr |- *. intros g Hg. rewrite (proj1 (Hv g)). unfold preferred. rewrite decide_False, Hp by done. cbn [head].
      rewrite decide_False by (intros [= ->]; by apply Hnd). by apply Hr.
Qed.

(** What is loaded after the change is the new configuration. *)
Lemma modify_exact fs : rooted wd = true -> settled fs -> "" ∉ prec -> startingConfig = as_loaded (resolving (a := a)) (merged fs prec) -> edit fs ->
  exists fs', modify_locked a newConfig relativizePaths fs = (fs', inr tt) /\ settled fs' /\ grows fs fs' /\
    relocate "" (in_full (as_loaded (resolving (a := a)) (merged fs' prec))) = relocate "" (in_full newConfig).
Proof.
  intros Hw Hs Hne Hstart He. destruct (decide (startingConfig = newConfig)) as [Heq|Hdiff].
  { exists fs. split_and!; [|done|done|by rewrite <- Heq, Hstart]. unfold modify_locked. rewrite bind_start by done.
    by rewrite <- Hstart, decide_True. }
  destruct (stage_modify fs Hw Hs Hne Hstart He Hdiff) as (fs' & R1 & R2 & R3 & R4). exists fs'. split_and!; [done|done|done|].
  pose proof (in_full_rest newConfig) as (P1 & P2 & P3). pose proof (in_full_rest (as_loaded (resolving (a := a)) (merged fs' prec))) as (Q1 & Q2 & Q3).
  unfold relocate. rewrite P1, P2, P3, Q1, Q2, Q3, as_loaded_prefs, as_loaded_context.
  assert (Hext : Extensions (as_loaded (resolving (a := a)) (merged fs' prec)) = Extensions (merged fs' prec)) by (by destruct resolving). f_equal.
  - apply (prefs_after fs); [done|done|]. intros f. rewrite R4. split; apply changed_cells.
  - apply (edited clusters fs); [done..|apply He|]. intros f k. rewrite R4. apply changed_cells.
  - apply (edited users fs); [done..|apply He|]. intros f k. rewrite R4. apply changed_cells.
  - apply (edited contexts fs); [done..|apply He|]. intros f k. rewrite R4. apply changed_cells.
  - apply (context_after fs); [done..|]. intros f. rewrite R4. apply changed_cells.
  - rewrite Hext, (edit_extensions _ He), Hstart. transitivity (Extensions (merged fs prec)); [|by destruct resolving].
    apply map_eq. intros k. rewrite !(merged_map Extensions) by (done || apply Extensions_keyed). f_equal.
    apply list_omap_ext, Forall2_same_length_lookup_2; [done|]. intros i f f' Hf Hf'. rewrite Hf in Hf'. injection Hf' as <-.
    rewrite R4. f_equal. apply changed_cells.
Qed.

End stages.

End codec.

(** *** Locks *)

Definition locked (filenames : list string) (fs : FS) : FS := fold_left (fun fs f => <[lockName f := empty_bytes]> fs) filenames fs.
Definition unlocked (filenames : list string) (fs : FS) : FS := foldr (fun f fs => delete (lockName f) fs) fs filenames.

(** A lock that can be had. *)
Definition lock_free (fs : FS) (f : string) : Prop := fs !! lockName f = None /\ write_fault faults (lockName f) = None.

Lemma with_locks_exact {X} filenames (m : M X) : forall fs fs2 x,
  NoDup filenames -> Forall (lock_free fs) filenames -> m (locked filenames fs) = (fs2, inr x) ->
  with_locks filenames m fs = (unlocked filenames fs2, inr x).
Proof.
  induction filenames as [|f l IH]; intros fs fs2 x Hd Hf Hm; [exact Hm|].
  apply NoDup_cons in Hd as [Hn Hd]. apply Forall_cons in Hf as [[Hf Hw] Hl]. cbn [with_locks unlocked foldr].
  unfold Kubeconfig.bind, Kubeconfig.lockFile, os_Create. rewrite Hw, Hf. unfold deferred.
  rewrite (IH (<[lockName f := empty_bytes]> fs) fs2 x); [|done| |exact Hm].
  - unfold Kubeconfig.unlockFile, os_Remove. by rewrite Hw.
  - rewrite Forall_forall in Hl |- *. intros g Hg. destruct (Hl g Hg) as [H1 H2]. split; [|done].
    rewrite lookup_insert_ne; [done|]. intros He. apply append_inj_r in He as ->. done.
Qed.

Lemma locked_lookup filenames : forall fs f, f ∉ lockName <$> filenames -> locked filenames fs !! f = fs !! f.
Proof.
  induction filenames as [|g l IH]; intros fs f Hf; [done|]. rewrite fmap_cons, not_elem_of_cons in Hf. destruct Hf as [Hg Hf].
  cbn [locked fold_left]. change (fold_left _ l ?x) with (locked l x). rewrite IH by done. by rewrite lookup_insert_ne.
Qed.

Lemma unlocked_lookup filenames fs f : unlocked filenames fs !! f = if decide (f ∈ lockName <$> filenames) then None else fs !! f.
Proof.
  induction filenames as [|g l IH]; [by rewrite decide_False by (by intros ?%elem_of_nil)|]. cbn [unlocked foldr]. rewrite fmap_cons.
  destruct (decide (lockName g = f)) as [<-|Hne]; [rewrite lookup_delete_eq, decide_True; [done|left]|].
  rewrite lookup_delete_ne by done. change (foldr _ fs l) with (unlocked l fs). rewrite IH.
  destruct (decide (f ∈ lockName <$> l)) as [Hin|Hout]; [by rewrite decide_True by (by right)|].
  rewrite decide_False; [done|]. by intros [?|?]%elem_of_cons.
Qed.

(** *** The theorem *)

Section round_trip.
Context {A : Type} `{HA : ConfigAccess A} (a : A) (prec : list string) `{!Lawful a prec}.

Lemma view_ext fs fs' f : fs' !! f = fs !! f -> view fs' f = view fs f.
Proof. intros He. unfold view. by rewrite He. Qed.

Lemma merged_ext fs fs' : (forall f, f ∈ prec -> fs' !! f = fs !! f) -> merged fs' prec = merged fs prec.
Proof.
  intros He. unfold merged. f_equal. apply list_omap_ext, Forall2_same_length_lookup_2; [done|]. intros i f f' Hf Hf'.
  rewrite Hf in Hf'. injection Hf' as <-. assert (Hin : f ∈ prec) by (by eapply list_elem_of_lookup_2).
  unfold loaded. by rewrite (He f Hin), (view_ext fs fs' f (He f Hin)).
Qed.

Lemma sound_ext fs fs' : (forall f, f ∈ prec -> fs' !! f = fs !! f) -> Forall (sound fs) prec -> Forall (sound fs') prec.
Proof.
  intros He Hs. rewrite Forall_forall in Hs |- *. intros f Hf. destruct (Hs f Hf) as (H1 & H2 & H3 & H4 & H5). split_and!; try done.
  intros b. rewrite (He f Hf). apply H5.
Qed.

Lemma lens_edit_ext {B} `{EqDecision B} (l : lens B) `{!LensRefs l} fs fs' start new d rel : (forall f, f ∈ prec -> fs' !! f = fs !! f) ->
  lens_edit a prec start new d rel l fs -> lens_edit a prec start new d rel l fs'.
Proof.
  intros He [E1 E2 E3]. split; [done|done|]. intros k s0 f Hs0 Hk Hf. rewrite (view_ext fs fs' f (He f Hf)). by apply E3.
Qed.

Lemma edit_ext fs fs' start new d rel : (forall f, f ∈ prec -> fs' !! f = fs !! f) -> edit a prec start new d rel fs -> edit a prec start new d rel fs'.
Proof.
  intros He [E1 E2 E3 E4 E5 E6].
  assert (Hv : forall f, f ∈ prec -> view fs' f = view fs f) by (intros f Hf; apply view_ext; by apply He).
  split; try (by apply (lens_edit_ext _ fs)); [| |done].
  - destruct E4 as [?|[?|E4]]; [by left|by right; left|right; right]. intros f g Hf Hg. rewrite !Hv by done. by apply E4.
  - destruct E5 as [?|(f & rest & Hp & [Hf Ho] & Hr)]; [by left|right]. exists f, rest. split; [done|]. split; [split; [done|by rewrite He]|].
    rewrite Forall_forall in Hr |- *. intros g Hg. rewrite Hv by (rewrite Hp; by right). by apply Hr.
Qed.

Lemma default_ext fs fs' : (forall f, f ∈ prec -> fs' !! f = fs !! f) -> default_of (a := a) fs' = default_of (a := a) fs.
Proof.
  intros He. apply lawful_stable; intros f Hf; rewrite He by done; auto.
Qed.


End round_trip.

(** ** PathOptions are a lawful access *)

Lemma deduplicate_NoDup l : NoDup (deduplicate l).
Proof.
  unfold deduplicate. apply NoDup_ListNoDup, NoDup_rev, NoDup_ListNoDup.
  enough (H2 : forall ret, NoDup ret -> NoDup (fold_left (fun ret x => if decide (x ∈ ret) then ret else x :: ret) l ret)) by (apply H2; constructor).
  induction l as [|x l IH]; intros ret Hr; [done|]. cbn [fold_left]. apply IH. case_decide; [done|]. by constructor.
Qed.

Lemma read_files_sound files fs : Forall (sound fs) files ->
  read_files bytes is_empty unmarshal faults files fs = (fs, inr (omap (loaded fs) files, [])).
Proof.
  induction 1 as [|f files Hf _ IH]; [done|]. cbn [read_files omap list_omap]. rewrite decide_False by (by destruct Hf).
  unfold Kubeconfig.bind at 1. unfold Kubeconfig.attempt at 1. rewrite LoadFromFile_sound by done. unfold Kubeconfig.bind. rewrite IH.
  change (loaded fs f) with (if fs !! f is Some _ then Some (relocate f (view fs f)) else None). by destruct (fs !! f).
Qed.

Lemma merge_all_nil : merge_all [] = NewConfig.
Proof.
  unfold merge_all. cbn. rewrite !Merge_override. unfold override. cbn. by rewrite !map_union_empty.
Qed.

Lemma migrated_quiet rules prec fs : migrated (MigrationRules rules) prec fs -> Migrate bytes faults rules fs = (fs, inr tt).
Proof.
  intros Hm. unfold Migrate.
  assert (Hin : forall x, x ∈ range (MigrationRules rules) -> MigrationRules rules !! x.1 = Some x.2) by (intros [k y] Hx; by apply elem_of_range).
  induction (range (MigrationRules rules)) as [|[dst src] l IH]; [done|]. cbn [Kubeconfig.for_each].
  destruct (Hm dst src (Hin (dst, src) ltac:(left))) as (Hne & Hd & Hs & Hor).
  assert (Hone : migrate_one bytes faults (dst, src) fs = (fs, inr tt)).
  { unfold migrate_one, Kubeconfig.bind, Kubeconfig.attempt, Kubeconfig.os_Stat, content. rewrite Hd, Hs, decide_False by done.
    destruct (fs !! dst) as [b|] eqn:Hb; [done|]. destruct Hor as [[? ?]|(Hor & _)]; [done|]. cbn. case_decide; [done|]. by rewrite Hor. }
  unfold Kubeconfig.bind at 1. rewrite Hone. apply IH. intros x Hx. apply Hin. by right.
Qed.

(** The rules, once the migrations have been done. *)
Lemma rules_start rules files fs : files = rules_GetLoadingPrecedence rules -> Forall (sound fs) files -> migrated (MigrationRules rules) files fs ->
  rules_GetStartingConfig bytes is_empty unmarshal faults wd rules fs =
    (fs, inr (as_loaded (negb (DoNotResolvePaths rules)) (merged fs files))).
Proof.
  intros -> Hs Hm. unfold rules_GetStartingConfig, Kubeconfig.bind at 1, Kubeconfig.attempt, rules_Load.
  unfold Kubeconfig.bind at 1. rewrite (migrated_quiet rules _ fs Hm). unfold rules_GetLoadingPrecedence in *.
  assert (Hres : forall c, (if DoNotResolvePaths rules then c else ResolveLocalPaths wd c) = as_loaded (negb (DoNotResolvePaths rules)) c)
    by (intros c; by destruct (DoNotResolvePaths rules)).
  destruct (decide (ExplicitPath rules = "")) as [He|He].
  - unfold Kubeconfig.bind. cbn [Kubeconfig.ret]. rewrite read_files_sound by done. by rewrite <- Hres.
  - pose proof (Forall_inv Hs) as (Hne & Hst & _).
    unfold Kubeconfig.bind at 1 2. unfold Kubeconfig.attempt, Kubeconfig.os_Stat, content. rewrite Hst, decide_False by done.
    destruct (fs !! ExplicitPath rules) as [b|] eqn:Hb.
    + cbn [Kubeconfig.ret]. unfold Kubeconfig.bind. rewrite read_files_sound by done. by rewrite <- Hres.
    + cbn. unfold merged. cbn. unfold loaded. rewrite Hb. rewrite merge_all_nil. unfold as_loaded, ResolveLocalPaths.
      destruct (DoNotResolvePaths rules); [done|]. cbn. by rewrite !fmap_empty.
Qed.

(** The first of some files that is there, or another one. *)
Definition default_among (other : string) (files : list string) (fs : FS) : string :=
  match List.find (fun f => bool_decide (is_Some (fs !! f))) files with Some f => f | None => other end.

Lemma first_existing_sound files fs : Forall (sound fs) files ->
  first_existing bytes faults files fs = (fs, inr (List.find (fun f => bool_decide (is_Some (fs !! f))) files)).
Proof.
  induction 1 as [|f files Hf _ IH]; [done|]. cbn [first_existing List.find]. destruct Hf as (Hne & Hst & _).
  unfold Kubeconfig.bind, Kubeconfig.attempt, Kubeconfig.os_Stat, content. rewrite Hst, decide_False by done.
  destruct (fs !! f) as [b|]; [by rewrite bool_decide_true|]. rewrite bool_decide_false by (by intros [? ?]). exact IH.
Qed.

Lemma default_among_first other files fs : other ∈ files ->
  exists l1 l2, files = l1 ++ default_among other files fs :: l2 /\ Forall (fun f => fs !! f = None) l1.
Proof.
  unfold default_among. intros Hne.
  assert (Hind : forall files, (exists l1 f l2, List.find (fun f => bool_decide (is_Some (fs !! f))) files = Some f /\ files = l1 ++ f :: l2 /\
      Forall (fun f => fs !! f = None) l1) \/
    List.find (fun f => bool_decide (is_Some (fs !! f))) files = None /\ Forall (fun f => fs !! f = None) files).
  { clear. induction files as [|f files IH]; [by right|]. cbn [List.find]. case_bool_decide as Hf; [left; by exists [], f, files|].
    apply eq_None_not_Some in Hf. destruct IH as [(l1 & g & l2 & G1 & -> & G3)|[G1 G2]].
    - left. exists (f :: l1), g, l2. split_and!; [done|done|by constructor].
    - right. split; [done|by constructor]. }
  destruct (Hind files) as [(l1 & f & l2 & -> & -> & Hl)|[-> Hl]]; [by exists l1, l2|].
  apply list_elem_of_split in Hne as (l1 & l2 & ->). exists l1, l2. split; [done|]. by apply Forall_app in Hl as [Hl _].
Qed.

Lemma default_among_stable other files fs fs' :
  (forall f, f ∈ files -> is_Some (fs !! f) -> is_Some (fs' !! f)) ->
  (forall f, f ∈ files -> is_Some (fs' !! f) -> is_Some (fs !! f) \/ f = default_among other files fs) ->
  default_among other files fs' = default_among other files fs.
Proof.
  intros Hkeep Hnew. set (d := default_among other files fs) in *.
  assert (Hind : forall l, (forall f, f ∈ l -> f ∈ files) ->
    List.find (fun f => bool_decide (is_Some (fs !! f))) l = Some d \/ List.find (fun f => bool_decide (is_Some (fs !! f))) l = None ->
    match List.find (fun f => bool_decide (is_Some (fs' !! f))) l with Some f => f = d | None => List.find (fun f => bool_decide (is_Some (fs !! f))) l = None end).
  { induction l as [|f l IH]; intros Hl Hf; [done|]. cbn [List.find] in *. assert (Hin : f ∈ files) by (apply Hl; left).
    destruct (bool_decide_reflect (is_Some (fs !! f))) as [Hf1|Hf1].
    - destruct Hf as [[= ->]|]; [|done]. rewrite bool_decide_true by (by apply Hkeep). done.
    - destruct (bool_decide_reflect (is_Some (fs' !! f))) as [Hf2|Hf2]; [by destruct (Hnew f Hin Hf2)|].
      apply IH; [|done]. intros g Hg. apply Hl. by right. }
  specialize (Hind files (fun f Hf => Hf)). unfold default_among. unfold d, default_among in Hind.
  destruct (List.find (fun f => bool_decide (is_Some (fs !! f))) files) as [f0|] eqn:Hf0.
  - specialize (Hind (or_introl eq_refl)). unfold d, default_among. rewrite Hf0. by destruct (List.find (fun f => bool_decide (is_Some (fs' !! f))) files).
  - specialize (Hind (or_intror eq_refl)). unfold d, default_among. rewrite Hf0. by destruct (List.find (fun f => bool_decide (is_Some (fs' !! f))) files).
Qed.

(** *** Accesses that are lawful *)

Section lawful.
Variable o : PathOptions.

Lemma path_start fs : Forall (sound fs) (path_GetLoadingPrecedence o) -> migrated (MigrationRules (LoadingRules o)) (path_GetLoadingPrecedence o) fs ->
  path_GetStartingConfig o fs =
    (fs, inr (as_loaded (negb (DoNotResolvePaths (LoadingRules o))) (merged fs (path_GetLoadingPrecedence o)))).
Proof.
  intros Hs Hm. apply (rules_start (with_precedence (LoadingRules o) (path_GetLoadingPrecedence o))); [|done|done].
  unfold rules_GetLoadingPrecedence, path_GetLoadingPrecedence, path_IsExplicitFile. cbn [ExplicitPath Precedence with_precedence].
  destruct (decide (ExplicitPath (LoadingRules o) = "")) as [->|He]; [done|]. by rewrite (proj2 (String.eqb_neq _ _) He).
Qed.

(** Where none of them is there, the last file of the environment is the default. *)
Definition path_other : string := default "" (last (path_GetLoadingPrecedence o)).

#[local] Instance path_lawful : Lawful o (path_GetLoadingPrecedence o).
Proof.
  assert (Hall : path_GetLoadingPrecedence o <> []).
  { unfold path_GetLoadingPrecedence. destruct (path_IsExplicitFile o); [done|]. by destruct (GetEnvVarFiles o). }
  refine {| default_of := default_among path_other (path_GetLoadingPrecedence o); migrations := MigrationRules (LoadingRules o);
            resolving := negb (DoNotResolvePaths (LoadingRules o));
            lawful_precedence := eq_refl; lawful_sorted := eq_refl; lawful_start := path_start |}.
  - intros fs Hs. change (Forall (sound fs) (path_GetLoadingPrecedence o)) in Hs. cbn.
    unfold path_other, path_GetDefaultFilename, path_GetLoadingPrecedence in *. revert Hs. destruct (path_IsExplicitFile o); intros Hs.
    { unfold default_among. cbn. by case_bool_decide. }
    revert Hs. destruct (GetEnvVarFiles o) as [|f [|g l]]; intros Hs; [unfold default_among; cbn; by case_bool_decide..|].
    unfold Kubeconfig.bind. rewrite first_existing_sound by done. done.
  - intros fs. apply default_among_first. unfold path_other. destruct (exists_last Hall) as (l & x & ->). rewrite last_snoc. cbn.
    apply elem_of_app. right. left.
  - intros fs fs'. apply default_among_stable.
  - cbn. intros He. unfold path_GetLoadingPrecedence. by rewrite He.
  - change (NoDup (path_GetLoadingPrecedence o)). unfold path_GetLoadingPrecedence. destruct (path_IsExplicitFile o); [apply NoDup_singleton|].
    assert (Hd : NoDup (GetEnvVarFiles o)).
    { unfold GetEnvVarFiles. repeat case_decide; [constructor|constructor|apply deduplicate_NoDup]. }
    destruct (GetEnvVarFiles o); [apply NoDup_singleton|done].
Defined.

End lawful.

Section lawful_rules.
Variable rules : ClientConfigLoadingRules.
Hypothesis once : NoDup (rules_GetLoadingPrecedence rules).
Hypothesis some : rules_GetLoadingPrecedence rules <> [].
Hypothesis in_order : sort_Strings (Precedence rules) = Precedence rules.

(** Rules whose files are in the order of their names. *)
#[local] Instance rules_lawful : Lawful rules (rules_GetLoadingPrecedence rules).
Proof.
  refine {| default_of := default_among (hd "" (rules_GetLoadingPrecedence rules)) (rules_GetLoadingPrecedence rules);
            migrations := MigrationRules rules; resolving := negb (DoNotResolvePaths rules);
            lawful_NoDup := once |}; [done|..].
  - cbn. rewrite in_order. destruct rules as [e p m r]. cbn. by case_decide.
  - intros fs Hs Hm. by apply rules_start.
  - intros fs Hs. change (Forall (sound fs) (rules_GetLoadingPrecedence rules)) in Hs. cbn. unfold rules_GetDefaultFilename.
    unfold rules_GetLoadingPrecedence in *. destruct (decide (ExplicitPath rules = "")) as [He|He].
    + unfold Kubeconfig.bind. rewrite first_existing_sound by done. done.
    + unfold default_among. cbn. by case_bool_decide.
  - intros fs. apply default_among_first. destruct (rules_GetLoadingPrecedence rules); [done|left].
  - intros fs fs'. apply default_among_stable.
  - cbn. unfold rules_GetLoadingPrecedence. destruct (String.eqb_spec (ExplicitPath rules) "") as [He|He]; [done|]. by rewrite decide_False.
Defined.

End lawful_rules.

End access.

(** ** Two files *)

Module samples.

#[local] Existing Instance range_in_key_order.
#[local] Existing Instance overriding.

Import Kubeconfig.samples.

Definition getenv (name : string) : string := if String.eqb name "KUBECONFIG" then "a:b" else "".
Definition options : PathOptions := mkPathOptions "home" "KUBECONFIG" (rules []).

Definition access : ConfigAccess bytes PathOptions := path_access bytes is_empty unmarshal no_faults "/" getenv.
Definition rules_as_access : ConfigAccess bytes ClientConfigLoadingRules := rules_access bytes is_empty unmarshal no_faults "/".

Definition load {A} (HA : ConfigAccess bytes A) (a : A) (fs : gmap string bytes) : Config :=
  match GetStartingConfig bytes a fs with (_, inr c) => c | _ => NewConfig end.

Definition modify {A} (HA : ConfigAccess bytes A) (a : A) (new : Config) : A * M bytes unit :=
  ModifyConfig bytes None is_empty Some unmarshal no_faults "/" true a new false.

Definition start_ab : Config := load access options files.

(** The first file's cluster, and the second one's context. *)
Example starts : (body <$> Clusters start_ab !! "one") = Some (cluster "http://one") /\ CurrentContext start_ab = "x".
Proof. split; vm_compute; reflexivity. Qed.

(** A new cluster, one changed in the second file, and another context. *)
Definition new_ab : Config :=
  with_context "y" (put _ clusters (<["three" := mkStanza "" (cluster "http://three")]>
    (<["two" := mkStanza "b" (cluster "http://two.two")]> (Clusters start_ab))) start_ab).

Example changes_two_files :
  let fs := ((modify access options new_ab).2 files).1 in
  body <$> Clusters (load access options fs) = body <$> Clusters new_ab /\ CurrentContext (load access options fs) = "y" /\
  dom fs = {[ "a"; "b" ]}.
Proof. split_and!; vm_compute; reflexivity. Qed.

Lemma files_codec : codec_ok bytes is_empty Some unmarshal.
Proof. by split. Qed.

(** The default options with two files in KUBECONFIG.  A cluster is added and another one
    changed, with certificates beside the files, a third one is deleted, and the context is
    another. *)
Definition defaults_env (name : string) : string :=
  if String.eqb name "KUBECONFIG" then "/k/a:/k/b" else if String.eqb name "HOME" then "/root" else "".
Definition defaults : PathOptions := NewDefaultPathOptions defaults_env.
Definition default_access : ConfigAccess bytes PathOptions := path_access bytes is_empty unmarshal no_faults "/" defaults_env.

Definition homes : gmap string bytes :=
  <["/k/a" := file {[ "one" := authority "http://one" "ca.pem" ]} ""]>
  (<["/k/b" := file (<["one" := cluster "http://other"]> (<["gone" := cluster "http://gone"]> {[ "two" := cluster "http://two" ]})) "x"]> ∅).

Definition start : Config := Eval vm_compute in load default_access defaults homes.

Definition three : Cluster := authority "http://three" "/k/certs/three.pem".
Definition two : Cluster := authority "http://two.two" "/k/two.pem".

Definition new : Config :=
  with_context "y" (put _ clusters (<["three" := mkStanza "" three]> (<["two" := mkStanza "/k/b" two]> (delete "gone" (Clusters start)))) start).

#[local] Instance lawful : Lawful bytes is_empty unmarshal no_faults "/" (HA := default_access) defaults ["/k/a"; "/k/b"] :=
  path_lawful bytes is_empty unmarshal no_faults "/" defaults_env defaults.

(** So are the default rules, without KUBECONFIG. *)
Definition home_env (name : string) : string := if String.eqb name "HOME" then "/root" else "".

Definition lawful_default_rules : Lawful bytes is_empty unmarshal no_faults "/" (HA := rules_as_access)
    (NewDefaultClientConfigLoadingRules home_env) ["/root/.kube/config"] :=
  rules_lawful bytes is_empty unmarshal no_faults "/" (NewDefaultClientConfigLoadingRules home_env) (NoDup_singleton _)
    ltac:(discriminate) eq_refl.

Lemma file_sound f c : f <> "" -> homes !! f = Some (Some (to_v1 c)) -> sound bytes is_empty unmarshal no_faults homes f.
Proof.
  intros Hne Hf. split_and!; try done. intros b Hb. pose proof (eq_trans (eq_sym Hf) Hb) as He. injection He as <-. eexists. exact (Load_Write _ _ _ _ files_codec c).
Qed.

Lemma start_files k s : Clusters start !! k = Some s -> k = "one" \/ k = "two" \/ k = "gone".
Proof.
  assert (Hd : dom (Clusters start) = {[ "one"; "two"; "gone" ]}) by (vm_compute; reflexivity). intros Hk.
  apply elem_of_dom_2 in Hk. rewrite Hd in Hk. set_solver.
Qed.

Lemma new_is_edit : edit bytes is_empty unmarshal no_faults "/" (HA := default_access) defaults ["/k/a"; "/k/b"] start new "/k/a" true homes.
Proof.
  split.
  - change (get _ clusters) with Clusters.
    assert (Hnew : Clusters new = <["three" := mkStanza "" three]> (<["two" := mkStanza "/k/b" two]> (delete "gone" (Clusters start)))) by reflexivity.
    split; change (get _ clusters) with Clusters; rewrite ?Hnew.
    + intros k s Hk. apply lookup_insert_Some in Hk as [[<- <-]|[_ Hk]]; [vm_compute; reflexivity|].
      apply lookup_insert_Some in Hk as [[<- <-]|[_ Hk]]; [vm_compute; reflexivity|]. apply lookup_delete_Some in Hk as [_ Hk]. by rewrite Hk.
    + intros k s Hk Hdiff _. apply lookup_insert_Some in Hk as [[<- <-]|[_ Hk]]; [right; split; [reflexivity|intros _; vm_compute; reflexivity]|].
      apply lookup_insert_Some in Hk as [[<- <-]|[_ Hk]]; [right; split; [reflexivity|intros _; vm_compute; reflexivity]|].
      apply lookup_delete_Some in Hk as [_ Hk]. unfold differs in Hdiff. apply negb_true_iff, bool_decide_eq_false in Hdiff. by destruct Hdiff.
    + intros k s0 f Hs0 Hk Hf Hv. destruct (start_files k s0 Hs0) as [->|[->| ->]]; [exfalso; revert Hk; vm_compute; discriminate..|].
      assert (Hs : s0 = mkStanza "/k/b" (cluster "http://gone")) by (revert Hs0; vm_compute; congruence). subst s0. cbn [LocationOfOrigin].
      apply elem_of_cons in Hf as [->|Hf]; [exfalso; revert Hv; vm_compute; by intros [? ?]|by apply list_elem_of_singleton in Hf].
  - split; change (get _ users new) with (get _ users start); [by intros k s ->| |intros; congruence].
    intros k s Hk Hdiff. unfold differs in Hdiff. apply negb_true_iff, bool_decide_eq_false in Hdiff. by destruct Hdiff.
  - split; change (get _ contexts new) with (get _ contexts start); [by intros k s ->| |intros; congruence].
    intros k s Hk Hdiff. unfold differs in Hdiff. apply negb_true_iff, bool_decide_eq_false in Hdiff. by destruct Hdiff.
  - left. discriminate.
  - left. reflexivity.
  - reflexivity.
Qed.

Lemma relocated_key c c' k : relocate "" c = relocate "" c' -> body <$> Clusters c !! k = body <$> Clusters c' !! k.
Proof.
  intros He. apply (f_equal (fun c => body <$> Clusters c !! k)) in He. cbn [Clusters relocate] in He. rewrite !lookup_move in He.
  by destruct (Clusters c !! k), (Clusters c' !! k).
Qed.


(** Finding: the rules hand out their own precedence, which is sorted for the locks.  The
    context is then written to the file that is first by name; with the precedence that
    was meant it is not seen, and the rules are left in the other order. *)
Definition backwards : ClientConfigLoadingRules := rules ["b"; "a"].

Example sorted_rules_lose_context :
  let '(after, change) := modify rules_as_access backwards (with_context "z" (load rules_as_access backwards files)) in
  (change files).2 = inr tt /\ CurrentContext (load rules_as_access backwards (change files).1) = "x" /\ Precedence after = ["a"; "b"].
Proof. vm_compute. split_and!; reflexivity. Qed.

(** What the theorem leaves out: a stanza that is deleted where it came from shows what
    another file has under its name. *)
Example deleted_shows_the_next :
  let fs := ((modify access options (put _ clusters (delete "one" (Clusters start_ab)) start_ab)).2 files).1 in
  body <$> Clusters (load access options fs) !! "one" = Some (cluster "http://other").
Proof. vm_compute. reflexivity. Qed.

(** So does a context that is cleared where two files set it. *)
Definition both_set : gmap string bytes := <["a" := file ∅ "y"]> {[ "b" := file ∅ "x" ]}.

Example cleared_shows_the_next :
  let start := load access options both_set in
  let '(fs, r) := (modify access options (with_context "" start)).2 both_set in
  r = inr tt /\ CurrentContext start = "y" /\ CurrentContext (load access options fs) = "x".
Proof. vm_compute. split_and!; reflexivity. Qed.

(** Finding: the extensions of the configuration are compared and not written. *)
Example extensions_are_lost :
  let new := mkConfig (Prefs start_ab) (Clusters start_ab) (AuthInfos start_ab) (Contexts start_ab) (CurrentContext start_ab) {[ "e" := "x" ]} in
  let '(fs, r) := (modify access options new).2 files in r = inr tt /\ Extensions (load access options fs) = ∅.
Proof. vm_compute. split; reflexivity. Qed.

(** Finding: the command of an exec plugin that lies beside the file becomes a bare name when
    it is made relative, which is not resolved when it is read but looked for in PATH. *)
Example command_beside_the_file :
  let login := mkAuthInfo "" "" "" "" "" "" "" "" [] ∅ "" "" None (Some (mkExec "/k/login" [] [] "v1" "" false "Never")) ∅ in
  match relativize_stanza "/" map_user_refs (mkStanza "/k/a" login) with
  | inr s => Command <$> Exec (body (resolved "/" map_user_refs s)) = Some "login"
  | inl _ => False
  end.
Proof. vm_compute. reflexivity. Qed.

(** Finding: preferences go to the first file whose preferences are others, not to the
    default one. *)
Definition colored : gmap string bytes :=
  <["a" := Some (to_v1 NewConfig)]> (<["b" := Some (to_v1 (with_preferences (mkPreferences true ∅) NewConfig))]> ∅).

Example preferences_go_elsewhere :
  let start := load access options colored in
  let fs := ((modify access options (with_preferences (mkPreferences false ∅) start)).2 colored).1 in
  Colors (Prefs start) = true /\ (GetDefaultFilename bytes (ConfigAccess := access) options colored).2 = inr "a" /\
  (if fs !! "b" is Some (Some v) then v1_colors v else true) = false.
Proof. vm_compute. split_and!; reflexivity. Qed.

End samples.
