(* ===== verification/EventsV1.v ===== *)
(** * Recording of events/v1 events

    [Reference]: tools/reference/ref.go.  [FieldSelector]: tools/events/helper.go.
    [Broadcaster]: tools/events/event_recorder.go and event_broadcaster.go: a cache of
    the events that go on, each a singleton or a series with its count, goroutines that
    record single events with retries, and two loops that refresh and finish series, as
    a step relation. *)

From S2P Require Import Prelude EventCorrelator.

(** ** References to objects *)

Module Reference.

Record ObjectReference : Type := mkReference {
  Kind : string;
  APIVersion : string;
  ref_Name : string;
  ref_Namespace : string;
  UID : string;
  ref_ResourceVersion : string;
  FieldPath : string
}.

#[export] Instance ObjectReference_eq_dec : EqDecision ObjectReference.
Proof. solve_decision. Defined.

#[export] Instance ObjectReference_countable : Countable ObjectReference.
Proof.
  refine (inj_countable'
    (fun r => (Kind r, APIVersion r, ref_Name r, ref_Namespace r, UID r, ref_ResourceVersion r, FieldPath r))
    (fun '(k, a, n, s, u, v, f) => mkReference k a n s u v f) _).
  by intros [].
Defined.

Record ObjectMeta : Type := mkMeta {
  GetName : string;
  GetNamespace : string;
  GetUID : string;
  GetResourceVersion : string
}.

Record GroupVersion : Type := mkGV { Group : string; Version : string }.
Record GroupVersionKind : Type := mkGVK { gvk_GroupVersion : GroupVersion; gvk_Kind : string }.

(** k8s.io/apimachinery's schema package. *)
Class Schema : Type := {
  gv_String : GroupVersion -> string;
  gv_Empty : GroupVersion -> bool;
  gvk_Empty : GroupVersionKind -> bool
}.

(** A [runtime.Object]: nil, a reference, or another, of which meta.Accessor,
    meta.CommonAccessor, its kind and the scheme know something. *)
Inductive Object (A : Type) : Type :=
| NilObject
| ARef (ref : ObjectReference)
| AnObject (obj : A).
#[global] Arguments NilObject {_}.
#[global] Arguments ARef {_} _.
#[global] Arguments AnObject {_} _.

Inductive error (E : Type) : Type := ErrNilObject | ErrUnexpectedGVKs | ErrOther (err : E).
#[global] Arguments ErrNilObject {_}.
#[global] Arguments ErrUnexpectedGVKs {_}.
#[global] Arguments ErrOther {_} _.

Class Access (A E : Type) : Type := {
  Accessor : A -> ObjectMeta + E;
  (** The resource version of an object that has only list metadata. *)
  CommonAccessor : A -> string + E;
  object_GroupVersionKind : A -> GroupVersionKind;
  ObjectKinds : A -> list GroupVersionKind + E
}.

Section ref.
Context `{Schema} {A E : Type} `{Access A E}.

Definition GetReference (obj : Object A) : ObjectReference + error E :=
  match obj with
  | NilObject => inr ErrNilObject
  | ARef ref => inl ref
  | AnObject obj =>
      let metadata : (option ObjectMeta * string) + E :=
        match Accessor obj with
        | inl objectMeta => inl (Some objectMeta, GetResourceVersion objectMeta)
        | inr _ => match CommonAccessor obj with inl rv => inl (None, rv) | inr err => inr err end
        end in
      match metadata with
      | inr err => inr (ErrOther err)
      | inl (objectMeta, rv) =>
          let gvk := object_GroupVersionKind obj in
          let kind : GroupVersionKind + error E :=
            if gvk_Empty gvk then
              match ObjectKinds obj with
              | inr err => inr (ErrOther err)
              | inl [] => inr ErrUnexpectedGVKs
              | inl (gvk :: _) => if gvk_Empty gvk then inr ErrUnexpectedGVKs else inl gvk
              end
            else inl gvk in
          match kind with
          | inr err => inr err
          | inl gvk =>
              let version := gv_String (gvk_GroupVersion gvk) in
              match objectMeta with
              | None => inl (mkReference (gvk_Kind gvk) version "" "" "" rv "")
              | Some m =>
                  inl (mkReference (gvk_Kind gvk) version (GetName m) (GetNamespace m) (GetUID m) (GetResourceVersion m) "")
              end
          end
      end
  end.

Definition set_FieldPath (fieldPath : string) (r : ObjectReference) : ObjectReference :=
  mkReference (Kind r) (APIVersion r) (ref_Name r) (ref_Namespace r) (UID r) (ref_ResourceVersion r) fieldPath.

(** The reference to a reference is the same pointer: the caller's object is changed
    with it. *)
Definition GetPartialReference (obj : Object A) (fieldPath : string) : Object A * (ObjectReference + error E) :=
  match GetReference obj with
  | inr err => (obj, inr err)
  | inl ref =>
      let ref := set_FieldPath fieldPath ref in
      (match obj with ARef _ => ARef ref | _ => obj end, inl ref)
  end.

(** What a reference without a field path says of the object: a second look at it gives
    the reference again, and its kind is known. *)
Lemma GetReference_stable obj ref : GetReference obj = inl ref -> GetReference (ARef ref) = inl ref.
Proof. done. Qed.

End ref.
End Reference.

(** ** Selectors of events *)

Module FieldSelector.
Import Reference.

Section selector.
Context `{Schema} (eventsv1 eventsv1beta1 corev1 : GroupVersion).

#[local] Instance GroupVersion_eq_dec : EqDecision GroupVersion.
Proof. solve_decision. Defined.

(** The literal of [mapping]. *)
Definition mapping (gv : GroupVersion) : option string :=
  if decide (gv = eventsv1) then Some "regarding"
  else if decide (gv = eventsv1beta1) then Some "regarding"
  else if decide (gv = corev1) then Some "involvedObject"
  else None.

(** The set the selector is made of; [None] is the error. *)
Definition GetFieldSelector (eventsGroupVersion : GroupVersion) (regardingGroupVersionKind : GroupVersionKind)
    (regardingName regardingUID : string) : option (gmap string string) :=
  match mapping eventsGroupVersion with
  | None => None
  | Some prefix =>
      let field : gmap string string := ∅ in
      let field := if decide (regardingName = "") then field else <[prefix +:+ ".name" := regardingName]> field in
      let field :=
        if decide (gvk_Kind regardingGroupVersionKind = "") then field
        else <[prefix +:+ ".kind" := gvk_Kind regardingGroupVersionKind]> field in
      let gv := gvk_GroupVersion regardingGroupVersionKind in
      let field := if gv_Empty gv then field else <[prefix +:+ ".apiVersion" := gv_String gv]> field in
      Some (if decide (regardingUID = "") then field else <[prefix +:+ ".uid" := regardingUID]> field)
  end.

End selector.
End FieldSelector.

(** ** The broadcaster *)

Module Broadcaster.
Import Reference.

Record EventSeries : Type := mkSeries { Count : Z; LastObservedTime : Z }.

Record Event : Type := mkEvent {
  Name : string;
  Namespace : string;
  ResourceVersion : string;
  EventTime : Z;
  Series : option EventSeries;
  ReportingController : string;
  ReportingInstance : string;
  Action : string;
  Reason : string;
  Regarding : ObjectReference;
  Related : option ObjectReference;
  Note : string;
  Type_ : string
}.

Definition set_Series (s : option EventSeries) (e : Event) : Event :=
  mkEvent (Name e) (Namespace e) (ResourceVersion e) (EventTime e) s (ReportingController e) (ReportingInstance e)
    (Action e) (Reason e) (Regarding e) (Related e) (Note e) (Type_ e).

Definition set_ResourceVersion (rv : string) (e : Event) : Event :=
  mkEvent (Name e) (Namespace e) rv (EventTime e) (Series e) (ReportingController e) (ReportingInstance e)
    (Action e) (Reason e) (Regarding e) (Related e) (Note e) (Type_ e).

Record eventKey : Type := mkKey {
  eventType : string;
  action : string;
  reason : string;
  reportingController : string;
  reportingInstance : string;
  regarding : ObjectReference;
  related : ObjectReference
}.

#[export] Instance eventKey_eq_dec : EqDecision eventKey.
Proof. solve_decision. Defined.

#[export] Instance eventKey_countable : Countable eventKey.
Proof.
  refine (inj_countable'
    (fun k => (eventType k, action k, reason k, reportingController k, reportingInstance k, regarding k, related k))
    (fun '(t, a, r, c, i, g, d) => mkKey t a r c i g d) _).
  by intros [].
Defined.

Abbreviation cache := (gmap eventKey Event).

Definition getKey (event : Event) : eventKey :=
  mkKey (Type_ event) (Action event) (Reason event) (ReportingController event) (ReportingInstance event)
    (Regarding event) (default (mkReference "" "" "" "" "" "" "") (Related event)).

(** *** The recorder *)

Definition makeEvent (now : Z) (refRegarding : ObjectReference) (refRelated : option ObjectReference) (timestamp : Z)
    (eventtype reason message reportingController reportingInstance action : string) : Event :=
  let namespace := if decide (ref_Namespace refRegarding = "") then "default" else ref_Namespace refRegarding in
  mkEvent (event_name (ref_Name refRegarding) now) namespace "" timestamp None reportingController reportingInstance
    action reason refRegarding refRelated message eventtype.

(** What is given to the broadcaster, if anything: [time_now] is the time of the call
    and [now] that of the recorder's clock, in Unix nanoseconds. *)
Definition Eventf `{Schema} {A E} `{Access A E} (reportingController reportingInstance : string) (time_now now : Z)
    (regarding : Object A) (related : option (Object A)) (eventtype reason action message : string) : option Event :=
  match GetReference regarding with
  | inr _ => None
  | inl refRegarding =>
      let refRelated :=
        match related with
        | None => None
        | Some related => match GetReference related with inl ref => Some ref | inr _ => None end
        end in
      if negb (ValidateEventType eventtype) then None
      else Some (makeEvent now refRegarding refRelated time_now eventtype reason message reportingController
                   reportingInstance action)
  end.

(** *** Sinks *)

(** The errors of a sink, as [recordEvent] tells them apart: a request that cannot be
    built; a status with its code and whether it says "already exists"; an unexpected
    object; any other. *)
Inductive sink_error : Type :=
| RequestConstructionError
| StatusError (code : Z) (already_exists : bool)
| UnexpectedObjectError
| OtherError.

Definition IsAlreadyExists (err : sink_error) : bool :=
  match err with StatusError _ b => b | _ => false end.

Definition IsKeyNotFoundError (err : sink_error) : bool :=
  match err with StatusError code _ => code =? 404 | _ => false end.

(** Bytes of JSON. *)
Class EventJSON : Type := {
  Bytes : Type;
  json_Marshal : Event -> option Bytes;
  CreateTwoWayMergePatch : Bytes -> Bytes -> option Bytes
}.

Definition createPatchBytesForSeries `{EventJSON} (event : Event) : option Bytes :=
  oldData ← json_Marshal (set_Series None event);
  newData ← json_Marshal event;
  CreateTwoWayMergePatch oldData newData.

(** [EventSink], for a world [W]. *)
Class EventSink `{EventJSON} (W : Type) : Type := {
  sink_Create : Event -> W -> W * (Event + sink_error);
  sink_Update : Event -> W -> W * (Event + sink_error);
  sink_Patch : Event -> Bytes -> W -> W * (Event + sink_error)
}.

(** The typed client, [EventsV1Interface]. *)
Class EventsClient `{EventJSON} (W : Type) : Type := {
  Events_Create : string -> Event -> W -> W * (Event + sink_error);
  Events_Update : string -> Event -> W -> W * (Event + sink_error);
  Events_Patch : string -> string -> Bytes -> W -> W * (Event + sink_error)
}.

Section sinks.
Context `{EventJSON} {W : Type}.

#[export] Instance EventSinkImpl `{!EventsClient W} : EventSink W := {
  sink_Create event w :=
    if decide (Namespace event = "") then (w, inr OtherError) else Events_Create (Namespace event) event w;
  sink_Update event w :=
    if decide (Namespace event = "") then (w, inr OtherError) else Events_Update (Namespace event) event w;
  sink_Patch event data w :=
    if decide (Namespace event = "") then (w, inr OtherError)
    else Events_Patch (Namespace event) (Name event) data w
}.

Context `{!EventSink W}.

(** The world, the event as it is left, the recorded event, and whether to retry. *)
Definition recordEvent (event : Event) (w : W) : W * Event * option Event * bool :=
  let isEventSeries := bool_decide (is_Some (Series event)) in
  let create w :=
    let event := set_ResourceVersion "" event in
    let '(w, res) := sink_Create event w in (w, event, res) in
  let outcome : option (W * Event * (Event + sink_error)) :=
    if isEventSeries then
      match createPatchBytesForSeries event with
      | None => None
      | Some patch =>
          match sink_Patch event patch w with
          | (w, inr err) => Some (if IsKeyNotFoundError err then create w else (w, event, inr err))
          | (w, inl newEvent) => Some (w, event, inl newEvent)
          end
      end
    else Some (create w) in
  match outcome with
  | None => (w, event, None, false)
  | Some (w, event, inl newEvent) => (w, event, Some newEvent, false)
  | Some (w, event, inr err) =>
      match err with
      | RequestConstructionError => (w, event, None, false)
      | StatusError _ _ => (w, event, None, if IsAlreadyExists err then isEventSeries else false)
      | UnexpectedObjectError | OtherError => (w, event, None, true)
      end
  end.

Definition maxTriesPerEvent : nat := 12.

(** One turn of the loop of [attemptRecording] with [tries] tries made: the result, or
    the event and the tries for the next turn. *)
Definition attempt_turn (event : Event) (tries : nat) (w : W) : W * (Event * nat + option Event) :=
  let '(w, event, recordedEvent, retry) := recordEvent event w in
  if negb retry then (w, inr recordedEvent)
  else
    let tries := S tries in
    (w, if (maxTriesPerEvent <=? tries)%nat then inr None else inl (event, tries)).

Fixpoint attempt_loop (fuel : nat) (event : Event) (tries : nat) (w : W) : option (W * option Event) :=
  match fuel with
  | 0%nat => None
  | S fuel =>
      match attempt_turn event tries w with
      | (w, inr recordedEvent) => Some (w, recordedEvent)
      | (w, inl (event, tries)) => attempt_loop fuel event tries w
      end
  end.

(** [None] would say that twelve turns were not enough. *)
Definition attemptRecording (event : Event) (w : W) : option (W * option Event) :=
  attempt_loop maxTriesPerEvent event 0 w.

(** *** The cache *)

Definition finishTime : Z := 6 * (60 * Second).
Definition refreshTime : Z := 30 * (60 * Second).

(** The body of [recordToSink]'s critical section: what is to be recorded, if
    anything. *)
Definition evToRecord (now : Z) (eventCopy : Event) (c : cache) : cache * option Event :=
  match c !! getKey eventCopy with
  | Some isomorphicEvent =>
      match Series isomorphicEvent with
      | Some s => (<[getKey eventCopy := set_Series (Some (mkSeries (wrap32 (Count s + 1)) now)) isomorphicEvent]> c, None)
      | None =>
          let isomorphicEvent := set_Series (Some (mkSeries 2 now)) isomorphicEvent in
          (<[getKey eventCopy := isomorphicEvent]> c, Some isomorphicEvent)
      end
  | None => (<[getKey eventCopy := eventCopy]> c, Some eventCopy)
  end.

(** One turn of the loop of [refreshExistingEventSeries]; the event is the cache's own,
    as [recordEvent] leaves it. *)
Definition refresh_turn (isomorphicKey : eventKey) (c : cache) (w : W) : cache * W :=
  match c !! isomorphicKey with
  | None => (c, w)
  | Some event =>
      match Series event with
      | None => (c, w)
      | Some _ =>
          let '(w, event, recordedEvent, retry) := recordEvent event w in
          let c := <[isomorphicKey := event]> c in
          match retry, recordedEvent with
          | false, Some recordedEvent => (<[isomorphicKey := recordedEvent]> c, w)
          | _, _ => (c, w)
          end
      end
  end.

(** One turn of the loop of [finishSeries], at [now]. *)
Definition finish_turn (now : Z) (isomorphicKey : eventKey) (c : cache) (w : W) : cache * W :=
  match c !! isomorphicKey with
  | None => (c, w)
  | Some event =>
      match Series event with
      | Some eventSerie =>
          if LastObservedTime eventSerie <? now - finishTime then
            let '(w, event, _, retry) := recordEvent event w in
            (if (retry : bool) then <[isomorphicKey := event]> c else delete isomorphicKey c, w)
          else (c, w)
      | None => (if EventTime event <? now - finishTime then delete isomorphicKey c else c, w)
      end
  end.

(** The loops, when nothing happens between their turns; [now] is the time at which
    each entry is looked at. *)
Definition refreshExistingEventSeries `{MapRange} (c : cache) (w : W) : cache * W :=
  foldl (fun '(c, w) k => refresh_turn k c w) (c, w) (range c).*1.

Definition finishSeries `{MapRange} (now : eventKey -> Z) (c : cache) (w : W) : cache * W :=
  foldl (fun '(c, w) k => finish_turn (now k) k c w) (c, w) (range c).*1.

End sinks.

(** *** The broadcaster as a system

    The goroutines of [recordToSink] wait for the lock, pass the critical section and
    try to record; a loop holds the lock between its turns, and tries go on meanwhile. *)

Section system.
Context `{EventJSON} `{Schema} {A E : Type} `{Access A E} `{MapRange}.

Inductive request : Type :=
| Create (namespace : string) (event : Event)
| Update (namespace : string) (event : Event)
| Patch (namespace name : string) (data : Bytes).

Definition call : Type := request * (Event + sink_error).

(** What the server answers may depend on all calls before. *)
Context (answers : list call -> request -> Event + sink_error).

Definition ask (r : request) (w : list call) : list call * (Event + sink_error) :=
  let a := answers w r in (w ++ [(r, a)], a).

#[local] Instance server : EventsClient (list call) := {
  Events_Create ns event := ask (Create ns event);
  Events_Update ns event := ask (Update ns event);
  Events_Patch ns name data := ask (Patch ns name data)
}.

Inductive loop : Type := Refreshing (keys : list eventKey) | Finishing (keys : list eventKey).

(** What happened to the cache: an event was counted, or a key was removed. *)
Inductive happening : Type := Observed (event : Event) (at_ : Z) | Ended (isomorphicKey : eventKey).

Record state : Type := mkState {
  eventCache : cache;
  holder : option loop;
  waiting : list Event;
  attempts : list (Event * nat);
  calls : list call;
  happened : list happening
}.

Definition start : state := mkState ∅ None [] [] [] [].

Definition add_attempt (ev : option Event) (l : list (Event * nat)) : list (Event * nat) :=
  match ev with None => l | Some ev => l ++ [(ev, 0%nat)] end.

Inductive step : state -> state -> Prop :=
| step_Eventf s controller instance time_now now regarding related eventtype reason action message e :
    Eventf controller instance time_now now regarding related eventtype reason action message = Some e ->
    step s (mkState (eventCache s) (holder s) (waiting s ++ [e]) (attempts s) (calls s) (happened s))
| step_recordToSink s l1 eventCopy l2 now c ev :
    waiting s = l1 ++ eventCopy :: l2 -> holder s = None ->
    evToRecord now eventCopy (eventCache s) = (c, ev) ->
    step s (mkState c None (l1 ++ l2) (add_attempt ev (attempts s)) (calls s)
              (happened s ++ [Observed eventCopy now]))
| step_attempt s l1 event tries l2 w res :
    attempts s = l1 ++ (event, tries) :: l2 -> attempt_turn event tries (calls s) = (w, res) ->
    step s (mkState (eventCache s) (holder s) (waiting s)
              (match res with inl a => l1 ++ a :: l2 | inr _ => l1 ++ l2 end) w (happened s))
| step_refresh s :
    holder s = None ->
    step s (mkState (eventCache s) (Some (Refreshing (range (eventCache s)).*1)) (waiting s) (attempts s) (calls s)
              (happened s))
| step_finish s :
    holder s = None ->
    step s (mkState (eventCache s) (Some (Finishing (range (eventCache s)).*1)) (waiting s) (attempts s) (calls s)
              (happened s))
| step_refresh_turn s k keys c w :
    holder s = Some (Refreshing (k :: keys)) -> refresh_turn k (eventCache s) (calls s) = (c, w) ->
    step s (mkState c (Some (Refreshing keys)) (waiting s) (attempts s) w (happened s))
| step_finish_turn s k keys now c w :
    holder s = Some (Finishing (k :: keys)) -> finish_turn now k (eventCache s) (calls s) = (c, w) ->
    step s (mkState c (Some (Finishing keys)) (waiting s) (attempts s) w
              (if decide (is_Some (eventCache s !! k) /\ c !! k = None) then happened s ++ [Ended k] else happened s))
| step_unlock s :
    holder s = Some (Refreshing []) \/ holder s = Some (Finishing []) ->
    step s (mkState (eventCache s) None (waiting s) (attempts s) (calls s) (happened s)).

Definition reachable : state -> Prop := rtc step start.

(** *** What the broadcaster promises *)

(** A run: the events of a key, with the times they were counted, from the entry of the
    key to its removal. *)
Definition run : Type := list (Event * Z).

(** The finished runs of a key, and the current one. *)
Definition runs_step (k : eventKey) (h : happening) (rs : list run * run) : list run * run :=
  match h with
  | Observed e t => if decide (getKey e = k) then (rs.1, rs.2 ++ [(e, t)]) else rs
  | Ended k' => if decide (k' = k) then (rs.1 ++ [rs.2], []) else rs
  end.

Definition runs_of (k : eventKey) (hs : list happening) : list run * run :=
  foldl (fun rs h => runs_step k h rs) ([], []) hs.

(** Times of the API are written to the microsecond. *)
Definition cut (t : Z) : Z := t - t mod Microsecond.

Definition cut_series (s : EventSeries) : EventSeries := mkSeries (Count s) (cut (LastObservedTime s)).

(** [e] is the object of the run [p] and says exactly how often and when it happened. *)
Definition describes (p : run) (e : Event) : Prop :=
  exists e0 t0 rest, p = (e0, t0) :: rest /\ Name e = Name e0 /\ Namespace e = Namespace e0 /\
    match last rest with
    | None => Series e = None
    | Some (_, t) =>
        exists s, Series e = Some s /\ Count s = wrap32 (Z.of_nat (length p)) /\
          (LastObservedTime s = t \/ LastObservedTime s = cut t)
    end.

(** The request tells the server of [e]. *)
Definition told (r : request) (e : Event) : Prop :=
  r = Create (Namespace e) (set_ResourceVersion "" e) \/
  exists data, createPatchBytesForSeries e = Some data /\ r = Patch (Namespace e) (Name e) data.

(** The answer about a series is not to be tried again: it was accepted, or refused for
    good. *)
Definition settles (r : request) (a : Event + sink_error) : Prop :=
  match a with
  | inl _ | inr RequestConstructionError => True
  | inr (StatusError code already_exists) =>
      already_exists = false /\ match r with Patch _ _ _ => code <> 404 | _ => True end
  | inr (UnexpectedObjectError | OtherError) => False
  end.

(** The run's final count was reported: it has only the one event recorded when it
    began, or a call with exactly that count was settled (or no patch can be made). *)
Definition reported (cs : list call) (p : run) : Prop :=
  length p = 1%nat \/
  exists e, describes p e /\
    (createPatchBytesForSeries e = None \/ exists r a, (r, a) ∈ cs /\ told r e /\ settles r a).

(** [p] is how far a run of some key had come at some time. *)
Definition partial (hs : list happening) (p : run) : Prop :=
  exists k p', p ++ p' ∈ (runs_of k hs).1 ++ [(runs_of k hs).2].

(** The server keeps name, namespace and series of what it is sent. *)
Definition kept (e e' : Event) : Prop :=
  Name e' = Name e /\ Namespace e' = Namespace e /\ Series e' = cut_series <$> Series e.

Definition keeps : Prop :=
  (forall h ns e e', answers h (Create ns e) = inl e' -> Namespace e = ns -> kept e e') /\
  (forall h ns name data e e', answers h (Patch ns name data) = inl e' -> Namespace e = ns -> Name e = name ->
     createPatchBytesForSeries e = Some data -> kept e e').

(** The events of a key that were counted, with the times. *)
Definition counted (k : eventKey) (hs : list happening) : run :=
  omap (fun h =>
    match h with
    | Observed e t => if decide (getKey e = k) then Some (e, t) else None
    | Ended _ => None
    end) hs.

End system.

(** *** Attempts *)

Section attempt_lemmas.
Context `{EventJSON} {W : Type} `{!EventSink W}.

(** [n] tries after each of which the event is to be tried again. *)
Inductive retried : nat -> Event * W -> Event * W -> Prop :=
| retried_none x : retried 0 x x
| retried_next n x event w event' w' rec :
    retried n x (event, w) -> recordEvent event w = (w', event', rec, true) -> retried (S n) x (event', w').

Lemma attempt_loop_ends fuel : forall tries x event w,
  (fuel + tries = maxTriesPerEvent)%nat -> (0 < fuel)%nat -> retried tries x (event, w) ->
  exists n event' w',
    (tries <= n < maxTriesPerEvent)%nat /\ retried n x (event', w') /\
    let '(w2, _, rec, retry) := recordEvent event' w' in
    attempt_loop fuel event tries w = Some (w2, if (retry : bool) then None else rec) /\
    ((retry : bool) = true -> S n = maxTriesPerEvent).
Proof.
  induction fuel as [|fuel IH]; intros tries x event w Hf Hpos Hr; [lia|].
  cbn [attempt_loop]. unfold attempt_turn. destruct (recordEvent event w) as [[[w2 event2] rec] retry] eqn:E.
  destruct retry; cbn [negb].
  - destruct (Nat.leb_spec maxTriesPerEvent (S tries)).
    + exists tries, event, w. split; [lia|]. split; [done|]. rewrite E. split; [done|]. intros _. lia.
    + destruct (IH (S tries) x event2 w2) as (n & e' & w' & Hn & Hr' & Hrec); [lia|lia|by eapply retried_next|].
      exists n, e', w'. split; [lia|]. done.
  - exists tries, event, w. split; [lia|]. split; [done|]. rewrite E. done.
Qed.

(** An event is tried at most twelve times: again exactly as long as the answer before
    allows it, and what is returned is what the last try recorded. *)
Theorem attempt_recording_ends event w :
  exists n event' w',
    (n < maxTriesPerEvent)%nat /\ retried n (event, w) (event', w') /\
    let '(w2, _, rec, retry) := recordEvent event' w' in
    attemptRecording event w = Some (w2, if (retry : bool) then None else rec) /\
    ((retry : bool) = true -> S n = maxTriesPerEvent).
Proof.
  destruct (attempt_loop_ends maxTriesPerEvent 0 (event, w) event w) as (n & e' & w' & Hn & Hrest);
    [done|unfold maxTriesPerEvent; lia|constructor|].
  exists n, e', w'. split; [lia|]. done.
Qed.

End attempt_lemmas.

(** *** Runs *)

Lemma wrap32_succ z : wrap32 (wrap32 z + 1) = wrap32 (z + 1).
Proof.
  unfold wrap32. f_equal.
  replace ((z + 2 ^ 31) mod 2 ^ 32 - 2 ^ 31 + 1 + 2 ^ 31) with ((z + 2 ^ 31) mod 2 ^ 32 + 1) by lia.
  rewrite Zplus_mod_idemp_l. f_equal. lia.
Qed.

Lemma cut_cut t : cut (cut t) = cut t.
Proof.
  unfold cut, Microsecond, Nanosecond.
  rewrite (Zminus_mod t (t mod _)), Z.mod_mod, Z.sub_diag, Z.mod_0_l by lia. lia.
Qed.

Lemma describes_new e t : Series e = None -> describes [(e, t)] e.
Proof. intros Hs. exists e, t, []. done. Qed.

Lemma describes_count p e s x t :
  describes p e -> Series e = Some s ->
  describes (p ++ [(x, t)]) (set_Series (Some (mkSeries (wrap32 (Count s + 1)) t)) e).
Proof.
  intros (e0 & t0 & rest & -> & Hn & Hns & Hrest) Hs. exists e0, t0, (rest ++ [(x, t)]).
  split; [done|]. split; [done|]. split; [done|]. rewrite last_snoc. eexists. split; [done|]. cbn [Count LastObservedTime].
  split; [|by left]. destruct (last rest) as [[y u]|]; [|congruence].
  destruct Hrest as (s' & Hs' & Hc & _). rewrite Hs in Hs'. injection Hs' as <-. rewrite Hc, wrap32_succ.
  f_equal. rewrite length_app. cbn. lia.
Qed.

Lemma describes_series p e x t :
  describes p e -> Series e = None -> describes (p ++ [(x, t)]) (set_Series (Some (mkSeries 2 t)) e).
Proof.
  intros (e0 & t0 & rest & -> & Hn & Hns & Hrest) Hs. exists e0, t0, (rest ++ [(x, t)]).
  split; [done|]. split; [done|]. split; [done|]. rewrite last_snoc. eexists. split; [done|]. cbn [Count LastObservedTime].
  split; [|by left]. destruct rest as [|y rest]; [done|].
  destruct (last (y :: rest)) as [[z u]|] eqn:E; [|by apply last_None in E].
  destruct Hrest as (s & Hs' & _). congruence.
Qed.

Lemma describes_rv p e rv : describes p e -> describes p (set_ResourceVersion rv e).
Proof. done. Qed.

Lemma describes_kept p e e' : describes p e -> kept e e' -> describes p e'.
Proof.
  intros (e0 & t0 & rest & -> & Hn & Hns & Hrest) (Kn & Kns & Ks). exists e0, t0, rest.
  split; [done|]. split; [congruence|]. split; [congruence|]. destruct (last rest) as [[y u]|].
  - destruct Hrest as (s & Hs & Hc & Ht). rewrite Hs in Ks. exists (cut_series s). split; [done|]. split; [done|].
    cbn. destruct Ht as [->| ->]; [by right|]. right. apply cut_cut.
  - by rewrite Hrest in Ks.
Qed.

Lemma runs_of_snoc k hs h : runs_of k (hs ++ [h]) = runs_step k h (runs_of k hs).
Proof. unfold runs_of. by rewrite foldl_app. Qed.

Lemma partial_snoc hs h p : partial hs p -> partial (hs ++ [h]) p.
Proof.
  intros (k & p' & Hin). exists k. setoid_rewrite runs_of_snoc. unfold runs_step.
  destruct h as [e t|k']; case_decide; cbn [fst snd]; [|by eauto| |by eauto].
  - apply elem_of_app in Hin as [Hin|Hin]; [exists p'; apply elem_of_app; by left|].
    apply list_elem_of_singleton in Hin. exists (p' ++ [(e, t)]). rewrite app_assoc, Hin.
    apply elem_of_app. right. by apply list_elem_of_singleton.
  - exists p'. apply elem_of_app. by left.
Qed.

Lemma partial_current k hs : partial hs (runs_of k hs).2.
Proof. exists k, []. rewrite app_nil_r. apply elem_of_app. right. by apply list_elem_of_singleton. Qed.

(** *** The system's invariant *)

Section system_lemmas.
Context `{EventJSON} `{Schema} {A E : Type} `{Access A E} `{MapRange}.
Context (answers : list call -> request -> Event + sink_error).

#[local] Existing Instance server.

Lemma reported_mono cs new p : reported cs p -> reported (cs ++ new) p.
Proof.
  intros [Hl|(e & He & [Hp|(r & a & Hin & Hrest)])]; [by left|right; exists e; by eauto|].
  right. exists e. split; [done|]. right. exists r, a. split; [|done]. apply elem_of_app. by left.
Qed.

(** What a call of [recordEvent] does. *)
Record recorded (event : Event) (cs cs' : list call) (event' : Event) (rec : option Event) (retry : bool) : Prop :=
  mkRecorded {
  rd_calls : exists new, cs' = cs ++ new /\ Forall (fun c => told c.1 event) new;
  rd_event : event' = event \/ event' = set_ResourceVersion "" event;
  rd_kept e : keeps answers -> rec = Some e -> kept event e;
  rd_settled :
    retry = false -> is_Some (Series event) ->
    createPatchBytesForSeries event = None \/ exists r a, (r, a) ∈ cs' /\ told r event /\ settles r a
}.

(** The last answer of a call of [recordEvent]. *)
Record answered (event : Event) (cs cs' : list call) (event' : Event) (res : Event + sink_error) : Prop := mkAnswered {
  an_calls : exists new, cs' = cs ++ new /\ Forall (fun c => told c.1 event) new;
  an_event : event' = event \/ event' = set_ResourceVersion "" event;
  an_kept e : keeps answers -> res = inl e -> kept event e;
  an_last :
    res = inr OtherError \/
    exists r, (r, res) ∈ cs' /\ told r event /\
      match r, res with Patch _ _ _, inr err => IsKeyNotFoundError err = false | _, _ => True end
}.

Lemma create_answered event cs new :
  Forall (fun c => told c.1 event) new ->
  let '(cs', res) := sink_Create (EventSink := EventSinkImpl (EventsClient0 := server answers))
                       (set_ResourceVersion "" event) (cs ++ new) in
  answered event cs cs' (set_ResourceVersion "" event) res.
Proof.
  intros Hnew. cbn. case_decide as Hns.
  - constructor; [by eauto|by right|done|by left].
  - constructor; [| by right | |].
    + eexists. rewrite <- app_assoc. split; [done|]. apply Forall_app. split; [done|]. apply Forall_singleton. by left.
    + intros e [Hk _] Ha. by eapply (Hk _ _ _ _ Ha).
    + right. eexists. split; [apply elem_of_app; right; by apply list_elem_of_singleton|]. split; [by left|done].
Qed.

Lemma patch_answered event cs data :
  createPatchBytesForSeries event = Some data ->
  let '(cs', res) := sink_Patch (EventSink := EventSinkImpl (EventsClient0 := server answers)) event data cs in
  (exists new, cs' = cs ++ new /\ Forall (fun c => told c.1 event) new) /\
  (match res with inr err => IsKeyNotFoundError err = false | inl _ => True end -> answered event cs cs' event res).
Proof.
  intros Hp. cbn. case_decide as Hns.
  - assert (Hnil : exists new, cs = cs ++ new /\ Forall (fun c => told c.1 event) new)
      by (exists []; by rewrite app_nil_r).
    split; [done|]. intros _. constructor; [done|by left|done|by left].
  - assert (Htold : told (Patch (Namespace event) (Name event) data) event) by (right; eauto).
    assert (Hnew : exists new, cs ++ [(Patch (Namespace event) (Name event) data,
        answers cs (Patch (Namespace event) (Name event) data))] = cs ++ new /\ Forall (fun c => told c.1 event) new)
      by (eexists; split; [done|]; by apply Forall_singleton).
    split; [done|]. intros Hfound. constructor; [done|by left| |].
    + intros e [_ Hk] Ha. by eapply (Hk _ _ _ _ _ _ Ha).
    + right. eexists. split; [apply elem_of_app; right; by apply list_elem_of_singleton|]. split; [done|].
      by destruct (answers _ _).
Qed.

Lemma answered_recorded event cs cs' event' res :
  answered event cs cs' event' res ->
  recorded event cs cs' event' (match res with inl e => Some e | inr _ => None end)
    (match res with
     | inl _ | inr RequestConstructionError => false
     | inr (StatusError code b) => if b then bool_decide (is_Some (Series event)) else false
     | inr (UnexpectedObjectError | OtherError) => true
     end).
Proof.
  intros [Hc He Hk Hl]. constructor; [done|done| |].
  - intros e Hkeeps Hres. apply Hk; [done|]. destruct res; congruence.
  - intros Hretry Hs. right. destruct Hl as [-> |(r & Hin & Htold & Hf)]; [done|]. exists r, res.
    split; [done|]. split; [done|]. destruct res as [e|[|code b| |]]; cbn in *; [done|done| |done|done].
    destruct b; [by rewrite bool_decide_eq_false in Hretry|]. split; [done|]. destruct r; [done|done|lia].
Qed.

Lemma recordEvent_recorded event cs :
  let '(cs', event', rec, retry) :=
    recordEvent (EventSink0 := EventSinkImpl (EventsClient0 := server answers)) event cs in
  recorded event cs cs' event' rec retry.
Proof.
  assert (Hcreate : forall new, Forall (fun c => told c.1 event) new ->
    let '(cs', res) := sink_Create (EventSink := EventSinkImpl (EventsClient0 := server answers))
                         (set_ResourceVersion "" event) (cs ++ new) in
    recorded event cs cs' (set_ResourceVersion "" event) (match res with inl e => Some e | inr _ => None end)
      (match res with
       | inl _ | inr RequestConstructionError => false
       | inr (StatusError code b) => if b then bool_decide (is_Some (Series event)) else false
       | inr (UnexpectedObjectError | OtherError) => true
       end)).
  { intros new Hnew. pose proof (create_answered event cs new Hnew) as Ha. destruct (sink_Create _ _) as [cs' res].
    by apply answered_recorded. }
  unfold recordEvent. case_bool_decide as Hs.
  - destruct (createPatchBytesForSeries event) as [data|] eqn:Hp.
    + pose proof (patch_answered event cs data Hp) as Ha. destruct (sink_Patch _ _ _) as [cs' res].
      destruct Ha as [(new & -> & Hnew) Ha]. destruct res as [e|err]; [by apply (answered_recorded _ _ _ _ _ (Ha I))|].
      destruct (IsKeyNotFoundError err) eqn:Hnf.
      * specialize (Hcreate new Hnew). destruct (sink_Create _ _) as [cs2 [e|[|code []| |]]]; done.
      * specialize (Ha eq_refl). apply answered_recorded in Ha. rewrite bool_decide_eq_true_2 in Ha by done.
        by destruct err as [|code []| |].
    + constructor; [exists []; by rewrite app_nil_r|by left|done|by left].
  - specialize (Hcreate [] (Forall_nil_2 _)). rewrite app_nil_r in Hcreate.
    destruct (sink_Create _ _) as [cs2 [e|[|code []| |]]]; done.
Qed.

Record inv (s : state) : Prop := mkInv {
  inv_cached k :
    match eventCache s !! k with
    | None => (runs_of k (happened s)).2 = []
    | Some e => describes (runs_of k (happened s)).2 e
    end;
  inv_runs k : Forall (reported (calls s)) (runs_of k (happened s)).1;
  inv_waiting : Forall (fun e => Series e = None) (waiting s);
  inv_attempts : Forall (fun a => exists p, partial (happened s) p /\ describes p a.1) (attempts s);
  inv_calls : Forall (fun c => exists p e, partial (happened s) p /\ describes p e /\ told c.1 e) (calls s)
}.

(** A call of [recordEvent] with an event that says what was true at some time. *)
Lemma recorded_calls hs event cs cs' event' rec retry :
  recorded event cs cs' event' rec retry ->
  (exists p, partial hs p /\ describes p event) ->
  Forall (fun c => exists p e, partial hs p /\ describes p e /\ told c.1 e) cs ->
  Forall (fun c => exists p e, partial hs p /\ describes p e /\ told c.1 e) cs' /\
  exists new, cs' = cs ++ new.
Proof.
  intros [(new & -> & Hnew) _ _ _] (p & Hp & Hd) Hcs. split; [|by eexists]. apply Forall_app. split; [done|].
  eapply Forall_impl; [exact Hnew|]. cbn. intros c Hc. by exists p, event.
Qed.

Lemma recorded_describes p event cs cs' event' rec retry :
  recorded event cs cs' event' rec retry -> describes p event -> describes p event'.
Proof. intros [_ [-> | ->] _ _] Hd; [done|]. by apply describes_rv. Qed.

(** An entry that is written over by another description of the same run. *)
Lemma cached_insert (c : cache) (hs : list happening) (k : eventKey) (e' : Event) :
  (forall k, match c !! k with None => (runs_of k hs).2 = [] | Some e => describes (runs_of k hs).2 e end) ->
  describes (runs_of k hs).2 e' ->
  forall k', match <[k := e']> c !! k' with
       | None => (runs_of k' hs).2 = []
       | Some e => describes (runs_of k' hs).2 e
       end.
Proof.
  intros Hc Hd k'. destruct (decide (k' = k)) as [->|Hne]; [by rewrite lookup_insert_eq|].
  rewrite lookup_insert_ne by done. apply Hc.
Qed.

Lemma inv_start : inv start.
Proof. by constructor. Qed.

Lemma inv_lock s l1 e l2 now c ev :
  inv s -> waiting s = l1 ++ e :: l2 -> evToRecord now e (eventCache s) = (c, ev) ->
  inv (mkState c None (l1 ++ l2) (add_attempt ev (attempts s)) (calls s) (happened s ++ [Observed e now])).
Proof.
  intros [Hc Hr Hw Ha Hcs] Hwait Hev. rewrite Hwait in Hw. apply Forall_app in Hw as [Hw1 Hw2].
  apply Forall_cons in Hw2 as [He Hw2].
  assert (Hnew : exists e', c = <[getKey e := e']> (eventCache s) /\
      describes ((runs_of (getKey e) (happened s)).2 ++ [(e, now)]) e' /\ (ev = None \/ ev = Some e')).
  { unfold evToRecord in Hev. specialize (Hc (getKey e)). destruct (eventCache s !! getKey e) as [e0|].
    - destruct (Series e0) as [se|] eqn:Hs; injection Hev as <- <-; eexists; (split; [done|]).
      + split; [by apply describes_count|by left].
      + split; [by apply describes_series|by right].
    - injection Hev as <- <-. exists e. split; [done|]. rewrite Hc. split; [by apply describes_new|by right]. }
  clear Hev. destruct Hnew as (e' & -> & Hd & Hev).
  assert (Hcur : (runs_of (getKey e) (happened s ++ [Observed e now])).2 = (runs_of (getKey e) (happened s)).2 ++ [(e, now)])
    by (rewrite runs_of_snoc; cbn; by rewrite decide_True).
  constructor; cbn [eventCache waiting attempts calls happened].
  - intros k. destruct (decide (k = getKey e)) as [->|Hne]; [by rewrite lookup_insert_eq, Hcur|].
    rewrite lookup_insert_ne, runs_of_snoc by done. cbn. rewrite decide_False by done. apply Hc.
  - intros k. rewrite runs_of_snoc. cbn. case_decide; apply Hr.
  - by apply Forall_app.
  - assert (Ha' : Forall (fun a => exists p, partial (happened s ++ [Observed e now]) p /\ describes p a.1) (attempts s)).
    { eapply Forall_impl; [exact Ha|]. cbn. intros a (p & Hp & Hpa). exists p. split; [by apply partial_snoc|done]. }
    destruct Hev as [-> | ->]; [done|]. cbn. apply Forall_app. split; [done|]. apply Forall_singleton.
    rewrite <- Hcur in Hd. eexists. split; [apply partial_current|done].
  - eapply Forall_impl; [exact Hcs|]. cbn. intros x (p & e1 & Hp & Hrest). exists p, e1. split; [by apply partial_snoc|done].
Qed.

Notation sink := (EventSinkImpl (EventsClient0 := server answers)).

Lemma inv_attempt s l1 event tries l2 w res :
  inv s -> attempts s = l1 ++ (event, tries) :: l2 ->
  attempt_turn (EventSink0 := sink) event tries (calls s) = (w, res) ->
  inv (mkState (eventCache s) (holder s) (waiting s)
         (match res with inl a => l1 ++ a :: l2 | inr _ => l1 ++ l2 end) w (happened s)).
Proof.
  intros [Hc Hr Hw Ha Hcs] Hat Hturn. rewrite Hat in Ha. apply Forall_app in Ha as [Ha1 Ha2].
  apply Forall_cons in Ha2 as [(p & Hp & Hd) Ha2]. cbn in Hd.
  unfold attempt_turn in Hturn. pose proof (recordEvent_recorded event (calls s)) as Hrec.
  destruct (recordEvent event (calls s)) as [[[cs' event'] rec] retry].
  destruct (recorded_calls (happened s) _ _ _ _ _ _ Hrec) as [Hcs' [new ->]]; [by eauto|done|].
  pose proof (recorded_describes p _ _ _ _ _ _ Hrec Hd) as Hd'.
  assert (w = calls s ++ new) as ->. { destruct (negb retry); by injection Hturn. }
  constructor; cbn [eventCache waiting attempts calls happened]; [done| |done| |done].
  - intros k. eapply Forall_impl; [apply Hr|]. intros x. apply reported_mono.
  - assert (Hrest : Forall (fun a => exists p, partial (happened s) p /\ describes p a.1) (l1 ++ l2)) by (by apply Forall_app).
    destruct res as [a|]; [|done]. apply Forall_app. split; [done|]. constructor; [|done].
    destruct (negb retry); [done|]. destruct (maxTriesPerEvent <=? S tries)%nat; [done|].
    injection Hturn as <-.
    cbn. eauto.
Qed.

Lemma inv_refresh_turn s k c w h :
  keeps answers -> inv s -> refresh_turn (EventSink0 := sink) k (eventCache s) (calls s) = (c, w) ->
  inv (mkState c h (waiting s) (attempts s) w (happened s)).
Proof.
  intros Hkeeps [Hc Hr Hw Ha Hcs] Hturn. unfold refresh_turn in Hturn. pose proof (Hc k) as Hk.
  destruct (eventCache s !! k) as [event|]; [|by injection Hturn as <- <-].
  destruct (Series event); [|by injection Hturn as <- <-].
  pose proof (recordEvent_recorded event (calls s)) as Hrec.
  destruct (recordEvent event (calls s)) as [[[cs' event'] rec] retry].
  destruct (recorded_calls (happened s) _ _ _ _ _ _ Hrec) as [Hcs' [new ->]];
    [eexists; split; [apply partial_current|exact Hk]|done|].
  pose proof (recorded_describes _ _ _ _ _ _ _ Hrec Hk) as Hd'.
  assert (Hr' : forall k, Forall (reported (calls s ++ new)) (runs_of k (happened s)).1)
    by (intros k'; eapply Forall_impl; [apply Hr|]; intros x; apply reported_mono).
  pose proof (cached_insert _ _ _ _ Hc Hd') as Hc'.
  destruct retry; [by injection Hturn as <- <-|]. destruct rec as [new_event|]; injection Hturn as <- <-; [|done].
  constructor; cbn [eventCache waiting attempts calls happened]; [|done..].
  apply cached_insert; [done|]. eapply describes_kept; [exact Hk|]. by eapply rd_kept.
Qed.

(** A key that is removed ends its run, which has been reported. *)
Lemma inv_ended s k w h :
  inv s -> is_Some (eventCache s !! k) -> reported w (runs_of k (happened s)).2 ->
  (exists new, w = calls s ++ new) ->
  Forall (fun c => exists p e, partial (happened s) p /\ describes p e /\ told c.1 e) w ->
  inv (mkState (delete k (eventCache s)) h (waiting s) (attempts s) w (happened s ++ [Ended k])).
Proof.
  intros [Hc Hr Hw Ha Hcs] Hk Hrep [new ->] Hw'. constructor; cbn [eventCache waiting attempts calls happened].
  - intros k'. rewrite runs_of_snoc. cbn. case_decide as Hkk.
    + subst k'. by rewrite lookup_delete_eq.
    + rewrite lookup_delete_ne by done. apply Hc.
  - intros k'. rewrite runs_of_snoc. cbn.
    assert (Hr' : Forall (reported (calls s ++ new)) (runs_of k' (happened s)).1)
      by (eapply Forall_impl; [apply Hr|]; intros x; apply reported_mono).
    case_decide as Hkk; [subst k'|done]. cbn. apply Forall_app. split; [done|]. by apply Forall_singleton.
  - done.
  - eapply Forall_impl; [exact Ha|]. cbn. intros a (p & Hp & Hd). exists p. split; [by apply partial_snoc|done].
  - eapply Forall_impl; [exact Hw'|]. cbn. intros a (p & e & Hp & Hd). exists p, e. split; [by apply partial_snoc|done].
Qed.

Lemma inv_finish_turn s now k c w h :
  inv s -> finish_turn (EventSink0 := sink) now k (eventCache s) (calls s) = (c, w) ->
  inv (mkState c h (waiting s) (attempts s) w
         (if decide (is_Some (eventCache s !! k) /\ c !! k = None) then happened s ++ [Ended k] else happened s)).
Proof.
  intros Hinv Hturn. pose proof Hinv as [Hc Hr Hw Ha Hcs]. unfold finish_turn in Hturn. pose proof (Hc k) as Hk.
  assert (Hsame : inv (mkState (eventCache s) h (waiting s) (attempts s) (calls s) (happened s))) by done.
  destruct (eventCache s !! k) as [event|] eqn:Ek;
    [|injection Hturn as <- <-; rewrite decide_False by (intros [[? ?] _]; congruence); done].
  destruct (Series event) as [se|] eqn:Es.
  - destruct (_ <? _);
      [|injection Hturn as <- <-; rewrite decide_False by (intros [_ ?]; congruence); done].
    pose proof (recordEvent_recorded event (calls s)) as Hrec.
    destruct (recordEvent event (calls s)) as [[[cs' event'] rec] retry].
    destruct (recorded_calls (happened s) _ _ _ _ _ _ Hrec) as [Hcs' Hext];
      [eexists; split; [apply partial_current|exact Hk]|done|].
    injection Hturn as Hcache <-. destruct retry; subst c.
    + rewrite lookup_insert_eq, decide_False by (intros [_ ?]; congruence). destruct Hext as [new ->].
      constructor; cbn [eventCache waiting attempts calls happened]; [| |done..].
      * apply cached_insert; [done|]. by eapply recorded_describes.
      * intros k'. eapply Forall_impl; [apply Hr|]. intros x. apply reported_mono.
    + rewrite lookup_delete_eq, decide_True by (split; [by eexists|done]).
      apply inv_ended; [done|rewrite Ek; by eexists| |done|done].
      right. exists event. split; [done|]. apply (rd_settled _ _ _ _ _ _ Hrec); [done|]. rewrite Es. by eexists.
  - injection Hturn as Hcache <-. destruct (_ <? _); subst c.
    + rewrite lookup_delete_eq, decide_True by (split; [by eexists|done]).
      apply inv_ended; [done|rewrite Ek; by eexists| |exists []; by rewrite app_nil_r|done].
      left. destruct Hk as (e0 & t0 & rest & -> & _ & _ & Hrest). destruct (last rest) as [[x t]|] eqn:El.
      * destruct Hrest as (? & ? & _). congruence.
      * apply last_None in El. by subst rest.
    + rewrite decide_False by (intros [_ ?]; congruence). done.
Qed.

Lemma Eventf_singleton controller instance time_now now regarding related eventtype reason action message e :
  Eventf controller instance time_now now regarding related eventtype reason action message = Some e -> Series e = None.
Proof. unfold Eventf. repeat case_match; try done; intros Hev; by injection Hev as <-. Qed.

Lemma inv_step s s' : keeps answers -> step answers s s' -> inv s -> inv s'.
Proof.
  intros Hkeeps [] Hinv.
  - destruct Hinv as [Hc Hr Hw Ha Hcs]. constructor; cbn [eventCache waiting attempts calls happened]; try done.
    apply Forall_app. split; [done|]. apply Forall_singleton. by eapply Eventf_singleton.
  - by eapply inv_lock.
  - by eapply inv_attempt.
  - by destruct Hinv.
  - by destruct Hinv.
  - by eapply inv_refresh_turn.
  - by eapply inv_finish_turn.
  - by destruct Hinv.
Qed.

Lemma inv_reachable s : keeps answers -> reachable answers s -> inv s.
Proof.
  intros Hkeeps Hs. apply (rtc_ind_r (R := step answers) (fun s => inv s) start); [apply inv_start| |done].
  intros x y _ Hxy Hx. by eapply inv_step.
Qed.

Lemma runs_partition k hs : concat (runs_of k hs).1 ++ (runs_of k hs).2 = counted k hs.
Proof.
  induction hs as [|h hs IH] using rev_ind; [done|]. rewrite runs_of_snoc. unfold counted in *. rewrite omap_app, <- IH.
  destruct h as [e t|k']; cbn; case_decide; cbn; rewrite ?concat_app; cbn; rewrite ?app_nil_r; try done.
  apply app_assoc.
Qed.

(** C26: if the server keeps the name, namespace and series it is sent, then in every state
    of the broadcaster, whatever the order of the goroutines and the answers: the events of a
    key that were counted are the finished runs of the key and the current one; the cached
    event is the object of the current run and carries its exact count and last time; of
    every run that was removed, with more than its first event, the exact final count
    was sent in a call that was accepted or refused for good; and no call ever told
    the server anything that was not true of a run at some time. *)
Theorem series_are_reported s k :
  keeps answers -> reachable answers s ->
  let '(runs, current) := runs_of k (happened s) in
  concat runs ++ current = counted k (happened s) /\
  match eventCache s !! k with None => current = [] | Some e => describes current e end /\
  Forall (reported (calls s)) runs /\
  Forall (fun '(r, _) => exists p e, partial (happened s) p /\ describes p e /\ told r e) (calls s).
Proof.
  intros Hkeeps Hs. destruct (inv_reachable s Hkeeps Hs) as [Hc Hr _ _ Hcs].
  rewrite (surjective_pairing (runs_of k (happened s))). split; [apply runs_partition|]. split; [apply Hc|].
  split; [apply Hr|]. eapply Forall_impl; [exact Hcs|]. by intros [].
Qed.

End system_lemmas.
(** *** Samples *)

Module samples.

#[local] Instance plain_schema : Schema := {
  gv_String gv := if decide (Group gv = "") then Version gv else Group gv +:+ "/" +:+ Version gv;
  gv_Empty gv := (bool_decide (Group gv = "") && bool_decide (Version gv = ""))%bool;
  gvk_Empty gvk := bool_decide (gvk_Kind gvk = "")
}.

#[local] Instance no_objects : Access unit unit := {
  Accessor _ := inr tt;
  CommonAccessor _ := inr tt;
  object_GroupVersionKind _ := mkGVK (mkGV "" "") "";
  ObjectKinds _ := inr tt
}.

#[local] Instance whole_event : EventJSON := {
  Bytes := Event;
  json_Marshal e := Some e;
  CreateTwoWayMergePatch _ e := Some e
}.

(** A server that stores what it is sent. *)
Definition store (ns name : string) (e : Event) : Event :=
  mkEvent name ns "1" (EventTime e) (cut_series <$> Series e) (ReportingController e) (ReportingInstance e) (Action e)
    (Reason e) (Regarding e) (Related e) (Note e) (Type_ e).

Definition keeper (h : list call) (r : request) : Event + sink_error :=
  match r with
  | Create ns e | Update ns e => inl (store ns (Name e) e)
  | Patch ns name data => inl (store ns name data)
  end.

Lemma keeper_keeps : keeps keeper.
Proof.
  split.
  - intros h ns e e' Ha <-. by injection Ha as <-.
  - intros h ns name data e e' Ha <- <- Hp. injection Ha as <-. by injection Hp as <-.
Qed.

#[local] Instance in_key_order : MapRange := range_in_key_order.

Definition pod : ObjectReference := mkReference "Pod" "v1" "web" "" "u" "7" "".

Definition ev (t : Z) : Event := makeEvent t pod None t "Normal" "Pulled" "" "c" "h" "Pull".

#[local] Instance the_client : EventsClient (list call) := server keeper.

(** The event is reported, counted and recorded. *)
Definition once (t : Z) (s : state) : state :=
  let '(c, e) := evToRecord t (ev t) (eventCache s) in
  mkState c None (waiting s) (add_attempt e (attempts s)) (calls s) (happened s ++ [Observed (ev t) t]).

Lemma once_steps t s : holder s = None -> waiting s = [] -> rtc (step keeper) s (once t s).
Proof.
  destruct s as [c0 h wt at_ cs hs]. cbn. intros -> ->. eapply rtc_l.
  { by eapply (step_Eventf keeper _ "c" "h" t t (ARef pod) None "Normal" "Pulled" "Pull" ""). }
  unfold once. cbn [eventCache]. destruct (evToRecord t (ev t) c0) as [c e] eqn:E. eapply rtc_once.
  by apply (step_recordToSink keeper (mkState c0 None [ev t] at_ cs hs) [] (ev t) []).
Qed.

(** The first attempt is made. *)
Definition tried (s : state) : state :=
  match attempts s with
  | [] => s
  | (e, tries) :: l =>
      let '(w, res) := attempt_turn e tries (calls s) in
      mkState (eventCache s) (holder s) (waiting s) (match res with inl a => a :: l | inr _ => l end) w (happened s)
  end.

Lemma tried_steps s : rtc (step keeper) s (tried s).
Proof.
  unfold tried. destruct (attempts s) as [|[e tries] l] eqn:Ea; [done|]. destruct (attempt_turn _ _ _) as [w res] eqn:Et.
  eapply rtc_once. by eapply (step_attempt keeper s []).
Qed.

(** Three events within a second; the series is not recorded again until it ends. *)
Definition three : state := tried (once 3000 (once 2500 (tried (once 1000 start)))).

Lemma three_reachable : reachable keeper three.
Proof.
  unfold reachable, three. etrans; [|apply tried_steps].
  assert (Ho : forall t s, holder (tried s) = holder s /\ waiting (tried s) = waiting s /\
    holder (once t s) = None /\ waiting (once t s) = waiting s).
  { intros t s. unfold tried, once. repeat case_match; done. }
  etrans; [etrans; [etrans; [|apply tried_steps]|]|]; apply once_steps; try done;
    rewrite ?(proj1 (Ho 0 _)), ?(proj1 (proj2 (Ho 0 _))); apply Ho.
Qed.

Lemma series_are_reported_witness :
  let '(runs, current) := runs_of (getKey (ev 0)) (happened three) in
  concat runs ++ current = counted (getKey (ev 0)) (happened three) /\
  match eventCache three !! getKey (ev 0) with None => current = [] | Some e => describes current e end /\
  Forall (reported (calls three)) runs /\
  Forall (fun '(r, _) => exists p e, partial (happened three) p /\ describes p e /\ told r e) (calls three).
Proof. apply (series_are_reported keeper); [apply keeper_keeps|apply three_reachable]. Defined.

Definition sent (r : request) : string * option EventSeries :=
  match r with Create _ e | Update _ e | Patch _ _ e => (Name e, Series e) end.

Example three_calls :
  map (fun c => sent c.1) (calls three) = [("web.3e8", None); ("web.3e8", Some (mkSeries 2 2500))] /\
  (Series <$> eventCache three !! getKey (ev 0)) = Some (Some (mkSeries 3 3000)).
Proof. vm_compute. done. Qed.

(** A refresh puts the server's event into the cache: with a server that leaves the
    series out of its answer, the next event starts to count from two again. *)
Definition forgetful (h : list call) (r : request) : Event + sink_error :=
  match keeper h r with inl e => inl (set_Series None e) | inr err => inr err end.

Example refresh_resets_count :
  let '(c, w) := refreshExistingEventSeries (EventSink0 := EventSinkImpl (EventsClient0 := server forgetful))
                   (eventCache three) (calls three) in
  (Series <$> (evToRecord 4000 (ev 4000) c).1 !! getKey (ev 0)) = Some (Some (mkSeries 2 4000)).
Proof. vm_compute. done. Qed.

(** A reference that a partial reference is made of is changed itself. *)
Example partial_reference_aliases :
  GetPartialReference (A := unit) (E := unit) (ARef pod) "spec.containers{web}" =
    (ARef (set_FieldPath "spec.containers{web}" pod), inl (set_FieldPath "spec.containers{web}" pod)).
Proof. done. Qed.

End samples.
End Broadcaster.
