(* ===== verification/JSONPathParser.v ===== *)
(** * The parser of JSONPath templates

    util/jsonpath/node.go and parser.go: the nodes of a template, the scanner and the
    functions of the parser, which call one another in tail position, and a nested parser
    for the expressions inside brackets. *)

From Stdlib Require Import Ascii.
From S2P Require Import Prelude GoStrings GoUnicode.
From stdpp Require Import strings.
#[local] Open Scope nat_scope.

(** ** Nodes *)

Record ParamsEntry : Type := mkParam { Value : Z; Known : bool; Derived : bool }.

(** The numbers of strconv.ParseFloat. *)
Class FloatText : Type := {
  Float : Type;
  ParseFloat : string -> option Float
}.

Inductive node `{FloatText} : Type :=
| TextNode (Text : string)
| ArrayNode (start_ end_ step_ : ParamsEntry)
| ListNode (Nodes : list node)
| FieldNode (Value : string)
| IdentifierNode (Name : string)
| FilterNode (Left Right : list node) (Operator : string)
| IntNode (Value : Z)
| FloatNode (Value : Float)
| WildcardNode
| RecursiveNode
| UnionNode (Nodes : list (list node))
| BoolNode (Value : bool).

Inductive parse_error : Type :=
| UnclosedAction
| UnrecognizedCharacter (r : Z)
| InvalidMultipleRecursiveDescent
| CannotParseNumber (value : text)
| UnterminatedArray
| InvalidArrayIndex (value : text)
| IndexIsNotANumber (value : text)
| UnterminatedFilter
| UnclosedArrayExpect
| UnterminatedQuotedString
| UnquoteError (value : text).

(** What the parser comes to: [NoFuel] is a loop that was cut short. *)
Inductive outcome (A : Type) : Type :=
| Parsed (a : A)
| Fails (e : parse_error)
| Panics
| NoFuel.
#[global] Arguments Parsed {_} _.
#[global] Arguments Fails {_} _.
#[global] Arguments Panics {_}.
#[global] Arguments NoFuel {_}.

Definition rbind {A B} (x : outcome A) (f : A -> outcome B) : outcome B :=
  match x with
  | Parsed a => f a
  | Fails e => Fails e
  | Panics => Panics
  | NoFuel => NoFuel
  end.

Notation "'letr' x ':=' a 'in' b" := (rbind a (fun x => b))
  (at level 200, x pattern, right associativity).

(** A slice or an index that may be out of range. *)
Definition or_panic {A} (x : option A) : outcome A := match x with Some a => Parsed a | None => Panics end.

(** [t[lo:hi]] *)
Definition slice (lo hi : nat) (t : text) : option text :=
  if (lo <=? hi) && (hi <=? length t) then Some (take (hi - lo) (drop lo t)) else None.

(** ** Strings and regular expressions *)

Definition HasPrefix (t prefix : text) : bool := bool_decide (take (length prefix) t = prefix).

(** [strings.Split] by one character. *)
Fixpoint split_on (c : ascii) (t : text) : list text :=
  match t with
  | [] => [[]]
  | d :: t =>
      if decide (d = c) then [] :: split_on c t
      else match split_on c t with s :: l => (d :: s) :: l | [] => [[d]] end
  end.

Fixpoint trim_left (t : text) : text :=
  match t with " "%char :: t => trim_left t | _ => t end.

(** [strings.Trim] of spaces. *)
Definition Trim (t : text) : text := rev (trim_left (rev (trim_left t))).

(** The key of a text in single quotes with no quote inside. *)
Definition dictKeyRex (t : text) : option text :=
  match t with
  | c :: t =>
      if decide (c = single_quote) then
        match rev t with
        | d :: r =>
            if decide (d = single_quote /\ single_quote ∉ r) then Some (rev r) else None
        | [] => None
        end
      else None
  | [] => None
  end.

Definition is_digit (c : ascii) : bool := ascii_digit (rune c).

Fixpoint span (f : ascii -> bool) (t : text) : text * text :=
  match t with
  | [] => ([], [])
  | c :: t' => if f c then let '(a, b) := span f t' in (c :: a, b) else ([], t)
  end.

(** An optional minus and digits. *)
Definition signed_digits (t : text) : text * text :=
  match t with
  | "-"%char :: t => let '(a, b) := span is_digit t in ("-"%char :: a, b)
  | _ => span is_digit t
  end.

(** An optional group of a colon, an optional minus and digits. *)
Definition colon_group (t : text) : text * text :=
  match t with
  | ":"%char :: t => let '(a, b) := signed_digits t in (":"%char :: a, b)
  | _ => ([], t)
  end.

(** Three groups up to the end of the text. *)
Definition sliceOperatorRex (t : text) : option (text * text * text) :=
  let '(g1, t) := signed_digits t in
  let '(g2, t) := colon_group t in
  let '(g3, t) := colon_group t in
  match t with [] => Some (g1, g2, g3) | _ => None end.

Definition is_operator (c : ascii) : bool := bool_decide (c = "!"%char \/ c = "<"%char \/ c = ">"%char \/ c = "="%char).

(** A left operand without operator characters, an operator and a right operand, of a text
    without a newline: the operator is as long as it can be with something left for the
    right operand. *)
Definition filterRex (t : text) : option (text * text * text) :=
  let '(lhs, t) := span (fun c => negb (is_operator c)) t in
  let '(op, rhs) := span is_operator t in
  match lhs, op, rhs with
  | [], _, _ | _, [], _ => None
  | _, _, _ :: _ => Some (lhs, op, rhs)
  | _, [_], [] => None
  | _, _, [] => Some (lhs, removelast op, drop (length op - 1) op)
  end.

(** ** Unquoting *)

Fixpoint unquote_loop (fuel : nat) (quote : ascii) (s : text) (buf : text) : option (option text) :=
  match s with
  | [] => Some (Some buf)
  | _ =>
      match fuel with
      | 0 => None
      | S fuel =>
          match UnquoteChar s quote with
          | None => Some None
          | Some (c, multibyte, ss) =>
              unquote_loop fuel quote ss
                (buf ++ (if ((c <? RuneSelf)%Z || negb multibyte) then [of_byte c] else EncodeRune c))
          end
      end
  end.

Definition contains (s : text) (c : ascii) : bool := bool_decide (c ∈ s).

(** [None]: an error. *)
Definition UnquoteExtend (s : text) : outcome (option text) :=
  let n := length s in
  if n <? 2 then Parsed None
  else
    letr quote := or_panic (s !! 0) in
    letr close := or_panic (s !! (n - 1)) in
    if decide (quote <> close) then Parsed None
    else
      letr s := or_panic (slice 1 (n - 1) s) in
      if decide (quote <> double_quote /\ quote <> single_quote) then Parsed None
      else if negb (contains s backslash) && negb (contains s quote) then Parsed (Some s)
      else match unquote_loop (length s) quote s [] with Some r => Parsed r | None => NoFuel end.

(** ** The parser's state *)

Section parser.
Context `{FloatText} `{Unicode}.

(** [Root] is the list of nodes of the root; the node [cur] of the code is the last of
    them inside an action, and the root outside. *)
Record Parser : Type := mkParser {
  Name : string;
  Root : list node;
  input : text;
  pos : nat;
  start : nat;
  width : nat
}.

Definition NewParser (name : string) : Parser := mkParser name [] [] 0 0 0.

Definition set_pos (n : nat) (p : Parser) : Parser := mkParser (Name p) (Root p) (input p) n (start p) (width p).

Definition set_Root (l : list node) (p : Parser) : Parser := mkParser (Name p) l (input p) (pos p) (start p) (width p).

Definition consumeText (p : Parser) : outcome (text * Parser) :=
  letr value := or_panic (slice (start p) (pos p) (input p)) in
  Parsed (value, mkParser (Name p) (Root p) (input p) (pos p) (pos p) (width p)).

Definition eof : Z := -1.

Definition next (p : Parser) : Z * Parser :=
  if length (input p) <=? pos p then (eof, mkParser (Name p) (Root p) (input p) (pos p) (start p) 0)
  else
    let '(r, w) := DecodeRune (drop (pos p) (input p)) in
    (r, mkParser (Name p) (Root p) (input p) (pos p + w) (start p) w).

Definition backup (p : Parser) : Parser := set_pos (pos p - width p) p.

Definition peek (p : Parser) : Z * Parser := let '(r, p) := next p in (r, backup p).

(** The nodes of [cur] inside an action, and [cur.append]. *)
Definition cur (p : Parser) : list node :=
  match last (Root p) with Some (ListNode l) => l | _ => [] end.

Definition append (n : node) (p : Parser) : Parser := set_Root (removelast (Root p) ++ [ListNode (cur p ++ [n])]) p.

(** [strings.HasPrefix(p.input[p.pos:], prefix)] *)
Definition looking_at (prefix : text) (p : Parser) : bool := HasPrefix (drop (pos p) (input p)) prefix.

(** What a function of the parser ends with: the next function in tail position, or the
    end. *)
Inductive jump : Type :=
| parseText_next (p : Parser)
| parseInsideAction_next (p : Parser)
| Done (p : Parser).

(** A loop over a state with the parser in it: [inl] goes on, [inr] leaves. *)
Fixpoint loop {S A : Type} (fuel : nat) (body : S -> S + A) (s : S) : outcome A :=
  match fuel with
  | 0 => NoFuel
  | Datatypes.S fuel => match body s with inl s => loop fuel body s | inr a => Parsed a end
  end.

(** A loop that takes a rune each turn needs one turn more than there are runes left. *)
Definition turns (p : Parser) : nat := 2 + (length (input p) - pos p).

(** ** Classes of runes *)

Definition isSpace (r : Z) : bool := ((r =? rune " ") || (r =? 9))%Z.
Definition isEndOfLine (r : Z) : bool := ((r =? 13) || (r =? 10))%Z.

Definition isTerminator (r : Z) : bool :=
  isSpace r || isEndOfLine r
  || ((r =? eof) || (r =? rune ".") || (r =? rune ",") || (r =? rune "[") || (r =? rune "]") || (r =? rune "$")
      || (r =? rune "@") || (r =? rune "{") || (r =? rune "}"))%Z.

Definition isAlphaNumeric (r : Z) : bool := (r =? rune "_")%Z || IsLetter r || IsDigit r.

Definition isBool (s : text) : bool := bool_decide (s = chars "true" \/ s = chars "false").

(** ** The functions of the parser *)

Definition leftDelim : text := chars "{".
Definition rightDelim : text := chars "}".

Definition parseLeftDelim (p : Parser) : outcome jump :=
  let p := set_pos (pos p + length leftDelim) p in
  letr (_, p) := consumeText p in
  Parsed (parseInsideAction_next (set_Root (Root p ++ [ListNode []]) p)).

(** A text node for what was read since the last node, if anything. *)
Definition append_text (p : Parser) : outcome Parser :=
  if start p <? pos p then
    letr (value, p) := consumeText p in
    Parsed (set_Root (Root p ++ [TextNode (str value)]) p)
  else Parsed p.

Definition parseText (p : Parser) : outcome jump :=
  letr (p, at_delim) :=
    loop (turns p) (fun p =>
      if looking_at leftDelim p then inr (p, true)
      else let '(r, p) := next p in if decide (r = eof) then inr (p, false) else inl p) p in
  letr p := append_text p in
  if (at_delim : bool) then parseLeftDelim p else Parsed (Done p).

Definition parseRightDelim (p : Parser) : outcome jump :=
  let p := set_pos (pos p + length rightDelim) p in
  letr (_, p) := consumeText p in
  Parsed (parseText_next p).

Definition parseIdentifier (p : Parser) : outcome jump :=
  letr p :=
    loop (turns p) (fun p => let '(r, p) := next p in if isTerminator r then inr (backup p) else inl p) p in
  letr (value, p) := consumeText p in
  Parsed (parseInsideAction_next
        (append (if isBool value then BoolNode (bool_decide (value = chars "true")) else IdentifierNode (str value)) p)).

(** One call of [advance]. *)
Definition advance (p : Parser) : Parser * bool :=
  let '(r, p) := next p in
  if (r =? rune backslash)%Z then ((next p).2, true)
  else if isTerminator r then (backup p, false)
  else (p, true).

Definition parseField (p : Parser) : outcome jump :=
  letr (_, p) := consumeText p in
  letr p := loop (turns p) (fun p => match advance p with (p, true) => inl p | (p, false) => inr p end) p in
  letr (value, p) := consumeText p in
  Parsed (parseInsideAction_next
        (append (if decide (value = chars "*") then WildcardNode
                 else FieldNode (str (filter (fun c => c <> backslash) value))) p)).

Definition parseRecursive (p : Parser) : outcome jump :=
  match last (cur p) with
  | Some RecursiveNode => Fails InvalidMultipleRecursiveDescent
  | _ =>
      let p := set_pos (pos p + 2) p in
      letr (_, p) := consumeText p in
      let p := append RecursiveNode p in
      let '(r, p) := peek p in
      if isAlphaNumeric r then parseField p else Parsed (parseInsideAction_next p)
  end.

Definition parseNumber (p : Parser) : outcome jump :=
  let '(r, p) := peek p in
  let p := if ((r =? rune "+") || (r =? rune "-"))%Z then (next p).2 else p in
  letr p :=
    loop (turns p) (fun p =>
      let '(r, p) := next p in
      if negb (r =? rune ".")%Z && negb (IsDigit r) then inr (backup p) else inl p) p in
  letr (value, p) := consumeText p in
  match Atoi (str value) with
  | Some i => Parsed (parseInsideAction_next (append (IntNode i) p))
  | None =>
      match ParseFloat (str value) with
      | Some d => Parsed (parseInsideAction_next (append (FloatNode d) p))
      | None => Fails (CannotParseNumber value)
      end
  end.

(** [p.input[p.pos-2]] *)
Definition two_before (p : Parser) : outcome ascii := or_panic (if pos p <? 2 then None else input p !! (pos p - 2)).

(** The loop over a quoted string: [None] goes on, [Some true] is the closing quote. *)
Definition parseQuote (p : Parser) (end_ : Z) : outcome jump :=
  letr out :=
    loop (turns p) (fun p =>
      let '(r, p) := next p in
      if decide (r = eof \/ r = 10%Z) then inr (Fails UnterminatedQuotedString)
      else if (r =? end_)%Z then
        match two_before p with
        | Parsed c => if decide (c <> backslash) then inr (Parsed p) else inl p
        | _ => inr Panics
        end
      else inl p) p in
  letr p := out in
  letr (value, p) := consumeText p in
  letr s := UnquoteExtend value in
  match s with
  | None => Fails (UnquoteError value)
  | Some s => Parsed (parseInsideAction_next (append (TextNode (str s)) p))
  end.

(** One of the three numbers of a slice. *)
Definition slice_param (value : text) : outcome Z :=
  match Atoi (str value) with Some v => Parsed v | None => Fails (IndexIsNotANumber value) end.

(** The first number. *)
Definition first_param (value : text) : outcome ParamsEntry :=
  match value with
  | [] => Parsed (mkParam 0 false false)
  | _ => letr v := slice_param value in Parsed (mkParam v true false)
  end.

(** The second and third, which begin with a colon; [absent] is for a missing one. *)
Definition later_param (absent : ParamsEntry) (value : text) : outcome ParamsEntry :=
  match value with
  | [] => Parsed absent
  | [_] => Parsed (mkParam 0 false false)
  | _ :: value => letr v := slice_param value in Parsed (mkParam v true false)
  end.

Definition slice_params (groups : text * text * text) : outcome node :=
  let '(g1, g2, g3) := groups in
  letr p0 := first_param g1 in
  letr p1 := later_param (mkParam (wrap64 (Value p0 + 1)) true true) g2 in
  letr p2 := later_param (mkParam 0 false false) g3 in
  Parsed (ArrayNode p0 p1 p2).

Section nested.
(** [parseAction], which starts a parser of its own. *)
Variable parseAction : text -> outcome (list node).

Fixpoint parse_union (strs : list text) : outcome (list (list node)) :=
  match strs with
  | [] => Parsed []
  | s :: strs =>
      letr n := parseAction (chars "[" ++ Trim s ++ chars "]") in
      letr union := parse_union strs in
      Parsed (n :: union)
  end.

Definition parseArray (p : Parser) : outcome jump :=
  letr out :=
    loop (turns p) (fun p =>
      let '(r, p) := next p in
      if decide (r = eof \/ r = 10%Z) then inr (Fails UnterminatedArray)
      else if (r =? rune "]")%Z then inr (Parsed p)
      else inl p) p in
  letr p := out in
  letr (t, p) := consumeText p in
  letr t := or_panic (slice 1 (length t - 1) t) in
  let t := if decide (t = chars "*") then chars ":" else t in
  let strs := split_on "," t in
  if 1 <? length strs then
    letr union := parse_union strs in
    Parsed (parseInsideAction_next (append (UnionNode union) p))
  else
    match dictKeyRex t with
    | Some value =>
        letr nodes := parseAction (chars "." ++ value) in
        Parsed (parseInsideAction_next (fold_left (fun p n => append n p) nodes p))
    | None =>
        match sliceOperatorRex t with
        | None => Fails (InvalidArrayIndex t)
        | Some groups =>
            letr n := slice_params groups in
            Parsed (parseInsideAction_next (append n p))
        end
    end.

(** The state of the loop over a filter. *)
Record filter_scan : Type := mkScan { fs_parser : Parser; begin_ : bool; end_ : bool; pair : Z }.

Definition filter_turn (s : filter_scan) : filter_scan + outcome Parser :=
  let '(r, p) := next (fs_parser s) in
  if decide (r = eof \/ r = 10%Z) then inr (Fails UnterminatedFilter)
  else if ((r =? rune double_quote) || (r =? rune single_quote))%Z then
    if negb (begin_ s) then inl (mkScan p true (end_ s) r)
    else
      match two_before p with
      | Parsed c => inl (mkScan p (begin_ s) (end_ s || (bool_decide (c <> backslash) && (r =? pair s)%Z)) (pair s))
      | _ => inr Panics
      end
  else if (r =? rune ")")%Z then
    if eqb (begin_ s) (end_ s) then inr (Parsed p) else inl (mkScan p (begin_ s) (end_ s) (pair s))
  else inl (mkScan p (begin_ s) (end_ s) (pair s)).

Definition parseFilter (p : Parser) : outcome jump :=
  let p := set_pos (pos p + 3) p in
  letr (_, p) := consumeText p in
  letr out := loop (turns p) filter_turn (mkScan p false false 0) in
  letr p := out in
  let '(r, p) := next p in
  if negb (r =? rune "]")%Z then Fails UnclosedArrayExpect
  else
    letr (t, p) := consumeText p in
    letr t := or_panic (slice 0 (length t - 2) t) in
    match filterRex t with
    | None =>
        letr lhs := parseAction t in
        Parsed (parseInsideAction_next (append (FilterNode lhs [] "exists") p))
    | Some (l, op, r) =>
        letr lhs := parseAction l in
        letr rhs := parseAction r in
        Parsed (parseInsideAction_next (append (FilterNode lhs rhs (str op)) p))
    end.

(** The prefixes of [prefixMap] exclude one another, so the order in which the map is
    visited does not matter. *)
Definition parseInsideAction (p : Parser) : outcome jump :=
  if looking_at rightDelim p then parseRightDelim p
  else if looking_at (chars "[?(") p then parseFilter p
  else if looking_at (chars "..") p then parseRecursive p
  else
    let '(r, p) := next p in
    if (r =? eof)%Z || isEndOfLine r then Fails UnclosedAction
    else if (r =? rune " ")%Z then letr (_, p) := consumeText p in Parsed (parseInsideAction_next p)
    else if ((r =? rune "@") || (r =? rune "$"))%Z then
      letr (_, p) := consumeText p in Parsed (parseInsideAction_next p)
    else if (r =? rune "[")%Z then parseArray p
    else if ((r =? rune double_quote) || (r =? rune single_quote))%Z then parseQuote p r
    else if (r =? rune ".")%Z then parseField p
    else if ((r =? rune "+") || (r =? rune "-"))%Z || IsDigit r then parseNumber (backup p)
    else if isAlphaNumeric r then parseIdentifier (backup p)
    else Fails (UnrecognizedCharacter r).

(** The calls in tail position, one after the other. *)
Fixpoint run (fuel : nat) (j : jump) : outcome Parser :=
  match fuel with
  | 0 => NoFuel
  | S fuel =>
      match j with
      | Done p => Parsed p
      | parseText_next p => letr j := parseText p in run fuel j
      | parseInsideAction_next p => letr j := parseInsideAction p in run fuel j
      end
  end.

Definition Parser_Parse (t : text) (p : Parser) : outcome Parser :=
  run (length t + 2) (parseText_next (mkParser (Name p) [] t 0 (start p) (width p))).

End nested.

(** [depth] bounds the nesting of parsers. *)
Fixpoint parseAction (depth : nat) (name : string) (t : text) : outcome (list node) :=
  match depth with
  | 0 => NoFuel
  | S depth =>
      letr p := Parser_Parse (fun t => parseAction depth "nested" t) (leftDelim ++ t ++ rightDelim) (NewParser name) in
      match Root p with
      | ListNode nodes :: _ => Parsed nodes
      | _ => Panics
      end
  end.

Definition commas (t : text) : nat := length (filter (fun c => c = ","%char) t).

(** Every nested text is shorter, or not longer and with fewer commas. *)
Definition Parse (name text_ : string) : outcome Parser :=
  let t := chars text_ in
  Parser_Parse (fun t' => parseAction (length t + commas t) "nested" t') t (NewParser name).

End parser.

(** ** The parser always ends

    Loops take a rune a turn, every jump moves on, nested texts are smaller, and no index
    is out of range. *)

(** [x] ends, without a panic, in an error or in something of [P]. *)
Definition good {A} (x : outcome A) (P : A -> Prop) : Prop :=
  match x with
  | Parsed a => P a
  | Fails _ => True
  | Panics | NoFuel => False
  end.

Lemma good_bind {A B} (x : outcome A) (f : A -> outcome B) P Q :
  good x P -> (forall a, P a -> good (f a) Q) -> good (rbind x f) Q.
Proof. destruct x; cbn; auto; done. Qed.

Lemma good_mono {A} (x : outcome A) (P Q : A -> Prop) : good x P -> (forall a, P a -> Q a) -> good x Q.
Proof. destruct x; cbn; auto. Qed.

Lemma slice_app lo hi (t x : text) :
  slice lo hi t = Some x -> t = take lo t ++ x ++ drop hi t /\ length x = hi - lo /\ lo <= hi <= length t.
Proof.
  unfold slice. destruct (Nat.leb_spec lo hi), (Nat.leb_spec hi (length t)); cbn; try done. intros Hx. injection Hx as <-.
  split; [|rewrite length_take, length_drop; lia]. rewrite <- (take_drop lo t) at 1. f_equal.
  rewrite <- (take_drop (hi - lo) (drop lo t)) at 1. f_equal. rewrite drop_drop. f_equal. lia.
Qed.

Lemma slice_some lo hi (t : text) : lo <= hi <= length t -> is_Some (slice lo hi t).
Proof. intros [? ?]. unfold slice. rewrite !(proj2 (Nat.leb_le _ _)) by done. by eexists. Qed.

Lemma or_panic_good {A} (x : option A) (P : A -> Prop) : is_Some x -> (forall a, x = Some a -> P a) -> good (or_panic x) P.
Proof. intros [a ->] HP. cbn. auto. Qed.

Section totality.
Context `{FloatText} `{Unicode}.

Lemma loop_good {S A} (Inv : S -> Prop) (m : S -> nat) (P : A -> Prop) body fuel : forall s,
  (forall s, Inv s -> match body s with inl s' => Inv s' /\ m s' < m s | inr a => P a end) ->
  Inv s -> m s < fuel -> good (loop fuel body s) P.
Proof.
  induction fuel as [|fuel IH]; intros s Hb Hs Hm; [lia|]. cbn. pose proof (Hb s Hs) as Hbs.
  destruct (body s) as [s'|a]; [|done]. apply IH; [done|tauto|lia].
Qed.

Definition ok (p : Parser) : Prop := start p <= pos p <= length (input p).

(** [p'] is a later state in the same text, with the same start and nodes. *)
Record later (p p' : Parser) : Prop := mkLater {
  lt_input : input p' = input p;
  lt_start : start p' = start p;
  lt_Root : Root p' = Root p;
  lt_pos : pos p <= pos p' <= length (input p)
}.

Lemma further_refl p : ok p -> later p p.
Proof. intros [? ?]. by constructor. Qed.

Lemma further_trans p q r : later p q -> later q r -> later p r.
Proof. intros [E1 S1 R1 P1] [E2 S2 R2 P2]. constructor; try congruence. rewrite E1 in P2. lia. Qed.

Lemma next_later p : ok p ->
  let '(r, p') := next p in
  later p p' /\ later p (backup p') /\ pos (backup p') = pos p /\
  ((r = eof /\ pos p' = pos p) \/ ((0 <= r)%Z /\ pos p < pos p')).
Proof.
  intros [Hs Hp]. unfold next. destruct (Nat.leb_spec (length (input p)) (pos p)) as [Hl|Hl].
  - unfold backup, set_pos. cbn. rewrite Nat.sub_0_r. split_and!; try done; [by constructor..|by left].
  - destruct (drop (pos p) (input p)) as [|c t] eqn:Ed.
    { apply (f_equal length) in Ed. rewrite length_drop in Ed. cbn in Ed. lia. }
    pose proof (DecodeRune_width c t) as [Hw Hr]. destruct (DecodeRune (c :: t)) as [r w]. cbn [fst snd] in *.
    assert (Hlen : length (c :: t) = length (input p) - pos p) by (by rewrite <- Ed, length_drop).
    unfold backup, set_pos. cbn [pos width input start Root]. split_and!.
    + constructor; cbn; try done. lia.
    + constructor; cbn; try done. lia.
    + lia.
    + right. split; [done|lia].
Qed.

Record consumed (p : Parser) (value : text) (p' : Parser) : Prop := mkConsumed {
  cs_slice : slice (start p) (pos p) (input p) = Some value;
  cs_input : input p' = input p;
  cs_start : start p' = pos p;
  cs_pos : pos p' = pos p;
  cs_Root : Root p' = Root p
}.

Lemma consumeText_good p : ok p -> good (consumeText p) (fun '(value, p') => consumed p value p').
Proof.
  intros [Hs Hp]. unfold consumeText. destruct (slice_some (start p) (pos p) (input p)) as [v Hv]; [lia|].
  rewrite Hv. by constructor.
Qed.

(** The first node of the root is an action. *)
Definition headed (p : Parser) : Prop := exists l rest, Root p = ListNode l :: rest.

Lemma headed_append n p : headed p -> headed (append n p).
Proof.
  intros (l & rest & Hr). unfold headed, append, set_Root. cbn [Root]. rewrite Hr. destruct rest as [|x rest]; [by eexists _, _|].
  by eexists l, _.
Qed.

(** A state from which the next function starts. *)
Record moved (p p' : Parser) : Prop := mkMoved {
  mv_input : input p' = input p;
  mv_start : start p' = pos p';
  mv_pos : pos p < pos p' <= length (input p);
  mv_headed : headed p -> headed p'
}.

Definition lands (p : Parser) (j : jump) : Prop :=
  match j with
  | parseText_next p' | parseInsideAction_next p' => moved p p'
  | Done p' => headed p -> headed p'
  end.

Lemma moved_append p p' n : moved p p' -> moved p (append n p').
Proof. intros [Hi Hs Hp Hh]. constructor; try done. intros Hhd. apply headed_append; auto. Qed.

Lemma moved_appends p p' l : moved p p' -> moved p (fold_left (fun p n => append n p) l p').
Proof. revert p'. induction l as [|n l IH]; cbn; intros p' Hm; [done|]. by apply IH, moved_append. Qed.

(** After a later state, what was read is taken and a node is added. *)
Lemma consumed_moved p q value q' :
  later p q -> pos p < pos q -> consumed q value q' -> moved p q'.
Proof.
  intros [Hi Hs Hr Hp] Hlt [_ Ci Cs Cp Cr]. constructor; [congruence|congruence|rewrite Cp; lia|].
  unfold headed. by rewrite Cr, Hr.
Qed.

Lemma further_ok p q : ok p -> later p q -> ok q.
Proof. intros [? ?] [Hi Hs _ Hp]. unfold ok. rewrite Hi, Hs. lia. Qed.

Lemma good_consume p q (f : text * Parser -> outcome jump) :
  ok p -> later p q -> pos p < pos q ->
  (forall value q', consumed q value q' -> moved p q' -> good (f (value, q')) (lands p)) ->
  good (rbind (consumeText q) f) (lands p).
Proof.
  intros Hok Hl Hlt Hf. eapply good_bind; [apply consumeText_good; by eapply further_ok|].
  intros [value q'] Hc. apply Hf; [done|]. by eapply consumed_moved.
Qed.

(** A loop that takes at least a rune each turn, [body] leaving or going on at a later state. *)
Lemma runes_good {A} body (P : A -> Prop) p :
  ok p ->
  (forall q, later p q ->
     match body q with inl q' => later p q' /\ pos q < pos q' | inr a => P a end) ->
  good (loop (turns p) body p) P.
Proof.
  intros Hok Hb. apply (loop_good (later p) (fun q => length (input p) - pos q)).
  - intros q Hq. specialize (Hb q Hq). destruct (body q) as [q'|a]; [|done]. destruct Hb as [Hl Hlt].
    split; [done|]. pose proof (lt_pos _ _ Hl). lia.
  - by apply further_refl.
  - unfold turns. lia.
Qed.

Lemma next_from p q : ok p -> later p q ->
  let '(r, q') := next q in
  later p q' /\ later p (backup q') /\ pos (backup q') = pos q /\
  ((r = eof /\ pos q' = pos q) \/ ((0 <= r)%Z /\ pos q < pos q')).
Proof.
  intros Hok Hl. pose proof (next_later q (further_ok p q Hok Hl)) as Hn. destruct (next q) as [r q'].
  destruct Hn as (H1 & H2 & H3 & H4). split; [by eapply further_trans|]. split; [by eapply further_trans|]. done.
Qed.

Lemma isTerminator_eof : isTerminator eof = true.
Proof. done. Qed.

Lemma looking_at_length t p : looking_at t p = true -> 0 < length t -> pos p + length t <= length (input p).
Proof.
  unfold looking_at, HasPrefix. intros Heq Ht. apply bool_decide_eq_true in Heq. apply (f_equal length) in Heq.
  rewrite length_take, length_drop in Heq. lia.
Qed.

Lemma parseText_good p : ok p -> start p = pos p -> good (parseText p) (lands p).
Proof.
  intros Hok Hsp. unfold parseText. eapply good_bind.
  { apply (runes_good _ (fun '(q, d) => later p q /\ (d = true -> looking_at leftDelim q = true))); [done|].
    intros q Hq. destruct (looking_at leftDelim q) eqn:El; [done|].
    pose proof (next_from p q Hok Hq) as Hn. destruct (next q) as [r q']. destruct Hn as (H1 & _ & _ & H4).
    case_decide; [done|]. destruct H4 as [[? _]|[_ ?]]; [done|]. done. }
  intros [q d] [Hq Hd]. eapply (good_bind _ _ (fun q' => ok q' /\ pos q' = pos q /\ input q' = input p /\
    (d = true -> pos q < length (input p)) /\ ((start q <? pos q) = true \/ q' = q) /\ (headed p -> headed q'))).
  { unfold append_text. pose proof (further_ok _ _ Hok Hq) as Hoq. destruct Hq as [Hi Hs Hr Hp].
    assert (Hlen : d = true -> pos q < length (input p)).
    { intros Hdt. pose proof (looking_at_length leftDelim q (Hd Hdt)) as Hlen. rewrite Hi in Hlen. cbn in Hlen. lia. }
    destruct (Nat.ltb_spec (start q) (pos q)) as [Hlt|Hge].
    - eapply good_bind; [by apply consumeText_good|]. intros [v q'] [_ Ci Cs Cp Cr]. cbn. unfold ok, headed, set_Root. cbn.
      rewrite Ci, Cs, Cp, Cr, Hr, Hi. split_and!; [lia|lia|done|done|done|by left|].
      intros (l & rest & ->). by exists l, (rest ++ [TextNode (str v)]).
    - cbn. split_and!; try done; [by right|]. unfold headed. by rewrite Hr. }
  intros q' (Hoq & Hpq & Hiq & Hlen & _ & Hh). destruct d; [|done].
  unfold parseLeftDelim. eapply good_bind.
  { apply consumeText_good. unfold ok, set_pos. cbn. destruct Hoq. rewrite Hiq. specialize (Hlen eq_refl). lia. }
  intros [v q2] [_ Ci Cs Cp Cr]. cbn in *. constructor; cbn; [congruence|congruence| |].
  - rewrite Cp, Hpq. specialize (Hlen eq_refl). pose proof (lt_pos _ _ Hq). lia.
  - intros Hhp. destruct (Hh Hhp) as (l & rest & Hr). unfold headed, set_Root. cbn. rewrite Cr, Hr. by eexists l, _.
Qed.

(** *** The functions inside an action *)

Lemma unquote_loop_some fuel : forall quote s buf, length s <= fuel -> is_Some (unquote_loop fuel quote s buf).
Proof.
  induction fuel as [|fuel IH]; intros quote [|c s] buf Hl; cbn [unquote_loop]; try (by eexists); [cbn in Hl; lia|].
  destruct (UnquoteChar (c :: s) quote) as [[[r m] ss]|] eqn:Eu; [|by eexists]. apply IH.
  apply UnquoteChar_length in Eu. lia.
Qed.

Lemma UnquoteExtend_good s : good (UnquoteExtend s) (fun _ => True).
Proof.
  unfold UnquoteExtend. destruct (Nat.ltb_spec (length s) 2); [done|].
  eapply good_bind; [apply or_panic_good; [apply lookup_lt_is_Some_2; lia|by intros ? _; exact I]|]. intros quote _.
  eapply good_bind; [apply or_panic_good; [apply lookup_lt_is_Some_2; lia|by intros ? _; exact I]|]. intros close _.
  case_decide; [done|].
  eapply good_bind; [apply or_panic_good; [apply slice_some; lia|by intros ? _; exact I]|]. intros t _.
  case_decide; [done|]. destruct (_ && _); [done|]. destruct (unquote_loop_some (length t) quote t []) as [r Hr]; [lia|].
  by rewrite Hr.
Qed.

Lemma rune_at p q : input q = input p -> pos q = pos p -> (next q).1 = (next p).1.
Proof.
  intros Hi Hp. unfold next. rewrite Hi, Hp. destruct (length (input p) <=? pos p); [done|]. by destruct (DecodeRune _).
Qed.

Lemma isTerminator_cases r : isTerminator r = true -> r ∈ [32; 9; 13; 10; -1; 46; 44; 91; 93; 36; 64; 123; 125]%Z.
Proof.
  unfold isTerminator, isSpace, isEndOfLine, eof. intros Ht.
  repeat match goal with H : _ || _ = true |- _ => apply orb_true_iff in H as [H|H] end;
    apply Z.eqb_eq in Ht; subst r; vm_compute; set_solver.
Qed.

Lemma alnum_not_terminator r : isAlphaNumeric r = true -> isTerminator r = false.
Proof.
  intros Ha. apply not_true_is_false. intros Ht. apply isTerminator_cases in Ht.
  unfold isAlphaNumeric in Ha.
  repeat (apply elem_of_cons in Ht as [->|Ht]; [by rewrite IsLetter_ascii, IsDigit_ascii in Ha|]).
  by apply elem_of_nil in Ht.
Qed.

Lemma parseRightDelim_good p : ok p -> start p = pos p -> looking_at rightDelim p = true ->
  good (parseRightDelim p) (lands p).
Proof.
  intros Hok Hs Hl. apply looking_at_length in Hl; [|cbn; lia]. cbn in Hl. unfold parseRightDelim.
  apply good_consume; [done| | |done].
  - constructor; cbn; try done. destruct Hok. lia.
  - cbn. lia.
Qed.

(** Loops that stop before a rune, the first of which does not stop them. *)
Lemma scan_good p q (stop : Z -> bool) :
  ok p -> later p q -> stop eof = true -> pos p < pos q \/ stop (next q).1 = false ->
  good (loop (turns q) (fun q => let '(r, q) := next q in if stop r then inr (backup q) else inl q) q)
    (fun q' => later p q' /\ pos p < pos q').
Proof.
  intros Hok Hq Heof Hfirst. pose proof (further_ok _ _ Hok Hq) as Hoq.
  assert (Hpq : pos p <= pos q) by (by destruct (lt_pos _ _ Hq)).
  apply (loop_good (fun q1 => later q q1 /\ (pos p < pos q1 \/ (pos q1 = pos q /\ stop (next q1).1 = false)))
           (fun q1 => length (input q) - pos q1)).
  - intros q1 [Hl Hst]. pose proof (next_from q q1 Hoq Hl) as Hn.
    destruct (next q1) as [r q2]. cbn [fst] in Hst. destruct Hn as (H1 & H2 & H3 & H4).
    destruct (stop r) eqn:Es.
    + destruct Hst as [Hlt|[_ ?]]; [|done]. split; [by eapply further_trans|lia].
    + destruct H4 as [[-> _]|[_ Hlt]]; [congruence|]. split; [split; [done|]|].
      * left. pose proof (lt_pos _ _ Hl). lia.
      * pose proof (lt_pos _ _ H1). lia.
  - split; [by apply further_refl|]. destruct Hfirst as [?|?]; [by left|by right].
  - unfold turns. lia.
Qed.

Lemma parseIdentifier_good p q : ok p -> later p q -> isTerminator (next q).1 = false -> good (parseIdentifier q) (lands p).
Proof.
  intros Hok Hq Hr. unfold parseIdentifier. eapply good_bind; [apply (scan_good p q isTerminator); [done..|by right]|].
  intros q1 [H1 H2]. apply good_consume; [done..|]. intros value q2 _ Hm. by apply moved_append.
Qed.

Lemma parseNumber_good p q : ok p -> later p q ->
  ((next q).1 =? rune "+")%Z || ((next q).1 =? rune "-")%Z || IsDigit (next q).1 = true ->
  good (parseNumber q) (lands p).
Proof.
  intros Hok Hq Hr. unfold parseNumber, peek. pose proof (next_from p q Hok Hq) as Hn.
  pose proof (rune_at q (backup (next q).2)) as Hb. destruct (next q) as [r q1]. cbn [fst snd] in *.
  destruct Hn as (H1 & H2 & H3 & H4). specialize (Hb ltac:(rewrite (lt_input _ _ H2), (lt_input _ _ Hq); done) H3).
  match goal with |- context [turns ?x] => set (q2 := x) end.
  assert (Hq2 : later p q2 /\ (pos p < pos q2 \/ negb ((next q2).1 =? rune ".")%Z && negb (IsDigit (next q2).1) = false)).
  { subst q2. pose proof (next_from p _ Hok H2) as Hn2. destruct ((r =? rune "+") || (r =? rune "-"))%Z eqn:Esign.
    - destruct (next (backup q1)) as [r2 q2]. cbn [fst snd] in *. destruct Hn2 as (N1 & _ & _ & N4). split; [done|]. left.
      destruct N4 as [[-> _]|[_ ?]]; [subst r; by vm_compute in Esign|]. pose proof (lt_pos _ _ H2). lia.
    - split; [done|]. right. rewrite Hb. cbn [orb] in Hr. rewrite Hr. by rewrite andb_false_r. }
  destruct Hq2 as [Hq2 Hf]. eapply good_bind.
  { apply (scan_good p q2 (fun r => negb (r =? rune ".")%Z && negb (IsDigit r))); [done|done| |done].
    rewrite IsDigit_ascii by done. done. }
  intros q3 [H5 H6]. apply good_consume; [done..|]. intros value q4 _ Hm.
  destruct (Atoi _); [by apply moved_append|]. destruct (ParseFloat _); [by apply moved_append|done].
Qed.

Lemma moved_later_consumed p q1 q2 value q3 :
  moved p q1 -> later q1 q2 -> consumed q2 value q3 -> moved p q3.
Proof.
  intros [Mi Ms Mp Mh] [Li Ls Lr Lp] [_ Ci Cs Cp Cr]. rewrite Mi in Lp. constructor; [congruence|congruence|lia|].
  intros Hh. destruct (Mh Hh) as (l & rest & Hr). exists l, rest. congruence.
Qed.

Lemma moved_ok p q : moved p q -> ok q.
Proof. intros [Mi Ms Mp _]. unfold ok. rewrite Mi, Ms. lia. Qed.

Lemma parseField_moved p q : moved p q -> good (parseField q) (lands p).
Proof.
  intros Hm. pose proof (moved_ok _ _ Hm) as Hok. unfold parseField.
  eapply good_bind; [by apply consumeText_good|]. intros [v q0] Hc.
  pose proof (moved_later_consumed p q q v q0 Hm (further_refl q Hok) Hc) as Hm0. pose proof (moved_ok _ _ Hm0) as Hok0.
  eapply good_bind.
  { apply (runes_good _ (later q0)); [done|]. intros q1 Hq1. unfold advance. pose proof (next_from q0 q1 Hok0 Hq1) as Hn.
    destruct (next q1) as [r q2]. destruct Hn as (H1 & H2 & _ & H4). destruct (r =? rune backslash)%Z eqn:Eb.
    - pose proof (next_from q0 q2 Hok0 H1) as Hn2. destruct (next q2) as [r3 q3]. destruct Hn2 as (N1 & _ & _ & N4). cbn [snd].
      split; [done|]. destruct H4 as [[-> _]|[_ Hlt]]; [done|]. destruct N4 as [[_ ->]|[_ ?]]; lia.
    - destruct (isTerminator r) eqn:Et; [done|]. split; [done|]. destruct H4 as [[-> _]|[_ Hlt]]; [done|done]. }
  intros q1 Hq1. eapply good_bind; [apply consumeText_good; by eapply further_ok|]. intros [value q2] Hc2. cbn [good lands].
  apply moved_append. by eapply moved_later_consumed.
Qed.

Lemma parseField_good p q : ok p -> later p q -> pos p < pos q -> good (parseField q) (lands p).
Proof.
  intros Hok Hq Hlt. pose proof (further_ok _ _ Hok Hq) as Hoq. unfold parseField.
  (* the text before the field is dropped: afterwards the state has moved *)
  eapply good_bind; [by apply consumeText_good|]. intros [v q0] Hc.
  pose proof (consumed_moved p q v q0 Hq Hlt Hc) as Hm.
  pose proof (parseField_moved p q0 Hm) as Hf. unfold parseField in Hf.
  assert (Hc0 : consumeText q0 = Parsed ([], q0)).
  { destruct Hm as [Mi Ms Mp _]. clear -Mi Ms Mp. destruct q0 as [nm ro inp ps st wd]. cbn in *. subst st inp.
    unfold consumeText, slice. cbn. rewrite Nat.leb_refl, (proj2 (Nat.leb_le _ _)) by lia. by rewrite Nat.sub_diag. }
  by rewrite Hc0 in Hf.
Qed.

Lemma parseRecursive_good p : ok p -> start p = pos p -> looking_at (chars "..") p = true ->
  good (parseRecursive p) (lands p).
Proof.
  intros Hok Hs Hl. apply looking_at_length in Hl; [|cbn; lia]. cbn in Hl. unfold parseRecursive.
  assert (Hgo : good (let p0 := set_pos (pos p + 2) p in
      letr (_, p0) := consumeText p0 in
      let p0 := append RecursiveNode p0 in
      let '(r, p0) := peek p0 in
      if isAlphaNumeric r then parseField p0 else Parsed (parseInsideAction_next p0)) (lands p)).
  { cbn zeta. apply good_consume; [done| |cbn; lia|].
    - constructor; cbn; try done. destruct Hok. lia.
    - intros v q _ Hm. pose proof (moved_append _ _ RecursiveNode Hm) as Hma. pose proof (moved_ok _ _ Hma) as Hoa.
      unfold peek. pose proof (next_later _ Hoa) as Hn. destruct (next (append RecursiveNode q)) as [r q1].
      destruct Hn as (_ & Hb & Hpb & _).
      assert (Hmb : moved p (backup q1)).
      { destruct Hma as [Mi Ms Mp Mh]. destruct Hb as [Bi Bs Br Bp]. constructor; [congruence|congruence|lia|].
        intros Hh. destruct (Mh Hh) as (l & rest & Hr). exists l, rest. congruence. }
      destruct (isAlphaNumeric r); [by apply parseField_moved|done]. }
  destruct (last (cur p)) as [[]|]; try exact Hgo. done.
Qed.

Lemma two_before_good p : 2 <= pos p <= length (input p) -> exists c, two_before p = Parsed c.
Proof.
  intros [? ?]. unfold two_before. destruct (Nat.ltb_spec (pos p) 2); [lia|].
  destruct (lookup_lt_is_Some_2 (input p) (pos p - 2)) as [c Hc]; [lia|]. rewrite Hc. by exists c.
Qed.

(** The loops over arrays and quotes end with an error, or with a parser further on. *)
Definition ended (p : Parser) (bound : nat) (x : outcome Parser) : Prop :=
  good x (fun q => later p q /\ bound < pos q).

Lemma parseQuote_good p q e : ok p -> later p q -> pos p < pos q -> (0 <= e)%Z -> good (parseQuote q e) (lands p).
Proof.
  intros Hok Hq Hlt He. unfold parseQuote. eapply good_bind.
  { apply (runes_good _ (ended p (pos q))); [by eapply further_ok|]. intros q1 Hq1.
    pose proof (next_from q q1 (further_ok _ _ Hok Hq) Hq1) as Hn. destruct (next q1) as [r q2].
    destruct Hn as (H1 & _ & _ & H4). case_decide as Hr; [done|]. destruct H4 as [[-> _]|[_ Hlt2]]; [tauto|].
    destruct (r =? e)%Z; [|done].
    destruct (two_before_good q2) as [c Hc].
    { rewrite (lt_input _ _ H1). pose proof (lt_pos _ _ H1). pose proof (lt_pos _ _ Hq1). lia. }
    rewrite Hc. case_decide; [|done]. split; [by eapply further_trans|]. pose proof (lt_pos _ _ Hq1). lia. }
  intros out Hout. eapply good_bind; [exact Hout|]. intros q1 [H1 H2]. apply good_consume; [done|done|lia|].
  intros value q2 _ Hm. eapply good_bind; [apply UnquoteExtend_good|]. intros [s|] _; [by apply moved_append|done].
Qed.

(** *** The size of nested texts *)

Definition size_of (t : text) : nat := length t + commas t.

Lemma commas_app a b : commas (a ++ b) = commas a + commas b.
Proof. unfold commas. by rewrite filter_app, length_app. Qed.

Lemma size_of_app a b : size_of (a ++ b) = size_of a + size_of b.
Proof. unfold size_of. rewrite length_app, commas_app. lia. Qed.

Lemma commas_cons c t : commas (c :: t) = (if decide (c = ","%char) then 1 else 0) + commas t.
Proof. unfold commas. rewrite filter_cons. by case_decide. Qed.

Lemma commas_rev t : commas (rev t) = commas t.
Proof.
  induction t as [|c t IH]; [done|]. cbn [rev]. change (c :: t) with ([c] ++ t). rewrite !commas_app, IH. lia.
Qed.

Lemma trim_left_size t : size_of (trim_left t) <= size_of t.
Proof.
  induction t as [|c t IH]; [done|]. pose proof (size_of_app [c] t) as Hc. cbn [app] in Hc.
  destruct (decide (c = " "%char)) as [->|Hne]; [cbn [trim_left]; lia|].
  enough (trim_left (c :: t) = c :: t) as ->; [done|]. by destruct c as [[] [] [] [] [] [] [] []].
Qed.

Lemma size_of_rev t : size_of (rev t) = size_of t.
Proof. unfold size_of. rewrite length_rev, commas_rev. done. Qed.

Lemma Trim_size t : size_of (Trim t) <= size_of t.
Proof.
  unfold Trim. rewrite size_of_rev. etrans; [apply trim_left_size|]. rewrite size_of_rev. apply trim_left_size.
Qed.

(** The parts of a split have no commas, and with the commas they make up the text. *)
Lemma split_on_parts t s : s ∈ split_on "," t -> size_of s + 2 * commas t <= size_of t /\ 1 <= length (split_on "," t).
Proof.
  assert (Hsum : forall t, split_on "," t <> [] /\ length (concat (split_on "," t)) + commas t = length t /\
    commas (concat (split_on "," t)) = 0).
  { clear. induction t as [|c t (IH0 & IH1 & IH2)]; [done|]. rewrite commas_cons. cbn [split_on length].
    destruct (decide (c = ","%char)) as [->|Hc]; cbn [concat app]; [split; [done|]; lia|].
    destruct (split_on "," t) as [|s l]; [done|]. cbn [concat app length] in *. split; [done|].
    rewrite commas_cons, decide_False by done. lia. }
  intros Hs. destruct (Hsum t) as (H1 & H2 & H3). split; [|by destruct (split_on "," t); cbn; [done|lia]].
  apply list_elem_of_split in Hs as (l1 & l2 & Hl). rewrite Hl, concat_app in H2, H3. cbn in H2, H3.
  rewrite !commas_app in H3. rewrite !length_app in H2. unfold size_of. lia.
Qed.

Lemma split_on_commas t : length (split_on "," t) = 1 + commas t.
Proof.
  induction t as [|c t IH]; [done|]. rewrite commas_cons. cbn [split_on].
  destruct (decide (c = ","%char)); cbn [length]; [lia|]. by destruct (split_on "," t).
Qed.

Lemma slice_size lo hi (t x : text) :
  slice lo hi t = Some x -> size_of t = size_of (take lo t) + size_of x + size_of (drop hi t).
Proof. intros Hs. apply slice_app in Hs as (Ht & _). rewrite Ht at 1. rewrite !size_of_app. lia. Qed.

Lemma size_of_length t : length t <= size_of t.
Proof. unfold size_of. lia. Qed.

Lemma span_app f t : t = (span f t).1 ++ (span f t).2.
Proof. induction t as [|c t IH]; [done|]. cbn. destruct (f c); [|done]. destruct (span f t). cbn in *. by f_equal. Qed.

Lemma filterRex_size t l op r : filterRex t = Some (l, op, r) -> size_of l + size_of r <= size_of t.
Proof.
  unfold filterRex. pose proof (span_app (fun c => negb (is_operator c)) t) as Ht.
  destruct (span _ t) as [l0 t0]. cbn in Ht. subst t. pose proof (span_app is_operator t0) as Ht.
  destruct (span is_operator t0) as [op0 r0]. cbn in Ht. subst t0.
  destruct l0 as [|a l0]; [done|]. destruct op0 as [|o1 [|o2 op0]]; [done| |]; destruct r0 as [|b r0]; try done;
    intros Heq; injection Heq as <- <- <-; rewrite !size_of_app; try lia.
  pose proof (take_drop (length op0) (o2 :: op0)) as Htd. apply (f_equal size_of) in Htd.
  change (o1 :: o2 :: op0) with ([o1] ++ o2 :: op0). rewrite size_of_app in *. lia.
Qed.

Lemma dictKeyRex_size t v : dictKeyRex t = Some v -> size_of v + 2 = size_of t.
Proof.
  unfold dictKeyRex. destruct t as [|c t]; [done|]. case_decide as Hc; [|done]. destruct (rev t) as [|d r] eqn:Er; [done|].
  case_decide as Hd; [|done]. intros Heq. injection Heq as <-. destruct Hd as [-> _]. subst c.
  rewrite size_of_rev. apply (f_equal size_of) in Er. rewrite size_of_rev in Er.
  change (single_quote :: t) with ([single_quote] ++ t). change (single_quote :: r) with ([single_quote] ++ r) in Er.
  rewrite size_of_app in *. change (size_of [single_quote]) with 1 in *. lia.
Qed.

(** *** Arrays, filters, and the whole *)

Section with_nested.
Variable nest : text -> outcome (list node).
Variable whole : text.
(** The nested parser ends on smaller texts in braces. *)
Hypothesis nest_good : forall t, size_of t + 2 < size_of whole -> good (nest t) (fun _ => True).

Lemma parse_union_good strs :
  (forall s, s ∈ strs -> size_of s + 4 < size_of whole) -> good (parse_union nest strs) (fun _ => True).
Proof.
  induction strs as [|s strs IH]; intros Hs; [done|]. cbn [parse_union].
  assert (Hh : size_of s + 4 < size_of whole) by (apply Hs; set_solver).
  eapply good_bind; [apply nest_good|].
  - rewrite !size_of_app. pose proof (Trim_size s). change (size_of (chars "[")) with 1. change (size_of (chars "]")) with 1. lia.
  - intros n _. eapply good_bind; [apply IH; set_solver|done].
Qed.

Lemma slice_params_good groups : good (slice_params groups) (fun _ => True).
Proof.
  destruct groups as [[g1 g2] g3]. unfold slice_params.
  assert (Hp : forall v, good (slice_param v) (fun _ => True)) by (intros v; unfold slice_param; by destruct (Atoi _)).
  eapply (good_bind _ _ (fun _ => True)).
  { unfold first_param. destruct g1; [done|]. eapply good_bind; [apply Hp|done]. }
  intros p0 _. assert (Hl : forall a g, good (later_param a g) (fun _ => True)).
  { intros a g. unfold later_param. destruct g as [|? [|? ?]]; [done..|]. eapply good_bind; [apply Hp|done]. }
  eapply good_bind; [apply Hl|]. intros p1 _. eapply good_bind; [apply Hl|done].
Qed.

(** What is taken after a beginning of [n] is the smaller by that. *)
Lemma consumed_size p q value q' n :
  later p q -> input p = whole -> n <= start p -> consumed q value q' -> n + size_of value <= size_of whole.
Proof.
  intros [Hi Hs _ _] Hw Hn [Cs _ _ _ _]. rewrite Hi, Hs, Hw in Cs. pose proof (slice_app _ _ _ _ Cs) as (_ & _ & Hb).
  rewrite (slice_size _ _ _ _ Cs). pose proof (size_of_length (take (start p) whole)) as Hl.
  rewrite length_take in Hl. lia.
Qed.

Lemma parseArray_good p q :
  ok p -> input p = whole -> 1 <= start p -> start p = pos p -> later p q -> pos p < pos q ->
  good (parseArray nest q) (lands p).
Proof.
  intros Hok Hw Hst Hsp Hq Hlt. unfold parseArray. eapply good_bind.
  { apply (runes_good _ (ended p (pos q))); [by eapply further_ok|]. intros q1 Hq1.
    pose proof (next_from q q1 (further_ok _ _ Hok Hq) Hq1) as Hn. destruct (next q1) as [r q2].
    destruct Hn as (H1 & _ & _ & H4). case_decide as Hr; [done|]. destruct H4 as [[-> _]|[_ Hlt2]]; [tauto|].
    destruct (r =? rune "]")%Z; [|done]. split; [by eapply further_trans|]. pose proof (lt_pos _ _ Hq1). lia. }
  intros out Hout. eapply good_bind; [exact Hout|]. intros q1 [H1 H2]. apply good_consume; [done|done|lia|].
  intros value q2 Hc Hm. pose proof (consumed_size p q1 value q2 1 H1 Hw Hst Hc) as Hsz.
  assert (Hlen : 2 <= length value).
  { destruct Hc as [Cs _ _ _ _]. apply slice_app in Cs as (_ & Hl & _). rewrite Hl, (lt_start _ _ H1). lia. }
  eapply good_bind.
  { apply (or_panic_good _ (fun t => size_of t + 2 <= size_of value)); [apply slice_some; lia|].
    intros t Ht. pose proof (slice_app _ _ _ _ Ht) as (_ & Hl & _). rewrite (slice_size _ _ _ _ Ht).
    pose proof (size_of_length (take 1 value)) as Ht1. pose proof (size_of_length (drop (length value - 1) value)) as Hd1.
    rewrite length_take in Ht1. rewrite length_drop in Hd1. lia. }
  intros t Ht. cbn beta in Ht. set (t' := if decide (t = chars "*") then chars ":" else t).
  assert (Ht' : size_of t' <= size_of t) by (subst t'; case_decide; [by subst t; vm_compute; lia|done]).
  destruct (Nat.ltb_spec 1 (length (split_on "," t'))) as [Hu|Hu].
  - eapply good_bind; [apply parse_union_good|by intros u _; apply moved_append]. intros s Hs.
    rewrite split_on_commas in Hu. apply split_on_parts in Hs as [Hs _]. lia.
  - destruct (dictKeyRex t') as [v|] eqn:Ed.
    + apply dictKeyRex_size in Ed. eapply good_bind; [apply nest_good|by intros l _; apply moved_appends].
      rewrite size_of_app. change (size_of (chars ".")) with 1. lia.
    + destruct (sliceOperatorRex t') as [groups|]; [|done].
      eapply good_bind; [apply slice_params_good|]. intros n _. by apply moved_append.
Qed.

Lemma filter_turn_good p s q0 :
  ok p -> later p q0 -> 2 <= pos p -> later q0 (fs_parser s) ->
  match filter_turn s with
  | inl s' => later q0 (fs_parser s') /\ pos (fs_parser s) < pos (fs_parser s')
  | inr x => good x (fun q => later q0 q /\ pos (fs_parser s) < pos q)
  end.
Proof.
  intros Hok Hq0 Hp2 Hs. unfold filter_turn.
  pose proof (next_from q0 (fs_parser s) (further_ok _ _ Hok Hq0) Hs) as Hn. destruct (next (fs_parser s)) as [r q].
  destruct Hn as (H1 & _ & _ & H4). case_decide as Hr; [done|]. destruct H4 as [[-> _]|[_ Hlt]]; [tauto|].
  destruct (_ || _)%bool; [|destruct (r =? rune ")")%Z; [|done]; by destruct (eqb _ _)].
  destruct (negb (begin_ s)); [done|].
  destruct (two_before_good q) as [c Hc].
  { rewrite (lt_input _ _ H1). pose proof (lt_pos _ _ H1). pose proof (lt_pos _ _ Hs). pose proof (lt_pos _ _ Hq0). lia. }
  by rewrite Hc.
Qed.

Lemma parseFilter_good p :
  ok p -> input p = whole -> 1 <= start p -> start p = pos p -> looking_at (chars "[?(") p = true ->
  good (parseFilter nest p) (lands p).
Proof.
  intros Hok Hw Hst Hsp Hl. apply looking_at_length in Hl; [|cbn; lia]. cbn in Hl. unfold parseFilter.
  set (p1 := set_pos (pos p + 3) p).
  assert (H1 : later p p1) by (constructor; cbn; try done; destruct Hok; lia).
  apply good_consume; [done|done|cbn; lia|]. intros v p2 Hc Hm.
  assert (Hp2 : start p2 = pos p + 3 /\ pos p2 = pos p + 3 /\ input p2 = whole).
  { destruct Hc as [_ Ci Cs Cp _]. cbn in *. rewrite Ci, Cs, Cp. done. }
  destruct Hp2 as (Hs2 & Hpos2 & Hi2). pose proof (moved_ok _ _ Hm) as Hok2.
  eapply good_bind.
  { apply (loop_good (fun s => later p2 (fs_parser s)) (fun s => length (input p2) - pos (fs_parser s))
             (fun x => good x (fun q => later p2 q /\ pos p2 < pos q))).
    - intros s Hs. pose proof (filter_turn_good p2 s p2 Hok2 (further_refl _ Hok2) ltac:(lia) Hs) as Ht.
      destruct (filter_turn s) as [s'|x].
      + destruct Ht as [Hs' Hlt]. split; [done|]. pose proof (lt_pos _ _ Hs'). lia.
      + eapply good_mono; [exact Ht|]. intros q [Hq Hlt]. split; [done|]. pose proof (lt_pos _ _ Hs). lia.
    - by apply further_refl.
    - unfold turns. cbn. lia. }
  intros x Hx. eapply good_bind; [exact Hx|]. intros q [Hq Hlt]. pose proof (next_from p2 q Hok2 Hq) as Hn.
  destruct (next q) as [r q1]. destruct Hn as (Hq1 & _ & _ & H4). destruct (r =? rune "]")%Z eqn:Er; [|done]. cbn [negb].
  destruct H4 as [[-> _]|[_ Hlt2]]; [done|].
  eapply good_bind; [apply consumeText_good; by eapply further_ok|]. intros [value q2] Hc2.
  pose proof (moved_later_consumed p p2 q1 value q2 Hm Hq1 Hc2) as Hm2.
  pose proof (consumed_size p2 q1 value q2 4 Hq1 Hi2 ltac:(lia) Hc2) as Hsz.
  assert (Hlen : 2 <= length value).
  { destruct Hc2 as [Cs _ _ _ _]. apply slice_app in Cs as (_ & Hlv & _). rewrite Hlv, (lt_start _ _ Hq1). lia. }
  eapply good_bind.
  { apply (or_panic_good _ (fun t => size_of t + 2 <= size_of value)); [apply slice_some; lia|].
    intros t Ht. rewrite (slice_size _ _ _ _ Ht). pose proof (size_of_length (drop (length value - 2) value)) as Hd1.
    rewrite length_drop in Hd1. lia. }
  intros t Ht. cbn beta in Ht. destruct (filterRex t) as [[[l op] rt]|] eqn:Ef.
  - apply filterRex_size in Ef. eapply good_bind; [apply nest_good; lia|]. intros lhs _.
    eapply good_bind; [apply nest_good; lia|]. intros rhs _. by apply moved_append.
  - eapply good_bind; [apply nest_good; lia|]. intros lhs _. by apply moved_append.
Qed.

Lemma parseInsideAction_good p :
  ok p -> input p = whole -> 1 <= start p -> start p = pos p -> good (parseInsideAction nest p) (lands p).
Proof.
  intros Hok Hw Hst Hsp. unfold parseInsideAction.
  destruct (looking_at rightDelim p) eqn:E1; [by apply parseRightDelim_good|].
  destruct (looking_at (chars "[?(") p) eqn:E2; [by apply parseFilter_good|].
  destruct (looking_at (chars "..") p) eqn:E3; [by apply parseRecursive_good|].
  pose proof (next_later p Hok) as Hn. pose proof (rune_at p (backup (next p).2)) as Hb.
  destruct (next p) as [r q]. cbn [fst snd] in Hb. destruct Hn as (H1 & H2 & H3 & H4).
  specialize (Hb (lt_input _ _ H2) H3).
  destruct (_ || isEndOfLine r) eqn:E4; [done|]. apply orb_false_iff in E4 as [E4 _].
  destruct H4 as [[-> _]|[Hr Hlt]]; [done|].
  destruct (r =? rune " ")%Z; [by apply good_consume|].
  destruct ((r =? rune "@") || (r =? rune "$"))%Z; [by apply good_consume|].
  destruct (r =? rune "[")%Z; [by apply (parseArray_good p)|].
  destruct ((r =? rune double_quote) || (r =? rune single_quote))%Z; [by apply parseQuote_good|].
  destruct (r =? rune ".")%Z; [by apply parseField_good|].
  destruct (((r =? rune "+") || (r =? rune "-"))%Z || IsDigit r) eqn:E5; [apply parseNumber_good; [done..|by rewrite Hb]|].
  destruct (isAlphaNumeric r) eqn:E6; [|done]. apply parseIdentifier_good; [done..|]. rewrite Hb. by apply alnum_not_terminator.
Qed.

(** What the next function needs. *)
Definition ready (j : jump) : Prop :=
  match j with
  | parseText_next p => ok p /\ start p = pos p /\ input p = whole
  | parseInsideAction_next p => ok p /\ start p = pos p /\ input p = whole /\ 1 <= pos p
  | Done _ => True
  end.

Definition left_of (j : jump) : nat :=
  match j with parseText_next p | parseInsideAction_next p => 1 + (length whole - pos p) | Done _ => 0 end.

Definition jump_headed (j : jump) : Prop :=
  match j with parseText_next p | parseInsideAction_next p | Done p => headed p end.

Lemma lands_ready p j : input p = whole -> lands p j ->
  ready j /\ match j with Done _ => True | _ => left_of j < 1 + (length whole - pos p) end /\ (headed p -> jump_headed j).
Proof.
  intros Hw. destruct j as [q|q|q]; cbn; [intros Hm..|tauto]; pose proof (moved_ok _ _ Hm); destruct Hm as [Mi Ms Mp Mh];
    rewrite Hw in Mp; split_and!; try done; try lia; congruence.
Qed.

Lemma run_good fuel : forall j, ready j -> left_of j < fuel ->
  good (run nest fuel j) (fun p => jump_headed j -> headed p).
Proof.
  induction fuel as [|fuel IH]; intros j Hj Hf; [lia|]. cbn [run]. destruct j as [p|p|p]; [..|cbn; auto].
  - destruct Hj as (Hok & Hsp & Hw). eapply good_bind; [by apply parseText_good|]. intros j Hj.
    apply lands_ready in Hj as (Hr & Hl & Hh); [|done]. cbn [left_of] in Hf.
    eapply good_mono; [apply IH; [done|destruct j; [lia..|cbn; lia]]|]. intros q Hq Hp. by apply Hq, Hh.
  - destruct Hj as (Hok & Hsp & Hw & H1). eapply good_bind; [apply parseInsideAction_good; [done..|lia|done]|]. intros j Hj.
    apply lands_ready in Hj as (Hr & Hl & Hh); [|done]. cbn [left_of] in Hf.
    eapply good_mono; [apply IH; [done|destruct j; [lia..|cbn; lia]]|]. intros q Hq Hp. by apply Hq, Hh.
Qed.

(** A template that begins with an action. *)
Lemma parseText_headed name j :
  HasPrefix whole leftDelim = true -> parseText (mkParser name [] whole 0 0 0) = Parsed j -> jump_headed j.
Proof.
  intros Hp. unfold parseText, turns. cbn [loop Nat.add]. unfold looking_at at 1. cbn [pos input]. rewrite drop_0, Hp.
  cbn [rbind]. unfold append_text. cbn [start pos Nat.ltb Nat.leb]. cbn [rbind]. unfold parseLeftDelim.
  destruct (consumeText _) as [[v q]| | |] eqn:Ec; try done. intros Hj. injection Hj as <-.
  unfold consumeText in Ec. destruct (or_panic _); try done. cbn in Ec. injection Ec as _ <-. by exists [], [].
Qed.

Lemma Parser_Parse_good name :
  good (Parser_Parse nest whole (NewParser name)) (fun q => HasPrefix whole leftDelim = true -> headed q).
Proof.
  unfold Parser_Parse, NewParser. cbn [Name start width]. set (p0 := mkParser _ _ _ _ _ _).
  replace (length whole + 2) with (S (length whole + 1)) by lia. cbn [run].
  assert (Hok : ok p0) by (unfold ok; cbn; lia).
  pose proof (parseText_good p0 Hok eq_refl) as Hg. destruct (parseText p0) as [j| | |] eqn:Ej; try done. cbn [rbind good] in *.
  pose proof (lands_ready p0 j eq_refl Hg) as (Hr & Hl & _).
  eapply good_mono; [apply run_good; [done|destruct j; cbn in *; lia]|]. intros q Hq Hp. apply Hq.
  by eapply parseText_headed.
Qed.

End with_nested.



Lemma parseAction_good depth : forall name t, size_of t + 2 < depth + 1 -> good (parseAction depth name t) (fun _ => True).
Proof.
  induction depth as [|depth IH]; intros name t Hd; [lia|]. cbn [parseAction].
  set (whole := leftDelim ++ t ++ rightDelim).
  assert (Hw : size_of whole = size_of t + 2).
  { subst whole. rewrite !size_of_app. change (size_of leftDelim) with 1. change (size_of rightDelim) with 1. lia. }
  eapply good_bind; [apply (Parser_Parse_good _ whole)|].
  - intros t' Ht'. apply IH. lia.
  - intros p Hp. destruct Hp as (l & rest & Hr); [|by rewrite Hr].
    unfold HasPrefix, whole. apply bool_decide_eq_true. done.
Qed.

(** C28: Parsing a template always ends, with a template or an error: the loops of the
    scanner stop, the nesting of parsers is bounded by the length of the text and its
    commas, every index and slice of the text is in range, and the node a nested parser
    hands back is an action. *)
Theorem parse_ends name t :
  (exists p, Parse name t = Parsed p) \/ (exists e, Parse name t = Fails e).
Proof.
  pose proof (Parser_Parse_good (fun t' => parseAction (length (chars t) + commas (chars t)) "nested" t') (chars t)) as Hg.
  unfold Parse. specialize (Hg ltac:(intros t' Ht'; apply parseAction_good; unfold size_of in *; lia) name).
  destruct (Parser_Parse _ _ _) as [p|e| |]; [left; by eexists|right; by eexists|done..].
Qed.

End totality.
