(* ===== verification/JSONPath.v ===== *)
(** * Evaluation of JSONPath templates

    util/jsonpath/jsonpath.go with the comparisons of
    third_party/forked/golang/template: a template is walked over reflected values; range
    and end are identifiers among the nodes, counted in the state of the [JSONPath]. *)

From Stdlib Require Import Ascii.
From S2P Require Import Prelude GoStrings GoUnicode JSONPathParser.
From stdpp Require Import strings.
#[local] Open Scope Z_scope.

(** ** Reflected values *)

(** A [reflect.Value]: the zero value, the basic kinds, slices, maps (with keys that a
    string converts to, or not), structs with the json tag and the name of each field,
    pointers and empty interfaces, and channels and functions. *)
Inductive value `{FloatText} : Type :=
| VInvalid
| VBool (b : bool)
| VInt (z : Z)
| VUint (z : Z)
| VFloat (f : Float)
| VString (s : string)
| VSlice (l : list value)
| VMap (string_keys : bool) (entries : list (string * value))
| VStruct (fields : list (string * string * value))
| VPtr (v : option value)
| VIface (v : option value)
| VOther.

(** Comparison of floats, the order in which a map's keys are visited, and
    [reflect.Value.FieldByName], which looks into embedded structs too. *)
Class Reflection `{FloatText} : Type := {
  float_eq : Float -> Float -> bool;
  float_lt : Float -> Float -> bool;
  map_order : list (string * value) -> list (string * value);
  map_order_perm l : map_order l ≡ₚ l;
  FieldByName : list (string * string * value) -> string -> value
}.

Inductive eval_error : Type :=
| IncompleteTemplate
| NothingToEnd
| UnrecognizedIdentifier (name : string)
| NotAnArray
| IndexOutOfBounds
| StartAfterEnd
| StepNotPositive
| KeyNotConvertible
| FieldNotFound (name : string)
| CannotBeFiltered
| MoreThanOneElement
| UnrecognizedOperator (op : string)
| BadComparisonType
| BadComparison
| CannotPrint
| MarshalFailed.

(** ** template.Indirect and the comparisons *)

Section template.
Context `{FloatText} `{!Reflection}.

Fixpoint Indirect (v : value) : value * bool :=
  match v with
  | VPtr None | VIface None => (v, true)
  | VPtr (Some v) | VIface (Some v) => Indirect v
  | _ => (v, false)
  end.

(** [reflect.ValueOf(v.Interface())]; [None] is the panic of a zero value. *)
Definition Interface (v : value) : option value :=
  match v with
  | VInvalid => None
  | VIface None => Some VInvalid
  | VIface (Some v) => Some v
  | _ => Some v
  end.

Inductive kind : Type := boolKind | intKind | uintKind | floatKind | stringKind.

#[export] Instance kind_eq_dec : EqDecision kind.
Proof. solve_decision. Defined.

Definition basicKind (v : value) : option kind :=
  match v with
  | VBool _ => Some boolKind
  | VInt _ => Some intKind
  | VUint _ => Some uintKind
  | VFloat _ => Some floatKind
  | VString _ => Some stringKind
  | _ => None
  end.

Definition Equal (v1 v2 : value) : bool + eval_error :=
  match basicKind v1, basicKind v2 with
  | Some _, Some _ =>
      match v1, v2 with
      | VInt a, VUint b => inl ((0 <=? a) && (a =? b))
      | VUint a, VInt b => inl ((0 <=? b) && (a =? b))
      | VBool a, VBool b => inl (eqb a b)
      | VFloat a, VFloat b => inl (float_eq a b)
      | VInt a, VInt b | VUint a, VUint b => inl (a =? b)
      | VString a, VString b => inl (bool_decide (a = b))
      | _, _ => inr BadComparison
      end
  | _, _ => inr BadComparisonType
  end.

Definition NotEqual (v1 v2 : value) : bool + eval_error :=
  match Equal v1 v2 with inl b => inl (negb b) | inr err => inr err end.

Definition Less (v1 v2 : value) : bool + eval_error :=
  match basicKind v1, basicKind v2 with
  | Some _, Some _ =>
      match v1, v2 with
      | VInt a, VUint b => inl ((a <? 0) || (a <? b))
      | VUint a, VInt b => inl ((0 <=? b) && (a <? b))
      | VBool _, VBool _ => inr BadComparisonType
      | VFloat a, VFloat b => inl (float_lt a b)
      | VInt a, VInt b | VUint a, VUint b => inl (a <? b)
      | VString a, VString b => inl (bool_decide (String.compare a b = Lt))
      | _, _ => inr BadComparison
      end
  | _, _ => inr BadComparisonType
  end.

Definition LessEqual (v1 v2 : value) : bool + eval_error :=
  match Less v1 v2 with inl false => Equal v1 v2 | r => r end.

Definition Greater (v1 v2 : value) : bool + eval_error :=
  match LessEqual v1 v2 with inl b => inl (negb b) | inr err => inr err end.

Definition GreaterEqual (v1 v2 : value) : bool + eval_error :=
  match Less v1 v2 with inl b => inl (negb b) | inr err => inr err end.

(** ** The state of a JSONPath

    The nodes of the parser's root are a slice of the template's nodes: all from
    [root_from] on.  A pointer to one of them is its place in the template. *)

Record JSONPath : Type := mkJSONPath {
  template : option (list node);
  root_from : nat;
  beginRange : Z;
  inRange : Z;
  endRange : Z;
  lastEndNode : option nat;
  allowMissingKeys : bool;
  outputJSON : bool
}.

Definition New : JSONPath := mkJSONPath None 0 0 0 0 None false false.

Definition AllowMissingKeys (allow : bool) (j : JSONPath) : JSONPath :=
  mkJSONPath (template j) (root_from j) (beginRange j) (inRange j) (endRange j) (lastEndNode j) allow (outputJSON j).

Definition EnableJSONOutput (v : bool) (j : JSONPath) : JSONPath :=
  mkJSONPath (template j) (root_from j) (beginRange j) (inRange j) (endRange j) (lastEndNode j) (allowMissingKeys j) v.

(** The node that ended a block before is not one of the new template. *)
Definition Parse `{Unicode} (text_ : string) (j : JSONPath) : JSONPath * option parse_error :=
  let with_template t :=
    mkJSONPath t 0 (beginRange j) (inRange j) (endRange j) None (allowMissingKeys j) (outputJSON j) in
  match JSONPathParser.Parse "" text_ with
  | Parsed p => (with_template (Some (Root p)), None)
  | Fails e => (with_template None, Some e)
  | Panics | NoFuel => (with_template None, None)
  end.

Definition with_counters (b i e : Z) (j : JSONPath) : JSONPath :=
  mkJSONPath (template j) (root_from j) b i e (lastEndNode j) (allowMissingKeys j) (outputJSON j).

Definition with_root (from : nat) (j : JSONPath) : JSONPath :=
  mkJSONPath (template j) from (beginRange j) (inRange j) (endRange j) (lastEndNode j) (allowMissingKeys j) (outputJSON j).

Definition with_last (n : nat) (j : JSONPath) : JSONPath :=
  mkJSONPath (template j) (root_from j) (beginRange j) (inRange j) (endRange j) (Some n) (allowMissingKeys j) (outputJSON j).

(** A part of the evaluation: the values come back with the error, as in the code;
    [None] is a panic. *)
Definition eval : Type := JSONPath -> option (JSONPath * list value * option eval_error).

Definition returns (l : list value) : eval := fun j => Some (j, l, None).
Definition fails (l : list value) (err : eval_error) : eval := fun j => Some (j, l, Some err).
Definition panics : eval := fun _ => None.

(** The result of [m], or the error with the values [on_error] makes of it. *)
Definition andThen (m : eval) (on_error : list value -> list value) (f : list value -> eval) : eval := fun j =>
  match m j with
  | None => None
  | Some (j, l, Some err) => Some (j, on_error l, Some err)
  | Some (j, l, None) => f l j
  end.

(** ** The nodes *)

(** [len(input)] times the constant of the node. *)
Definition evalConst (c : value) (input : list value) : eval := returns ((fun _ => c) <$> input).

Definition evalIdentifier (name : string) (input : list value) : eval := fun j =>
  if decide (name = "range") then Some (with_counters (beginRange j + 1) (inRange j) (endRange j) j, input, None)
  else if decide (name = "end") then
    if 0 <? inRange j then Some (with_counters (beginRange j) (inRange j) (endRange j + 1) j, [], None)
    else Some (j, [], Some NothingToEnd)
  else Some (j, input, Some (UnrecognizedIdentifier name)).

(** Every [step]-th element, beginning with the first. *)
Fixpoint every (step : nat) (skip : nat) (l : list value) : list value :=
  match l with
  | [] => []
  | v :: l => match skip with 0%nat => v :: every step (step - 1) l | S skip => every step skip l end
  end.

(** The bounds of a slice of [len] elements: [None] where nothing is asked for. *)
Definition slice_bounds (p0 p1 : ParamsEntry) (len : Z) : option (Z * Z) + eval_error :=
  let lo := if Known p0 then Value p0 else 0 in
  let lo := if lo <? 0 then lo + len else lo in
  let hi := if Known p1 then Value p1 else len in
  let hi := if (hi <? 0) || ((hi =? 0) && Derived p1) then hi + len else hi in
  if hi =? lo then inl None
  else if (len <=? lo) || (lo <? 0) then inr IndexOutOfBounds
  else if (len <? hi) || (hi <? 0) then inr IndexOutOfBounds
  else if hi <? lo then inr StartAfterEnd
  else inl (Some (lo, hi)).

(** [reflect.Value.Slice], which panics out of range. *)
Definition Slice (lo hi : Z) (l : list value) : option (list value) :=
  if (0 <=? lo) && (lo <=? hi) && (hi <=? Z.of_nat (length l)) then
    Some (take (Z.to_nat (hi - lo)) (drop (Z.to_nat lo) l))
  else None.

(** The loop over the input; it is left for good where nothing is asked for. *)
Fixpoint evalArray_loop (p0 p1 p2 : ParamsEntry) (all : list value) (input result : list value) : eval :=
  match input with
  | [] => returns result
  | v :: input =>
      match Indirect v with
      | (_, true) => evalArray_loop p0 p1 p2 all input result
      | (VInvalid, false) => panics
      | (VSlice l, false) =>
          match slice_bounds p0 p1 (Z.of_nat (length l)) with
          | inr err => fails all err
          | inl None => returns result
          | inl (Some (lo, hi)) =>
              match Slice lo hi l with
              | None => panics
              | Some l =>
                  if Known p2 && (Value p2 <=? 0) then fails all StepNotPositive
                  else
                    let step := if Known p2 then Value p2 else 1 in
                    evalArray_loop p0 p1 p2 all input (result ++ every (Z.to_nat step) 0 l)
              end
          end
      | (_, false) => fails all NotAnArray
      end
  end.

Definition evalArray (p0 p1 p2 : ParamsEntry) (input : list value) : eval := evalArray_loop p0 p1 p2 input input [].

Definition IsValid (v : value) : bool := match v with VInvalid => false | _ => true end.

Definition tag_name (tag : string) : string := str (hd [] (split_on "," (chars tag))).

(** The first field with the tag, and the last one without a name before it. *)
Fixpoint tagged (name : string) (fields : list (string * string * value)) (inlineValue : option value)
    : value + option value :=
  match fields with
  | [] => inr inlineValue
  | (tag, _, v) :: fields =>
      if decide (tag_name tag = name) then inl v
      else tagged name fields (if decide (tag_name tag = "") then Some v else inlineValue)
  end.

(** [fuel] bounds the nesting of inline structs. *)
Fixpoint findFieldInValue (fuel : nat) (name : string) (fields : list (string * string * value)) : value :=
  match fuel with
  | 0%nat => VInvalid
  | S fuel =>
      match tagged name fields None with
      | inl v => v
      | inr (Some (VStruct inline)) =>
          let found := findFieldInValue fuel name inline in
          if IsValid found then found else FieldByName fields name
      | inr _ => FieldByName fields name
      end
  end.

Fixpoint depth (v : value) : nat :=
  match v with
  | VStruct fields => S (foldr (fun f n => Nat.max (depth f.2) n) 0%nat fields)
  | _ => 0
  end.

(** The field or entry of one value; [None] for a nil one. *)
Definition field_of (name : string) (v : value) : option value + eval_error :=
  match Indirect v with
  | (_, true) => inl None
  | (VStruct fields, false) => inl (Some (findFieldInValue (depth (VStruct fields)) name fields))
  | (VMap string_keys entries, false) =>
      if string_keys then
        inl (Some (match list_find (fun e => e.1 = name) entries with Some (_, (_, v)) => v | None => VInvalid end))
      else inr KeyNotConvertible
  | (_, false) => inl (Some VInvalid)
  end.

Fixpoint evalField_loop (name : string) (input results : list value) : eval := fun j =>
  match input with
  | [] =>
      match results with
      | [] => if allowMissingKeys j then Some (j, [], None) else Some (j, [], Some (FieldNotFound name))
      | _ => Some (j, results, None)
      end
  | v :: input =>
      match field_of name v with
      | inr err => Some (j, results, Some err)
      | inl None => evalField_loop name input results j
      | inl (Some r) => evalField_loop name input (if IsValid r then results ++ [r] else results) j
      end
  end.

Definition evalField (name : string) (input : list value) : eval :=
  match input with [] => returns [] | _ => evalField_loop name input [] end.

(** What a wildcard takes out of a value. *)
Definition contents (v : value) : list value :=
  match v with
  | VStruct fields => snd <$> fields
  | VMap _ entries => snd <$> map_order entries
  | VSlice l => l
  | VString s => (fun c => VUint (byte_of c)) <$> chars s
  | _ => []
  end.

Definition evalWildcard (input : list value) : eval :=
  returns (flat_map (fun v => match Indirect v with (_, true) => [] | (v, false) => contents v end) input).

(** How deep a value is, which bounds the recursive descent. *)
Fixpoint height (v : value) : nat :=
  match v with
  | VSlice l => S (foldr (fun v n => Nat.max (height v) n) 0%nat l)
  | VMap _ entries => S (foldr (fun e n => Nat.max (height e.2) n) 0%nat entries)
  | VStruct fields => S (foldr (fun f n => Nat.max (height f.2) n) 0%nat fields)
  | VPtr (Some v) | VIface (Some v) => S (height v)
  | VString _ => 2
  | _ => 1
  end.

(** A value with contents, and what is under them. *)
Fixpoint descend (fuel : nat) (v : value) : list value :=
  match fuel with
  | 0%nat => []
  | S fuel =>
      match Indirect v with
      | (_, true) => []
      | (v, false) => match contents v with [] => [] | results => v :: flat_map (descend fuel) results end
      end
  end.

Definition evalRecursive (input : list value) : eval := returns (flat_map (fun v => descend (height v) v) input).

Fixpoint evalUnion_loop (lists : list (list value -> eval)) (input result : list value) : eval :=
  match lists with
  | [] => returns result
  | evalList :: lists =>
      andThen (evalList input) (fun _ => input) (fun temp => evalUnion_loop lists input (result ++ temp))
  end.

Definition evalUnion (lists : list (list value -> eval)) (input : list value) : eval := evalUnion_loop lists input [].

Definition compare (op : string) (l r : value) : option (bool + eval_error) :=
  if decide (op = "<") then Some (Less l r)
  else if decide (op = ">") then Some (Greater l r)
  else if decide (op = "==") then Some (Equal l r)
  else if decide (op = "!=") then Some (NotEqual l r)
  else if decide (op = "<=") then Some (LessEqual l r)
  else if decide (op = ">=") then Some (GreaterEqual l r)
  else None.

(** What the filter says of one element: [inr] is an error, which comes with the input or
    with the results so far. *)
Inductive verdict : Type :=
| Passes (b : bool)
| FailsWithInput (err : eval_error)
| FailsWithResults (err : eval_error).

Definition judge (evalLeft evalRight : list value -> eval) (op : string) (v : value) (j : JSONPath)
    : option (JSONPath * verdict) :=
  match evalLeft [v] j with
  | None => None
  | Some (j, lefts, err) =>
      if decide (op = "exists") then Some (j, Passes (match lefts with [] => false | _ => true end))
      else
        match err, lefts with
        | Some err, _ => Some (j, FailsWithInput err)
        | None, [] => Some (j, Passes false)
        | None, _ :: _ :: _ => Some (j, FailsWithInput MoreThanOneElement)
        | None, [l] =>
            match Interface l with
            | None => None
            | Some l =>
                match evalRight [v] j with
                | None => None
                | Some (j, _, Some err) => Some (j, FailsWithInput err)
                | Some (j, [], None) => Some (j, Passes false)
                | Some (j, _ :: _ :: _, None) => Some (j, FailsWithInput MoreThanOneElement)
                | Some (j, [r], None) =>
                    match Interface r with
                    | None => None
                    | Some r =>
                        Some (j, match compare op l r with
                                 | None => FailsWithResults (UnrecognizedOperator op)
                                 | Some (inr err) => FailsWithResults err
                                 | Some (inl b) => Passes b
                                 end)
                    end
                end
            end
        end
  end.

Fixpoint filter_elements (evalLeft evalRight : list value -> eval) (op : string) (elements results : list value)
    (input : list value) (next : list value -> eval) : eval := fun j =>
  match elements with
  | [] => next results j
  | v :: elements =>
      match judge evalLeft evalRight op v j with
      | None => None
      | Some (j, Passes b) =>
          filter_elements evalLeft evalRight op elements (if (b : bool) then results ++ [v] else results) input next j
      | Some (j, FailsWithInput err) => Some (j, input, Some err)
      | Some (j, FailsWithResults err) => Some (j, results, Some err)
      end
  end.

Fixpoint evalFilter_loop (evalLeft evalRight : list value -> eval) (op : string) (all input results : list value) : eval :=
  match input with
  | [] => returns results
  | v :: input =>
      match (Indirect v).1 with
      | VSlice l =>
          filter_elements evalLeft evalRight op l results all
            (fun results => evalFilter_loop evalLeft evalRight op all input results)
      | _ => fails all CannotBeFiltered
      end
  end.

Definition evalFilter (evalLeft evalRight : list value -> eval) (op : string) (input : list value) : eval :=
  evalFilter_loop evalLeft evalRight op input input [].

Abbreviation values := (list value).

Fixpoint walk (n : node) (value : list value) : eval :=
  let evalList :=
    fix evalList (l : list node) (value : values) : eval :=
      match l with
      | [] => returns value
      | n :: l => andThen (walk n value) (fun v => v) (fun value => evalList l value)
      end in
  match n with
  | ListNode l => evalList l value
  | TextNode t => returns [VString t]
  | FieldNode name => evalField name value
  | ArrayNode p0 p1 p2 => evalArray p0 p1 p2 value
  | FilterNode l r op => evalFilter (evalList l) (evalList r) op value
  | IntNode z => evalConst (VInt z) value
  | BoolNode b => evalConst (VBool b) value
  | FloatNode f => evalConst (VFloat f) value
  | WildcardNode => evalWildcard value
  | RecursiveNode => evalRecursive value
  | UnionNode ls =>
      evalUnion ((fix lists (ls : list (list node)) : list (values -> eval) :=
                    match ls with [] => [] | l :: ls => evalList l :: lists ls end) ls) value
  | IdentifierNode name => evalIdentifier name value
  end.

Fixpoint evalList (l : list node) (value : list value) : eval :=
  match l with
  | [] => returns value
  | n :: l => andThen (walk n value) (fun v => v) (fun value => evalList l value)
  end.

(** ** FindResults *)

Definition find : Type := JSONPath -> option (JSONPath * list (list value) * option eval_error).

(** The values of a range, one after the other; [body] is [FindResults] with the rest of
    the nodes as root. *)
Fixpoint range_loop (body : value -> find) (results : list value) (full : list (list value)) : find := fun j =>
  match results with
  | [] => Some (j, full, None)
  | v :: results =>
      match Interface v with
      | None => None
      | Some v =>
          match body v j with
          | None => None
          | Some (j, _, Some err) => Some (j, [], Some err)
          | Some (j, next, None) => range_loop body results (full ++ next) j
          end
      end
  end.

(** What a range does: with no values, the body is gone through once, for its end node. *)
Definition range_block (body : value -> find) (results : list value) (full : list (list value)) : find := fun j =>
  match results with
  | [] =>
      match body VInvalid j with
      | None => None
      | Some (j, _, Some err) => Some (j, [], Some err)
      | Some (j, _, None) => Some (j, full, None)
      end
  | _ => range_loop body results full j
  end.

(** The place to go on from after a range that began at [i]: that of the last end node,
    when it comes later among the nodes. *)
Definition fast_forward (base n i : nat) (j : JSONPath) : nat :=
  match lastEndNode j with
  | Some k => if decide (base + i < k < base + n)%nat then (k - base)%nat else i
  | None => i
  end.

(** The loop at [i] over the nodes from [base] on. *)
Fixpoint find_loop (fuel : nat) (nodes : list node) (base i : nat) (cur : value) (full : list (list value)) : find := fun j =>
  match fuel with
  | 0%nat => None
  | S fuel =>
      match nodes !! i with
      | None => Some (j, full, None)
      | Some n =>
          match walk n [cur] j with
          | None => None
          | Some (j, _, Some err) => Some (j, [], Some err)
          | Some (j, results, None) =>
              if (0 <? endRange j) && (endRange j <=? inRange j) then
                Some (with_last (base + i) (with_counters (beginRange j) (inRange j) (endRange j - 1) j), full, None)
              else if 0 <? beginRange j then
                let j := with_counters (beginRange j - 1) (inRange j + 1) (endRange j) j in
                let body v j := find_loop fuel (drop (i + 1) nodes) (base + i + 1) 0 v [] (with_root (base + i + 1) j) in
                match range_block body results full j with
                | None => None
                | Some (j, _, Some err) => Some (j, [], Some err)
                | Some (j, full, None) =>
                    let j := with_counters (beginRange j) (inRange j - 1) (endRange j) j in
                    find_loop fuel nodes base (fast_forward base (length nodes) i j + 1) cur full j
                end
              else find_loop fuel nodes base (i + 1) cur (full ++ [results]) j
          end
      end
  end.

Definition FindResults (data : value) : find := fun j =>
  match template j with
  | None => Some (j, [], Some IncompleteTemplate)
  | Some t =>
      let nodes := drop (root_from j) t in
      find_loop (S (length nodes)) nodes (root_from j) 0 data [] j
  end.

(** ** Printing *)

(** [fmt.Fprint] of an interface and the JSON of a value, plain and indented. *)
Class Printing : Type := {
  Fprint : value -> string;
  json_Marshal : value -> option string;
  json_MarshalIndent : value -> option string
}.

Definition newline : string := String.String (ascii_of_nat 10) "".

Section printing.
Context `{!Printing}.

(** [template.PrintableValue] and [evalToText] of a value without methods. *)
Definition evalToText (v : value) : option string :=
  let v := match v with VPtr _ => (Indirect v).1 | _ => v end in
  match v with
  | VInvalid => Some "<no value>"
  | VOther => None
  | VIface None => Some "null"
  | _ => Some (Fprint v)
  end.

Definition is_composite (v : value) : bool :=
  match v with
  | VIface (Some (VMap _ _ | VSlice _ | VStruct _)) | VMap _ _ | VSlice _ | VStruct _ => true
  | _ => false
  end.

(** The text of one value, of the last one or not. *)
Definition print_value (outputJSON_ : bool) (v : value) : string + eval_error :=
  if outputJSON_ then match json_MarshalIndent v with Some t => inl (t +:+ newline) | None => inr MarshalFailed end
  else if is_composite v then match json_Marshal v with Some t => inl t | None => inr MarshalFailed end
  else match evalToText v with Some t => inl t | None => inr CannotPrint end.

(** What is written, and the error. *)
Fixpoint print_values (outputJSON_ : bool) (results : list value) : string * option eval_error :=
  match results with
  | [] => ("", None)
  | v :: rest =>
      match print_value outputJSON_ v with
      | inr err => ("", Some err)
      | inl t =>
          let '(out, err) := print_values outputJSON_ rest in
          (match rest with [] => t | _ => t +:+ " " +:+ out end, err)
      end
  end.

Definition PrintResults (results : list value) (j : JSONPath) : option (string * option eval_error) :=
  if outputJSON j then
    match mapM Interface results with
    | None => None
    | Some r => Some (print_values true [VSlice ((fun v => VIface (match v with VInvalid => None | _ => Some v end)) <$> r)])
    end
  else Some (print_values false results).

Fixpoint print_all (full : list (list value)) (j : JSONPath) : option (string * option eval_error) :=
  match full with
  | [] => Some ("", None)
  | results :: full =>
      match PrintResults results j with
      | None => None
      | Some (out, Some err) => Some (out, Some err)
      | Some (out, None) =>
          match print_all full j with
          | None => None
          | Some (rest, err) => Some (out +:+ rest, err)
          end
      end
  end.

Definition Execute (data : value) (j : JSONPath) : option (JSONPath * string * option eval_error) :=
  match FindResults data j with
  | None => None
  | Some (j, _, Some err) => Some (j, "", Some err)
  | Some (j, full, None) =>
      match print_all full j with
      | None => None
      | Some (out, err) => Some (j, out, err)
      end
  end.

End printing.

End template.

(** ** Array selection *)

Section arrays.
Context `{FloatText} `{!Reflection}.

Lemma every_lookup step (l : list value) : forall skip m,
  (1 <= step)%nat -> every step skip l !! m = l !! (skip + m * step)%nat.
Proof.
  induction l as [|v l IH]; intros skip m Hs; [by rewrite !lookup_nil|]. cbn [every]. destruct skip as [|skip].
  - destruct m as [|m]; [done|]. rewrite (lookup_cons_ne_0 _ v (0 + S m * step)) by lia. cbn [lookup list_lookup].
    rewrite IH by done. f_equal. lia.
  - rewrite IH by done. done.
Qed.

(** A number of the template, as a place in an array of [len] elements. *)
Definition place (z len : Z) : Z := if z <? 0 then z + len else z.

Lemma evalArray_one p0 p1 p2 l j :
  evalArray p0 p1 p2 [VSlice l] j =
  match slice_bounds p0 p1 (Z.of_nat (length l)) with
  | inr err => Some (j, [VSlice l], Some err)
  | inl None => Some (j, [], None)
  | inl (Some (lo, hi)) =>
      if Known p2 && (Value p2 <=? 0) then Some (j, [VSlice l], Some StepNotPositive)
      else Some (j, every (Z.to_nat (if Known p2 then Value p2 else 1)) 0 (take (Z.to_nat (hi - lo)) (drop (Z.to_nat lo) l)), None)
  end.
Proof.
  unfold evalArray. cbn [evalArray_loop Indirect]. destruct (slice_bounds _ _ _) as [[[lo hi]|]|err] eqn:Eb; try done.
  assert (Hr : 0 <= lo <= hi /\ hi <= Z.of_nat (length l)).
  { unfold slice_bounds in Eb. set (x := if Known p0 then _ else _) in Eb. set (y := if Known p1 then _ else _) in Eb.
    repeat case_match; simplify_eq; lia. }
  unfold Slice. destruct ((0 <=? lo) && (lo <=? hi) && (hi <=? Z.of_nat (length l))) eqn:E; [|lia].
  by destruct (Known p2 && _).
Qed.

(** C29: [[k]] selects the k-th element of an array, from the end when k is negative, and is
    an error exactly when there is none; the largest int, whose successor overflows, is
    no exception. *)
Theorem array_index_exact k l j :
  in_int64 k -> Z.of_nat (length l) <= MaxInt64 ->
  evalArray (mkParam k true false) (mkParam (wrap64 (k + 1)) true true) (mkParam 0 false false) [VSlice l] j =
  let i := place k (Z.of_nat (length l)) in
  match (if 0 <=? i then l !! Z.to_nat i else None) with
  | Some v => Some (j, [v], None)
  | None => Some (j, [VSlice l], Some IndexOutOfBounds)
  end.
Proof.
  intros Hk Hmaxlen. cbn zeta. rewrite evalArray_one. unfold slice_bounds, place. cbn [Known Value Derived andb].
  set (len := Z.of_nat (length l)) in *. assert (Hlen : 0 <= len) by lia. unfold in_int64, MinInt64, MaxInt64 in *.
  set (lo := if k <? 0 then k + len else k).
  assert (Hhi : exists hi, (if (wrap64 (k + 1) <? 0) || ((wrap64 (k + 1) =? 0) && true) then wrap64 (k + 1) + len
                            else wrap64 (k + 1)) = hi /\ (hi = lo + 1 \/ (len <= lo /\ hi <> lo))).
  { destruct (decide (k = 9223372036854775807)) as [->|Hmax].
    - change (wrap64 (9223372036854775807 + 1)) with (-9223372036854775808). cbn. eexists. split; [done|]. right. subst lo. cbn. lia.
    - rewrite wrap64_id by (unfold in_int64, MinInt64, MaxInt64; lia). eexists. split; [done|]. left. subst lo.
      destruct (Z.ltb_spec (k + 1) 0), (Z.ltb_spec k 0), (Z.eqb_spec (k + 1) 0); cbn; lia. }
  destruct Hhi as (hi & -> & Hhi). destruct (Z.eqb_spec hi lo); [lia|].
  destruct ((len <=? lo) || (lo <? 0)) eqn:Eout.
  - destruct (Z.leb_spec 0 lo); [|done]. rewrite lookup_ge_None_2; [done|]. lia.
  - destruct Hhi as [->|?]; [|lia]. destruct (Z.leb_spec 0 lo); [|lia].
    destruct ((len <? lo + 1) || (lo + 1 <? 0)) eqn:Eo2; [lia|]. destruct (Z.ltb_spec (lo + 1) lo); [lia|].
    destruct (lookup_lt_is_Some_2 l (Z.to_nat lo)) as [v Hv]; [lia|]. rewrite Hv.
    replace (Z.to_nat (lo + 1 - lo)) with 1%nat by lia. by rewrite (drop_S _ _ _ Hv).
Qed.

(** A slice [[a:b:c]]: its places counted from the end where they are negative, an error
    when they do not lie in the array in order, and otherwise every c-th element. *)
Theorem array_slice_exact a b c l j :
  1 <= c -> let lo := place a (Z.of_nat (length l)) in let hi := place b (Z.of_nat (length l)) in
  lo <> hi ->
  match evalArray (mkParam a true false) (mkParam b true false) (mkParam c true false) [VSlice l] j with
  | Some (j', r, None) =>
      j' = j /\ 0 <= lo < hi /\ hi <= Z.of_nat (length l) /\
      forall m : nat, r !! m = if lo + Z.of_nat m * c <? hi then l !! Z.to_nat (lo + Z.of_nat m * c) else None
  | Some (j', _, Some _) => j' = j /\ ~ (0 <= lo < hi /\ hi <= Z.of_nat (length l))
  | None => False
  end.
Proof.
  intros Hc lo hi Hne. rewrite evalArray_one. unfold slice_bounds. cbn [Known Value Derived]. rewrite andb_false_r, orb_false_r.
  fold (place a (Z.of_nat (length l))) (place b (Z.of_nat (length l))). fold lo hi. set (len := Z.of_nat (length l)) in *.
  destruct (Z.eqb_spec hi lo); [done|].
  destruct ((len <=? lo) || (lo <? 0)) eqn:E1; [split; [done|lia]|].
  destruct ((len <? hi) || (hi <? 0)) eqn:E2; [split; [done|lia]|].
  destruct (Z.ltb_spec hi lo); [split; [done|lia]|]. cbn [andb]. destruct (Z.leb_spec c 0); [lia|].
  split; [done|]. split; [lia|]. split; [lia|]. intros m. rewrite every_lookup by lia.
  destruct (Z.ltb_spec (lo + Z.of_nat m * c) hi).
  - rewrite lookup_take_lt, lookup_drop by nia. f_equal. nia.
  - by rewrite lookup_take_ge by nia.
Qed.

End arrays.

(** ** Templates as blocks

    What a template with matching ranges and ends means: a sequence of nodes and of ranges
    over a sequence. *)

Section blocks.
Context `{FloatText} `{!Reflection}.

Inductive blocks : Type :=
| Nil
| Plain (n : node) (rest : blocks)
| Range (sel : list node) (body rest : blocks).

Definition range_node (sel : list node) : node := ListNode (IdentifierNode "range" :: sel).
Definition end_node : node := ListNode [IdentifierNode "end"].

Fixpoint flatten (t : blocks) : list node :=
  match t with
  | Nil => []
  | Plain n t => n :: flatten t
  | Range sel body t => range_node sel :: flatten body ++ end_node :: flatten t
  end.

(** No identifier in a node. *)
Fixpoint pure (n : node) : bool :=
  match n with
  | ListNode l => forallb pure l
  | FilterNode l r _ => forallb pure l && forallb pure r
  | UnionNode ls => forallb (forallb pure) ls
  | IdentifierNode _ => false
  | _ => true
  end.

Fixpoint well_formed (t : blocks) : bool :=
  match t with
  | Nil => true
  | Plain n t => pure n && well_formed t
  | Range sel body t => forallb pure sel && well_formed body && well_formed t
  end.

Definition meaning : Type := option (list (list value) + eval_error).

(** The values of a range; with none, the body is evaluated once for its errors. *)
Definition each_loop (f : value -> meaning) : list value -> meaning :=
  fix go (l : list value) :=
    match l with
    | [] => Some (inl [])
    | v :: l =>
        match Interface v with
        | None => None
        | Some v =>
            match f v with
            | None => None
            | Some (inr err) => Some (inr err)
            | Some (inl rs) =>
                match go l with Some (inl rs') => Some (inl (rs ++ rs')) | x => x end
            end
        end
    end.

Definition each (f : value -> meaning) (l : list value) : meaning :=
  match l with
  | [] => match f VInvalid with Some (inl _) => Some (inl []) | x => x end
  | _ => each_loop f l
  end.

Definition followed_by (rs : list (list value)) (m : meaning) : meaning :=
  match m with Some (inl rs') => Some (inl (rs ++ rs')) | x => x end.

Fixpoint eval_blocks (j : JSONPath) (t : blocks) (data : value) : meaning :=
  match t with
  | Nil => Some (inl [])
  | Plain n t =>
      match walk n [data] j with
      | None => None
      | Some (_, _, Some err) => Some (inr err)
      | Some (_, r, None) => followed_by [r] (eval_blocks j t data)
      end
  | Range sel body t =>
      match evalList sel [data] j with
      | None => None
      | Some (_, _, Some err) => Some (inr err)
      | Some (_, r, None) =>
          match each (eval_blocks j body) r with
          | Some (inl rs) => followed_by rs (eval_blocks j t data)
          | x => x
          end
      end
  end.

(** *** Nodes without identifiers leave the state alone *)

(** Induction over nodes and the lists in them. *)
Lemma node_rect' (P : node -> Prop) :
  (forall t, P (TextNode t)) -> (forall a b c, P (ArrayNode a b c)) -> (forall l, Forall P l -> P (ListNode l)) ->
  (forall v, P (FieldNode v)) -> (forall n, P (IdentifierNode n)) ->
  (forall l r op, Forall P l -> Forall P r -> P (FilterNode l r op)) ->
  (forall z, P (IntNode z)) -> (forall f, P (FloatNode f)) -> P WildcardNode -> P RecursiveNode ->
  (forall ls, Forall (Forall P) ls -> P (UnionNode ls)) -> (forall b, P (BoolNode b)) -> forall n, P n.
Proof.
  intros HT HA HL HF HI HFi HInt HFl HW HR HU HB. fix IH 1. intros [t|a b c|l|v|n|l r op|z|f| | |ls|b];
    [apply HT|apply HA| |apply HF|apply HI| |apply HInt|apply HFl|apply HW|apply HR| |apply HB].
  - apply HL. induction l; constructor; [apply IH|done].
  - apply HFi; [induction l|induction r]; constructor; (apply IH || done).
  - apply HU. induction ls as [|l ls IHl]; constructor; [|done]. induction l; constructor; [apply IH|done].
Qed.

Lemma walk_ListNode l value : walk (ListNode l) value = evalList l value.
Proof. reflexivity. Qed.

Lemma walk_FilterNode l r op value : walk (FilterNode l r op) value = evalFilter (evalList l) (evalList r) op value.
Proof. reflexivity. Qed.

Lemma walk_UnionNode ls value : walk (UnionNode ls) value = evalUnion (evalList <$> ls) value.
Proof. reflexivity. Qed.

(** The state comes back as it was, and only whether keys may be missing matters. *)
Definition stateless (m : eval) : Prop :=
  forall j j', allowMissingKeys j = allowMissingKeys j' ->
    m j = match m j' with Some (_, l, err) => Some (j, l, err) | None => None end.

Lemma stateless_at (m : eval) j : stateless m -> m j = match m j with Some (_, l, err) => Some (j, l, err) | None => None end.
Proof. intros Hm. by apply Hm. Qed.

Lemma stateless_returns l : stateless (returns l).
Proof. by intros j j' _. Qed.

Lemma stateless_fails l err : stateless (fails l err).
Proof. by intros j j' _. Qed.

Lemma stateless_andThen m g f : stateless m -> (forall l, stateless (f l)) -> stateless (andThen m g f).
Proof.
  intros Hm Hf j j' Hj. unfold andThen. rewrite (Hm j j' Hj), (stateless_at m j' Hm).
  destruct (m j') as [[[j1 l] [err|]]|]; [done| |done]. by apply Hf.
Qed.

Lemma stateless_evalField name input : stateless (evalField name input).
Proof.
  unfold evalField. destruct input as [|v input]; [apply stateless_returns|].
  generalize (v :: input) as l, (@nil value) as results. clear. induction l as [|v l IH]; intros results j j' Hj; cbn [evalField_loop].
  - destruct results; [|done]. rewrite Hj. by destruct (allowMissingKeys j').
  - destruct (field_of name v) as [[r|]|]; [by apply IH..|done].
Qed.

Lemma stateless_evalArray p0 p1 p2 input : stateless (evalArray p0 p1 p2 input).
Proof.
  unfold evalArray. generalize input at 1 as all, (@nil value) as result. induction input as [|v input IH]; intros all result; cbn [evalArray_loop];
    [apply stateless_returns|]. destruct (Indirect v) as [[] []]; try apply stateless_fails; try apply IH; [by intros ? ? _|].
  destruct (slice_bounds _ _ _) as [[[lo hi]|]|]; [|apply stateless_returns|apply stateless_fails].
  destruct (Slice _ _ _); [|by intros ? ? _]. destruct (_ && _); [apply stateless_fails|apply IH].
Qed.

Lemma stateless_judge evalLeft evalRight op v :
  (forall l, stateless (evalLeft l)) -> (forall l, stateless (evalRight l)) ->
  forall j j', allowMissingKeys j = allowMissingKeys j' ->
    judge evalLeft evalRight op v j =
    match judge evalLeft evalRight op v j' with Some (_, vd) => Some (j, vd) | None => None end.
Proof.
  intros Hl Hr j j' Hj. unfold judge. rewrite (Hl [v] j j' Hj), (stateless_at _ j' (Hl [v])).
  destruct (evalLeft [v] j') as [[[j1 lefts] err]|]; [|done]. case_decide; [done|].
  destruct err; [done|]. destruct lefts as [|l [|]]; try done. destruct (Interface l) as [l'|]; [|done].
  rewrite (Hr [v] j j' Hj), (stateless_at _ j' (Hr [v])). destruct (evalRight [v] j') as [[[j2 rights] [err|]]|]; try done;
    destruct rights as [|r [|]]; try done. by destruct (Interface r).
Qed.

Lemma stateless_evalFilter evalLeft evalRight op input :
  (forall l, stateless (evalLeft l)) -> (forall l, stateless (evalRight l)) ->
  stateless (evalFilter evalLeft evalRight op input).
Proof.
  intros Hl Hr. unfold evalFilter. generalize input at 1 as all, (@nil value) as results.
  induction input as [|v input IH]; intros all results; cbn [evalFilter_loop]; [apply stateless_returns|].
  destruct (Indirect v).1; try apply stateless_fails. revert results. induction l as [|x l IHl]; intros results j j' Hj; cbn [filter_elements].
  - by apply IH.
  - pose proof (stateless_judge evalLeft evalRight op x Hl Hr j' j' eq_refl) as Hself.
    rewrite (stateless_judge evalLeft evalRight op x Hl Hr j j' Hj), Hself.
    destruct (judge evalLeft evalRight op x j') as [[j1 [b|err|err]]|]; [|done..]. by apply IHl.
Qed.

Lemma stateless_evalUnion lists input : Forall (fun e => forall l, stateless (e l)) lists -> stateless (evalUnion lists input).
Proof.
  intros Hls. unfold evalUnion. generalize (@nil value) as result. induction Hls as [|e lists He _ IH]; intros result; cbn [evalUnion_loop];
    [apply stateless_returns|]. by apply stateless_andThen.
Qed.

Lemma stateless_list l : Forall (fun n => pure n = true -> forall value, stateless (walk n value)) l ->
  forallb pure l = true -> forall value, stateless (evalList l value).
Proof.
  induction 1 as [|n l Hn _ IH]; intros Hp value; cbn [evalList]; [apply stateless_returns|].
  cbn [forallb] in Hp. apply andb_true_iff in Hp as [Hpn Hpl]. apply stateless_andThen; [by apply Hn|]. intros v. by apply IH.
Qed.

Lemma walk_stateless n : pure n = true -> forall value, stateless (walk n value).
Proof.
  induction n as [t|a b c|l IH|v|n|l r op IHl IHr|z|f| | |ls IH|b] using node_rect'; intros Hp value.
  - apply stateless_returns.
  - apply stateless_evalArray.
  - rewrite walk_ListNode. by apply stateless_list.
  - apply stateless_evalField.
  - done.
  - rewrite walk_FilterNode. cbn [pure] in Hp. apply andb_true_iff in Hp as [? ?].
    apply stateless_evalFilter; intros; by apply stateless_list.
  - apply stateless_returns.
  - apply stateless_returns.
  - apply stateless_returns.
  - apply stateless_returns.
  - rewrite walk_UnionNode. apply stateless_evalUnion. cbn [pure] in Hp. induction IH as [|l ls Hl _ IHls]; [constructor|].
    cbn [forallb] in Hp. apply andb_true_iff in Hp as [? ?]. constructor; [|by apply IHls]. intros v. by apply stateless_list.
  - apply stateless_returns.
Qed.

Lemma evalList_stateless l value : forallb pure l = true -> stateless (evalList l value).
Proof. intros Hp. apply stateless_list; [|done]. apply Forall_forall. intros n _ Hn v. by apply walk_stateless. Qed.

(** *** The meaning does not depend on the counters *)

Lemma each_loop_ext f g l : (forall v, f v = g v) -> each_loop f l = each_loop g l.
Proof.
  intros Hfg. induction l as [|v l IH]; [done|]. cbn [each_loop]. destruct (Interface v) as [v'|]; [|done].
  rewrite Hfg. destruct (g v') as [[rs|]|]; [|done..]. fold (each_loop f) (each_loop g). by rewrite IH.
Qed.

Lemma each_ext f g l : (forall v, f v = g v) -> each f l = each g l.
Proof. intros Hfg. unfold each. destruct l; [by rewrite Hfg|by apply each_loop_ext]. Qed.

Lemma eval_blocks_same t : well_formed t = true -> forall j j' data,
  allowMissingKeys j = allowMissingKeys j' -> eval_blocks j t data = eval_blocks j' t data.
Proof.
  induction t as [|n t IH|sel body IHb t IH]; intros Hwf j j' data Hj; [done|..]; cbn [well_formed] in Hwf; cbn [eval_blocks].
  - apply andb_true_iff in Hwf as [Hwf Hwt]. rewrite (walk_stateless n Hwf [data] j j' Hj). destruct (walk n [data] j') as [[[j1 r] [err|]]|]; try done.
    by rewrite (IH Hwt j j').
  - apply andb_true_iff in Hwf as [Hwf Hwt]. apply andb_true_iff in Hwf as [Hwf Hwb].
    rewrite (evalList_stateless sel [data] Hwf j j' Hj). destruct (evalList sel [data] j') as [[[j1 r] [err|]]|]; try done.
    rewrite (each_ext (eval_blocks j body) (eval_blocks j' body)) by (intros v; by apply IHb).
    destruct (each _ r) as [[rs|]|]; [|done..]. by rewrite (IH Hwt j j').
Qed.

(** *** The loop over the nodes *)

Record settled (j j' : JSONPath) : Prop := mkSettled {
  st_begin : beginRange j' = 0;
  st_end : endRange j' = 0;
  st_in : inRange j' = inRange j;
  st_allow : allowMissingKeys j' = allowMissingKeys j
}.

Lemma settled_trans j1 j2 j3 : settled j1 j2 -> settled j2 j3 -> settled j1 j3.
Proof. intros [] []. by constructor; congruence. Qed.

Definition counters_ok (j : JSONPath) : Prop := beginRange j = 0 /\ endRange j = 0 /\ 0 <= inRange j.

Lemma settled_ok j j' : counters_ok j -> settled j j' -> counters_ok j'.
Proof. intros (? & ? & ?) []. unfold counters_ok. split_and!; [done..|lia]. Qed.

Lemma settled_refl j : counters_ok j -> settled j j.
Proof. intros (? & ? & ?). by constructor. Qed.

(** What a find comes to, when its meaning is [m]: [on_values] for values. *)
Definition realises (m : meaning) (x : option (JSONPath * list (list value) * option eval_error))
    (on_values : list (list value) -> Prop) : Prop :=
  match m with
  | None => x = None
  | Some (inr err) => exists j', x = Some (j', [], Some err)
  | Some (inl rs) => on_values rs
  end.

(** A range over values, with a body that realises its meaning and ends at the node [k]. *)
Lemma range_loop_each (f : value -> meaning) (body : value -> find) k j0 l : forall j full,
  (forall v j, settled j0 j -> counters_ok j -> realises (f v) (body v j) (fun rs =>
     exists j', settled j j' /\ lastEndNode j' = Some k /\ body v j = Some (j', rs, None))) ->
  settled j0 j -> counters_ok j ->
  realises (each_loop f l) (range_loop body l full j) (fun rs =>
    exists j', settled j j' /\ (l <> [] -> lastEndNode j' = Some k) /\ range_loop body l full j = Some (j', full ++ rs, None)).
Proof.
  induction l as [|v l IH]; intros j full Hbody Hj0 Hj.
  - cbn. exists j. split; [by apply settled_refl|]. by rewrite app_nil_r.
  - cbn [each_loop range_loop]. fold (each_loop f). destruct (Interface v) as [v'|]; [|done].
    pose proof (Hbody v' j Hj0 Hj) as Hb. unfold realises in Hb at 1. destruct (f v') as [[rs|err]|].
    + destruct Hb as (j1 & Hs1 & Hk1 & ->).
      specialize (IH j1 (full ++ rs) Hbody (settled_trans _ _ _ Hj0 Hs1) (settled_ok _ _ Hj Hs1)).
      destruct (each_loop f l) as [[rs'|err]|]; [|exact IH..]. cbn [realises] in *.
      destruct IH as (j2 & Hs2 & Hk2 & Heq). exists j2. split; [by eapply settled_trans|].
      rewrite app_assoc, Heq. split; [|done]. intros _. destruct l as [|x l]; [|by apply Hk2]. by injection Heq as ->.
    + destruct Hb as (j' & ->). cbn. by eexists.
    + cbn in Hb. by rewrite Hb.
Qed.

Lemma range_block_each (f : value -> meaning) (body : value -> find) k j0 l j full :
  (forall v j, settled j0 j -> counters_ok j -> realises (f v) (body v j) (fun rs =>
     exists j', settled j j' /\ lastEndNode j' = Some k /\ body v j = Some (j', rs, None))) ->
  settled j0 j -> counters_ok j ->
  realises (each f l) (range_block body l full j) (fun rs =>
    exists j', settled j j' /\ lastEndNode j' = Some k /\ range_block body l full j = Some (j', full ++ rs, None)).
Proof.
  intros Hbody Hj0 Hj. destruct l as [|v l].
  - specialize (Hbody VInvalid j Hj0 Hj). cbn [each range_block]. unfold range_block.
    destruct (f VInvalid) as [[rs|err]|]; cbn [realises] in *.
    + destruct Hbody as (j' & Hs & Hk & ->). exists j'. by rewrite app_nil_r.
    + destruct Hbody as (j' & ->). by eexists.
    + by rewrite Hbody.
  - pose proof (range_loop_each f body k j0 (v :: l) j full Hbody Hj0 Hj) as Hl. unfold each, range_block.
    destruct (each_loop f (v :: l)) as [[rs|err]|]; [|exact Hl..]. cbn [realises] in *.
    destruct Hl as (j' & Hs & Hk & ->). exists j'. split; [done|]. split; [by apply Hk|done].
Qed.

Lemma settled_counters j b i e : counters_ok j -> b = 0 -> i = inRange j -> e = 0 -> settled j (with_counters b i e j).
Proof. intros _ -> -> ->. by constructor. Qed.

(** The node that opens a range, and the one that ends it. *)
Lemma walk_range_node sel data j :
  forallb pure sel = true -> counters_ok j ->
  walk (range_node sel) [data] j =
  match evalList sel [data] j with
  | None => None
  | Some (_, r, err) => Some (with_counters 1 (inRange j) 0 j, r, err)
  end.
Proof.
  intros Hp (Hb & He & Hi). unfold range_node. rewrite walk_ListNode. cbn [evalList]. unfold andThen at 1. cbn [walk].
  unfold evalIdentifier. rewrite decide_True by done. rewrite Hb, He.
  by rewrite (evalList_stateless sel [data] Hp (with_counters (0 + 1) (inRange j) 0 j) j).
Qed.

Lemma walk_end_node data j :
  counters_ok j -> 0 < inRange j ->
  walk end_node [data] j = Some (with_counters 0 (inRange j) 1 j, [], None).
Proof.
  intros (Hb & He & Hi) Hpos. unfold end_node. rewrite walk_ListNode. cbn [evalList]. unfold andThen at 1. cbn [walk].
  unfold evalIdentifier. rewrite decide_False, decide_True by done.
  destruct (Z.ltb_spec 0 (inRange j)); [|lia]. by rewrite Hb, He.
Qed.

Lemma drop_next {B} i (l : list B) x r : drop i l = x :: r -> drop (i + 1) l = r.
Proof. intros Hd. rewrite <- drop_drop, Hd. done. Qed.

Lemma drop_lookup {B} i (l : list B) x r : drop i l = x :: r -> l !! i = Some x.
Proof. intros Hd. by rewrite <- (Nat.add_0_r i), <- lookup_drop, Hd. Qed.

Lemma find_blocks t : well_formed t = true -> forall fuel nodes base i cur full j rest,
  drop i nodes = flatten t ++ rest -> (length nodes < fuel + i)%nat -> (i <= length nodes)%nat -> counters_ok j ->
  realises (eval_blocks j t cur) (find_loop fuel nodes base i cur full j) (fun rs =>
    exists fuel' j', settled j j' /\ (length nodes < fuel' + (i + length (flatten t)))%nat /\
      find_loop fuel nodes base i cur full j =
      find_loop fuel' nodes base (i + length (flatten t)) cur (full ++ rs) j').
Proof.
  induction t as [|n t IH|sel body IHb t IH]; intros Hwf fuel nodes base i cur full j rest Hd Hf Hi Hj; cbn [well_formed] in Hwf.
  - exists fuel, j. cbn. rewrite Nat.add_0_r, app_nil_r. split; [by apply settled_refl|]. done.
  - apply andb_true_iff in Hwf as [Hwn Hwt]. cbn [flatten app] in Hd.
    pose proof (drop_lookup _ _ _ _ Hd) as Hat.
    destruct fuel as [|fuel]; [lia|]. cbn [eval_blocks find_loop]. rewrite Hat.
    pose proof (walk_stateless n Hwn [cur] j j eq_refl) as Hw. rewrite Hw.
    destruct (walk n [cur] j) as [[[j1 r] [err|]]|]; [by eexists| |done].
    pose proof Hj as (Hb & He & Hin). rewrite Hb, He. cbn [Z.ltb Z.compare andb].
    pose proof (lookup_lt_Some _ _ _ Hat) as Hlt.
    specialize (IH Hwt fuel nodes base (i + 1)%nat cur (full ++ [r]) j rest (drop_next _ _ _ _ Hd) ltac:(lia) ltac:(lia) Hj).
    destruct (eval_blocks j t cur) as [[rs|err]|]; [|exact IH..]. cbn [followed_by realises] in *.
    destruct IH as (fuel' & j' & Hs & Hl & Heq). exists fuel', j'. cbn [flatten length].
    replace (i + S (length (flatten t)))%nat with (i + 1 + length (flatten t))%nat by lia.
    split; [done|]. split; [done|]. by rewrite Heq, <- app_assoc.
  - apply andb_true_iff in Hwf as [Hwf Hwt]. apply andb_true_iff in Hwf as [Hws Hwb]. cbn [flatten] in Hd.
    rewrite <- app_comm_cons in Hd. pose proof (drop_lookup _ _ _ _ Hd) as Hat. apply drop_next in Hd.
    rewrite <- app_assoc, <- app_comm_cons in Hd. pose proof (lookup_lt_Some _ _ _ Hat) as Hlt.
    destruct fuel as [|fuel]; [lia|]. cbn [eval_blocks find_loop]. rewrite Hat, (walk_range_node sel cur j Hws Hj).
    pose proof (evalList_stateless sel [cur] Hws j j eq_refl) as Hw. rewrite Hw.
    destruct (evalList sel [cur] j) as [[[j0 r] [err|]]|]; [by eexists| |done]. clear j0 Hw.
    pose proof Hj as (Hb & He & Hin). cbn [endRange inRange beginRange with_counters Z.ltb Z.compare andb Z.sub Z.add Z.opp].
    change (1 - 1) with 0. set (j1 := with_counters 0 (inRange j + 1) 0 _).
    set (body_at := fun v j => find_loop fuel (drop (i + 1) nodes) (base + i + 1) 0 v [] (with_root (base + i + 1) j)).
    set (k := (base + i + 1 + length (flatten body))%nat).
    assert (Hj1 : counters_ok j1) by (unfold counters_ok; cbn; lia).
    assert (Hbody : forall v j2, settled j1 j2 -> counters_ok j2 ->
      realises (eval_blocks j body v) (body_at v j2) (fun rs =>
        exists j', settled j2 j' /\ lastEndNode j' = Some k /\ body_at v j2 = Some (j', rs, None))).
    { intros v j2 Hs2 Hok2. unfold body_at.
      pose proof (IHb Hwb fuel (drop (i + 1) nodes) (base + i + 1)%nat 0%nat v [] (with_root (base + i + 1) j2)
        (end_node :: flatten t ++ rest)) as IH'.
      rewrite drop_0, length_drop in IH'. specialize (IH' Hd ltac:(lia) ltac:(lia) Hok2).
      rewrite (eval_blocks_same body Hwb _ j) in IH' by (cbn; by rewrite (st_allow _ _ Hs2)).
      destruct (eval_blocks j body v) as [[rs|err]|]; [|exact IH'..]. cbn [realises] in *.
      destruct IH' as (fuel' & j3 & Hs3 & Hf3 & ->). cbn [Nat.add app] in *. destruct fuel' as [|fuel'].
      { apply (f_equal length) in Hd. rewrite length_drop, length_app in Hd. cbn in Hd. lia. }
      cbn [find_loop]. rewrite Hd, list_lookup_middle by done.
      assert (Hs3' : settled j2 j3) by (destruct Hs3; by constructor). clear Hs3. rename Hs3' into Hs3.
      pose proof (settled_ok _ _ Hok2 Hs3) as Hok3. pose proof (st_in _ _ Hs3) as Hin3. cbn in Hin3.
      pose proof (st_in _ _ Hs2) as Hin2. cbn in Hin2.
      rewrite walk_end_node by (done || lia). cbn [endRange inRange beginRange with_counters].
      change (0 <? 1) with true. destruct (Z.leb_spec 1 (inRange j3)); [|lia]. cbn [andb]. eexists. split; [|split; [|done]].
      - apply (settled_trans _ j3); [done|]. by constructor.
      - cbn. by f_equal. }
    pose proof (range_block_each (eval_blocks j body) body_at k j1 r j1 full Hbody (settled_refl _ Hj1) Hj1) as Hlooped.
    cbn zeta. fold (body_at). destruct (each (eval_blocks j body) r) as [[rs|err]|]; cbn [realises] in Hlooped.
    + destruct Hlooped as (j' & Hs & Hk & Hloop). rewrite Hloop.
      set (j4 := with_counters (beginRange j') (inRange j' - 1) (endRange j') j').
      assert (Hs4 : settled j j4).
      { destruct Hs as [S1 S2 S3 S4]. cbn in *. constructor; cbn; [done|done|lia|done]. }
      assert (Hlen : (i + 1 + (length (flatten body) + S (length (flatten t) + length rest)) = length nodes)%nat).
      { apply (f_equal length) in Hd. rewrite length_drop, !length_app in Hd. cbn [length] in Hd. rewrite length_app in Hd. lia. }
      assert (Hff : fast_forward base (length nodes) i j4 = (i + 1 + length (flatten body))%nat).
      { unfold fast_forward. cbn [lastEndNode j4 with_counters]. rewrite Hk. rewrite decide_True by lia. lia. }
      rewrite Hff. set (i' := (i + 1 + length (flatten body) + 1)%nat).
      assert (Hd' : drop i' nodes = flatten t ++ rest).
      { subst i'. rewrite <- drop_drop, <- (drop_drop nodes), Hd, drop_app_length. done. }
      specialize (IH Hwt fuel nodes base i' cur (full ++ rs) j4 rest Hd' ltac:(lia) ltac:(lia) (settled_ok _ _ Hj Hs4)).
      rewrite (eval_blocks_same t Hwt j4 j) in IH by (by rewrite (st_allow _ _ Hs4)).
      destruct (eval_blocks j t cur) as [[rs'|err]|]; [|exact IH..]. cbn [followed_by realises] in *.
      destruct IH as (fuel' & j5 & Hs5 & Hf5 & ->). exists fuel', j5. cbn [flatten length].
      rewrite length_app. cbn [length]. rewrite <- app_assoc.
      replace (i + S (length (flatten body) + S (length (flatten t))))%nat with (i' + length (flatten t))%nat by lia.
      split; [by eapply settled_trans|]. done.
    + destruct Hlooped as (j' & Hloop). rewrite Hloop. by eexists.
    + by rewrite Hlooped.
Qed.

(** C27: evaluating a template whose ranges and ends match, on any value, is to evaluate it as
    a structure of blocks: the counters of ranges and ends, the nodes that are taken off
    the root, and the search for the end node from which to go on amount to visiting the
    body of each range once per value, in order; errors and panics are the same. *)
Theorem template_is_structured t j data :
  well_formed t = true -> template j = Some (flatten t) -> root_from j = 0%nat -> counters_ok j ->
  match eval_blocks j t data with
  | None => FindResults data j = None
  | Some (inr err) => exists j', FindResults data j = Some (j', [], Some err)
  | Some (inl rs) => exists j', counters_ok j' /\ FindResults data j = Some (j', rs, None)
  end.
Proof.
  intros Hwf Ht Hr Hj. unfold FindResults. rewrite Ht, Hr, drop_0.
  pose proof (find_blocks t Hwf (S (length (flatten t))) (flatten t) 0 0 data [] j []) as Hf.
  rewrite drop_0, app_nil_r in Hf. specialize (Hf eq_refl ltac:(lia) ltac:(lia) Hj).
  destruct (eval_blocks j t data) as [[rs|err]|]; [|exact Hf..]. cbn [realises Nat.add app] in Hf.
  destruct Hf as (fuel' & j' & Hs & Hl & ->). exists j'. split; [by eapply settled_ok|].
  destruct fuel' as [|fuel']; [lia|]. cbn [find_loop]. by rewrite lookup_ge_None_2.
Qed.



(** *** The recursive descent has fuel enough *)

Lemma foldr_max_in {B} (f : B -> nat) l x : x ∈ l -> (f x <= foldr (fun x n => Nat.max (f x) n) 0%nat l)%nat.
Proof. induction 1; cbn; lia. Qed.

Lemma Indirect_height v : (height (Indirect v).1 <= height v)%nat.
Proof.
  revert v. fix IH 1. intros [| | | | | | | | |[w|]|[w|]|]; try reflexivity; cbn [Indirect height]; specialize (IH w); lia.
Qed.

Lemma contents_height v x : x ∈ contents v -> (height x < height v)%nat.
Proof.
  destruct v as [| | | | |s|l|b l|l| | |]; cbn [contents height]; try (by rewrite elem_of_nil).
  - rewrite list_elem_of_fmap. intros (c & -> & _). cbn. lia.
  - intros Hx. apply (foldr_max_in height) in Hx. lia.
  - rewrite list_elem_of_fmap. intros (e & -> & He). rewrite map_order_perm in He.
    apply (foldr_max_in (fun e => height e.2)) in He. lia.
  - rewrite list_elem_of_fmap. intros (e & -> & He). apply (foldr_max_in (fun e => height e.2)) in He. lia.
Qed.

Lemma descend_enough fuel : forall fuel' v, (height v <= fuel)%nat -> (height v <= fuel')%nat -> descend fuel v = descend fuel' v.
Proof.
  induction fuel as [|fuel IH]; intros fuel' v Hf Hf'; [by destruct v as [| | | | | | | | |[]|[]|]; cbn in Hf; lia|].
  destruct fuel' as [|fuel']; [by destruct v as [| | | | | | | | |[]|[]|]; cbn in Hf'; lia|]. cbn [descend].
  pose proof (Indirect_height v) as Hi. destruct (Indirect v) as [v' []]; [done|]. cbn [fst] in Hi.
  destruct (contents v') as [|x l] eqn:Ec; [done|]. f_equal.
  assert (Hx : forall y, y ∈ x :: l -> descend fuel y = descend fuel' y).
  { intros y Hy. rewrite <- Ec in Hy. apply contents_height in Hy. apply IH; lia. }
  revert Hx. generalize (x :: l). clear. intros l Hx. induction l as [|y l IHl]; [done|]. cbn [flat_map].
  rewrite Hx by (by left). f_equal. apply IHl. intros z Hz. apply Hx. by right.
Qed.

(** [..] takes a value with something in it, and then everything under it, in order: the
    bound of the descent never cuts it short. *)
Theorem recursive_descent v :
  descend (height v) v =
  match Indirect v with
  | (_, true) => []
  | (v, false) => match contents v with [] => [] | l => v :: flat_map (fun x => descend (height x) x) l end
  end.
Proof.
  rewrite (descend_enough (height v) (S (height v))) by lia. cbn [descend].
  pose proof (Indirect_height v) as Hi. destruct (Indirect v) as [v' []]; [done|]. cbn [fst] in Hi.
  destruct (contents v') as [|x l] eqn:Ec; [done|]. f_equal.
  assert (Hx : forall y, y ∈ x :: l -> descend (height v) y = descend (height y) y).
  { intros y Hy. rewrite <- Ec in Hy. apply contents_height in Hy. apply descend_enough; lia. }
  revert Hx. generalize (x :: l). clear. intros l Hx. induction l as [|y l IHl]; [done|]. cbn [flat_map].
  rewrite Hx by (by left). f_equal. apply IHl. intros z Hz. apply Hx. by right.
Qed.

End blocks.

(** ** Samples *)

Module samples.

#[local] Instance ascii_only : Unicode := only_ascii.

#[local] Instance float_names : FloatText := {| Float := string; ParseFloat s := Some s |}.

#[local] Instance plain_reflection : Reflection.
Proof.
  refine {| float_eq a b := bool_decide (a = b); float_lt a b := false; map_order l := l;
            FieldByName fields name := default VInvalid ((fun e => e.2.2) <$> list_find (fun f => f.1.2 = name) fields) |}.
  done.
Defined.

Definition object (l : list (string * value)) : value := VMap true ((fun e => (e.1, VIface (Some e.2))) <$> l).
Definition array (l : list value) : value := VSlice ((fun v => VIface (Some v)) <$> l).

(** The values found with a template. *)
Definition query (t : string) (data : value) : option (list (list value) * option eval_error) :=
  match FindResults data (Parse t New).1 with Some (_, r, err) => Some (r, err) | None => None end.

Definition item (name : string) (containers : list value) : value :=
  object [("name", VString name); ("containers", array containers)].

Definition items (l : list value) : value := object [("items", array l)].

Definition pods : value := items [item "a" [VInt 1; VInt 2]; item "b" [VInt 3]].

(** A template with a range, and its blocks. *)
Definition with_range : string := "{range .items[*]}{.name}:{end}{.items[-1].name}".

Definition all_items : list node :=
  [FieldNode "items"; ArrayNode (mkParam 0 false false) (mkParam 0 false false) (mkParam 0 false false)].

Definition range_blocks : blocks :=
  Range all_items
    (Plain (ListNode [FieldNode "name"]) (Plain (TextNode ":") Nil))
    (Plain (ListNode [FieldNode "items"; ArrayNode (mkParam (-1) true false) (mkParam 0 true true) (mkParam 0 false false);
                      FieldNode "name"]) Nil).

Example with_range_parsed : template (Parse with_range New).1 = Some (flatten range_blocks).
Proof. vm_compute. done. Qed.

Lemma template_is_structured_witness :
  match eval_blocks (Parse with_range New).1 range_blocks pods with
  | None => FindResults pods (Parse with_range New).1 = None
  | Some (inr err) => exists j', FindResults pods (Parse with_range New).1 = Some (j', [], Some err)
  | Some (inl rs) => exists j', counters_ok j' /\ FindResults pods (Parse with_range New).1 = Some (j', rs, None)
  end.
Proof.
  apply template_is_structured; [reflexivity|vm_compute; reflexivity|reflexivity|].
  unfold counters_ok. vm_compute. split_and!; congruence.
Defined.

Example with_range_found :
  query with_range pods =
    Some ([[VIface (Some (VString "a"))]; [VString ":"]; [VIface (Some (VString "b"))]; [VString ":"]; [VIface (Some (VString "b"))]], None).
Proof. vm_compute. done. Qed.

Lemma array_index_exact_witness :
  evalArray (mkParam (-2) true false) (mkParam (wrap64 (-2 + 1)) true true) (mkParam 0 false false)
    [VSlice [VInt 1; VInt 2]] New = Some (New, [VInt 1], None).
Proof.
  apply (array_index_exact (-2) [VInt 1; VInt 2] New); [unfold in_int64; vm_compute; split; congruence|vm_compute; congruence].
Defined.

(** A selection of nothing leaves the loop over the input: the containers of the items after
    the first empty list are lost. *)
Example empty_array_ends_selection :
  query "{.items[*].containers[*]}" (items [item "a" [VInt 1]; item "b" []; item "c" [VInt 3]]) =
    Some ([[VIface (Some (VInt 1))]], None).
Proof. vm_compute. done. Qed.

(** The nodes of the root are not put back: a second execution begins after the range. *)
Example second_execution_differs :
  match FindResults pods (Parse with_range New).1 with
  | Some (j, r, None) =>
      length r = 5%nat /\
      match FindResults pods j with Some (_, r', err) => r' = [] /\ err = Some (FieldNotFound "name") | None => False end
  | _ => False
  end.
Proof. vm_compute. done. Qed.

(** The filter for existence does not look at the error: an index out of range exists. *)
Example exists_ignores_errors :
  query "{.items[?(@.containers[7])].name}" pods =
    Some ([[VIface (Some (VString "a")); VIface (Some (VString "b"))]], None).
Proof. vm_compute. done. Qed.

(** An index in the body of a range over nothing is a panic. *)
Example empty_range_panics : query "{range .items[*]}{[0]}{end}" (items []) = None.
Proof. vm_compute. done. Qed.

(** A quoted string cannot end in an escaped backslash. *)
Example escaped_backslash :
  match JSONPathParser.Parse "" (str (chars "{" ++ [double_quote; backslash; backslash; double_quote] ++ chars "}")) with
  | Fails e => e = UnterminatedQuotedString
  | _ => False
  end.
Proof. vm_compute. done. Qed.

(** After the end of a range is forgotten, the body is gone through once more outside. *)
Example unclosed_range :
  query "{range .items[*]}{.name}" pods = Some ([], Some (FieldNotFound "name")).
Proof. vm_compute. done. Qed.

End samples.
